(* ===== verification/_CoqProject ===== *)
-Q . S2P
Prelude.v
Source.v
SourceText.v
SourcePaths.v
SourceTheorems.v
Diagnostics.v
Abi.v
AbiSound.v
AbiTheorems.v
LayoutData.v
RuntimeAbi.v
ControlModel.v
PayloadSound.v
ControlInvariant.v
ControlConstruct.v
ControlTheorems.v
RuntimeTheorems.v
CfgAlgorithms.v
ControlFlow.v
CfgReach.v
Dominators.v
DomIntervals.v
DomTotal.v
TopoSort.v
ControlFlowSpec.v
CheckLogic.v
ControlFlowSound.v
CfgSound.v
PreflightSound.v
VerifySound.v
ControlFlowExec.v
ControlFlowTheorems.v
Layout.v
LayoutCycles.v
LayoutCompute.v
LayoutDocument.v
LayoutCodec.v
LayoutLogic.v
LayoutKeys.v
LayoutDfs.v
LayoutAcyclic.v
LayoutRecords.v
LayoutVerify.v
LayoutUse.v
LayoutTheorems.v
Syntax.v
Snapshot.v
DiagnosticTheorems.v
SnapshotLimits.v
SnapshotArenas.v
SnapshotTotal.v
Semantics.v
SemGraphs.v
SemLower.v
SemValues.v
SemProgram.v
SourceSemantics.v
SourceRelation.v
CfgSteps.v
SemPrune.v
SemLogic.v
SemExpr.v
SemMerge.v
SemBranch.v
SemLoop.v
SemFunction.v
SemTotal.v
SemVerdict.v
SemCorrect.v
SemTheorems.v
SnapshotTheorems.v
NativeMir.v
MirLimits.v
MirEquiv.v
MirVerify.v
MirLower.v
MirTheorems.v
Package.v
PackageSound.v
PackageTheorems.v
