(* ===== verification/Prelude.v ===== *)
(** * Verification of the Zryna compiler core

    Zryna compiles a small typed language through a chain of authenticated
    stages: every stage takes raw claims, verifies them against the source map,
    and hands a sealed value to the next.  This library models the stages that
    decide what a program means and whether it is accepted, and proves what an
    acceptance guarantees.  The source is Rust, under [src/crates/]; a function
    of the code is a definition of (almost always) the same name here, a struct
    a record, an enum an inductive type.

    ** Parts, files and code

    - Shared notions, this file: [Result], checked machine arithmetic on [N],
      indexing by machine integers ([get]), stable sorting, and the lemmas on
      lists that the parts share, and the state monads of the stages.
    - Diagnostics ([zryna-diagnostics/src/lib.rs]): [Diagnostics] holds their
      values, the escaped text and the reports; results in [DiagnosticTheorems].
    - Source maps ([zryna-source/src/lib.rs], [span_validation.rs]): [Source]
      holds paths, imports, map construction, spans and positions; [SourceText]
      and [SourcePaths] their lemmas; [SourceTheorems] the results.
    - Scalar ABI ([zryna-abi/src/lib.rs]): [Abi] verifies modules and invocations
      and converts scalars to the carriers of each target; [AbiSound] and
      [AbiTheorems] hold the results.
    - ControlFlowV1 verifier ([zryna-ir/src/control_flow_v1.rs]): [CfgAlgorithms]
      (reachability, postorder, dominators, the topological sorts) and
      [ControlFlow] (raw IR, preflight, every check, [verify]).  [ControlFlowSpec]
      says what a well-formed program is, [ControlFlowExec] what it computes.
      [CfgReach], [Dominators], [DomIntervals], [DomTotal] and
      [TopoSort] verify the algorithms; [CheckLogic] is the logic of clean runs;
      [ControlFlowSound], [CfgSound], [PreflightSound] and [VerifySound]
      go through the verifier; [ControlFlowTheorems] collects.
    - Aggregate layouts ([zryna-layout/src/lib.rs], [raw.rs]): [LayoutData],
      [Layout] (errors, preflight, canonical keys), [LayoutCycles]
      (recursion by value), [LayoutCompute] (records of a target),
      [LayoutDocument] (the sealed document, its auditor, [verify]).  The other
      [Layout...] files verify one stage each; [LayoutVerify] composes them and
      [LayoutTheorems] collects.
    - Ownership runtime ABI ([zryna-ownership-runtime-abi/src/lib.rs],
      [control_model.rs], [control_model/]): [RuntimeAbi] (statuses, transition
      validators, vector growth, derived metadata) with
      [RuntimeTheorems]; [ControlModel] (the replay of symbolic control traces)
      with [PayloadSound], [ControlInvariant],
      [ControlConstruct] and [ControlTheorems].
    - Syntax snapshots ([zryna-syntax/src/v3.rs]): [Syntax] holds verified
      snapshots, [Snapshot] raw ones and [verify_snapshot].  [SnapshotLimits]
      specifies the budgets and with [SnapshotArenas] goes through a
      run without errors, [SnapshotTotal] through every run, and
      [SnapshotTheorems] collects.
    - Semantics of the control-flow profile
      ([zryna-semantics/src/control_flow_v1.rs]): [Semantics] (the error buffer
      of the analysis, symbols, imports),
      [SemGraphs] (module graph, entry exports, call graph), [SemLower] (bodies
      to blocks), [SemValues] (dead parameters, canonical numbering),
      [SemProgram] ([lower]).  [SourceSemantics] is a reference interpreter of
      the syntax trees and [SourceRelation] its big-step form; [CfgSteps] is the
      big-step form of block graphs, drafted or verified.  [SemLogic] is the
      logic of clean runs; [SemExpr], [SemMerge],
      [SemBranch], [SemLoop] and [SemFunction] verify the lowering
      of each construct and the symbol tables, [SemPrune] the passes over drafts; [SemTotal] and [SemVerdict] go through every run, clean or
      not; [SemCorrect] and [SemTheorems] collect.
    - Native MIR of the control-flow profile
      ([zryna-native-mir/src/control_flow_v1.rs]): [NativeMir] (raw MIR,
      preflight, inventory, every check, [mir_verify], and the lowering
      [mir_lower] of a sealed program).  [MirLimits] specifies the preflight;
      [MirEquiv] relates each check to the check of the IR verifier; [MirVerify]
      composes them; [MirLower] shows that lowered programs are accepted and
      interprets MIR; [MirTheorems] collects.  Definitions that exist in both
      crates have the prefix [mir_] or [Mir] here.
    - Package resolution ([zryna-package/src/]): [Package] holds the records
      ([model.rs]), the checks ([validation.rs]), the wire form
      ([canonical.rs]), the resolver ([resolver.rs]), semantic domains
      ([identity.rs]) and the source policy ([source_trust.rs]);
      [PackageSound] goes through the graph check and the resolver,
      [PackageTheorems] collects.  Functions named [manifest], [name],
      [version], [source], [compatibility] are [validate_...] here, [parse],
      [encode] and [digest] are [wire_...], [resolve] is [package_resolve].

    The parts meet where the crates do: [verify_snapshot] yields the input of
    [lower], and [compiled_snapshot_meaning] follows a program from its raw
    claims to the blocks that run; [lower] ends in the [verify] of
    [ControlFlow], which calls [abi_verify_v1] and checks spans with the source
    map; [derive_metadata] of the runtime ABI reads the sealed layouts, and the
    control traces take layouts and metadata; [mir_lower] takes the program that
    [verify] sealed, and [native_snapshot_meaning] follows raw claims that far.
    Theorems cross the same borders: verified layouts always yield metadata, and
    lowered programs are verified.

    ** What the theorems show

    - An accepted snapshot is the raw one with every span validated, every token
      is the text of the source, its arenas are canonical trees and it is within
      every limit; the verifier always returns a verdict.
    - Reports have one order and their text no control character.
    - The analysis of an accepted snapshot always ends in a verdict.
    - Lowering preserves meaning: a call returns a value in the interpreter of
      the syntax trees exactly when the verified program returns it; names
      denote the functions the source says; the passes over drafts end, keep
      what the draft returns, and number values 0, 1, ...
    - An accepted IR program satisfies the declarative specification and every
      limit, and never gets stuck when run; the dominator computation is exact
      and converges; call depths are exact.
    - Lowering a sealed program to native MIR never fails, keeps its public ABI
      and what its calls compute; the independent MIR verifier accepts exactly
      the programs within its limits and with a canonical inventory that pass
      the checks of the IR, and accepted MIR never gets stuck.
    - Accepted layouts satisfy a declarative specification, objects are well
      placed, recursion by value is decided exactly, identities are canonical,
      the verifier is total, and exactly one document is audited as accepted.
    - Accepted control traces leak nothing, counts equal live handles, handles
      are safe to use, allocations are disjoint, payload destruction is the
      recursive one, and the replay is total.
    - A resolved package graph is closed, acyclic and authentic, its lock replays
      it, the graph check is exact, resolution always returns, and the files of a
      manifest form a tree.
    - Source maps are built exactly from valid inputs, in one order, and
      conversions between offsets and positions are exact.
    - Rejections carry at least one diagnostic and at most the published number.

    ** Representation

    Machine integers are [N] with explicit maxima ([u32_max], [u64_max]); a
    checked operation is an option, a saturating one a [min].  Scalars of
    programs are [Z] wrapped to 32 bits by [wrap32].  Strings are ASCII or UTF-8
    byte strings ([string]) and source text is a list of bytes.  A panic of the
    code (an index out of range, a failed [expect]) is a value of the result
    ([None], [Crash]), so that totality theorems rule it out.  Error buffers are
    threaded through a state monad; an early [return] is a [Leave].  The running
    totals of the MIR preflight are a function from counters.  The graph
    algorithms of the IR and the MIR verifier are the same text, and one set of
    definitions ([CfgAlgorithms]).

    ** Fuel

    Recursion that is not structural takes fuel, and running out of it is a
    panic or a timeout, never a silent success.  Worklist searches get one step
    for each node and each edge and one to stop; the dominator iteration gets
    one pass for each block and one to see that nothing changes; canonical keys
    and records recurse at most to [MAX_TRAVERSAL_DEPTH], so [key_fuel] and
    [record_fuel] are that bound and the step beyond it; the mark of live values
    gets one pass for each value and one more.  The totality theorems prove
    these bounds sufficient.  The nesting of blocks is bounded by the number of
    blocks of the arena ([block_fuel]) and the postorder of an expression tree
    visits each node twice ([postorder_fuel]): enough for arenas that are trees,
    as [snapshot_bodies_well_formed] says they are, which [lowering_verdict]
    proves for the analysis as a whole.  Package loading gets a step for each of 16
    packages and 8 dependencies of each ([LOAD_FUEL]), the graph check one for
    each package and edge ([graph_fuel]).  The walks of the snapshot
    verifier get a step for each entry they can push, also on graphs that are
    no trees.  The interpreters take fuel too, and
    the theorems about them quantify over it.

    ** Parameters and hypotheses

    SHA-256 is not part of the repository: the layout fingerprint takes it as
    an argument [sha256], of which nothing is assumed.  Package resolution takes
    the class [Libraries] (printing and reading JSON values, the derived
    conversions of its records, hexadecimal digests), whose documented laws are
    [LibraryLaws], and the caller's [PackageSourceProvider], a state transformer
    of which nothing is assumed; [PackageTheorems] has concrete instances.  [graph_typed] says that
    the [u32] fields of a raw type graph are in range, [snapshot_sized] that the
    files, functions and parameters of a snapshot can be counted in [u32], which
    follows for accepted snapshots.  [built] says that a source map was built.

    ** Not modelled

    The JSON decoding of snapshots, the ownership, generic and command profiles
    (IR, semantics and syntax versions 4 and 5), the generic layouts, the generic
    runtime ABI with the declaration contract and C header, and the other
    profiles of native MIR are within reach of the same techniques.  The back
    ends generate text or binaries for engines whose semantics is not in the
    repository; the driver, the process and file-system crates and the adapters
    are effects of the operating system. *)
From stdpp Require Import base numbers list list_numbers strings pretty gmap sorting.

(** ** Results: Rust's [Result<A, E>] *)

Inductive result (E A : Type) : Type :=
  | Ok (a : A)
  | Err (e : E).
Arguments Ok {E A} a.
Arguments Err {E A} e.

#[export] Instance result_ret {E} : MRet (result E) := fun A a => Ok a.
#[export] Instance result_bind {E} : MBind (result E) := fun A B f r =>
  match r with Ok a => f a | Err e => Err e end.

Lemma bind_ok {E A B} (m : result E A) (f : A -> result E B) b :
  m ≫= f = Ok b <-> exists a, m = Ok a /\ f a = Ok b.
Proof. destruct m; cbn; naive_solver. Qed.

Definition is_ok {E A} (r : result E A) : bool := match r with Ok _ => true | Err _ => false end.

(** [Option::ok_or] *)
Definition ok_or {E A} (o : option A) (e : E) : result E A :=
  match o with Some a => Ok a | None => Err e end.

(** [Result::ok] *)
Definition result_ok {E A} (r : result E A) : option A :=
  match r with Ok a => Some a | Err _ => None end.

(** ** Machine integers

    Unsigned machine integers are [N]; a checked operation is [None] when the
    exact value leaves the width. *)

Definition u8_max : N := 255.
Definition u32_max : N := 4294967295.
Definition u64_max : N := 18446744073709551615.

Definition checked_add (max a b : N) : option N :=
  if (a + b <=? max)%N then Some (a + b)%N else None.
Definition checked_mul (max a b : N) : option N :=
  if (a * b <=? max)%N then Some (a * b)%N else None.
Definition checked_sub (a b : N) : option N :=
  if (b <=? a)%N then Some (a - b)%N else None.

(** [u32::try_from] on a [usize] *)
Definition try_u32 (n : N) : option N := if (n <=? u32_max)%N then Some n else None.

(** [usize] of a collection *)
Definition len {A} (l : list A) : N := N.of_nat (length l).
Arguments len {A} l : simpl never.
#[export] Instance len_perm {A} : Proper ((≡ₚ) ==> (=)) (@len A).
Proof. intros l1 l2 H. unfold len. by rewrite H. Qed.

(** Vec indexing with a machine integer: [xs.get(i)] *)
Definition get {A} (l : list A) (i : N) : option A := l !! N.to_nat i.
Arguments get {A} l i : simpl never.

(** ** Indexing lemmas *)

Lemma get_alter_eq {A} (f : A -> A) l i x :
  get l i = Some x -> get (alter f (N.to_nat i) l) i = Some (f x).
Proof. unfold get. intros H. by rewrite list_lookup_alter_eq, H. Qed.
Lemma get_alter_ne {A} (f : A -> A) l i j :
  i <> j -> get (alter f (N.to_nat i) l) j = get l j.
Proof. unfold get. intros H. apply list_lookup_alter_ne. lia. Qed.
Lemma get_Some_lt {A} (l : list A) i x : get l i = Some x -> (i < len l)%N.
Proof. unfold get, len. intros H%lookup_lt_Some. lia. Qed.
Lemma get_snoc {A} (l : list A) x i y :
  get (l ++ [x]) i = Some y <-> get l i = Some y \/ (i = len l /\ y = x).
Proof.
  unfold get, len. rewrite lookup_app_Some, list_lookup_singleton_Some. split.
  - intros [?|[? [? ->]]]; [by left|right]. split; [lia|done].
  - intros [?|[-> ->]]; [by left|right]. split; [lia|]. split; [lia|done].
Qed.
Lemma len_alter {A} (f : A -> A) l i : len (alter f i l) = len l.
Proof. unfold len. by rewrite length_alter. Qed.
Lemma len_snoc {A} (l : list A) x : len (l ++ [x]) = (len l + 1)%N.
Proof. unfold len. rewrite length_app. cbn. lia. Qed.
Lemma elem_of_get {A} (l : list A) x : x ∈ l <-> exists i, get l i = Some x.
Proof.
  rewrite list_elem_of_lookup. split.
  - intros [i H]. exists (N.of_nat i). unfold get. by rewrite Nat2N.id.
  - intros [i H]. by exists (N.to_nat i).
Qed.
Lemma get_lt {A} (l : list A) i : (i < len l)%N -> is_Some (get l i).
Proof. intros H. unfold get. apply lookup_lt_is_Some. unfold len in H. lia. Qed.

(** ** Lists *)

Lemma rev_reverse {A} (l : list A) : rev l = reverse l.
Proof. apply rev_alt. Qed.

Lemma bind_snoc {A B} (f : A -> list B) l x : (l ++ [x]) ≫= f = (l ≫= f) ++ f x.
Proof. rewrite bind_app. cbn. by rewrite app_nil_r. Qed.

Lemma zip_fst {A B} (l : list A) (k : list B) : length l <= length k -> (zip l k).*1 = l.
Proof.
  revert k. induction l as [|x l IH]; intros [|y k] H; simpl in *; [done..|lia|].
  f_equal. apply IH. lia.
Qed.
Lemma bind_seq {A B} (f : A -> list B) (l : list A) :
  l ≫= f = seq 0 (length l) ≫= fun i => match l !! i with Some x => f x | None => [] end.
Proof.
  induction l as [|x l IH]; [done|]. cbn. f_equal. rewrite IH, <- fmap_S_seq.
  clear IH. induction (seq 0 (length l)) as [|y s IHs]; [done|]. cbn. by rewrite IHs.
Qed.

(** ** Iteration *)

Definition enumerate {A} (l : list A) : list (nat * A) := imap pair l.

(** [slice.windows(2).any(f)] *)
Fixpoint windows2_any {A} (f : A -> A -> bool) (l : list A) : bool :=
  match l with
  | x :: ((y :: _) as r) => f x y || windows2_any f r
  | _ => false
  end.

(** [slice.sort_by]: Rust's sort is stable, so the result is the one of a
    stable insertion sort. [leb] is the non-strict order of the comparison. *)
Fixpoint insert_sorted {A} (leb : A -> A -> bool) (x : A) (l : list A) : list A :=
  match l with
  | [] => [x]
  | y :: r => if leb x y then x :: l else y :: insert_sorted leb x r
  end.
Definition sort_by {A} (leb : A -> A -> bool) (l : list A) : list A :=
  foldr (insert_sorted leb) [] l.

Lemma insert_sorted_perm {A} (leb : A -> A -> bool) x l : insert_sorted leb x l ≡ₚ x :: l.
Proof.
  induction l as [|y l IH]; [done|]. simpl. destruct (leb x y); [done|]. rewrite IH.
  apply Permutation_swap.
Qed.
Lemma sort_by_perm {A} (leb : A -> A -> bool) l : sort_by leb l ≡ₚ l.
Proof. induction l as [|x l IH]; [done|]. simpl. by rewrite insert_sorted_perm, IH. Qed.

(** The result of a sort by a total, transitive comparison is ordered. *)
Section sorted.
Context {A : Type} (leb : A -> A -> bool).
Context (leb_total : forall x y, leb x y = true \/ leb y x = true).
Context (leb_trans : forall x y z, leb x y = true -> leb y z = true -> leb x z = true).
Notation R := (fun x y => leb x y = true).

Lemma insert_sorted_sorted x l : StronglySorted R l -> StronglySorted R (insert_sorted leb x l).
Proof.
  induction 1 as [|y l Hl IH Hy]; simpl; [by repeat constructor|].
  destruct (leb x y) eqn:E.
  - constructor; [by constructor|]. constructor; [done|]. eapply Forall_impl; [exact Hy|eauto].
  - constructor; [done|]. rewrite insert_sorted_perm. constructor; [|done].
    destruct (leb_total x y); congruence.
Qed.

Lemma sort_by_sorted l : StronglySorted R (sort_by leb l).
Proof. induction l as [|x l IH]; [constructor|]. by apply insert_sorted_sorted. Qed.
End sorted.

(** ** Total indexing

    [v[i]] of a Rust vector at an index its callers keep in range. *)
Declare Scope zryna_scope.
Delimit Scope zryna_scope with zryna.
Notation "l .[ i ]" := (@lookup_total nat _ _ (@list_lookup_total _ _) i l)
  (at level 1, i at level 200, left associativity, format "l .[ i ]") : zryna_scope.
Open Scope zryna_scope.

(** ** Checker monad

    A Rust function that mutates its [&mut] arguments and may [return] early:
    the state is threaded, and [None] says that the enclosing function has
    returned.  [body] is a call to such a function. *)
Definition M (S A : Type) : Type := S -> S * option A.

#[export] Instance M_ret {S} : MRet (M S) := fun A a s => (s, Some a).
#[export] Instance M_bind {S} : MBind (M S) := fun A B f m s =>
  let '(s', o) := m s in
  match o with Some a => f a s' | None => (s', None) end.

(** [return] *)
Definition return_now {S A} : M S A := fun s => (s, None).
(** A call of a [fn ... -> ()]: its early return ends here. *)
Definition body {S} (m : M S unit) : M S unit := fun s => ((m s).1, Some tt).
Definition gets {S A} (f : S -> A) : M S A := fun s => (s, Some (f s)).
Definition modify {S} (f : S -> S) : M S unit := fun s => (f s, Some tt).
Definition when {S} (b : bool) (m : M S unit) : M S unit := if b then m else mret tt.

(** [for x in l { f(x) }] *)
Fixpoint for_each {S A} (l : list A) (f : A -> M S unit) : M S unit :=
  match l with
  | [] => mret tt
  | x :: r => f x;; for_each r f
  end.

(** ** State, early returns and panics

    A method threads its [&mut] state, may [return] a value early and may panic. *)

(** [Next a]: the next statement runs; [Leave r]: the enclosing function has
    returned [r]; [Crash]: a panic, or a loop that outlives the fuel of its
    model. *)
Inductive flow (R A : Type) := Next (a : A) | Leave (r : R) | Crash.
Arguments Next {R A} a.
Arguments Leave {R A} r.
Arguments Crash {R A}.

Definition SM (S R A : Type) : Type := S -> S * flow R A.
#[export] Instance SM_ret {S R} : MRet (SM S R) := fun A a s => (s, Next a).
#[export] Instance SM_bind {S R} : MBind (SM S R) := fun A B f m s =>
  match m s with
  | (s, Next a) => f a s
  | (s, Leave r) => (s, Leave r)
  | (s, Crash) => (s, Crash)
  end.

(** [return r] *)
Definition leave {S R A} (r : R) : SM S R A := fun s => (s, Leave r).
Definition crash {S R A} : SM S R A := fun s => (s, Crash).
Definition sgets {S R A} (f : S -> A) : SM S R A := fun s => (s, Next (f s)).
Definition smodify {S R} (f : S -> S) : SM S R unit := fun s => (f s, Next tt).
Definition swhen {S R} (b : bool) (m : SM S R unit) : SM S R unit := if b then m else mret tt.
(** A call: the early returns of the callee end here. *)
Definition invoke {S R A} (m : SM S A A) : SM S R A := fun s =>
  match m s with (s, Leave a) => (s, Next a) | (s, Next a) => (s, Next a) | (s, Crash) => (s, Crash) end.
(** An index or an [expect] *)
Definition sexpect {S R A} (o : option A) : SM S R A :=
  match o with Some a => mret a | None => crash end.
(** [o?], and [let Some(x) = o else { return r }] *)
Definition or_leave {S R A} (o : option A) (r : R) : SM S R A :=
  match o with Some a => mret a | None => leave r end.
(** A call of a function whose [None] is a value for the caller *)
Definition catch {S R A} (m : SM S unit A) : SM S R (option A) := fun s =>
  match m s with (s, Next a) => (s, Next (Some a)) | (s, Leave _) => (s, Next None) | (s, Crash) => (s, Crash) end.

(** ** Total runs

    [wp m s Q L]: from the state [s] the computation ends, with a value as [Q]
    says or an early return as [L] says, and never in a crash. *)
Section wp.
Context {S R : Type}.
Definition wp {A} (m : SM S R A) (s : S) (Q : S -> A -> Prop) (L : S -> R -> Prop) : Prop :=
  match m s with (s', Next a) => Q s' a | (s', Leave r) => L s' r | (_, Crash) => False end.

Lemma wp_ret {A} (a : A) s (Q : S -> A -> Prop) L : Q s a -> wp (mret a) s Q L.
Proof. done. Qed.
Lemma wp_leave {A} (r : R) s (Q : S -> A -> Prop) (L : S -> R -> Prop) : L s r -> wp (leave r) s Q L.
Proof. done. Qed.
Lemma wp_gets {A} (f : S -> A) s (Q : S -> A -> Prop) L : Q s (f s) -> wp (sgets f) s Q L.
Proof. done. Qed.
Lemma wp_modify (f : S -> S) s (Q : S -> unit -> Prop) L : Q (f s) tt -> wp (smodify f) s Q L.
Proof. done. Qed.
Lemma wp_expect {A} (o : option A) s (Q : S -> A -> Prop) L :
  is_Some o -> (forall a, o = Some a -> Q s a) -> wp (sexpect o) s Q L.
Proof. intros [a ->] HQ. by apply HQ. Qed.
Lemma wp_or_leave {A} (o : option A) (r : R) s (Q : S -> A -> Prop) (L : S -> R -> Prop) :
  (forall a, o = Some a -> Q s a) -> (o = None -> L s r) -> wp (or_leave o r) s Q L.
Proof. destruct o; [intros HQ _; by apply HQ|intros _ HL; by apply HL]. Qed.
Lemma wp_bind {A B} (m : SM S R A) (f : A -> SM S R B) s (Q : S -> B -> Prop) L :
  wp m s (fun s' a => wp (f a) s' Q L) L -> wp (m ≫= f) s Q L.
Proof. unfold wp, mbind, SM_bind. by destruct (m s) as [s' []]. Qed.
Lemma wp_when b (m : SM S R unit) s (Q : S -> unit -> Prop) L :
  (b = true -> wp m s Q L) -> (b = false -> Q s tt) -> wp (swhen b m) s Q L.
Proof. destruct b; [auto|]. intros _ HQ. by apply HQ. Qed.
Lemma wp_mono {A} (m : SM S R A) s (Q Q' : S -> A -> Prop) (L L' : S -> R -> Prop) :
  wp m s Q L -> (forall s' a, Q s' a -> Q' s' a) -> (forall s' r, L s' r -> L' s' r) -> wp m s Q' L'.
Proof. unfold wp. intros Hm HQ HL. destruct (m s) as [s' []]; auto. Qed.
Lemma wp_post {A} (m : SM S R A) s (Q Q' : S -> A -> Prop) (L : S -> R -> Prop) :
  wp m s Q L -> (forall s' a, Q s' a -> Q' s' a) -> wp m s Q' L.
Proof. intros Hm HQ. by eapply wp_mono. Qed.
End wp.
#[global] Arguments wp {S R A} m s Q L : simpl never.
Lemma wp_invoke {S R A} (m : SM S A A) s (Q : S -> A -> Prop) (L : S -> R -> Prop) : wp m s Q Q -> wp (invoke m) s Q L.
Proof. unfold wp, invoke. by destruct (m s) as [s' []]. Qed.
