(* ===== verification/Source.v ===== *)
(** * Source authority ([crates/zryna-source])

    Portable source paths, explicit relative imports, the immutable
    [SourceMap], UTF-8 spans, line and column resolution.  A Rust [str] that
    holds source text is its list of Unicode scalar values; its bytes are
    [utf8_encode].  A Rust [String] that holds a path is a Stdlib [string]
    (one [ascii] per UTF-8 byte). *)
From stdpp Require Import base numbers list list_numbers strings pretty gmap sorting.
From Stdlib Require Import Ascii.
From S2P Require Import Prelude.

(** ** Limits *)

Definition MAX_SOURCE_FILES : N := 4096.
Definition MAX_SOURCE_FILE_BYTES : N := 2 * 1024 * 1024.
Definition MAX_SOURCE_BYTES : N := 64 * 1024 * 1024.
Definition MAX_SOURCE_PATH_BYTES : N := 1024.
Definition MAX_SOURCE_PATH_COMPONENTS : N := 32.

(** ** Rust [str] operations on byte strings *)

Definition byte_of (a : Ascii.ascii) : N := Ascii.N_of_ascii a.

Definition slen (s : string) : N := N.of_nat (String.length s).

Fixpoint str_all (p : Ascii.ascii -> bool) (s : string) : bool :=
  match s with
  | EmptyString => true
  | String a r => p a && str_all p r
  end.

Definition str_any (p : Ascii.ascii -> bool) (s : string) : bool :=
  negb (str_all (fun a => negb (p a)) s).

Definition str_contains_char (c : Ascii.ascii) (s : string) : bool :=
  str_any (fun a => Ascii.eqb a c) s.

Definition str_contains_any (cs : list Ascii.ascii) (s : string) : bool :=
  str_any (fun a => existsb (Ascii.eqb a) cs) s.

Definition starts_with (p s : string) : bool := String.prefix p s.

Fixpoint ends_with (suffix s : string) : bool :=
  String.eqb suffix s ||
  match s with
  | EmptyString => false
  | String _ r => ends_with suffix r
  end.

(** [s.contains("...")] for a string pattern *)
Fixpoint str_contains (needle s : string) : bool :=
  String.prefix needle s ||
  match s with
  | EmptyString => false
  | String _ r => str_contains needle r
  end.

(** [s.split(c)]: always at least one component *)
Fixpoint split_on (c : Ascii.ascii) (s : string) : list string :=
  match s with
  | EmptyString => [EmptyString]
  | String a r =>
      if Ascii.eqb a c then EmptyString :: split_on c r
      else match split_on c r with
           | h :: t => String a h :: t
           | [] => [String a EmptyString]
           end
  end.

(** [components.join("/")] *)
Fixpoint join_with (c : Ascii.ascii) (l : list string) : string :=
  match l with
  | [] => EmptyString
  | [s] => s
  | s :: r => s +:+ String c (join_with c r)
  end.

Definition strip_prefix (p s : string) : option string :=
  if String.prefix p s then Some (String.substring (String.length p) (String.length s - String.length p) s)
  else None.

Definition is_ascii (s : string) : bool := str_all (fun a => (byte_of a <? 128)%N) s.

Definition is_ascii_upper (a : Ascii.ascii) : bool :=
  ((65 <=? byte_of a) && (byte_of a <=? 90))%N.
Definition is_ascii_lower (a : Ascii.ascii) : bool :=
  ((97 <=? byte_of a) && (byte_of a <=? 122))%N.
Definition is_ascii_digit (a : Ascii.ascii) : bool :=
  ((48 <=? byte_of a) && (byte_of a <=? 57))%N.
Definition is_ascii_control (a : Ascii.ascii) : bool :=
  ((byte_of a <? 32) || (byte_of a =? 127))%N.

Definition lower_char (a : Ascii.ascii) : Ascii.ascii :=
  if is_ascii_upper a then Ascii.ascii_of_N (byte_of a + 32) else a.

Fixpoint to_ascii_lowercase (s : string) : string :=
  match s with
  | EmptyString => EmptyString
  | String a r => String (lower_char a) (to_ascii_lowercase r)
  end.

(** Byte-lexicographic order of strings: [as_bytes().cmp] and [String::cmp] *)
Fixpoint str_leb (s t : string) : bool :=
  match s, t with
  | EmptyString, _ => true
  | String _ _, EmptyString => false
  | String a r, String b u =>
      (byte_of a <? byte_of b)%N || ((byte_of a =? byte_of b)%N && str_leb r u)
  end.

(** [as_bytes()] *)
Fixpoint bytes_of_string (s : string) : list N :=
  match s with EmptyString => [] | String a r => byte_of a :: bytes_of_string r end.

(** ** UTF-8 text *)

(** One Unicode scalar value *)
Definition scalar := N.
Definition is_scalar (c : N) : bool :=
  ((c <? 55296) || ((57344 <=? c) && (c <=? 1114111)))%N.

Definition len_utf8 (c : scalar) : N :=
  (if c <? 128 then 1 else if c <? 2048 then 2 else if c <? 65536 then 3 else 4)%N.
Definition len_utf16 (c : scalar) : N := (if c <? 65536 then 1 else 2)%N.

Definition encode_char (c : scalar) : list N :=
  (if c <? 128 then [c]
   else if c <? 2048 then [192 + c / 64; 128 + c mod 64]
   else if c <? 65536 then [224 + c / 4096; 128 + (c / 64) mod 64; 128 + c mod 64]
   else [240 + c / 262144; 128 + (c / 4096) mod 64; 128 + (c / 64) mod 64; 128 + c mod 64])%N.

Definition utf8_encode (t : list scalar) : list N := t ≫= encode_char.

(** [text.len()] *)
Definition text_len (t : list scalar) : N := len (utf8_encode t).

(** [text.encode_utf16().count()] *)
Definition utf16_count (t : list scalar) : N := foldr (fun c n => len_utf16 c + n)%N 0%N t.

(** [str::is_char_boundary]: the byte at the index is not a continuation byte *)
Definition is_char_boundary (t : list scalar) (i : N) : bool :=
  if (i =? 0)%N then true
  else if (text_len t <=? i)%N then (i =? text_len t)%N
  else match get (utf8_encode t) i with
       | Some b => negb ((128 <=? b) && (b <? 192))%N
       | None => false
       end.

(** [&text[start..]] and [&text[..end]]; [None] is the slicing panic *)
Fixpoint drop_bytes (n : nat) (t : list scalar) : option (list scalar) :=
  match n, t with
  | O, _ => Some t
  | S _, [] => None
  | S _, c :: r =>
      let w := N.to_nat (len_utf8 c) in
      if Nat.leb w n then drop_bytes (n - w) r else None
  end.
Fixpoint take_bytes (n : nat) (t : list scalar) : option (list scalar) :=
  match n, t with
  | O, _ => Some []
  | S _, [] => None
  | S _, c :: r =>
      let w := N.to_nat (len_utf8 c) in
      if Nat.leb w n then cons c <$> take_bytes (n - w) r else None
  end.
(** [&text[start..end]] *)
Definition slice_bytes (t : list scalar) (a b : N) : option (list scalar) :=
  if (b <? a)%N then None
  else r ← drop_bytes (N.to_nat a) t; take_bytes (N.to_nat (b - a)) r.

(** ** Identities, spans and files *)

Record FileId := mkFileId { source_map_id : N; file_index : N }.
#[export] Instance FileId_eq_dec : EqDecision FileId.
Proof. solve_decision. Defined.

(** A validated path; only [validate_source_path] issues it. *)
Definition NormalizedSourcePath := string.

Record Span := mkSpan { span_file : FileId; span_start : N; span_end : N }.
#[export] Instance Span_eq_dec : EqDecision Span.
Proof. solve_decision. Defined.

Record UntrustedSpan := mkUntrustedSpan { u_file : N; u_start : N; u_end : N }.

Record SourceFileInput := mkSourceFileInput { in_path : string; in_text : list scalar }.

Record SourceFile := mkSourceFile {
  sf_id : FileId;
  sf_path : NormalizedSourcePath;
  sf_text : list scalar;
  sf_line_starts : list N }.

Record SourceMap := mkSourceMap {
  sm_id : N;
  sm_files : list SourceFile;
  sm_identities : gmap string FileId }.

Record SourceError := mkSourceError {
  se_code : string;
  se_path : option string;
  se_message : string;
  se_guidance : string }.

Definition portable_identity (p : NormalizedSourcePath) : string := to_ascii_lowercase p.

(** ** Path policy *)

Definition device_digit (suffix : string) : bool :=
  existsb (String.eqb suffix) ["1"; "2"; "3"; "4"; "5"; "6"; "7"; "8"; "9"].

Definition reserved_device (component : string) : bool :=
  let stem := default EmptyString (head (split_on "."%char component)) in
  let folded := to_ascii_lowercase stem in
  let numbered :=
    match (match strip_prefix "com" folded with
           | Some s => Some s
           | None => strip_prefix "lpt" folded
           end) with
    | Some suffix => device_digit suffix
    | None => false
    end in
  existsb (String.eqb folded) ["con"; "prn"; "aux"; "nul"] || numbered.

Definition reserved_chars : list Ascii.ascii :=
  ["<"; ">"; ":"; Ascii.ascii_of_N 34; "|"; "?"; "*"]%char.

Definition path_guidance : string :=
  "use a portable ASCII workspace-relative path with '/' separators".

Definition invalid_path (path message : string) : SourceError :=
  mkSourceError "ZRYNA-S1001" (Some path) message path_guidance.

Definition validate_component (path component : string) : result SourceError unit :=
  if String.eqb component EmptyString then
    Err (invalid_path path "source path contains an empty component")
  else if String.eqb component "." || String.eqb component ".." then
    Err (invalid_path path "source path contains a traversal component")
  else if (255 <? slen component)%N then
    Err (invalid_path path "source path component exceeds 255 bytes")
  else if ends_with "." component || ends_with " " component then
    Err (invalid_path path "source path component ends with a dot or space")
  else if str_any is_ascii_control component then
    Err (invalid_path path "source path contains a control character")
  else if str_contains_any reserved_chars component then
    Err (invalid_path path "source path contains a Windows-reserved character")
  else if reserved_device component then
    Err (invalid_path path "source path contains a Windows-reserved device name")
  else Ok tt.

Fixpoint validate_components (path : string) (l : list string) : result SourceError unit :=
  match l with
  | [] => Ok tt
  | c :: r => _ ← validate_component path c; validate_components path r
  end.

Definition validate_source_path (path : string) : result SourceError unit :=
  if String.eqb path EmptyString then Err (invalid_path path "source path is empty")
  else if (MAX_SOURCE_PATH_BYTES <? slen path)%N then
    Err (invalid_path path ("source path contains " +:+ pretty (slen path) +:+
                            " bytes; the limit is " +:+ pretty MAX_SOURCE_PATH_BYTES))
  else if negb (is_ascii path) then
    Err (invalid_path path "source path contains non-ASCII characters")
  else if starts_with "/" path || starts_with "//" path then
    Err (invalid_path path "source path is absolute")
  else if str_contains_char "\"%char path then
    Err (invalid_path path "source path contains a backslash")
  else
    let components := split_on "/"%char path in
    if (MAX_SOURCE_PATH_COMPONENTS <? len components)%N then
      Err (invalid_path path ("source path contains " +:+ pretty (len components) +:+
                              " components; the limit is " +:+
                              pretty MAX_SOURCE_PATH_COMPONENTS))
    else validate_components path components.

(** [NormalizedSourcePath::new] *)
Definition normalized_new (path : string) : result SourceError NormalizedSourcePath :=
  _ ← validate_source_path path; Ok path.

(** ** Explicit relative imports *)

Definition has_exact_zry_extension (value : string) : bool := ends_with ".zry" value.

Inductive InvalidModuleSpecifier := invalid_module_specifier.

(** The component stack is kept with its last element first. *)
Fixpoint resolve_components (stack : list string) (l : list string)
    : result InvalidModuleSpecifier (list string) :=
  match l with
  | [] => Ok stack
  | c :: r =>
      if String.eqb c "." then resolve_components stack r
      else if String.eqb c ".." then
        match stack with
        | [] => Err invalid_module_specifier
        | _ :: stack' => resolve_components stack' r
        end
      else if String.eqb c EmptyString then Err invalid_module_specifier
      else resolve_components (c :: stack) r
  end.

Definition specifier_rejected (specifier : string) : bool :=
  negb (starts_with "./" specifier || starts_with "../" specifier)
  || negb (has_exact_zry_extension specifier)
  || negb (is_ascii specifier)
  || str_contains_any ["\"; "?"; "#"; Ascii.zero]%char specifier
  || str_contains "://" specifier.

Definition resolve_explicit_zry_import (importer : NormalizedSourcePath) (specifier : string)
    : result InvalidModuleSpecifier NormalizedSourcePath :=
  if specifier_rejected specifier then Err invalid_module_specifier
  else
    let base := tail (rev (split_on "/"%char importer)) in
    stack ← resolve_components base (split_on "/"%char specifier);
    let resolved := join_with "/"%char (rev stack) in
    if negb (has_exact_zry_extension resolved) then Err invalid_module_specifier
    else match normalized_new resolved with
         | Ok p => Ok p
         | Err _ => Err invalid_module_specifier
         end.

(** ** Line starts *)

Definition line_offset_error : SourceError :=
  mkSourceError "ZRYNA-S1003" None "source line offset exceeds the supported range"
    "reduce the source file before analysis".

(** The [while index < bytes.len()] loop from byte [index] on *)
Fixpoint line_starts_from (bs : list N) (index : N) : result SourceError (list N) :=
  match bs with
  | [] => Ok []
  | b :: r =>
      if (b =? 13)%N then
        match r with
        | b' :: r' =>
            if (b' =? 10)%N then
              next ← ok_or (try_u32 (index + 2)) line_offset_error;
              rest ← line_starts_from r' (index + 2);
              Ok (next :: rest)
            else
              next ← ok_or (try_u32 (index + 1)) line_offset_error;
              rest ← line_starts_from r (index + 1);
              Ok (next :: rest)
        | [] =>
            next ← ok_or (try_u32 (index + 1)) line_offset_error;
            Ok [next]
        end
      else if (b =? 10)%N then
        next ← ok_or (try_u32 (index + 1)) line_offset_error;
        rest ← line_starts_from r (index + 1);
        Ok (next :: rest)
      else line_starts_from r (index + 1)
  end.

Definition line_starts (t : list scalar) : result SourceError (list N) :=
  rest ← line_starts_from (utf8_encode t) 0; Ok (0%N :: rest).

(** ** Building a source map *)

Fixpoint normalize_inputs (inputs : list SourceFileInput)
    : result SourceError (list (NormalizedSourcePath * list scalar)) :=
  match inputs with
  | [] => Ok []
  | input :: r =>
      path ← normalized_new (in_path input);
      if (MAX_SOURCE_FILE_BYTES <? text_len (in_text input))%N then
        Err (mkSourceError "ZRYNA-S1003" (Some path)
               ("source file contains " +:+ pretty (text_len (in_text input)) +:+
                " UTF-8 bytes; the limit is " +:+ pretty MAX_SOURCE_FILE_BYTES)
               "split or reduce the source file before analysis")
      else
        rest ← normalize_inputs r;
        Ok ((path, in_text input) :: rest)
  end.

(** The state of the loop that assigns identifiers *)
Record BuildState := mkBuildState {
  bs_total : N;
  bs_identities : gmap string FileId;
  bs_files : list SourceFile }.

Definition add_file (source_map_id : N) (s : BuildState) (path : NormalizedSourcePath)
    (text : list scalar) : result SourceError BuildState :=
  let identity := portable_identity path in
  match (id ← bs_identities s !! identity; get (bs_files s) (file_index id)) with
  | Some existing =>
      Err (mkSourceError "ZRYNA-S1004" (Some path)
             ("source path collides with '" +:+ sf_path existing +:+
              "' under the portable path identity")
             "use source paths that remain unique when ASCII case is ignored")
  | None =>
      total ← ok_or (checked_add u64_max (bs_total s) (text_len text))
        (mkSourceError "ZRYNA-S1005" None "aggregate source size overflowed the supported range"
           "reduce the source set before analysis");
      if (MAX_SOURCE_BYTES <? total)%N then
        Err (mkSourceError "ZRYNA-S1005" None
               ("source map contains " +:+ pretty total +:+ " UTF-8 bytes; the limit is " +:+
                pretty MAX_SOURCE_BYTES)
               "reduce the source set before analysis")
      else
        raw_id ← ok_or (try_u32 (len (bs_files s)))
          (mkSourceError "ZRYNA-S1002" None
             "source file count exceeds the supported identifier range"
             "reduce the source set before analysis");
        let id := mkFileId source_map_id raw_id in
        starts ← line_starts text;
        Ok (mkBuildState total (<[identity := id]> (bs_identities s))
              (bs_files s ++ [mkSourceFile id path text starts]))
  end.

Fixpoint add_files (source_map_id : N) (s : BuildState)
    (l : list (NormalizedSourcePath * list scalar)) : result SourceError BuildState :=
  match l with
  | [] => Ok s
  | (path, text) :: r =>
      s' ← add_file source_map_id s path text;
      add_files source_map_id s' r
  end.

(** [SourceMap::build]; [next] is the process-wide counter [NEXT_SOURCE_MAP_ID],
    returned with the value it holds afterwards. *)
Definition build (next : N) (inputs : list SourceFileInput) : N * result SourceError SourceMap :=
  if (MAX_SOURCE_FILES <? len inputs)%N then
    (next, Err (mkSourceError "ZRYNA-S1002" None
                  ("source map contains " +:+ pretty (len inputs) +:+
                   " files; the limit is " +:+ pretty MAX_SOURCE_FILES)
                  "reduce the source set before analysis"))
  else
    let inputs := sort_by (fun a b => str_leb (in_path a) (in_path b)) inputs in
    match normalize_inputs inputs with
    | Err e => (next, Err e)
    | Ok normalized =>
        let normalized := sort_by (fun a b => str_leb a.1 b.1) normalized in
        match checked_add u64_max next 1 with
        | None =>
            (next, Err (mkSourceError "ZRYNA-S1010" None "source-map identity space is exhausted"
                          "restart the compiler process before creating another source map"))
        | Some next' =>
            (next', s ← add_files next (mkBuildState 0 ∅ []) normalized;
                    Ok (mkSourceMap next (bs_files s) (bs_identities s)))
        end
    end.

(** ** Queries *)

Definition sm_len (m : SourceMap) : N := len (sm_files m).

Definition sm_file_id (m : SourceMap) (path : NormalizedSourcePath) : option FileId :=
  sm_identities m !! portable_identity path.

(** [SourceMap::source] *)
Definition sm_source (m : SourceMap) (id : FileId) : option SourceFile :=
  if negb (source_map_id id =? sm_id m)%N then None
  else get (sm_files m) (file_index id).

Definition unknown_file (file : FileId) : SourceError :=
  mkSourceError "ZRYNA-S1006" None
    ("source file identifier " +:+ pretty (file_index file) +:+
     " is not present in this source map")
    "use a file identifier issued by the same source map".

Definition invalid_span_order (file : FileId) (start end_ : N) : SourceError :=
  mkSourceError "ZRYNA-S1007" None
    ("source span " +:+ pretty start +:+ ".." +:+ pretty end_ +:+ " in file " +:+
     pretty (file_index file) +:+ " starts after it ends")
    "ensure every source range is half-open and ordered".

Definition invalid_boundary (source : SourceFile) (offset : N) : SourceError :=
  mkSourceError "ZRYNA-S1008" (Some (sf_path source))
    ("UTF-8 byte offset " +:+ pretty offset +:+ " is not a character boundary")
    "use exact UTF-8 byte boundaries from the authoritative source text".

Definition invalid_utf16 (source : SourceFile) (offset : N) : SourceError :=
  mkSourceError "ZRYNA-S1009" (Some (sf_path source))
    ("UTF-16 code-unit offset " +:+ pretty offset +:+ " is not an exact source boundary")
    "use an in-range UTF-16 offset that does not split a surrogate pair".

Definition verify_file_id (m : SourceMap) (raw : N) : result SourceError FileId :=
  let file := mkFileId (sm_id m) raw in
  ok_or (sf_id <$> sm_source m file) (unknown_file file).

(** [SourceMap::validated_source] *)
Definition validated_source (m : SourceMap) (span : Span) : result SourceError SourceFile :=
  source ← ok_or (sm_source m (span_file span)) (unknown_file (span_file span));
  if (span_end span <? span_start span)%N then
    Err (invalid_span_order (span_file span) (span_start span) (span_end span))
  else
    source_len ← ok_or (try_u32 (text_len (sf_text source)))
      (mkSourceError "ZRYNA-S1007" (Some (sf_path source))
         "source length exceeds the supported offset range"
         "reduce the source file before analysis");
    if (source_len <? span_end span)%N then
      Err (mkSourceError "ZRYNA-S1007" (Some (sf_path source))
             ("source span " +:+ pretty (span_start span) +:+ ".." +:+ pretty (span_end span) +:+
              " exceeds file length " +:+ pretty source_len)
             "keep source ranges within the referenced file")
    else if negb (is_char_boundary (sf_text source) (span_start span)) then
      Err (invalid_boundary source (span_start span))
    else if negb (is_char_boundary (sf_text source) (span_end span)) then
      Err (invalid_boundary source (span_end span))
    else Ok source.

(** [SourceMap::span] *)
Definition sm_span (m : SourceMap) (file : FileId) (start end_ : N) : result SourceError Span :=
  let span := mkSpan file start end_ in
  _ ← validated_source m span; Ok span.

Definition verify_span (m : SourceMap) (span : UntrustedSpan) : result SourceError Span :=
  sm_span m (mkFileId (sm_id m) (u_file span)) (u_start span) (u_end span).

(** The [char_indices] loop of [utf16_to_utf8] from [byte_offset], [utf16_offset] on *)
Fixpoint utf16_to_utf8_from (source : SourceFile) (requested : N) (t : list scalar)
    (byte_offset utf16_offset : N) : result SourceError N :=
  match t with
  | [] =>
      if (requested =? utf16_offset)%N then
        ok_or (try_u32 (text_len (sf_text source))) (invalid_utf16 source requested)
      else Err (invalid_utf16 source requested)
  | c :: r =>
      if (requested =? utf16_offset)%N then
        ok_or (try_u32 byte_offset) (invalid_utf16 source requested)
      else
        let width := if (len_utf16 c =? 1)%N then 1%N else 2%N in
        next ← ok_or (checked_add u32_max utf16_offset width) (invalid_utf16 source requested);
        if (requested <? next)%N then Err (invalid_utf16 source requested)
        else utf16_to_utf8_from source requested r (byte_offset + len_utf8 c) next
  end.

Definition utf16_to_utf8 (source : SourceFile) (requested : N) : result SourceError N :=
  utf16_to_utf8_from source requested (sf_text source) 0 0.

(** [SourceMap::span_from_utf16] *)
Definition span_from_utf16 (m : SourceMap) (file : FileId) (start end_ : N)
    : result SourceError Span :=
  if (end_ <? start)%N then Err (invalid_span_order file start end_)
  else
    source ← ok_or (sm_source m file) (unknown_file file);
    start ← utf16_to_utf8 source start;
    end_ ← utf16_to_utf8 source end_;
    sm_span m file start end_.

Record ResolvedPosition := mkResolvedPosition {
  rp_byte_offset : N; rp_line : N; rp_scalar_column : N; rp_utf16_column : N }.

Record ResolvedSpan := mkResolvedSpan {
  rs_source : SourceFile; rs_start : ResolvedPosition; rs_end : ResolvedPosition }.

(** [line_starts.partition_point(|start| start <= offset)] *)
Fixpoint partition_point (offset : N) (l : list N) : nat :=
  match l with
  | [] => 0
  | s :: r => if (s <=? offset)%N then S (partition_point offset r) else 0
  end.

(** [prefix]: the slice from the start of the line to the offset; [None] is a
    panic of the indexing or of the slicing *)
Definition position_prefix (source : SourceFile) (offset : N) : option (list scalar) :=
  let line_index := pred (partition_point offset (sf_line_starts source)) in
  line_start ← sf_line_starts source !! line_index;
  slice_bytes (sf_text source) line_start offset.

Definition saturate_u32 (n : N) : N := if (n <=? u32_max)%N then n else u32_max.

(** [resolve_position]; the theorems show that [position_prefix] is [Some] for
    every span a source map validates. *)
Definition resolve_position (source : SourceFile) (offset : N) : ResolvedPosition :=
  let line_index := pred (partition_point offset (sf_line_starts source)) in
  let prefix := default [] (position_prefix source offset) in
  mkResolvedPosition offset (saturate_u32 (N.of_nat line_index))
    (saturate_u32 (len prefix)) (saturate_u32 (utf16_count prefix)).

(** [SourceMap::resolve] *)
Definition resolve (m : SourceMap) (span : Span) : result SourceError ResolvedSpan :=
  source ← validated_source m span;
  Ok (mkResolvedSpan source (resolve_position source (span_start span))
        (resolve_position source (span_end span))).
