(* ===== verification/SourceText.v ===== *)
(** * Text positions of [zryna-source]

    Byte offsets, UTF-16 offsets and line starts of a source text against a
    reference view of the text: an offset is exact when it is the length of a
    prefix of the scalar values. *)
From stdpp Require Import base numbers list list_numbers strings gmap sorting.
From S2P Require Import Prelude Source.

(** ** Lengths *)

Notation enc := utf8_encode.

Definition blen (t : list scalar) : nat := length (enc t).

Lemma text_len_blen t : text_len t = N.of_nat (blen t).
Proof. done. Qed.

Lemma enc_app p s : enc (p ++ s) = enc p ++ enc s.
Proof. apply bind_app. Qed.

Lemma blen_app p s : blen (p ++ s) = blen p + blen s.
Proof. unfold blen. by rewrite enc_app, length_app. Qed.

Lemma encode_char_length c : length (encode_char c) = N.to_nat (len_utf8 c).
Proof. unfold encode_char, len_utf8. repeat case_match; done. Qed.

Lemma blen_cons c t : blen (c :: t) = N.to_nat (len_utf8 c) + blen t.
Proof. change (c :: t) with ([c] ++ t). rewrite blen_app. f_equal. unfold blen, enc. simpl.
  by rewrite app_nil_r, encode_char_length. Qed.

Lemma len_utf8_range c : (1 <= len_utf8 c <= 4)%N.
Proof. unfold len_utf8. repeat case_match; lia. Qed.

(** Texts with the same encoded length that are prefixes of one text are equal. *)
Lemma prefix_blen p1 s1 p2 s2 : p1 ++ s1 = p2 ++ s2 -> blen p1 = blen p2 -> p1 = p2.
Proof.
  revert p2. induction p1 as [|c p1 IH]; intros [|d p2]; [done|..].
  - intros _. rewrite blen_cons. pose proof (len_utf8_range d). unfold blen. simpl. lia.
  - intros _. rewrite blen_cons. pose proof (len_utf8_range c). unfold blen. simpl. lia.
  - intros [= -> E]. rewrite !blen_cons. intros El. f_equal. apply IH; [done|lia].
Qed.

(** ** Character boundaries *)

Definition continuation (b : N) : bool := ((128 <=? b) && (b <? 192))%N.

Lemma encode_char_shape c :
  exists b r, encode_char c = b :: r /\ continuation b = false /\ Forall (fun x => continuation x) r.
Proof.
  unfold encode_char, continuation.
  assert (forall x, continuation (128 + x mod 64) = true) as Hc.
  { intros x. unfold continuation. pose proof (N.mod_lt x 64 ltac:(done)). revert H. generalize (x mod 64)%N. intros y H.
    apply andb_true_intro. split; [apply N.leb_le|apply N.ltb_lt]; lia. }
  destruct (N.ltb_spec c 128); [|destruct (N.ltb_spec c 2048); [|destruct (N.ltb_spec c 65536)]];
    eexists _, _; (split; [reflexivity|]); split.
  - apply andb_false_intro1, N.leb_gt. lia.
  - constructor.
  - apply andb_false_intro2, N.ltb_ge. generalize (c `div` 64)%N (c `div` 4096)%N (c `div` 262144)%N. lia.
  - repeat constructor. apply Is_true_true, Hc.
  - apply andb_false_intro2, N.ltb_ge. generalize (c `div` 64)%N (c `div` 4096)%N (c `div` 262144)%N. lia.
  - repeat constructor; apply Is_true_true, Hc.
  - apply andb_false_intro2, N.ltb_ge. generalize (c `div` 64)%N (c `div` 4096)%N (c `div` 262144)%N. lia.
  - repeat constructor; apply Is_true_true, Hc.
Qed.

(** An exact offset of [t]: the encoded length of a prefix *)
Definition exact_offset (t : list scalar) (k : nat) : Prop :=
  exists p s, t = p ++ s /\ blen p = k.

Lemma exact_cons c t k :
  exact_offset (c :: t) k <->
  k = 0 \/ (N.to_nat (len_utf8 c) <= k /\ exact_offset t (k - N.to_nat (len_utf8 c))).
Proof.
  split.
  - intros (p & s & E & <-). destruct p as [|d p]; [by left|right]. injection E as <- ->.
    rewrite blen_cons. split; [lia|]. exists p, s. split; [done|lia].
  - intros [->|(H & p & s & -> & E)]; [by exists [], (c :: t)|].
    exists (c :: p), s. split; [done|]. rewrite blen_cons. lia.
Qed.

Lemma exact_inside t k b :
  enc t !! k = Some b -> continuation b = false <-> exact_offset t k.
Proof.
  revert k. induction t as [|c t IH]; intros k Hk; [done|].
  rewrite exact_cons. change (enc (c :: t)) with (encode_char c ++ enc t) in Hk.
  rewrite <- encode_char_length. destruct (encode_char_shape c) as (b0 & r & E & Hb0 & Hr).
  destruct (decide (k < length (encode_char c))) as [Hlt|Hge].
  - rewrite lookup_app_l in Hk by done. rewrite E in *. destruct k as [|k]; simpl in *.
    + injection Hk as ->. split; [by left|done].
    + rewrite Forall_lookup in Hr. pose proof (Hr _ _ Hk) as H. apply Is_true_true in H.
      rewrite H. split; [done|lia].
  - rewrite lookup_app_r in Hk by lia. rewrite (IH _ Hk).
    split; [intros ?; right; split; [lia|done]|].
    intros [->|[_ ?]]; [|done]. rewrite E in Hge. simpl in Hge. lia.
Qed.

(** [is_char_boundary] holds exactly at the lengths of prefixes. *)
Lemma char_boundary_exact t i : is_char_boundary t i = true <-> exact_offset t (N.to_nat i).
Proof.
  unfold is_char_boundary. destruct (N.eqb_spec i 0) as [->|H0]; [split; [|done]|].
  { intros _. by exists [], t. }
  rewrite text_len_blen. destruct (N.leb_spec (N.of_nat (blen t)) i) as [Hge|Hlt].
  - rewrite N.eqb_eq. split.
    + intros ->. exists t, []. by rewrite app_nil_r, Nat2N.id.
    + intros (p & s & -> & E). rewrite blen_app in Hge |- *. lia.
  - unfold get. destruct (lookup_lt_is_Some_2 (enc t) (N.to_nat i)) as [b Hb].
    { unfold blen in Hlt. lia. }
    rewrite Hb, <- (exact_inside _ _ _ Hb). unfold continuation. by rewrite negb_true_iff.
Qed.

(** ** Slicing *)

Lemma drop_bytes_exact p s : drop_bytes (blen p) (p ++ s) = Some s.
Proof.
  induction p as [|c p IH]; [by destruct s|]. rewrite blen_cons. simpl.
  pose proof (len_utf8_range c). destruct (N.to_nat (len_utf8 c) + blen p) eqn:E; [lia|].
  rewrite <- E, (proj2 (Nat.leb_le _ _)) by lia.
  replace (_ + blen p - _) with (blen p) by lia. done.
Qed.

Lemma take_bytes_exact p s : take_bytes (blen p) (p ++ s) = Some p.
Proof.
  induction p as [|c p IH]; [by destruct s|]. rewrite blen_cons. simpl.
  pose proof (len_utf8_range c). destruct (N.to_nat (len_utf8 c) + blen p) eqn:E; [lia|].
  rewrite <- E, (proj2 (Nat.leb_le _ _)) by lia.
  replace (_ + blen p - _) with (blen p) by lia. by rewrite IH.
Qed.

Lemma slice_exact p q s a b :
  N.to_nat a = blen p -> N.to_nat b = blen (p ++ q) -> slice_bytes (p ++ q ++ s) a b = Some q.
Proof.
  intros Ha Hb. rewrite blen_app in Hb. unfold slice_bytes.
  rewrite (proj2 (N.ltb_ge _ _)) by lia. rewrite Ha, drop_bytes_exact. cbn.
  replace (N.to_nat (b - a)) with (blen q) by lia. apply take_bytes_exact.
Qed.

(** Two exact offsets in order cut the text in three. *)
Lemma exact_pair t a b :
  exact_offset t a -> exact_offset t b -> a <= b ->
  exists p q s, t = p ++ q ++ s /\ blen p = a /\ blen (p ++ q) = b.
Proof.
  revert a b. induction t as [|c t IH]; intros a b Ha Hb Hle.
  - destruct Ha as (p & s & E & <-), Hb as (p' & s' & E' & <-).
    symmetry in E, E'. apply app_nil in E as [-> ->], E' as [-> ->]. by exists [], [], [].
  - apply exact_cons in Ha as [->|[Hla Ha]].
    { destruct Hb as (p & s & -> & <-). by exists [], p, s. }
    apply exact_cons in Hb as [->|[Hlb Hb]]; [pose proof (len_utf8_range c); lia|].
    destruct (IH _ _ Ha Hb ltac:(lia)) as (p & q & s & -> & E1 & E2).
    exists (c :: p), q, s. split; [done|]. change ((c :: p) ++ q) with (c :: (p ++ q)).
    rewrite !blen_cons. lia.
Qed.

(** ** UTF-16 offsets *)

Lemma utf16_app p s : utf16_count (p ++ s) = (utf16_count p + utf16_count s)%N.
Proof. induction p as [|c p IH]; simpl; [done|]. rewrite IH. lia. Qed.

Lemma utf16_le_utf8 t : (utf16_count t <= text_len t)%N.
Proof.
  rewrite text_len_blen. induction t as [|c t IH]; simpl; [lia|]. rewrite blen_cons.
  unfold len_utf16, len_utf8.
  destruct (N.ltb_spec c 65536), (N.ltb_spec c 128), (N.ltb_spec c 2048); lia.
Qed.

Lemma utf16_from_exact source requested q t k :
  sf_text source = q ++ t -> (text_len (sf_text source) <= u32_max)%N ->
  utf16_to_utf8_from source requested t (text_len q) (utf16_count q) = Ok k <->
  exists p s, t = p ++ s /\ utf16_count (q ++ p) = requested /\ text_len (q ++ p) = k.
Proof.
  revert q. induction t as [|c t IH]; intros q Ht Hlen; simpl.
  - rewrite app_nil_r in Ht. rewrite Ht in *. unfold try_u32.
    rewrite (proj2 (N.leb_le _ _)) by done. simpl. destruct (N.eqb_spec requested (utf16_count q)) as [->|Hne].
    + split; [intros [= <-]; exists [], []; by rewrite !app_nil_r|].
      intros (p & s & E & _ & <-). symmetry in E. apply app_nil in E as [-> ->]. by rewrite app_nil_r.
    + split; [done|]. intros (p & s & E & <- & _). symmetry in E. apply app_nil in E as [-> ->].
      by rewrite app_nil_r in Hne.
  - assert (text_len q <= u32_max)%N as Hq.
    { rewrite Ht, text_len_blen, blen_app in Hlen. rewrite text_len_blen. lia. }
    unfold try_u32. rewrite (proj2 (N.leb_le _ _)) by done. simpl.
    destruct (N.eqb_spec requested (utf16_count q)) as [->|Hne].
    + split; [intros [= <-]; exists [], (c :: t); by rewrite !app_nil_r|].
      intros (p & s & _ & E & <-). rewrite utf16_app in E. destruct p as [|d p]; [by rewrite !app_nil_r|].
      simpl in E. unfold len_utf16 in E. case_match; lia.
    + set (w := len_utf16 c). assert ((if (w =? 1)%N then 1%N else 2%N) = w) as ->.
      { unfold w, len_utf16. by destruct (c <? 65536)%N. }
      assert (utf16_count (q ++ [c]) = utf16_count q + w)%N as Ew.
      { rewrite utf16_app. simpl. unfold w. lia. }
      assert (sf_text source = (q ++ [c]) ++ t) as Ht' by (by rewrite <- app_assoc).
      assert (utf16_count q + w <= u32_max)%N as Hw.
      { rewrite <- Ew. etrans; [apply utf16_le_utf8|]. etrans; [|exact Hlen].
        rewrite Ht', !text_len_blen, (blen_app (q ++ [c])). lia. }
      unfold checked_add. rewrite (proj2 (N.leb_le _ _)) by done. simpl.
      assert (forall p s, c :: t = p ++ s -> utf16_count (q ++ p) = requested ->
                exists p', p = c :: p' /\ t = p' ++ s) as Hp.
      { intros [|d p] s E E'; [by rewrite app_nil_r in E'|]. injection E as <- ->. eauto. }
      destruct (N.ltb_spec requested (utf16_count q + w)) as [Hlt|Hge].
      * split; [done|]. intros (p & s & E & Er & _). destruct (Hp _ _ E Er) as (p' & -> & _).
        rewrite utf16_app in Er. simpl in Er. unfold w in Hlt. lia.
      * replace (text_len q + len_utf8 c)%N with (text_len (q ++ [c]))
          by (rewrite !text_len_blen, blen_app, blen_cons; unfold blen; simpl; lia).
        rewrite <- Ew, (IH _ Ht' Hlen). split.
        -- intros (p & s & -> & E1 & E2). exists (c :: p), s. rewrite <- app_assoc in E1, E2. done.
        -- intros (p & s & E & E1 & E2). destruct (Hp _ _ E E1) as (p' & -> & ->).
           exists p', s. by rewrite <- app_assoc.
Qed.

(** ** Lines *)

(** A line starts at byte [k > 0]: after a line feed, or after a carriage
    return that no line feed follows. *)
Definition line_break (bs : list N) (k : nat) : bool :=
  match k with
  | 0 => false
  | S j => match bs !! j with
           | Some b => ((b =? 10) || ((b =? 13) && negb (bool_decide (bs !! k = Some 10))))%N
           | None => false
           end
  end.

(** The line breaks up to byte [n], in order, and the last of them *)
Definition breaks_upto (bs : list N) (n : nat) : list nat := filter (fun k => line_break bs k) (seq 1 n).

Fixpoint last_break (bs : list N) (n : nat) : nat :=
  match n with
  | 0 => 0
  | S m => if line_break bs n then n else last_break bs m
  end.

Lemma filter_fmap_S (P Q : nat -> bool) (l : list nat) :
  (forall k, k ∈ l -> P (S k) = Q k) ->
  filter (fun k => P k) (S <$> l) = S <$> filter (fun k => Q k) l.
Proof.
  induction l as [|k l IH]; intros H; [done|].
  rewrite fmap_cons, !filter_cons, H, IH by set_solver. by destruct (Q k).
Qed.

Lemma breaks_cons b bs :
  breaks_upto (b :: bs) (S (length bs)) =
  (if line_break (b :: bs) 1 then [1] else []) ++ (S <$> breaks_upto bs (length bs)).
Proof.
  unfold breaks_upto. change (seq 1 (S (length bs))) with (1 :: seq 2 (length bs)).
  rewrite <- (fmap_S_seq 1), filter_cons, (filter_fmap_S _ (line_break bs)).
  - by destruct (line_break (b :: bs) 1).
  - intros k Hk%elem_of_seq. destruct k; [lia|done].
Qed.

Lemma try_u32_le n : (n <= u32_max)%N -> try_u32 n = Some n.
Proof. intros H. unfold try_u32. by rewrite (proj2 (N.leb_le _ _)). Qed.

(** One step that ends no line, ends a line, or ends a line with two bytes *)
Notation shift index l := ((fun k => index + N.of_nat k)%N <$> l).

Lemma shift_S index (l : list nat) : shift index (S <$> l) = shift (index + 1)%N l.
Proof. rewrite <- list_fmap_compose. apply list_fmap_ext. intros _ k _. simpl. lia. Qed.

Lemma breaks_step b bs index :
  shift index (breaks_upto (b :: bs) (S (length bs))) =
  (if line_break (b :: bs) 1 then [(index + 1)%N] else []) ++
  shift (index + 1)%N (breaks_upto bs (length bs)).
Proof. rewrite breaks_cons, fmap_app, shift_S. by destruct (line_break (b :: bs) 1). Qed.

Lemma line_starts_from_exact n bs index :
  length bs <= n -> (index + len bs <= u32_max)%N ->
  line_starts_from bs index = Ok (shift index (breaks_upto bs (length bs))).
Proof.
  revert bs index. induction n as [|n IH]; intros [|b bs] index Hn Hle; [done|simpl in Hn; lia|done|].
  unfold len in Hle. simpl in Hn, Hle. cbn [length]. rewrite breaks_step.
  cbn [line_starts_from]. destruct (N.eqb_spec b 13) as [->|H13].
  - destruct bs as [|b' bs].
    { rewrite try_u32_le by lia. done. }
    simpl in Hn, Hle. destruct (N.eqb_spec b' 10) as [->|H10].
    + rewrite try_u32_le by lia. cbn [ok_or mbind result_bind length].
      rewrite breaks_step, IH by (unfold len; lia). replace (index + 1 + 1)%N with (index + 2)%N by lia. done.
    + rewrite try_u32_le by lia. cbn [ok_or mbind result_bind].
      rewrite IH by (unfold len; simpl; lia). simpl.
      rewrite (bool_decide_eq_false_2 (Some b' = Some 10%N)); [done|]. intros [= E]. done.
  - destruct (N.eqb_spec b 10) as [->|H10].
    + rewrite try_u32_le by lia. cbn [ok_or mbind result_bind].
      rewrite IH by (unfold len; simpl; lia). done.
    + rewrite IH by (unfold len; simpl; lia). cbn.
      by rewrite (proj2 (N.eqb_neq b 10)), (proj2 (N.eqb_neq b 13)) by done.
Qed.

Lemma line_starts_exact t :
  (text_len t <= u32_max)%N ->
  line_starts t = Ok (N.of_nat <$> (0 :: breaks_upto (enc t) (blen t))).
Proof.
  intros H. unfold line_starts. rewrite (line_starts_from_exact (blen t)) by done. cbn.
  do 2 f_equal.
Qed.

(** ** Positions *)

Lemma breaks_upto_S bs n :
  breaks_upto bs (S n) = breaks_upto bs n ++ (if line_break bs (S n) then [S n] else []).
Proof.
  unfold breaks_upto. rewrite seq_S, filter_app. f_equal. change (1 + n) with (S n).
  rewrite filter_cons, filter_nil. by destruct (line_break bs (S n)).
Qed.

Lemma breaks_upto_app bs n m : n <= m ->
  exists l, breaks_upto bs m = breaks_upto bs n ++ l /\ forall k, k ∈ l -> n < k.
Proof.
  intros H. unfold breaks_upto. replace m with (n + (m - n)) by lia. rewrite seq_app, filter_app.
  eexists. split; [done|]. intros k [_ Hk%elem_of_seq]%list_elem_of_filter. lia.
Qed.

Lemma last_break_lookup bs n : (0 :: breaks_upto bs n) !! length (breaks_upto bs n) = Some (last_break bs n).
Proof.
  induction n as [|n IH]; [done|]. rewrite breaks_upto_S. cbn [last_break].
  destruct (line_break bs (S n)).
  - rewrite length_app. simpl. rewrite Nat.add_1_r. simpl. by rewrite lookup_app_r, Nat.sub_diag by lia.
  - by rewrite app_nil_r.
Qed.

Lemma last_break_spec bs n :
  last_break bs n <= n /\ (last_break bs n = 0 \/ line_break bs (last_break bs n)) /\
  forall k, k <= n -> line_break bs k -> k <= last_break bs n.
Proof.
  induction n as [|n (IH1 & IH2 & IH3)]; cbn [last_break].
  { split_and!; [lia|by left|]. intros k ?. assert (k = 0) as -> by lia. done. }
  destruct (line_break bs (S n)) eqn:E.
  - rewrite E. split_and!; [lia|by right|lia].
  - split_and!; [lia|done|]. intros k Hk Hb. destruct (decide (k = S n)) as [->|]; [by rewrite E in Hb|].
    apply IH3; [lia|done].
Qed.

Lemma partition_point_split offset l1 l2 :
  Forall (fun x => x <= offset)%N l1 -> Forall (fun x => offset < x)%N l2 ->
  partition_point offset (l1 ++ l2) = length l1.
Proof.
  intros H1 H2. induction H1 as [|x l1 Hx H1 IH]; simpl.
  - destruct H2 as [|x l2 Hx H2]; simpl; [done|]. by rewrite (proj2 (N.leb_gt _ _)).
  - by rewrite (proj2 (N.leb_le _ _)), IH.
Qed.

Lemma encode_char_high c : (128 <= c)%N -> Forall (fun b => 128 <= b)%N (encode_char c).
Proof.
  intros H. unfold encode_char. rewrite (proj2 (N.ltb_ge _ _)) by done.
  generalize (c `div` 64)%N (c `div` 4096)%N (c `div` 262144)%N (c `mod` 64)%N. intros x y z w.
  generalize (x `mod` 64)%N (y `mod` 64)%N. intros u v.
  repeat case_match; repeat constructor; lia.
Qed.

(** A byte below 128 is a whole character. *)
Lemma ascii_after t k b : enc t !! k = Some b -> (b < 128)%N -> exact_offset t (S k).
Proof.
  revert k. induction t as [|c t IH]; intros k Hk Hb; [done|]. rewrite exact_cons.
  change (enc (c :: t)) with (encode_char c ++ enc t) in Hk. rewrite <- encode_char_length.
  destruct (decide (k < length (encode_char c))) as [Hlt|Hge].
  - rewrite lookup_app_l in Hk by done. right. destruct (decide (128 <= c)%N) as [Hc|Hc].
    { pose proof (Forall_lookup_1 _ _ _ _ (encode_char_high c Hc) Hk). simpl in *. lia. }
    revert Hlt. unfold encode_char. rewrite (proj2 (N.ltb_lt _ _)) by lia. simpl. intros Hlt.
    assert (k = 0) as -> by lia. split; [lia|]. by exists [], t.
  - rewrite lookup_app_r in Hk by lia. right. split; [lia|].
    replace (S k - _) with (S (k - length (encode_char c))) by lia. by apply IH.
Qed.

Lemma line_break_exact t k : line_break (enc t) k -> exact_offset t k.
Proof.
  destruct k as [|k]; [done|]. cbn [line_break]. destruct (enc t !! k) as [b|] eqn:E; [|done].
  intros H. apply (ascii_after _ _ _ E).
  destruct (N.eqb_spec b 10); [lia|]. destruct (N.eqb_spec b 13); [lia|done].
Qed.

(** What a resolved position has to be: the offset splits the text after
    [before ++ prefix], where [before] ends at the last line break. *)
Record position_of (t : list scalar) (offset : N) (p : ResolvedPosition) : Prop := {
  po_split : exists before prefix after,
    t = before ++ prefix ++ after /\ text_len (before ++ prefix) = offset /\
    blen before = last_break (enc t) (N.to_nat offset) /\
    rp_scalar_column p = len prefix /\ rp_utf16_column p = utf16_count prefix;
  po_offset : rp_byte_offset p = offset;
  po_line : rp_line p = len (breaks_upto (enc t) (N.to_nat offset)) }.

Lemma breaks_upto_length bs n : length (breaks_upto bs n) <= n.
Proof. unfold breaks_upto. etrans; [apply length_filter|]. by rewrite length_seq. Qed.

Lemma exact_le t k : exact_offset t k -> k <= blen t.
Proof. intros (p & s & -> & <-). rewrite blen_app. lia. Qed.

Lemma saturate_le n : (n <= u32_max)%N -> saturate_u32 n = n.
Proof. intros H. unfold saturate_u32. by rewrite (proj2 (N.leb_le _ _)). Qed.

Lemma len_le_blen t : (len t <= text_len t)%N.
Proof.
  rewrite text_len_blen. unfold len. induction t as [|c t IH]; [done|].
  rewrite blen_cons. pose proof (len_utf8_range c). simpl. lia.
Qed.

Lemma resolve_position_exact source offset :
  (text_len (sf_text source) <= u32_max)%N ->
  line_starts (sf_text source) = Ok (sf_line_starts source) ->
  exact_offset (sf_text source) (N.to_nat offset) ->
  is_Some (position_prefix source offset) /\
  position_of (sf_text source) offset (resolve_position source offset).
Proof.
  intros Hlen Hls Hex. set (t := sf_text source) in *.
  assert (sf_line_starts source = N.of_nat <$> (0 :: breaks_upto (enc t) (blen t))) as E0.
  { rewrite (line_starts_exact t Hlen) in Hls. congruence. }
  pose proof (exact_le _ _ Hex) as Hoff. set (o := N.to_nat offset) in *.
  destruct (breaks_upto_app (enc t) o (blen t) Hoff) as (l & El & Hl).
  assert (partition_point offset (sf_line_starts source) = S (length (breaks_upto (enc t) o))) as Hpp.
  { rewrite E0, El, app_comm_cons, fmap_app, partition_point_split; [by rewrite length_fmap|..].
    - apply Forall_fmap, Forall_cons. split; [simpl; lia|]. apply Forall_forall.
      intros k [_ Hk%elem_of_seq]%list_elem_of_filter. simpl. lia.
    - apply Forall_fmap, Forall_forall. intros k Hk%Hl. simpl. lia. }
  destruct (last_break_spec (enc t) o) as (Hb1 & Hb2 & _).
  assert (sf_line_starts source !! length (breaks_upto (enc t) o) =
          Some (N.of_nat (last_break (enc t) o))) as Hstart.
  { rewrite E0, El, app_comm_cons, fmap_app, lookup_app_l by (rewrite length_fmap; simpl; lia).
    rewrite list_lookup_fmap, last_break_lookup. done. }
  destruct (exact_pair t (last_break (enc t) o) o) as (before & prefix & after & Et & E1 & E2).
  { destruct Hb2 as [->|?]; [by exists [], t|by apply line_break_exact]. }
  { done. } { done. }
  assert (position_prefix source offset = Some prefix) as Hpre.
  { unfold position_prefix. rewrite Hpp. cbn [pred]. rewrite Hstart. cbn. fold t. rewrite Et at 1.
    apply slice_exact; lia. }
  split; [by eexists|].
  assert (text_len prefix <= u32_max)%N.
  { revert Hlen. rewrite Et, !text_len_blen, !blen_app. lia. }
  unfold resolve_position. rewrite Hpp, Hpre. cbn [pred default from_option id].
  pose proof (breaks_upto_length (enc t) o). rewrite !text_len_blen in *.
  rewrite !saturate_le.
  - split; [|done..]. exists before, prefix, after. split_and!; try done. rewrite text_len_blen. lia.
  - etrans; [apply utf16_le_utf8|]. rewrite text_len_blen. lia.
  - etrans; [apply len_le_blen|]. rewrite text_len_blen. lia.
  - lia.
Qed.

(** * Construction of source maps

    [SourceMap::build] against a specification: which inputs it accepts, and the
    one map it returns for them whatever the order they come in. *)

(** ** The byte order of paths *)

Lemma byte_of_inj a b : byte_of a = byte_of b -> a = b.
Proof.
  intros H. rewrite <- (Ascii.ascii_N_embedding a), <- (Ascii.ascii_N_embedding b).
  unfold byte_of in H. by rewrite H.
Qed.

Lemma str_leb_cons a s b t :
  str_leb (String a s) (String b t) = true <->
  (byte_of a < byte_of b)%N \/ a = b /\ str_leb s t = true.
Proof.
  simpl. rewrite orb_true_iff, andb_true_iff, N.ltb_lt, N.eqb_eq. split.
  - intros [?|[E ?]]; [by left|right]. split; [by apply byte_of_inj|done].
  - intros [?|[-> ?]]; [by left|by right].
Qed.

Lemma str_leb_total s t : str_leb s t = true \/ str_leb t s = true.
Proof.
  revert t. induction s as [|a s IH]; intros [|b t]; [by left|by left|by right|].
  rewrite !str_leb_cons. destruct (N.lt_total (byte_of a) (byte_of b)) as [?|[E%byte_of_inj|?]];
    [by left; left| |by right; left]. subst b. destruct (IH t); [left|right]; by right.
Qed.

Lemma str_leb_trans s t u : str_leb s t = true -> str_leb t u = true -> str_leb s u = true.
Proof.
  revert t u. induction s as [|a s IH]; intros [|b t] [|c u]; [done..|].
  rewrite !str_leb_cons. intros [?|[-> ?]] [?|[-> ?]]; [left; lia|by left|by left|].
  right. split; [done|]. by eapply IH.
Qed.

Lemma str_leb_antisym s t : str_leb s t = true -> str_leb t s = true -> s = t.
Proof.
  revert t. induction s as [|a s IH]; intros [|b t]; [done..|].
  rewrite !str_leb_cons. intros [?|[-> ?]] [?|[E ?]]; try lia; [subst; lia|].
  f_equal. by apply IH.
Qed.

(** ** The specification *)

Notation entry := (NormalizedSourcePath * list scalar)%type.

Definition pair_of (i : SourceFileInput) : entry := (in_path i, in_text i).
Definition identity_of (e : entry) : string := portable_identity e.1.
Definition bytes_of (l : list entry) : N := foldr (fun e n => text_len e.2 + n)%N 0%N l.

Definition starts_of (t : list scalar) : list N := N.of_nat <$> (0 :: breaks_upto (utf8_encode t) (blen t)).

Definition file_of (id : N) (i : nat) (e : entry) : SourceFile :=
  mkSourceFile (mkFileId id (N.of_nat i)) e.1 e.2 (starts_of e.2).

(** The inputs [build] accepts *)
Record acceptable (next : N) (inputs : list SourceFileInput) : Prop := {
  ac_counter : (next < u64_max)%N;
  ac_count : (len inputs <= MAX_SOURCE_FILES)%N;
  ac_paths : Forall (fun i => validate_source_path (in_path i) = Ok tt) inputs;
  ac_sizes : Forall (fun i => text_len (in_text i) <= MAX_SOURCE_FILE_BYTES)%N inputs;
  ac_unique : NoDup (identity_of ∘ pair_of <$> inputs);
  ac_total : (bytes_of (pair_of <$> inputs) <= MAX_SOURCE_BYTES)%N }.

(** The map for inputs listed in path order as [l] *)
Record map_of (next : N) (l : list entry) (m : SourceMap) : Prop := {
  mo_id : sm_id m = next;
  mo_sorted : StronglySorted (fun a b => str_leb a.1 b.1 = true) l;
  mo_unique : NoDup (identity_of <$> l);
  mo_files : sm_files m = imap (file_of next) l;
  mo_identities : forall k id, sm_identities m !! k = Some id <->
    exists i e, l !! i = Some e /\ identity_of e = k /\ id = mkFileId next (N.of_nat i) }.

(** ** Adding files *)

Record added (id : N) (l : list entry) (s : BuildState) : Prop := {
  ad_total : bs_total s = bytes_of l;
  ad_files : bs_files s = imap (file_of id) l;
  ad_identities : forall k fid, bs_identities s !! k = Some fid <->
    exists i e, l !! i = Some e /\ identity_of e = k /\ fid = mkFileId id (N.of_nat i) }.

Lemma bytes_of_app l1 l2 : bytes_of (l1 ++ l2) = (bytes_of l1 + bytes_of l2)%N.
Proof. induction l1 as [|e l1 IH]; simpl; [done|]. rewrite IH. lia. Qed.

#[export] Instance bytes_of_perm : Proper ((≡ₚ) ==> (=)) bytes_of.
Proof. intros l1 l2. induction 1; simpl; lia. Qed.

Lemma added_nil id : added id [] (mkBuildState 0 ∅ []).
Proof. split; [done|done|]. intros k fid. cbn [bs_identities]. rewrite lookup_empty. split; [done|by intros (i & e & ? & _)]. Qed.

Lemma added_fresh id l s p :
  added id l s ->
  ((fid ← bs_identities s !! portable_identity p; get (bs_files s) (file_index fid)) = None) <->
  (portable_identity p ∉ (identity_of <$> l)).
Proof.
  intros [_ Hf Hi]. destruct (bs_identities s !! portable_identity p) as [fid|] eqn:E; cbn.
  - apply Hi in E as (i & e & He & Hid & ->). unfold get. rewrite Hf. cbn [file_index].
    rewrite Nat2N.id, list_lookup_imap, He. simpl. split; [done|]. intros []. rewrite <- Hid.
    apply list_elem_of_fmap_2. by eapply list_elem_of_lookup_2.
  - split; [|done]. intros _ (e & Ee & [i He]%list_elem_of_lookup)%list_elem_of_fmap.
    assert (bs_identities s !! portable_identity p = Some (mkFileId id (N.of_nat i))) as E'.
    { apply Hi. by exists i, e. }
    congruence.
Qed.

(** The state after one more file *)
Lemma added_snoc id l s p t :
  added id l s -> portable_identity p ∉ (identity_of <$> l) ->
  added id (l ++ [(p, t)])
    (mkBuildState (bs_total s + text_len t)
       (<[portable_identity p := mkFileId id (len (bs_files s))]> (bs_identities s))
       (bs_files s ++ [mkSourceFile (mkFileId id (len (bs_files s))) p t (starts_of t)])).
Proof.
  intros [Ht Hf Hi] Hn.
  assert (len (bs_files s) = N.of_nat (length l)) as Hlen.
  { unfold len. by rewrite Hf, length_imap. }
  split; cbn.
  - rewrite bytes_of_app, Ht. simpl. lia.
  - rewrite Hlen, imap_app, Hf. f_equal. cbn. unfold file_of. cbn. by rewrite Nat.add_0_r.
  - intros k fid. rewrite Hlen. destruct (decide (k = portable_identity p)) as [->|Hne].
    + rewrite lookup_insert_eq. split.
      * intros [= <-]. exists (length l), (p, t). split; [|done].
        by rewrite lookup_app_r, Nat.sub_diag.
      * intros (i & e & He & Hid & ->). apply lookup_app_Some in He as [He|[Hle He]].
        -- destruct Hn. rewrite <- Hid. apply list_elem_of_fmap_2. by eapply list_elem_of_lookup_2.
        -- apply list_lookup_singleton_Some in He as [? _]. do 2 f_equal. lia.
    + rewrite lookup_insert_ne by done. rewrite Hi. split.
      * intros (i & e & He & ?). exists i, e. split; [by apply lookup_app_l_Some|done].
      * intros (i & e & He & Hid & ->). apply lookup_app_Some in He as [He|[_ He]]; [by exists i, e|].
        apply list_lookup_singleton_Some in He as [_ <-]. done.
Qed.

Lemma add_file_exact id l s p t :
  added id l s -> (len l < MAX_SOURCE_FILES)%N -> (text_len t <= MAX_SOURCE_FILE_BYTES)%N ->
  (bs_total s <= MAX_SOURCE_BYTES)%N ->
  (forall s', add_file id s p t = Ok s' ->
     (portable_identity p ∉ (identity_of <$> l)) /\
     (bytes_of (l ++ [(p, t)]) <= MAX_SOURCE_BYTES)%N /\ added id (l ++ [(p, t)]) s') /\
  ((portable_identity p ∉ (identity_of <$> l)) ->
   (bytes_of (l ++ [(p, t)]) <= MAX_SOURCE_BYTES)%N -> is_ok (add_file id s p t) = true).
Proof.
  intros Ha Hlen Ht Htot. unfold add_file. pose proof (added_fresh _ _ _ p Ha) as Hfresh.
  assert (bytes_of (l ++ [(p, t)]) = bs_total s + text_len t)%N as Eb.
  { rewrite bytes_of_app, (ad_total _ _ _ Ha). simpl. lia. }
  assert (checked_add u64_max (bs_total s) (text_len t) = Some (bs_total s + text_len t)%N) as Eadd.
  { unfold checked_add. rewrite (proj2 (N.leb_le _ _)); [done|].
    unfold MAX_SOURCE_BYTES, MAX_SOURCE_FILE_BYTES, u64_max in *. lia. }
  assert (try_u32 (len (bs_files s)) = Some (len (bs_files s))) as Elen.
  { apply try_u32_le. unfold len in *. rewrite (ad_files _ _ _ Ha), length_imap.
    unfold MAX_SOURCE_FILES, u32_max in *. lia. }
  assert (line_starts t = Ok (starts_of t)) as Els.
  { apply line_starts_exact. unfold MAX_SOURCE_FILE_BYTES, u32_max in *. lia. }
  destruct (fid ← bs_identities s !! portable_identity p; get (bs_files s) (file_index fid)) as [f|].
  - split; [done|]. intros Hn. by apply Hfresh in Hn.
  - rewrite Eadd, Elen, Els. cbn. rewrite Eb.
    destruct (N.ltb_spec MAX_SOURCE_BYTES (bs_total s + text_len t)); split.
    + done.
    + lia.
    + intros s' [= <-]. assert (portable_identity p ∉ (identity_of <$> l)) by by apply Hfresh.
      split_and!; [done..|]. by apply added_snoc.
    + done.
Qed.

Lemma NoDup_identity_snoc l e :
  NoDup (identity_of <$> l ++ [e]) <-> NoDup (identity_of <$> l) /\ identity_of e ∉ (identity_of <$> l).
Proof.
  rewrite fmap_app, NoDup_app. simpl. split.
  - intros (H1 & H2 & _). split; [done|]. intros Hx%H2. apply Hx. by left.
  - intros (H1 & H2). split_and!; [done| |apply NoDup_singleton].
    intros x Hx ->%list_elem_of_singleton. done.
Qed.

Lemma add_files_exact id l0 l s :
  added id l0 s -> NoDup (identity_of <$> l0) -> (bytes_of l0 <= MAX_SOURCE_BYTES)%N ->
  (len (l0 ++ l) <= MAX_SOURCE_FILES)%N ->
  Forall (fun e => text_len e.2 <= MAX_SOURCE_FILE_BYTES)%N l ->
  (forall s', add_files id s l = Ok s' ->
     NoDup (identity_of <$> l0 ++ l) /\ (bytes_of (l0 ++ l) <= MAX_SOURCE_BYTES)%N /\
     added id (l0 ++ l) s') /\
  (NoDup (identity_of <$> l0 ++ l) -> (bytes_of (l0 ++ l) <= MAX_SOURCE_BYTES)%N ->
   is_ok (add_files id s l) = true).
Proof.
  revert l0 s. induction l as [|[p t] l IH]; intros l0 s Ha Hnd Htot Hlen Hsz; simpl.
  { rewrite app_nil_r. split; [|done]. by intros s' [= <-]. }
  apply Forall_cons in Hsz as [Ht Hsz].
  assert (len l0 < MAX_SOURCE_FILES)%N by (unfold len in *; rewrite length_app in Hlen; simpl in Hlen; lia).
  assert (bs_total s <= MAX_SOURCE_BYTES)%N by (by rewrite (ad_total _ _ _ Ha)).
  destruct (add_file_exact id l0 s p t Ha) as [Hsound Hcomp]; [done..|].
  rewrite (cons_middle (p, t) l0 l), app_assoc in Hlen |- *.
  destruct (add_file id s p t) as [s1|e] eqn:E; cbn.
  - destruct (Hsound s1 eq_refl) as (Hf & Hb & Ha1). apply IH; try done.
    by apply NoDup_identity_snoc.
  - split; [done|]. intros Hnd' Hb'.
    assert (is_ok (Err e : result SourceError BuildState) = true); [|done]. apply Hcomp.
    + rewrite fmap_app in Hnd'. apply NoDup_app in Hnd' as [Hnd' _].
      by apply NoDup_identity_snoc in Hnd' as [_ ?].
    + rewrite bytes_of_app in Hb'. lia.
Qed.

(** ** [build] *)

Lemma normalized_new_ok p q : normalized_new p = Ok q <-> validate_source_path p = Ok tt /\ q = p.
Proof.
  unfold normalized_new. destruct (validate_source_path p) as [[]|e]; cbn; [|naive_solver].
  split; [by intros [= <-]|by intros [_ ->]].
Qed.

Lemma normalize_inputs_ok inputs r :
  normalize_inputs inputs = Ok r <->
  Forall (fun i => validate_source_path (in_path i) = Ok tt) inputs /\
  Forall (fun i => text_len (in_text i) <= MAX_SOURCE_FILE_BYTES)%N inputs /\
  r = pair_of <$> inputs.
Proof.
  revert r. induction inputs as [|i inputs IH]; intros r.
  { cbn. split; [by intros [= <-]|by intros (_ & _ & ->)]. }
  rewrite !Forall_cons. cbn [normalize_inputs].
  destruct (normalized_new (in_path i)) as [q|e] eqn:E; cbn [mbind result_bind].
  - apply normalized_new_ok in E as [E ->].
    destruct (N.ltb_spec MAX_SOURCE_FILE_BYTES (text_len (in_text i))); [naive_solver lia|].
    destruct (normalize_inputs inputs) as [r'|e]; cbn; split.
    + intros [= <-]. destruct (proj1 (IH r') eq_refl) as (? & ? & ->). done.
    + intros ((_ & H1) & (_ & H2) & ->). f_equal.
      assert (Ok r' = Ok (pair_of <$> inputs) :> result SourceError _) as [= ->]; [|done].
      by apply IH.
    + done.
    + intros ((_ & H1) & (_ & H2) & ->).
      assert (Err e = Ok (pair_of <$> inputs) :> result SourceError _); [|done]. by apply IH.
  - split; [done|]. intros ((H & _) & _).
    assert (normalized_new (in_path i) = Ok (in_path i)) as E' by (by apply normalized_new_ok).
    congruence.
Qed.

Notation path_leb := (fun a b : entry => str_leb a.1 b.1).

Lemma sorted_entries (l : list entry) : StronglySorted (fun a b => path_leb a b = true) (sort_by path_leb l).
Proof.
  apply (sort_by_sorted path_leb); [intros ??; apply str_leb_total|intros ???; apply str_leb_trans].
Qed.

(** Entries with unique identities have one order. *)
Lemma sorted_unique (l1 l2 : list entry) :
  NoDup (identity_of <$> l1) -> l1 ≡ₚ l2 ->
  StronglySorted (fun a b => path_leb a b = true) l1 ->
  StronglySorted (fun a b => path_leb a b = true) l2 -> l1 = l2.
Proof.
  intros Hnd Hp H1 H2.
  apply (StronglySorted_unique_strong (fun a b => path_leb a b = true)); [|done..].
  intros x y [i Hx]%list_elem_of_lookup Hy Hxy Hyx. rewrite <- Hp in Hy.
  apply list_elem_of_lookup in Hy as [j Hy].
  assert (i = j) as ->; [|congruence].
  eapply (NoDup_lookup _ i j (identity_of x) Hnd); rewrite list_lookup_fmap.
  - by rewrite Hx.
  - rewrite Hy. simpl. f_equal. unfold identity_of. by rewrite (str_leb_antisym _ _ Hxy Hyx).
Qed.

Definition ordered (inputs : list SourceFileInput) : list entry :=
  sort_by path_leb (pair_of <$> sort_by (fun a b => str_leb (in_path a) (in_path b)) inputs).

Lemma ordered_perm inputs : ordered inputs ≡ₚ pair_of <$> inputs.
Proof. unfold ordered. by rewrite sort_by_perm, sort_by_perm. Qed.

Lemma build_unfold next inputs m :
  (build next inputs).2 = Ok m <->
  (len inputs <= MAX_SOURCE_FILES)%N /\ (next < u64_max)%N /\
  Forall (fun i => validate_source_path (in_path i) = Ok tt) inputs /\
  Forall (fun i => text_len (in_text i) <= MAX_SOURCE_FILE_BYTES)%N inputs /\
  exists s, add_files next (mkBuildState 0 ∅ []) (ordered inputs) = Ok s /\
            m = mkSourceMap next (bs_files s) (bs_identities s).
Proof.
  unfold build, ordered. destruct (N.ltb_spec MAX_SOURCE_FILES (len inputs)).
  { cbn. split; [done|lia]. }
  set (sorted := sort_by _ inputs). assert (sorted ≡ₚ inputs) as Hp by apply sort_by_perm.
  rewrite <- Hp in H |- *. clearbody sorted.
  pose proof (normalize_inputs_ok sorted) as Hn.
  destruct (normalize_inputs sorted) as [r|e] eqn:E.
  - destruct (proj1 (Hn r) eq_refl) as (H1 & H2 & ->). unfold checked_add.
    destruct (N.leb_spec (next + 1) u64_max); cbn [snd].
    + destruct (add_files next _ _) as [s|e]; cbn; split.
      * intros [= <-]. split_and!; [done|lia|done..|by exists s].
      * intros (_ & _ & _ & _ & s' & [= <-] & ->). done.
      * done.
      * by intros (_ & _ & _ & _ & s' & ? & _).
    + split; [done|lia].
  - split; [done|]. intros (_ & _ & H1 & H2 & _).
    assert (Err e = Ok (pair_of <$> sorted) :> result SourceError _); [|done]. by apply Hn.
Qed.

Lemma ordered_exact next inputs :
  (len inputs <= MAX_SOURCE_FILES)%N ->
  Forall (fun i => text_len (in_text i) <= MAX_SOURCE_FILE_BYTES)%N inputs ->
  (forall s, add_files next (mkBuildState 0 ∅ []) (ordered inputs) = Ok s ->
     NoDup (identity_of <$> ordered inputs) /\
     (bytes_of (ordered inputs) <= MAX_SOURCE_BYTES)%N /\ added next (ordered inputs) s) /\
  (NoDup (identity_of <$> ordered inputs) -> (bytes_of (ordered inputs) <= MAX_SOURCE_BYTES)%N ->
   is_ok (add_files next (mkBuildState 0 ∅ []) (ordered inputs)) = true).
Proof.
  intros Hlen Hsz. apply (add_files_exact next [] (ordered inputs)).
  - apply added_nil.
  - constructor.
  - done.
  - unfold len in *. simpl. by rewrite ordered_perm, length_fmap.
  - rewrite ordered_perm. apply Forall_fmap. done.
Qed.

Lemma build_accepts next inputs : is_ok (build next inputs).2 = true <-> acceptable next inputs.
Proof.
  split.
  - destruct (build next inputs).2 as [m|] eqn:E; [|done]. intros _.
    apply build_unfold in E as (H1 & H2 & H3 & H4 & s & Hs & _).
    destruct (proj1 (ordered_exact next inputs H1 H4) s Hs) as (Hnd & Hb & _).
    rewrite ordered_perm in Hnd, Hb. rewrite <- list_fmap_compose in Hnd. by split.
  - intros [H1 H2 H3 H4 H5 H6]. rewrite list_fmap_compose, <- ordered_perm in H5.
    rewrite <- ordered_perm in H6.
    pose proof (proj2 (ordered_exact next inputs H2 H4) H5 H6) as Hok.
    destruct (add_files next (mkBuildState 0 ∅ []) (ordered inputs)) as [s|] eqn:Es; [|done].
    assert ((build next inputs).2 = Ok (mkSourceMap next (bs_files s) (bs_identities s))) as ->; [|done].
    apply build_unfold. split_and!; [done..|]. by exists s.
Qed.

Lemma build_map next inputs m :
  (build next inputs).2 = Ok m -> map_of next (ordered inputs) m.
Proof.
  intros (H1 & H2 & H3 & H4 & s & Hs & ->)%build_unfold.
  destruct (proj1 (ordered_exact next inputs H1 H4) s Hs) as (Hnd & Hb & [_ Hf Hi]).
  split; [done|apply sorted_entries|done..].
Qed.

(** The result depends on the set of inputs only. *)
Lemma build_permutation next inputs1 inputs2 m :
  inputs1 ≡ₚ inputs2 -> (build next inputs1).2 = Ok m -> (build next inputs2).2 = Ok m.
Proof.
  intros Hp Hm. pose proof (build_map _ _ _ Hm) as [_ Hs Hnd _ _]. revert Hm.
  rewrite !build_unfold. assert (ordered inputs1 = ordered inputs2) as ->.
  { apply sorted_unique; [done| |done|apply sorted_entries]. by rewrite !ordered_perm, Hp. }
  unfold len. by rewrite Hp.
Qed.

(** ** Files of a built map *)

Definition built (m : SourceMap) : Prop := exists next inputs, (build next inputs).2 = Ok m.

Lemma built_file m id f :
  built m -> sm_source m id = Some f ->
  sf_id f = id /\ (text_len (sf_text f) <= u32_max)%N /\
  line_starts (sf_text f) = Ok (sf_line_starts f).
Proof.
  intros (next & inputs & Hb) Hs. pose proof (build_map _ _ _ Hb) as [Hid _ _ Hf _].
  apply build_unfold in Hb as (_ & _ & _ & Hsz & _).
  unfold sm_source, get in Hs. destruct (N.eqb_spec (source_map_id id) (sm_id m)) as [E|]; [|done].
  cbn [negb] in Hs. rewrite Hf, list_lookup_imap in Hs.
  destruct (ordered inputs !! N.to_nat (file_index id)) as [e|] eqn:He; [|done]. injection Hs as <-. cbn.
  assert (text_len e.2 <= u32_max)%N as Hle.
  { assert (Forall (fun e => text_len e.2 <= MAX_SOURCE_FILE_BYTES)%N (ordered inputs)) as H.
    { rewrite ordered_perm. by apply Forall_fmap. }
    pose proof (Forall_lookup_1 _ _ _ _ H He) as H1. simpl in H1.
    unfold MAX_SOURCE_FILE_BYTES, u32_max in *. lia. }
  split_and!; [|done|by apply line_starts_exact].
  rewrite N2Nat.id. destruct id; cbn in *. congruence.
Qed.
