(* ===== verification/SourcePaths.v ===== *)
(** * Paths and explicit imports of [zryna-source]

    The lexical resolution of an import specifier: it never climbs out of the
    workspace, what it returns is a portable [.zry] path, and every specifier
    made of parent steps and plain names resolves to the path it denotes. *)
From stdpp Require Import base numbers list list_numbers strings gmap sorting.
From Stdlib Require Import Ascii.
From S2P Require Import Prelude Source SourceText.

(** ** Characters of a string *)

Lemma str_all_app P s t : str_all P (s +:+ t) = str_all P s && str_all P t.
Proof. induction s as [|a s IH]; [done|]. simpl. by rewrite IH, andb_assoc. Qed.

Lemma str_all_split P c s :
  P c = true -> Forall (fun x => str_all P x = true) (split_on c s) -> str_all P s = true.
Proof.
  intros Hc. induction s as [|a s IH]; [done|]. cbn [split_on str_all].
  destruct (Ascii.eqb_spec a c) as [->|Hne].
  - intros [_ H]%Forall_cons. by rewrite Hc, IH.
  - destruct (split_on c s) as [|h t] eqn:E.
    + intros [H _]%Forall_cons. cbn in H. apply andb_true_iff in H as [-> _]. by rewrite IH.
    + intros [H Ht]%Forall_cons. cbn in H. apply andb_true_iff in H as [-> H].
      rewrite IH; [done|]. by constructor.
Qed.

Lemma str_all_weaken (P Q : Ascii.ascii -> bool) s :
  (forall a, P a = true -> Q a = true) -> str_all P s = true -> str_all Q s = true.
Proof.
  intros H. induction s as [|a s IH]; [done|]. cbn. rewrite !andb_true_iff. naive_solver.
Qed.

Lemma str_any_false P s : str_any P s = false <-> str_all (fun a => negb (P a)) s = true.
Proof. unfold str_any. by rewrite negb_false_iff. Qed.

(** A pattern that starts with a character the string lacks is not contained. *)
Lemma str_contains_head c r s :
  str_all (fun a => negb (Ascii.eqb a c)) s = true -> str_contains (String c r) s = false.
Proof.
  induction s as [|a s IH]; [done|]. cbn [str_all]. rewrite andb_true_iff, negb_true_iff.
  intros [Ha Hs]. cbn [str_contains]. rewrite (IH Hs), orb_false_r.
  cbn [String.prefix]. destruct (Ascii.ascii_dec c a) as [->|]; [|done].
  by rewrite Ascii.eqb_refl in Ha.
Qed.

Lemma ends_with_app suffix s t : ends_with suffix t = true -> ends_with suffix (s +:+ t) = true.
Proof.
  intros H. induction s as [|a s IH]; [done|]. simpl.
  by rewrite IH, orb_true_r.
Qed.

Lemma prefix_empty s : String.prefix EmptyString s = true.
Proof. by destruct s. Qed.

(** ** Splitting and joining *)

Notation lacks c := (fun s => str_all (fun a => negb (Ascii.eqb a c)) s = true).

Lemma split_on_lacks c s : lacks c s -> split_on c s = [s].
Proof.
  induction s as [|a s IH]; [done|]. cbn. rewrite andb_true_iff, negb_true_iff. intros [-> Hs].
  by rewrite IH.
Qed.

Lemma split_on_app c s t : lacks c s -> split_on c (s +:+ String c t) = s :: split_on c t.
Proof.
  induction s as [|a s IH]; simpl.
  - by rewrite Ascii.eqb_refl.
  - rewrite andb_true_iff, negb_true_iff. intros [-> Hs]. by rewrite IH.
Qed.

Lemma split_join c l : l <> [] -> Forall (lacks c) l -> split_on c (join_with c l) = l.
Proof.
  intros Hne. induction 1 as [|s l Hs Hl IH]; [done|]. destruct l as [|s' l].
  - by apply split_on_lacks.
  - change (join_with c (s :: s' :: l)) with (s +:+ String c (join_with c (s' :: l))).
    by rewrite split_on_app, IH.
Qed.

Lemma split_on_cons c s : exists h t, split_on c s = h :: t.
Proof.
  destruct s as [|a s]; cbn; [eauto|]. destruct (Ascii.eqb a c); [eauto|].
  destruct (split_on c s); eauto.
Qed.

Lemma join_split c s : join_with c (split_on c s) = s.
Proof.
  induction s as [|a s IH]; [done|]. cbn [split_on]. destruct (split_on_cons c s) as (h & t & E).
  rewrite E in *. destruct (Ascii.eqb_spec a c) as [->|Hne].
  - change (join_with c (EmptyString :: h :: t)) with (String c (join_with c (h :: t))). by rewrite IH.
  - rewrite <- IH. by destruct t.
Qed.

Lemma split_on_all_lack c s : Forall (lacks c) (split_on c s).
Proof.
  induction s as [|a s IH]; cbn; [by repeat constructor|].
  destruct (Ascii.eqb a c) eqn:E; [by constructor|].
  destruct (split_on c s) as [|h t]; [by repeat constructor; cbn; rewrite E|].
  apply Forall_cons in IH as [Hh Ht]. constructor; [|done]. cbn. by rewrite E, Hh.
Qed.

Lemma ends_with_join suffix c pre file :
  ends_with suffix file = true -> ends_with suffix (join_with c (pre ++ [file])) = true.
Proof.
  intros H. induction pre as [|s pre IH]; [done|]. cbn [app].
  assert (exists d r, pre ++ [file] = d :: r) as (d & r & E) by (destruct pre; by eexists _, _).
  rewrite E in *. change (join_with c (s :: d :: r)) with (s +:+ String c (join_with c (d :: r))).
  by apply ends_with_app, (ends_with_app _ (String c EmptyString)).
Qed.

(** ** Resolution *)

Notation slash := "/"%char.

Definition is_name (c : string) : bool :=
  negb (String.eqb c "." || String.eqb c ".." || String.eqb c EmptyString).

Definition ups (l : list string) : nat := length (filter (fun c => c = "..") l).
Definition names (l : list string) : nat := length (filter (fun c => is_name c) l).

(** The resolution stays at or below the root at every component. *)
Lemma resolve_components_inside stack l out :
  resolve_components stack l = Ok out ->
  forall pre, pre `prefix_of` l -> ups pre <= length stack + names pre.
Proof.
  revert stack. induction l as [|c l IH]; intros stack H pre Hpre.
  { apply prefix_nil_inv in Hpre as ->. unfold ups. simpl. lia. }
  destruct pre as [|c' pre]; [unfold ups; simpl; lia|].
  pose proof (prefix_cons_inv_1 _ _ _ _ Hpre) as ->.
  apply prefix_cons_inv_2 in Hpre. cbn [resolve_components] in H. unfold ups, names in *.
  rewrite !filter_cons. destruct (String.eqb_spec c "."); [subst c|].
  { specialize (IH _ H pre Hpre). simpl. lia. }
  destruct (String.eqb_spec c ".."); [subst c|].
  - destruct stack as [|top stack]; [done|]. specialize (IH _ H pre Hpre). simpl in *. lia.
  - destruct (String.eqb_spec c EmptyString); [done|].
    specialize (IH _ H pre Hpre). rewrite decide_False by done.
    assert (is_name c = true) as E.
    { unfold is_name. rewrite negb_true_iff, !orb_false_iff, !String.eqb_neq. done. }
    rewrite decide_True by (by rewrite E). simpl in *. lia.
Qed.

Lemma resolve_names stack l :
  Forall (fun c => is_name c = true) l -> resolve_components stack l = Ok (rev l ++ stack).
Proof.
  intros H. revert stack. induction H as [|c l Hc Hl IH]; intros stack; [done|].
  unfold is_name in Hc. rewrite negb_true_iff, !orb_false_iff in Hc. destruct Hc as [[E1 E2] E3].
  cbn [resolve_components]. rewrite E1, E2, E3, IH. cbn. by rewrite <- app_assoc.
Qed.

Lemma resolve_ups k stack l :
  k <= length stack -> resolve_components stack (replicate k ".." ++ l) = resolve_components (drop k stack) l.
Proof.
  revert stack. induction k as [|k IH]; intros stack Hk; [by rewrite drop_0|].
  destruct stack as [|top stack]; simpl in Hk; [lia|]. cbn. apply IH. lia.
Qed.

(** The directories of a file *)
Definition directories (path : string) : list string :=
  let l := split_on slash path in take (length l - 1) l.

Lemma directories_rev path : tail (rev (split_on slash path)) = rev (directories path).
Proof.
  unfold directories. destruct (exists_last (l := split_on slash path)) as (l & x & ->).
  { by destruct (split_on_cons slash path) as (h & t & ->). }
  by rewrite rev_app_distr, length_app, Nat.add_sub, take_app_length.
Qed.

(** A specifier: [k] steps up, then names; [./] when there is no step up *)
Definition specifier (k : nat) (l : list string) : string :=
  join_with slash ((if decide (k = 0) then ["."] else replicate k "..") ++ l).

Lemma specifier_components k l :
  l <> [] -> Forall (lacks slash) l ->
  split_on slash (specifier k l) = (if decide (k = 0) then ["."] else replicate k "..") ++ l.
Proof.
  intros Hne Hl. apply split_join.
  - by intros [_ ?]%app_nil.
  - apply Forall_app. split; [|done]. case_decide; [by repeat constructor|].
    by apply Forall_replicate.
Qed.

Lemma resolve_specifier stack k l :
  Forall (fun c => is_name c = true) l ->
  resolve_components stack ((if decide (k = 0) then ["."] else replicate k "..") ++ l) =
  (if decide (k <= length stack) then Ok (rev l ++ drop k stack) else Err invalid_module_specifier).
Proof.
  intros Hl. destruct (decide (k = 0)) as [->|Hk].
  - rewrite decide_True by lia. cbn. by rewrite resolve_names, drop_0.
  - case_decide as Hle.
    + by rewrite resolve_ups, resolve_names.
    + clear Hk. revert stack Hle. induction k as [|k IH]; intros stack Hle; [lia|].
      destruct stack as [|top stack]; [done|]. cbn. apply IH. simpl in Hle. lia.
Qed.

(** ** Validated paths *)

Lemma validate_components_ok path l :
  validate_components path l = Ok tt <-> Forall (fun c => validate_component path c = Ok tt) l.
Proof.
  induction l as [|c l IH]; [by split|]. cbn. rewrite Forall_cons, <- IH.
  destruct (validate_component path c) as [[]|]; cbn; naive_solver.
Qed.

Lemma validate_component_ok path c :
  validate_component path c = Ok tt ->
  is_name c = true /\ str_any is_ascii_control c = false /\ str_contains_any reserved_chars c = false.
Proof.
  unfold validate_component, is_name.
  destruct (String.eqb c EmptyString), (String.eqb c "."), (String.eqb c ".."); cbn; try done.
  repeat case_match; try done.
Qed.

Record path_ok (path : string) : Prop := {
  pa_nonempty : path <> EmptyString;
  pa_length : (slen path <= MAX_SOURCE_PATH_BYTES)%N;
  pa_ascii : is_ascii path = true;
  pa_relative : starts_with "/" path = false;
  pa_backslash : str_contains_char "\"%char path = false;
  pa_depth : (len (split_on slash path) <= MAX_SOURCE_PATH_COMPONENTS)%N;
  pa_components : Forall (fun c => validate_component path c = Ok tt) (split_on slash path) }.

Lemma validate_source_path_ok path : validate_source_path path = Ok tt -> path_ok path.
Proof.
  unfold validate_source_path.
  destruct (String.eqb_spec path EmptyString); [done|].
  destruct (N.ltb_spec MAX_SOURCE_PATH_BYTES (slen path)); [done|].
  destruct (is_ascii path) eqn:?; [|done]. cbn [negb].
  destruct (starts_with "/" path) eqn:?; [done|]. destruct (starts_with "//" path); [done|]. cbn [orb].
  destruct (str_contains_char "\"%char path) eqn:?; [done|].
  destruct (N.ltb_spec MAX_SOURCE_PATH_COMPONENTS (len (split_on slash path))); [done|].
  intros Hc%validate_components_ok. by split.
Qed.

Lemma path_ok_names path : path_ok path -> Forall (fun c => is_name c = true) (split_on slash path).
Proof.
  intros H. eapply Forall_impl; [apply (pa_components _ H)|].
  intros c Hc. by apply validate_component_ok in Hc as [? _].
Qed.

(** The characters of a validated path *)
Definition path_char (a : Ascii.ascii) : bool :=
  Ascii.eqb a slash || (negb (is_ascii_control a) && negb (existsb (Ascii.eqb a) reserved_chars)).

Lemma path_ok_chars path : path_ok path -> str_all path_char path = true.
Proof.
  intros H. apply (str_all_split _ slash); [done|].
  eapply Forall_impl; [apply (pa_components _ H)|]. intros c Hc.
  apply validate_component_ok in Hc as (_ & H1 & H2).
  apply str_any_false in H1, H2. induction c as [|a c IH]; [done|]. cbn in *.
  apply andb_true_iff in H1 as [H1 ?], H2 as [H2 ?]. unfold path_char at 1.
  rewrite H1. rewrite IH by done. cbn in H2 |- *. rewrite H2. by rewrite orb_true_r.
Qed.

Lemma split_all P c s : str_all P s = true -> Forall (fun x => str_all P x = true) (split_on c s).
Proof.
  induction s as [|a s IH]; [by repeat constructor|]. cbn. rewrite andb_true_iff. intros [Ha Hs].
  specialize (IH Hs). destruct (Ascii.eqb a c); [by constructor|].
  destruct (split_on c s) as [|h t]; [by repeat constructor; cbn; rewrite Ha|].
  apply Forall_cons in IH as [Hh Ht]. constructor; [|done]. cbn. by rewrite Ha, Hh.
Qed.

(** ** [resolve_explicit_zry_import] *)

Lemma import_sound importer spec p :
  resolve_explicit_zry_import importer spec = Ok p ->
  path_ok p /\ has_exact_zry_extension p = true /\
  forall pre, pre `prefix_of` split_on slash spec -> ups pre <= length (directories importer) + names pre.
Proof.
  unfold resolve_explicit_zry_import. destruct (specifier_rejected spec); [done|].
  rewrite directories_rev.
  destruct (resolve_components (rev (directories importer)) (split_on slash spec)) as [stack|] eqn:E; [|done].
  cbn. destruct (has_exact_zry_extension _) eqn:Hext; [|done]. cbn.
  destruct (normalized_new _) as [q|] eqn:Hn; [|done]. intros [= <-].
  apply normalized_new_ok in Hn as [Hv ->]. split_and!; [by apply validate_source_path_ok|done|].
  intros pre Hpre. rewrite <- length_rev. by eapply resolve_components_inside.
Qed.

(** The characters a specifier may have *)
Definition specifier_char (a : Ascii.ascii) : bool :=
  (byte_of a <? 128)%N && negb (existsb (Ascii.eqb a) ["\"; "?"; "#"; Ascii.zero]%char) &&
  negb (Ascii.eqb a ":"%char).

Lemma path_specifier_char a :
  (byte_of a <? 128)%N = true -> Ascii.eqb a "\"%char = false -> Ascii.eqb a "#"%char = false ->
  path_char a = true -> specifier_char a = true.
Proof. destruct a as [[] [] [] [] [] [] [] []]; vm_compute; congruence. Qed.

Lemma str_all_and P Q s :
  str_all (fun a => P a && Q a) s = str_all P s && str_all Q s.
Proof.
  induction s as [|a s IH]; [done|]. cbn. rewrite IH.
  by destruct (P a), (Q a), (str_all P s).
Qed.

Lemma path_specifier_chars path :
  path_ok path -> str_contains_char "#"%char path = false -> str_all specifier_char path = true.
Proof.
  intros Hp Hh. apply str_any_false in Hh.
  pose proof (pa_backslash _ Hp) as Hb. apply str_any_false in Hb.
  pose proof (pa_ascii _ Hp) as Ha. pose proof (path_ok_chars _ Hp) as Hc. unfold is_ascii in Ha.
  assert (str_all (fun a => (byte_of a <? 128)%N && negb (Ascii.eqb a "\"%char) &&
                    negb (Ascii.eqb a "#"%char) && path_char a) path = true) as H.
  { by rewrite !str_all_and, Ha, Hb, Hh, Hc. }
  revert H. apply str_all_weaken. intros a. rewrite !andb_true_iff, !negb_true_iff.
  intros (((? & ?) & ?) & ?). by apply path_specifier_char.
Qed.

Lemma specifier_not_rejected k l file :
  Forall (fun c => str_all specifier_char c = true) (l ++ [file]) ->
  Forall (lacks slash) (l ++ [file]) -> has_exact_zry_extension file = true ->
  specifier_rejected (specifier k (l ++ [file])) = false.
Proof.
  intros Hc Hs Hext. set (spec := specifier k (l ++ [file])).
  assert (str_all specifier_char spec = true) as Hall.
  { apply (str_all_split _ slash); [done|]. unfold spec. rewrite specifier_components; [|by destruct l|done].
    apply Forall_app. split; [|done]. case_decide; [by repeat constructor|by apply Forall_replicate]. }
  assert (starts_with "./" spec || starts_with "../" spec = true) as Hstart.
  { unfold spec, specifier. destruct k as [|k].
    - rewrite decide_True by done. apply orb_true_iff. left. destruct l; cbn; apply prefix_empty.
    - rewrite decide_False by done. apply orb_true_iff. right.
      assert (exists c r, replicate k ".." ++ l ++ [file] = c :: r) as (c & r & E).
      { destruct k; [|by eexists _, _]. destruct l; by eexists _, _. }
      change (replicate (S k) ".." ++ l ++ [file]) with (".." :: (replicate k ".." ++ l ++ [file])).
      rewrite E. cbn. apply prefix_empty. }
  assert (has_exact_zry_extension spec = true) as He.
  { unfold spec, specifier. rewrite app_assoc. by apply ends_with_join. }
  unfold specifier_char in Hall. rewrite !str_all_and, !andb_true_iff in Hall.
  destruct Hall as ((Ha & Hb) & Hcol). unfold specifier_rejected. rewrite Hstart, He.
  unfold is_ascii. rewrite Ha. cbn [negb orb].
  unfold str_contains_any. rewrite (proj2 (str_any_false _ _)) by exact Hb.
  by rewrite str_contains_head.
Qed.

(** The path a specifier denotes *)
Definition denoted (importer : string) (k : nat) (l : list string) : string :=
  let d := directories importer in join_with slash (take (length d - k) d ++ l).

Lemma import_specifier importer k l file :
  let target := denoted importer k (l ++ [file]) in
  Forall (fun c => is_name c = true) (l ++ [file]) -> Forall (lacks slash) (l ++ [file]) ->
  has_exact_zry_extension file = true -> validate_source_path target = Ok tt ->
  str_contains_char "#"%char target = false ->
  resolve_explicit_zry_import importer (specifier k (l ++ [file])) =
    if decide (k <= length (directories importer)) then Ok target else Err invalid_module_specifier.
Proof.
  intros target Hn Hs Hext Hv Hh. pose proof (validate_source_path_ok _ Hv) as Hp.
  assert (split_on slash target = take (length (directories importer) - k) (directories importer) ++ l ++ [file])
    as Esplit.
  { unfold target, denoted. apply split_join; [by destruct (take _ _), l|].
    apply Forall_app. split; [|done]. apply Forall_take. unfold directories.
    apply Forall_take, split_on_all_lack. }
  assert (Forall (fun c => str_all specifier_char c = true) (l ++ [file])) as Hc.
  { pose proof (split_all _ slash _ (path_specifier_chars _ Hp Hh)) as H. rewrite Esplit in H.
    by apply Forall_app in H as [_ ?]. }
  unfold resolve_explicit_zry_import. rewrite specifier_not_rejected by done.
  rewrite directories_rev, specifier_components, resolve_specifier by (done || by destruct l).
  rewrite length_rev. case_decide as Hk; [|done]. cbn.
  assert (rev (rev (l ++ [file]) ++ drop k (rev (directories importer))) =
          take (length (directories importer) - k) (directories importer) ++ l ++ [file]) as ->.
  { rewrite rev_app_distr, rev_involutive. f_equal. by rewrite skipn_rev, rev_involutive. }
  fold (denoted importer k (l ++ [file])). fold target.
  assert (has_exact_zry_extension target = true) as ->.
  { unfold target, denoted. rewrite app_assoc. by apply ends_with_join. }
  cbn. by rewrite (proj2 (normalized_new_ok target target)).
Qed.
