(* ===== verification/SourceTheorems.v ===== *)
(** * Theorems about [zryna-source]

    Source maps, spans, positions and imports. *)
From stdpp Require Import base numbers list list_numbers strings gmap sorting.
From Stdlib Require Import Ascii.
From S2P Require Import Prelude Source SourceText SourcePaths.

(** ** Spans of a built map *)

Lemma validated_exact m span f :
  built m ->
  validated_source m span = Ok f <->
  sm_source m (span_file span) = Some f /\
  exists p q s, sf_text f = p ++ q ++ s /\ text_len p = span_start span /\
                text_len (p ++ q) = span_end span.
Proof.
  intros Hm. unfold validated_source.
  destruct (sm_source m (span_file span)) as [g|] eqn:E; cbn; [|naive_solver].
  destruct (built_file _ _ _ Hm E) as (_ & Hle & _). rewrite (try_u32_le _ Hle). cbn.
  pose proof (char_boundary_exact (sf_text g) (span_start span)) as H1.
  pose proof (char_boundary_exact (sf_text g) (span_end span)) as H2.
  assert (Some g = Some f /\ (exists p q s, sf_text f = p ++ q ++ s /\ text_len p = span_start span /\
            text_len (p ++ q) = span_end span) ->
          (span_start span <= span_end span <= text_len (sf_text g))%N /\
          is_char_boundary (sf_text g) (span_start span) = true /\
          is_char_boundary (sf_text g) (span_end span) = true /\ g = f) as Hconv.
  { intros ([= ->] & p & q & s & Et & Es & Ee). rewrite H1, H2, Et, <- Es, <- Ee.
    rewrite !text_len_blen, !Nat2N.id, !blen_app. split_and!; [lia|lia|by exists p, (q ++ s)| |done].
    exists (p ++ q), s. by rewrite app_assoc, blen_app. }
  destruct (N.ltb_spec (span_end span) (span_start span)); [split; [done|intros ?%Hconv; lia]|].
  destruct (N.ltb_spec (text_len (sf_text g)) (span_end span)); [split; [done|intros ?%Hconv; lia]|].
  destruct (is_char_boundary (sf_text g) (span_start span)); [|split; [done|intros ?%Hconv; naive_solver]].
  destruct (is_char_boundary (sf_text g) (span_end span)); [|split; [done|intros ?%Hconv; naive_solver]].
  cbn. split; [|intros (_ & _ & _ & ->)%Hconv; done]. intros [= <-]. split; [done|].
  destruct (exact_pair (sf_text g) (N.to_nat (span_start span)) (N.to_nat (span_end span)))
    as (p & q & s & Et & Ep & Eq); [by apply H1|by apply H2|lia|].
  exists p, q, s. rewrite !text_len_blen, Ep, Eq, !N2Nat.id. done.
Qed.

Lemma prefix_utf16 p1 s1 p2 s2 :
  p1 ++ s1 = p2 ++ s2 -> (utf16_count p1 <= utf16_count p2)%N -> p1 `prefix_of` p2.
Proof.
  revert p2. induction p1 as [|c p1 IH]; intros p2 E Hle; [apply prefix_nil|].
  destruct p2 as [|d p2].
  - simpl in Hle. unfold len_utf16 in Hle. case_match; lia.
  - injection E as <- E. apply prefix_cons. simpl in Hle. apply IH; [done|lia].
Qed.

(** ** Properties *)

Module SourceExample.
(** Two files; the second has a three-byte and a four-byte character and a CRLF break *)
Definition inputs : list SourceFileInput :=
  [ mkSourceFileInput "src/main.zry" [97; 8364; 13; 10; 128512; 98]%N;
    mkSourceFileInput "src/lib/util.zry" [99]%N ].
Definition map : SourceMap :=
  match (build 1 inputs).2 with Ok m => m | Err _ => mkSourceMap 0 [] ∅ end.
Definition main : FileId := mkFileId 1 1.

Lemma map_built : (build 1 inputs).2 = Ok map.
Proof. vm_compute. reflexivity. Qed.
End SourceExample.


(** the map does not depend on the order in which the inputs are given. *)
Theorem source_map_order_independent next inputs1 inputs2 m :
  inputs1 ≡ₚ inputs2 -> (build next inputs1).2 = Ok m -> (build next inputs2).2 = Ok m.
Proof. apply build_permutation. Qed.

Lemma source_map_order_independent_witness :
  (build 1 (rev SourceExample.inputs)).2 = Ok SourceExample.map.
Proof.
  apply (source_map_order_independent 1 SourceExample.inputs).
  - apply Permutation_rev.
  - vm_compute. reflexivity.
Defined.

(** a span is valid in a built map exactly when its file belongs to the map
    and its two ends are the byte lengths of two prefixes of the file's text. *)
Theorem span_valid_exact m file start end_ :
  built m ->
  sm_span m file start end_ = Ok (mkSpan file start end_) <->
  exists f p q s, sm_source m file = Some f /\ sf_text f = p ++ q ++ s /\
    text_len p = start /\ text_len (p ++ q) = end_.
Proof.
  intros Hm. unfold sm_span.
  pose proof (fun f => validated_exact m (mkSpan file start end_) f Hm) as Hv. cbn in Hv.
  destruct (validated_source m (mkSpan file start end_)) as [f|e]; cbn; split.
  - intros _. destruct (proj1 (Hv f) eq_refl) as (Hf & p & q & s & H). by exists f, p, q, s.
  - done.
  - done.
  - intros (f & p & q & s & Hf & H). assert (Err e = Ok f :> result SourceError SourceFile); [|done].
    apply Hv. split; [done|by exists p, q, s].
Qed.

Lemma span_valid_exact_witness :
  sm_span SourceExample.map SourceExample.main 4 10 = Ok (mkSpan SourceExample.main 4 10).
Proof.
  apply span_valid_exact.
  - exists 1%N, SourceExample.inputs. vm_compute. reflexivity.
  - eexists _, [97; 8364]%N, [13; 10; 128512]%N, [98]%N. split; [vm_compute; reflexivity|].
    split; [reflexivity|split; reflexivity].
Defined.

(** C36: a conversion from UTF-16 offsets succeeds exactly when both offsets are
    UTF-16 lengths of prefixes of the text (no surrogate pair is split), and its
    span covers the text between these prefixes. *)
Theorem span_from_utf16_exact m file start end_ span :
  built m ->
  span_from_utf16 m file start end_ = Ok span <->
  exists f p q s, sm_source m file = Some f /\ sf_text f = p ++ q ++ s /\
    utf16_count p = start /\ utf16_count (p ++ q) = end_ /\
    span = mkSpan file (text_len p) (text_len (p ++ q)).
Proof.
  intros Hm. unfold span_from_utf16. destruct (N.ltb_spec end_ start) as [Hlt|Hle].
  { split; [done|]. intros (f & p & q & s & _ & _ & <- & <- & _). rewrite utf16_app in Hlt. lia. }
  destruct (sm_source m file) as [f|] eqn:Ef; cbn; [|split; [done|naive_solver]].
  destruct (built_file _ _ _ Hm Ef) as (_ & Hlen & _).
  pose proof (fun r k => utf16_from_exact f r [] (sf_text f) k eq_refl Hlen) as Hu.
  cbn [app] in Hu. change (text_len []) with 0%N in Hu. change (utf16_count []) with 0%N in Hu.
  fold (utf16_to_utf8 f) in Hu. split.
  - destruct (utf16_to_utf8 f start) as [a|] eqn:Ea; [|done]. cbn.
    destruct (utf16_to_utf8 f end_) as [b|] eqn:Eb; [|done]. cbn.
    apply Hu in Ea as (p & s & Et & E1 & <-). apply Hu in Eb as (p' & s' & Et' & E2 & <-).
    destruct (prefix_utf16 p s p' s') as [q ->]; [congruence|lia|].
    unfold sm_span. destruct (validated_source _ _); [|done]. cbn. intros [= <-].
    exists f, p, q, s'. by rewrite <- app_assoc in Et'.
  - intros (g & p & q & s & [= <-] & Et & E1 & E2 & ->).
    assert (utf16_to_utf8 f start = Ok (text_len p)) as -> by (apply Hu; by exists p, (q ++ s)).
    assert (utf16_to_utf8 f end_ = Ok (text_len (p ++ q))) as ->.
    { apply Hu. exists (p ++ q), s. by rewrite <- app_assoc. }
    cbn. unfold sm_span.
    assert (validated_source m (mkSpan file (text_len p) (text_len (p ++ q))) = Ok f) as ->; [|done].
    apply validated_exact; [done|]. split; [done|by exists p, q, s].
Qed.

Lemma span_from_utf16_exact_witness :
  span_from_utf16 SourceExample.map SourceExample.main 2 6 = Ok (mkSpan SourceExample.main 4 10).
Proof.
  apply span_from_utf16_exact.
  - exists 1%N, SourceExample.inputs. vm_compute. reflexivity.
  - eexists _, [97; 8364]%N, [13; 10; 128512]%N, [98]%N. split; [vm_compute; reflexivity|].
    split_and!; reflexivity.
Defined.

(** resolving a span of a built map never slices out of bounds, and both
    positions are exact: the line is the number of line breaks (LF, CRLF or a
    lone CR) up to the offset and the columns count the scalar values and the
    UTF-16 units since the last of them. *)
Theorem resolve_positions_exact m span r :
  built m -> resolve m span = Ok r ->
  is_Some (position_prefix (rs_source r) (span_start span)) /\
  is_Some (position_prefix (rs_source r) (span_end span)) /\
  position_of (sf_text (rs_source r)) (span_start span) (rs_start r) /\
  position_of (sf_text (rs_source r)) (span_end span) (rs_end r).
Proof.
  intros Hm. unfold resolve. destruct (validated_source m span) as [f|] eqn:E; [|done].
  cbn. intros [= <-]. cbn. apply (validated_exact _ _ _ Hm) in E as (Hf & p & q & s & Et & Ep & Eq).
  destruct (built_file _ _ _ Hm Hf) as (_ & Hle & Hls).
  destruct (resolve_position_exact f (span_start span) Hle Hls) as [H1 H2].
  { rewrite Et, <- Ep, text_len_blen, Nat2N.id. by exists p, (q ++ s). }
  destruct (resolve_position_exact f (span_end span) Hle Hls) as [H3 H4]; [|done].
  rewrite Et, <- Eq, text_len_blen, Nat2N.id. exists (p ++ q), s. by rewrite app_assoc.
Qed.

Lemma resolve_positions_exact_witness :
  exists r, resolve SourceExample.map (mkSpan SourceExample.main 4 10) = Ok r /\
    position_of (sf_text (rs_source r)) 10 (rs_end r) /\ rp_line (rs_end r) = 1%N /\
    rp_utf16_column (rs_end r) = 2%N.
Proof.
  eexists. split; [vm_compute; reflexivity|]. split; [|split; reflexivity].
  eapply (resolve_positions_exact SourceExample.map (mkSpan SourceExample.main 4 10)).
  - exists 1%N, SourceExample.inputs. vm_compute. reflexivity.
  - vm_compute. reflexivity.
Defined.

(** a resolved import is a portable workspace path with the [.zry]
    extension, and no prefix of the specifier climbs above the workspace root. *)
Theorem import_stays_inside importer spec p :
  resolve_explicit_zry_import importer spec = Ok p ->
  path_ok p /\ has_exact_zry_extension p = true /\
  forall pre, pre `prefix_of` split_on "/"%char spec ->
    ups pre <= length (directories importer) + names pre.
Proof. apply import_sound. Qed.

Lemma import_stays_inside_witness : path_ok "src/lib/util.zry".
Proof. apply (import_stays_inside "src/main.zry" "./lib/util.zry"). vm_compute. reflexivity. Defined.

(** a specifier of [k] parent steps followed by plain names resolves to the
    importer's directory less its last [k] components, extended by the names;
    with more steps than the importer has directories it is rejected. *)
Theorem import_resolves_lexically importer k l file :
  let target := denoted importer k (l ++ [file]) in
  Forall (fun c => is_name c = true) (l ++ [file]) ->
  Forall (fun s => str_all (fun a => negb (Ascii.eqb a "/"%char)) s = true) (l ++ [file]) ->
  has_exact_zry_extension file = true -> validate_source_path target = Ok tt ->
  str_contains_char "#"%char target = false ->
  resolve_explicit_zry_import importer (specifier k (l ++ [file])) =
    if decide (k <= length (directories importer)) then Ok target else Err invalid_module_specifier.
Proof. apply import_specifier. Qed.

Lemma import_resolves_lexically_witness :
  resolve_explicit_zry_import "src/app/main.zry" "../lib/util.zry" = Ok "src/lib/util.zry" /\
  resolve_explicit_zry_import "src/app/main.zry" "../../../lib/util.zry" = Err invalid_module_specifier.
Proof.
  split.
  - apply (import_resolves_lexically "src/app/main.zry" 1 ["lib"] "util.zry");
      repeat constructor.
  - apply (import_resolves_lexically "src/app/main.zry" 3 ["lib"] "util.zry");
      repeat constructor.
Defined.
