(* ===== verification/Diagnostics.v ===== *)
(** * Stable diagnostics ([crates/zryna-diagnostics]) *)
From stdpp Require Import base numbers list strings pretty.
From S2P Require Import Prelude Source.

(** ** Comparison ([std::cmp::Ordering]) *)

(** [Ordering::then_with] *)
Definition then_with (a b : comparison) : comparison := match a with Eq => b | _ => a end.

(** [Ord::cmp] of strings and of vectors of integers *)
Fixpoint str_cmp (s t : string) : comparison :=
  match s, t with
  | EmptyString, EmptyString => Eq
  | EmptyString, String _ _ => Lt
  | String _ _, EmptyString => Gt
  | String a r, String b u => then_with (byte_of a ?= byte_of b)%N (str_cmp r u)
  end.
Fixpoint list_cmp (s t : list N) : comparison :=
  match s, t with
  | [], [] => Eq
  | [], _ :: _ => Lt
  | _ :: _, [] => Gt
  | a :: r, b :: u => then_with (a ?= b)%N (list_cmp r u)
  end.
(** [bool::cmp] *)
Definition bool_cmp (a b : bool) : comparison :=
  match a, b with false, true => Lt | true, false => Gt | _, _ => Eq end.

(** ** Diagnostics *)

Inductive Severity := SevError | SevWarning.
#[export] Instance Severity_eq_dec : EqDecision Severity.
Proof. solve_decision. Defined.

Inductive PrimaryLocation :=
  | LocSource (span : Span)
  | LocWorkspacePath (path : string)
  | LocGlobal.
#[export] Instance PrimaryLocation_eq_dec : EqDecision PrimaryLocation.
Proof. solve_decision. Defined.

Record Diagnostic := mkDiagnostic {
  d_code : string;
  d_severity : Severity;
  d_primary : PrimaryLocation;
  d_message : string;
  d_guidance : string }.
#[export] Instance Diagnostic_eq_dec : EqDecision Diagnostic.
Proof. solve_decision. Defined.

(** [Diagnostic::error] *)
Definition diag_error (code : string) (path : option string) (message guidance : string)
    : Diagnostic :=
  let primary := match path with Some p => LocWorkspacePath p | None => LocGlobal end in
  mkDiagnostic code SevError primary message guidance.

(** [Diagnostic::error_at] *)
Definition diag_error_at (code : string) (span : Span) (message guidance : string) : Diagnostic :=
  mkDiagnostic code SevError (LocSource span) message guidance.

(** [Diagnostic::from_source_error] *)
Definition from_source_error (e : SourceError) : Diagnostic :=
  diag_error (se_code e) (se_path e) (se_message e) (se_guidance e).

(** [Diagnostic::path] and [Diagnostic::primary_span] *)
Definition diag_path (d : Diagnostic) : option string :=
  match d_primary d with LocWorkspacePath p => Some p | _ => None end.
Definition diag_primary_span (d : Diagnostic) : option Span :=
  match d_primary d with LocSource s => Some s | _ => None end.

(** ** Text of a diagnostic *)

Definition hex_digit (n : N) : Ascii.ascii := Ascii.ascii_of_N (if (n <? 10)%N then 48 + n else 87 + n)%N.
(** [format!("{:x}", n)] of a control character *)
Definition hex_lower (n : N) : string :=
  if (n <? 16)%N then String (hex_digit n) EmptyString
  else String (hex_digit (n / 16)%N) (String (hex_digit (n mod 16)%N) EmptyString).
Definition unicode_escape (n : N) : string := "\u{" +:+ hex_lower n +:+ "}".

(** [escape_text]: the control characters are those below 32, 127, and the
    two-byte characters from 128 to 159. *)
Fixpoint escape_text (s : string) : string :=
  match s with
  | EmptyString => EmptyString
  | String a rest =>
      let n := byte_of a in
      if (n =? 10)%N then "\n" +:+ escape_text rest
      else if (n =? 13)%N then "\r" +:+ escape_text rest
      else if (n =? 9)%N then "\t" +:+ escape_text rest
      else if (n =? 92)%N then "\\" +:+ escape_text rest
      else if is_ascii_control a then unicode_escape n +:+ escape_text rest
      else if (n =? 194)%N then
        match rest with
        | String b rest' =>
            if ((128 <=? byte_of b) && (byte_of b <=? 159))%N then unicode_escape (byte_of b) +:+ escape_text rest'
            else String a (escape_text rest)
        | EmptyString => String a EmptyString
        end
      else String a (escape_text rest)
  end.

(** [Display for Diagnostic] *)
Definition diag_display (d : Diagnostic) : string :=
  let code := escape_text (d_code d) in
  let message := escape_text (d_message d) in
  let guidance := escape_text (d_guidance d) in
  match d_primary d with
  | LocSource span =>
      code +:+ " [file#" +:+ pretty (file_index (span_file span)) +:+ ":" +:+ pretty (span_start span) +:+ ".." +:+
      pretty (span_end span) +:+ "] " +:+ message +:+ ": " +:+ guidance
  | LocWorkspacePath path => code +:+ " [" +:+ escape_text path +:+ "] " +:+ message +:+ ": " +:+ guidance
  | LocGlobal => code +:+ ": " +:+ message +:+ ": " +:+ guidance
  end.

(** ** Structured and textual reports *)

Record RenderedDiagnostic := mkRendered {
  rn_code : string;
  rn_severity : Severity;
  rn_path : option string;
  rn_byte_start : option N;
  rn_byte_end : option N;
  rn_line_start : option N;
  rn_column_start : option N;
  rn_line_end : option N;
  rn_column_end : option N;
  rn_message : string;
  rn_guidance : string }.

(** [saturating_add(1)] on [u32] *)
Definition one_based (n : N) : N := N.min u32_max (n + 1).

Definition resolve_diagnostic (sources : SourceMap) (d : Diagnostic) : result SourceError RenderedDiagnostic :=
  match d_primary d with
  | LocSource span =>
      resolved ← resolve sources span;
      let start := rs_start resolved in
      let end_ := rs_end resolved in
      Ok (mkRendered (d_code d) (d_severity d) (Some (sf_path (rs_source resolved)))
            (Some (rp_byte_offset start)) (Some (rp_byte_offset end_))
            (Some (one_based (rp_line start))) (Some (one_based (rp_scalar_column start)))
            (Some (one_based (rp_line end_))) (Some (one_based (rp_scalar_column end_)))
            (d_message d) (d_guidance d))
  | LocWorkspacePath path =>
      Ok (mkRendered (d_code d) (d_severity d) (Some path) None None None None None None (d_message d) (d_guidance d))
  | LocGlobal =>
      Ok (mkRendered (d_code d) (d_severity d) None None None None None None None (d_message d) (d_guidance d))
  end.

Definition option_cmp {A} (cmp : A -> A -> comparison) (a b : option A) : comparison :=
  match a, b with
  | Some a, Some b => cmp a b
  | Some _, None => Gt
  | None, Some _ => Lt
  | None, None => Eq
  end.
Definition severity_cmp (a b : Severity) : comparison :=
  match a, b with
  | SevError, SevWarning => Lt
  | SevWarning, SevError => Gt
  | _, _ => Eq
  end.
Definition compare_rendered (l r : RenderedDiagnostic) : comparison :=
  then_with (option_cmp str_cmp (rn_path l) (rn_path r))
  (then_with (option_cmp N.compare (rn_byte_start l) (rn_byte_start r))
  (then_with (option_cmp N.compare (rn_byte_end l) (rn_byte_end r))
  (then_with (severity_cmp (rn_severity l) (rn_severity r))
  (then_with (str_cmp (rn_code l) (rn_code r))
  (then_with (str_cmp (rn_message l) (rn_message r)) (str_cmp (rn_guidance l) (rn_guidance r))))))).

(** [render_structured]: the diagnostics of the report, in order *)
Definition render_structured (diagnostics : list Diagnostic) (sources : SourceMap)
    : result SourceError (list RenderedDiagnostic) :=
  rendered ← mapM (resolve_diagnostic sources) diagnostics;
  Ok (sort_by (fun l r => match compare_rendered l r with Gt => false | _ => true end) rendered).

Definition severity_name (s : Severity) : string := match s with SevError => "error" | SevWarning => "warning" end.
Definition render_location (d : RenderedDiagnostic) : string :=
  match rn_path d, (rn_line_start d, rn_column_start d, rn_line_end d, rn_column_end d, rn_byte_start d, rn_byte_end d) with
  | Some path, (Some start_line, Some start_column, Some end_line, Some end_column, Some start, Some end_) =>
      escape_text path +:+ ":" +:+ pretty start_line +:+ ":" +:+ pretty start_column +:+ "-" +:+ pretty end_line +:+
      ":" +:+ pretty end_column +:+ " [" +:+ pretty start +:+ ".." +:+ pretty end_ +:+ "]"
  | Some path, (None, None, None, None, None, None) => escape_text path
  | _, _ => "<global>"
  end.
Definition line_feed : string := String (Ascii.ascii_of_N 10) EmptyString.
Definition render_line (d : RenderedDiagnostic) : string :=
  render_location d +:+ ": " +:+ severity_name (rn_severity d) +:+ "[" +:+ rn_code d +:+ "]: " +:+
  escape_text (rn_message d) +:+ line_feed +:+ "  guidance: " +:+ escape_text (rn_guidance d).
(** [lines.join("\n")] *)
Definition join_lines (lines : list string) : string :=
  match lines with
  | [] => EmptyString
  | line :: lines => line +:+ foldr (fun l rest => line_feed +:+ l +:+ rest) EmptyString lines
  end.
Definition render_text (diagnostics : list Diagnostic) (sources : SourceMap) : result SourceError string :=
  report ← render_structured diagnostics sources; Ok (join_lines (render_line <$> report)).
