(* ===== verification/Abi.v ===== *)
(** * Scalar ABI v1 ([crates/zryna-abi])

    Scalar values and their target carriers, the verification of the public
    export table, and the preparation of typed invocations.  [i32] values are
    [Z]; a JavaScript Number is an IEEE binary64 value of the Standard Library's
    [spec_float]. *)
From stdpp Require Import base numbers list strings gmap.
From Stdlib Require Import Ascii ZArith SpecFloat.
From S2P Require Import Prelude Source.

(** ** Limits *)

Definition MAX_LOGICAL_EXPORT_NAME_BYTES : N := 128.
Definition MAX_ABI_EXPORTS : N := 16384.
Definition MAX_ABI_PARAMETERS_PER_EXPORT : N := 256.
Definition MAX_ABI_PARAMETERS_PER_MODULE : N := 262144.
Definition MAX_ABI_VIOLATIONS : N := 256.

(** ** Scalars *)

Inductive ScalarType := ST_Bool | ST_I32.
#[export] Instance ScalarType_eq_dec : EqDecision ScalarType.
Proof. solve_decision. Defined.

Inductive ScalarValue := SV_Bool (b : bool) | SV_I32 (z : Z).
#[export] Instance ScalarValue_eq_dec : EqDecision ScalarValue.
Proof. solve_decision. Defined.

Definition i32_min : Z := -2147483648.
Definition i32_max : Z := 2147483647.
Definition i32_range (z : Z) : Prop := (i32_min <= z <= i32_max)%Z.

Definition scalar_ty (v : ScalarValue) : ScalarType :=
  match v with SV_Bool _ => ST_Bool | SV_I32 _ => ST_I32 end.

Inductive ScalarTarget := JavaScript | CoreWebAssembly | NativeLinuxX8664.

Inductive RawHostScalar :=
  | JavaScriptBool (b : bool)
  | JavaScriptNumber (f : spec_float)
  | RawI32 (z : Z).

Inductive ScalarBoundaryError :=
  | TargetCarrierMismatch
  | InvalidJavaScriptI32 (f : spec_float)
  | InvalidBoolCarrier (z : Z).

(** ** binary64 operations the boundary uses *)

(** [value as f64] for an [i32]: the canonical binary64 of an exact integer, a
    53-bit significand *)
Definition f64_of_pos (s : bool) (p : positive) : spec_float :=
  let k := (53 - Z.pos (Pos.size p))%Z in
  S754_finite s (Pos.mul p (2 ^ Z.to_pos k)) (- k).
Definition i32_as_f64 (z : Z) : spec_float :=
  match z with
  | Z0 => S754_zero false
  | Zpos p => f64_of_pos false p
  | Zneg p => f64_of_pos true p
  end.

Definition f64_is_finite (f : spec_float) : bool :=
  match f with S754_zero _ | S754_finite _ _ _ => true | _ => false end.

(** [f.fract() != 0.0] on a finite value *)
Definition f64_has_fract (f : spec_float) : bool :=
  match f with
  | S754_finite _ m e => (e <? 0)%Z && negb (Z.pos m mod 2 ^ (- e) =? 0)%Z
  | _ => false
  end.

(** [f == 0.0 && f.is_sign_negative()] *)
Definition f64_is_negative_zero (f : spec_float) : bool :=
  match f with S754_zero s => s | _ => false end.

(** [f as i32]: truncation toward zero, saturating, and zero for NaN *)
Definition f64_as_i32 (f : spec_float) : Z :=
  match f with
  | S754_zero _ | S754_nan => 0
  | S754_infinity s => if s then i32_min else i32_max
  | S754_finite s m e =>
      let a := (if 0 <=? e then Z.pos m * 2 ^ e else Z.pos m / 2 ^ (- e))%Z in
      let v := if s then (- a)%Z else a in
      Z.max i32_min (Z.min i32_max v)
  end.

(** ** Carriers *)

Definition encode_argument (target : ScalarTarget) (value : ScalarValue) : RawHostScalar :=
  match target, value with
  | JavaScript, SV_Bool b => JavaScriptBool b
  | JavaScript, SV_I32 z => JavaScriptNumber (i32_as_f64 z)
  | (CoreWebAssembly | NativeLinuxX8664), SV_Bool b => RawI32 (if b then 1 else 0)
  | (CoreWebAssembly | NativeLinuxX8664), SV_I32 z => RawI32 z
  end.

Definition decode_boundary_value (target : ScalarTarget) (expected : ScalarType)
    (raw : RawHostScalar) : result ScalarBoundaryError ScalarValue :=
  match target, expected, raw with
  | JavaScript, ST_Bool, JavaScriptBool b => Ok (SV_Bool b)
  | JavaScript, ST_I32, JavaScriptNumber f =>
      if negb (f64_is_finite f)
         || f64_has_fract f
         || SFltb f (i32_as_f64 i32_min)
         || SFltb (i32_as_f64 i32_max) f
         || f64_is_negative_zero f
      then Err (InvalidJavaScriptI32 f)
      else Ok (SV_I32 (f64_as_i32 f))
  | (CoreWebAssembly | NativeLinuxX8664), ST_I32, RawI32 z => Ok (SV_I32 z)
  | (CoreWebAssembly | NativeLinuxX8664), ST_Bool, RawI32 z =>
      if (z =? 0)%Z then Ok (SV_Bool false)
      else if (z =? 1)%Z then Ok (SV_Bool true)
      else Err (InvalidBoolCarrier z)
  | _, _, _ => Err TargetCarrierMismatch
  end.

Definition normalize_result := decode_boundary_value.
Definition decode_argument := decode_boundary_value.

(** ** Untrusted declarations *)

Inductive AbiType := AT_Unit | AT_Bool | AT_I32.
Record AbiSignature := mkAbiSignature { sig_parameters : list AbiType; sig_result : AbiType }.
Record AbiExport := mkAbiExport { ex_logical_name : string; ex_signature : AbiSignature }.

Inductive AbiViolationKind :=
  | TooManyExports
  | TooManyParameters
  | TooManyParametersInModule
  | InvalidLogicalName
  | DuplicateLogicalName (first_index : nat)
  | PortableNameCollision (first_index : nat)
  | UnsupportedScalarType
  | ViolationBudgetExceeded.

Record AbiViolation := mkAbiViolation { av_export_index : option nat; av_kind : AbiViolationKind }.

(** [AbiViolation::code] *)
Definition violation_code (v : AbiViolation) : string :=
  match av_kind v with
  | InvalidLogicalName => "ZRYNA-B1001"
  | DuplicateLogicalName _ => "ZRYNA-B1002"
  | PortableNameCollision _ => "ZRYNA-B1003"
  | UnsupportedScalarType => "ZRYNA-B1004"
  | TooManyExports | TooManyParameters | TooManyParametersInModule => "ZRYNA-B1201"
  | ViolationBudgetExceeded => "ZRYNA-B1202"
  end.

(** [ViolationBuffer::push] and [exhausted] *)
Definition vb_push (values : list AbiViolation) (v : AbiViolation) : list AbiViolation :=
  if (len values <? MAX_ABI_VIOLATIONS - 1)%N then values ++ [v]
  else if (len values =? MAX_ABI_VIOLATIONS - 1)%N then
    values ++ [mkAbiViolation None ViolationBudgetExceeded]
  else values.
Definition vb_exhausted (values : list AbiViolation) : bool :=
  (len values =? MAX_ABI_VIOLATIONS)%N.

(** ** Verified exports *)

Record VerifiedExport := mkVerifiedExport {
  ve_logical_name : string;
  ve_javascript_name : string;
  ve_webassembly_name : string;
  ve_native_symbol : string;
  ve_parameters : list ScalarType;
  ve_result : ScalarType }.

Record VerifiedScalarAbiModule := mkVerifiedScalarAbiModule {
  vm_exports : list VerifiedExport;
  vm_lookup : gmap string nat }.

Definition reserved_exports : list string :=
  ["arguments"; "await"; "break"; "case"; "catch"; "class"; "const"; "constructor";
   "continue"; "debugger"; "default"; "delete"; "do"; "else"; "enum"; "eval"; "export";
   "extends"; "false"; "finally"; "for"; "function"; "if"; "implements"; "import"; "in";
   "instanceof"; "interface"; "let"; "new"; "null"; "package"; "private"; "protected";
   "prototype"; "public"; "return"; "static"; "super"; "switch"; "then"; "this"; "throw";
   "true"; "try"; "typeof"; "var"; "void"; "while"; "with"; "yield"; "__proto__"].

Definition reserved_export (name : string) : bool := existsb (String.eqb name) reserved_exports.

Definition is_ascii_alphabetic (a : ascii) : bool := is_ascii_upper a || is_ascii_lower a.
Definition is_ascii_alphanumeric (a : ascii) : bool := is_ascii_alphabetic a || is_ascii_digit a.
Definition is_underscore (a : ascii) : bool := Ascii.eqb a "_"%char.

Definition valid_logical_name (name : string) : bool :=
  if String.eqb name EmptyString || (MAX_LOGICAL_EXPORT_NAME_BYTES <? slen name)%N then false
  else match name with
       | EmptyString => false
       | String first rest =>
           (is_ascii_alphabetic first || is_underscore first)
           && str_all (fun b => is_ascii_alphanumeric b || is_underscore b) rest
           && negb (reserved_export name)
       end.

(** The mutable state of the export loop of [verify_v1] *)
Record AbiState := mkAbiState {
  as_errors : list AbiViolation;
  as_exact : gmap string nat;
  as_portable : gmap string nat;
  as_verified : list VerifiedExport }.

Definition as_push (s : AbiState) (v : AbiViolation) : AbiState :=
  mkAbiState (vb_push (as_errors s) v) (as_exact s) (as_portable s) (as_verified s).

Definition verify_type (export_index : nat) (ty : AbiType) (s : AbiState)
    : AbiState * option ScalarType :=
  match ty with
  | AT_Bool => (s, Some ST_Bool)
  | AT_I32 => (s, Some ST_I32)
  | AT_Unit => (as_push s (mkAbiViolation (Some export_index) UnsupportedScalarType), None)
  end.

(** [parameters.map(verify_type).collect::<Option<Vec<_>>>()]: stops at the
    first unsupported parameter *)
Fixpoint verify_types (export_index : nat) (tys : list AbiType) (s : AbiState)
    : AbiState * option (list ScalarType) :=
  match tys with
  | [] => (s, Some [])
  | ty :: r =>
      let '(s1, o) := verify_type export_index ty s in
      match o with
      | None => (s1, None)
      | Some t =>
          let '(s2, os) := verify_types export_index r s1 in
          (s2, cons t <$> os)
      end
  end.

Definition native_symbol (name : string) : string := "zryna_v1_e_" +:+ name.

Definition verify_export_mapping (export_index : nat) (name : string) (s : AbiState)
    : AbiState * option (string * string * string * string) :=
  if negb (valid_logical_name name) then
    (as_push s (mkAbiViolation (Some export_index) InvalidLogicalName), None)
  else match as_exact s !! name with
  | Some first_index =>
      (as_push s (mkAbiViolation (Some export_index) (DuplicateLogicalName first_index)), None)
  | None =>
      let s := mkAbiState (as_errors s) (<[name := export_index]> (as_exact s))
                 (as_portable s) (as_verified s) in
      let portable := to_ascii_lowercase name in
      match as_portable s !! portable with
      | Some first_index =>
          (as_push s (mkAbiViolation (Some export_index) (PortableNameCollision first_index)), None)
      | None =>
          let s := mkAbiState (as_errors s) (as_exact s)
                     (<[portable := export_index]> (as_portable s)) (as_verified s) in
          (s, Some (name, name, name, native_symbol name))
      end
  end.

(** One iteration of the export loop *)
Definition verify_export (index : nat) (export : AbiExport) (s : AbiState) : AbiState :=
  let '(s, parameters) := verify_types index (sig_parameters (ex_signature export)) s in
  let '(s, result) := verify_type index (sig_result (ex_signature export)) s in
  let '(s, mapping) := verify_export_mapping index (ex_logical_name export) s in
  match parameters, result, mapping with
  | Some parameters, Some result, Some (logical, javascript, webassembly, native) =>
      mkAbiState (as_errors s) (as_exact s) (as_portable s)
        (as_verified s ++
           [mkVerifiedExport logical javascript webassembly native parameters result])
  | _, _, _ => s
  end.

Fixpoint verify_exports (index : nat) (exports : list AbiExport) (s : AbiState) : AbiState :=
  match exports with
  | [] => s
  | export :: r =>
      if vb_exhausted (as_errors s) then s
      else verify_exports (S index) r (verify_export index export s)
  end.

(** The parameter-count preflight *)
Fixpoint count_parameters (index : nat) (exports : list AbiExport) (count : N)
    : result (list AbiViolation) N :=
  match exports with
  | [] => Ok count
  | export :: r =>
      let n := len (sig_parameters (ex_signature export)) in
      if (MAX_ABI_PARAMETERS_PER_EXPORT <? n)%N then
        Err [mkAbiViolation (Some index) TooManyParameters]
      else
        count ← ok_or (checked_add u64_max count n)
                  [mkAbiViolation None TooManyParametersInModule];
        count_parameters (S index) r count
  end.

Definition build_lookup (exports : list VerifiedExport) : gmap string nat :=
  foldl (fun m '(i, e) => <[ve_logical_name e := i]> m) ∅ (enumerate exports).

Definition abi_verify_v1 (exports : list AbiExport)
    : result (list AbiViolation) VerifiedScalarAbiModule :=
  if (MAX_ABI_EXPORTS <? len exports)%N then Err [mkAbiViolation None TooManyExports]
  else
    parameter_count ← count_parameters 0 exports 0;
    if (MAX_ABI_PARAMETERS_PER_MODULE <? parameter_count)%N then
      Err [mkAbiViolation None TooManyParametersInModule]
    else
      let s := verify_exports 0 exports (mkAbiState [] ∅ ∅ []) in
      match as_errors s with
      | [] => Ok (mkVerifiedScalarAbiModule (as_verified s) (build_lookup (as_verified s)))
      | errors => Err errors
      end.

(** ** Invocations *)

Record Invocation := mkInvocation { iv_logical_export : string; iv_arguments : list ScalarValue }.

Inductive InvocationError :=
  | UnknownExport
  | ArityMismatch (expected actual : N)
  | TypeMismatch (argument_index : nat) (expected actual : ScalarType).

Record VerifiedInvocation := mkVerifiedInvocation {
  vi_index : nat; vi_export : VerifiedExport; vi_arguments : list ScalarValue }.

(** [VerifiedScalarAbiModule::export] *)
Definition abi_export (m : VerifiedScalarAbiModule) (name : string)
    : option (nat * VerifiedExport) :=
  index ← vm_lookup m !! name; pair index <$> vm_exports m !! index.

(** The type check over [parameters.iter().zip(arguments).enumerate()] *)
Fixpoint check_arguments (index : nat) (parameters : list ScalarType)
    (arguments : list ScalarValue) : result InvocationError unit :=
  match parameters, arguments with
  | expected :: ps, actual :: args =>
      if bool_decide (expected = scalar_ty actual) then check_arguments (S index) ps args
      else Err (TypeMismatch index expected (scalar_ty actual))
  | _, _ => Ok tt
  end.

Definition prepare_invocation (m : VerifiedScalarAbiModule) (invocation : Invocation)
    : result InvocationError VerifiedInvocation :=
  match abi_export m (iv_logical_export invocation) with
  | None => Err UnknownExport
  | Some (index, export) =>
      if negb (len (ve_parameters export) =? len (iv_arguments invocation))%N then
        Err (ArityMismatch (len (ve_parameters export)) (len (iv_arguments invocation)))
      else
        _ ← check_arguments 0 (ve_parameters export) (iv_arguments invocation);
        Ok (mkVerifiedInvocation index export (iv_arguments invocation))
  end.
