(* ===== verification/AbiSound.v ===== *)
(** * Verification of scalar ABI modules

    [verify_v1] against a specification of the modules it accepts and of the
    table it returns, and invocations of that table. *)
From stdpp Require Import base numbers list list_numbers strings gmap.
From Stdlib Require Import ZArith SpecFloat Lia.
From S2P Require Import Prelude Source Abi.

(** ** Specification *)

Definition scalar_of (ty : AbiType) : option ScalarType :=
  match ty with AT_Bool => Some ST_Bool | AT_I32 => Some ST_I32 | AT_Unit => None end.

(** The verified form of an export: the same name on every target up to the
    native prefix, and the same types *)
Definition verified_of (e : AbiExport) : option VerifiedExport :=
  ps ← mapM scalar_of (sig_parameters (ex_signature e));
  r ← scalar_of (sig_result (ex_signature e));
  let name := ex_logical_name e in
  Some (mkVerifiedExport name name name (native_symbol name) ps r).

Definition parameter_count (e : AbiExport) : N := len (sig_parameters (ex_signature e)).
Definition parameter_total (l : list AbiExport) : N := foldr (fun e n => parameter_count e + n)%N 0%N l.
Definition folded_name (e : AbiExport) : string := to_ascii_lowercase (ex_logical_name e).

Record exports_ok (exports : list AbiExport) (verified : list VerifiedExport) : Prop := {
  eo_count : (len exports <= MAX_ABI_EXPORTS)%N;
  eo_parameters : Forall (fun e => parameter_count e <= MAX_ABI_PARAMETERS_PER_EXPORT)%N exports;
  eo_total : (parameter_total exports <= MAX_ABI_PARAMETERS_PER_MODULE)%N;
  eo_names : Forall (fun e => valid_logical_name (ex_logical_name e) = true) exports;
  eo_unique : NoDup (folded_name <$> exports);
  eo_verified : mapM verified_of exports = Some verified }.

(** ** Violations *)

Lemma vb_push_nonempty l v : vb_push l v <> [].
Proof.
  unfold vb_push. destruct l as [|x l]; [done|]. repeat case_match; done.
Qed.

Lemma vb_push_bound l v : (len l <= MAX_ABI_VIOLATIONS)%N -> (len (vb_push l v) <= MAX_ABI_VIOLATIONS)%N.
Proof.
  unfold vb_push, MAX_ABI_VIOLATIONS, len. intros H.
  destruct (N.ltb_spec (N.of_nat (length l)) (256 - 1)); [rewrite length_app; simpl; lia|].
  destruct (N.eqb_spec (N.of_nat (length l)) (256 - 1)); [rewrite length_app; simpl; lia|done].
Qed.

(** What each helper may do to the violations *)
Definition keeps (s s' : AbiState) : Prop :=
  (as_errors s <> [] -> as_errors s' <> []) /\
  ((len (as_errors s) <= MAX_ABI_VIOLATIONS)%N -> (len (as_errors s') <= MAX_ABI_VIOLATIONS)%N).

#[export] Instance keeps_preorder : PreOrder keeps.
Proof. split; [by intros s|]. intros s1 s2 s3 [] []. split; auto. Qed.

Lemma keeps_push s v : keeps s (as_push s v).
Proof. split; cbn; [intros _; apply vb_push_nonempty|apply vb_push_bound]. Qed.

Lemma keeps_same s s' : as_errors s' = as_errors s -> keeps s s'.
Proof. intros E. unfold keeps. by rewrite E. Qed.

(** ** Types *)

Lemma verify_type_exact i ty s :
  verify_type i ty s =
    match scalar_of ty with
    | Some t => (s, Some t)
    | None => (as_push s (mkAbiViolation (Some i) UnsupportedScalarType), None)
    end.
Proof. by destruct ty. Qed.

Lemma verify_types_exact i tys s :
  verify_types i tys s =
    match mapM scalar_of tys with
    | Some ts => (s, Some ts)
    | None => (as_push s (mkAbiViolation (Some i) UnsupportedScalarType), None)
    end.
Proof.
  induction tys as [|ty tys IH]; [done|]. cbn [verify_types]. rewrite verify_type_exact. cbn.
  destruct (scalar_of ty) as [t|]; [|done]. rewrite IH. cbn. by destruct (mapM scalar_of tys).
Qed.

Lemma keeps_type i ty s : keeps s (verify_type i ty s).1.
Proof. rewrite verify_type_exact. destruct (scalar_of ty); [done|apply keeps_push]. Qed.

Lemma keeps_types i tys s : keeps s (verify_types i tys s).1.
Proof. rewrite verify_types_exact. destruct (mapM scalar_of tys); [done|apply keeps_push]. Qed.

(** ** Names *)

Lemma keeps_mapping i name s : keeps s (verify_export_mapping i name s).1.
Proof.
  unfold verify_export_mapping. destruct (valid_logical_name name); cbn; [|apply keeps_push].
  destruct (as_exact s !! name); cbn; [apply keeps_push|].
  destruct (as_portable s !! to_ascii_lowercase name); cbn; [|by apply keeps_same].
  etrans; [|apply keeps_push]. by apply keeps_same.
Qed.

Lemma keeps_export i e s : keeps s (verify_export i e s).
Proof.
  unfold verify_export. pose proof (keeps_types i (sig_parameters (ex_signature e)) s) as H1.
  destruct (verify_types i _ s) as [s1 ps]. cbn in H1.
  pose proof (keeps_type i (sig_result (ex_signature e)) s1) as H2.
  destruct (verify_type i _ s1) as [s2 r]. cbn in H2.
  pose proof (keeps_mapping i (ex_logical_name e) s2) as H3.
  destruct (verify_export_mapping i _ s2) as [s3 m]. cbn in H3.
  assert (keeps s s3) as H by (etrans; [exact H1|etrans; [exact H2|exact H3]]).
  by repeat case_match.
Qed.

Lemma keeps_exports i l s : keeps s (verify_exports i l s).
Proof.
  revert i s. induction l as [|e l IH]; intros i s; [done|]. cbn.
  destruct (vb_exhausted (as_errors s)); [done|]. etrans; [apply keeps_export|apply IH].
Qed.

(** ** The export loop *)

(** The state after the accepted exports [l] *)
Record accepted_exports (l : list AbiExport) (s : AbiState) : Prop := {
  ae_errors : as_errors s = [];
  ae_exact : forall k, is_Some (as_exact s !! k) <-> k ∈ ex_logical_name <$> l;
  ae_portable : forall k, is_Some (as_portable s !! k) <-> k ∈ folded_name <$> l;
  ae_verified : mapM verified_of l = Some (as_verified s) }.

Lemma accepted_nil : accepted_exports [] (mkAbiState [] ∅ ∅ []).
Proof.
  split; [done| | |done]; intros k; cbn; rewrite lookup_empty;
    (split; [by intros [??]|by intros ?%not_elem_of_nil]).
Qed.

Lemma mapM_snoc {A B} (f : A -> option B) l x :
  mapM f (l ++ [x]) = (ys ← mapM f l; y ← f x; Some (ys ++ [y])).
Proof.
  induction l as [|z l IH]; cbn; [by destruct (f x)|]. destruct (f z); cbn; [|done].
  cbn in IH. rewrite IH. destruct (mapM f l), (f x); done.
Qed.

Lemma folded_elem (l : list AbiExport) e :
  ex_logical_name e ∈ ex_logical_name <$> l -> folded_name e ∈ folded_name <$> l.
Proof.
  intros (x & E & Hx)%list_elem_of_fmap. apply list_elem_of_fmap. exists x. split; [|done].
  unfold folded_name. by rewrite E.
Qed.

(** The names of one export on a clean state *)
Lemma verify_mapping_step l i e s :
  accepted_exports l s ->
  let '(s', o) := verify_export_mapping i (ex_logical_name e) s in
  let name := ex_logical_name e in
  (as_errors s' = [] /\ valid_logical_name name = true /\ (folded_name e ∉ folded_name <$> l) /\
   o = Some (name, name, name, native_symbol name) /\ as_verified s' = as_verified s /\
   (forall k, is_Some (as_exact s' !! k) <-> k ∈ ex_logical_name <$> l ++ [e]) /\
   (forall k, is_Some (as_portable s' !! k) <-> k ∈ folded_name <$> l ++ [e])) \/
  (as_errors s' <> [] /\ ~ (valid_logical_name name = true /\ folded_name e ∉ folded_name <$> l)).
Proof.
  intros [He Hx Hp Hv]. unfold verify_export_mapping.
  destruct (valid_logical_name (ex_logical_name e)) eqn:Ev; cbn.
  2: { right. split; [apply vb_push_nonempty|]. by intros [? _]. }
  destruct (as_exact s !! ex_logical_name e) as [j|] eqn:Ex; cbn.
  { right. split; [apply vb_push_nonempty|]. intros [_ []]. apply folded_elem, Hx. by eexists. }
  change (to_ascii_lowercase (ex_logical_name e)) with (folded_name e).
  destruct (as_portable s !! folded_name e) as [j|] eqn:Ep; cbn.
  { right. split; [apply vb_push_nonempty|]. intros [_ []]. apply Hp. by eexists. }
  left. split_and!; try done.
  - intros H%Hp. rewrite Ep in H. by destruct H.
  - intros k. rewrite fmap_app, elem_of_app, list_fmap_singleton, (list_elem_of_singleton k), <- Hx.
    destruct (decide (k = ex_logical_name e)) as [->|]; [rewrite lookup_insert_eq; naive_solver|].
    rewrite lookup_insert_ne by done. naive_solver.
  - intros k. rewrite fmap_app, elem_of_app, list_fmap_singleton, (list_elem_of_singleton k), <- Hp.
    destruct (decide (k = folded_name e)) as [->|]; [rewrite lookup_insert_eq; naive_solver|].
    rewrite lookup_insert_ne by done. naive_solver.
Qed.

Lemma verify_export_errors i e s :
  as_errors (verify_export i e s) =
  as_errors (verify_export_mapping i (ex_logical_name e)
               (verify_type i (sig_result (ex_signature e))
                  (verify_types i (sig_parameters (ex_signature e)) s).1).1).1.
Proof.
  unfold verify_export. destruct (verify_types i _ s) as [s1 ps].
  cbn [fst]. destruct (verify_type i _ s1) as [s2 r]. cbn [fst].
  destruct (verify_export_mapping i _ s2) as [s3 m]. cbn [fst]. by repeat case_match.
Qed.

(** One export: accepted when its types are supported, its name is valid and
    new; otherwise a violation is recorded. *)
Lemma verify_export_step l i e s :
  accepted_exports l s ->
  let s' := verify_export i e s in
  (as_errors s' = [] /\ valid_logical_name (ex_logical_name e) = true /\
   (folded_name e ∉ folded_name <$> l) /\ accepted_exports (l ++ [e]) s') \/
  (as_errors s' <> [] /\
   ~ (valid_logical_name (ex_logical_name e) = true /\ (folded_name e ∉ folded_name <$> l) /\
      is_Some (verified_of e))).
Proof.
  intros Ha. cbn zeta. pose proof (verify_export_errors i e s) as He.
  unfold verified_of. rewrite verify_types_exact in He.
  destruct (mapM scalar_of (sig_parameters (ex_signature e))) as [ps|] eqn:Eps.
  2: { right. rewrite He. split; [|by intros (_ & _ & ? & ?)].
       apply keeps_mapping, keeps_type, vb_push_nonempty. }
  cbn [fst] in He. rewrite verify_type_exact in He.
  destruct (scalar_of (sig_result (ex_signature e))) as [r|] eqn:Er.
  2: { right. rewrite He. split; [|by intros (_ & _ & ? & ?)]. apply keeps_mapping, vb_push_nonempty. }
  cbn [fst] in He. pose proof (verify_mapping_step l i e s Ha) as Hm.
  unfold verify_export in *. rewrite verify_types_exact, Eps, verify_type_exact, Er in *.
  destruct (verify_export_mapping i (ex_logical_name e) s) as [s3 o]. cbn [fst] in He.
  destruct Hm as [(E & Hv & Hf & -> & Hver & Hx & Hp)|[Hne Hbad]].
  - left. split_and!; [done..|]. split; cbn; [done..|].
    rewrite mapM_snoc, (ae_verified _ _ Ha). unfold verified_of. rewrite Eps, Er. cbn. by rewrite Hver.
  - right. rewrite He. split; [done|]. naive_solver.
Qed.

Lemma verify_exports_exact l i exports s :
  accepted_exports l s -> NoDup (folded_name <$> l) ->
  let s' := verify_exports i exports s in
  (as_errors s' = [] ->
     Forall (fun e => valid_logical_name (ex_logical_name e) = true) exports /\
     NoDup (folded_name <$> l ++ exports) /\ accepted_exports (l ++ exports) s') /\
  (Forall (fun e => valid_logical_name (ex_logical_name e) = true) exports ->
   NoDup (folded_name <$> l ++ exports) -> is_Some (mapM verified_of exports) -> as_errors s' = []).
Proof.
  revert l i s. induction exports as [|e exports IH]; intros l i s Ha Hnd; cbn.
  { rewrite app_nil_r. split; [done|]. intros _ _ _. apply Ha. }
  assert (vb_exhausted (as_errors s) = false) as ->.
  { rewrite (ae_errors _ _ Ha). done. }
  rewrite (cons_middle e l exports), app_assoc.
  destruct (verify_export_step l i e s Ha) as [(E & Hv & Hf & Ha')|[Hne Hbad]].
  - assert (NoDup (folded_name <$> l ++ [e])) as Hnd'.
    { rewrite fmap_app. apply NoDup_app. split_and!; [done| |apply NoDup_singleton].
      by intros x Hx ->%list_elem_of_singleton. }
    destruct (IH _ (S i) _ Ha' Hnd') as [H1 H2]. split.
    + intros Hok. destruct (H1 Hok) as (? & ? & ?). by split_and!; [constructor|..].
    + intros [_ Hvs]%Forall_cons Hnd2 Hver. apply H2; [done..|].
      destruct (verified_of e); [|by destruct Hver]. cbn in Hver.
      destruct (mapM verified_of exports); [by eexists|by destruct Hver].
  - assert (as_errors (verify_exports (S i) exports (verify_export i e s)) <> []) as Hne'.
    { by apply keeps_exports. }
    split; [done|]. intros [Hv Hvs]%Forall_cons Hnd2 Hver. destruct Hbad. split_and!; [done| |].
    + rewrite fmap_app in Hnd2. apply NoDup_app in Hnd2 as [Hnd2 _].
      rewrite fmap_app in Hnd2. apply NoDup_app in Hnd2 as (_ & Hdis & _). intros Hx%Hdis. apply Hx. by left.
    + destruct (verified_of e); [by eexists|by destruct Hver].
Qed.

(** ** [verify_v1] *)

Lemma count_parameters_exact i exports count :
  (count <= u64_max)%N ->
  match count_parameters i exports count with
  | Ok n => Forall (fun e => parameter_count e <= MAX_ABI_PARAMETERS_PER_EXPORT)%N exports /\
            n = (count + parameter_total exports)%N
  | Err es => (Forall (fun e => parameter_count e <= MAX_ABI_PARAMETERS_PER_EXPORT)%N exports ->
               u64_max < count + parameter_total exports)%N /\ length es = 1
  end.
Proof.
  revert i count. induction exports as [|e exports IH]; intros i count Hc; cbn [count_parameters parameter_total foldr].
  { split; [constructor|]. lia. }
  fold (parameter_count e). destruct (N.ltb_spec MAX_ABI_PARAMETERS_PER_EXPORT (parameter_count e)).
  { split; [|done]. intros [? _]%Forall_cons. lia. }
  unfold checked_add. destruct (N.leb_spec (count + parameter_count e) u64_max) as [Hle|Hgt]; cbn.
  - specialize (IH (S i) (count + parameter_count e)%N Hle). unfold parameter_total in IH.
    destruct (count_parameters _ _ _); cbn in *; [rewrite Forall_cons; destruct IH; split; [done|lia]|].
    destruct IH as [IH Hl]. split; [|done]. intros [_ Hf]%Forall_cons. specialize (IH Hf). lia.
  - split; [|done]. intros _. lia.
Qed.

Lemma abi_verify_exact exports m :
  abi_verify_v1 exports = Ok m <->
  exports_ok exports (vm_exports m) /\ vm_lookup m = build_lookup (vm_exports m).
Proof.
  unfold abi_verify_v1. destruct (N.ltb_spec MAX_ABI_EXPORTS (len exports)) as [Hc|Hc].
  { split; [done|]. intros [[? _ _ _ _ _] _]. lia. }
  pose proof (count_parameters_exact 0 exports 0 ltac:(done)) as Hp.
  destruct (count_parameters 0 exports 0) as [n|es]; cbn.
  2: { split; [done|]. intros [[_ H1 H2 _ _ _] _]. destruct Hp as [Hp _]. specialize (Hp H1).
       unfold u64_max, MAX_ABI_PARAMETERS_PER_MODULE in *. lia. }
  destruct Hp as [Hps ->]. rewrite N.add_0_l.
  destruct (N.ltb_spec MAX_ABI_PARAMETERS_PER_MODULE (parameter_total exports)).
  { split; [done|]. intros [[_ _ ? _ _ _] _]. lia. }
  destruct (verify_exports_exact [] 0 exports _ accepted_nil) as [H1 H2]; [constructor|].
  cbn [app] in *. destruct (as_errors (verify_exports 0 exports _)) as [|v vs] eqn:E; split.
  - intros [= <-]. destruct (H1 eq_refl) as (? & ? & Ha). cbn. split; [|done].
    split; try done. apply (ae_verified _ _ Ha).
  - intros [[_ _ _ _ _ Hv] Hl]. destruct (H1 eq_refl) as (_ & _ & Ha).
    rewrite (ae_verified _ _ Ha) in Hv. injection Hv as Hv. destruct m; cbn in *. by subst.
  - done.
  - intros [[_ _ _ Hn Hu Hv] _]. specialize (H2 Hn Hu ltac:(by eexists)). done.
Qed.

Lemma abi_verify_violations exports vs :
  abi_verify_v1 exports = Err vs -> vs <> [] /\ (len vs <= MAX_ABI_VIOLATIONS)%N.
Proof.
  unfold abi_verify_v1. destruct (N.ltb_spec MAX_ABI_EXPORTS (len exports)); [by intros [= <-]|].
  pose proof (count_parameters_exact 0 exports 0 ltac:(done)) as Hp.
  destruct (count_parameters 0 exports 0) as [n|es]; cbn.
  2: { intros [= <-]. destruct Hp as [_ Hl]. unfold len. rewrite Hl. by destruct es. }
  destruct (MAX_ABI_PARAMETERS_PER_MODULE <? n)%N; [by intros [= <-]|].
  pose proof (proj2 (keeps_exports 0 exports (mkAbiState [] ∅ ∅ [])) ltac:(done)) as Hb.
  destruct (as_errors (verify_exports 0 exports _)); [done|]. by intros [= <-].
Qed.

(** ** Lookup and invocations *)

Lemma build_lookup_exact l k i :
  NoDup (ve_logical_name <$> l) ->
  build_lookup l !! k = Some i <-> exists e, l !! i = Some e /\ ve_logical_name e = k.
Proof.
  unfold build_lookup, enumerate. induction l as [|e l IH] using rev_ind; intros Hnd.
  { cbn. rewrite lookup_empty. naive_solver. }
  rewrite imap_app, foldl_app. cbn. rewrite Nat.add_0_r.
  rewrite fmap_app in Hnd. apply NoDup_app in Hnd as (Hnd & Hdis & _).
  destruct (decide (k = ve_logical_name e)) as [->|Hne].
  - rewrite lookup_insert_eq. split.
    + intros [= <-]. exists e. by rewrite lookup_app_r, Nat.sub_diag.
    + intros (x & Hx & E). apply lookup_app_Some in Hx as [Hx|[Hle Hx]].
      * destruct (Hdis (ve_logical_name e)); [|by left]. rewrite <- E.
        apply list_elem_of_fmap_2. by eapply list_elem_of_lookup_2.
      * apply list_lookup_singleton_Some in Hx as [? _]. f_equal. lia.
  - rewrite lookup_insert_ne by done. rewrite IH by done. split.
    + intros (x & Hx & E). exists x. split; [by apply lookup_app_l_Some|done].
    + intros (x & Hx & E). apply lookup_app_Some in Hx as [Hx|[_ Hx]]; [by exists x|].
      apply list_lookup_singleton_Some in Hx as [_ <-]. done.
Qed.

Lemma verified_name e v : verified_of e = Some v -> ve_logical_name v = ex_logical_name e.
Proof.
  unfold verified_of. destruct (mapM scalar_of _); [|done]. cbn.
  destruct (scalar_of _); [|done]. cbn. by intros [= <-].
Qed.

Lemma verified_names exports verified :
  mapM verified_of exports = Some verified ->
  ve_logical_name <$> verified = ex_logical_name <$> exports.
Proof.
  rewrite mapM_Some. induction 1 as [|e v exports verified H _ IH]; [done|].
  cbn. cbn in IH. rewrite IH. f_equal. by apply verified_name.
Qed.

Lemma names_nodup exports verified :
  exports_ok exports verified -> NoDup (ve_logical_name <$> verified).
Proof.
  intros [_ _ _ _ Hu Hv]. rewrite (verified_names _ _ Hv).
  apply (NoDup_fmap_1 to_ascii_lowercase). by rewrite <- list_fmap_compose.
Qed.

Lemma abi_export_exact exports m name i e :
  abi_verify_v1 exports = Ok m ->
  abi_export m name = Some (i, e) <-> vm_exports m !! i = Some e /\ ve_logical_name e = name.
Proof.
  intros [Hok Hl]%abi_verify_exact. pose proof (names_nodup _ _ Hok) as Hnd.
  unfold abi_export. rewrite Hl. pose proof (build_lookup_exact (vm_exports m) name) as Hb.
  destruct (build_lookup (vm_exports m) !! name) as [j|] eqn:E; cbn.
  - destruct (proj1 (Hb j Hnd) eq_refl) as (x & Hx & En). rewrite Hx. cbn. split.
    + by intros [= <- <-].
    + intros [He Hn]. assert (Some j = Some i) as [= <-] by (apply (Hb i Hnd); by exists e). congruence.
  - split; [done|]. intros [He Hn]. assert (None = Some i) by (apply (Hb i Hnd); by exists e). done.
Qed.

Lemma check_arguments_exact i ps args :
  length ps = length args ->
  check_arguments i ps args = Ok tt <-> scalar_ty <$> args = ps.
Proof.
  revert i args. induction ps as [|p ps IH]; intros i [|a args] Hl; try done.
  injection Hl as Hl. cbn [check_arguments fmap list_fmap]. case_bool_decide as E.
  - rewrite (IH (S i) args Hl). subst p. split; [by intros <-|by intros [= ->]].
  - split; [done|]. by intros [= <- _].
Qed.

Lemma prepare_invocation_exact exports m inv v :
  abi_verify_v1 exports = Ok m ->
  prepare_invocation m inv = Ok v <->
  vm_exports m !! vi_index v = Some (vi_export v) /\
  ve_logical_name (vi_export v) = iv_logical_export inv /\
  vi_arguments v = iv_arguments inv /\
  scalar_ty <$> iv_arguments inv = ve_parameters (vi_export v).
Proof.
  intros Hm. unfold prepare_invocation.
  destruct (abi_export m (iv_logical_export inv)) as [[i e]|] eqn:E.
  - pose proof E as [He Hn]%(abi_export_exact _ _ _ _ _ Hm).
    assert (forall w, vm_exports m !! vi_index w = Some (vi_export w) ->
              ve_logical_name (vi_export w) = iv_logical_export inv ->
              vi_index w = i /\ vi_export w = e) as Huniq.
    { intros w H1 H2. assert (abi_export m (iv_logical_export inv) = Some (vi_index w, vi_export w)) as E'
        by (by apply (abi_export_exact _ _ _ _ _ Hm)). rewrite E in E'. by simplify_eq. }
    destruct (N.eqb_spec (len (ve_parameters e)) (len (iv_arguments inv))) as [El|Hne]; cbn.
    + assert (length (ve_parameters e) = length (iv_arguments inv)) as El' by (unfold len in El; lia).
      pose proof (check_arguments_exact 0 _ _ El') as Hc.
      destruct (check_arguments 0 _ _) as [[]|err]; cbn; split.
      * intros [= <-]. cbn. split_and!; [done..|]. by apply Hc.
      * intros (H1 & H2 & H3 & _). destruct (Huniq v H1 H2) as [<- <-]. destruct v; cbn in *. by subst.
      * done.
      * intros (H1 & H2 & H3 & H4). destruct (Huniq v H1 H2) as [_ Ee]. rewrite Ee in H4.
        assert (Err err = Ok tt :> result InvocationError unit); [|done]. by apply Hc.
    + split; [done|]. intros (H1 & H2 & _ & H4). destruct (Huniq v H1 H2) as [_ Ee]. rewrite Ee in H4.
      destruct Hne. unfold len. rewrite <- H4. by rewrite length_fmap.
  - split; [done|]. intros (H1 & H2 & _).
    assert (abi_export m (iv_logical_export inv) = Some (vi_index v, vi_export v)) as E'
      by (by apply (abi_export_exact _ _ _ _ _ Hm)). congruence.
Qed.

(** The target names of a verified export *)
Lemma verified_shape exports verified i v :
  mapM verified_of exports = Some verified -> verified !! i = Some v ->
  ve_javascript_name v = ve_logical_name v /\ ve_webassembly_name v = ve_logical_name v /\
  ve_native_symbol v = native_symbol (ve_logical_name v).
Proof.
  intros Hm%mapM_Some Hi. destruct (Forall2_lookup_r _ _ _ _ _ Hm Hi) as (e & _ & He).
  unfold verified_of in He. destruct (mapM scalar_of _); [|done]. cbn in He.
  destruct (scalar_of _); [|done]. cbn in He. by injection He as <-.
Qed.

(** * Scalar carriers

    [encode_argument] and [decode_boundary_value] are inverse to each other on
    every target.  The JavaScript carrier of an [i32] is its binary64 value;
    the checks of the decoder leave exactly these. *)

Local Open Scope Z_scope.

(** ** Sizes of significands *)

Definition bits (p : positive) : Z := Z.pos (Pos.size p).

Lemma bits_bounds p : 0 < bits p /\ 2 ^ (bits p - 1) <= Z.pos p < 2 ^ bits p.
Proof.
  unfold bits. split; [lia|]. split.
  - pose proof (Pos.size_le p) as H. apply Pos2Z.pos_le_pos in H.
    rewrite Pos2Z.inj_pow, (Pos2Z.inj_xO p) in H.
    assert (2 ^ Z.pos (Pos.size p) = 2 ^ (Z.pos (Pos.size p) - 1) * 2) as E.
    { rewrite <- (Z.pow_add_r 2 _ 1) by lia. f_equal. lia. }
    lia.
  - pose proof (Pos.size_gt p) as H. apply Pos2Z.pos_lt_pos in H. by rewrite Pos2Z.inj_pow in H.
Qed.

Lemma bits_unique p n : 0 < n -> 2 ^ (n - 1) <= Z.pos p < 2 ^ n -> bits p = n.
Proof.
  intros Hn [H1 H2]. destruct (bits_bounds p) as (H0 & H3 & H4).
  destruct (Z.lt_total (bits p) n) as [H|[H|H]]; [|done|].
  - pose proof (Z.pow_le_mono_r 2 (bits p) (n - 1)). lia.
  - pose proof (Z.pow_le_mono_r 2 n (bits p - 1)). lia.
Qed.

Lemma bits_le p n : 0 <= n -> Z.pos p < 2 ^ n -> bits p <= n.
Proof.
  intros Hn H. destruct (bits_bounds p) as (H0 & H3 & _).
  destruct (Z.le_gt_cases (bits p) n); [done|].
  pose proof (Z.pow_le_mono_r 2 n (bits p - 1)). lia.
Qed.

Lemma bits_shift a k : bits (Z.to_pos (Z.pos a * 2 ^ Z.pos k)) = bits a + Z.pos k.
Proof.
  destruct (bits_bounds a) as (H0 & H1 & H2). apply bits_unique; [lia|].
  rewrite Z2Pos.id by lia. replace (bits a + Z.pos k - 1) with (bits a - 1 + Z.pos k) by lia.
  rewrite !Z.pow_add_r by lia. nia.
Qed.

Lemma digits2_bits m : Z.pos (digits2_pos m) = bits m.
Proof. done. Qed.

(** ** Canonical integers *)

(** The significand and the exponent [i32_as_f64] chooses *)
Lemma f64_of_pos_shape s p :
  bits p < 53 ->
  exists k, k = 53 - bits p /\ 0 < k /\
    f64_of_pos s p = S754_finite s (Z.to_pos (Z.pos p * 2 ^ k)) (- k).
Proof.
  intros H. exists (53 - bits p). split; [done|]. split; [lia|].
  unfold f64_of_pos. fold (bits p). f_equal.
  apply Pos2Z.inj. rewrite Z2Pos.id by lia. rewrite Pos2Z.inj_mul, Pos2Z.inj_pow.
  by rewrite Z2Pos.id by lia.
Qed.

Lemma i32_max_f64 : i32_as_f64 i32_max = S754_finite false 9007199250546688 (-22).
Proof. done. Qed.
Lemma i32_min_f64 : i32_as_f64 i32_min = S754_finite true 4503599627370496 (-21).
Proof. done. Qed.

(** The range checks bound the exponent. *)
Lemma js_range low high s m e :
  SFltb (S754_finite s m e) (S754_finite true low (-21)) = false ->
  SFltb (S754_finite false high (-22)) (S754_finite s m e) = false ->
  e <= -21 /\ (s = false -> e <= -22) /\ (s = true -> e = -21 -> Z.pos m <= Z.pos low).
Proof.
  unfold SFltb, SFcompare. intros Hmin Hmax. destruct s.
  - destruct (Z.compare_spec e (-21)) as [E|E|E]; [|split_and!; [lia|done|lia]|done].
    split_and!; [lia|done|]. intros _ _.
    destruct (Pos.compare_cont Eq m low) eqn:Hc; [..|done].
    + apply Pos.compare_eq in Hc as ->. done.
    + apply Pos.compare_lt_iff in Hc. apply Pos2Z.pos_le_pos. by apply Pos.lt_le_incl.
  - destruct (Z.compare_spec (-22) e) as [E|E|E]; [|done|]; split_and!; (lia || done).
Qed.

(** An integral canonical binary64 with a negative exponent is a scaled integer
    whose size is fixed by the exponent. *)
Lemma canonical_integer m e :
  bounded 53 1024 m e = true -> e <= -21 -> Z.pos m mod 2 ^ (- e) = 0 ->
  exists a, Z.pos m = Z.pos a * 2 ^ (- e) /\ bits a = 53 + e.
Proof.
  intros Hv He Hf. unfold bounded, canonical_mantissa, fexp, emin in Hv.
  apply andb_true_iff in Hv as [Hc%Z.eqb_eq _]. rewrite digits2_bits in Hc.
  apply Z.mod_divide in Hf as [a Ha]; [|lia].
  destruct a as [|a|a]; [lia| |lia]. exists a. split; [done|].
  assert (bits m = bits a + - e) as Hsz.
  { destruct e as [|e|e]; [lia|lia|]. change (- Z.neg e) with (Z.pos e) in *.
    rewrite <- bits_shift, <- Ha. done. }
  pose proof (bits_bounds a) as (Ha0 & _). lia.
Qed.

(** Integral carriers in range are the canonical ones. *)
Lemma js_number_inverse f :
  valid_binary 53 1024 f = true -> f64_is_finite f = true -> f64_has_fract f = false ->
  SFltb f (i32_as_f64 i32_min) = false -> SFltb (i32_as_f64 i32_max) f = false ->
  f64_is_negative_zero f = false ->
  i32_as_f64 (f64_as_i32 f) = f /\ i32_range (f64_as_i32 f).
Proof.
  rewrite i32_max_f64, i32_min_f64. destruct f as [s| | |s m e]; try done.
  { destruct s; [done|]. intros _ _ _ _ _ _. done. }
  intros Hv _ Hf Hmin Hmax _. destruct (js_range _ _ s m e Hmin Hmax) as (He21 & He22 & Hm21).
  assert (Z.pos m mod 2 ^ (- e) = 0) as Hmod.
  { unfold f64_has_fract in Hf. rewrite (proj2 (Z.ltb_lt _ _)) in Hf by lia. cbn [andb] in Hf.
    by apply negb_false_iff, Z.eqb_eq in Hf. }
  destruct (canonical_integer m e Hv He21 Hmod) as (a & Ha & Hsz).
  pose proof (bits_bounds a) as (Ha0 & Ha1 & Ha2).
  assert (Z.pos a <= 2 ^ 31) as Hle.
  { destruct (Z.eq_dec e (-21)) as [->|]; [destruct s; [|lia]|].
    - specialize (Hm21 eq_refl eq_refl). rewrite Ha in Hm21. lia.
    - pose proof (Z.pow_le_mono_r 2 (bits a) 31). lia. }
  assert (s = false -> Z.pos a < 2 ^ 31) as Hlt.
  { intros ->. specialize (He22 eq_refl). pose proof (Z.pow_le_mono_r 2 (bits a) 31). lia. }
  assert (f64_as_i32 (S754_finite s m e) = if s then - Z.pos a else Z.pos a) as ->.
  { unfold f64_as_i32. rewrite (proj2 (Z.leb_gt _ _)) by lia. rewrite Ha, Z.div_mul by lia.
    unfold i32_min, i32_max. destruct s; [|specialize (Hlt eq_refl)]; lia. }
  destruct (f64_of_pos_shape s a) as (k & -> & Hk & Hf64); [lia|].
  replace (53 - bits a) with (- e) in Hf64 by lia.
  rewrite <- Ha, Z.opp_involutive, Pos2Z.id in Hf64. split.
  - by destruct s.
  - unfold i32_range, i32_min, i32_max. destruct s; [|specialize (Hlt eq_refl)]; lia.
Qed.

(** The carrier of an [i32] passes every check and is read back. *)
Lemma i32_js_number z :
  i32_range z ->
  f64_is_finite (i32_as_f64 z) = true /\ f64_has_fract (i32_as_f64 z) = false /\
  SFltb (i32_as_f64 z) (i32_as_f64 i32_min) = false /\
  SFltb (i32_as_f64 i32_max) (i32_as_f64 z) = false /\
  f64_is_negative_zero (i32_as_f64 z) = false /\ f64_as_i32 (i32_as_f64 z) = z.
Proof.
  rewrite i32_max_f64, i32_min_f64. unfold i32_range, i32_min, i32_max. intros Hr.
  assert (forall s p k, 0 < k ->
    let f := S754_finite s (Z.to_pos (Z.pos p * 2 ^ k)) (- k) in
    f64_has_fract f = false /\
    (-2147483648 <= (if s then - Z.pos p else Z.pos p) <= 2147483647 ->
     f64_as_i32 f = if s then - Z.pos p else Z.pos p)) as Hval.
  { intros s p k Hk. cbn. rewrite Z2Pos.id, Z.opp_involutive by lia. split.
    - rewrite Z.mod_mul by lia. by rewrite andb_false_r.
    - rewrite (proj2 (Z.leb_gt _ _)) by lia. rewrite Z.div_mul by lia.
      unfold i32_min, i32_max. destruct s; lia. }
  destruct z as [|p|p]; cbn [i32_as_f64].
  - done.
  - destruct (f64_of_pos_shape false p) as (k & Ek & Hk & ->).
    { pose proof (bits_le p 31 ltac:(done)). lia. }
    destruct (Hval false p k Hk) as [H1 H2]. split_and!; [done|done|done| |done|by apply H2].
    pose proof (bits_le p 31 ltac:(done) ltac:(lia)). unfold SFltb, SFcompare.
    destruct (Z.compare_spec (-22) (- k)) as [E|E|E]; [|lia|done].
    assert (k = 22) as -> by lia.
    destruct (Pos.compare_cont Eq _ _) eqn:Ec; [done| |done].
    apply Pos.compare_lt_iff, Pos2Z.pos_lt_pos in Ec. rewrite Z2Pos.id in Ec by lia. lia.
  - destruct (f64_of_pos_shape true p) as (k & Ek & Hk & ->).
    { pose proof (bits_le p 32 ltac:(done)). lia. }
    destruct (Hval true p k Hk) as [H1 H2]. split_and!; [done|done| |done|done|apply H2; lia].
    pose proof (bits_le p 32 ltac:(done) ltac:(lia)). unfold SFltb, SFcompare.
    destruct (Z.compare_spec (- k) (-21)) as [E|E|E]; [|done|lia].
    assert (k = 21) as -> by lia.
    destruct (Pos.compare_cont Eq _ _) eqn:Ec; [done|done|].
    apply Pos.compare_gt_iff, Pos2Z.pos_lt_pos in Ec. rewrite Z2Pos.id in Ec by lia. lia.
Qed.

(** ** Round trips *)

Definition value_ok (v : ScalarValue) : Prop :=
  match v with SV_Bool _ => True | SV_I32 z => i32_range z end.

(** What a host can hand over: a canonical binary64, or an [i32] lane *)
Definition raw_ok (r : RawHostScalar) : Prop :=
  match r with
  | JavaScriptBool _ => True
  | JavaScriptNumber f => valid_binary 53 1024 f = true
  | RawI32 z => i32_range z
  end.

Lemma decode_encode target v :
  value_ok v -> decode_boundary_value target (scalar_ty v) (encode_argument target v) = Ok v.
Proof.
  destruct target, v as [[]|z]; cbn [decode_boundary_value encode_argument scalar_ty]; intros H; try done.
  destruct (i32_js_number z H) as (-> & -> & -> & -> & -> & ->). done.
Qed.

Lemma encode_decode target ty raw v :
  raw_ok raw -> decode_boundary_value target ty raw = Ok v ->
  scalar_ty v = ty /\ value_ok v /\ encode_argument target v = raw.
Proof.
  intros Hr. destruct target, ty, raw as [b|f|z]; cbn [decode_boundary_value]; try done.
  - by intros [= <-].
  - destruct (f64_is_finite f) eqn:E1, (f64_has_fract f) eqn:E2, (SFltb f (i32_as_f64 i32_min)) eqn:E3,
      (SFltb (i32_as_f64 i32_max) f) eqn:E4, (f64_is_negative_zero f) eqn:E5; try done.
    intros [= <-]. destruct (js_number_inverse f) as [E H]; try done. cbn. by rewrite E.
  - destruct (Z.eqb_spec z 0) as [->|]; [by intros [= <-]|].
    destruct (Z.eqb_spec z 1) as [->|]; [by intros [= <-]|done].
  - by intros [= <-].
  - destruct (Z.eqb_spec z 0) as [->|]; [by intros [= <-]|].
    destruct (Z.eqb_spec z 1) as [->|]; [by intros [= <-]|done].
  - by intros [= <-].
Qed.
