(* ===== verification/AbiTheorems.v ===== *)
(** * Theorems about scalar ABI v1

    Module verification, invocations and host carriers. *)
From stdpp Require Import base numbers list list_numbers strings gmap.
From Stdlib Require Import SpecFloat.
From S2P Require Import Prelude Source Abi AbiSound.

Module AbiExample.
Definition add : AbiExport := mkAbiExport "add" (mkAbiSignature [AT_I32; AT_I32] AT_I32).
Definition flag : AbiExport := mkAbiExport "is_set" (mkAbiSignature [] AT_Bool).
Definition table : VerifiedScalarAbiModule :=
  match abi_verify_v1 [add; flag] with Ok m => m | Err _ => mkVerifiedScalarAbiModule [] ∅ end.
Definition call : Invocation := mkInvocation "add" [SV_I32 3; SV_I32 (-4)].
Definition add_verified : VerifiedExport :=
  mkVerifiedExport "add" "add" "add" "zryna_v1_e_add" [ST_I32; ST_I32] ST_I32.
Definition flag_verified : VerifiedExport :=
  mkVerifiedExport "is_set" "is_set" "is_set" "zryna_v1_e_is_set" [] ST_Bool.
End AbiExample.


(** a rejection carries at least one violation and never more than
    [MAX_ABI_VIOLATIONS]. *)
Theorem abi_rejection_bounded exports vs :
  abi_verify_v1 exports = Err vs -> vs <> [] /\ (len vs <= MAX_ABI_VIOLATIONS)%N.
Proof. apply abi_verify_violations. Qed.

Lemma abi_rejection_bounded_witness :
  [mkAbiViolation (Some 1) (PortableNameCollision 0)] <> [] /\
  (len [mkAbiViolation (Some 1%nat) (PortableNameCollision 0%nat)] <= MAX_ABI_VIOLATIONS)%N.
Proof.
  apply (abi_rejection_bounded [AbiExample.add; mkAbiExport "ADD" (mkAbiSignature [] AT_Bool)]).
  vm_compute. reflexivity.
Defined.

(** the target names of a verified module are injective: two exports with
    the same JavaScript, WebAssembly or native name are the same export. *)
Theorem abi_target_names_injective exports m i j e f :
  abi_verify_v1 exports = Ok m ->
  vm_exports m !! i = Some e -> vm_exports m !! j = Some f ->
  ve_javascript_name e = ve_javascript_name f \/ ve_webassembly_name e = ve_webassembly_name f \/
  ve_native_symbol e = ve_native_symbol f -> i = j.
Proof.
  intros [Hok _]%abi_verify_exact He Hf Hn. pose proof (names_nodup _ _ Hok) as Hnd.
  assert (ve_logical_name e = ve_logical_name f) as E.
  { destruct (verified_shape _ _ _ _ (eo_verified _ _ Hok) He) as (E1 & E2 & E3).
    destruct (verified_shape _ _ _ _ (eo_verified _ _ Hok) Hf) as (F1 & F2 & F3).
    rewrite E1, E2, E3, F1, F2, F3 in Hn. destruct Hn as [?|[?|Hn]]; [done..|]. unfold native_symbol in Hn. by simplify_eq/=. }
  apply (NoDup_lookup _ i j (ve_logical_name e) Hnd); rewrite list_lookup_fmap; [by rewrite He|].
  rewrite Hf. simpl. by rewrite E.
Qed.

Lemma abi_target_names_injective_witness :
  ve_native_symbol AbiExample.add_verified <> ve_native_symbol AbiExample.flag_verified.
Proof.
  intros E. enough (0 = 1) by discriminate.
  apply (abi_target_names_injective [AbiExample.add; AbiExample.flag] AbiExample.table 0 1
           AbiExample.add_verified AbiExample.flag_verified);
    [vm_compute; reflexivity..|]. right. right. exact E.
Defined.

(** an invocation of a verified module is accepted exactly when it names an
    export (the lookup never misses or indexes out of range) and its arguments
    have that export's parameter types, and it is passed on unchanged. *)
Theorem invocation_accepted_exactly exports m inv v :
  abi_verify_v1 exports = Ok m ->
  prepare_invocation m inv = Ok v <->
  vm_exports m !! vi_index v = Some (vi_export v) /\
  ve_logical_name (vi_export v) = iv_logical_export inv /\
  vi_arguments v = iv_arguments inv /\
  scalar_ty <$> iv_arguments inv = ve_parameters (vi_export v).
Proof. apply prepare_invocation_exact. Qed.

Lemma invocation_accepted_exactly_witness :
  prepare_invocation AbiExample.table AbiExample.call =
    Ok (mkVerifiedInvocation 0 AbiExample.add_verified [SV_I32 3; SV_I32 (-4)]).
Proof.
  apply (invocation_accepted_exactly [AbiExample.add; AbiExample.flag]); [vm_compute; reflexivity|].
  split_and!; reflexivity.
Defined.

(** every scalar survives the round trip through the carrier of every
    target, for the whole [i32] range. *)
Theorem scalar_carrier_roundtrip target v :
  value_ok v -> decode_boundary_value target (scalar_ty v) (encode_argument target v) = Ok v.
Proof. apply decode_encode. Qed.

Lemma scalar_carrier_roundtrip_witness :
  decode_boundary_value JavaScript ST_I32 (encode_argument JavaScript (SV_I32 (-2147483648))) =
    Ok (SV_I32 (-2147483648)).
Proof. apply (scalar_carrier_roundtrip JavaScript (SV_I32 (-2147483648))). split; done. Defined.

(** the decoder accepts only the encoder's carriers: an accepted raw value
    has the expected type and is the encoding of the value it decodes to, so NaN,
    infinities, fractions, negative zero, out-of-range numbers and non-canonical
    Boolean lanes are rejected. *)
Theorem scalar_carrier_canonical target ty raw v :
  raw_ok raw -> decode_boundary_value target ty raw = Ok v ->
  scalar_ty v = ty /\ value_ok v /\ encode_argument target v = raw.
Proof. apply encode_decode. Qed.

Lemma scalar_carrier_canonical_witness :
  encode_argument JavaScript (SV_I32 6) =
    JavaScriptNumber (S754_finite false 6755399441055744 (-50)).
Proof.
  apply (scalar_carrier_canonical JavaScript ST_I32 (JavaScriptNumber (S754_finite false 6755399441055744 (-50))));
    vm_compute; reflexivity.
Defined.
