(* ===== verification/LayoutData.v ===== *)
(** * Aggregate layout data ([crates/zryna-layout])

    The raw type graph, the sealed layout records and their read-only views.
    [u32] and [u64] lanes are [N]; a 32-byte identity is the list of its bytes. *)
From stdpp Require Import base numbers list strings gmap.
From S2P Require Import Prelude Source.

(** ** Raw graph ([raw.rs]) *)

Definition LModuleId := N.
Definition NodeId := N.

Record LModule := mkLModule {
  lm_id : LModuleId; lm_source_file : FileId; lm_data_declarations : N }.
Record RawField := mkRawField { rf_ordinal : N; rf_ty : NodeId }.
Record RawVariant := mkRawVariant { rv_ordinal : N; rv_payload : option NodeId }.

Inductive TypeKind :=
  | TkBool
  | TkI32
  | TkString
  | TkStruct (module : LModuleId) (declaration : N) (fields : list RawField)
  | TkEnum (module : LModuleId) (declaration : N) (variants : list RawVariant)
  | TkFixedArray (element : NodeId) (length : N)
  | TkVec (element : NodeId)
  | TkShared (payload : NodeId)
  | TkWeak (payload : NodeId)
  | TkBorrow (referent : NodeId).

Record TypeNode := mkTypeNode { tn_id : NodeId; tn_span : option Span; tn_kind : TypeKind }.
Record LGraph := mkLGraph {
  lg_modules : list LModule; lg_types : list TypeNode; lg_program_roots : list NodeId }.

(** ** Identities and categories *)

Inductive StorageTarget := Linear32V1 | LinuxX8664V1.
#[export] Instance StorageTarget_eq_dec : EqDecision StorageTarget.
Proof. solve_decision. Defined.

(** [StorageTarget::tag] and [word_layout] *)
Definition target_tag (t : StorageTarget) : N :=
  match t with Linear32V1 => 1 | LinuxX8664V1 => 2 end.
Definition word_layout (t : StorageTarget) : N * N :=
  match t with Linear32V1 => (4, 4) | LinuxX8664V1 => (8, 8) end%N.

Definition TypeUniverseIdentity := list N.

Record TypeId := mkTypeId { ti_universe : TypeUniverseIdentity; ti_index : N }.
#[export] Instance TypeId_eq_dec : EqDecision TypeId.
Proof. solve_decision. Defined.

Inductive TypeCategory :=
  | CatBool | CatI32 | CatStruct | CatEnum | CatFixedArray | CatString | CatVec | CatShared | CatWeak.
#[export] Instance TypeCategory_eq_dec : EqDecision TypeCategory.
Proof. solve_decision. Defined.

(** ** Sealed records *)

Record VerifiedField := mkVerifiedField { vf_ordinal : N; vf_ty : TypeId; vf_offset : N }.
#[export] Instance VerifiedField_eq_dec : EqDecision VerifiedField.
Proof. solve_decision. Defined.
Record VerifiedVariant := mkVerifiedVariant { vv_ordinal : N; vv_payload : option TypeId }.
#[export] Instance VerifiedVariant_eq_dec : EqDecision VerifiedVariant.
Proof. solve_decision. Defined.

Inductive VerifiedKind :=
  | VkBool
  | VkI32
  | VkString
  | VkStruct (module declaration : N) (fields : list VerifiedField)
  | VkEnum (module declaration : N) (variants : list VerifiedVariant) (payload_offset payload_size : N)
  | VkFixedArray (element : TypeId) (length stride : N)
  | VkVec (element : TypeId)
  | VkShared (payload : TypeId)
  | VkWeak (payload : TypeId).
#[export] Instance VerifiedKind_eq_dec : EqDecision VerifiedKind.
Proof. solve_decision. Defined.

Record LayoutRecord := mkLayoutRecord {
  lr_id : TypeId;
  lr_kind : VerifiedKind;
  lr_size : N;
  lr_alignment : N;
  lr_drop_kind : N;
  lr_runtime_kind : N }.
#[export] Instance LayoutRecord_eq_dec : EqDecision LayoutRecord.
Proof. solve_decision. Defined.

(** [LayoutRecord::category] *)
Definition category (r : LayoutRecord) : TypeCategory :=
  match lr_kind r with
  | VkBool => CatBool
  | VkI32 => CatI32
  | VkString => CatString
  | VkStruct _ _ _ => CatStruct
  | VkEnum _ _ _ _ _ => CatEnum
  | VkFixedArray _ _ _ => CatFixedArray
  | VkVec _ => CatVec
  | VkShared _ => CatShared
  | VkWeak _ => CatWeak
  end.

Record VerifiedLayouts := mkVerifiedLayouts {
  vl_source_map : N;
  vl_universe : TypeUniverseIdentity;
  vl_target : StorageTarget;
  vl_records : list LayoutRecord;
  vl_fingerprint : list N }.

(** ** Views of a record *)

Definition view_fields (r : LayoutRecord) : list VerifiedField :=
  match lr_kind r with VkStruct _ _ fields => fields | _ => [] end.
Definition view_variants (r : LayoutRecord) : list VerifiedVariant :=
  match lr_kind r with VkEnum _ _ variants _ _ => variants | _ => [] end.
Definition array_length (r : LayoutRecord) : option N :=
  match lr_kind r with VkFixedArray _ length _ => Some length | _ => None end.
Definition array_stride (r : LayoutRecord) : option N :=
  match lr_kind r with VkFixedArray _ _ stride => Some stride | _ => None end.
Definition enum_payload_layout (r : LayoutRecord) : option (N * N) :=
  match lr_kind r with VkEnum _ _ _ offset size => Some (offset, size) | _ => None end.
Definition view_nominal_identity (r : LayoutRecord) : option (N * N) :=
  match lr_kind r with
  | VkStruct module declaration _ | VkEnum module declaration _ _ _ => Some (module, declaration)
  | _ => None
  end.
Definition referenced_type (r : LayoutRecord) : option TypeId :=
  match lr_kind r with
  | VkFixedArray element _ _ | VkVec element => Some element
  | VkShared payload | VkWeak payload => Some payload
  | _ => None
  end.

(** [VerifiedLayouts::type_by_id] *)
Definition type_by_id (l : VerifiedLayouts) (id : TypeId) : option LayoutRecord :=
  if bool_decide (ti_universe id = vl_universe l) then get (vl_records l) (ti_index id) else None.
