(* ===== verification/RuntimeAbi.v ===== *)
(** * Ownership runtime ABI v1 ([crates/zryna-ownership-runtime-abi])

    Statuses, logical operations, the validators of single transitions, the
    deterministic growth of vectors and the metadata derived from sealed
    layouts. *)
From stdpp Require Import base numbers list strings gmap.
From S2P Require Import Prelude Source LayoutData.

(** ** Limits *)

Definition MAX_DYNAMIC_ALLOCATION_BYTES : N := 2147483647.
Definition MAX_VEC_ELEMENTS : N := 1048576.
Definition MAX_LIVE_ALLOCATIONS : N := 1048576.
Definition MAX_ALLOCATION_OPERATIONS : N := 1048576.
Definition MAX_STATUS_TRANSITIONS : N := 4194304.

(** ** Statuses and operations *)

Inductive RuntimeStatus :=
  | StOk | StAllocation | StCapacity | StRefcount | StUtf8 | StExpired | StAbiViolation.
#[export] Instance RuntimeStatus_eq_dec : EqDecision RuntimeStatus.
Proof. solve_decision. Defined.

(** [status as u8] *)
Definition status_code (s : RuntimeStatus) : N :=
  match s with
  | StOk => 0 | StAllocation => 1 | StCapacity => 2 | StRefcount => 3 | StUtf8 => 4
  | StExpired => 5 | StAbiViolation => 255
  end.

Inductive LogicalOperation :=
  | Allocate | Grow | Release
  | StringFromUtf8Copy | StringClone | StringConcat | StringRelease
  | VecAllocate | VecReserve | VecReleaseStorage
  | StrongClone | WeakDowngrade | WeakClone | WeakUpgrade
  | StrongReleaseBegin | StrongReleaseFinish | WeakRelease.
#[export] Instance LogicalOperation_eq_dec : EqDecision LogicalOperation.
Proof. solve_decision. Defined.

Inductive LogicalParameter :=
  | PByteSize | PAlignment | PPointer | POldByteSize | PNewByteSize | PBytes | PByteLength
  | PString | PLeftString | PRightString | PElementLayout | PRequiredCapacity | PVecStorage
  | PRequiredLength | PControl.
Inductive LogicalResult := RStatus | RStatusPointer | RStatusString | RStatusVecStorage | RStatusBool.

(** [LogicalOperation::name] *)
Definition operation_name (operation : LogicalOperation) : string :=
  match operation with
  | Allocate => "allocate"
  | Grow => "grow"
  | Release => "release"
  | StringFromUtf8Copy => "stringFromUtf8Copy"
  | StringClone => "stringClone"
  | StringConcat => "stringConcat"
  | StringRelease => "stringRelease"
  | VecAllocate => "vecAllocate"
  | VecReserve => "vecReserve"
  | VecReleaseStorage => "vecReleaseStorage"
  | StrongClone => "strongClone"
  | WeakDowngrade => "weakDowngrade"
  | WeakClone => "weakClone"
  | WeakUpgrade => "weakUpgrade"
  | StrongReleaseBegin => "strongReleaseBegin"
  | StrongReleaseFinish => "strongReleaseFinish"
  | WeakRelease => "weakRelease"
  end.

Record OperationDeclaration := mkOperationDeclaration {
  od_name : string; od_parameters : list LogicalParameter; od_result : LogicalResult; od_statuses : list N }.

(** [operation_declaration] *)
Definition operation_declaration (operation : LogicalOperation) : OperationDeclaration :=
  let declare := mkOperationDeclaration (operation_name operation) in
  match operation with
  | Allocate => declare [PByteSize; PAlignment] RStatusPointer [0; 1; 2; 255]
  | Grow => declare [PPointer; POldByteSize; PNewByteSize; PAlignment] RStatusPointer
              [0; 1; 2; 255]
  | Release => declare [PPointer; PByteSize; PAlignment] RStatus [0; 255]
  | StringFromUtf8Copy => declare [PBytes; PByteLength] RStatusString [0; 1; 2; 4; 255]
  | StringClone => declare [PString] RStatusString [0; 1; 2; 255]
  | StringConcat => declare [PLeftString; PRightString] RStatusString [0; 1; 2; 255]
  | StringRelease => declare [PString] RStatus [0; 255]
  | VecAllocate => declare [PElementLayout; PRequiredCapacity] RStatusVecStorage
                     [0; 1; 2; 255]
  | VecReserve => declare [PElementLayout; PVecStorage; PRequiredLength]
                    RStatusVecStorage [0; 1; 2; 255]
  | VecReleaseStorage => declare [PElementLayout; PVecStorage] RStatus [0; 255]
  | StrongClone | WeakDowngrade | WeakClone => declare [PControl] RStatus [0; 3; 255]
  | WeakUpgrade => declare [PControl] RStatus [0; 3; 5; 255]
  | StrongReleaseBegin | WeakRelease => declare [PControl] RStatusBool [0; 255]
  | StrongReleaseFinish => declare [PControl] RStatus [0; 255]
  end%N.

Definition operation_accepts_status (operation : LogicalOperation) (status : RuntimeStatus) : bool :=
  existsb (N.eqb (status_code status)) (od_statuses (operation_declaration operation)).

(** ** Violations *)

Inductive RuntimeAbiViolationKind :=
  | RvInventory | RvContract | RvLayout | RvCapability | RvStructure | RvEvidence | RvBudget.
Record RuntimeAbiViolation := mkRuntimeAbiViolation {
  rv_kind : RuntimeAbiViolationKind; rv_declaration_index : option N; rv_message : string }.

(** [transition_result] *)
Definition transition_result (valid : bool) : result RuntimeAbiViolation unit :=
  if valid then Ok tt
  else Err (mkRuntimeAbiViolation RvContract None
              "runtime transition claim violates the frozen v1 state/result contract").

(** ** Control blocks *)

Record ControlState := mkControlState {
  strong_count : N;
  weak_count : N;
  pending_last_strong : bool;
  payload_initialized : bool;
  allocated : bool }.
#[export] Instance ControlState_eq_dec : EqDecision ControlState.
Proof. solve_decision. Defined.

Definition valid_control_state (s : ControlState) : bool :=
  if negb (allocated s) then
    (strong_count s =? 0)%N && (weak_count s =? 0)%N && negb (pending_last_strong s)
    && negb (payload_initialized s)
  else if pending_last_strong s then (strong_count s =? 0)%N && (0 <? weak_count s)%N
  else if (0 <? strong_count s)%N then (0 <? weak_count s)%N && payload_initialized s
  else (0 <? weak_count s)%N && negb (payload_initialized s).

Definition control_bool_result_is_zero (operation : LogicalOperation) (bool_result : option bool) : bool :=
  match operation with
  | StrongReleaseBegin | WeakRelease => bool_decide (bool_result = Some false)
  | _ => bool_decide (bool_result = None)
  end.

Definition control_transition_preflight (operation : LogicalOperation) (before : ControlState)
    (status : RuntimeStatus) (bool_result : option bool) (after : ControlState) : option bool :=
  if negb (operation_accepts_status operation status)
     || negb (valid_control_state before)
     || negb (valid_control_state after)
  then Some false
  else if negb (bool_decide (status = StOk)) && negb (control_bool_result_is_zero operation bool_result)
  then Some false
  else if pending_last_strong before && negb (bool_decide (operation = StrongReleaseFinish))
  then Some (bool_decide (status = StAbiViolation) && bool_decide (after = before)
             && control_bool_result_is_zero operation bool_result)
  else None.

(** The struct updates of the validator *)
Definition with_strong (s : ControlState) (n : N) : ControlState :=
  mkControlState n (weak_count s) (pending_last_strong s) (payload_initialized s) (allocated s).
Definition with_weak (s : ControlState) (n : N) : ControlState :=
  mkControlState (strong_count s) n (pending_last_strong s) (payload_initialized s) (allocated s).

Definition validate_control_transition (operation : LogicalOperation) (before : ControlState)
    (status : RuntimeStatus) (bool_result : option bool) (after : ControlState) : bool :=
  match control_transition_preflight operation before status bool_result after with
  | Some valid => valid
  | None =>
      let unchanged := bool_decide (after = before) in
      let strong := strong_count before in
      let weak := weak_count before in
      match operation with
      | StrongClone =>
          match status with
          | StOk => (0 <? strong)%N && (strong <? u32_max)%N
                    && bool_decide (after = with_strong before (strong + 1))
                    && bool_decide (bool_result = None)
          | StRefcount => (strong =? u32_max)%N && unchanged
          | StAbiViolation => unchanged
          | _ => false
          end
      | WeakDowngrade =>
          match status with
          | StOk => (0 <? strong)%N && (weak <? u32_max)%N
                    && bool_decide (after = with_weak before (weak + 1))
                    && bool_decide (bool_result = None)
          | StRefcount => (weak =? u32_max)%N && unchanged
          | StAbiViolation => unchanged
          | _ => false
          end
      | WeakClone =>
          match status with
          | StOk => (0 <? weak)%N && (weak <? u32_max)%N
                    && bool_decide (after = with_weak before (weak + 1))
                    && bool_decide (bool_result = None)
          | StRefcount => (weak =? u32_max)%N && unchanged
          | StAbiViolation => unchanged
          | _ => false
          end
      | WeakUpgrade =>
          match status with
          | StOk => (0 <? strong)%N && (strong <? u32_max)%N
                    && bool_decide (after = with_strong before (strong + 1))
                    && bool_decide (bool_result = None)
          | StExpired => (strong =? 0)%N && unchanged
          | StRefcount => (strong =? u32_max)%N && unchanged
          | StAbiViolation => unchanged
          | _ => false
          end
      | StrongReleaseBegin =>
          match status with
          | StOk =>
              if (1 <? strong)%N then
                bool_decide (bool_result = Some false)
                && bool_decide (after = with_strong before (strong - 1))
              else if (strong =? 1)%N then
                bool_decide (bool_result = Some true)
                && bool_decide (after = mkControlState 0 weak true (payload_initialized before)
                                          (allocated before))
              else false
          | StAbiViolation => unchanged
          | _ => false
          end
      | StrongReleaseFinish =>
          match status with
          | StOk => pending_last_strong before && (strong =? 0)%N
                    && negb (payload_initialized before) && (0 <? weak)%N
                    && bool_decide (bool_result = None)
                    && bool_decide (after = mkControlState strong (weak - 1) false
                                              (payload_initialized before) (1 <? weak)%N)
          | StAbiViolation => unchanged
          | _ => false
          end
      | WeakRelease =>
          match status with
          | StOk =>
              match checked_sub weak 1 with
              | None => false
              | Some remaining =>
                  let deallocated := (remaining =? 0)%N && (strong =? 0)%N in
                  (negb deallocated || negb (pending_last_strong before))
                  && bool_decide (bool_result = Some deallocated)
                  && bool_decide (after = mkControlState strong remaining (pending_last_strong before)
                                            (payload_initialized before) (negb deallocated))
              end
          | StAbiViolation => unchanged
          | _ => false
          end
      | _ => false
      end
  end.

(** ** Vectors *)

Definition vec_capacity_fits (capacity stride : N) : bool :=
  (0 <? stride)%N && (capacity <=? MAX_VEC_ELEMENTS)%N &&
  match checked_mul u64_max capacity stride with
  | Some bytes => (bytes <=? MAX_DYNAMIC_ALLOCATION_BYTES)%N
  | None => false
  end.

(** The doubling loop; [None] is an overflow of [candidate], and the fuel of
    the caller is never used up. *)
Fixpoint reserve_loop (fuel : nat) (candidate required stride : N) : option N :=
  match fuel with
  | O => None
  | S fuel =>
      if (candidate <? required)%N then
        if negb (vec_capacity_fits candidate stride) then Some required
        else candidate ← checked_mul u64_max candidate 2;
             reserve_loop fuel candidate required stride
      else Some (if vec_capacity_fits candidate stride then candidate else required)
  end.

Definition reserve_capacity (old required stride : N) : option N :=
  if negb (vec_capacity_fits old stride) || negb (vec_capacity_fits required stride) then None
  else if (required <=? old)%N then Some old
  else
    candidate ← (if (old =? 0)%N then Some 4%N else checked_mul u64_max old 2);
    reserve_loop 64 candidate required stride.

Definition validate_vec_allocate (requested : N) (status : RuntimeStatus)
    (pointer length capacity stride : N) : bool :=
  let request_fits := vec_capacity_fits requested stride in
  let zero := (pointer =? 0)%N && (length =? 0)%N && (capacity =? 0)%N in
  match status with
  | StOk => if (requested =? 0)%N then zero
            else request_fits && negb (pointer =? 0)%N && (length =? 0)%N && (capacity =? requested)%N
  | StCapacity => negb request_fits && zero
  | StAllocation => (0 <? requested)%N && request_fits && zero
  | StAbiViolation => zero
  | _ => false
  end.

Definition validate_vec_reserve (old_length old_capacity required_length : N) (status : RuntimeStatus)
    (pointer length capacity : N) (input_unchanged : bool) (stride : N) : bool :=
  let old_valid := (old_length <=? old_capacity)%N && vec_capacity_fits old_capacity stride in
  let reserved := if old_valid then reserve_capacity old_capacity required_length stride else None in
  let zero := (pointer =? 0)%N && (length =? 0)%N && (capacity =? 0)%N in
  match status with
  | StOk => old_valid && bool_decide (is_Some reserved) && (length =? old_length)%N
            && bool_decide (Some capacity = reserved)
            && ((capacity =? 0)%N || negb (pointer =? 0)%N)
  | StCapacity => old_valid && negb (bool_decide (is_Some reserved)) && zero && input_unchanged
  | StAllocation => old_valid && (old_capacity <? required_length)%N
                    && bool_decide (is_Some reserved) && zero && input_unchanged
  | StAbiViolation => zero && input_unchanged
  | _ => false
  end.

(** ** Transition claims *)

Inductive TransitionClaim :=
  | TcControl (operation : LogicalOperation) (before : ControlState) (status : RuntimeStatus)
              (bool_result : option bool) (after : ControlState)
  | TcVecAllocate (requested : N) (status : RuntimeStatus) (pointer length capacity : N)
  | TcVecReserve (old_length old_capacity required_length : N) (status : RuntimeStatus)
                 (pointer length capacity : N) (input_unchanged : bool)
  | TcCountIncrement (before : N) (status : RuntimeStatus) (after : N)
  | TcWeakUpgrade (before : N) (status : RuntimeStatus) (after : N)
  | TcStrongReleaseBegin (before : N) (status : RuntimeStatus) (after : N) (is_last : bool)
  | TcWeakRelease (before strong : N) (status : RuntimeStatus) (after : N) (deallocated : bool)
  | TcFailureAtomic (status : RuntimeStatus) (outputs_zero input_unchanged : bool).

Definition validate_transition (claim : TransitionClaim) : result RuntimeAbiViolation unit :=
  transition_result
    match claim with
    | TcControl operation before status bool_result after =>
        validate_control_transition operation before status bool_result after
    | TcVecAllocate _ _ _ _ _ | TcVecReserve _ _ _ _ _ _ _ _ | TcFailureAtomic _ _ _ => false
    | TcCountIncrement before status after =>
        match status with
        | StOk => (0 <? before)%N && (before <? u32_max)%N && (after =? before + 1)%N
        | StRefcount => (before =? u32_max)%N && (after =? before)%N
        | _ => false
        end
    | TcWeakUpgrade before status after =>
        match status with
        | StExpired => (before =? 0)%N && (after =? 0)%N
        | StOk => (0 <? before)%N && (before <? u32_max)%N && (after =? before + 1)%N
        | StRefcount => (before =? u32_max)%N && (after =? before)%N
        | _ => false
        end
    | TcStrongReleaseBegin before status after is_last =>
        bool_decide (status = StOk) && (0 <? before)%N && (after =? before - 1)%N
        && Bool.eqb is_last (before =? 1)%N
    | TcWeakRelease before strong status after deallocated =>
        bool_decide (status = StOk) && (0 <? before)%N && (after =? before - 1)%N
        && Bool.eqb deallocated ((after =? 0)%N && (strong =? 0)%N)
        && negb ((after =? 0)%N && (0 <? strong)%N)
    end.

Definition validate_failure_atomic_transition (operation : LogicalOperation) (status : RuntimeStatus)
    (outputs_zero input_unchanged : bool) : result RuntimeAbiViolation unit :=
  transition_result
    (negb (bool_decide (status = StOk)) && operation_accepts_status operation status
     && outputs_zero && input_unchanged).

(** ** Metadata derived from layouts *)

Record ElementLayoutRecord := mkElementLayoutRecord {
  el_target : StorageTarget; el_element : TypeId; el_stride : N; el_alignment : N }.
Record ControlLayoutRecord := mkControlLayoutRecord {
  cl_target : StorageTarget; cl_payload : TypeId; cl_payload_offset : N; cl_size : N; cl_alignment : N }.

Definition validate_vec_transition (layout : ElementLayoutRecord) (claim : TransitionClaim)
    : result RuntimeAbiViolation unit :=
  let stride := el_stride layout in
  transition_result
    match claim with
    | TcVecAllocate requested status pointer length capacity =>
        validate_vec_allocate requested status pointer length capacity stride
    | TcVecReserve old_length old_capacity required_length status pointer length capacity unchanged =>
        validate_vec_reserve old_length old_capacity required_length status pointer length capacity
          unchanged stride
    | _ => false
    end.

(** [align_up]: [(value + (alignment - 1)) & !(alignment - 1)] *)
Definition align_up (value alignment : N) : option N :=
  mask ← checked_sub alignment 1;
  sum ← checked_add u64_max value mask;
  Some (N.ldiff sum mask).

(** The state of the [derive_metadata] loop *)
Record Metadata := mkMetadata {
  md_elements : list ElementLayoutRecord;
  md_controls : list ControlLayoutRecord;
  md_seen_elements : gset N;
  md_seen_payloads : gset N }.

Definition derive_vec (layouts : VerifiedLayouts) (ty : LayoutRecord) (m : Metadata)
    : result string Metadata :=
  element ← ok_or (referenced_type ty) "Vec lacks element layout";
  if bool_decide (ti_index element ∈ md_seen_elements m) then Ok m
  else
    record ← ok_or (type_by_id layouts element) "Vec element is outside layout universe";
    if (lr_size record =? 0)%N then Err "Vec element layout is zero-sized"
    else
      stride ← ok_or (align_up (lr_size record) (lr_alignment record)) "Vec element stride overflows";
      Ok (mkMetadata
            (md_elements m ++
               [mkElementLayoutRecord (vl_target layouts) element stride (lr_alignment record)])
            (md_controls m) ({[ti_index element]} ∪ md_seen_elements m) (md_seen_payloads m)).

Definition derive_control (layouts : VerifiedLayouts) (ty : LayoutRecord) (m : Metadata)
    : result string Metadata :=
  payload ← ok_or (referenced_type ty) "shared handle lacks payload";
  if bool_decide (ti_index payload ∈ md_seen_payloads m) then Ok m
  else
    record ← ok_or (type_by_id layouts payload) "shared payload is outside layout universe";
    let alignment := N.max (lr_alignment record) 4 in
    payload_offset ← ok_or (align_up 8 (lr_alignment record)) "control payload offset overflows";
    unaligned_size ← ok_or (checked_add u64_max payload_offset (lr_size record))
      "control size overflows";
    size ← ok_or (align_up unaligned_size alignment) "control size alignment overflows";
    Ok (mkMetadata (md_elements m)
          (md_controls m ++
             [mkControlLayoutRecord (vl_target layouts) payload payload_offset size alignment])
          (md_seen_elements m) ({[ti_index payload]} ∪ md_seen_payloads m)).

Fixpoint derive_types (layouts : VerifiedLayouts) (types : list LayoutRecord) (m : Metadata)
    : result string Metadata :=
  match types with
  | [] => Ok m
  | ty :: types =>
      m ← match category ty with
          | CatVec => derive_vec layouts ty m
          | CatShared | CatWeak => derive_control layouts ty m
          | _ => Ok m
          end;
      derive_types layouts types m
  end.

(** [derive_metadata]: both targets in order, with fresh sets for each *)
Definition derive_metadata (linear32 linux : VerifiedLayouts)
    : result string (list ElementLayoutRecord * list ControlLayoutRecord) :=
  m ← derive_types linear32 (vl_records linear32) (mkMetadata [] [] ∅ ∅);
  m ← derive_types linux (vl_records linux) (mkMetadata (md_elements m) (md_controls m) ∅ ∅);
  Ok (md_elements m, md_controls m).
