(* ===== verification/ControlModel.v ===== *)
(** * Symbolic control traces ([control_model.rs], [control_model/])

    The replay of a trace of Shared/Weak operations against sealed layouts.
    A control or owner identity is an index into a vector.  A panic of the Rust
    code, and a loop that would outlive the fuel of its model, is [Abnormal]:
    the theorems show that it does not happen. *)
From stdpp Require Import base numbers list list_numbers strings gmap.
From S2P Require Import Prelude Source LayoutData RuntimeAbi.

Inductive Fault := Rejected (v : RuntimeAbiViolation) | Abnormal.

Definition violation (message : string) : Fault :=
  Rejected (mkRuntimeAbiViolation RvEvidence None message).
Definition budget : Fault :=
  Rejected (mkRuntimeAbiViolation RvBudget None "control trace exceeds the checked invocation budget").

(** [checked_model_count] *)
Definition checked_model_count (before extra maximum : N) : result Fault N :=
  ok_or (match checked_add u64_max before extra with
         | Some total => if (total <=? maximum)%N then Some total else None
         | None => None
         end) budget.

(** ** Claims *)

Inductive PayloadKind :=
  | PkCopy
  | PkString
  | PkChildren (children : list N)
  | PkVariant (variant : N) (child : option N)
  | PkHandle (owner : N).
Record PayloadNode := mkPayloadNode { pn_ty : TypeId; pn_kind : PayloadKind }.

Inductive ControlEventKind :=
  | Construct (payload : TypeId) (nodes : list PayloadNode) (status : RuntimeStatus)
              (base size alignment : N) (control owner : option N)
  | Handle (operation : LogicalOperation) (owner : N) (status : RuntimeStatus) (issued : option N)
           (boolean : option bool) (after : ControlState)
  | DropPayloadNode (control node : N)
  | Finish (control : N) (after : ControlState).
Record ControlEvent := mkControlEvent { ev_site : N; ev_kind : ControlEventKind }.

Record ControlTrace := mkControlTrace {
  ctr_invocation : N; ctr_abi : list N; ctr_target : StorageTarget; ctr_events : list ControlEvent }.

Record ExpectedOwner := mkExpectedOwner { eo_owner : N; eo_control : N; eo_weak : bool }.
#[export] Instance ExpectedOwner_eq_dec : EqDecision ExpectedOwner.
Proof. solve_decision. Defined.

Record VerifiedControlTrace := mkVerifiedControlTrace {
  vct_invocation : N; vct_states : list ControlState; vct_live_owners : nat }.

(** The fields of [VerifiedOwnershipRuntimeAbi] that a replay reads *)
Record RuntimeAuthority := mkRuntimeAuthority {
  ra_identity : list N;
  ra_universe : TypeUniverseIdentity;
  ra_linear32_fingerprint : list N;
  ra_linux_fingerprint : list N;
  ra_control_layouts : list ControlLayoutRecord }.

(** ** State *)

Inductive Location := External | Payload (control : N) | Dropped.
#[export] Instance Location_eq_dec : EqDecision Location.
Proof. solve_decision. Defined.

Record Owner := mkOwner { ow_control : N; ow_weak : bool; ow_location : Location }.

Inductive Drop := DropHandle (owner : N) | DropNode (node : N).
#[export] Instance Drop_eq_dec : EqDecision Drop.
Proof. solve_decision. Defined.

Record Control := mkControl {
  ct_payload : TypeId; ct_state : ControlState; ct_base : N; ct_drops : list Drop; ct_next : nat }.

(** The vector [pending] is a stack: its last element is the head here. *)
Record Model := mkModel {
  mo_controls : list Control;
  mo_owners : list Owner;
  mo_intervals : gmap N N;
  mo_pending : list N;
  mo_allocations : N;
  mo_nodes : N }.

Definition set_controls (m : Model) (c : list Control) : Model :=
  mkModel c (mo_owners m) (mo_intervals m) (mo_pending m) (mo_allocations m) (mo_nodes m).
Definition set_owners (m : Model) (o : list Owner) : Model :=
  mkModel (mo_controls m) o (mo_intervals m) (mo_pending m) (mo_allocations m) (mo_nodes m).
Definition set_intervals (m : Model) (i : gmap N N) : Model :=
  mkModel (mo_controls m) (mo_owners m) i (mo_pending m) (mo_allocations m) (mo_nodes m).
Definition set_pending (m : Model) (p : list N) : Model :=
  mkModel (mo_controls m) (mo_owners m) (mo_intervals m) p (mo_allocations m) (mo_nodes m).

Definition with_location (o : Owner) (l : Location) : Owner := mkOwner (ow_control o) (ow_weak o) l.
Definition with_state (c : Control) (s : ControlState) : Control :=
  mkControl (ct_payload c) s (ct_base c) (ct_drops c) (ct_next c).

(** [self.owners[id].location = l] *)
Definition relocate (id : N) (l : Location) (owners : list Owner) : list Owner :=
  alter (fun o => with_location o l) (N.to_nat id) owners.
(** [self.controls[id].state = s] *)
Definition restate (id : N) (s : ControlState) (controls : list Control) : list Control :=
  alter (fun c => with_state c s) (N.to_nat id) controls.

(** ** Payloads ([payload.rs]) *)

Section payload.
Variable layouts : VerifiedLayouts.

(** The closure [edge]: a child of the expected type that precedes its parent
    and has no parent yet *)
Definition payload_edge (nodes : list PayloadNode) (index : nat) (uses : list bool) (child : N)
    (expected : TypeId) : result Fault (list bool) :=
  let bad := violation "payload children have wrong type, order or unique ownership" in
  if (N.of_nat index <=? child)%N then Err bad
  else match nodes !! N.to_nat child with
       | None => Err Abnormal
       | Some node =>
           if negb (bool_decide (pn_ty node = expected)) then Err bad
           else match uses !! N.to_nat child with
                | None => Err Abnormal
                | Some used => if (used : bool) then Err bad else Ok (<[N.to_nat child := true]> uses)
                end
       end.

(** The edges of a list of children with their types *)
Fixpoint edges (nodes : list PayloadNode) (index : nat) (uses : list bool)
    (l : list (N * TypeId)) : result Fault (list bool) :=
  match l with
  | [] => Ok uses
  | (child, expected) :: l =>
      uses ← payload_edge nodes index uses child expected;
      edges nodes index uses l
  end.

(** The length of an array or vector payload *)
Definition check_length (record : LayoutRecord) (count : N) : result Fault unit :=
  match array_length record with
  | Some length =>
      if negb (count =? length)%N then Err (violation "payload array length is not exact") else Ok tt
  | None =>
      ty ← ok_or (referenced_type record) (violation "element type absent");
      element ← ok_or (type_by_id layouts ty) (violation "element layout absent");
      if (MAX_VEC_ELEMENTS <? count)%N || (lr_size element =? 0)%N
         || match checked_mul u64_max count (lr_size element) with
            | Some bytes => (MAX_DYNAMIC_ALLOCATION_BYTES <? bytes)%N
            | None => true
            end
      then Err (violation "payload Vec length or element stride is invalid")
      else Ok tt
  end.

(** [payload_handle] *)
Definition payload_handle (m : Model) (id : N) (category : TypeCategory) (referent : option TypeId)
    (handles : gset N) : result Fault (gset N) :=
  owner ← ok_or (get (mo_owners m) id) (violation "payload handle was never issued");
  match get (mo_controls m) (ow_control owner) with
  | None => Err Abnormal
  | Some control =>
      if negb (bool_decide (ow_location owner = External))
         || bool_decide (id ∈ handles)
         || negb (Bool.eqb (ow_weak owner) (bool_decide (category = CatWeak)))
         || negb (bool_decide (referent = Some (ct_payload control)))
      then Err (violation "payload handle is foreign, moved, duplicated or has wrong referent")
      else Ok ({[id]} ∪ handles)
  end.

(** One iteration of the node loop *)
Definition check_node (m : Model) (nodes : list PayloadNode) (index : nat) (node : PayloadNode)
    (uses : list bool) (handles : gset N) : result Fault (list bool * gset N) :=
  record ← ok_or (type_by_id layouts (pn_ty node)) (violation "payload node has a foreign layout type");
  match pn_kind node, category record with
  | PkCopy, (CatBool | CatI32) => Ok (uses, handles)
  | PkString, CatString => Ok (uses, handles)
  | PkChildren children, CatStruct =>
      if negb (len children =? len (view_fields record))%N then
        Err (violation "payload Struct fields are incomplete")
      else
        uses ← edges nodes index uses (zip children (vf_ty <$> view_fields record));
        Ok (uses, handles)
  | PkChildren children, (CatFixedArray | CatVec) =>
      _ ← check_length record (len children);
      element ← ok_or (referenced_type record) (violation "element type absent");
      uses ← edges nodes index uses ((fun c => (c, element)) <$> children);
      Ok (uses, handles)
  | PkVariant variant child, CatEnum =>
      variant ← ok_or (get (view_variants record) variant) (violation "payload Enum variant is absent");
      match child, vv_payload variant with
      | Some child, Some ty =>
          uses ← payload_edge nodes index uses child ty;
          Ok (uses, handles)
      | None, None => Ok (uses, handles)
      | _, _ => Err (violation "payload Enum active shape is not exact")
      end
  | PkHandle id, (CatShared | CatWeak) =>
      handles ← payload_handle m id (category record) (referenced_type record) handles;
      Ok (uses, handles)
  | _, _ => Err (violation "payload node does not match its sealed category")
  end.

Fixpoint check_nodes (m : Model) (nodes : list PayloadNode) (index : nat) (rest : list PayloadNode)
    (uses : list bool) (handles : gset N) : result Fault (list bool * gset N) :=
  match rest with
  | [] => Ok (uses, handles)
  | node :: rest =>
      '(uses, handles) ← check_node m nodes index node uses handles;
      check_nodes m nodes (S index) rest uses handles
  end.

(** The stack loop of [payload_drops]: an item is a node and whether only its
    vector storage is left.  [None] is a panic of an index, of an [expect], or
    an exhausted fuel. *)
Fixpoint drops_loop (fuel : nat) (nodes : list PayloadNode) (stack : list (nat * bool))
    (drops : list Drop) : option (list Drop) :=
  match fuel with
  | O => None
  | S fuel =>
      match stack with
      | [] => Some drops
      | (index, storage) :: stack =>
          node ← nodes !! index;
          record ← type_by_id layouts (pn_ty node);
          match pn_kind node with
          | PkCopy => drops_loop fuel nodes stack drops
          | PkString =>
              raw ← try_u32 (N.of_nat index);
              drops_loop fuel nodes stack (drops ++ [DropNode raw])
          | PkHandle owner => drops_loop fuel nodes stack (drops ++ [DropHandle owner])
          | PkChildren children =>
              if storage : bool then
                raw ← try_u32 (N.of_nat index);
                drops_loop fuel nodes stack (drops ++ [DropNode raw])
              else
                drops_loop fuel nodes
                  (rev ((fun c => (N.to_nat c, false)) <$> children) ++
                   (if bool_decide (category record = CatVec) then [(index, true)] else []) ++ stack)
                  drops
          | PkVariant _ child =>
              match child with
              | Some child => drops_loop fuel nodes ((N.to_nat child, false) :: stack) drops
              | None => drops_loop fuel nodes stack drops
              end
          end
      end
  end.

Definition payload_drops (nodes : list PayloadNode) : option (list Drop) :=
  drops_loop (2 * length nodes + 1) nodes [(length nodes - 1, false)] [].

(** [Model::payload]: the model with its node count, and the drops *)
Definition payload (m : Model) (ty : TypeId) (nodes : list PayloadNode)
    : result Fault (Model * list Drop) :=
  count ← checked_model_count (mo_nodes m) (len nodes) MAX_STATUS_TRANSITIONS;
  let m := mkModel (mo_controls m) (mo_owners m) (mo_intervals m) (mo_pending m)
             (mo_allocations m) count in
  if Nat.eqb (length nodes) 0 then Err budget
  else if negb (bool_decide (pn_ty <$> last nodes = Some ty)) then
    Err (violation "payload root has the wrong exact type")
  else
    '(uses, _) ← check_nodes m nodes 0 nodes (replicate (length nodes) false) ∅;
    if existsb negb (take (length nodes - 1) uses) then
      Err (violation "payload contains orphan initialized nodes")
    else match payload_drops nodes with
         | Some drops => Ok (m, drops)
         | None => Err Abnormal
         end.

(** ** Replay ([replay.rs]) *)

Variable abi : RuntimeAuthority.

Definition next_owner (m : Model) : result Fault N := ok_or (try_u32 (len (mo_owners m))) budget.

(** [intervals.range(..=base).next_back()] and [intervals.range(base..).next()] *)
Definition entry_below (i : gmap N N) (base : N) : option (N * N) :=
  foldr (fun e best =>
    if (e.1 <=? base)%N then
      match best with
      | Some b => if (b.1 <? e.1)%N then Some e else Some b
      | None => Some e
      end
    else best) None (map_to_list i).
Definition entry_above (i : gmap N N) (base : N) : option (N * N) :=
  foldr (fun e best =>
    if (base <=? e.1)%N then
      match best with
      | Some b => if (e.1 <? b.1)%N then Some e else Some b
      | None => Some e
      end
    else best) None (map_to_list i).

Definition interval_rejected (m : Model) (base size alignment end_ : N) : bool :=
  (base =? 0)%N || (size =? 0)%N || (alignment =? 0)%N || negb (base mod alignment =? 0)%N
  || (bool_decide (vl_target layouts = Linear32V1) && (2 ^ 32 <? end_)%N)
  || match entry_below (mo_intervals m) base with Some (_, e) => (base <? e)%N | None => false end
  || match entry_above (mo_intervals m) base with Some (s, _) => (s <? end_)%N | None => false end.

(** [for drop in &drops { if let Drop::Handle(owner) = drop { ... } }]; the
    index of [self.owners] may panic *)
Fixpoint move_handles (id : N) (drops : list Drop) (owners : list Owner) : result Fault (list Owner) :=
  match drops with
  | [] => Ok owners
  | DropHandle owner :: drops =>
      if (owner <? len owners)%N then move_handles id drops (relocate owner (Payload id) owners)
      else Err Abnormal
  | DropNode _ :: drops => move_handles id drops owners
  end.

Definition fresh_state : ControlState := mkControlState 1 1 false true true.

(** Publication after the interval check *)
Definition publish (m : Model) (ty : TypeId) (base end_ : N) (drops : list Drop)
    (control owner : option N) : result Fault Model :=
  id ← ok_or (try_u32 (len (mo_controls m))) budget;
  let stale := violation "construction control or owner identity is not fresh and dense" in
  if negb (bool_decide (control = Some id)) then Err stale
  else
    next ← next_owner m;
    if negb (bool_decide (owner = Some next)) then Err stale
    else
      owners ← move_handles id drops (mo_owners m);
      Ok (mkModel (mo_controls m ++ [mkControl ty fresh_state base drops 0])
            (owners ++ [mkOwner id false External])
            (<[base := end_]> (mo_intervals m)) (mo_pending m) (mo_allocations m) (mo_nodes m)).

Definition construct (m : Model) (ty : TypeId) (nodes : list PayloadNode) (status : RuntimeStatus)
    (base size alignment : N) (control owner : option N) : result Fault Model :=
  if negb (Nat.eqb (length (mo_pending m)) 0) then
    Err (violation "payload destruction cannot allocate or publish")
  else
    layout ← ok_or (find (fun l => bool_decide (cl_payload l = ty)
                                   && bool_decide (cl_target l = vl_target layouts))
                      (ra_control_layouts abi))
      (violation "construction has no exact sealed control layout");
    if negb (size =? cl_size layout)%N || negb (alignment =? cl_alignment layout)%N then
      Err (violation "construction size or alignment differs from sealed control layout")
    else
      '(m, drops) ← payload m ty nodes;
      allocations ← ok_or (checked_add u64_max (mo_allocations m) 1) budget;
      let m := mkModel (mo_controls m) (mo_owners m) (mo_intervals m) (mo_pending m)
                 allocations (mo_nodes m) in
      let capacity := (MAX_DYNAMIC_ALLOCATION_BYTES <? size)%N
                      || (MAX_ALLOCATION_OPERATIONS <? allocations)%N
                      || (MAX_LIVE_ALLOCATIONS <=? N.of_nat (stdpp.base.size (mo_intervals m)))%N in
      if negb (bool_decide (status = StOk)) then
        if negb (base =? 0)%N || bool_decide (is_Some control) || bool_decide (is_Some owner)
           || ((negb (bool_decide (status = StCapacity)) || negb capacity)
               && (negb (bool_decide (status = StAllocation)) || capacity))
        then Err (violation "construction failure has wrong status or nonzero publication")
        else Ok m
      else if capacity then Err budget
      else
        end_ ← ok_or (checked_add u64_max base size)
          (violation "control allocation interval overflow");
        if interval_rejected m base size alignment end_ then
          Err (violation "control allocation is null, misaligned, overlapping or nonrepresentable")
        else publish m ty base end_ drops control owner.

Definition next_drop (m : Model) (id : N) (expected : Drop) : result Fault Model :=
  if negb (bool_decide (head (mo_pending m) = Some id)) then
    Err (violation "cleanup targets a foreign or nonpending control")
  else match get (mo_controls m) id with
       | None => Err Abnormal
       | Some control =>
           if negb (bool_decide (ct_drops control !! ct_next control = Some expected)) then
             Err (violation "payload cleanup is omitted, duplicated or out of reverse order")
           else Ok (set_controls m (<[N.to_nat id :=
                      mkControl (ct_payload control) (ct_state control) (ct_base control)
                        (ct_drops control) (S (ct_next control))]> (mo_controls m)))
       end.

Definition is_release (operation : LogicalOperation) : bool :=
  match operation with StrongReleaseBegin | WeakRelease => true | _ => false end.
Definition is_weak_operation (operation : LogicalOperation) : bool :=
  match operation with WeakClone | WeakUpgrade | WeakRelease => true | _ => false end.
Definition is_handle_operation (operation : LogicalOperation) : bool :=
  match operation with
  | StrongClone | WeakDowngrade | WeakClone | WeakUpgrade | StrongReleaseBegin | WeakRelease => true
  | _ => false
  end.
Definition issues_weak (operation : LogicalOperation) : bool :=
  match operation with WeakClone | WeakDowngrade => true | _ => false end.

(** Whether the owner may be used now: a payload's own handle while that payload
    is destroyed, an external one otherwise *)
Definition check_available (m : Model) (operation : LogicalOperation) (owner : Owner)
    : result Fault unit :=
  if bool_decide (ow_location owner = Dropped) then
    Err (violation "handle owner is moved or already released")
  else match mo_pending m with
  | pending :: _ =>
      if negb (is_release operation) || negb (bool_decide (ow_location owner = Payload pending)) then
        Err (violation "payload cleanup cannot invoke unrelated or retained handle operations")
      else Ok tt
  | [] =>
      if negb (bool_decide (ow_location owner = External)) then
        Err (violation "payload-owned handle is not an independently available owner")
      else Ok tt
  end.

Definition check_validated (r : result RuntimeAbiViolation unit) : result Fault unit :=
  match r with Ok _ => Ok tt | Err v => Err (Rejected v) end.

(** The state changes of [handle] after its checks *)
Definition apply_handle (m : Model) (operation : LogicalOperation) (owner : Owner) (base : N)
    (issues : bool) (after : ControlState) : Model :=
  let m := set_controls m (restate (ow_control owner) after (mo_controls m)) in
  let m := if issues then
             set_owners m (mo_owners m ++ [mkOwner (ow_control owner) (issues_weak operation) External])
           else m in
  let m := if pending_last_strong after then set_pending m (ow_control owner :: mo_pending m) else m in
  if negb (allocated after) then set_intervals m (delete base (mo_intervals m)) else m.

Definition handle (m : Model) (operation : LogicalOperation) (id : N) (status : RuntimeStatus)
    (issued : option N) (boolean : option bool) (after : ControlState) : result Fault Model :=
  owner ← ok_or (get (mo_owners m) id) (violation "handle was never issued");
  _ ← check_available m operation owner;
  if negb (Bool.eqb (is_weak_operation operation) (ow_weak owner))
     || negb (is_handle_operation operation) then
    Err (violation "handle mode does not match the exact operation")
  else match get (mo_controls m) (ow_control owner) with
  | None => Err Abnormal
  | Some control =>
      let before := ct_state control in
      if pending_last_strong before || negb (allocated before) || bool_decide (status = StAbiViolation)
      then Err (violation "operation reenters a pending or deallocated control")
      else
        _ ← check_validated (validate_transition (TcControl operation before status boolean after));
        let issues := negb (is_release operation) && bool_decide (status = StOk) in
        expected ← (if issues then n ← next_owner m; Ok (Some n) else Ok None);
        if negb (bool_decide (issued = expected)) then
          Err (violation "only successful clone or upgrade may issue one fresh owner")
        else if is_release operation then
          if negb (bool_decide (status = StOk)) then Err (violation "verified release is infallible")
          else
            m ← match ow_location owner with
                | Payload pending => next_drop m pending (DropHandle id)
                | _ => Ok m
                end;
            let m := set_owners m (relocate id Dropped (mo_owners m)) in
            Ok (apply_handle m operation owner (ct_base control) issues after)
        else Ok (apply_handle m operation owner (ct_base control) issues after)
  end.

Definition finish (m : Model) (id : N) (after : ControlState) : result Fault Model :=
  if negb (bool_decide (head (mo_pending m) = Some id)) then
    Err (violation "last-release receipt is foreign or replayed")
  else match get (mo_controls m) id with
  | None => Err Abnormal
  | Some control =>
      if negb (Nat.eqb (ct_next control) (length (ct_drops control))) then
        Err (violation "last-release finish precedes complete payload destruction")
      else
        let s := ct_state control in
        let before := mkControlState (strong_count s) (weak_count s) (pending_last_strong s) false
                        (allocated s) in
        _ ← check_validated
              (validate_transition (TcControl StrongReleaseFinish before StOk None after));
        let m := set_pending (set_controls m (restate id after (mo_controls m))) (tail (mo_pending m)) in
        Ok (if negb (allocated after) then set_intervals m (delete (ct_base control) (mo_intervals m))
            else m)
  end.

(** [Model::replay] *)
Definition replay (m : Model) (event : ControlEventKind) : result Fault Model :=
  match event with
  | Construct ty nodes status base size alignment control owner =>
      construct m ty nodes status base size alignment control owner
  | Handle operation owner status issued boolean after => handle m operation owner status issued boolean after
  | DropPayloadNode control node => next_drop m control (DropNode node)
  | Finish control after => finish m control after
  end.

(** ** [verify_control_trace] *)

Fixpoint replay_events (m : Model) (index : N) (events : list ControlEvent) : result Fault Model :=
  match events with
  | [] => Ok m
  | event :: events =>
      if negb (ev_site event =? index)%N then
        Err (violation "control transition site is not dense or was replayed")
      else
        m ← replay m (ev_kind event);
        replay_events m (index + 1) events
  end.

Definition empty_model : Model := mkModel [] [] ∅ [] 0 0.

(** The external owners with their identities, in increasing order *)
Fixpoint surviving (id : N) (owners : list Owner) : result Fault (list ExpectedOwner) :=
  match owners with
  | [] => Ok []
  | owner :: owners =>
      if bool_decide (ow_location owner = External) then
        raw ← ok_or (try_u32 id) budget;
        rest ← surviving (id + 1) owners;
        Ok (mkExpectedOwner raw (ow_control owner) (ow_weak owner) :: rest)
      else surviving (id + 1) owners
  end.

Definition foreign_authority (invocation : N) (trace : ControlTrace) : bool :=
  negb (ctr_invocation trace =? invocation)%N
  || negb (bool_decide (ctr_abi trace = ra_identity abi))
  || negb (bool_decide (ctr_target trace = vl_target layouts))
  || negb (bool_decide (vl_universe layouts = ra_universe abi))
  || negb (bool_decide (vl_fingerprint layouts =
             match ctr_target trace with
             | Linear32V1 => ra_linear32_fingerprint abi
             | LinuxX8664V1 => ra_linux_fingerprint abi
             end)).

Definition verify_control_trace (expected_invocation : N) (expected_owners : list ExpectedOwner)
    (trace : ControlTrace) : result Fault VerifiedControlTrace :=
  if foreign_authority expected_invocation trace then
    Err (violation "control trace has foreign ABI, layout, target or invocation authority")
  else
    _ ← checked_model_count 0 (len (ctr_events trace)) MAX_STATUS_TRANSITIONS;
    m ← replay_events empty_model 0 (ctr_events trace);
    if negb (Nat.eqb (length (mo_pending m)) 0) then
      Err (violation "last-strong payload cleanup is incomplete")
    else
      owners ← surviving 0 (mo_owners m);
      if negb (bool_decide (owners = expected_owners)) then
        Err (violation "surviving external owners differ from the independent exit contract")
      else
        Ok (mkVerifiedControlTrace expected_invocation (ct_state <$> mo_controls m)
              (length (filter (fun o => ow_location o <> Dropped) (mo_owners m)))).
End payload.
