(* ===== verification/PayloadSound.v ===== *)
(** * Payload topologies

    What [Model::payload] accepts is a tree: every node but the root has one
    parent and precedes it.  The destruction order derived from it exists,
    visits no node twice and lists distinct external owners. *)
From stdpp Require Import base numbers list list_numbers strings gmap.
From S2P Require Import Prelude Source LayoutData RuntimeAbi ControlModel.

(** ** Trees *)

Definition children_of (node : PayloadNode) : list nat :=
  match pn_kind node with
  | PkChildren children => N.to_nat <$> children
  | PkVariant _ (Some child) => [N.to_nat child]
  | _ => []
  end.
Definition handles_of (node : PayloadNode) : list N :=
  match pn_kind node with PkHandle owner => [owner] | _ => [] end.

(** Owners a drop list releases *)
Definition drop_handle (d : Drop) : list N := match d with DropHandle o => [o] | DropNode _ => [] end.
Definition drop_handles (l : list Drop) : list N := l ≫= drop_handle.

Definition external (m : Model) (o : N) : Prop :=
  exists owner, get (mo_owners m) o = Some owner /\ ow_location owner = External.

(** What the node loop has established after the nodes [pre] *)
Record checked (layouts : VerifiedLayouts) (m : Model) (pre : list PayloadNode) (n : nat)
    (uses : list bool) (handles : gset N) : Prop := {
  ck_length : length uses = n;
  ck_uses : forall c, uses !! c = Some true <-> c ∈ (pre ≫= children_of);
  ck_unique : NoDup (pre ≫= children_of);
  ck_order : forall i node c, pre !! i = Some node -> c ∈ children_of node -> c < i;
  ck_types : Forall (fun node => is_Some (type_by_id layouts (pn_ty node))) pre;
  ck_handles : forall o, o ∈ handles <-> o ∈ (pre ≫= handles_of);
  ck_handles_unique : NoDup (pre ≫= handles_of);
  ck_external : Forall (external m) (pre ≫= handles_of) }.

(** ** The node loop *)

Section loop.
Context (layouts : VerifiedLayouts) (m : Model).
Context (owners_bound : forall o, o ∈ mo_owners m -> (ow_control o < len (mo_controls m))%N).
Notation normal r := (r <> Err Abnormal).

(** One edge marks a fresh child. *)
Lemma edge_spec nodes index uses child expected :
  index < length nodes -> length uses = length nodes ->
  normal (payload_edge nodes index uses child expected) /\
  forall uses', payload_edge nodes index uses child expected = Ok uses' ->
    uses' = <[N.to_nat child := true]> uses /\ uses !! N.to_nat child = Some false /\
    N.to_nat child < index.
Proof.
  intros Hi Hl. unfold payload_edge. destruct (N.leb_spec (N.of_nat index) child) as [Hle|Hlt]; [done|].
  assert (N.to_nat child < length nodes) as Hc by lia.
  destruct (lookup_lt_is_Some_2 nodes (N.to_nat child) Hc) as [node ->].
  case_bool_decide; [|done]. cbn [negb].
  destruct (lookup_lt_is_Some_2 uses (N.to_nat child)) as [used E]; [lia|].
  rewrite E. destruct used; [done|]. split; [done|]. intros uses' [= <-]. split_and!; [done..|lia].
Qed.

Lemma edges_spec nodes index l uses :
  index < length nodes -> length uses = length nodes ->
  normal (edges nodes index uses l) /\
  forall uses', edges nodes index uses l = Ok uses' ->
    length uses' = length uses /\ NoDup (N.to_nat <$> l.*1) /\
    (forall c, c ∈ (N.to_nat <$> l.*1) -> uses !! c = Some false /\ c < index) /\
    (forall c, uses' !! c = Some true <-> uses !! c = Some true \/ c ∈ (N.to_nat <$> l.*1)).
Proof.
  intros Hi. revert uses. induction l as [|[child expected] l IH]; intros uses Hl; cbn [edges].
  { split; [done|]. intros uses' [= <-]. split_and!; [done|constructor|by intros ? ?%not_elem_of_nil|].
    intros c. cbn. rewrite elem_of_nil. naive_solver. }
  destruct (edge_spec nodes index uses child expected Hi Hl) as [Hn He].
  destruct (payload_edge nodes index uses child expected) as [uses1|f]; [|split; [destruct f; done|done]].
  destruct (He uses1 eq_refl) as (-> & Hf & Hlt). cbn.
  destruct (IH (<[N.to_nat child := true]> uses)) as [Hn1 H1]; [by rewrite length_insert|].
  split; [done|]. intros uses' E. destruct (H1 uses' E) as (Hl1 & Hnd & Hfree & Htrue).
  assert (N.to_nat child < length uses) as Hcl by (by eapply lookup_lt_Some).
  assert (N.to_nat child ∉ N.to_nat <$> l.*1) as Hnin.
  { intros [Hx _]%Hfree. by rewrite list_lookup_insert_eq in Hx. }
  split_and!.
  - by rewrite Hl1, length_insert.
  - by constructor.
  - intros c [->|Hc]%elem_of_cons; [done|]. destruct (Hfree c Hc) as [Hx ?]. split; [|done].
    rewrite list_lookup_insert_ne in Hx; [done|]. intros E1. by subst c.
  - intros c. rewrite Htrue, elem_of_cons. destruct (decide (c = N.to_nat child)) as [->|Hne].
    + rewrite list_lookup_insert_eq by done. naive_solver.
    + rewrite list_lookup_insert_ne by done. naive_solver.
Qed.

Lemma payload_handle_spec id cat referent handles :
  normal (payload_handle m id cat referent handles) /\
  forall handles', payload_handle m id cat referent handles = Ok handles' ->
    handles' = {[id]} ∪ handles /\ (id ∉ handles) /\ external m id.
Proof.
  unfold payload_handle. destruct (get (mo_owners m) id) as [owner|] eqn:Eo; [|done]. cbn.
  assert (ow_control owner < len (mo_controls m))%N as Hlt.
  { apply owners_bound. unfold get in Eo. by eapply list_elem_of_lookup_2. }
  destruct (get_lt _ _ Hlt) as [control ->].
  destruct (decide (ow_location owner = External)) as [El|El];
    [rewrite bool_decide_eq_true_2 by done|rewrite bool_decide_eq_false_2 by done; done].
  destruct (decide (id ∈ handles));
    [rewrite bool_decide_eq_true_2 by done; done|rewrite (bool_decide_eq_false_2 (id ∈ handles)) by done].
  destruct (Bool.eqb _ _); [|done]. destruct (bool_decide (referent = _)); [|done]. cbn.
  split; [done|]. intros handles' [= <-]. split_and!; [done..|]. by exists owner.
Qed.

(** The effect of one node on the invariant *)
Lemma checked_snoc pre node n uses uses' handles handles' :
  checked layouts m pre n uses handles -> is_Some (type_by_id layouts (pn_ty node)) ->
  length uses' = n -> NoDup (children_of node) ->
  (forall c, c ∈ children_of node -> uses !! c = Some false /\ c < length pre) ->
  (forall c, uses' !! c = Some true <-> uses !! c = Some true \/ c ∈ children_of node) ->
  (forall o, o ∈ handles' <-> o ∈ handles \/ o ∈ handles_of node) ->
  NoDup (handles_of node) -> (forall o, o ∈ handles_of node -> (o ∉ handles) /\ external m o) ->
  checked layouts m (pre ++ [node]) n uses' handles'.
Proof.
  intros [Hl Hu Hnd Ho Ht Hh Hhn He] Hty Hl' Hcn Hfree Hu' Hh' Hhn' Hfresh. split.
  - done.
  - intros c. by rewrite Hu', Hu, bind_snoc, elem_of_app.
  - rewrite bind_snoc. apply NoDup_app. split_and!; [done| |done].
    intros c Hc%Hu Hc'. destruct (Hfree c Hc'). congruence.
  - intros i nd c Hi Hc. apply lookup_app_Some in Hi as [Hi|[Hle Hi]]; [by eapply Ho|].
    apply list_lookup_singleton_Some in Hi as [Hz <-]. destruct (Hfree c Hc). lia.
  - apply Forall_app. by split; [|constructor].
  - intros o. by rewrite Hh', Hh, bind_snoc, elem_of_app.
  - rewrite bind_snoc. apply NoDup_app. split_and!; [done| |done].
    intros o Ho1%Hh Ho2. by destruct (Hfresh o Ho2).
  - rewrite bind_snoc. apply Forall_app. split; [done|]. apply Forall_forall. intros o Ho1.
    by apply Hfresh.
Qed.

(** A node that adds neither a child nor a handle, and one that adds children *)
Lemma checked_leaf pre node n uses handles :
  checked layouts m pre n uses handles -> is_Some (type_by_id layouts (pn_ty node)) ->
  children_of node = [] -> handles_of node = [] ->
  checked layouts m (pre ++ [node]) n uses handles.
Proof.
  intros H Ht Hc Hh. eapply checked_snoc; try done; rewrite ?Hc, ?Hh; try constructor.
  1: exact (ck_length _ _ _ _ _ _ H). all: set_solver.
Qed.

Lemma checked_edges pre node nodes uses uses' handles l :
  checked layouts m pre (length nodes) uses handles -> is_Some (type_by_id layouts (pn_ty node)) ->
  length pre < length nodes -> children_of node = N.to_nat <$> l.*1 -> handles_of node = [] ->
  edges nodes (length pre) uses l = Ok uses' ->
  checked layouts m (pre ++ [node]) (length nodes) uses' handles.
Proof.
  intros H Ht Hlt Hc Hh E. pose proof (ck_length _ _ _ _ _ _ H) as Hl.
  destruct (edges_spec nodes (length pre) l uses Hlt Hl) as [_ He].
  destruct (He _ E) as (Hl' & Hnd & Hfree & Htrue).
  eapply checked_snoc; try done; rewrite ?Hc, ?Hh; try done; try constructor.
  1: lia. all: set_solver.
Qed.

Lemma edges_normal nodes index l uses :
  index < length nodes -> length uses = length nodes -> normal (edges nodes index uses l).
Proof. intros. by apply edges_spec. Qed.

Lemma edge_edges nodes index uses child ty : payload_edge nodes index uses child ty = edges nodes index uses [(child, ty)].
Proof. cbn. by destruct (payload_edge nodes index uses child ty). Qed.

(** The result of a node in the invariant *)
Definition good_node (pre : list PayloadNode) (node : PayloadNode) (n : nat)
    (r : result Fault (list bool * gset N)) : Prop :=
  normal r /\ forall uses handles, r = Ok (uses, handles) -> checked layouts m (pre ++ [node]) n uses handles.

Lemma good_err pre node n v : good_node pre node n (Err (Rejected v)).
Proof. by split. Qed.

Lemma good_edges pre node nodes uses handles l :
  checked layouts m pre (length nodes) uses handles -> is_Some (type_by_id layouts (pn_ty node)) ->
  length pre < length nodes -> children_of node = N.to_nat <$> l.*1 -> handles_of node = [] ->
  good_node pre node (length nodes)
    (uses' ← edges nodes (length pre) uses l; Ok (uses', handles)).
Proof.
  intros H Ht Hlt Hc Hh.
  pose proof (edges_normal nodes _ l uses Hlt (ck_length _ _ _ _ _ _ H)) as Hn.
  destruct (edges nodes (length pre) uses l) as [uses'|f] eqn:E; cbn.
  - split; [done|]. intros ? ? [= <- <-]. by eapply checked_edges.
  - by destruct f; split.
Qed.

Lemma good_handle pre node n uses handles id cat referent :
  checked layouts m pre n uses handles -> is_Some (type_by_id layouts (pn_ty node)) ->
  pn_kind node = PkHandle id ->
  good_node pre node n (handles' ← payload_handle m id cat referent handles; Ok (uses, handles')).
Proof.
  intros H Ht Hk. destruct (payload_handle_spec id cat referent handles) as [Hn Hs].
  destruct (payload_handle m id cat referent handles) as [handles'|f] eqn:E; cbn.
  - split; [done|]. intros ? ? [= <- <-]. destruct (Hs _ eq_refl) as (-> & Hid & He).
    assert (children_of node = []) as Hc by (unfold children_of; by rewrite Hk).
    assert (handles_of node = [id]) as Hh by (unfold handles_of; by rewrite Hk).
    pose proof (ck_length _ _ _ _ _ _ H) as Hl. apply (checked_snoc _ _ _ _ _ _ _ H Ht Hl); rewrite ?Hc, ?Hh; clear H.
    + constructor.
    + set_solver.
    + set_solver.
    + intros o. rewrite elem_of_union, elem_of_singleton, list_elem_of_singleton. tauto.
    + apply NoDup_singleton.
    + by intros o ->%list_elem_of_singleton.
  - by destruct f; split.
Qed.

Lemma good_leaf pre node n uses handles :
  checked layouts m pre n uses handles -> is_Some (type_by_id layouts (pn_ty node)) ->
  children_of node = [] -> handles_of node = [] -> good_node pre node n (Ok (uses, handles)).
Proof. intros. split; [done|]. intros ? ? [= <- <-]. by apply checked_leaf. Qed.

(** An array or a vector *)
Lemma good_elements pre node nodes uses handles children record :
  checked layouts m pre (length nodes) uses handles -> is_Some (type_by_id layouts (pn_ty node)) ->
  length pre < length nodes -> pn_kind node = PkChildren children ->
  good_node pre node (length nodes)
    (_ ← check_length layouts record (len children);
     element ← ok_or (referenced_type record) (violation "element type absent");
     uses' ← edges nodes (length pre) uses ((fun c => (c, element)) <$> children);
     Ok (uses', handles)).
Proof.
  intros H Ht Hlt Hk. unfold check_length.
  assert (children_of node = N.to_nat <$> children) as Hc by (unfold children_of; by rewrite Hk).
  assert (handles_of node = []) as Hh by (unfold handles_of; by rewrite Hk).
  assert (forall e : TypeId, ((fun c => (c, e)) <$> children).*1 = children) as Hf.
  { intros e. rewrite <- list_fmap_compose. apply list_fmap_id. }
  assert (good_node pre node (length nodes)
    (element ← ok_or (referenced_type record) (violation "element type absent");
     uses' ← edges nodes (length pre) uses ((fun c => (c, element)) <$> children);
     Ok (uses', handles))) as Hrest.
  { destruct (referenced_type record) as [e|]; [|apply good_err]. cbn.
    apply good_edges; [done..| |done]. by rewrite Hf. }
  destruct (array_length record).
  - destruct (negb _); [apply good_err|exact Hrest].
  - destruct (referenced_type record) as [e|]; [|apply good_err]. cbn in Hrest.
    change (ok_or (Some e) _) with (Ok (E := Fault) e). cbn [mbind result_bind].
    destruct (type_by_id layouts e); [|apply good_err]. cbn [ok_or mbind result_bind].
    match goal with |- context [if ?b then _ else _] => destruct b end; [apply good_err|exact Hrest].
Qed.

Lemma check_node_spec pre node nodes uses handles :
  length pre < length nodes -> checked layouts m pre (length nodes) uses handles ->
  good_node pre node (length nodes) (check_node layouts m nodes (length pre) node uses handles).
Proof.
  intros Hlt H. unfold check_node.
  destruct (type_by_id layouts (pn_ty node)) as [record|] eqn:Er; [|apply good_err]. cbn.
  assert (is_Some (type_by_id layouts (pn_ty node))) as Ht by (by rewrite Er).
  destruct (pn_kind node) as [| |children|variant child|id] eqn:Ek;
    destruct (category record) eqn:Ec; try apply good_err.
  1-3: apply good_leaf; [done|done|unfold children_of|unfold handles_of]; by rewrite Ek.
  - destruct (N.eqb_spec (len children) (len (view_fields record))) as [E|]; [|apply good_err].
    cbn [negb]. apply good_edges; [done..| |unfold handles_of; by rewrite Ek].
    rewrite zip_fst by (rewrite length_fmap; unfold len in E; lia). unfold children_of. by rewrite Ek.
  - by apply good_elements.
  - by apply good_elements.
  - destruct (get (view_variants record) variant) as [v|]; [|apply good_err]. cbn.
    destruct child as [child|], (vv_payload v) as [ty|]; try apply good_err.
    + rewrite edge_edges. apply good_edges; [done..| |]; [unfold children_of|unfold handles_of]; by rewrite Ek.
    + apply good_leaf; [done|done|unfold children_of|unfold handles_of]; by rewrite Ek.
  - by apply good_handle.
  - by apply good_handle.
Qed.

Lemma check_nodes_spec nodes rest pre uses handles :
  nodes = pre ++ rest -> checked layouts m pre (length nodes) uses handles ->
  normal (check_nodes layouts m nodes (length pre) rest uses handles) /\
  forall uses' handles',
    check_nodes layouts m nodes (length pre) rest uses handles = Ok (uses', handles') ->
    checked layouts m nodes (length nodes) uses' handles'.
Proof.
  revert pre uses handles. induction rest as [|node rest IH]; intros pre uses handles Hn H; cbn [check_nodes].
  { split; [done|]. intros ? ? [= <- <-]. rewrite app_nil_r in Hn. by subst pre. }
  assert (length pre < length nodes) as Hlt by (rewrite Hn, length_app; cbn; lia).
  destruct (check_node_spec pre node nodes uses handles Hlt H) as [Hnn Hs].
  destruct (check_node _ _ _ _ _ _ _) as [[uses1 handles1]|f]; [|by destruct f; split]. cbn.
  specialize (IH (pre ++ [node]) uses1 handles1). rewrite length_app, Nat.add_1_r in IH.
  apply IH; [by rewrite <- app_assoc|by apply Hs].
Qed.
End loop.

(** ** Visiting a tree *)

Section visit.
Context (layouts : VerifiedLayouts) (m : Model) (nodes : list PayloadNode).
Context (uses : list bool) (handles : gset N).
Context (tree : checked layouts m nodes (length nodes) uses handles) (nonempty : nodes <> []).
Context (bounded : (len nodes <= u32_max)%N).

Definition kids (i : nat) : list nat := match nodes !! i with Some node => children_of node | None => [] end.
Definition hands (i : nat) : list N := match nodes !! i with Some node => handles_of node | None => [] end.
Notation root := (length nodes - 1).

(** Nodes still to visit, and vectors whose storage is still to be released *)
Definition unvisited (stack : list (nat * bool)) : list nat :=
  stack ≫= fun item => if item.2 : bool then [] else [item.1].
Definition storages (stack : list (nat * bool)) : list nat :=
  stack ≫= fun item => if item.2 : bool then [item.1] else [].

Lemma kids_order i c : c ∈ kids i -> c < i.
Proof.
  unfold kids. destruct (nodes !! i) as [node|] eqn:E; [|by intros ?%not_elem_of_nil].
  by eapply (ck_order _ _ _ _ _ _ tree).
Qed.

Lemma kids_unique V : NoDup V -> Forall (fun i => i < length nodes) V -> NoDup (V ≫= kids).
Proof.
  intros Hnd Hall. pose proof (ck_unique _ _ _ _ _ _ tree) as H. rewrite bind_seq in H.
  assert (exists W, V ++ W ≡ₚ seq 0 (length nodes)) as [W HW].
  { destruct (submseteq_Permutation V (seq 0 (length nodes))) as [W ?].
    - apply NoDup_submseteq; [done|]. intros i Hi. apply elem_of_seq.
      rewrite Forall_forall in Hall. specialize (Hall i Hi). lia.
    - by exists W. }
  rewrite <- HW in H. change (NoDup ((V ++ W) ≫= kids)) in H. rewrite bind_app in H.
  by apply NoDup_app in H as [? _].
Qed.

(** The stack discipline: what was visited and what is on the stack are the
    root and the children of what was visited, each once. *)
Record visiting (V : list nat) (stack : list (nat * bool)) (drops : list Drop) : Prop := {
  vi_perm : (V ≫= kids) ++ [root] ≡ₚ V ++ unvisited stack;
  vi_nodup : NoDup V;
  vi_visited : Forall (fun i => i < length nodes) V;
  vi_storage : forall i, i ∈ storages stack ->
    exists node children, nodes !! i = Some node /\ pn_kind node = PkChildren children;
  vi_handles : drop_handles drops ≡ₚ V ≫= hands }.

Lemma root_lt : root < length nodes.
Proof. destruct nodes; [done|]. cbn. lia. Qed.

Lemma visiting_bound V stack drops i :
  visiting V stack drops -> i ∈ V ++ unvisited stack -> i < length nodes.
Proof.
  intros [Hp _ Hv _ _] Hi. rewrite <- Hp in Hi. apply elem_of_app in Hi as [Hi|Hi%list_elem_of_singleton].
  - apply list_elem_of_bind in Hi as (p & Hc & Hin). rewrite Forall_forall in Hv.
    specialize (Hv p Hin). apply kids_order in Hc. lia.
  - subst i. apply root_lt.
Qed.

Lemma visiting_nodup V stack drops : visiting V stack drops -> NoDup (V ++ unvisited stack).
Proof.
  intros [Hp Hn Hv _ _]. rewrite <- Hp. apply NoDup_app. split_and!.
  - by apply kids_unique.
  - intros c Hc Hr%list_elem_of_singleton. apply list_elem_of_bind in Hc as (p & Hk%kids_order & Hin).
    rewrite Forall_forall in Hv. specialize (Hv p Hin). lia.
  - apply NoDup_singleton.
Qed.

(** One visit *)
Lemma visiting_visit V i stack stack' drops drops' :
  visiting V ((i, false) :: stack) drops ->
  unvisited stack' ≡ₚ kids i ++ unvisited stack ->
  (forall j, j ∈ storages stack' ->
     (j ∈ storages stack) \/ exists node children, nodes !! j = Some node /\ pn_kind node = PkChildren children) ->
  drop_handles drops' ≡ₚ drop_handles drops ++ hands i ->
  visiting (i :: V) stack' drops' /\ i < length nodes /\ S (length V) <= length nodes.
Proof.
  intros H Hu Hs Hd. pose proof (visiting_nodup _ _ _ H) as Hnd.
  pose proof (visiting_bound _ _ _ i H) as Hb.
  assert (i < length nodes) as Hi by (apply Hb; set_solver).
  destruct H as [Hp Hn Hv Hst Hh]. cbn in Hp, Hnd.
  assert (NoDup (i :: V)) as HnV.
  { constructor; [|done]. apply NoDup_app in Hnd as (_ & Hdis & _). intros Hin. apply (Hdis i Hin). left. }
  assert (Forall (fun i => i < length nodes) (i :: V)) as HvV by (by constructor).
  split_and!; [split|done|].
  - cbn. rewrite <- app_assoc, Hp, Hu. solve_Permutation.
  - done.
  - done.
  - intros j [Hj|Hj]%Hs; [|done]. apply Hst. cbn. done.
  - cbn. rewrite Hd, Hh. solve_Permutation.
  - change (length (i :: V) <= length nodes). rewrite <- (length_seq (length nodes) 0).
    apply submseteq_length, NoDup_submseteq; [done|]. intros j Hj. apply elem_of_seq.
    rewrite Forall_forall in HvV. specialize (HvV j Hj). lia.
Qed.

(** The drops of a node from those of its children: the children in reverse
    order, then the storage of a vector *)
Definition destroy (rec : nat -> list Drop) (i : nat) : list Drop :=
  match nodes !! i with
  | None => []
  | Some node =>
      match pn_kind node with
      | PkCopy => []
      | PkString => [DropNode (N.of_nat i)]
      | PkHandle owner => [DropHandle owner]
      | PkChildren children =>
          (rev (N.to_nat <$> children) ≫= rec) ++
          match type_by_id layouts (pn_ty node) with
          | Some record => if bool_decide (category record = CatVec) then [DropNode (N.of_nat i)] else []
          | None => []
          end
      | PkVariant _ (Some child) => rec (N.to_nat child)
      | PkVariant _ None => []
      end
  end.
Fixpoint destruction (depth : nat) (i : nat) : list Drop :=
  match depth with O => [] | S depth => destroy (destruction depth) i end.

Lemma destroy_ext r r' i : (forall c, c < i -> r c = r' c) -> destroy r i = destroy r' i.
Proof.
  intros H. unfold destroy. destruct (nodes !! i) as [node|] eqn:E; [|done].
  assert (forall c, c ∈ children_of node -> r c = r' c) as Hc.
  { intros c Hin. apply H. exact (ck_order _ _ _ _ _ _ tree i node c E Hin). }
  unfold children_of in Hc. destruct (pn_kind node) as [| |children|v [child|]|o]; try done.
  - f_equal. apply Forall_bind_ext, Forall_forall. intros c Hin. apply Hc.
    by rewrite rev_reverse, elem_of_reverse in Hin.
  - apply Hc. left.
Qed.

Lemma destruction_depth f g i : i < f -> i < g -> destruction f i = destruction g i.
Proof.
  revert g i. induction f as [|f IH]; intros g i Hf Hg; [lia|]. destruct g as [|g]; [lia|]. cbn.
  apply destroy_ext. intros c Hc. apply IH; lia.
Qed.

Notation D := (destruction (length nodes)).
Lemma destruction_unfold i : i < length nodes -> D i = destroy D i.
Proof.
  intros Hi. rewrite (destruction_depth _ (S (length nodes))) by lia. done.
Qed.

(** ** The stack loop *)

Lemma index_fits i : i < length nodes -> try_u32 (N.of_nat i) = Some (N.of_nat i).
Proof. intros Hi. unfold try_u32, len in *. destruct (N.leb_spec (N.of_nat i) u32_max); [done|lia]. Qed.

Definition item_drops (item : nat * bool) : list Drop :=
  if item.2 : bool then [DropNode (N.of_nat item.1)] else D item.1.

Lemma unvisited_children children stack :
  unvisited (((fun c => (N.to_nat c, false)) <$> children) ++ stack) =
  (N.to_nat <$> children) ++ unvisited stack.
Proof.
  unfold unvisited. rewrite bind_app. f_equal. induction children as [|c children IH]; [done|].
  cbn. by f_equal.
Qed.
Lemma storages_children children stack :
  storages (((fun c => (N.to_nat c, false)) <$> children) ++ stack) = storages stack.
Proof. unfold storages. rewrite bind_app. by induction children. Qed.

Lemma drop_handles_snoc drops d : drop_handles (drops ++ [d]) = drop_handles drops ++ drop_handle d.
Proof. apply bind_snoc. Qed.

(** The outcome of the loop from a stack *)
Definition loop_result (stack : list (nat * bool)) (drops : list Drop) (r : option (list Drop)) : Prop :=
  exists V, r = Some (drops ++ (stack ≫= item_drops)) /\ visiting V [] (drops ++ (stack ≫= item_drops)).

Lemma loop_result_ext stack drops stack' drops' r :
  drops ++ (stack ≫= item_drops) = drops' ++ (stack' ≫= item_drops) ->
  loop_result stack' drops' r -> loop_result stack drops r.
Proof. unfold loop_result. by intros ->. Qed.

Notation measure V stack := (2 * (length nodes - length V) + length (storages stack)).

(** A stack item that is a vector's storage *)
Lemma drops_loop_storage fuel i V stack drops :
  (forall V stack drops, visiting V stack drops -> measure V stack < fuel ->
     loop_result stack drops (drops_loop layouts fuel nodes stack drops)) ->
  visiting V ((i, true) :: stack) drops -> measure V ((i, true) :: stack) < S fuel ->
  loop_result ((i, true) :: stack) drops (drops_loop layouts (S fuel) nodes ((i, true) :: stack) drops).
Proof.
  intros IH H Hf. cbn [drops_loop].
  destruct (vi_storage _ _ _ H i) as (node & children & En & Ek); [cbn; left|].
  rewrite En. cbn.
  destruct (Forall_lookup_1 _ _ _ _ (ck_types _ _ _ _ _ _ tree) En) as [record ->]. cbn. rewrite Ek.
  rewrite index_fits by (by eapply lookup_lt_Some). cbn.
  change (storages ((i, true) :: stack)) with (i :: storages stack) in Hf. rewrite length_cons in Hf.
  eapply loop_result_ext; [|apply (IH V)]; [| |lia].
  - cbn. by rewrite <- app_assoc.
  - destruct H as [? ? ? Hst Hh]. split; [done..| |].
    + intros j Hj. apply Hst. cbn. by right.
    + by rewrite drop_handles_snoc, app_nil_r.
Qed.

(** What a visit must do to the stack and the drops *)
Record visit_step (i : nat) (node : PayloadNode) (stack stack' : list (nat * bool)) (drops drops' : list Drop)
    : Prop := {
  vs_unvisited : unvisited stack' ≡ₚ children_of node ++ unvisited stack;
  vs_storages : storages stack' = storages stack \/
    (storages stack' = i :: storages stack /\ exists children, pn_kind node = PkChildren children);
  vs_handles : drop_handles drops' = drop_handles drops ++ handles_of node;
  vs_drops : drops ++ destroy D i ++ (stack ≫= item_drops) = drops' ++ (stack' ≫= item_drops) }.

Lemma visit_step_result fuel i node V stack stack' drops drops' :
  (forall V stack drops, visiting V stack drops -> measure V stack < fuel ->
     loop_result stack drops (drops_loop layouts fuel nodes stack drops)) ->
  visiting V ((i, false) :: stack) drops -> measure V ((i, false) :: stack) < S fuel ->
  nodes !! i = Some node -> visit_step i node stack stack' drops drops' ->
  loop_result ((i, false) :: stack) drops (drops_loop layouts fuel nodes stack' drops').
Proof.
  intros IH H Hf En [H1 H2 H3 H4].
  assert (kids i = children_of node) as Hkids by (unfold kids; by rewrite En).
  assert (hands i = handles_of node) as Hhands by (unfold hands; by rewrite En).
  rewrite <- Hkids in H1. rewrite <- Hhands in H3.
  destruct (visiting_visit V i stack stack' drops drops' H H1) as (HV & Hi & HlV); [|by rewrite H3|].
  { intros j Hj. destruct H2 as [E|(E & children & Ek)]; rewrite E in Hj; [by left|].
    apply elem_of_cons in Hj as [->|Hj]; [right; by exists node, children|by left]. }
  apply (loop_result_ext _ _ stack' drops').
  - rewrite <- H4, <- destruction_unfold by done. done.
  - apply (IH (i :: V)); [done|].
    change (storages ((i, false) :: stack)) with (storages stack) in Hf. rewrite length_cons.
    destruct H2 as [->|[-> _]]; rewrite ?length_cons; lia.
Qed.

(** The step of an aggregate *)
Lemma visit_step_children i node record children stack drops :
  nodes !! i = Some node -> pn_kind node = PkChildren children ->
  type_by_id layouts (pn_ty node) = Some record ->
  visit_step i node stack
    (rev ((fun c => (N.to_nat c, false)) <$> children) ++
     (if bool_decide (category record = CatVec) then [(i, true)] else []) ++ stack) drops drops.
Proof.
  intros En Ek Er.
  assert (rev ((fun c => (N.to_nat c, false)) <$> children) = (fun c => (N.to_nat c, false)) <$> rev children)
    as -> by (symmetry; apply map_rev).
  split.
  - rewrite unvisited_children. unfold children_of. rewrite Ek, rev_reverse.
    rewrite (reverse_Permutation children). by destruct (bool_decide _).
  - rewrite storages_children. destruct (bool_decide _); [right|by left]. split; [done|by exists children].
  - unfold handles_of. by rewrite Ek, app_nil_r.
  - unfold destroy. rewrite En, Ek, Er, bind_app, <- app_assoc. f_equal. f_equal.
    + rewrite <- map_rev. induction (rev children) as [|c l IH]; [done|]. cbn. f_equal. exact IH.
    + rewrite bind_app. by destruct (bool_decide _).
Qed.

Lemma drops_loop_node fuel i V stack drops :
  (forall V stack drops, visiting V stack drops -> measure V stack < fuel ->
     loop_result stack drops (drops_loop layouts fuel nodes stack drops)) ->
  visiting V ((i, false) :: stack) drops -> measure V ((i, false) :: stack) < S fuel ->
  loop_result ((i, false) :: stack) drops (drops_loop layouts (S fuel) nodes ((i, false) :: stack) drops).
Proof.
  intros IH H Hf. cbn [drops_loop].
  assert (i < length nodes) as Hi by (apply (visiting_bound _ _ _ i H); cbn; set_solver).
  destruct (lookup_lt_is_Some_2 nodes i Hi) as [node En]. rewrite En. cbn.
  destruct (Forall_lookup_1 _ _ _ _ (ck_types _ _ _ _ _ _ tree) En) as [record Er]. rewrite Er. cbn.
  rewrite (index_fits i Hi). cbn [mbind option_bind].
  pose proof (fun s' d' => visit_step_result fuel i node V stack s' drops d' IH H Hf En) as step.
  destruct (pn_kind node) as [| |children|v [child|]|o] eqn:Ek; apply step;
    try (split; unfold children_of, handles_of, destroy; rewrite ?Ek, ?En, ?drop_handles_snoc, ?Ek, ?app_nil_r;
         cbn; rewrite <- ?app_assoc; auto; fail).
  by apply visit_step_children.
Qed.

Lemma drops_loop_total fuel V stack drops :
  visiting V stack drops -> measure V stack < fuel ->
  loop_result stack drops (drops_loop layouts fuel nodes stack drops).
Proof.
  revert V stack drops. induction fuel as [|fuel IH]; intros V stack drops H Hf; [lia|].
  destruct stack as [|[i [|]] stack].
  - exists V. cbn. by rewrite app_nil_r.
  - by apply (drops_loop_storage fuel i V).
  - by apply (drops_loop_node fuel i V).
Qed.

(** Every node but the root is a child: the tree is visited in full. *)
Lemma visiting_all V drops :
  (forall i, i < root -> i ∈ nodes ≫= children_of) -> visiting V [] drops ->
  V ≡ₚ seq 0 (length nodes).
Proof.
  intros Hparent [Hp Hn Hv _ _]. cbn in Hp. rewrite app_nil_r in Hp.
  assert (forall k i, i < length nodes -> root - i <= k -> i ∈ V) as Hin.
  { induction k as [|k IHk]; intros i Hi Hk.
    - rewrite <- Hp. apply elem_of_app. right. apply list_elem_of_singleton. lia.
    - destruct (decide (i = root)) as [->|]; [apply IHk; lia|].
      assert (i < root) as Hlt by lia. apply Hparent, list_elem_of_bind in Hlt as (node & Hc & Hnode).
      apply list_elem_of_lookup in Hnode as [p Ep]. rewrite <- Hp. apply elem_of_app. left.
      apply list_elem_of_bind. exists p. unfold kids. rewrite Ep. split; [done|].
      pose proof (ck_order _ _ _ _ _ _ tree p node i Ep Hc).
      pose proof (lookup_lt_Some _ _ _ Ep). apply IHk; lia. }
  apply NoDup_Permutation; [done|apply NoDup_seq|]. intros i. rewrite elem_of_seq.
  rewrite Forall_forall in Hv. split; [intros Hi; specialize (Hv i Hi); lia|].
  intros [_ Hi]. eapply Hin; [lia|done].
Qed.

Lemma payload_drops_spec :
  (forall i, i < root -> i ∈ nodes ≫= children_of) ->
  payload_drops layouts nodes = Some (D root) /\
  drop_handles (D root) ≡ₚ nodes ≫= handles_of.
Proof.
  intros Hparent. pose proof root_lt as Hr.
  assert (visiting [] [(root, false)] []) as H0.
  { split; [done|constructor|constructor|by intros i ?%not_elem_of_nil|done]. }
  destruct (drops_loop_total (2 * length nodes + 1) [] [(root, false)] [] H0) as (V & E & HV); [cbn; lia|].
  cbn [mbind list_bind app] in E, HV. change (item_drops (root, false)) with (D root) in E, HV.
  rewrite app_nil_r in E, HV. split; [exact E|].
  rewrite (vi_handles _ _ _ HV), (visiting_all V _ Hparent HV), (bind_seq handles_of). done.
Qed.
End visit.

(** ** [Model::payload] *)

Definition owners_bound (m : Model) : Prop :=
  forall o, o ∈ mo_owners m -> (ow_control o < len (mo_controls m))%N.

Definition with_nodes (m : Model) (count : N) : Model :=
  mkModel (mo_controls m) (mo_owners m) (mo_intervals m) (mo_pending m) (mo_allocations m) count.

Lemma all_used n (uses : list bool) :
  length uses = n -> existsb negb (take (n - 1) uses) = false ->
  forall i, i < n - 1 -> uses !! i = Some true.
Proof.
  intros Hl H i Hi. destruct (lookup_lt_is_Some_2 uses i) as [b E]; [lia|]. rewrite E.
  destruct b; [done|]. exfalso.
  assert (existsb negb (take (n - 1) uses) = true) as Ht; [|congruence].
  apply existsb_exists. exists false. split; [|done]. apply list_elem_of_In, list_elem_of_lookup.
  exists i. by rewrite lookup_take_lt.
Qed.

Lemma checked_empty layouts m n : checked layouts m [] n (replicate n false) ∅.
Proof.
  split; cbn; try done; try constructor.
  - by rewrite length_replicate.
  - by intros [? _]%lookup_replicate.
  - by intros ?%not_elem_of_nil.
  - set_solver.
  - by intros ?%not_elem_of_nil.
Qed.

(** An accepted payload: its destruction is the recursive one, and it owns
    distinct external handles, each released once. *)
Record payload_accepted (layouts : VerifiedLayouts) (m : Model) (nodes : list PayloadNode)
    (m' : Model) (drops : list Drop) : Prop := {
  pa_nonempty : nodes <> [];
  pa_model : m' = with_nodes m (mo_nodes m + len nodes);
  pa_drops : drops = destruction layouts nodes (length nodes) (length nodes - 1);
  pa_handles : drop_handles drops ≡ₚ nodes ≫= handles_of;
  pa_unique : NoDup (drop_handles drops);
  pa_external : Forall (external m) (drop_handles drops) }.

Lemma checked_model_count_spec before extra maximum :
  checked_model_count before extra maximum <> Err Abnormal /\
  forall total, checked_model_count before extra maximum = Ok total ->
    total = (before + extra)%N /\ (total <= maximum)%N.
Proof.
  unfold checked_model_count, checked_add. destruct (N.leb_spec (before + extra) u64_max); [|done].
  destruct (N.leb_spec (before + extra) maximum); [|done]. split; [done|]. by intros total [= <-].
Qed.

Lemma payload_spec layouts m ty nodes :
  owners_bound m ->
  payload layouts m ty nodes <> Err Abnormal /\
  forall m' drops, payload layouts m ty nodes = Ok (m', drops) ->
    payload_accepted layouts m nodes m' drops.
Proof.
  intros Hb. unfold payload.
  destruct (checked_model_count_spec (mo_nodes m) (len nodes) MAX_STATUS_TRANSITIONS) as [Hn Hc].
  destruct (checked_model_count _ _ _) as [count|f]; [|by destruct f]. destruct (Hc _ eq_refl) as [-> Hmax]. cbn [mbind result_bind].
  fold (with_nodes m (mo_nodes m + len nodes)). set (m1 := with_nodes m (mo_nodes m + len nodes)).
  destruct (Nat.eqb_spec (length nodes) 0) as [|Hne]; [done|].
  assert (nodes <> []) as Hnn by (by intros ->).
  destruct (bool_decide _); [|done]. cbn [negb].
  destruct (check_nodes_spec layouts m1 Hb nodes nodes [] (replicate (length nodes) false) ∅) as [Hnorm Hspec];
    [done|apply checked_empty|].
  cbn [length] in Hnorm, Hspec.
  destruct (check_nodes _ _ _ _ _ _ _) as [[uses handles]|f]; [|by destruct f]. cbn [mbind result_bind].
  specialize (Hspec _ _ eq_refl). destruct (existsb _ _) eqn:Eu; [done|].
  pose proof (all_used _ _ (ck_length _ _ _ _ _ _ Hspec) Eu) as Hu.
  destruct (payload_drops_spec layouts m1 nodes uses handles Hspec Hnn) as [-> Hp].
  { unfold MAX_STATUS_TRANSITIONS, u32_max in *. lia. }
  { intros i Hi. by apply (ck_uses _ _ _ _ _ _ Hspec), Hu. }
  split; [done|]. intros m' drops [= <- <-]. split; [done..| |].
  - rewrite Hp. exact (ck_handles_unique _ _ _ _ _ _ Hspec).
  - rewrite Hp. apply (ck_external _ _ _ _ _ _ Hspec).
Qed.
