(* ===== verification/ControlInvariant.v ===== *)
(** * The ownership invariant of a replayed trace, and its steps

    What holds of the model between events: reference counts are the numbers of
    live handles, payload-owned handles are the ones still to be destroyed, and
    the live allocations are disjoint. *)
From stdpp Require Import base numbers list list_numbers strings gmap.
From S2P Require Import Prelude Source LayoutData RuntimeAbi ControlModel PayloadSound.

(** ** Live handles *)

Definition is_live (o : Owner) : bool := negb (bool_decide (ow_location o = Dropped)).

(** A live strong ([weak = false]) or weak handle of control [i] *)
Definition counts (i : N) (weak : bool) (o : Owner) : bool :=
  (ow_control o =? i)%N && Bool.eqb (ow_weak o) weak && is_live o.
Definition live (i : N) (weak : bool) (owners : list Owner) : N :=
  len (List.filter (counts i weak) owners).

Lemma live_snoc i w owners o :
  live i w (owners ++ [o]) = (live i w owners + if counts i w o then 1 else 0)%N.
Proof.
  unfold live. rewrite List.filter_app. cbn. destruct (counts i w o).
  - by rewrite len_snoc.
  - rewrite app_nil_r. lia.
Qed.

Lemma live_alter f i w owners k o :
  owners !! k = Some o ->
  (live i w (alter f k owners) + (if counts i w o then 1 else 0) =
   live i w owners + if counts i w (f o) then 1 else 0)%N.
Proof.
  unfold live. revert k. induction owners as [|x owners IH]; intros [|k] H; [done..| |].
  - injection H as ->. cbn. destruct (counts i w o), (counts i w (f o)); unfold len; cbn; lia.
  - change (alter f (S k) (x :: owners)) with (x :: alter f k owners). cbn [List.filter].
    specialize (IH k H). destruct (counts i w x); [|exact IH]. unfold len in *. cbn [length]. lia.
Qed.

(** Owners that differ only in where they are, not in whether they are live *)
Definition same_handle (o o' : Owner) : Prop :=
  ow_control o = ow_control o' /\ ow_weak o = ow_weak o' /\ is_live o = is_live o'.
Lemma live_same i w owners owners' : Forall2 same_handle owners owners' -> live i w owners = live i w owners'.
Proof.
  induction 1 as [|o o' l l' (H1 & H2 & H3) _ IH]; [done|]. unfold live in *. cbn.
  assert (counts i w o = counts i w o') as -> by (unfold counts; by rewrite H1, H2, H3).
  destruct (counts i w o'); [|done]. unfold len in *. cbn [length]. lia.
Qed.

Lemma live_pos i w owners o : o ∈ owners -> counts i w o = true -> (0 < live i w owners)%N.
Proof.
  intros Hin Hc. unfold live, len. assert (In o (List.filter (counts i w) owners)) as H.
  { apply filter_In. split; [by apply list_elem_of_In|done]. }
  destruct (List.filter _ _); [done|]. cbn. lia.
Qed.
Lemma live_ex i w owners : (0 < live i w owners)%N -> exists o, o ∈ owners /\ counts i w o = true.
Proof.
  unfold live, len. destruct (List.filter (counts i w) owners) as [|o l] eqn:E; [cbn; lia|].
  intros _. exists o. assert (In o (List.filter (counts i w) owners)) as H by (rewrite E; by left).
  apply filter_In in H as [H1 H2]. split; [by apply list_elem_of_In|done].
Qed.

Lemma counts_spec i w o :
  counts i w o = true <-> ow_control o = i /\ ow_weak o = w /\ ow_location o <> Dropped.
Proof.
  unfold counts, is_live. rewrite !andb_true_iff, negb_true_iff, bool_decide_eq_false, N.eqb_eq, eqb_true_iff.
  tauto.
Qed.

(** ** Transitions of a control state *)

(** The payload and the implicit weak reference of the strong handles exist. *)
Definition held (s : ControlState) : bool := (0 <? strong_count s)%N || pending_last_strong s.

(** The effect on the counts of an accepted handle operation *)
Record handle_effect (operation : LogicalOperation) (issues : bool) (before after : ControlState) : Prop := {
  he_valid : valid_control_state after = true;
  he_held : held after = held before;
  he_strong : (strong_count after + (if bool_decide (operation = StrongReleaseBegin) then 1 else 0) =
               strong_count before + if issues && negb (issues_weak operation) then 1 else 0)%N;
  he_weak : (weak_count after + (if bool_decide (operation = WeakRelease) then 1 else 0) =
             weak_count before + if issues && issues_weak operation then 1 else 0)%N;
  he_positive : (0 < strong_count after -> 0 < strong_count before)%N;
  he_pending : pending_last_strong after = true -> operation = StrongReleaseBegin;
  he_allocated : allocated after = false -> operation = WeakRelease }.

Ltac split_bools :=
  repeat match goal with
  | H : _ && _ = true |- _ => apply andb_true_iff in H as [? ?]
  | H : bool_decide _ = true |- _ => apply bool_decide_eq_true in H
  | H : bool_decide _ = false |- _ => apply bool_decide_eq_false in H
  | H : negb _ = true |- _ => apply negb_true_iff in H
  | H : negb _ = false |- _ => apply negb_false_iff in H
  | H : _ || _ = false |- _ => apply orb_false_iff in H as [? ?]
  | H : (_ <? _)%N = true |- _ => apply N.ltb_lt in H
  | H : (_ <? _)%N = false |- _ => apply N.ltb_ge in H
  | H : (_ <=? _)%N = true |- _ => apply N.leb_le in H
  | H : (_ =? _)%N = true |- _ => apply N.eqb_eq in H
  end.

Lemma held_with_strong s n : (0 < n)%N -> (0 < strong_count s)%N -> held (with_strong s n) = held s.
Proof. unfold held. cbn. intros ->%N.ltb_lt ->%N.ltb_lt. done. Qed.

Lemma preflight_passes operation before status b after :
  pending_last_strong before = false ->
  validate_control_transition operation before status b after = true ->
  valid_control_state after = true /\
  control_transition_preflight operation before status b after = None.
Proof.
  intros Hp. unfold validate_control_transition, control_transition_preflight. rewrite Hp.
  destruct (operation_accepts_status operation status); [|done].
  destruct (valid_control_state before); [|done]. destruct (valid_control_state after); [|done]. cbn.
  by destruct (negb _ && negb _).
Qed.

Ltac count_lia :=
  cbn [strong_count weak_count with_strong with_weak issues_weak andb negb]; intros;
  repeat (first [rewrite bool_decide_eq_true_2 by done | rewrite bool_decide_eq_false_2 by done]);
  first [done | lia | cbn in *; congruence].

Lemma effect_unchanged operation s :
  is_release operation = false -> pending_last_strong s = false -> allocated s = true -> valid_control_state s = true -> handle_effect operation false s s.
Proof. intros Hr Hp Ha Hv. destruct operation; try done; split; count_lia || congruence. Qed.
Lemma effect_strong operation s :
  operation = StrongClone \/ operation = WeakUpgrade -> (0 < strong_count s)%N ->
  pending_last_strong s = false -> allocated s = true -> valid_control_state (with_strong s (strong_count s + 1)) = true ->
  handle_effect operation true s (with_strong s (strong_count s + 1)).
Proof. intros [-> | ->] Hs Hp Ha Hv; (split; [done|apply held_with_strong; lia|count_lia..]). Qed.
Lemma effect_weak operation s :
  operation = WeakClone \/ operation = WeakDowngrade ->
  pending_last_strong s = false -> allocated s = true -> valid_control_state (with_weak s (weak_count s + 1)) = true ->
  handle_effect operation true s (with_weak s (weak_count s + 1)).
Proof. intros [-> | ->] Hp Ha Hv; (split; [done|done|count_lia..]). Qed.
Lemma effect_release_begin s b after :
  pending_last_strong s = false -> allocated s = true -> valid_control_state after = true ->
  (if (1 <? strong_count s)%N then
     bool_decide (b = Some false) && bool_decide (after = with_strong s (strong_count s - 1))
   else if (strong_count s =? 1)%N then
     bool_decide (b = Some true)
     && bool_decide (after = mkControlState 0 (weak_count s) true (payload_initialized s) (allocated s))
   else false) = true ->
  handle_effect StrongReleaseBegin false s after.
Proof.
  intros Hp Ha Hv H. destruct (N.ltb_spec 1 (strong_count s)).
  - split_bools. subst after. split; [done|apply held_with_strong; lia|count_lia..].
  - destruct (N.eqb_spec (strong_count s) 1) as [Es|]; [|done]. split_bools. subst after.
    split; [done|unfold held; cbn; by rewrite Es|count_lia..].
Qed.
Lemma effect_weak_release s b after :
  pending_last_strong s = false -> allocated s = true -> valid_control_state after = true ->
  match checked_sub (weak_count s) 1 with
  | None => false
  | Some remaining =>
      let deallocated := (remaining =? 0)%N && (strong_count s =? 0)%N in
      (negb deallocated || negb (pending_last_strong s))
      && bool_decide (b = Some deallocated)
      && bool_decide (after = mkControlState (strong_count s) remaining (pending_last_strong s)
                                (payload_initialized s) (negb deallocated))
  end = true ->
  handle_effect WeakRelease false s after.
Proof.
  intros Hp Ha Hv H. unfold checked_sub in H. destruct (N.leb_spec 1 (weak_count s)); [|done].
  apply andb_true_iff in H as [_ H]. split_bools. subst after.
  split; [done|done|count_lia..].
Qed.

Lemma control_transition_effect operation before status b after :
  pending_last_strong before = false -> allocated before = true -> is_handle_operation operation = true ->
  (is_release operation = true -> status = StOk) ->
  validate_control_transition operation before status b after = true ->
  handle_effect operation (negb (is_release operation) && bool_decide (status = StOk)) before after.
Proof.
  intros Hp Ha Hop Hrel H. destruct (preflight_passes _ _ _ _ _ Hp H) as [Hv E].
  unfold validate_control_transition in H. rewrite E in H. clear E.
  destruct operation; try done; (destruct status; try done; try (by specialize (Hrel eq_refl)));
    cbn [is_release negb andb]; try (rewrite bool_decide_eq_true_2 by done);
    try (rewrite bool_decide_eq_false_2 by done).
  14: by eapply effect_release_begin.
  14: by eapply effect_weak_release.
  all: split_bools; subst after; auto using effect_unchanged, effect_strong, effect_weak.
Qed.


(** ** The invariant *)

(** The handles of a payload that are still to be released *)
Definition remaining (c : Control) : list N := drop_handles (drop (ct_next c) (ct_drops c)).
Definition located (owners : list Owner) (o : N) (l : Location) : Prop :=
  exists owner, get owners o = Some owner /\ ow_location owner = l.

(** The counts of a control are those of its live handles, and of the implicit
    weak reference of the strong ones. *)
Record counts_ok (owners : list Owner) (pending : list N) (i : N) (s : ControlState) : Prop := {
  co_valid : valid_control_state s = true;
  co_strong : strong_count s = live i false owners;
  co_weak : weak_count s = (live i true owners + if held s then 1 else 0)%N;
  co_pending : pending_last_strong s = true <-> i ∈ pending }.

(** The payload of a control owns exactly the handles it has not released, and
    it is released only after the last strong handle. *)
Record drops_ok (owners : list Owner) (i : N) (c : Control) : Prop := {
  do_unique : NoDup (remaining c);
  do_remaining : forall o, o ∈ remaining c <-> located owners o (Payload i);
  do_released : held (ct_state c) = false -> drop (ct_next c) (ct_drops c) = [];
  do_intact : (0 < strong_count (ct_state c))%N -> ct_next c = 0 }.

(** The recorded intervals are those of the allocated controls, and disjoint. *)
Record intervals_ok (controls : list Control) (intervals : gmap N N) : Prop := {
  io_owned : forall b e, intervals !! b = Some e ->
    exists i c, get controls i = Some c /\ allocated (ct_state c) = true /\ ct_base c = b;
  io_allocated : forall i c, get controls i = Some c -> allocated (ct_state c) = true ->
    is_Some (intervals !! ct_base c);
  io_distinct : forall i j c d, get controls i = Some c -> get controls j = Some d ->
    allocated (ct_state c) = true -> allocated (ct_state d) = true -> ct_base c = ct_base d -> i = j;
  io_nonempty : forall b e, intervals !! b = Some e -> (0 < b < e)%N;
  io_disjoint : forall b e b' e', intervals !! b = Some e -> intervals !! b' = Some e' ->
    (b < b')%N -> (e <= b')%N }.

Record model_ok (m : Model) : Prop := {
  mk_bound : owners_bound m;
  mk_counts : forall i c, get (mo_controls m) i = Some c ->
    counts_ok (mo_owners m) (mo_pending m) i (ct_state c);
  mk_drops : forall i c, get (mo_controls m) i = Some c -> drops_ok (mo_owners m) i c;
  mk_payload : forall o owner p, get (mo_owners m) o = Some owner -> ow_location owner = Payload p ->
    (ow_control owner < p < len (mo_controls m))%N;
  mk_pending_unique : NoDup (mo_pending m);
  mk_pending_bound : forall i, i ∈ mo_pending m -> (i < len (mo_controls m))%N;
  mk_intervals : intervals_ok (mo_controls m) (mo_intervals m) }.

Lemma empty_model_ok : model_ok empty_model.
Proof.
  split; cbn; try done; try (by intros ? ? ?%lookup_nil_Some || idtac).
  all: try (intros; by rewrite ?lookup_nil in *); try constructor; try set_solver.
Qed.

(** A state's components after an operation *)
Lemma counts_ok_frame owners owners' pending pending' i s :
  counts_ok owners pending i s -> (forall w, live i w owners' = live i w owners) ->
  (i ∈ pending' <-> i ∈ pending) -> counts_ok owners' pending' i s.
Proof. intros [Hv Hs Hw Hp] Hl Hm. split; [done|by rewrite Hl|by rewrite Hl|by rewrite Hm]. Qed.

(** * Replay preserves the ownership invariant *)

(** ** Control vectors after an operation *)

(** [controls'] is [controls] with the state of [i] replaced; the progress of the
    payload destructions may differ. *)
Definition reshaped (i : N) (after : ControlState) (controls controls' : list Control) : Prop :=
  len controls' = len controls /\
  forall j c', get controls' j = Some c' ->
    exists c, get controls j = Some c /\ ct_base c' = ct_base c /\ ct_drops c' = ct_drops c /\
      ct_state c' = (if decide (j = i) then after else ct_state c).

Lemma reshaped_get i after controls controls' j c :
  reshaped i after controls controls' -> get controls j = Some c ->
  exists c', get controls' j = Some c' /\ ct_base c' = ct_base c /\
    ct_state c' = (if decide (j = i) then after else ct_state c).
Proof.
  intros [Hl H] Hj. pose proof (get_Some_lt _ _ _ Hj) as Hlt. rewrite <- Hl in Hlt.
  destruct (get_lt _ _ Hlt) as [c' Hc']. destruct (H j c' Hc') as (c0 & E & Hb & _ & Hs).
  rewrite Hj in E. injection E as <-. by exists c'.
Qed.

Lemma reshaped_restate i after controls :
  reshaped i after controls (restate i after controls).
Proof.
  split; [apply len_alter|]. intros j c' Hj. unfold restate in Hj.
  destruct (decide (j = i)) as [->|Hne].
  - destruct (get controls i) as [c|] eqn:E.
    + rewrite (get_alter_eq _ _ _ _ E) in Hj. injection Hj as <-. by exists c.
    + apply get_Some_lt in Hj. rewrite len_alter in Hj. apply get_lt in Hj. rewrite E in Hj. by destruct Hj.
  - rewrite get_alter_ne in Hj by done. by exists c'.
Qed.

Lemma intervals_reshaped i after c controls controls' intervals :
  intervals_ok controls intervals -> reshaped i after controls controls' ->
  get controls i = Some c -> allocated (ct_state c) = true ->
  intervals_ok controls' (if negb (allocated after) then delete (ct_base c) intervals else intervals).
Proof.
  intros [Ho Ha Hd Hn Hj] Hr Hi Hal.
  assert (forall b e, (if negb (allocated after) then delete (ct_base c) intervals else intervals) !! b = Some e ->
    intervals !! b = Some e /\ (allocated after = false -> b <> ct_base c)) as Hsub.
  { intros b e. destruct (allocated after); cbn; [done|]. intros [? ?]%lookup_delete_Some. by split. }
  split.
  - intros b e [Hb Hdel]%Hsub. destruct (Ho b e Hb) as (j & d & Hd' & Had & <-).
    destruct (reshaped_get _ _ _ _ _ _ Hr Hd') as (d' & Hd1 & Hb1 & Hs1). exists j, d'. split_and!; [done| |done].
    rewrite Hs1. destruct (decide (j = i)) as [->|]; [|done].
    destruct (allocated after) eqn:Eal; [done|]. exfalso. apply (Hdel eq_refl). congruence.
  - intros j d' Hj' Had. destruct Hr as [_ Hr]. destruct (Hr j d' Hj') as (d & Ed & Hb & _ & Hs).
    rewrite Hb. rewrite Hs in Had. destruct (decide (j = i)) as [->|Hne].
    + rewrite Hi in Ed. injection Ed as <-. rewrite Had. cbn. by apply (Ha i).
    + destruct (allocated after); cbn; [by apply (Ha j)|].
      rewrite lookup_delete_ne; [by apply (Ha j)|]. intros E. apply Hne. by eapply Hd.
  - intros j k d1 d2 H1 H2 A1 A2 E. destruct Hr as [_ Hr].
    destruct (Hr _ _ H1) as (e1 & E1 & B1 & _ & S1), (Hr _ _ H2) as (e2 & E2 & B2 & _ & S2).
    rewrite S1 in A1. rewrite S2 in A2. apply (Hd j k e1 e2 E1 E2); [| |congruence].
    + destruct (decide (j = i)) as [->|]; congruence.
    + destruct (decide (k = i)) as [->|]; congruence.
  - intros b e [Hb _]%Hsub. by apply Hn.
  - intros b e b' e' [Hb _]%Hsub [Hb' _]%Hsub. by apply (Hj b e b' e').
Qed.

(** ** Owners after an operation *)

Lemma located_relocate owners id l o j :
  (exists owner, get owners id = Some owner) -> l <> Payload j ->
  located (relocate id l owners) o (Payload j) <-> located owners o (Payload j) /\ o <> id.
Proof.
  intros [owner Hid] Hl. unfold located, relocate. destruct (decide (o = id)) as [->|Hne].
  - rewrite (get_alter_eq _ _ _ _ Hid). split; [|tauto]. intros (ow & [= <-] & E). by cbn in E.
  - rewrite get_alter_ne by done. tauto.
Qed.

Lemma located_snoc owners o' o j :
  ow_location o' = External -> located (owners ++ [o']) o (Payload j) <-> located owners o (Payload j).
Proof.
  intros He. unfold located. setoid_rewrite get_snoc. split.
  - intros (ow & [H|[_ ->]] & E); [by exists ow|congruence].
  - intros (ow & H & E). exists ow. auto.
Qed.

(** The progress of a destruction over a handle *)
Lemma remaining_step c id :
  ct_drops c !! ct_next c = Some (DropHandle id) ->
  remaining c = id :: remaining (mkControl (ct_payload c) (ct_state c) (ct_base c) (ct_drops c) (S (ct_next c))).
Proof. intros H. unfold remaining. cbn. by rewrite (drop_S _ _ _ H). Qed.
Lemma remaining_step_node c node :
  ct_drops c !! ct_next c = Some (DropNode node) ->
  remaining c = remaining (mkControl (ct_payload c) (ct_state c) (ct_base c) (ct_drops c) (S (ct_next c))).
Proof. intros H. unfold remaining. cbn. by rewrite (drop_S _ _ _ H). Qed.

Lemma reshaped_trans i s s' a b c : reshaped i s a b -> reshaped i s' b c -> reshaped i s' a c.
Proof.
  intros [L1 H1] [L2 H2]. split; [congruence|]. intros j c' Hj.
  destruct (H2 j c' Hj) as (d & Ed & Bd & Dd & Sd). destruct (H1 j d Ed) as (e & Ee & Be & De & Se).
  exists e. split_and!; [done|congruence..|]. rewrite Sd, Se. by destruct (decide (j = i)).
Qed.

Lemma drops_ok_state owners i c s :
  drops_ok owners i c -> (held s = false -> held (ct_state c) = false) ->
  (0 < strong_count s -> 0 < strong_count (ct_state c))%N ->
  drops_ok owners i (with_state c s).
Proof. intros [Hu Hr Hd Hi] Hh Hp. split; [exact Hu|exact Hr| |]; cbn; auto. Qed.

Lemma drops_restate owners i s controls :
  (forall j c, get controls j = Some c -> drops_ok owners j c) ->
  (forall c, get controls i = Some c -> drops_ok owners i (with_state c s)) ->
  forall j c, get (restate i s controls) j = Some c -> drops_ok owners j c.
Proof.
  intros H Hi j c'. unfold restate. destruct (decide (i = j)) as [<-|Hne].
  - destruct (get controls i) as [c|] eqn:E.
    + rewrite (get_alter_eq _ _ _ _ E). intros [= <-]. by apply Hi.
    + intros Hx%get_Some_lt. rewrite len_alter in Hx. apply get_lt in Hx. rewrite E in Hx. by destruct Hx.
  - rewrite get_alter_ne by done. apply H.
Qed.

(** ** Counts after an operation *)

Ltac count_in H :=
  repeat first [rewrite bool_decide_eq_true_2 in H by done | rewrite bool_decide_eq_false_2 in H by done].

Notation b2n b := (if b : bool then 1%N else 0%N).

Lemma counts_ok_effect owners owners' pending operation owner issues before after :
  counts_ok owners pending (ow_control owner) before ->
  pending_last_strong before = false ->
  handle_effect operation issues before after ->
  is_handle_operation operation = true -> is_weak_operation operation = ow_weak owner ->
  (issues = true -> is_release operation = false) ->
  (forall w, live (ow_control owner) w owners' + b2n (is_release operation && Bool.eqb (ow_weak owner) w) =
             live (ow_control owner) w owners + b2n (issues && Bool.eqb (issues_weak operation) w))%N ->
  counts_ok owners'
    (if pending_last_strong after then ow_control owner :: pending else pending) (ow_control owner) after.
Proof.
  intros [Hv Hs Hw Hp] Hnp [Ev Eh Es Ew _ _ _] Hop Hmode Hiss Hl.
  pose proof (Hl false) as Hf. pose proof (Hl true) as Ht. split; [done| | |].
  - rewrite <- Hmode in Hf. clear -Es Hf Hs Hop Hiss. destruct operation; try done;
      destruct issues; try (by specialize (Hiss eq_refl)); count_in Es; cbn in *; lia.
  - rewrite Eh. rewrite <- Hmode in Ht. clear -Ew Ht Hw Hop Hiss. destruct operation; try done;
      destruct issues; try (by specialize (Hiss eq_refl)); count_in Ew; cbn in *; lia.
  - destruct (pending_last_strong after).
    + split; [left|done].
    + split; [done|]. intros Hin%Hp. congruence.
Qed.

(** The counts of every control after an operation on the control of [owner] *)
Lemma counts_reshaped m owner c owners' controls' operation issues after :
  model_ok m -> get (mo_controls m) (ow_control owner) = Some c ->
  pending_last_strong (ct_state c) = false ->
  handle_effect operation issues (ct_state c) after ->
  is_handle_operation operation = true -> is_weak_operation operation = ow_weak owner ->
  (issues = true -> is_release operation = false) ->
  reshaped (ow_control owner) after (mo_controls m) controls' ->
  (forall j w, live j w owners' +
     b2n (is_release operation && (ow_control owner =? j)%N && Bool.eqb (ow_weak owner) w) =
     live j w (mo_owners m) +
     b2n (issues && (ow_control owner =? j)%N && Bool.eqb (issues_weak operation) w))%N ->
  forall j c', get controls' j = Some c' ->
    counts_ok owners' (if pending_last_strong after then ow_control owner :: mo_pending m else mo_pending m)
      j (ct_state c').
Proof.
  intros Hm Hc Hnp He Hop Hmode Hiss [_ Hr] Hl j c' Hj. destruct (Hr j c' Hj) as (d & Ed & _ & _ & ->).
  destruct (decide (j = ow_control owner)) as [->|Hne].
  - eapply counts_ok_effect; try done; [by apply Hm|]. intros w. specialize (Hl (ow_control owner) w).
    by rewrite N.eqb_refl, !andb_true_r in Hl.
  - eapply counts_ok_frame; [by apply Hm| |].
    + intros w. specialize (Hl j w). rewrite (proj2 (N.eqb_neq _ _)), !andb_false_r in Hl by done. cbn in Hl. lia.
    + destruct (pending_last_strong after); [|done]. rewrite elem_of_cons. naive_solver.
Qed.

(** ** Handle operations *)

Lemma apply_handle_eq m operation owner base issues after :
  apply_handle m operation owner base issues after =
  mkModel (restate (ow_control owner) after (mo_controls m))
    (mo_owners m ++ if issues then [mkOwner (ow_control owner) (issues_weak operation) External] else [])
    (if negb (allocated after) then delete base (mo_intervals m) else mo_intervals m)
    (if pending_last_strong after then ow_control owner :: mo_pending m else mo_pending m)
    (mo_allocations m) (mo_nodes m).
Proof.
  unfold apply_handle, set_intervals, set_pending, set_owners, set_controls.
  destruct issues, (pending_last_strong after), (negb (allocated after)); cbn; by rewrite ?app_nil_r.
Qed.

Lemma counts_new i w c w' : counts i w (mkOwner c w' External) = (c =? i)%N && Bool.eqb w' w.
Proof. unfold counts. cbn. by rewrite andb_true_r. Qed.

(** The pending stack after an operation on a control that is not pending *)
Lemma pending_push m (b : bool) i c :
  model_ok m -> get (mo_controls m) i = Some c -> pending_last_strong (ct_state c) = false ->
  NoDup (if b then i :: mo_pending m else mo_pending m) /\
  forall j, j ∈ (if b then i :: mo_pending m else mo_pending m) -> (j < len (mo_controls m))%N.
Proof.
  intros Hm Hc Hnp. destruct b; [|split; apply Hm]. split.
  - constructor; [|apply Hm]. intros Hin. apply (co_pending _ _ _ _ (mk_counts _ Hm i c Hc)) in Hin. congruence.
  - intros j [->|Hj]%elem_of_cons; [by eapply get_Some_lt|by apply Hm].
Qed.

Section handle.
Context (m : Model) (id : N) (owner : Owner) (c : Control).
Context (ok : model_ok m) (is_owner : get (mo_owners m) id = Some owner).
Context (is_control : get (mo_controls m) (ow_control owner) = Some c).
Context (not_pending : pending_last_strong (ct_state c) = false).
Context (is_allocated : allocated (ct_state c) = true).
Context (operation : LogicalOperation) (issues : bool) (after : ControlState).
Context (effect : handle_effect operation issues (ct_state c) after).
Context (is_operation : is_handle_operation operation = true).
Context (mode : is_weak_operation operation = ow_weak owner).
Notation i := (ow_control owner).

(** Clones, downgrades, upgrades and their failures *)
Lemma retain_ok :
  is_release operation = false ->
  model_ok (apply_handle m operation owner (ct_base c) issues after).
Proof.
  intros Hrel. rewrite apply_handle_eq. pose proof (reshaped_restate i after (mo_controls m)) as Hr.
  set (new := mkOwner i (issues_weak operation) External).
  assert (forall o j, located (mo_owners m ++ if issues then [new] else []) o (Payload j) <->
                      located (mo_owners m) o (Payload j)) as Hloc.
  { intros o j. destruct issues; [by apply located_snoc|by rewrite app_nil_r]. }
  destruct (pending_push m (pending_last_strong after) i c ok is_control not_pending) as [Hp1 Hp2].
  split; cbn [mo_controls mo_owners mo_intervals mo_pending]; rewrite ?(proj1 Hr).
  - unfold owners_bound. cbn. intros o. rewrite (proj1 Hr), elem_of_app. intros [Ho|Ho]; [by apply ok|].
    destruct issues; [|by apply not_elem_of_nil in Ho]. apply list_elem_of_singleton in Ho as ->.
    by eapply get_Some_lt.
  - eapply counts_reshaped; try done. intros j w. rewrite Hrel. destruct issues; cbn.
    + rewrite live_snoc. unfold new. rewrite counts_new. lia.
    + rewrite app_nil_r. lia.
  - assert (forall j d, get (mo_controls m) j = Some d ->
      drops_ok (mo_owners m ++ if issues then [new] else []) j d) as Hd.
    { intros j d Hd. destruct (mk_drops _ ok j d Hd) as [H1 H2 H3 H4]. split; [done| |done..].
      intros o. by rewrite H2, Hloc. }
    apply drops_restate; [done|]. intros d Hi. apply drops_ok_state; [by apply Hd|..];
      rewrite is_control in Hi; injection Hi as <-.
    + by rewrite (he_held _ _ _ _ effect).
    + apply (he_positive _ _ _ _ effect).
  - intros o ow p Ho Hl. destruct issues; [|rewrite app_nil_r in Ho; by eapply ok].
    apply get_snoc in Ho as [Ho|[_ ->]]; [by eapply ok|done].
  - done.
  - done.
  - eapply intervals_reshaped; [apply ok|done..].
Qed.

(** Releases: [controls'] records the progress of the destruction that owns the
    handle, if any. *)
Lemma release_ok controls' :
  is_release operation = true -> issues = false -> ow_location owner <> Dropped ->
  reshaped i (ct_state c) (mo_controls m) controls' ->
  (forall j d, get controls' j = Some d -> drops_ok (relocate id Dropped (mo_owners m)) j d) ->
  model_ok (apply_handle (mkModel controls' (relocate id Dropped (mo_owners m)) (mo_intervals m)
              (mo_pending m) (mo_allocations m) (mo_nodes m)) operation owner (ct_base c) issues after).
Proof.
  intros Hrel Hiss Hlive Hr1 Hdrops. rewrite apply_handle_eq. cbn [mo_controls mo_owners mo_intervals mo_pending].
  pose proof (reshaped_trans _ _ _ _ _ _ Hr1 (reshaped_restate i after controls')) as Hr.
  destruct (pending_push m (pending_last_strong after) i c ok is_control not_pending) as [Hp1 Hp2].
  rewrite Hiss, app_nil_r.
  split; cbn [mo_controls mo_owners mo_intervals mo_pending]; rewrite ?(proj1 Hr).
  - unfold owners_bound. cbn. intros o (k & Ho)%elem_of_get. rewrite (proj1 Hr). unfold relocate in Ho.
    destruct (decide (id = k)) as [<-|].
    + rewrite (get_alter_eq _ _ _ _ is_owner) in Ho. injection Ho as <-. cbn. by eapply get_Some_lt.
    + rewrite get_alter_ne in Ho by done. apply ok, elem_of_get. by exists k.
  - rewrite Hiss in effect. eapply (counts_reshaped _ _ _ _ _ _ false); try done. intros j w. rewrite Hrel. cbn.
    pose proof (live_alter (fun o => with_location o Dropped) j w (mo_owners m) (N.to_nat id) owner is_owner) as H.
    unfold relocate. unfold counts, is_live in H. cbn in H. rewrite bool_decide_eq_false_2 in H by done.
    rewrite !andb_true_r, andb_false_r in H. lia.
  - apply drops_restate; [done|]. intros d Hd. apply drops_ok_state; [by apply Hdrops|..];
      destruct (proj2 Hr1 _ _ Hd) as (d0 & Ed & _ & _ & ->); rewrite decide_True by done.
    + by rewrite (he_held _ _ _ _ effect).
    + apply (he_positive _ _ _ _ effect).
  - intros o ow p Ho Hl. unfold relocate in Ho. destruct (decide (id = o)) as [<-|].
    + rewrite (get_alter_eq _ _ _ _ is_owner) in Ho. injection Ho as <-. done.
    + rewrite get_alter_ne in Ho by done. by eapply ok.
  - done.
  - done.
  - eapply intervals_reshaped; [apply ok|done..].
Qed.
End handle.

(** ** Destruction steps *)

Definition advance (c : Control) : Control :=
  mkControl (ct_payload c) (ct_state c) (ct_base c) (ct_drops c) (S (ct_next c)).

Lemma get_insert {A} (l : list A) i j x y :
  is_Some (get l i) -> get (<[N.to_nat i := x]> l) j = Some y <->
  (j = i /\ y = x) \/ (j <> i /\ get l j = Some y).
Proof.
  unfold get. intros Hi%lookup_lt_is_Some. destruct (decide (j = i)) as [->|Hne].
  - rewrite list_lookup_insert_eq by done. naive_solver.
  - rewrite list_lookup_insert_ne by lia. naive_solver.
Qed.

Lemma pending_control m i c :
  model_ok m -> i ∈ mo_pending m -> get (mo_controls m) i = Some c ->
  pending_last_strong (ct_state c) = true /\ allocated (ct_state c) = true /\
  strong_count (ct_state c) = 0%N /\ (0 < weak_count (ct_state c))%N.
Proof.
  intros Hm Hi Hc. destruct (mk_counts _ Hm i c Hc) as [Hv _ _ Hp]. apply Hp in Hi.
  unfold valid_control_state in Hv. rewrite Hi in Hv. split; [done|].
  destruct (allocated (ct_state c)); cbn in Hv; split_bools; done.
Qed.

Lemma next_drop_spec m id d :
  model_ok m -> next_drop m id d <> Err Abnormal /\
  forall m', next_drop m id d = Ok m' ->
    exists c, id ∈ mo_pending m /\ get (mo_controls m) id = Some c /\ ct_drops c !! ct_next c = Some d /\
      m' = set_controls m (<[N.to_nat id := advance c]> (mo_controls m)).
Proof.
  intros Hm. unfold next_drop. case_bool_decide as Hh; [|done]. cbn [negb].
  assert (id ∈ mo_pending m) as Hin.
  { destruct (mo_pending m) as [|x l]; [done|]. injection Hh as ->. left. }
  destruct (get_lt _ _ (mk_pending_bound _ Hm id Hin)) as [c Hc]. rewrite Hc.
  case_bool_decide as Hd; [|done]. cbn [negb]. split; [done|]. intros m' [= <-]. by exists c.
Qed.

Lemma advance_reshaped i c p d controls :
  get controls i = Some c -> get controls p = Some d ->
  reshaped i (ct_state c) controls (<[N.to_nat p := advance d]> controls).
Proof.
  intros Hc Hd. split; [unfold len; by rewrite length_insert|]. intros j c' Hj.
  apply get_insert in Hj as [[-> ->]|[Hne Hj]]; [| |by rewrite Hd].
  - exists d. split_and!; [done..|]. destruct (decide (p = i)) as [->|]; [|done]. cbn. congruence.
  - exists c'. split_and!; [done..|]. destruct (decide (j = i)) as [->|]; congruence.
Qed.

Lemma drops_relocate owners id owner j d :
  drops_ok owners j d -> get owners id = Some owner -> ow_location owner <> Payload j ->
  drops_ok (relocate id Dropped owners) j d.
Proof.
  intros [Hu Hr Hd Hi] Ho Hl. split; [done| |done..]. intros o. rewrite Hr, located_relocate by eauto.
  split; [|by intros [? _]]. intros Hlo. split; [done|]. intros ->. destruct Hlo as (ow & E & El). congruence.
Qed.

(** The step of a destruction keeps what its control promises. *)
Lemma advance_released m p d x :
  model_ok m -> p ∈ mo_pending m -> get (mo_controls m) p = Some d ->
  ct_drops d !! ct_next d = Some x ->
  (held (ct_state (advance d)) = false -> drop (ct_next (advance d)) (ct_drops (advance d)) = []) /\
  ((0 < strong_count (ct_state (advance d)))%N -> ct_next (advance d) = 0).
Proof.
  intros Hm Hp Hd Hx. destruct (pending_control m p d Hm Hp Hd) as (Hpe & _ & Hs & _). cbn.
  split; [|lia]. unfold held. rewrite Hpe, orb_true_r. done.
Qed.

Lemma drops_advance_handle m id owner p d :
  model_ok m -> get (mo_owners m) id = Some owner -> ow_location owner = Payload p ->
  p ∈ mo_pending m -> get (mo_controls m) p = Some d -> ct_drops d !! ct_next d = Some (DropHandle id) ->
  forall j c, get (<[N.to_nat p := advance d]> (mo_controls m)) j = Some c ->
    drops_ok (relocate id Dropped (mo_owners m)) j c.
Proof.
  intros Hm Ho Hl Hp Hd Hx j c Hj. apply get_insert in Hj as [[-> ->]|[Hne Hj]]; [| |by rewrite Hd].
  - destruct (mk_drops _ Hm p d Hd) as [Hu Hr _ _].
    destruct (advance_released m p d _ Hm Hp Hd Hx) as [H3 H4].
    rewrite (remaining_step _ _ Hx) in Hu. apply NoDup_cons in Hu as [Hnin Hu].
    split; [exact Hu| |exact H3|exact H4]. intros o. rewrite located_relocate by eauto. rewrite <- Hr.
    rewrite (remaining_step _ _ Hx), elem_of_cons. fold (advance d) in Hnin |- *. split.
    + intros Hin. split; [by right|]. intros ->. done.
    + intros [[->|?] Hne]; done.
  - eapply drops_relocate; [by apply (mk_drops _ Hm)|done|]. rewrite Hl. congruence.
Qed.

(** A node without handles *)
Lemma drop_node_ok m p d node :
  model_ok m -> p ∈ mo_pending m -> get (mo_controls m) p = Some d ->
  ct_drops d !! ct_next d = Some (DropNode node) ->
  model_ok (set_controls m (<[N.to_nat p := advance d]> (mo_controls m))).
Proof.
  intros Hm Hp Hd Hx. pose proof (advance_reshaped p d p d _ Hd Hd) as Hr.
  destruct (pending_control m p d Hm Hp Hd) as (_ & Hal & _ & _).
  split; cbn [set_controls mo_controls mo_owners mo_intervals mo_pending]; rewrite ?(proj1 Hr); try apply Hm.
  - unfold owners_bound. cbn. rewrite (proj1 Hr). apply Hm.
  - intros j c Hj. apply get_insert in Hj as [[-> ->]|[_ Hj]]; [exact (mk_counts _ Hm p d Hd)| |by rewrite Hd].
    by apply (mk_counts _ Hm).
  - intros j c Hj. apply get_insert in Hj as [[-> ->]|[_ Hj]]; [|by apply (mk_drops _ Hm)|by rewrite Hd].
    destruct (mk_drops _ Hm p d Hd) as [Hu Hr' _ _].
    destruct (advance_released m p d _ Hm Hp Hd Hx) as [H3 H4].
    rewrite (remaining_step_node _ _ Hx) in Hu, Hr'. by split.
  - pose proof (intervals_reshaped _ _ _ _ _ _ (mk_intervals _ Hm) Hr Hd Hal) as H. by rewrite Hal in H.
Qed.

(** ** [handle] *)

Lemma check_available_spec m operation owner :
  check_available m operation owner <> Err Abnormal /\
  (check_available m operation owner = Ok tt ->
     ow_location owner = External \/
     exists p, ow_location owner = Payload p /\ is_release operation = true).
Proof.
  unfold check_available. case_bool_decide; [done|]. destruct (mo_pending m) as [|p pending].
  - case_bool_decide; [|done]. split; [done|by left].
  - destruct (is_release operation); [|done]. case_bool_decide; [|done]. split; [done|]. right. by exists p.
Qed.

Lemma check_validated_spec claim :
  check_validated (validate_transition claim) <> Err Abnormal.
Proof. unfold validate_transition, transition_result. match goal with |- context [if ?b then _ else _] => by destruct b end. Qed.
Lemma check_validated_control operation before status b after u :
  check_validated (validate_transition (TcControl operation before status b after)) = Ok u ->
  validate_control_transition operation before status b after = true.
Proof. unfold validate_transition, transition_result. by destruct (validate_control_transition _ _ _ _ _). Qed.

(** The release of an accepted handle operation, with the destruction step of a
    payload-owned handle *)
Lemma release_step m id owner c operation after :
  model_ok m -> get (mo_owners m) id = Some owner -> get (mo_controls m) (ow_control owner) = Some c ->
  pending_last_strong (ct_state c) = false -> allocated (ct_state c) = true ->
  handle_effect operation false (ct_state c) after ->
  is_handle_operation operation = true -> is_weak_operation operation = ow_weak owner ->
  is_release operation = true ->
  ow_location owner = External \/ (exists p, ow_location owner = Payload p) ->
  let released := match ow_location owner with
                  | Payload pending => next_drop m pending (DropHandle id)
                  | _ => Ok m
                  end in
  released <> Err Abnormal /\
  forall m', released = Ok m' ->
    model_ok (apply_handle (set_owners m' (relocate id Dropped (mo_owners m'))) operation owner
                (ct_base c) false after).
Proof.
  intros Hm Ho Hc Hp Ha He Hop Hmode Hrel Hloc. destruct Hloc as [El|[p El]]; rewrite El; cbn.
  - split; [done|]. intros m' [= <-]. apply (release_ok m id owner c); try done; [by rewrite El| |].
    + split; [done|]. intros j c' Hj. exists c'. split_and!; [done..|].
      destruct (decide _) as [->|]; congruence.
    + intros j d Hd. eapply drops_relocate; [by apply (mk_drops _ Hm)|done|congruence].
  - destruct (next_drop_spec m p (DropHandle id) Hm) as [Hn Hs]. split; [done|].
    intros m' Hm'. destruct (Hs m' Hm') as (d & Hin & Hd & Hx & ->).
    apply (release_ok m id owner c); try done; [by rewrite El|by apply advance_reshaped|].
    by eapply drops_advance_handle.
Qed.

Lemma handle_spec m operation id status issued boolean after :
  model_ok m -> handle m operation id status issued boolean after <> Err Abnormal /\
  forall m', handle m operation id status issued boolean after = Ok m' -> model_ok m'.
Proof.
  intros Hm. unfold handle. destruct (get (mo_owners m) id) as [owner|] eqn:Ho; [|done]. cbn [ok_or mbind result_bind].
  destruct (check_available_spec m operation owner) as [Ha1 Ha2].
  destruct (check_available m operation owner) as [[]|f]; [|by destruct f]. specialize (Ha2 eq_refl).
  cbn [mbind result_bind].
  destruct (Bool.eqb (is_weak_operation operation) (ow_weak owner)) eqn:Emode; [|done]. destruct (is_handle_operation operation) eqn:Eop; [|done].
  apply Bool.eqb_prop in Emode. cbn [negb orb].
  assert (is_Some (get (mo_controls m) (ow_control owner))) as [c Hc].
  { apply get_lt, (mk_bound _ Hm), elem_of_get. by exists id. }
  rewrite Hc. destruct (pending_last_strong (ct_state c)) eqn:Ep; [done|].
  destruct (allocated (ct_state c)) eqn:Eal; [|done]. destruct (bool_decide (status = StAbiViolation)); [done|].
  cbn [negb orb].
  destruct (check_validated _) as [u|f] eqn:Ev; [|destruct f; [done|by apply check_validated_spec in Ev]].
  apply check_validated_control in Ev. cbn [mbind result_bind].
  set (issues := negb (is_release operation) && bool_decide (status = StOk)).
  assert (exists r, (if issues then n ← next_owner m; Ok (Some n) else Ok None) = r /\ r <> Err Abnormal) as [r [-> Hr]].
  { eexists. split; [done|]. destruct issues; [|done]. unfold next_owner. by destruct (try_u32 _). }
  destruct r as [expected|f]; [|by destruct f]. cbn [mbind result_bind].
  destruct (bool_decide (issued = expected)); [|done]. cbn [negb].
  destruct (is_release operation) eqn:Erel.
  - case_bool_decide as Est; [|done]. cbn [negb].
    assert (handle_effect operation false (ct_state c) after) as He.
    { replace false with (negb (is_release operation) && bool_decide (status = StOk)) by (by rewrite Erel).
      by apply (control_transition_effect operation (ct_state c) status boolean after). }
    destruct (release_step m id owner c operation after) as [Hn Hs]; try done.
    { destruct Ha2 as [?|(p & ? & _)]; eauto. }
    subst issues. cbn [negb andb] in *.
    destruct (match ow_location owner with Payload pending => _ | _ => _ end) as [m1|f]; [|by destruct f].
    split; [done|]. intros m' [= <-]. by apply Hs.
  - split; [done|]. intros m' [= <-]. apply (retain_ok m owner c); try done.
    subst issues. rewrite <- Erel. apply (control_transition_effect operation (ct_state c) status boolean after); try done.
    by rewrite Erel.
Qed.

(** ** [finish] *)

Lemma finish_after s b after :
  validate_control_transition StrongReleaseFinish s StOk b after = true ->
  valid_control_state after = true /\ (0 < weak_count s)%N /\
  after = mkControlState (strong_count s) (weak_count s - 1) false (payload_initialized s) (1 <? weak_count s)%N.
Proof.
  unfold validate_control_transition, control_transition_preflight.
  destruct (operation_accepts_status _ _); [|done].
  destruct (valid_control_state s); [|done]. destruct (valid_control_state after) eqn:Hv; [|done].
  rewrite (bool_decide_eq_true_2 (StOk = StOk)), (bool_decide_eq_true_2 (_ = StrongReleaseFinish)) by done.
  cbn [negb orb andb]. rewrite andb_false_r. intros H. split_bools. done.
Qed.

Section finishing.
Context (m : Model) (id : N) (c : Control) (rest : list N) (after : ControlState).
Context (ok : model_ok m) (head_pending : mo_pending m = id :: rest).
Context (is_control : get (mo_controls m) id = Some c) (destroyed : ct_next c = length (ct_drops c)).
Context (valid : valid_control_state after = true).
Context (is_after : after = mkControlState (strong_count (ct_state c)) (weak_count (ct_state c) - 1) false false
                              (1 <? weak_count (ct_state c))%N).

Lemma finishing_pending :
  pending_last_strong (ct_state c) = true /\ allocated (ct_state c) = true /\
  strong_count (ct_state c) = 0%N /\ (0 < weak_count (ct_state c))%N.
Proof. apply (pending_control m id c ok); [rewrite head_pending; left|done]. Qed.

Lemma finish_counts j c' :
  get (restate id after (mo_controls m)) j = Some c' -> counts_ok (mo_owners m) rest j (ct_state c').
Proof.
  intros Hj. pose proof (mk_pending_unique _ ok) as Hu. rewrite head_pending in Hu.
  apply NoDup_cons in Hu as [Hnin Hu]. destruct finishing_pending as (Hp & _ & Hs & Hw).
  destruct (proj2 (reshaped_restate id after (mo_controls m)) j c' Hj) as (d & Ed & _ & _ & ->).
  pose proof (mk_counts _ ok j d Ed) as H. destruct (decide (j = id)) as [->|Hne].
  - rewrite is_control in Ed. injection Ed as <-. destruct H as [_ H1 H2 _]. rewrite is_after in valid |- *.
    unfold held in H2 |- *. cbn [strong_count weak_count pending_last_strong].
    rewrite Hp, orb_true_r in H2. rewrite Hs in *. split; cbn [strong_count weak_count pending_last_strong]; try done.
    + cbn. lia.
  - eapply counts_ok_frame; [done|done|]. rewrite head_pending, elem_of_cons. naive_solver.
Qed.

Lemma finish_ok :
  model_ok (mkModel (restate id after (mo_controls m)) (mo_owners m)
    (if negb (allocated after) then delete (ct_base c) (mo_intervals m) else mo_intervals m)
    rest (mo_allocations m) (mo_nodes m)).
Proof.
  pose proof (reshaped_restate id after (mo_controls m)) as Hr.
  destruct finishing_pending as (Hp & Ha & Hs & Hw).
  split; cbn [mo_controls mo_owners mo_intervals mo_pending]; rewrite ?(proj1 Hr).
  - unfold owners_bound. cbn. rewrite (proj1 Hr). apply ok.
  - apply finish_counts.
  - apply drops_restate; [apply ok|]. intros d Hd. rewrite is_control in Hd. injection Hd as <-.
    destruct (mk_drops _ ok id c is_control) as [H1 H2 _ _]. split; [exact H1|exact H2| |].
    + intros _. cbn. by rewrite destroyed, drop_all.
    + rewrite is_after. cbn. lia.
  - apply ok.
  - pose proof (mk_pending_unique _ ok) as Hu. rewrite head_pending in Hu. by apply NoDup_cons in Hu as [_ ?].
  - intros j Hj. apply ok. rewrite head_pending. by right.
  - eapply intervals_reshaped; [apply ok|done..].
Qed.
End finishing.

Lemma finish_spec m id after :
  model_ok m -> finish m id after <> Err Abnormal /\
  forall m', finish m id after = Ok m' -> model_ok m'.
Proof.
  intros Hm. unfold finish. case_bool_decide as Hh; [|done]. cbn [negb].
  destruct (mo_pending m) as [|x rest] eqn:Ep; [done|]. injection Hh as ->.
  assert (id ∈ mo_pending m) as Hin by (rewrite Ep; left).
  destruct (get_lt _ _ (mk_pending_bound _ Hm id Hin)) as [c Hc]. rewrite Hc.
  destruct (Nat.eqb_spec (ct_next c) (length (ct_drops c))) as [Hd|]; [|done]. cbn [negb].
  destruct (check_validated _) as [u|f] eqn:Ev; [|destruct f; [done|by apply check_validated_spec in Ev]].
  apply check_validated_control, finish_after in Ev as (Hv & _ & He). cbn in He.
  cbn [mbind result_bind]. split; [done|]. intros m' [= <-].
  pose proof (finish_ok m id c rest after Hm Ep Hc Hd Hv He) as H.
  unfold set_pending, set_controls, set_intervals. cbn [mo_controls mo_owners mo_intervals mo_pending mo_allocations mo_nodes tail].
  by destruct (negb (allocated after)).
Qed.
