(* ===== verification/ControlConstruct.v ===== *)
(** * Construction preserves the ownership invariant *)
From stdpp Require Import base numbers list list_numbers strings gmap.
From S2P Require Import Prelude Source LayoutData RuntimeAbi ControlModel PayloadSound ControlInvariant.

(** A guard that rejects when it holds *)
Ltac pass_guard := match goal with |- context [if ?b then Err (Rejected _) else _] => destruct b; [done|]
                   | |- context [if ?b then Err budget else _] => destruct b; [done|]
                   | |- context [if ?b then Err (violation _) else _] => destruct b; [done|] end.

(** ** The neighbours of an interval *)

(** The entry of greatest rank among the kept ones *)
Lemma best_entry (keep : N -> bool) (replace : N -> N -> bool) (rank : N -> Z) (l : list (N * N)) :
  (forall x y, replace x y = (rank x <? rank y)%Z) ->
  match foldr (fun e best => if keep e.1 then
           match best with Some b => if replace b.1 e.1 then Some e else Some b | None => Some e end
         else best) None l with
  | Some (s, e) => ((s, e) ∈ l) /\ keep s = true /\
      forall s' e', (s', e') ∈ l -> keep s' = true -> (rank s' <= rank s)%Z
  | None => forall s' e', (s', e') ∈ l -> keep s' = false
  end.
Proof.
  intros Hr. induction l as [|[s0 e0] l IH]; cbn [foldr fst]; [by intros s' e' ?%not_elem_of_nil|].
  destruct (keep s0) eqn:Ek.
  - destruct (foldr _ _ _) as [[s e]|]; [destruct IH as (Hin & Hs & Hmax); cbn [fst]; rewrite Hr;
      destruct (Z.ltb_spec (rank s) (rank s0))|].
    + split_and!; [left|done|]. intros s' e' [[= -> ->]|Hin']%elem_of_cons Hb; [done|].
      specialize (Hmax s' e' Hin' Hb). lia.
    + split_and!; [by right|done|]. intros s' e' [[= -> ->]|Hin']%elem_of_cons Hb; [lia|by eapply Hmax].
    + split_and!; [left|done|]. intros s' e' [[= -> ->]|Hin']%elem_of_cons Hb; [done|].
      specialize (IH s' e' Hin'). congruence.
  - destruct (foldr _ _ _) as [[s e]|].
    + destruct IH as (Hin & Hs & Hmax). split_and!; [by right|done|].
      intros s' e' [[= -> ->]|Hin']%elem_of_cons Hb; [congruence|by eapply Hmax].
    + intros s' e' [[= -> ->]|Hin']%elem_of_cons; [done|by eapply IH].
Qed.

Lemma entry_below_spec i base :
  match entry_below i base with
  | Some (s, e) => i !! s = Some e /\ (s <= base)%N /\
      forall s' e', i !! s' = Some e' -> (s' <= base)%N -> (s' <= s)%N
  | None => forall s' e', i !! s' = Some e' -> (base < s')%N
  end.
Proof.
  pose proof (best_entry (fun x => (x <=? base)%N) N.ltb Z.of_N (map_to_list i)) as H.
  unfold entry_below. destruct (foldr _ _ _) as [[s e]|]; setoid_rewrite elem_of_map_to_list in H.
  - destruct H as (H1 & H2%N.leb_le & H3); [intros; destruct (N.ltb_spec x y), (Z.ltb_spec (Z.of_N x) (Z.of_N y)); lia|].
    split_and!; [done..|]. intros s' e' Hs Hb%N.leb_le. specialize (H3 s' e' Hs Hb). lia.
  - intros s' e' Hs. apply N.leb_gt. eapply H; [|done].
    intros x y; destruct (N.ltb_spec x y), (Z.ltb_spec (Z.of_N x) (Z.of_N y)); lia.
Qed.

Lemma entry_above_spec i base :
  match entry_above i base with
  | Some (s, e) => i !! s = Some e /\ (base <= s)%N /\
      forall s' e', i !! s' = Some e' -> (base <= s')%N -> (s <= s')%N
  | None => forall s' e', i !! s' = Some e' -> (s' < base)%N
  end.
Proof.
  pose proof (best_entry (fun x => (base <=? x)%N) (fun x y => (y <? x)%N) (fun x => - Z.of_N x)%Z
                (map_to_list i)) as H.
  unfold entry_above. destruct (foldr _ _ _) as [[s e]|]; setoid_rewrite elem_of_map_to_list in H.
  - destruct H as (H1 & H2%N.leb_le & H3);
      [intros; destruct (N.ltb_spec y x), (Z.ltb_spec (- Z.of_N x) (- Z.of_N y)); lia|].
    split_and!; [done..|]. intros s' e' Hs Hb%N.leb_le. specialize (H3 s' e' Hs Hb). lia.
  - intros s' e' Hs. apply N.leb_gt. eapply H; [|done].
    intros x y; destruct (N.ltb_spec y x), (Z.ltb_spec (- Z.of_N x) (- Z.of_N y)); lia.
Qed.

(** An accepted interval is nonempty and disjoint from every live one. *)
Lemma interval_accepted layouts m base size alignment end_ :
  intervals_ok (mo_controls m) (mo_intervals m) -> end_ = (base + size)%N ->
  interval_rejected layouts m base size alignment end_ = false ->
  (0 < base < end_)%N /\
  forall b e, mo_intervals m !! b = Some e -> (b < base /\ e <= base)%N \/ (base < b /\ end_ <= b)%N.
Proof.
  intros Hok -> H. unfold interval_rejected in H.
  repeat apply orb_false_iff in H as [H ?].
  apply N.eqb_neq in H. rename H0 into Habove, H1 into Hbelow. apply N.eqb_neq in H5.
  split; [lia|]. intros b e Hb. pose proof (io_nonempty _ _ Hok b e Hb) as Hne.
  destruct (N.le_gt_cases b base) as [Hle|Hgt].
  - left. pose proof (entry_below_spec (mo_intervals m) base) as Hspec.
    destruct (entry_below _ _) as [[s e0]|]; [|specialize (Hspec b e Hb); lia].
    destruct Hspec as (Hs & Hsb & Hmax). specialize (Hmax b e Hb Hle). apply N.ltb_ge in Hbelow.
    pose proof (io_nonempty _ _ Hok s e0 Hs).
    destruct (N.eq_dec b s) as [->|Hneq]; [rewrite Hs in Hb; injection Hb as <-; lia|].
    pose proof (io_disjoint _ _ Hok b e s e0 Hb Hs). lia.
  - right. pose proof (entry_above_spec (mo_intervals m) base) as Hspec.
    destruct (entry_above _ _) as [[s e0]|]; [|specialize (Hspec b e Hb); lia].
    destruct Hspec as (Hs & Hsb & Hmin). specialize (Hmin b e Hb). apply N.ltb_ge in Habove. lia.
Qed.

(** ** Moving handles into a payload *)

Definition moved (id : N) (handles : list N) (o : N) (owner : Owner) : Owner :=
  if decide (o ∈ handles) then with_location owner (Payload id) else owner.

Lemma move_handles_spec id drops owners :
  (forall o, o ∈ drop_handles drops -> (o < len owners)%N) ->
  exists owners', move_handles id drops owners = Ok owners' /\ len owners' = len owners /\
    forall o owner', get owners' o = Some owner' ->
      exists owner, get owners o = Some owner /\ owner' = moved id (drop_handles drops) o owner.
Proof.
  revert owners. induction drops as [|[h|n] drops IH]; intros owners Hb; cbn [move_handles].
  - exists owners. split_and!; [done..|]. intros o ow Ho. by exists ow.
  - assert (h < len owners)%N as Hh by (apply Hb; cbn; left). rewrite (proj2 (N.ltb_lt _ _) Hh).
    destruct (IH (relocate h (Payload id) owners)) as (owners' & -> & Hl & Hg).
    { intros o Ho. unfold relocate. rewrite len_alter. apply Hb. cbn. by right. }
    unfold relocate in Hl, Hg. rewrite len_alter in Hl.
    exists owners'. split_and!; [done..|]. intros o ow' Ho. destruct (Hg o ow' Ho) as (ow & Eo & ->).
    change (drop_handles (DropHandle h :: drops)) with (h :: drop_handles drops). unfold moved.
    destruct (decide (h = o)) as [<-|Hne].
    + destruct (get_lt _ _ Hh) as [ow0 E0]. rewrite (get_alter_eq _ _ _ _ E0) in Eo. injection Eo as <-.
      exists ow0. split; [done|]. rewrite (decide_True (P := h ∈ h :: _)) by left. by destruct (decide _).
    + rewrite get_alter_ne in Eo by done. exists ow. split; [done|].
      destruct (decide (o ∈ drop_handles drops)).
      * by rewrite decide_True by (by right).
      * by rewrite decide_False by (intros [->|?]%elem_of_cons; done).
  - apply IH. exact Hb.
Qed.

Section publication.
Context (m : Model) (ok : model_ok m) (no_pending : mo_pending m = []).
Context (ty : TypeId) (base end_ : N) (drops : list Drop) (owners : list Owner).
Notation id := (len (mo_controls m)).
Notation handles := (drop_handles drops).
Context (unique : NoDup handles) (all_external : Forall (external m) handles).
Context (same_length : len owners = len (mo_owners m)).
Context (was_moved : forall o owner', get owners o = Some owner' ->
  exists owner, get (mo_owners m) o = Some owner /\ owner' = moved id handles o owner).
Context (interval : (0 < base < end_)%N).
Context (disjoint : forall b e, mo_intervals m !! b = Some e ->
  (b < base /\ e <= base)%N \/ (base < b /\ end_ <= b)%N).

Lemma external_get o owner : o ∈ handles -> get (mo_owners m) o = Some owner -> ow_location owner = External.
Proof.
  intros Ho Hg. rewrite Forall_forall in all_external. destruct (all_external o Ho) as (ow & E & El). congruence.
Qed.

Lemma moved_get o owner : get (mo_owners m) o = Some owner -> get owners o = Some (moved id handles o owner).
Proof.
  intros Hg. pose proof (get_Some_lt _ _ _ Hg) as Hlt. rewrite <- same_length in Hlt.
  destruct (get_lt _ _ Hlt) as [ow' Ho]. destruct (was_moved o ow' Ho) as (ow & E & ->).
  rewrite Hg in E. injection E as <-. done.
Qed.

Lemma moved_same : Forall2 same_handle (mo_owners m) owners.
Proof.
  apply Forall2_same_length_lookup. split; [unfold len in same_length; lia|]. intros k o o' Ho Ho'.
  assert (get (mo_owners m) (N.of_nat k) = Some o) as Hg by (unfold get; by rewrite Nat2N.id).
  pose proof (moved_get _ _ Hg) as Hm. unfold get in Hm. rewrite Nat2N.id, Ho' in Hm. injection Hm as ->.
  unfold moved. destruct (decide _) as [Hin|]; [|done]. unfold same_handle, is_live. cbn.
  by rewrite (external_get _ _ Hin Hg).
Qed.

Lemma moved_location o p :
  located owners o (Payload p) <-> located (mo_owners m) o (Payload p) \/ (p = id /\ o ∈ handles).
Proof.
  split.
  - intros (ow' & Ho & El). destruct (was_moved o ow' Ho) as (ow & E & ->). unfold moved in El.
    destruct (decide _); [right; cbn in El; by injection El as ->|left; by exists ow].
  - intros [(ow & Ho & El)|[-> Hin]].
    + exists (moved id handles o ow). split; [by apply moved_get|]. unfold moved.
      destruct (decide _) as [Hin|]; [|done]. rewrite (external_get _ _ Hin Ho) in El. done.
    + rewrite Forall_forall in all_external. destruct (all_external o Hin) as (ow & E & El).
      exists (moved id handles o ow). split; [by apply moved_get|]. unfold moved. by rewrite decide_True.
Qed.

Lemma no_payload_of_new o : ~ located (mo_owners m) o (Payload id).
Proof. intros (ow & Ho & El). pose proof (mk_payload _ ok o ow _ Ho El). lia. Qed.

Lemma live_new w : live id w owners = 0%N.
Proof.
  rewrite <- (live_same _ _ _ _ moved_same). destruct (N.eq_dec (live id w (mo_owners m)) 0%N); [done|].
  destruct (live_ex id w (mo_owners m)) as (o & Ho & Hc); [lia|].
  apply counts_spec in Hc as (Hc & _ & _). pose proof (mk_bound _ ok o Ho). lia.
Qed.

Notation published := (mkModel (mo_controls m ++ [mkControl ty fresh_state base drops 0])
  (owners ++ [mkOwner id false External]) (<[base := end_]> (mo_intervals m)) (mo_pending m)
  (mo_allocations m) (mo_nodes m)).

Lemma publish_counts i c :
  get (mo_controls published) i = Some c -> counts_ok (mo_owners published) (mo_pending published) i (ct_state c).
Proof.
  cbn [mo_controls mo_owners mo_pending]. intros [Hi|[-> ->]]%get_snoc.
  - eapply counts_ok_frame; [by apply (mk_counts _ ok)| |done]. intros w. rewrite live_snoc, counts_new.
    rewrite <- (live_same _ _ _ _ moved_same). apply get_Some_lt in Hi.
    rewrite (proj2 (N.eqb_neq _ _)) by lia. cbn. lia.
  - split; cbn [ct_state]; rewrite ?live_snoc, ?counts_new, ?live_new, ?N.eqb_refl; try done.
    rewrite no_pending. split; [done|by intros ?%not_elem_of_nil].
Qed.

Lemma publish_drops i c : get (mo_controls published) i = Some c -> drops_ok (mo_owners published) i c.
Proof.
  cbn [mo_controls mo_owners]. intros [Hi|[-> ->]]%get_snoc.
  - destruct (mk_drops _ ok i c Hi) as [H1 H2 H3 H4]. split; [done| |done..]. intros o.
    rewrite located_snoc, moved_location, H2 by done. apply get_Some_lt in Hi. split; [by left|].
    intros [?|[-> _]]; [done|lia].
  - split; [exact unique| |done|done]. intros o. rewrite located_snoc, moved_location by done.
    unfold remaining. cbn. split; [by right|]. intros [H|[_ H]]; [by apply no_payload_of_new in H|done].
Qed.

Lemma publish_intervals : intervals_ok (mo_controls published) (mo_intervals published).
Proof.
  pose proof (mk_intervals _ ok) as [Ho Ha Hd Hn Hj]. cbn [mo_controls mo_intervals].
  assert (forall i c, get (mo_controls m) i = Some c -> allocated (ct_state c) = true -> ct_base c <> base) as Hfresh.
  { intros i c Hi Hal E. destruct (Ha i c Hi Hal) as [e He]. destruct (disjoint _ _ He); lia. }
  split.
  - intros b e [[<- <-]|[Hne Hb]]%lookup_insert_Some.
    + eexists id, _. split_and!; [apply get_snoc; by right|done|done].
    + destruct (Ho b e Hb) as (i & c & Hi & Hal & E). exists i, c. rewrite get_snoc. auto.
  - intros i c [Hi|[-> ->]]%get_snoc Hal; [|by rewrite lookup_insert_eq].
    rewrite lookup_insert_ne; [by eapply Ha|]. intros E. by eapply Hfresh.
  - intros i j c d [Hi|[-> ->]]%get_snoc [Hj'|[-> ->]]%get_snoc A1 A2 E; [by eapply Hd| | |done].
    + by destruct (Hfresh i c Hi A1).
    + by destruct (Hfresh j d Hj' A2).
  - intros b e [[<- <-]|[_ Hb]]%lookup_insert_Some; [done|by apply Hn].
  - intros b e b' e' [[<- <-]|[_ Hb]]%lookup_insert_Some [[<- <-]|[_ Hb']]%lookup_insert_Some Hlt; [lia| | |].
    + destruct (disjoint _ _ Hb'); lia.
    + destruct (disjoint _ _ Hb); lia.
    + by eapply Hj.
Qed.

Lemma publish_ok : model_ok published.
Proof.
  split.
  - unfold owners_bound. cbn. rewrite len_snoc. intros o (k & [Hk|[_ ->]]%get_snoc)%elem_of_get; [|cbn; lia].
    destruct (was_moved k o Hk) as (ow & E & ->).
    assert (ow_control ow < id)%N by (apply ok, elem_of_get; by exists k).
    unfold moved. destruct (decide _); cbn; lia.
  - apply publish_counts.
  - apply publish_drops.
  - cbn. rewrite len_snoc. intros o owner p [Ho|[_ ->]]%get_snoc El; [|done].
    assert (ow_control owner < id)%N as Hc.
    { destruct (was_moved o owner Ho) as (ow & E & ->).
      assert (ow_control ow < id)%N by (apply ok, elem_of_get; by exists o). unfold moved. by destruct (decide _). }
    assert (located owners o (Payload p)) as Hl by (by exists owner).
    apply moved_location in Hl as [(ow & E & El')|[-> _]]; [|lia].
    pose proof (mk_payload _ ok o ow p E El').
    destruct (was_moved o owner Ho) as (ow' & E' & Eq). rewrite E in E'. injection E' as <-.
    rewrite Eq. unfold moved. destruct (decide _); cbn; lia.
  - cbn. rewrite no_pending. constructor.
  - cbn. rewrite no_pending. by intros i ?%not_elem_of_nil.
  - apply publish_intervals.
Qed.
End publication.

(** ** [construct] *)

Lemma model_ok_counters m a n :
  model_ok m -> model_ok (mkModel (mo_controls m) (mo_owners m) (mo_intervals m) (mo_pending m) a n).
Proof. by intros [H1 H2 H3 H4 H5 H6 H7]; split. Qed.

Lemma publish_spec m ty base end_ drops control owner :
  model_ok m -> mo_pending m = [] -> NoDup (drop_handles drops) -> Forall (external m) (drop_handles drops) ->
  (0 < base < end_)%N ->
  (forall b e, mo_intervals m !! b = Some e -> (b < base /\ e <= base)%N \/ (base < b /\ end_ <= b)%N) ->
  publish m ty base end_ drops control owner <> Err Abnormal /\
  forall m', publish m ty base end_ drops control owner = Ok m' -> model_ok m'.
Proof.
  intros Hm Hp Hu He Hi Hd. unfold publish, next_owner, try_u32.
  destruct (len (mo_controls m) <=? u32_max)%N; [|done]. cbn [ok_or mbind result_bind].
  case_bool_decide; [|done]. destruct (len (mo_owners m) <=? u32_max)%N; [|done]. cbn [ok_or mbind result_bind negb].
  case_bool_decide; [|done]. cbn [negb].
  destruct (move_handles_spec (len (mo_controls m)) drops (mo_owners m)) as (owners & -> & Hl & Hg).
  { rewrite Forall_forall in He. intros o Ho. destruct (He o Ho) as (ow & E & _). by eapply get_Some_lt. }
  cbn [mbind result_bind]. split; [done|]. intros m' [= <-]. by apply publish_ok.
Qed.

Section with_authority.
Context (layouts : VerifiedLayouts) (abi : RuntimeAuthority).

Lemma construct_spec m ty nodes status base size alignment control owner :
  model_ok m ->
  construct layouts abi m ty nodes status base size alignment control owner <> Err Abnormal /\
  forall m', construct layouts abi m ty nodes status base size alignment control owner = Ok m' -> model_ok m'.
Proof.
  intros Hm. unfold construct. destruct (Nat.eqb_spec (length (mo_pending m)) 0) as [Hp|]; [|done]. cbn [negb].
  apply nil_length_inv in Hp. destruct (find _ _) as [layout|]; [|done]. cbn [ok_or mbind result_bind].
  pass_guard.
  destruct (payload_spec layouts m ty nodes (mk_bound _ Hm)) as [Hn Hs].
  destruct (payload layouts m ty nodes) as [[m1 drops]|f]; [|by destruct f]. destruct (Hs m1 drops eq_refl) as [_ -> _ _ Hu He].
  cbn [mbind result_bind with_nodes mo_controls mo_owners mo_intervals mo_pending mo_allocations mo_nodes].
  destruct (checked_add u64_max (mo_allocations m) 1) as [allocations|]; [|done]. cbn [ok_or mbind result_bind].
  set (m2 := mkModel _ _ _ _ _ _). assert (model_ok m2) as Hm2 by (by apply model_ok_counters).
  destruct (bool_decide (status = StOk)); cbn [negb].
  - pass_guard. unfold checked_add.
    destruct (base + size <=? u64_max)%N; [|done]. cbn [ok_or mbind result_bind].
    destruct (interval_rejected _ _ _ _ _ _) eqn:Ei; [done|].
    destruct (interval_accepted layouts m2 base size alignment _ (mk_intervals _ Hm2) eq_refl Ei) as [Hi Hd].
    by apply publish_spec.
  - pass_guard. split; [done|]. by intros m' [= <-].
Qed.

Lemma replay_spec m event :
  model_ok m -> replay layouts abi m event <> Err Abnormal /\
  forall m', replay layouts abi m event = Ok m' -> model_ok m'.
Proof.
  intros Hm. destruct event as [| |control node|]; cbn [replay].
  - by apply construct_spec.
  - by apply handle_spec.
  - destruct (next_drop_spec m control (DropNode node) Hm) as [Hn Hs]. split; [done|]. intros m' E.
    destruct (Hs m' E) as (c & Hin & Hc & Hx & ->). by eapply drop_node_ok.
  - by apply finish_spec.
Qed.

Lemma replay_events_spec events m index :
  model_ok m -> replay_events layouts abi m index events <> Err Abnormal /\
  forall m', replay_events layouts abi m index events = Ok m' -> model_ok m'.
Proof.
  revert m index. induction events as [|event events IH]; intros m index Hm; cbn [replay_events].
  { split; [done|]. by intros m' [= <-]. }
  destruct (negb _); [done|]. destruct (replay_spec m (ev_kind event) Hm) as [Hn Hs].
  destruct (replay _ _ m (ev_kind event)) as [m1|f]; [|by destruct f]. apply IH, Hs. done.
Qed.
End with_authority.
