(* ===== verification/ControlTheorems.v ===== *)
(** * Symbolic control traces: properties *)
From stdpp Require Import base numbers list list_numbers strings gmap.
From S2P Require Import Prelude Source LayoutData RuntimeAbi ControlModel PayloadSound ControlInvariant ControlConstruct.

(** ** Reachable models *)

Section reachable.
Context (layouts : VerifiedLayouts) (abi : RuntimeAuthority).

Definition replayed (events : list ControlEvent) (m : Model) : Prop :=
  replay_events layouts abi empty_model 0 events = Ok m.

Lemma replayed_ok events m : replayed events m -> model_ok m.
Proof. apply (replay_events_spec layouts abi events empty_model 0), empty_model_ok. Qed.
End reachable.

(** A live handle keeps its control allocated, and a live strong one its payload. *)
Lemma live_handle_control m o owner :
  model_ok m -> get (mo_owners m) o = Some owner -> ow_location owner <> Dropped ->
  exists c, get (mo_controls m) (ow_control owner) = Some c /\ allocated (ct_state c) = true /\
    (ow_weak owner = false -> payload_initialized (ct_state c) = true /\ ct_next c = 0).
Proof.
  intros Hm Ho Hl. assert (owner ∈ mo_owners m) as Hin by (apply elem_of_get; by exists o).
  destruct (get_lt _ _ (mk_bound _ Hm owner Hin)) as [c Hc]. exists c. split; [done|].
  destruct (mk_counts _ Hm _ c Hc) as [Hv Hs Hw _].
  assert (0 < live (ow_control owner) (ow_weak owner) (mo_owners m))%N as Hpos.
  { eapply live_pos; [done|]. by apply counts_spec. }
  unfold valid_control_state in Hv. destruct (allocated (ct_state c)) eqn:Ea.
  - split; [done|]. intros Ew. rewrite Ew, <- Hs in Hpos. split; [|by apply (mk_drops _ Hm _ c Hc)].
    cbn in Hv. destruct (pending_last_strong (ct_state c)); [split_bools; lia|].
    rewrite (proj2 (N.ltb_lt _ _) Hpos) in Hv. by split_bools.
  - cbn in Hv. split_bools. destruct (ow_weak owner); lia.
Qed.

Lemma allocated_has_handle m i c :
  model_ok m -> mo_pending m = [] -> get (mo_controls m) i = Some c -> allocated (ct_state c) = true ->
  exists owner, owner ∈ mo_owners m /\ ow_control owner = i /\ ow_location owner <> Dropped.
Proof.
  intros Hm Hp Hc Ha. destruct (mk_counts _ Hm i c Hc) as [Hv Hs Hw Hpe]. rewrite Hp in Hpe.
  assert (exists w, 0 < live i w (mo_owners m))%N as [w Hpos].
  { unfold valid_control_state in Hv. rewrite Ha in Hv. cbn in Hv. unfold held in Hw.
    destruct (pending_last_strong (ct_state c)).
    { exfalso. by apply (not_elem_of_nil i), Hpe. }
    destruct (N.ltb_spec 0 (strong_count (ct_state c))); split_bools; [exists false; lia|].
    exists true. cbn in Hw. lia. }
  destruct (live_ex _ _ _ Hpos) as (owner & Hin & Hcnt). apply counts_spec in Hcnt as (? & _ & ?).
  by exists owner.
Qed.

(** ** Reachability from the surviving handles *)

(** A control that an expected owner, or the payload of an anchored control, refers to *)
Inductive anchored (expected : list ExpectedOwner) (owners : list Owner) : N -> Prop :=
  | anchored_expected e : e ∈ expected -> anchored expected owners (eo_control e)
  | anchored_payload owner p :
      owner ∈ owners -> ow_location owner = Payload p -> anchored expected owners p ->
      anchored expected owners (ow_control owner).

Lemma surviving_spec id owners expected :
  surviving id owners <> Err Abnormal /\
  (surviving id owners = Ok expected ->
   forall owner, owner ∈ owners -> ow_location owner = External ->
     exists e, e ∈ expected /\ eo_control e = ow_control owner /\ eo_weak e = ow_weak owner).
Proof.
  revert id expected. induction owners as [|o owners IH]; intros id expected; cbn [surviving].
  { split; [done|]. by intros _ owner ?%not_elem_of_nil. }
  destruct (IH (id + 1)%N expected) as [Hn H]. case_bool_decide as He.
  - unfold try_u32. destruct (id <=? u32_max)%N; [|done]. cbn [ok_or mbind result_bind].
    destruct (surviving (id + 1) owners) as [rest|f] eqn:Er; [|by destruct f]. split; [done|].
    intros [= <-] owner [->|Hin]%elem_of_cons Hl.
    + eexists. split; [left|done].
    + destruct (IH (id + 1)%N rest) as [_ H']. rewrite Er in H'.
      destruct (H' eq_refl owner Hin Hl) as (e & ? & ?). exists e. split; [by right|done].
  - split; [done|]. intros Hs owner [->|Hin]%elem_of_cons Hl; [done|by apply H].
Qed.

Lemma live_anchored m expected :
  model_ok m -> mo_pending m = [] -> surviving 0 (mo_owners m) = Ok expected ->
  forall owner, owner ∈ mo_owners m -> ow_location owner <> Dropped ->
    anchored expected (mo_owners m) (ow_control owner).
Proof.
  intros Hm Hp Hs.
  assert (forall k owner, owner ∈ mo_owners m -> ow_location owner <> Dropped ->
    N.to_nat (len (mo_controls m) - ow_control owner) <= k -> anchored expected (mo_owners m) (ow_control owner))
    as Hk; [|by intros; eapply Hk].
  induction k as [|k IH]; intros owner Hin Hl Hlt; pose proof (mk_bound _ Hm owner Hin) as Hb; [lia|].
  destruct (ow_location owner) as [|p|] eqn:El; [| |done].
  - destruct (surviving_spec 0 (mo_owners m) expected) as [_ H].
    destruct (H Hs owner Hin El) as (e & He & <- & _). by apply anchored_expected.
  - apply (anchored_payload _ _ owner p Hin El).
    pose proof Hin as (o & Ho)%elem_of_get. pose proof (mk_payload _ Hm o owner p Ho El) as Hpl.
    destruct (get_lt (mo_controls m) p) as [c Hc]; [lia|].
    destruct (mk_drops _ Hm p c Hc) as [_ Hr Hrel _]. destruct (mk_counts _ Hm p c Hc) as [_ Hst _ Hpe].
    assert (0 < live p false (mo_owners m))%N as Hpos.
    { rewrite <- Hst. destruct (N.ltb_spec 0 (strong_count (ct_state c))) as [|Hz]; [done|]. exfalso.
      assert (o ∈ remaining c) as Hrem by (apply Hr; by exists owner).
      unfold remaining in Hrem. rewrite Hrel in Hrem; [by apply not_elem_of_nil in Hrem|].
      unfold held. apply orb_false_iff. split; [by apply N.ltb_ge|].
      destruct (pending_last_strong (ct_state c)); [|done]. rewrite Hp in Hpe.
      exfalso. by apply (not_elem_of_nil p), Hpe. }
    destruct (live_ex _ _ _ Hpos) as (o' & Hin' & Hcnt). apply counts_spec in Hcnt as (Ec & _ & Hl').
    rewrite <- Ec. apply IH; [done|done|]. rewrite Ec. lia.
Qed.

Lemma anchored_nil owners i : ~ anchored [] owners i.
Proof. induction 1; [by eapply not_elem_of_nil|done]. Qed.

Lemma verify_control_trace_inv layouts abi invocation expected trace v :
  verify_control_trace layouts abi invocation expected trace = Ok v ->
  exists m, replayed layouts abi (ctr_events trace) m /\ mo_pending m = [] /\
    surviving 0 (mo_owners m) = Ok expected /\
    v = mkVerifiedControlTrace invocation (ct_state <$> mo_controls m)
          (length (filter (fun o => ow_location o <> Dropped) (mo_owners m))).
Proof.
  unfold verify_control_trace. destruct (foreign_authority _ _ _ _); [done|].
  destruct (checked_model_count _ _ _); [|done]. cbn [mbind result_bind].
  destruct (replay_events _ _ _ _ _) as [m|] eqn:Er; [|done]. cbn [mbind result_bind].
  destruct (Nat.eqb_spec (length (mo_pending m)) 0) as [Hp%nil_length_inv|]; [|done]. cbn [negb].
  destruct (surviving 0 (mo_owners m)) as [owners|]  eqn:Es; [|done]. cbn [mbind result_bind].
  case_bool_decide as He; [|done]. cbn [negb]. intros [= <-]. subst owners. by exists m.
Qed.

(** ** A trace

    A [Shared<i32>] held by the payload of a second control, which is
    downgraded, destroyed and deallocated with its last weak handle. *)

Definition demo_id (n : N) : TypeId := mkTypeId [7%N] n.
Definition demo_layouts : VerifiedLayouts :=
  mkVerifiedLayouts 1 [7%N] Linear32V1
    [ mkLayoutRecord (demo_id 0) VkI32 4 4 0 0;
      mkLayoutRecord (demo_id 1) (VkShared (demo_id 0)) 4 4 5 3;
      mkLayoutRecord (demo_id 2) (VkShared (demo_id 3)) 4 4 5 3;
      mkLayoutRecord (demo_id 3)
        (VkStruct 0 0 [mkVerifiedField 0 (demo_id 0) 0; mkVerifiedField 1 (demo_id 1) 4]) 8 4 2 0 ]
    [9%N].
Definition demo_abi : RuntimeAuthority :=
  mkRuntimeAuthority [3%N] [7%N] [9%N] []
    match derive_metadata demo_layouts (mkVerifiedLayouts 1 [7%N] LinuxX8664V1 [] []) with
    | Ok (_, controls) => controls
    | Err _ => []
    end.

Definition demo_prefix : list ControlEventKind :=
  [ Construct (demo_id 0) [mkPayloadNode (demo_id 0) PkCopy] StOk 64 12 4 (Some 0%N) (Some 0%N);
    Construct (demo_id 3)
      [ mkPayloadNode (demo_id 0) PkCopy; mkPayloadNode (demo_id 1) (PkHandle 0);
        mkPayloadNode (demo_id 3) (PkChildren [0; 1]%N) ]
      StOk 80 16 4 (Some 1%N) (Some 1%N);
    Handle WeakDowngrade 1 StOk (Some 2%N) None (mkControlState 1 2 false true true) ].
Definition demo_suffix : list ControlEventKind :=
  [ Handle StrongReleaseBegin 1 StOk None (Some true) (mkControlState 0 2 true true true);
    Handle StrongReleaseBegin 0 StOk None (Some true) (mkControlState 0 1 true true true);
    Finish 0 (mkControlState 0 0 false false false);
    Finish 1 (mkControlState 0 1 false false true);
    Handle WeakRelease 2 StOk None (Some true) (mkControlState 0 0 false false false) ].
Definition demo_events (l : list ControlEventKind) : list ControlEvent :=
  imap (fun i k => mkControlEvent (N.of_nat i) k) l.
Definition demo_trace (l : list ControlEventKind) : ControlTrace :=
  mkControlTrace 5 [3%N] Linear32V1 (demo_events l).

(** The model after the prefix *)
Definition demo_model : Model :=
  match replay_events demo_layouts demo_abi empty_model 0 (demo_events demo_prefix) with
  | Ok m => m
  | Err _ => empty_model
  end.

Example demo_prefix_replays : replayed demo_layouts demo_abi (demo_events demo_prefix) demo_model.
Proof. vm_compute. reflexivity. Qed.

Definition demo_dead : ControlState := mkControlState 0 0 false false false.
Example demo_accepted :
  verify_control_trace demo_layouts demo_abi 5 [] (demo_trace (demo_prefix ++ demo_suffix)) =
  Ok (mkVerifiedControlTrace 5 [demo_dead; demo_dead] 0).
Proof. vm_compute. reflexivity. Qed.

(** ** Properties *)

(** C31: the replay of any control trace returns: no index is out of range, no
    payload topology loops or is left half visited, whatever the events claim. *)
Theorem control_trace_total (layouts : VerifiedLayouts) (abi : RuntimeAuthority) (invocation : N)
    (expected : list ExpectedOwner) (trace : ControlTrace) :
  verify_control_trace layouts abi invocation expected trace <> Err Abnormal.
Proof.
  unfold verify_control_trace. destruct (foreign_authority _ _ _ _); [done|].
  destruct (checked_model_count_spec 0 (len (ctr_events trace)) MAX_STATUS_TRANSITIONS) as [Hn _].
  destruct (checked_model_count _ _ _) as [n|f]; [|by destruct f]. cbn [mbind result_bind].
  destruct (replay_events_spec layouts abi (ctr_events trace) empty_model 0 empty_model_ok) as [Hr _].
  destruct (replay_events _ _ _ _ _) as [m|f]; [|by destruct f]. cbn [mbind result_bind].
  destruct (negb _); [done|]. destruct (surviving_spec 0 (mo_owners m) []) as [Hs _].
  destruct (surviving 0 (mo_owners m)) as [l|f]; [|by destruct f]. cbn [mbind result_bind].
  by destruct (negb _).
Qed.

(** C20: after any replayed prefix the strong count of a control is the number of
    its live strong handles, and the weak count that of its live weak ones, plus
    one while strong handles exist or their payload is being destroyed. *)
Theorem reference_counts_exact (layouts : VerifiedLayouts) (abi : RuntimeAuthority)
    (events : list ControlEvent) (m : Model) (i : N) (c : Control) :
  replayed layouts abi events m -> get (mo_controls m) i = Some c ->
  strong_count (ct_state c) = live i false (mo_owners m) /\
  weak_count (ct_state c) = (live i true (mo_owners m) + if held (ct_state c) then 1 else 0)%N.
Proof. intros Hm%replayed_ok Hc. by destruct (mk_counts _ Hm i c Hc). Qed.

Lemma reference_counts_exact_witness :
  exists c, get (mo_controls demo_model) 1 = Some c /\
    strong_count (ct_state c) = live 1 false (mo_owners demo_model).
Proof.
  eexists. split; [vm_compute; reflexivity|].
  exact (proj1 (reference_counts_exact demo_layouts demo_abi (demo_events demo_prefix) demo_model 1 _
                  demo_prefix_replays eq_refl)).
Defined.

(** C30: a live handle refers to an allocated control, and a live strong handle to
    one whose payload is initialized and whose destruction has not begun. *)
Theorem live_handle_safe (layouts : VerifiedLayouts) (abi : RuntimeAuthority)
    (events : list ControlEvent) (m : Model) (o : N) (owner : Owner) :
  replayed layouts abi events m -> get (mo_owners m) o = Some owner -> ow_location owner <> Dropped ->
  exists c, get (mo_controls m) (ow_control owner) = Some c /\ allocated (ct_state c) = true /\
    (ow_weak owner = false -> payload_initialized (ct_state c) = true /\ ct_next c = 0).
Proof. intros Hm%replayed_ok. by apply live_handle_control. Qed.

Lemma live_handle_safe_witness :
  exists owner c, get (mo_owners demo_model) 1 = Some owner /\
    get (mo_controls demo_model) (ow_control owner) = Some c /\ allocated (ct_state c) = true.
Proof.
  destruct (live_handle_safe demo_layouts demo_abi (demo_events demo_prefix) demo_model 1 _
              demo_prefix_replays eq_refl) as (c & Hc & Ha & _); [vm_compute; discriminate|].
  eexists _, c. split; [vm_compute; reflexivity|]. by split.
Defined.

(** the payload of a control owns exactly the handles it has still to
    release; nothing of it is released while a strong handle lives, and all of
    it is once the control is no longer held. *)
Theorem payload_lifetime (layouts : VerifiedLayouts) (abi : RuntimeAuthority)
    (events : list ControlEvent) (m : Model) (i : N) (c : Control) :
  replayed layouts abi events m -> get (mo_controls m) i = Some c ->
  (forall o, o ∈ remaining c <-> located (mo_owners m) o (Payload i)) /\
  ((0 < strong_count (ct_state c))%N -> ct_next c = 0) /\
  (held (ct_state c) = false -> drop (ct_next c) (ct_drops c) = []).
Proof. intros Hm%replayed_ok Hc. by destruct (mk_drops _ Hm i c Hc). Qed.

Lemma payload_lifetime_witness : located (mo_owners demo_model) 0 (Payload 1).
Proof.
  refine (proj1 (proj1 (payload_lifetime demo_layouts demo_abi (demo_events demo_prefix) demo_model 1 _
                          demo_prefix_replays eq_refl) 0%N) _).
  vm_compute. left.
Defined.

(** the memory of two allocated controls does not overlap. *)
Theorem live_allocations_disjoint (layouts : VerifiedLayouts) (abi : RuntimeAuthority)
    (events : list ControlEvent) (m : Model) (i j : N) (c d : Control) :
  replayed layouts abi events m -> get (mo_controls m) i = Some c -> get (mo_controls m) j = Some d ->
  i <> j -> allocated (ct_state c) = true -> allocated (ct_state d) = true ->
  exists e e', mo_intervals m !! ct_base c = Some e /\ mo_intervals m !! ct_base d = Some e' /\
    (ct_base c < e)%N /\ (ct_base d < e')%N /\ (e <= ct_base d \/ e' <= ct_base c)%N.
Proof.
  intros Hm%replayed_ok Hi Hj Hne Ac Ad. destruct (mk_intervals _ Hm) as [_ Ha Hd Hn Hdis].
  destruct (Ha i c Hi Ac) as [e He]. destruct (Ha j d Hj Ad) as [e' He']. exists e, e'.
  pose proof (Hn _ _ He). pose proof (Hn _ _ He'). split_and!; [done..|lia|lia|].
  destruct (N.lt_trichotomy (ct_base c) (ct_base d)) as [Hlt|[E|Hlt]].
  - left. by eapply Hdis.
  - exfalso. apply Hne. by eapply Hd.
  - right. by eapply Hdis.
Qed.

Lemma live_allocations_disjoint_witness :
  exists e e', mo_intervals demo_model !! 64%N = Some e /\ mo_intervals demo_model !! 80%N = Some e' /\
    (e <= 80 \/ e' <= 64)%N.
Proof.
  destruct (live_allocations_disjoint demo_layouts demo_abi (demo_events demo_prefix) demo_model 0 1 _ _
              demo_prefix_replays eq_refl eq_refl) as (e & e' & H1 & H2 & _ & _ & H3);
    [discriminate|vm_compute; reflexivity|vm_compute; reflexivity|].
  exists e, e'. by split_and!.
Defined.

(** C32: a payload that is accepted in a reachable model is a tree whose
    destruction order is the recursive one, children in reverse and a vector's
    storage last, and which releases each handle of its nodes exactly once. *)
Theorem payload_destruction_exact (layouts : VerifiedLayouts) (abi : RuntimeAuthority)
    (events : list ControlEvent) (m m' : Model) (ty : TypeId) (nodes : list PayloadNode) (drops : list Drop) :
  replayed layouts abi events m -> payload layouts m ty nodes = Ok (m', drops) ->
  drops = destruction layouts nodes (length nodes) (length nodes - 1) /\
  drop_handles drops ≡ₚ (nodes ≫= handles_of) /\ NoDup (drop_handles drops) /\
  Forall (external m) (drop_handles drops).
Proof.
  intros Hm%replayed_ok Hp. destruct (payload_spec layouts m ty nodes (mk_bound _ Hm)) as [_ H].
  by destruct (H _ _ Hp).
Qed.

Definition demo_payload : list PayloadNode :=
  [ mkPayloadNode (demo_id 0) PkCopy; mkPayloadNode (demo_id 1) (PkHandle 0);
    mkPayloadNode (demo_id 3) (PkChildren [0; 1]%N) ].
Definition demo_before : Model :=
  match replay_events demo_layouts demo_abi empty_model 0 (demo_events (take 1 demo_prefix)) with
  | Ok m => m
  | Err _ => empty_model
  end.
Lemma payload_destruction_exact_witness :
  destruction demo_layouts demo_payload 3 2 = [DropHandle 0].
Proof.
  symmetry. refine (proj1 (payload_destruction_exact demo_layouts demo_abi (demo_events (take 1 demo_prefix))
    demo_before (with_nodes demo_before 4) (demo_id 3) demo_payload [DropHandle 0] _ _)); vm_compute; reflexivity.
Defined.

(** when a trace is accepted, every control that is still allocated is
    reachable from the expected surviving owners through payloads. *)
Theorem control_trace_anchored (layouts : VerifiedLayouts) (abi : RuntimeAuthority) (invocation : N)
    (expected : list ExpectedOwner) (trace : ControlTrace) (v : VerifiedControlTrace) :
  verify_control_trace layouts abi invocation expected trace = Ok v ->
  exists m, replayed layouts abi (ctr_events trace) m /\ vct_states v = ct_state <$> mo_controls m /\
    forall i c, get (mo_controls m) i = Some c -> allocated (ct_state c) = true ->
      anchored expected (mo_owners m) i.
Proof.
  intros (m & Hr & Hp & Hs & ->)%verify_control_trace_inv. exists m. split_and!; [done..|].
  pose proof (replayed_ok _ _ _ _ Hr) as Hm. intros i c Hi Ha.
  destruct (allocated_has_handle m i c Hm Hp Hi Ha) as (owner & Hin & <- & Hl). by eapply live_anchored.
Qed.

Definition demo_survivors : list ExpectedOwner := [mkExpectedOwner 1 1 false; mkExpectedOwner 2 1 true].
Lemma control_trace_anchored_witness :
  exists m, replayed demo_layouts demo_abi (demo_events demo_prefix) m.
Proof.
  destruct (control_trace_anchored demo_layouts demo_abi 5 demo_survivors (demo_trace demo_prefix)
    (mkVerifiedControlTrace 5 [mkControlState 1 1 false true true; mkControlState 1 2 false true true] 3))
    as (m & Hm & _); [vm_compute; reflexivity|]. by exists m.
Defined.

(** C19: a trace that is accepted with no surviving owner has released every
    handle and deallocated every control. *)
Theorem control_trace_no_leaks (layouts : VerifiedLayouts) (abi : RuntimeAuthority) (invocation : N)
    (trace : ControlTrace) (v : VerifiedControlTrace) :
  verify_control_trace layouts abi invocation [] trace = Ok v ->
  vct_live_owners v = 0 /\ Forall (fun s => allocated s = false /\ strong_count s = 0%N /\ weak_count s = 0%N) (vct_states v).
Proof.
  intros (m & Hr & Hp & Hs & ->)%verify_control_trace_inv. pose proof (replayed_ok _ _ _ _ Hr) as Hm. cbn.
  pose proof (live_anchored m [] Hm Hp Hs) as Hl. split.
  - apply length_zero_iff_nil. apply elem_of_nil_inv. intros o [Hd Ho]%list_elem_of_filter.
    by eapply anchored_nil, Hl.
  - apply Forall_fmap, Forall_forall. intros c (i & Hi)%elem_of_get.
    destruct (allocated (ct_state c)) eqn:Ea.
    { destruct (allocated_has_handle m i c Hm Hp Hi Ea) as (owner & Hin & _ & Hd). 
      exfalso. by eapply anchored_nil, (Hl owner). }
    cbn. destruct (mk_counts _ Hm i c Hi) as [Hv _ _ _]. unfold valid_control_state in Hv.
    rewrite Ea in Hv. cbn in Hv. by split_bools.
Qed.

Lemma control_trace_no_leaks_witness : Forall (fun s => allocated s = false) [demo_dead; demo_dead].
Proof.
  destruct (control_trace_no_leaks demo_layouts demo_abi 5 (demo_trace (demo_prefix ++ demo_suffix))
    (mkVerifiedControlTrace 5 [demo_dead; demo_dead] 0)) as [_ H]; [vm_compute; reflexivity|].
  eapply Forall_impl; [exact H|]. by intros s [? _].
Defined.
