(* ===== verification/RuntimeTheorems.v ===== *)
(** * Ownership runtime ABI: properties

    Growth, alignment and single transitions, then derived metadata. *)
From stdpp Require Import base numbers list strings gmap.
From S2P Require Import Prelude Source LayoutData RuntimeAbi PayloadSound ControlInvariant.

(** ** Vector growth *)

Lemma vec_capacity_fits_spec capacity stride :
  vec_capacity_fits capacity stride = true <->
  (0 < stride)%N /\ (capacity <= MAX_VEC_ELEMENTS)%N /\ (capacity * stride <= MAX_DYNAMIC_ALLOCATION_BYTES)%N.
Proof.
  unfold vec_capacity_fits, checked_mul. rewrite !andb_true_iff, N.ltb_lt, N.leb_le.
  destruct (N.leb_spec (capacity * stride) u64_max) as [_|H]; [rewrite N.leb_le; tauto|].
  split; [by intros [_ ?]|]. intros (_ & _ & H'). unfold MAX_DYNAMIC_ALLOCATION_BYTES, u64_max in *. lia.
Qed.

(** The doubling loop ends at a capacity that holds the request. *)
Lemma reserve_loop_spec fuel candidate required stride :
  (0 < candidate)%N -> (candidate <= 2 * MAX_VEC_ELEMENTS)%N ->
  (required <= candidate * 2 ^ N.of_nat fuel)%N -> vec_capacity_fits required stride = true ->
  exists capacity, reserve_loop (S fuel) candidate required stride = Some capacity /\
    (required <= capacity)%N /\ vec_capacity_fits capacity stride = true /\
    (capacity = required \/ candidate <= capacity)%N.
Proof.
  revert candidate. induction fuel as [|fuel IH]; intros candidate Hpos Hmax Hreq Hfit; cbn [reserve_loop].
  - assert ((candidate <? required) = false)%N as -> by (apply N.ltb_ge; cbn in Hreq; lia).
    destruct (vec_capacity_fits candidate stride) eqn:E; eexists; (split; [done|]).
    + cbn in Hreq. split_and!; [lia|done|right; lia].
    + split_and!; [lia|done|by left].
  - destruct (N.ltb_spec candidate required) as [Hlt|Hge].
    + destruct (vec_capacity_fits candidate stride) eqn:E; cbn [negb].
      * apply vec_capacity_fits_spec in E as (_ & Hc & _). unfold checked_mul.
        assert ((candidate * 2 <=? u64_max) = true)%N as ->.
        { apply N.leb_le. unfold MAX_VEC_ELEMENTS, u64_max in *. lia. }
        cbn [mbind option_bind]. destruct (IH (candidate * 2)%N) as (cap & E & H1 & H2 & H3).
        { lia. } { lia. } { rewrite Nat2N.inj_succ, N.pow_succ_r' in Hreq. lia. } { done. }
        exists cap. split; [exact E|]. split_and!; [done..|]. destruct H3; [by left|right; lia].
      * exists required. split_and!; [done|lia|done|by left].
    + destruct (vec_capacity_fits candidate stride) eqn:E; eexists; (split; [done|]).
      * split_and!; [lia|done|right; lia].
      * split_and!; [lia|done|by left].
Qed.

Lemma reserve_capacity_spec old required stride :
  vec_capacity_fits old stride = true -> vec_capacity_fits required stride = true ->
  exists capacity, reserve_capacity old required stride = Some capacity /\
    (old <= capacity)%N /\ (required <= capacity)%N /\ vec_capacity_fits capacity stride = true /\
    (if (required <=? old)%N then capacity = old else capacity = required \/ (2 * old <= capacity)%N).
Proof.
  intros Ho Hr. unfold reserve_capacity. rewrite Ho, Hr. cbn [negb orb].
  destruct (N.leb_spec required old) as [|Hlt]; [by exists old|].
  assert (required <= MAX_VEC_ELEMENTS)%N as Hmax by (by apply vec_capacity_fits_spec in Hr as (_ & ? & _)).
  assert (old <= MAX_VEC_ELEMENTS)%N as Hmax' by (by apply vec_capacity_fits_spec in Ho as (_ & ? & _)).
  set (start := (if (old =? 0)%N then 4%N else (old * 2)%N)).
  assert (exists c, (if (old =? 0)%N then Some 4%N else checked_mul u64_max old 2) = Some c /\ c = start)
    as (c & -> & ->).
  { subst start. unfold checked_mul, MAX_VEC_ELEMENTS, u64_max in *.
    destruct (N.eqb_spec old 0); [by eexists|]. destruct (N.leb_spec (old * 2) 18446744073709551615); [by eexists|lia]. }
  assert (0 < start /\ 2 * old <= start /\ start <= 2 * MAX_VEC_ELEMENTS)%N as (H1 & H2 & H3).
  { subst start. unfold MAX_VEC_ELEMENTS in *. destruct (N.eqb_spec old 0); lia. }
  cbn [mbind option_bind].
  destruct (reserve_loop_spec 63 start required stride) as (cap & E & Hc & Hf & Hg); [done..| |done|].
  { unfold MAX_VEC_ELEMENTS in Hmax. assert (1048576 <= 2 ^ N.of_nat 63)%N by (vm_compute; discriminate). nia. }
  exists cap. split; [exact E|]. split_and!; [|done|done|]; destruct Hg; lia.
Qed.

(** ** Alignment *)

Lemma ldiff_multiple a k : N.ldiff a (2 ^ k - 1) = (a / 2 ^ k * 2 ^ k)%N.
Proof.
  replace (2 ^ k - 1)%N with (N.ones k) by (rewrite N.ones_equiv, N.sub_1_r; done).
  by rewrite N.ldiff_ones_r, N.shiftl_mul_pow2, N.shiftr_div_pow2.
Qed.

(** The least multiple of [2 ^ k] that is at least [value] *)
Lemma align_up_spec value k r :
  align_up value (2 ^ k) = Some r ->
  (value <= r)%N /\ (2 ^ k | r)%N /\ (r < value + 2 ^ k)%N /\ (r <= u64_max)%N.
Proof.
  assert (0 < 2 ^ k)%N as Hk by (apply N.neq_0_lt_0, N.pow_nonzero; lia).
  unfold align_up, checked_sub, checked_add.
  destruct (N.leb_spec 1 (2 ^ k)); [|lia]. cbn [mbind option_bind].
  destruct (N.leb_spec (value + (2 ^ k - 1)) u64_max) as [Hu|]; [|done]. cbn [mbind option_bind].
  intros [= <-]. rewrite ldiff_multiple.
  pose proof (N.div_mod (value + (2 ^ k - 1)) (2 ^ k)) as Hd.
  pose proof (N.mod_lt (value + (2 ^ k - 1)) (2 ^ k)) as Hm.
  split_and!; [|by exists ((value + (2 ^ k - 1)) / 2 ^ k)%N|..];
    generalize dependent ((value + (2 ^ k - 1)) / 2 ^ k)%N;
    generalize dependent ((value + (2 ^ k - 1)) mod 2 ^ k)%N; intros; nia.
Qed.

Lemma align_up_none value k :
  align_up value (2 ^ k) = None <-> (u64_max < value + (2 ^ k - 1))%N.
Proof.
  assert (0 < 2 ^ k)%N as Hk by (apply N.neq_0_lt_0, N.pow_nonzero; lia).
  unfold align_up, checked_sub, checked_add.
  destruct (N.leb_spec 1 (2 ^ k)); [|lia]. cbn [mbind option_bind].
  destruct (N.leb_spec (value + (2 ^ k - 1)) u64_max) as [Hu|Hu]; cbn [mbind option_bind].
  - split; [done|lia].
  - done.
Qed.

(** * Metadata derived from sealed layouts *)

(** ** Tables with one row per wanted key *)

Record table {E} (ok : E -> Prop) (key : E -> N) (wanted : list N) (seen : gset N) (rows : list E) : Prop := {
  tb_rows : Forall ok rows;
  tb_unique : NoDup (key <$> rows);
  tb_seen : forall i, i ∈ seen <-> i ∈ key <$> rows;
  tb_exact : forall i, i ∈ seen <-> i ∈ wanted }.

Section table.
Context {E : Type} (ok : E -> Prop) (key : E -> N).
Lemma table_empty : table ok key [] ∅ [].
Proof. split; [constructor|constructor|set_solver|set_solver]. Qed.
Lemma table_skip wanted seen rows i :
  table ok key wanted seen rows -> i ∈ seen -> table ok key (wanted ++ [i]) seen rows.
Proof.
  intros [H1 H2 H3 H4] Hi. split; [done..|]. intros j. rewrite elem_of_app, list_elem_of_singleton, H4.
  split; [by left|]. intros [?| ->]; [done|]. by apply H4.
Qed.
Lemma table_add wanted seen rows i e :
  table ok key wanted seen rows -> (i ∉ seen) -> ok e -> key e = i ->
  table ok key (wanted ++ [i]) ({[i]} ∪ seen) (rows ++ [e]).
Proof.
  intros [H1 H2 H3 H4] Hi He Hk. split.
  - apply Forall_app. by split; [|constructor].
  - rewrite fmap_app. apply NoDup_app. split_and!; [done| |apply NoDup_singleton].
    intros j Hj. cbn. rewrite list_elem_of_singleton. intros ->. apply Hi, H3. by rewrite <- Hk.
  - intros j. rewrite fmap_app, elem_of_union, elem_of_app, H3. cbn.
    rewrite elem_of_singleton, list_elem_of_singleton, Hk. tauto.
  - intros j. rewrite elem_of_union, elem_of_singleton, elem_of_app, list_elem_of_singleton, H4. tauto.
Qed.
End table.

(** ** Rows *)

Section layouts.
Context (layouts : VerifiedLayouts).

Definition aligned : Prop := Forall (fun r => exists k, lr_alignment r = (2 ^ k)%N) (vl_records layouts).

Record element_row (e : ElementLayoutRecord) : Prop := {
  er_target : el_target e = vl_target layouts;
  er_layout : exists r, type_by_id layouts (el_element e) = Some r /\ el_alignment e = lr_alignment r /\
    (0 < lr_size r <= el_stride e)%N /\ (lr_alignment r | el_stride e)%N /\
    (el_stride e < lr_size r + lr_alignment r)%N }.

(** A control block has two counters of four bytes, then its payload. *)
Record control_row (c : ControlLayoutRecord) : Prop := {
  cr_target : cl_target c = vl_target layouts;
  cr_layout : exists r, type_by_id layouts (cl_payload c) = Some r /\
    (4 <= cl_alignment c)%N /\ (lr_alignment r | cl_alignment c)%N /\
    (8 <= cl_payload_offset c)%N /\ (lr_alignment r | cl_payload_offset c)%N /\
    (cl_payload_offset c + lr_size r <= cl_size c <= u64_max)%N /\ (cl_alignment c | cl_size c)%N }.

Definition vec_refs (types : list LayoutRecord) : list N :=
  types ≫= fun ty => match lr_kind ty with VkVec e => [ti_index e] | _ => [] end.
Definition control_refs (types : list LayoutRecord) : list N :=
  types ≫= fun ty => match lr_kind ty with VkShared p | VkWeak p => [ti_index p] | _ => [] end.

(** The state of the loop after [types], over what an earlier target derived *)
Definition derived (es : list ElementLayoutRecord) (cs : list ControlLayoutRecord)
    (types : list LayoutRecord) (m : Metadata) : Prop :=
  (exists rows, md_elements m = es ++ rows /\
     table element_row (fun e => ti_index (el_element e)) (vec_refs types) (md_seen_elements m) rows) /\
  (exists rows, md_controls m = cs ++ rows /\
     table control_row (fun c => ti_index (cl_payload c)) (control_refs types) (md_seen_payloads m) rows).

Lemma alignment_power id r : aligned -> type_by_id layouts id = Some r -> exists k, lr_alignment r = (2 ^ k)%N.
Proof.
  unfold aligned, type_by_id. intros H. case_bool_decide; [|done]. intros Hr. unfold get in Hr.
  by apply (Forall_lookup_1 _ _ _ _ H Hr).
Qed.

Lemma max_power k : exists k', N.max (2 ^ k) 4 = (2 ^ k')%N /\ (2 ^ k | N.max (2 ^ k) 4)%N.
Proof.
  destruct (N.le_gt_cases 2 k) as [Hk|Hk].
  - exists k. assert (4 <= 2 ^ k)%N by (change 4%N with (2 ^ 2)%N; by apply N.pow_le_mono_r). split; [lia|].
    rewrite N.max_l by done. done.
  - exists 2%N. assert (k = 0 \/ k = 1)%N as [-> | ->] by lia; (split; [done|]).
    + by exists 4%N.
    + by exists 2%N.
Qed.

Lemma derive_vec_spec es cs types ty e m m' :
  aligned -> derived es cs types m -> lr_kind ty = VkVec e -> derive_vec layouts ty m = Ok m' ->
  derived es cs (types ++ [ty]) m'.
Proof.
  intros Hal [(rows & Em & Ht) (crows & Ec & Hc)] Hk. unfold derive_vec, referenced_type. rewrite Hk. cbn.
  unfold derived, vec_refs, control_refs. rewrite !bind_snoc, Hk, app_nil_r.
  case_bool_decide as Hseen.
  { intros [= <-]. split; [|by exists crows]. exists rows. split; [done|by apply table_skip]. }
  destruct (type_by_id layouts e) as [record|] eqn:Er; [|done]. cbn.
  destruct (N.eqb_spec (lr_size record) 0) as [|Hz]; [done|].
  destruct (align_up _ _) as [stride|] eqn:Ea; [|done]. cbn. intros [= <-]. cbn. split; [|by exists crows].
  eexists. split; [by rewrite Em, <- app_assoc|]. apply table_add; [done..| |done].
  destruct (alignment_power e record Hal Er) as [k Hp]. rewrite Hp in Ea.
  apply align_up_spec in Ea as (H1 & H2 & H3 & H4). split; [done|]. exists record. cbn. rewrite <- Hp in *.
  split_and!; [done|done|lia|done|done|lia].
Qed.

Lemma derive_control_spec es cs types ty p m m' :
  aligned -> derived es cs types m -> lr_kind ty = VkShared p \/ lr_kind ty = VkWeak p ->
  derive_control layouts ty m = Ok m' -> derived es cs (types ++ [ty]) m'.
Proof.
  intros Hal [(rows & Em & Ht) (crows & Ec & Hc)] Hk. unfold derive_control.
  assert (referenced_type ty = Some p) as -> by (unfold referenced_type; by destruct Hk as [-> | ->]). cbn [ok_or mbind result_bind].
  assert (vec_refs (types ++ [ty]) = vec_refs types) as Hv.
  { unfold vec_refs. rewrite bind_snoc. destruct Hk as [-> | ->]; by rewrite app_nil_r. }
  assert (control_refs (types ++ [ty]) = control_refs types ++ [ti_index p]) as Hcr.
  { unfold control_refs. rewrite bind_snoc. by destruct Hk as [-> | ->]. }
  unfold derived. rewrite Hv, Hcr. case_bool_decide as Hseen.
  { intros [= <-]. split; [by exists rows|]. exists crows. split; [done|by apply table_skip]. }
  destruct (type_by_id layouts p) as [record|] eqn:Er; [|done]. cbn [ok_or mbind result_bind].
  destruct (align_up 8 _) as [offset|] eqn:Eo; [|done]. cbn [ok_or mbind result_bind].
  destruct (checked_add _ _ _) as [unaligned|] eqn:Eu; [|done]. cbn [ok_or mbind result_bind].
  destruct (align_up unaligned _) as [sz|] eqn:Es; [|done]. cbn [ok_or mbind result_bind].
  intros [= <-]. cbn. split; [by exists rows|].
  eexists. split; [by rewrite Ec, <- app_assoc|]. apply table_add; [done..| |done].
  destruct (alignment_power p record Hal Er) as [k Hp]. rewrite Hp in Eo, Es.
  destruct (max_power k) as (k' & Hk' & Hdiv). rewrite Hk' in Es.
  apply align_up_spec in Eo as (O1 & O2 & _ & _). apply align_up_spec in Es as (S1 & S2 & _ & S4).
  unfold checked_add in Eu. destruct (_ <=? u64_max)%N; [|done]. injection Eu as <-.
  split; [done|]. exists record. cbn. rewrite Hp, Hk' in *. rewrite <- Hk' in *.
  split_and!; [done|lia|done|done|done|lia|done|done].
Qed.

Lemma derive_types_spec es cs types done m m' :
  aligned -> derived es cs done m -> derive_types layouts types m = Ok m' -> derived es cs (done ++ types) m'.
Proof.
  intros Hal. revert done m. induction types as [|ty types IH]; intros done m H; cbn [derive_types].
  { intros [= <-]. by rewrite app_nil_r. }
  intros E. replace (done ++ ty :: types) with ((done ++ [ty]) ++ types) by (by rewrite <- app_assoc).
  destruct (match category ty with CatVec => _ | CatShared | CatWeak => _ | _ => _ end) as [m1|] eqn:E1; [|done].
  apply (IH (done ++ [ty]) m1); [|exact E]. unfold category in E1.
  destruct (lr_kind ty) eqn:Hk; try (by eapply derive_vec_spec); try (eapply derive_control_spec; eauto; fail);
    injection E1 as <-; unfold derived, vec_refs, control_refs; rewrite !bind_snoc, Hk, !app_nil_r; exact H.
Qed.
End layouts.

(** * Ownership runtime ABI: properties *)

(** ** Single transitions *)

(** The validator's outcome once its preflight has passed *)
Lemma validate_preflight operation before status b after :
  validate_control_transition operation before status b after = true ->
  (status <> StOk -> control_bool_result_is_zero operation b = true) /\
  (pending_last_strong before = true -> operation <> StrongReleaseFinish ->
     status = StAbiViolation /\ after = before).
Proof.
  unfold validate_control_transition, control_transition_preflight. intros H.
  destruct (operation_accepts_status operation status); [|done].
  destruct (valid_control_state before); [|done]. destruct (valid_control_state after); [|done]. cbn [negb orb] in H.
  split.
  - intros Hs. rewrite (bool_decide_eq_false_2 (status = StOk)) in H by done.
    by destruct (control_bool_result_is_zero operation b).
  - intros Hp Hop. rewrite Hp, (bool_decide_eq_false_2 (operation = StrongReleaseFinish)) in H by done.
    cbn [negb andb] in H. destruct (_ && negb _) in H; [done|]. by split_bools.
Qed.

Lemma bool_zero_unique operation b b' :
  control_bool_result_is_zero operation b = true -> control_bool_result_is_zero operation b' = true -> b = b'.
Proof. by destruct operation; cbn; intros ->%bool_decide_eq_true ->%bool_decide_eq_true. Qed.

Lemma failure_unchanged operation before status b after :
  status <> StOk -> validate_control_transition operation before status b after = true -> after = before.
Proof.
  intros Hs H. destruct (validate_preflight _ _ _ _ _ H) as [_ Hp].
  unfold validate_control_transition in H. destruct (control_transition_preflight _ _ _ _ _) as [v|] eqn:E.
  - subst v. unfold control_transition_preflight in E. do 2 (case_match; [done|]). case_match; [|done].
    split_bools. apply Hp; [done|]. done.
  - destruct operation, status; try done; split_bools; done.
Qed.

(** A successful operation passes the preflight. *)
Lemma success_preflight operation before b after :
  validate_control_transition operation before StOk b after = true ->
  control_transition_preflight operation before StOk b after = None.
Proof.
  intros H. destruct (validate_preflight _ _ _ _ _ H) as [_ Hp].
  unfold validate_control_transition in H. destruct (control_transition_preflight _ _ _ _ _) as [v|] eqn:E; [|done].
  subst v. unfold control_transition_preflight in E. do 2 (case_match; [done|]). case_match; [|done].
  split_bools. by destruct Hp.
Qed.

Lemma success_deterministic operation before b b' after after' :
  validate_control_transition operation before StOk b after = true ->
  validate_control_transition operation before StOk b' after' = true ->
  b = b' /\ after = after'.
Proof.
  intros H H'. pose proof (success_preflight _ _ _ _ H) as E. pose proof (success_preflight _ _ _ _ H') as E'.
  unfold validate_control_transition in H, H'. rewrite E in H. rewrite E' in H'. clear E E'.
  destruct operation; try done; try (by split_bools; subst).
  - destruct (1 <? strong_count before)%N; [by split_bools; subst|].
    destruct (strong_count before =? 1)%N; [by split_bools; subst|done].
  - destruct (checked_sub _ _); [|done]. apply andb_true_iff in H as [[_ H]%andb_true_iff Ha].
    apply andb_true_iff in H' as [[_ H']%andb_true_iff Ha']. split_bools. by subst.
Qed.

(** ** Properties *)

(** the result of a control operation is determined by the operation, the
    state before it and its status. *)
Theorem control_transition_deterministic (operation : LogicalOperation) (before : ControlState)
    (status : RuntimeStatus) (b b' : option bool) (after after' : ControlState) :
  validate_control_transition operation before status b after = true ->
  validate_control_transition operation before status b' after' = true ->
  b = b' /\ after = after'.
Proof.
  destruct (decide (status = StOk)) as [->|Hs]; [apply success_deterministic|].
  intros H H'. split.
  - eapply bool_zero_unique; by eapply validate_preflight.
  - rewrite (failure_unchanged _ _ _ _ _ Hs H). symmetry. by eapply failure_unchanged.
Qed.

Lemma control_transition_deterministic_witness :
  Some true = Some true /\ mkControlState 0 1 true true true = mkControlState 0 1 true true true.
Proof.
  apply (control_transition_deterministic StrongReleaseBegin (mkControlState 1 1 false true true) StOk);
    vm_compute; reflexivity.
Defined.

(** C38: a control operation that reports a failure has changed nothing, and an
    operation on a control whose payload is being destroyed can only fail. *)
Theorem control_transition_failure_atomic (operation : LogicalOperation) (before : ControlState)
    (status : RuntimeStatus) (b : option bool) (after : ControlState) :
  validate_control_transition operation before status b after = true ->
  (status <> StOk -> after = before /\ control_bool_result_is_zero operation b = true) /\
  (pending_last_strong before = true -> operation <> StrongReleaseFinish -> status = StAbiViolation).
Proof.
  intros H. destruct (validate_preflight _ _ _ _ _ H) as [H1 H2]. split.
  - intros Hs. split; [by eapply failure_unchanged|by apply H1].
  - intros Hp Hop. by destruct (H2 Hp Hop).
Qed.

Lemma control_transition_failure_atomic_witness :
  validate_control_transition StrongClone (mkControlState 0 1 true true true) StAbiViolation None
    (mkControlState 0 1 true true true) = true /\ StAbiViolation = StAbiViolation.
Proof.
  split; [vm_compute; reflexivity|].
  apply (proj2 (control_transition_failure_atomic StrongClone (mkControlState 0 1 true true true)
    StAbiViolation None (mkControlState 0 1 true true true) eq_refl)); [reflexivity|discriminate].
Defined.

(** [reserve_capacity] grows exactly when both capacities fit the limits: the
    result holds the request, is itself within the limits, is the old capacity
    when that suffices, and otherwise at least doubles it or is the request. *)
Theorem reserve_capacity_exact (old required stride : N) :
  match reserve_capacity old required stride with
  | Some capacity =>
      vec_capacity_fits old stride = true /\ vec_capacity_fits required stride = true /\
      (old <= capacity)%N /\ (required <= capacity)%N /\ vec_capacity_fits capacity stride = true /\
      (if (required <=? old)%N then capacity = old else capacity = required \/ (2 * old <= capacity)%N)
  | None => vec_capacity_fits old stride = false \/ vec_capacity_fits required stride = false
  end.
Proof.
  destruct (vec_capacity_fits old stride) eqn:Ho;
    [|unfold reserve_capacity; rewrite Ho; by left].
  destruct (vec_capacity_fits required stride) eqn:Hr;
    [|unfold reserve_capacity; rewrite Ho, Hr; by right].
  by destruct (reserve_capacity_spec old required stride Ho Hr) as (capacity & -> & H).
Qed.

(** [align_up] to a power of two is the least multiple that is not below the
    value, and fails exactly when adding the mask leaves 64 bits. *)
Theorem align_up_exact (value k : N) :
  match align_up value (2 ^ k) with
  | Some r => (value <= r)%N /\ (2 ^ k | r)%N /\ (r < value + 2 ^ k)%N /\ (r <= u64_max)%N
  | None => (u64_max < value + (2 ^ k - 1))%N
  end.
Proof.
  destruct (align_up value (2 ^ k)) as [r|] eqn:E; [by apply align_up_spec|by apply align_up_none].
Qed.

(** the derived metadata has, per target, one row for each element type of a
    vector and one control block for each payload of a shared or weak handle;
    strides and offsets are aligned, and a control block has room for its
    counters and its payload. *)
Theorem derive_metadata_exact (linear32 linux : VerifiedLayouts)
    (elements : list ElementLayoutRecord) (controls : list ControlLayoutRecord) :
  aligned linear32 -> aligned linux -> derive_metadata linear32 linux = Ok (elements, controls) ->
  exists e1 e2 c1 c2 s1 s2 s3 s4, elements = e1 ++ e2 /\ controls = c1 ++ c2 /\
    table (element_row linear32) (fun e => ti_index (el_element e)) (vec_refs (vl_records linear32)) s1 e1 /\
    table (element_row linux) (fun e => ti_index (el_element e)) (vec_refs (vl_records linux)) s2 e2 /\
    table (control_row linear32) (fun c => ti_index (cl_payload c)) (control_refs (vl_records linear32)) s3 c1 /\
    table (control_row linux) (fun c => ti_index (cl_payload c)) (control_refs (vl_records linux)) s4 c2.
Proof.
  intros Ha Hb. unfold derive_metadata.
  destruct (derive_types linear32 _ _) as [m1|] eqn:E1; [|done]. cbn [mbind result_bind].
  destruct (derive_types linux _ _) as [m2|] eqn:E2; [|done]. cbn [mbind result_bind]. intros [= <- <-].
  apply (derive_types_spec linear32 [] [] _ [] _ _ Ha) in E1;
    [|split; eexists; (split; [done|apply table_empty])].
  destruct E1 as [(r1 & Er1 & T1) (q1 & Eq1 & U1)].
  apply (derive_types_spec linux (md_elements m1) (md_controls m1) _ [] _ _ Hb) in E2;
    [|split; exists []; (split; [by rewrite app_nil_r|apply table_empty])].
  destruct E2 as [(r2 & -> & T2) (q2 & -> & U2)]. rewrite Er1, Eq1.
  by exists r1, r2, q1, q2, (md_seen_elements m1), (md_seen_elements m2), (md_seen_payloads m1), (md_seen_payloads m2).
Qed.

Definition sample_id (n : N) : TypeId := mkTypeId [7%N] n.
Definition sample_layouts (target : StorageTarget) (word : N) : VerifiedLayouts :=
  mkVerifiedLayouts 1 [7%N] target
    [ mkLayoutRecord (sample_id 0) VkI32 4 4 0 0;
      mkLayoutRecord (sample_id 1) (VkVec (sample_id 0)) (3 * word) word 4 2;
      mkLayoutRecord (sample_id 2) (VkShared (sample_id 1)) word word 5 3;
      mkLayoutRecord (sample_id 3) (VkWeak (sample_id 1)) word word 6 4 ] [].
Lemma derive_metadata_exact_witness :
  exists elements controls,
    derive_metadata (sample_layouts Linear32V1 4) (sample_layouts LinuxX8664V1 8) = Ok (elements, controls) /\
    exists e1 e2, elements = e1 ++ e2.
Proof.
  assert (aligned (sample_layouts Linear32V1 4)) as Ha by (repeat constructor; by exists 2%N).
  assert (aligned (sample_layouts LinuxX8664V1 8)) as Hb.
  { constructor; [by exists 2%N|]. repeat constructor; by exists 3%N. }
  eexists _, _. split; [vm_compute; reflexivity|].
  destruct (derive_metadata_exact _ _ _ _ Ha Hb eq_refl) as (e1 & e2 & _ & _ & _ & _ & _ & _ & H & _).
  by exists e1, e2.
Defined.
