(* ===== verification/CfgAlgorithms.v ===== *)
(** * Graph algorithms of the ControlFlowV1 verifier
    ([crates/zryna-ir/src/control_flow_v1.rs])

    The iterative algorithms [verify_cfg] and [verify_call_graph] run:
    reachability, reverse postorder, the Cooper-Harvey-Kennedy dominator
    iteration, dominator-tree intervals, natural loops and the two queue-driven
    topological sorts.  A [Vec<Vec<usize>>] is a [list (list nat)]; an index
    expression [v[i]] is the total lookup [v.[i]], used by the callers only in
    range.  A [while] loop takes a fuel argument and is [None] when it runs out;
    the facts files show that the fuel given always suffices. *)
From stdpp Require Import base numbers list gmap.
From S2P Require Import Prelude.

(** [list.push] at an index of a vector of vectors: [v[i].push(x)] *)
Definition push_at {A} (i : nat) (x : A) (v : list (list A)) : list (list A) :=
  alter (fun l => l ++ [x]) i v.

Definition graph := list (list nat).

(** Number of edges *)
Definition edge_count (g : graph) : nat := sum_list (length <$> g).

(** ** [reachable_from_entry] *)

(** The stack is kept with its top first: pushing the successors in reverse
    order puts the first successor on top. *)
Fixpoint reach_loop (fuel : nat) (successors : graph) (reachable : list bool)
    (stack : list nat) : option (list bool) :=
  match fuel with
  | O => None
  | S fuel =>
      match stack with
      | [] => Some reachable
      | block :: stack =>
          if reachable.[block] then reach_loop fuel successors reachable stack
          else reach_loop fuel successors (<[block := true]> reachable)
                 (successors.[block] ++ stack)
      end
  end.

Definition reachable_from_entry (successors : graph) : list bool :=
  default [] (reach_loop (edge_count successors + 2) successors
                (replicate (length successors) false) [0]).

(** ** [immediate_dominators] *)

(** The depth-first postorder loop.  [order] accumulates finished nodes at its
    front, so it is already the [order.reverse()] of the source. *)
Fixpoint postorder_loop (fuel : nat) (successors : graph) (visited : list bool)
    (order : list nat) (stack : list (nat * nat)) : option (list nat) :=
  match fuel with
  | O => None
  | S fuel =>
      match stack with
      | [] => Some order
      | (node, child) :: stack =>
          match successors.[node] !! child with
          | Some next =>
              let stack := (node, S child) :: stack in
              if visited.[next] then postorder_loop fuel successors visited order stack
              else postorder_loop fuel successors (<[next := true]> visited) order
                     ((next, 0) :: stack)
          | None => postorder_loop fuel successors visited (node :: order) stack
          end
      end
  end.

Definition reverse_postorder (successors : graph) : option (list nat) :=
  let count := length successors in
  postorder_loop (edge_count successors + count + 1) successors
    (<[0 := true]> (replicate count false)) [] [(0, 0)].

(** [for (index, block) in order.iter().enumerate() { position[*block] = index; }] *)
Definition positions (count : nat) (order : list nat) : list nat :=
  foldl (fun position '(index, block) => <[block := index]> position)
    (replicate count 0) (enumerate order).

(** [while position[node] > position[other] { node = idom[node]; }].  An [idom]
    entry is [None] where the source holds [usize::MAX]. *)
Fixpoint climb (fuel : nat) (idom : list (option nat)) (position : list nat)
    (node other : nat) : option nat :=
  match fuel with
  | O => None
  | S fuel =>
      if Nat.ltb position.[other] position.[node] then
        parent ← idom.[node]; climb fuel idom position parent other
      else Some node
  end.

Fixpoint intersect_loop (fuel : nat) (idom : list (option nat)) (position : list nat)
    (left right : nat) : option nat :=
  match fuel with
  | O => None
  | S fuel' =>
      if Nat.eqb left right then Some left
      else
        left ← climb fuel idom position left right;
        right ← climb fuel idom position right left;
        intersect_loop fuel' idom position left right
  end.

Definition intersect (idom : list (option nat)) (position : list nat) (left right : nat)
    : option nat :=
  intersect_loop (2 * length position + 2) idom position left right.

(** One block of one pass: [None] when an [intersect] does not return *)
Definition dominator_step (predecessors : graph) (position : list nat)
    (idom : list (option nat)) (block : nat) : option (list (option nat) * bool) :=
  match filter (fun pred => is_Some idom.[pred]) predecessors.[block] with
  | [] => Some (idom, false)
  | candidate :: defined =>
      candidate ← foldl (fun c predecessor =>
                           c ← c; intersect idom position c predecessor)
                    (Some candidate) defined;
      if bool_decide (idom.[block] = Some candidate) then Some (idom, false)
      else Some (<[block := Some candidate]> idom, true)
  end.

(** One pass over [order.skip(1)] *)
Fixpoint dominator_pass (predecessors : graph) (position : list nat)
    (idom : list (option nat)) (blocks : list nat) : option (list (option nat) * bool) :=
  match blocks with
  | [] => Some (idom, false)
  | block :: blocks =>
      r ← dominator_step predecessors position idom block;
      r' ← dominator_pass predecessors position r.1 blocks;
      Some (r'.1, r.2 || r'.2)
  end.

(** [for _ in 0..count] *)
Fixpoint dominator_passes (n : nat) (predecessors : graph) (position : list nat)
    (idom : list (option nat)) (blocks : list nat) : option (list nat) :=
  match n with
  | O => None
  | S n =>
      r ← dominator_pass predecessors position idom blocks;
      if (r.2 : bool) then dominator_passes n predecessors position r.1 blocks
      else mapM id r.1
  end.

Definition immediate_dominators (successors predecessors : graph) : option (list nat) :=
  let count := length successors in
  order ← reverse_postorder successors;
  if negb (Nat.eqb (length order) count) then None
  else
    let position := positions count order in
    dominator_passes count predecessors position
      (<[0 := Some 0]> (replicate count None)) (drop 1 order).

(** ** [dominator_intervals] *)

Definition dominator_children (idom : list nat) : graph :=
  foldl (fun children block => push_at idom.[block] block children)
    (replicate (length idom) []) (seq 1 (length idom - 1)).

Record Intervals := mkIntervals { iv_entry : list nat; iv_exit : list nat; iv_clock : nat }.

Fixpoint interval_loop (fuel : nat) (children : graph) (s : Intervals)
    (stack : list (nat * bool)) : option Intervals :=
  match fuel with
  | O => None
  | S fuel =>
      match stack with
      | [] => Some s
      | (node, true) :: stack =>
          interval_loop fuel children
            (mkIntervals (iv_entry s) (<[node := iv_clock s]> (iv_exit s)) (S (iv_clock s)))
            stack
      | (node, false) :: stack =>
          interval_loop fuel children
            (mkIntervals (<[node := iv_clock s]> (iv_entry s)) (iv_exit s) (S (iv_clock s)))
            (((fun child => (child, false)) <$> children.[node]) ++ (node, true) :: stack)
      end
  end.

Definition dominator_intervals (idom : list nat) : list nat * list nat :=
  let n := length idom in
  match interval_loop (2 * n + 1) (dominator_children idom)
          (mkIntervals (replicate n 0) (replicate n 0) 0) [(0, false)] with
  | Some s => (iv_entry s, iv_exit s)
  | None => ([], [])
  end.

(** The closure [dominates] of [verify_cfg] *)
Definition dominates (intervals : list nat * list nat) (left right : nat) : bool :=
  Nat.leb (intervals.1).[left] (intervals.1).[right]
  && Nat.leb (intervals.2).[right] (intervals.2).[left].

(** ** Natural loops and reducibility ([verify_cfg]) *)

(** Edge of a control-flow graph, without its arguments *)
Definition cfg_edge := (nat * nat)%type.

(** The backward search that collects the members of one natural loop.  The
    predecessors are pushed in order, so the last one is on top. *)
Fixpoint loop_members (fuel : nat) (predecessors : graph) (header : nat)
    (members : list bool) (stack : list nat) : option (list bool) :=
  match fuel with
  | O => None
  | S fuel =>
      match stack with
      | [] => Some members
      | node :: stack =>
          if members.[node] then loop_members fuel predecessors header members stack
          else loop_members fuel predecessors header (<[node := true]> members)
                 (rev (filter (fun p => p <> header) predecessors.[node]) ++ stack)
      end
  end.

Record CfgFlow := mkCfgFlow {
  cf_forward : graph;
  cf_indegree : list nat;
  cf_loops : gmap nat (list bool) }.

(** One iteration of [for edge in edges]; [None] when a member search does not
    return *)
Definition classify_edge (count : nat) (predecessors : graph)
    (dom : nat -> nat -> bool) (f : CfgFlow) (edge : cfg_edge) : option CfgFlow :=
  let '(source, target) := edge in
  if dom target source then
    let members := default (replicate count false) (cf_loops f !! target) in
    members ← loop_members (edge_count predecessors + 2) predecessors target
                (<[target := true]> members) [source];
    Some (mkCfgFlow (cf_forward f) (cf_indegree f) (<[target := members]> (cf_loops f)))
  else
    Some (mkCfgFlow (push_at source target (cf_forward f))
            (alter S target (cf_indegree f)) (cf_loops f)).

Fixpoint classify_edges (count : nat) (predecessors : graph) (dom : nat -> nat -> bool)
    (f : CfgFlow) (edges : list cfg_edge) : option CfgFlow :=
  match edges with
  | [] => Some f
  | e :: edges =>
      f ← classify_edge count predecessors dom f e;
      classify_edges count predecessors dom f edges
  end.

(** Nodes whose in-degree is zero, in index order *)
Definition zero_degree (indegree : list nat) : list nat :=
  (enumerate indegree) ≫= (fun '(index, degree) => if Nat.eqb degree 0 then [index] else []).

(** Decrement the in-degree of one target and enqueue it at zero *)
Definition release_target (s : list nat * list nat) (target : nat) : list nat * list nat :=
  let degree := pred s.1.[target] in
  (<[target := degree]> s.1, if Nat.eqb degree 0 then s.2 ++ [target] else s.2).

(** The queue loop of [verify_cfg]: the number of nodes seen *)
Fixpoint topo_loop (fuel : nat) (forward : graph) (indegree : list nat) (queue : list nat)
    (seen : nat) : option nat :=
  match fuel with
  | O => None
  | S fuel =>
      match queue with
      | [] => Some seen
      | node :: queue =>
          let s := foldl release_target (indegree, queue) forward.[node] in
          topo_loop fuel forward s.1 s.2 (S seen)
      end
  end.

(** [maximum_nesting] *)
Definition nesting_at (loops : gmap nat (list bool)) (block : nat) : nat :=
  length (filter (fun '(_, members) => members.[block] = true) (map_to_list loops)).
Definition maximum_nesting (count : nat) (loops : gmap nat (list bool)) : nat :=
  max_list (nesting_at loops <$> seq 0 count).

(** ** Call-graph depth ([verify_call_graph]) *)

Record CallState := mkCallState {
  cs_depth : list nat; cs_indegree : list nat; cs_queue : list nat }.

Definition release_callee (caller : nat) (s : CallState) (callee : nat) : CallState :=
  let depth := <[callee := Nat.max (cs_depth s).[callee] (S (cs_depth s).[caller])]>
                 (cs_depth s) in
  let degree := pred (cs_indegree s).[callee] in
  mkCallState depth (<[callee := degree]> (cs_indegree s))
    (if Nat.eqb degree 0 then cs_queue s ++ [callee] else cs_queue s).

Fixpoint call_loop (fuel : nat) (successors : graph) (s : CallState) (seen : nat)
    : option (list nat * nat) :=
  match fuel with
  | O => None
  | S fuel =>
      match cs_queue s with
      | [] => Some (cs_depth s, seen)
      | function :: queue =>
          call_loop fuel successors
            (foldl (release_callee function)
               (mkCallState (cs_depth s) (cs_indegree s) queue) successors.[function])
            (S seen)
      end
  end.
