(* ===== verification/ControlFlow.v ===== *)
(** * The ControlFlowV1 IR and its verifier
    ([crates/zryna-ir/src/control_flow_v1.rs], [scalar_type.rs])

    The raw IR claims and [verify], with the complete diagnostics.  The mutable
    state of the verifier (the error buffer, the call list, and the value and
    edge vectors of the function being verified) is the record [St]. *)
From stdpp Require Import base numbers list strings pretty gmap.
From S2P Require Import Prelude Source Diagnostics Abi CfgAlgorithms.

(** ** Limits *)

Definition MAX_MODULES : N := 4096.
Definition MAX_FUNCTIONS_PER_MODULE : N := 4096.
Definition MAX_FUNCTIONS_PER_PROGRAM : N := 16384.
Definition MAX_PARAMETERS_PER_FUNCTION : N := 256.
Definition MAX_PARAMETERS_PER_PROGRAM : N := 262144.
Definition MAX_BLOCKS_PER_FUNCTION : N := 4096.
Definition MAX_BLOCKS_PER_PROGRAM : N := 65536.
Definition MAX_BLOCK_PARAMETERS : N := 256.
Definition MAX_VALUES_PER_FUNCTION : N := 16384.
Definition MAX_VALUES_PER_PROGRAM : N := 262144.
Definition MAX_CFG_EDGES_PER_FUNCTION : N := 8192.
Definition MAX_CFG_EDGES_PER_PROGRAM : N := 131072.
Definition MAX_CALL_EDGES : N := 65536.
Definition MAX_STATIC_CALL_DEPTH : N := 128.
Definition MAX_LOOP_NESTING : N := 128.
Definition MAX_DIAGNOSTICS : N := 256.

(** ** Raw claims *)

Inductive Ty := Unit | Bool | I32.
#[export] Instance Ty_eq_dec : EqDecision Ty.
Proof. solve_decision. Defined.

Definition ModuleId := N.
Record FunctionId := mkFunctionId { fid_module : ModuleId; fid_declaration : N }.
Definition BlockId := N.
Definition ValueId := N.

Record ValueDefinition := mkValueDefinition { vd_id : ValueId; vd_ty : Ty; vd_span : Span }.

Inductive InstructionKind :=
  | BoolLiteral (b : bool)
  | I32Literal (z : Z)
  | I32Add (lhs rhs : ValueId)
  | I32Sub (lhs rhs : ValueId)
  | I32Mul (lhs rhs : ValueId)
  | I32Neg (operand : ValueId)
  | Eq (lhs rhs : ValueId)
  | Ne (lhs rhs : ValueId)
  | I32LtS (lhs rhs : ValueId)
  | I32LeS (lhs rhs : ValueId)
  | I32GtS (lhs rhs : ValueId)
  | I32GeS (lhs rhs : ValueId)
  | DirectCall (callee : FunctionId) (arguments : list ValueId).

Record Instruction := mkInstruction { in_result : ValueDefinition; in_kind : InstructionKind }.

Inductive Terminator :=
  | Return (value : ValueId)
  | Jump (target : BlockId) (arguments : list ValueId)
  | Branch (condition : ValueId) (true_target : BlockId) (true_arguments : list ValueId)
           (false_target : BlockId) (false_arguments : list ValueId).

Record SpannedTerminator := mkSpannedTerminator { tm_span : Span; tm_kind : Terminator }.

Record Block := mkBlock {
  b_id : BlockId;
  b_parameters : list ValueDefinition;
  b_instructions : list Instruction;
  b_terminators : list SpannedTerminator }.

Record Function_ := mkFunction {
  f_id : FunctionId;
  f_entry_export : option string;
  f_span : Span;
  f_parameters : list ValueDefinition;
  f_result : Ty;
  f_blocks : list Block }.

Record Module_ := mkModule {
  m_id : ModuleId;
  m_source_file : FileId;
  m_functions : list Function_ }.

Record Program_ := mkProgram { p_entry_module : ModuleId; p_modules : list Module_ }.

#[export] Instance Instruction_inhabited : Inhabited Instruction.
Proof.
  exact (populate (mkInstruction (mkValueDefinition 0%N Unit (mkSpan (mkFileId 0 0) 0 0))
                     (BoolLiteral false))).
Defined.
#[export] Instance Block_inhabited : Inhabited Block := populate (mkBlock 0%N [] [] []).

(** ** Verifier state *)

Record FunctionKey := mkFunctionKey { fk_module : nat; fk_function : nat }.

Inductive DefinitionLocation :=
  | LocParameter
  | LocBlockParameter (block : nat)
  | LocInstruction (block position : nat).

Record ValueInfo := mkValueInfo { vi_ty : Ty; vi_location : DefinitionLocation }.

Record Edge := mkEdge { e_source : nat; e_target : nat; e_arguments : list ValueId }.

Record Errors := mkErrors { er_diagnostics : list Diagnostic; er_exhausted : bool }.

Record St := mkSt {
  st_errors : Errors;
  st_calls : list (FunctionKey * FunctionKey);
  st_values : list ValueInfo;
  st_edges : list Edge }.

Definition set_errors (f : Errors -> Errors) (s : St) : St :=
  mkSt (f (st_errors s)) (st_calls s) (st_values s) (st_edges s).
Definition push_call (c : FunctionKey * FunctionKey) (s : St) : St :=
  mkSt (st_errors s) (st_calls s ++ [c]) (st_values s) (st_edges s).
Definition push_value (v : ValueInfo) (s : St) : St :=
  mkSt (st_errors s) (st_calls s) (st_values s ++ [v]) (st_edges s).
Definition push_edge (e : Edge) (s : St) : St :=
  mkSt (st_errors s) (st_calls s) (st_values s) (st_edges s ++ [e]).
Definition reset_locals (s : St) : St := mkSt (st_errors s) (st_calls s) [] [].

(** ** Diagnostics *)

Definition error (code message guidance : string) : Diagnostic :=
  diag_error code None message guidance.
Definition error_at (code : string) (span : option Span) (message guidance : string)
    : Diagnostic :=
  match span with
  | Some span => diag_error_at code span message guidance
  | None => error code message guidance
  end.

(** [Errors::push] *)
Definition errors_push (d : Diagnostic) (e : Errors) : Errors :=
  if er_exhausted e then e
  else if (len (er_diagnostics e) <? MAX_DIAGNOSTICS - 1)%N then
    mkErrors (er_diagnostics e ++ [d]) false
  else
    mkErrors (er_diagnostics e ++
      [error "ZRYNA-I2202"
         ("ControlFlowV1 verification reached its diagnostic limit of " +:+
          pretty MAX_DIAGNOSTICS)
         "fix retained diagnostics before verifying again"]) true.

(** [Errors::limit_at] and [Errors::limit] *)
Definition errors_limit (label : string) (maximum : N) (e : Errors) : Errors :=
  if er_exhausted e then e
  else
    mkErrors (er_diagnostics e ++
      [error "ZRYNA-I2201"
         ("ControlFlowV1 " +:+ label +:+ " exceeds its limit of " +:+ pretty maximum)
         "reduce the program before IR verification"]) true.

Definition errors_is_empty (e : Errors) : bool :=
  match er_diagnostics e with [] => true | _ => false end.

Definition push (d : Diagnostic) : M St unit := modify (set_errors (errors_push d)).
Definition limit (label : string) (maximum : N) : M St unit :=
  modify (set_errors (errors_limit label maximum)).
(** [if errors.exhausted() { return; }] *)
Definition check_exhausted : M St unit := fun s =>
  if er_exhausted (st_errors s) then (s, None) else (s, Some tt).

(** ** [preflight]: resource limits *)

(** The error buffer and the program-wide counters of [preflight], with the
    per-function counters of the function being scanned *)
Record Pre := mkPre {
  pr_errors : Errors;
  pr_functions : N; pr_parameters : N; pr_blocks : N;
  pr_values : N; pr_edges : N; pr_calls : N;
  pr_function_values : N; pr_function_edges : N }.

Definition pre_limit (label : string) (maximum : N) : M Pre unit := modify (fun p =>
  mkPre (errors_limit label maximum (pr_errors p)) (pr_functions p) (pr_parameters p)
    (pr_blocks p) (pr_values p) (pr_edges p) (pr_calls p)
    (pr_function_values p) (pr_function_edges p)).
(** [errors.limit...; return;] *)
Definition pre_fail (label : string) (maximum : N) : M Pre unit :=
  pre_limit label maximum;; return_now.

Definition set_functions (n : N) : M Pre unit := modify (fun p =>
  mkPre (pr_errors p) n (pr_parameters p) (pr_blocks p) (pr_values p) (pr_edges p)
    (pr_calls p) (pr_function_values p) (pr_function_edges p)).
Definition set_parameters (n : N) : M Pre unit := modify (fun p =>
  mkPre (pr_errors p) (pr_functions p) n (pr_blocks p) (pr_values p) (pr_edges p)
    (pr_calls p) (pr_function_values p) (pr_function_edges p)).
Definition set_blocks (n : N) : M Pre unit := modify (fun p =>
  mkPre (pr_errors p) (pr_functions p) (pr_parameters p) n (pr_values p) (pr_edges p)
    (pr_calls p) (pr_function_values p) (pr_function_edges p)).
Definition set_values (n : N) : M Pre unit := modify (fun p =>
  mkPre (pr_errors p) (pr_functions p) (pr_parameters p) (pr_blocks p) n (pr_edges p)
    (pr_calls p) (pr_function_values p) (pr_function_edges p)).
Definition set_edges (n : N) : M Pre unit := modify (fun p =>
  mkPre (pr_errors p) (pr_functions p) (pr_parameters p) (pr_blocks p) (pr_values p) n
    (pr_calls p) (pr_function_values p) (pr_function_edges p)).
Definition set_calls (n : N) : M Pre unit := modify (fun p =>
  mkPre (pr_errors p) (pr_functions p) (pr_parameters p) (pr_blocks p) (pr_values p)
    (pr_edges p) n (pr_function_values p) (pr_function_edges p)).
Definition set_function_values (n : N) : M Pre unit := modify (fun p =>
  mkPre (pr_errors p) (pr_functions p) (pr_parameters p) (pr_blocks p) (pr_values p)
    (pr_edges p) (pr_calls p) n (pr_function_edges p)).
Definition set_function_edges (n : N) : M Pre unit := modify (fun p =>
  mkPre (pr_errors p) (pr_functions p) (pr_parameters p) (pr_blocks p) (pr_values p)
    (pr_edges p) (pr_calls p) (pr_function_values p) n).

Definition checked_sum (current extra : N) (label : string) : M Pre N :=
  match checked_add u64_max current extra with
  | Some n => mret n
  | None => pre_limit label u64_max;; mret u64_max
  end.

(** [add_total]: [true] when the maximum is exceeded; the caller returns *)
Definition add_total (read : Pre -> N) (write : N -> M Pre unit) (extra maximum : N)
    (label : string) : M Pre unit :=
  current ← gets read;
  n ← checked_sum current extra label;
  write n;;
  when (maximum <? n)%N (pre_fail label maximum).

Definition is_direct_call (k : InstructionKind) : bool :=
  match k with DirectCall _ _ => true | _ => false end.

Definition call_argument_count (k : InstructionKind) : N :=
  match k with DirectCall _ arguments => len arguments | _ => 0 end.

Definition function_label (m f : nat) (what : string) : string :=
  "function #" +:+ pretty m +:+ ":" +:+ pretty f +:+ what.

(** The argument counts of a terminator *)
Definition preflight_arguments (t : Terminator) : M Pre unit :=
  match t with
  | Return _ => mret tt
  | Jump _ arguments =>
      when (MAX_BLOCK_PARAMETERS <? len arguments)%N
        (pre_fail "jump argument count" MAX_BLOCK_PARAMETERS)
  | Branch _ _ true_arguments _ false_arguments =>
      when (MAX_BLOCK_PARAMETERS <? len true_arguments)%N
        (pre_fail "true branch argument count" MAX_BLOCK_PARAMETERS);;
      when (MAX_BLOCK_PARAMETERS <? len false_arguments)%N
        (pre_fail "false branch argument count" MAX_BLOCK_PARAMETERS)
  end.

Definition preflight_terminator (m f : nat) (t : Terminator) : M Pre unit :=
  preflight_arguments t;;
  current ← gets pr_function_edges;
  n ← checked_sum current
        (match t with Return _ => 0 | Jump _ _ => 1 | Branch _ _ _ _ _ => 2 end)
        "CFG edge count";
  set_function_edges n;;
  when (MAX_CFG_EDGES_PER_FUNCTION <? n)%N
    (pre_fail (function_label m f " CFG edge count") MAX_CFG_EDGES_PER_FUNCTION).

Definition preflight_block (m f : nat) (block : Block) : M Pre unit :=
  when (MAX_BLOCK_PARAMETERS <? len (b_parameters block))%N
    (pre_fail "block parameter count" MAX_BLOCK_PARAMETERS);;
  current ← gets pr_function_values;
  n ← checked_sum current (len (b_parameters block)) "value count";
  n ← checked_sum n (len (b_instructions block)) "value count";
  set_function_values n;;
  when (MAX_VALUES_PER_FUNCTION <? n)%N
    (pre_fail (function_label m f " value count") MAX_VALUES_PER_FUNCTION);;
  current ← gets pr_calls;
  n ← checked_sum current
        (len (filter (fun i => is_direct_call (in_kind i) = true) (b_instructions block)))
        "call edge count";
  set_calls n;;
  when (MAX_CALL_EDGES <? n)%N (pre_fail "call edge count" MAX_CALL_EDGES);;
  for_each (b_instructions block) (fun i =>
    when (MAX_PARAMETERS_PER_FUNCTION <? call_argument_count (in_kind i))%N
      (pre_fail "direct-call argument count" MAX_PARAMETERS_PER_FUNCTION));;
  match b_terminators block with
  | [t] => preflight_terminator m f (tm_kind t)
  | _ => mret tt
  end.

Definition preflight_function (m f : nat) (function : Function_) : M Pre unit :=
  when (MAX_PARAMETERS_PER_FUNCTION <? len (f_parameters function))%N
    (pre_fail (function_label m f " parameter count") MAX_PARAMETERS_PER_FUNCTION);;
  add_total pr_parameters set_parameters (len (f_parameters function))
    MAX_PARAMETERS_PER_PROGRAM "parameter count";;
  when ((len (f_blocks function) =? 0) || (MAX_BLOCKS_PER_FUNCTION <? len (f_blocks function)))%N
    (pre_fail (function_label m f " block count") MAX_BLOCKS_PER_FUNCTION);;
  add_total pr_blocks set_blocks (len (f_blocks function)) MAX_BLOCKS_PER_PROGRAM "block count";;
  set_function_values (len (f_parameters function));;
  set_function_edges 0;;
  for_each (f_blocks function) (preflight_block m f);;
  values ← gets pr_function_values;
  add_total pr_values set_values values MAX_VALUES_PER_PROGRAM "value count";;
  edges ← gets pr_function_edges;
  add_total pr_edges set_edges edges MAX_CFG_EDGES_PER_PROGRAM "CFG edge count".

Definition preflight_module (m : nat) (module : Module_) : M Pre unit :=
  when (MAX_FUNCTIONS_PER_MODULE <? len (m_functions module))%N
    (pre_fail ("module #" +:+ pretty m +:+ " function count") MAX_FUNCTIONS_PER_MODULE);;
  add_total pr_functions set_functions (len (m_functions module))
    MAX_FUNCTIONS_PER_PROGRAM "function count";;
  for_each (enumerate (m_functions module)) (fun '(f, function) =>
    preflight_function m f function).

Definition preflight (program : Program_) (errors : Errors) : Errors :=
  match p_modules program with
  | [] => errors_push (error "ZRYNA-I2001" "ControlFlowV1 program has no entry module"
                         "provide the complete nonempty final module closure") errors
  | modules =>
      if (MAX_MODULES <? len modules)%N then errors_limit "module count" MAX_MODULES errors
      else
        pr_errors ((for_each (enumerate modules) (fun '(m, module) => preflight_module m module);;
                    calls ← gets pr_calls;
                    when (MAX_CALL_EDGES <? calls)%N (pre_limit "call edge count" MAX_CALL_EDGES))
                     (mkPre errors 0 0 0 0 0 0 0 0)).1
  end.

(** ** [verify_modules] *)

(** [errors.push(...); if errors.exhausted() { return; }] *)
Definition push_checked (d : Diagnostic) : M St unit := push d;; check_exhausted.

Definition verify_modules (program : Program_) (sources : SourceMap) (expected_entry : FileId)
    : M St unit :=
  check_exhausted;;
  when (negb (len (p_modules program) =? sm_len sources)%N)
    (push_checked (error "ZRYNA-I2001"
       "module inventory does not exactly match the final source map"
       "provide every final source module exactly once in normalized path order"));;
  when (negb (bool_decide (m_source_file <$> get (p_modules program) (p_entry_module program)
                           = Some expected_entry))
        || negb (bool_decide (is_Some (sm_source sources expected_entry))))
    (push_checked (error "ZRYNA-I2002"
       "entry module is not bound to the independently supplied entry source"
       "use the exact entry FileId issued by the final SourceMap"));;
  for_each (enumerate (p_modules program)) (fun '(module_index, module) =>
    let expected_id := N.of_nat module_index in
    let expected_file := result_ok (verify_file_id sources expected_id) in
    when (negb (m_id module =? expected_id)%N
          || negb (bool_decide (expected_file = Some (m_source_file module))))
      (push_checked (error "ZRYNA-I2001"
         ("module #" +:+ pretty module_index +:+
          " has a noncanonical identity or source authority")
         "order dense modules by final normalized source path"));;
    for_each (enumerate (m_functions module)) (fun '(function_index, function) =>
      when (negb (fid_module (f_id function) =? m_id module)%N
            || negb (fid_declaration (f_id function) =? N.of_nat function_index)%N)
        (push_checked (error "ZRYNA-I2003"
           (function_label module_index function_index " has a noncanonical identity")
           "use its containing module and dense source declaration index"));;
      when (negb (m_id module =? p_entry_module program)%N
            && bool_decide (is_Some (f_entry_export function)))
        (push_checked (error "ZRYNA-I2004"
           ("dependency " +:+ function_label module_index function_index
              " claims a public entry export")
           "only entry-module exports may enter scalar ABI v1")))).

(** ** Values and operands *)

Definition Signatures := list (list (list Ty * Ty)).

Definition collect_signatures (program : Program_) : Signatures :=
  (fun module => (fun function => (vd_ty <$> f_parameters function, f_result function))
                   <$> m_functions module) <$> p_modules program.

Definition validate_type (ty : Ty) (span : option Span) (label : string) : M St unit :=
  body (check_exhausted;;
        when (bool_decide (ty = Unit))
          (push (error_at "ZRYNA-I2009" span (label +:+ " uses unsupported unit type")
             "ControlFlowV1 admits only bool and i32 values"))).

Definition validate_span (span : Span) (module_file : FileId) (sources : SourceMap) : M St bool :=
  exhausted ← gets (fun s => er_exhausted (st_errors s));
  if (exhausted : bool) then mret false
  else match resolve sources span with
  | Ok resolved =>
      if bool_decide (sf_id (rs_source resolved) = module_file) then mret true
      else
        push (error "ZRYNA-I2023" "IR span belongs to a different module source file"
                "bind every function, value, instruction, and terminator span to its containing module");;
        mret false
  | Err source_error => push (from_source_error source_error);; mret false
  end.

(** The spans [verify_function] validates, in its order *)
Definition function_spans (function : Function_) : list Span :=
  f_span function :: (vd_span <$> f_parameters function) ++
  (f_blocks function ≫= fun block =>
     (vd_span <$> b_parameters block)
     ++ ((fun i => vd_span (in_result i)) <$> b_instructions block)
     ++ match b_terminators block with [t] => [tm_span t] | _ => [] end).

(** [spans_valid &= validate_span(...); if errors.exhausted() { return; }] *)
Fixpoint validate_spans (spans : list Span) (module_file : FileId) (sources : SourceMap)
    (spans_valid : bool) : M St bool :=
  match spans with
  | [] => mret spans_valid
  | span :: spans =>
      valid ← validate_span span module_file sources;
      check_exhausted;;
      validate_spans spans module_file sources (spans_valid && valid)
  end.

Definition define_value (definition : ValueDefinition) (location : DefinitionLocation)
    : M St unit :=
  body (check_exhausted;;
        values ← gets st_values;
        let expected := len values in
        when (negb (vd_id definition =? expected)%N)
          (push_checked (error "ZRYNA-I2008"
             ("value definition claims #" +:+ pretty (vd_id definition) +:+
              ", expected dense value #" +:+ pretty expected)
             "allocate function parameters, then block parameters and instruction results in canonical order"));;
        validate_type (vd_ty definition) (Some (vd_span definition)) "value";;
        check_exhausted;;
        modify (push_value (mkValueInfo (vd_ty definition) location))).

Definition value_info (id : ValueId) (values : list ValueInfo) : option (nat * ValueInfo) :=
  (fun value => (N.to_nat id, value)) <$> get values id.

(** The same-block test of [checked_use] *)
Definition used_before_definition (value : ValueInfo) (block position : nat) : bool :=
  match vi_location value with
  | LocInstruction definition_block definition_position =>
      Nat.eqb definition_block block && Nat.leb position definition_position
  | _ => false
  end.

Definition checked_use (id : ValueId) (block position : nat) (span : Span)
    : M St (option (nat * ValueInfo)) :=
  exhausted ← gets (fun s => er_exhausted (st_errors s));
  if (exhausted : bool) then mret None
  else
    values ← gets st_values;
    match value_info id values with
    | None =>
        push (error_at "ZRYNA-I2012" (Some span)
                ("operand references unknown value #" +:+ pretty id)
                "reference one value in the same verified function");;
        mret None
    | Some (index, value) =>
        when (used_before_definition value block position)
          (push (error_at "ZRYNA-I2013" (Some span)
                   ("value #" +:+ pretty index +:+ " is used before its definition")
                   "use only earlier instruction results in the same block"));;
        mret (Some (index, value))
    end.

Definition use_ty (u : option (nat * ValueInfo)) : option Ty := (fun p => vi_ty p.2) <$> u.

Definition expect_result (actual expected : Ty) (span : Span) (label : string) : M St unit :=
  body (check_exhausted;;
        when (negb (bool_decide (actual = expected)))
          (push (error_at "ZRYNA-I2010" (Some span) (label +:+ " has the wrong result type")
                   "use the exact literal type"))).

(** [operands.iter().zip(expected).all(...)]: stops at the first operand that is
    unknown or has another type *)
Fixpoint operands_valid (operands : list ValueId) (expected : list Ty) (block position : nat)
    (span : Span) : M St bool :=
  match operands, expected with
  | operand :: operands, ty :: expected =>
      u ← checked_use operand block position span;
      if bool_decide (use_ty u = Some ty) then operands_valid operands expected block position span
      else mret false
  | _, _ => mret true
  end.

Definition expect_values (operands : list ValueId) (expected : list Ty)
    (result expected_result : Ty) (block position : nat) (span : Span) : M St unit :=
  body (check_exhausted;;
        valid ← operands_valid operands expected block position span;
        check_exhausted;;
        when (negb valid || negb (bool_decide (result = expected_result)))
          (push (error_at "ZRYNA-I2010" (Some span)
                   "instruction operand or result type is invalid"
                   "use exact ControlFlowV1 operation types"))).

(** ** Instructions *)

Definition lookup_signature (signatures : Signatures) (callee : FunctionId)
    : option (FunctionKey * (list Ty * Ty)) :=
  module ← get signatures (fid_module callee);
  signature ← get module (fid_declaration callee);
  Some (mkFunctionKey (N.to_nat (fid_module callee)) (N.to_nat (fid_declaration callee)),
        signature).

Definition verify_call_arguments (arguments : list ValueId) (parameters : list Ty)
    (block position : nat) (span : Span) : M St unit :=
  for_each (enumerate arguments) (fun '(argument_index, argument) =>
    actual ← checked_use argument block position span;
    check_exhausted;;
    when (negb (bool_decide (use_ty actual = parameters !! argument_index)))
      (push_checked (error_at "ZRYNA-I2011" (Some span)
         ("direct call argument #" +:+ pretty argument_index +:+ " has the wrong type")
         "preserve source argument order and exact parameter types"))).

Definition verify_call (key : FunctionKey) (callee : FunctionId) (arguments : list ValueId)
    (result : Ty) (block position : nat) (span : Span) (signatures : Signatures) : M St unit :=
  match lookup_signature signatures callee with
  | None =>
      push (error_at "ZRYNA-I2011" (Some span)
              "direct call targets an unknown function identity"
              "call one function in the sealed module closure");;
      return_now
  | Some (target, (parameters, target_result)) =>
      check_exhausted;;
      modify (push_call (key, target));;
      when (negb (len arguments =? len parameters)%N
            || negb (bool_decide (result = target_result)))
        (push_checked (error_at "ZRYNA-I2011" (Some span)
           "direct call signature does not match its target"
           "use exact arity, argument types, and result type"));;
      verify_call_arguments arguments parameters block position span
  end.

Definition verify_equality (lhs rhs : ValueId) (result : Ty) (block position : nat)
    (span : Span) : M St unit :=
  left ← checked_use lhs block position span;
  check_exhausted;;
  right ← checked_use rhs block position span;
  check_exhausted;;
  when (negb (bool_decide (result = Bool)) || negb (bool_decide (use_ty left = use_ty right)))
    (push (error_at "ZRYNA-I2010" (Some span)
             "equality requires two values of one exact scalar type and a bool result"
             "use matching bool or matching i32 operands")).

Definition verify_instruction (key : FunctionKey) (block position : nat)
    (instruction : Instruction) (signatures : Signatures) : M St unit :=
  body (check_exhausted;;
    let result := vd_ty (in_result instruction) in
    let span := vd_span (in_result instruction) in
    match in_kind instruction with
    | BoolLiteral _ => expect_result result Bool span "bool literal"
    | I32Literal _ => expect_result result I32 span "i32 literal"
    | I32Neg operand => expect_values [operand] [I32] result I32 block position span
    | I32Add lhs rhs | I32Sub lhs rhs | I32Mul lhs rhs =>
        expect_values [lhs; rhs] [I32; I32] result I32 block position span
    | I32LtS lhs rhs | I32LeS lhs rhs | I32GtS lhs rhs | I32GeS lhs rhs =>
        expect_values [lhs; rhs] [I32; I32] result Bool block position span
    | Eq lhs rhs | Ne lhs rhs => verify_equality lhs rhs result block position span
    | DirectCall callee arguments =>
        verify_call key callee arguments result block position span signatures
    end).

(** ** Terminators and edges *)

Definition block_label (key : FunctionKey) (what : string) : string :=
  function_label (fk_module key) (fk_function key) what.

Definition verify_edge (key : FunctionKey) (source : nat) (target : BlockId)
    (arguments : list ValueId) (function : Function_) (span : Span) : M St unit :=
  body (check_exhausted;;
    if negb (target <? len (f_blocks function))%N then
      push (error_at "ZRYNA-I2016" (Some span)
              (block_label key (" has an edge to unknown block #" +:+ pretty target))
              "target one block in the same function");;
      return_now
    else
      let target_index := N.to_nat target in
      when (Nat.eqb target_index 0)
        (push_checked (error_at "ZRYNA-I2016" (Some span)
           "control-flow edge targets the entry block"
           "entry block zero must have no predecessor"));;
      let parameters := b_parameters (f_blocks function).[target_index] in
      when (negb (len arguments =? len parameters)%N)
        (push_checked (error_at "ZRYNA-I2017" (Some span)
           "block argument arity does not match target parameters"
           "pass one exact argument for each target block parameter"));;
      let position := length (b_instructions (f_blocks function).[source]) in
      for_each (enumerate arguments) (fun '(index, argument) =>
        actual ← checked_use argument source position span;
        check_exhausted;;
        when (negb (bool_decide (use_ty actual = vd_ty <$> parameters !! index)))
          (push_checked (error_at "ZRYNA-I2017" (Some span)
             ("block argument #" +:+ pretty index +:+ " has the wrong type")
             "match target block parameter types exactly")));;
      check_exhausted;;
      modify (push_edge (mkEdge source target_index arguments))).

Definition verify_terminator (key : FunctionKey) (block : nat) (function : Function_)
    (terminator : SpannedTerminator) : M St unit :=
  body (check_exhausted;;
    let position := length (b_instructions (f_blocks function).[block]) in
    let span := tm_span terminator in
    match tm_kind terminator with
    | Return value =>
        actual ← checked_use value block position span;
        check_exhausted;;
        when (negb (bool_decide (use_ty actual = Some (f_result function))))
          (push (error_at "ZRYNA-I2014" (Some span) "return value has the wrong type"
                   "return one value of the exact function result type"))
    | Jump target arguments => verify_edge key block target arguments function span
    | Branch condition true_target true_arguments false_target false_arguments =>
        actual ← checked_use condition block position span;
        when (negb (bool_decide (use_ty actual = Some Bool)))
          (push (error_at "ZRYNA-I2015" (Some span) "branch condition is not bool"
                   "branch only on an exact bool value"));;
        check_exhausted;;
        verify_edge key block true_target true_arguments function span;;
        check_exhausted;;
        verify_edge key block false_target false_arguments function span
    end).

(** ** Control-flow graph *)

Definition instruction_operands (kind : InstructionKind) : list ValueId :=
  match kind with
  | BoolLiteral _ | I32Literal _ => []
  | I32Neg operand => [operand]
  | I32Add lhs rhs | I32Sub lhs rhs | I32Mul lhs rhs | Eq lhs rhs | Ne lhs rhs
  | I32LtS lhs rhs | I32LeS lhs rhs | I32GtS lhs rhs | I32GeS lhs rhs => [lhs; rhs]
  | DirectCall _ arguments => arguments
  end.

Definition terminator_operands (kind : Terminator) : list ValueId :=
  match kind with
  | Return value => [value]
  | Jump _ arguments => arguments
  | Branch condition _ true_arguments _ false_arguments =>
      condition :: true_arguments ++ false_arguments
  end.

(** The availability test of [verify_dominance] *)
Definition value_available (dom : nat -> nat -> bool) (location : DefinitionLocation)
    (use_block use_position : nat) : bool :=
  match location with
  | LocParameter => true
  | LocBlockParameter block => dom block use_block
  | LocInstruction block position =>
      if Nat.eqb block use_block then Nat.ltb position use_position else dom block use_block
  end.

Definition verify_dominance (operand : ValueId) (use_block use_position : nat)
    (dom : nat -> nat -> bool) (span : Span) : M St unit :=
  body (check_exhausted;;
    values ← gets st_values;
    match value_info operand values with
    | None => return_now
    | Some (_, value) =>
        when (negb (value_available dom (vi_location value) use_block use_position))
          (push (error_at "ZRYNA-I2013" (Some span)
                   ("value #" +:+ pretty operand +:+ " does not dominate its use")
                   "use only values available on every path to this operation"))
    end).

(** [successors] and [predecessors], sorted *)
Definition edge_successors (count : nat) (edges : list Edge) : graph :=
  sort_by Nat.leb <$>
    foldl (fun g e => push_at (e_source e) (e_target e) g) (replicate count []) edges.
Definition edge_predecessors (count : nat) (edges : list Edge) : graph :=
  sort_by Nat.leb <$>
    foldl (fun g e => push_at (e_target e) (e_source e) g) (replicate count []) edges.

(** The dominance checks of every operand *)
Definition verify_all_dominance (function : Function_) (dom : nat -> nat -> bool) : M St unit :=
  for_each (enumerate (f_blocks function)) (fun '(use_block, block) =>
    for_each (enumerate (b_instructions block)) (fun '(position, instruction) =>
      for_each (instruction_operands (in_kind instruction)) (fun operand =>
        verify_dominance operand use_block position dom (vd_span (in_result instruction));;
        check_exhausted));;
    match b_terminators block with
    | [t] =>
        for_each (terminator_operands (tm_kind t)) (fun operand =>
          verify_dominance operand use_block (length (b_instructions block)) dom (tm_span t);;
          check_exhausted)
    | _ => mret tt
    end).

(** The natural-loop, reducibility and nesting checks *)
Definition verify_loops (key : FunctionKey) (count : nat) (predecessors : graph)
    (dom : nat -> nat -> bool) (edges : list Edge) : M St unit :=
  let flow := default (mkCfgFlow [] [] ∅)
    (classify_edges count predecessors dom
       (mkCfgFlow (replicate count []) (replicate count 0) ∅)
       ((fun e => (e_source e, e_target e)) <$> edges)) in
  let seen := default 0 (topo_loop (count + 1) (cf_forward flow) (cf_indegree flow)
                           (zero_degree (cf_indegree flow)) 0) in
  when (negb (Nat.eqb seen count))
    (push_checked (error "ZRYNA-I2020" (block_label key " contains irreducible control flow")
       "every cycle must have one dominating nonentry header"));;
  when (MAX_LOOP_NESTING <? N.of_nat (maximum_nesting count (cf_loops flow)))%N
    (limit (block_label key " loop nesting") MAX_LOOP_NESTING).

Definition verify_cfg (key : FunctionKey) (function : Function_) : M St unit :=
  body (check_exhausted;;
    edges ← gets st_edges;
    if Nat.eqb (length (f_blocks function)) 0 then return_now
    else
      let count := length (f_blocks function) in
      let successors := edge_successors count edges in
      let predecessors := edge_predecessors count edges in
      let reachable := reachable_from_entry successors in
      for_each (seq 1 (count - 1)) (fun block =>
        when (Nat.eqb (length predecessors.[block]) 0 || negb reachable.[block])
          (push_checked (error "ZRYNA-I2018"
             (block_label key (" block #" +:+ pretty block +:+
                               " is unreachable or has no predecessor"))
             "emit only blocks reachable from entry")));;
      when (existsb negb reachable) return_now;;
      match immediate_dominators successors predecessors with
      | None =>
          push (error "ZRYNA-I2019" "failed to construct deterministic dominators"
                  "provide one reachable reducible CFG");;
          return_now
      | Some idom =>
          let dom := dominates (dominator_intervals idom) in
          verify_all_dominance function dom;;
          verify_loops key count predecessors dom edges
      end).

(** ** Functions *)

(** The definition pass of [verify_function] *)
Definition define_values (key : FunctionKey) (function : Function_) : M St unit :=
  for_each (f_parameters function) (fun parameter =>
    define_value parameter LocParameter;; check_exhausted);;
  for_each (enumerate (f_blocks function)) (fun '(block_index, block) =>
    when (negb (b_id block =? N.of_nat block_index)%N)
      (push_checked (error "ZRYNA-I2005"
         (block_label key (" block #" +:+ pretty block_index +:+ " has a noncanonical identity"))
         "use dense block identifiers in arena order"));;
    when (Nat.eqb block_index 0 && negb (Nat.eqb (length (b_parameters block)) 0))
      (push_checked (error "ZRYNA-I2006" "entry block declares block parameters"
         "function parameters are the only entry-block parameters"));;
    for_each (b_parameters block) (fun parameter =>
      define_value parameter (LocBlockParameter block_index);; check_exhausted);;
    for_each (enumerate (b_instructions block)) (fun '(instruction_index, instruction) =>
      define_value (in_result instruction) (LocInstruction block_index instruction_index);;
      check_exhausted)).

(** The checking pass of [verify_function] *)
Definition check_blocks (key : FunctionKey) (function : Function_) (signatures : Signatures)
    : M St unit :=
  for_each (enumerate (f_blocks function)) (fun '(block_index, block) =>
    for_each (enumerate (b_instructions block)) (fun '(instruction_index, instruction) =>
      verify_instruction key block_index instruction_index instruction signatures;;
      check_exhausted);;
    match b_terminators block with
    | [terminator] =>
        verify_terminator key block_index function terminator;; check_exhausted
    | terminators =>
        push_checked (error "ZRYNA-I2007"
          (block_label key (" block #" +:+ pretty block_index +:+ " has " +:+
                            pretty (length terminators) +:+ " terminators; expected exactly one"))
          "emit exactly one return, jump, or branch terminator")
    end).

Definition verify_function (key : FunctionKey) (function : Function_) (module_file : FileId)
    (signatures : Signatures) (sources : SourceMap) : M St unit :=
  body (check_exhausted;;
    spans_valid ← validate_spans (function_spans function) module_file sources true;
    if negb spans_valid then return_now
    else
      validate_type (f_result function) None "function result";;
      check_exhausted;;
      modify reset_locals;;
      define_values key function;;
      check_blocks key function signatures;;
      verify_cfg key function).

(** ** Call graph *)

Definition function_offsets (program : Program_) : list nat :=
  let go := fix go (total : nat) (modules : list Module_) : list nat :=
    match modules with
    | [] => [total]
    | module :: modules => total :: go (total + length (m_functions module)) modules
    end in
  go 0 (p_modules program).

(** Dense numbers of the caller and the callee of each call *)
Definition call_edges (offsets : list nat) (calls : list (FunctionKey * FunctionKey))
    : list (nat * nat) :=
  (fun '(caller, callee) => (offsets.[fk_module caller] + fk_function caller,
                             offsets.[fk_module callee] + fk_function callee)) <$> calls.

Definition call_successors (count : nat) (edges : list (nat * nat)) : graph :=
  foldl (fun g '(source, target) => push_at source target g) (replicate count []) edges.
Definition call_indegree (count : nat) (edges : list (nat * nat)) : list nat :=
  foldl (fun d '(_, target) => alter S target d) (replicate count 0) edges.

Definition verify_call_graph (program : Program_) : M St unit :=
  body (check_exhausted;;
    calls ← gets st_calls;
    let offsets := function_offsets program in
    let function_count := default 0 (last offsets) in
    let edges := call_edges offsets calls in
    let successors := call_successors function_count edges in
    let indegree := call_indegree function_count edges in
    let '(depth, seen) :=
      default ([], 0)
        (call_loop (function_count + 1) successors
           (mkCallState (replicate function_count 1) indegree (zero_degree indegree)) 0) in
    if negb (Nat.eqb seen function_count) then
      push (error "ZRYNA-I2021" "resolved direct-call graph contains a cycle"
              "ControlFlowV1 requires an acyclic complete call graph")
    else when (MAX_STATIC_CALL_DEPTH <? N.of_nat (max_list depth))%N
           (limit "static call depth" MAX_STATIC_CALL_DEPTH)).

(** ** Public ABI *)

Definition raw_abi_type (ty : Ty) : AbiType :=
  match ty with Unit => AT_Unit | Bool => AT_Bool | I32 => AT_I32 end.

Definition abi_export_of (function : Function_) (name : string) : AbiExport :=
  mkAbiExport name
    (mkAbiSignature ((fun p => raw_abi_type (vd_ty p)) <$> f_parameters function)
       (raw_abi_type (f_result function))).

(** The exports of the entry module, in order, and the index each function gets *)
Fixpoint entry_exports (next : nat) (functions : list Function_)
    : list AbiExport * list (option nat) :=
  match functions with
  | [] => ([], [])
  | function :: functions =>
      match f_entry_export function with
      | None =>
          let '(exports, indices) := entry_exports next functions in (exports, None :: indices)
      | Some name =>
          let '(exports, indices) := entry_exports (S next) functions in
          (abi_export_of function name :: exports, Some next :: indices)
      end
  end.

Definition abi_violation_diagnostic (violation : AbiViolation) : Diagnostic :=
  let '(message, guidance) :=
    match av_kind violation with
    | InvalidLogicalName => ("entry export has an invalid logical name",
                             "use the exact scalar ABI v1 logical-name grammar")
    | DuplicateLogicalName _ => ("entry exports contain a duplicate logical name",
                                 "give every public entry export a unique exact name")
    | PortableNameCollision _ => ("entry exports collide under portable target identity",
                                  "use names unique under ASCII case folding")
    | UnsupportedScalarType => ("entry export uses an unsupported scalar ABI type",
                                "use only bool and i32")
    | TooManyExports | TooManyParameters | TooManyParametersInModule =>
        ("entry scalar ABI exceeds its resource limits", "reduce the public entry surface")
    | ViolationBudgetExceeded => ("entry scalar ABI diagnostics exceeded their limit",
                                  "fix earlier ABI diagnostics")
    end in
  error "ZRYNA-I2022" message guidance.

Definition AbiTables := (option VerifiedScalarAbiModule * list (list (option nat)))%type.

(** [for violation in violations { errors.push(...); if errors.exhausted() { break; } }] *)
Fixpoint push_violations (violations : list AbiViolation) (e : Errors) : Errors :=
  match violations with
  | [] => e
  | violation :: violations =>
      let e := errors_push (abi_violation_diagnostic violation) e in
      if er_exhausted e then e else push_violations violations e
  end.

Definition verify_public_abi (program : Program_) (e : Errors) : AbiTables * Errors :=
  if er_exhausted e then ((None, []), e)
  else
    let indices := (fun module => replicate (length (m_functions module)) None)
                     <$> p_modules program in
    let '(exports, indices) :=
      match get (p_modules program) (p_entry_module program) with
      | Some module =>
          let '(exports, entry) := entry_exports 0 (m_functions module) in
          (exports, <[N.to_nat (p_entry_module program) := entry]> indices)
      | None => ([], indices)
      end in
    match abi_verify_v1 exports with
    | Ok abi => ((Some abi, indices), e)
    | Err violations => ((None, indices), push_violations violations e)
    end.

(** ** [verify] *)

Record VerifiedProgram := mkVerifiedProgram {
  vp_program : Program_;
  vp_abi : VerifiedScalarAbiModule;
  vp_abi_indices : list (list (option nat)) }.

Definition verify_functions (program : Program_) (sources : SourceMap) : M St unit :=
  let signatures := collect_signatures program in
  for_each (enumerate (p_modules program)) (fun '(module_index, module) =>
    for_each (enumerate (m_functions module)) (fun '(function_index, function) =>
      check_exhausted;;
      verify_function (mkFunctionKey module_index function_index) function
        (m_source_file module) signatures sources)).

Definition no_errors : Errors := mkErrors [] false.

Definition verify (program : Program_) (sources : SourceMap) (expected_entry : FileId)
    : result (list Diagnostic) VerifiedProgram :=
  let errors := preflight program no_errors in
  if negb (errors_is_empty errors) then Err (er_diagnostics errors)
  else
    let s := (body (verify_modules program sources expected_entry) (mkSt errors [] [] [])).1 in
    if er_exhausted (st_errors s) then Err (er_diagnostics (st_errors s))
    else
      let s := (body (verify_functions program sources) s).1 in
      if er_exhausted (st_errors s) then Err (er_diagnostics (st_errors s))
      else
        let s := (verify_call_graph program s).1 in
        if er_exhausted (st_errors s) then Err (er_diagnostics (st_errors s))
        else
          let '((abi, abi_indices), errors) := verify_public_abi program (st_errors s) in
          if negb (errors_is_empty errors) then Err (er_diagnostics errors)
          else match abi with
          | None =>
              Err [error "ZRYNA-I2202"
                     "ControlFlowV1 verifier could not construct its bounded scalar ABI table"
                     "report this compiler invariant failure with the smallest reproducible source"]
          | Some abi => Ok (mkVerifiedProgram program abi abi_indices)
          end.
