(* ===== verification/CfgReach.v ===== *)
(** * Marking searches, reachability and postorder

    The work-list search that marks what a relation reaches, as the control-flow
    and layout verifiers run it; then the searches of the verifier:
    [reachable_from_entry] and [loop_members] compute exactly the reachable set,
    and the depth-first search returns a reverse postorder. *)
From stdpp Require Import base numbers list list_numbers relations.
From S2P Require Import Prelude CfgAlgorithms.

(** The search both loops run: [succ] is what a node pushes. *)
Fixpoint mark_loop (fuel : nat) (succ : nat -> list nat) (marked : list bool)
    (stack : list nat) : option (list bool) :=
  match fuel with
  | O => None
  | S fuel =>
      match stack with
      | [] => Some marked
      | node :: stack =>
          if marked.[node] then mark_loop fuel succ marked stack
          else mark_loop fuel succ (<[node := true]> marked) (succ node ++ stack)
      end
  end.

(** Total weight of the unmarked nodes *)
Definition unmarked_sum (w : nat -> nat) (marked : list bool) : nat :=
  sum_list (imap (fun i m => if (m : bool) then 0 else w i) marked).

Lemma unmarked_sum_mark w marked b :
  marked !! b = Some false ->
  unmarked_sum w (<[b := true]> marked) + w b = unmarked_sum w marked.
Proof.
  unfold unmarked_sum. revert w b. induction marked as [|m marked IH]; intros w b Hb; [done|].
  destruct b as [|b]; simpl in *; [simplify_eq; simpl; lia|].
  specialize (IH (w ∘ S) b Hb).
  change (fun i m => if (m : bool) then 0 else (w ∘ S) i)
    with ((fun i (m : bool) => if m then 0 else w i) ∘ S) in IH.
  simpl in IH. destruct m; simpl; lia.
Qed.

(** Edges that unmarked nodes can still push *)
Definition work (succ : nat -> list nat) : list bool -> nat :=
  unmarked_sum (fun b => length (succ b)).

Lemma marked_total (marked : list bool) b : b < length marked -> marked !! b = Some marked.[b].
Proof. intros H. by apply list_lookup_lookup_total_lt. Qed.

Lemma unmarked_lookup (marked : list bool) b : marked.[b] = false -> marked !! b = Some false.
Proof. rewrite list_lookup_total_alt. destruct (marked !! b); cbn; [by intros ->|done]. Qed.

(** A node outside the graph counts as marked. *)
Lemma mark_loop_spec fuel succ marked stack :
  work succ marked + length stack < fuel ->
  exists m, mark_loop fuel succ marked stack = Some m /\
    length m = length marked /\
    (forall x, marked.[x] = true -> m.[x] = true) /\
    (forall x, x ∈ stack -> m.[x] = true) /\
    (forall x, m.[x] = true -> marked.[x] = false ->
       (forall y, y ∈ succ x -> m.[y] = true) /\
       exists s, s ∈ stack /\ rtc (fun a b => b ∈ succ a) s x).
Proof.
  revert marked stack. induction fuel as [|fuel IH]; intros marked stack Hf; [lia|].
  destruct stack as [|b stack]; simpl.
  { exists marked. split_and!; [done..|set_solver|]. intros x H1 H2. congruence. }
  destruct marked.[b] eqn:Eb.
  - destruct (IH marked stack) as (m & -> & Hl & Hm & Hin & Hout);
      [simpl in Hf; lia|].
    exists m. split_and!; [done..| |].
    + intros x [->|Hx]%elem_of_cons; auto.
    + intros x H1 H2. destruct (Hout x H1 H2) as (Hc & s & Hin' & Hr).
      split; [done|]. exists s. split; [by right|done].
  - pose proof (unmarked_sum_mark (fun b => length (succ b)) marked b) as Hw.
    pose proof (unmarked_lookup marked b Eb) as Hb. specialize (Hw Hb). apply lookup_lt_Some in Hb.
    destruct (IH (<[b := true]> marked) (succ b ++ stack)) as (m & -> & Hl & Hm & Hin & Hout).
    + rewrite length_app. unfold work in *. simpl in Hf. lia.
    + rewrite length_insert in Hl.
      assert (m.[b] = true) as Hmb.
      { apply Hm. by rewrite list_lookup_total_insert_eq. }
      exists m. split_and!; [done..| | |].
      * intros x Hx. apply Hm. destruct (decide (x = b)) as [->|Hne]; [congruence|].
        by rewrite list_lookup_total_insert_ne.
      * intros x [->|Hx]%elem_of_cons; [done|]. apply Hin. rewrite elem_of_app. by right.
      * intros x H1 H2. destruct (decide (x = b)) as [->|Hne].
        { split; [intros y Hy; apply Hin; rewrite elem_of_app; by left|].
          exists b. split; [by left|done]. }
        destruct (Hout x H1) as (Hc & s & Hin' & Hr).
        { by rewrite list_lookup_total_insert_ne. }
        split; [done|]. apply elem_of_app in Hin' as [Hs'|Hs'].
        { exists b. split; [by left|]. eapply rtc_l; [|done]. done. }
        exists s. split; [by right|done].
Qed.

Lemma replicate_total {A} `{!Inhabited A} n (x : A) i : i < n -> (replicate n x).[i] = x.
Proof. intros H. apply list_lookup_total_correct. by apply lookup_replicate_2. Qed.

(** * Reachability and postorder facts

    The work-list searches of the verifier: the marking searches
    ([reachable_from_entry], [loop_members]) compute exactly the reachable set,
    and the depth-first search returns a reverse postorder. *)

(** ** Graphs *)

Definition edge (g : graph) (a b : nat) : Prop := b ∈ g.[a].

(** Every edge ends inside the graph. *)
Definition wf_graph (g : graph) : Prop := forall a b, edge g a b -> b < length g.

(** [predecessors] lists exactly the reversed edges of [successors]. *)
Definition reversed (succs preds : graph) : Prop :=
  forall a b, edge succs a b <-> edge preds b a.

(** Walks from the entry block, last block first *)
Inductive entry_walk (g : graph) : list nat -> nat -> Prop :=
  | walk_entry : entry_walk g [0] 0
  | walk_step p a b : entry_walk g p a -> edge g a b -> entry_walk g (b :: p) b.

Definition reachable (g : graph) (b : nat) : Prop := exists p, entry_walk g p b.

(** [a] lies on every walk from the entry to [b]. *)
Definition dominates_spec (g : graph) (a b : nat) : Prop :=
  forall p, entry_walk g p b -> a ∈ p.

Lemma edge_source_lt (g : graph) a b : edge g a b -> a < length g.
Proof.
  unfold edge. intros H. destruct (decide (a < length g)); [done|].
  rewrite list_lookup_total_alt, lookup_ge_None_2 in H by lia. by apply not_elem_of_nil in H.
Qed.

Lemma reachable_rtc (g : graph) b : reachable g b <-> rtc (edge g) 0 b.
Proof.
  split.
  - intros [p Hp]. induction Hp; [done|]. eapply rtc_r; eauto.
  - intros H. apply rtc_ind_r with (P := fun b => reachable g b) in H; [done| |].
    + exists [0]. constructor.
    + intros y z _ Hyz [p Hp]. exists (z :: p). by econstructor.
Qed.

Lemma reachable_lt (g : graph) b :
  wf_graph g -> 0 < length g -> reachable g b -> b < length g.
Proof. intros Hwf H0 [p Hp]. destruct Hp; [done|]. eauto. Qed.

(** ** Marking search *)

Lemma reach_loop_mark fuel g marked stack :
  reach_loop fuel g marked stack = mark_loop fuel (fun b => g.[b]) marked stack.
Proof.
  revert marked stack. induction fuel as [|fuel IH]; intros marked stack; [done|].
  destruct stack; simpl; [done|]. by rewrite !IH.
Qed.

Lemma loop_members_mark fuel g h marked stack :
  loop_members fuel g h marked stack =
  mark_loop fuel (fun b => rev (filter (fun p => p <> h) g.[b])) marked stack.
Proof.
  revert marked stack. induction fuel as [|fuel IH]; intros marked stack; [done|].
  destruct stack; simpl; [done|]. by rewrite !IH.
Qed.

Lemma work_all (g : graph) :
  work (fun b => g.[b]) (replicate (length g) false) = edge_count g.
Proof.
  unfold work, unmarked_sum, edge_count. induction g as [|l g IH]; [done|].
  simpl. f_equal. exact IH.
Qed.

Lemma reachable_from_entry_length (g : graph) :
  wf_graph g -> 0 < length g -> length (reachable_from_entry g) = length g.
Proof.
  intros Hwf H0. unfold reachable_from_entry. rewrite reach_loop_mark.
  destruct (mark_loop_spec (edge_count g + 2) (fun b => g.[b])
              (replicate (length g) false) [0]) as (m & -> & Hl & _).
  - rewrite work_all. simpl. lia.
  - simpl. by rewrite Hl, length_replicate.
Qed.

(** [reachable_from_entry] marks exactly the blocks a walk from the entry reaches. *)
Lemma reachable_from_entry_spec (g : graph) b :
  wf_graph g -> b < length g ->
  (reachable_from_entry g).[b] = true <-> reachable g b.
Proof.
  intros Hwf Hb. assert (0 < length g) as H0 by lia. unfold reachable_from_entry. rewrite reach_loop_mark.
  destruct (mark_loop_spec (edge_count g + 2) (fun b => g.[b])
              (replicate (length g) false) [0]) as (m & -> & Hl & _ & Hin & Hout).
  - rewrite work_all. simpl. lia.
  - simpl. rewrite length_replicate in Hl. split.
    + intros Hm. destruct (Hout b Hm) as (_ & s & Hs & Hr); [by apply replicate_total|].
      apply list_elem_of_singleton in Hs as ->. by apply reachable_rtc.
    + clear Hb. intros (p & Hp). induction Hp as [|p a b Hp IH He]; [apply Hin; set_solver|].
      destruct (Hout a IH) as (Hc & _); [|by apply Hc].
      apply replicate_total. by eapply edge_source_lt.
Qed.

(** ** Reverse postorder *)

Ltac in_lists := rewrite ?elem_of_app, ?elem_of_cons in *; tauto.

(** Every stacked node but the bottom one is a successor of the node below it. *)
Inductive dfs_chain (g : graph) : list (nat * nat) -> Prop :=
  | chain_nil : dfs_chain g []
  | chain_one c : dfs_chain g [(0, c)]
  | chain_cons a ca b cb stack :
      edge g a b -> dfs_chain g ((a, ca) :: stack) -> dfs_chain g ((b, cb) :: (a, ca) :: stack).

(** Position-ordered predecessor: a predecessor of [x] on the stack, or before
    [x] in [order] *)
Definition pred_before (g : graph) (order nodes : list nat) (x : nat) : Prop :=
  exists y, edge g y x /\
    (y ∈ nodes \/ exists l1 l2, order = l1 ++ x :: l2 /\ y ∈ l1).

Record dfs_inv (g : graph) (visited : list bool) (order : list nat)
    (stack : list (nat * nat)) : Prop := {
  di_length : length visited = length g;
  di_nodup : NoDup (order ++ stack.*1);
  di_visited : forall x, x < length g -> visited.[x] = true <-> x ∈ order ++ stack.*1;
  di_bound : forall x, x ∈ order ++ stack.*1 -> x < length g;
  di_entry : 0 ∈ order ++ stack.*1;
  di_chain : dfs_chain g stack;
  di_done : forall x y, x ∈ order -> edge g x y -> visited.[y] = true;
  di_part : forall x c i y, (x, c) ∈ stack -> i < c -> g.[x] !! i = Some y -> visited.[y] = true;
  di_head : stack = [] -> head order = Some 0;
  di_pred : forall x, x ∈ order -> x <> 0 -> pred_before g order stack.*1 x }.

(** Remaining steps of the search *)
Definition dfs_work (g : graph) (visited : list bool) (stack : list (nat * nat)) : nat :=
  sum_list ((fun '(node, child) => length g.[node] - child + 1) <$> stack)
  + unmarked_sum (fun b => length g.[b] + 1) visited.

Lemma dfs_chain_next g a c c' stack : dfs_chain g ((a, c) :: stack) -> dfs_chain g ((a, c') :: stack).
Proof. inversion 1; subst; by constructor. Qed.

Lemma dfs_chain_pop g a stack : dfs_chain g (a :: stack) -> dfs_chain g stack.
Proof. inversion 1; subst; [constructor|done]. Qed.

(** The child index advances over a successor already visited. *)
Lemma dfs_inv_skip g visited order node child next stack :
  dfs_inv g visited order ((node, child) :: stack) ->
  g.[node] !! child = Some next -> visited.[next] = true ->
  dfs_inv g visited order ((node, S child) :: stack).
Proof.
  intros [] Hn Hv. split; try done; simpl in *.
  - by eapply dfs_chain_next.
  - intros x c i y [[= -> ->]|Hin]%elem_of_cons Hi Hy; [|by eapply di_part0; [right|..]].
    destruct (decide (i = child)) as [->|]; [congruence|].
    eapply di_part0; [left|..]; [|done]. lia.
Qed.

(** A new node is pushed. *)
Lemma dfs_inv_push g visited order node child next stack :
  wf_graph g ->
  dfs_inv g visited order ((node, child) :: stack) ->
  g.[node] !! child = Some next -> visited.[next] = false ->
  dfs_inv g (<[next := true]> visited) order ((next, 0) :: (node, S child) :: stack).
Proof.
  intros Hwf [] Hn Hv. simpl in *.
  assert (edge g node next) as He by (by eapply list_elem_of_lookup_2).
  assert (next < length g) as Hlt by eauto.
  assert (next ∉ order ++ node :: stack.*1) as Hnot.
  { intros H. apply (di_visited0 _ Hlt) in H. congruence. }
  assert ((<[next := true]> visited).[next] = true) as Hnext.
  { apply list_lookup_total_insert_eq. congruence. }
  assert (forall y, visited.[y] = true -> (<[next := true]> visited).[y] = true) as Hmono.
  { intros y Hy. destruct (decide (y = next)) as [->|]; [done|].
    by rewrite list_lookup_total_insert_ne. }
  split; simpl.
  - by rewrite length_insert.
  - rewrite <- Permutation_middle. by constructor.
  - intros x Hx. destruct (decide (x = next)) as [->|Hne]; [in_lists|].
    rewrite list_lookup_total_insert_ne, di_visited0 by done. in_lists.
  - intros x Hx. destruct (decide (x = next)) as [->|Hne]; [done|].
    apply di_bound0. in_lists.
  - in_lists.
  - constructor; [done|]. by eapply dfs_chain_next.
  - eauto.
  - intros x c i y [[= -> ->]|Hin]%elem_of_cons Hi Hy; [lia|].
    apply elem_of_cons in Hin as [[= -> ->]|Hin]; [|by eapply Hmono, di_part0; [right|..]].
    destruct (decide (i = child)) as [->|]; [by simplify_eq|].
    eapply Hmono, di_part0; [left| |done]. lia.
  - done.
  - intros x Hx H0. destruct (di_pred0 x Hx H0) as (y & Hy & [Hin|Hin]);
      exists y; (split; [done|]); [left; by right|by right].
Qed.

(** A node whose successors are exhausted is finished. *)
Lemma dfs_inv_pop g visited order node child stack :
  dfs_inv g visited order ((node, child) :: stack) ->
  g.[node] !! child = None ->
  dfs_inv g visited (node :: order) stack.
Proof.
  intros [] Hn. simpl in *.
  assert (node :: order ++ stack.*1 ≡ₚ order ++ node :: stack.*1) as Hp
    by apply Permutation_middle.
  split; simpl; try done.
  - by rewrite Hp.
  - intros x Hx. rewrite Hp. auto.
  - intros x. rewrite Hp. auto.
  - by rewrite Hp.
  - by eapply dfs_chain_pop.
  - intros x y [->|Hx]%elem_of_cons; [|eauto].
    intros (i & Hi)%list_elem_of_lookup_1. eapply di_part0; [left| |done].
    apply lookup_lt_Some in Hi. apply lookup_ge_None in Hn. lia.
  - intros x c i y Hin. eapply di_part0. by right.
  - intros ->. inversion di_chain0; by subst.
  - intros x [->|Hx]%elem_of_cons H0.
    + inversion di_chain0; subst; [done|]. exists a. split; [done|]. left. by left.
    + destruct (di_pred0 x Hx H0) as (y & Hy & [Hin|(l1 & l2 & -> & Hin)]); exists y; (split; [done|]).
      * apply elem_of_cons in Hin as [->|Hin]; [|by left].
        right. apply list_elem_of_split in Hx as (l1 & l2 & ->). exists (node :: l1), l2.
        split; [done|]. left.
      * right. exists (node :: l1), l2. split; [done|]. by right.
Qed.

Lemma postorder_loop_spec fuel g visited order stack :
  wf_graph g -> dfs_inv g visited order stack -> dfs_work g visited stack < fuel ->
  exists visited' order', postorder_loop fuel g visited order stack = Some order' /\
    dfs_inv g visited' order' [].
Proof.
  intros Hwf. revert visited order stack.
  induction fuel as [|fuel IH]; intros visited order stack Hi Hf; [lia|].
  destruct stack as [|(node, child) stack]; simpl; [by eauto|].
  unfold dfs_work in Hf. simpl in Hf.
  destruct (g.[node] !! child) as [next|] eqn:En.
  - pose proof (lookup_lt_Some _ _ _ En).
    destruct visited.[next] eqn:Ev.
    + apply IH; [by eapply dfs_inv_skip|]. unfold dfs_work. simpl. lia.
    + apply IH; [by eapply dfs_inv_push|].
      assert (next < length visited).
      { rewrite (di_length _ _ _ _ Hi). apply (Hwf node). by eapply list_elem_of_lookup_2. }
      pose proof (unmarked_sum_mark (fun b => length g.[b] + 1) visited next) as Hw.
      rewrite marked_total, Ev in Hw by done. specialize (Hw eq_refl).
      unfold dfs_work. simpl. lia.
  - apply IH; [by eapply dfs_inv_pop|]. unfold dfs_work, fmap. lia.
Qed.

Lemma unmarked_sum_entry (g : graph) :
  0 < length g ->
  unmarked_sum (fun b => length g.[b] + 1) (<[0 := true]> (replicate (length g) false))
  + (length g.[0] + 1) = edge_count g + length g.
Proof.
  intros H0. rewrite (unmarked_sum_mark (fun b => length g.[b] + 1)) by (by apply lookup_replicate_2).
  unfold unmarked_sum, edge_count. clear H0. induction g as [|l g IH]; [done|].
  simpl. assert (forall n, sum_list (imap ((λ (i : nat) (m : bool), if m then 0 else length (l :: g).[i] + 1) ∘ S) (replicate n false)) = sum_list (imap (λ (i : nat) (m : bool), if m then 0 else length g.[i] + 1) (replicate n false))) as -> by done.
  rewrite IH. unfold fmap. lia.
Qed.

Record rpo (g : graph) (order : list nat) : Prop := {
  rpo_nodup : NoDup order;
  rpo_head : head order = Some 0;
  rpo_bound : forall x, x ∈ order -> x < length g;
  rpo_pred : forall x, x ∈ order -> x <> 0 ->
    exists y l1 l2, edge g y x /\ order = l1 ++ x :: l2 /\ y ∈ l1;
  rpo_reach : forall x, reachable g x -> x ∈ order }.

(** The depth-first search terminates within its fuel; its result starts at the
    entry, lists every reachable block once, and lists a predecessor of every
    other block before it. *)
Lemma reverse_postorder_spec (g : graph) :
  wf_graph g -> 0 < length g ->
  exists order, reverse_postorder g = Some order /\ rpo g order.
Proof.
  intros Hwf H0. unfold reverse_postorder.
  destruct (postorder_loop_spec (edge_count g + length g + 1) g
              (<[0 := true]> (replicate (length g) false)) [] [(0, 0)])
    as (visited & order & -> & Hi).
  - done.
  - split; simpl; try done.
    + by rewrite length_insert, length_replicate.
    + apply NoDup_singleton.
    + intros x Hx. rewrite list_elem_of_singleton. destruct (decide (x = 0)) as [->|].
      * rewrite list_lookup_total_insert_eq by (by rewrite length_replicate). done.
      * rewrite list_lookup_total_insert_ne, replicate_total by done. done.
    + by intros x ->%list_elem_of_singleton.
    + set_solver.
    + constructor.
    + intros x y ?%elem_of_nil. done.
    + intros x c i y [= -> ->]%list_elem_of_singleton. lia.
    + intros x ?%elem_of_nil. done.
  - unfold dfs_work. simpl. pose proof (unmarked_sum_entry g H0). lia.
  - exists order. split; [done|]. destruct Hi. rewrite app_nil_r in *. simpl in *.
    split; try done; eauto.
    + intros x Hx Hne. destruct (di_pred0 x Hx Hne) as (y & Hy & [?%elem_of_nil|(l1 & l2 & H)]); [done|].
      by exists y, l1, l2.
    + intros x (p & Hp). induction Hp as [|p a b Hp IH He]; [done|].
      apply di_visited0; eauto.
Qed.
