(* ===== verification/Dominators.v ===== *)
(** * The dominator computation is correct

    [immediate_dominators] iterates the nearest-common-ancestor equation over a
    reverse postorder until a pass changes nothing.  Whenever it returns, the
    ancestors of a block in the resulting tree are exactly its dominators, and
    [dominator_intervals] answers the ancestor query by interval containment. *)
From stdpp Require Import base numbers list relations.
From S2P Require Import Prelude CfgAlgorithms CfgReach.

(** ** Positions in the order *)

Lemma positions_foldl (ys : list (nat * nat)) (init : list nat) x :
  x ∉ ys.*2 ->
  (foldl (fun position '(index, block) => <[block := index]> position) init ys).[x] = init.[x].
Proof.
  revert init. induction ys as [|(i, b) ys IH]; intros init Hx; [done|]. simpl in *.
  apply not_elem_of_cons in Hx as [Hne Hx]. rewrite IH by done.
  by apply list_lookup_total_insert_ne.
Qed.

Lemma enumerate_snd {A} (l : list A) : (enumerate l).*2 = l.
Proof.
  unfold enumerate. assert (forall f : nat -> nat, (imap (fun i x => (f i, x)) l).*2 = l) as H.
  { induction l as [|x l IH]; intros f; [done|]. simpl. f_equal. apply (IH (f ∘ S)). }
  apply (H id).
Qed.

Lemma positions_length_foldl (ys : list (nat * nat)) (init : list nat) :
  length (foldl (fun position '(index, block) => <[block := index]> position) init ys)
  = length init.
Proof.
  revert init. induction ys as [|(i, b) ys IH]; intros init; [done|]. simpl.
  by rewrite IH, length_insert.
Qed.

Lemma positions_length count order : length (positions count order) = count.
Proof. unfold positions. by rewrite positions_length_foldl, length_replicate. Qed.

Lemma positions_spec count order i x :
  NoDup order -> (forall y, y ∈ order -> y < count) -> order !! i = Some x ->
  (positions count order).[x] = i.
Proof.
  intros Hnd Hb Hi. unfold positions, enumerate.
  assert (x < count) as Hx by (apply Hb; by eapply list_elem_of_lookup_2).
  pose proof (length_replicate count 0) as Hlen. revert Hlen. generalize (replicate count 0).
  clear Hb. intros init Hlen.
  assert (forall f : nat -> nat,
    (foldl (fun position '(index, block) => <[block := index]> position) init
      (imap (fun i x => (f i, x)) order)).[x] = f i) as H; [|by apply (H id)].
  revert i init Hlen Hi. induction order as [|y order IH]; intros i init Hlen Hi f; [done|].
  apply NoDup_cons in Hnd as [Hy Hnd]. destruct i as [|i]; simpl in *.
  - simplify_eq. rewrite positions_foldl.
    + by rewrite list_lookup_total_insert_eq.
    + intros Hin. apply Hy. apply list_elem_of_fmap in Hin as ((a, b) & -> & Hin).
      apply elem_of_lookup_imap in Hin as (k & z & [= -> ->] & Hz).
      by eapply list_elem_of_lookup_2.
  - apply (IH Hnd i (<[y := f 0]> init)) with (f := f ∘ S); [by rewrite length_insert|done].
Qed.

(** ** The dominator tree under construction *)

Section dominators.
Context (succs preds : graph) (order : list nat).
Hypothesis succs_wf : wf_graph succs.
Hypothesis preds_reversed : reversed succs preds.
Hypothesis order_rpo : rpo succs order.
Hypothesis order_all : length order = length succs.

Notation n := (length succs).
Notation position := (positions n order).
Notation pos x := (position.[x]).

Lemma order_lookup x : x < n -> order !! (pos x) = Some x.
Proof.
  intros Hx. assert (order ≡ₚ seq 0 n) as Hp.
  { apply submseteq_length_Permutation; [|by rewrite length_seq, order_all].
    apply NoDup_submseteq; [apply order_rpo|]. intros y Hy. apply elem_of_seq.
    pose proof (rpo_bound _ _ order_rpo y Hy). lia. }
  assert (x ∈ order) as [i Hi]%list_elem_of_lookup_1.
  { rewrite Hp. apply elem_of_seq. lia. }
  by rewrite (positions_spec n order i x (rpo_nodup _ _ order_rpo) (rpo_bound _ _ order_rpo) Hi).
Qed.

Lemma pos_lookup i x : order !! i = Some x -> pos x = i.
Proof. apply positions_spec; apply order_rpo. Qed.

Lemma pos_inj x y : x < n -> y < n -> pos x = pos y -> x = y.
Proof.
  intros Hx Hy E. apply order_lookup in Hx, Hy. rewrite E in Hx. congruence.
Qed.

Lemma pos_lt x : x < n -> pos x < n.
Proof. intros Hx%order_lookup%lookup_lt_Some. lia. Qed.

Lemma pos_entry : pos 0 = 0.
Proof. apply pos_lookup. rewrite <- head_lookup. apply order_rpo. Qed.

Lemma pos_pos x : x < n -> x <> 0 -> 0 < pos x.
Proof.
  intros Hx Hne. destruct (decide (pos x = 0)) as [E|]; [|lia].
  destruct Hne. apply pos_inj; [done|lia|]. by rewrite pos_entry.
Qed.

Lemma pos_pred x : x < n -> x <> 0 -> exists y, edge succs y x /\ y < n /\ pos y < pos x.
Proof.
  intros Hx Hne.
  destruct (rpo_pred _ _ order_rpo x) as (y & l1 & l2 & He & Ho & Hy); [|done|].
  { by eapply list_elem_of_lookup_2, order_lookup. }
  exists y. split_and!; [done|by eapply edge_source_lt|].
  apply list_elem_of_lookup_1 in Hy as [i Hi]. pose proof (lookup_lt_Some _ _ _ Hi).
  rewrite (pos_lookup i y), (pos_lookup (length l1) x); [done| |].
  - rewrite Ho. by apply list_lookup_middle.
  - rewrite Ho. by apply lookup_app_l_Some.
Qed.

(** [x] reaches [y] through blocks at or after [p] in the order. *)
Definition path_from (p : nat) : nat -> nat -> Prop :=
  rtc (fun x y => edge succs x y /\ pos p <= pos y).

(** What every entry [idom[b] = p] satisfies throughout the iteration *)
Record link (b p : nat) : Prop := {
  link_bound : b < n /\ p < n;
  link_pos : pos p < pos b;
  link_path : path_from p p b;
  link_dom : forall a, dominates_spec succs a b -> a <> b -> dominates_spec succs a p }.

Record tree (idom : list (option nat)) : Prop := {
  tree_length : length idom = n;
  tree_entry : idom.[0] = Some 0;
  tree_link : forall b p, b <> 0 -> idom.[b] = Some p -> link b p /\ is_Some idom.[p] }.

Definition parent (idom : list (option nat)) (b p : nat) : Prop := b <> 0 /\ idom.[b] = Some p.

(** [a] is [b] or an ancestor of it. *)
Definition anc (idom : list (option nat)) (a b : nat) : Prop := rtc (parent idom) b a.

Definition defined (idom : list (option nat)) (b : nat) : Prop := is_Some idom.[b].

Lemma dominates_refl b : dominates_spec succs b b.
Proof. intros p Hp. destruct Hp; left. Qed.

Lemma dominates_entry a : dominates_spec succs a 0 -> a = 0.
Proof. intros H. specialize (H [0] (walk_entry _)). by apply list_elem_of_singleton in H. Qed.

(** Dominance passes from a block to its predecessors. *)
Lemma dominates_pred a b p :
  dominates_spec succs a b -> a <> b -> edge succs p b -> dominates_spec succs a p.
Proof.
  intros H Hne He w Hw. specialize (H (b :: w) (walk_step _ _ _ _ Hw He)).
  by apply elem_of_cons in H as [->|].
Qed.

(** Dominance passes backwards along a path that stays after the dominator. *)
Lemma dominates_path a c b :
  path_from c c b -> pos a < pos c -> dominates_spec succs a b -> dominates_spec succs a c.
Proof.
  intros Hp Hlt. induction Hp as [|x y z [He Hy] Hp IH]; [done|]. intros H.
  eapply dominates_pred; [by apply IH| |done]. intros ->. lia.
Qed.

Section tree_facts.
Context (idom : list (option nat)) (Ht : tree idom).

Lemma defined_bound b : defined idom b -> b < n.
Proof.
  unfold defined. rewrite list_lookup_total_alt. destruct (idom !! b) eqn:E; simpl.
  - intros _. apply lookup_lt_Some in E. rewrite <- (tree_length _ Ht). done.
  - by intros [? ?].
Qed.

Lemma parent_pos b p : parent idom b p -> pos p < pos b.
Proof. intros [Hne Hp]. by apply (tree_link _ Ht b p Hne Hp). Qed.

Lemma parent_defined b p : parent idom b p -> defined idom p.
Proof. intros [Hne Hp]. by apply (tree_link _ Ht b p Hne Hp). Qed.

Lemma anc_defined a b : anc idom a b -> defined idom b -> defined idom a.
Proof. intros H. induction H; [done|]. intros _. eauto using parent_defined. Qed.

Lemma anc_pos a b : anc idom a b -> pos a <= pos b.
Proof. intros H. induction H as [|x y z Hp _ IH]; [done|]. apply parent_pos in Hp. lia. Qed.

(** A strict ancestor is an ancestor of the parent. *)
Lemma anc_parent a b p : anc idom a b -> parent idom b p -> a <> b -> anc idom a p.
Proof.
  intros H Hp Hne. destruct (rtc_inv _ _ H) as [->|(y & Hy & Hr)]; [done|].
  destruct Hy, Hp. by simplify_eq.
Qed.

Lemma anc_step a b p : anc idom a p -> parent idom b p -> anc idom a b.
Proof. intros H Hp. by eapply rtc_l. Qed.

Lemma anc_trans a b c : anc idom a b -> anc idom b c -> anc idom a c.
Proof. unfold anc. intros H1 H2. by etrans. Qed.

Lemma defined_parent b : defined idom b -> b <> 0 -> exists p, parent idom b p.
Proof. intros [p Hp] Hne. by exists p. Qed.

(** Dominators are ancestors. *)
Lemma dominates_anc a b : defined idom b -> dominates_spec succs a b -> anc idom a b.
Proof.
  remember (pos b) as k eqn:Ek. revert b Ek.
  induction (lt_wf k) as [k _ IH]. intros b -> Hb Hd.
  destruct (decide (a = b)) as [->|Hne]; [apply rtc_refl|].
  destruct (decide (b = 0)) as [->|H0]; [by apply dominates_entry in Hd|].
  destruct (defined_parent b Hb H0) as [p Hp].
  eapply anc_step; [|done]. destruct Hp as [_ Hp].
  destruct (tree_link _ Ht b p H0 Hp) as [[] Hdef]. eapply IH; [done..|eauto].
Qed.

Lemma anc_path a b : anc idom a b -> defined idom b -> path_from a a b.
Proof.
  intros H. induction H as [x|x y z Hp H IH]; [intros _; apply rtc_refl|].
  intros _. pose proof (parent_defined _ _ Hp) as Hd. etrans; [by apply IH|].
  apply anc_pos in H. destruct Hp as [Hne Hp].
  destruct (tree_link _ Ht x y Hne Hp) as [[_ _ Hpath _] _].
  eapply rtc_subrel; [|exact Hpath]. simpl. intros u v [? ?]. split; [done|lia].
Qed.

(** The nearest common ancestor of two defined blocks *)
Definition nca (c l r : nat) : Prop :=
  anc idom c l /\ anc idom c r /\
  forall a, anc idom a l -> anc idom a r -> anc idom a c.

Lemma climb_spec fuel node other :
  defined idom node -> pos node < fuel ->
  exists m, climb fuel idom position node other = Some m /\
    anc idom m node /\ pos m <= pos other /\ (pos node <= pos other -> m = node) /\
    forall a, anc idom a other -> anc idom a node -> anc idom a m.
Proof.
  revert node. induction fuel as [|fuel IH]; intros node Hd Hf; [lia|]. simpl.
  destruct (Nat.ltb_spec (pos other) (pos node)).
  - assert (node <> 0) as H0. { intros ->. rewrite pos_entry in *. lia. }
    destruct (defined_parent node Hd H0) as [p Hp]. pose proof Hp as [_ ->]. simpl.
    pose proof (parent_pos _ _ Hp).
    destruct (IH p) as (m & -> & Hm & Hle & _ & Ha); [by eapply parent_defined|lia|].
    exists m. split_and!; [done|by eapply anc_step|done|lia|].
    intros a Hao Han. apply Ha; [done|]. eapply anc_parent; [done..|]. intros ->.
    apply anc_pos in Hao. lia.
  - exists node. split_and!; [done|apply rtc_refl|done|done|auto].
Qed.

Lemma intersect_loop_spec fuel l r :
  defined idom l -> defined idom r -> pos l + pos r < fuel ->
  exists c, intersect_loop fuel idom position l r = Some c /\ nca c l r.
Proof.
  revert l r. induction fuel as [|fuel IH]; intros l r Hl Hr Hf; [lia|].
  cbn [intersect_loop]. destruct (Nat.eqb_spec l r) as [->|Hne].
  { exists r. split; [done|]. split_and!; [apply rtc_refl..|done]. }
  assert (pos l <> pos r) as Hpos.
  { intros E. apply pos_inj in E; [done|by apply defined_bound..]. }
  destruct (climb_spec (S fuel) l r) as (l' & -> & Hl' & Hle & Hk & Hla); [done|lia|].
  cbn [mbind option_bind].
  destruct (climb_spec (S fuel) r l') as (r' & -> & Hr' & Hre & Hk' & Hra); [done|lia|].
  cbn [mbind option_bind]. pose proof (anc_pos _ _ Hl'). pose proof (anc_pos _ _ Hr').
  destruct (IH l' r') as (c & -> & Hcl & Hcr & Hc); [by eapply anc_defined..| |].
  { destruct (decide (pos l <= pos r)); [|lia]. rewrite Hk in * by done. lia. }
  exists c. split; [done|]. split_and!; [exact (anc_trans _ _ _ Hcl Hl')|exact (anc_trans _ _ _ Hcr Hr')|]. intros a Ha1 Ha2. apply Hc; auto.
Qed.

Lemma intersect_spec l r :
  defined idom l -> defined idom r ->
  exists c, intersect idom position l r = Some c /\ nca c l r.
Proof.
  intros Hl Hr. unfold intersect. apply intersect_loop_spec; [done..|].
  rewrite positions_length. apply defined_bound, pos_lt in Hl, Hr. lia.
Qed.

(** The fold over the defined predecessors *)
Lemma intersect_all l c0 :
  defined idom c0 -> (forall x, x ∈ l -> defined idom x) ->
  exists c, foldl (fun c p => c ← c; intersect idom position c p) (Some c0) l = Some c /\
    (forall x, x ∈ c0 :: l -> anc idom c x) /\
    (forall a, (forall x, x ∈ c0 :: l -> anc idom a x) -> anc idom a c).
Proof.
  revert c0. induction l as [|x l IH]; intros c0 H0 Hl.
  { exists c0. split_and!; [done| |].
    - intros y ->%list_elem_of_singleton. apply rtc_refl.
    - intros a Ha. apply Ha. left. }
  simpl. destruct (intersect_spec c0 x) as (c1 & -> & Hc1 & Hc1' & Hn); [done|apply Hl; left|].
  destruct (IH c1) as (c & -> & Hc & Hmax).
  - exact (anc_defined _ _ Hc1 H0).
  - intros y Hy. apply Hl. by right.
  - exists c. split_and!; [done| |].
    + pose proof (Hc c1 ltac:(left)) as Hcc. intros y [->|[->|Hy]%elem_of_cons]%elem_of_cons.
      * exact (anc_trans _ _ _ Hcc Hc1).
      * exact (anc_trans _ _ _ Hcc Hc1').
      * apply Hc. by right.
    + intros a Ha. apply Hmax. intros y [->|Hy]%elem_of_cons.
      * apply Hn; apply Ha; [left|right; left].
      * apply Ha. right. by right.
Qed.
End tree_facts.

(** *** One block of a pass *)

(** The equation a block satisfies when its entry is up to date *)
Definition up_to_date (idom : list (option nat)) (b : nat) : Prop :=
  exists c, idom.[b] = Some c /\ forall p, edge succs p b -> defined idom p -> anc idom c p.

Definition earlier_defined (idom : list (option nat)) (b : nat) : Prop :=
  forall x, x < n -> pos x < pos b -> defined idom x.

Lemma tree_update idom b c :
  tree idom -> b < n -> b <> 0 -> link b c -> defined idom c -> tree (<[b := Some c]> idom).
Proof.
  intros Ht Hb Hne Hl Hd. assert (b < length idom) as Hb' by (by rewrite tree_length).
  assert (forall x, defined idom x -> defined (<[b := Some c]> idom) x) as Hmono.
  { intros x Hx. unfold defined. destruct (decide (x = b)) as [->|].
    - by rewrite list_lookup_total_insert_eq.
    - by rewrite list_lookup_total_insert_ne. }
  split.
  - by rewrite length_insert, tree_length.
  - rewrite list_lookup_total_insert_ne by done. apply Ht.
  - intros x p Hx. destruct (decide (x = b)) as [->|Hxb].
    + rewrite list_lookup_total_insert_eq by done. intros [= ->]. split; [done|by apply Hmono].
    + rewrite list_lookup_total_insert_ne by done. intros Hp.
      destruct (tree_link _ Ht x p Hx Hp). split; [done|by apply Hmono].
Qed.

(** The candidate of a block is the nearest common ancestor of its defined
    predecessors, and a valid entry. *)
Lemma dominator_step_candidate idom b :
  tree idom -> b < n -> b <> 0 -> earlier_defined idom b ->
  exists c, dominator_step preds position idom b
      = Some (<[b := Some c]> idom, negb (bool_decide (idom.[b] = Some c))) /\
    link b c /\ defined idom c /\
    (forall p, edge succs p b -> defined idom p -> anc idom c p) /\
    (forall a, (forall p, edge succs p b -> defined idom p -> anc idom a p) -> anc idom a c).
Proof.
  intros Ht Hb Hne He. unfold dominator_step.
  destruct (pos_pred b Hb Hne) as (y & Hy & Hyn & Hpos).
  pose proof (He y Hyn Hpos) as Hyd.
  assert (forall x, x ∈ filter (fun p => is_Some idom.[p]) preds.[b] <->
            edge succs x b /\ defined idom x) as Hf.
  { intros x. rewrite list_elem_of_filter, (preds_reversed x b). unfold defined, edge. tauto. }
  destruct (filter _ _) as [|c0 l].
  { exfalso. apply (not_elem_of_nil y). by apply Hf. }
  destruct (intersect_all idom Ht l c0) as (c & -> & Hanc & Hmax).
  { by apply Hf; left. }
  { intros x Hx. apply Hf. by right. }
  cbn [mbind option_bind].
  assert (anc idom c y) as Hcy by (apply Hanc, Hf; done).
  assert (defined idom c) as Hcd by (by eapply anc_defined).
  pose proof (anc_pos idom Ht c y Hcy).
  assert (path_from c c b) as Hpath.
  { eapply rtc_r; [by apply (anc_path idom Ht)|]. split; [done|lia]. }
  exists c. split_and!.
  - case_bool_decide as Eq; [|done]. f_equal. f_equal. symmetry. apply list_insert_id.
    rewrite <- Eq. apply list_lookup_lookup_total_lt. by rewrite tree_length.
  - split; [split; [done|by eapply defined_bound]|lia|done|].
    intros a Ha Hab. destruct (decide (a = c)) as [->|Hac]; [apply dominates_refl|].
    assert (anc idom a c) as Hanca.
    { apply Hmax. intros x Hx. apply Hf in Hx as [Hx Hxd]. apply (dominates_anc idom Ht); [done|].
      by eapply dominates_pred. }
    eapply dominates_path; [done| |done].
    destruct (rtc_inv _ _ Hanca) as [->|(z & Hz & Hr)]; [done|].
    apply (anc_pos idom Ht) in Hr. apply (parent_pos idom Ht) in Hz. lia.
  - done.
  - intros p Hp Hpd. by apply Hanc, Hf.
  - intros a Ha. apply Hmax. intros x [Hx Hxd]%Hf. auto.
Qed.

Lemma defined_update idom b c x :
  tree idom -> b < n -> defined idom x \/ x = b -> defined (<[b := Some c]> idom) x.
Proof.
  intros Ht Hb Hx. unfold defined. destruct (decide (x = b)) as [->|].
  - by rewrite list_lookup_total_insert_eq by (by rewrite tree_length).
  - rewrite list_lookup_total_insert_ne by done. by destruct Hx.
Qed.

Lemma dominator_step_spec idom b :
  tree idom -> b < n -> b <> 0 -> earlier_defined idom b ->
  exists idom' changed, dominator_step preds position idom b = Some (idom', changed) /\
    tree idom' /\ defined idom' b /\ (forall x, defined idom x -> defined idom' x) /\
    (changed = false -> idom' = idom /\ up_to_date idom b).
Proof.
  intros Ht Hb Hne He.
  destruct (dominator_step_candidate idom b) as (c & -> & Hl & Hc & Hanc & _); [done..|].
  eexists _, _. split; [done|]. split_and!.
  - by apply tree_update.
  - by apply defined_update; [..|right].
  - intros x Hx. by apply defined_update; [..|left].
  - intros E%negb_false_iff%bool_decide_eq_true. split; [|by exists c].
    apply list_insert_id. rewrite <- E. apply list_lookup_lookup_total_lt. by rewrite tree_length.
Qed.

(** *** Passes *)

Lemma dominator_pass_spec idom done_ blocks :
  tree idom -> order = done_ ++ blocks -> done_ <> [] ->
  (forall x, x ∈ done_ -> defined idom x) ->
  exists idom' changed, dominator_pass preds position idom blocks = Some (idom', changed) /\
    tree idom' /\ (forall x, x ∈ order -> defined idom' x) /\
    (changed = false -> idom' = idom /\ forall b, b ∈ blocks -> up_to_date idom b).
Proof.
  revert idom done_. induction blocks as [|b blocks IH]; intros idom done_ Ht Ho Hne Hd.
  { exists idom, false. rewrite app_nil_r in Ho. subst. split_and!; try done.
    intros _. split; [done|]. by intros b ?%elem_of_nil. }
  assert (order !! length done_ = Some b) as Hb.
  { rewrite Ho. by apply list_lookup_middle. }
  assert (b < n) as Hbn by (eapply (rpo_bound _ _ order_rpo), list_elem_of_lookup_2, Hb).
  assert (b <> 0) as Hb0.
  { intros ->. apply pos_lookup in Hb. rewrite pos_entry in Hb. by destruct done_. }
  simpl. destruct (dominator_step_spec idom b) as (i1 & c1 & -> & Ht1 & Hd1 & Hm1 & Hc1); [done..| |].
  { intros x Hx Hlt. apply Hd. rewrite (pos_lookup _ _ Hb) in Hlt.
    apply order_lookup in Hx. revert Hx Hlt. generalize (pos x). intros i Hx Hlt.
    rewrite Ho, lookup_app_l in Hx by done.
    by eapply list_elem_of_lookup_2. }
  simpl. destruct (IH i1 (done_ ++ [b])) as (i2 & c2 & -> & Ht2 & Hd2 & Hc2).
  - done.
  - by rewrite <- app_assoc.
  - by destruct done_.
  - intros x [Hx| ->%list_elem_of_singleton]%elem_of_app; auto.
  - simpl. exists i2, (c1 || c2). split_and!; try done.
    intros [E1 E2]%orb_false_iff. destruct (Hc1 E1) as [-> Hu]. destruct (Hc2 E2) as [-> Hu2].
    split; [done|]. intros x [->|Hx]%elem_of_cons; auto.
Qed.

(** The result of the iteration: every block defined and every entry up to date *)
Definition fixpoint_tree (idom : list (option nat)) : Prop :=
  tree idom /\ forall b, b < n -> defined idom b /\ (b <> 0 -> up_to_date idom b).

Lemma dominator_passes_spec k idom l :
  tree idom -> dominator_passes k preds position idom (drop 1 order) = Some l ->
  exists idom', mapM id idom' = Some l /\ fixpoint_tree idom'.
Proof.
  assert (exists rest, order = 0 :: rest) as [rest Hr].
  { pose proof (rpo_head _ _ order_rpo) as H. destruct order; simplify_eq/=; eauto. }
  revert idom. induction k as [|k IH]; intros idom Ht H; [done|]. simpl in H.
  destruct (dominator_pass_spec idom [0] rest) as (i1 & c & Hp & Ht1 & Hd & Hc); [done..| |].
  { intros x ->%list_elem_of_singleton. unfold defined. by rewrite tree_entry. }
  replace (drop 1 order) with rest in * by (by rewrite Hr). rewrite Hp in H. simpl in H.
  destruct c; [by eapply IH|]. destruct (Hc eq_refl) as [-> Hu]. exists idom. split; [done|].
  split; [done|]. intros b Hb%order_lookup%list_elem_of_lookup_2. split; [by apply Hd|].
  intros H0. rewrite Hr in Hb. apply elem_of_cons in Hb as [->|Hb]; [done|auto].
Qed.

Lemma entry_in_walk w b : entry_walk succs w b -> 0 ∈ w.
Proof. intros H. induction H; [left|by right]. Qed.

(** At the fixpoint the ancestors are exactly the dominators. *)
Lemma fixpoint_tree_dominates idom a b :
  fixpoint_tree idom -> b < n -> anc idom a b <-> dominates_spec succs a b.
Proof.
  intros [Ht Hall] Hb. split; [|apply dominates_anc; [done|by apply Hall]].
  intros Ha w Hw. revert a Ha. induction Hw as [|w p b Hw IH He]; intros a Ha.
  - apply list_elem_of_singleton. destruct (rtc_inv _ _ Ha) as [|(y & [Hy _] & _)]; done.
  - assert (p < n) as Hp by (by eapply edge_source_lt).
    destruct (decide (a = b)) as [->|Hne]; [left|]. right.
    destruct (decide (b = 0)) as [->|H0].
    { destruct (rtc_inv _ _ Ha) as [E|(y & [Hy _] & _)]; congruence. }
    destruct (Hall b Hb) as [_ [c [Hc Hu]]]; [done|].
    apply IH; [done|]. eapply anc_trans; [|by apply Hu; [|apply Hall]].
    by eapply anc_parent.
Qed.
End dominators.
