(* ===== verification/DomIntervals.v ===== *)
(** * Dominator-tree intervals

    [dominator_intervals] numbers the tree by an explicit-stack depth-first
    tour; containment of the numbered intervals is the ancestor relation, so the
    [dominates] query of [verify_cfg] decides dominance. *)
From stdpp Require Import base numbers list relations.
From S2P Require Import Prelude CfgReach CfgAlgorithms Dominators.

(** ** [dominator_children] *)

Lemma push_at_total {A} (v : list (list A)) i j (x : A) :
  j < length v -> (push_at i x v).[j] = if decide (i = j) then v.[j] ++ [x] else v.[j].
Proof.
  intros Hj. unfold push_at. rewrite !list_lookup_total_alt. destruct (decide (i = j)) as [->|Hne].
  - rewrite list_lookup_alter_eq. apply lookup_lt_is_Some in Hj as [l ->]. done.
  - by rewrite list_lookup_alter_ne.
Qed.

Lemma push_at_length {A} (v : list (list A)) i (x : A) : length (push_at i x v) = length v.
Proof. apply length_alter. Qed.

(** Distributing a list over the buckets its keys name *)
Lemma foldl_push_at_length {A B} (key : A -> nat) (val : A -> B) (xs : list A) (v : list (list B)) :
  length (foldl (fun v x => push_at (key x) (val x) v) v xs) = length v.
Proof. revert v. induction xs; intros v; [done|]. simpl. by rewrite IHxs, push_at_length. Qed.

Lemma foldl_push_at {A B} (key : A -> nat) (val : A -> B) (xs : list A) (v : list (list B)) j :
  j < length v ->
  (foldl (fun v x => push_at (key x) (val x) v) v xs).[j]
  = v.[j] ++ (val <$> filter (fun x => key x = j) xs).
Proof.
  revert v. induction xs as [|x xs IH]; intros v Hj; [by rewrite app_nil_r|]. simpl.
  rewrite IH, push_at_total by (by rewrite ?push_at_length).
  rewrite filter_cons. destruct (decide (key x = j)); [by rewrite <- app_assoc|done].
Qed.

Lemma dominator_children_spec idom p :
  p < length idom ->
  (dominator_children idom).[p] = filter (fun b => idom.[b] = p) (seq 1 (length idom - 1)).
Proof.
  intros Hp. unfold dominator_children.
  rewrite (foldl_push_at (fun b => idom.[b]) (fun b => b)) by (by rewrite length_replicate).
  by rewrite replicate_total, list_fmap_id.
Qed.

Section intervals.
Context (idom : list nat) (pos : nat -> nat).
Notation n := (length idom).
Notation children := (dominator_children idom).
Hypothesis idom_pos : forall b, 0 < b < n -> pos idom.[b] < pos b.
Hypothesis pos_bound : forall b, b < n -> pos b < n.

Definition tree_parent (b p : nat) : Prop := 0 < b < n /\ idom.[b] = p.
Definition tree_anc (a b : nat) : Prop := rtc tree_parent b a.

Lemma children_spec x p : p < n -> x ∈ children.[p] <-> tree_parent x p.
Proof.
  intros Hp. rewrite dominator_children_spec by done.
  rewrite list_elem_of_filter, elem_of_seq. unfold tree_parent. split; intros [? ?]; split; auto; lia.
Qed.

Lemma children_nodup p : p < n -> NoDup children.[p].
Proof. intros Hp. rewrite dominator_children_spec by done. apply NoDup_filter, NoDup_seq. Qed.

Lemma tree_parent_pos b p : tree_parent b p -> pos p < pos b.
Proof. intros [Hb <-]. auto. Qed.

Lemma tree_anc_pos a b : tree_anc a b -> pos a <= pos b.
Proof. intros H. induction H as [|x y z Hp _ IH]; [done|]. apply tree_parent_pos in Hp. lia. Qed.

(** Siblings with a common descendant are equal. *)
Lemma siblings_disjoint p x y z :
  tree_parent x p -> tree_parent y p -> tree_anc x z -> tree_anc y z -> x = y.
Proof.
  intros Hx Hy Hxz. revert y Hy. induction Hxz as [x|z z' x Hz Hr IH]; intros y Hy Hyz.
  - destruct (rtc_inv _ _ Hyz) as [|(w & Hw & Hr)]; [done|].
    destruct Hx as [? Hx], Hw as [? Hw]. simplify_eq.
    apply tree_anc_pos in Hr. apply tree_parent_pos in Hy. lia.
  - destruct (rtc_inv _ _ Hyz) as [<-|(w & Hw & Hr')].
    + destruct Hy as [? Hy], Hz as [? Hz]. simplify_eq.
      apply tree_anc_pos in Hr. apply tree_parent_pos in Hx. lia.
    + destruct Hw as [? Hw], Hz as [? Hz]. simplify_eq. auto.
Qed.

(** ** Tours *)

Notation event := (nat * bool)%type.

(** The event list of a forest *)
Inductive tours : list nat -> list event -> Prop :=
  | tours_nil : tours [] []
  | tours_cons x xs l1 l2 :
      tours children.[x] l1 -> tours xs l2 ->
      tours (x :: xs) ((x, false) :: l1 ++ (x, true) :: l2).

Lemma tours_app xs ys l1 l2 : tours xs l1 -> tours ys l2 -> tours (xs ++ ys) (l1 ++ l2).
Proof.
  induction 1 as [|x xs la lb Ha _ Hb IH]; [done|]. intros Hy. simpl.
  rewrite <- app_assoc. simpl. constructor; auto.
Qed.

Lemma tours_exist k xs :
  (forall x, x ∈ xs -> x < n /\ n - pos x <= k) -> exists l, tours xs l.
Proof.
  revert xs. induction k as [|k IHk]; induction xs as [|x xs IH]; intros Hx;
    try (by exists []; constructor).
  - destruct (Hx x) as [Hxn Hk]; [left|]. apply pos_bound in Hxn. lia.
  - destruct IH as [l2 H2]; [intros; apply Hx; by right|].
    destruct (Hx x) as [Hxn Hk]; [left|].
    destruct (IHk children.[x]) as [l1 H1].
    + intros c Hc. apply children_spec in Hc; [|done]. pose proof Hc as [? _].
      apply tree_parent_pos in Hc. lia.
    + eexists. by constructor.
Qed.

Lemma tours_elem xs l y c :
  tours xs l -> (forall x, x ∈ xs -> x < n) ->
  (y, c) ∈ l <-> exists x, x ∈ xs /\ tree_anc x y.
Proof.
  induction 1 as [|x xs l1 l2 H1 IH1 H2 IH2]; intros Hb.
  { split; [by intros ?%elem_of_nil|]. by intros (? & ?%elem_of_nil & _). }
  assert (x < n) as Hx by (apply Hb; left).
  specialize (IH2 (fun z Hz => Hb z (list_elem_of_further _ _ _ Hz))).
  assert (forall z, z ∈ children.[x] -> z < n) as Hc.
  { intros z [? _]%children_spec; [|done]. lia. }
  specialize (IH1 Hc). rewrite elem_of_cons, elem_of_app, elem_of_cons, IH1, IH2. split.
  - intros [[= -> ->]|[(z & Hz & Ha)|[[= -> ->]|(z & Hz & Ha)]]].
    + exists x. split; [left|apply rtc_refl].
    + exists x. split; [left|]. eapply rtc_r; [exact Ha|]. by apply children_spec.
    + exists x. split; [left|apply rtc_refl].
    + exists z. split; [by right|done].
  - intros (z & [->|Hz]%elem_of_cons & Ha).
    + destruct (rtc_inv_r _ _ Ha) as [->|(w & Hw & Hp)].
      * destruct c; [right; right; by left|by left].
      * right; left. exists w. split; [by apply children_spec|done].
    + right; right; right. eauto.
Qed.

Lemma tours_nodup xs l :
  tours xs l -> NoDup xs -> (forall x, x ∈ xs -> x < n) ->
  (forall x y z, x ∈ xs -> y ∈ xs -> tree_anc x z -> tree_anc y z -> x = y) -> NoDup l.
Proof.
  induction 1 as [|x xs l1 l2 H1 IH1 H2 IH2]; intros Hnd Hb Hd; [constructor|].
  apply NoDup_cons in Hnd as [Hnot Hnd].
  assert (x < n) as Hx by (apply Hb; left).
  assert (forall z, z ∈ xs -> z < n) as Hxs by (intros; apply Hb; by right).
  assert (forall z, z ∈ children.[x] -> z < n) as Hc.
  { intros z [? _]%children_spec; [|done]. lia. }
  assert (forall y c, (y, c) ∈ l1 -> tree_anc x y /\ x <> y) as Hin1.
  { intros y c (z & Hz & Ha)%(tours_elem _ _ _ _ H1 Hc). apply children_spec in Hz; [|done]. split.
    - by eapply rtc_r.
    - intros ->. apply tree_anc_pos in Ha. apply tree_parent_pos in Hz. lia. }
  assert (forall y c, (y, c) ∈ l2 -> ~ tree_anc x y) as Hin2.
  { intros y c (z & Hz & Ha)%(tours_elem _ _ _ _ H2 Hxs) Hxy. apply Hnot.
    by rewrite (Hd x z y ltac:(left) ltac:(by right) Hxy Ha). }
  assert (forall c, (x, c) ∉ l1) as Hx1. { intros c [_ Hne]%Hin1. done. }
  assert (forall c, (x, c) ∉ l2) as Hx2. { intros c Hxc. apply Hin2 in Hxc. apply Hxc, rtc_refl. }
  apply NoDup_cons. split.
  { rewrite elem_of_app, elem_of_cons. intros [?|[?|?]]; [by eapply Hx1|done|by eapply Hx2]. }
  apply NoDup_app. split_and!.
  - apply IH1; [by apply children_nodup|done|].
    intros a b z Ha Hb'. apply children_spec in Ha, Hb'; [|done..]. eauto using siblings_disjoint.
  - intros (y, c) Hy1 [[= -> ->]|Hy2]%elem_of_cons; [by eapply Hx1|].
    eapply Hin2; [done|]. by eapply Hin1.
  - apply NoDup_cons. split; [apply Hx2|]. apply IH2; [done..|].
    intros a b z Ha Hb'. apply Hd; by right.
Qed.

(** The tour of a node is a contiguous segment. *)
Lemma tours_segment xs l z c :
  tours xs l -> (z, c) ∈ l ->
  exists l1 t l2, l = l1 ++ ((z, false) :: t ++ [(z, true)]) ++ l2 /\ tours children.[z] t.
Proof.
  induction 1 as [|x xs la lb Ha IHa Hb IHb]; [by intros ?%elem_of_nil|].
  rewrite elem_of_cons, elem_of_app, elem_of_cons.
  intros [[= -> ->]|[Hz|[[= -> ->]|Hz]]].
  - exists [], la, lb. split; [|done]. by simplify_list_eq.
  - destruct (IHa Hz) as (l1 & t & l2 & -> & Ht).
    exists ((x, false) :: l1), t, (l2 ++ (x, true) :: lb). split; [|done].
    by simplify_list_eq.
  - exists [], la, lb. split; [|done]. by simplify_list_eq.
  - destruct (IHb Hz) as (l1 & t & l2 & -> & Ht).
    exists ((x, false) :: la ++ (x, true) :: l1), t, l2. split; [|done].
    by simplify_list_eq.
Qed.

(** ** What the numbering loop computes *)

Definition interval_step (s : Intervals) (e : event) : Intervals :=
  if e.2 then mkIntervals (iv_entry s) (<[e.1 := iv_clock s]> (iv_exit s)) (S (iv_clock s))
  else mkIntervals (<[e.1 := iv_clock s]> (iv_entry s)) (iv_exit s) (S (iv_clock s)).

Lemma interval_loop_tours xs l fuel s rest :
  tours xs l ->
  interval_loop (length l + fuel) children s (((fun x => (x, false)) <$> xs) ++ rest)
  = interval_loop fuel children (foldl interval_step s l) rest.
Proof.
  intros H. revert fuel s rest. induction H as [|x xs l1 l2 H1 IH1 H2 IH2]; intros fuel s rest; [done|].
  simpl. rewrite length_app. replace (length l1 + length ((x, true) :: l2) + fuel)
    with (length l1 + S (length l2 + fuel)) by (simpl; lia).
  rewrite IH1, foldl_app. simpl. apply IH2.
Qed.

(** The array an event of kind [c] writes *)
Definition iv_array (c : bool) (s : Intervals) : list nat := if c then iv_exit s else iv_entry s.

Lemma interval_step_same s x c :
  x < length (iv_array c s) -> (iv_array c (interval_step s (x, c))).[x] = iv_clock s.
Proof. destruct c; simpl; intros H; by rewrite list_lookup_total_insert_eq. Qed.

Lemma interval_step_other s x c y d :
  (x, c) <> (y, d) -> (iv_array c (interval_step s (y, d))).[x] = (iv_array c s).[x].
Proof.
  destruct c, d; simpl; intros H; try done;
    rewrite list_lookup_total_insert_ne; congruence.
Qed.

Lemma interval_step_length s e c :
  length (iv_array c (interval_step s e)) = length (iv_array c s).
Proof. destruct e as [y []], c; simpl; by rewrite ?length_insert. Qed.

Lemma interval_step_clock s e : iv_clock (interval_step s e) = S (iv_clock s).
Proof. by destruct e as [y []]. Qed.

Lemma interval_steps_other l s x c :
  (x, c) ∉ l -> (iv_array c (foldl interval_step s l)).[x] = (iv_array c s).[x].
Proof.
  revert s. induction l as [|(y, d) l IH]; intros s Hn; [done|]. simpl.
  apply not_elem_of_cons in Hn as [Hne Hn]. rewrite IH by done. by apply interval_step_other.
Qed.

Lemma interval_steps_index l s i x c :
  NoDup l -> l !! i = Some (x, c) -> x < length (iv_array c s) ->
  (iv_array c (foldl interval_step s l)).[x] = iv_clock s + i.
Proof.
  revert s i. induction l as [|e l IH]; intros s i Hnd Hi Hx; [done|].
  apply NoDup_cons in Hnd as [Hn Hnd]. destruct i as [|i]; simpl in *.
  - simplify_eq. rewrite interval_steps_other, interval_step_same by done. lia.
  - rewrite (IH (interval_step s e) i); [|done..|by rewrite interval_step_length].
    rewrite interval_step_clock. lia.
Qed.

Lemma tours_length l : 
  0 < n -> tours [0] l -> NoDup l -> length l <= 2 * n.
Proof.
  intros H0 Ht Hnd. assert (l ⊆ ((fun x => (x, false)) <$> seq 0 n) ++ ((fun x => (x, true)) <$> seq 0 n)) as Hs.
  { intros (x, c) Hx. assert (x < n) as Hxn.
    { eapply tours_elem in Hx as (z & ->%list_elem_of_singleton & Ha); [|done|].
      - destruct (rtc_inv _ _ Ha) as [->|(w & [? _] & _)]; lia.
      - by intros x' ->%list_elem_of_singleton. }
    apply elem_of_app. destruct c; [right|left]; apply list_elem_of_fmap; exists x;
      (split; [done|]); apply elem_of_seq; lia. }
  apply NoDup_submseteq, submseteq_length in Hs; [|done].
  rewrite length_app, !length_fmap, length_seq in Hs. lia.
Qed.

Lemma dominator_intervals_tours :
  0 < n -> exists l, tours [0] l /\ NoDup l /\
    forall x (c : bool) i, l !! i = Some (x, c) ->
      (if c then (dominator_intervals idom).2 else (dominator_intervals idom).1).[x] = i.
Proof.
  intros H0.
  assert (forall x, x ∈ [0] -> x < n) as Hroot by (by intros x ->%list_elem_of_singleton).
  destruct (tours_exist n [0]) as [l Hl]. { intros x Hx. split; [auto|lia]. }
  assert (NoDup l) as Hnd.
  { eapply tours_nodup; [done|apply NoDup_singleton|done|].
    by intros x y z ->%list_elem_of_singleton ->%list_elem_of_singleton. }
  exists l. split_and!; [done..|]. intros x c i Hi.
  pose proof (tours_length l H0 Hl Hnd) as Hlen.
  unfold dominator_intervals.
  replace (2 * n + 1) with (length l + S (2 * n - length l)) by lia.
  rewrite (interval_loop_tours [0] l _ _ []) by done. simpl.
  assert (x < n) as Hx.
  { assert ((x, c) ∈ l) as Hin by (by eapply list_elem_of_lookup_2).
    eapply tours_elem in Hin as (z & ->%list_elem_of_singleton & Ha); [|done..].
    destruct (rtc_inv _ _ Ha) as [->|(w & [? _] & _)]; lia. }
  pose proof (interval_steps_index l (mkIntervals (replicate n 0) (replicate n 0) 0) i x c Hnd Hi) as E.
  destruct c; simpl in E; rewrite length_replicate in E; auto.
Qed.

(** The numbers of a node delimit its segment of the tour. *)
Lemma segment_numbers l a :
  tours [0] l -> (forall x (c : bool) i, l !! i = Some (x, c) ->
      (if c then (dominator_intervals idom).2 else (dominator_intervals idom).1).[x] = i) ->
  (a, false) ∈ l ->
  exists l1 t l2, l = l1 ++ ((a, false) :: t ++ [(a, true)]) ++ l2 /\ tours children.[a] t /\
    (dominator_intervals idom).1.[a] = length l1 /\
    (dominator_intervals idom).2.[a] = length l1 + S (length t).
Proof.
  intros Hl Hidx Hin. destruct (tours_segment [0] l a false Hl Hin) as (l1 & t & l2 & El & Ht).
  exists l1, t, l2. split_and!; [done..| |].
  - apply (Hidx a false). rewrite El. by apply list_lookup_middle.
  - apply (Hidx a true). rewrite El, lookup_app_r by lia.
    replace (length l1 + S (length t) - length l1) with (S (length t)) by lia.
    simpl. rewrite <- app_assoc. by apply list_lookup_middle.
Qed.

(** Interval containment decides the ancestor relation. *)
Lemma dominates_anc_iff a b :
  a < n -> tree_anc 0 a -> tree_anc 0 b ->
  dominates (dominator_intervals idom) a b = true <-> tree_anc a b.
Proof.
  intros Han Ha Hb. assert (0 < n) as H0 by lia.
  destruct (dominator_intervals_tours H0) as (l & Hl & Hnd & Hidx).
  assert (forall x, x ∈ [0] -> x < n) as Hroot by (by intros x ->%list_elem_of_singleton).
  assert (forall y c, tree_anc 0 y -> (y, c) ∈ l) as Hin.
  { intros y c Hy. eapply tours_elem; [done..|]. exists 0. split; [left|done]. }
  destruct (segment_numbers l a Hl Hidx (Hin a false Ha)) as (l1 & t & l2 & El & Ht & Ea & Xa).
  pose proof (tours_cons a [] t [] Ht tours_nil) as Hseg.
  assert (forall c, (b, c) ∈ (a, false) :: t ++ [(a, true)] <-> tree_anc a b) as Hsub.
  { intros c. rewrite (tours_elem [a] _ b c Hseg) by (by intros x ->%list_elem_of_singleton).
    split; [by intros (x & ->%list_elem_of_singleton & ?)|]. exists a. split; [left|done]. }
  unfold dominates. rewrite andb_true_iff, !Nat.leb_le, Ea, Xa. split.
  - intros [H1 H2]. apply (Hsub false).
    destruct (segment_numbers l b Hl Hidx (Hin b false Hb)) as (m1 & u & m2 & El' & _ & Eb & Xb).
    rewrite Eb in H1. rewrite Xb in H2.
    assert (l !! length m1 = Some (b, false)) as Hi.
    { rewrite El'. by apply list_lookup_middle. }
    rewrite El, lookup_app_r, lookup_app_l in Hi
      by (simpl; rewrite ?length_app; simpl; lia).
    by eapply list_elem_of_lookup_2.
  - intros Hab. destruct (list_elem_of_lookup_1 _ _ (proj2 (Hsub false) Hab)) as [i Hi].
    destruct (list_elem_of_lookup_1 _ _ (proj2 (Hsub true) Hab)) as [j Hj].
    assert (forall k e, ((a, false) :: t ++ [(a, true)]) !! k = Some e ->
              l !! (length l1 + k) = Some e) as Hshift.
    { intros k e Hk. rewrite El, lookup_app_r by lia.
      replace (length l1 + k - length l1) with k by lia. by apply lookup_app_l_Some. }
    rewrite (Hidx b false _ (Hshift _ _ Hi)), (Hidx b true _ (Hshift _ _ Hj)).
    apply lookup_lt_Some in Hj. simpl in Hj. rewrite length_app in Hj. simpl in Hj. lia.
Qed.
End intervals.

(** ** The query of [verify_cfg] *)

Lemma mapM_id_lookup (l : list (option nat)) (k : list nat) :
  mapM id l = Some k -> length k = length l /\ forall i, i < length l -> l.[i] = Some k.[i].
Proof.
  intros H%mapM_Some_1. split; [symmetry; by eapply Forall2_length|]. intros i Hi.
  apply lookup_lt_is_Some in Hi as [x Hx].
  destruct (Forall2_lookup_l _ _ _ _ _ H Hx) as (y & Hy & E).
  rewrite (list_lookup_total_correct _ _ _ Hx), (list_lookup_total_correct _ _ _ Hy). done.
Qed.

Lemma initial_tree succs order : 0 < length succs -> 
  tree succs order (<[0 := Some 0]> (replicate (length succs) None)).
Proof.
  intros H0. split.
  - by rewrite length_insert, length_replicate.
  - by rewrite list_lookup_total_insert_eq by (by rewrite length_replicate).
  - intros b p Hne. rewrite list_lookup_total_insert_ne by done. rewrite list_lookup_total_alt.
    destruct (replicate _ _ !! b) as [x|] eqn:E; [|done]. by apply lookup_replicate in E as [-> _].
Qed.

(** Whenever [immediate_dominators] returns a tree, the interval query on it
    decides dominance on every pair of blocks. *)
Lemma dominator_query_correct (succs preds : graph) idom a b :
  wf_graph succs -> reversed succs preds ->
  immediate_dominators succs preds = Some idom ->
  a < length succs -> b < length succs ->
  dominates (dominator_intervals idom) a b = true <-> dominates_spec succs a b.
Proof.
  intros Hwf Hrev Hd Ha Hb. assert (0 < length succs) as H0 by lia.
  unfold immediate_dominators in Hd.
  destruct (reverse_postorder_spec succs Hwf H0) as (order & Ho & Hrpo).
  rewrite Ho in Hd. cbn [mbind option_bind] in Hd.
  destruct (Nat.eqb_spec (length order) (length succs)) as [Hlen|]; [|done]. cbn [negb] in Hd.
  eapply dominator_passes_spec in Hd as (idom' & Hm & Hfix); [|done..|by apply initial_tree].
  pose proof Hfix as [Htree Hall]. pose proof (tree_length _ _ _ Htree) as Hl'.
  apply mapM_id_lookup in Hm as [Hl Hm]. rewrite Hl' in *.
  assert (forall x, 0 < x < length succs -> link succs order x idom.[x]) as Hlink.
  { intros x Hx. apply (tree_link _ _ _ Htree x); [lia|]. apply Hm. lia. }
  assert (forall x y, tree_anc idom x y <-> anc idom' x y) as Hanc.
  { assert (forall x y, tree_parent idom x y <-> parent idom' x y) as Hp.
    { intros x y. unfold tree_parent, parent. rewrite Hl. split.
      - intros [Hx <-]. split; [lia|]. apply Hm. lia.
      - intros [Hx Hy]. assert (x < length succs) as Hxn.
        { apply (defined_bound _ _ _ Htree). by exists y. }
        split; [lia|]. rewrite Hm in Hy by done. by simplify_eq. }
    intros x y. unfold tree_anc, anc. split; apply rtc_subrel; intros ? ?; apply Hp. }
  assert (forall x, x < length succs -> tree_anc idom 0 x) as H0x.
  { intros x Hx. apply Hanc. apply (fixpoint_tree_dominates succs order); [done..|].
    intros w Hw. by eapply entry_in_walk. }
  rewrite <- (fixpoint_tree_dominates succs order idom' a b), <- Hanc by done.
  apply (dominates_anc_iff idom (fun x => (positions (length succs) order).[x])).
  - rewrite Hl. intros x Hx. by apply Hlink.
  - rewrite Hl. intros x Hx. by apply pos_lt.
  - by rewrite Hl.
  - auto.
  - auto.
Qed.
