(* ===== verification/DomTotal.v ===== *)
(** * The dominator iteration converges within its bound

    [immediate_dominators] gives up after as many passes as there are blocks.
    After pass [k] every ancestor of a block lies on all walks to it with fewer
    than [k] retreating edges; a walk without repetition has at most [n - 2] of
    them, so pass [n - 1] has found the dominator tree and pass [n] changes
    nothing: the fallback diagnostic ZRYNA-I2019 cannot be reached. *)
From stdpp Require Import base numbers list relations.
From S2P Require Import Prelude CfgAlgorithms CfgReach Dominators DomIntervals.

Section convergence.
Context (succs preds : graph) (order : list nat).
Hypothesis succs_wf : wf_graph succs.
Hypothesis preds_reversed : reversed succs preds.
Hypothesis order_rpo : rpo succs order.
Hypothesis order_all : length order = length succs.

Notation n := (length succs).
Notation position := (positions n order).
Notation pos x := (position.[x]).
Notation tree := (tree succs order).

(** Retreating edges of a walk, given last block first *)
Fixpoint retreats (w : list nat) : nat :=
  match w with
  | b :: ((p :: _) as rest) => (if Nat.leb (pos b) (pos p) then 1 else 0) + retreats rest
  | _ => 0
  end.

(** [a] lies on every walk to [b] with fewer than [j] retreating edges. *)
Definition on_walks (j a b : nat) : Prop :=
  forall w, entry_walk succs w b -> retreats w < j -> a ∈ w.

Definition bounded (j : nat) (idom : list (option nat)) (b : nat) : Prop :=
  forall a, anc idom a b -> on_walks j a b.

Lemma walk_last w b : entry_walk succs w b -> exists rest, w = b :: rest.
Proof. destruct 1; eauto. Qed.

Lemma walk_inv w b :
  entry_walk succs w b -> b <> 0 ->
  exists p w', w = b :: w' /\ entry_walk succs w' p /\ edge succs p b.
Proof. destruct 1; [done|eauto 6]. Qed.

Lemma walk_inv0 w : entry_walk succs w 0 -> w = [0] \/ 0 ∈ tail w.
Proof.
  intros H. inversion H as [|w' p b Hw He]; subst; [by left|]. right. simpl.
  by eapply entry_in_walk.
Qed.

Lemma on_walks_refl j b : on_walks j b b.
Proof. intros w [rest ->]%walk_last _. left. Qed.

(** The part of a walk up to one of its blocks *)
Lemma walk_prefix w x b :
  entry_walk succs w x -> b ∈ w ->
  exists l w', w = l ++ w' /\ entry_walk succs w' b /\ retreats w' <= retreats w.
Proof.
  induction 1 as [|w p x Hw IH He]; intros Hb.
  - apply list_elem_of_singleton in Hb as ->. exists [], [0]. split_and!; [done|constructor|done].
  - destruct (decide (b = x)) as [->|Hne].
    { exists [], (x :: w). split_and!; [done|by econstructor|done]. }
    apply elem_of_cons in Hb as [|Hb]; [done|].
    destruct (IH Hb) as (l & w' & -> & Hw' & Hr). exists (x :: l), w'. split_and!; [done..|].
    destruct (walk_last _ _ Hw) as [rest E]. rewrite E in *. simpl. destruct (Nat.leb _ _); simpl in *; lia.
Qed.

Section update.
Context (idom : list (option nat)) (Ht : tree idom) (b c : nat) (Hb : b < n) (Hb0 : b <> 0)
  (Hl : link succs order b c).
Notation idom' := (<[b := Some c]> idom).

Lemma parent_update x y : x <> b -> parent idom' x y <-> parent idom x y.
Proof. intros Hne. unfold parent. by rewrite list_lookup_total_insert_ne. Qed.

Lemma parent_update_eq y : parent idom' b y <-> y = c.
Proof.
  unfold parent. rewrite list_lookup_total_insert_eq by (by rewrite (tree_length _ _ _ Ht)).
  split; [by intros [_ [= ->]]|by intros ->].
Qed.

(** Chains that start before [b] are unchanged. *)
Lemma anc_update_before a x : pos x < pos b -> anc idom' a x <-> anc idom a x.
Proof.
  intros Hx. split; intros H; revert Hx; induction H as [x|x y z Hp Hr IH]; intros Hx;
    try apply rtc_refl.
  - assert (x <> b) by (intros ->; lia). apply parent_update in Hp; [|done].
    eapply rtc_l; [exact Hp|]. apply IH. pose proof (parent_pos _ _ idom Ht _ _ Hp). lia.
  - assert (x <> b) by (intros ->; lia). pose proof (parent_pos _ _ idom Ht _ _ Hp).
    eapply rtc_l; [by apply parent_update|]. apply IH. lia.
Qed.

(** Other chains lose a part and gain the chain of [c]. *)
Lemma anc_update a x : anc idom' a x -> anc idom a x \/ (anc idom b x /\ anc idom a c).
Proof.
  intros H. induction H as [x|x y z Hp Hr IH]; [left; apply rtc_refl|].
  destruct (decide (x = b)) as [->|Hne].
  - apply parent_update_eq in Hp as ->. right. split; [apply rtc_refl|].
    apply anc_update_before; [apply Hl|exact Hr].
  - apply parent_update in Hp; [|done]. destruct IH as [IH|[IH1 IH2]].
    + left. by eapply rtc_l.
    + right. split; [by eapply rtc_l|done].
Qed.

Lemma anc_update_at a : anc idom' a b -> a = b \/ anc idom a c.
Proof.
  intros H. destruct (rtc_inv _ _ H) as [->|(y & Hp & Hr)]; [by left|].
  apply parent_update_eq in Hp as ->. right. apply anc_update_before; [apply Hl|exact Hr].
Qed.
End update.

(** *** One block of pass [S k] *)

Lemma bounded_step k idom b c :
  tree idom -> b < n -> b <> 0 -> link succs order b c ->
  (forall p, edge succs p b -> defined idom p -> anc idom c p) ->
  earlier_defined succs order idom b -> (k = 0 \/ forall x, x < n -> defined idom x) ->
  (forall x, x < n -> pos x < pos b -> bounded (S k) idom x) ->
  (forall x, x < n -> pos b <= pos x -> bounded k idom x) ->
  (forall x, x < n -> pos x <= pos b -> bounded (S k) (<[b := Some c]> idom) x) /\
  (forall x, x < n -> pos b < pos x -> bounded k (<[b := Some c]> idom) x).
Proof.
  intros Ht Hb Hb0 Hl Hcand Hearly Hall Hdone Htodo.
  assert (bounded (S k) (<[b := Some c]> idom) b) as Hbb.
  { intros a Ha. apply (anc_update_at idom Ht b c Hb Hb0 Hl) in Ha as [->|Ha]; [apply on_walks_refl|].
    intros w0 Hw0 Hr. destruct (walk_inv w0 b Hw0 Hb0) as (p & w & -> & Hw & He). right.
    assert (p < n) as Hp by (by eapply edge_source_lt).
    destruct (walk_last _ _ Hw) as [rest E]. subst w. cbn [retreats] in Hr.
    destruct (Nat.leb_spec (pos b) (pos p)) as [Hret|Hfwd].
    - destruct Hall as [->|Hall]; [lia|].
      apply (Htodo p Hp Hret a); [|done|simpl; lia].
      eapply anc_trans; [exact Ha|]. apply Hcand; [done|auto].
    - apply (Hdone p Hp Hfwd a); [|done|simpl; lia].
      eapply anc_trans; [exact Ha|]. apply Hcand; [done|]. by apply Hearly. }
  split.
  - intros x Hx Hle. destruct (decide (x = b)) as [->|Hne]; [done|].
    assert (pos x < pos b) as Hlt.
    { assert (pos x <> pos b); [|lia]. intros E. by apply pos_inj in E. }
    intros a Ha. apply (anc_update_before idom Ht b c Hb Hb0) in Ha; [|done]. by apply Hdone.
  - intros x Hx Hlt a Ha w Hw Hr.
    destruct (anc_update idom Ht b c Hb Hb0 Hl a x Ha) as [Hold|[Hbx Hac]].
    + apply (Htodo x Hx ltac:(lia) a); done.
    + assert (b ∈ w) as Hbw by (apply (Htodo x Hx ltac:(lia) b); done).
      destruct (walk_prefix w x b Hw Hbw) as (l & w' & -> & Hw' & Hr').
      apply elem_of_app. right. apply (Hbb a); [|done|lia].
      eapply rtc_l; [by apply (parent_update_eq idom Ht b c Hb Hb0 Hl)|].
      apply (anc_update_before idom Ht b c Hb Hb0); [apply Hl|exact Hac].
Qed.

(** *** One pass *)

Lemma pos_split l1 b l2 :
  order = l1 ++ b :: l2 -> (forall x, x ∈ l1 -> pos x < pos b) /\ (forall x, x ∈ l2 -> pos b < pos x).
Proof.
  intros Ho. assert (pos b = length l1) as Hb.
  { apply pos_lookup; [done|]. rewrite Ho. by apply list_lookup_middle. }
  split; intros x [i Hi]%list_elem_of_lookup_1; rewrite Hb.
  - rewrite (pos_lookup succs order order_rpo i x).
    + by eapply lookup_lt_Some.
    + rewrite Ho. by apply lookup_app_l_Some.
  - rewrite (pos_lookup succs order order_rpo (length l1 + S i) x); [lia|].
    rewrite Ho, lookup_app_r by lia. replace (length l1 + S i - length l1) with (S i) by lia. done.
Qed.

Lemma bounded_pass k idom done_ blocks :
  tree idom -> order = done_ ++ blocks -> done_ <> [] ->
  (forall x, x ∈ done_ -> defined idom x) -> (k = 0 \/ forall x, x < n -> defined idom x) ->
  (forall x, x ∈ done_ -> bounded (S k) idom x) -> (forall x, x ∈ blocks -> bounded k idom x) ->
  exists idom' changed, dominator_pass preds position idom blocks = Some (idom', changed) /\
    tree idom' /\ (forall x, x < n -> defined idom' x) /\ (forall x, x < n -> bounded (S k) idom' x).
Proof.
  revert idom done_. induction blocks as [|b blocks IH]; intros idom done_ Ht Ho Hne Hd Hall Hdone Htodo.
  { exists idom, false. rewrite app_nil_r in Ho. subst done_. split_and!; [done..| |];
      intros x Hx%(order_lookup succs order)%list_elem_of_lookup_2; auto. }
  assert (order !! length done_ = Some b) as Hb by (rewrite Ho; by apply list_lookup_middle).
  assert (b < n) as Hbn by (eapply (rpo_bound _ _ order_rpo), list_elem_of_lookup_2, Hb).
  pose proof (pos_lookup succs order order_rpo _ _ Hb) as Hpb.
  assert (b <> 0) as Hb0.
  { intros ->. rewrite (pos_entry succs order order_rpo) in Hpb. by destruct done_. }
  assert (forall x, x < n -> pos x < pos b -> x ∈ done_) as Hbefore.
  { intros x Hx Hlt. rewrite Hpb in Hlt. apply (order_lookup succs order order_rpo order_all) in Hx.
    revert Hx Hlt. generalize (pos x). intros i Hx Hlt. rewrite Ho, lookup_app_l in Hx by done.
    by eapply list_elem_of_lookup_2. }
  assert (forall x, x < n -> pos b <= pos x -> x ∈ b :: blocks) as Hafter.
  { intros x Hx Hle. rewrite Hpb in Hle. apply (order_lookup succs order order_rpo order_all) in Hx.
    revert Hx Hle. generalize (pos x). intros i Hx Hle. rewrite Ho, lookup_app_r in Hx by done.
    by eapply list_elem_of_lookup_2. }
  assert (forall x, x ∈ order -> x < n) as Hbound by (intros x Hx; by apply (rpo_bound _ _ order_rpo)).
  simpl. destruct (dominator_step_candidate succs preds order preds_reversed order_rpo order_all idom b)
    as (c & -> & Hl & Hcd & Hcand & _); [done..| |].
  { intros x Hx Hlt. auto. }
  simpl. destruct (bounded_step k idom b c) as [Hd1 Ht1]; try done.
  { intros x Hx Hlt. auto. }
  { intros x Hx Hlt. auto. }
  { intros x Hx Hlt. auto. }
  pose proof (pos_split _ _ _ Ho) as Hsplit.
  destruct (IH (<[b := Some c]> idom) (done_ ++ [b])) as (i2 & c2 & -> & H2 & H3 & H4).
  - by apply tree_update.
  - by rewrite <- app_assoc.
  - by destruct done_.
  - intros x [Hx| ->%list_elem_of_singleton]%elem_of_app;
      (eapply defined_update; [done..|]); [left; auto|by right].
  - destruct Hall as [->|Hall]; [by left|]. right. intros x Hx.
    eapply defined_update; [done..|]. left. auto.
  - intros x Hx. apply Hd1.
    + apply Hbound. rewrite Ho. rewrite elem_of_app, elem_of_cons.
      apply elem_of_app in Hx as [|Hx%list_elem_of_singleton]; tauto.
    + apply elem_of_app in Hx as [Hx| ->%list_elem_of_singleton]; [|done].
      apply Nat.lt_le_incl. by apply Hsplit.
  - intros x Hx. apply Ht1.
    + apply Hbound. rewrite Ho. rewrite elem_of_app, elem_of_cons. tauto.
    + by apply Hsplit.
  - simpl. eauto 7.
Qed.

(** *** Walks without repetition *)

Lemma simple_walk w b :
  entry_walk succs w b -> exists w', entry_walk succs w' b /\ NoDup w' /\ w' ⊆ w.
Proof.
  induction 1 as [|w p b Hw (w' & Hw' & Hnd & Hsub) He].
  - exists [0]. split_and!; [constructor|apply NoDup_singleton|done].
  - destruct (decide (b ∈ w')) as [Hin|Hn].
    + destruct (walk_prefix w' p b Hw' Hin) as (l & w1 & -> & Hw1 & _). exists w1. split_and!; [done| |].
      * by apply NoDup_app in Hnd as (_ & _ & ?).
      * intros x Hx. right. apply Hsub, elem_of_app. by right.
    + exists (b :: w'). split_and!; [by econstructor|by constructor|].
      intros x [->|Hx]%elem_of_cons; [left|right; by apply Hsub].
Qed.

Lemma simple_retreats w b :
  entry_walk succs w b -> NoDup w -> b <> 0 -> retreats w + 2 <= length w.
Proof.
  induction 1 as [|w p b Hw IH He]; intros Hnd Hb; [done|].
  apply NoDup_cons in Hnd as [Hn Hnd]. destruct (walk_last _ _ Hw) as [rest E]. subst w.
  destruct (decide (p = 0)) as [->|Hp].
  - assert (rest = []) as ->.
    { destruct (walk_inv0 _ Hw) as [E|H0]; [by injection E|].
      apply NoDup_cons in Hnd as [Hn0 _]. done. }
    simpl. rewrite (pos_entry succs order order_rpo).
    pose proof (pos_pos succs order order_rpo order_all b (succs_wf _ _ He) Hb).
    destruct (Nat.leb_spec (pos b) 0); simpl; lia.
  - specialize (IH Hnd Hp). simpl in *. destruct (Nat.leb _ _); simpl; lia.
Qed.

Lemma walk_bound w b : entry_walk succs w b -> 0 < n -> forall x, x ∈ w -> x < n.
Proof.
  intros Hw H0. induction Hw as [|w p b Hw IH He]; intros x.
  - by intros ->%list_elem_of_singleton.
  - intros [->|Hx]%elem_of_cons; eauto.
Qed.

(** After [n - 1] passes every ancestor is a dominator. *)
Lemma bounded_exact j idom a b :
  n - 1 <= j -> b < n -> b <> 0 -> bounded j idom b -> anc idom a b -> dominates_spec succs a b.
Proof.
  intros Hj Hb Hb0 Hbd Ha w Hw.
  destruct (simple_walk w b Hw) as (w' & Hw' & Hnd & Hsub). apply Hsub.
  apply (Hbd a Ha w' Hw'). pose proof (simple_retreats w' b Hw' Hnd Hb0).
  assert (length w' <= n); [|lia].
  assert (w' ⊆+ seq 0 n) as Hs.
  { apply NoDup_submseteq; [done|]. intros x Hx. apply elem_of_seq.
    pose proof (walk_bound w' b Hw' ltac:(lia) x Hx). lia. }
  apply submseteq_length in Hs. by rewrite length_seq in Hs.
Qed.

(** *** The last pass *)

(** When the ancestors are exactly the dominators, no candidate differs. *)
Lemma exact_step idom b :
  tree idom -> (forall x, x < n -> defined idom x) ->
  (forall a x, x < n -> x <> 0 -> anc idom a x -> dominates_spec succs a x) ->
  b < n -> b <> 0 -> dominator_step preds position idom b = Some (idom, false).
Proof.
  intros Ht Hall Hex Hb Hb0.
  assert (forall a x, x < n -> anc idom a x -> dominates_spec succs a x) as Hdom.
  { intros a x Hx Ha. destruct (decide (x = 0)) as [->|]; [|auto].
    destruct (rtc_inv _ _ Ha) as [<-|(y & [? _] & _)]; [apply dominates_refl|done]. }
  destruct (dominator_step_candidate succs preds order preds_reversed order_rpo order_all idom b)
    as (c & -> & Hl & Hcd & Hcand & Hmax); [done..| |].
  { intros x Hx _. auto. }
  assert (c < n) as Hc by apply Hl.
  destruct (defined_parent idom b (Hall b Hb) Hb0) as [p Hp].
  assert (idom.[b] = Some c) as E.
  { pose proof Hp as [_ ->]. f_equal.
    pose proof (parent_pos _ _ idom Ht _ _ Hp) as Hpp.
    assert (p < n) as Hpn by (apply (tree_link _ _ _ Ht b p); [done|apply Hp]).
    assert (dominates_spec succs p b) as Hpb by (apply Hdom; [done|by apply rtc_once]).
    assert (anc idom p c) as H1.
    { apply Hmax. intros q Hq _. apply (dominates_anc succs order idom Ht).
      - apply Hall. by eapply edge_source_lt.
      - eapply dominates_pred; [exact Hpb| |exact Hq]. intros ->. lia. }
    assert (anc idom c p) as H2.
    { apply (anc_parent idom c b); [|done|].
      - apply (dominates_anc succs order idom Ht); [auto|]. intros w Hw.
        destruct (walk_inv w b Hw Hb0) as (q & w' & -> & Hw' & Hq). right.
        assert (q < n) as Hqn by (by eapply edge_source_lt).
        apply (Hdom c q Hqn); [apply Hcand; auto|done].
      - intros ->. pose proof (link_pos _ _ _ _ Hl). lia. }
    eapply pos_inj; [done..|].
    eapply anc_pos in H1; [|done..]. eapply anc_pos in H2; [|done..]. lia. }
  rewrite bool_decide_eq_true_2 by done. simpl. f_equal. f_equal. apply list_insert_id.
  rewrite <- E. apply list_lookup_lookup_total_lt. by rewrite (tree_length _ _ _ Ht).
Qed.

Lemma exact_pass idom blocks :
  tree idom -> (forall x, x < n -> defined idom x) ->
  (forall a x, x < n -> x <> 0 -> anc idom a x -> dominates_spec succs a x) ->
  (forall b, b ∈ blocks -> b < n /\ b <> 0) ->
  dominator_pass preds position idom blocks = Some (idom, false).
Proof.
  intros Ht Hall Hex. induction blocks as [|b blocks IH]; intros Hb; [done|]. simpl.
  rewrite exact_step; [|done..|by apply Hb; left|by apply Hb; left]. simpl.
  rewrite IH; [done|]. intros x Hx. apply Hb. by right.
Qed.

Lemma mapM_id_defined idom :
  length idom = n -> (forall x, x < n -> defined idom x) -> is_Some (mapM id idom).
Proof.
  intros Hl Hall. apply mapM_is_Some. apply Forall_lookup_2. intros i x Hi.
  specialize (Hall i). unfold defined in Hall.
  rewrite (list_lookup_total_correct _ _ _ Hi) in Hall. apply Hall.
  apply lookup_lt_Some in Hi. lia.
Qed.

Lemma passes_total m j idom :
  tree idom -> (j = 0 \/ forall x, x < n -> defined idom x) ->
  (forall x, x < n -> bounded j idom x) -> n <= j + m -> 0 < m -> 0 < n ->
  is_Some (dominator_passes m preds position idom (drop 1 order)).
Proof.
  assert (exists rest, order = 0 :: rest) as [rest Hr].
  { pose proof (rpo_head _ _ order_rpo) as H. destruct order; simplify_eq/=; eauto. }
  replace (drop 1 order) with rest by (by rewrite Hr).
  assert (forall b, b ∈ rest -> b < n /\ b <> 0) as Hrest.
  { intros b Hb. split.
    - apply (rpo_bound _ _ order_rpo). rewrite Hr. by right.
    - intros ->. pose proof (rpo_nodup _ _ order_rpo) as Hnd. rewrite Hr in Hnd.
      by apply NoDup_cons in Hnd as [? _]. }
  revert j idom. induction m as [|m IH]; intros j idom Ht Hall Hbd Hjm Hm Hn; [lia|].
  destruct (bounded_pass j idom [0] rest) as (i1 & ch & Hp & Ht1 & Hd1 & Hb1); try done.
  { intros x ->%list_elem_of_singleton. unfold defined. by rewrite (tree_entry _ _ _ Ht). }
  { intros x ->%list_elem_of_singleton a Ha w Hw _.
    destruct (rtc_inv _ _ Ha) as [<-|(y & [? _] & _)]; [|done]. by eapply entry_in_walk. }
  { intros x Hx. apply Hbd. by apply Hrest. }
  cbn [dominator_passes]. rewrite Hp. cbn [mbind option_bind fst snd].
  destruct ch.
  - destruct (decide (n - 1 <= j)) as [Hex|Hlt].
    + exfalso. assert (dominator_pass preds position idom rest = Some (idom, false)) as E.
      { destruct Hall as [->|Hall].
        - assert (rest = []) as ->; [|done].
          apply (f_equal length) in Hr. rewrite order_all in Hr. simpl in Hr.
          apply nil_length_inv. lia.
        - apply exact_pass; try done. intros a x Hx Hx0. apply (bounded_exact j); auto. }
      rewrite E in Hp. done.
    + apply (IH (S j)); auto; lia.
  - apply mapM_id_defined; [by apply (tree_length _ _ _ Ht1)|done].
Qed.
End convergence.

(** The iteration returns for every graph whose blocks are all reachable. *)
Lemma immediate_dominators_returns (succs preds : graph) :
  wf_graph succs -> reversed succs preds -> 0 < length succs ->
  (forall b, b < length succs -> reachable succs b) ->
  is_Some (immediate_dominators succs preds).
Proof.
  intros Hwf Hrev H0 Hreach. unfold immediate_dominators.
  destruct (reverse_postorder_spec succs Hwf H0) as (order & -> & Hrpo). cbn [mbind option_bind].
  assert (length order = length succs) as Hlen.
  { assert (order ≡ₚ seq 0 (length succs)) as ->; [|apply length_seq].
    apply NoDup_Permutation; [apply Hrpo|apply NoDup_seq|]. intros x. rewrite elem_of_seq. split.
    - intros Hx%(rpo_bound _ _ Hrpo). lia.
    - intros Hx. apply (rpo_reach _ _ Hrpo), Hreach. lia. }
  rewrite Hlen, Nat.eqb_refl. cbn [negb].
  apply (passes_total succs preds order Hwf Hrev Hrpo Hlen _ 0); try done; [|by left|].
  - by apply initial_tree.
  - intros x Hx a Ha w Hw Hr. lia.
Qed.
