(* ===== verification/TopoSort.v ===== *)
(** * The queue-driven topological sorts

    [call_loop] ([verify_call_graph]) and [topo_loop] ([verify_cfg]) process a
    node when its last incoming edge has been released.  All nodes are seen
    exactly when the graph has a rank function (is acyclic), and the depths of
    [call_loop] are the exact longest chain lengths. *)
From stdpp Require Import base numbers list list_numbers relations.
From S2P Require Import Prelude CfgReach CfgAlgorithms DomIntervals.

(** Multiplicity of [v] in [l] *)
Definition occ (v : nat) (l : list nat) : nat := length (filter (eq v) l).

Lemma occ_cons v x l : occ v (x :: l) = (if decide (v = x) then 1 else 0) + occ v l.
Proof. unfold occ. rewrite filter_cons. by destruct (decide (v = x)). Qed.

Lemma occ_pos v l : v ∈ l -> 0 < occ v l.
Proof.
  induction 1; rewrite occ_cons; [rewrite decide_True by done; lia|]. destruct (decide _); lia.
Qed.

Lemma occ_elem v l : 0 < occ v l -> v ∈ l.
Proof.
  unfold occ. destruct (filter (eq v) l) as [|x k] eqn:E; simpl; [lia|]. intros _.
  assert (x ∈ filter (eq v) l) as [-> ?]%list_elem_of_filter by (rewrite E; left). done.
Qed.

(** ** Releasing the successors of one node *)

Lemma release_target_callee caller d s v :
  let r := release_callee caller (mkCallState d s.1 s.2) v in
  release_target s v = (cs_indegree r, cs_queue r).
Proof. by destruct s. Qed.

Lemma release_targets_callees caller l d ind q :
  let r := foldl (release_callee caller) (mkCallState d ind q) l in
  foldl release_target (ind, q) l = (cs_indegree r, cs_queue r).
Proof.
  revert d ind q. induction l as [|v l IH]; intros d ind q; [done|]. simpl.
  rewrite (release_target_callee caller d). simpl. apply IH.
Qed.

(** [topo_loop] is [call_loop] without the depths. *)
Lemma topo_loop_call fuel g d ind q seen :
  topo_loop fuel g ind q seen = snd <$> call_loop fuel g (mkCallState d ind q) seen.
Proof.
  revert d ind q seen. induction fuel as [|fuel IH]; intros d ind q seen; [done|].
  destruct q as [|f q]; simpl; [done|].
  rewrite (release_targets_callees f _ d). simpl.
  destruct (foldl (release_callee f) _ _). apply IH.
Qed.

Record released (f : nat) (l : list nat) (s r : CallState) (new : list nat) : Prop := {
  rl_length : length (cs_depth r) = length (cs_depth s) /\
              length (cs_indegree r) = length (cs_indegree s);
  rl_degree : forall v, (cs_indegree r).[v] = (cs_indegree s).[v] - occ v l;
  rl_queue : cs_queue r = cs_queue s ++ new;
  rl_nodup : NoDup new;
  rl_new : forall v, v ∈ new <-> v ∈ l /\ (cs_indegree r).[v] = 0;
  rl_depth : forall v, v ∈ l ->
    (cs_depth r).[v] = Nat.max (cs_depth s).[v] (S (cs_depth s).[f]);
  rl_same : forall v, v ∉ l -> (cs_depth r).[v] = (cs_depth s).[v] }.

Lemma release_callees_spec f l s :
  f ∉ l ->
  (forall v, v ∈ l -> v < length (cs_depth s) /\ v < length (cs_indegree s) /\
                      occ v l <= (cs_indegree s).[v]) ->
  exists new, released f l s (foldl (release_callee f) s l) new.
Proof.
  revert s. induction l as [|x l IH]; intros s Hf Hl.
  { exists []. split; simpl; try done.
    - intros v. unfold occ. simpl. lia.
    - by rewrite app_nil_r.
    - constructor.
    - intros v. split; [by intros ?%elem_of_nil|by intros [?%elem_of_nil _]]. 
    - by intros v ?%elem_of_nil. }
  apply not_elem_of_cons in Hf as [Hfx Hf].
  destruct (Hl x) as (Hx1 & Hx2 & Hx3); [left|]. rewrite occ_cons, decide_True in Hx3 by done.
  set (s1 := release_callee f s x).
  assert (forall v, (cs_indegree s1).[v] = (cs_indegree s).[v] - (if decide (v = x) then 1 else 0)) as Hi1.
  { intros v. simpl. destruct (decide (v = x)) as [->|].
    - rewrite list_lookup_total_insert_eq by done. lia.
    - rewrite list_lookup_total_insert_ne by done. lia. }
  assert (forall v, (cs_depth s1).[v] = if decide (v = x) then Nat.max (cs_depth s).[v] (S (cs_depth s).[f]) else (cs_depth s).[v]) as Hd1.
  { intros v. simpl. destruct (decide (v = x)) as [->|].
    - by rewrite list_lookup_total_insert_eq by done.
    - by rewrite list_lookup_total_insert_ne by done. }
  destruct (IH s1 Hf) as (new & [[Hr1 Hr2] Hdeg Hq Hnd Hnew Hdep Hsame]).
  { intros v Hv. destruct (Hl v) as (? & ? & Ho); [by right|]. simpl. rewrite !length_insert.
    split_and!; [done..|]. rewrite occ_cons in Ho. specialize (Hi1 v). simpl in Hi1. lia. }
  change (foldl (release_callee f) s (x :: l)) with (foldl (release_callee f) s1 l).
  set (r := foldl (release_callee f) s1 l) in *.
  assert (forall v, (cs_indegree r).[v] = (cs_indegree s).[v] - occ v (x :: l)) as Hdeg'.
  { intros v. rewrite Hdeg, Hi1, occ_cons. lia. }
  assert (forall v, v ∈ x :: l -> (cs_depth r).[v] = Nat.max (cs_depth s).[v] (S (cs_depth s).[f])) as Hdep'.
  { intros v Hv. destruct (decide (v ∈ l)) as [Hvl|Hvl].
    - rewrite Hdep, !Hd1 by done. rewrite (decide_False (P := f = x)) by done.
      destruct (decide (v = x)); lia.
    - apply elem_of_cons in Hv as [->|]; [|done]. by rewrite Hsame, Hd1, decide_True. }
  assert (forall v, v ∉ x :: l -> (cs_depth r).[v] = (cs_depth s).[v]) as Hsame'.
  { intros v [Hvx Hvl]%not_elem_of_cons. by rewrite Hsame, Hd1, decide_False. }
  pose proof (Hi1 x) as Hix. rewrite decide_True in Hix by done.
  assert (cs_queue s1 = cs_queue s ++ if Nat.eqb ((cs_indegree s).[x] - 1) 0 then [x] else []) as Hq1.
  { simpl. replace (pred (cs_indegree s).[x]) with ((cs_indegree s).[x] - 1) by lia.
    destruct (Nat.eqb _ 0); [done|by rewrite app_nil_r]. }
  simpl in Hr1, Hr2. rewrite !length_insert in Hr1, Hr2.
  exists ((if Nat.eqb ((cs_indegree s).[x] - 1) 0 then [x] else []) ++ new).
  split; try done.
  - by rewrite Hq, Hq1, <- app_assoc.
  - destruct (Nat.eqb_spec ((cs_indegree s).[x] - 1) 0) as [E|E]; [|done].
    apply NoDup_cons. split; [|done]. intros [Hin%occ_pos _]%Hnew. lia.
  - intros v. rewrite elem_of_app, Hnew, Hdeg', elem_of_cons.
    destruct (Nat.eqb_spec ((cs_indegree s).[x] - 1) 0) as [E|E].
    + rewrite list_elem_of_singleton. split; [|tauto]. intros [->|[? ?]]; [|tauto].
      split; [by left|]. rewrite occ_cons, decide_True by done. lia.
    + split; [intros [?%elem_of_nil|?]; [done|tauto]|].
      intros [[->|Hv] H0]; [|tauto]. right. split; [|done].
      apply occ_elem. rewrite occ_cons, decide_True in H0 by done. lia.
Qed.

(** ** The loop *)

(** A chain of [k] nodes ending in [v] *)
Inductive chain_to (g : graph) : nat -> nat -> Prop :=
  | chain_single v : chain_to g v 1
  | chain_next u v k : chain_to g u k -> edge g u v -> chain_to g v (S k).

(** [rank] decreases along no edge. *)
Definition ranked (g : graph) (rank : nat -> nat) : Prop :=
  forall u v, edge g u v -> rank u < rank v.

Definition acyclic (g : graph) : Prop := exists rank, ranked g rank.

(** Number of edges into [v] from the nodes of [us] *)
Definition edges_into (g : graph) (us : list nat) (v : nat) : nat :=
  sum_list_with (fun u => occ v g.[u]) us.

Lemma edges_into_pos g us v : 0 < edges_into g us v <-> exists u, u ∈ us /\ edge g u v.
Proof.
  split.
  - induction us as [|u us IH]; simpl; [lia|]. intros H.
    destruct (decide (0 < occ v g.[u])) as [Ho|Ho].
    + exists u. split; [left|by apply occ_elem].
    + destruct IH as (u' & ? & ?); [unfold edges_into in *; lia|]. exists u'. split; [by right|done].
  - intros (u & Hu & He). apply occ_pos in He.
    pose proof (sum_list_with_in u (fun u => occ v g.[u]) us Hu) as H. simpl in H.
    unfold edges_into. lia.
Qed.

Section loop.
Context (g : graph) (g_wf : wf_graph g).
Notation n := (length g).

Record topo_inv (done_ todo : list nat) (s : CallState) : Prop := {
  ti_perm : done_ ++ todo ≡ₚ seq 0 n;
  ti_length : length (cs_depth s) = n /\ length (cs_indegree s) = n;
  ti_degree : forall v, v < n -> (cs_indegree s).[v] = edges_into g todo v;
  ti_nodup : NoDup (cs_queue s);
  ti_queue : forall v, v ∈ cs_queue s <-> v ∈ todo /\ (cs_indegree s).[v] = 0;
  ti_done : forall v, v ∈ done_ -> (cs_indegree s).[v] = 0;
  ti_depth : forall u v, u ∈ done_ -> edge g u v -> (cs_depth s).[u] < (cs_depth s).[v];
  ti_chain : forall v, v < n -> chain_to g v (cs_depth s).[v] }.

Lemma topo_inv_step done_ todo d ind f q :
  topo_inv done_ todo (mkCallState d ind (f :: q)) ->
  exists todo', topo_inv (done_ ++ [f]) todo'
    (foldl (release_callee f) (mkCallState d ind q) g.[f]).
Proof.
  intros [Hp [Hl1 Hl2] Hdeg Hnd Hq Hdone Hdep Hch]. simpl in *.
  apply NoDup_cons in Hnd as [Hfq Hnd].
  assert (f ∈ todo /\ ind.[f] = 0) as [Hft Hf0] by (apply Hq; left).
  assert (forall x, x ∈ done_ ++ todo <-> x < n) as Hall.
  { intros x. rewrite Hp, elem_of_seq. lia. }
  assert (f < n) as Hfn by (apply Hall, elem_of_app; by right).
  assert (f ∉ g.[f]) as Hself.
  { intros Hin. assert (0 < edges_into g todo f) by (apply edges_into_pos; by exists f).
    rewrite <- Hdeg in *; lia. }
  apply elem_of_Permutation in Hft as [todo' Hperm].
  assert (forall v, edges_into g todo v = occ v g.[f] + edges_into g todo' v) as Hsplit.
  { intros v. unfold edges_into. by rewrite Hperm. }
  assert (NoDup (done_ ++ f :: todo')) as Hnd'.
  { rewrite <- Hperm, Hp. apply NoDup_seq. }
  destruct (release_callees_spec f g.[f] (mkCallState d ind q)) as [new Hr]; [done| |].
  { intros v Hv. pose proof (g_wf f v Hv). simpl. rewrite Hl1, Hl2, Hdeg, Hsplit by done. lia. }
  destruct Hr as [(Hr1 & Hr2) Hrd Hrq Hrn Hrnew Hrdep Hrsame].
  set (r := foldl _ _ _) in *. simpl in *.
  assert (forall u, edge g f u -> (u ∉ done_) /\ u <> f) as Hout.
  { intros u Hu. split; [|intros ->; done]. intros Hud. apply Hdone in Hud.
    assert (0 < edges_into g todo u).
    { apply edges_into_pos. exists f. rewrite Hperm. split; [left|done]. }
    rewrite <- Hdeg in *; [lia|eauto]. }
  exists todo'. split.
  - by rewrite <- app_assoc, <- Hperm.
  - lia.
  - intros v Hv. rewrite Hrd, Hdeg, Hsplit by done. lia.
  - rewrite Hrq. apply NoDup_app. split_and!; [done| |done].
    intros v Hv [Hv1%occ_pos Hv2]%Hrnew.
    destruct (proj1 (Hq v)) as [_ Hv0]; [by right|].
    assert (v < n) as Hvn by (by eapply g_wf, occ_elem). specialize (Hdeg v Hvn).
    rewrite Hsplit in Hdeg. lia.
  - intros v. rewrite Hrq, elem_of_app, Hrnew, Hrd. split.
    + intros [Hv|[Hv1 Hv2]].
      * destruct (proj1 (Hq v)) as [Hvt Hv0]; [by right|]. rewrite Hv0. split; [|done].
        rewrite Hperm in Hvt. apply elem_of_cons in Hvt as [->|]; done.
      * split; [|done]. destruct (Hout v Hv1) as [Hvd Hvf].
        assert (v ∈ done_ ++ f :: todo') as Hin.
        { rewrite <- Hperm. apply Hall. eauto. }
        apply elem_of_app in Hin as [|[|]%elem_of_cons]; done.
    + intros [Hv1 Hv2]. destruct (decide (v ∈ g.[f])) as [|Hn]; [by right|]. left.
      assert (occ v g.[f] = 0) as E0.
      { destruct (occ v g.[f]) eqn:E; [done|]. destruct Hn. apply occ_elem. lia. }
      assert (v ∈ f :: q) as Hin.
      { apply Hq. rewrite Hperm. split; [by right|lia]. }
      apply elem_of_cons in Hin as [->|]; [|done].
      apply NoDup_app in Hnd' as (_ & _ & [? _]%NoDup_cons). done.
  - intros v [Hv| ->%list_elem_of_singleton]%elem_of_app; rewrite Hrd; [rewrite Hdone by done|]; lia.
  - intros u v [Hu| ->%list_elem_of_singleton]%elem_of_app He.
    + rewrite (Hrsame u) by (intros Huf; by destruct (Hout u Huf)).
      specialize (Hdep u v Hu He). destruct (decide (v ∈ g.[f])).
      * rewrite Hrdep by done. lia.
      * by rewrite Hrsame.
    + rewrite (Hrsame f), Hrdep by done. lia.
  - intros v Hv. destruct (decide (v ∈ g.[f])) as [Hin|]; [|rewrite Hrsame by done; auto].
    rewrite Hrdep by done. destruct (Nat.max_spec d.[v] (S d.[f])) as [[_ ->]|[_ ->]]; [|auto].
    eapply chain_next; [|exact Hin]. auto.
Qed.

Lemma call_loop_spec fuel done_ todo s :
  topo_inv done_ todo s -> length todo < fuel ->
  exists done' todo' s', call_loop fuel g s (length done_) = Some (cs_depth s', length done') /\
    topo_inv done' todo' s' /\ cs_queue s' = [].
Proof.
  revert done_ todo s. induction fuel as [|fuel IH]; intros done_ todo s Hi Hf; [lia|].
  destruct s as [d ind [|f q]]; [by exists done_, todo, (mkCallState d ind [])|].
  destruct (topo_inv_step _ _ _ _ _ _ Hi) as [todo' Hi'].
  assert (length todo' < fuel) as Hf'.
  { pose proof (Permutation_length (ti_perm _ _ _ Hi)) as E1.
    pose proof (Permutation_length (ti_perm _ _ _ Hi')) as E2.
    rewrite !length_app in *. simpl in *. lia. }
  destruct (IH _ _ _ Hi' Hf') as (done' & t' & s' & E & H1 & H2).
  exists done', t', s'. split_and!; [|done..]. rewrite <- E.
  cbn [call_loop cs_queue cs_depth cs_indegree]. by rewrite length_app, Nat.add_comm.
Qed.

Lemma zero_degree_spec ind v : v ∈ zero_degree ind <-> v < length ind /\ ind.[v] = 0.
Proof.
  unfold zero_degree, enumerate. rewrite list_elem_of_bind. split.
  - intros ((i, x) & Hv & Hin). apply elem_of_lookup_imap in Hin as (k & y & E & Hk).
    simplify_eq. destruct (Nat.eqb_spec y 0) as [E0|]; [|by apply elem_of_nil in Hv].
    rewrite E0 in Hk.
    apply list_elem_of_singleton in Hv as ->. split; [by eapply lookup_lt_Some|].
    by apply list_lookup_total_correct.
  - intros [Hv H0]. exists (v, ind.[v]). rewrite H0. split; [left|].
    apply elem_of_lookup_imap. exists v, 0. split; [done|].
    rewrite <- H0. by apply list_lookup_lookup_total_lt.
Qed.

Lemma zero_degree_nodup ind : NoDup (zero_degree ind).
Proof.
  assert (forall (f : nat -> nat), (forall i j, f i = f j -> i = j) ->
    NoDup (imap (fun i x => (f i, x)) ind ≫= fun '(index, degree) => if Nat.eqb degree 0 then [index] else [])) as H.
  { induction ind as [|x ind IH]; intros f Hinj; [constructor|]. simpl.
    assert (NoDup (imap (fun i x => ((f ∘ S) i, x)) ind ≫= fun '(index, degree) => if Nat.eqb degree 0 then [index] else [])) as Hrec.
    { apply IH. simpl. intros i j E%Hinj. lia. }
    destruct (Nat.eqb x 0); [|exact Hrec]. apply NoDup_cons. split; [|exact Hrec].
    intros ((i, y) & Hv & Hin)%list_elem_of_bind.
    apply elem_of_lookup_imap in Hin as (k & z & E & Hk). injection E as Ei _.
    destruct (Nat.eqb _ 0); [|by apply elem_of_nil in Hv].
    apply list_elem_of_singleton in Hv. rewrite Ei in Hv. apply Hinj in Hv. lia. }
  apply (H id). done.
Qed.

(** The whole sort from the in-degrees: it always ends within its fuel, it sees
    every node exactly when the graph is acyclic, and then the depths increase
    along every edge and are the lengths of actual chains. *)
Lemma call_loop_correct ind :
  length ind = n -> (forall v, v < n -> ind.[v] = edges_into g (seq 0 n) v) ->
  exists depth seen,
    call_loop (n + 1) g (mkCallState (replicate n 1) ind (zero_degree ind)) 0 = Some (depth, seen) /\
    length depth = n /\ (seen = n <-> acyclic g) /\
    (seen = n -> ranked g (fun v => depth.[v])) /\
    (forall v, v < n -> chain_to g v depth.[v]).
Proof.
  intros Hlen Hdeg.
  destruct (call_loop_spec (n + 1) [] (seq 0 n)
              (mkCallState (replicate n 1) ind (zero_degree ind))) as (done' & todo' & s' & E & Hi & Hq).
  { split; simpl; try done.
    - by rewrite length_replicate.
    - apply zero_degree_nodup.
    - intros v. rewrite zero_degree_spec, elem_of_seq, Hlen. lia.
    - by intros v ?%elem_of_nil.
    - by intros u v ?%elem_of_nil.
    - intros v Hv. rewrite replicate_total by done. constructor. }
  { rewrite length_seq. lia. }
  destruct Hi as [Hp [Hl1 _] Hd _ Hqq _ Hdep Hch].
  exists (cs_depth s'), (length done'). split_and!; [exact E|done| | |done].
  all: pose proof (Permutation_length Hp) as El; rewrite length_app, length_seq in El.
  all: assert (length done' = n -> ranked g (fun v => (cs_depth s').[v])) as Hrank.
  1,3: intros Es u v He; apply Hdep; [|done]; destruct todo'; [|simpl in El; lia];
       rewrite app_nil_r in Hp; rewrite Hp, elem_of_seq; apply edge_source_lt in He; lia.
  2: exact Hrank.
  split; [intros Es; eexists; by apply Hrank|]. intros [rank Hr].
  destruct todo' as [|t0 todo']; [simpl in El; lia|]. exfalso.
  assert (exists m, m ∈ t0 :: todo') as [m Hm] by (exists t0; left).
  remember (rank m) as k eqn:Ek. revert m Hm Ek. induction (lt_wf k) as [k _ IH]. intros m Hm ->.
  assert (m < n) as Hmn.
  { assert (m ∈ done' ++ t0 :: todo') as Hin by (apply elem_of_app; by right).
    rewrite Hp, elem_of_seq in Hin. lia. }
  destruct (decide (0 < (cs_indegree s').[m])) as [Hpos|Hz].
  - rewrite Hd in Hpos by done. apply edges_into_pos in Hpos as (u & Hu & He).
    eapply IH; [by apply Hr in He|exact Hu|done].
  - apply (not_elem_of_nil m). rewrite <- Hq. apply Hqq. split; [done|lia].
Qed.
End loop.
