(* ===== verification/ControlFlowSpec.v ===== *)
(** * Well-formed ControlFlowV1 programs

    The declarative meaning of what [verify] accepts, stated on the raw program
    alone: dense identifiers, exact types, single terminators, edges that match
    their target's parameters, definitions that dominate their uses on every
    walk of the control-flow graph, reducible loops and an acyclic bounded call
    graph. *)
From stdpp Require Import base numbers list list_numbers relations.
From S2P Require Import Prelude Source CfgAlgorithms CfgReach TopoSort ControlFlow.

(** ** Control-flow graph of a function *)

Definition terminator_targets (t : Terminator) : list nat :=
  match t with
  | Return _ => []
  | Jump target _ => [N.to_nat target]
  | Branch _ t1 _ t2 _ => [N.to_nat t1; N.to_nat t2]
  end.

Definition block_targets (block : Block) : list nat :=
  match b_terminators block with [t] => terminator_targets (tm_kind t) | _ => [] end.

Definition cfg (function : Function_) : graph := block_targets <$> f_blocks function.

(** ** Values *)

(** Every definition of a function with its place, in canonical order *)
Definition block_values (b : nat) (block : Block) : list (ValueDefinition * DefinitionLocation) :=
  ((fun d => (d, LocBlockParameter b)) <$> b_parameters block)
  ++ imap (fun i ins => (in_result ins, LocInstruction b i)) (b_instructions block).

Definition value_table (function : Function_) : list (ValueDefinition * DefinitionLocation) :=
  ((fun d => (d, LocParameter)) <$> f_parameters function)
  ++ (enumerate (f_blocks function) ≫= fun '(b, block) => block_values b block).

(** The definition at [location] has been executed on every walk to position
    [p] of block [b]. *)
Definition available (g : graph) (location : DefinitionLocation) (b p : nat) : Prop :=
  match location with
  | LocParameter => True
  | LocBlockParameter c => dominates_spec g c b
  | LocInstruction c q => if decide (c = b) then q < p else dominates_spec g c b
  end.

(** Operand [v] has type [ty] and its definition is available. *)
Definition operand_ok (function : Function_) (b p : nat) (v : ValueId) (ty : Ty) : Prop :=
  exists d l, get (value_table function) v = Some (d, l) /\ vd_ty d = ty /\
    available (cfg function) l b p.

(** ** Instructions and terminators *)

Definition instruction_ok (signatures : Signatures) (function : Function_) (b p : nat)
    (ins : Instruction) : Prop :=
  let ok := operand_ok function b p in
  let result := vd_ty (in_result ins) in
  match in_kind ins with
  | BoolLiteral _ => result = Bool
  | I32Literal _ => result = I32
  | I32Neg x => ok x I32 /\ result = I32
  | I32Add x y | I32Sub x y | I32Mul x y => ok x I32 /\ ok y I32 /\ result = I32
  | I32LtS x y | I32LeS x y | I32GtS x y | I32GeS x y => ok x I32 /\ ok y I32 /\ result = Bool
  | Eq x y | Ne x y => exists ty, ok x ty /\ ok y ty /\ result = Bool
  | DirectCall callee arguments =>
      exists key parameters,
        lookup_signature signatures callee = Some (key, (parameters, result)) /\
        Forall2 ok arguments parameters
  end.

Definition edge_ok (function : Function_) (b p : nat) (target : BlockId)
    (arguments : list ValueId) : Prop :=
  exists block, get (f_blocks function) target = Some block /\ target <> 0%N /\
    Forall2 (fun v d => operand_ok function b p v (vd_ty d)) arguments (b_parameters block).

Definition terminator_ok (function : Function_) (b p : nat) (t : Terminator) : Prop :=
  match t with
  | Return v => operand_ok function b p v (f_result function)
  | Jump target arguments => edge_ok function b p target arguments
  | Branch condition t1 args1 t2 args2 =>
      operand_ok function b p condition Bool /\
      edge_ok function b p t1 args1 /\ edge_ok function b p t2 args2
  end.

(** ** Functions *)

(** Every edge that does not go back to a dominating header increases a rank. *)
Definition reducible (g : graph) : Prop :=
  exists rank, forall a b, edge g a b -> dominates_spec g b a \/ rank a < rank b.

Record block_ok (signatures : Signatures) (function : Function_) (b : nat) (block : Block)
    : Prop := {
  bo_id : b_id block = N.of_nat b;
  bo_entry : b = 0 -> b_parameters block = [];
  bo_instructions : forall i ins, b_instructions block !! i = Some ins ->
    instruction_ok signatures function b i ins;
  bo_terminator : exists t, b_terminators block = [t] /\
    terminator_ok function b (length (b_instructions block)) (tm_kind t) }.

Record function_ok (signatures : Signatures) (function : Function_) : Prop := {
  fo_result : f_result function <> Unit;
  fo_nonempty : f_blocks function <> [];
  fo_values : forall i d l, value_table function !! i = Some (d, l) ->
    vd_id d = N.of_nat i /\ vd_ty d <> Unit;
  fo_blocks : forall b block, f_blocks function !! b = Some block ->
    block_ok signatures function b block;
  fo_reachable : forall b, b < length (f_blocks function) -> reachable (cfg function) b;
  fo_reducible : reducible (cfg function) }.

(** ** Programs *)

Definition program_function (program : Program_) (key : FunctionKey) : option Function_ :=
  module ← p_modules program !! fk_module key; m_functions module !! fk_function key.

Definition callee_key (callee : FunctionId) : FunctionKey :=
  mkFunctionKey (N.to_nat (fid_module callee)) (N.to_nat (fid_declaration callee)).

(** [caller] contains a direct call of [callee]. *)
Definition calls (program : Program_) (caller callee : FunctionKey) : Prop :=
  exists function b block i ins id arguments,
    program_function program caller = Some function /\
    f_blocks function !! b = Some block /\ b_instructions block !! i = Some ins /\
    in_kind ins = DirectCall id arguments /\ callee = callee_key id.

(** A nesting depth of at most [bound] for every call chain *)
Definition call_depth_bounded (program : Program_) (bound : nat) : Prop :=
  exists depth : FunctionKey -> nat,
    forall caller callee, calls program caller callee ->
      0 < depth caller /\ depth caller < depth callee /\ depth callee <= bound.

Record program_ok (program : Program_) : Prop := {
  po_functions : forall key function, program_function program key = Some function ->
    function_ok (collect_signatures program) function;
  po_calls : call_depth_bounded program 128 }.
