(* ===== verification/CheckLogic.v ===== *)
(** * A logic for diagnostic-free runs of the checker

    The verifier reports by pushing diagnostics and keeps going, so a program is
    accepted when a whole run leaves the error buffer clean.  [sound m P] reads:
    if the run of [m] ends clean, it started clean and [P] relates its states. *)
From stdpp Require Import base numbers list.
From S2P Require Import Prelude Source Diagnostics ControlFlow.

(** A checker state holds an error buffer. *)
Class HasErrors (S : Type) := errors_of : S -> Errors.
#[export] Instance st_has_errors : HasErrors St := st_errors.
#[export] Instance pre_has_errors : HasErrors Pre := pr_errors.

Definition clean {S} `{HE : HasErrors S} (s : S) : Prop := errors_of s = no_errors.

Section generic.
Context {S : Type} `{HE : HasErrors S}.

Definition sound {A} (m : M S A) (P : S -> option A -> S -> Prop) : Prop :=
  forall s, clean (m s).1 -> clean s /\ P s (m s).2 (m s).1.

(** A run that leaves the state unchanged and establishes [P] of it *)
Definition checks {A} (m : M S A) (P : S -> A -> Prop) : Prop :=
  sound m (fun s o s' => s' = s /\ exists a, o = Some a /\ P s a).

Lemma sound_weaken {A} (m : M S A) (P Q : S -> option A -> S -> Prop) :
  sound m P -> (forall s o s', P s o s' -> Q s o s') -> sound m Q.
Proof. intros Hm HPQ s Hc. destruct (Hm s Hc). auto. Qed.

Lemma checks_weaken {A} (m : M S A) (P Q : S -> A -> Prop) :
  checks m P -> (forall s a, P s a -> Q s a) -> checks m Q.
Proof. intros Hm HPQ. eapply sound_weaken; [exact Hm|]. intros s o s' (-> & a & -> & H). eauto. Qed.

Lemma sound_bind {A B} (m : M S A) (f : A -> M S B) P Q :
  sound m P -> (forall a, sound (f a) (Q a)) ->
  sound (m ≫= f) (fun s o s' =>
    (o = None /\ P s None s') \/ exists a s1, P s (Some a) s1 /\ Q a s1 o s').
Proof.
  intros Hm Hf s Hc. unfold mbind, M_bind in *. specialize (Hm s).
  destruct (m s) as [s1 [a|]]; simpl in *; [|by destruct (Hm Hc); auto].
  destruct (Hf a s1 Hc) as [Hc1 HQ]. destruct (Hm Hc1). eauto 6.
Qed.

(** Binding after a check: the continuation runs from the same state. *)
Lemma sound_checks_bind {A B} (m : M S A) (f : A -> M S B) P Q :
  checks m P -> (forall a, sound (f a) (Q a)) ->
  sound (m ≫= f) (fun s o s' => exists a, P s a /\ Q a s o s').
Proof.
  intros Hm Hf. eapply sound_weaken; [by apply sound_bind|].
  intros s o s' [[_ (_ & a & [=] & _)]|(a & s1 & (-> & a' & [= ->] & HP) & HQ)]; eauto.
Qed.

Lemma checks_bind {A B} (m : M S A) (f : A -> M S B) P Q :
  checks m P -> (forall a, checks (f a) (Q a)) ->
  checks (m ≫= f) (fun s b => exists a, P s a /\ Q a s b).
Proof.
  intros Hm Hf. eapply sound_weaken; [exact (sound_checks_bind m f P (fun a s o s' => s' = s /\ exists b, o = Some b /\ Q a s b) Hm Hf)|].
  intros s o s' (a & HP & -> & b & -> & HQ). eauto 6.
Qed.

Lemma checks_ret {A} (a : A) : checks (mret a) (fun _ b => b = a).
Proof. intros s Hc. split; [done|]. eauto. Qed.

Lemma checks_gets {A} (f : S -> A) : checks (gets f) (fun s a => a = f s).
Proof. intros s Hc. split; [done|]. eauto. Qed.

Lemma sound_return {A} : sound (return_now (A := A)) (fun s o s' => o = None /\ s' = s).
Proof. intros s Hc. split; done. Qed.

Lemma checks_when b (m : M S unit) :
  (forall P, sound m P) -> checks (when b m) (fun _ _ => b = false).
Proof. intros Hm. destruct b; simpl; [apply Hm|]. intros s Hc. split; [done|]. eauto. Qed.

Lemma sound_body m P :
  sound m P -> sound (body m) (fun s o s' => o = Some tt /\ exists o', P s o' s').
Proof. intros Hm s Hc. destruct (Hm s Hc) as [? HP]. split; [done|]. split; [done|]. eexists. exact HP. Qed.

Lemma checks_for_each {A} (l : list A) (f : A -> M S unit) P :
  (forall x, x ∈ l -> checks (f x) (fun s _ => P x s)) ->
  checks (for_each l f) (fun s _ => forall x, x ∈ l -> P x s).
Proof.
  induction l as [|x l IH]; intros Hf; simpl.
  - intros s Hc. split; [done|]. split; [done|]. exists tt. split; [done|]. by intros x ?%elem_of_nil.
  - eapply checks_weaken.
    + apply checks_bind with (P := fun s _ => P x s) (Q := fun _ s _ => forall y, y ∈ l -> P y s);
        [apply Hf; left|]. intros ?. apply IH. intros y Hy. apply Hf. by right.
    + intros s [] ([] & Hx & Hl) y [->|Hy]%elem_of_cons; auto.
Qed.

(** A loop that changes the state: [P] links consecutive states. *)
Fixpoint chain {A} (P : A -> S -> S -> Prop) (l : list A) (s s' : S) : Prop :=
  match l with
  | [] => s' = s
  | x :: l => exists s1, P x s s1 /\ chain P l s1 s'
  end.

Lemma sound_for_each {A} (l : list A) (f : A -> M S unit) P :
  (forall x, x ∈ l -> sound (f x) (fun s o s' => o = Some tt /\ P x s s')) ->
  sound (for_each l f) (fun s o s' => o = Some tt /\ chain P l s s').
Proof.
  induction l as [|x l IH]; intros Hf; simpl; [intros s Hc; done|].
  eapply sound_weaken.
  - apply sound_bind with (P := fun s o s' => o = Some tt /\ P x s s')
      (Q := fun _ s o s' => o = Some tt /\ chain P l s s'); [apply Hf; left|].
    intros ?. apply IH. intros y Hy. apply Hf. by right.
  - intros s o s' [[_ [[=] _]]|([] & s1 & [_ H1] & -> & H2)]. eauto.
Qed.

(** A clean end means a clean start. *)
Definition mono {A} (m : M S A) : Prop := sound m (fun _ _ _ => True).

Lemma mono_sound {A} (m : M S A) P : sound m P -> mono m.
Proof. intros Hm. eapply sound_weaken; [exact Hm|done]. Qed.

Lemma mono_checks {A} (m : M S A) P : checks m P -> mono m.
Proof. apply mono_sound. Qed.

Lemma mono_bind {A B} (m : M S A) (f : A -> M S B) :
  mono m -> (forall a, mono (f a)) -> mono (m ≫= f).
Proof.
  intros Hm Hf. eapply mono_sound, (sound_bind m f _ (fun _ _ _ _ => True)); [exact Hm|exact Hf].
Qed.

Lemma mono_body m : mono m -> mono (body m).
Proof. intros Hm. eapply mono_sound, sound_body, Hm. Qed.

Lemma mono_when b m : mono m -> mono (when b m).
Proof. intros Hm. destruct b; [done|]. eapply mono_checks, checks_ret. Qed.

Lemma mono_for_each {A} (l : list A) (f : A -> M S unit) :
  (forall x, mono (f x)) -> mono (for_each l f).
Proof.
  intros Hf. induction l as [|x l IH]; [eapply mono_checks, checks_ret|]. by apply mono_bind.
Qed.

Lemma mono_ret {A} (a : A) : mono (mret a).
Proof. eapply mono_checks, checks_ret. Qed.

Lemma mono_gets {A} (f : S -> A) : mono (gets f).
Proof. eapply mono_checks, checks_gets. Qed.

Lemma mono_return {A} : mono (return_now (A := A)).
Proof. eapply mono_sound, sound_return. Qed.

Lemma run_checks {A B} (m : M S A) (f : A -> M S B) P s :
  checks m P -> (forall a, mono (f a)) -> clean ((m ≫= f) s).1 ->
  exists a, P s a /\ (m ≫= f) s = f a s.
Proof.
  intros Hm Hf Hc. unfold mbind, M_bind in *. specialize (Hm s). destruct (m s) as [s1 o]. simpl in *.
  destruct o as [a|].
  - destruct (Hf a s1 Hc) as [Hc1 _]. destruct (Hm Hc1) as (_ & -> & a' & [= ->] & HP). eauto.
  - destruct (Hm Hc) as (_ & -> & a' & [=] & HP).
Qed.

Lemma run_sound {A B} (m : M S A) (f : A -> M S B) P s :
  sound m (fun s o s' => exists a, o = Some a /\ P s a s') -> (forall a, mono (f a)) ->
  clean ((m ≫= f) s).1 -> exists a s1, P s a s1 /\ (m ≫= f) s = f a s1.
Proof.
  intros Hm Hf Hc. unfold mbind, M_bind in *. specialize (Hm s). destruct (m s) as [s1 o]. simpl in *.
  destruct o as [a|].
  - destruct (Hf a s1 Hc) as [Hc1 _]. destruct (Hm Hc1) as (_ & a' & [= ->] & HP). eauto.
  - destruct (Hm Hc) as (_ & a' & [=] & HP).
Qed.

Lemma run_for_each {A B} (l : list A) (f : A -> M S unit) (g : unit -> M S B) P s :
  (forall x, x ∈ l -> sound (f x) (fun s o s' => o = Some tt /\ P x s s')) ->
  (forall u, mono (g u)) -> clean ((for_each l f ≫= g) s).1 ->
  exists s1, chain P l s s1 /\ (for_each l f ≫= g) s = g tt s1.
Proof.
  intros Hf Hg Hc. destruct (run_sound (for_each l f) g (fun s _ s' => chain P l s s') s)
    as ([] & s1 & Hch & E); [|done..|by eauto].
  eapply sound_weaken; [apply (sound_for_each l f P Hf)|]. simpl. intros s0 o s' [-> H]. eauto.
Qed.

(** Starts the proof of a [checks] statement. *)
Lemma checks_intro {A} (m : M S A) (P : S -> A -> Prop) :
  mono m -> (forall s, clean (m s).1 -> (m s).1 = s /\ exists a, (m s).2 = Some a /\ P s a) ->
  checks m P.
Proof. intros Hm H s Hc. destruct (Hm s Hc). auto. Qed.

Lemma checks_body_intro (m : M S unit) (P : S -> Prop) :
  mono m -> (forall s, clean (m s).1 -> (m s).1 = s /\ P s) -> checks (body m) (fun s _ => P s).
Proof.
  intros Hm H. apply checks_intro; [by apply mono_body|]. intros s Hc.
  destruct (H s Hc). split; [done|]. exists tt. done.
Qed.

Lemma sound_modify (f : S -> S) :
  (forall s, errors_of (f s) = errors_of s) ->
  sound (modify f) (fun s o s' => o = Some tt /\ s' = f s).
Proof. intros Hf s Hc. split; [|done]. unfold clean in *. by rewrite <- Hf. Qed.

Lemma mono_modify (f : S -> S) : (forall s, errors_of (f s) = errors_of s) -> mono (modify f).
Proof. intros Hf. by eapply mono_sound, sound_modify. Qed.
End generic.

Lemma checks_exhausted : checks check_exhausted (fun _ _ => True).
Proof.
  intros s Hc. unfold check_exhausted in *.
  destruct (er_exhausted (st_errors s)) eqn:E; simpl in *; [|eauto].
  unfold clean, errors_of, st_has_errors in Hc. rewrite Hc in E. done.
Qed.

Lemma errors_push_dirty d e : errors_push d e <> no_errors.
Proof.
  unfold errors_push, no_errors. destruct e as [ds []]; simpl; [done|].
  destruct (_ <? _)%N; [|done]. intros [= E]. by destruct ds.
Qed.

Lemma errors_limit_dirty label maximum e : errors_limit label maximum e <> no_errors.
Proof. unfold errors_limit, no_errors. by destruct e as [ds []]. Qed.

(** Nothing that reports is clean. *)
Lemma sound_push d P : sound (push d) P.
Proof. intros s Hc. by apply errors_push_dirty in Hc. Qed.

Lemma sound_limit label maximum P : sound (limit label maximum) P.
Proof. intros s Hc. by apply errors_limit_dirty in Hc. Qed.

Lemma sound_push_checked d P : sound (push_checked d) P.
Proof.
  intros s Hc. exfalso. unfold push_checked, check_exhausted, mbind, M_bind in Hc. simpl in Hc.
  destruct (er_exhausted _) in Hc; by apply errors_push_dirty in Hc.
Qed.

Lemma enumerate_elem {A} (l : list A) i x : (i, x) ∈ enumerate l <-> l !! i = Some x.
Proof.
  unfold enumerate. rewrite elem_of_lookup_imap. split.
  - intros (j & y & E & Hj). by simplify_eq.
  - eauto.
Qed.

(** ** Forward reasoning on a clean run *)

Lemma mono_exhausted : mono check_exhausted.
Proof. eapply mono_checks, checks_exhausted. Qed.

Lemma mono_push d : mono (push d).
Proof. apply sound_push. Qed.
Lemma mono_limit label maximum : mono (limit label maximum).
Proof. apply sound_limit. Qed.
Lemma mono_push_checked d : mono (push_checked d).
Proof. apply sound_push_checked. Qed.

Create HintDb mono.
Create HintDb checks.
#[export] Hint Resolve mono_bind mono_body mono_when mono_for_each mono_ret mono_gets
  mono_exhausted mono_return mono_push mono_limit mono_push_checked : mono.

(** Proves [mono] of a checker by following its structure *)
Ltac solve_mono :=
  repeat lazymatch goal with
    | |- forall _, _ => intro
    | |- mono (_ ≫= _) => apply mono_bind
    | |- mono (body _) => apply mono_body
    | |- mono (when _ _) => apply mono_when
    | |- mono (for_each _ _) => apply mono_for_each
    | |- mono (modify _) => first [solve [auto] | apply mono_modify; intros ?; reflexivity]
    | |- mono (match ?x with _ => _ end) => destruct x
    | |- mono _ =>
        first [ solve [eauto with mono nocore]
              | eapply mono_checks; solve [eauto with checks nocore] ]
    end.

Lemma checks_when_push b d : checks (when b (push d)) (fun _ _ => b = false).
Proof. apply checks_when, sound_push. Qed.
Lemma checks_when_push_checked b d : checks (when b (push_checked d)) (fun _ _ => b = false).
Proof. apply checks_when, sound_push_checked. Qed.
Lemma checks_when_limit b label maximum :
  checks (when b (limit label maximum)) (fun _ _ => b = false).
Proof. apply checks_when, sound_limit. Qed.

#[export] Hint Resolve checks_ret checks_exhausted checks_when_push
  checks_when_push_checked checks_when_limit : checks.
#[export] Hint Resolve checks_gets | 10 : checks.

(** [errors.exhausted()] is [false] in a clean run. *)
Lemma checks_gets_exhausted :
  checks (gets (fun s => er_exhausted (st_errors s))) (fun _ b => b = false).
Proof.
  intros s Hc. split; [done|]. split; [done|]. exists false. split; [|done]. simpl.
  unfold clean, errors_of, st_has_errors in Hc. simpl in Hc. by rewrite Hc.
Qed.
#[export] Hint Resolve checks_gets_exhausted | 1 : checks.

Lemma push_dirty d s : ~ clean (push d s).1.
Proof. intros Hc. by apply errors_push_dirty in Hc. Qed.
Lemma push_checked_dirty d s : ~ clean (push_checked d s).1.
Proof. intros Hc. by destruct (sound_push_checked d (fun _ _ _ => False) s Hc). Qed.
Lemma push_bind_dirty {A} d (f : unit -> M St A) s :
  (forall u, mono (f u)) -> ~ clean ((push d ≫= f) s).1.
Proof. intros Hf Hc. destruct (Hf tt _ Hc) as [Hd _]. by apply push_dirty in Hd. Qed.

(** Closes a goal whose run [Hc] reports. *)
Ltac dirty Hc :=
  exfalso; first
    [ by apply push_dirty in Hc
    | by apply push_checked_dirty in Hc
    | apply push_bind_dirty in Hc; [done|solve [solve_mono]] ].

(** Executes the first check of a clean run [Hc], naming what it establishes. *)
Ltac run_step Hc a H :=
  match type of Hc with
  | clean ((?m ≫= ?f) ?s).1 =>
      let E := fresh "E" in let Hm := fresh "Hm" in let Hf := fresh "Hf" in
      eassert (checks m _) as Hm by (solve [eauto with checks nocore]);
      assert (forall x, mono (f x)) as Hf by (solve [solve_mono]);
      destruct (run_checks m f _ s Hm Hf Hc) as (a & H & E);
      rewrite E in *; clear E Hm Hf; cbn beta in H, Hc |- *
  end.

(** Executes the last check of a clean run. *)
Ltac run_last Hc a H :=
  match type of Hc with
  | clean (?m ?s).1 =>
      let E1 := fresh "E" in let E2 := fresh "E" in let Hm := fresh "Hm" in
      eassert (checks m _) as Hm by (solve [eauto with checks nocore]);
      destruct (Hm s Hc) as (_ & E1 & a & E2 & H); cbn beta in H;
      rewrite ?E1, ?E2; clear Hm E1 E2
  end.

(** Executes a loop whose body [Hbody] is sound for the step relation [P]. *)
Ltac run_loop Hc P Hbody s1 H :=
  match type of Hc with
  | clean ((for_each ?l ?f ≫= ?g) ?s).1 =>
      let E := fresh "E" in let Hg := fresh "Hg" in
      assert (forall x, mono (g x)) as Hg by (solve [solve_mono]);
      destruct (run_for_each l f g P s Hbody Hg Hc) as (s1 & H & E);
      rewrite E in *; clear E Hg; cbn beta in Hc |- *
  end.

(** ** Runs that extend the tables *)

(** The verifier's only state changes append to its three tables. *)
Definition extend (cs : list (FunctionKey * FunctionKey)) (vs : list ValueInfo)
    (es : list Edge) (s : St) : St :=
  mkSt (st_errors s) (st_calls s ++ cs) (st_values s ++ vs) (st_edges s ++ es).

Lemma extend_nil s : extend [] [] [] s = s.
Proof. destruct s. unfold extend. simpl. by rewrite !app_nil_r. Qed.

Lemma extend_app cs vs es cs' vs' es' s :
  extend cs' vs' es' (extend cs vs es s) = extend (cs ++ cs') (vs ++ vs') (es ++ es') s.
Proof. unfold extend. simpl. by rewrite !app_assoc. Qed.

Definition grows (m : M St unit) (cs : list (FunctionKey * FunctionKey)) (vs : list ValueInfo)
    (es : list Edge) (P : St -> Prop) : Prop :=
  sound m (fun s o s' => o = Some tt /\ s' = extend cs vs es s /\ P s).

Lemma grows_checks m P : checks m (fun s _ => P s) -> grows m [] [] [] P.
Proof.
  intros Hm. eapply sound_weaken; [exact Hm|]. intros s o s' (-> & [] & -> & HP).
  by rewrite extend_nil.
Qed.

Lemma checks_grows m P : grows m [] [] [] P -> checks m (fun s _ => P s).
Proof.
  intros Hm. eapply sound_weaken; [exact Hm|]. intros s o s' (-> & -> & HP).
  rewrite extend_nil. eauto.
Qed.

Lemma grows_weaken m cs vs es (P Q : St -> Prop) :
  grows m cs vs es P -> (forall s, P s -> Q s) -> grows m cs vs es Q.
Proof.
  intros Hm HPQ. eapply sound_weaken; [exact Hm|]. intros s o s' (-> & -> & HP). auto.
Qed.

Lemma grows_mono m cs vs es P : grows m cs vs es P -> mono m.
Proof. apply mono_sound. Qed.

Lemma grows_seq m1 m2 cs1 vs1 es1 P1 cs2 vs2 es2 P2 :
  grows m1 cs1 vs1 es1 P1 -> grows m2 cs2 vs2 es2 P2 ->
  grows (m1;; m2) (cs1 ++ cs2) (vs1 ++ vs2) (es1 ++ es2)
    (fun s => P1 s /\ P2 (extend cs1 vs1 es1 s)).
Proof.
  intros H1 H2. eapply sound_weaken.
  - apply sound_bind with (Q := fun _ s o s' => o = Some tt /\ s' = extend cs2 vs2 es2 s /\ P2 s);
      [exact H1|]. intros ?. exact H2.
  - intros s o s' [[_ [[=] _]]|([] & s1 & (_ & -> & HP1) & -> & -> & HP2)].
    by rewrite extend_app.
Qed.

(** A state change followed by checks, and checks followed by a state change *)
Lemma grows_checks_seq (m1 m2 : M St unit) cs vs es P1 P2 :
  grows m1 cs vs es P1 -> checks m2 (fun s _ => P2 s) ->
  grows (m1;; m2) cs vs es (fun s => P1 s /\ P2 (extend cs vs es s)).
Proof.
  intros H1 H2%grows_checks. pose proof (grows_seq _ _ _ _ _ _ _ _ _ _ H1 H2) as H.
  by rewrite !app_nil_r in H.
Qed.

Lemma checks_grows_seq (m1 m2 : M St unit) cs vs es P1 P2 :
  checks m1 (fun s _ => P1 s) -> grows m2 cs vs es P2 ->
  grows (m1;; m2) cs vs es (fun s => P1 s /\ P2 s).
Proof.
  intros H1%grows_checks H2. pose proof (grows_seq _ _ _ _ _ _ _ _ _ _ H1 H2) as H.
  simpl in H. eapply grows_weaken; [exact H|]. intros s [? ?]. by rewrite extend_nil in *.
Qed.

Lemma grows_body m cs vs es P : grows m cs vs es P -> grows (body m) cs vs es P.
Proof.
  intros Hm. eapply sound_weaken; [by apply sound_body|]. intros s o s' (-> & o' & _ & -> & HP). done.
Qed.

Lemma grows_modify f cs vs es :
  (forall s, f s = extend cs vs es s) -> grows (modify f) cs vs es (fun _ => True).
Proof.
  intros Hf. eapply sound_weaken; [apply sound_modify|].
  - intros s. by rewrite Hf.
  - intros s o s' [-> ->]. by rewrite Hf.
Qed.

(** The state before each iteration of a loop *)
Lemma grows_for_each {A} (l : list A) (f : A -> M St unit)
    (cs : A -> list (FunctionKey * FunctionKey)) (vs : A -> list ValueInfo)
    (es : A -> list Edge) (P : A -> St -> Prop) :
  (forall x, x ∈ l -> grows (f x) (cs x) (vs x) (es x) (P x)) ->
  grows (for_each l f) (l ≫= cs) (l ≫= vs) (l ≫= es) (fun s =>
    forall k x, l !! k = Some x ->
      P x (extend (take k l ≫= cs) (take k l ≫= vs) (take k l ≫= es) s)).
Proof.
  induction l as [|x l IH]; intros Hf.
  - intros s Hc. split; [done|]. split_and!; [done|by rewrite extend_nil|done].
  - eapply grows_weaken.
    + apply (grows_seq (f x) (for_each l f)); [apply Hf; left|]. apply IH.
      intros y Hy. apply Hf. by right.
    + intros s [Hx Hl] [|k] y Hy; simpl in *; simplify_eq; [by rewrite extend_nil|].
      rewrite <- extend_app. by apply Hl.
Qed.
