(* ===== verification/ControlFlowSound.v ===== *)
(** * Soundness of the ControlFlowV1 verifier

    What each check of the verifier establishes when it reports nothing, and
    the composition: an accepted program is well formed. *)
From stdpp Require Import base numbers list list_numbers relations strings.
From S2P Require Import Prelude Source Diagnostics Abi CfgAlgorithms CfgReach Dominators.
From S2P Require Import DomIntervals TopoSort ControlFlow ControlFlowSpec CheckLogic.

(** ** Types, spans and values *)

Lemma checks_validate_type ty span label :
  checks (validate_type ty span label) (fun _ _ => ty <> Unit).
Proof.
  apply checks_body_intro; [solve_mono|]. intros s Hc.
  run_step Hc u H. run_last Hc a Ha. by apply bool_decide_eq_false in Ha.
Qed.
#[export] Hint Resolve checks_validate_type : checks.

(** Every span belongs to the module's file. *)
Lemma checks_validate_span span module_file sources :
  checks (validate_span span module_file sources) (fun _ b =>
    b = true /\ exists resolved, resolve sources span = Ok resolved /\
                sf_id (rs_source resolved) = module_file).
Proof.
  apply checks_intro; [unfold validate_span; solve_mono|]. intros s Hc. unfold validate_span in *.
  run_step Hc exh Hex. subst exh.
  destruct (resolve sources span) as [r|e]; [|dirty Hc].
  case_bool_decide; [|dirty Hc]. split; [done|]. exists true. eauto.
Qed.
#[export] Hint Resolve checks_validate_span : checks.

Lemma mono_validate_spans spans module_file sources b :
  mono (validate_spans spans module_file sources b).
Proof.
  revert b. induction spans as [|span spans IH]; intros b; simpl; [solve_mono|].
  apply mono_bind; [eapply mono_checks, checks_validate_span|]. intros a.
  apply mono_bind; [apply mono_exhausted|]. auto.
Qed.
#[export] Hint Resolve mono_validate_spans : mono.

Definition span_ok (sources : SourceMap) (module_file : FileId) (span : Span) : Prop :=
  exists resolved, resolve sources span = Ok resolved /\ sf_id (rs_source resolved) = module_file.

Lemma checks_validate_spans spans module_file sources b :
  checks (validate_spans spans module_file sources b) (fun _ r =>
    r = b /\ Forall (span_ok sources module_file) spans).
Proof.
  revert b. induction spans as [|span spans IH]; intros b; (apply checks_intro; [apply mono_validate_spans|]);
    intros s Hc; simpl in *; [split; [done|]; eauto|].
  run_step Hc v Hv. destruct Hv as [-> Hv]. run_step Hc u Hu.
  destruct (IH (b && true) s Hc) as (_ & -> & r & -> & -> & Hall). split; [done|].
  exists b. rewrite andb_true_r. eauto.
Qed.
#[export] Hint Resolve checks_validate_spans : checks.

(** [define_value] checks the identifier and the type and appends the value. *)
Lemma grows_define_value d l :
  grows (define_value d l) [] [mkValueInfo (vd_ty d) l] [] (fun s =>
    vd_id d = len (st_values s) /\ vd_ty d <> Unit).
Proof.
  unfold define_value. apply grows_body. intros s Hc.
  run_step Hc u Hu. run_step Hc vs Hvs. subst vs.
  run_step Hc u1 Hid. run_step Hc u2 Hty. run_step Hc u3 Hx.
  apply negb_false_iff, N.eqb_eq in Hid. split; [exact Hc|].
  split_and!; try done. unfold extend. simpl. by rewrite !app_nil_r.
Qed.

(** ** Operands *)

Definition has_ty (values : list ValueInfo) (v : ValueId) (ty : Ty) : Prop :=
  vi_ty <$> get values v = Some ty.

(** The operand is known, and not used before its definition in its block. *)
Definition used_ok (values : list ValueInfo) (b p : nat) (v : ValueId) (vi : ValueInfo) : Prop :=
  get values v = Some vi /\ used_before_definition vi b p = false.

Lemma checks_checked_use v b p span :
  checks (checked_use v b p span) (fun s u => exists vi,
    u = Some (N.to_nat v, vi) /\ used_ok (st_values s) b p v vi).
Proof.
  apply checks_intro; [unfold checked_use; solve_mono|]. intros s Hc. unfold checked_use in *.
  run_step Hc exh Hex. subst exh. run_step Hc vs Hvs. subst vs.
  unfold value_info in *. destruct (get (st_values s) v) as [vi|] eqn:Ev; simpl in *; [|dirty Hc].
  run_step Hc u Hu. split; [done|]. eexists. split; [done|]. exists vi. done.
Qed.
#[export] Hint Resolve checks_checked_use : checks.

Lemma mono_checked_use v b p span : mono (checked_use v b p span).
Proof. eapply mono_checks, checks_checked_use. Qed.
#[export] Hint Resolve mono_checked_use : mono.

Lemma used_has_ty values b p v vi ty :
  used_ok values b p v vi -> use_ty (Some (N.to_nat v, vi)) = Some ty -> has_ty values v ty.
Proof. intros [Hg _] [= <-]. unfold has_ty. by rewrite Hg. Qed.

Lemma mono_operands_valid operands expected b p span :
  mono (operands_valid operands expected b p span).
Proof. revert expected. induction operands; intros [|ty expected]; simpl; solve_mono. Qed.
#[export] Hint Resolve mono_operands_valid : mono.

Lemma checks_operands_valid operands expected b p span :
  length operands = length expected ->
  checks (operands_valid operands expected b p span) (fun s r =>
    r = true -> Forall2 (has_ty (st_values s)) operands expected).
Proof.
  revert expected. induction operands as [|v operands IH]; intros [|ty expected] Hlen; try done;
    (apply checks_intro; [apply mono_operands_valid|]); intros s Hc; simpl in *.
  - split; [done|]. eauto.
  - run_step Hc u Hu. destruct Hu as (vi & -> & Hu). case_bool_decide as Hty.
    + destruct (IH expected ltac:(lia) s Hc) as (_ & -> & r & -> & Hr). split; [done|].
      exists r. split; [done|]. intros ->. constructor; [|auto]. by eapply used_has_ty.
    + split; [done|]. exists false. done.
Qed.

Lemma checks_expect_values operands expected result expected_result b p span :
  length operands = length expected ->
  checks (expect_values operands expected result expected_result b p span) (fun s _ =>
    Forall2 (has_ty (st_values s)) operands expected /\ result = expected_result).
Proof.
  intros Hlen. apply checks_body_intro; [solve_mono|]. intros s Hc.
  pose proof (checks_operands_valid operands expected b p span Hlen) as Hv.
  run_step Hc u Hu. run_step Hc r Hr. run_step Hc u1 Hu1. run_last Hc u2 Hok.
  apply orb_false_iff in Hok as [H1 H2]. apply negb_false_iff in H1, H2.
  apply bool_decide_eq_true in H2. auto.
Qed.
#[export] Hint Resolve checks_expect_values : checks.

Lemma checks_expect_result actual expected span label :
  checks (expect_result actual expected span label) (fun _ _ => actual = expected).
Proof.
  apply checks_body_intro; [solve_mono|]. intros s Hc. run_step Hc u Hu. run_last Hc a Ha.
  by apply negb_false_iff, bool_decide_eq_true in Ha.
Qed.
#[export] Hint Resolve checks_expect_result : checks.

(** A loop that types arguments against a parameter list *)
Lemma Forall2_indexed {A B} (R : A -> B -> Prop) (l : list A) (k : list B) :
  length l = length k -> (forall i x, l !! i = Some x -> exists y, k !! i = Some y /\ R x y) ->
  Forall2 R l k.
Proof.
  intros Hlen H. apply Forall2_same_length_lookup_2; [done|]. intros i x y Hx Hy.
  destruct (H i x Hx) as (y' & Hy' & HR). congruence.
Qed.

Lemma checks_verify_call_arguments arguments parameters b p span :
  length arguments = length parameters ->
  checks (verify_call_arguments arguments parameters b p span) (fun s _ =>
    Forall2 (has_ty (st_values s)) arguments parameters).
Proof.
  intros Hlen. unfold verify_call_arguments.
  eapply checks_weaken.
  - apply (checks_for_each _ _ (fun '(i, v) s => exists ty,
      parameters !! i = Some ty /\ has_ty (st_values s) v ty)).
    intros (i, v) Hin%enumerate_elem. apply checks_intro; [solve_mono|]. intros s Hc.
    run_step Hc a Ha. destruct Ha as (vi & -> & Ha). run_step Hc u Hu. run_last Hc u1 Hok.
    split; [done|]. exists u1. split; [by destruct u1|].
    apply negb_false_iff, bool_decide_eq_true in Hok. symmetry in Hok.
    exists (vi_ty vi). split; [done|]. by eapply used_has_ty.
  - simpl. intros s _ H. apply Forall2_indexed; [done|]. intros i v Hv.
    destruct (H (i, v)) as (ty & ? & ?); [by apply enumerate_elem|]. eauto.
Qed.
#[export] Hint Resolve checks_verify_call_arguments : checks.

Lemma mono_verify_call_arguments arguments parameters b p span :
  mono (verify_call_arguments arguments parameters b p span).
Proof. unfold verify_call_arguments. solve_mono. Qed.
#[export] Hint Resolve mono_verify_call_arguments : mono.

(** ** Instructions *)

(** Typing of an instruction against a value table, without dominance *)
Definition instruction_typed (signatures : Signatures) (values : list ValueInfo)
    (ins : Instruction) : Prop :=
  let result := vd_ty (in_result ins) in
  match in_kind ins with
  | BoolLiteral _ => result = Bool
  | I32Literal _ => result = I32
  | I32Neg x => Forall2 (has_ty values) [x] [I32] /\ result = I32
  | I32Add x y | I32Sub x y | I32Mul x y =>
      Forall2 (has_ty values) [x; y] [I32; I32] /\ result = I32
  | I32LtS x y | I32LeS x y | I32GtS x y | I32GeS x y =>
      Forall2 (has_ty values) [x; y] [I32; I32] /\ result = Bool
  | Eq x y | Ne x y => exists ty, has_ty values x ty /\ has_ty values y ty /\ result = Bool
  | DirectCall callee arguments =>
      exists parameters,
        lookup_signature signatures callee = Some (callee_key callee, (parameters, result)) /\
        Forall2 (has_ty values) arguments parameters
  end.

Definition instruction_calls (key : FunctionKey) (ins : Instruction)
    : list (FunctionKey * FunctionKey) :=
  match in_kind ins with DirectCall callee _ => [(key, callee_key callee)] | _ => [] end.

Lemma lookup_signature_key signatures callee key sig :
  lookup_signature signatures callee = Some (key, sig) -> key = callee_key callee.
Proof.
  unfold lookup_signature. destruct (get signatures _) as [m|]; simpl; [|done].
  by destruct (get m _); intros [= <- <-].
Qed.

Lemma grows_verify_call key callee arguments result b p span signatures :
  grows (verify_call key callee arguments result b p span signatures)
    [(key, callee_key callee)] [] [] (fun s => exists parameters,
      lookup_signature signatures callee = Some (callee_key callee, (parameters, result)) /\
      Forall2 (has_ty (st_values s)) arguments parameters).
Proof.
  unfold verify_call. destruct (lookup_signature signatures callee) as [(target & parameters & res)|] eqn:E.
  2: { intros s Hc. dirty Hc. }
  pose proof (lookup_signature_key _ _ _ _ E) as ->.
  eapply grows_weaken.
  - apply checks_grows_seq; [apply checks_exhausted|].
    apply (grows_checks_seq _ _ _ _ _ (fun _ => True)).
    + apply grows_modify. intros s. unfold extend, push_call. by rewrite !app_nil_r.
    + instantiate (1 := fun s => res = result /\ Forall2 (has_ty (st_values s)) arguments parameters).
      apply checks_intro; [solve_mono|]. intros s Hc.
      run_step Hc u Hu. apply orb_false_iff in Hu as [H1 H2].
      apply negb_false_iff in H1, H2. apply N.eqb_eq in H1. apply bool_decide_eq_true in H2.
      assert (length arguments = length parameters) by (unfold len in H1; lia).
      run_last Hc a Ha. split; [done|]. exists a. by destruct a.
  - simpl. intros s (_ & _ & -> & H). rewrite app_nil_r in H. eauto.
Qed.

Lemma checks_verify_equality lhs rhs result b p span :
  checks (verify_equality lhs rhs result b p span) (fun s _ => exists ty,
    has_ty (st_values s) lhs ty /\ has_ty (st_values s) rhs ty /\ result = Bool).
Proof.
  apply checks_intro; [unfold verify_equality; solve_mono|]. intros s Hc. unfold verify_equality in *.
  run_step Hc l Hl. destruct Hl as (vl & -> & Hl). run_step Hc u Hu.
  run_step Hc r Hr. destruct Hr as (vr & -> & Hr). run_step Hc u1 Hu1. run_last Hc u2 Hok.
  apply orb_false_iff in Hok as [H1 H2]. apply negb_false_iff, bool_decide_eq_true in H1, H2.
  split; [done|]. exists u2. split; [by destruct u2|]. exists (vi_ty vl).
  split_and!; [by eapply used_has_ty|by eapply used_has_ty|done].
Qed.
#[export] Hint Resolve checks_verify_equality : checks.

Lemma grows_verify_instruction key b p ins signatures :
  grows (verify_instruction key b p ins signatures) (instruction_calls key ins) [] []
    (fun s => instruction_typed signatures (st_values s) ins).
Proof.
  unfold verify_instruction. apply grows_body. eapply grows_weaken.
  - apply checks_grows_seq; [apply checks_exhausted|].
    instantiate (1 := fun s => instruction_typed signatures (st_values s) ins).
    unfold instruction_calls, instruction_typed.
    destruct (in_kind ins); first [apply grows_verify_call | apply grows_checks; by eauto with checks].
  - simpl. by intros s [_ H].
Qed.

(** ** Edges and terminators *)

Definition edge_typed (function : Function_) (values : list ValueInfo) (target : BlockId)
    (arguments : list ValueId) : Prop :=
  exists block, get (f_blocks function) target = Some block /\ target <> 0%N /\
    Forall2 (fun v d => has_ty values v (vd_ty d)) arguments (b_parameters block).

Lemma grows_verify_edge key source target arguments function span :
  grows (verify_edge key source target arguments function span) [] []
    [mkEdge source (N.to_nat target) arguments]
    (fun s => edge_typed function (st_values s) target arguments).
Proof.
  unfold verify_edge. apply grows_body. eapply grows_weaken.
  - apply checks_grows_seq; [apply checks_exhausted|].
    instantiate (1 := fun s => edge_typed function (st_values s) target arguments).
    destruct (negb (target <? len (f_blocks function))%N) eqn:Et; [intros s Hc; dirty Hc|].
    apply negb_false_iff, N.ltb_lt in Et. unfold len in Et.
    destruct (lookup_lt_is_Some_2 (f_blocks function) (N.to_nat target)) as [block Hb]; [lia|].
    rewrite (list_lookup_total_correct _ _ _ Hb).
    set (params := b_parameters block).
    intros s Hc.
    run_step Hc u Hz. run_step Hc u1 Hlen.
    apply negb_false_iff, N.eqb_eq in Hlen. apply Nat.eqb_neq in Hz. unfold len in Hlen.
    match type of Hc with clean ((?m ≫= ?f) ?s).1 => 
      assert (checks m (fun s _ => Forall2 (fun v d => has_ty (st_values s) v (vd_ty d)) arguments params)) as Hm end.
    { eapply checks_weaken.
      - apply (checks_for_each _ _ (fun '(i, v) s => exists d,
          params !! i = Some d /\ has_ty (st_values s) v (vd_ty d))).
        intros (i, v) Hin%enumerate_elem. apply checks_intro; [solve_mono|]. clear s Hc. intros s Hc.
        run_step Hc a Ha. destruct Ha as (vi & -> & Ha). run_step Hc u2 Hu. run_last Hc u3 Hok.
        split; [done|]. exists u3. split; [by destruct u3|].
        apply negb_false_iff, bool_decide_eq_true in Hok.
        destruct (params !! i) as [d|]; simpl in *; [|done].
        exists d. split; [done|]. by eapply used_has_ty.
      - simpl. intros s' _ H. apply Forall2_indexed; [lia|]. intros i v Hv.
        destruct (H (i, v)) as (d & ? & ?); [by apply enumerate_elem|]. eauto. }
    run_step Hc u2 Hargs. run_step Hc u3 Hx.
    split; [exact Hc|]. split; [done|]. split.
    + unfold extend. simpl. by rewrite !app_nil_r.
    + exists block. split_and!; [done|lia|done].
  - simpl. by intros s [_ H].
Qed.

Definition terminator_edges (source : nat) (t : Terminator) : list Edge :=
  match t with
  | Return _ => []
  | Jump target arguments => [mkEdge source (N.to_nat target) arguments]
  | Branch _ t1 args1 t2 args2 =>
      [mkEdge source (N.to_nat t1) args1; mkEdge source (N.to_nat t2) args2]
  end.

Definition terminator_typed (function : Function_) (values : list ValueInfo) (t : Terminator) : Prop :=
  match t with
  | Return v => has_ty values v (f_result function)
  | Jump target arguments => edge_typed function values target arguments
  | Branch condition t1 args1 t2 args2 =>
      has_ty values condition Bool /\
      edge_typed function values t1 args1 /\ edge_typed function values t2 args2
  end.

Lemma grows_verify_terminator key b function t :
  grows (verify_terminator key b function t) [] [] (terminator_edges b (tm_kind t))
    (fun s => terminator_typed function (st_values s) (tm_kind t)).
Proof.
  unfold verify_terminator. apply grows_body. eapply grows_weaken.
  - apply checks_grows_seq; [apply checks_exhausted|].
    instantiate (1 := fun s => terminator_typed function (st_values s) (tm_kind t)).
    destruct (tm_kind t) as [v|target args|c t1 a1 t2 a2]; simpl.
    + apply grows_checks, checks_intro; [solve_mono|]. intros s Hc.
      run_step Hc a Ha. destruct Ha as (vi & -> & Ha). run_step Hc u Hu. run_last Hc u1 Hok.
      split; [done|]. exists u1. split; [by destruct u1|].
      apply negb_false_iff, bool_decide_eq_true in Hok. by eapply used_has_ty.
    + apply grows_verify_edge.
    + pose proof (grows_verify_edge key b t1 a1 function (tm_span t)) as G1.
      pose proof (grows_verify_edge key b t2 a2 function (tm_span t)) as G2.
      pose proof (grows_mono _ _ _ _ _ G1). pose proof (grows_mono _ _ _ _ _ G2).
      pose proof (grows_seq _ _ _ _ _ _ _ _ _ _ G1
        (checks_grows_seq _ _ _ _ _ (fun _ => True) _ checks_exhausted G2)) as G.
      intros s Hc. run_step Hc a Ha. destruct Ha as (vi & -> & Ha). run_step Hc u Hok.
      apply negb_false_iff, bool_decide_eq_true in Hok. run_step Hc u1 Hu.
      destruct (G s Hc) as (Hcl & E2 & E1 & HP1 & _ & HP2). split_and!; try done.
      * by eapply used_has_ty.
      * simpl in HP2. by rewrite app_nil_r in HP2.
  - simpl. by intros s [_ H].
Qed.

(** ** The definition pass *)

Definition info (v : ValueDefinition * DefinitionLocation) : ValueInfo :=
  mkValueInfo (vd_ty v.1) v.2.

(** Dense identifiers from [base] on, and value types *)
Definition defs_ok (base : N) (table : list (ValueDefinition * DefinitionLocation)) : Prop :=
  forall i d l, table !! i = Some (d, l) -> vd_id d = (base + N.of_nat i)%N /\ vd_ty d <> Unit.

(** [m] defines exactly the values of [table], and [R] holds. *)
Definition defines (m : M St unit) (table : list (ValueDefinition * DefinitionLocation))
    (R : Prop) : Prop :=
  grows m [] (info <$> table) [] (fun s => defs_ok (len (st_values s)) table /\ R).

Lemma defs_ok_app base t1 t2 :
  defs_ok base t1 -> defs_ok (base + len t1) t2 -> defs_ok base (t1 ++ t2).
Proof.
  intros H1 H2 i d l Hi. apply lookup_app_Some in Hi as [Hi|[Hge Hi]]; [eauto|].
  destruct (H2 _ _ _ Hi) as [-> ?]. split; [|done]. unfold len. lia.
Qed.

Lemma defines_seq m1 m2 t1 t2 R1 R2 :
  defines m1 t1 R1 -> defines m2 t2 R2 -> defines (m1;; m2) (t1 ++ t2) (R1 /\ R2).
Proof.
  intros H1 H2. unfold defines. rewrite fmap_app.
  eapply grows_weaken; [exact (grows_seq m1 m2 _ _ _ _ _ _ _ _ H1 H2)|].
  simpl. intros s ((H & ?) & H' & ?). split; [|done]. apply defs_ok_app; [done|].
  unfold len in *. rewrite length_app, length_fmap, Nat2N.inj_add in H'. done.
Qed.

Lemma defines_weaken m t (R R' : Prop) : defines m t R -> (R -> R') -> defines m t R'.
Proof. intros H HR. eapply grows_weaken; [exact H|]. simpl. intros s [? ?]. auto. Qed.

Lemma defines_checks m (R : Prop) : checks m (fun _ _ => R) -> defines m [] R.
Proof.
  intros H%(grows_checks m (fun _ => R)). eapply grows_weaken; [exact H|]. intros s HR. split; [|done].
  by intros i d l ?.
Qed.

Lemma defines_value d l :
  defines (define_value d l;; check_exhausted) [(d, l)] True.
Proof.
  eapply grows_weaken.
  - exact (grows_checks_seq _ _ _ _ _ _ (fun _ => True) (grows_define_value d l) checks_exhausted).
  - intros s [[Hid Hty] _]. split; [|done]. intros [|i] d' l' [= <- <-].
    split; [|done]. rewrite Hid. lia.
Qed.

Lemma defines_for_each {A} (l : list A) (f : A -> M St unit)
    (table : A -> list (ValueDefinition * DefinitionLocation)) (R : A -> Prop) :
  (forall x, x ∈ l -> defines (f x) (table x) (R x)) ->
  defines (for_each l f) (l ≫= table) (forall x, x ∈ l -> R x).
Proof.
  induction l as [|x l IH]; intros Hf.
  - eapply grows_weaken; [apply (grows_checks (mret tt) (fun _ => True)), checks_weaken with (1 := checks_ret tt); done|].
    intros s _. split; [by intros i d l' ?|]. by intros x ?%elem_of_nil.
  - assert (defines (f x) (table x) (R x)) as H1 by (apply Hf; left).
    assert (defines (for_each l f) (l ≫= table) (forall x, x ∈ l -> R x)) as H2.
    { apply IH. intros y Hy. apply Hf. by right. }
    eapply defines_weaken; [exact (defines_seq _ _ _ _ _ _ H1 H2)|].
    intros (Hx & Hl) y [->|Hy]%elem_of_cons; auto.
Qed.

Lemma bind_singleton {A B} (f : A -> B) (l : list A) : (l ≫= fun x => [f x]) = f <$> l.
Proof. induction l as [|x l IH]; [done|]. simpl. by f_equal. Qed.

Lemma enumerate_bind_singleton {A B} (f : nat -> A -> B) (l : list A) :
  (enumerate l ≫= fun '(i, x) => [f i x]) = imap f l.
Proof.
  unfold enumerate. assert (forall g : nat -> nat,
    (imap (fun i x => (g i, x)) l ≫= fun '(i, x) => [f i x]) = imap (fun i x => f (g i) x) l) as H.
  { induction l as [|x l IH]; intros g; [done|]. simpl. f_equal. apply (IH (g ∘ S)). }
  apply (H id).
Qed.

Definition block_shape (b : nat) (block : Block) : Prop :=
  b_id block = N.of_nat b /\ (b = 0 -> b_parameters block = []).

Lemma defines_define_values key function :
  defines (define_values key function) (value_table function)
    (forall b block, f_blocks function !! b = Some block -> block_shape b block).
Proof.
  unfold define_values, value_table. eapply defines_weaken.
  - apply (defines_seq _ _ _ _ (forall x, x ∈ f_parameters function -> True)
      (forall x, x ∈ enumerate (f_blocks function) -> block_shape x.1 x.2)).
    + rewrite <- bind_singleton. apply (defines_for_each _ _ (fun d => [(d, LocParameter)]) (fun _ => True)).
      intros d _. apply defines_value.
    + apply defines_for_each. intros (b, block) _. simpl.
      unfold block_values.
      eapply defines_weaken.
      * apply (defines_seq _ _ [] _ (b_id block = N.of_nat b)).
        { apply defines_checks. eapply checks_weaken; [apply checks_when_push_checked|].
          simpl. intros _ _ E. by apply negb_false_iff, N.eqb_eq in E. }
        apply (defines_seq _ _ [] _ (b = 0 -> b_parameters block = [])).
        { apply defines_checks. eapply checks_weaken; [apply checks_when_push_checked|].
          simpl. intros _ _ E ->. simpl in E. apply negb_false_iff, Nat.eqb_eq in E.
          by apply nil_length_inv. }
        apply (defines_seq _ _ _ _ (forall x, x ∈ b_parameters block -> True)
                 (forall x, x ∈ enumerate (b_instructions block) -> True)).
        { rewrite <- bind_singleton.
          apply (defines_for_each _ _ (fun d => [(d, LocBlockParameter b)]) (fun _ => True)).
          intros d _. apply defines_value. }
        rewrite <- (enumerate_bind_singleton (fun i ins => (in_result ins, LocInstruction b i))).
        apply (defines_for_each _ _ _ (fun _ => True)). intros (i, ins) _. apply defines_value.
      * by intros (H1 & H2 & _).
  - intros (_ & HR) b block Hb%enumerate_elem.
    by apply (HR (b, block)).
Qed.

(** ** The checking pass *)

Definition block_edges (b : nat) (block : Block) : list Edge :=
  match b_terminators block with [t] => terminator_edges b (tm_kind t) | _ => [] end.

Definition function_edges (function : Function_) : list Edge :=
  enumerate (f_blocks function) ≫= fun '(b, block) => block_edges b block.

Definition block_calls (key : FunctionKey) (block : Block) : list (FunctionKey * FunctionKey) :=
  b_instructions block ≫= instruction_calls key.

Definition function_calls (key : FunctionKey) (function : Function_)
    : list (FunctionKey * FunctionKey) :=
  f_blocks function ≫= block_calls key.

Definition block_typed (signatures : Signatures) (function : Function_) (values : list ValueInfo)
    (block : Block) : Prop :=
  (forall i ins, b_instructions block !! i = Some ins -> instruction_typed signatures values ins) /\
  exists t, b_terminators block = [t] /\ terminator_typed function values (tm_kind t).

Lemma bind_nil {A B} (f : A -> list B) (l : list A) : (forall x, f x = []) -> l ≫= f = [].
Proof. intros Hf. induction l as [|x l IH]; [done|]. simpl. by rewrite Hf. Qed.

Lemma enumerate_bind_snd {A B} (f : A -> list B) (l : list A) :
  (enumerate l ≫= fun '(_, x) => f x) = l ≫= f.
Proof.
  unfold enumerate. assert (forall g : nat -> nat,
    (imap (fun i x => (g i, x)) l ≫= fun '(_, x) => f x) = l ≫= f) as H.
  { induction l as [|x l IH]; intros g; [done|]. simpl. f_equal. apply (IH (g ∘ S)). }
  apply (H id).
Qed.

(** A loop over an indexed list whose checks read only the value table *)
Lemma grows_indexed {A} (l : list A) (f : nat * A -> M St unit)
    (cs : A -> list (FunctionKey * FunctionKey)) (es : nat -> A -> list Edge)
    (P : nat -> A -> list ValueInfo -> Prop) :
  (forall i x, l !! i = Some x ->
     grows (f (i, x)) (cs x) [] (es i x) (fun s => P i x (st_values s))) ->
  grows (for_each (enumerate l) f) (l ≫= cs) [] (enumerate l ≫= fun '(i, x) => es i x)
    (fun s => forall i x, l !! i = Some x -> P i x (st_values s)).
Proof.
  intros Hf. eapply grows_weaken.
  - rewrite <- (enumerate_bind_snd cs), <- (bind_nil (fun _ => []) (enumerate l)) by done.
    apply (grows_for_each (enumerate l) f (fun '(_, x) => cs x) (fun _ => [])
             (fun '(i, x) => es i x) (fun '(i, x) s => P i x (st_values s))).
    intros (i, x) Hin%enumerate_elem. auto.
  - simpl. intros s H i x Hi. 
    destruct (proj1 (list_elem_of_lookup _ _) (proj2 (enumerate_elem l i x) Hi)) as [k Hk].
    specialize (H k (i, x) Hk). simpl in H. by rewrite bind_nil, app_nil_r in H by done.
Qed.

Lemma grows_check_block_instructions key b block signatures :
  grows (for_each (enumerate (b_instructions block)) (fun '(i, ins) =>
           verify_instruction key b i ins signatures;; check_exhausted))
    (block_calls key block) [] []
    (fun s => forall i ins, b_instructions block !! i = Some ins ->
       instruction_typed signatures (st_values s) ins).
Proof.
  unfold block_calls. eapply eq_rect with (P := fun es => grows _ _ _ es _).
  - apply (grows_indexed _ _ (instruction_calls key) (fun _ _ => [])
             (fun _ ins values => instruction_typed signatures values ins)).
    intros i ins _. eapply grows_weaken.
    + exact (grows_checks_seq _ _ _ _ _ _ (fun _ => True)
               (grows_verify_instruction key b i ins signatures) checks_exhausted).
    + by intros s [H _].
  - apply bind_nil. by intros [].
Qed.

Lemma grows_check_blocks key function signatures :
  grows (check_blocks key function signatures) (function_calls key function) []
    (function_edges function) (fun s => forall b block, f_blocks function !! b = Some block ->
      block_typed signatures function (st_values s) block).
Proof.
  unfold check_blocks, function_calls, function_edges.
  apply (grows_indexed _ _ (block_calls key) block_edges
           (fun _ block values => block_typed signatures function values block)).
  intros b block _.
  set (check := match b_terminators block with [_] => _ | _ => _ end).
  assert (grows check [] [] (block_edges b block) (fun s => exists t, b_terminators block = [t] /\
            terminator_typed function (st_values s) (tm_kind t))) as G2.
  { unfold check, block_edges.
    destruct (b_terminators block) as [|t [|t' ts]]; [intros s Hc; dirty Hc| |intros s Hc; dirty Hc].
    eapply grows_weaken.
    - exact (grows_checks_seq _ _ _ _ _ _ (fun _ => True)
               (grows_verify_terminator key b function t) checks_exhausted).
    - intros s [H _]. by exists t. }
  pose proof (grows_seq _ _ _ _ _ _ _ _ _ _
    (grows_check_block_instructions key b block signatures) G2) as G.
  rewrite app_nil_r in G. eapply grows_weaken; [exact G|].
  simpl. intros s [H1 H2]. rewrite app_nil_r in H2. done.
Qed.
