(* ===== verification/CfgSound.v ===== *)
(** * Soundness of the control-flow graph checks

    [verify_cfg] on the edge list of a function: every block is reachable,
    every operand's definition dominates its use, and the loops are reducible. *)
From stdpp Require Import base numbers list list_numbers relations gmap.
From S2P Require Import Prelude CfgReach CfgAlgorithms Dominators DomIntervals TopoSort.
From S2P Require Import ControlFlow ControlFlowSpec CheckLogic.

(** ** Graphs of an edge list *)

Section edge_graphs.
Context (count : nat) (edges : list Edge).
Hypothesis edges_bound : forall e, e ∈ edges -> e_source e < count /\ e_target e < count.

Lemma bucket_graph (key val : Edge -> nat) a :
  a < count ->
  (sort_by Nat.leb <$> foldl (fun g e => push_at (key e) (val e) g) (replicate count []) edges).[a]
  ≡ₚ val <$> filter (fun e => key e = a) edges.
Proof.
  intros Ha. set (g := foldl _ _ _).
  assert (a < length g) as Hg.
  { unfold g. by rewrite (foldl_push_at_length key val), length_replicate. }
  rewrite list_lookup_total_alt, list_lookup_fmap, (list_lookup_lookup_total_lt g a Hg). simpl.
  rewrite sort_by_perm. unfold g.
  rewrite (foldl_push_at key val) by (by rewrite length_replicate). by rewrite replicate_total.
Qed.

Lemma bucket_graph_length (key val : Edge -> nat) :
  length (sort_by Nat.leb <$> foldl (fun g e => push_at (key e) (val e) g) (replicate count []) edges)
  = count.
Proof. by rewrite length_fmap, (foldl_push_at_length key val), length_replicate. Qed.

Lemma bucket_edge (key val : Edge -> nat) a b :
  (forall e, e ∈ edges -> key e < count) ->
  edge (sort_by Nat.leb <$> foldl (fun g e => push_at (key e) (val e) g) (replicate count []) edges) a b
  <-> exists e, e ∈ edges /\ key e = a /\ val e = b.
Proof.
  intros Hk. split.
  - intros H. assert (a < count) as Ha.
    { apply edge_source_lt in H. by rewrite bucket_graph_length in H. }
    unfold edge in H. rewrite (bucket_graph key val a Ha) in H.
    apply list_elem_of_fmap in H as (e & -> & [<- He]%list_elem_of_filter). eauto.
  - intros (e & He & <- & <-). unfold edge. rewrite bucket_graph by auto.
    apply list_elem_of_fmap. exists e. split; [done|]. by apply list_elem_of_filter.
Qed.

Lemma edge_successors_edge a b :
  edge (edge_successors count edges) a b <-> exists e, e ∈ edges /\ e_source e = a /\ e_target e = b.
Proof. apply bucket_edge. intros e He. by apply edges_bound. Qed.

Lemma edge_predecessors_edge a b :
  edge (edge_predecessors count edges) a b <-> exists e, e ∈ edges /\ e_target e = a /\ e_source e = b.
Proof. apply bucket_edge. intros e He. by apply edges_bound. Qed.

Lemma edge_successors_length : length (edge_successors count edges) = count.
Proof. apply bucket_graph_length. Qed.
Lemma edge_predecessors_length : length (edge_predecessors count edges) = count.
Proof. apply bucket_graph_length. Qed.

Lemma edge_successors_wf : wf_graph (edge_successors count edges).
Proof.
  intros a b (e & He & _ & <-)%edge_successors_edge. rewrite edge_successors_length. by apply edges_bound.
Qed.

Lemma edge_predecessors_wf : wf_graph (edge_predecessors count edges).
Proof.
  intros a b (e & He & _ & <-)%edge_predecessors_edge. rewrite edge_predecessors_length. by apply edges_bound.
Qed.

Lemma edge_graphs_reversed :
  reversed (edge_successors count edges) (edge_predecessors count edges).
Proof. intros a b. rewrite edge_successors_edge, edge_predecessors_edge. naive_solver. Qed.
End edge_graphs.

(** ** Natural loops *)

Lemma sum_with_ext {A} (f g : A -> nat) l :
  (forall x, x ∈ l -> f x = g x) -> sum_list_with f l = sum_list_with g l.
Proof.
  induction l as [|x l IH]; intros H; [done|]. simpl. rewrite IH, (H x); [done|left|].
  intros y Hy. apply H. by right.
Qed.

Lemma sum_with_add {A} (f g : A -> nat) l :
  sum_list_with (fun x => f x + g x) l = sum_list_with f l + sum_list_with g l.
Proof. induction l as [|x l IH]; [done|]. simpl. rewrite IH. lia. Qed.

Lemma sum_with_indicator x n :
  x < n -> sum_list_with (fun a => if decide (x = a) then 1 else 0) (seq 0 n) = 1.
Proof.
  induction n as [|n IH]; intros Hx; [lia|]. rewrite seq_S, sum_list_with_app. simpl.
  destruct (decide (x = n)) as [->|]; [|rewrite IH by lia; lia].
  rewrite (sum_with_ext _ (fun _ => 0)); [|intros y Hy%elem_of_seq; rewrite decide_False; lia].
  clear. induction (seq 0 n); simpl; lia.
Qed.

(** The member search of a natural loop always returns. *)
Lemma unmarked_sum_le (w w' : nat -> nat) marked :
  (forall i, w i <= w' i) -> unmarked_sum w marked <= unmarked_sum w' marked.
Proof.
  unfold unmarked_sum. revert w w'. induction marked as [|m marked IH]; intros w w' H; [done|].
  simpl. specialize (IH (w ∘ S) (w' ∘ S) (fun i => H (S i))). specialize (H 0).
  destruct m; simpl in *; unfold compose in *; lia.
Qed.

Lemma unmarked_sum_all (w : nat -> nat) marked :
  unmarked_sum w marked <= unmarked_sum w (replicate (length marked) false).
Proof.
  unfold unmarked_sum. revert w. induction marked as [|m marked IH]; intros w; [done|].
  simpl. specialize (IH (w ∘ S)). destruct m; simpl in *; unfold compose in *; lia.
Qed.

Lemma loop_members_total preds header members source :
  wf_graph preds -> length members = length preds -> source < length preds ->
  exists m, loop_members (edge_count preds + 2) preds header members [source] = Some m /\
    length m = length preds.
Proof.
  intros Hwf Hlen Hs. rewrite loop_members_mark.
  set (succ := fun b => rev (filter (fun p => p <> header) preds.[b])).
  destruct (mark_loop_spec (edge_count preds + 2) succ members [source]) as (m & Hm & Hl & _).
  - assert (work succ members <= edge_count preds); [|simpl; lia].
    rewrite <- work_all. etrans; [apply unmarked_sum_le with (w' := fun b => length preds.[b])|].
    + intros i. unfold succ. rewrite length_rev. apply length_filter.
    + unfold work. rewrite <- Hlen. apply unmarked_sum_all.
  - exists m. split; [done|congruence].
Qed.

Lemma alter_S_total (l : list nat) i v :
  v < length l -> (alter S i l).[v] = l.[v] + if decide (i = v) then 1 else 0.
Proof.
  intros Hv. rewrite !list_lookup_total_alt. destruct (decide (i = v)) as [->|Hne].
  - rewrite list_lookup_alter_eq. apply lookup_lt_is_Some in Hv as [x ->]. simpl. lia.
  - rewrite list_lookup_alter_ne by done. lia.
Qed.

(** Counting the forward edges by target agrees with counting them by source. *)
Lemma edges_into_bucket (count : nat) (es : list cfg_edge) (g : graph) v :
  (forall e, e ∈ es -> e.1 < count) ->
  (forall a, a < count -> g.[a] = snd <$> filter (fun e => e.1 = a) es) ->
  edges_into g (seq 0 count) v = length (filter (fun e => e.2 = v) es).
Proof.
  unfold cfg_edge in *. intros Hb Hg.
  assert (edges_into g (seq 0 count) v =
          sum_list_with (fun a => length (filter (fun e : cfg_edge => e.1 = a /\ e.2 = v) es)) (seq 0 count)) as ->.
  { unfold edges_into. apply sum_with_ext. intros a Ha%elem_of_seq. rewrite Hg by lia.
    unfold occ. clear. induction es as [|[x y] es IH]; [done|]. rewrite !filter_cons. simpl.
    destruct (decide (x = a)) as [->|].
    - rewrite fmap_cons, filter_cons. simpl. destruct (decide (v = y)) as [->|].
      + rewrite decide_True by done. simpl. f_equal. exact IH.
      + rewrite decide_False by naive_solver. done.
    - rewrite decide_False by naive_solver. done. }
  clear Hg. induction es as [|[x y] es IH].
  { generalize (seq 0 count). intros l. by induction l. }
  rewrite filter_cons. cbn [fst snd]. specialize (IH (fun e He => Hb e (list_elem_of_further _ _ _ He))).
  destruct (decide (y = v)) as [->|Hne].
  - cbn [length]. rewrite <- IH. specialize (Hb (x, v) ltac:(left)). simpl in Hb.
    rewrite <- Nat.add_1_l, <- (sum_with_indicator x count Hb), <- sum_with_add.
    apply sum_with_ext. intros a _. rewrite filter_cons. simpl.
    destruct (decide (x = a)); [by rewrite decide_True|by rewrite decide_False by naive_solver].
  - rewrite <- IH. apply sum_with_ext. intros a _. rewrite filter_cons. simpl.
    by rewrite decide_False by naive_solver.
Qed.

Section loops.
Context (count : nat) (preds : graph) (dom : nat -> nat -> bool).
Hypothesis preds_wf : wf_graph preds.
Hypothesis preds_length : length preds = count.

Definition forward (es : list cfg_edge) : list cfg_edge :=
  filter (fun e => dom e.2 e.1 = false) es.

Record flow_inv (es : list cfg_edge) (f : CfgFlow) : Prop := {
  fi_length : length (cf_forward f) = count /\ length (cf_indegree f) = count;
  fi_forward : forall a, a < count ->
    (cf_forward f).[a] = snd <$> filter (fun e => e.1 = a) (forward es);
  fi_indegree : forall v, v < count ->
    (cf_indegree f).[v] = length (filter (fun e => e.2 = v) (forward es));
  fi_loops : forall h m, cf_loops f !! h = Some m -> length m = count }.

Lemma flow_inv_init : flow_inv [] (mkCfgFlow (replicate count []) (replicate count 0) ∅).
Proof.
  split; simpl; try done.
  - by rewrite !length_replicate.
  - intros a Ha. by rewrite replicate_total.
  - intros v Hv. by rewrite replicate_total.
Qed.

Lemma classify_edge_inv es f e :
  flow_inv es f -> e.1 < count -> e.2 < count ->
  exists f', classify_edge count preds dom f e = Some f' /\ flow_inv (es ++ [e]) f'.
Proof.
  destruct e as [a b]. simpl. intros [[Hl1 Hl2] Hf Hi Hloop] Ha Hb.
  assert (forward (es ++ [(a, b)]) = forward es ++ if dom b a then [] else [(a, b)]) as Hfwd.
  { unfold forward. rewrite filter_app, filter_cons. simpl. by destruct (dom b a). }
  destruct (dom b a) eqn:Ed.
  - rewrite app_nil_r in Hfwd.
    destruct (loop_members_total preds b (<[b := true]> (default (replicate count false) (cf_loops f !! b))) a)
      as (m & -> & Hm); [done| |by rewrite preds_length|].
    { rewrite length_insert, preds_length. destruct (cf_loops f !! b) eqn:E; simpl; [eauto|].
      by rewrite length_replicate. }
    simpl. eexists. split; [done|]. split; simpl; rewrite ?Hfwd; try done.
    intros h m'. rewrite lookup_insert_Some. intros [[_ <-]|[_ ?]]; [congruence|eauto].
  - eexists. split; [done|]. split; simpl; rewrite ?Hfwd.
    + by rewrite push_at_length, length_alter.
    + intros x Hx. rewrite push_at_total, Hf, filter_app, fmap_app by congruence.
      rewrite filter_cons. simpl. destruct (decide (a = x)); [done|by rewrite app_nil_r].
    + intros v Hv. rewrite alter_S_total, Hi, filter_app, length_app by congruence.
      rewrite filter_cons. simpl. by destruct (decide (b = v)).
    + done.
Qed.

Lemma classify_edges_inv done_ f es :
  flow_inv done_ f -> (forall e, e ∈ es -> e.1 < count /\ e.2 < count) ->
  exists f', classify_edges count preds dom f es = Some f' /\ flow_inv (done_ ++ es) f'.
Proof.
  revert done_ f. induction es as [|e es IH]; intros done_ f Hi Hb; simpl.
  { exists f. by rewrite app_nil_r. }
  destruct (classify_edge_inv done_ f e) as (f1 & -> & H1); [done|by apply Hb; left..|].
  simpl. destruct (IH (done_ ++ [e]) f1) as (f' & -> & H'); [done|intros; apply Hb; by right|].
  exists f'. split; [done|]. by rewrite <- app_assoc in H'.
Qed.

(** When the topological sort of the forward edges sees every block, they
    increase a rank. *)
Lemma forward_ranked (es : list cfg_edge) :
  (forall e, e ∈ es -> e.1 < count /\ e.2 < count) ->
  forall flow, classify_edges count preds dom (mkCfgFlow (replicate count []) (replicate count 0) ∅) es
    = Some flow ->
  topo_loop (count + 1) (cf_forward flow) (cf_indegree flow) (zero_degree (cf_indegree flow)) 0
    = Some count ->
  exists rank : nat -> nat, forall e, e ∈ es -> dom e.2 e.1 = true \/ rank e.1 < rank e.2.
Proof.
  intros Hb flow Hflow Htopo.
  destruct (classify_edges_inv [] _ es flow_inv_init Hb) as (f' & E & [[Hl1 Hl2] Hf Hi _]).
  rewrite E in Hflow. injection Hflow as ->. simpl in *.
  assert (forall e, e ∈ forward es -> e ∈ es /\ dom e.2 e.1 = false) as Hfw.
  { intros e He. unfold forward in He. apply list_elem_of_filter in He. tauto. }
  assert (forall a v, edge (cf_forward flow) a v <-> (a, v) ∈ forward es) as Hedge.
  { intros a v. split.
    - intros He. assert (a < count) as Ha by (rewrite <- Hl1; by eapply edge_source_lt).
      unfold edge in He. rewrite Hf in He by done.
      apply list_elem_of_fmap in He as ([x y] & -> & [<- He]%list_elem_of_filter). done.
    - intros He. unfold edge. rewrite Hf by (by apply (Hb (a, v)), Hfw).
      apply list_elem_of_fmap. exists (a, v). split; [done|]. by apply list_elem_of_filter. }
  destruct (call_loop_correct (cf_forward flow)) with (ind := cf_indegree flow)
    as (depth & seen & Hloop & _ & _ & Hrank & _).
  - intros a v He%Hedge. rewrite Hl1. by apply (Hb (a, v)), Hfw.
  - congruence.
  - rewrite Hl1. intros v Hv. rewrite Hi by done. symmetry. apply edges_into_bucket; [|done].
    intros e He. by apply Hb, Hfw.
  - rewrite Hl1 in *. rewrite (topo_loop_call _ _ (replicate count 1)), Hloop in Htopo.
    simpl in Htopo. injection Htopo as ->. exists (fun v => depth.[v]). intros [a v] He. simpl.
    destruct (dom v a) eqn:Ed; [by left|]. right. apply Hrank; [done|]. apply Hedge.
    unfold forward. by apply list_elem_of_filter.
Qed.
End loops.

(** ** [verify_dominance] *)

Definition available_by (dom : nat -> nat -> bool) (values : list ValueInfo) (b p : nat)
    (v : ValueId) : Prop :=
  forall vi, get values v = Some vi -> value_available dom (vi_location vi) b p = true.

Lemma checks_verify_dominance v b p dom span :
  checks (verify_dominance v b p dom span) (fun s _ => available_by dom (st_values s) b p v).
Proof.
  apply checks_body_intro; [solve_mono|]. intros s Hc.
  run_step Hc u Hu. run_step Hc vs Hvs. subst vs.
  unfold value_info in *. destruct (get (st_values s) v) as [vi|] eqn:Ev; simpl in *.
  - run_last Hc u1 Hok. split; [done|]. intros vi' E. rewrite E in Ev. injection Ev as ->.
    by apply negb_false_iff in Hok.
  - split; [done|]. intros vi E. congruence.
Qed.
#[export] Hint Resolve checks_verify_dominance : checks.

Definition block_uses_available (dom : nat -> nat -> bool) (values : list ValueInfo)
    (b : nat) (block : Block) : Prop :=
  (forall i ins v, b_instructions block !! i = Some ins ->
     v ∈ instruction_operands (in_kind ins) -> available_by dom values b i v) /\
  (forall t v, b_terminators block = [t] -> v ∈ terminator_operands (tm_kind t) ->
     available_by dom values b (length (b_instructions block)) v).

Lemma checks_operands_available operands b p dom span :
  checks (for_each operands (fun v => verify_dominance v b p dom span;; check_exhausted))
    (fun s _ => forall v, v ∈ operands -> available_by dom (st_values s) b p v).
Proof.
  apply (checks_for_each operands _ (fun v s => available_by dom (st_values s) b p v)).
  intros v _. apply checks_intro; [solve_mono|]. intros s Hc. run_step Hc u Hu. run_last Hc u1 Hu1.
  split; [done|]. exists u1. done.
Qed.
#[export] Hint Resolve checks_operands_available : checks.

Lemma checks_verify_all_dominance function dom :
  checks (verify_all_dominance function dom) (fun s _ => forall b block,
    f_blocks function !! b = Some block -> block_uses_available dom (st_values s) b block).
Proof.
  unfold verify_all_dominance. eapply checks_weaken.
  - apply (checks_for_each _ _ (fun '(b, block) s => block_uses_available dom (st_values s) b block)).
    intros (b, block) _. apply checks_intro; [solve_mono|]. intros s Hc.
    match type of Hc with clean ((?m ≫= ?f) ?s).1 =>
      assert (checks m (fun s _ => forall x, x ∈ enumerate (b_instructions block) ->
        forall v, v ∈ instruction_operands (in_kind x.2) -> available_by dom (st_values s) b x.1 v)) as Hm end.
    { apply (checks_for_each _ _ (fun x s => forall v, v ∈ instruction_operands (in_kind x.2) ->
        available_by dom (st_values s) b x.1 v)). intros (i, ins) _. apply checks_operands_available. }
    run_step Hc u Hi.
    assert (forall i ins v, b_instructions block !! i = Some ins ->
      v ∈ instruction_operands (in_kind ins) -> available_by dom (st_values s) b i v) as Hins.
    { intros i ins v Hin%enumerate_elem. apply (Hi (i, ins) Hin). }
    destruct (b_terminators block) as [|t [|t' ts]] eqn:Et.
    + split; [done|]. exists tt. repeat split; [done|]. congruence.
    + run_last Hc u1 Ht. split; [done|]. exists u1. repeat split; [done|].
      intros t' v Et' Hv. rewrite Et in Et'. injection Et' as <-. auto.
    + split; [done|]. exists tt. repeat split; [done|]. congruence.
  - simpl. intros s _ H b block Hb%enumerate_elem. by apply (H (b, block)).
Qed.
#[export] Hint Resolve checks_verify_all_dominance : checks.

(** ** [verify_cfg] *)

Definition edges_in_range (count : nat) (edges : list Edge) : Prop :=
  forall e, e ∈ edges -> e_source e < count /\ e_target e < count.

Lemma checks_verify_loops key count preds dom edges :
  checks (verify_loops key count preds dom edges) (fun _ _ =>
    wf_graph preds -> length preds = count -> edges_in_range count edges ->
    exists rank : nat -> nat, forall e, e ∈ edges ->
      dom (e_target e) (e_source e) = true \/ rank (e_source e) < rank (e_target e)).
Proof.
  unfold verify_loops. apply checks_intro; [solve_mono|]. intros s Hc.
  run_step Hc u Hu. apply negb_false_iff, Nat.eqb_eq in Hu. run_last Hc u1 Hu1.
  split; [done|]. exists u1. split; [by destruct u1|]. intros Hwf Hlen Hb.
  set (es := (fun e => (e_source e, e_target e)) <$> edges) in *.
  assert (forall e, e ∈ es -> e.1 < count /\ e.2 < count) as Hb'.
  { intros e (e' & -> & He)%list_elem_of_fmap. by apply Hb. }
  destruct (classify_edges_inv count preds dom Hwf Hlen [] _ es (flow_inv_init count dom) Hb')
    as (flow & E & _).
  rewrite E in Hu. simpl in Hu.
  destruct (topo_loop _ _ _ _ _) as [seen|] eqn:Et; simpl in Hu; [subst seen|].
  - destruct (forward_ranked count preds dom Hwf Hlen es Hb' flow E Et) as [rank Hr].
    exists rank. intros e He. apply (Hr (e_source e, e_target e)).
    apply list_elem_of_fmap. by exists e.
  - exists (fun _ => 0). intros e He. apply Hb in He. lia.
Qed.
#[export] Hint Resolve checks_verify_loops : checks.

Definition location_bound (count : nat) (l : DefinitionLocation) : Prop :=
  match l with
  | LocParameter => True
  | LocBlockParameter c | LocInstruction c _ => c < count
  end.

Lemma value_available_spec succs dom l b p :
  (forall a, a < length succs -> dom a b = true <-> dominates_spec succs a b) ->
  location_bound (length succs) l -> value_available dom l b p = true -> available succs l b p.
Proof.
  intros Hd Hl H. destruct l as [|c|c q]; simpl in *; [done|by apply Hd|].
  destruct (Nat.eqb_spec c b) as [->|Hne].
  - rewrite decide_True by done. by apply Nat.ltb_lt.
  - rewrite decide_False by done. by apply Hd.
Qed.

(** What a clean [verify_cfg] establishes of the graph of the recorded edges *)
Record cfg_checked (function : Function_) (s : St) : Prop := {
  cc_reachable : forall b, b < length (f_blocks function) ->
    reachable (edge_successors (length (f_blocks function)) (st_edges s)) b;
  cc_reducible : reducible (edge_successors (length (f_blocks function)) (st_edges s));
  cc_available : exists dom, (forall a b, a < length (f_blocks function) ->
      b < length (f_blocks function) -> dom a b = true <->
      dominates_spec (edge_successors (length (f_blocks function)) (st_edges s)) a b) /\
    forall b block, f_blocks function !! b = Some block ->
      block_uses_available dom (st_values s) b block }.

Lemma checks_verify_cfg key function :
  checks (verify_cfg key function) (fun s _ => f_blocks function <> [] ->
    edges_in_range (length (f_blocks function)) (st_edges s) -> cfg_checked function s).
Proof.
  unfold verify_cfg. apply checks_body_intro; [solve_mono|]. intros s Hc.
  run_step Hc u Hu. run_step Hc edges He. subst edges.
  destruct (Nat.eqb_spec (length (f_blocks function)) 0) as [Hz|Hz].
  { split; [done|]. intros Hne. by destruct (f_blocks function). }
  set (count := length (f_blocks function)) in *.
  set (succs := edge_successors count (st_edges s)) in *.
  set (preds := edge_predecessors count (st_edges s)) in *.
  match type of Hc with clean ((?m ≫= ?f) ?s).1 =>
    assert (checks m (fun _ _ => forall b, b ∈ seq 1 (count - 1) ->
      (reachable_from_entry succs).[b] = true)) as Hm end.
  { apply (checks_for_each _ _ (fun b _ => (reachable_from_entry succs).[b] = true)).
    intros b _. eapply checks_weaken; [apply checks_when_push_checked|]. simpl.
    intros _ _ [_ E]%orb_false_iff. by apply negb_false_iff in E. }
  run_step Hc u1 Hreach.
  assert (forall b, b < count -> edges_in_range count (st_edges s) ->
            (reachable_from_entry succs).[b] = true /\ reachable succs b) as Hall.
  { intros b Hb Hin. assert (b < length succs) as Hbl by (by unfold succs; rewrite edge_successors_length).
    pose proof (reachable_from_entry_spec succs b (edge_successors_wf count _ Hin) Hbl) as Hspec.
    destruct (decide (b = 0)) as [->|].
    - assert (reachable succs 0) as H0 by (exists [0]; constructor). split; [by apply Hspec|done].
    - assert ((reachable_from_entry succs).[b] = true) as Hr by (apply Hreach, elem_of_seq; lia).
      split; [done|by apply Hspec]. }
  destruct (existsb negb (reachable_from_entry succs)) eqn:Eex.
  { split; [done|]. intros _ Hin. exfalso.
    apply existsb_exists in Eex as (x & Hx & Hneg). apply list_elem_of_In in Hx.
    apply list_elem_of_lookup_1 in Hx as [i Hi].
    pose proof (reachable_from_entry_length succs (edge_successors_wf count _ Hin)) as Hl.
    unfold succs in Hl. rewrite edge_successors_length in Hl.
    specialize (Hl ltac:(lia)). apply lookup_lt_Some in Hi as Hlt. fold succs in Hl.
    destruct (Hall i ltac:(lia) Hin) as [Hr _].
    rewrite (list_lookup_total_correct _ _ _ Hi) in Hr. by subst x. }
  run_step Hc u2 Hu2.
  destruct (immediate_dominators succs preds) as [idom|] eqn:Eid; [|dirty Hc].
  set (dom := dominates (dominator_intervals idom)) in *.
  run_step Hc u3 Hav.
  run_last Hc u4 Hrank. split; [done|]. intros Hne Hin.
  assert (forall a b, a < count -> b < count -> dom a b = true <-> dominates_spec succs a b) as Hdom.
  { intros a b Ha Hb. apply (dominator_query_correct succs preds); try done.
    - by apply edge_successors_wf.
    - by apply edge_graphs_reversed.
    - unfold succs. by rewrite edge_successors_length.
    - unfold succs. by rewrite edge_successors_length. }
  split.
  - intros b Hb. by apply Hall.
  - destruct Hrank as [rank Hr];
      [by apply edge_predecessors_wf|by apply edge_predecessors_length|done|].
    exists rank. intros a b He.
    apply (edge_successors_edge count _ Hin) in He as (e & He & <- & <-).
    destruct (Hr e He) as [Hd|]; [left|by right]. apply Hdom; [by apply Hin..|done].
  - exists dom. split; [done|exact Hav].
Qed.
