(* ===== verification/PreflightSound.v ===== *)
(** * Resource limits

    A program that passes [preflight] respects every published limit, per
    function and in total. *)
From stdpp Require Import base numbers list list_numbers strings.
From S2P Require Import Prelude Source Diagnostics ControlFlow CheckLogic.

(** ** What is counted *)

Definition sumN (l : list N) : N := foldr N.add 0%N l.

Definition block_value_count (block : Block) : N :=
  (len (b_parameters block) + len (b_instructions block))%N.
Definition block_edge_count (block : Block) : N :=
  match b_terminators block with
  | [t] => match tm_kind t with Return _ => 0 | Jump _ _ => 1 | Branch _ _ _ _ _ => 2 end
  | _ => 0
  end.
Definition block_call_count (block : Block) : N :=
  len (filter (fun i => is_direct_call (in_kind i) = true) (b_instructions block)).

Definition function_value_count (function : Function_) : N :=
  (len (f_parameters function) + sumN (block_value_count <$> f_blocks function))%N.
Definition function_edge_count (function : Function_) : N :=
  sumN (block_edge_count <$> f_blocks function).
Definition function_call_count (function : Function_) : N :=
  sumN (block_call_count <$> f_blocks function).

Definition all_functions (program : Program_) : list Function_ :=
  p_modules program ≫= m_functions.

Definition terminator_arguments_bounded (t : Terminator) : Prop :=
  match t with
  | Return _ => True
  | Jump _ args => (len args <= MAX_BLOCK_PARAMETERS)%N
  | Branch _ _ args1 _ args2 =>
      (len args1 <= MAX_BLOCK_PARAMETERS)%N /\ (len args2 <= MAX_BLOCK_PARAMETERS)%N
  end.

Record block_limits (block : Block) : Prop := {
  bl_parameters : (len (b_parameters block) <= MAX_BLOCK_PARAMETERS)%N;
  bl_calls : forall i ins, b_instructions block !! i = Some ins ->
    (call_argument_count (in_kind ins) <= MAX_PARAMETERS_PER_FUNCTION)%N;
  bl_terminator : forall t, b_terminators block = [t] -> terminator_arguments_bounded (tm_kind t) }.

Record function_limits (function : Function_) : Prop := {
  fl_parameters : (len (f_parameters function) <= MAX_PARAMETERS_PER_FUNCTION)%N;
  fl_nonempty : f_blocks function <> [];
  fl_blocks : (len (f_blocks function) <= MAX_BLOCKS_PER_FUNCTION)%N;
  fl_each_block : forall block, block ∈ f_blocks function -> block_limits block;
  fl_values : (function_value_count function <= MAX_VALUES_PER_FUNCTION)%N;
  fl_edges : (function_edge_count function <= MAX_CFG_EDGES_PER_FUNCTION)%N }.

Record program_limits (program : Program_) : Prop := {
  pl_nonempty : p_modules program <> [];
  pl_modules : (len (p_modules program) <= MAX_MODULES)%N;
  pl_module : forall module, module ∈ p_modules program ->
    (len (m_functions module) <= MAX_FUNCTIONS_PER_MODULE)%N;
  pl_function : forall function, function ∈ all_functions program -> function_limits function;
  pl_functions : (len (all_functions program) <= MAX_FUNCTIONS_PER_PROGRAM)%N;
  pl_parameters : (sumN ((fun f => len (f_parameters f)) <$> all_functions program)
                   <= MAX_PARAMETERS_PER_PROGRAM)%N;
  pl_blocks : (sumN ((fun f => len (f_blocks f)) <$> all_functions program)
               <= MAX_BLOCKS_PER_PROGRAM)%N;
  pl_values : (sumN (function_value_count <$> all_functions program) <= MAX_VALUES_PER_PROGRAM)%N;
  pl_edges : (sumN (function_edge_count <$> all_functions program) <= MAX_CFG_EDGES_PER_PROGRAM)%N;
  pl_calls : (sumN (function_call_count <$> all_functions program) <= MAX_CALL_EDGES)%N }.

(** ** Steps of the scan *)

Lemma sound_pre_limit label maximum P : sound (pre_limit label maximum) P.
Proof. intros s Hc. by apply errors_limit_dirty in Hc. Qed.

Lemma sound_pre_fail label maximum P : sound (pre_fail label maximum) P.
Proof. intros s Hc. by apply errors_limit_dirty in Hc. Qed.

Lemma checks_when_pre_fail b label maximum :
  checks (when b (pre_fail label maximum)) (fun _ _ => b = false).
Proof. apply checks_when, sound_pre_fail. Qed.
Lemma mono_pre_fail label maximum : mono (pre_fail label maximum).
Proof. apply sound_pre_fail. Qed.
Lemma mono_pre_limit label maximum : mono (pre_limit label maximum).
Proof. apply sound_pre_limit. Qed.
#[export] Hint Resolve checks_when_pre_fail : checks.
#[export] Hint Resolve mono_pre_fail mono_pre_limit : mono.

Lemma checks_checked_sum a b label : checks (checked_sum a b label) (fun _ n => n = (a + b)%N).
Proof.
  unfold checked_sum, checked_add. destruct (_ <=? _)%N.
  - apply checks_ret.
  - intros s Hc. exfalso. by apply errors_limit_dirty in Hc.
Qed.
#[export] Hint Resolve checks_checked_sum : checks.

Lemma run_modify {S A} (f : S -> S) (g : unit -> M S A) s : (modify f ≫= g) s = g tt (f s).
Proof. done. Qed.

(** The six program counters grow by the given amounts. *)
Record adds (functions parameters blocks values edges calls : N) (s s' : Pre) : Prop := {
  ad_functions : pr_functions s' = (pr_functions s + functions)%N;
  ad_parameters : pr_parameters s' = (pr_parameters s + parameters)%N;
  ad_blocks : pr_blocks s' = (pr_blocks s + blocks)%N;
  ad_values : pr_values s' = (pr_values s + values)%N;
  ad_edges : pr_edges s' = (pr_edges s + edges)%N;
  ad_calls : pr_calls s' = (pr_calls s + calls)%N }.

Lemma adds_refl s : adds 0 0 0 0 0 0 s s.
Proof. split; by rewrite N.add_0_r. Qed.

Lemma adds_trans a b c d e f a' b' c' d' e' f' s1 s2 s3 :
  adds a b c d e f s1 s2 -> adds a' b' c' d' e' f' s2 s3 ->
  adds (a + a') (b + b') (c + c') (d + d') (e + e') (f + f') s1 s3.
Proof. intros [] []. split; etrans; try eassumption; lia. Qed.

(** The per-function counters after one block *)
Record block_scanned (block : Block) (s s' : Pre) : Prop := {
  bs_adds : adds 0 0 0 0 0 (block_call_count block) s s';
  bs_values : pr_function_values s' = (pr_function_values s + block_value_count block)%N;
  bs_edges : pr_function_edges s' = (pr_function_edges s + block_edge_count block)%N;
  bs_values_max : (pr_function_values s' <= MAX_VALUES_PER_FUNCTION)%N;
  bs_edges_max : (pr_function_edges s <= MAX_CFG_EDGES_PER_FUNCTION)%N ->
                 (pr_function_edges s' <= MAX_CFG_EDGES_PER_FUNCTION)%N;
  bs_limits : block_limits block }.

Definition terminator_edge_count (t : Terminator) : N :=
  match t with Return _ => 0 | Jump _ _ => 1 | Branch _ _ _ _ _ => 2 end.

Lemma checks_preflight_arguments t :
  checks (preflight_arguments t) (fun (_ : Pre) _ => terminator_arguments_bounded t).
Proof.
  destruct t as [v|target args|c t1 a1 t2 a2]; simpl.
  - eapply checks_weaken; [apply checks_ret|done].
  - eapply checks_weaken; [apply checks_when_pre_fail|]. simpl. intros _ _ H. by apply N.ltb_ge.
  - eapply checks_weaken.
    + apply (checks_bind _ _ _ (fun _ _ _ => (len a2 <= MAX_BLOCK_PARAMETERS)%N) (checks_when_pre_fail _ _ _)).
      intros ?. eapply checks_weaken; [apply checks_when_pre_fail|]. simpl. intros _ _ H. by apply N.ltb_ge.
    + simpl. intros _ _ (_ & H%N.ltb_ge & H2). done.
Qed.
#[export] Hint Resolve checks_preflight_arguments : checks.

Lemma mono_preflight_terminator m f t : mono (preflight_terminator m f t).
Proof. unfold preflight_terminator, set_function_edges. solve_mono. Qed.
#[export] Hint Resolve mono_preflight_terminator : mono.

Lemma sound_preflight_terminator m f t :
  sound (preflight_terminator m f t) (fun s o s' => o = Some tt /\
    adds 0 0 0 0 0 0 s s' /\ pr_function_values s' = pr_function_values s /\
    pr_function_edges s' = (pr_function_edges s + terminator_edge_count t)%N /\
    (pr_function_edges s' <= MAX_CFG_EDGES_PER_FUNCTION)%N /\ terminator_arguments_bounded t).
Proof.
  intros s Hc. destruct (mono_preflight_terminator m f t s Hc) as [Hcl _]. split; [done|].
  unfold preflight_terminator, set_function_edges in *.
  run_step Hc u Ha. run_step Hc cur Hcur. subst cur. run_step Hc n Hn. subst n.
  rewrite run_modify in *. run_last Hc u1 Hmax. apply N.ltb_ge in Hmax. split_and!; try done; [by destruct u1|].
  split; simpl; by rewrite N.add_0_r.
Qed.

Lemma checks_call_arguments block :
  checks (for_each (b_instructions block) (fun i =>
    when (MAX_PARAMETERS_PER_FUNCTION <? call_argument_count (in_kind i))%N
      (pre_fail "direct-call argument count" MAX_PARAMETERS_PER_FUNCTION)))
    (fun (_ : Pre) _ => forall i ins, b_instructions block !! i = Some ins ->
       (call_argument_count (in_kind ins) <= MAX_PARAMETERS_PER_FUNCTION)%N).
Proof.
  eapply checks_weaken.
  - apply (checks_for_each _ _ (fun i _ => (call_argument_count (in_kind i) <= MAX_PARAMETERS_PER_FUNCTION)%N)).
    intros i _. eapply checks_weaken; [apply checks_when_pre_fail|]. simpl. intros _ _ H. by apply N.ltb_ge.
  - simpl. intros s _ H i ins Hi. apply H. by eapply list_elem_of_lookup_2.
Qed.
#[export] Hint Resolve checks_call_arguments : checks.

Lemma mono_preflight_block m f block : mono (preflight_block m f block).
Proof. unfold preflight_block, set_function_values, set_calls. solve_mono. Qed.
#[export] Hint Resolve mono_preflight_block : mono.

Lemma sound_preflight_block m f block :
  sound (preflight_block m f block) (fun s o s' => o = Some tt /\ block_scanned block s s').
Proof.
  intros s Hc. destruct (mono_preflight_block m f block s Hc) as [Hcl _]. split; [done|].
  unfold preflight_block, set_function_values, set_calls in *.
  run_step Hc u Hbp. apply N.ltb_ge in Hbp.
  run_step Hc cur Hcur. subst cur. run_step Hc n1 Hn. subst n1. run_step Hc n2 Hn. subst n2.
  rewrite run_modify in *. run_step Hc u1 Hv. apply N.ltb_ge in Hv.
  run_step Hc cur Hcur. subst cur. run_step Hc n3 Hn. subst n3.
  rewrite run_modify in *. run_step Hc u2 Hcalls. run_step Hc u3 Hargs.
  set (s1 := mkPre _ _ _ _ _ _ _ _ _) in *.
  assert (adds 0 0 0 0 0 (block_call_count block) s s1) as Hadd.
  { split; simpl; rewrite ?N.add_0_r; done. }
  destruct (b_terminators block) as [|t [|t' ts]] eqn:Et.
  - split; [done|]. split; simpl; try done.
    + unfold block_value_count. lia.
    + unfold block_edge_count. rewrite Et. lia.
    + split; [done..|]. rewrite Et. done.
  - destruct (sound_preflight_terminator m f (tm_kind t) s1 Hc) as (_ & E & Ha & Ev & Ee & Hmax & Hb).
    split; [done|]. split.
    + pose proof (adds_trans _ _ _ _ _ _ _ _ _ _ _ _ _ _ _ Hadd Ha) as H. by rewrite !N.add_0_r in H.
    + rewrite Ev. simpl. unfold block_value_count. lia.
    + rewrite Ee. simpl. unfold block_edge_count. by rewrite Et.
    + rewrite Ev. simpl. done.
    + done.
    + split; [done..|]. rewrite Et. by intros t0 [= <-].
  - split; [done|]. split; simpl; try done.
    + unfold block_value_count. lia.
    + unfold block_edge_count. rewrite Et. lia.
    + split; [done..|]. rewrite Et. done.
Qed.

(** ** Functions, modules, program *)

Lemma sound_add_total read (g : N -> Pre -> Pre) extra maximum label :
  (forall n s, errors_of (g n s) = errors_of s) ->
  sound (add_total read (fun n => modify (g n)) extra maximum label) (fun s o s' =>
    exists a, o = Some a /\ s' = g (read s + extra)%N s /\ (read s + extra <= maximum)%N).
Proof.
  intros Hg.
  assert (forall n, mono (modify (g n))) as Hgm by (intros n; by apply mono_modify).
  assert (mono (add_total read (fun n => modify (g n)) extra maximum label)) as Hmono.
  { unfold add_total. solve_mono. }
  intros s Hc. destruct (Hmono s Hc) as [Hcl _]. split; [done|]. clear Hmono. unfold add_total in *.
  run_step Hc cur Hcur. subst cur. run_step Hc n Hn. subst n. rewrite run_modify in *.
  run_last Hc u Hmax. apply N.ltb_ge in Hmax. eauto.
Qed.

(** Executes an [add_total]. *)
Ltac run_total Hc H :=
  match type of Hc with
  | clean ((add_total ?read (fun n => modify (@?g n)) ?extra ?maximum ?label ≫= ?f) ?s).1 =>
      let E := fresh "E" in let Hf := fresh "Hf" in
      assert (forall x, mono (f x)) as Hf by (solve [solve_mono]);
      let u := fresh "u" in let s1 := fresh "s" in let Es := fresh "Es" in
      destruct (run_sound _ f (fun x (_ : unit) x' =>
        x' = g (read x + extra)%N x /\ (read x + extra <= maximum)%N) s
        (sound_add_total read g extra maximum label (fun _ _ => eq_refl)) Hf Hc)
        as (u & s1 & [Es H] & E);
      rewrite E in *; clear E Hf; subst s1; cbn beta in H, Hc |- *
  end.

Lemma sumN_app l k : sumN (l ++ k) = (sumN l + sumN k)%N.
Proof. induction l as [|x l IH]; simpl; lia. Qed.

(** The blocks of a function *)
Lemma scanned_chain blocks s s' :
  chain block_scanned blocks s s' ->
  adds 0 0 0 0 0 (sumN (block_call_count <$> blocks)) s s' /\
  pr_function_values s' = (pr_function_values s + sumN (block_value_count <$> blocks))%N /\
  pr_function_edges s' = (pr_function_edges s + sumN (block_edge_count <$> blocks))%N /\
  (blocks <> [] -> pr_function_values s' <= MAX_VALUES_PER_FUNCTION)%N /\
  (pr_function_edges s <= MAX_CFG_EDGES_PER_FUNCTION ->
   pr_function_edges s' <= MAX_CFG_EDGES_PER_FUNCTION)%N /\
  forall block, block ∈ blocks -> block_limits block.
Proof.
  revert s. induction blocks as [|block blocks IH]; intros s; simpl.
  - intros ->. split_and!; try done; [apply adds_refl|lia|lia|]. by intros b ?%elem_of_nil.
  - intros (s1 & [Ha Hv He Hvm Hem Hl] & Hch).
    destruct (IH s1 Hch) as (Ha' & Hv' & He' & Hvm' & Hem' & Hl'). split_and!.
    + exact (adds_trans _ _ _ _ _ _ _ _ _ _ _ _ _ _ _ Ha Ha').
    + unfold fmap in *. lia.
    + unfold fmap in *. lia.
    + intros _. destruct blocks; [|by apply Hvm']. simpl in *. lia.
    + auto.
    + intros b [->|Hb]%elem_of_cons; auto.
Qed.

(** One function: the program counters it contributes and its limits *)
Record function_scanned (function : Function_) (s s' : Pre) : Prop := {
  fs_adds : adds 0 (len (f_parameters function)) (len (f_blocks function))
              (function_value_count function) (function_edge_count function)
              (function_call_count function) s s';
  fs_limits : function_limits function;
  fs_totals : (pr_parameters s' <= MAX_PARAMETERS_PER_PROGRAM /\
               pr_blocks s' <= MAX_BLOCKS_PER_PROGRAM /\
               pr_values s' <= MAX_VALUES_PER_PROGRAM /\
               pr_edges s' <= MAX_CFG_EDGES_PER_PROGRAM)%N }.

Lemma mono_add_total read (g : N -> Pre -> Pre) extra maximum label :
  (forall n s, errors_of (g n s) = errors_of s) ->
  mono (add_total read (fun n => modify (g n)) extra maximum label).
Proof. intros Hg. eapply mono_sound, sound_add_total, Hg. Qed.
#[export] Hint Extern 1 (mono (add_total _ _ _ _ _)) =>
  apply mono_add_total; intros; reflexivity : mono.

Lemma mono_preflight_function m f function : mono (preflight_function m f function).
Proof.
  unfold preflight_function, set_parameters, set_blocks, set_values, set_edges,
    set_function_values, set_function_edges. solve_mono.
Qed.
#[export] Hint Resolve mono_preflight_function : mono.

Ltac pre_simpl :=
  cbn [pr_errors pr_functions pr_parameters pr_blocks pr_values pr_edges pr_calls
       pr_function_values pr_function_edges] in *.

Lemma sound_preflight_function m f function :
  sound (preflight_function m f function) (fun s o s' => o = Some tt /\ function_scanned function s s').
Proof.
  intros s Hc. destruct (mono_preflight_function m f function s Hc) as [Hcl _]. split; [done|].
  unfold preflight_function, set_parameters, set_blocks, set_values, set_edges,
    set_function_values, set_function_edges in *.
  destruct s as [er fn pa bl va ed ca fv fe].
  run_step Hc u Hp. apply N.ltb_ge in Hp. run_total Hc Htp. pre_simpl.
  run_step Hc u1 Hb. apply orb_false_iff in Hb as [Hb0 Hb]. apply N.eqb_neq in Hb0. apply N.ltb_ge in Hb.
  run_total Hc Htb. pre_simpl. rewrite run_modify in *. pre_simpl. rewrite run_modify in *. pre_simpl.
  run_loop Hc block_scanned (fun block (_ : block ∈ f_blocks function) => sound_preflight_block m f block) s1 Hch.
  apply scanned_chain in Hch as (Ha & Hv & He & Hvm & Hem & Hl).
  destruct s1 as [er1 fn1 pa1 bl1 va1 ed1 ca1 fv1 fe1].
  run_step Hc vals Hvals. subst vals. run_total Hc Htv. pre_simpl.
  run_step Hc eds Heds. subst eds. pre_simpl.
  destruct (sound_add_total pr_edges (fun n p => mkPre (pr_errors p) (pr_functions p) (pr_parameters p)
    (pr_blocks p) (pr_values p) n (pr_calls p) (pr_function_values p) (pr_function_edges p))
    fe1 MAX_CFG_EDGES_PER_PROGRAM "CFG edge count" (fun _ _ => eq_refl) _ Hc) as (_ & [] & E & Es & Hte).
  rewrite Es. split; [done|]. pre_simpl. destruct Ha as [A1 A2 A3 A4 A5 A6]. pre_simpl.
  assert (f_blocks function <> []) as Hne by (by intros E0; rewrite E0 in Hb0).
  assert (fv1 = function_value_count function) as Efv by done.
  assert (fe1 = function_edge_count function) as Efe by (unfold function_edge_count; lia).
  split.
  - split; pre_simpl; unfold function_call_count; lia.
  - split; try done.
    + rewrite <- Efv. by apply Hvm.
    + rewrite <- Efe. apply Hem. lia.
  - pre_simpl. lia.
Qed.

(** The functions of a module, then the modules *)
Record functions_scanned (functions : list Function_) (s s' : Pre) : Prop := {
  ls_adds : adds 0 (sumN ((fun f => len (f_parameters f)) <$> functions))
              (sumN ((fun f => len (f_blocks f)) <$> functions))
              (sumN (function_value_count <$> functions))
              (sumN (function_edge_count <$> functions))
              (sumN (function_call_count <$> functions)) s s';
  ls_limits : forall f, f ∈ functions -> function_limits f;
  ls_totals : functions <> [] ->
    (pr_parameters s' <= MAX_PARAMETERS_PER_PROGRAM /\ pr_blocks s' <= MAX_BLOCKS_PER_PROGRAM /\
     pr_values s' <= MAX_VALUES_PER_PROGRAM /\ pr_edges s' <= MAX_CFG_EDGES_PER_PROGRAM)%N }.

Lemma functions_chain functions s s' :
  chain (fun (x : nat * Function_) => function_scanned x.2) functions s s' ->
  functions_scanned functions.*2 s s'.
Proof.
  revert s. induction functions as [|[i f] functions IH]; intros s; simpl.
  - intros ->. split; [apply adds_refl|by intros f ?%elem_of_nil|done].
  - intros (s1 & [Ha Hl Ht] & Hch). destruct (IH s1 Hch) as [Ha' Hl' Ht']. split.
    + exact (adds_trans _ _ _ _ _ _ _ _ _ _ _ _ _ _ _ Ha Ha').
    + intros g [->|Hg]%elem_of_cons; auto.
    + intros _. destruct functions; [|by apply Ht']. simpl in Hch. subst. done.
Qed.

Record modules_scanned (modules : list Module_) (s s' : Pre) : Prop := {
  ms_functions : functions_scanned (modules ≫= m_functions) s
    (mkPre (pr_errors s') (pr_functions s) (pr_parameters s') (pr_blocks s') (pr_values s')
       (pr_edges s') (pr_calls s') (pr_function_values s') (pr_function_edges s'));
  ms_count : pr_functions s' = (pr_functions s + len (modules ≫= m_functions))%N;
  ms_total : modules <> [] -> (pr_functions s' <= MAX_FUNCTIONS_PER_PROGRAM)%N;
  ms_each : forall m, m ∈ modules -> (len (m_functions m) <= MAX_FUNCTIONS_PER_MODULE)%N }.

Lemma mono_preflight_module m module : mono (preflight_module m module).
Proof. unfold preflight_module, set_functions. solve_mono. Qed.
#[export] Hint Resolve mono_preflight_module : mono.

Lemma enumerate_fmap_snd {A} (l : list A) : (enumerate l).*2 = l.
Proof.
  unfold enumerate. assert (forall f : nat -> nat, (imap (fun i x => (f i, x)) l).*2 = l) as H.
  { induction l as [|x l IH]; intros f; [done|]. simpl. f_equal. apply (IH (f ∘ S)). }
  apply (H id).
Qed.

Lemma sound_preflight_module m module :
  sound (preflight_module m module) (fun s o s' => o = Some tt /\ modules_scanned [module] s s').
Proof.
  intros s Hc. destruct (mono_preflight_module m module s Hc) as [Hcl _]. split; [done|].
  unfold preflight_module, set_functions in *. destruct s as [er fn pa bl va ed ca fv fe].
  run_step Hc u Hf. apply N.ltb_ge in Hf. run_total Hc Ht. pre_simpl.
  destruct (sound_for_each (enumerate (m_functions module)) (fun '(f, function) =>
    preflight_function m f function) (fun x => function_scanned x.2)
    (fun '(f, function) _ => sound_preflight_function m f function) _ Hc) as (_ & E & Hch).
  split; [done|]. apply functions_chain in Hch. rewrite enumerate_fmap_snd in Hch.
  set (s' := (for_each _ _ _).1) in *. destruct s' as [er1 fn1 pa1 bl1 va1 ed1 ca1 fv1 fe1].
  destruct Hch as [[A1 A2 A3 A4 A5 A6] Hl Htt]. pre_simpl.
  split; simpl; rewrite ?app_nil_r.
  - split; [split; pre_simpl; try done; lia|done|done].
  - lia.
  - intros _. lia.
  - by intros m' ->%list_elem_of_singleton.
Qed.

Lemma functions_scanned_app l k s1 s2 s3 :
  functions_scanned l s1 s2 -> functions_scanned k s2 s3 -> functions_scanned (l ++ k) s1 s3.
Proof.
  intros [Ha Hl Ht] [Ha' Hl' Ht']. split.
  - rewrite !fmap_app, !sumN_app. exact (adds_trans _ _ _ _ _ _ _ _ _ _ _ _ _ _ _ Ha Ha').
  - intros f [?|?]%elem_of_app; auto.
  - intros Hne. destruct k as [|f k]; [|by apply Ht'].
    rewrite app_nil_r in Hne. destruct Ha' as [_ A2 A3 A4 A5 _]. simpl in *.
    specialize (Ht Hne). lia.
Qed.

Lemma modules_scanned_chain (modules : list (nat * Module_)) s s' :
  modules <> [] -> chain (fun x => modules_scanned [x.2]) modules s s' ->
  modules_scanned modules.*2 s s'.
Proof.
  revert s. induction modules as [|[i m] modules IH]; intros s Hne; [done|].
  intros (s1 & [Hf Hc Ht He] & Hch). simpl in *. rewrite app_nil_r in *.
  destruct (decide (modules = [])) as [->|Hne'].
  { simpl in Hch. subst s1. split; simpl; rewrite ?app_nil_r; done. }
  destruct (IH s1) as [Hf' Hc' Ht' He']; [done|exact Hch|].
  change (modules_scanned (m :: modules.*2) s s').
  split; try change ((m :: modules.*2) ≫= m_functions)
    with (m_functions m ++ (modules.*2 ≫= m_functions)).
  - eapply (functions_scanned_app _ _ _ (mkPre (pr_errors s1) (pr_functions s) (pr_parameters s1)
      (pr_blocks s1) (pr_values s1) (pr_edges s1) (pr_calls s1) (pr_function_values s1) (pr_function_edges s1)));
      [exact Hf|].
    destruct Hf' as [[A1 A2 A3 A4 A5 A6] Hl Htt]. pre_simpl.
    split; [split; pre_simpl; try done; lia|done|done].
  - unfold len in *. rewrite length_app. lia.
  - intros _. apply Ht'. by destruct modules.
  - intros m' [->|Hm]%elem_of_cons; [apply He; left|auto].
Qed.

(** A program that passes the preflight scan respects every limit. *)
Lemma preflight_limits program :
  preflight program no_errors = no_errors -> program_limits program.
Proof.
  unfold preflight. destruct (p_modules program) as [|module modules] eqn:Em.
  { intros H. by apply errors_push_dirty in H. }
  rewrite <- Em. destruct (N.ltb_spec MAX_MODULES (len (p_modules program))) as [|Hmod].
  { intros Hd. by apply errors_limit_dirty in Hd. }
  set (s0 := mkPre _ _ _ _ _ _ _ _ _). intros Hc. change (clean ((for_each (enumerate (p_modules program))
    (fun '(m, module) => preflight_module m module);; calls ← gets pr_calls;
    when (MAX_CALL_EDGES <? calls)%N (pre_limit "call edge count" MAX_CALL_EDGES)) s0).1) in Hc.
  assert (forall x, x ∈ enumerate (p_modules program) -> sound (let '(m, module) := x in
    preflight_module m module) (fun s o s' => o = Some tt /\ modules_scanned [x.2] s s')) as Hbody.
  { intros [m md] _. apply sound_preflight_module. }
  run_loop Hc (fun x : nat * Module_ => modules_scanned [x.2]) Hbody s1 Hch.
  run_step Hc calls Hcalls. subst calls.
  assert (checks (when (MAX_CALL_EDGES <? pr_calls s1)%N (pre_limit "call edge count" MAX_CALL_EDGES))
            (fun _ _ => (MAX_CALL_EDGES <? pr_calls s1)%N = false)) as Hm.
  { apply checks_when. intros P. apply sound_pre_limit. }
  run_last Hc u Hcm. apply N.ltb_ge in Hcm.
  apply modules_scanned_chain in Hch; [|by rewrite Em]. rewrite enumerate_fmap_snd in Hch.
  destruct Hch as [[[A1 A2 A3 A4 A5 A6] Hl Ht] Hcount Htot Heach]. unfold s0 in *. pre_simpl.
  assert (p_modules program <> []) as Hne by (by rewrite Em).
  fold (all_functions program) in *.
  destruct (decide (all_functions program = [])) as [E0|Hf].
  - split; try done.
    + rewrite <- N.add_0_l at 1. rewrite <- Hcount. auto.
    + by rewrite E0.
    + by rewrite E0.
    + by rewrite E0.
    + by rewrite E0.
    + by rewrite E0.
  - destruct (Ht Hf) as (T1 & T2 & T3 & T4). specialize (Htot Hne).
    split; try done; lia.
Qed.
