(* ===== verification/VerifySound.v ===== *)
(** * An accepted program is well formed

    The passes of [verify_function] combined, the call graph, and the soundness
    of [verify]; then the bound on the diagnostics of a rejection. *)
From stdpp Require Import base numbers list list_numbers relations strings gmap.
From S2P Require Import Prelude Source Diagnostics Abi AbiSound CfgAlgorithms ControlFlow CfgReach.
From S2P Require Import Dominators DomIntervals TopoSort ControlFlowSpec CheckLogic ControlFlowSound CfgSound.
From S2P Require Import PreflightSound.

Lemma Forall2_impl_l {A B} (R R' : A -> B -> Prop) l k :
  Forall2 R l k -> (forall x y, x ∈ l -> R x y -> R' x y) -> Forall2 R' l k.
Proof.
  intros H. induction H as [|x y l k HR H IH]; intros Himp; constructor.
  - apply Himp; [left|done].
  - apply IH. intros x' y' Hx. apply Himp. by right.
Qed.

(** ** Graphs with the same edges *)

Definition same_edges (g h : graph) : Prop := forall a b, edge g a b <-> edge h a b.

#[export] Instance same_edges_equivalence : Equivalence same_edges.
Proof.
  split.
  - by intros g a b.
  - intros g h H a b. by rewrite (H a b).
  - intros g h k H1 H2 a b. by rewrite (H1 a b).
Qed.

#[export] Instance entry_walk_proper : Proper (same_edges ==> eq ==> eq ==> iff) entry_walk.
Proof.
  assert (forall g h p b, same_edges g h -> entry_walk g p b -> entry_walk h p b) as H.
  { intros g h p b E Hw. induction Hw; [constructor|]. econstructor; [done|]. by apply E. }
  intros g h E p ? <- b ? <-. split; apply H; [done|by symmetry].
Qed.

#[export] Instance reachable_proper : Proper (same_edges ==> eq ==> iff) reachable.
Proof. intros g h E b ? <-. unfold reachable. by setoid_rewrite E. Qed.

#[export] Instance dominates_proper : Proper (same_edges ==> eq ==> eq ==> iff) dominates_spec.
Proof. intros g h E a ? <- b ? <-. unfold dominates_spec. by setoid_rewrite E. Qed.

#[export] Instance reducible_proper : Proper (same_edges ==> iff) reducible.
Proof.
  intros g h E. unfold reducible. split; intros [rank Hr]; exists rank; intros a b He%E;
    destruct (Hr a b He) as [H|]; auto; left; by rewrite E in H || rewrite <- E in H.
Qed.

#[export] Instance available_proper : Proper (same_edges ==> eq ==> eq ==> eq ==> iff) available.
Proof.
  intros g h E l ? <- b ? <- p ? <-. destruct l; simpl; [done| |].
  - by rewrite E.
  - destruct (decide _); [done|]. by rewrite E.
Qed.

(** ** The edges recorded for a function are those of its graph *)

Lemma terminator_edges_spec a t e :
  e ∈ terminator_edges a t -> e_source e = a /\ e_target e ∈ terminator_targets t.
Proof.
  destruct t as [v|target args|c t1 a1 t2 a2]; simpl;
    rewrite ?elem_of_cons, ?elem_of_nil; naive_solver.
Qed.

Lemma terminator_targets_spec a t b :
  b ∈ terminator_targets t -> exists e, e ∈ terminator_edges a t /\ e_source e = a /\ e_target e = b.
Proof.
  destruct t as [v|target args|c t1 a1 t2 a2]; simpl; rewrite ?elem_of_cons, ?elem_of_nil.
  - done.
  - intros [->|[]]. eexists. split; [left|done].
  - intros [->|[->|[]]]; eexists; [split; [left|done]|split; [right; left|done]].
Qed.

Lemma function_edges_elem function e :
  e ∈ function_edges function <->
  exists b block, f_blocks function !! b = Some block /\ e ∈ block_edges b block.
Proof.
  unfold function_edges. rewrite list_elem_of_bind. split.
  - intros ((b, block) & He & Hb%enumerate_elem). eauto.
  - intros (b & block & Hb & He). exists (b, block). split; [done|]. by apply enumerate_elem.
Qed.

Lemma function_edges_cfg function a b :
  (exists e, e ∈ function_edges function /\ e_source e = a /\ e_target e = b)
  <-> edge (cfg function) a b.
Proof.
  unfold edge, cfg. split.
  - intros (e & (a' & block & Hb & He)%function_edges_elem & <- & <-). unfold block_edges in He.
    destruct (b_terminators block) as [|t [|]] eqn:Et; [by apply elem_of_nil in He| |by apply elem_of_nil in He].
    apply terminator_edges_spec in He as [Ea Ht]. rewrite Ea, list_lookup_total_alt, list_lookup_fmap, Hb. simpl.
    unfold block_targets. by rewrite Et.
  - rewrite list_lookup_total_alt, list_lookup_fmap.
    destruct (f_blocks function !! a) as [block|] eqn:Hb; simpl; [|by intros ?%elem_of_nil].
    unfold block_targets. destruct (b_terminators block) as [|t [|]] eqn:Et;
      [by intros ?%elem_of_nil| |by intros ?%elem_of_nil].
    intros Ht. destruct (terminator_targets_spec a _ _ Ht) as (e & He & Hs & Htg).
    exists e. split; [|done]. apply function_edges_elem. exists a, block. split; [done|].
    unfold block_edges. by rewrite Et.
Qed.

Lemma function_edges_range signatures function values :
  (forall b block, f_blocks function !! b = Some block ->
     block_typed signatures function values block) ->
  edges_in_range (length (f_blocks function)) (function_edges function).
Proof.
  intros Hty e (b & block & Hb & He)%function_edges_elem.
  destruct (Hty b block Hb) as (_ & t & Et & Htt). unfold block_edges in He. rewrite Et in He.
  assert (forall target args, edge_typed function values target args ->
            N.to_nat target < length (f_blocks function)) as Hbound.
  { intros target args (blk & Hg & _). unfold get in Hg. by eapply lookup_lt_Some. }
  apply lookup_lt_Some in Hb.
  destruct (tm_kind t); simpl in *; rewrite ?elem_of_cons, ?elem_of_nil in He;
    naive_solver.
Qed.

Lemma same_edges_cfg function :
  edges_in_range (length (f_blocks function)) (function_edges function) ->
  same_edges (edge_successors (length (f_blocks function)) (function_edges function)) (cfg function).
Proof. intros Hr a b. rewrite <- function_edges_cfg. by apply edge_successors_edge. Qed.

(** ** The value table *)

Lemma value_table_location function i d l :
  value_table function !! i = Some (d, l) -> location_bound (length (f_blocks function)) l.
Proof.
  intros Hin%list_elem_of_lookup_2. unfold value_table in Hin.
  apply elem_of_app in Hin as [(d' & [= -> ->] & _)%list_elem_of_fmap|Hin]; [done|].
  apply list_elem_of_bind in Hin as ((b, block) & Hin & Hb%enumerate_elem).
  apply lookup_lt_Some in Hb. unfold block_values in Hin.
  apply elem_of_app in Hin as [(d' & [= -> ->] & _)%list_elem_of_fmap|Hin]; [done|].
  apply elem_of_lookup_imap in Hin as (k & ins & E & _). injection E as -> ->. done.
Qed.

(** ** Functions *)

Section function_sound.
Context (signatures : Signatures) (function : Function_) (s : St).
Notation values := (info <$> value_table function).
Hypothesis values_eq : st_values s = values.
Hypothesis edges_eq : st_edges s = function_edges function.
Hypothesis edges_range : edges_in_range (length (f_blocks function)) (function_edges function).
Hypothesis cfg_ok : cfg_checked function s.

Lemma operand_sound dom b p v ty :
  (forall a, a < length (f_blocks function) -> dom a b = true <->
     dominates_spec (edge_successors (length (f_blocks function)) (st_edges s)) a b) ->
  has_ty values v ty -> available_by dom values b p v -> operand_ok function b p v ty.
Proof.
  intros Hdom Hty Hav. unfold has_ty, available_by, operand_ok, get in *.
  rewrite list_lookup_fmap in *.
  destruct (value_table function !! N.to_nat v) as [[d l]|] eqn:E; simpl in *; [|done].
  exists d, l. split; [done|]. split; [by injection Hty|].
  rewrite edges_eq in Hdom. rewrite <- (same_edges_cfg function edges_range).
  apply (value_available_spec _ dom); rewrite ?edge_successors_length; [done| |].
  - by eapply value_table_location.
  - by apply (Hav (info (d, l))).
Qed.

Lemma block_sound b block :
  f_blocks function !! b = Some block -> block_shape b block ->
  block_typed signatures function values block -> block_ok signatures function b block.
Proof.
  intros Hb [Hid Hentry] [Hins (t & Et & Htt)].
  destruct (cc_available _ _ cfg_ok) as (dom & Hdom & Huse).
  destruct (Huse b block Hb) as [Hu1 Hu2]. rewrite values_eq in *.
  assert (b < length (f_blocks function)) as Hlt by (by eapply lookup_lt_Some).
  assert (forall p v ty, has_ty values v ty -> available_by dom values b p v ->
            operand_ok function b p v ty) as Hop.
  { intros p v ty. apply operand_sound. auto. }
  assert (forall p target args, edge_typed function values target args ->
            (forall v, v ∈ args -> available_by dom values b p v) ->
            edge_ok function b p target args) as Hedge.
  { intros p target args (blk & Hg & Hne & Hall) Hav. exists blk. split_and!; [done..|].
    eapply Forall2_impl_l; [exact Hall|]. intros v d Hv Hty. auto. }
  split; [done|done| |].
  - intros i ins Hi. specialize (Hins i ins Hi). specialize (Hu1 i ins).
    unfold instruction_typed, instruction_ok in *.
    destruct (in_kind ins); simpl in *;
      repeat match goal with
        | H : _ /\ _ |- _ => destruct H
        | H : Forall2 _ (_ :: _) (_ :: _) |- _ => apply Forall2_cons_1 in H
      end; try done.
    all: try (split_and!; try done;
              (apply Hop; [done|]; apply Hu1; [done|]; rewrite ?elem_of_cons; auto)).
    all: try (destruct Hins as (ty & ? & ? & ?); exists ty; split_and!; try done;
              (apply Hop; [done|]; apply Hu1; [done|]; rewrite ?elem_of_cons; auto)).
    destruct Hins as (parameters & Hsig & Hall). exists (callee_key callee), parameters. split; [done|].
    eapply Forall2_impl_l; [exact Hall|]. intros v ty Hv Hty. apply Hop; [done|]. by apply Hu1.
  - exists t. split; [done|]. specialize (Hu2 t). destruct (tm_kind t); simpl in *.
    + apply Hop; [done|]. apply Hu2; [done|left].
    + apply Hedge; [done|]. intros v Hv. by apply Hu2.
    + destruct Htt as (H1 & H2 & H3). split_and!.
      * apply Hop; [done|]. apply Hu2; [done|left].
      * apply Hedge; [done|]. intros v Hv. apply Hu2; [done|]. rewrite elem_of_cons, elem_of_app. tauto.
      * apply Hedge; [done|]. intros v Hv. apply Hu2; [done|]. rewrite elem_of_cons, elem_of_app. tauto.
Qed.
End function_sound.

(** [verify_function]: the function is well formed, its spans are valid, and its
    calls are recorded. *)
Record function_verified (key : FunctionKey) (function : Function_) (module_file : FileId)
    (signatures : Signatures) (sources : SourceMap) (s s' : St) : Prop := {
  fv_calls : st_calls s' = st_calls s ++ function_calls key function;
  fv_spans : Forall (span_ok sources module_file) (function_spans function);
  fv_ok : f_blocks function <> [] -> function_ok signatures function }.

Lemma mono_define_values key function : mono (define_values key function).
Proof. eapply grows_mono, defines_define_values. Qed.
Lemma mono_check_blocks key function signatures : mono (check_blocks key function signatures).
Proof. eapply grows_mono, grows_check_blocks. Qed.
Lemma mono_verify_cfg key function : mono (verify_cfg key function).
Proof. eapply mono_checks, checks_verify_cfg. Qed.
#[export] Hint Resolve mono_define_values mono_check_blocks mono_verify_cfg : mono.

(** The three passes from an empty table *)
Lemma grows_passes key function signatures :
  grows (define_values key function;; check_blocks key function signatures;;
         verify_cfg key function)
    (function_calls key function) (info <$> value_table function) (function_edges function)
    (fun s => st_values s = [] -> st_edges s = [] -> f_blocks function <> [] ->
       f_result function <> Unit -> function_ok signatures function).
Proof.
  pose proof (defines_define_values key function) as G1. unfold defines in G1.
  pose proof (grows_check_blocks key function signatures) as G2.
  pose proof (grows_seq _ _ _ _ _ _ _ _ _ _ G1
    (grows_checks_seq _ _ _ _ _ _ _ G2 (checks_verify_cfg key function))) as G.
  rewrite app_nil_l, app_nil_r in G. eapply grows_weaken; [exact G|]. clear.
  intros s ((Hids & Hshape) & Htyped & Hcfg) Hv0 He0 Hne Hres.
  simpl in *. rewrite Hv0, He0, ?app_nil_r, ?app_nil_l in *. simpl in *.
  pose proof (function_edges_range _ _ _ Htyped) as Hrange.
  specialize (Hcfg Hne Hrange). split; try done.
  - intros b block Hb. eapply block_sound; [| |exact Hrange|exact Hcfg|exact Hb|auto|by eapply Htyped].
    + simpl. by rewrite Hv0, app_nil_r.
    + simpl. by rewrite He0.
  - intros b Hb. rewrite <- (same_edges_cfg function Hrange).
    pose proof (cc_reachable _ _ Hcfg b Hb) as H. simpl in H. by rewrite He0 in H.
  - rewrite <- (same_edges_cfg function Hrange).
    pose proof (cc_reducible _ _ Hcfg) as H. simpl in H. by rewrite He0 in H.
Qed.

Lemma sound_verify_function key function module_file signatures sources :
  sound (verify_function key function module_file signatures sources) (fun s o s' =>
    o = Some tt /\ function_verified key function module_file signatures sources s s').
Proof.
  unfold verify_function. eapply sound_weaken; [apply sound_body|].
  - instantiate (1 := fun s _ s' => function_verified key function module_file signatures sources s s').
    intros s Hc.
    run_step Hc u Hu. run_step Hc sv Hsv. destruct Hsv as [-> Hspans]. simpl in *.
    run_step Hc u1 Hres. run_step Hc u2 Hu2.
    destruct (grows_passes key function signatures (reset_locals s) Hc) as (Hcl & E2 & E1 & HP).
    split; [exact Hcl|]. split.
    + change (st_calls ((define_values key function;; check_blocks key function signatures;;
        verify_cfg key function) (reset_locals s)).1 = st_calls s ++ function_calls key function).
      by rewrite E1.
    + done.
    + intros Hne. by apply HP.
  - simpl. by intros s o s' [-> [_ H]].
Qed.

(** ** All functions of a program *)

Definition program_calls (program : Program_) : list (FunctionKey * FunctionKey) :=
  enumerate (p_modules program) ≫= fun '(m, module) =>
    enumerate (m_functions module) ≫= fun '(f, function) =>
      function_calls (mkFunctionKey m f) function.

(** A loop that only appends to the recorded calls *)
Lemma sound_for_each_calls {A} (l : list A) (f : A -> M St unit)
    (cs : A -> list (FunctionKey * FunctionKey)) (R : A -> Prop) :
  (forall x, x ∈ l -> sound (f x) (fun s o s' =>
     o = Some tt /\ st_calls s' = st_calls s ++ cs x /\ R x)) ->
  sound (for_each l f) (fun s o s' =>
    o = Some tt /\ st_calls s' = st_calls s ++ (l ≫= cs) /\ forall x, x ∈ l -> R x).
Proof.
  intros Hf. eapply sound_weaken; [apply (sound_for_each l f (fun x s s' =>
    st_calls s' = st_calls s ++ cs x /\ R x)); exact Hf|].
  simpl. intros s o s' [-> Hch]. split; [done|]. clear Hf. revert s Hch.
  induction l as [|x l IH]; intros s; simpl.
  - intros ->. rewrite app_nil_r. split; [done|]. by intros x ?%elem_of_nil.
  - intros (s1 & [E1 Hx] & Hch). destruct (IH s1 Hch) as [E2 Hl]. split.
    + by rewrite E2, E1, <- app_assoc.
    + intros y [->|Hy]%elem_of_cons; auto.
Qed.

Definition function_accepted (program : Program_) (sources : SourceMap) (module : Module_)
    (function : Function_) : Prop :=
  Forall (span_ok sources (m_source_file module)) (function_spans function) /\
  (f_blocks function <> [] -> function_ok (collect_signatures program) function).

Lemma sound_verify_functions program sources :
  sound (verify_functions program sources) (fun s o s' => o = Some tt /\
    st_calls s' = st_calls s ++ program_calls program /\
    forall m module, p_modules program !! m = Some module ->
    forall f function, m_functions module !! f = Some function ->
      function_accepted program sources module function).
Proof.
  unfold verify_functions, program_calls. eapply sound_weaken.
  - apply (sound_for_each_calls _ _ (fun '(m, module) =>
      enumerate (m_functions module) ≫= fun '(f, function) => function_calls (mkFunctionKey m f) function)
      (fun '(m, module) => forall x, x ∈ enumerate (m_functions module) ->
         function_accepted program sources module x.2)).
    intros (m, module) _.
    apply (sound_for_each_calls _ _ (fun '(f, function) => function_calls (mkFunctionKey m f) function)
             (fun x => function_accepted program sources module x.2)).
    intros (f, function) _. intros s Hc.
    pose proof (mono_sound _ _ (sound_verify_function (mkFunctionKey m f) function
      (m_source_file module) (collect_signatures program) sources)) as Hmono.
    run_step Hc u Hu.
    destruct (sound_verify_function _ _ _ _ _ s Hc) as (Hcl & E & []). by split_and!.
  - simpl. intros s o s' (-> & E & H). split_and!; [done..|].
    intros m module Hm%enumerate_elem f function Hf%enumerate_elem.
    by apply (H (m, module) Hm (f, function)).
Qed.

(** ** The call graph *)

Definition key_valid (program : Program_) (key : FunctionKey) : Prop :=
  is_Some (program_function program key).

(** Dense number of a function *)
Definition key_index (program : Program_) (key : FunctionKey) : nat :=
  (function_offsets program).[fk_module key] + fk_function key.

Lemma function_offsets_prefix program :
  exists go, function_offsets program = go 0 (p_modules program) /\
  forall modules total,
    last (go total modules) = Some (total + sum_list ((fun m => length (m_functions m)) <$> modules)) /\
    forall m, m <= length modules -> (go total modules) !! m =
      Some (total + sum_list ((fun m => length (m_functions m)) <$> take m modules)).
Proof.
  eexists. split; [reflexivity|]. induction modules as [|module modules IH]; intros total.
  - split; [simpl; by rewrite Nat.add_0_r|]. intros [|m] Hm; simpl in *; [|lia].
    by rewrite Nat.add_0_r.
  - destruct (IH (total + length (m_functions module))) as [IH1 IH2]. split.
    + simpl. rewrite last_cons. rewrite IH1. simpl. f_equal. unfold fmap. lia.
    + intros [|m] Hm; simpl in *; [by rewrite Nat.add_0_r|].
      rewrite IH2 by lia. f_equal. unfold fmap. lia.
Qed.

Lemma key_index_bound program key :
  key_valid program key -> key_index program key < default 0 (last (function_offsets program)).
Proof.
  intros [function Hf]. unfold program_function in Hf.
  destruct (p_modules program !! fk_module key) as [module|] eqn:Em; simpl in Hf; [|done].
  destruct (function_offsets_prefix program) as (go & E & Hgo). unfold key_index. rewrite E.
  destruct (Hgo (p_modules program) 0) as [Hlast Hpre]. rewrite Hlast. simpl.
  pose proof (lookup_lt_Some _ _ _ Em) as Hlt. pose proof (lookup_lt_Some _ _ _ Hf) as Hff.
  assert (fk_module key <= length (p_modules program)) as Hle by lia.
  rewrite (list_lookup_total_correct _ _ _ (Hpre _ Hle)). simpl.
  rewrite <- (take_drop_middle _ _ _ Em) at 2. rewrite fmap_app.
  assert (forall l k : list nat, sum_list (l ++ k) = sum_list l + sum_list k) as Happ.
  { intros l k. induction l as [|x l IH]; [done|]. simpl. lia. }
  rewrite Happ. simpl. lia.
Qed.

Lemma call_successors_foldl count (es : list (nat * nat)) :
  call_successors count es = foldl (fun g e => push_at e.1 e.2 g) (replicate count []) es.
Proof.
  unfold call_successors. generalize (replicate count ([] : list nat)).
  induction es as [|[a b] es IH]; intros g; [done|]. apply IH.
Qed.

Lemma call_successors_spec count (es : list (nat * nat)) a :
  a < count -> (call_successors count es).[a] = snd <$> filter (fun e => e.1 = a) es.
Proof.
  intros Ha. rewrite call_successors_foldl, (foldl_push_at fst snd) by (by rewrite length_replicate).
  by rewrite replicate_total.
Qed.

Lemma call_successors_length count es : length (call_successors count es) = count.
Proof. by rewrite call_successors_foldl, (foldl_push_at_length fst snd), length_replicate. Qed.

Lemma call_indegree_spec count (es : list (nat * nat)) :
  length (call_indegree count es) = count /\
  forall v, v < count -> (call_indegree count es).[v] = length (filter (fun e => e.2 = v) es).
Proof.
  unfold call_indegree.
  assert (forall d : list nat, length d = count ->
    length (foldl (fun d '(_, target) => alter S target d) d es) = count /\
    forall v, v < count -> (foldl (fun d '(_, target) => alter S target d) d es).[v]
      = d.[v] + length (filter (fun e : nat * nat => e.2 = v) es)) as H.
  { induction es as [|[a b] es IH]; intros d Hd; simpl.
    - split; [done|]. intros v Hv. unfold filter. simpl. lia.
    - destruct (IH (alter S b d)) as [H1 H2]; [by rewrite length_alter|]. split; [done|].
      intros v Hv. rewrite H2, alter_S_total by congruence. rewrite filter_cons. simpl.
      destruct (decide (b = v)); simpl; lia. }
  destruct (H (replicate count 0)) as [H1 H2]; [by rewrite length_replicate|].
  split; [done|]. intros v Hv. by rewrite H2, replicate_total.
Qed.

Lemma max_list_le (l : list nat) x : x ∈ l -> x <= max_list l.
Proof. induction 1; simpl; lia. Qed.

Lemma chain_to_pos g v k : chain_to g v k -> 0 < k.
Proof. destruct 1; lia. Qed.

Lemma checks_verify_call_graph program :
  checks (verify_call_graph program) (fun s _ =>
    (forall a b, (a, b) ∈ st_calls s -> key_valid program a /\ key_valid program b) ->
    exists depth : FunctionKey -> nat, forall a b, (a, b) ∈ st_calls s ->
      0 < depth a /\ depth a < depth b /\ depth b <= 128).
Proof.
  unfold verify_call_graph. apply checks_body_intro; [solve_mono|]. intros s Hc.
  run_step Hc u Hu. run_step Hc cs Hcs. subst cs.
  set (count := default 0 (last (function_offsets program))) in *.
  set (es := call_edges (function_offsets program) (st_calls s)) in *.
  destruct (default ([], 0) _) as [depth seen] eqn:Eloop.
  destruct (Nat.eqb_spec seen count) as [->|]; simpl in Hc |- *; [|dirty Hc].
  run_last Hc u1 Hmax. split; [done|]. intros Hvalid. apply N.ltb_ge in Hmax.
  assert (forall e, e ∈ es <-> exists a b, (a, b) ∈ st_calls s /\
            e = (key_index program a, key_index program b)) as Hes.
  { intros e. unfold es, call_edges. rewrite list_elem_of_fmap. split.
    - intros ([a b] & -> & Hin). by exists a, b.
    - intros (a & b & Hin & ->). by exists (a, b). }
  assert (forall e, e ∈ es -> e.1 < count /\ e.2 < count) as Hb.
  { intros e (a & b & Hin & ->)%Hes. destruct (Hvalid a b Hin). split; by apply key_index_bound. }
  destruct (call_indegree_spec count es) as [Hl Hdeg].
  assert (forall a v, edge (call_successors count es) a v <-> (a, v) ∈ es) as Hedge.
  { intros a v. unfold edge. split.
    - intros He. assert (a < count) as Ha.
      { rewrite <- (call_successors_length count es). by eapply edge_source_lt. }
      rewrite call_successors_spec in He by done.
      apply list_elem_of_fmap in He as ([x y] & -> & [<- He]%list_elem_of_filter). done.
    - intros He. rewrite call_successors_spec by (by apply (Hb (a, v))).
      apply list_elem_of_fmap. exists (a, v). split; [done|]. by apply list_elem_of_filter. }
  destruct (call_loop_correct (call_successors count es)) with (ind := call_indegree count es)
    as (depth' & seen' & Hloop & Hld & _ & Hrank & Hchain).
  - intros a v He%Hedge. rewrite call_successors_length. by apply (Hb (a, v)).
  - by rewrite call_successors_length.
  - rewrite call_successors_length. intros v Hv. rewrite Hdeg by done. symmetry.
    apply edges_into_bucket; [intros e He; by apply Hb|]. intros a Ha. by apply call_successors_spec.
  - rewrite call_successors_length in *. rewrite Hloop in Eloop. simpl in Eloop.
    injection Eloop as -> ->. exists (fun k => depth.[key_index program k]).
    intros a b Hin. destruct (Hvalid a b Hin) as [Ha%key_index_bound Hb'%key_index_bound].
    fold count in Ha, Hb'. split_and!.
    + eapply chain_to_pos, Hchain, Ha.
    + apply Hrank; [done|]. apply Hedge, Hes. eauto.
    + assert (depth.[key_index program b] <= max_list depth).
      { apply max_list_le. eapply list_elem_of_lookup_2, list_lookup_lookup_total_lt. congruence. }
      unfold MAX_STATIC_CALL_DEPTH in Hmax. lia.
Qed.

(** ** Module identities *)

Record module_ok (program : Program_) (sources : SourceMap) (m : nat) (module : Module_) : Prop := {
  mo_id : m_id module = N.of_nat m;
  mo_file : verify_file_id sources (N.of_nat m) = Ok (m_source_file module);
  mo_functions : forall f function, m_functions module !! f = Some function ->
    f_id function = mkFunctionId (m_id module) (N.of_nat f) /\
    (is_Some (f_entry_export function) -> m_id module = p_entry_module program) }.

Record modules_ok (program : Program_) (sources : SourceMap) (expected_entry : FileId) : Prop := {
  ms_length : len (p_modules program) = sm_len sources;
  ms_entry : m_source_file <$> get (p_modules program) (p_entry_module program) = Some expected_entry;
  ms_source : is_Some (sm_source sources expected_entry);
  ms_modules : forall m module, p_modules program !! m = Some module ->
    module_ok program sources m module }.

Lemma checks_verify_modules program sources expected_entry :
  checks (verify_modules program sources expected_entry) (fun _ _ =>
    modules_ok program sources expected_entry).
Proof.
  unfold verify_modules. apply checks_intro; [solve_mono|]. intros s Hc.
  run_step Hc u Hu. run_step Hc u1 Hlen. run_step Hc u2 Hentry.
  apply negb_false_iff, N.eqb_eq in Hlen. apply orb_false_iff in Hentry as [H1 H2].
  apply negb_false_iff, bool_decide_eq_true in H1, H2.
  match type of Hc with clean (?m ?s).1 => assert (checks m (fun _ _ => forall x,
    x ∈ enumerate (p_modules program) -> module_ok program sources x.1 x.2)) as Hm end.
  { apply (checks_for_each _ _ (fun x _ => module_ok program sources x.1 x.2)).
    intros (m, module) _. clear s Hc. apply checks_intro; [solve_mono|]. intros s Hc.
    run_step Hc u3 Hid. apply orb_false_iff in Hid as [Hid Hfile].
    apply negb_false_iff, N.eqb_eq in Hid. apply negb_false_iff, bool_decide_eq_true in Hfile.
    match type of Hc with clean (?m ?s).1 => assert (checks m (fun _ _ => forall x,
      x ∈ enumerate (m_functions module) ->
      f_id x.2 = mkFunctionId (m_id module) (N.of_nat x.1) /\
      (is_Some (f_entry_export x.2) -> m_id module = p_entry_module program))) as Hm end.
    { apply (checks_for_each _ _ (fun x _ =>
        f_id x.2 = mkFunctionId (m_id module) (N.of_nat x.1) /\
        (is_Some (f_entry_export x.2) -> m_id module = p_entry_module program))).
      intros (f, function) _. clear s Hc. apply checks_intro; [solve_mono|]. intros s Hc.
      run_step Hc u4 Hf. run_last Hc u5 Hx. split; [done|]. exists u5. split; [by destruct u5|].
      apply orb_false_iff in Hf as [E1%negb_false_iff%N.eqb_eq E2%negb_false_iff%N.eqb_eq]. simpl.
      split; [by destruct (f_id function); simpl in *; subst|]. intros Hsome.
      apply andb_false_iff in Hx as [E%negb_false_iff%N.eqb_eq|E%bool_decide_eq_false]; done. }
    run_last Hc u4 Hf. split; [done|]. exists u4. split; [by destruct u4|]. simpl. split.
    - done.
    - destruct (verify_file_id sources (N.of_nat m)); simpl in Hfile; congruence.
    - intros f function Hin%enumerate_elem. apply (Hf (f, function) Hin). }
  run_last Hc u3 Hmods. split; [done|]. exists u3. split; [by destruct u3|].
  split; try done. intros m module Hin%enumerate_elem. apply (Hmods (m, module) Hin).
Qed.

(** ** [verify] *)

Lemma collect_signatures_lookup program callee key sig :
  lookup_signature (collect_signatures program) callee = Some (key, sig) ->
  exists function, program_function program (callee_key callee) = Some function /\
    sig = (vd_ty <$> f_parameters function, f_result function).
Proof.
  unfold lookup_signature, collect_signatures, program_function, get, callee_key. simpl.
  rewrite list_lookup_fmap. destruct (p_modules program !! _) as [module|]; simpl; [|done].
  rewrite list_lookup_fmap. destruct (m_functions module !! _) as [function|]; simpl; [|done].
  intros [= <- <-]. eauto.
Qed.

Lemma program_calls_elem program caller callee :
  (caller, callee) ∈ program_calls program <-> calls program caller callee.
Proof.
  unfold program_calls, calls. rewrite list_elem_of_bind. split.
  - intros ((m, module) & Hin & Hm%enumerate_elem).
    apply list_elem_of_bind in Hin as ((f, function) & Hin & Hf%enumerate_elem).
    apply list_elem_of_bind in Hin as (block & Hin & [b Hb]%list_elem_of_lookup_1).
    apply list_elem_of_bind in Hin as (ins & Hin & [i Hi]%list_elem_of_lookup_1).
    unfold instruction_calls in Hin. destruct (in_kind ins) eqn:Ek; try by apply elem_of_nil in Hin.
    apply list_elem_of_singleton in Hin as [= -> ->].
    exists function, b, block, i, ins, callee0, arguments. unfold program_function. simpl.
    by rewrite Hm.
  - intros (function & b & block & i & ins & id & args & Hf & Hb & Hi & Hk & ->).
    unfold program_function in Hf.
    destruct (p_modules program !! fk_module caller) as [module|] eqn:Em; simpl in Hf; [|done].
    exists (fk_module caller, module). split; [|by apply enumerate_elem].
    apply list_elem_of_bind. exists (fk_function caller, function). split; [|by apply enumerate_elem].
    apply list_elem_of_bind. exists block. split; [|by eapply list_elem_of_lookup_2].
    apply list_elem_of_bind. exists ins. split; [|by eapply list_elem_of_lookup_2].
    unfold instruction_calls. rewrite Hk. destruct caller. left.
Qed.

(** Calls of well-formed functions connect functions of the program. *)
Lemma calls_valid program :
  (forall key function, program_function program key = Some function ->
     function_ok (collect_signatures program) function) ->
  forall a b, calls program a b -> key_valid program a /\ key_valid program b.
Proof.
  intros Hok a b (function & bi & block & i & ins & id & args & Hf & Hb & Hi & Hk & ->).
  split; [by exists function|].
  pose proof (bo_instructions _ _ _ _ (fo_blocks _ _ (Hok _ _ Hf) _ _ Hb) i ins Hi) as Hins.
  unfold instruction_ok in Hins. rewrite Hk in Hins. destruct Hins as (key & parameters & Hsig & _).
  apply collect_signatures_lookup in Hsig as (callee & Hc & _). by exists callee.
Qed.

(** An accepted run of [verify], taken apart *)
Lemma verify_ok_run program sources expected_entry vp :
  verify program sources expected_entry = Ok vp ->
  exists s1 s2,
    preflight program no_errors = no_errors /\
    clean (body (verify_modules program sources expected_entry) (mkSt no_errors [] [] [])).1 /\
    s1 = (body (verify_modules program sources expected_entry) (mkSt no_errors [] [] [])).1 /\
    clean (body (verify_functions program sources) s1).1 /\
    s2 = (body (verify_functions program sources) s1).1 /\
    clean (verify_call_graph program s2).1 /\
    exists indices, verify_public_abi program no_errors = ((Some (vp_abi vp), indices), no_errors) /\
      vp_program vp = program /\ vp_abi_indices vp = indices.
Proof.
  unfold verify. destruct (errors_is_empty (preflight program no_errors)) eqn:E0; cbn [negb]; [|intros [=]].
  set (s1 := (body (verify_modules program sources expected_entry)
    (mkSt (preflight program no_errors) [] [] [])).1). destruct (er_exhausted (st_errors s1)); [intros [=]|].
  set (s2 := (body (verify_functions program sources) s1).1). destruct (er_exhausted (st_errors s2)); [intros [=]|].
  set (s3 := (verify_call_graph program s2).1). destruct (er_exhausted (st_errors s3)) eqn:E3; [intros [=]|].
  destruct (verify_public_abi program (st_errors s3)) as [[abi indices] errors] eqn:Eabi.
  destruct (errors_is_empty errors) eqn:Ee; cbn [negb]; [|intros [=]]. destruct abi as [abi|]; [|intros [=]].
  intros [= <-]. cbn [vp_program vp_abi vp_abi_indices].
  assert (errors = st_errors s3) as ->.
  { unfold verify_public_abi in Eabi. rewrite E3 in Eabi.
    destruct (match get _ _ with Some _ => _ | None => _ end) as [exports idx].
    destruct (abi_verify_v1 exports); by simplify_eq. }
  assert (clean s3) as Hc3.
  { unfold clean, errors_of, st_has_errors. unfold errors_is_empty in Ee.
    destruct (st_errors s3) as [[] ex]; simpl in *; [by subst|done]. }
  pose proof (Hc3 : st_errors s3 = no_errors) as He3. rewrite He3 in Eabi.
  pose proof (mono_checks _ _ (checks_verify_call_graph program) s2 Hc3) as [Hc2 _].
  assert (mono (body (verify_functions program sources))) as Hm2.
  { apply mono_body. eapply mono_sound, sound_verify_functions. }
  pose proof (Hm2 s1 Hc2) as [Hc1 _].
  assert (mono (body (verify_modules program sources expected_entry))) as Hm1.
  { apply mono_body. eapply mono_checks, checks_verify_modules. }
  pose proof (Hm1 _ Hc1) as [Hc0 _].
  assert (preflight program no_errors = no_errors) as Hp by exact Hc0.
  exists s1, s2. subst s1 s2 s3. rewrite Hp in *.
  split_and!; try done. exists indices. split_and!; try done.
Qed.

Lemma all_functions_elem program key function :
  program_function program key = Some function -> function ∈ all_functions program.
Proof.
  unfold program_function. destruct (p_modules program !! fk_module key) as [module|] eqn:Em; simpl; [|done].
  intros Hf. apply list_elem_of_bind. exists module. split; by eapply list_elem_of_lookup_2.
Qed.

(** What acceptance establishes *)
Record accepted (program : Program_) (sources : SourceMap) (expected_entry : FileId) : Prop := {
  ac_program : program_ok program;
  ac_modules : modules_ok program sources expected_entry;
  ac_limits : program_limits program;
  ac_spans : forall m module f function, p_modules program !! m = Some module ->
    m_functions module !! f = Some function ->
    Forall (span_ok sources (m_source_file module)) (function_spans function) }.

Lemma verify_sound program sources expected_entry vp :
  verify program sources expected_entry = Ok vp -> accepted program sources expected_entry.
Proof.
  intros (s1 & s2 & Hp & Hc1 & -> & Hc2 & -> & Hc3 & _)%verify_ok_run.
  pose proof (preflight_limits program Hp) as Hlim.
  destruct (sound_body _ _ (checks_verify_modules program sources expected_entry) _ Hc1)
    as (_ & _ & o & Hs1 & [] & _ & Hmods). rewrite Hs1 in *.
  destruct (sound_body _ _ (sound_verify_functions program sources) _ Hc2)
    as (_ & _ & o' & _ & Hcalls & Hfun).
  assert (forall key function, program_function program key = Some function ->
            function_ok (collect_signatures program) function) as Hok.
  { intros key function Hf. pose proof (all_functions_elem _ _ _ Hf) as Hin.
    unfold program_function in Hf. destruct (p_modules program !! fk_module key) eqn:Em; simpl in Hf; [|done].
    apply (Hfun _ _ Em _ _ Hf). by apply (pl_function _ Hlim). }
  destruct (checks_verify_call_graph program _ Hc3) as (_ & _ & u & _ & Hdepth).
  rewrite Hcalls in Hdepth. cbn [st_calls app] in Hdepth. split; try done.
  - split; [done|]. destruct Hdepth as [depth Hd].
    + intros a b Hab%program_calls_elem. by eapply calls_valid.
    + exists depth. intros a b Hab%program_calls_elem. by apply Hd.
  - intros m module f function Hm Hf. apply (Hfun m module Hm f function Hf).
Qed.

(** * Diagnostics of the ControlFlowV1 verifier

    Every rejection carries between one and [MAX_DIAGNOSTICS] diagnostics: the
    bound is an invariant of the error buffer that every checker keeps. *)

(** The buffer: a free slot for the closing diagnostic until it is exhausted *)
Record errors_ok (e : Errors) : Prop := {
  ok_bound : (len (er_diagnostics e) <= MAX_DIAGNOSTICS)%N;
  ok_room : er_exhausted e = false -> (len (er_diagnostics e) < MAX_DIAGNOSTICS)%N;
  ok_cause : er_exhausted e = true -> er_diagnostics e <> [] }.

Lemma errors_ok_snoc e d :
  errors_ok e -> er_exhausted e = false -> errors_ok (mkErrors (er_diagnostics e ++ [d]) true).
Proof.
  intros [_ H _] He. specialize (H He). split; cbn; [rewrite len_snoc; lia|done|].
  intros _ []%app_nil. done.
Qed.

Lemma errors_ok_push d e : errors_ok e -> errors_ok (errors_push d e).
Proof.
  intros H. unfold errors_push. destruct (er_exhausted e) eqn:E; [done|].
  destruct (N.ltb_spec (len (er_diagnostics e)) (MAX_DIAGNOSTICS - 1)); [|by apply errors_ok_snoc].
  assert (len (er_diagnostics e ++ [d]) < MAX_DIAGNOSTICS)%N as Hlt.
  { rewrite len_snoc. unfold MAX_DIAGNOSTICS in *. lia. }
  split; cbn; [lia|done|done].
Qed.

Lemma errors_ok_limit label maximum e : errors_ok e -> errors_ok (errors_limit label maximum e).
Proof.
  intros H. unfold errors_limit. destruct (er_exhausted e) eqn:E; [done|]. by apply errors_ok_snoc.
Qed.

(** ** Runs that keep the invariant *)

Section keeps.
Context {S : Type} `{HE : HasErrors S}.

Definition bounded_run {A} (m : M S A) : Prop :=
  forall s, errors_ok (errors_of s) -> errors_ok (errors_of (m s).1).

Lemma bounded_bind {A B} (m : M S A) (f : A -> M S B) :
  bounded_run m -> (forall a, bounded_run (f a)) -> bounded_run (m ≫= f).
Proof.
  intros Hm Hf s Hs. unfold mbind, M_bind. specialize (Hm s Hs).
  destruct (m s) as [s' [a|]]; cbn in *; [by apply Hf|done].
Qed.

Lemma bounded_ret {A} (a : A) : bounded_run (mret a).
Proof. by intros s. Qed.
Lemma bounded_return {A} : bounded_run (return_now (A := A)).
Proof. by intros s. Qed.
Lemma bounded_gets {A} (f : S -> A) : bounded_run (gets f).
Proof. by intros s. Qed.
Lemma bounded_body m : bounded_run m -> bounded_run (body m).
Proof. intros Hm s Hs. by apply Hm. Qed.
Lemma bounded_when b m : bounded_run m -> bounded_run (when b m).
Proof. intros Hm. destruct b; [done|apply bounded_ret]. Qed.
Lemma bounded_for_each {A} (l : list A) (f : A -> M S unit) :
  (forall x, bounded_run (f x)) -> bounded_run (for_each l f).
Proof.
  intros Hf. induction l as [|x l IH]; cbn; [apply bounded_ret|]. apply bounded_bind; [done|auto].
Qed.
Lemma bounded_same (f : S -> S) : (forall s, errors_of (f s) = errors_of s) -> bounded_run (modify f).
Proof. intros Hf s Hs. cbn. by rewrite Hf. Qed.
End keeps.

Lemma bounded_push d : bounded_run (push d).
Proof. intros s Hs. by apply errors_ok_push. Qed.
Lemma bounded_limit label maximum : bounded_run (limit label maximum).
Proof. intros s Hs. by apply errors_ok_limit. Qed.
Lemma bounded_exhausted : bounded_run check_exhausted.
Proof. intros s Hs. unfold check_exhausted. by case_match. Qed.
Lemma bounded_pre_limit label maximum : bounded_run (pre_limit label maximum).
Proof. intros s Hs. by apply errors_ok_limit. Qed.

Create HintDb bounded.
#[export] Hint Resolve bounded_ret bounded_return bounded_gets bounded_push bounded_limit
  bounded_exhausted bounded_pre_limit : bounded.

(** Descends through the structure of a checker. *)
Ltac bounded_step :=
  match goal with
  | |- bounded_run (_ ≫= _) => apply bounded_bind; [|intros ?]
  | |- bounded_run (body _) => apply bounded_body
  | |- bounded_run (when _ _) => apply bounded_when
  | |- bounded_run (for_each _ _) => apply bounded_for_each; intros ?
  | |- bounded_run (modify _) => apply bounded_same; done
  | |- _ => solve [eauto with bounded nocore]
  | |- _ => case_match
  end.
Ltac solve_bounded := repeat bounded_step.

(** ** The checkers *)

Lemma bounded_push_checked d : bounded_run (push_checked d).
Proof. unfold push_checked. solve_bounded. Qed.
#[export] Hint Resolve bounded_push_checked : bounded.

Lemma bounded_modules program sources entry : bounded_run (verify_modules program sources entry).
Proof. unfold verify_modules. solve_bounded. Qed.

Lemma bounded_validate_type ty span label : bounded_run (validate_type ty span label).
Proof. unfold validate_type. solve_bounded. Qed.
Lemma bounded_validate_span span file sources : bounded_run (validate_span span file sources).
Proof. unfold validate_span. solve_bounded. Qed.
#[export] Hint Resolve bounded_validate_type bounded_validate_span : bounded.

Lemma bounded_validate_spans spans file sources b : bounded_run (validate_spans spans file sources b).
Proof. revert b. induction spans as [|s spans IH]; intros b; cbn; solve_bounded. Qed.
Lemma bounded_define_value d location : bounded_run (define_value d location).
Proof. unfold define_value. solve_bounded. Qed.
#[export] Hint Resolve bounded_validate_spans bounded_define_value : bounded.

Lemma bounded_checked_use id b p span : bounded_run (checked_use id b p span).
Proof. unfold checked_use. solve_bounded. Qed.
Lemma bounded_expect_result actual expected span label : bounded_run (expect_result actual expected span label).
Proof. unfold expect_result. solve_bounded. Qed.
#[export] Hint Resolve bounded_checked_use bounded_expect_result : bounded.

Lemma bounded_operands_valid operands expected b p span :
  bounded_run (operands_valid operands expected b p span).
Proof.
  revert expected. induction operands as [|o operands IH]; intros [|t expected]; cbn; solve_bounded.
Qed.
#[export] Hint Resolve bounded_operands_valid : bounded.

Lemma bounded_expect_values operands expected result expected_result b p span :
  bounded_run (expect_values operands expected result expected_result b p span).
Proof. unfold expect_values. solve_bounded. Qed.
Lemma bounded_call_arguments arguments parameters b p span :
  bounded_run (verify_call_arguments arguments parameters b p span).
Proof. unfold verify_call_arguments. solve_bounded. Qed.
#[export] Hint Resolve bounded_expect_values bounded_call_arguments : bounded.

Lemma bounded_call key callee arguments result b p span signatures :
  bounded_run (verify_call key callee arguments result b p span signatures).
Proof. unfold verify_call. solve_bounded. Qed.
Lemma bounded_equality lhs rhs result b p span : bounded_run (verify_equality lhs rhs result b p span).
Proof. unfold verify_equality. solve_bounded. Qed.
#[export] Hint Resolve bounded_call bounded_equality : bounded.

Lemma bounded_instruction key b p i signatures : bounded_run (verify_instruction key b p i signatures).
Proof. unfold verify_instruction. solve_bounded. Qed.
Lemma bounded_edge key b target arguments function span :
  bounded_run (verify_edge key b target arguments function span).
Proof. unfold verify_edge. solve_bounded. Qed.
#[export] Hint Resolve bounded_instruction bounded_edge : bounded.

Lemma bounded_terminator key b function t : bounded_run (verify_terminator key b function t).
Proof. unfold verify_terminator. solve_bounded. Qed.
Lemma bounded_dominance operand b p dom span : bounded_run (verify_dominance operand b p dom span).
Proof. unfold verify_dominance. solve_bounded. Qed.
#[export] Hint Resolve bounded_terminator bounded_dominance : bounded.

Lemma bounded_all_dominance function dom : bounded_run (verify_all_dominance function dom).
Proof. unfold verify_all_dominance. solve_bounded. Qed.
Lemma bounded_loops key count predecessors dom edges :
  bounded_run (verify_loops key count predecessors dom edges).
Proof. unfold verify_loops. solve_bounded. Qed.
#[export] Hint Resolve bounded_all_dominance bounded_loops : bounded.

Lemma bounded_cfg key function : bounded_run (verify_cfg key function).
Proof. unfold verify_cfg. solve_bounded. Qed.
Lemma bounded_define_values key function : bounded_run (define_values key function).
Proof. unfold define_values. solve_bounded. Qed.
Lemma bounded_check_blocks key function signatures : bounded_run (check_blocks key function signatures).
Proof. unfold check_blocks. solve_bounded. Qed.
#[export] Hint Resolve bounded_cfg bounded_define_values bounded_check_blocks : bounded.

Lemma bounded_function key function file signatures sources :
  bounded_run (verify_function key function file signatures sources).
Proof. unfold verify_function. solve_bounded. Qed.
#[export] Hint Resolve bounded_function : bounded.

Lemma bounded_functions program sources : bounded_run (verify_functions program sources).
Proof. unfold verify_functions. solve_bounded. Qed.

Lemma bounded_call_graph program : bounded_run (verify_call_graph program).
Proof. unfold verify_call_graph. solve_bounded. Qed.

(** ** Preflight *)

Lemma bounded_pre_fail label maximum : bounded_run (pre_fail label maximum).
Proof. unfold pre_fail. solve_bounded. Qed.
#[export] Hint Resolve bounded_pre_fail : bounded.

Lemma bounded_checked_sum current extra label : bounded_run (checked_sum current extra label).
Proof. unfold checked_sum. solve_bounded. Qed.
#[export] Hint Resolve bounded_checked_sum : bounded.

(** The counters are not part of the buffer. *)
Lemma bounded_counters n :
  bounded_run (set_functions n) /\ bounded_run (set_parameters n) /\ bounded_run (set_blocks n) /\
  bounded_run (set_values n) /\ bounded_run (set_edges n) /\ bounded_run (set_calls n) /\
  bounded_run (set_function_values n) /\ bounded_run (set_function_edges n).
Proof. split_and!; by apply bounded_same. Qed.
#[export] Hint Extern 1 (bounded_run (_ _)) => apply bounded_counters : bounded.

Lemma bounded_preflight_arguments t : bounded_run (preflight_arguments t).
Proof. unfold preflight_arguments. solve_bounded. Qed.
#[export] Hint Resolve bounded_preflight_arguments : bounded.

Lemma bounded_preflight_terminator m f t : bounded_run (preflight_terminator m f t).
Proof. unfold preflight_terminator. solve_bounded. Qed.
#[export] Hint Resolve bounded_preflight_terminator : bounded.

Lemma bounded_preflight_block m f block : bounded_run (preflight_block m f block).
Proof. unfold preflight_block. solve_bounded. Qed.
#[export] Hint Resolve bounded_preflight_block : bounded.

Lemma bounded_add_total read write extra maximum label :
  (forall n, bounded_run (write n)) -> bounded_run (add_total read write extra maximum label).
Proof. intros Hw. unfold add_total. solve_bounded. Qed.
#[export] Hint Extern 1 (bounded_run (add_total _ _ _ _ _)) =>
  apply bounded_add_total; intros; apply bounded_counters : bounded.

Lemma bounded_preflight_function m f function : bounded_run (preflight_function m f function).
Proof. unfold preflight_function. solve_bounded. Qed.
#[export] Hint Resolve bounded_preflight_function : bounded.

Lemma bounded_preflight_module m module : bounded_run (preflight_module m module).
Proof. unfold preflight_module. solve_bounded. Qed.
#[export] Hint Resolve bounded_preflight_module : bounded.

Lemma no_errors_ok : errors_ok no_errors.
Proof. by split. Qed.

Lemma preflight_errors_ok program e : errors_ok e -> errors_ok (preflight program e).
Proof.
  intros He. unfold preflight. case_match; [by apply errors_ok_push|].
  case_match; [by apply errors_ok_limit|].
  match goal with |- errors_ok (pr_errors (?m ?s).1) => assert (bounded_run m) as Hm by solve_bounded end.
  by apply Hm.
Qed.

(** ** The public ABI *)

Lemma errors_push_nonempty d e : errors_ok e -> er_diagnostics (errors_push d e) <> [].
Proof.
  intros He. unfold errors_push. destruct (er_exhausted e) eqn:E; [by apply He|].
  case_match; cbn; intros []%app_nil; done.
Qed.

Lemma push_violations_ok vs e : errors_ok e -> errors_ok (push_violations vs e).
Proof.
  revert e. induction vs as [|v vs IH]; intros e He; cbn; [done|].
  case_match; [by apply errors_ok_push|]. by apply IH, errors_ok_push.
Qed.

Lemma push_violations_nonempty vs e :
  errors_ok e -> vs <> [] \/ er_diagnostics e <> [] -> er_diagnostics (push_violations vs e) <> [].
Proof.
  revert e. induction vs as [|v vs IH]; intros e He Hne; cbn; [by destruct Hne|].
  case_match; [by apply errors_push_nonempty|].
  apply IH; [by apply errors_ok_push|]. right. by apply errors_push_nonempty.
Qed.

Lemma public_abi_ok program e :
  errors_ok e -> er_exhausted e = false ->
  errors_ok (verify_public_abi program e).2 /\
  ((verify_public_abi program e).1.1 = None -> errors_is_empty (verify_public_abi program e).2 = false).
Proof.
  intros He Hx. unfold verify_public_abi. rewrite Hx.
  destruct (match get (p_modules program) _ with Some _ => _ | None => _ end) as [exports indices].
  destruct (abi_verify_v1 exports) as [abi|vs] eqn:E; cbn; [done|].
  split; [by apply push_violations_ok|]. intros _. apply abi_verify_violations in E as [Hne _].
  pose proof (push_violations_nonempty vs e He (or_introl Hne)) as H.
  unfold errors_is_empty. by destruct (er_diagnostics _).
Qed.

(** ** Rejections *)

Definition few (ds : list Diagnostic) : Prop := ds <> [] /\ (len ds <= MAX_DIAGNOSTICS)%N.

Lemma exhausted_few e : errors_ok e -> er_exhausted e = true -> few (er_diagnostics e).
Proof. intros He Hx. split; [by apply He|apply He]. Qed.

Lemma nonempty_few e : errors_ok e -> errors_is_empty e = false -> few (er_diagnostics e).
Proof.
  intros He Hx. split; [|apply He]. unfold errors_is_empty in Hx. by destruct (er_diagnostics e).
Qed.

Lemma verify_rejection program sources entry ds :
  verify program sources entry = Err ds -> few ds.
Proof.
  unfold verify. pose proof (preflight_errors_ok program _ no_errors_ok) as H0.
  destruct (errors_is_empty (preflight program no_errors)) eqn:E0; cbn [negb].
  2: { intros [= <-]. by apply nonempty_few. }
  set (s0 := mkSt (preflight program no_errors) [] [] []).
  pose proof (bounded_body _ (bounded_modules program sources entry) s0 H0) as H1.
  set (s1 := (body (verify_modules program sources entry) s0).1) in *.
  destruct (er_exhausted (st_errors s1)) eqn:E1; [intros [= <-]; by apply exhausted_few|].
  pose proof (bounded_body _ (bounded_functions program sources) s1 H1) as H2.
  set (s2 := (body (verify_functions program sources) s1).1) in *.
  destruct (er_exhausted (st_errors s2)) eqn:E2; [intros [= <-]; by apply exhausted_few|].
  pose proof (bounded_call_graph program s2 H2) as H3.
  set (s3 := (verify_call_graph program s2).1) in *.
  destruct (er_exhausted (st_errors s3)) eqn:E3; [intros [= <-]; by apply exhausted_few|].
  pose proof (public_abi_ok program (st_errors s3) H3 E3) as [H4 _].
  destruct (verify_public_abi program (st_errors s3)) as [[abi indices] e]. cbn in H4.
  destruct (errors_is_empty e) eqn:E4; cbn [negb]; [|intros [= <-]; by apply nonempty_few].
  destruct abi; [done|]. by intros [= <-].
Qed.
