(* ===== verification/ControlFlowExec.v ===== *)
(** * Execution of ControlFlowV1 programs and type safety

    The meaning the IR documents for its operations (wrapping 32-bit arithmetic,
    exact comparisons, block arguments passed by value) as a fuelled
    interpreter.  It is stuck exactly where a program would go wrong: an unknown
    value, a value of the wrong type, a missing block or function, a wrong
    number of arguments.  Programs the verifier accepts never get stuck. *)
From stdpp Require Import base numbers list list_numbers gmap relations.
From S2P Require Import Prelude Source CfgAlgorithms CfgReach Dominators ControlFlow.
From S2P Require Import ControlFlowSpec CheckLogic ControlFlowSound VerifySound.

(** ** Values and environments *)

Inductive Value := VBool (b : bool) | VI32 (z : Z).

Definition value_ty (v : Value) : Ty := match v with VBool _ => Bool | VI32 _ => I32 end.

Notation Env := (gmap N Value).

(** Two's-complement wrap to 32 bits *)
Definition wrap32 (z : Z) : Z := ((z + 2147483648) mod 4294967296 - 2147483648)%Z.

Inductive Outcome (A : Type) := Done (a : A) | Stuck | Timeout.
Arguments Done {A} a.
Arguments Stuck {A}.
Arguments Timeout {A}.

#[export] Instance Outcome_ret : MRet Outcome := fun A a => Done a.
#[export] Instance Outcome_bind : MBind Outcome := fun A B f o =>
  match o with Done a => f a | Stuck => Stuck | Timeout => Timeout end.

Definition or_stuck {A} (o : option A) : Outcome A :=
  match o with Some a => Done a | None => Stuck end.

(** ** Instructions *)

Definition read_i32 (env : Env) (v : ValueId) : Outcome Z :=
  match env !! v with Some (VI32 z) => Done z | _ => Stuck end.
Definition read_bool (env : Env) (v : ValueId) : Outcome bool :=
  match env !! v with Some (VBool b) => Done b | _ => Stuck end.

(** Equality of two values of one scalar type *)
Definition same_scalar (x y : Value) : Outcome bool :=
  match x, y with
  | VBool a, VBool b => Done (Bool.eqb a b)
  | VI32 a, VI32 b => Done (Z.eqb a b)
  | _, _ => Stuck
  end.

Definition binary (env : Env) (x y : ValueId) (f : Z -> Z -> Value) : Outcome Value :=
  a ← read_i32 env x; b ← read_i32 env y; mret (f a b).

Definition eval_kind (call : FunctionKey -> list Value -> Outcome Value) (env : Env)
    (kind : InstructionKind) : Outcome Value :=
  match kind with
  | BoolLiteral b => mret (VBool b)
  | I32Literal z => mret (VI32 z)
  | I32Add x y => binary env x y (fun a b => VI32 (wrap32 (a + b)))
  | I32Sub x y => binary env x y (fun a b => VI32 (wrap32 (a - b)))
  | I32Mul x y => binary env x y (fun a b => VI32 (wrap32 (a * b)))
  | I32Neg x => a ← read_i32 env x; mret (VI32 (wrap32 (- a)))
  | Eq x y =>
      a ← or_stuck (env !! x); b ← or_stuck (env !! y); r ← same_scalar a b; mret (VBool r)
  | Ne x y =>
      a ← or_stuck (env !! x); b ← or_stuck (env !! y); r ← same_scalar a b; mret (VBool (negb r))
  | I32LtS x y => binary env x y (fun a b => VBool (Z.ltb a b))
  | I32LeS x y => binary env x y (fun a b => VBool (Z.leb a b))
  | I32GtS x y => binary env x y (fun a b => VBool (Z.ltb b a))
  | I32GeS x y => binary env x y (fun a b => VBool (Z.leb b a))
  | DirectCall callee arguments =>
      values ← or_stuck (mapM (fun v => env !! v) arguments);
      call (callee_key callee) values
  end.

Fixpoint run_instructions (call : FunctionKey -> list Value -> Outcome Value) (env : Env)
    (instructions : list Instruction) : Outcome Env :=
  match instructions with
  | [] => mret env
  | i :: instructions =>
      v ← eval_kind call env (in_kind i);
      run_instructions call (<[vd_id (in_result i) := v]> env) instructions
  end.

(** Bind the parameters to the arguments, which must agree in number and type. *)
Fixpoint bind_parameters (env : Env) (parameters : list ValueDefinition) (values : list Value)
    : Outcome Env :=
  match parameters, values with
  | [], [] => mret env
  | d :: parameters, v :: values =>
      if decide (value_ty v = vd_ty d) then
        bind_parameters (<[vd_id d := v]> env) parameters values
      else Stuck
  | _, _ => Stuck
  end.

(** ** Functions *)

(** Run block [b] of [function]; a call runs the callee from its entry block. *)
Fixpoint run (fuel : nat) (program : Program_) (function : Function_) (b : nat) (env : Env)
    : Outcome Value :=
  match fuel with
  | O => Timeout
  | S fuel =>
      let call key values :=
        callee ← or_stuck (program_function program key);
        env ← bind_parameters ∅ (f_parameters callee) values;
        run fuel program callee 0 env in
      let goto env target arguments :=
        values ← or_stuck (mapM (fun v => env !! v) arguments);
        block ← or_stuck (get (f_blocks function) target);
        env ← bind_parameters env (b_parameters block) values;
        run fuel program function (N.to_nat target) env in
      block ← or_stuck (f_blocks function !! b);
      env ← run_instructions call env (b_instructions block);
      match b_terminators block with
      | [t] =>
          match tm_kind t with
          | Return v =>
              value ← or_stuck (env !! v);
              if decide (value_ty value = f_result function) then mret value else Stuck
          | Jump target arguments => goto env target arguments
          | Branch condition t1 a1 t2 a2 =>
              c ← read_bool env condition;
              if (c : bool) then goto env t1 a1 else goto env t2 a2
          end
      | _ => Stuck
      end
  end.

(** Call a function with arguments. *)
Definition call_function (fuel : nat) (program : Program_) (key : FunctionKey)
    (values : list Value) : Outcome Value :=
  callee ← or_stuck (program_function program key);
  env ← bind_parameters ∅ (f_parameters callee) values;
  run fuel program callee 0 env.

(** ** Typing of environments *)

(** Every value whose definition is available at position [p] of block [b] is
    bound to a value of its type. *)
Definition env_ok (function : Function_) (b p : nat) (env : Env) : Prop :=
  forall i d l, value_table function !! i = Some (d, l) -> available (cfg function) l b p ->
    exists v, env !! N.of_nat i = Some v /\ value_ty v = vd_ty d.

(** A result that is not stuck and has type [ty] when there is one *)
Definition safe {A} (P : A -> Prop) (o : Outcome A) : Prop :=
  match o with Done a => P a | Stuck => False | Timeout => True end.

Lemma safe_bind {A B} (P : A -> Prop) (Q : B -> Prop) (o : Outcome A) (f : A -> Outcome B) :
  safe P o -> (forall a, P a -> safe Q (f a)) -> safe Q (o ≫= f).
Proof. destruct o; simpl; auto. Qed.

Lemma env_operand function b p env v ty :
  env_ok function b p env -> operand_ok function b p v ty ->
  exists x, env !! v = Some x /\ value_ty x = ty.
Proof.
  intros He (d & l & Ht & <- & Ha). unfold get in Ht. destruct (He _ _ _ Ht Ha) as (x & Hx & Hty).
  rewrite N2Nat.id in Hx. eauto.
Qed.

Lemma read_i32_safe function b p env v :
  env_ok function b p env -> operand_ok function b p v I32 -> exists z, read_i32 env v = Done z.
Proof.
  intros He Ho. destruct (env_operand _ _ _ _ _ _ He Ho) as (x & Hx & Hty). unfold read_i32.
  rewrite Hx. destruct x; [done|eauto].
Qed.

Lemma read_bool_safe function b p env v :
  env_ok function b p env -> operand_ok function b p v Bool -> exists z, read_bool env v = Done z.
Proof.
  intros He Ho. destruct (env_operand _ _ _ _ _ _ He Ho) as (x & Hx & Hty). unfold read_bool.
  rewrite Hx. destruct x; [eauto|done].
Qed.

Lemma read_all_safe function b p env args tys :
  env_ok function b p env -> Forall2 (operand_ok function b p) args tys ->
  exists vs, mapM (fun v => env !! v) args = Some vs /\ value_ty <$> vs = tys.
Proof.
  intros He Hall. induction Hall as [|v ty args tys Ho Hall (vs & Hvs & Htys)]; [by exists []|].
  destruct (env_operand _ _ _ _ _ _ He Ho) as (x & Hx & Hty). exists (x :: vs). simpl.
  rewrite Hx. simpl. change (mapM (λ v, env !! v) args) with (mapM (fun v => env !! v) args).
  rewrite Hvs. simpl. split; [done|]. by rewrite Hty, <- Htys.
Qed.

(** ** The value table *)

Lemma table_entry function k d l :
  value_table function !! k = Some (d, l) ->
  match l with
  | LocParameter => d ∈ f_parameters function
  | LocBlockParameter b => exists block, f_blocks function !! b = Some block /\ d ∈ b_parameters block
  | LocInstruction b i => exists block ins, f_blocks function !! b = Some block /\
      b_instructions block !! i = Some ins /\ d = in_result ins
  end.
Proof.
  intros Hin%list_elem_of_lookup_2. unfold value_table in Hin.
  apply elem_of_app in Hin as [(d' & [= -> ->] & ?)%list_elem_of_fmap|Hin]; [done|].
  apply list_elem_of_bind in Hin as ((b, block) & Hin & Hb%enumerate_elem).
  unfold block_values in Hin.
  apply elem_of_app in Hin as [(d' & [= -> ->] & ?)%list_elem_of_fmap|Hin]; [eauto|].
  apply elem_of_lookup_imap in Hin as (i & ins & E & Hi). injection E as -> ->. eauto.
Qed.

Lemma table_parameter function d :
  d ∈ f_parameters function -> exists k, value_table function !! k = Some (d, LocParameter).
Proof.
  intros Hd. apply list_elem_of_lookup_1. unfold value_table. apply elem_of_app. left.
  apply list_elem_of_fmap. eauto.
Qed.

Lemma table_block function b block x :
  f_blocks function !! b = Some block -> x ∈ block_values b block ->
  exists k, value_table function !! k = Some x.
Proof.
  intros Hb Hx. apply list_elem_of_lookup_1. unfold value_table. apply elem_of_app. right.
  apply list_elem_of_bind. exists (b, block). split; [done|]. by apply enumerate_elem.
Qed.

Lemma table_block_parameter function b block d :
  f_blocks function !! b = Some block -> d ∈ b_parameters block ->
  exists k, value_table function !! k = Some (d, LocBlockParameter b).
Proof.
  intros Hb Hd. eapply table_block; [done|]. unfold block_values. apply elem_of_app. left.
  apply list_elem_of_fmap. eauto.
Qed.

Lemma table_instruction function b block i ins :
  f_blocks function !! b = Some block -> b_instructions block !! i = Some ins ->
  exists k, value_table function !! k = Some (in_result ins, LocInstruction b i).
Proof.
  intros Hb Hi. eapply table_block; [done|]. unfold block_values. apply elem_of_app. right.
  apply elem_of_lookup_imap. eauto.
Qed.

(** ** Environments step by step *)

Lemma bind_parameters_spec env ds vs :
  value_ty <$> vs = vd_ty <$> ds ->
  exists env', bind_parameters env ds vs = Done env' /\ forall k,
    (exists d v, d ∈ ds /\ vd_id d = k /\ env' !! k = Some v /\ value_ty v = vd_ty d) \/
    ((forall d, d ∈ ds -> vd_id d <> k) /\ env' !! k = env !! k).
Proof.
  revert env vs. induction ds as [|d ds IH]; intros env [|v vs] Hty; try done.
  { exists env. split; [done|]. intros k. right. split; [by intros d ?%elem_of_nil|done]. }
  simpl in *. injection Hty as Hty Htys. rewrite decide_True by done.
  destruct (IH (<[vd_id d := v]> env) vs Htys) as (env' & -> & Hk).
  exists env'. split; [done|]. intros k. destruct (Hk k) as [(d' & v' & ? & ? & ? & ?)|[Hn E]].
  - left. exists d', v'. split_and!; try done. by right.
  - destruct (decide (vd_id d = k)) as [<-|Hne].
    + left. exists d, v. rewrite E, lookup_insert_eq. split_and!; [left|done..].
    + right. rewrite E, lookup_insert_ne by done. split; [|done].
      intros d' [->|?]%elem_of_cons; auto.
Qed.

Section safety.
Context (signatures : Signatures) (function : Function_).
Hypothesis function_wf : function_ok signatures function.

(** A table entry is determined by its identifier. *)
Lemma table_id k d l k' d' l' :
  value_table function !! k = Some (d, l) -> value_table function !! k' = Some (d', l') ->
  vd_id d' = N.of_nat k -> k' = k /\ d' = d /\ l' = l.
Proof.
  intros Hk Hk' Hid. destruct (fo_values _ _ function_wf _ _ _ Hk') as [E _].
  assert (k' = k) as -> by lia. by simplify_eq.
Qed.

Lemma env_ok_entry ds vs :
  ds = f_parameters function -> value_ty <$> vs = vd_ty <$> ds ->
  exists env, bind_parameters ∅ ds vs = Done env /\ env_ok function 0 0 env.
Proof.
  intros -> Hty. destruct (bind_parameters_spec ∅ _ _ Hty) as (env & -> & Hk).
  exists env. split; [done|]. intros i d l Hi Ha.
  assert (forall c, dominates_spec (cfg function) c 0 -> c = 0) as Hdom.
  { intros c. apply dominates_entry. }
  destruct (Hk (N.of_nat i)) as [(d' & v & Hd' & Hid & Hv & Ht)|[Hn E]].
  - destruct (table_parameter _ _ Hd') as [k' Hk'].
    destruct (table_id i d l k' d' LocParameter) as (_ & -> & _); eauto.
  - exfalso. pose proof (table_entry _ _ _ _ Hi) as Hent. destruct l as [|c|c q]; simpl in Ha.
    + apply (Hn d Hent). by apply (fo_values _ _ function_wf _ _ _ Hi).
    + apply Hdom in Ha as ->. destruct Hent as (block & Hb & Hin).
      rewrite (bo_entry _ _ _ _ (fo_blocks _ _ function_wf _ _ Hb)) in Hin by done.
      by apply elem_of_nil in Hin.
    + destruct (decide (c = 0)); [lia|]. apply Hdom in Ha. done.
Qed.

Lemma env_ok_instruction b block p ins env v :
  f_blocks function !! b = Some block -> b_instructions block !! p = Some ins ->
  env_ok function b p env -> value_ty v = vd_ty (in_result ins) ->
  env_ok function b (S p) (<[vd_id (in_result ins) := v]> env).
Proof.
  intros Hb Hp He Hv i d l Hi Ha.
  destruct (table_instruction _ _ _ _ _ Hb Hp) as [k Hk].
  destruct (decide (vd_id (in_result ins) = N.of_nat i)) as [E|Hne].
  - rewrite <- E, lookup_insert_eq. exists v. split; [done|].
    destruct (table_id i d l k (in_result ins) (LocInstruction b p)) as (_ & <- & _); done.
  - rewrite lookup_insert_ne by done. apply (He i d l Hi).
    destruct l as [|c|c q]; simpl in *; [done..|]. destruct (decide (c = b)) as [->|]; [|done].
    assert (q <> p); [|lia]. intros ->. apply Hne.
    destruct (table_entry _ _ _ _ Hi) as (block' & ins' & Hb' & Hp' & ->). simplify_eq.
    apply (fo_values _ _ function_wf _ _ _ Hi).
Qed.

(** Following an edge: what is available at the target was available at the end
    of the source or is one of the target's parameters. *)
Lemma env_ok_edge b block b' block' env vs :
  f_blocks function !! b = Some block -> f_blocks function !! b' = Some block' ->
  edge (cfg function) b b' -> env_ok function b (length (b_instructions block)) env ->
  value_ty <$> vs = vd_ty <$> b_parameters block' ->
  exists env', bind_parameters env (b_parameters block') vs = Done env' /\ env_ok function b' 0 env'.
Proof.
  intros Hb Hb' Hedge He Hty. destruct (bind_parameters_spec env _ _ Hty) as (env' & -> & Hk).
  exists env'. split; [done|]. intros i d l Hi Ha.
  destruct (Hk (N.of_nat i)) as [(d' & v & Hd' & Hid & Hv & Ht)|[Hn E]].
  { destruct (table_block_parameter _ _ _ _ Hb' Hd') as [k' Hk'].
    destruct (table_id i d l k' d' (LocBlockParameter b')) as (_ & -> & _); eauto. }
  setoid_rewrite E. apply (He i d l Hi). pose proof (table_entry _ _ _ _ Hi) as Hent.
  assert (forall c, dominates_spec (cfg function) c b' -> c <> b' -> dominates_spec (cfg function) c b)
    as Hdom.
  { intros c Hc Hne. by eapply dominates_pred. }
  destruct l as [|c|c q]; simpl in *; [done| |].
  - apply Hdom; [done|]. intros ->. destruct Hent as (block0 & Hb0 & Hd). simplify_eq.
    apply (Hn d Hd). by apply (fo_values _ _ function_wf _ _ _ Hi).
  - destruct (decide (c = b')) as [->|Hne]; [lia|]. specialize (Hdom c Ha Hne).
    destruct (decide (c = b)) as [->|]; [|done].
    destruct Hent as (block0 & ins & Hb0 & Hq & _). simplify_eq. by eapply lookup_lt_Some.
Qed.
End safety.

(** ** Type safety *)

Section program.
Context (program : Program_).
Hypothesis program_wf : forall key function, program_function program key = Some function ->
  function_ok (collect_signatures program) function.

(** A call is safe when its arguments have the callee's parameter types. *)
Definition call_safe (call : FunctionKey -> list Value -> Outcome Value) : Prop :=
  forall key callee vs, program_function program key = Some callee ->
    value_ty <$> vs = vd_ty <$> f_parameters callee ->
    safe (fun v => value_ty v = f_result callee) (call key vs).

Lemma binary_safe function b p env x y f ty :
  env_ok function b p env -> operand_ok function b p x I32 -> operand_ok function b p y I32 ->
  (forall u v, value_ty (f u v) = ty) -> safe (fun v => value_ty v = ty) (binary env x y f).
Proof.
  intros He Hx Hy Hf. destruct (read_i32_safe _ _ _ _ _ He Hx) as [u Eu].
  destruct (read_i32_safe _ _ _ _ _ He Hy) as [v Ev]. unfold binary. rewrite Eu. simpl.
  rewrite Ev. apply Hf.
Qed.

Lemma equality_safe function b p env x y ty f :
  env_ok function b p env -> operand_ok function b p x ty -> operand_ok function b p y ty ->
  safe (fun v => value_ty v = Bool)
    (a ← or_stuck (env !! x); b ← or_stuck (env !! y); r ← same_scalar a b; mret (VBool (f r))).
Proof.
  intros He Hx Hy. destruct (env_operand _ _ _ _ _ _ He Hx) as (u & -> & Hu).
  destruct (env_operand _ _ _ _ _ _ He Hy) as (v & -> & Hv). simpl.
  destruct u, v; simpl in *; congruence || done.
Qed.

Lemma eval_kind_safe call function b p env ins :
  call_safe call -> env_ok function b p env ->
  instruction_ok (collect_signatures program) function b p ins ->
  safe (fun v => value_ty v = vd_ty (in_result ins)) (eval_kind call env (in_kind ins)).
Proof.
  intros Hcall He Hins. unfold instruction_ok in Hins. destruct (in_kind ins); simpl in *.
  1, 2: done.
  all: try (destruct Hins as (Hx & Hy & ->); by eapply binary_safe).
  all: try (destruct Hins as (ty & Hx & Hy & ->)).
  - destruct Hins as [Hx ->]. by destruct (read_i32_safe _ _ _ _ _ He Hx) as [z ->].
  - exact (equality_safe _ _ _ _ _ _ _ (fun r => r) He Hx Hy).
  - exact (equality_safe _ _ _ _ _ _ _ negb He Hx Hy).
  - destruct Hins as (key & parameters & Hsig & Hargs).
    destruct (read_all_safe _ _ _ _ _ _ He Hargs) as (vs & -> & Htys). simpl.
    apply collect_signatures_lookup in Hsig as (target & Hc & [= E1 E2]). rewrite E2.
    apply Hcall; [done|]. by rewrite Htys.
Qed.

Lemma run_instructions_safe call function b block env p instructions :
  call_safe call -> function_ok (collect_signatures program) function ->
  f_blocks function !! b = Some block -> drop p (b_instructions block) = instructions ->
  env_ok function b p env ->
  safe (env_ok function b (length (b_instructions block))) (run_instructions call env instructions).
Proof.
  intros Hcall Hf Hb. revert env p. induction instructions as [|ins instructions IH]; intros env p Hd He.
  - simpl. intros i d l Hi Ha. apply (He i d l Hi).
    assert (length (b_instructions block) <= p) as Hle.
    { apply (f_equal length) in Hd. rewrite length_drop in Hd. simpl in Hd. lia. }
    destruct l as [|c|c q]; simpl in *; [done..|]. destruct (decide (c = b)); [lia|done].
  - assert (b_instructions block !! p = Some ins) as Hp.
    { rewrite <- (Nat.add_0_r p), <- lookup_drop, Hd. done. }
    simpl. eapply safe_bind.
    + apply (eval_kind_safe call function b p); [done..|].
      by apply (bo_instructions _ _ _ _ (fo_blocks _ _ Hf _ _ Hb)).
    + intros v Hv. apply (IH _ (S p)).
      * rewrite <- Nat.add_1_r, <- drop_drop, Hd. done.
      * by eapply env_ok_instruction.
Qed.

Lemma terminator_edge function b block t target :
  f_blocks function !! b = Some block -> b_terminators block = [t] ->
  target ∈ terminator_targets (tm_kind t) -> edge (cfg function) b target.
Proof.
  intros Hb Ht Hin. unfold edge, cfg. rewrite list_lookup_total_alt, list_lookup_fmap, Hb. simpl.
  unfold block_targets. by rewrite Ht.
Qed.

(** Running a block of a well-formed function from a typed environment never
    gets stuck, and a result has the function's result type. *)
Lemma run_safe fuel function b env :
  function_ok (collect_signatures program) function -> b < length (f_blocks function) ->
  env_ok function b 0 env ->
  safe (fun v => value_ty v = f_result function) (run fuel program function b env).
Proof.
  revert function b env. induction fuel as [|fuel IH]; intros function b env Hf Hlt He; [done|].
  apply lookup_lt_is_Some in Hlt as [block Hb]. cbn [run]. rewrite Hb. cbn [or_stuck mbind Outcome_bind].
  set (call := fun key values => _). set (goto := fun (env : Env) (target : BlockId) (arguments : list ValueId) =>
    values ← or_stuck (mapM (fun v => env !! v) arguments);
    block ← or_stuck (get (f_blocks function) target);
    env ← bind_parameters env (b_parameters block) values;
    run fuel program function (N.to_nat target) env).
  assert (call_safe call) as Hcall.
  { intros key callee vs Hkey Htys. unfold call. rewrite Hkey. simpl.
    pose proof (program_wf _ _ Hkey) as Hc.
    destruct (env_ok_entry _ _ Hc _ vs eq_refl Htys) as (env0 & -> & He0). simpl.
    apply IH; [done| |done]. pose proof (fo_nonempty _ _ Hc). destruct (f_blocks callee); simpl; [done|lia]. }
  destruct (fo_blocks _ _ Hf _ _ Hb) as [_ _ _ (t & Et & Hterm)].
  eapply safe_bind; [by eapply (run_instructions_safe call function b block env 0)|].
  intros env1 He1. rewrite Et.
  assert (forall target args, edge_ok function b (length (b_instructions block)) target args ->
            edge (cfg function) b (N.to_nat target) ->
            safe (fun v => value_ty v = f_result function) (goto env1 target args)) as Hgoto.
  { intros target args (block' & Hg & _ & Hargs) Hedge. unfold goto.
    assert (Forall2 (operand_ok function b (length (b_instructions block))) args
              (vd_ty <$> b_parameters block')) as Hops by (by apply Forall2_fmap_r).
    destruct (read_all_safe _ _ _ _ _ _ He1 Hops) as (vs & -> & Htys). simpl. rewrite Hg. simpl.
    destruct (env_ok_edge _ _ Hf b block _ block' env1 vs Hb Hg Hedge He1 Htys) as (env2 & -> & He2).
    simpl. apply IH; [done|by eapply lookup_lt_Some|done]. }
  pose proof (terminator_edge function b block t) as Hte.
  destruct (tm_kind t) as [v|target args|c t1 a1 t2 a2]; simpl in Hterm, Hte.
  - destruct (env_operand _ _ _ _ _ _ He1 Hterm) as (x & -> & Hx). simpl. by rewrite decide_True.
  - apply Hgoto; [done|]. apply Hte; [done..|left].
  - destruct Hterm as (Hc & H1 & H2). destruct (read_bool_safe _ _ _ _ _ He1 Hc) as [[] ->]; simpl.
    + apply Hgoto; [done|]. apply Hte; [done..|left].
    + apply Hgoto; [done|]. apply Hte; [done..|right; left].
Qed.

Lemma call_function_safe fuel key function vs :
  program_function program key = Some function ->
  value_ty <$> vs = vd_ty <$> f_parameters function ->
  safe (fun v => value_ty v = f_result function) (call_function fuel program key vs).
Proof.
  intros Hkey Htys. unfold call_function. rewrite Hkey. simpl. pose proof (program_wf _ _ Hkey) as Hf.
  destruct (env_ok_entry _ _ Hf _ vs eq_refl Htys) as (env0 & -> & He0). simpl.
  apply run_safe; [done| |done]. pose proof (fo_nonempty _ _ Hf). destruct (f_blocks function); simpl; [done|lia].
Qed.
End program.
