(* ===== verification/ControlFlowTheorems.v ===== *)
(** * Theorems about the ControlFlowV1 verifier

    The properties of [crates/zryna-ir/src/control_flow_v1.rs] that make its
    acceptance meaningful, with a running example: a counting loop and a caller
    of it. *)
From stdpp Require Import base numbers list list_numbers strings gmap relations.
From S2P Require Import Prelude Source Diagnostics Abi CfgAlgorithms ControlFlow CfgReach.
From S2P Require Import Dominators DomIntervals DomTotal TopoSort ControlFlowSpec CheckLogic.
From S2P Require Import ControlFlowSound CfgSound PreflightSound VerifySound.
From S2P Require Import ControlFlowExec.

(** ** A running example *)

Module Example.
Open Scope N_scope.

Definition sources : SourceMap :=
  match (build 1 [mkSourceFileInput "src/main.zry" (repeat 97 20)]).2 with
  | Ok m => m
  | Err _ => mkSourceMap 0 [] ∅
  end.
Definition file : FileId := mkFileId 1 0.
Definition span : Span := mkSpan file 0 3.
Definition def (i : N) (ty : Ty) : ValueDefinition := mkValueDefinition i ty span.
Definition ins (i : N) (ty : Ty) (k : InstructionKind) : Instruction := mkInstruction (def i ty) k.
Definition term (t : Terminator) : list SpannedTerminator := [mkSpannedTerminator span t].

(** [count(n)]: [i = 0; while i < n { i = i + 1 } return i] *)
Definition count : Function_ :=
  mkFunction (mkFunctionId 0 0) (Some "count") span [def 0 I32] I32
    [ mkBlock 0 [] [ins 1 I32 (I32Literal 0)] (term (Jump 1 [1]));
      mkBlock 1 [def 2 I32] [ins 3 Bool (I32LtS 2 0)] (term (Branch 3 2 [] 3 []));
      mkBlock 2 [] [ins 4 I32 (I32Literal 1); ins 5 I32 (I32Add 2 4)] (term (Jump 1 [5]));
      mkBlock 3 [] [] (term (Return 2)) ].

(** [seven()]: [count(7)] *)
Definition seven : Function_ :=
  mkFunction (mkFunctionId 0 1) None span [] I32
    [ mkBlock 0 [] [ins 0 I32 (I32Literal 7); ins 1 I32 (DirectCall (mkFunctionId 0 0) [0])]
        (term (Return 1)) ].

Definition program : Program_ := mkProgram 0 [mkModule 0 file [count; seven]].
Definition key : FunctionKey := mkFunctionKey 0 1.

(** The control-flow graph of [count] *)
Definition succs : graph := [[1]; [2; 3]; [1]; []]%nat.
Definition preds : graph := [[]; [0; 2]; [1]; [1]]%nat.

Lemma accepted_run : is_ok (verify program sources file) = true.
Proof. vm_compute. reflexivity. Qed.

Lemma seven_runs : call_function 20 program key [] = Done (VI32 7).
Proof. vm_compute. reflexivity. Qed.
End Example.

(** ** Type safety *)

(** C3: a program the verifier accepts never goes wrong: calling any of its
    functions with arguments of the declared types never reads an unknown
    value, a value of another type, a missing block or a missing function, and
    a result has the declared result type. *)
Theorem verified_program_type_safe program sources entry vp fuel key function values :
  verify program sources entry = Ok vp ->
  program_function program key = Some function ->
  value_ty <$> values = vd_ty <$> f_parameters function ->
  call_function fuel program key values <> Stuck /\
  forall v, call_function fuel program key values = Done v -> value_ty v = f_result function.
Proof.
  intros Hv Hf Hty. pose proof (verify_sound _ _ _ _ Hv) as [[Hok _] _ _ _].
  pose proof (call_function_safe program Hok fuel key function values Hf Hty) as Hs.
  destruct (call_function fuel program key values); simpl in Hs; split; [done|by intros ? [= <-]|done..].
Qed.

Lemma verified_program_type_safe_witness :
  exists vp, verify Example.program Example.sources Example.file = Ok vp /\
    call_function 20 Example.program Example.key [] <> Stuck.
Proof.
  destruct (verify Example.program Example.sources Example.file) as [vp|e] eqn:E.
  - exists vp. split; [reflexivity|].
    apply (verified_program_type_safe Example.program Example.sources Example.file vp 20
             Example.key Example.seven []); [exact E|reflexivity|reflexivity].
  - exfalso. pose proof Example.accepted_run as H. rewrite E in H. discriminate H.
Defined.

(** ** Acceptance *)



(** ** Dominators *)

(** Executable forms of the graph hypotheses, for concrete graphs *)
Definition wf_graphb (g : graph) : bool := forallb (forallb (fun b => Nat.ltb b (length g))) g.

Definition reversedb (succs preds : graph) : bool :=
  forallb (fun a => forallb (fun b => bool_decide (b ∈ succs.[a] <-> a ∈ preds.[b]))
             (seq 0 (length preds))) (seq 0 (length succs)).

Lemma wf_graphb_spec g : wf_graphb g = true -> wf_graph g.
Proof.
  unfold wf_graphb. rewrite forallb_forall. intros H a b He.
  pose proof (edge_source_lt _ _ _ He) as Ha. unfold edge in He.
  apply list_lookup_lookup_total_lt, list_elem_of_lookup_2, list_elem_of_In in Ha.
  specialize (H _ Ha). rewrite forallb_forall in H. apply list_elem_of_In, H in He.
  by apply Nat.ltb_lt.
Qed.

Lemma reversedb_spec succs preds :
  length preds = length succs -> wf_graph succs -> wf_graph preds ->
  reversedb succs preds = true -> reversed succs preds.
Proof.
  intros Hl Hs Hp H. unfold reversedb in H. rewrite forallb_forall in H. intros a b.
  assert (a < length succs -> b < length preds -> edge succs a b <-> edge preds b a) as Hin.
  { intros Ha Hb. specialize (H a). rewrite forallb_forall in H.
    specialize (H ltac:(apply in_seq; lia) b ltac:(apply in_seq; lia)).
    by apply bool_decide_eq_true in H. }
  split; intros He.
  - apply Hin; [by eapply edge_source_lt|rewrite Hl; by apply (Hs a)|done].
  - apply Hin; [rewrite <- Hl; by apply (Hp b)|by eapply edge_source_lt|done].
Qed.

Lemma example_wf : wf_graph Example.succs.
Proof. by apply wf_graphb_spec. Qed.

Lemma example_reversed : reversed Example.succs Example.preds.
Proof. apply reversedb_spec; [done|apply example_wf|by apply wf_graphb_spec|reflexivity]. Qed.

(** C21: whenever [immediate_dominators] returns, interval containment in the
    numbered dominator tree decides dominance: [a] is reported to dominate [b]
    exactly when [a] lies on every walk from the entry block to [b]. *)
Theorem dominates_decides_dominance (succs preds : graph) idom a b :
  wf_graph succs -> reversed succs preds ->
  immediate_dominators succs preds = Some idom ->
  a < length succs -> b < length succs ->
  dominates (dominator_intervals idom) a b = true <-> dominates_spec succs a b.
Proof. apply dominator_query_correct. Qed.

(** Block 1 (the loop header) dominates block 3; block 2 does not. *)
Lemma dominates_decides_dominance_witness :
  dominates_spec Example.succs 1 3 /\ ~ dominates_spec Example.succs 2 3.
Proof.
  split.
  - apply (dominates_decides_dominance Example.succs Example.preds [0; 0; 1; 1] 1 3);
      [exact example_wf|exact example_reversed|reflexivity|simpl; lia|simpl; lia|reflexivity].
  - intros H. apply (dominates_decides_dominance Example.succs Example.preds [0; 0; 1; 1] 2 3) in H;
      [discriminate H|exact example_wf|exact example_reversed|reflexivity|simpl; lia|simpl; lia].
Defined.

(** on a graph all of whose blocks are reachable the dominator iteration
    reaches its fixed point within one pass per block: the
    convergence failure (ZRYNA-I2019) is unreachable, as its comment says. *)
Theorem immediate_dominators_converges (succs preds : graph) :
  wf_graph succs -> reversed succs preds -> 0 < length succs ->
  (forall b, b < length succs -> reachable succs b) ->
  is_Some (immediate_dominators succs preds).
Proof. apply immediate_dominators_returns. Qed.

Lemma immediate_dominators_converges_witness :
  is_Some (immediate_dominators Example.succs Example.preds).
Proof.
  apply immediate_dominators_converges; [exact example_wf|exact example_reversed|simpl; lia|].
  intros b Hb. apply reachable_from_entry_spec; [exact example_wf|done|].
  destruct b as [|[|[|[|b]]]]; [reflexivity..|simpl in Hb; lia].
Defined.

(** [reachable_from_entry] terminates and marks exactly the blocks that
    some walk from the entry block reaches. *)
Theorem reachable_from_entry_exact (succs : graph) b :
  wf_graph succs -> b < length succs ->
  length (reachable_from_entry succs) = length succs /\
  ((reachable_from_entry succs).[b] = true <-> reachable succs b).
Proof.
  intros Hwf Hb. split; [apply reachable_from_entry_length; [done|lia]|].
  by apply reachable_from_entry_spec.
Qed.

Lemma reachable_from_entry_exact_witness : reachable Example.succs 3.
Proof.
  apply (reachable_from_entry_exact Example.succs 3); [exact example_wf|simpl; lia|reflexivity].
Defined.

(** The depth-first search always returns within its fuel; its order starts
    at the entry, repeats no block, contains every reachable block and lists a
    predecessor of every other block before it. *)
Theorem reverse_postorder_total (succs : graph) :
  wf_graph succs -> 0 < length succs ->
  exists order, reverse_postorder succs = Some order /\ rpo succs order.
Proof. apply reverse_postorder_spec. Qed.

Lemma reverse_postorder_total_witness : rpo Example.succs [0; 1; 3; 2].
Proof.
  destruct (reverse_postorder_total Example.succs) as (order & E & H); [exact example_wf|simpl; lia|].
  vm_compute in E. injection E as <-. exact H.
Defined.

(** ** Call graph *)

(** the queue-driven sort of [verify_call_graph] always ends, sees every
    function exactly when the call graph is acyclic, and then gives each
    function the length of the longest call chain that ends in it: depths
    increase along every call and are realised by actual chains. *)
Theorem call_depth_exact (g : graph) (indegree : list nat) :
  wf_graph g -> length indegree = length g ->
  (forall v, v < length g -> indegree.[v] = edges_into g (seq 0 (length g)) v) ->
  exists depth seen,
    call_loop (length g + 1) g
      (mkCallState (replicate (length g) 1) indegree (zero_degree indegree)) 0 = Some (depth, seen) /\
    length depth = length g /\ (seen = length g <-> acyclic g) /\
    (seen = length g -> ranked g (fun v => depth.[v])) /\
    (forall v, v < length g -> chain_to g v depth.[v]).
Proof. intros Hwf. by apply call_loop_correct. Qed.

Lemma call_depth_exact_witness : acyclic [[1; 2]; [2]; []].
Proof.
  destruct (call_depth_exact [[1; 2]; [2]; []] [0; 1; 2]) as (depth & seen & E & _ & H & _).
  - by apply wf_graphb_spec.
  - reflexivity.
  - intros [|[|[|v]]] Hv; [reflexivity..|simpl in Hv; lia].
  - vm_compute in E. injection E as <- <-. apply H. reflexivity.
Defined.

(** ** Resource limits *)

(** the preflight scan reports nothing only for programs within every
    published limit, per module, function and block and in program-wide totals. *)
Theorem preflight_enforces_limits program :
  preflight program no_errors = no_errors -> program_limits program.
Proof. apply preflight_limits. Qed.

Lemma preflight_enforces_limits_witness : program_limits Example.program.
Proof. apply preflight_enforces_limits. vm_compute. reflexivity. Defined.

(** ** Rejections *)

(** a rejection carries at least one and at most [MAX_DIAGNOSTICS]
    diagnostics, on every error path. *)
Theorem verify_rejection_bounded program sources entry ds :
  verify program sources entry = Err ds -> ds <> [] /\ (len ds <= MAX_DIAGNOSTICS)%N.
Proof. apply verify_rejection. Qed.

(** A program without modules is rejected. *)
Lemma verify_rejection_bounded_witness :
  exists ds, verify (mkProgram 0%N []) Example.sources Example.file = Err ds /\ ds <> [].
Proof.
  eexists. split; [vm_compute; reflexivity|].
  apply (verify_rejection_bounded (mkProgram 0%N []) Example.sources Example.file).
  vm_compute. reflexivity.
Defined.

(** When the checks before it left the error buffer open, the public ABI
    step yields no table only together with a diagnostic, so the internal
    fallback for a missing table (the last ZRYNA-I2202 of [verify]) is
    unreachable. *)
Theorem abi_fallback_unreachable program e :
  errors_ok e -> er_exhausted e = false ->
  (verify_public_abi program e).1.1 = None ->
  errors_is_empty (verify_public_abi program e).2 = false.
Proof. intros He Hx. by apply public_abi_ok. Qed.

Lemma abi_fallback_unreachable_witness :
  errors_is_empty
    (verify_public_abi
       (mkProgram 0%N [mkModule 0%N Example.file
          [mkFunction (mkFunctionId 0%N 0%N) (Some "class") Example.span [] I32 []]]) no_errors).2 = false.
Proof.
  apply abi_fallback_unreachable; [exact no_errors_ok|reflexivity|vm_compute; reflexivity].
Defined.
