(* ===== verification/Layout.v ===== *)
(** * The layout verifier up to canonical keys ([crates/zryna-layout/src/lib.rs])

    The errors, the preflight and the canonical keys of type graphs.  First the
    bounded set of retained diagnostics, and the monad of the verifier: a
    computation threads its [&mut] state, may [return] early and may panic. *)
From stdpp Require Import base numbers list strings pretty list_numbers gmap.
From S2P Require Import Prelude Source Diagnostics LayoutData.

(** ** Computations that may panic *)

(** [Panic] is a Rust panic or a loop that would outlive the fuel of its model. *)
Inductive outcome (A : Type) := Val (a : A) | Return | Panic.
Arguments Val {A} a.
Arguments Return {A}.
Arguments Panic {A}.

Definition PM (S A : Type) : Type := S -> S * outcome A.
#[export] Instance PM_ret {S} : MRet (PM S) := fun A a s => (s, Val a).
#[export] Instance PM_bind {S} : MBind (PM S) := fun A B f m s =>
  match m s with
  | (s, Val a) => f a s
  | (s, Return) => (s, Return)
  | (s, Panic) => (s, Panic)
  end.

Definition preturn {S A} : PM S A := fun s => (s, Return).
Definition ppanic {S A} : PM S A := fun s => (s, Panic).
Definition pgets {S A} (f : S -> A) : PM S A := fun s => (s, Val (f s)).
Definition pmodify {S} (f : S -> S) : PM S unit := fun s => (f s, Val tt).
Definition pwhen {S} (b : bool) (m : PM S unit) : PM S unit := if b then m else mret tt.
(** A call of a [fn ... -> ()]: its early return ends here. *)
Definition pbody {S} (m : PM S unit) : PM S unit := fun s =>
  match m s with (s, Return) => (s, Val tt) | r => r end.
(** An index or an [expect] *)
Definition expect {S A} (o : option A) : PM S A :=
  match o with Some a => mret a | None => ppanic end.
(** [let Some(x) = o else { e; return; }] *)
Definition or_else {S A} (o : option A) (e : PM S unit) : PM S A :=
  match o with Some a => mret a | None => e;; preturn end.

Fixpoint pfor_each {S A} (l : list A) (f : A -> PM S unit) : PM S unit :=
  match l with
  | [] => mret tt
  | x :: r => f x;; pfor_each r f
  end.

(** ** Retained diagnostics *)

(** [diagnostic_numbers]: the runs of ASCII digits that fit [u64].  [run] is the
    value of the run being read. *)
Fixpoint numbers_from (s : string) (run : option N) : list N :=
  let flush := match run with Some n => if (n <=? u64_max)%N then [n] else [] | None => [] end in
  match s with
  | EmptyString => flush
  | String a r =>
      if is_ascii_digit a then numbers_from r (Some (default 0 run * 10 + (byte_of a - 48))%N)
      else flush ++ numbers_from r None
  end.
Definition diagnostic_numbers (d : Diagnostic) : list N := numbers_from (d_message d) None.

(** [diagnostic_location] *)
Definition diagnostic_location (d : Diagnostic) : list N * string :=
  match diag_primary_span d with
  | Some span => ([0; file_index (span_file span); span_start span; span_end span]%N, "")
  | None => match diag_path d with
            | Some path => ([1; 0; 0; 0]%N, path)
            | None => ([2; 0; 0; 0]%N, "")
            end
  end.

Record RetainedDiagnostic := mkRetainedDiagnostic {
  rd_diagnostic : Diagnostic; rd_numeric : list N }.
(** [RetainedDiagnostic::new] *)
Definition retain (d : Diagnostic) : RetainedDiagnostic := mkRetainedDiagnostic d (diagnostic_numbers d).

Definition compare_retained (left right : RetainedDiagnostic) : comparison :=
  let l := rd_diagnostic left in
  let r := rd_diagnostic right in
  then_with (bool_cmp (bool_decide (d_code l = "ZRYNA-L3201")) (bool_decide (d_code r = "ZRYNA-L3201")))
  (then_with (then_with (list_cmp (diagnostic_location l).1 (diagnostic_location r).1)
                (str_cmp (diagnostic_location l).2 (diagnostic_location r).2))
  (then_with (str_cmp (d_code l) (d_code r))
  (then_with (list_cmp (rd_numeric left) (rd_numeric right))
  (then_with (str_cmp (d_message l) (d_message r))
             (str_cmp (d_guidance l) (d_guidance r)))))).

(** ** [Errors] *)

Definition MAX_LAYOUT_DIAGNOSTICS : N := 256.

Record LErrors := mkLErrors {
  le_diagnostics : list RetainedDiagnostic; le_fatal : bool; le_truncated : bool }.
Definition no_errors : LErrors := mkLErrors [] false false.
Definition le_is_empty (e : LErrors) : bool := match le_diagnostics e with [] => true | _ => false end.

(** The index [max_by] selects: the last greatest element *)
Fixpoint greatest_from (best : nat * RetainedDiagnostic) (index : nat) (l : list RetainedDiagnostic)
    : nat * RetainedDiagnostic :=
  match l with
  | [] => best
  | d :: l =>
      greatest_from (match compare_retained best.2 d with Gt => best | _ => (index, d) end) (S index) l
  end.
Definition greatest (l : list RetainedDiagnostic) : option (nat * RetainedDiagnostic) :=
  match l with [] => None | d :: l => Some (greatest_from (0, d) 1 l) end.

(** [Errors::push]; the [expect] of the source is the [None] of [greatest] *)
Definition layout_push (d : Diagnostic) (e : LErrors) : LErrors * outcome unit :=
  if le_fatal e then (e, Val tt)
  else
    let d := retain d in
    if (len (le_diagnostics e) <? MAX_LAYOUT_DIAGNOSTICS - 1)%N then
      (mkLErrors (le_diagnostics e ++ [d]) (le_fatal e) (le_truncated e), Val tt)
    else match greatest (le_diagnostics e) with
         | None => (e, Panic)
         | Some (index, worst) =>
             (mkLErrors (match compare_retained d worst with
                         | Lt => <[index := d]> (le_diagnostics e)
                         | _ => le_diagnostics e
                         end) (le_fatal e) true, Val tt)
         end.

Definition layout_global (code message guidance : string) : Diagnostic :=
  diag_error code None message guidance.
Definition layout_at (span : option Span) (code message guidance : string) : Diagnostic :=
  match span with
  | Some span => diag_error_at code span message guidance
  | None => layout_global code message guidance
  end.

(** [limit], [limit_at], [overflow] and [finish] *)
Definition set_fatal (e : LErrors) : LErrors := mkLErrors (le_diagnostics e) true (le_truncated e).
Definition layout_limit (label : string) (limit : N) : PM LErrors unit :=
  layout_push (layout_global "ZRYNA-L3201" (label +:+ " exceeds the limit of " +:+ pretty limit)
                 "reduce the graph before layout verification");;
  pmodify set_fatal.
Definition layout_limit_at (span : option Span) (label : string) (limit : N) : PM LErrors unit :=
  layout_push (layout_at span "ZRYNA-L3201" (label +:+ " exceeds the limit of " +:+ pretty limit)
                 "reduce the declaration before layout verification");;
  pmodify set_fatal.
Definition layout_overflow (span : option Span) (label : string) : PM LErrors unit :=
  layout_push (layout_at span "ZRYNA-L3005"
                 ("checked " +:+ label +:+ " is not representable by aggregate layout v1")
                 "reduce the stored type before verification").

Definition layout_finish (e : LErrors) : list Diagnostic :=
  let l := match le_diagnostics e with
           | [] => [retain (layout_global "ZRYNA-L3003" "layout verification failed without a retained detail"
                              "report the smallest reproducible graph")]
           | l => l
           end in
  let l := if le_truncated e
           then l ++ [retain (layout_global "ZRYNA-L3201" "layout diagnostic budget exhausted"
                                "fix the earliest reported layout errors and verify again")]
           else l in
  rd_diagnostic <$> sort_by (fun a b => match compare_retained a b with Gt => false | _ => true end) l.

(** * Aggregate layout verification ([crates/zryna-layout/src/lib.rs])

    Preflight of the raw type graph, canonical keys and type identities,
    rejection of by-value recursion, target layouts, and the sealed document.
    SHA-256 is a parameter.  A node identity is used as an index through
    [N.to_nat]. *)

(** ** Limits *)

Definition MAX_TYPE_NODES : N := 65536.
Definition MAX_MEMBERS : N := 65536.
Definition MAX_MEMBERS_PER_DECLARATION : N := 1024.
Definition MAX_DEPENDENCY_EDGES : N := 262144.
Definition MAX_TRAVERSAL_DEPTH : N := 256.
Definition MAX_ARRAY_LENGTH : N := 1048576.
Definition MAX_OBJECT_SIZE : N := u32_max.
Definition NO_PAYLOAD_TYPE_ID : N := u32_max.

(** [b"ZRYNA-AGGREGATE-LAYOUT-V1\0"] and [b"ZRYNA-TYPE-UNIVERSE-V1\0"] *)
Definition FINGERPRINT_DOMAIN : list N := bytes_of_string "ZRYNA-AGGREGATE-LAYOUT-V1" ++ [0%N].
Definition UNIVERSE_DOMAIN : list N := bytes_of_string "ZRYNA-TYPE-UNIVERSE-V1" ++ [0%N].

Definition push_error (d : Diagnostic) : PM LErrors unit := layout_push d.

(** [checked_budget_total] *)
Definition checked_budget_total (current extra limit : N) : option N :=
  match checked_add u64_max current extra with
  | Some total => if (total <=? limit)%N then Some total else None
  | None => None
  end.

(** ** Preflight *)

Definition all_children (kind : TypeKind) : list NodeId :=
  match kind with
  | TkStruct _ _ fields => rf_ty <$> fields
  | TkEnum _ _ variants => omap rv_payload variants
  | TkFixedArray element _ | TkVec element => [element]
  | TkShared payload | TkWeak payload => [payload]
  | TkBorrow referent => [referent]
  | TkBool | TkI32 | TkString => []
  end.

Definition member_and_edge_count (kind : TypeKind) : N * N :=
  match kind with
  | TkStruct _ _ fields => (len fields, len fields)
  | TkEnum _ _ variants => (len variants, len (omap rv_payload variants))
  | TkFixedArray _ _ | TkVec _ | TkShared _ | TkWeak _ | TkBorrow _ => (0, 1)%N
  | TkBool | TkI32 | TkString => (0, 0)%N
  end.

(** The closure [valid_ref] *)
Definition valid_ref (graph : LGraph) (id : NodeId) : bool :=
  match get (lg_types graph) id with Some node => (tn_id node =? id)%N | None => false end.

Definition verify_nominal_ref (graph : LGraph) (span : option Span) (module : LModuleId)
    (declaration : N) : PM LErrors unit :=
  let valid := match get (lg_modules graph) module with
               | Some candidate => (lm_id candidate =? module)%N
                                   && (declaration <? lm_data_declarations candidate)%N
               | None => false
               end in
  pwhen (negb valid)
    (push_error (layout_at span "ZRYNA-L3001" "nominal type has an unknown module or declaration identity"
                   "bind nominal identities to the authenticated module inventory")).

(** [u32::try_from(index).unwrap_or(u32::MAX)] *)
Definition ordinal_of (index : nat) : N := default u32_max (try_u32 (N.of_nat index)).

Definition verify_node_shape (graph : LGraph) (node : TypeNode) : PM LErrors unit :=
  match tn_kind node with
  | TkStruct module declaration fields =>
      verify_nominal_ref graph (tn_span node) module declaration;;
      pwhen (match fields with [] => true | _ => false end)
        (push_error (layout_at (tn_span node) "ZRYNA-L3003" "a stored struct must contain at least one field"
                       "add a field or remove the declaration"));;
      pfor_each (enumerate fields) (fun '(index, field) =>
        pwhen (negb (rf_ordinal field =? ordinal_of index)%N || negb (valid_ref graph (rf_ty field)))
          (push_error (layout_at (tn_span node) "ZRYNA-L3003"
                         "struct fields have a noncanonical ordinal or unknown type"
                         "use dense source ordinals and graph-local type references")))
  | TkEnum module declaration variants =>
      verify_nominal_ref graph (tn_span node) module declaration;;
      pwhen (match variants with [] => true | _ => false end)
        (push_error (layout_at (tn_span node) "ZRYNA-L3003" "a stored enum must contain at least one variant"
                       "add a variant or remove the declaration"));;
      pfor_each (enumerate variants) (fun '(index, variant) =>
        pwhen (negb (rv_ordinal variant =? ordinal_of index)%N
               || match rv_payload variant with Some payload => negb (valid_ref graph payload) | None => false end)
          (push_error (layout_at (tn_span node) "ZRYNA-L3003"
                         "enum variants have a noncanonical ordinal or unknown payload type"
                         "use dense source ordinals and graph-local payload references")))
  | TkFixedArray element length =>
      pwhen (negb (valid_ref graph element) || (MAX_ARRAY_LENGTH <? length)%N)
        (push_error (layout_at (tn_span node) "ZRYNA-L3003"
                       "fixed array has an unknown element type or excessive length"
                       ("use a known element and a length no greater than " +:+ pretty MAX_ARRAY_LENGTH)))
  | TkVec element | TkShared element | TkWeak element | TkBorrow element =>
      pwhen (negb (valid_ref graph element))
        (push_error (layout_at (tn_span node) "ZRYNA-L3003" "container references an unknown type"
                       "use a graph-local type reference"))
  | TkBool | TkI32 | TkString =>
      pwhen (bool_decide (is_Some (tn_span node)))
        (push_error (layout_at (tn_span node) "ZRYNA-L3003" "primitive nodes cannot claim a declaration span"
                       "remove the non-nominal span claim"))
  end.

Definition verify_node_source (graph : LGraph) (node : TypeNode) (sources : SourceMap) : PM LErrors unit :=
  match tn_kind node with
  | TkStruct module _ _ | TkEnum module _ _ =>
      match tn_span node with
      | None =>
          push_error (layout_global "ZRYNA-L3001" "nominal type is missing its authoritative declaration span"
                        "retain the exact declaration span from the final SourceMap")
      | Some span =>
          let expected_file := lm_source_file <$> get (lg_modules graph) module in
          if negb (is_ok (resolve sources span)) then
            push_error (layout_global "ZRYNA-L3001"
                          "nominal declaration span belongs to a foreign source authority"
                          "use a declaration span issued by the exact final SourceMap")
          else pwhen (negb (bool_decide (Some (span_file span) = expected_file)))
                 (push_error (layout_at (Some span) "ZRYNA-L3001"
                                "nominal declaration span belongs to another module"
                                "use a declaration span from the containing module"))
      end
  | _ => mret tt
  end.

Definition nominal_identity (kind : TypeKind) : option (N * N) :=
  match kind with
  | TkStruct module declaration _ | TkEnum module declaration _ => Some (module, declaration)
  | _ => None
  end.

(** The loop of [verify_nominal_inventory] *)
Fixpoint inventory_loop (types : list TypeNode) (seen : gset (N * N)) : PM LErrors (gset (N * N)) :=
  match types with
  | [] => mret seen
  | node :: types =>
      match nominal_identity (tn_kind node) with
      | None => inventory_loop types seen
      | Some declared =>
          pwhen (bool_decide (declared ∈ seen))
            (push_error (layout_at (tn_span node) "ZRYNA-L3001" "duplicate nominal type identity"
                           "provide each source declaration exactly once"));;
          inventory_loop types ({[declared]} ∪ seen)
      end
  end.

Definition verify_nominal_inventory (graph : LGraph) : PM LErrors unit :=
  seen ← inventory_loop (lg_types graph) ∅;
  let expected := foldl (fun total module => total ← total; checked_add u64_max total (lm_data_declarations module))
                    (Some 0%N) (lg_modules graph) in
  pwhen (negb (bool_decide (expected = Some (N.of_nat (size seen)))))
    (push_error (layout_global "ZRYNA-L3001" "nominal declaration inventory has a missing identity"
                   "provide every source-ordered data declaration exactly once")).

(** The search of [verify_reachability]; the top of the stack is its head *)
Fixpoint layout_reach_loop (fuel : nat) (types : list TypeNode) (reachable : list bool)
    (pending : list NodeId) : option (list bool) :=
  match fuel with
  | O => None
  | S fuel =>
      match pending with
      | [] => Some reachable
      | id :: pending =>
          if default true (get reachable id) then layout_reach_loop fuel types reachable pending
          else
            node ← get types id;
            layout_reach_loop fuel types (<[N.to_nat id := true]> reachable)
              (rev (all_children (tn_kind node)) ++ pending)
      end
  end.

Definition is_root_kind (kind : TypeKind) : bool :=
  match kind with TkBool | TkI32 | TkString | TkStruct _ _ _ | TkEnum _ _ _ => true | _ => false end.

Definition verify_reachability (graph : LGraph) : PM LErrors unit :=
  let types := lg_types graph in
  if existsb (fun root => negb (valid_ref graph root)) (lg_program_roots graph) then
    push_error (layout_global "ZRYNA-L3003" "program roots contain an unknown type reference"
                  "provide only graph-local stored program types")
  else
    let pending := (tn_id <$> List.filter (fun node => is_root_kind (tn_kind node)) types)
                   ++ lg_program_roots graph in
    reachable ← expect (layout_reach_loop
                          (length pending + sum_list ((fun node => length (all_children (tn_kind node))) <$> types) + 1)
                          types (replicate (length types) false) (rev pending));
    match list_find (fun value : bool => value = false) reachable with
    | None => mret tt
    | Some (index, _) =>
        node ← expect (types !! index);
        push_error (layout_at (tn_span node) "ZRYNA-L3003"
                      ("type node #" +:+ pretty index +:+ " is not reachable from a declaration or program root")
                      "remove the orphan claim or retain an authenticated stored program root")
    end.

(** The loops of [preflight] over modules and types *)
Fixpoint preflight_modules (sources : SourceMap) (modules : list (nat * LModule)) : PM LErrors unit :=
  match modules with
  | [] => mret tt
  | (index, module) :: modules =>
      expected ← or_else (try_u32 (N.of_nat index)) (layout_limit "module identity" u32_max);
      pwhen (negb (lm_id module =? expected)%N
             || negb (bool_decide (result_ok (verify_file_id sources expected) = Some (lm_source_file module))))
        (push_error (layout_global "ZRYNA-L3001"
                       ("module #" +:+ pretty index +:+ " has a noncanonical or foreign identity")
                       "bind dense modules to FileIds from the exact final SourceMap"));;
      preflight_modules sources modules
  end.

Fixpoint preflight_types (graph : LGraph) (sources : SourceMap) (types : list (nat * TypeNode))
    (members edges : N) : PM LErrors unit :=
  match types with
  | [] => mret tt
  | (index, node) :: types =>
      expected ← or_else (try_u32 (N.of_nat index)) (layout_limit "type identity" u32_max);
      pwhen (negb (tn_id node =? expected)%N)
        (push_error (layout_at (tn_span node) "ZRYNA-L3001"
                       ("type node #" +:+ pretty index +:+ " has a duplicate or missing dense identity")
                       "provide graph-local node IDs exactly once in dense order"));;
      let '(local_members, local_edges) := member_and_edge_count (tn_kind node) in
      pwhen (MAX_MEMBERS_PER_DECLARATION <? local_members)%N
        (layout_limit_at (tn_span node) "declaration member count" MAX_MEMBERS_PER_DECLARATION;; preturn);;
      members ← or_else (checked_budget_total members local_members MAX_MEMBERS)
                  (layout_limit "graph member count" MAX_MEMBERS);
      edges ← or_else (checked_budget_total edges local_edges MAX_DEPENDENCY_EDGES)
                (layout_limit "layout dependency edge count" MAX_DEPENDENCY_EDGES);
      verify_node_shape graph node;;
      verify_node_source graph node sources;;
      exhausted ← pgets le_fatal;
      if (exhausted : bool) then preturn
      else preflight_types graph sources types members edges
  end.

Definition count_kind (p : TypeKind -> bool) (types : list TypeNode) : nat :=
  length (List.filter (fun node => p (tn_kind node)) types).

Definition layout_preflight (graph : LGraph) (sources : SourceMap) : PM LErrors unit :=
  pbody (
    pwhen (MAX_TYPE_NODES <? len (lg_types graph))%N
      (layout_limit "type node count" MAX_TYPE_NODES;; preturn);;
    pwhen (negb (len (lg_modules graph) =? sm_len sources)%N)
      (push_error (layout_global "ZRYNA-L3001" "module inventory does not match the final source map"
                     "provide every final module exactly once in canonical source order"));;
    preflight_modules sources (enumerate (lg_modules graph));;
    preflight_types graph sources (enumerate (lg_types graph)) 0 0;;
    let types := lg_types graph in
    pwhen (negb (Nat.eqb (count_kind (fun k => match k with TkBool => true | _ => false end) types) 1
                 && Nat.eqb (count_kind (fun k => match k with TkI32 => true | _ => false end) types) 1
                 && Nat.eqb (count_kind (fun k => match k with TkString => true | _ => false end) types) 1))
      (push_error (layout_global "ZRYNA-L3001"
                     "the type universe must contain exactly one bool, i32, and String node"
                     "provide the complete canonical primitive universe exactly once"));;
    verify_nominal_inventory graph;;
    verify_reachability graph).

(** ** Canonical keys *)

(** [to_le_bytes] *)
Fixpoint le_bytes (count : nat) (value : N) : list N :=
  match count with
  | O => []
  | S count => (value mod 256)%N :: le_bytes count (value / 256)
  end.

Record CanonicalKey := mkCanonicalKey {
  ck_prefix : list N; ck_prefix_len : N; ck_child : option nat; ck_encoded_len : N }.

(** [CanonicalKey::new] *)
Definition key_new (prefix : list N) (child : option nat) (child_len : N) : option CanonicalKey :=
  if (9 <? len prefix)%N then None
  else
    extra ← match child with Some _ => checked_add u64_max 4 child_len | None => Some 0%N end;
    encoded_len ← checked_add u64_max (len prefix) extra;
    Some (mkCanonicalKey (prefix ++ replicate (9 - length prefix) 0%N) (len prefix) child encoded_len).

(** The bytes the iterator [KeyBytes] yields; a child's length that does not fit
    its lane would end it. *)
Fixpoint key_bytes (fuel : nat) (keys : list CanonicalKey) (index : nat) : option (list N) :=
  match fuel with
  | O => None
  | S fuel =>
      key ← keys !! index;
      let prefix := take (N.to_nat (ck_prefix_len key)) (ck_prefix key) in
      match ck_child key with
      | None => Some prefix
      | Some child =>
          child_key ← keys !! child;
          match try_u32 (ck_encoded_len child_key) with
          | None => Some prefix
          | Some lane =>
              rest ← key_bytes fuel keys child;
              Some (prefix ++ le_bytes 4 lane ++ rest)
          end
      end
  end.

(** The [&mut] arguments of [build_key] *)
Record KeyState := mkKeyState {
  ks_states : list N; ks_keys : list (option CanonicalKey); ks_errors : LErrors }.
Definition on_errors {A} (m : PM LErrors A) : PM KeyState A := fun s =>
  match m (ks_errors s) with (e, r) => (mkKeyState (ks_states s) (ks_keys s) e, r) end.
Definition set_state (index : nat) (state : N) : PM KeyState unit :=
  pmodify (fun s => mkKeyState (<[index := state]> (ks_states s)) (ks_keys s) (ks_errors s)).
Definition set_key (index : nat) (key : option CanonicalKey) : PM KeyState unit :=
  pmodify (fun s => mkKeyState (ks_states s) (<[index := key]> (ks_keys s)) (ks_errors s)).

Definition nominal_prefix (tag module declaration : N) : list N :=
  tag :: le_bytes 4 module ++ le_bytes 4 declaration.

(** [child_key] and the [and_then] that extends it *)
Definition child_key (build : nat -> N -> PM KeyState unit) (prefix : list N) (child : NodeId) (depth : N)
    : PM KeyState (option CanonicalKey) :=
  let index := N.to_nat child in
  build index (depth + 1)%N;;
  keys ← pgets ks_keys;
  key ← expect (keys !! index);
  mret (key ← key; key_new prefix (Some index) (ck_encoded_len key)).

(** [build_key] after its guards: the key of a node whose state is 1 *)
Definition node_key (build : nat -> N -> PM KeyState unit) (node : TypeNode) (index : nat) (depth : N)
    : PM KeyState (option CanonicalKey) :=
  match tn_kind node with
  | TkBool => mret (key_new [0%N] None 0)
  | TkI32 => mret (key_new [1%N] None 0)
  | TkString => mret (key_new [2%N] None 0)
  | TkStruct module declaration _ => mret (key_new (nominal_prefix 16 module declaration) None 0)
  | TkEnum module declaration _ => mret (key_new (nominal_prefix 17 module declaration) None 0)
  | TkFixedArray element length =>
      length ← or_else (try_u32 length)
        (on_errors (push_error (layout_at (tn_span node) "ZRYNA-L3003"
                                  "fixed-array length does not fit the canonical key"
                                  "use an admitted fixed-array length"));;
         set_state index 2);
      child_key build (32%N :: le_bytes 4 length) element depth
  | TkVec element => child_key build [33%N] element depth
  | TkShared payload => child_key build [34%N] payload depth
  | TkWeak payload => child_key build [35%N] payload depth
  | TkBorrow _ =>
      on_errors (push_error (layout_at (tn_span node) "ZRYNA-L3004" "borrow authorities have no stored layout"
                               "remove the borrow from the stored type graph"));;
      mret None
  end.

Fixpoint build_key (fuel : nat) (graph : LGraph) (index : nat) (depth : N) : PM KeyState unit :=
  match fuel with
  | O => ppanic
  | S fuel =>
      pbody (
        states ← pgets ks_states;
        state ← expect (states !! index);
        pwhen (state =? 2)%N preturn;;
        pwhen (MAX_TRAVERSAL_DEPTH <? depth)%N
          (on_errors (layout_limit "canonical type-key depth" MAX_TRAVERSAL_DEPTH);; preturn);;
        node ← expect (lg_types graph !! index);
        pwhen (state =? 1)%N
          (on_errors (push_error (layout_at (tn_span node) "ZRYNA-L3003"
                                    "structural container identity is recursive"
                                    "place recursion behind a nominal Vec, Shared, or Weak payload"));;
           preturn);;
        set_state index 1;;
        key ← node_key (build_key fuel graph) node index depth;
        set_state index 2;;
        set_key index key)
  end.

(** The depth guard bounds the recursion: one call per depth and one that exceeds it *)
Definition key_fuel : nat := N.to_nat MAX_TRAVERSAL_DEPTH + 2.

Definition canonical_keys (graph : LGraph) (e : LErrors) : LErrors * outcome (option (list CanonicalKey)) :=
  let count := length (lg_types graph) in
  let loop := pfor_each (seq 0 count) (fun index =>
                build_key key_fuel graph index 0;;
                exhausted ← pgets (fun s => le_fatal (ks_errors s));
                pwhen (exhausted : bool) preturn) in
  match loop (mkKeyState (replicate count 0%N) (replicate count None) e) with
  | (s, Val _) => (ks_errors s, Val (mapM id (ks_keys s)))
  | (s, Return) => (ks_errors s, Val None)
  | (s, Panic) => (ks_errors s, Panic)
  end.

(** ** Type identities *)

Record CanonicalMap := mkCanonicalMap {
  cm_raw_to_index : list N; cm_type_to_raw : list nat; cm_universe : TypeUniverseIdentity }.

Definition type_id (c : CanonicalMap) (raw_index : nat) : option TypeId :=
  index ← cm_raw_to_index c !! raw_index; Some (mkTypeId (cm_universe c) index).

Section identity.
Variable sha256 : list N -> list N.

(** [canonical.raw_to_index[child]] of a node reference *)
Definition canonical_index (c : CanonicalMap) (id : NodeId) : option N :=
  cm_raw_to_index c !! N.to_nat id.

Definition u32_bytes (v : N) : list N := le_bytes 4 v.
Definition u64_bytes (v : N) : list N := le_bytes 8 v.

(** The record hashed for one node: [None] is a panic, [Some None] a return.
    The children of a declaration are appended in order. *)
Definition field_bytes (c : CanonicalMap) (fields : list RawField) : option (list N) :=
  mjoin <$> mapM (fun field => child ← canonical_index c (rf_ty field);
                               Some (u32_bytes (rf_ordinal field) ++ u32_bytes child)) fields.
Definition variant_bytes (c : CanonicalMap) (variants : list RawVariant) : option (list N) :=
  mjoin <$> mapM (fun variant =>
    payload ← match rv_payload variant with
              | None => Some NO_PAYLOAD_TYPE_ID
              | Some payload => canonical_index c payload
              end;
    Some (u32_bytes (rv_ordinal variant) ++ u32_bytes payload)) variants.

Definition universe_record (c : CanonicalMap) (kind : TypeKind) : option (option (list N)) :=
  let reference tag child := child ← canonical_index c child; Some (Some (u32_bytes tag ++ u32_bytes child)) in
  match kind with
  | TkBool => Some (Some (u32_bytes 1))
  | TkI32 => Some (Some (u32_bytes 2))
  | TkString => Some (Some (u32_bytes 6))
  | TkStruct module declaration fields =>
      match try_u32 (len fields) with
      | None => Some None
      | Some count =>
          members ← field_bytes c fields;
          Some (Some (u32_bytes 3 ++ u32_bytes module ++ u32_bytes declaration ++ u32_bytes count ++ members))
      end
  | TkEnum module declaration variants =>
      match try_u32 (len variants) with
      | None => Some None
      | Some count =>
          members ← variant_bytes c variants;
          Some (Some (u32_bytes 4 ++ u32_bytes module ++ u32_bytes declaration ++ u32_bytes count ++ members))
      end
  | TkFixedArray element length =>
      child ← canonical_index c element;
      Some (Some (u32_bytes 5 ++ u32_bytes child ++ u64_bytes length))
  | TkVec element => reference 7%N element
  | TkShared payload => reference 8%N payload
  | TkWeak payload => reference 9%N payload
  | TkBorrow _ => Some None
  end.

(** The loop of [seal_universe_identity] over the canonical order *)
Fixpoint universe_bytes (graph : LGraph) (keys : list CanonicalKey) (c : CanonicalMap) (order : list nat)
    : PM LErrors (list N) :=
  match order with
  | [] => mret []
  | raw_index :: order =>
      key ← expect (keys !! raw_index);
      key_length ← or_else (try_u32 (ck_encoded_len key)) (layout_limit "canonical type-key byte length" u32_max);
      bytes ← expect (key_bytes (S (length keys)) keys raw_index);
      node ← expect (lg_types graph !! raw_index);
      record ← expect (universe_record c (tn_kind node));
      record ← or_else record (mret tt);
      rest ← universe_bytes graph keys c order;
      mret (u32_bytes key_length ++ bytes ++ record ++ rest)
  end.

(** An early [return None] of the callee is [Return] here *)
Definition seal_universe_identity (graph : LGraph) (keys : list CanonicalKey) (c : CanonicalMap)
    : PM LErrors TypeUniverseIdentity :=
  count ← or_else (try_u32 (len (cm_type_to_raw c))) (mret tt);
  bytes ← universe_bytes graph keys c (cm_type_to_raw c);
  mret (sha256 (UNIVERSE_DOMAIN ++ u32_bytes count ++ bytes)).

(** The loop that numbers the sorted nodes *)
Fixpoint number_nodes (id : nat) (order : list nat) (raw_to_index : list N) : PM LErrors (list N) :=
  match order with
  | [] => mret raw_to_index
  | raw_index :: order =>
      index ← or_else (try_u32 (N.of_nat id)) (layout_limit "canonical TypeId" u32_max);
      number_nodes (S id) order (<[raw_index := index]> raw_to_index)
  end.

Definition bytes_leb (a b : list N) : bool := match list_cmp a b with Gt => false | _ => true end.

Definition assign_type_ids (graph : LGraph) (keys : list CanonicalKey) : PM LErrors CanonicalMap :=
  bytes ← expect (mapM (key_bytes (S (length keys)) keys) (seq 0 (length keys)));
  let ordered := sort_by (fun a b : nat * list N => bytes_leb a.2 b.2) (enumerate bytes) in
  if windows2_any (fun a b : nat * list N => bool_decide (a.2 = b.2)) ordered then
    push_error (layout_global "ZRYNA-L3001" "duplicate canonical type key"
                  "provide each nominal or structural type exactly once");;
    preturn
  else
    raw_to_index ← number_nodes 0 ordered.*1 (replicate (length keys) 0%N);
    universe ← seal_universe_identity graph keys (mkCanonicalMap raw_to_index ordered.*1 (replicate 32 0%N));
    mret (mkCanonicalMap raw_to_index ordered.*1 universe).
End identity.
