(* ===== verification/LayoutCycles.v ===== *)
(** * By-value recursion of a type graph ([reject_by_value_cycles])

    The strongly connected components of the by-value relation, the reported
    cycle, and the bound on its depth. *)
From stdpp Require Import base numbers list list_numbers strings pretty gmap.
From S2P Require Import Prelude Source Diagnostics LayoutData Layout.

Definition by_value_children (kind : TypeKind) : list NodeId :=
  match kind with
  | TkStruct _ _ fields => rf_ty <$> fields
  | TkEnum _ _ variants => omap rv_payload variants
  | TkFixedArray element _ => [element]
  | _ => []
  end.

(** [Vec::dedup] *)
Fixpoint dedup (l : list nat) : list nat :=
  match l with
  | x :: ((y :: _) as r) => if Nat.eqb x y then dedup r else x :: dedup r
  | l => l
  end.

Definition sort_nats (l : list nat) : list nat := sort_by Nat.leb l.

(** A panic of an index is [None]. *)
Definition canonical_adjacency (graph : LGraph) (c : CanonicalMap) : option (list (list nat)) :=
  mapM (fun raw_index =>
    node ← lg_types graph !! raw_index;
    children ← mapM (fun child => N.to_nat <$> canonical_index c child) (by_value_children (tn_kind node));
    Some (dedup (sort_nats children))) (cm_type_to_raw c).

(** ** [graph_finish_order] *)

(** The search from one root.  The head of [finish] is the node finished last. *)
Fixpoint finish_loop (fuel : nat) (adjacency : list (list nat)) (visited : list bool)
    (finish : list nat) (stack : list (nat * nat)) : option (list bool * list nat) :=
  match fuel with
  | O => None
  | S fuel =>
      match stack with
      | [] => Some (visited, finish)
      | (node, next_child) :: stack =>
          children ← adjacency !! node;
          match children !! next_child with
          | Some child =>
              let stack := (node, S next_child) :: stack in
              seen ← visited !! child;
              if (seen : bool) then finish_loop fuel adjacency visited finish stack
              else finish_loop fuel adjacency (<[child := true]> visited) finish ((child, 0) :: stack)
          | None => finish_loop fuel adjacency visited (node :: finish) stack
          end
      end
  end.

Definition adjacency_size (adjacency : list (list nat)) : nat := sum_list (length <$> adjacency).

Fixpoint finish_roots (adjacency : list (list nat)) (roots : list nat) (visited : list bool)
    (finish : list nat) : option (list bool * list nat) :=
  match roots with
  | [] => Some (visited, finish)
  | root :: roots =>
      seen ← visited !! root;
      if (seen : bool) then finish_roots adjacency roots visited finish
      else
        r ← finish_loop (adjacency_size adjacency + length adjacency + 1) adjacency
              (<[root := true]> visited) finish [(root, 0)];
        finish_roots adjacency roots r.1 r.2
  end.

(** The finish order, last node first *)
Definition graph_finish_order (adjacency : list (list nat)) : option (list nat) :=
  r ← finish_roots adjacency (seq 0 (length adjacency)) (replicate (length adjacency) false) [];
  Some r.2.

(** ** Components *)

(** The reversed edges: the sources are visited in increasing order, so each
    list is already sorted. *)
Definition reverse_edges (adjacency : list (list nat)) : list (list nat) :=
  (fun node => (List.filter (fun e : nat * list nat => bool_decide (node ∈ e.2)) (enumerate adjacency)).*1)
    <$> seq 0 (length adjacency).

(** The loop over the parents of one node; the top of the stack is its head *)
Fixpoint push_parents (parents : list nat) (assigned : list bool) (pending : list nat)
    : option (list bool * list nat) :=
  match parents with
  | [] => Some (assigned, pending)
  | parent :: parents =>
      seen ← assigned !! parent;
      if (seen : bool) then push_parents parents assigned pending
      else push_parents parents (<[parent := true]> assigned) (parent :: pending)
  end.

Fixpoint component_loop (fuel : nat) (reverse : list (list nat)) (assigned : list bool)
    (component pending : list nat) : option (list bool * list nat) :=
  match fuel with
  | O => None
  | S fuel =>
      match pending with
      | [] => Some (assigned, component)
      | node :: pending =>
          parents ← reverse !! node;
          r ← push_parents (rev parents) assigned pending;
          component_loop fuel reverse r.1 (component ++ [node]) r.2
      end
  end.

Fixpoint cyclic_components (adjacency reverse : list (list nat)) (roots : list nat) (assigned : list bool)
    : option (list (list nat)) :=
  match roots with
  | [] => Some []
  | root :: roots =>
      seen ← assigned !! root;
      if (seen : bool) then cyclic_components adjacency reverse roots assigned
      else
        r ← component_loop (S (length adjacency)) reverse (<[root := true]> assigned) [] [root];
        children ← adjacency !! root;
        rest ← cyclic_components adjacency reverse roots r.1;
        Some (if Nat.ltb 1 (length r.2) || bool_decide (root ∈ (children : list nat))
              then sort_nats r.2 :: rest else rest)
  end.

(** ** [deterministic_component_cycle] *)

(** The parents of the found path, from [cursor] up to [start] *)
Fixpoint trace_cycle (fuel : nat) (start cursor : nat) (parent : list (option nat)) (path : list nat)
    : option (list nat) :=
  match fuel with
  | O => None
  | S fuel =>
      if Nat.eqb cursor start then Some path
      else
        next ← mjoin (parent !! cursor);
        trace_cycle fuel start next parent (cursor :: path)
  end.

(** The search of one first edge: [Some None] when it finds no cycle *)
Fixpoint cycle_loop (fuel : nat) (adjacency : list (list nat)) (members : list nat) (start : nat)
    (parent : list (option nat)) (visited : list bool) (stack : list (nat * nat))
    : option (option (list nat)) :=
  match fuel with
  | O => None
  | S fuel =>
      match stack with
      | [] => Some None
      | (node, next_child) :: stack =>
          children ← adjacency !! node;
          match children !! next_child with
          | None => cycle_loop fuel adjacency members start parent visited stack
          | Some child =>
              let stack := (node, S next_child) :: stack in
              if negb (bool_decide (child ∈ members)) then
                cycle_loop fuel adjacency members start parent visited stack
              else if Nat.eqb child start then
                path ← trace_cycle (S (length adjacency)) start node parent [];
                Some (Some (start :: path))
              else
                seen ← visited !! child;
                if (seen : bool) then cycle_loop fuel adjacency members start parent visited stack
                else cycle_loop fuel adjacency members start (<[child := Some node]> parent)
                       (<[child := true]> visited) ((child, 0) :: stack)
          end
      end
  end.

Fixpoint cycle_firsts (adjacency : list (list nat)) (members : list nat) (start : nat) (firsts : list nat)
    : option (list nat) :=
  match firsts with
  | [] => Some [start]
  | first :: firsts =>
      let count := length adjacency in
      found ← cycle_loop (adjacency_size adjacency + count + 1) adjacency members start
                (<[first := Some start]> (replicate count None))
                (<[first := true]> (<[start := true]> (replicate count false))) [(first, 0)];
      match found with
      | Some cycle => Some cycle
      | None => cycle_firsts adjacency members start firsts
      end
  end.

Definition deterministic_component_cycle (adjacency : list (list nat)) (component : list nat)
    : option (list N) :=
  start ← head component;
  children ← adjacency !! start;
  cycle ← (if bool_decide (start ∈ (children : list nat)) then Some [start]
           else cycle_firsts adjacency component start
                  (List.filter (fun child => bool_decide (child ∈ (component : list nat))) children));
  mapM (fun node => try_u32 (N.of_nat node)) cycle.

(** ** [reject_by_value_cycles] *)

(** [Vec<usize>::cmp] *)
Fixpoint nats_leb (a b : list nat) : bool :=
  match a, b with
  | [], _ => true
  | _ :: _, [] => false
  | x :: a, y :: b => Nat.ltb x y || (Nat.eqb x y && nats_leb a b)
  end.

(** [{:?}] of a vector of integers *)
Fixpoint debug_items (l : list N) : string :=
  match l with
  | [] => ""
  | [x] => pretty x
  | x :: l => pretty x +:+ ", " +:+ debug_items l
  end.
Definition debug_numbers (l : list N) : string := "[" +:+ debug_items l +:+ "]".

(** The depths in finish order; [saturating_add] cannot saturate below 2^64 nodes *)
Fixpoint depth_loop (adjacency : list (list nat)) (order : list nat) (depth : list N) : PM LErrors unit :=
  match order with
  | [] => mret tt
  | node :: order =>
      children ← expect (adjacency !! node);
      depths ← expect (mapM (fun child => depth !! child) children);
      let own := (foldr N.max 0 depths + 1)%N in
      pwhen (MAX_TRAVERSAL_DEPTH <? own)%N
        (layout_limit "by-value traversal depth" MAX_TRAVERSAL_DEPTH;; preturn);;
      depth_loop adjacency order (<[node := own]> depth)
  end.

Definition reject_by_value_cycles (graph : LGraph) (c : CanonicalMap) : PM LErrors unit :=
  pbody (
    adjacency ← expect (canonical_adjacency graph c);
    finish ← expect (graph_finish_order adjacency);
    components ← expect (cyclic_components adjacency (reverse_edges adjacency) finish
                           (replicate (length adjacency) false));
    match sort_by nats_leb components with
    | component :: _ =>
        cycle ← expect (deterministic_component_cycle adjacency component);
        push_error (layout_global "ZRYNA-L3002"
                      ("by-value recursive layout through canonical TypeIds " +:+ debug_numbers cycle)
                      "place recursive ownership behind Vec, Shared, or Weak");;
        preturn
    | [] => depth_loop adjacency (rev finish) (replicate (length adjacency) 1%N)
    end).
