(* ===== verification/LayoutCompute.v ===== *)
(** * Target layouts ([compute_records], [compute_one])

    Sizes, alignments, offsets and drop kinds of the canonical types, children
    first. *)
From stdpp Require Import base numbers list list_numbers strings pretty gmap.
From S2P Require Import Prelude Source Diagnostics LayoutData Layout LayoutCycles.

(** ** Storage arithmetic *)

(** [u64::is_power_of_two] *)
Definition is_power_of_two (n : N) : bool := negb (n =? 0)%N && (N.land n (n - 1) =? 0)%N.

Definition checked_align_up_with_limit (value alignment limit : N) : option N :=
  if (alignment =? 0)%N || negb (is_power_of_two alignment) then None
  else
    let remainder := (value mod alignment)%N in
    aligned ← (if (remainder =? 0)%N then Some value else checked_add u64_max value (alignment - remainder));
    if (aligned <=? limit)%N then Some aligned else None.
Definition checked_align_up (value alignment : N) : option N :=
  checked_align_up_with_limit value alignment u64_max.

Definition checked_storage_add (left right limit : N) : option N :=
  match checked_add u64_max left right with
  | Some value => if (value <=? limit)%N then Some value else None
  | None => None
  end.
Definition checked_storage_mul (left right limit : N) : option N :=
  match checked_mul u64_max left right with
  | Some value => if (value <=? limit)%N then Some value else None
  | None => None
  end.

(** ** State *)

Record RecordState := mkRecordState {
  rs_records : list (option LayoutRecord); rs_visiting : list bool; rs_errors : LErrors }.
Definition record_errors {A} (m : PM LErrors A) : PM RecordState A := fun s =>
  match m (rs_errors s) with (e, r) => (mkRecordState (rs_records s) (rs_visiting s) e, r) end.
Definition set_visiting (index : nat) (b : bool) : PM RecordState unit :=
  pmodify (fun s => mkRecordState (rs_records s) (<[index := b]> (rs_visiting s)) (rs_errors s)).
Definition set_record (index : nat) (r : LayoutRecord) : PM RecordState unit :=
  pmodify (fun s => mkRecordState (<[index := Some r]> (rs_records s)) (rs_visiting s) (rs_errors s)).

(** [resolved_record]; an index of [raw_to_index] may panic *)
Definition resolved_record (id : NodeId) (c : CanonicalMap) (records : list (option LayoutRecord))
    : option (option LayoutRecord) :=
  type_index ← canonical_index c id;
  Some (mjoin (get records type_index)).

(** ** The record of one node

    [fail] is the error path of the source: report, clear [visiting], return. *)
Section record.
Context (c : CanonicalMap) (target : StorageTarget) (records : list (option LayoutRecord)).
Context (fail : PM LErrors unit -> PM RecordState unit) (node : TypeNode) (id : TypeId).
Notation overflow label := (fail (layout_overflow (tn_span node) label)).

(** The fields: cursor, alignment, fields so far, whether one needs a drop *)
Fixpoint struct_fields (fields : list RawField) (cursor alignment : N) (verified : list VerifiedField)
    (needs_drop : bool) : PM RecordState (N * N * list VerifiedField * bool) :=
  match fields with
  | [] => mret (cursor, alignment, verified, needs_drop)
  | field :: fields =>
      child ← expect (resolved_record (rf_ty field) c records);
      child ← or_else child
        (fail (push_error (layout_at (tn_span node) "ZRYNA-L3003" "struct field layout was not resolved"
                             "provide an acyclic complete type graph")));
      offset ← or_else (checked_align_up cursor (lr_alignment child)) (overflow "struct field offset");
      next ← or_else (checked_storage_add offset (lr_size child) MAX_OBJECT_SIZE) (overflow "struct size");
      pwhen (MAX_OBJECT_SIZE <? next)%N (overflow "struct object size";; preturn);;
      struct_fields fields next (N.max alignment (lr_alignment child))
        (verified ++ [mkVerifiedField (rf_ordinal field) (lr_id child) offset])
        (needs_drop || negb (lr_drop_kind child =? 0)%N)
  end.

(** The variants: payload alignment and size, variants so far, whether one needs
    a drop.  A payload without a record is a panic. *)
Fixpoint enum_variants (variants : list RawVariant) (alignment size : N) (verified : list VerifiedVariant)
    (needs_drop : bool) : option (N * N * list VerifiedVariant * bool) :=
  match variants with
  | [] => Some (alignment, size, verified, needs_drop)
  | variant :: variants =>
      match rv_payload variant with
      | None =>
          enum_variants variants alignment size (verified ++ [mkVerifiedVariant (rv_ordinal variant) None])
            needs_drop
      | Some payload =>
          child ← mjoin (resolved_record payload c records);
          enum_variants variants (N.max alignment (lr_alignment child)) (N.max size (lr_size child))
            (verified ++ [mkVerifiedVariant (rv_ordinal variant) (Some (lr_id child))])
            (needs_drop || negb (lr_drop_kind child =? 0)%N)
      end
  end.

(** [u32::from(needs_drop)] *)
Definition drop_flag (b : bool) : N := if b then 1 else 0.

Definition struct_record (module declaration : N) (fields : list RawField) : PM RecordState LayoutRecord :=
  r ← struct_fields fields 0 1 [] false;
  let '(cursor, alignment, verified, needs_drop) := r in
  size ← or_else (checked_align_up cursor alignment) (overflow "struct tail alignment");
  mret (mkLayoutRecord id (VkStruct module declaration verified) size alignment (drop_flag needs_drop)
          (drop_flag needs_drop)).

Definition enum_record (module declaration : N) (variants : list RawVariant) : PM RecordState LayoutRecord :=
  r ← expect (enum_variants variants 1 0 [] false);
  let '(payload_alignment, payload_size, verified, needs_drop) := r in
  let alignment := N.max 4 payload_alignment in
  payload_offset ← or_else (checked_align_up 4 payload_alignment) (overflow "enum payload offset");
  end_ ← or_else (checked_storage_add payload_offset payload_size MAX_OBJECT_SIZE) (overflow "enum payload size");
  size ← or_else (checked_align_up end_ alignment) (overflow "enum tail alignment");
  pwhen (MAX_OBJECT_SIZE <? size)%N (overflow "enum object size";; preturn);;
  mret (mkLayoutRecord id (VkEnum module declaration verified payload_offset payload_size) size alignment
          (drop_flag needs_drop) (drop_flag needs_drop)).

Definition array_record (element : NodeId) (length : N) : PM RecordState LayoutRecord :=
  child ← expect (mjoin (resolved_record element c records));
  stride ← or_else (checked_align_up (lr_size child) (lr_alignment child)) (overflow "array stride");
  size ← or_else (checked_storage_mul stride length MAX_OBJECT_SIZE) (overflow "array size");
  pwhen (MAX_OBJECT_SIZE <? size)%N (overflow "array object size";; preturn);;
  let needs_drop := negb (lr_drop_kind child =? 0)%N in
  mret (mkLayoutRecord id (VkFixedArray (lr_id child) length stride) size (lr_alignment child)
          (drop_flag needs_drop) (drop_flag needs_drop)).

Definition vec_record (element : NodeId) : PM RecordState LayoutRecord :=
  child_id ← expect (type_id c (N.to_nat element));
  child ← expect (get records (ti_index child_id));
  pwhen (match child with Some child => (lr_size child =? 0)%N | None => false end)
    (fail (push_error (layout_at (tn_span node) "ZRYNA-L3003" "Vec does not admit a zero-sized element type"
                         "use a non-zero-sized element type"));; preturn);;
  let '(word, alignment) := word_layout target in
  mret (mkLayoutRecord id (VkVec child_id) (word * 3) alignment 3 3).

Definition handle_record (kind : TypeId -> VerifiedKind) (payload : NodeId) (drop_kind : N)
    : PM RecordState LayoutRecord :=
  payload ← expect (type_id c (N.to_nat payload));
  let '(word, alignment) := word_layout target in
  mret (mkLayoutRecord id (kind payload) word alignment drop_kind drop_kind).

Definition node_record : PM RecordState LayoutRecord :=
  match tn_kind node with
  | TkBool => mret (mkLayoutRecord id VkBool 1 1 0 0)
  | TkI32 => mret (mkLayoutRecord id VkI32 4 4 0 0)
  | TkString =>
      let '(word, alignment) := word_layout target in
      mret (mkLayoutRecord id VkString (word * 3) alignment 2 2)
  | TkStruct module declaration fields => struct_record module declaration fields
  | TkEnum module declaration variants => enum_record module declaration variants
  | TkFixedArray element length => array_record element length
  | TkVec element => vec_record element
  | TkShared payload => handle_record VkShared payload 4
  | TkWeak payload => handle_record VkWeak payload 5
  | TkBorrow _ => fail (mret tt);; preturn
  end.
End record.

(** ** [compute_one] *)

Definition record_accepted (r : LayoutRecord) : bool :=
  negb ((lr_alignment r =? 0)%N || negb (is_power_of_two (lr_alignment r)) || (8 <? lr_alignment r)%N
        || (MAX_OBJECT_SIZE <? lr_size r)%N).

Definition failing (type_index : nat) (e : PM LErrors unit) : PM RecordState unit :=
  record_errors e;; set_visiting type_index false.

Fixpoint compute_one (fuel : nat) (graph : LGraph) (c : CanonicalMap) (target : StorageTarget)
    (type_index : nat) : PM RecordState unit :=
  match fuel with
  | O => ppanic
  | S fuel =>
      pbody (
        records ← pgets rs_records;
        record ← expect (records !! type_index);
        pwhen (bool_decide (is_Some record)) preturn;;
        visiting ← pgets rs_visiting;
        active ← expect (visiting !! type_index);
        pwhen active preturn;;
        set_visiting type_index true;;
        raw_index ← expect (cm_type_to_raw c !! type_index);
        node ← expect (lg_types graph !! raw_index);
        pfor_each (by_value_children (tn_kind node)) (fun child =>
          child_type ← expect (canonical_index c child);
          compute_one fuel graph c target (N.to_nat child_type));;
        clean ← pgets (fun s => le_is_empty (rs_errors s));
        pwhen (negb clean) (set_visiting type_index false;; preturn);;
        index ← expect (try_u32 (N.of_nat type_index));
        records ← pgets rs_records;
        record ← node_record c target records (failing type_index) node (mkTypeId (cm_universe c) index);
        (if record_accepted record then set_record type_index record
         else record_errors (layout_overflow (tn_span node) "stored layout limit"));;
        set_visiting type_index false)
  end.

(** The depth check of [reject_by_value_cycles] bounds the recursion. *)
Definition record_fuel : nat := N.to_nat MAX_TRAVERSAL_DEPTH + 1.

(** The final check of [compute_records] on vectors *)
Fixpoint check_vec_elements (all records : list LayoutRecord) : PM LErrors unit :=
  match records with
  | [] => mret tt
  | record :: records =>
      match lr_kind record with
      | VkVec element =>
          child ← expect (get all (ti_index element));
          pwhen (lr_size child =? 0)%N
            (push_error (layout_global "ZRYNA-L3003"
                           ("Vec element TypeId " +:+ pretty (ti_index element) +:+ " has zero stored size")
                           "use a non-zero-sized Vec element type");; preturn)
      | _ => mret tt
      end;;
      check_vec_elements all records
  end.

(** An early [return None] is [Return]. *)
Definition compute_records (graph : LGraph) (c : CanonicalMap) (target : StorageTarget)
    (e : LErrors) : LErrors * outcome (list LayoutRecord) :=
  let count := length (lg_types graph) in
  let loop := pfor_each (seq 0 count) (fun type_index =>
                compute_one record_fuel graph c target type_index;;
                exhausted ← pgets (fun s => le_fatal (rs_errors s));
                pwhen (exhausted : bool) preturn) in
  match loop (mkRecordState (replicate count None) (replicate count false) e) with
  | (s, Val _) =>
      match mapM id (rs_records s) with
      | None => (rs_errors s, Return)
      | Some records => (check_vec_elements records records;; mret records) (rs_errors s)
      end
  | (s, Return) => (rs_errors s, Return)
  | (s, Panic) => (rs_errors s, Panic)
  end.
