(* ===== verification/LayoutDocument.v ===== *)
(** * The sealed layout document and [verify]

    The encoder, the auditor that reads the document back, and the composition
    of the layout verifier.  A reader takes the remaining bytes from a cursor. *)
From stdpp Require Import base numbers list list_numbers strings pretty gmap.
From S2P Require Import Prelude Source Diagnostics LayoutData Layout LayoutCycles LayoutCompute.

(** ** Encoding *)

Definition record_tag (kind : VerifiedKind) : N :=
  match kind with
  | VkBool => 1 | VkI32 => 2 | VkStruct _ _ _ => 3 | VkEnum _ _ _ _ _ => 4 | VkFixedArray _ _ _ => 5
  | VkString => 6 | VkVec _ => 7 | VkShared _ => 8 | VkWeak _ => 9
  end.

Definition payload_index (payload : option TypeId) : N :=
  match payload with Some id => ti_index id | None => NO_PAYLOAD_TYPE_ID end.
Definition encode_field (field : VerifiedField) : list N :=
  u32_bytes (vf_ordinal field) ++ u32_bytes (ti_index (vf_ty field)) ++ u64_bytes (vf_offset field).
Definition encode_variant (variant : VerifiedVariant) : list N :=
  u32_bytes (vv_ordinal variant) ++ u32_bytes (payload_index (vv_payload variant)).

(** The part of a record after its common header; a member count over [u32] is a panic *)
Definition encode_kind (kind : VerifiedKind) : option (list N) :=
  match kind with
  | VkBool | VkI32 | VkString => Some []
  | VkStruct module declaration fields =>
      count ← try_u32 (len fields);
      Some (u32_bytes module ++ u32_bytes declaration ++ u32_bytes count ++ (fields ≫= encode_field))
  | VkEnum module declaration variants payload_offset payload_size =>
      count ← try_u32 (len variants);
      Some (u32_bytes module ++ u32_bytes declaration ++ u32_bytes count ++ u64_bytes payload_offset
            ++ u64_bytes payload_size ++ (variants ≫= encode_variant))
  | VkFixedArray element length stride =>
      Some (u32_bytes (ti_index element) ++ u64_bytes length ++ u64_bytes stride)
  | VkVec element => Some (u32_bytes (ti_index element))
  | VkShared child | VkWeak child => Some (u32_bytes (ti_index child))
  end.

Definition encode_record (record : LayoutRecord) : option (list N) :=
  kind ← encode_kind (lr_kind record);
  Some (u32_bytes (record_tag (lr_kind record)) ++ u32_bytes (ti_index (lr_id record))
        ++ u32_bytes (lr_drop_kind record) ++ u32_bytes (lr_runtime_kind record)
        ++ u64_bytes (lr_size record) ++ u64_bytes (lr_alignment record) ++ kind).

Fixpoint encode_records (records : list LayoutRecord) : PM LErrors (list N) :=
  match records with
  | [] => mret []
  | record :: records =>
      payload ← expect (encode_record record);
      length ← or_else (try_u32 (len payload)) (layout_limit "sealed record byte length" u32_max);
      rest ← encode_records records;
      mret (u32_bytes length ++ payload ++ rest)
  end.

Definition encode_document (target : StorageTarget) (records : list LayoutRecord) : PM LErrors (list N) :=
  count ← or_else (try_u32 (len records)) (layout_limit "sealed record count" u32_max);
  bytes ← encode_records records;
  mret (FINGERPRINT_DOMAIN ++ u32_bytes (target_tag target) ++ u32_bytes count ++ bytes).

(** ** Auditing *)

(** [u32::from_le_bytes] and [u64::from_le_bytes] *)
Fixpoint le_combine (l : list N) : N :=
  match l with [] => 0 | b :: l => b + 256 * le_combine l end.

(** [bytes.get(cursor..cursor + count)] and the advance of the cursor *)
Definition read_bytes (count : N) (bytes : list N) (cursor : N) : option (list N * N) :=
  end_ ← checked_add u64_max cursor count;
  if (end_ <=? len bytes)%N
  then Some (take (N.to_nat count) (drop (N.to_nat cursor) bytes), end_) else None.
Definition take_exact (bytes : list N) (cursor : N) (expected : list N) : option N :=
  r ← read_bytes (len expected) bytes cursor;
  if bool_decide (r.1 = expected) then Some r.2 else None.
Definition read_u32 (bytes : list N) (cursor : N) : option (N * N) :=
  r ← read_bytes 4 bytes cursor; Some (le_combine r.1, r.2).
Definition read_u64 (bytes : list N) (cursor : N) : option (N * N) :=
  r ← read_bytes 8 bytes cursor; Some (le_combine r.1, r.2).

(** [read_u32(..) == Some(expected)], and the same for [u64]: a failed read or a
    different value ends the audit *)
Definition expect_u32 (bytes : list N) (expected cursor : N) : option N :=
  r ← read_u32 bytes cursor; if (r.1 =? expected)%N then Some r.2 else None.
Definition expect_u64 (bytes : list N) (expected cursor : N) : option N :=
  r ← read_u64 bytes cursor; if (r.1 =? expected)%N then Some r.2 else None.

Fixpoint audit_fields (bytes : list N) (fields : list VerifiedField) (cursor : N) : option N :=
  match fields with
  | [] => Some cursor
  | field :: fields =>
      cursor ← expect_u32 bytes (vf_ordinal field) cursor;
      cursor ← expect_u32 bytes (ti_index (vf_ty field)) cursor;
      cursor ← expect_u64 bytes (vf_offset field) cursor;
      audit_fields bytes fields cursor
  end.
Fixpoint audit_variants (bytes : list N) (variants : list VerifiedVariant) (cursor : N) : option N :=
  match variants with
  | [] => Some cursor
  | variant :: variants =>
      cursor ← expect_u32 bytes (vv_ordinal variant) cursor;
      cursor ← expect_u32 bytes (payload_index (vv_payload variant)) cursor;
      audit_variants bytes variants cursor
  end.

Definition audit_record_payload (bytes : list N) (end_ : N) (kind : VerifiedKind) (cursor : N) : option N :=
  match kind with
  | VkBool | VkI32 | VkString => if (cursor =? end_)%N then Some cursor else None
  | VkStruct module declaration fields =>
      cursor ← expect_u32 bytes module cursor;
      cursor ← expect_u32 bytes declaration cursor;
      count ← try_u32 (len fields);
      cursor ← expect_u32 bytes count cursor;
      audit_fields bytes fields cursor
  | VkEnum module declaration variants payload_offset payload_size =>
      cursor ← expect_u32 bytes module cursor;
      cursor ← expect_u32 bytes declaration cursor;
      count ← try_u32 (len variants);
      cursor ← expect_u32 bytes count cursor;
      cursor ← expect_u64 bytes payload_offset cursor;
      cursor ← expect_u64 bytes payload_size cursor;
      audit_variants bytes variants cursor
  | VkFixedArray element length stride =>
      cursor ← expect_u32 bytes (ti_index element) cursor;
      cursor ← expect_u64 bytes length cursor;
      expect_u64 bytes stride cursor
  | VkVec element => expect_u32 bytes (ti_index element) cursor
  | VkShared payload | VkWeak payload => expect_u32 bytes (ti_index payload) cursor
  end.

(** One record of the document *)
Definition audit_record (bytes : list N) (expected_id : N) (expected : LayoutRecord) (cursor : N) : option N :=
  r ← read_u32 bytes cursor;
  let '(payload_length, cursor) := r in
  if (payload_length <? 32)%N then None
  else
    end_ ← checked_add u64_max cursor payload_length;
    if (len bytes <? end_)%N then None
    else
      cursor ← expect_u32 bytes (record_tag (lr_kind expected)) cursor;
      cursor ← expect_u32 bytes expected_id cursor;
      cursor ← expect_u32 bytes (lr_drop_kind expected) cursor;
      cursor ← expect_u32 bytes (lr_runtime_kind expected) cursor;
      cursor ← expect_u64 bytes (lr_size expected) cursor;
      cursor ← expect_u64 bytes (lr_alignment expected) cursor;
      cursor ← audit_record_payload bytes end_ (lr_kind expected) cursor;
      if (cursor =? end_)%N then Some cursor else None.

Fixpoint audit_records (bytes : list N) (id : N) (expected : list LayoutRecord) (cursor : N) : option N :=
  match expected with
  | [] => Some cursor
  | record :: expected =>
      cursor ← audit_record bytes id record cursor;
      audit_records bytes (id + 1) expected cursor
  end.

Section seal.
Variable sha256 : list N -> list N.

Definition audit_accepts (bytes : list N) (target : StorageTarget) (expected_records : list LayoutRecord)
    (expected_fingerprint : list N) : bool :=
  match
    cursor ← take_exact bytes 0 FINGERPRINT_DOMAIN;
    cursor ← expect_u32 bytes (target_tag target) cursor;
    r ← read_u32 bytes cursor;
    if (r.1 =? len expected_records)%N then audit_records bytes 0 expected_records r.2 else None
  with
  | Some cursor => (cursor =? len bytes)%N && bool_decide (sha256 bytes = expected_fingerprint)
  | None => false
  end.

Definition audit_failure : Diagnostic :=
  layout_global "ZRYNA-L3006" "sealed layout document, target, or fingerprint is inconsistent"
    "discard the snapshot and rebuild it through the aggregate layout authority".

Definition audit_document (bytes : list N) (target : StorageTarget) (expected_records : list LayoutRecord)
    (expected_fingerprint : list N) : result Diagnostic unit :=
  if audit_accepts bytes target expected_records expected_fingerprint then Ok tt else Err audit_failure.

Definition seal_target (target : StorageTarget) (records : list LayoutRecord)
    : PM LErrors (list N * list N) :=
  bytes ← encode_document target records;
  let fingerprint := sha256 bytes in
  match audit_document bytes target records fingerprint with
  | Err diagnostic => push_error diagnostic;; preturn
  | Ok _ => mret (bytes, fingerprint)
  end.

(** ** [verify] *)

(** A stage: its errors end the verification, and so does a missing result *)
Definition stage {A} (m : LErrors -> LErrors * outcome A) : PM LErrors A :=
  a ← m;
  clean ← pgets le_is_empty;
  if (clean : bool) then mret a else preturn.

Definition verify_stages (graph : LGraph) (sources : SourceMap) (target : StorageTarget)
    : PM LErrors VerifiedLayouts :=
  _ ← stage (layout_preflight graph sources);
  keys ← stage (canonical_keys graph);
  keys ← or_else keys (mret tt);
  canonical ← stage (assign_type_ids sha256 graph keys);
  _ ← stage (reject_by_value_cycles graph canonical);
  linear_records ← stage (compute_records graph canonical Linear32V1);
  linux_records ← stage (compute_records graph canonical LinuxX8664V1);
  linear ← seal_target Linear32V1 linear_records;
  linux ← seal_target LinuxX8664V1 linux_records;
  let '(records, fingerprint) := match target with
                                 | Linear32V1 => (linear_records, linear.2)
                                 | LinuxX8664V1 => (linux_records, linux.2)
                                 end in
  mret (mkVerifiedLayouts (sm_id sources) (cm_universe canonical) target records fingerprint).

(** [None] is a panic *)
Definition layout_verify (graph : LGraph) (sources : SourceMap) (target : StorageTarget)
    : option (result (list Diagnostic) VerifiedLayouts) :=
  match verify_stages graph sources target no_errors with
  | (_, Val layouts) => Some (Ok layouts)
  | (errors, Return) => Some (Err (layout_finish errors))
  | (_, Panic) => None
  end.
End seal.
