(* ===== verification/LayoutCodec.v ===== *)
(** * The sealed document: encoding and auditing agree

    The auditor accepts exactly the encoder's document of the expected records,
    so that its rejection is unreachable after an encoding. *)
From stdpp Require Import base numbers list list_numbers strings pretty gmap.
From S2P Require Import Prelude Source Diagnostics LayoutData Layout LayoutCycles LayoutCompute LayoutDocument.

(** ** Little-endian lanes *)

Lemma le_bytes_length n v : length (le_bytes n v) = n.
Proof. revert v. induction n as [|n IH]; intros v; cbn; [done|]. by rewrite IH. Qed.

Definition is_byte (b : N) : Prop := (b < 256)%N.
Lemma le_bytes_bytes n v : Forall is_byte (le_bytes n v).
Proof.
  revert v. induction n as [|n IH]; intros v; cbn; constructor; [|apply IH].
  apply N.mod_lt. lia.
Qed.

Lemma le_combine_bytes n v : (v < 256 ^ N.of_nat n)%N -> le_combine (le_bytes n v) = v.
Proof.
  revert v. induction n as [|n IH]; intros v Hv; cbn [le_bytes le_combine].
  { cbn in Hv. lia. }
  rewrite Nat2N.inj_succ, N.pow_succ_r' in Hv.
  rewrite IH by (apply N.Div0.div_lt_upper_bound; lia).
  pose proof (N.div_mod v 256). generalize dependent (v / 256)%N. generalize dependent (v mod 256)%N. intros. lia.
Qed.

Lemma le_combine_inj l v :
  Forall is_byte l -> le_combine l = v -> l = le_bytes (length l) v.
Proof.
  intros H. revert v. induction H as [|b l Hb Hl IH]; intros v <-; [done|]. cbn [length le_bytes le_combine].
  unfold is_byte in Hb. f_equal.
  - rewrite (N.mul_comm 256), N.Div0.mod_add. symmetry. by apply N.mod_small.
  - rewrite (N.mul_comm 256), N.div_add, N.div_small by (done || lia). by apply IH.
Qed.

Notation u32 v := (v < 4294967296)%N.
Notation u64 v := (v < 18446744073709551616)%N.

(** ** Reading *)

(** The bytes from [cursor] to [next] are [l] *)
Definition reads (bytes : list N) (cursor : N) (l : list N) (next : N) : Prop :=
  next = (cursor + len l)%N /\ (next <= len bytes)%N /\ take (length l) (drop (N.to_nat cursor) bytes) = l.

Lemma reads_nil bytes c c' : reads bytes c [] c' <-> c' = c /\ (c <= len bytes)%N.
Proof. unfold reads. cbn. change (len (@nil N)) with 0%N. rewrite N.add_0_r. naive_solver. Qed.

Lemma reads_app bytes c l k c' :
  reads bytes c (l ++ k) c' <-> exists c1, reads bytes c l c1 /\ reads bytes c1 k c'.
Proof.
  unfold reads. split.
  - intros (-> & Hle & Ht). exists (c + len l)%N. rewrite length_app in Ht. unfold len in *. rewrite length_app in *.
    split_and!; [done|lia| |lia|lia|].
    + apply (f_equal (take (length l))) in Ht. rewrite take_take, Nat.min_l, take_app_length in Ht by lia. done.
    + apply (f_equal (drop (length l))) in Ht. rewrite drop_app_length in Ht.
      rewrite skipn_firstn_comm, drop_drop in Ht. rewrite <- Ht at 2. f_equal; [lia|]. f_equal. lia.
  - intros (c1 & (-> & Hle1 & Ht1) & (-> & Hle2 & Ht2)). unfold len in *. rewrite length_app.
    split_and!; [lia|lia|]. rewrite <- Ht1 at 2. rewrite <- Ht2 at 2.
    replace (drop (N.to_nat (c + N.of_nat (length l))) bytes) with (drop (length l) (drop (N.to_nat c) bytes))
      by (rewrite drop_drop; f_equal; lia).
    symmetry. apply take_take_drop.
Qed.

Lemma try_u32_typed n : u32 n -> try_u32 n = Some n.
Proof. intros H. unfold try_u32, u32_max. destruct (N.leb_spec n 4294967295); [done|lia]. Qed.

Lemma encode_record_length r l : encode_record r = Some l -> (32 <= len l)%N.
Proof.
  unfold encode_record. destruct (encode_kind (lr_kind r)) as [k|]; [|done]. cbn [mbind option_bind].
  intros E%(inj Some). subst l. unfold len, u32_bytes, u64_bytes. rewrite !length_app, !le_bytes_length. lia.
Qed.

Section audit.
Context (bytes : list N) (all_bytes : Forall is_byte bytes) (fits : (len bytes <= u64_max)%N).

Lemma read_bytes_spec n c l c' :
  read_bytes (N.of_nat n) bytes c = Some (l, c') <-> reads bytes c l c' /\ length l = n.
Proof.
  unfold read_bytes, checked_add, reads. destruct (N.leb_spec (c + N.of_nat n) u64_max) as [Hu|Hu]; cbn [mbind option_bind].
  - destruct (N.leb_spec (c + N.of_nat n) (len bytes)) as [Hb|Hb].
    + rewrite Nat2N.id. split.
      * intros [= <- <-]. unfold len in *. rewrite length_take, length_drop. split_and!; try lia. f_equal. lia.
      * intros ((-> & _ & Ht) & <-). unfold len in *. f_equal. f_equal. done.
    + split; [done|]. intros ((-> & Hle & _) & <-). unfold len in *. lia.
  - split; [done|]. intros ((-> & Hle & _) & <-). unfold len in *. lia.
Qed.

Lemma reads_bytes c l c' : reads bytes c l c' -> Forall is_byte l.
Proof. intros (_ & _ & <-). by apply Forall_take, Forall_drop. Qed.

(** A lane of [n] bytes with an expected value *)
Lemma lane_spec n v c c' :
  (v < 256 ^ N.of_nat n)%N ->
  (exists l, read_bytes (N.of_nat n) bytes c = Some (l, c') /\ le_combine l = v) <->
  reads bytes c (le_bytes n v) c'.
Proof.
  intros Hv. setoid_rewrite read_bytes_spec. split.
  - intros (l & (Hr & Hl) & Hc). apply le_combine_inj in Hc; [|by eapply reads_bytes]. by rewrite Hl in Hc; subst l.
  - intros Hr. exists (le_bytes n v). by rewrite le_bytes_length, le_combine_bytes.
Qed.

Lemma read_u32_spec v c c' :
  u32 v -> read_u32 bytes c = Some (v, c') <-> reads bytes c (u32_bytes v) c'.
Proof.
  intros Hv. unfold u32_bytes. rewrite <- (lane_spec 4) by done. unfold read_u32. change (N.of_nat 4) with 4%N.
  destruct (read_bytes 4 bytes c) as [[l x]|]; cbn; [|naive_solver]. naive_solver.
Qed.

Lemma expect_u32_spec v c c' :
  u32 v -> expect_u32 bytes v c = Some c' <-> reads bytes c (u32_bytes v) c'.
Proof.
  intros Hv. unfold u32_bytes. rewrite <- (lane_spec 4) by done. unfold expect_u32, read_u32. change (N.of_nat 4) with 4%N.
  destruct (read_bytes 4 bytes c) as [[l x]|]; cbn; [|naive_solver].
  destruct (N.eqb_spec (le_combine l) v); naive_solver.
Qed.

Lemma expect_u64_spec v c c' :
  u64 v -> expect_u64 bytes v c = Some c' <-> reads bytes c (u64_bytes v) c'.
Proof.
  intros Hv. unfold u64_bytes. rewrite <- (lane_spec 8) by done. unfold expect_u64, read_u64. change (N.of_nat 8) with 8%N.
  destruct (read_bytes 8 bytes c) as [[l x]|]; cbn; [|naive_solver].
  destruct (N.eqb_spec (le_combine l) v); naive_solver.
Qed.

Lemma take_exact_spec l c c' : take_exact bytes c l = Some c' <-> reads bytes c l c'.
Proof.
  unfold take_exact. pose proof (read_bytes_spec (length l) c) as H. fold (len l) in H.
  destruct (read_bytes (len l) bytes c) as [[k x]|]; cbn.
  - destruct (proj1 (H k x) eq_refl) as [Hr Hl]. case_bool_decide as E; [subst k|].
    + split; [by intros [= <-]|]. intros (-> & _). destruct Hr as (-> & _). done.
    + split; [done|]. intros Hr'. exfalso. apply E. destruct Hr as (_ & _ & Hk), Hr' as (_ & _ & Hl').
      by rewrite Hl, Hl' in Hk.
  - split; [done|]. intros Hr. discriminate (proj2 (H l c') (conj Hr eq_refl)).
Qed.

(** Sequences of reads, with a condition [Q] that the last one checks *)
Lemma seq_reads_end (Q : Prop) (o : option N) (f : N -> option N) c l k r :
  (forall c1, o = Some c1 <-> reads bytes c l c1) ->
  (forall c1, (c1 <= len bytes)%N -> f c1 = Some r <-> reads bytes c1 k r /\ Q) ->
  (c1 ← o; f c1) = Some r <-> reads bytes c (l ++ k) r /\ Q.
Proof.
  intros Ho Hf. rewrite reads_app. destruct o as [c1|]; cbn.
  - assert (reads bytes c l c1) as Hr by (by apply Ho). rewrite Hf by apply Hr. split; [naive_solver|].
    intros ((c2 & Hc2 & H) & HQ). apply Ho in Hc2. by injection Hc2 as ->.
  - split; [done|]. intros ((c1 & Hc1 & _) & _). by apply Ho in Hc1.
Qed.
Lemma seq_reads (o : option N) (f : N -> option N) c l k r :
  (forall c1, o = Some c1 <-> reads bytes c l c1) ->
  (forall c1, (c1 <= len bytes)%N -> f c1 = Some r <-> reads bytes c1 k r) ->
  (c1 ← o; f c1) = Some r <-> reads bytes c (l ++ k) r.
Proof.
  intros Ho Hf. rewrite (seq_reads_end True o f c l k r Ho); [naive_solver|].
  intros c1 Hc1. rewrite Hf by done. naive_solver.
Qed.
Lemma seq_u32 v f c k r :
  u32 v -> (forall c1, (c1 <= len bytes)%N -> f c1 = Some r <-> reads bytes c1 k r) ->
  (c1 ← expect_u32 bytes v c; f c1) = Some r <-> reads bytes c (u32_bytes v ++ k) r.
Proof. intros Hv. apply seq_reads. intros c1. by apply expect_u32_spec. Qed.
Lemma seq_u64 v f c k r :
  u64 v -> (forall c1, (c1 <= len bytes)%N -> f c1 = Some r <-> reads bytes c1 k r) ->
  (c1 ← expect_u64 bytes v c; f c1) = Some r <-> reads bytes c (u64_bytes v ++ k) r.
Proof. intros Hv. apply seq_reads. intros c1. by apply expect_u64_spec. Qed.

(** ** Records *)

Definition field_typed (f : VerifiedField) : Prop :=
  u32 (vf_ordinal f) /\ u32 (ti_index (vf_ty f)) /\ u64 (vf_offset f).
Definition variant_typed (v : VerifiedVariant) : Prop :=
  u32 (vv_ordinal v) /\ u32 (payload_index (vv_payload v)).
Definition kind_typed (k : VerifiedKind) : Prop :=
  match k with
  | VkBool | VkI32 | VkString => True
  | VkStruct m d fields => u32 m /\ u32 d /\ u32 (len fields) /\ Forall field_typed fields
  | VkEnum m d variants o s => u32 m /\ u32 d /\ u32 (len variants) /\ u64 o /\ u64 s /\ Forall variant_typed variants
  | VkFixedArray e l s => u32 (ti_index e) /\ u64 l /\ u64 s
  | VkVec e | VkShared e | VkWeak e => u32 (ti_index e)
  end.
Definition record_typed (r : LayoutRecord) : Prop :=
  u32 (ti_index (lr_id r)) /\ u32 (lr_drop_kind r) /\ u32 (lr_runtime_kind r) /\ u64 (lr_size r) /\
  u64 (lr_alignment r) /\ kind_typed (lr_kind r).

Lemma audit_fields_spec fields c c' :
  (c <= len bytes)%N -> Forall field_typed fields ->
  audit_fields bytes fields c = Some c' <-> reads bytes c (fields ≫= encode_field) c'.
Proof.
  intros Hc H. revert c Hc. induction H as [|f fields (H1 & H2 & H3) _ IH]; intros c Hc; cbn [audit_fields].
  { rewrite reads_nil. naive_solver. }
  change ((f :: fields) ≫= encode_field) with (encode_field f ++ (fields ≫= encode_field)).
  unfold encode_field at 1. rewrite <- !app_assoc.
  apply seq_u32; [done|]. intros c1 _. apply seq_u32; [done|]. intros c2 _. by apply seq_u64.
Qed.

Lemma audit_variants_spec variants c c' :
  (c <= len bytes)%N -> Forall variant_typed variants ->
  audit_variants bytes variants c = Some c' <-> reads bytes c (variants ≫= encode_variant) c'.
Proof.
  intros Hc H. revert c Hc. induction H as [|v variants (H1 & H2) _ IH]; intros c Hc; cbn [audit_variants].
  { rewrite reads_nil. naive_solver. }
  change ((v :: variants) ≫= encode_variant) with (encode_variant v ++ (variants ≫= encode_variant)).
  unfold encode_variant at 1. rewrite <- !app_assoc.
  apply seq_u32; [done|]. intros c1 _. by apply seq_u32.
Qed.

Lemma encode_kind_some k : kind_typed k -> is_Some (encode_kind k).
Proof.
  destruct k; try done; cbn.
  - intros (_ & _ & H & _). by rewrite (try_u32_typed _ H).
  - intros (_ & _ & H & _). by rewrite (try_u32_typed _ H).
Qed.

(** A primitive has no payload: the auditor also compares with the end of the record. *)
Lemma audit_payload_spec k l end_ c c' :
  kind_typed k -> encode_kind k = Some l -> (c <= len bytes)%N ->
  audit_record_payload bytes end_ k c = Some c' /\ c' = end_ <-> reads bytes c l c' /\ c' = end_.
Proof.
  intros Hk He Hc.
  assert (forall o, (o = Some c' <-> reads bytes c l c') -> o = Some c' /\ c' = end_ <-> reads bytes c l c' /\ c' = end_)
    as Hcase by (intros o ->; done).
  destruct k; cbn in He, Hk |- *; try (destruct Hk as (H1 & H2 & H3 & Hk));
    try (rewrite (try_u32_typed _ H3) in He |- *; cbn in He); injection He as <-.
  1-3: rewrite reads_nil; destruct (N.eqb_spec c end_); naive_solver.
  - apply Hcase. apply seq_u32; [done|]. intros c1 _. apply seq_u32; [done|]. intros c2 _.
    apply seq_u32; [done|]. intros c3 Hc3. by apply audit_fields_spec.
  - apply Hcase. destruct Hk as (H4 & H5 & Hk). do 3 (apply seq_u32; [done|]; intros ? _).
    do 2 (apply seq_u64; [done|]; intros ? ?). by apply audit_variants_spec.
  - apply Hcase. destruct Hk as (H1 & H2 & H3). apply seq_u32; [done|]. intros c1 _.
    apply seq_u64; [done|]. intros c2 _. by apply expect_u64_spec.
  - apply Hcase. by apply expect_u32_spec.
  - apply Hcase. by apply expect_u32_spec.
  - apply Hcase. by apply expect_u32_spec.
Qed.

(** The header and the payload of a record, up to the announced end *)
Lemma audit_body_spec r l end_ c c' :
  record_typed r -> encode_record r = Some l -> (c <= len bytes)%N ->
  (cursor ← expect_u32 bytes (record_tag (lr_kind r)) c;
   cursor ← expect_u32 bytes (ti_index (lr_id r)) cursor;
   cursor ← expect_u32 bytes (lr_drop_kind r) cursor;
   cursor ← expect_u32 bytes (lr_runtime_kind r) cursor;
   cursor ← expect_u64 bytes (lr_size r) cursor;
   cursor ← expect_u64 bytes (lr_alignment r) cursor;
   cursor ← audit_record_payload bytes end_ (lr_kind r) cursor;
   if (cursor =? end_)%N then Some cursor else None) = Some c' <->
  reads bytes c l c' /\ c' = end_.
Proof.
  intros (H1 & H2 & H3 & H4 & H5 & Hk) He Hc. unfold encode_record in He.
  destruct (encode_kind (lr_kind r)) as [k|] eqn:Ek; [|done]. cbn [mbind option_bind] in He. apply (inj Some) in He. subst l.
  assert (u32 (record_tag (lr_kind r))) as Htag by (by destruct (lr_kind r)).
  do 4 (apply seq_reads_end; [intros; by apply expect_u32_spec|]; intros ? _).
  do 2 (apply seq_reads_end; [intros; by apply expect_u64_spec|]; intros ? ?).
  rewrite <- (audit_payload_spec (lr_kind r) k end_ _ c' Hk Ek) by done.
  destruct (audit_record_payload _ _ _ _) as [y|]; cbn; [|naive_solver].
  destruct (N.eqb_spec y end_); naive_solver.
Qed.

Lemma read_u32_value c v c1 : read_u32 bytes c = Some (v, c1) -> u32 v.
Proof.
  unfold read_u32. destruct (read_bytes 4 bytes c) as [[l x]|] eqn:E; [|done]. cbn [mbind option_bind fst snd].
  intros [= <- <-]. apply (read_bytes_spec 4) in E as [Hr Hl]. pose proof (reads_bytes _ _ _ Hr) as Hb.
  do 5 (destruct l as [|? l]; cbn in Hl; try lia). cbn [le_combine].
  repeat match goal with H : Forall _ (_ :: _) |- _ => apply Forall_cons in H as [? H] end. unfold is_byte in *. lia.
Qed.

(** One record of the document *)
Lemma audit_record_spec r l c c' :
  record_typed r -> encode_record r = Some l -> u32 (len l) -> (c <= len bytes)%N ->
  audit_record bytes (ti_index (lr_id r)) r c = Some c' <-> reads bytes c (u32_bytes (len l) ++ l) c'.
Proof.
  intros Ht He Hl Hc. pose proof (encode_record_length _ _ He) as H32. rewrite reads_app. unfold audit_record.
  destruct (read_u32 bytes c) as [[v c1]|] eqn:Ev; cbn [mbind option_bind].
  - assert (reads bytes c (u32_bytes v) c1) as Hv by (apply read_u32_spec; [by eapply read_u32_value|done]).
    assert (c1 <= len bytes)%N as Hc1 by apply Hv.
    assert (forall c2, reads bytes c (u32_bytes (len l)) c2 -> c2 = c1 /\ len l = v) as Huniq.
    { intros c2 H2. apply read_u32_spec in H2; [|done]. rewrite Ev in H2. by injection H2. }
    unfold checked_add. destruct (N.ltb_spec v 32) as [|H32v].
    { split; [done|]. intros (c2 & [-> <-]%Huniq & _). lia. }
    destruct (N.leb_spec (c1 + v) u64_max) as [Hu|Hu]; cbn [mbind option_bind].
    + destruct (N.ltb_spec (len bytes) (c1 + v)) as [Hb|Hb].
      { split; [done|]. intros (c2 & [-> <-]%Huniq & (-> & Hle & _)). lia. }
      rewrite audit_body_spec by done. split.
      * intros [Hr ->]. exists c1. split; [|done]. destruct Hr as (E & _). assert (len l = v) as -> by lia. done.
      * intros (c2 & [-> <-]%Huniq & Hr). split; [done|]. apply Hr.
    + split; [done|]. intros (c2 & [-> <-]%Huniq & (-> & Hle & _)). lia.
  - split; [done|]. intros (c1 & H1 & _). apply read_u32_spec in H1; [|done]. congruence.
Qed.

(** ** Documents *)

(** Records with the identities [id], [id + 1], ..., and the bytes of each *)
Inductive encoded : N -> list LayoutRecord -> list N -> Prop :=
  | encoded_nil id : encoded id [] []
  | encoded_cons id r rs l ls :
      ti_index (lr_id r) = id -> record_typed r -> encode_record r = Some l -> u32 (len l) ->
      encoded (id + 1) rs ls -> encoded id (r :: rs) (u32_bytes (len l) ++ l ++ ls).

Lemma audit_records_spec id rs ls c c' :
  encoded id rs ls -> (c <= len bytes)%N ->
  audit_records bytes id rs c = Some c' <-> reads bytes c ls c'.
Proof.
  intros H. revert c. induction H as [|id r rs l ls <- Ht He Hl _ IH]; intros c Hc; cbn [audit_records].
  { rewrite reads_nil. naive_solver. }
  rewrite app_assoc. apply seq_reads; [|done]. intros c1. by apply audit_record_spec.
Qed.

Definition document (target : StorageTarget) (rs : list LayoutRecord) (ls : list N) : list N :=
  FINGERPRINT_DOMAIN ++ u32_bytes (target_tag target) ++ u32_bytes (len rs) ++ ls.

Lemma reads_all l : reads bytes 0 l (len bytes) <-> bytes = l.
Proof.
  unfold reads. change (N.to_nat 0) with 0. rewrite drop_0. unfold len. split.
  - intros (E & _ & Ht). rewrite <- Ht. symmetry. apply firstn_all2. lia.
  - intros ->. split_and!; [lia|lia|]. apply firstn_all.
Qed.

Lemma audit_accepts_spec sha256 target rs ls fp :
  encoded 0 rs ls -> u32 (len rs) ->
  audit_accepts sha256 bytes target rs fp = true <-> bytes = document target rs ls /\ fp = sha256 bytes.
Proof.
  intros He Hc. unfold audit_accepts.
  set (m := cursor ← take_exact bytes 0 FINGERPRINT_DOMAIN;
            cursor ← expect_u32 bytes (target_tag target) cursor;
            r ← read_u32 bytes cursor;
            if (r.1 =? len rs)%N then audit_records bytes 0 rs r.2 else None).
  assert (forall c', m = Some c' <-> reads bytes 0 (document target rs ls) c') as Hm.
  { intros c'. unfold m, document. apply seq_reads; [intros; apply take_exact_spec|]. intros c1 _.
    apply seq_u32; [by destruct target|]. intros c2 Hc2.
    assert ((r ← read_u32 bytes c2; if (r.1 =? len rs)%N then audit_records bytes 0 rs r.2 else None) =
            (c ← expect_u32 bytes (len rs) c2; audit_records bytes 0 rs c)) as ->.
    { unfold expect_u32. destruct (read_u32 bytes c2) as [[v x]|]; [|done]. cbn. by destruct (v =? len rs)%N. }
    apply seq_u32; [done|]. intros c3 Hc3. by apply audit_records_spec. }
  rewrite <- reads_all, <- Hm. destruct m as [c|].
  - rewrite andb_true_iff, N.eqb_eq, bool_decide_eq_true. naive_solver.
  - naive_solver.
Qed.
End audit.

(** ** The encoder *)

Lemma encoded_bytes id rs ls : encoded id rs ls -> Forall is_byte ls.
Proof.
  assert (forall v, Forall is_byte (u32_bytes v)) as H4 by (intros; apply le_bytes_bytes).
  assert (forall v, Forall is_byte (u64_bytes v)) as H8 by (intros; apply le_bytes_bytes).
  assert (forall k l, encode_kind k = Some l -> Forall is_byte l) as Hk.
  { intros k l. destruct k; cbn [encode_kind mbind option_bind]; try (destruct (try_u32 _); [|done]); cbn [mbind option_bind];
      intros E%(inj Some); subst l; rewrite ?Forall_app, ?Forall_bind; auto.
    - split_and!; auto. apply Forall_true. intros f. change (Forall is_byte (encode_field f)). unfold encode_field. rewrite !Forall_app. auto.
    - split_and!; auto. apply Forall_true. intros v. change (Forall is_byte (encode_variant v)). unfold encode_variant. rewrite !Forall_app. auto. }
  induction 1 as [|id r rs l ls _ _ He _ _ IH]; [constructor|]. rewrite !Forall_app. split_and!; auto.
  unfold encode_record in He. destruct (encode_kind (lr_kind r)) as [k|] eqn:Ek; [|done]. cbn [mbind option_bind] in He.
  apply (inj Some) in He. subst l. rewrite !Forall_app. split_and!; auto. by eapply Hk.
Qed.

Lemma document_bytes target rs ls id : encoded id rs ls -> Forall is_byte (document target rs ls).
Proof.
  intros H. unfold document. rewrite !Forall_app. split_and!; [|apply le_bytes_bytes..|by eapply encoded_bytes].
  repeat constructor.
Qed.

Lemma encode_records_spec e id rs ls :
  encoded id rs ls -> encode_records rs e = (e, Val ls).
Proof.
  induction 1 as [|id r rs l ls _ _ He Hl _ IH]; [done|]. cbn [encode_records]. rewrite He.
  unfold mbind at 1, PM_bind. cbn [expect mret PM_ret].
  rewrite (try_u32_typed _ Hl). cbn [or_else mret PM_ret]. unfold mbind, PM_bind. cbn. rewrite IH. done.
Qed.

Lemma encode_document_spec e target id rs ls :
  encoded id rs ls -> u32 (len rs) -> encode_document target rs e = (e, Val (document target rs ls)).
Proof.
  intros He Hc. unfold encode_document. rewrite (try_u32_typed _ Hc). unfold mbind at 1, PM_bind.
  cbn [or_else mret PM_ret]. unfold mbind, PM_bind. by rewrite (encode_records_spec e id rs ls He).
Qed.

(** Sealing never reports ZRYNA-L3006. *)
Lemma seal_target_spec sha256 e target rs ls :
  encoded 0 rs ls -> u32 (len rs) -> (len (document target rs ls) <= u64_max)%N ->
  seal_target sha256 target rs e = (e, Val (document target rs ls, sha256 (document target rs ls))).
Proof.
  intros He Hc Hl. unfold seal_target, mbind, PM_bind. rewrite (encode_document_spec e target 0 rs ls He Hc).
  unfold audit_document.
  assert (audit_accepts sha256 (document target rs ls) target rs (sha256 (document target rs ls)) = true) as ->; [|done].
  by apply (audit_accepts_spec _ (document_bytes _ _ _ _ He) Hl sha256 target rs ls).
Qed.
