(* ===== verification/LayoutLogic.v ===== *)
(** * Reasoning about the stages of the layout verifier

    A stage that starts without diagnostics either ends with some, or returns a
    value that satisfies its postcondition and leaves none; it never panics. *)
From stdpp Require Import base numbers list list_numbers strings pretty gmap relations.
From S2P Require Import Prelude Source Diagnostics LayoutData CfgReach Layout.

Definition dirty (e : LErrors) : Prop := le_diagnostics e <> [].

(** Once there are diagnostics there stay some, and nothing panics. *)
Definition tame {A} (m : PM LErrors A) : Prop :=
  forall e, dirty e -> dirty (m e).1 /\ (m e).2 <> Panic.
(** A run without diagnostics ends with some, or returns a value [F] holds of. *)
Definition settles {A} (m : PM LErrors A) (F : A -> Prop) : Prop :=
  (dirty (m no_errors).1 /\ (m no_errors).2 <> Panic) \/
  exists a, m no_errors = (no_errors, Val a) /\ F a.
Definition verdict {A} (m : PM LErrors A) (F : A -> Prop) : Prop := tame m /\ settles m F.

Create HintDb tame discriminated.

(** ** Pushes *)

Lemma layout_push_dirty d e : le_fatal e = false \/ dirty e -> dirty (layout_push d e).1 /\ (layout_push d e).2 <> Panic.
Proof.
  unfold layout_push, dirty. intros H. destruct (le_fatal e); [destruct H; done|]. clear H.
  destruct (_ <? _)%N eqn:E; cbn; [by destruct (le_diagnostics e)|].
  destruct (le_diagnostics e) as [|x l] eqn:El; [done|]. cbn [greatest].
  destruct (greatest_from (0, x) 1 l) as [index worst]. cbn.
  destruct (compare_retained _ _); cbn; (split; [|done]); try done. by destruct index.
Qed.

Lemma push_val d e : (layout_push d e).2 = Val tt.
Proof.
  unfold layout_push. destruct (le_fatal e); [done|]. destruct (_ <? _)%N eqn:E; [done|].
  destruct (le_diagnostics e) as [|x l]; [done|]. cbn [greatest].
  by destruct (greatest_from (0, x) 1 l) as [index worst].
Qed.
(** [m] reports something and returns. *)
Definition reports (m : PM LErrors unit) : Prop :=
  (forall e, (m e).2 = Val tt) /\ (forall e, le_fatal e = false \/ dirty e -> dirty (m e).1).
Lemma reports_push d : reports (push_error d).
Proof. split; [apply push_val|]. intros e He. by apply layout_push_dirty. Qed.
Lemma reports_fatal m : reports m -> reports (m;; pmodify set_fatal).
Proof.
  intros [H1 H2]. unfold mbind, PM_bind. split; intros e; specialize (H1 e); specialize (H2 e);
    destruct (m e) as [e' r]; cbn in *; subst r; done.
Qed.
Lemma reports_limit label limit : reports (layout_limit label limit).
Proof. apply reports_fatal, reports_push. Qed.

Lemma tame_push d : tame (push_error d).
Proof. intros e He. apply layout_push_dirty. by right. Qed.
Lemma tame_ret {A} (a : A) : tame (mret a).
Proof. by intros e He. Qed.
Lemma tame_return {A} : tame (@preturn LErrors A).
Proof. by intros e He. Qed.
Lemma tame_gets {A} (f : LErrors -> A) : tame (pgets f).
Proof. by intros e He. Qed.
Lemma tame_bind {A B} (m : PM LErrors A) (f : A -> PM LErrors B) :
  tame m -> (forall a, tame (f a)) -> tame (m ≫= f).
Proof.
  intros Hm Hf e He. unfold mbind, PM_bind. destruct (Hm e He) as [H1 H2].
  destruct (m e) as [e1 [a| |]]; cbn in *; [by apply Hf|done|done].
Qed.
Lemma tame_pwhen b m : tame m -> tame (pwhen b m).
Proof. intros H. by destruct b. Qed.
Lemma tame_pbody m : tame m -> tame (pbody m).
Proof. intros H e He. unfold pbody. destruct (H e He). by destruct (m e) as [? []]. Qed.
Lemma tame_for_each {A} (l : list A) f : (forall x, tame (f x)) -> tame (pfor_each l f).
Proof. intros H. induction l; [apply tame_ret|]. cbn. by apply tame_bind. Qed.
Lemma tame_fatal : tame (pmodify set_fatal).
Proof. by intros e He. Qed.
Lemma tame_or_else {A} (o : option A) m : tame m -> tame (or_else o m).
Proof. intros H. destruct o; [apply tame_ret|]. apply tame_bind; [done|]. intros. apply tame_return. Qed.
Lemma tame_limit label limit : tame (layout_limit label limit).
Proof. apply tame_bind; [apply tame_push|intros; apply tame_fatal]. Qed.
Lemma tame_limit_at span label limit : tame (layout_limit_at span label limit).
Proof. apply tame_bind; [apply tame_push|intros; apply tame_fatal]. Qed.
#[export] Hint Resolve tame_push tame_ret tame_return tame_gets tame_bind tame_pwhen tame_pbody tame_for_each
  tame_or_else tame_limit tame_limit_at : tame.

(** ** Verdicts *)

Lemma verdict_tame {A} (m : PM LErrors A) F : verdict m F -> tame m.
Proof. by intros [? _]. Qed.
#[export] Hint Resolve verdict_tame : tame.

Lemma verdict_ret {A} (a : A) (F : A -> Prop) : F a -> verdict (mret a) F.
Proof. intros H. split; [apply tame_ret|]. right. by exists a. Qed.
Lemma verdict_mono {A} (m : PM LErrors A) (F G : A -> Prop) : verdict m F -> (forall a, F a -> G a) -> verdict m G.
Proof. intros [Ht [H|(a & E & H)]] HG; (split; [done|]); [by left|right]. exists a. auto. Qed.
Lemma verdict_bind {A B} (m : PM LErrors A) (f : A -> PM LErrors B) F G :
  verdict m F -> (forall a, tame (f a)) -> (forall a, F a -> verdict (f a) G) -> verdict (m ≫= f) G.
Proof.
  intros [Ht H] Hf HG. split; [by apply tame_bind|]. unfold settles, mbind, PM_bind.
  destruct H as [[H1 H2]|(a & -> & Ha)]; [|by apply HG].
  left. destruct (m no_errors) as [e [a| |]]; cbn in *; [by apply Hf|done|done].
Qed.
Lemma verdict_push d F : verdict (push_error d) F.
Proof. split; [apply tame_push|]. left. apply layout_push_dirty. by left. Qed.
Lemma verdict_seq_dirty {A} (m : PM LErrors unit) (k : PM LErrors A) F :
  verdict m (fun _ => False) -> tame k -> verdict (m;; k) F.
Proof. intros H Hk. eapply verdict_bind; [exact H|done|done]. Qed.
Lemma verdict_pwhen b m F :
  (b = true -> verdict m (fun _ => F)) -> (b = false -> F) -> tame m -> verdict (pwhen b m) (fun _ => F).
Proof. intros H1 H2 Ht. destruct b; cbn; [by apply H1|]. apply verdict_ret. auto. Qed.
(** A guard whose body reports something *)
Lemma verdict_guard b m : verdict m (fun _ => False) -> verdict (pwhen b m) (fun _ => b = false).
Proof.
  intros H. apply verdict_pwhen; [|done|by eapply verdict_tame]. intros ->. eapply verdict_mono; [done|done].
Qed.
Lemma verdict_pbody m F : verdict m F -> verdict (pbody m) F.
Proof.
  intros [Ht H]. split; [by apply tame_pbody|]. unfold settles, pbody.
  destruct H as [[H1 H2]|(a & -> & Ha)]; [|right; by exists a].
  left. by destruct (m no_errors) as [? []].
Qed.
Lemma verdict_for_each {A} (l : list A) f (P : A -> Prop) :
  (forall x, verdict (f x) (fun _ => P x)) -> verdict (pfor_each l f) (fun _ => Forall P l).
Proof.
  intros H. induction l as [|x l IH]; [by apply verdict_ret|]. cbn.
  eapply verdict_bind; [apply H|intros; by eapply verdict_tame|]. cbn. intros _ Hx.
  eapply verdict_mono; [exact IH|]. intros u Hl. by constructor.
Qed.
Lemma verdict_limit label limit F : verdict (layout_limit label limit) F.
Proof.
  split; [apply tame_limit|]. left. unfold layout_limit, mbind, PM_bind.
  pose proof (layout_push_dirty (layout_global "ZRYNA-L3201" (label +:+ " exceeds the limit of " +:+ pretty limit)
                 "reduce the graph before layout verification") no_errors) as H.
  by destruct (layout_push _ no_errors) as [e []]; destruct H; [by left|done|by left|done|by left|].
Qed.
Lemma verdict_limit_at span label limit F : verdict (layout_limit_at span label limit) F.
Proof.
  split; [apply tame_limit_at|]. left. unfold layout_limit_at, mbind, PM_bind.
  pose proof (layout_push_dirty (layout_at span "ZRYNA-L3201" (label +:+ " exceeds the limit of " +:+ pretty limit)
                 "reduce the declaration before layout verification") no_errors) as H.
  by destruct (layout_push _ no_errors) as [e []]; destruct H; [by left|done|by left|done|by left|].
Qed.
(** [let Some(x) = o else { report; return; }] *)
Lemma verdict_or_else {A} (o : option A) m :
  verdict m (fun _ => False) -> verdict (or_else o m) (fun a => o = Some a).
Proof. intros H. destruct o; [by apply verdict_ret|]. apply verdict_seq_dirty; [done|apply tame_return]. Qed.
Lemma verdict_expect {A} (o : option A) (F : A -> Prop) a : o = Some a -> F a -> verdict (expect o) F.
Proof. intros -> H. by apply verdict_ret. Qed.
Lemma tame_expect {A} (o : option A) : is_Some o -> tame (expect o).
Proof. intros [a ->]. apply tame_ret. Qed.

(** An index or [expect] that holds *)
Lemma expect_bind {S A B} (o : option A) (f : A -> PM S B) a : o = Some a -> (expect o ≫= f) = f a.
Proof. by intros ->. Qed.

Lemma ret_bind {S A B} (a : A) (f : A -> PM S B) : (mret a ≫= f) = f a.
Proof. done. Qed.

Lemma mapM_total {A B} (f : A -> option B) l : (forall x, x ∈ l -> is_Some (f x)) -> is_Some (mapM f l).
Proof. intros H. apply mapM_is_Some_2, Forall_forall. auto. Qed.

(** Structural proofs of [tame] *)
Ltac tame_step :=
  match goal with
  | |- forall _, _ => intros
  | |- tame _ => solve [trivial with tame]
  | |- tame (_ ≫= _) => apply tame_bind
  | |- tame (pwhen _ _) => apply tame_pwhen
  | |- tame (pbody _) => apply tame_pbody
  | |- tame (pfor_each _ _) => apply tame_for_each
  | |- tame (or_else _ _) => apply tame_or_else
  | |- tame (match ?x with _ => _ end) => destruct x
  end.
Ltac tame := repeat tame_step.
(** The next statement of a stage, with what it establishes *)
Tactic Notation "verdict_next" uconstr(H) :=
  eapply verdict_bind; [eapply H|solve [tame]|cbn beta].

(** ** Computations over other states *)

(** [Q] holds of the final state and the outcome. *)
Definition pwp {S A} (m : PM S A) (Q : S -> outcome A -> Prop) (s : S) : Prop := Q (m s).1 (m s).2.

Section pwp.
Context {S : Type}.

Lemma pwp_mono {A} (m : PM S A) Q Q' s : pwp m Q s -> (forall s' r, Q s' r -> Q' s' r) -> pwp m Q' s.
Proof. unfold pwp. auto. Qed.
Lemma pwp_bind {A B} (m : PM S A) (f : A -> PM S B) Q s :
  pwp m (fun s' r => match r with Val a => pwp (f a) Q s' | Return => Q s' Return | Panic => Q s' Panic end) s ->
  pwp (m ≫= f) Q s.
Proof. unfold pwp, mbind, PM_bind. by destruct (m s) as [s' []]. Qed.
(** A call that returns, followed by the rest *)
Lemma pwp_seq {A B} (m : PM S A) (f : A -> PM S B) P Q s :
  pwp m (fun s' r => exists a, r = Val a /\ P a s') s -> (forall a s', P a s' -> pwp (f a) Q s') -> pwp (m ≫= f) Q s.
Proof. intros H Hf. apply pwp_bind. eapply pwp_mono; [exact H|]. intros s' r (a & -> & Ha). auto. Qed.
Lemma pwp_pbody (m : PM S unit) (Q : S -> outcome unit -> Prop) s :
  pwp m (fun s' r => match r with Return => Q s' (Val tt) | r => Q s' r end) s -> pwp (pbody m) Q s.
Proof. unfold pwp, pbody. by destruct (m s) as [s' []]. Qed.
Lemma pwp_for_each {A} (l : list A) (f : A -> PM S unit) (I : S -> Prop) (P : A -> S -> Prop) s :
  (forall x s, x ∈ l -> I s -> pwp (f x) (fun s' r => r = Val tt /\ I s' /\ P x s' /\ forall y, P y s -> P y s') s) ->
  I s -> pwp (pfor_each l f) (fun s' r => r = Val tt /\ I s' /\ (forall x, x ∈ l -> P x s') /\ forall y, P y s -> P y s') s.
Proof.
  revert s. induction l as [|x l IH]; intros s Hf Hs; cbn [pfor_each].
  { split_and!; [done|done|by intros x ?%not_elem_of_nil|done]. }
  apply pwp_bind. eapply pwp_mono; [apply Hf; [by left|done]|]. intros s1 r (-> & Hs1 & Hx & Hk).
  eapply pwp_mono; [apply IH; [|done]; intros; apply Hf; [by right|done]|]. intros s2 r (-> & Hs2 & Hall & Hk2).
  split_and!; [done|done| |auto]. intros y [->|Hy]%elem_of_cons; auto.
Qed.
End pwp.

(** * What the preflight of a type graph establishes *)

(** ** Specification *)

Definition nominal_ok (g : LGraph) (module declaration : N) : Prop :=
  exists m, get (lg_modules g) module = Some m /\ lm_id m = module /\ (declaration < lm_data_declarations m)%N.

Definition refers (g : LGraph) (id : NodeId) : Prop := valid_ref g id = true.

Definition shape_ok (g : LGraph) (kind : TypeKind) : Prop :=
  match kind with
  | TkStruct m d fields =>
      nominal_ok g m d /\ fields <> [] /\
      forall i f, fields !! i = Some f -> rf_ordinal f = ordinal_of i /\ refers g (rf_ty f)
  | TkEnum m d variants =>
      nominal_ok g m d /\ variants <> [] /\
      forall i v, variants !! i = Some v ->
        rv_ordinal v = ordinal_of i /\ forall p, rv_payload v = Some p -> refers g p
  | TkFixedArray element length => refers g element /\ (length <= MAX_ARRAY_LENGTH)%N
  | TkVec e | TkShared e | TkWeak e | TkBorrow e => refers g e
  | TkBool | TkI32 | TkString => True
  end.

(** What a node's checks establish *)
Record node_ok (g : LGraph) (index : nat) (node : TypeNode) : Prop := {
  no_id : tn_id node = N.of_nat index;
  no_index : (N.of_nat index <= u32_max)%N;
  no_members : ((member_and_edge_count (tn_kind node)).1 <= MAX_MEMBERS_PER_DECLARATION)%N;
  no_shape : shape_ok g (tn_kind node) }.

Record graph_ok (g : LGraph) : Prop := {
  go_count : (len (lg_types g) <= MAX_TYPE_NODES)%N;
  go_modules : forall i m, lg_modules g !! i = Some m -> (N.of_nat i <= u32_max)%N /\ lm_id m = N.of_nat i;
  go_nodes : forall i node, lg_types g !! i = Some node -> node_ok g i node }.

Lemma refers_lt g id : refers g id -> N.to_nat id < length (lg_types g).
Proof.
  unfold refers, valid_ref. destruct (get (lg_types g) id) eqn:E; [|done]. intros _. unfold get in E.
  by eapply lookup_lt_Some.
Qed.

Lemma child_refers g i node child :
  graph_ok g -> lg_types g !! i = Some node -> child ∈ all_children (tn_kind node) -> refers g child.
Proof.
  intros Hg Hn Hc. pose proof (no_shape _ _ _ (go_nodes _ Hg i node Hn)) as Hs.
  destruct (tn_kind node); cbn in Hc, Hs; try (by apply not_elem_of_nil in Hc);
    try (apply list_elem_of_singleton in Hc as ->; try exact Hs; try apply Hs).
  - apply list_elem_of_fmap in Hc as (f & -> & Hf). apply list_elem_of_lookup in Hf as [k Hk].
    by apply (proj2 (proj2 Hs) k f).
  - apply list_elem_of_omap in Hc as (v & Hv & Hp). apply list_elem_of_lookup in Hv as [k Hk].
    by apply (proj2 (proj2 Hs) k v).
Qed.

(** ** Node checks *)

Lemma tame_nominal_ref g span m d : tame (verify_nominal_ref g span m d).
Proof. unfold verify_nominal_ref. auto with tame. Qed.
#[export] Hint Resolve tame_nominal_ref : tame.

Lemma verdict_nominal_ref g span m d : verdict (verify_nominal_ref g span m d) (fun _ => nominal_ok g m d).
Proof.
  unfold verify_nominal_ref. eapply verdict_mono; [apply verdict_guard, verdict_push|]. cbn. intros _ H.
  apply negb_false_iff in H. destruct (get (lg_modules g) m) as [c|] eqn:E; [|done].
  apply andb_true_iff in H as [H1%N.eqb_eq H2%N.ltb_lt]. by exists c.
Qed.

Lemma elem_of_enumerate {A} (l : list A) i x : (i, x) ∈ enumerate l <-> l !! i = Some x.
Proof.
  unfold enumerate. rewrite list_elem_of_lookup. setoid_rewrite list_lookup_imap. split.
  - intros [j H]. destruct (l !! j) eqn:E; cbn in H; [|done]. by injection H as <- <-.
  - intros H. exists i. by rewrite H.
Qed.
Lemma Forall_enumerate {A} (P : nat * A -> Prop) (l : list A) :
  Forall P (enumerate l) -> forall i x, l !! i = Some x -> P (i, x).
Proof. rewrite Forall_forall. intros H i x Hi. apply H. by apply elem_of_enumerate. Qed.

Lemma tame_node_shape g node : tame (verify_node_shape g node).
Proof. unfold verify_node_shape. tame. Qed.
#[export] Hint Resolve tame_node_shape : tame.

Lemma verdict_node_shape g node : verdict (verify_node_shape g node) (fun _ => shape_ok g (tn_kind node)).
Proof.
  unfold verify_node_shape. destruct (tn_kind node); cbn [shape_ok];
    try (eapply verdict_mono; [apply verdict_guard, verdict_push|]; cbn; intros _ H; try done;
         try (apply orb_false_iff in H as [H H']); apply negb_false_iff in H; try (split; [|apply N.ltb_ge in H']); done).
  - verdict_next verdict_nominal_ref. intros u Hn. verdict_next (verdict_guard _ _ (verdict_push _ _)). intros u' He.
    eapply verdict_mono.
    { apply (verdict_for_each _ _ (fun p => rf_ordinal p.2 = ordinal_of p.1 /\ refers g (rf_ty p.2))).
      intros [i f]. eapply verdict_mono; [apply verdict_guard, verdict_push|]. cbn. intros _ [H1 H2]%orb_false_iff.
      split; [by apply negb_false_iff, N.eqb_eq in H1|by apply negb_false_iff in H2]. }
    cbn. intros _ Hall. split_and!; [done|by intros ->|]. intros i f Hf. exact (Forall_enumerate _ _ Hall i f Hf).
  - verdict_next verdict_nominal_ref. intros u Hn. verdict_next (verdict_guard _ _ (verdict_push _ _)). intros u' He.
    eapply verdict_mono.
    { apply (verdict_for_each _ _ (fun p => rv_ordinal p.2 = ordinal_of p.1 /\
                                   forall q, rv_payload p.2 = Some q -> refers g q)).
      intros [i v]. eapply verdict_mono; [apply verdict_guard, verdict_push|]. cbn. intros _ [H1 H2]%orb_false_iff.
      split; [by apply negb_false_iff, N.eqb_eq in H1|]. intros q Hq. rewrite Hq in H2. by apply negb_false_iff in H2. }
    cbn. intros _ Hall. split_and!; [done|by intros ->|]. intros i f Hf. exact (Forall_enumerate _ _ Hall i f Hf).
Qed.

Lemma tame_node_source g node s : tame (verify_node_source g node s).
Proof. unfold verify_node_source. tame. Qed.
#[export] Hint Resolve tame_node_source : tame.

(** A nominal node points into the file of its module. *)
Definition source_ok (g : LGraph) (s : SourceMap) (node : TypeNode) : Prop :=
  match nominal_identity (tn_kind node) with
  | None => True
  | Some (module, _) =>
      exists span, tn_span node = Some span /\ is_ok (resolve s span) = true /\
        lm_source_file <$> get (lg_modules g) module = Some (span_file span)
  end.

Lemma verdict_node_source g node s : verdict (verify_node_source g node s) (fun _ => source_ok g s node).
Proof.
  unfold verify_node_source, source_ok.
  destruct (tn_kind node); cbn [nominal_identity]; try by apply verdict_ret.
  all: destruct (tn_span node) as [span|]; [|apply verdict_push].
  all: destruct (is_ok (resolve s span)) eqn:E; [cbn [negb]|apply verdict_push].
  all: eapply verdict_mono; [apply verdict_guard, verdict_push|]; cbn; intros u H%negb_false_iff%bool_decide_eq_true.
  all: by exists span.
Qed.

(** ** The loops *)

Lemma tame_preflight_modules s l : tame (preflight_modules s l).
Proof. induction l as [|[i m] l IH]; cbn; [apply tame_ret|]. auto with tame. Qed.
#[export] Hint Resolve tame_preflight_modules : tame.

Definition module_ok (s : SourceMap) (index : nat) (m : LModule) : Prop :=
  (N.of_nat index <= u32_max)%N /\ lm_id m = N.of_nat index /\
  verify_file_id s (N.of_nat index) = Ok (lm_source_file m).

Lemma try_u32_Some n m : try_u32 n = Some m <-> m = n /\ (n <= u32_max)%N.
Proof. unfold try_u32. destruct (N.leb_spec n u32_max); naive_solver lia. Qed.

Lemma verdict_preflight_modules s l :
  verdict (preflight_modules s l) (fun _ => Forall (fun p => module_ok s p.1 p.2) l).
Proof.
  induction l as [|[i m] l IH]; cbn [preflight_modules]; [by apply verdict_ret|].
  eapply verdict_bind; [apply verdict_or_else, verdict_limit|auto with tame|].
  cbn. intros expected [-> Hi]%try_u32_Some.
  eapply verdict_bind; [apply verdict_guard, verdict_push|auto with tame|].
  cbn. intros u [H1%negb_false_iff%N.eqb_eq H2%negb_false_iff%bool_decide_eq_true]%orb_false_iff.
  eapply verdict_mono; [exact IH|]. intros u' Hl. constructor; [|done]. split_and!; [done..|].
  cbn. destruct (verify_file_id s (N.of_nat i)); cbn in H2; congruence.
Qed.

Lemma tame_preflight_types g s l members edges : tame (preflight_types g s l members edges).
Proof.
  revert members edges. induction l as [|[i node] l IH]; intros; cbn [preflight_types]; [apply tame_ret|]. tame.
Qed.
#[export] Hint Resolve tame_preflight_types : tame.

Lemma verdict_gets_fatal : verdict (pgets le_fatal) (fun b => b = false).
Proof. split; [apply tame_gets|]. right. by exists false. Qed.

Lemma checked_budget_Some a b limit t :
  checked_budget_total a b limit = Some t -> t = (a + b)%N /\ (a + b <= limit)%N.
Proof.
  unfold checked_budget_total, checked_add. destruct (N.leb_spec (a + b) u64_max); [|done].
  destruct (N.leb_spec (a + b) limit); naive_solver.
Qed.

(** The members and edges of a list of nodes *)
Definition total_members (l : list TypeNode) : N :=
  foldr (fun node n => ((member_and_edge_count (tn_kind node)).1 + n)%N) 0%N l.
Definition total_edges (l : list TypeNode) : N :=
  foldr (fun node n => ((member_and_edge_count (tn_kind node)).2 + n)%N) 0%N l.

Lemma verdict_preflight_types g s l members edges :
  (members <= MAX_MEMBERS)%N -> (edges <= MAX_DEPENDENCY_EDGES)%N ->
  verdict (preflight_types g s l members edges) (fun _ =>
    Forall (fun p => node_ok g p.1 p.2 /\ source_ok g s p.2) l /\
    (members + total_members l.*2 <= MAX_MEMBERS)%N /\ (edges + total_edges l.*2 <= MAX_DEPENDENCY_EDGES)%N).
Proof.
  revert members edges. induction l as [|[i node] l IH]; intros members edges Hm He; cbn [preflight_types].
  { apply verdict_ret. split; [constructor|]. cbn. lia. }
  verdict_next (verdict_or_else _ _ (verdict_limit _ _ _)). intros expected [-> Hi]%try_u32_Some.
  verdict_next (verdict_guard _ _ (verdict_push _ _)). intros u Hid%negb_false_iff%N.eqb_eq.
  destruct (member_and_edge_count (tn_kind node)) as [lm ledges] eqn:Ec.
  eapply verdict_bind; [apply verdict_guard, verdict_seq_dirty; [apply verdict_limit_at|apply tame_return]|solve [tame]|].
  cbn beta. intros u1 Hlocal%N.ltb_ge.
  verdict_next (verdict_or_else _ _ (verdict_limit _ _ _)). intros members' [-> Hm']%checked_budget_Some.
  verdict_next (verdict_or_else _ _ (verdict_limit _ _ _)). intros edges' [-> He']%checked_budget_Some.
  verdict_next verdict_node_shape. intros u2 Hshape.
  verdict_next verdict_node_source. intros u3 Hsource.
  verdict_next verdict_gets_fatal. intros exhausted ->.
  eapply verdict_mono; [by apply IH|]. cbn [fmap list_fmap snd]. unfold total_members, total_edges. cbn [foldr].
  rewrite Ec. cbn [fst snd]. intros u4 (Hall & H1 & H2). split_and!; [|lia..].
  constructor; [|done]. split; [|done]. split; cbn; [done..|by rewrite Ec|done].
Qed.

(** ** Inventory *)

Notation nominals types := (omap (fun node => nominal_identity (tn_kind node)) types).

Lemma tame_inventory_loop types seen : tame (inventory_loop types seen).
Proof. revert seen. induction types as [|node types IH]; intros seen; cbn [inventory_loop]; tame; apply IH. Qed.
#[export] Hint Resolve tame_inventory_loop : tame.

Lemma verdict_inventory_loop types seen :
  verdict (inventory_loop types seen) (fun seen' =>
    seen' = list_to_set (nominals types) ∪ seen /\ NoDup (nominals types) /\ forall x, x ∈ nominals types -> x ∉ seen).
Proof.
  revert seen. induction types as [|node types IH]; intros seen; cbn [inventory_loop omap list_omap].
  { apply verdict_ret. split_and!; [set_solver|constructor|set_solver]. }
  destruct (nominal_identity (tn_kind node)) as [declared|]; [|apply IH].
  verdict_next (verdict_guard _ _ (verdict_push _ _)). intros u Hd%bool_decide_eq_false.
  eapply verdict_mono; [apply IH|]. cbn beta. intros seen' (-> & Hnd & Hnew). split_and!.
  - set_solver.
  - constructor; [|done]. intros H. specialize (Hnew _ H). set_solver.
  - intros x [->|Hx]%elem_of_cons; [done|]. specialize (Hnew _ Hx). set_solver.
Qed.

(** The identities the modules declare *)
Definition declarations_of (index : nat) (m : LModule) : list (N * N) :=
  (fun d => (N.of_nat index, N.of_nat d)) <$> seq 0 (N.to_nat (lm_data_declarations m)).
Definition declared (g : LGraph) : list (N * N) :=
  enumerate (lg_modules g) ≫= fun p => declarations_of p.1 p.2.

Definition declaration_count (modules : list LModule) : N :=
  foldr (fun m n => (lm_data_declarations m + n)%N) 0%N modules.

Lemma declaration_total modules start n :
  foldl (fun total module => total ← total; checked_add u64_max total (lm_data_declarations module))
    (Some start) modules = Some n -> n = (start + declaration_count modules)%N.
Proof.
  revert start. induction modules as [|m modules IH]; intros start; cbn; [intros [= ->]; lia|].
  unfold checked_add. destruct (N.leb_spec (start + lm_data_declarations m) u64_max).
  - intros ->%IH. unfold declaration_count. cbn. lia.
  - intros E. exfalso. clear IH. induction modules; cbn in E; auto. done.
Qed.

Lemma elem_of_declared g m d :
  (m, d) ∈ declared g <-> exists c, get (lg_modules g) m = Some c /\ (d < lm_data_declarations c)%N.
Proof.
  unfold declared, get. rewrite list_elem_of_bind. split.
  - intros ([i c] & Hp & Hi%elem_of_enumerate). apply list_elem_of_fmap in Hp as (d' & E & Hd). cbn in *.
    injection E as -> ->. exists c. rewrite Nat2N.id. split; [done|]. apply elem_of_seq in Hd. lia.
  - intros (c & Hc & Hd). exists (N.to_nat m, c). rewrite elem_of_enumerate. split; [|done].
    apply list_elem_of_fmap. exists (N.to_nat d). cbn. rewrite !N2Nat.id. split; [done|]. apply elem_of_seq. lia.
Qed.

Lemma length_declared_from (k : nat) (l : list LModule) :
  N.of_nat (length (imap (fun i m => (i + k, m)) l ≫= fun p => declarations_of p.1 p.2))
  = declaration_count l.
Proof.
  revert k. induction l as [|m l IH]; intros k; [done|]. cbn [imap mbind list_bind declaration_count foldr].
  rewrite length_app. unfold declarations_of at 1. rewrite length_fmap, length_seq. fold (declaration_count l).
  rewrite (imap_ext _ (fun i m => (i + S k, m))) by (intros; cbn; f_equal; lia).
  specialize (IH (S k)). cbn in *. rewrite Nat2N.inj_add, IH. cbn. lia.
Qed.
Lemma length_declared g : len (declared g) = declaration_count (lg_modules g).
Proof.
  rewrite <- (length_declared_from 0). unfold len, declared, enumerate. do 3 f_equal.
  apply imap_ext. intros. f_equal. lia.
Qed.

Lemma size_list_le (l : list (N * N)) : size (list_to_set l : gset (N * N)) <= length l.
Proof.
  induction l as [|x l IH]; [done|]. cbn [list_to_set length].
  rewrite size_union_alt, size_singleton.
  pose proof (subseteq_size (list_to_set l ∖ {[x]}) (list_to_set l : gset (N * N))) as H.
  specialize (H ltac:(set_solver)). lia.
Qed.

(** Every declared identity has exactly one node. *)
Definition inventory_exact (g : LGraph) : Prop :=
  NoDup (nominals (lg_types g)) /\
  forall m d, (m, d) ∈ nominals (lg_types g) <-> exists c, get (lg_modules g) m = Some c /\ (d < lm_data_declarations c)%N.

Lemma tame_nominal_inventory g : tame (verify_nominal_inventory g).
Proof. unfold verify_nominal_inventory. tame. Qed.
#[export] Hint Resolve tame_nominal_inventory : tame.

Lemma verdict_nominal_inventory g :
  graph_ok g -> verdict (verify_nominal_inventory g) (fun _ => inventory_exact g).
Proof.
  intros Hg. unfold verify_nominal_inventory. verdict_next verdict_inventory_loop. intros seen (-> & Hnd & _).
  eapply verdict_mono; [apply verdict_guard, verdict_push|]. cbn beta. intros u H%negb_false_iff%bool_decide_eq_true.
  apply declaration_total in H. rewrite N.add_0_l, <- length_declared, union_empty_r_L in H.
  assert (list_to_set (nominals (lg_types g)) = (list_to_set (declared g) : gset (N * N))) as Heq.
  { apply set_subseteq_size_eq.
    - intros [m d] Hin%elem_of_list_to_set. apply elem_of_list_to_set, elem_of_declared.
      apply list_elem_of_omap in Hin as (node & Hn & E). apply list_elem_of_lookup in Hn as [i Hi].
      pose proof (no_shape _ _ _ (go_nodes _ Hg i node Hi)) as Hs.
      destruct (tn_kind node); cbn in E; try done; injection E as -> ->; cbn in Hs; destruct Hs as [(c & Hc & _ & Hd) _]; eauto.
    - rewrite size_list_to_set in H by done. unfold len in H. etrans; [apply size_list_le|].
      rewrite size_list_to_set by done. lia. }
  split; [done|]. intros m d. rewrite <- elem_of_declared.
  rewrite <- (elem_of_list_to_set (C := gset (N * N)) _ (declared g)), <- Heq. by rewrite elem_of_list_to_set.
Qed.

(** ** Reachability *)

Definition child_indices (types : list TypeNode) (i : nat) : list nat :=
  match types !! i with Some node => N.to_nat <$> rev (all_children (tn_kind node)) | None => [] end.

Lemma layout_reach_mark fuel types marked pending :
  length marked = length types ->
  layout_reach_loop fuel types marked pending
  = mark_loop fuel (child_indices types) marked (N.to_nat <$> pending).
Proof.
  revert marked pending. induction fuel as [|fuel IH]; intros marked pending Hl; [done|].
  destruct pending as [|id pending]; [done|]. cbn [layout_reach_loop mark_loop fmap list_fmap].
  unfold get at 1. rewrite list_lookup_total_alt. cbn [inhabitant bool_inhabated].
  destruct (marked !! N.to_nat id) as [[]|] eqn:Em; cbn [default]; [by apply IH| |by apply IH].
  unfold get. destruct (lookup_lt_is_Some_2 types (N.to_nat id)) as [node Hn].
  { rewrite <- Hl. by eapply lookup_lt_Some. }
  rewrite Hn. cbn. rewrite IH by (by rewrite length_insert).
  rewrite fmap_app. do 2 f_equal. unfold child_indices. by rewrite Hn.
Qed.

(** The relation the search follows *)
Definition stores (g : LGraph) (parent child : nat) : Prop :=
  exists node, lg_types g !! parent = Some node /\ N.of_nat child ∈ all_children (tn_kind node).

Lemma elem_of_child_indices g i j : j ∈ child_indices (lg_types g) i <-> stores g i j.
Proof.
  unfold child_indices, stores. destruct (lg_types g !! i) as [node|]; [|split; [by intros ?%not_elem_of_nil|by intros (? & ? & _)]].
  rewrite list_elem_of_fmap. split.
  - intros (x & -> & Hx). exists node. rewrite N2Nat.id. split; [done|]. by rewrite rev_reverse, elem_of_reverse in Hx.
  - intros (node' & [= <-] & H). exists (N.of_nat j). rewrite Nat2N.id. split; [done|]. by rewrite rev_reverse, elem_of_reverse.
Qed.

(** Every node is a primitive, a nominal type, a program root, or stored by one. *)
Definition is_root (g : LGraph) (i : nat) : Prop :=
  (exists node, lg_types g !! i = Some node /\ is_root_kind (tn_kind node) = true) \/
  N.of_nat i ∈ lg_program_roots g.
Definition all_stored (g : LGraph) : Prop :=
  Forall (fun root => refers g root) (lg_program_roots g) /\
  forall i, i < length (lg_types g) -> exists root, is_root g root /\ rtc (stores g) root i.

Lemma work_types types :
  work (child_indices types) (replicate (length types) false)
  = sum_list ((fun node => length (all_children (tn_kind node))) <$> types).
Proof.
  unfold work, unmarked_sum.
  assert (forall w, sum_list (imap (fun i m => if (m : bool) then 0 else w i) (replicate (length types) false))
    = sum_list (w <$> seq 0 (length types))) as H.
  { intros w. induction types as [|x types IH] in w |- *; [done|]. cbn. f_equal. rewrite <- fmap_S_seq, <- list_fmap_compose.
    apply (IH (w ∘ S)). }
  rewrite H. clear H. f_equal. induction types as [|x types IH] using rev_ind; [done|].
  rewrite length_app, seq_app, !fmap_app, <- IH. cbn. f_equal.
  - apply list_fmap_ext. intros k y Hy. apply lookup_seq in Hy as [-> Hk]. unfold child_indices. by rewrite lookup_app_l.
  - unfold child_indices. rewrite lookup_app_r, Nat.sub_diag by lia. cbn. by rewrite length_fmap, length_rev.
Qed.

Lemma elem_of_roots g i :
  graph_ok g -> N.of_nat i ∈ (tn_id <$> List.filter (fun node => is_root_kind (tn_kind node)) (lg_types g)) ++ lg_program_roots g ->
  is_root g i.
Proof.
  intros Hg [H|H]%elem_of_app; [left|by right]. apply list_elem_of_fmap in H as (node & E & H).
  apply list_elem_of_In, List.filter_In in H as [H Hk]. apply list_elem_of_In, list_elem_of_lookup in H as [k Hk'].
  pose proof (no_id _ _ _ (go_nodes _ Hg k node Hk')). exists node. assert (i = k) as -> by lia. done.
Qed.

(** The search terminates within its fuel, on any graph. *)
Lemma layout_reach_total types pending :
  exists m, layout_reach_loop
      (length pending + sum_list ((fun node => length (all_children (tn_kind node))) <$> types) + 1)
      types (replicate (length types) false) (rev pending) = Some m /\
    length m = length types /\
    forall i, m !! i = Some true -> exists id, id ∈ pending /\ rtc (fun a b => b ∈ child_indices types a) (N.to_nat id) i.
Proof.
  rewrite layout_reach_mark by (by rewrite length_replicate).
  destruct (mark_loop_spec
    (length pending + sum_list ((fun node => length (all_children (tn_kind node))) <$> types) + 1)
    (child_indices types) (replicate (length types) false) (N.to_nat <$> rev pending)) as (m & -> & Hl & _ & _ & Hout).
  { rewrite work_types, length_fmap, length_rev. lia. }
  rewrite length_replicate in Hl. exists m. split_and!; [done..|]. intros i Hi.
  destruct (Hout i) as (_ & x & (id & -> & Hid)%list_elem_of_fmap & Hr).
  { by apply list_lookup_total_correct. }
  { apply replicate_total. rewrite <- Hl. by eapply lookup_lt_Some. }
  exists id. by rewrite rev_reverse, elem_of_reverse in Hid.
Qed.

Lemma verdict_reachability_raw g :
  verdict (verify_reachability g) (fun _ =>
    Forall (fun root => refers g root) (lg_program_roots g) /\
    forall i, i < length (lg_types g) -> exists id,
      id ∈ (tn_id <$> List.filter (fun node => is_root_kind (tn_kind node)) (lg_types g)) ++ lg_program_roots g /\
      rtc (stores g) (N.to_nat id) i).
Proof.
  unfold verify_reachability. destruct (existsb _ _) eqn:Er; [apply verdict_push|].
  assert (Forall (fun root => refers g root) (lg_program_roots g)) as Hroots.
  { apply Forall_forall. intros x Hx%list_elem_of_In. unfold refers. destruct (valid_ref g x) eqn:E; [done|].
    rewrite <- not_true_iff_false in Er. destruct Er. apply existsb_exists. exists x. by rewrite E. }
  set (pending := _ ++ _). destruct (layout_reach_total (lg_types g) pending) as (m & -> & Hl & Hm).
  rewrite (expect_bind _ _ m) by done. destruct (list_find _ m) as [[i b]|] eqn:Ef.
  - apply list_find_Some in Ef as (Hi & _ & _).
    destruct (lookup_lt_is_Some_2 (lg_types g) i) as [node Hn]; [rewrite <- Hl; by eapply lookup_lt_Some|].
    rewrite (expect_bind _ _ node) by done. apply verdict_push.
  - apply verdict_ret. split; [done|]. intros i Hi. rewrite <- Hl in Hi.
    destruct (lookup_lt_is_Some_2 m i Hi) as [b Hb]. apply list_find_None in Ef. rewrite Forall_lookup in Ef.
    specialize (Ef i b Hb). destruct b; [|done]. destruct (Hm i Hb) as (id & Hid & Hr). exists id. split; [done|].
    eapply rtc_subrel; [|exact Hr]. intros x y. by rewrite elem_of_child_indices.
Qed.

(** ** [preflight] *)

Definition exactly_one (p : TypeKind -> bool) (g : LGraph) : Prop := count_kind p (lg_types g) = 1.

(** What an accepted graph satisfies *)
Record preflight_ok (g : LGraph) (s : SourceMap) : Prop := {
  po_graph : graph_ok g;
  po_modules : forall i m, lg_modules g !! i = Some m -> module_ok s i m;
  po_module_count : len (lg_modules g) = sm_len s;
  po_sources : Forall (source_ok g s) (lg_types g);
  po_members : (total_members (lg_types g) <= MAX_MEMBERS)%N;
  po_edges : (total_edges (lg_types g) <= MAX_DEPENDENCY_EDGES)%N;
  po_bool : exactly_one (fun k => match k with TkBool => true | _ => false end) g;
  po_i32 : exactly_one (fun k => match k with TkI32 => true | _ => false end) g;
  po_string : exactly_one (fun k => match k with TkString => true | _ => false end) g;
  po_inventory : inventory_exact g;
  po_stored : all_stored g }.

Lemma tame_reachability g : tame (verify_reachability g).
Proof. eapply verdict_tame, verdict_reachability_raw. Qed.
#[export] Hint Resolve tame_reachability : tame.

Lemma snd_enumerate {A} (l : list A) : (enumerate l).*2 = l.
Proof.
  unfold enumerate. apply list_eq. intros i. rewrite list_lookup_fmap, list_lookup_imap. by destruct (l !! i).
Qed.

Lemma verdict_preflight g s : verdict (layout_preflight g s) (fun _ => preflight_ok g s).
Proof.
  unfold layout_preflight. apply verdict_pbody.
  verdict_next (verdict_guard _ _ (verdict_seq_dirty _ _ _ (verdict_limit _ _ _) tame_return)). intros u1 Hcount%N.ltb_ge.
  verdict_next (verdict_guard _ _ (verdict_push _ _)). intros u2 Hlen%negb_false_iff%N.eqb_eq.
  verdict_next verdict_preflight_modules. intros u3 Hmodules.
  eapply verdict_bind; [by apply verdict_preflight_types|tame|]. cbn beta. intros u4 (Hnodes & Hmem & Hedges).
  rewrite snd_enumerate in Hmem, Hedges. pose proof (Forall_enumerate _ _ Hnodes) as Hn. cbn in Hn.
  pose proof (Forall_enumerate _ _ Hmodules) as Hm. cbn in Hm.
  assert (graph_ok g) as Hg.
  { split; [done| |]; [intros i m Hi; destruct (Hm i m Hi) as (?&?&?); done|intros i node Hi; by apply Hn]. }
  verdict_next (verdict_guard _ _ (verdict_push _ _)). intros u5 Hk%negb_false_iff.
  apply andb_true_iff in Hk as [[H1%Nat.eqb_eq H2%Nat.eqb_eq]%andb_true_iff H3%Nat.eqb_eq].
  verdict_next verdict_nominal_inventory. { done. } intros u6 Hinv.
  eapply verdict_mono; [apply verdict_reachability_raw|]. intros u7 [Hroots Hstored].
  split; try done.
  - apply Forall_lookup. intros i node Hi. by apply (Hn i).
  - split; [done|]. intros i Hi. destruct (Hstored i Hi) as (id & Hid & Hr). exists (N.to_nat id). split; [|done].
    apply elem_of_roots; [done|]. by rewrite N2Nat.id.
Qed.
