(* ===== verification/LayoutKeys.v ===== *)
(** * Canonical keys of a type graph

    The structural key of a node, its bytes, and what [canonical_keys] builds:
    each record of the key table stands for the structural key of its node. *)
From stdpp Require Import base numbers list list_numbers strings pretty gmap sorting.
From S2P Require Import Prelude Source Diagnostics LayoutData Layout LayoutCycles LayoutCompute LayoutDocument.
From S2P Require Import LayoutCodec LayoutLogic.

(** ** Structural keys *)

Inductive skey :=
  | SBool | SI32 | SString
  | SStruct (module declaration : N) | SEnum (module declaration : N)
  | SArray (length : N) (element : skey)
  | SVec (element : skey) | SShared (payload : skey) | SWeak (payload : skey).

Definition inner (k : skey) : option skey :=
  match k with
  | SArray _ k | SVec k | SShared k | SWeak k => Some k
  | _ => None
  end.
(** The bytes of a key before its child *)
Definition own_bytes (k : skey) : list N :=
  match k with
  | SBool => [0] | SI32 => [1] | SString => [2]
  | SStruct m d => nominal_prefix 16 m d
  | SEnum m d => nominal_prefix 17 m d
  | SArray n _ => 32 :: le_bytes 4 n
  | SVec _ => [33] | SShared _ => [34] | SWeak _ => [35]
  end%N.
(** The reference encoding of a key *)
Fixpoint encode_key (k : skey) : list N :=
  own_bytes k ++ match k with
                 | SArray _ k | SVec k | SShared k | SWeak k => le_bytes 4 (len (encode_key k)) ++ encode_key k
                 | _ => []
                 end.
Fixpoint key_height (k : skey) : nat :=
  match k with
  | SArray _ k | SVec k | SShared k | SWeak k => S (key_height k)
  | _ => 1
  end.

Lemma encode_key_unfold k :
  encode_key k = own_bytes k ++ match inner k with
                                | Some k => le_bytes 4 (len (encode_key k)) ++ encode_key k
                                | None => []
                                end.
Proof. by destruct k. Qed.
Lemma key_height_inner k k' : inner k = Some k' -> key_height k = S (key_height k').
Proof. destruct k; cbn; intros E; inversion E; done. Qed.

Lemma length_own_bytes k : length (own_bytes k) <= 9.
Proof. destruct k; cbn; lia. Qed.
Lemma length_encode_key k : length (encode_key k) <= 13 * key_height k.
Proof. induction k; cbn -[Nat.mul]; rewrite ?length_app; cbn -[Nat.mul]; lia. Qed.

(** The structural key of a node of the graph *)
Definition leaf_of (kind : TypeKind) : option skey :=
  match kind with
  | TkBool => Some SBool | TkI32 => Some SI32 | TkString => Some SString
  | TkStruct m d _ => Some (SStruct m d) | TkEnum m d _ => Some (SEnum m d)
  | _ => None
  end.
Definition wrap_of (kind : TypeKind) : option (NodeId * (skey -> skey)) :=
  match kind with
  | TkFixedArray element length => Some (element, SArray length)
  | TkVec element => Some (element, SVec)
  | TkShared payload => Some (payload, SShared)
  | TkWeak payload => Some (payload, SWeak)
  | _ => None
  end.

Inductive has_key (g : LGraph) : nat -> skey -> Prop :=
  | hk_leaf i node k : lg_types g !! i = Some node -> leaf_of (tn_kind node) = Some k -> has_key g i k
  | hk_wrap i node e w k :
      lg_types g !! i = Some node -> wrap_of (tn_kind node) = Some (e, w) -> has_key g (N.to_nat e) k ->
      has_key g i (w k).

Lemma leaf_wrap kind k e w : leaf_of kind = Some k -> wrap_of kind = Some (e, w) -> False.
Proof. by destruct kind. Qed.

Lemma has_key_fun g i k k' : has_key g i k -> has_key g i k' -> k = k'.
Proof.
  intros H. revert k'. induction H as [i node k Hn Hl|i node e w k Hn Hw Hk IH]; intros k' H'; inversion H'; simplify_eq.
  - done.
  - by edestruct leaf_wrap.
  - by edestruct leaf_wrap.
  - f_equal. auto.
Qed.

Lemma wrap_inner kind e w k : wrap_of kind = Some (e, w) -> inner (w k) = Some k.
Proof. destruct kind; cbn; intros E; inversion E; done. Qed.
Lemma leaf_inner kind k : leaf_of kind = Some k -> inner k = None.
Proof. destruct kind; cbn; intros E; inversion E; done. Qed.

(** ** The key table *)

Definition child_of (kind : TypeKind) : option nat := (fun p => N.to_nat p.1) <$> wrap_of kind.
(** The record of a key *)
Definition key_record (child : option nat) (k : skey) : CanonicalKey :=
  mkCanonicalKey (own_bytes k ++ replicate (9 - length (own_bytes k)) 0%N) (len (own_bytes k)) child (len (encode_key k)).

Definition built (keys : list (option CanonicalKey)) : nat := length (omap id keys).

(** An entry of the table stands for the key of its node, and so does its child's. *)
Definition entry_ok (g : LGraph) (keys : list (option CanonicalKey)) (i : nat) (ck : CanonicalKey) : Prop :=
  exists node k, lg_types g !! i = Some node /\ has_key g i k /\ ck = key_record (child_of (tn_kind node)) k /\
    key_height k <= built keys /\
    forall c, child_of (tn_kind node) = Some c -> exists ck', keys !! c = Some (Some ck').

Record keys_inv (g : LGraph) (s : KeyState) : Prop := {
  ki_done : forall i, ks_states s !! i = Some 2%N <-> exists ck, ks_keys s !! i = Some (Some ck);
  ki_entry : forall i ck, ks_keys s !! i = Some (Some ck) -> entry_ok g (ks_keys s) i ck }.

Definition shaped (g : LGraph) (s : KeyState) : Prop :=
  length (ks_states s) = length (lg_types g) /\ length (ks_keys s) = length (lg_types g).
Definition clean_keys (g : LGraph) (s : KeyState) : Prop := ks_errors s = no_errors /\ keys_inv g s.

(** Keys stay, and a node in progress stays in progress. *)
Definition extends (s s' : KeyState) : Prop :=
  (forall i ck, ks_keys s !! i = Some (Some ck) -> ks_keys s' !! i = Some (Some ck)) /\
  (forall i, ks_states s !! i = Some 1%N -> ks_states s' !! i = Some 1%N).
Definition kstep (g : LGraph) (s s' : KeyState) : Prop :=
  shaped g s' /\ (dirty (ks_errors s) -> dirty (ks_errors s')) /\
  (clean_keys g s -> dirty (ks_errors s') \/ (clean_keys g s' /\ extends s s')).
Definition keyed (s : KeyState) (i : nat) : Prop := exists ck, ks_keys s !! i = Some (Some ck).

Lemma kstep_refl g s : shaped g s -> kstep g s s.
Proof. intros H. split_and!; [done..|]. intros Hc. right. split; [done|]. by split. Qed.
Lemma kstep_trans g s1 s2 s3 : kstep g s1 s2 -> kstep g s2 s3 -> kstep g s1 s3.
Proof.
  intros (_ & D1 & C1) (H & D2 & C2). split_and!; [done|auto|]. intros Hc.
  destruct (C1 Hc) as [Hd|[Hc2 [E1 E2]]]; [left; auto|]. destruct (C2 Hc2) as [Hd|[Hc3 [E3 E4]]]; [by left|right].
  split; [done|]. split; auto.
Qed.
Lemma clean_not_dirty g s : clean_keys g s -> ~ dirty (ks_errors s).
Proof. intros [-> _] H. by apply H. Qed.

Lemma built_insert keys i ck : keys !! i = Some None -> built (<[i := Some ck]> keys) = S (built keys).
Proof.
  intros H. unfold built. rewrite <- (take_drop_middle keys i None) at 2 by done.
  rewrite insert_take_drop by (by eapply lookup_lt_Some). rewrite !omap_app. cbn. rewrite !length_app. cbn. lia.
Qed.
Lemma built_le keys : built keys <= length keys.
Proof. induction keys as [|[] keys IH]; cbn; unfold built in *; cbn in *; lia. Qed.

Lemma entry_insert g keys i ck j cj :
  keys !! i = Some None -> entry_ok g keys j cj -> entry_ok g (<[i := Some ck]> keys) j cj.
Proof.
  intros Hi (node & k & Hn & Hk & -> & Hh & Hc). exists node, k. split_and!; [done..| |].
  - rewrite built_insert by done. lia.
  - intros c Hc'. destruct (Hc c Hc') as [ck' H]. exists ck'. rewrite list_lookup_insert_ne; [done|].
    intros ->. congruence.
Qed.

(** Marking a node as being in progress *)
Lemma kstep_mark g s i :
  shaped g s -> ks_states s !! i <> Some 2%N ->
  kstep g s (mkKeyState (<[i := 1%N]> (ks_states s)) (ks_keys s) (ks_errors s)).
Proof.
  intros [H1 H2] Hi. split_and!; [split; cbn; [by rewrite length_insert|done]|done|]. intros [He [Hd Hk]]. right.
  split; [split; [done|]; split; cbn|split; cbn; [done|]].
  - intros j. rewrite <- Hd. destruct (decide (i = j)) as [->|Hne]; [|by rewrite list_lookup_insert_ne].
    split; [|done]. intros H. destruct (decide (j < length (ks_states s))).
    + by rewrite list_lookup_insert_eq in H.
    + by rewrite list_insert_ge in H by lia.
  - done.
  - intros j Hj. destruct (decide (i = j)) as [->|Hne]; [|by rewrite list_lookup_insert_ne].
    rewrite list_lookup_insert_eq; [done|]. by eapply lookup_lt_Some.
Qed.

(** Storing the key of a node in progress *)
Lemma kstep_store g s i node k :
  shaped g s -> lg_types g !! i = Some node -> ks_states s !! i = Some 1%N -> has_key g i k ->
  (clean_keys g s -> forall c, child_of (tn_kind node) = Some c ->
     exists k', inner k = Some k' /\ has_key g c k' /\ keyed s c) ->
  (child_of (tn_kind node) = None -> inner k = None) ->
  let s' := mkKeyState (<[i := 2%N]> (ks_states s))
              (<[i := Some (key_record (child_of (tn_kind node)) k)]> (ks_keys s)) (ks_errors s) in
  shaped g s' /\ (clean_keys g s -> clean_keys g s' /\ keyed s' i /\
    forall j ck, ks_keys s !! j = Some (Some ck) -> ks_keys s' !! j = Some (Some ck)).
Proof.
  intros [H1 H2] Hn Hi Hk Hc Hl s'. pose proof (lookup_lt_Some _ _ _ Hn) as Hlt.
  split; [split; cbn; by rewrite length_insert|]. intros Hclean. specialize (Hc Hclean).
  destruct Hclean as [He [Hd Hent]].
  assert (ks_keys s !! i = Some None) as Hnone.
  { destruct (lookup_lt_is_Some_2 (ks_keys s) i) as [[ck|] E]; [lia| |done].
    pose proof (proj2 (Hd i) (ex_intro _ ck E)). congruence. }
  assert (entry_ok g (ks_keys s') i (key_record (child_of (tn_kind node)) k)) as Hnew.
  { exists node, k. unfold s'. cbn [ks_keys]. rewrite built_insert by done. split_and!; [done..| |].
    - destruct (child_of (tn_kind node)) as [c|] eqn:Ec.
      + destruct (Hc c eq_refl) as (k' & Hin & Hk' & ck & Hck). rewrite (key_height_inner _ _ Hin).
        destruct (Hent c ck Hck) as (nc & kc & _ & Hkc & _ & Hh & _). rewrite (has_key_fun _ _ _ _ Hk' Hkc). lia.
      + specialize (Hl eq_refl). destruct k; cbn in *; try done; lia.
    - intros c Hcc. destruct (Hc c Hcc) as (k' & _ & _ & ck & Hck). exists ck. rewrite list_lookup_insert_ne; [done|].
      intros ->. congruence. }
  assert (keyed s' i) as Hkeyed. { eexists. cbn. rewrite list_lookup_insert_eq; [done|lia]. }
  split_and!; [|done|].
  - split; [done|]. split; cbn.
    + intros j. destruct (decide (i = j)) as [->|Hne].
      * rewrite !list_lookup_insert_eq by lia. split; [by eexists|done].
      * rewrite !list_lookup_insert_ne by done. apply Hd.
    + intros j cj Hj. destruct (decide (i = j)) as [->|Hne].
      * rewrite list_lookup_insert_eq in Hj by lia. injection Hj as <-. done.
      * rewrite list_lookup_insert_ne in Hj by done. apply entry_insert; [done|]. by apply Hent.
  - intros j ck Hj. cbn. rewrite list_lookup_insert_ne; [done|]. intros ->. congruence.
Qed.

(** ** [build_key] *)

Definition build_post (g : LGraph) (index : nat) (s s' : KeyState) (r : outcome unit) : Prop :=
  r = Val tt /\ kstep g s s' /\ (clean_keys g s -> dirty (ks_errors s') \/ keyed s' index).

Lemma on_errors_post g m s :
  reports m -> shaped g s ->
  pwp (on_errors m) (fun s' r => r = Val tt /\ kstep g s s' /\ (clean_keys g s -> dirty (ks_errors s')) /\
    ks_states s' = ks_states s /\ ks_keys s' = ks_keys s) s.
Proof.
  intros [Hv Hd] Hs. unfold pwp, on_errors. specialize (Hv (ks_errors s)). specialize (Hd (ks_errors s)).
  destruct (m (ks_errors s)) as [e r]. cbn in *. subst r.
  assert (clean_keys g s -> dirty e) as Hdirty. { intros [He _]. apply Hd. left. by rewrite He. }
  split_and!; [done| |done..]. split_and!; [done| |]; cbn; [intros; apply Hd; by right|]. intros Hc. left. auto.
Qed.

(** What [node_key] leaves: an early return has reported; a value is the key. *)
Definition node_post (g : LGraph) (index : nat) (node : TypeNode) (s s' : KeyState)
    (r : outcome (option CanonicalKey)) : Prop :=
  kstep g s s' /\
  match r with
  | Panic => False
  | Return => clean_keys g s -> dirty (ks_errors s')
  | Val key => clean_keys g s -> dirty (ks_errors s') \/
      exists k, key = Some (key_record (child_of (tn_kind node)) k) /\ has_key g index k /\
        (forall c, child_of (tn_kind node) = Some c -> exists k', inner k = Some k' /\ has_key g c k' /\ keyed s' c) /\
        (child_of (tn_kind node) = None -> inner k = None)
  end.

Lemma key_new_leaf k : inner k = None -> key_new (own_bytes k) None 0 = Some (key_record None k).
Proof.
  intros H. unfold key_new, key_record. pose proof (length_own_bytes k) as Hl.
  destruct (N.ltb_spec 9 (len (own_bytes k))) as [Hlt|_]; [unfold len in Hlt; lia|]. cbn [mbind option_bind].
  rewrite (encode_key_unfold k), H, app_nil_r. unfold checked_add, len. rewrite N.add_0_r.
  destruct (N.leb_spec (N.of_nat (length (own_bytes k))) u64_max) as [_|Hlt]; [done|]. unfold u64_max in Hlt. lia.
Qed.
Lemma key_new_wrap k k' c :
  inner k = Some k' -> key_height k' <= N.to_nat MAX_TYPE_NODES ->
  key_new (own_bytes k) (Some c) (len (encode_key k')) = Some (key_record (Some c) k).
Proof.
  intros H Hh. unfold key_new, key_record. pose proof (length_own_bytes k) as Hl. pose proof (length_encode_key k') as He.
  destruct (N.ltb_spec 9 (len (own_bytes k))) as [Hlt|_]; [unfold len in Hlt; lia|].
  rewrite (encode_key_unfold k), H. unfold checked_add, len, MAX_TYPE_NODES in *. rewrite !length_app, le_bytes_length.
  destruct (N.leb_spec (4 + N.of_nat (length (encode_key k'))) u64_max) as [_|Hlt]; [|unfold u64_max in Hlt; lia].
  cbn [mbind option_bind]. match goal with |- context [(?n <=? u64_max)%N] => destruct (N.leb_spec n u64_max) as [_|Hlt] end; [|unfold u64_max in Hlt; lia].
  cbn. do 2 f_equal. lia.
Qed.

Section build.
Context (g : LGraph) (Hg : graph_ok g).

Lemma child_key_post (build : nat -> N -> PM KeyState unit) index node e w depth s :
  (forall i s, i < length (lg_types g) -> shaped g s -> pwp (build i (depth + 1)%N) (build_post g i s) s) ->
  lg_types g !! index = Some node -> wrap_of (tn_kind node) = Some (e, w) -> shaped g s ->
  (forall k k', own_bytes (w k) = own_bytes (w k')) ->
  pwp (child_key build (own_bytes (w SBool)) e depth) (node_post g index node s) s.
Proof.
  intros Hb Hn Hw Hs Hown. unfold child_key.
  assert (N.to_nat e < length (lg_types g)) as He.
  { eapply refers_lt, (child_refers g index node); [done..|]. destruct (tn_kind node); cbn in *; try done;
      injection Hw as <- _; by apply list_elem_of_singleton. }
  assert (child_of (tn_kind node) = Some (N.to_nat e)) as Hc by (unfold child_of; by rewrite Hw).
  apply pwp_bind. eapply pwp_mono; [by apply Hb|]. intros s' r (-> & Hstep & Hk).
  apply pwp_bind. unfold pwp at 1, pgets. cbn [fst snd].
  destruct (lookup_lt_is_Some_2 (ks_keys s') (N.to_nat e)) as [ck Hck]. { destruct Hstep as [[_ ->] _]. done. }
  rewrite (expect_bind _ _ ck) by done. unfold pwp. cbn [fst snd mret PM_ret]. split; [done|]. intros Hclean.
  destruct (Hk Hclean) as [Hd|[ck' Hck']]; [by left|]. destruct Hstep as (Hsh & _ & Hcl).
  destruct (Hcl Hclean) as [Hd|[[_ Hinv] _]]; [by left|right].
  rewrite Hck' in Hck. injection Hck as <-.
  destruct (ki_entry _ _ Hinv _ _ Hck') as (nc & kc & Hnc & Hkc & -> & Hh & _).
  exists (w kc). rewrite Hc. split_and!.
  - cbn [mbind option_bind key_record ck_encoded_len]. rewrite (Hown SBool kc). apply key_new_wrap; [by eapply wrap_inner|].
    etrans; [exact Hh|]. etrans; [apply built_le|]. destruct Hsh as [_ ->]. pose proof (go_count _ Hg). unfold len in *. lia.
  - by econstructor.
  - intros c [= <-]. exists kc. split_and!; [by eapply wrap_inner|done|by eexists].
  - done.
Qed.

Lemma leaf_post index node k s :
  lg_types g !! index = Some node -> leaf_of (tn_kind node) = Some k -> shaped g s ->
  pwp (mret (key_new (own_bytes k) None 0)) (node_post g index node s) s.
Proof.
  intros Hn Hl Hs. unfold pwp. cbn [fst snd mret PM_ret]. split; [by apply kstep_refl|]. intros _. right.
  assert (child_of (tn_kind node) = None) as Hc by (by destruct (tn_kind node)).
  exists k. rewrite Hc. split_and!; [by eapply key_new_leaf, leaf_inner|by econstructor|done|]. intros _. by eapply leaf_inner.
Qed.

Lemma node_key_post (build : nat -> N -> PM KeyState unit) index node depth s :
  (forall i s, i < length (lg_types g) -> shaped g s -> pwp (build i (depth + 1)%N) (build_post g i s) s) ->
  lg_types g !! index = Some node -> shaped g s ->
  pwp (node_key build node index depth) (node_post g index node s) s.
Proof.
  intros Hb Hn Hs. unfold node_key.
  pose proof (leaf_post index node) as Hleaf. pose proof (child_key_post build index node) as Hchild.
  destruct (tn_kind node) as [| | |m d fields|m d variants|e n|e|e|e|e] eqn:Ek; rewrite ?Ek in *.
  - by apply (Hleaf SBool).
  - by apply (Hleaf SI32).
  - by apply (Hleaf SString).
  - by apply (Hleaf (SStruct m d)).
  - by apply (Hleaf (SEnum m d)).
  - assert (try_u32 n = Some n) as ->.
    { apply try_u32_Some. split; [done|]. pose proof (no_shape _ _ _ (go_nodes _ Hg index node Hn)) as H. rewrite Ek in H.
      destruct H as [_ H]. unfold MAX_ARRAY_LENGTH, u32_max in *. lia. }
    cbn [or_else]. by apply (Hchild e (SArray n) depth s).
  - by apply (Hchild e SVec depth s).
  - by apply (Hchild e SShared depth s).
  - by apply (Hchild e SWeak depth s).
  - apply pwp_bind. eapply pwp_mono; [by apply on_errors_post; [apply reports_push|]|].
    intros s' r (-> & Hst & Hd & _). unfold pwp. cbn. split; [done|]. intros Hc. left. auto.
Qed.

(** The last two assignments of [build_key] *)
Lemma finish_node index node key s s1 s2 :
  lg_types g !! index = Some node -> ks_states s !! index <> Some 1%N ->
  ks_states s1 = <[index := 1%N]> (ks_states s) -> ks_keys s1 = ks_keys s -> ks_states s1 !! index = Some 1%N ->
  (clean_keys g s -> clean_keys g s1) -> (dirty (ks_errors s) -> dirty (ks_errors s1)) ->
  node_post g index node s1 s2 (Val key) ->
  let s3 := mkKeyState (<[index := 2%N]> (ks_states s2)) (<[index := key]> (ks_keys s2)) (ks_errors s2) in
  kstep g s s3 /\ (clean_keys g s -> dirty (ks_errors s3) \/ keyed s3 index).
Proof.
  intros Hn Hst E1 E2 Hs1 Hclean Hdirty [(Hsh & Hd & Hc) Hval] s3.
  assert (shaped g s3) as Hs3. { destruct Hsh. split; cbn; by rewrite length_insert. }
  assert (clean_keys g s -> dirty (ks_errors s3) \/ (clean_keys g s3 /\ extends s s3) /\ keyed s3 index) as Hmain.
  { intros Hcs. specialize (Hclean Hcs). destruct (Hc Hclean) as [?|[Hc2 [X1 X2]]]; [by left|].
    destruct (Hval Hclean) as [?|(k & -> & Hk & Hch & Hleaf)]; [by left|right].
    destruct (kstep_store g s2 index node k) as [_ Hst3]; [done|done|auto|done|auto|done|].
    destruct (Hst3 Hc2) as (Hc3 & Hk3 & X3). split; [|done]. split; [done|]. split.
    - intros j ck Hj. apply X3, X1. by rewrite E2.
    - intros j Hj. cbn. rewrite list_lookup_insert_ne by congruence. apply X2. rewrite E1.
      by rewrite list_lookup_insert_ne by congruence. }
  split; [|intros Hcs; destruct (Hmain Hcs) as [?|[_ ?]]; auto]. split_and!; [done|auto|].
  intros Hcs. destruct (Hmain Hcs) as [?|[? _]]; auto.
Qed.

Lemma build_key_post fuel index depth s :
  258 <= fuel + N.to_nat depth -> (depth <= MAX_TRAVERSAL_DEPTH + 1)%N -> index < length (lg_types g) -> shaped g s ->
  pwp (build_key fuel g index depth) (build_post g index s) s.
Proof.
  revert index depth s. induction fuel as [|fuel IH]; intros index depth s Hf Hdep Hi Hs.
  { unfold MAX_TRAVERSAL_DEPTH in *. lia. }
  cbn [build_key]. apply pwp_pbody, pwp_bind. unfold pwp at 1, pgets. cbn [fst snd].
  destruct (lookup_lt_is_Some_2 (ks_states s) index) as [st Hst]; [by rewrite (proj1 Hs)|].
  rewrite (expect_bind _ _ st) by done. destruct (N.eqb_spec st 2) as [->|Hst2]; cbn [pwhen].
  { apply pwp_bind. unfold pwp, preturn. cbn. split_and!; [done|by apply kstep_refl|]. intros [_ Hinv]. right.
    by apply (ki_done _ _ Hinv). }
  apply pwp_bind. unfold pwp at 1. cbn [mret PM_ret fst snd].
  destruct (N.ltb_spec MAX_TRAVERSAL_DEPTH depth) as [Hgt|Hle]; cbn [pwhen].
  { apply pwp_bind, pwp_bind. eapply pwp_mono; [by apply on_errors_post; [apply reports_limit|]|].
    intros s' r (-> & Hstep & Hd & _). unfold pwp, preturn. cbn. split_and!; [done..|]. intros Hc. left. auto. }
  apply pwp_bind. unfold pwp at 1. cbn [mret PM_ret fst snd].
  destruct (lookup_lt_is_Some_2 (lg_types g) index Hi) as [node Hn]. rewrite (expect_bind _ _ node) by done.
  destruct (N.eqb_spec st 1) as [->|Hst1]; cbn [pwhen].
  { apply pwp_bind, pwp_bind. eapply pwp_mono; [by apply on_errors_post; [apply reports_push|]|].
    intros s' r (-> & Hstep & Hd & _). unfold pwp, preturn. cbn. split_and!; [done..|]. intros Hc. left. auto. }
  apply pwp_bind. unfold pwp at 1. cbn [mret PM_ret fst snd]. apply pwp_bind. unfold pwp at 1, set_state, pmodify. cbn [fst snd].
  set (s1 := mkKeyState _ _ _).
  assert (kstep g s s1) as Hmark. { apply kstep_mark; [done|]. rewrite Hst. congruence. }
  assert (ks_states s1 !! index = Some 1%N) as Hs1. { cbn. rewrite list_lookup_insert_eq; [done|]. by rewrite (proj1 Hs). }
  apply pwp_bind. eapply pwp_mono; [apply node_key_post; [|done|apply Hmark]|].
  { intros i s'' Hi' Hs''. apply IH; [lia|lia|done|done]. }
  intros s2 r [Hstep Hr]. pose proof (kstep_trans _ _ _ _ Hmark Hstep) as Hall.
  assert (clean_keys g s -> clean_keys g s1) as Hclean1.
  { intros Hc. destruct (proj2 (proj2 Hmark) Hc) as [Hd|[? _]]; [|done]. destruct Hc as [He _]. cbn in Hd.
    rewrite He in Hd. by destruct Hd. }
  destruct r as [key| |]; [|split_and!; [done..|]; intros Hc; left; auto|done].
  unfold pwp, mbind, PM_bind, set_state, set_key, pmodify. cbn [fst snd]. split; [done|].
  apply (finish_node index node key s s1 s2); auto; [rewrite Hst; congruence|by split].
Qed.

Notation key_step := (fun index =>
  build_key key_fuel g index 0;;
  exhausted ← pgets (fun s => le_fatal (ks_errors s));
  pwhen (exhausted : bool) preturn).

Lemma key_loop_post l s :
  (forall i, i ∈ l -> i < length (lg_types g)) -> shaped g s ->
  pwp (pfor_each l key_step) (fun s' r => r <> Panic /\ kstep g s s' /\
    (clean_keys g s -> dirty (ks_errors s') \/ (r = Val tt /\ forall i, i ∈ l -> keyed s' i))) s.
Proof.
  revert s. induction l as [|i l IH]; intros s Hl Hs; cbn [pfor_each].
  { split_and!; [done|by apply kstep_refl|]. intros _. right. split; [done|]. by intros i ?%not_elem_of_nil. }
  apply pwp_bind, pwp_bind. eapply pwp_mono; [apply build_key_post; [|done|apply Hl; by left|done]|].
  { unfold key_fuel, MAX_TRAVERSAL_DEPTH. lia. }
  intros s1 r (-> & Hstep & Hk). apply pwp_bind. unfold pwp at 1, pgets. cbn [fst snd].
  destruct (le_fatal (ks_errors s1)) eqn:Ef; cbn [pwhen].
  { unfold pwp, preturn. cbn. split_and!; [done..|]. intros Hc.
    destruct (proj2 (proj2 Hstep) Hc) as [?|[[He _] _]]; [by left|]. by rewrite He in Ef. }
  unfold pwp at 1. cbn [mret PM_ret fst snd]. eapply pwp_mono; [apply IH; [|apply Hstep]|].
  { intros j Hj. apply Hl. by right. }
  intros s2 r (Hr & Hstep2 & Hall). split_and!; [done|by eapply kstep_trans|]. intros Hc.
  destruct (Hk Hc) as [Hd|[ck Hck]]; [left; by apply Hstep2|].
  destruct (proj2 (proj2 Hstep) Hc) as [Hd|[Hc1 _]]; [left; by apply Hstep2|].
  destruct (Hall Hc1) as [?|[-> Hkeyed]]; [by left|].
  destruct (proj2 (proj2 Hstep2) Hc1) as [?|[Hc2 [X _]]]; [by left|right]. split; [done|].
  intros j [->|Hj]%elem_of_cons; [|auto]. exists ck. by apply X.
Qed.

(** The keys of an accepted graph *)
Definition keys_ok (ks : list CanonicalKey) : Prop :=
  length ks = length (lg_types g) /\
  forall i, i < length (lg_types g) -> exists node k,
    lg_types g !! i = Some node /\ has_key g i k /\ ks !! i = Some (key_record (child_of (tn_kind node)) k) /\
    key_height k <= length (lg_types g).

Lemma canonical_keys_settles : settles (canonical_keys g) (fun keys => exists ks, keys = Some ks /\ keys_ok ks).
Proof.
  unfold settles, canonical_keys. set (s0 := mkKeyState _ _ no_errors).
  assert (shaped g s0) as Hs0 by (split; cbn; by rewrite length_replicate).
  assert (clean_keys g s0) as Hc0.
  { split; [done|]. split; cbn.
    - intros i. split; [|intros [ck H]]; intros; exfalso.
      + by apply lookup_replicate in H as [? _].
      + by apply lookup_replicate in H as [? _].
    - intros i ck H. by apply lookup_replicate in H as [? _]. }
  destruct (key_loop_post (seq 0 (length (lg_types g))) s0) as (Hr & (Hsh & _ & Hcl) & Hk); [|done|].
  { intros i Hi%elem_of_seq. lia. }
  specialize (Hk Hc0). specialize (Hcl Hc0). destruct (pfor_each _ _ s0) as [s r]. cbn in *.
  destruct Hk as [Hd|[-> Hk]]; [left; by destruct r|]. destruct Hcl as [Hd|[[He Hinv] _]]; [by left|right].
  rewrite He. assert (Forall is_Some (ks_keys s)) as Hall.
  { apply Forall_lookup. intros i o Ho. destruct (Hk i) as [ck Hck]; [|by simplify_eq].
    apply elem_of_seq. apply lookup_lt_Some in Ho. destruct Hsh. lia. }
  assert (exists ks, mapM id (ks_keys s) = Some ks) as [ks Hks] by (by apply mapM_is_Some).
  exists (Some ks). rewrite Hks. split; [done|]. exists ks. split; [done|]. apply mapM_Some in Hks as HF.
  pose proof (Forall2_length _ _ _ HF) as Hlen. split; [destruct Hsh; lia|]. intros i Hi.
  destruct (Hk i) as [ck Hck]; [apply elem_of_seq; lia|].
  destruct (ki_entry _ _ Hinv i ck Hck) as (node & k & Hn & Hhk & -> & Hh & _). exists node, k. split_and!; [done..| |].
  - destruct (Forall2_lookup_l _ _ _ i _ HF Hck) as (y & Hy & E). injection E as ->. done.
  - etrans; [exact Hh|]. etrans; [apply built_le|]. destruct Hsh. lia.
Qed.
End build.

(** * Canonical type identities

    The key bytes are the reference encoding of the structural keys, which is
    injective; [assign_type_ids] numbers the nodes by the rank of their bytes. *)

(** ** The order of byte strings *)

Lemma list_cmp_refl a : list_cmp a a = Eq.
Proof. induction a as [|x a IH]; cbn; [done|]. by rewrite N.compare_refl. Qed.
Lemma list_cmp_eq a b : list_cmp a b = Eq -> a = b.
Proof.
  revert b. induction a as [|x a IH]; intros [|y b]; cbn; try done.
  destruct (N.compare_spec x y) as [->| |]; cbn; [|done..]. intros H. f_equal. auto.
Qed.
Lemma list_cmp_flip a b : list_cmp b a = CompOpp (list_cmp a b).
Proof.
  revert b. induction a as [|x a IH]; intros [|y b]; cbn; try done.
  rewrite (N.compare_antisym x y). destruct (x ?= y)%N; cbn; auto.
Qed.
Lemma list_cmp_lt_trans a b c : list_cmp a b = Lt -> list_cmp b c = Lt -> list_cmp a c = Lt.
Proof.
  revert b c. induction a as [|x a IH]; intros [|y b] [|z c]; cbn; try done.
  destruct (N.compare_spec x y) as [->|Hxy|]; cbn; [| |done].
  - destruct (y ?= z)%N; cbn; eauto.
  - intros _. destruct (N.compare_spec y z) as [->|Hyz|]; cbn; [| |done].
    + intros _. destruct (N.compare_spec x z); cbn; [lia|done|lia].
    + intros _. destruct (N.compare_spec x z); cbn; [lia|done|lia].
Qed.
Lemma bytes_leb_alt a b : bytes_leb a b = true <-> list_cmp a b = Lt \/ a = b.
Proof.
  unfold bytes_leb. destruct (list_cmp a b) eqn:E.
  - apply list_cmp_eq in E. naive_solver.
  - naive_solver.
  - split; [done|]. intros [H| ->]; [done|]. by rewrite list_cmp_refl in E.
Qed.
Lemma bytes_leb_total a b : bytes_leb a b = true \/ bytes_leb b a = true.
Proof.
  rewrite !bytes_leb_alt, (list_cmp_flip a b). destruct (list_cmp a b) eqn:E; cbn; [|auto..].
  apply list_cmp_eq in E. auto.
Qed.
Lemma bytes_leb_trans a b c : bytes_leb a b = true -> bytes_leb b c = true -> bytes_leb a c = true.
Proof.
  rewrite !bytes_leb_alt. intros [H1|<-] [H2|<-]; auto. left. by eapply list_cmp_lt_trans.
Qed.

(** ** Key bytes *)

Lemma key_height_pos k : ~ key_height k <= 0.
Proof. destruct k; cbn; lia. Qed.

Section bytes.
Context (g : LGraph) (Hg : graph_ok g) (ks : list CanonicalKey) (Hks : keys_ok g ks).

Lemma has_key_lt i k : has_key g i k -> i < length (lg_types g).
Proof. intros H. inversion H; by eapply lookup_lt_Some. Qed.

Lemma key_entry i k :
  has_key g i k -> exists node, lg_types g !! i = Some node /\
    ks !! i = Some (key_record (child_of (tn_kind node)) k) /\ key_height k <= length (lg_types g).
Proof.
  intros H. destruct (proj2 Hks i (has_key_lt i k H)) as (node & k' & Hn & Hk & He & Hh).
  rewrite (has_key_fun _ _ _ _ H Hk). eauto.
Qed.

Lemma encoded_small k : key_height k <= length (lg_types g) -> (len (encode_key k) <= u32_max)%N.
Proof.
  intros H. pose proof (length_encode_key k). pose proof (go_count _ Hg). unfold len, MAX_TYPE_NODES, u32_max in *. lia.
Qed.

Lemma key_bytes_encode fuel i k :
  has_key g i k -> key_height k <= fuel -> key_bytes fuel ks i = Some (encode_key k).
Proof.
  intros H. revert fuel. induction H as [i node k Hn Hl|i node e w k Hn Hw Hk IH]; intros fuel Hf;
    (destruct fuel as [|fuel]; [by apply key_height_pos in Hf|]).
  - destruct (key_entry i k) as (node' & Hn' & He & _); [by econstructor|]. simplify_eq. cbn [key_bytes]. rewrite He.
    assert (child_of (tn_kind node) = None) as Hc by (by destruct (tn_kind node)).
    cbn [mbind option_bind key_record ck_child ck_prefix ck_prefix_len]. rewrite Hc. unfold len.
    rewrite Nat2N.id, take_app_length. rewrite (encode_key_unfold k), (leaf_inner _ _ Hl), app_nil_r. done.
  - destruct (key_entry i (w k)) as (node' & Hn' & He & _); [by econstructor|]. simplify_eq. cbn [key_bytes]. rewrite He.
    assert (child_of (tn_kind node) = Some (N.to_nat e)) as Hc by (unfold child_of; by rewrite Hw).
    cbn [mbind option_bind key_record ck_child ck_prefix ck_prefix_len]. rewrite Hc. unfold len.
    rewrite Nat2N.id, take_app_length.
    destruct (key_entry (N.to_nat e) k Hk) as (nc & Hnc & Hec & Hh). rewrite Hec. cbn [mbind option_bind key_record ck_encoded_len].
    assert (try_u32 (len (encode_key k)) = Some (len (encode_key k))) as ->.
    { apply try_u32_Some. split; [done|]. by apply encoded_small. }
    rewrite IH by (erewrite key_height_inner in Hf by (by eapply wrap_inner); lia). cbn [mbind option_bind].
    rewrite (encode_key_unfold (w k)), (wrap_inner _ _ _ _ Hw). done.
Qed.
End bytes.

(** ** Injectivity *)

Lemma le_bytes_inj n v w :
  (v < 256 ^ N.of_nat n)%N -> (w < 256 ^ N.of_nat n)%N -> le_bytes n v = le_bytes n w -> v = w.
Proof. intros Hv Hw E. apply (f_equal le_combine) in E. by rewrite !le_combine_bytes in E. Qed.
Lemma u32_lt v : (v <= u32_max)%N -> (v < 256 ^ N.of_nat 4)%N.
Proof. unfold u32_max. cbn. lia. Qed.

(** The lanes of a key fit [u32]. *)
Fixpoint skey_typed (k : skey) : Prop :=
  match k with
  | SBool | SI32 | SString => True
  | SStruct m d | SEnum m d => (m <= u32_max)%N /\ (d <= u32_max)%N
  | SArray n k => (n <= u32_max)%N /\ skey_typed k
  | SVec k | SShared k | SWeak k => skey_typed k
  end.

Lemma u32_app_inj v w (l l' : list N) :
  (v <= u32_max)%N -> (w <= u32_max)%N -> le_bytes 4 v ++ l = le_bytes 4 w ++ l' -> v = w /\ l = l'.
Proof.
  intros Hv Hw E. apply app_inj_1 in E as [E ->]; [|by rewrite !le_bytes_length].
  split; [|done]. by apply le_bytes_inj in E; [|by apply u32_lt..].
Qed.
Lemma child_app_inj (k k' : list N) :
  le_bytes 4 (len k) ++ k = le_bytes 4 (len k') ++ k' -> k = k'.
Proof. intros E. by apply app_inj_1 in E as [_ ->]; [|by rewrite !le_bytes_length]. Qed.

Lemma encode_key_inj k k' : skey_typed k -> skey_typed k' -> encode_key k = encode_key k' -> k = k'.
Proof.
  revert k'. induction k as [| | |m d|m d|n k IH|k IH|k IH|k IH]; intros [| | |m' d'|m' d'|n' k'|k'|k'|k'] Hk Hk' E;
    rewrite !encode_key_unfold in E; cbn [own_bytes inner nominal_prefix app skey_typed] in *; try done;
    try (apply (inj2 cons) in E as [_ E]; apply child_app_inj in E; f_equal; by apply IH).
  - destruct Hk, Hk'. apply (inj2 cons) in E as [_ E]. rewrite !app_nil_r in E. apply u32_app_inj in E as [-> E]; [|done..].
    apply le_bytes_inj in E; [by subst|by apply u32_lt..].
  - destruct Hk, Hk'. apply (inj2 cons) in E as [_ E]. rewrite !app_nil_r in E. apply u32_app_inj in E as [-> E]; [|done..].
    apply le_bytes_inj in E; [by subst|by apply u32_lt..].
  - destruct Hk, Hk'. apply (inj2 cons) in E as [_ E]. apply u32_app_inj in E as [-> E]; [|done..].
    apply child_app_inj in E. f_equal. by apply IH.
Qed.

(** Declarations are counted in [u32]. *)
Definition graph_typed (g : LGraph) : Prop :=
  Forall (fun m => lm_data_declarations m <= u32_max)%N (lg_modules g).

Lemma nominal_typed g m d : graph_ok g -> graph_typed g -> nominal_ok g m d -> (m <= u32_max)%N /\ (d <= u32_max)%N.
Proof.
  intros Hg Ht (c & Hc & Hid & Hd). unfold graph_typed in Ht. rewrite Forall_lookup in Ht. split.
  - destruct (go_modules _ Hg _ _ Hc) as [? _]. lia.
  - specialize (Ht _ _ Hc). cbn in Ht. lia.
Qed.

Lemma has_key_typed g i k : graph_ok g -> graph_typed g -> has_key g i k -> skey_typed k.
Proof.
  intros Hg Ht. induction 1 as [i node k Hn Hl|i node e w k Hn Hw Hk IH];
    pose proof (no_shape _ _ _ (go_nodes _ Hg _ _ Hn)) as Hs.
  - destruct (tn_kind node); cbn in Hl; inversion Hl; subst; cbn in *; try done; (apply (nominal_typed g); [done..|apply Hs]).
  - destruct (tn_kind node); cbn in Hw; inversion Hw; subst; cbn in *; try done. split; [|done].
    destruct Hs as [_ Hs]. unfold MAX_ARRAY_LENGTH, u32_max in *. lia.
Qed.

(** ** Numbering *)

Lemma windows_strict {A} (f : A -> list N) (l : list A) :
  StronglySorted (fun a b => bytes_leb (f a) (f b) = true) l ->
  windows2_any (fun a b => bool_decide (f a = f b)) l = false ->
  StronglySorted (fun a b => list_cmp (f a) (f b) = Lt) l.
Proof.
  induction 1 as [|x l Hl IH Hx]; intros Hw; [constructor|]. destruct l as [|y l]; [repeat constructor|].
  cbn [windows2_any] in Hw. apply orb_false_iff in Hw as [Hne%bool_decide_eq_false Hw]. specialize (IH Hw).
  constructor; [done|]. apply Forall_cons in Hx as [Hxy _]. apply bytes_leb_alt in Hxy as [Hxy|?]; [|done].
  constructor; [done|]. apply StronglySorted_inv in IH as [_ IH]. eapply Forall_impl; [exact IH|]. cbn. intros z Hz.
  by eapply list_cmp_lt_trans.
Qed.

Lemma fst_enumerate {A} (l : list A) : (enumerate l).*1 = seq 0 (length l).
Proof.
  unfold enumerate. apply list_eq. intros i. rewrite list_lookup_fmap, list_lookup_imap.
  destruct (l !! i) eqn:E; cbn.
  - symmetry. apply lookup_seq. split; [done|]. by eapply lookup_lt_Some.
  - symmetry. apply lookup_ge_None_2. rewrite length_seq. by apply lookup_ge_None.
Qed.

Lemma number_nodes_spec id order r :
  (N.of_nat (id + length order) <= u32_max)%N -> NoDup order -> (forall i, i ∈ order -> i < length r) ->
  exists r', number_nodes id order r no_errors = (no_errors, Val r') /\ length r' = length r /\
    (forall p i, order !! p = Some i -> r' !! i = Some (N.of_nat (id + p))) /\
    (forall i, i ∉ order -> r' !! i = r !! i).
Proof.
  revert id r. induction order as [|x order IH]; intros id r Hid Hnd Hr; cbn [number_nodes].
  { exists r. split_and!; [done..|]. done. }
  assert (try_u32 (N.of_nat id) = Some (N.of_nat id)) as ->. { apply try_u32_Some. split; [done|]. cbn in Hid. lia. }
  apply NoDup_cons in Hnd as [Hx Hnd].
  destruct (IH (S id) (<[x := N.of_nat id]> r)) as (r' & E & Hl & Hin & Hout); [cbn in Hid; lia|done| |].
  { intros i Hi. rewrite length_insert. apply Hr. by right. }
  exists r'. unfold mbind, PM_bind. cbn [or_else mret PM_ret]. rewrite length_insert in Hl. split_and!; [done..| |].
  - intros [|p] i Hp; cbn in Hp.
    + injection Hp as ->. rewrite Hout by done. rewrite list_lookup_insert_eq by (apply Hr; by left). do 2 f_equal. lia.
    + rewrite (Hin p i Hp). do 2 f_equal. lia.
  - intros i Hi. apply not_elem_of_cons in Hi as [Hne Hi]. rewrite Hout by done. by rewrite list_lookup_insert_ne by congruence.
Qed.

Section assign.
Context (sha256 : list N -> list N) (g : LGraph) (Hg : graph_ok g).

(** The part of the hashed document one node contributes *)
Definition universe_part (c : CanonicalMap) (i : nat) (part : list N) : Prop :=
  exists node k r, lg_types g !! i = Some node /\ has_key g i k /\ universe_record c (tn_kind node) = Some (Some r) /\
    part = u32_bytes (len (encode_key k)) ++ encode_key k ++ r.

Record canon_ok (c : CanonicalMap) : Prop := {
  co_length : length (cm_raw_to_index c) = length (lg_types g);
  co_order : cm_type_to_raw c ≡ₚ seq 0 (length (lg_types g));
  co_index : forall p i, cm_type_to_raw c !! p = Some i -> cm_raw_to_index c !! i = Some (N.of_nat p);
  co_sorted : forall p q i j ki kj, p < q -> cm_type_to_raw c !! p = Some i -> cm_type_to_raw c !! q = Some j ->
    has_key g i ki -> has_key g j kj -> list_cmp (encode_key ki) (encode_key kj) = Lt;
  co_keyed : forall i, i < length (lg_types g) -> exists k, has_key g i k;
  co_universe : exists parts, Forall2 (universe_part c) (cm_type_to_raw c) parts /\
    cm_universe c = sha256 (UNIVERSE_DOMAIN ++ u32_bytes (len (lg_types g)) ++ mjoin parts) }.

Lemma canonical_lt c id :
  length (cm_raw_to_index c) = length (lg_types g) -> refers g id -> is_Some (canonical_index c id).
Proof. intros Hl H%refers_lt. unfold canonical_index. apply lookup_lt_is_Some. lia. Qed.

(** A stored node contributes a record. *)
Lemma universe_record_total c i node k :
  length (cm_raw_to_index c) = length (lg_types g) -> lg_types g !! i = Some node -> has_key g i k ->
  exists r, universe_record c (tn_kind node) = Some (Some r).
Proof.
  intros Hl Hn Hk. pose proof (go_nodes _ Hg i node Hn) as [_ _ Hm Hs].
  assert (forall e, e ∈ all_children (tn_kind node) -> is_Some (canonical_index c e)) as Hc.
  { intros e He. apply canonical_lt; [done|]. by eapply child_refers. }
  assert (forall n, (n <= MAX_MEMBERS_PER_DECLARATION)%N -> try_u32 n = Some n) as Ht.
  { intros n Hn'. apply try_u32_Some. unfold MAX_MEMBERS_PER_DECLARATION, u32_max in *. lia. }
  unfold universe_record. destruct (tn_kind node) as [| | |m d fields|m d variants|e n|e|e|e|e] eqn:Ek;
    cbn [all_children member_and_edge_count fst] in *; eauto;
    try (destruct (Hc e) as [x ->]; [by apply list_elem_of_singleton|cbn; eauto]; fail).
  - rewrite (Ht _ Hm). unfold field_bytes.
    match goal with |- context [mapM ?f fields] => destruct (mapM_total f fields) as [bs ->]; [|cbn; eauto] end.
    intros f Hf. destruct (Hc (rf_ty f)) as [x ->]; [apply list_elem_of_fmap; eauto|cbn; eauto].
  - rewrite (Ht _ Hm). unfold variant_bytes.
    match goal with |- context [mapM ?f variants] => destruct (mapM_total f variants) as [bs ->]; [|cbn; eauto] end.
    intros v Hv. destruct (rv_payload v) as [p|] eqn:Ep; [|cbn; eauto].
    destruct (Hc p) as [x ->]; [apply list_elem_of_omap; eauto|cbn; eauto].
  - exfalso. inversion Hk as [? ? ? Hn' Hl'|? ? ? ? ? Hn' Hw]; simplify_eq; by rewrite Ek in *.
Qed.

Context (ks : list CanonicalKey) (Hks : keys_ok g ks).

Lemma keyed_lt i : i < length (lg_types g) -> exists k, has_key g i k.
Proof. intros Hi. destruct (proj2 Hks i Hi) as (node & k & _ & Hk & _). eauto. Qed.

Lemma key_bytes_full i k : has_key g i k -> key_bytes (S (length ks)) ks i = Some (encode_key k).
Proof.
  intros Hk. destruct (key_entry g ks Hks i k Hk) as (_ & _ & _ & Hh). apply (key_bytes_encode g Hg); [done..|].
  rewrite (proj1 Hks). lia.
Qed.

Lemma universe_bytes_spec c order :
  length (cm_raw_to_index c) = length (lg_types g) -> (forall i, i ∈ order -> i < length (lg_types g)) ->
  exists parts, Forall2 (universe_part c) order parts /\
    universe_bytes g ks c order no_errors = (no_errors, Val (mjoin parts)).
Proof.
  intros Hl. induction order as [|i order IH]; intros Ho; [by exists []|].
  destruct IH as (parts & HF & E); [intros; apply Ho; by right|].
  destruct (keyed_lt i) as [k Hk]; [apply Ho; by left|]. destruct (key_entry g ks Hks i k Hk) as (node & Hn & He & Hh).
  destruct (universe_record_total c i node k Hl Hn Hk) as [r Hr].
  exists ((u32_bytes (len (encode_key k)) ++ encode_key k ++ r) :: parts). split.
  - constructor; [|done]. by exists node, k, r.
  - cbn [universe_bytes]. rewrite (expect_bind _ _ _ He). cbn [key_record ck_encoded_len].
    assert (try_u32 (len (encode_key k)) = Some (len (encode_key k))) as ->.
    { apply try_u32_Some. split; [done|]. by apply (encoded_small g). }
    change (or_else (Some ?x) ?m) with (@mret (PM LErrors) _ _ x).
    unfold mbind at 1, PM_bind at 1, mret at 1, PM_ret at 1.
    rewrite (expect_bind _ _ _ (key_bytes_full i k Hk)), (expect_bind _ _ _ Hn), (expect_bind _ _ _ Hr).
    unfold or_else, mbind, PM_bind, mret, PM_ret in *. rewrite E. cbn [mjoin list_join]. by rewrite <- !app_assoc.
Qed.

Lemma sorted_lookup {A} (R : A -> A -> Prop) l p q x y :
  StronglySorted R l -> p < q -> l !! p = Some x -> l !! q = Some y -> R x y.
Proof.
  intros Hs. revert p q. induction Hs as [|z l Hl IH Hz]; intros p q Hpq Hp Hq; [done|].
  destruct q as [|q]; [lia|]. destruct p as [|p]; cbn in *.
  - injection Hp as ->. rewrite Forall_lookup in Hz. eauto.
  - apply (IH p q); [lia|done..].
Qed.

Lemma sorted_of_lookup {A} (R : A -> A -> Prop) l :
  (forall p q x y, p < q -> l !! p = Some x -> l !! q = Some y -> R x y) -> StronglySorted R l.
Proof.
  induction l as [|z l IH]; intros H; constructor.
  - apply IH. intros p q x y Hpq Hp Hq. apply (H (S p) (S q)); [lia|done..].
  - apply Forall_lookup. intros q y Hq. by apply (H 0 (S q)); [lia|..].
Qed.

Lemma universe_record_ext c c' kind :
  cm_raw_to_index c = cm_raw_to_index c' -> universe_record c kind = universe_record c' kind.
Proof.
  intros E. unfold universe_record, field_bytes, variant_bytes, canonical_index. by rewrite E.
Qed.

Lemma assign_type_ids_settles : settles (assign_type_ids sha256 g ks) canon_ok.
Proof.
  unfold settles, assign_type_ids. set (n := length (lg_types g)). pose proof (proj1 Hks) as Hlk. fold n in Hlk.
  destruct (mapM_total (key_bytes (S (length ks)) ks) (seq 0 (length ks))) as [bs Hbs].
  { intros i Hi%elem_of_seq. destruct (keyed_lt i) as [k Hk]; [fold n; lia|]. rewrite (key_bytes_full i k Hk). eauto. }
  rewrite (expect_bind _ _ bs Hbs). apply mapM_Some in Hbs. set (leb := fun a b : nat * list N => bytes_leb a.2 b.2).
  assert (length bs = n) as Hlb. { rewrite <- (Forall2_length _ _ _ Hbs), length_seq. done. }
  assert (forall i b, bs !! i = Some b -> exists k, has_key g i k /\ b = encode_key k) as Hb.
  { intros i b Hi. assert (i < n) as Hlt by (rewrite <- Hlb; by eapply lookup_lt_Some). destruct (keyed_lt i Hlt) as [k Hk].
    destruct (Forall2_lookup_r _ _ _ i b Hbs Hi) as (x & Hx & E). apply lookup_seq in Hx as [-> _]. rewrite Nat.add_0_l in E.
    rewrite (key_bytes_full i k Hk) in E. injection E as <-. eauto. }
  pose proof (sort_by_perm leb (enumerate bs)) as Hperm. set (ordered := sort_by leb (enumerate bs)) in *.
  assert (ordered.*1 ≡ₚ seq 0 n) as Hp1. { by rewrite Hperm, fst_enumerate, Hlb. }
  destruct (windows2_any _ ordered) eqn:Ew.
  { left. unfold mbind, PM_bind. pose proof (reports_push (layout_global "ZRYNA-L3001" "duplicate canonical type key"
      "provide each nominal or structural type exactly once")) as [H1 H2]. specialize (H1 no_errors).
    specialize (H2 no_errors (or_introl eq_refl)). destruct (push_error _ no_errors) as [e r]. cbn in *. by subst r. }
  apply windows_strict in Ew; [|apply (sort_by_sorted leb); unfold leb; [intros; apply bytes_leb_total|intros; by eapply bytes_leb_trans]].
  right. assert (forall i, i ∈ ordered.*1 -> i < n) as Hlt.
  { intros i Hi. rewrite Hp1 in Hi. apply elem_of_seq in Hi. lia. }
  destruct (number_nodes_spec 0 ordered.*1 (replicate (length ks) 0%N)) as (r & Er & Hlr & Hr & _).
  { cbn. rewrite Hp1, length_seq. pose proof (go_count _ Hg). unfold len, MAX_TYPE_NODES, u32_max, n in *. lia. }
  { rewrite Hp1. apply NoDup_seq. }
  { intros i Hi. rewrite length_replicate, Hlk. auto. }
  rewrite length_replicate, Hlk in Hlr.
  set (c0 := mkCanonicalMap r ordered.*1 (replicate 32 0%N)).
  destruct (universe_bytes_spec c0 ordered.*1) as (parts & HF & Eu); [done|done|].
  set (u := sha256 (UNIVERSE_DOMAIN ++ u32_bytes (len (lg_types g)) ++ mjoin parts)).
  exists (mkCanonicalMap r ordered.*1 u). split.
  - unfold mbind, PM_bind in *. rewrite Er. unfold seal_universe_identity. cbn [cm_type_to_raw].
    assert (len ordered.*1 = len (lg_types g)) as ->. { rewrite Hp1. unfold len. by rewrite length_seq. }
    assert (try_u32 (len (lg_types g)) = Some (len (lg_types g))) as ->.
    { apply try_u32_Some. split; [done|]. pose proof (go_count _ Hg). unfold MAX_TYPE_NODES, u32_max in *. lia. }
    unfold mbind, PM_bind. cbn [or_else mret PM_ret]. fold c0. by rewrite Eu.
  - split; cbn [cm_raw_to_index cm_type_to_raw cm_universe]; [done|done|exact Hr| |exact keyed_lt|].
    + intros p q i j ki kj Hpq Hp Hq Hki Hkj. rewrite list_lookup_fmap in Hp, Hq.
      destruct (ordered !! p) as [[i' bi]|] eqn:Ei; [|done]. destruct (ordered !! q) as [[j' bj]|] eqn:Ej; [|done].
      cbn in Hp, Hq. injection Hp as ->. injection Hq as ->.
      pose proof (sorted_lookup _ _ _ _ _ _ Ew Hpq Ei Ej) as H. cbn in H.
      assert (forall x bx, (x, bx) ∈ ordered -> exists k, has_key g x k /\ bx = encode_key k) as Hin.
      { intros x bx. rewrite Hperm, elem_of_enumerate. apply Hb. }
      destruct (Hin i bi) as (k1 & Hk1 & ->); [by eapply list_elem_of_lookup_2|].
      destruct (Hin j bj) as (k2 & Hk2 & ->); [by eapply list_elem_of_lookup_2|].
      by rewrite (has_key_fun _ _ _ _ Hki Hk1), (has_key_fun _ _ _ _ Hkj Hk2).
    + exists parts. split; [|done]. eapply Forall2_impl; [exact HF|].
      intros i part (node & k & rr & ? & ? & Hrec & ->). exists node, k, rr. split_and!; [done..| |done].
      rewrite <- Hrec. by apply universe_record_ext.
Qed.
End assign.
