(* ===== verification/LayoutDfs.v ===== *)
(** * The finish order of the by-value graph

    [graph_finish_order] visits every node within its fuel; on a graph without
    cycles it lists a node before the nodes it contains. *)
From stdpp Require Import base numbers list list_numbers relations.
From S2P Require Import Prelude LayoutData CfgAlgorithms CfgReach Layout LayoutCycles.
From S2P Require Import LayoutLogic.

(** [height] decreases along every edge. *)
Definition heights (g : graph) (height : nat -> nat) : Prop := forall u v, edge g u v -> height v < height u.

(** Every stacked node is a child of the node below it. *)
Inductive stacked (g : graph) : list nat -> Prop :=
  | stacked_nil : stacked g []
  | stacked_one a : stacked g [a]
  | stacked_cons a b l : edge g a b -> stacked g (a :: l) -> stacked g (b :: a :: l).

Lemma stacked_height g height a l x :
  heights g height -> stacked g (a :: l) -> x ∈ a :: l -> height a <= height x.
Proof.
  intros Hh. revert a. induction l as [|b l IH]; intros a Hs Hx.
  { apply list_elem_of_singleton in Hx as ->. done. }
  apply elem_of_cons in Hx as [->|Hx]; [done|]. inversion Hs; subst. specialize (Hh b a H1). specialize (IH b H3 Hx). lia.
Qed.

Record finish_inv (g : graph) (visited : list bool) (finish : list nat) (stack : list (nat * nat)) : Prop := {
  fi_length : length visited = length g;
  fi_nodup : NoDup (finish ++ stack.*1);
  fi_visited : forall x, x < length g -> visited.[x] = true <-> x ∈ finish ++ stack.*1;
  fi_bound : forall x, x ∈ finish ++ stack.*1 -> x < length g;
  fi_stack : stacked g stack.*1;
  fi_part : forall x c i y, (x, c) ∈ stack -> i < c -> g.[x] !! i = Some y -> visited.[y] = true;
  fi_order : forall height, heights g height -> forall l1 x l2 y, finish = l1 ++ x :: l2 -> edge g x y -> y ∈ l2 }.

Lemma stacked_pop g a l : stacked g (a :: l) -> stacked g l.
Proof. inversion 1; subst; [constructor|done]. Qed.

Lemma finish_skip g visited finish node child next stack :
  finish_inv g visited finish ((node, child) :: stack) -> g.[node] !! child = Some next -> visited.[next] = true ->
  finish_inv g visited finish ((node, S child) :: stack).
Proof.
  intros [] Hn Hv. split; try done. intros x c i y [[= -> ->]|Hin]%elem_of_cons Hi Hy.
  - destruct (decide (i = child)) as [->|]; [congruence|]. eapply fi_part0; [left| |done]. lia.
  - eapply fi_part0; [right|..]; done.
Qed.

Lemma visited_mono (visited : list bool) next y : visited.[y] = true -> (<[next := true]> visited).[y] = true.
Proof.
  intros Hy. destruct (decide (y = next)) as [->|]; [|by rewrite list_lookup_total_insert_ne].
  destruct (decide (next < length visited)); [by rewrite list_lookup_total_insert_eq|]. by rewrite list_insert_ge by lia.
Qed.

Lemma finish_push g visited finish node child next stack :
  wf_graph g -> finish_inv g visited finish ((node, child) :: stack) ->
  g.[node] !! child = Some next -> visited.[next] = false ->
  finish_inv g (<[next := true]> visited) finish ((next, 0) :: (node, S child) :: stack).
Proof.
  intros Hwf [] Hn Hv. cbn [fmap list_fmap fst] in *.
  assert (edge g node next) as He by (by eapply list_elem_of_lookup_2).
  assert (next < length g) as Hlt by eauto.
  assert (next ∉ finish ++ node :: stack.*1) as Hnot. { intros H. apply (fi_visited0 _ Hlt) in H. congruence. }
  split; cbn [fmap list_fmap fst].
  - by rewrite length_insert.
  - rewrite <- Permutation_middle. by constructor.
  - intros x Hx. destruct (decide (x = next)) as [->|Hne].
    + rewrite list_lookup_total_insert_eq by congruence. split; [intros _|done]. apply elem_of_app. right. left.
    + rewrite list_lookup_total_insert_ne, fi_visited0 by done. rewrite !elem_of_app, !elem_of_cons. naive_solver.
  - intros x. rewrite elem_of_app, elem_of_cons. intros [Hx|[->|Hx]]; [|done|]; apply fi_bound0, elem_of_app; auto.
  - by constructor.
  - intros x c i y [[= -> ->]|Hin]%elem_of_cons Hi Hy; [lia|].
    apply elem_of_cons in Hin as [[= -> ->]|Hin]; [|by eapply visited_mono, fi_part0; [right|..]].
    destruct (decide (i = child)) as [->|]; [simplify_eq; apply list_lookup_total_insert_eq; congruence|].
    eapply visited_mono, fi_part0; [left| |done]. lia.
  - done.
Qed.

Lemma finish_pop g visited finish node child stack :
  wf_graph g -> finish_inv g visited finish ((node, child) :: stack) -> g.[node] !! child = None ->
  finish_inv g visited (node :: finish) stack.
Proof.
  intros Hwf [] Hn. cbn [fmap list_fmap fst] in *.
  assert (node :: finish ++ stack.*1 ≡ₚ finish ++ node :: stack.*1) as Hp by apply Permutation_middle.
  assert (forall y, edge g node y -> visited.[y] = true) as Hdone.
  { intros y (i & Hi)%list_elem_of_lookup_1. eapply fi_part0; [left| |done].
    apply lookup_lt_Some in Hi. apply lookup_ge_None in Hn. lia. }
  split; try done; cbn [app].
  - by rewrite Hp.
  - intros x Hx. rewrite Hp. auto.
  - intros x. rewrite Hp. auto.
  - by eapply stacked_pop.
  - intros x c i y Hin. eapply fi_part0. by right.
  - intros height Hh [|z l1] x l2 y E He; injection E as -> ->; [|by eapply fi_order0].
    assert (y < length g) as Hy by eauto. assert (y ∈ l2 ++ x :: stack.*1) as Hin by (apply fi_visited0; auto).
    apply elem_of_app in Hin as [?|Hin]; [done|]. pose proof (stacked_height g height x stack.*1 y Hh fi_stack0 Hin).
    specialize (Hh x y He). lia.
Qed.

(** ** Fuel *)

Lemma finish_loop_spec fuel g visited finish stack :
  wf_graph g -> finish_inv g visited finish stack -> dfs_work g visited stack < fuel ->
  exists visited' finish', finish_loop fuel g visited finish stack = Some (visited', finish') /\
    finish_inv g visited' finish' [] /\ (forall x, visited.[x] = true -> visited'.[x] = true).
Proof.
  intros Hwf. revert visited finish stack. induction fuel as [|fuel IH]; intros visited finish stack Hi Hf; [lia|].
  destruct stack as [|(node, child) stack]; cbn [finish_loop]; [by eauto 6|].
  unfold dfs_work in Hf. cbn in Hf.
  assert (node < length g) as Hnode. { apply (fi_bound _ _ _ _ Hi). apply elem_of_app. right. by left. }
  rewrite (list_lookup_lookup_total_lt g node Hnode). cbn [mbind option_bind].
  destruct (g.[node] !! child) as [next|] eqn:En.
  - pose proof (lookup_lt_Some _ _ _ En).
    assert (next < length visited) as Hnext.
    { rewrite (fi_length _ _ _ _ Hi). apply (Hwf node). by eapply list_elem_of_lookup_2. }
    rewrite (marked_total visited next Hnext). cbn [mbind option_bind]. destruct visited.[next] eqn:Ev.
    + apply IH; [by eapply finish_skip|]. unfold dfs_work. cbn. lia.
    + destruct (IH (<[next := true]> visited) finish ((next, 0) :: (node, S child) :: stack)) as (v & f & E & Hfi & Hm).
      { by eapply finish_push. }
      { pose proof (unmarked_sum_mark (fun b => length g.[b] + 1) visited next) as Hw.
        rewrite marked_total, Ev in Hw by done. specialize (Hw eq_refl). unfold dfs_work. cbn. lia. }
      exists v, f. split_and!; [done..|]. intros x Hx. apply Hm, visited_mono, Hx.
  - apply IH; [by eapply finish_pop|]. unfold dfs_work. cbn. unfold fmap in *. lia.
Qed.

Lemma unmarked_sum_bound w visited : unmarked_sum w visited <= sum_list (w <$> seq 0 (length visited)).
Proof.
  unfold unmarked_sum. induction visited as [|b visited IH] in w |- *; [done|]. cbn.
  rewrite <- fmap_S_seq, <- list_fmap_compose. specialize (IH (w ∘ S)). unfold compose in *. cbn in *. destruct b; lia.
Qed.
Lemma adjacency_weight (g : graph) :
  sum_list ((fun b => length g.[b] + 1) <$> seq 0 (length g)) = adjacency_size g + length g.
Proof.
  unfold adjacency_size. induction g as [|l g IH]; [done|]. cbn. rewrite <- fmap_S_seq, <- list_fmap_compose.
  match goal with |- _ + ?a = _ => change a with (sum_list ((fun b => length g.[b] + 1) <$> seq 0 (length g))) end.
  rewrite IH. lia.
Qed.

Lemma finish_roots_spec g roots visited finish :
  wf_graph g -> finish_inv g visited finish [] -> (forall r, r ∈ roots -> r < length g) ->
  exists visited' finish', finish_roots g roots visited finish = Some (visited', finish') /\
    finish_inv g visited' finish' [] /\ (forall x, visited.[x] = true -> visited'.[x] = true) /\
    forall r, r ∈ roots -> visited'.[r] = true.
Proof.
  intros Hwf. revert visited finish. induction roots as [|r roots IH]; intros visited finish Hi Hr; cbn [finish_roots].
  { exists visited, finish. split_and!; [done..|]. by intros x ?%not_elem_of_nil. }
  assert (r < length g) as Hlt by (apply Hr; left).
  assert (forall x, x ∈ roots -> x < length g) as Hr' by (intros; apply Hr; by right).
  rewrite (marked_total visited r) by (by rewrite (fi_length _ _ _ _ Hi)). cbn [mbind option_bind].
  destruct visited.[r] eqn:Ev.
  - destruct (IH visited finish Hi Hr') as (v & f & E & Hfi & Hm & Hall). exists v, f. split_and!; [done..|].
    intros x [->|Hx]%elem_of_cons; auto.
  - assert (finish_inv g (<[r := true]> visited) finish [(r, 0)]) as Hi0.
    { destruct Hi. cbn [fmap list_fmap] in *. rewrite app_nil_r in *. split; cbn [fmap list_fmap fst].
      - by rewrite length_insert.
      - rewrite <- Permutation_cons_append. constructor; [|done]. intros H. apply fi_visited0 in H; [congruence|done].
      - intros x Hx. rewrite elem_of_app, list_elem_of_singleton. destruct (decide (x = r)) as [->|].
        + rewrite list_lookup_total_insert_eq by congruence. naive_solver.
        + rewrite list_lookup_total_insert_ne, fi_visited0 by done. naive_solver.
      - intros x [Hx| ->%list_elem_of_singleton]%elem_of_app; auto.
      - constructor.
      - intros x c i y [= -> ->]%list_elem_of_singleton. lia.
      - done. }
    destruct (finish_loop_spec (adjacency_size g + length g + 1) g _ _ _ Hwf Hi0) as (v1 & f1 & -> & Hi1 & Hm1).
    { unfold dfs_work. cbn. pose proof (unmarked_sum_mark (fun b => length g.[b] + 1) visited r) as Hw.
      rewrite marked_total, Ev in Hw by (by rewrite (fi_length _ _ _ _ Hi)). specialize (Hw eq_refl).
      pose proof (unmarked_sum_bound (fun b => length g.[b] + 1) visited) as Hb.
      rewrite (fi_length _ _ _ _ Hi), adjacency_weight in Hb. lia. }
    cbn [mbind option_bind fst snd]. destruct (IH v1 f1 Hi1 Hr') as (v & f & E & Hfi & Hm & Hall). exists v, f.
    split_and!; [done..| |].
    + intros x Hx. apply Hm, Hm1, visited_mono, Hx.
    + intros x [->|Hx]%elem_of_cons; [|auto]. apply Hm, Hm1. apply list_lookup_total_insert_eq.
      by rewrite (fi_length _ _ _ _ Hi).
Qed.

(** The finish order is a permutation of the nodes, and topological where there
    is a height. *)
Lemma graph_finish_order_spec (g : graph) :
  wf_graph g -> exists finish, graph_finish_order g = Some finish /\ finish ≡ₚ seq 0 (length g) /\
    forall height, heights g height -> forall l1 x l2 y, finish = l1 ++ x :: l2 -> edge g x y -> y ∈ l2.
Proof.
  intros Hwf. unfold graph_finish_order.
  destruct (finish_roots_spec g (seq 0 (length g)) (replicate (length g) false) []) as (v & f & -> & Hi & _ & Hall).
  - done.
  - split; cbn; [by rewrite length_replicate|constructor| |set_solver|constructor|set_solver|].
    + intros x Hx. rewrite replicate_total by done. split; [done|]. by intros ?%not_elem_of_nil.
    + intros height _ l1 x l2 y E. by destruct l1.
  - intros r ?%elem_of_seq. lia.
  - cbn. exists f. split; [done|]. destruct Hi. cbn in *. rewrite app_nil_r in *. split; [|done].
    apply NoDup_Permutation; [done|apply NoDup_seq|]. intros x. rewrite elem_of_seq. split.
    + intros Hx%fi_bound0. lia.
    + intros Hx. apply fi_visited0; [lia|]. apply Hall, elem_of_seq. lia.
Qed.

(** * Components of the by-value graph

    [cyclic_components] reports no component exactly on the graphs that have a
    height, that is, that have no cycle. *)

Section components.
Context (g : graph) (g_wf : wf_graph g).
Notation n := (length g).
Notation reverse := (reverse_edges g).
Notation unmarked := (unmarked_sum (fun _ => 1)).

Lemma reverse_lookup v : v < n -> exists parents, reverse !! v = Some parents /\ forall p, p ∈ parents <-> edge g p v.
Proof.
  intros Hv. unfold reverse_edges. rewrite list_lookup_fmap, (proj2 (lookup_seq 0 n v v)) by lia. cbn [fmap option_fmap option_map].
  eexists. split; [done|]. intros p. rewrite list_elem_of_fmap. split.
  - intros ([p' l] & -> & H). apply list_elem_of_In, List.filter_In in H as [H%list_elem_of_In%elem_of_enumerate Hb%bool_decide_eq_true].
    cbn in *. unfold edge. by rewrite (list_lookup_total_correct _ _ _ H).
  - intros He. exists (p, g.[p]). split; [done|]. apply list_elem_of_In, List.filter_In. split.
    + apply list_elem_of_In, elem_of_enumerate, list_lookup_lookup_total_lt. by eapply edge_source_lt.
    + by apply bool_decide_eq_true.
Qed.

Lemma unmarked_le (l : list bool) : unmarked l <= length l.
Proof.
  unfold unmarked_sum. induction l as [|b l IH]; [done|]. cbn. unfold compose in *. destruct b; cbn; lia.
Qed.

Lemma push_parents_spec parents assigned pending :
  (forall p, p ∈ parents -> p < length assigned) ->
  exists assigned' fresh, push_parents parents assigned pending = Some (assigned', fresh ++ pending) /\
    length assigned' = length assigned /\
    (forall x, assigned.[x] = true -> assigned'.[x] = true) /\
    (forall p, p ∈ fresh -> p ∈ parents) /\
    unmarked assigned' + length fresh = unmarked assigned /\
    ((forall p, p ∈ parents -> assigned.[p] = true) -> assigned' = assigned) /\
    (fresh = [] -> forall p, p ∈ parents -> assigned.[p] = true).
Proof.
  revert assigned pending. induction parents as [|p parents IH]; intros assigned pending Hp; cbn [push_parents].
  { exists assigned, []. split_and!; [done..|cbn; lia|done|]. by intros _ p ?%not_elem_of_nil. }
  assert (p < length assigned) as Hlt by (apply Hp; left).
  rewrite (marked_total assigned p Hlt). cbn [mbind option_bind]. destruct assigned.[p] eqn:Ep.
  - destruct (IH assigned pending) as (a & fresh & E & Hl & Hm & Hf & Hu & Hsame & Hall); [intros; apply Hp; by right|].
    exists a, fresh. split_and!; [done..| |done| |].
    + intros x Hx. right. auto.
    + intros H. apply Hsame. intros x Hx. apply H. by right.
    + intros H x [->|Hx]%elem_of_cons; auto.
  - destruct (IH (<[p := true]> assigned) (p :: pending)) as (a & fresh & E & Hl & Hm & Hf & Hu & _ & _).
    { intros x Hx. rewrite length_insert. apply Hp. by right. }
    rewrite length_insert in Hl. exists a, (fresh ++ [p]). split_and!.
    + by rewrite <- app_assoc.
    + done.
    + intros x Hx. apply Hm, visited_mono, Hx.
    + intros x [Hx| ->%list_elem_of_singleton]%elem_of_app; [right; auto|left].
    + pose proof (unmarked_sum_mark (fun _ => 1) assigned p) as Hw. rewrite marked_total, Ep in Hw by done.
      specialize (Hw eq_refl). rewrite length_app. cbn. lia.
    + intros H. specialize (H p ltac:(left)). congruence.
    + intros H. by destruct fresh.
Qed.

Lemma component_loop_spec fuel assigned component pending :
  length assigned = n -> (forall p, p ∈ pending -> p < n) -> (forall p, p ∈ component -> p < n) ->
  unmarked assigned + length pending < fuel ->
  exists assigned' component', component_loop fuel reverse assigned component pending = Some (assigned', component') /\
    length assigned' = n /\ (forall x, assigned.[x] = true -> assigned'.[x] = true) /\
    (forall p, p ∈ component' -> p < n) /\ length component + length pending <= length component'.
Proof.
  revert assigned component pending.
  induction fuel as [|fuel IH]; intros assigned component pending Hl Hp Hc Hf; [lia|].
  destruct pending as [|node pending]; cbn [component_loop].
  { exists assigned, component. split_and!; [done..|cbn; lia]. }
  destruct (reverse_lookup node) as (parents & -> & Hpar); [apply Hp; left|]. cbn [mbind option_bind].
  destruct (push_parents_spec (rev parents) assigned pending) as (a & fresh & -> & Hla & Hm & Hfr & Hu & _).
  { intros p Hin. rewrite rev_reverse, elem_of_reverse, Hpar in Hin. rewrite Hl. by eapply edge_source_lt. }
  cbn [mbind option_bind fst snd].
  destruct (IH a (component ++ [node]) (fresh ++ pending)) as (a' & c' & E & Hl' & Hm' & Hc' & Hlen).
  - congruence.
  - intros p [Hin|Hin]%elem_of_app; [|apply Hp; by right]. apply Hfr in Hin.
    rewrite rev_reverse, elem_of_reverse, Hpar in Hin. by eapply edge_source_lt.
  - intros p [Hin| ->%list_elem_of_singleton]%elem_of_app; [auto|apply Hp; left].
  - rewrite length_app. cbn in Hf. lia.
  - exists a', c'. split_and!; [done..|auto|done|]. rewrite !length_app in Hlen. cbn in *. lia.
Qed.

(** The component of a root, and when it is the root alone *)
Lemma component_root assigned root :
  length assigned = n -> root < n -> assigned.[root] = false ->
  exists assigned' component,
    component_loop (S n) reverse (<[root := true]> assigned) [] [root] = Some (assigned', component) /\
    length assigned' = n /\ (forall x, (<[root := true]> assigned).[x] = true -> assigned'.[x] = true) /\
    (forall p, p ∈ component -> p < n) /\ component <> [] /\
    ((forall p, edge g p root -> (<[root := true]> assigned).[p] = true) ->
       assigned' = <[root := true]> assigned /\ component = [root]) /\
    (length component <= 1 -> forall p, edge g p root -> (<[root := true]> assigned).[p] = true).
Proof.
  intros Hl Hr Hroot. set (a0 := <[root := true]> assigned). assert (length a0 = n) as Hl0 by (unfold a0; by rewrite length_insert).
  pose proof (unmarked_sum_mark (fun _ => 1) assigned root) as Hw. rewrite marked_total, Hroot in Hw by lia.
  specialize (Hw eq_refl). fold a0 in Hw.
  assert (unmarked assigned <= n) as Hb.
  { rewrite <- Hl. apply unmarked_le. }
  cbn [component_loop]. destruct (reverse_lookup root Hr) as (parents & -> & Hpar). cbn [mbind option_bind].
  destruct (push_parents_spec (rev parents) a0 []) as (a & fresh & E & Hla & Hm & Hfr & Hu & Hsame & Hall).
  { intros p Hin. rewrite rev_reverse, elem_of_reverse, Hpar in Hin. rewrite Hl0. by eapply edge_source_lt. }
  rewrite app_nil_r in E. rewrite E. cbn [mbind option_bind fst snd app].
  assert (forall p, p ∈ rev parents <-> edge g p root) as Hpar'. { intros p. by rewrite rev_reverse, elem_of_reverse. }
  destruct (component_loop_spec n a [root] fresh) as (a' & c' & E' & Hl' & Hm' & Hc' & Hlen).
  { congruence. }
  { intros p Hin%Hfr%Hpar'. by eapply edge_source_lt. }
  { by intros p ->%list_elem_of_singleton. }
  { lia. }
  exists a', c'. split_and!; [done|done|auto|done|by intros ->; cbn in Hlen; lia| |].
  - intros Hp. rewrite Hsame in * by (intros p Hin%Hpar'; auto).
    assert (fresh = []) as -> by (apply length_zero_iff_nil; lia).
    destruct n as [|k] eqn:En; [lia|]. cbn in E'. by injection E' as <- <-.
  - intros Hle p Hp. apply Hall; [|by apply Hpar']. apply length_zero_iff_nil. cbn in Hlen. lia.
Qed.

(** The parents of an unassigned root come before it. *)
Definition parents_first (roots : list nat) (assigned : list bool) : Prop :=
  forall l1 r l2 p, roots = l1 ++ r :: l2 -> assigned.[r] = false -> edge g p r ->
    p <> r /\ (assigned.[p] = true \/ p ∈ l1).

Lemma parents_first_skip root roots assigned :
  assigned.[root] = true -> parents_first (root :: roots) assigned <-> parents_first roots assigned.
Proof.
  intros Hr. split.
  - intros H l1 r l2 p -> Hu He. destruct (H (root :: l1) r l2 p eq_refl Hu He) as [Hne [?|[->|?]%elem_of_cons]]; auto.
  - intros H [|x l1] r l2 p E Hu He; injection E as -> ->; [congruence|].
    destruct (H l1 r l2 p eq_refl Hu He) as [Hne [?|?]]; split; auto. right. by right.
Qed.

Lemma marked_insert (assigned : list bool) root x :
  root < length assigned -> (<[root := true]> assigned).[x] = true <-> x = root \/ assigned.[x] = true.
Proof.
  intros Hlt. destruct (decide (x = root)) as [->|Hne].
  - rewrite list_lookup_total_insert_eq by done. naive_solver.
  - rewrite list_lookup_total_insert_ne by done. naive_solver.
Qed.

Lemma parents_first_root root roots assigned :
  root < length assigned -> assigned.[root] = false ->
  parents_first (root :: roots) assigned <->
  (forall p, edge g p root -> p <> root /\ (<[root := true]> assigned).[p] = true) /\
  parents_first roots (<[root := true]> assigned).
Proof.
  intros Hlt Hr. split.
  - intros H. split.
    + intros p He. destruct (H [] root roots p eq_refl Hr He) as [Hne [Ha|?%not_elem_of_nil]]; [|done].
      split; [done|]. apply marked_insert; auto.
    + intros l1 r l2 p -> Hu He. assert (r <> root /\ assigned.[r] = false) as [Hne Hu'].
      { destruct (decide (r = root)) as [->|Hne]; [by rewrite list_lookup_total_insert_eq in Hu|].
        by rewrite list_lookup_total_insert_ne in Hu. }
      destruct (H (root :: l1) r l2 p eq_refl Hu' He) as [Hpr [Ha|[->|Ha]%elem_of_cons]]; (split; [done|]); auto;
        left; apply marked_insert; auto.
  - intros [Hp H] l1 r l2 p E Hu He. destruct (decide (r = root)) as [->|Hne].
    + destruct (Hp p He) as [Hne Ha]. split; [done|]. apply marked_insert in Ha as [?|?]; auto.
    + destruct l1 as [|x l1]; injection E as -> ->; [done|].
      destruct (H l1 r l2 p eq_refl) as [Hpr [Ha|Ha]]; [by rewrite list_lookup_total_insert_ne|done| |].
      * split; [done|]. apply marked_insert in Ha as [->|?]; [right; left|by left|done].
      * split; [done|]. right. by right.
Qed.

Lemma cyclic_components_spec roots assigned :
  length assigned = n -> (forall r, r ∈ roots -> r < n) ->
  exists components, cyclic_components g reverse roots assigned = Some components /\
    Forall (fun c => c <> [] /\ forall p, p ∈ c -> p < n) components /\
    (components = [] <-> parents_first roots assigned).
Proof.
  revert assigned. induction roots as [|root roots IH]; intros assigned Hl Hr; cbn [cyclic_components].
  { exists []. split_and!; [done|constructor|]. split; [|done]. intros _ l1 r l2 p E. by destruct l1. }
  assert (root < n) as Hlt by (apply Hr; left). rewrite (marked_total assigned root) by lia. cbn [mbind option_bind].
  assert (forall r, r ∈ roots -> r < n) as Hr' by (intros; apply Hr; by right).
  destruct assigned.[root] eqn:Ea.
  { destruct (IH assigned Hl Hr') as (comps & E & Hc & Hiff). exists comps. split_and!; [done..|].
    by rewrite parents_first_skip. }
  destruct (component_root assigned root Hl Hlt Ea) as (a & comp & -> & Hla & Hm & Hc & Hne & Hsingle & Hsmall).
  cbn [mbind option_bind fst snd]. rewrite (list_lookup_lookup_total_lt g root Hlt). cbn [mbind option_bind].
  destruct (IH a Hla Hr') as (comps & -> & Hcs & Hiff). cbn [mbind option_bind]. eexists. split; [done|].
  destruct (Nat.ltb 1 (length comp) || bool_decide (root ∈ g.[root])) eqn:Eb.
  - split; [constructor; [|done]; split|].
    + intros E. apply Hne. apply Permutation_nil. rewrite <- E. apply sort_by_perm.
    + intros p. unfold sort_nats. rewrite sort_by_perm. apply Hc.
    + split; [done|]. intros Hpf. apply parents_first_root in Hpf as [Hp _]; [|lia|done]. exfalso.
      destruct Hsingle as [_ ->]; [intros p He; by apply Hp|]. apply orb_true_iff in Eb as [Eb%Nat.ltb_lt|Eb%bool_decide_eq_true]; [cbn in Eb; lia|].
      by destruct (Hp root Eb).
  - split; [done|]. apply orb_false_iff in Eb as [Hle%Nat.ltb_ge Hself%bool_decide_eq_false].
    specialize (Hsmall Hle). destruct (Hsingle Hsmall) as [-> _]. rewrite Hiff, parents_first_root by (done || lia).
    split; [|by intros [_ ?]]. intros H. split; [|done]. intros p He. split; [|auto]. intros ->. by apply Hself.
Qed.

(** Positions of a list without duplicates *)
Lemma split_before {A} `{!EqDecision A} (l : list A) x y :
  (exists l1 l2, l = l1 ++ x :: l2 /\ y ∈ l1) -> NoDup l -> exists i j, l !! i = Some y /\ l !! j = Some x /\ i < j.
Proof.
  intros (l1 & l2 & -> & [i Hi]%list_elem_of_lookup) Hnd. exists i, (length l1). split_and!.
  - by rewrite lookup_app_l by (by eapply lookup_lt_Some).
  - by rewrite list_lookup_middle.
  - by eapply lookup_lt_Some.
Qed.

Lemma split_order {A} (l l1 l2 m1 m2 : list A) x y :
  NoDup l -> l = l1 ++ x :: l2 -> l = m1 ++ y :: m2 -> x ∈ m2 -> y ∈ l1.
Proof.
  intros Hnd E1 E2 [k Hk]%list_elem_of_lookup. assert (l !! length l1 = Some x) as Hx by (rewrite E1; by apply list_lookup_middle).
  assert (l !! length m1 = Some y) as Hy by (rewrite E2; by apply list_lookup_middle).
  assert (l !! (length m1 + S k) = Some x) as Hx' by (rewrite E2, lookup_app_r, Nat.add_comm, Nat.add_sub by lia; done).
  pose proof (NoDup_lookup _ _ _ _ Hnd Hx Hx'). rewrite E1, lookup_app_l in Hy by lia. by eapply list_elem_of_lookup_2.
Qed.

(** No component is reported exactly when some height decreases along the edges. *)
Lemma components_exact :
  exists finish components, graph_finish_order g = Some finish /\ finish ≡ₚ seq 0 n /\
    cyclic_components g reverse finish (replicate n false) = Some components /\
    Forall (fun c => c <> [] /\ forall p, p ∈ c -> p < n) components /\
    (components = [] <-> exists height, heights g height) /\
    (components = [] -> forall l1 x l2 y, finish = l1 ++ x :: l2 -> edge g x y -> y ∈ l2).
Proof.
  destruct (graph_finish_order_spec g g_wf) as (finish & E & Hp & Htopo).
  destruct (cyclic_components_spec finish (replicate n false)) as (comps & Ec & Hc & Hiff).
  { by rewrite length_replicate. }
  { intros r. rewrite Hp, elem_of_seq. lia. }
  assert (NoDup finish) as Hnd by (rewrite Hp; apply NoDup_seq).
  assert (comps = [] <-> exists height, heights g height) as Hex.
  { rewrite Hiff. split.
    - intros Hpf. exists (fun x => match list_find (eq x) finish with Some (i, _) => n - i | None => 0 end).
      intros u v He. assert (v < n) as Hv by eauto. assert (v ∈ finish) as Hin by (rewrite Hp; apply elem_of_seq; lia).
      apply list_elem_of_split in Hin as (l1 & l2 & El).
      destruct (Hpf l1 v l2 u El) as [_ [Ha|Hu]]; [by apply replicate_total|done| |].
      + rewrite replicate_total in Ha; [done|]. by eapply edge_source_lt.
      + destruct (split_before finish v u) as (i & j & Hi & Hj & Hij); [by exists l1, l2|done|].
        assert (forall k x, finish !! k = Some x -> list_find (eq x) finish = Some (k, x)) as Hfind.
        { intros k x Hk. apply list_find_Some. split_and!; [done..|]. intros k' y Hk' Hlt <-.
          pose proof (NoDup_lookup _ _ _ _ Hnd Hk Hk'). lia. }
        rewrite (Hfind i u Hi), (Hfind j v Hj). apply lookup_lt_Some in Hj. rewrite Hp, length_seq in Hj. lia.
    - intros [height Hh] l1 r l2 p El Hu He. specialize (Hh p r) as Hhp. split; [intros ->; apply Hhp in He; lia|right].
      assert (p ∈ finish) as Hin. { rewrite Hp. apply elem_of_seq. apply edge_source_lt in He. lia. }
      apply list_elem_of_split in Hin as (m1 & m2 & Em). pose proof (Htopo height Hh m1 p m2 r Em He) as Hr.
      by eapply split_order. }
  exists finish, comps. split_and!; [done..|]. intros H0. apply Hex in H0 as [height Hh]. by eapply Htopo.
Qed.
End components.
