(* ===== verification/LayoutAcyclic.v ===== *)
(** * Rejection of by-value recursion

    The search for the reported cycle terminates and finds closed walks only;
    the depths bound the height of the graph; [reject_by_value_cycles] accepts
    exactly the graphs with a height below the traversal limit. *)
From stdpp Require Import base numbers list list_numbers relations strings pretty gmap.
From S2P Require Import Prelude CfgReach Source Diagnostics CfgAlgorithms LayoutData Layout LayoutCycles LayoutLogic LayoutDfs.

(** ** The reported cycle *)

Section cycle.
Context (g : graph) (g_wf : wf_graph g) (start : nat) (start_lt : start < length g).
Notation n := (length g).
Notation unmarked := (unmarked_sum (fun _ => 1)).

(** Consecutive elements are joined by edges. *)
Inductive linked : list nat -> Prop :=
  | linked_nil : linked []
  | linked_one a : linked [a]
  | linked_cons a b l : edge g a b -> linked (b :: l) -> linked (a :: b :: l).

Definition closed_walk (l : list nat) : Prop :=
  exists first end_, head l = Some first /\ last l = Some end_ /\ linked l /\ edge g end_ first.

(** [k] parents lead from [v] to the start. *)
Inductive climbs (parent : list (option nat)) : nat -> nat -> Prop :=
  | climbs_start : climbs parent start 0
  | climbs_next v u k : v <> start -> parent !! v = Some (Some u) -> edge g u v -> climbs parent u k -> climbs parent v (S k).

Lemma trace_cycle_spec fuel cursor parent path k :
  climbs parent cursor k -> k < fuel -> linked (cursor :: path) ->
  exists p, trace_cycle fuel start cursor parent path = Some p /\ linked (start :: p) /\
    last (start :: p) = last (cursor :: path).
Proof.
  revert cursor path k. induction fuel as [|fuel IH]; intros cursor path k Hk Hf Hl; [lia|]. cbn [trace_cycle].
  destruct (Nat.eqb_spec cursor start) as [->|Hne]; [by eauto|].
  inversion Hk as [|v u k' Hv Hp He Hc]; subst; [done|]. rewrite Hp. cbn.
  destruct (IH u (cursor :: path) k' Hc) as (p & E & Hlp & Hlast); [lia|by constructor|].
  exists p. split_and!; [done..|]. by rewrite Hlast.
Qed.

Record cycle_inv (parent : list (option nat)) (visited : list bool) (stack : list (nat * nat)) : Prop := {
  ci_parent : length parent = n;
  ci_visited : length visited = n;
  ci_start : visited.[start] = true;
  ci_stack : forall x c, (x, c) ∈ stack -> x < n /\ visited.[x] = true;
  ci_marked : forall x u, parent !! x = Some (Some u) -> visited.[x] = true;
  ci_climb : forall x, x < n -> visited.[x] = true -> exists k, climbs parent x k /\ k + unmarked visited <= n }.

Lemma climbs_insert parent child node x k :
  climbs parent x k -> (forall u, parent !! child <> Some (Some u)) ->
  climbs (<[child := Some node]> parent) x k.
Proof.
  intros H Hc. induction H as [|v u k Hv Hp He H IH]; [constructor|]. econstructor; [done| |done|done].
  rewrite list_lookup_insert_ne; [done|]. intros ->. by apply (Hc u).
Qed.

Lemma cycle_next parent visited node child stack :
  cycle_inv parent visited ((node, child) :: stack) -> cycle_inv parent visited ((node, S child) :: stack).
Proof.
  intros []. split; try done. intros x c [[= -> ->]|Hin]%elem_of_cons; [apply (ci_stack0 _ child); left|].
  apply (ci_stack0 _ c). by right.
Qed.
Lemma cycle_pop parent visited top stack : cycle_inv parent visited (top :: stack) -> cycle_inv parent visited stack.
Proof. intros []. split; try done. intros x c Hin. apply (ci_stack0 _ c). by right. Qed.

Lemma cycle_push parent visited node child next stack :
  cycle_inv parent visited ((node, child) :: stack) ->
  g.[node] !! child = Some next -> visited.[next] = false -> next <> start ->
  cycle_inv (<[next := Some node]> parent) (<[next := true]> visited) ((next, 0) :: (node, S child) :: stack).
Proof.
  intros [Hp Hv Hs Hst Hm Hc] Hn Hun Hne.
  assert (edge g node next) as He by (by eapply list_elem_of_lookup_2). assert (next < n) as Hlt by eauto.
  destruct (Hst node child) as [Hnode Hnv]; [by left|].
  assert (forall x k, climbs parent x k -> climbs (<[next := Some node]> parent) x k) as Hmono.
  { intros x k H. apply climbs_insert; [done|]. intros u Hu%Hm. congruence. }
  pose proof (unmarked_sum_mark (fun _ => 1) visited next) as Hw. rewrite marked_total, Hun in Hw by lia. specialize (Hw eq_refl).
  split.
  - by rewrite length_insert.
  - by rewrite length_insert.
  - by apply visited_mono.
  - intros x c [[= -> ->]|[[= -> ->]|Hin]%elem_of_cons]%elem_of_cons.
    + split; [done|]. apply list_lookup_total_insert_eq. lia.
    + split; [done|]. by apply visited_mono.
    + destruct (Hst x c) as [? ?]; [by right|]. split; [done|]. by apply visited_mono.
  - intros x u Hx. apply marked_insert; [lia|]. destruct (decide (x = next)) as [->|Hxn]; [by left|right].
    rewrite list_lookup_insert_ne in Hx by done. eauto.
  - intros x Hx [->|Hxv]%marked_insert; [| |lia].
    + destruct (Hc node Hnode Hnv) as (k & Hk & Hle). exists (S k). split; [|lia].
      econstructor; [done| |done|by apply Hmono]. apply list_lookup_insert_eq. lia.
    + destruct (Hc x Hx Hxv) as (k & Hk & Hle). exists k. split; [by apply Hmono|lia].
Qed.

Lemma cycle_loop_spec fuel members parent visited stack :
  cycle_inv parent visited stack -> dfs_work g visited stack < fuel ->
  exists r, cycle_loop fuel g members start parent visited stack = Some r /\
    forall cycle, r = Some cycle -> closed_walk cycle.
Proof.
  revert parent visited stack. induction fuel as [|fuel IH]; intros parent visited stack Hi Hf; [lia|].
  destruct stack as [|(node, child) stack]; cbn [cycle_loop]; [by exists None|].
  unfold dfs_work in Hf. cbn in Hf. destruct (ci_stack _ _ _ Hi node child) as [Hnode Hnv]; [by left|].
  rewrite (list_lookup_lookup_total_lt g node Hnode). cbn [mbind option_bind].
  destruct (g.[node] !! child) as [next|] eqn:En.
  2:{ apply IH; [by eapply cycle_pop|]. unfold dfs_work. cbn. unfold fmap in *. lia. }
  pose proof (lookup_lt_Some _ _ _ En).
  assert (edge g node next) as He by (by eapply list_elem_of_lookup_2). assert (next < n) as Hnext by eauto.
  assert (dfs_work g visited ((node, S child) :: stack) < fuel) as Hskip by (unfold dfs_work; cbn; lia).
  destruct (negb _); [apply IH; [by apply cycle_next|done]|].
  destruct (Nat.eqb_spec next start) as [->|Hne].
  { destruct (ci_climb _ _ _ Hi node Hnode Hnv) as (k & Hk & Hle).
    destruct (trace_cycle_spec (S n) node parent [] k Hk) as (p & -> & Hl & Hlast); [lia|constructor|].
    cbn. exists (Some (start :: p)). split; [done|]. intros cycle [= <-]. by exists start, node. }
  rewrite (marked_total visited next) by (by rewrite (ci_visited _ _ _ Hi)). cbn [mbind option_bind].
  destruct visited.[next] eqn:Ev; [apply IH; [by apply cycle_next|done]|].
  apply IH; [by apply cycle_push|].
  pose proof (unmarked_sum_mark (fun b => length g.[b] + 1) visited next) as Hw.
  rewrite marked_total, Ev in Hw by (by rewrite (ci_visited _ _ _ Hi)). specialize (Hw eq_refl). unfold dfs_work. cbn. lia.
Qed.

Lemma cycle_start first :
  edge g start first -> first <> start ->
  cycle_inv (<[first := Some start]> (replicate n None)) (<[first := true]> (<[start := true]> (replicate n false))) [(first, 0)] /\
  dfs_work g (<[first := true]> (<[start := true]> (replicate n false))) [(first, 0)] < adjacency_size g + n + 1.
Proof.
  intros He Hne. assert (first < n) as Hlt by eauto.
  assert (forall w, unmarked_sum w (<[first := true]> (<[start := true]> (replicate n false))) + w first + w start
    = unmarked_sum w (replicate n false)) as Hw.
  { intros w. rewrite <- (unmarked_sum_mark w (replicate n false) start) by (by apply lookup_replicate_2).
    rewrite <- (unmarked_sum_mark w (<[start := true]> (replicate n false)) first); [lia|].
    rewrite list_lookup_insert_ne by done. by apply lookup_replicate_2. }
  assert (forall x, x < n -> (<[first := true]> (<[start := true]> (replicate n false))).[x] = true <-> x = first \/ x = start) as Hx.
  { intros x Hx. rewrite !marked_insert by (rewrite ?length_insert, length_replicate; done). rewrite replicate_total by done. naive_solver. }
  split; [split|].
  - by rewrite length_insert, length_replicate.
  - by rewrite !length_insert, length_replicate.
  - apply Hx; auto.
  - intros x c [= -> ->]%list_elem_of_singleton. split; [done|]. apply Hx; auto.
  - intros x u H. assert (x < n) as Hxn. { apply lookup_lt_Some in H. by rewrite length_insert, length_replicate in H. }
    apply Hx; [done|]. left. destruct (decide (x = first)) as [|Hxf]; [done|]. rewrite list_lookup_insert_ne in H by done.
    by apply lookup_replicate in H as [? _].
  - intros x Hxn [->| ->]%Hx; [| |done].
    + exists 1. specialize (Hw (fun _ => 1)). pose proof (unmarked_le (replicate n false)) as Hu. rewrite length_replicate in Hu.
      split; [|cbn in *; lia]. econstructor; [done| |done|constructor]. apply list_lookup_insert_eq. by rewrite length_replicate.
    + exists 0. split; [constructor|]. etrans; [apply unmarked_le|]. by rewrite !length_insert, length_replicate.
  - unfold dfs_work. cbn. specialize (Hw (fun b => length g.[b] + 1)). cbn in Hw.
    pose proof (unmarked_sum_bound (fun b => length g.[b] + 1) (replicate n false)) as Hb.
    rewrite length_replicate, adjacency_weight in Hb. lia.
Qed.

Lemma cycle_firsts_spec members firsts :
  (forall f, f ∈ firsts -> edge g start f /\ f <> start) ->
  exists cycle, cycle_firsts g members start firsts = Some cycle /\ (closed_walk cycle \/ cycle = [start]).
Proof.
  induction firsts as [|first firsts IH]; intros Hf; cbn [cycle_firsts]; [by eauto|].
  destruct (Hf first) as [He Hne]; [by left|]. destruct (cycle_start first He Hne) as [Hi Hw].
  destruct (cycle_loop_spec _ members _ _ _ Hi Hw) as (r & -> & Hr). cbn [mbind option_bind].
  destruct r as [cycle|]; [by eauto|]. apply IH. intros f Hin. apply Hf. by right.
Qed.

Lemma linked_lt a l x : linked (a :: l) -> x ∈ l -> x < n.
Proof.
  revert a. induction l as [|b l IH]; intros a Hl Hx; [by apply not_elem_of_nil in Hx|]. inversion Hl; subst.
  apply elem_of_cons in Hx as [->|Hx]; eauto.
Qed.
Lemma closed_walk_lt l x : closed_walk l -> x ∈ l -> x < n.
Proof.
  intros (first & end_ & Hh & _ & Hl & He) Hx. destruct l as [|a l]; [done|]. cbn in Hh. injection Hh as ->.
  apply elem_of_cons in Hx as [->|Hx]; [eauto|]. by eapply linked_lt.
Qed.
End cycle.

Lemma deterministic_cycle_total (g : graph) component :
  wf_graph g -> (len g <= u32_max)%N -> component <> [] -> (forall p, p ∈ component -> p < length g) ->
  exists cycle, deterministic_component_cycle g component = Some cycle.
Proof.
  intros Hwf Hlen Hne Hc. destruct component as [|start component]; [done|]. unfold deterministic_component_cycle. cbn [head].
  assert (start < length g) as Hs by (apply Hc; left). cbn [mbind option_bind].
  rewrite (list_lookup_lookup_total_lt g start Hs). cbn [mbind option_bind].
  assert (exists cycle, (if bool_decide (start ∈ g.[start]) then Some [start]
     else cycle_firsts g (start :: component) start
            (List.filter (fun child => bool_decide (child ∈ start :: component)) g.[start])) = Some cycle /\
     forall x, x ∈ cycle -> x < length g) as (cycle & -> & Hlt).
  { destruct (bool_decide _) eqn:Eb.
    - exists [start]. split; [done|]. by intros x ->%list_elem_of_singleton.
    - apply bool_decide_eq_false in Eb. edestruct (cycle_firsts_spec g Hwf start Hs) as (cycle & E & Hcyc).
      2:{ exists cycle. split; [exact E|]. intros x Hx. destruct Hcyc as [Hcyc| ->]; [by eapply closed_walk_lt|].
          by apply list_elem_of_singleton in Hx as ->. }
      intros f [Hf _]%list_elem_of_In%List.filter_In. apply list_elem_of_In in Hf. split; [done|]. by intros ->. }
  cbn [mbind option_bind]. apply (mapM_total (fun node => try_u32 (N.of_nat node))). intros x Hx%Hlt.
  eexists. apply try_u32_Some. split; [done|]. unfold len in Hlen. lia.
Qed.

(** ** Depths *)

Section depth.
Context (g : graph) (g_wf : wf_graph g).
Notation n := (length g).

(** Some height decreases along the edges and stays below the traversal limit. *)
Definition shallow : Prop := exists height, heights g height /\ forall x, height x < N.to_nat MAX_TRAVERSAL_DEPTH.

Record depth_inv (seen : list nat) (depth : list N) : Prop := {
  dp_length : length depth = n;
  dp_edge : forall x y, x ∈ seen -> edge g x y -> y ∈ seen /\ (depth.[y] < depth.[x])%N;
  dp_bound : forall x, x ∈ seen -> (1 <= depth.[x] <= MAX_TRAVERSAL_DEPTH)%N;
  dp_least : forall height, heights g height -> forall x, x ∈ seen -> (depth.[x] <= N.of_nat (height x) + 1)%N }.

Lemma max_ge l x : x ∈ l -> (x <= foldr N.max 0 l)%N.
Proof. induction l as [|y l IH]; [by intros ?%not_elem_of_nil|]. intros [->|Hx]%elem_of_cons; cbn; [lia|]. apply IH in Hx. lia. Qed.
Lemma max_le l b : (forall x, x ∈ l -> x <= b)%N -> (foldr N.max 0 l <= b)%N.
Proof.
  induction l as [|y l IH]; intros H; cbn; [lia|]. apply N.max_lub; [apply H; left|]. apply IH. intros x Hx. apply H. by right.
Qed.

Lemma children_depths x (depth : list N) :
  x < n -> length depth = n ->
  exists depths, mapM (fun child => depth !! child) g.[x] = Some depths /\
    forall d, d ∈ depths <-> exists y, edge g x y /\ d = depth.[y].
Proof.
  intros Hx Hl. exists ((fun y => depth.[y]) <$> g.[x]). split.
  - assert (forall l, (forall y, y ∈ l -> y < n) -> mapM (fun child => depth !! child) l = Some ((fun y => depth.[y]) <$> l)) as H.
    { induction l as [|y l IH]; intros Hy; [done|]. cbn. rewrite (list_lookup_lookup_total_lt depth y) by (rewrite Hl; apply Hy; left).
      cbn. rewrite IH by (intros; apply Hy; by right). done. }
    apply H. intros y Hy. by apply (g_wf x).
  - intros d. rewrite list_elem_of_fmap. unfold edge. naive_solver.
Qed.

Lemma depth_loop_spec seen order depth :
  depth_inv seen depth -> NoDup (seen ++ order) -> (forall x, x ∈ order -> x < n) ->
  (forall l1 x l2 y, order = l1 ++ x :: l2 -> edge g x y -> y ∈ seen ++ l1) ->
  (depth_loop g order depth no_errors = (no_errors, Val tt) /\ exists depth', depth_inv (seen ++ order) depth') \/
  (dirty (depth_loop g order depth no_errors).1 /\ (depth_loop g order depth no_errors).2 = Return /\ ~ shallow).
Proof.
  revert seen depth. induction order as [|x order IH]; intros seen depth Hi Hnd Hlt Hfirst; cbn [depth_loop].
  { left. split; [done|]. exists depth. by rewrite app_nil_r. }
  assert (x < n) as Hx by (apply Hlt; left). assert (x ∉ seen) as Hxs.
  { intros H. apply NoDup_app in Hnd as (_ & Hd & _). apply (Hd x H). left. }
  destruct (children_depths x depth Hx (dp_length _ _ Hi)) as (depths & Hd & Hin).
  rewrite (expect_bind _ _ g.[x]) by (by apply list_lookup_lookup_total_lt). rewrite (expect_bind _ _ depths Hd).
  assert (forall y, edge g x y -> y ∈ seen) as Hchild.
  { intros y He. specialize (Hfirst [] x order y eq_refl He). by rewrite app_nil_r in Hfirst. }
  set (own := (foldr N.max 0 depths + 1)%N).
  assert (forall height, heights g height -> (own <= N.of_nat (height x) + 1)%N) as Hleast.
  { intros height Hh. unfold own. enough (foldr N.max 0 depths <= N.of_nat (height x))%N by lia. apply max_le.
    intros d (y & He & ->)%Hin. pose proof (dp_least _ _ Hi height Hh y (Hchild y He)). specialize (Hh x y He). lia. }
  destruct (N.ltb_spec MAX_TRAVERSAL_DEPTH own) as [Hover|Hok]; cbn [pwhen].
  - right. destruct (reports_limit "by-value traversal depth" MAX_TRAVERSAL_DEPTH) as [Hv Hdirty].
    specialize (Hv no_errors). specialize (Hdirty no_errors (or_introl eq_refl)). unfold mbind, PM_bind.
    destruct (layout_limit _ _ no_errors) as [e r]. cbn in *. subst r. cbn. split_and!; [done..|].
    intros (height & Hh & Hb). specialize (Hleast height Hh). specialize (Hb x). lia.
  - rewrite ret_bind. change (x :: order) with ([x] ++ order) in *. rewrite (app_assoc seen [x] order) in *.
    apply IH; [|done|intros y Hy; apply Hlt; by right|].
    + assert (forall y, y ∈ seen -> (<[x := own]> depth).[y] = depth.[y]) as Hkeep.
      { intros y Hy. apply list_lookup_total_insert_ne. by intros ->. }
      assert ((<[x := own]> depth).[x] = own) as Hown. { apply list_lookup_total_insert_eq. by rewrite (dp_length _ _ Hi). }
      split; [rewrite length_insert; apply Hi| | |].
      * intros u y [Hu| ->%list_elem_of_singleton]%elem_of_app He.
        -- destruct (dp_edge _ _ Hi u y Hu He). rewrite !Hkeep by done. split; [apply elem_of_app; by left|done].
        -- rewrite Hown, Hkeep by auto. split; [apply elem_of_app; left; auto|]. unfold own.
           enough (depth.[y] <= foldr N.max 0 depths)%N by lia. apply max_ge, Hin. eauto.
      * intros u [Hu| ->%list_elem_of_singleton]%elem_of_app; [rewrite Hkeep by done; by apply Hi|rewrite Hown; unfold own in *; lia].
      * intros height Hh u [Hu| ->%list_elem_of_singleton]%elem_of_app; [rewrite Hkeep by done; by apply Hi|rewrite Hown; auto].
    + intros l1 u l2 y -> He. specialize (Hfirst (x :: l1) u l2 y eq_refl He). by rewrite <- app_assoc.
Qed.

Lemma depth_shallow order depth : depth_inv order depth -> (forall x, x < n -> x ∈ order) -> shallow.
Proof.
  intros Hd Hall. exists (fun x => if decide (x < n) then N.to_nat depth.[x] - 1 else 0). split.
  - intros u v He. pose proof (edge_source_lt _ _ _ He) as Hu. pose proof (g_wf _ _ He) as Hv. rewrite !decide_True by done.
    destruct (dp_edge _ _ Hd u v (Hall u Hu) He) as [_ Hlt]. pose proof (dp_bound _ _ Hd v (Hall v Hv)). lia.
  - intros x. destruct (decide _) as [Hx|]; [|unfold MAX_TRAVERSAL_DEPTH; lia].
    pose proof (dp_bound _ _ Hd x (Hall x Hx)). unfold MAX_TRAVERSAL_DEPTH in *. lia.
Qed.

(** The depths in finish order, from the initial table *)
Lemma depths_exact finish :
  finish ≡ₚ seq 0 n -> (forall l1 x l2 y, finish = l1 ++ x :: l2 -> edge g x y -> y ∈ l2) ->
  let run := depth_loop g (rev finish) (replicate n 1%N) no_errors in
  (run = (no_errors, Val tt) /\ shallow) \/ (dirty run.1 /\ run.2 = Return /\ ~ shallow).
Proof.
  intros Hp Htopo run. destruct (depth_loop_spec [] (rev finish) (replicate n 1%N)) as [[E [depth' Hd]]|H]; [..|by right].
  - split; try (by intros ? ?%not_elem_of_nil); [by rewrite length_replicate|by intros ? ? ?%not_elem_of_nil|].
    by intros ? ? ? ?%not_elem_of_nil.
  - cbn. rewrite rev_reverse, reverse_Permutation, Hp. apply NoDup_seq.
  - intros x. rewrite rev_reverse, elem_of_reverse, Hp, elem_of_seq. lia.
  - intros l1 x l2 y E He. apply (f_equal (@rev nat)) in E. rewrite rev_involutive, rev_app_distr in E. cbn in E.
    rewrite <- app_assoc in E. specialize (Htopo _ _ _ _ E He). by rewrite rev_reverse, elem_of_reverse in Htopo.
  - left. split; [done|]. apply (depth_shallow _ _ Hd). intros x Hx. cbn. rewrite rev_reverse, elem_of_reverse, Hp.
    apply elem_of_seq. lia.
Qed.
End depth.

(** ** The by-value relation *)

Definition by_value (g : LGraph) (parent child : nat) : Prop :=
  exists node, lg_types g !! parent = Some node /\ N.of_nat child ∈ by_value_children (tn_kind node).

(** By-value nesting ends within the traversal limit; in particular no type
    contains itself. *)
Definition bounded_nesting (g : LGraph) : Prop :=
  exists height, (forall i j, by_value g i j -> height j < height i) /\
    forall i, height i < N.to_nat MAX_TRAVERSAL_DEPTH.

Lemma by_value_stored kind child : child ∈ by_value_children kind -> child ∈ all_children kind.
Proof. destruct kind; cbn; try done; by intros ?%not_elem_of_nil. Qed.

Lemma elem_of_dedup l x : x ∈ dedup l <-> x ∈ l.
Proof.
  induction l as [|y [|z l] IH]; [done..|]. cbn [dedup]. destruct (Nat.eqb_spec y z) as [->|Hne].
  - rewrite IH. rewrite !elem_of_cons. naive_solver.
  - rewrite elem_of_cons, IH. by rewrite (elem_of_cons (z :: l)).
Qed.

(** The numbering of the nodes, as [assign_type_ids] leaves it *)
Record numbered (g : LGraph) (c : CanonicalMap) : Prop := {
  nb_length : length (cm_raw_to_index c) = length (lg_types g);
  nb_order : cm_type_to_raw c ≡ₚ seq 0 (length (lg_types g));
  nb_index : forall p i, cm_type_to_raw c !! p = Some i -> cm_raw_to_index c !! i = Some (N.of_nat p) }.

Section canonical.
Context (g : LGraph) (Hg : graph_ok g) (c : CanonicalMap) (Hc : numbered g c).
Notation n := (length (lg_types g)).

Lemma order_length : length (cm_type_to_raw c) = n.
Proof. rewrite (nb_order _ _ Hc). apply length_seq. Qed.
Lemma order_raw p : p < n -> exists i, cm_type_to_raw c !! p = Some i /\ i < n.
Proof.
  intros Hp. destruct (lookup_lt_is_Some_2 (cm_type_to_raw c) p) as [i Hi]; [by rewrite order_length|].
  exists i. split; [done|]. apply list_elem_of_lookup_2 in Hi. rewrite (nb_order _ _ Hc), elem_of_seq in Hi. lia.
Qed.
(** Every node has a position. *)
Lemma raw_order i : i < n -> exists p, p < n /\ cm_type_to_raw c !! p = Some i /\ cm_raw_to_index c !! i = Some (N.of_nat p).
Proof.
  intros Hi. assert (i ∈ cm_type_to_raw c) as [p Hp]%list_elem_of_lookup. { rewrite (nb_order _ _ Hc). apply elem_of_seq. lia. }
  exists p. split_and!; [|done|by apply Hc]. rewrite <- order_length. by eapply lookup_lt_Some.
Qed.
Lemma index_order i x : cm_raw_to_index c !! i = Some x -> cm_type_to_raw c !! N.to_nat x = Some i /\ (N.to_nat x < n).
Proof.
  intros H. assert (i < n) as Hi by (rewrite <- (nb_length _ _ Hc); by eapply lookup_lt_Some).
  destruct (raw_order i Hi) as (p & Hp & Ho & Hx). rewrite H in Hx. injection Hx as ->. rewrite Nat2N.id. done.
Qed.
Lemma child_position i node child :
  lg_types g !! i = Some node -> child ∈ all_children (tn_kind node) ->
  exists q, q < n /\ canonical_index c child = Some (N.of_nat q) /\ cm_type_to_raw c !! q = Some (N.to_nat child).
Proof.
  intros Hn Hin. pose proof (child_refers g i node child Hg Hn Hin) as Hlt%refers_lt.
  destruct (raw_order _ Hlt) as (q & Hq & Ho & Hx). by exists q.
Qed.

Lemma canonical_adjacency_spec :
  exists adj, canonical_adjacency g c = Some adj /\ length adj = n /\ wf_graph adj /\
    forall p q i j, cm_type_to_raw c !! p = Some i -> cm_type_to_raw c !! q = Some j -> edge adj p q <-> by_value g i j.
Proof.
  unfold canonical_adjacency.
  match goal with |- context [mapM ?f _] => set (row := f) end.
  assert (forall i, i < n -> exists l, row i = Some l /\ forall q, q ∈ l <->
    exists node child, lg_types g !! i = Some node /\ child ∈ by_value_children (tn_kind node) /\
      canonical_index c child = Some (N.of_nat q)) as Hrow.
  { intros i Hi. destruct (lookup_lt_is_Some_2 (lg_types g) i Hi) as [node Hn]. unfold row. rewrite Hn. cbn [mbind option_bind].
    destruct (mapM_total (fun child => N.to_nat <$> canonical_index c child) (by_value_children (tn_kind node))) as [l Hl].
    { intros child Hin%by_value_stored. destruct (child_position i node child Hn Hin) as (q & _ & Hx & _).
      rewrite Hx. by eexists. }
    rewrite Hl. cbn [mbind option_bind]. eexists. split; [done|]. intros q. rewrite elem_of_dedup. unfold sort_nats.
    rewrite sort_by_perm. apply mapM_Some in Hl. split.
    - intros [k Hk]%list_elem_of_lookup. destruct (Forall2_lookup_r _ _ _ _ _ Hl Hk) as (child & Hin & E).
      exists node, child. split_and!; [done|by eapply list_elem_of_lookup_2|].
      destruct (canonical_index c child) as [x|]; cbn in E; [|done]. injection E as <-. by rewrite N2Nat.id.
    - intros (node' & child & Hn' & [k Hk]%list_elem_of_lookup & Hx). simplify_eq.
      destruct (Forall2_lookup_l _ _ _ _ _ Hl Hk) as (y & Hy & E). rewrite Hx in E. cbn in E. injection E as <-.
      rewrite Nat2N.id in Hy. by eapply list_elem_of_lookup_2. }
  destruct (mapM_total row (cm_type_to_raw c)) as [adj Hadj].
  { intros i Hi. rewrite (nb_order _ _ Hc), elem_of_seq in Hi. destruct (Hrow i) as (l & -> & _); [lia|eauto]. }
  exists adj. split; [done|]. apply mapM_Some in Hadj. pose proof (Forall2_length _ _ _ Hadj) as Hlen. rewrite order_length in Hlen.
  assert (forall p i q, cm_type_to_raw c !! p = Some i -> edge adj p q <->
    exists node child, lg_types g !! i = Some node /\ child ∈ by_value_children (tn_kind node) /\
      canonical_index c child = Some (N.of_nat q)) as Hedge.
  { intros p i q Hp. destruct (Forall2_lookup_l _ _ _ _ _ Hadj Hp) as (l & Hl & E). unfold edge.
    rewrite (list_lookup_total_correct _ _ _ Hl). assert (i < n) as Hi.
    { apply list_elem_of_lookup_2 in Hp. rewrite (nb_order _ _ Hc), elem_of_seq in Hp. lia. }
    destruct (Hrow i Hi) as (l' & E' & Hq). rewrite E in E'. injection E' as <-. apply Hq. }
  split_and!; [done| |].
  - intros p q He. pose proof (edge_source_lt _ _ _ He) as Hp. rewrite <- Hlen in Hp. destruct (order_raw p Hp) as (i & Hi & _).
    apply (Hedge p i q Hi) in He as (node & child & Hn & Hin & Hx). unfold canonical_index in Hx.
    apply index_order in Hx as [_ Hx]. rewrite Nat2N.id in Hx. lia.
  - intros p q i j Hp Hq. rewrite (Hedge p i q Hp). unfold by_value, canonical_index. split.
    + intros (node & child & Hn & Hin & Hx). exists node. split; [done|]. apply index_order in Hx as [Hx _].
      rewrite Nat2N.id, Hq in Hx. injection Hx as ->. by rewrite N2Nat.id.
    + intros (node & Hn & Hin). exists node, (N.of_nat j). split_and!; [done..|]. rewrite Nat2N.id. by apply Hc.
Qed.

(** Heights of the canonical graph and of the nodes *)
Lemma heights_by_value adj height :
  (forall p q i j, cm_type_to_raw c !! p = Some i -> cm_type_to_raw c !! q = Some j -> edge adj p q <-> by_value g i j) ->
  length adj = n -> wf_graph adj -> heights adj height ->
  forall i j, by_value g i j ->
    height (N.to_nat (cm_raw_to_index c).[j]) < height (N.to_nat (cm_raw_to_index c).[i]).
Proof.
  intros Hedge Hl Hwf Hh i j Hij. pose proof Hij as (node & Hn & Hin).
  destruct (raw_order i) as (p & Hp & Ho & Hx); [by eapply lookup_lt_Some|].
  destruct (child_position i node _ Hn (by_value_stored _ _ Hin)) as (q & Hq & Hcq & Hoq). rewrite Nat2N.id in Hoq.
  unfold canonical_index in Hcq. rewrite Nat2N.id in Hcq.
  rewrite (list_lookup_total_correct _ _ _ Hx), (list_lookup_total_correct _ _ _ Hcq), !Nat2N.id.
  apply Hh, (Hedge p q i j); done.
Qed.

Lemma heights_canonical adj height :
  (forall p q i j, cm_type_to_raw c !! p = Some i -> cm_type_to_raw c !! q = Some j -> edge adj p q <-> by_value g i j) ->
  length adj = n -> wf_graph adj -> (forall i j, by_value g i j -> height j < height i) ->
  heights adj (fun p => height (cm_type_to_raw c).[p]).
Proof.
  intros Hedge Hl Hwf Hh p q He. pose proof (edge_source_lt _ _ _ He) as Hp. pose proof (Hwf _ _ He) as Hq.
  destruct (order_raw p) as (i & Hi & _); [lia|]. destruct (order_raw q) as (j & Hj & _); [lia|].
  rewrite (list_lookup_total_correct _ _ _ Hi), (list_lookup_total_correct _ _ _ Hj). apply Hh. by apply (Hedge p q).
Qed.

Lemma shallow_nesting adj :
  (forall p q i j, cm_type_to_raw c !! p = Some i -> cm_type_to_raw c !! q = Some j -> edge adj p q <-> by_value g i j) ->
  length adj = n -> wf_graph adj -> shallow adj <-> bounded_nesting g.
Proof.
  intros Hedge Hl Hwf. split.
  - intros (height & Hh & Hb). exists (fun i => height (N.to_nat (cm_raw_to_index c).[i])). split; [|auto].
    by apply (heights_by_value adj).
  - intros (height & Hh & Hb). exists (fun p => height (cm_type_to_raw c).[p]). split; [|auto]. by apply heights_canonical.
Qed.

(** The check accepts exactly the graphs whose nesting is bounded. *)
Lemma reject_exact :
  (reject_by_value_cycles g c no_errors = (no_errors, Val tt) /\ bounded_nesting g) \/
  (dirty (reject_by_value_cycles g c no_errors).1 /\ (reject_by_value_cycles g c no_errors).2 = Val tt /\ ~ bounded_nesting g).
Proof.
  destruct canonical_adjacency_spec as (adj & Hadj & Hl & Hwf & Hedge).
  rewrite <- (shallow_nesting adj) by done.
  destruct (components_exact adj Hwf) as (finish & comps & Hf & Hp & Hcomp & Hvalid & Hex & Htopo).
  unfold reject_by_value_cycles, pbody.
  rewrite (expect_bind _ _ _ Hadj), (expect_bind _ _ _ Hf), (expect_bind _ _ _ Hcomp).
  pose proof (sort_by_perm nats_leb comps) as Hsort.
  destruct (sort_by nats_leb comps) as [|component rest] eqn:Es.
  - apply Permutation_nil in Hsort. specialize (Htopo Hsort).
    destruct (depths_exact adj Hwf finish Hp Htopo) as [[-> ?]|(H1 & H2 & H3)]; [by left|right].
    destruct (depth_loop _ _ _ no_errors) as [e r]. cbn in *. subst r. done.
  - right. assert (component ∈ comps) as Hin. { rewrite <- Hsort. left. }
    rewrite Forall_forall in Hvalid. destruct (Hvalid _ Hin) as [Hne Hlt].
    destruct (deterministic_cycle_total adj component) as [cycle Hcycle]; [done| |done|done|].
    { unfold len. rewrite Hl. pose proof (go_count _ Hg). unfold len, MAX_TYPE_NODES, u32_max in *. lia. }
    rewrite (expect_bind _ _ _ Hcycle). unfold mbind, PM_bind.
    match goal with |- context [push_error ?d] => destruct (reports_push d) as [Hv Hd] end.
    specialize (Hv no_errors). specialize (Hd no_errors (or_introl eq_refl)).
    destruct (push_error _ no_errors) as [e r]. cbn in *. subst r. cbn. split_and!; [done..|].
    intros (height & Hh & _). assert (comps = []) as -> by (apply Hex; eauto). by apply not_elem_of_nil in Hin.
Qed.
End canonical.
