(* ===== verification/LayoutRecords.v ===== *)
(** * The records of a target

    A reference layout of every kind of type over the records of its children,
    and the proof that [compute_one] computes it. *)
From stdpp Require Import base numbers list list_numbers strings pretty gmap.
From S2P Require Import Prelude Source Diagnostics LayoutData Layout LayoutCycles LayoutCompute LayoutLogic LayoutAcyclic.

(** ** Reference layout *)

(** The least multiple of [alignment] that is not below [value] *)
Definition aligned_above (value alignment result : N) : Prop :=
  (alignment | result)%N /\ (value <= result)%N /\ (result < value + alignment)%N.

Lemma aligned_above_fun a k x y : aligned_above a k x -> aligned_above a k y -> x = y.
Proof.
  intros ([u ->] & H1 & H2) ([v ->] & H3 & H4). destruct (N.lt_trichotomy u v) as [H|[->|H]]; [|done|]; nia.
Qed.

Lemma align_up_above value alignment result :
  checked_align_up value alignment = Some result -> aligned_above value alignment result /\ (result <= u64_max)%N.
Proof.
  unfold checked_align_up, checked_align_up_with_limit. destruct (N.eqb_spec alignment 0) as [|Hz]; [done|].
  destruct (is_power_of_two alignment); [|done]. cbn [orb negb].
  pose proof (N.div_mod value alignment Hz) as Hd. pose proof (N.mod_lt value alignment Hz) as Hm.
  unfold checked_add, aligned_above. generalize dependent (value mod alignment)%N. generalize (value / alignment)%N. intros q m Hd Hm.
  destruct (N.eqb_spec m 0) as [->|E]; cbn [mbind option_bind].
  - destruct (N.leb_spec value u64_max); [|done]. intros [= <-]. split; [|done]. split; [exists q; lia|lia].
  - destruct (N.leb_spec (value + (alignment - m)) u64_max) as [Hle|]; [|done]. cbn [mbind option_bind].
    destruct (N.leb_spec (value + (alignment - m)) u64_max); [|done]. intros [= <-]. split; [|done].
    split; [exists (q + 1)%N; nia|lia].
Qed.

Definition needs_drop (r : LayoutRecord) : bool := negb (lr_drop_kind r =? 0)%N.
Definition any_drop (rs : list LayoutRecord) : bool := existsb needs_drop rs.
Definition max_alignment (rs : list LayoutRecord) : N := foldr N.max 1%N (lr_alignment <$> rs).
Definition max_size (rs : list LayoutRecord) : N := foldr N.max 0%N (lr_size <$> rs).

(** Fields in order, each at the least aligned offset past the previous one *)
Inductive placed : N -> list RawField -> list LayoutRecord -> list VerifiedField -> N -> Prop :=
  | placed_nil cursor : placed cursor [] [] [] cursor
  | placed_cons cursor field fields child children verified offset end_ :
      aligned_above cursor (lr_alignment child) offset ->
      placed (offset + lr_size child) fields children verified end_ ->
      placed cursor (field :: fields) (child :: children)
        (mkVerifiedField (rf_ordinal field) (lr_id child) offset :: verified) end_.

(** Variants with the identities of their payloads *)
Inductive tagged : list RawVariant -> list LayoutRecord -> list VerifiedVariant -> Prop :=
  | tagged_nil : tagged [] [] []
  | tagged_unit variant variants children verified :
      rv_payload variant = None -> tagged variants children verified ->
      tagged (variant :: variants) children (mkVerifiedVariant (rv_ordinal variant) None :: verified)
  | tagged_payload variant variants payload child children verified :
      rv_payload variant = Some payload -> tagged variants children verified ->
      tagged (variant :: variants) (child :: children)
        (mkVerifiedVariant (rv_ordinal variant) (Some (lr_id child)) :: verified).

(** The layout of a node; [child] gives the records of its by-value children and
    [name] the identity of any child. *)
Definition layout_spec (target : StorageTarget) (child : NodeId -> LayoutRecord -> Prop) (name : NodeId -> TypeId -> Prop)
    (kind : TypeKind) (r : LayoutRecord) : Prop :=
  let word := (word_layout target).1 in
  lr_runtime_kind r = lr_drop_kind r /\
  match kind with
  | TkBool => lr_kind r = VkBool /\ lr_size r = 1%N /\ lr_alignment r = 1%N /\ lr_drop_kind r = 0%N
  | TkI32 => lr_kind r = VkI32 /\ lr_size r = 4%N /\ lr_alignment r = 4%N /\ lr_drop_kind r = 0%N
  | TkString => lr_kind r = VkString /\ lr_size r = (word * 3)%N /\ lr_alignment r = word /\ lr_drop_kind r = 2%N
  | TkStruct module declaration fields =>
      exists children verified end_, Forall2 child (rf_ty <$> fields) children /\
        lr_kind r = VkStruct module declaration verified /\ placed 0 fields children verified end_ /\
        lr_alignment r = max_alignment children /\ aligned_above end_ (lr_alignment r) (lr_size r) /\
        lr_drop_kind r = drop_flag (any_drop children)
  | TkEnum module declaration variants =>
      exists children verified offset, Forall2 child (omap rv_payload variants) children /\
        lr_kind r = VkEnum module declaration verified offset (max_size children) /\
        tagged variants children verified /\ aligned_above 4 (max_alignment children) offset /\
        lr_alignment r = N.max 4 (max_alignment children) /\
        aligned_above (offset + max_size children) (lr_alignment r) (lr_size r) /\
        lr_drop_kind r = drop_flag (any_drop children)
  | TkFixedArray element length =>
      exists c stride, child element c /\ lr_kind r = VkFixedArray (lr_id c) length stride /\
        aligned_above (lr_size c) (lr_alignment c) stride /\ lr_size r = (stride * length)%N /\
        lr_alignment r = lr_alignment c /\ lr_drop_kind r = drop_flag (needs_drop c)
  | TkVec element =>
      exists id, name element id /\ lr_kind r = VkVec id /\ lr_size r = (word * 3)%N /\ lr_alignment r = word /\
        lr_drop_kind r = 3%N
  | TkShared payload =>
      exists id, name payload id /\ lr_kind r = VkShared id /\ lr_size r = word /\ lr_alignment r = word /\ lr_drop_kind r = 4%N
  | TkWeak payload =>
      exists id, name payload id /\ lr_kind r = VkWeak id /\ lr_size r = word /\ lr_alignment r = word /\ lr_drop_kind r = 5%N
  | TkBorrow _ => False
  end.

Lemma layout_spec_mono target child child' name kind r :
  (forall id c, child id c -> child' id c) -> layout_spec target child name kind r -> layout_spec target child' name kind r.
Proof.
  intros H [Hr Hs]. split; [done|]. destruct kind; try done.
  - destruct Hs as (cs & v & e & HF & Hs). exists cs, v, e. split; [|done]. eapply Forall2_impl; eauto.
  - destruct Hs as (cs & v & e & HF & Hs). exists cs, v, e. split; [|done]. eapply Forall2_impl; eauto.
  - destruct Hs as (cr & st & Hc & Hs). exists cr, st. split; [auto|done].
Qed.

(** ** A computation that reports and returns, or leaves the state and a value *)

Definition shaped_records (g : LGraph) (s : RecordState) : Prop :=
  length (rs_records s) = length (lg_types g) /\ length (rs_visiting s) = length (lg_types g).

Section outcome.
Context (g : LGraph).

Definition computed {A} (F : A -> Prop) (s s' : RecordState) (r : outcome A) : Prop :=
  match r with
  | Val a => s' = s /\ F a
  | Return => shaped_records g s' /\ rs_records s' = rs_records s /\ dirty (rs_errors s')
  | Panic => False
  end.
Definition computes {A} (m : PM RecordState A) (F : A -> Prop) (s : RecordState) : Prop := pwp m (computed F s) s.

Lemma computes_ret {A} (a : A) (F : A -> Prop) s : F a -> computes (mret a) F s.
Proof. intros H. by split. Qed.
Lemma computes_bind {A B} (m : PM RecordState A) (f : A -> PM RecordState B) F G s :
  computes m F s -> (forall a, F a -> computes (f a) G s) -> computes (m ≫= f) G s.
Proof.
  intros Hm Hf. apply pwp_bind. unfold computes in Hm. eapply pwp_mono; [exact Hm|]. intros s' [a| |]; [|done..]. intros [-> Ha]. by apply Hf.
Qed.
Lemma computes_mono {A} (m : PM RecordState A) (F G : A -> Prop) s :
  computes m F s -> (forall a, F a -> G a) -> computes m G s.
Proof. intros Hm HG. unfold computes in Hm. eapply pwp_mono; [exact Hm|]. intros s' [a| |]; [|done..]. intros [-> Ha]. split; auto. Qed.
Lemma computes_expect {A} (o : option A) a s : o = Some a -> computes (expect o) (fun x => x = a) s.
Proof. intros ->. by split. Qed.

Lemma failing_post p m s :
  reports m -> shaped_records g s -> rs_errors s = no_errors ->
  pwp (failing p m) (fun s' r => r = Val tt /\ shaped_records g s' /\ rs_records s' = rs_records s /\ dirty (rs_errors s')) s.
Proof.
  intros [Hv Hd] [H1 H2] He. unfold failing, pwp, mbind, PM_bind, record_errors. specialize (Hv (rs_errors s)).
  specialize (Hd (rs_errors s)). destruct (m (rs_errors s)) as [e r]. cbn in *. subst r. cbn. split_and!; [done| | |].
  - split; cbn; [done|by rewrite length_insert].
  - done.
  - apply Hd. left. by rewrite He.
Qed.

Section at_clean.
Context (s : RecordState) (Hs : shaped_records g s) (He : rs_errors s = no_errors).

Lemma computes_or_else {A} p (o : option A) m : reports m -> computes (or_else o (failing p m)) (fun a => o = Some a) s.
Proof.
  intros Hm. destruct o as [a|]; cbn [or_else]; [by apply computes_ret|]. apply pwp_bind.
  eapply pwp_mono; [by apply failing_post|]. intros s' r (-> & H). exact H.
Qed.
Lemma computes_guard p b m : reports m -> computes (pwhen b (failing p m;; preturn)) (fun _ => b = false) s.
Proof.
  intros Hm. destruct b; cbn [pwhen]; [|by apply computes_ret]. apply pwp_bind.
  eapply pwp_mono; [by apply failing_post|]. intros s' r (-> & H). exact H.
Qed.
End at_clean.
End outcome.

Lemma reports_overflow span label : reports (layout_overflow span label).
Proof. apply reports_push. Qed.
#[export] Hint Resolve reports_push reports_overflow : tame.

(** ** The record of a node *)

Section node.
Context (g : LGraph) (c : CanonicalMap) (target : StorageTarget).

Definition child_in (records : list (option LayoutRecord)) (id : NodeId) (r : LayoutRecord) : Prop :=
  exists q, canonical_index c id = Some q /\ get records q = Some (Some r).
Definition name_of (id : NodeId) (t : TypeId) : Prop :=
  exists q, canonical_index c id = Some q /\ t = mkTypeId (cm_universe c) q.

Lemma resolved_child records id r : child_in records id r -> resolved_record id c records = Some (Some r).
Proof. intros (q & Hq & Hr). unfold resolved_record. rewrite Hq. cbn. by rewrite Hr. Qed.

Context (s : RecordState) (Hs : shaped_records g s) (He : rs_errors s = no_errors) (p : nat) (node : TypeNode) (id : TypeId).
Notation records := (rs_records s).
Notation runs m F := (computes g m F s).

Lemma checked_storage_Some a b limit x : checked_storage_add a b limit = Some x -> x = (a + b)%N /\ (x <= limit)%N.
Proof.
  unfold checked_storage_add, checked_add. destruct (_ <=? u64_max)%N; [|done].
  destruct (N.leb_spec (a + b) limit); naive_solver.
Qed.
Lemma checked_product_Some a b limit x : checked_storage_mul a b limit = Some x -> x = (a * b)%N /\ (x <= limit)%N.
Proof.
  unfold checked_storage_mul, checked_mul. destruct (_ <=? u64_max)%N; [|done].
  destruct (N.leb_spec (a * b) limit); naive_solver.
Qed.

Lemma struct_fields_spec fields cursor alignment verified drops :
  (1 <= alignment)%N -> (forall f, f ∈ fields -> exists r, child_in records (rf_ty f) r) ->
  runs (struct_fields c records (failing p) node fields cursor alignment verified drops) (fun res =>
    exists children vs, Forall2 (child_in records) (rf_ty <$> fields) children /\
      placed cursor fields children vs res.1.1.1 /\ res.1.1.2 = N.max alignment (max_alignment children) /\
      res.1.2 = verified ++ vs /\ res.2 = drops || any_drop children).
Proof.
  revert cursor alignment verified drops. induction fields as [|f fields IH]; intros cursor alignment verified drops Ha Hf;
    cbn [struct_fields].
  { apply computes_ret. exists [], []. cbn. rewrite app_nil_r, orb_false_r. split_and!; try done; [constructor|lia]. }
  destruct (Hf f) as [child Hchild]; [by left|].
  eapply computes_bind; [by apply computes_expect, resolved_child|]. intros o ->.
  eapply computes_bind; [apply computes_or_else; auto with tame|]. intros child' [= <-].
  eapply computes_bind; [apply computes_or_else; auto with tame|]. intros offset [Hoff _]%align_up_above.
  eapply computes_bind; [apply computes_or_else; auto with tame|]. intros next [-> Hnext]%checked_storage_Some.
  eapply computes_bind; [apply computes_guard; auto with tame|]. intros _ _.
  eapply computes_mono; [apply IH; [lia|intros; apply Hf; by right]|]. cbn beta.
  intros res (children & vs & HF & Hpl & Hal & Hver & Hdrop).
  exists (child :: children), (mkVerifiedField (rf_ordinal f) (lr_id child) offset :: vs).
  rewrite Hal, Hver, Hdrop. cbn [fmap list_fmap]. split_and!.
  - by constructor.
  - by constructor.
  - unfold max_alignment. cbn. lia.
  - by rewrite <- app_assoc.
  - cbn. by rewrite orb_assoc.
Qed.

Lemma enum_variants_spec variants alignment size verified drops :
  (1 <= alignment)%N -> (forall id, id ∈ omap rv_payload variants -> exists r, child_in records id r) ->
  exists children vs, Forall2 (child_in records) (omap rv_payload variants) children /\ tagged variants children vs /\
    enum_variants c records variants alignment size verified drops
    = Some (N.max alignment (max_alignment children), N.max size (max_size children), verified ++ vs, drops || any_drop children).
Proof.
  revert alignment size verified drops. induction variants as [|v variants IH]; intros alignment size verified drops Ha Hf;
    cbn [enum_variants].
  { exists [], []. cbn. rewrite app_nil_r, orb_false_r. split_and!; [constructor..|]. do 4 f_equal; lia. }
  cbn [omap list_omap] in *. destruct (rv_payload v) as [payload|] eqn:Ep.
  - destruct (Hf payload) as [child Hchild]; [by left|]. rewrite (resolved_child _ _ _ Hchild). cbn [mjoin option_join mbind option_bind].
    destruct (IH (N.max alignment (lr_alignment child)) (N.max size (lr_size child))
      (verified ++ [mkVerifiedVariant (rv_ordinal v) (Some (lr_id child))]) (drops || negb (lr_drop_kind child =? 0)%N))
      as (children & vs & HF & Ht & ->); [lia|intros; apply Hf; by right|].
    exists (child :: children), (mkVerifiedVariant (rv_ordinal v) (Some (lr_id child)) :: vs). split_and!.
    + by constructor.
    + by econstructor.
    + unfold max_alignment, max_size, any_drop, needs_drop. cbn. rewrite <- app_assoc, orb_assoc. do 4 f_equal; lia.
  - destruct (IH alignment size (verified ++ [mkVerifiedVariant (rv_ordinal v) None]) drops Ha Hf)
      as (children & vs & HF & Ht & ->).
    exists children, (mkVerifiedVariant (rv_ordinal v) None :: vs). split_and!; [done|by constructor|].
    by rewrite <- app_assoc.
Qed.

Lemma struct_record_spec m d fields :
  (forall i, i ∈ rf_ty <$> fields -> exists r, child_in records i r) ->
  runs (struct_record c records (failing p) node id m d fields)
    (fun r => lr_id r = id /\ layout_spec target (child_in records) name_of (TkStruct m d fields) r).
Proof.
  intros Hc. unfold struct_record. eapply computes_bind.
  { apply struct_fields_spec; [done|]. intros f Hf. apply Hc, list_elem_of_fmap. eauto. }
  intros [[[cursor alignment] verified] drops] (children & vs & HF & Hpl & Hal & Hver & Hdrop). cbn in Hpl, Hal, Hver, Hdrop. subst.
  eapply computes_bind; [apply computes_or_else; auto with tame|]. intros size [Hsize _]%align_up_above.
  assert (N.max 1 (max_alignment children) = max_alignment children) as E.
  { unfold max_alignment. clear. induction (lr_alignment <$> children); cbn; lia. }
  rewrite E in *. apply computes_ret. split; [done|]. split; [done|]. exists children, vs, cursor. by split_and!.
Qed.

Lemma enum_record_spec m d variants :
  (forall i, i ∈ omap rv_payload variants -> exists r, child_in records i r) ->
  runs (enum_record c records (failing p) node id m d variants)
    (fun r => lr_id r = id /\ layout_spec target (child_in records) name_of (TkEnum m d variants) r).
Proof.
  intros Hc. unfold enum_record.
  destruct (enum_variants_spec variants 1 0 [] false) as (children & vs & HF & Ht & E); [done|done|].
  eapply computes_bind; [by apply (computes_expect g _ _ s E)|]. intros r ->.
  assert (N.max 1 (max_alignment children) = max_alignment children) as E1.
  { unfold max_alignment. clear. induction (lr_alignment <$> children); cbn; lia. }
  rewrite E1, N.max_0_l, app_nil_l, orb_false_l.
  eapply computes_bind; [apply computes_or_else; auto with tame|]. intros offset [Hoff _]%align_up_above.
  eapply computes_bind; [apply computes_or_else; auto with tame|]. intros end_ [-> Hend]%checked_storage_Some.
  eapply computes_bind; [apply computes_or_else; auto with tame|]. intros size [Hsize _]%align_up_above.
  eapply computes_bind; [apply computes_guard; auto with tame|]. intros _ _.
  apply computes_ret. split; [done|]. split; [done|]. exists children, vs, offset. by split_and!.
Qed.

Lemma array_record_spec element length :
  (exists r, child_in records element r) ->
  runs (array_record c records (failing p) node id element length)
    (fun r => lr_id r = id /\ layout_spec target (child_in records) name_of (TkFixedArray element length) r).
Proof.
  intros [child Hchild]. unfold array_record.
  eapply computes_bind; [by apply (computes_expect g _ child); rewrite (resolved_child _ _ _ Hchild)|].
  intros r ->.
  eapply computes_bind; [apply computes_or_else; auto with tame|]. intros stride [Hstride _]%align_up_above.
  eapply computes_bind; [apply computes_or_else; auto with tame|]. intros size [-> Hsize]%checked_product_Some.
  eapply computes_bind; [apply computes_guard; auto with tame|]. intros _ _.
  apply computes_ret. split; [done|]. split; [done|]. exists child, stride. by split_and!.
Qed.

Lemma type_id_name e q : canonical_index c e = Some q -> type_id c (N.to_nat e) = Some (mkTypeId (cm_universe c) q).
Proof. intros H. unfold type_id. unfold canonical_index in H. by rewrite H. Qed.

Lemma node_record_spec :
  (forall i, i ∈ by_value_children (tn_kind node) -> exists r, child_in records i r) ->
  (forall i, i ∈ all_children (tn_kind node) -> exists q, canonical_index c i = Some q /\ (N.to_nat q < length (lg_types g))) ->
  (forall e, tn_kind node <> TkBorrow e) ->
  runs (node_record c target records (failing p) node id)
    (fun r => lr_id r = id /\ layout_spec target (child_in records) name_of (tn_kind node) r).
Proof.
  intros Hv Ha Hb. unfold node_record.
  destruct (tn_kind node) as [| | |m d fields|m d variants|e n|e|e|e|e] eqn:Ek; cbn [by_value_children all_children] in *.
  - by apply computes_ret.
  - by apply computes_ret.
  - destruct target; by apply computes_ret.
  - by apply struct_record_spec.
  - by apply enum_record_spec.
  - apply array_record_spec, Hv. by apply list_elem_of_singleton.
  - destruct (Ha e) as (q & Hq & Hlt); [by apply list_elem_of_singleton|]. unfold vec_record.
    eapply computes_bind; [by apply (computes_expect g _ _ s (type_id_name e q Hq))|]. intros t ->.
    destruct (lookup_lt_is_Some_2 records (N.to_nat q)) as [o Ho]; [by rewrite (proj1 Hs)|].
    eapply computes_bind; [by apply (computes_expect g _ o s Ho)|]. intros o' ->.
    eapply computes_bind; [apply computes_guard; auto with tame|]. intros _ _.
    destruct target; (apply computes_ret; split; [done|]; split; [done|]; eexists; split; [by exists q|done]).
  - destruct (Ha e) as (q & Hq & Hlt); [by apply list_elem_of_singleton|]. unfold handle_record.
    eapply computes_bind; [by apply (computes_expect g _ _ s (type_id_name e q Hq))|]. intros t ->.
    destruct target; (apply computes_ret; split; [done|]; split; [done|]; eexists; split; [by exists q|done]).
  - destruct (Ha e) as (q & Hq & Hlt); [by apply list_elem_of_singleton|]. unfold handle_record.
    eapply computes_bind; [by apply (computes_expect g _ _ s (type_id_name e q Hq))|]. intros t ->.
    destruct target; (apply computes_ret; split; [done|]; split; [done|]; eexists; split; [by exists q|done]).
  - by destruct (Hb e).
Qed.
End node.

(** ** [compute_one] *)

Section compute.
Context (g : LGraph) (Hg : graph_ok g) (c : CanonicalMap) (Hc : numbered g c) (target : StorageTarget).
Context (stored : forall i node e, lg_types g !! i = Some node -> tn_kind node <> TkBorrow e).
Notation n := (length (lg_types g)).

(** A record is the layout of its node over the records of the table. *)
Definition record_ok (records : list (option LayoutRecord)) (p : nat) (r : LayoutRecord) : Prop :=
  exists i node, cm_type_to_raw c !! p = Some i /\ lg_types g !! i = Some node /\
    lr_id r = mkTypeId (cm_universe c) (N.of_nat p) /\
    layout_spec target (child_in c records) (name_of c) (tn_kind node) r /\ record_accepted r = true.
Definition records_inv (records : list (option LayoutRecord)) : Prop :=
  forall p r, records !! p = Some (Some r) -> record_ok records p r.
Definition good (s : RecordState) : Prop := rs_errors s = no_errors /\ records_inv (rs_records s).
(** Records stay, and those of the nodes in progress are not touched. *)
Definition grows (s s' : RecordState) : Prop :=
  (forall p r, rs_records s !! p = Some (Some r) -> rs_records s' !! p = Some (Some r)) /\
  (forall p, rs_visiting s !! p = Some true -> rs_records s' !! p = rs_records s !! p).
Definition recorded (s : RecordState) (p : nat) : Prop := exists r, rs_records s !! p = Some (Some r).

(** From a good state, a run reports or records what it is asked for. *)
Definition records_step (want : RecordState -> Prop) (s s' : RecordState) (r : outcome unit) : Prop :=
  r = Val tt /\ shaped_records g s' /\ records_inv (rs_records s') /\
  (dirty (rs_errors s') \/ (good s /\ good s' /\ grows s s' /\ rs_visiting s' = rs_visiting s /\ want s')).

Lemma record_ok_insert records p r q x :
  records !! p = Some None -> record_ok records q x -> record_ok (<[p := Some r]> records) q x.
Proof.
  intros Hp (i & node & Hi & Hn & Hid & Hspec & Hacc). exists i, node. split_and!; [done..| |done].
  eapply layout_spec_mono; [|exact Hspec]. intros id child (k & Hk & Hr). exists k. split; [done|]. unfold get in *.
  rewrite list_lookup_insert_ne; [done|]. intros ->. congruence.
Qed.

Lemma records_inv_insert records p r :
  p < length records -> records !! p = Some None -> records_inv records -> record_ok records p r ->
  records_inv (<[p := Some r]> records).
Proof.
  intros Hlt Hp Hinv Hr q x Hq. apply record_ok_insert; [done|]. destruct (decide (p = q)) as [->|Hne].
  - rewrite list_lookup_insert_eq in Hq by done. by injection Hq as <-.
  - rewrite list_lookup_insert_ne in Hq by done. by apply Hinv.
Qed.

Context (height : nat -> nat).
Context (descends : forall p i node child q, cm_type_to_raw c !! p = Some i -> lg_types g !! i = Some node ->
  child ∈ by_value_children (tn_kind node) -> canonical_index c child = Some q -> height (N.to_nat q) < height p).

(** Nodes in progress are above the node being computed. *)
Definition below (p : nat) (s : RecordState) : Prop := forall q, rs_visiting s !! q = Some true -> height p < height q.
Definition ready (p : nat) (s : RecordState) : Prop :=
  shaped_records g s /\ records_inv (rs_records s) /\ (dirty (rs_errors s) \/ (good s /\ below p s)).

Definition one_spec (fuel : nat) : Prop := forall p s,
  p < n -> height p < fuel -> ready p s ->
  pwp (compute_one fuel g c target p) (records_step (fun s' => recorded s' p) s) s.

Lemma step_refl (want : RecordState -> Prop) s :
  shaped_records g s -> records_inv (rs_records s) -> dirty (rs_errors s) \/ (good s /\ want s) ->
  records_step want s s (Val tt).
Proof.
  intros Hs Hi H. split; [done|]. split; [done|]. split; [done|]. destruct H as [H|[H1 H2]]; [by left|right].
  split; [done|]. split; [done|]. split; [by split|done].
Qed.

Lemma children_step fuel p i node l s :
  one_spec fuel -> height p <= fuel -> cm_type_to_raw c !! p = Some i -> lg_types g !! i = Some node ->
  (forall child, child ∈ l -> child ∈ by_value_children (tn_kind node)) ->
  shaped_records g s -> records_inv (rs_records s) ->
  (dirty (rs_errors s) \/ (good s /\ forall q, rs_visiting s !! q = Some true -> height p <= height q)) ->
  pwp (pfor_each l (fun child => child_type ← expect (canonical_index c child); compute_one fuel g c target (N.to_nat child_type)))
    (records_step (fun s' => forall child, child ∈ l -> exists r, child_in c (rs_records s') child r) s) s.
Proof.
  intros Hone Hf Hi Hn. revert s. induction l as [|child l IH]; intros s Hl Hs Hri Hok; cbn [pfor_each].
  { apply step_refl; [done|done|]. destruct Hok as [?|[Hgood _]]; [by left|right]. split; [done|]. by intros x ?%not_elem_of_nil. }
  assert (child ∈ by_value_children (tn_kind node)) as Hin by (apply Hl; left).
  destruct (child_position g Hg c Hc i node child Hn (by_value_stored _ _ Hin)) as (q & Hq & Hx & _).
  pose proof (descends p i node child _ Hi Hn Hin Hx) as Hdesc. rewrite Nat2N.id in Hdesc.
  apply pwp_bind. rewrite (expect_bind _ _ _ Hx), Nat2N.id.
  eapply pwp_mono; [apply (Hone q s); [done|lia|]|].
  { split; [done|]. split; [done|]. destruct Hok as [?|[Hgood Hb]]; [by left|right]. split; [done|].
    intros y Hy. specialize (Hb y Hy). lia. }
  intros s1 r (-> & Hs1 & Hri1 & H1). eapply pwp_mono; [apply (IH s1); [intros; apply Hl; by right|done|done|]|].
  { destruct H1 as [?|([E _] & Hg1 & _ & Hv & _)]; [by left|right]. split; [done|]. intros y. rewrite Hv.
    destruct Hok as [Hd|[_ Hb]]; [|by apply Hb]. rewrite E in Hd. by destruct Hd. }
  intros s2 r (-> & Hs2 & Hri2 & H2). split; [done|]. split; [done|]. split; [done|]. destruct H2 as [?|(Hg1 & Hg2 & Hgr & Hv2 & Hall)]; [by left|].
  destruct H1 as [Hd|(Hgood & _ & Hgr1 & Hv1 & [r Hr])].
  { destruct Hg1 as [E _]. rewrite E in Hd. by destruct Hd. }
  right. split_and!; [done|done| |congruence|].
  - destruct Hgr as [Ga Gb], Hgr1 as [Gc Gd]. split; [auto|]. intros y Hy. rewrite Gb by (by rewrite Hv1). auto.
  - intros x [->|Hx']%elem_of_cons; [|auto]. exists r. exists (N.of_nat q). split; [done|]. unfold get. rewrite Nat2N.id. by apply Hgr.
Qed.

(** The end of [compute_one]: the record is stored or refused, the mark cleared. *)
Lemma store_step p i node s s2 record :
  shaped_records g s2 -> p < n -> rs_records s !! p = Some None -> rs_visiting s !! p = Some false ->
  good s -> good s2 -> grows (mkRecordState (rs_records s) (<[p := true]> (rs_visiting s)) (rs_errors s)) s2 ->
  rs_visiting s2 = <[p := true]> (rs_visiting s) ->
  cm_type_to_raw c !! p = Some i -> lg_types g !! i = Some node ->
  lr_id record = mkTypeId (cm_universe c) (N.of_nat p) ->
  layout_spec target (child_in c (rs_records s2)) (name_of c) (tn_kind node) record ->
  pwp ((if record_accepted record then set_record p record
        else record_errors (layout_overflow (tn_span node) "stored layout limit"));; set_visiting p false)
    (records_step (fun s' => recorded s' p) s) s2.
Proof.
  intros Hs2 Hp Hnone Hidle Hgs [He Hinv] [Ga Gb] Hv Hi Hn Hid Hspec. destruct Hs2 as [L1 L2]. cbn in Ga, Gb.
  assert (p < length (rs_visiting s)) as Hpv by (by eapply lookup_lt_Some).
  assert (rs_records s2 !! p = Some None) as Hn2. { rewrite Gb by (by apply list_lookup_insert_eq). done. }
  destruct (record_accepted record) eqn:Hacc.
  - unfold pwp, mbind, PM_bind, set_record, set_visiting, pmodify. cbn.
    assert (records_inv (<[p := Some record]> (rs_records s2))) as Hri3.
    { apply records_inv_insert; [lia|done|done|]. exists i, node. done. }
    split; [done|]. split; [split; cbn; by rewrite length_insert|]. split; [done|]. right. split_and!; [done|by split| | |].
    + split; cbn; intros q.
      * intros x Hq. rewrite list_lookup_insert_ne; [by apply Ga|]. intros ->. congruence.
      * intros Hq. rewrite list_lookup_insert_ne by (intros ->; congruence). apply Gb.
        by rewrite list_lookup_insert_ne by (intros ->; congruence).
    + cbn. rewrite Hv, list_insert_insert_eq. by apply list_insert_id.
    + exists record. cbn. apply list_lookup_insert_eq. lia.
  - unfold pwp, mbind, PM_bind, record_errors. destruct (reports_overflow (tn_span node) "stored layout limit") as [Hval Hd].
    specialize (Hval (rs_errors s2)). specialize (Hd (rs_errors s2)). destruct (layout_overflow _ _ _) as [e r]. cbn in *. subst r.
    cbn. split; [done|]. split; [split; cbn; [done|by rewrite length_insert]|]. split; [done|]. left. cbn. apply Hd. left. by rewrite He.
Qed.

Lemma one_step fuel : one_spec fuel -> one_spec (S fuel).
Proof.
  intros IH p s Hp Hf ([L1 L2] & Hri & Hok). cbn [compute_one]. apply pwp_pbody, pwp_bind. unfold pwp at 1, pgets. cbn [fst snd].
  destruct (lookup_lt_is_Some_2 (rs_records s) p) as [o Ho]; [by rewrite L1|]. rewrite (expect_bind _ _ _ Ho).
  destruct o as [r|]; cbn [pwhen].
  { rewrite bool_decide_true by eauto. apply pwp_bind. unfold pwp, preturn. cbn [fst snd].
    apply step_refl; [done|done|]. destruct Hok as [?|[Hgood _]]; [by left|right]. split; [done|by exists r]. }
  rewrite bool_decide_false by (by intros [? ?]). cbn [pwhen]. rewrite ret_bind. apply pwp_bind. unfold pwp at 1, pgets. cbn [fst snd].
  destruct (lookup_lt_is_Some_2 (rs_visiting s) p) as [v Hv]; [by rewrite L2|]. rewrite (expect_bind _ _ _ Hv).
  destruct v; cbn [pwhen].
  { apply pwp_bind. unfold pwp, preturn. cbn [fst snd]. apply step_refl; [done|done|].
    destruct Hok as [?|[_ Hb]]; [by left|]. specialize (Hb p Hv). lia. }
  rewrite ret_bind. apply pwp_bind. unfold pwp at 1, set_visiting, pmodify. cbn [fst snd].
  destruct (order_raw g c Hc p Hp) as (i & Hi & Hin). rewrite (expect_bind _ _ _ Hi).
  destruct (lookup_lt_is_Some_2 (lg_types g) i Hin) as [node Hn]. rewrite (expect_bind _ _ _ Hn).
  set (s1 := mkRecordState _ _ _).
  apply pwp_bind. eapply pwp_mono; [apply (children_step fuel p i node _ s1); [done|lia|done|done|done| |done|]|].
  { split; cbn; [done|by rewrite length_insert]. }
  { cbn. destruct Hok as [?|[Hgood Hb]]; [by left|right]. split; [done|]. intros q Hq.
    destruct (decide (p = q)) as [->|Hne]; [done|]. rewrite list_lookup_insert_ne in Hq by done. specialize (Hb q Hq). lia. }
  intros s2 r (-> & Hs2 & Hri2 & H2). apply pwp_bind. unfold pwp at 1, pgets. cbn [fst snd].
  destruct (le_is_empty (rs_errors s2)) eqn:Eempty; cbn [negb pwhen].
  2:{ apply pwp_bind, pwp_bind. unfold pwp, set_visiting, pmodify, preturn. cbn. split; [done|]. split; [|split; [done|]].
      - destruct Hs2. split; cbn; [done|by rewrite length_insert].
      - left. cbn. unfold dirty, le_is_empty in *. by destruct (le_diagnostics (rs_errors s2)). }
  rewrite ret_bind. destruct H2 as [Hd|(Hg1 & Hg2 & Hgr & Hv2 & Hall)].
  { unfold dirty, le_is_empty in *. by destruct (le_diagnostics (rs_errors s2)). }
  rewrite (expect_bind _ _ (N.of_nat p)).
  2:{ apply try_u32_Some. split; [done|]. pose proof (go_count _ Hg). unfold len, MAX_TYPE_NODES, u32_max in *. lia. }
  apply pwp_bind. unfold pwp at 1. cbn [fst snd].
  assert (good s) as Hgs. { destruct Hg1 as [E _]. cbn in E. destruct Hok as [Hd|[? _]]; [|done]. rewrite E in Hd. by destruct Hd. }
  apply pwp_bind. eapply pwp_mono; [apply (node_record_spec g c target s2 Hs2 (proj1 Hg2) p node); [done| |eauto]|].
  { intros e Hein. destruct (child_position g Hg c Hc i node e Hn Hein) as (q & Hq & Hx & _). exists (N.of_nat q).
    rewrite Nat2N.id. done. }
  intros s3 [record| |]; [intros [-> [Hid Hspec]]|intros (Hs3 & Er & Hd); split; [done|]; split; [done|]; split; [by rewrite Er|by left]|done].
  eapply pwp_mono; [apply (store_step p i node s s2 record); done|]. by intros s4 r (-> & H).
Qed.

Lemma one_spec_all fuel : one_spec fuel.
Proof. induction fuel as [|fuel IH]; [intros p s _ ?; lia|by apply one_step]. Qed.

(** ** [compute_records] *)

Context (bounded : forall p, height p < N.to_nat MAX_TRAVERSAL_DEPTH).

Definition idle (s : RecordState) : Prop := forall q, rs_visiting s !! q <> Some true.

Lemma record_loop_post l s :
  (forall p, p ∈ l -> p < n) -> shaped_records g s -> records_inv (rs_records s) -> dirty (rs_errors s) \/ (good s /\ idle s) ->
  pwp (pfor_each l (fun type_index =>
         compute_one record_fuel g c target type_index;;
         exhausted ← pgets (fun s => le_fatal (rs_errors s));
         pwhen (exhausted : bool) preturn))
    (fun s' r => r <> Panic /\ shaped_records g s' /\ records_inv (rs_records s') /\ (dirty (rs_errors s') \/
       (good s /\ r = Val tt /\ good s' /\ grows s s' /\ forall p, p ∈ l -> recorded s' p))) s.
Proof.
  revert s. induction l as [|p l IH]; intros s Hl Hs Hri Hok; cbn [pfor_each].
  { split; [done|]. split; [done|]. split; [done|]. destruct Hok as [?|[Hgood _]]; [by left|right].
    split; [done|]. split; [done|]. split; [done|]. split; [by split|by intros p ?%not_elem_of_nil]. }
  apply pwp_bind, pwp_bind. eapply pwp_mono; [apply (one_spec_all record_fuel p s)|].
  { apply Hl. left. }
  { specialize (bounded p). unfold record_fuel. lia. }
  { split; [done|]. split; [done|]. destruct Hok as [?|[Hgood Hidle]]; [by left|right]. split; [done|].
    intros q Hq. by destruct (Hidle q). }
  intros s1 r (-> & Hs1 & Hri1 & H1). apply pwp_bind. unfold pwp at 1, pgets. cbn [fst snd].
  assert (dirty (rs_errors s1) \/ (good s1 /\ idle s1)) as Hok1.
  { destruct H1 as [?|([E _] & Hg1 & _ & Hv1 & _)]; [by left|right]. split; [done|]. intros q. rewrite Hv1.
    destruct Hok as [Hd|[_ Hidle]]; [|apply Hidle]. rewrite E in Hd. by destruct Hd. }
  destruct (le_fatal (rs_errors s1)) eqn:Ef; cbn [pwhen].
  { unfold pwp, preturn. cbn [fst snd]. split; [done|]. split; [done|]. split; [done|left]. destruct Hok1 as [?|[[E _] _]]; [done|]. by rewrite E in Ef. }
  unfold pwp at 1. cbn [mret PM_ret fst snd]. eapply pwp_mono; [apply (IH s1); [intros; apply Hl; by right|done|done|done]|].
  intros s2 r (Hr & Hs2 & Hri2 & H2). split; [done|]. split; [done|]. split; [done|]. destruct H2 as [?|([E1 _] & -> & Hg2 & [Gc Gd] & Hall)]; [by left|].
  destruct H1 as [Hd|(Hgs & _ & [Ga Gb] & Hv1 & [x Hx])]; [rewrite E1 in Hd; by destruct Hd|right].
  split; [done|]. split; [done|]. split; [done|]. split.
  - split; [auto|]. intros y Hy. rewrite Gd by (by rewrite Hv1). auto.
  - intros y [->|Hy]%elem_of_cons; [|auto]. exists x. by apply Gc.
Qed.

(** The final check of vectors *)
Definition vec_ok (all : list LayoutRecord) (r : LayoutRecord) : Prop :=
  forall e, lr_kind r = VkVec e -> exists x, get all (ti_index e) = Some x /\ lr_size x <> 0%N.

Lemma check_vec_verdict all l :
  (forall r e, r ∈ l -> lr_kind r = VkVec e -> is_Some (get all (ti_index e))) ->
  verdict (check_vec_elements all l) (fun _ => Forall (vec_ok all) l).
Proof.
  intros H. induction l as [|r l IH]; cbn [check_vec_elements]; [by apply verdict_ret|].
  assert (verdict (check_vec_elements all l) (fun _ => Forall (vec_ok all) l)) as IH' by (apply IH; intros; eapply H; [by right|done]).
  eapply verdict_bind with (F := fun _ => vec_ok all r); [| |].
  - destruct (lr_kind r) as [| | | | | |e| |] eqn:Ek; try (apply verdict_ret; unfold vec_ok; congruence).
    destruct (H r e) as [x Hx]; [by left|done|]. rewrite (expect_bind _ _ x Hx).
    eapply verdict_mono; [apply verdict_guard, verdict_seq_dirty; [apply verdict_push|apply tame_return]|].
    cbn. intros _ Hz%N.eqb_neq e' E. rewrite Ek in E. injection E as <-. eauto.
  - intros _. by eapply verdict_tame.
  - cbn. intros _ Hr. eapply verdict_mono; [exact IH'|]. intros u Hall. by constructor.
Qed.

(** What a computed table satisfies *)
Record table_ok (rs : list LayoutRecord) : Prop := {
  to_length : length rs = n;
  to_record : forall p r, rs !! p = Some r -> record_ok (Some <$> rs) p r;
  to_vec : Forall (vec_ok rs) rs }.

Lemma vec_element_name child name kind r e :
  layout_spec target child name kind r -> lr_kind r = VkVec e -> exists element, kind = TkVec element /\ name element e.
Proof.
  intros [_ H] E. destruct kind as [| | | | | |el| | |]; cbn in H;
    try (exfalso; decompose [ex and] H; first [done|congruence]).
  destruct H as (id & Hid & Hk & _). exists el. split; [done|]. congruence.
Qed.

Lemma vec_elements_known rs r e :
  records_inv (Some <$> rs) -> length rs = n -> r ∈ rs -> lr_kind r = VkVec e -> is_Some (get rs (ti_index e)).
Proof.
  intros Hinv Hl [p Hp]%list_elem_of_lookup Ek. destruct (Hinv p r) as (i & node & Hi & Hn & _ & Hspec & _).
  { by rewrite list_lookup_fmap, Hp. }
  destruct (vec_element_name _ _ _ _ _ Hspec Ek) as (element & Ekind & q & Hq & ->). cbn.
  apply get_lt. unfold canonical_index in Hq. apply (index_order g c Hc) in Hq as [_ Hq]. unfold len. lia.
Qed.

Lemma all_recorded l :
  Forall is_Some l -> exists rs : list LayoutRecord, mapM id l = Some rs /\ l = Some <$> rs.
Proof.
  intros HF. apply (mapM_is_Some_2 id) in HF as [rs Hrs]. exists rs. split; [done|]. apply mapM_Some in Hrs. clear -Hrs.
  induction Hrs; cbn; [done|]. unfold id in *. congruence.
Qed.

Lemma check_vec_known rs : records_inv (Some <$> rs) -> length rs = n -> verdict (check_vec_elements rs rs) (fun _ => Forall (vec_ok rs) rs).
Proof. intros Hi Hl. apply check_vec_verdict. intros r e. by apply vec_elements_known. Qed.

Lemma compute_records_settles : settles (compute_records g c target) table_ok.
Proof.
  unfold settles, compute_records. set (s0 := mkRecordState _ _ no_errors).
  assert (shaped_records g s0) as Hs0 by (split; cbn; by rewrite length_replicate).
  assert (records_inv (rs_records s0)) as Hri0. { intros p r H. cbn in H. by apply lookup_replicate in H as [? _]. }
  destruct (record_loop_post (seq 0 n) s0) as (Hr & [L1 _] & Hinv & Hloop); [intros p ?%elem_of_seq; lia|done|done| |].
  { right. split; [by split|]. intros q H. cbn in H. by apply lookup_replicate in H as [? _]. }
  destruct (pfor_each _ _ s0) as [s r]. cbn in Hr, L1, Hinv, Hloop.
  destruct r as [[]| |]; [|by destruct Hloop as [?|(_ & ? & _)]; [left|]|done].
  assert (forall rs, mapM id (rs_records s) = Some rs -> records_inv (Some <$> rs) /\ length rs = n) as Hrs.
  { intros rs Hm. assert (rs_records s = Some <$> rs) as E.
    { apply mapM_Some in Hm. clear -Hm. induction Hm; cbn; [done|]. unfold id in *. congruence. }
    split; [by rewrite <- E|]. rewrite <- L1, E. by rewrite length_fmap. }
  destruct Hloop as [Hd|(_ & _ & [He _] & _ & Hall)].
  - left. destruct (mapM id (rs_records s)) as [rs|] eqn:Em; [|done]. destruct (Hrs rs eq_refl) as [Hi Hl].
    apply tame_bind; [by eapply verdict_tame, check_vec_known|intros; apply tame_ret|done].
  - destruct (all_recorded (rs_records s)) as (rs & Hm & Ers).
    { apply Forall_lookup. intros p o Ho. destruct (Hall p) as [x Hx]; [|by simplify_eq].
      apply elem_of_seq. apply lookup_lt_Some in Ho. lia. }
    rewrite Hm, He. destruct (Hrs rs Hm) as [Hi Hl].
    refine (proj2 (verdict_bind _ _ _ table_ok (check_vec_known rs Hi Hl) (fun _ => tame_ret rs) _)).
    intros u Hv. apply verdict_ret. split; [done| |done]. intros p r Hp. apply Hi. by rewrite list_lookup_fmap, Hp.
Qed.
End compute.
