(* ===== verification/LayoutVerify.v ===== *)
(** * The computed records can be sealed

    Every lane of a computed record fits its width and the document stays within
    the limits of the encoder, so sealing succeeds. *)
From stdpp Require Import base numbers list list_numbers strings pretty gmap.
From S2P Require Import Prelude Source Diagnostics LayoutData Layout LayoutCycles LayoutCompute LayoutDocument.
From S2P Require Import LayoutCodec LayoutLogic LayoutKeys LayoutAcyclic LayoutRecords.

(** ** Members *)

Lemma placed_end cursor fields children verified end_ : placed cursor fields children verified end_ -> (cursor <= end_)%N.
Proof. induction 1 as [|cursor f fs c cs v off e (_ & H & _) _ IH]; lia. Qed.

Lemma placed_members cursor fields children verified end_ :
  placed cursor fields children verified end_ ->
  length verified = length fields /\
  Forall (fun v => (vf_offset v <= end_)%N /\ vf_ordinal v ∈ rf_ordinal <$> fields /\ vf_ty v ∈ lr_id <$> children) verified.
Proof.
  induction 1 as [|cursor f fs c cs v off e Ha Hp [IHl IH]]; [by split|]. split; [cbn; lia|]. constructor.
  - cbn. apply placed_end in Hp. split_and!; [lia|left|left].
  - eapply Forall_impl; [exact IH|]. cbn. intros x (H1 & H2 & H3). split_and!; [done|by right|by right].
Qed.

Lemma tagged_members variants children verified :
  tagged variants children verified ->
  length verified = length variants /\
  Forall (fun v => vv_ordinal v ∈ rv_ordinal <$> variants /\ forall t, vv_payload v = Some t -> t ∈ lr_id <$> children) verified.
Proof.
  induction 1 as [|v vs cs ver Hn H [IHl IH]|v vs p c cs ver Hp H [IHl IH]]; [by split|..]; (split; [cbn; lia|]); constructor.
  - cbn. split; [left|done].
  - eapply Forall_impl; [exact IH|]. cbn. intros x [H1 H2]. split; [by right|done].
  - cbn. split; [left|]. intros t [= <-]. left.
  - eapply Forall_impl; [exact IH|]. cbn. intros x [H1 H2]. split; [by right|]. intros t Ht. right. auto.
Qed.

Lemma accepted_bounds r :
  record_accepted r = true ->
  lr_alignment r <> 0%N /\ is_power_of_two (lr_alignment r) = true /\ (lr_alignment r <= 8)%N /\ (lr_size r <= MAX_OBJECT_SIZE)%N.
Proof.
  unfold record_accepted. rewrite negb_true_iff, !orb_false_iff, negb_false_iff, !N.ltb_ge, N.eqb_neq. tauto.
Qed.

Lemma max_size_le children b : Forall (fun c => lr_size c <= b)%N children -> (max_size children <= b)%N.
Proof. unfold max_size. induction 1; cbn; lia. Qed.
Lemma max_alignment_le children b : (1 <= b)%N -> Forall (fun c => lr_alignment c <= b)%N children -> (max_alignment children <= b)%N.
Proof. unfold max_alignment. intros Hb. induction 1; cbn; lia. Qed.

Lemma ordinal_u32 i : u32 (ordinal_of i).
Proof. unfold ordinal_of, try_u32, u32_max. destruct (N.leb_spec (N.of_nat i) 4294967295); cbn; lia. Qed.

Section table.
Context (g : LGraph) (Hg : graph_ok g) (Ht : graph_typed g) (c : CanonicalMap) (Hc : numbered g c) (target : StorageTarget).
Context (rs : list LayoutRecord) (Hrs : table_ok g c target rs).

Lemma table_index p r : rs !! p = Some r -> ti_index (lr_id r) = N.of_nat p /\ u32 (ti_index (lr_id r)) /\ record_accepted r = true.
Proof.
  intros Hp. destruct (to_record _ _ _ _ Hrs p r Hp) as (i & node & _ & _ & Hid & _ & Hacc). rewrite Hid. cbn.
  apply lookup_lt_Some in Hp. rewrite (to_length _ _ _ _ Hrs) in Hp. pose proof (go_count _ Hg).
  unfold len, MAX_TYPE_NODES in *. split_and!; [done|lia|done].
Qed.

Lemma child_record id r : child_in c (Some <$> rs) id r -> r ∈ rs.
Proof.
  intros (q & _ & H). unfold get in H. rewrite list_lookup_fmap in H. destruct (rs !! N.to_nat q) eqn:E; [|done].
  injection H as ->. by eapply list_elem_of_lookup_2.
Qed.
Lemma children_records ids children : Forall2 (child_in c (Some <$> rs)) ids children -> Forall (fun r => r ∈ rs) children.
Proof. induction 1; constructor; [by eapply child_record|done]. Qed.
Lemma record_index_u32 r : r ∈ rs -> u32 (ti_index (lr_id r)).
Proof. intros [p Hp]%list_elem_of_lookup. by destruct (table_index p r Hp) as (_ & ? & _). Qed.
Lemma record_bounds r : r ∈ rs -> lr_alignment r <> 0%N /\ (lr_alignment r <= 8)%N /\ (lr_size r <= MAX_OBJECT_SIZE)%N.
Proof. intros [p Hp]%list_elem_of_lookup. destruct (table_index p r Hp) as (_ & _ & H). apply accepted_bounds in H. tauto. Qed.

Lemma name_u32 id t : name_of c id t -> u32 (ti_index t).
Proof.
  intros (q & Hq & ->). cbn. unfold canonical_index in Hq. apply (index_order g c Hc) in Hq as [_ Hq].
  pose proof (go_count _ Hg). unfold len, MAX_TYPE_NODES in *. lia.
Qed.

Lemma kind_is_typed i node r :
  lg_types g !! i = Some node -> layout_spec target (child_in c (Some <$> rs)) (name_of c) (tn_kind node) r ->
  (lr_size r <= MAX_OBJECT_SIZE)%N -> kind_typed (lr_kind r).
Proof.
  intros Hn [_ Hspec] Hsize. pose proof (go_nodes _ Hg i node Hn) as [_ _ Hm Hs]. unfold MAX_OBJECT_SIZE, u32_max in Hsize.
  destruct (tn_kind node) as [| | |m d fields|m d variants|e n|e|e|e|e]; cbn in Hspec, Hm, Hs.
  - destruct Hspec as [-> _]. done.
  - destruct Hspec as [-> _]. done.
  - destruct Hspec as [-> _]. done.
  - destruct Hspec as (cs & vs & end_ & HF & -> & Hp & _ & (_ & Hend & _) & _). destruct Hs as (Hnom & _ & Hf).
    destruct (nominal_typed g m d Hg Ht Hnom). destruct (placed_members _ _ _ _ _ Hp) as [Hl Hall]. apply children_records in HF.
    unfold u32_max, MAX_MEMBERS_PER_DECLARATION, len in *. cbn [kind_typed]. unfold len. rewrite Hl. split_and!; [lia..|].
    eapply Forall_impl; [exact Hall|]. unfold field_typed. cbn. intros v (Ho & (f & -> & Hfin)%list_elem_of_fmap & (x & -> & Hx)%list_elem_of_fmap).
    apply list_elem_of_lookup in Hfin as [k Hk]. rewrite Forall_forall in HF. specialize (HF _ Hx).
    destruct (Hf k f Hk) as [Hord _]. split_and!; [rewrite Hord; apply ordinal_u32|by apply record_index_u32|lia].
  - destruct Hspec as (cs & vs & off & HF & -> & Htag & (_ & _ & Hoff) & _ & (_ & Hend & _) & _). destruct Hs as (Hnom & _ & Hf).
    destruct (nominal_typed g m d Hg Ht Hnom). destruct (tagged_members _ _ _ Htag) as [Hl Hall]. apply children_records in HF.
    assert (max_alignment cs <= 8)%N as Hal.
    { apply max_alignment_le; [lia|]. eapply Forall_impl; [exact HF|]. cbn. intros x Hx. by destruct (record_bounds x Hx) as (_ & ? & _). }
    unfold u32_max, MAX_MEMBERS_PER_DECLARATION, len in *. cbn [kind_typed]. unfold len. rewrite Hl. split_and!; [lia..|].
    eapply Forall_impl; [exact Hall|]. unfold variant_typed. cbn. intros v [(f & -> & Hfin)%list_elem_of_fmap Hpay].
    apply list_elem_of_lookup in Hfin as [k Hk]. destruct (Hf k f Hk) as [Hord _].
    split; [rewrite Hord; apply ordinal_u32|]. unfold payload_index, NO_PAYLOAD_TYPE_ID, u32_max. destruct (vv_payload v) as [t|]; [|lia].
    destruct (proj1 (list_elem_of_fmap _ _ _) (Hpay t eq_refl)) as (x & -> & Hx). rewrite Forall_forall in HF. by apply record_index_u32, HF.
  - destruct Hspec as (x & st & Hx & -> & (_ & _ & Hst) & _). apply child_record in Hx. destruct (record_bounds x Hx) as (_ & H8 & Hxs).
    destruct Hs as [_ Hlen]. unfold MAX_ARRAY_LENGTH, MAX_OBJECT_SIZE, u32_max in *. cbn. split_and!; [by apply record_index_u32|lia|lia].
  - destruct Hspec as (t & Hname & -> & _). by eapply name_u32.
  - destruct Hspec as (t & Hname & -> & _). by eapply name_u32.
  - destruct Hspec as (t & Hname & -> & _). by eapply name_u32.
  - done.
Qed.

Lemma spec_members i node r :
  lg_types g !! i = Some node -> layout_spec target (child_in c (Some <$> rs)) (name_of c) (tn_kind node) r ->
  match lr_kind r with
  | VkStruct _ _ vs => (len vs <= MAX_MEMBERS_PER_DECLARATION)%N
  | VkEnum _ _ vs _ _ => (len vs <= MAX_MEMBERS_PER_DECLARATION)%N
  | _ => True
  end.
Proof.
  intros Hn [_ Hspec]. pose proof (no_members _ _ _ (go_nodes _ Hg i node Hn)) as Hm. unfold len in *.
  destruct (tn_kind node) as [| | |m d fields|m d variants|e n|e|e|e|e]; cbn in Hspec, Hm.
  - by destruct Hspec as [-> _].
  - by destruct Hspec as [-> _].
  - by destruct Hspec as [-> _].
  - destruct Hspec as (cs & vs & end_ & _ & -> & Hp & _). apply placed_members in Hp as [-> _]. done.
  - destruct Hspec as (cs & vs & off & _ & -> & Hp & _). apply tagged_members in Hp as [-> _]. done.
  - by destruct Hspec as (x & st & _ & -> & _).
  - by destruct Hspec as (t & _ & -> & _).
  - by destruct Hspec as (t & _ & -> & _).
  - by destruct Hspec as (t & _ & -> & _).
  - done.
Qed.

Lemma length_members {A} (f : A -> list N) (l : list A) k : (forall x, length (f x) = k) -> length (l ≫= f) = k * length l.
Proof.
  intros H. induction l as [|x l IH]; [cbn; lia|]. change ((x :: l) ≫= f) with (f x ++ (l ≫= f)).
  rewrite length_app, H, IH. cbn. lia.
Qed.

(** A record takes at most 16444 bytes. *)
Lemma encode_record_bound p r :
  rs !! p = Some r -> exists l, encode_record r = Some l /\ record_typed r /\ (len l <= 16444)%N.
Proof.
  intros Hp. destruct (to_record _ _ _ _ Hrs p r Hp) as (i & node & _ & Hn & _ & Hspec & Hacc).
  destruct (table_index p r Hp) as (_ & Hidx & _). apply accepted_bounds in Hacc as (_ & _ & H8 & Hsize).
  pose proof (kind_is_typed i node r Hn Hspec Hsize) as Hk. pose proof (spec_members i node r Hn Hspec) as Hmem.
  assert (lr_drop_kind r <= 5)%N as Hdrop.
  { destruct Hspec as [_ Hspec]. clear -Hspec. destruct (tn_kind node); cbn in Hspec; decompose [ex and] Hspec;
      repeat match goal with H : lr_drop_kind r = _ |- _ => rewrite H end; unfold drop_flag; try case_match; try lia; done. }
  destruct (encode_kind_some _ Hk) as [k Ek]. unfold encode_record. rewrite Ek. cbn [mbind option_bind]. eexists. split; [done|]. split.
  - destruct Hspec as [Hrun _]. unfold record_typed, MAX_OBJECT_SIZE, u32_max in *. rewrite Hrun. split_and!; [done|lia..|done].
  - unfold len. rewrite !length_app. unfold u32_bytes, u64_bytes. rewrite !le_bytes_length.
    enough (length k <= 28 + 16 * 1024)%nat by lia. unfold MAX_MEMBERS_PER_DECLARATION, len in Hmem.
    destruct (lr_kind r) as [| | |m d vs|m d vs po ps|e n st|e|e|e]; cbn [encode_kind] in Ek.
    1-3: apply (inj Some) in Ek; subst k; cbn; lia.
    3-6: apply (inj Some) in Ek; subst k; unfold u32_bytes, u64_bytes; rewrite ?length_app, !le_bytes_length; lia.
    + destruct (try_u32 _); [|done]. cbn [mbind option_bind] in Ek. apply (inj Some) in Ek. subst k.
      unfold u32_bytes, u64_bytes. rewrite !length_app, !le_bytes_length, (length_members _ _ 16); [lia|done].
    + destruct (try_u32 _); [|done]. cbn [mbind option_bind] in Ek. apply (inj Some) in Ek. subst k.
      unfold u32_bytes, u64_bytes. rewrite !length_app, !le_bytes_length, (length_members _ _ 8); [lia|done].
Qed.

Lemma encoded_from (l : list LayoutRecord) p :
  (forall k r, l !! k = Some r -> rs !! (p + k) = Some r) ->
  exists bytes, encoded (N.of_nat p) l bytes /\ (len bytes <= 16448 * len l)%N.
Proof.
  revert p. induction l as [|r l IH]; intros p Hl; [exists []; split; [constructor|done]|].
  destruct (IH (S p)) as (bytes & He & Hb).
  { intros k x Hk. specialize (Hl (S k) x Hk). by replace (S p + k) with (p + S k) by lia. }
  pose proof (Hl 0 r eq_refl) as Hr. rewrite Nat.add_0_r in Hr. destruct (encode_record_bound p r Hr) as (b & Eb & Htyped & Hlen).
  destruct (table_index p r Hr) as (Hid & _ & _). exists (u32_bytes (len b) ++ b ++ bytes). split.
  - econstructor; [done|done|done|lia|]. by replace (N.of_nat p + 1)%N with (N.of_nat (S p)) by lia.
  - unfold len, u32_bytes in *. rewrite !length_app, le_bytes_length. cbn [length]. lia.
Qed.

Lemma table_seals sha256 :
  exists bytes, encoded 0 rs bytes /\ u32 (len rs) /\
    seal_target sha256 target rs no_errors
    = (no_errors, Val (document target rs bytes, sha256 (document target rs bytes))).
Proof.
  destruct (encoded_from rs 0) as (bytes & He & Hb); [done|]. assert (u32 (len rs)) as Hl.
  { unfold len. rewrite (to_length _ _ _ _ Hrs). pose proof (go_count _ Hg). unfold len, MAX_TYPE_NODES in *. lia. }
  exists bytes. split_and!; [done..|]. apply seal_target_spec; [done..|]. unfold document. unfold len in *.
  rewrite !length_app. unfold u32_bytes. rewrite !le_bytes_length. cbn [FINGERPRINT_DOMAIN bytes_of_string length app].
  unfold u64_max. change (length FINGERPRINT_DOMAIN) with 26. lia.
Qed.
End table.

(** * The layout verifier as a whole

    [layout_verify] returns a verdict on every graph; what it accepts satisfies
    the preflight conditions, has bounded nesting, canonical identities, the
    reference layout of every type, and the fingerprint of its document. *)

(** ** Stages *)

(** The computation returns early, or ends without diagnostics in a value [F] holds of. *)
Definition concludes {A} (m : PM LErrors A) (F : A -> Prop) : Prop :=
  (m no_errors).2 = Return \/ exists a, m no_errors = (no_errors, Val a) /\ F a.

Lemma stage_concludes {A} (m : PM LErrors A) F : settles m F -> concludes (stage m) F.
Proof.
  unfold concludes, stage, mbind, PM_bind. intros [[Hd Hp]|(a & -> & Ha)]; [|right; by exists a].
  left. destruct (m no_errors) as [e [a| |]]; cbn in *; [|done|done].
  unfold dirty in Hd. unfold le_is_empty. by destruct (le_diagnostics e).
Qed.
Lemma concludes_bind {A B} (m : PM LErrors A) (f : A -> PM LErrors B) F G :
  concludes m F -> (forall a, F a -> concludes (f a) G) -> concludes (m ≫= f) G.
Proof.
  unfold concludes, mbind, PM_bind. intros [H|(a & -> & Ha)] Hf; [|by apply Hf].
  left. by destruct (m no_errors) as [e []].
Qed.
Lemma concludes_val {A} (m : PM LErrors A) a (F : A -> Prop) : m no_errors = (no_errors, Val a) -> F a -> concludes m F.
Proof. intros E Ha. right. eauto. Qed.

Lemma concludes_eq {A} (m : PM LErrors A) a : m no_errors = (no_errors, Val a) -> concludes m (fun x => x = a).
Proof. intros E. right. eauto. Qed.

(** ** What is accepted *)

Section verify.
Context (sha256 : list N -> list N) (g : LGraph) (s : SourceMap) (Ht : graph_typed g).

Lemma canon_numbered c : canon_ok sha256 g c -> numbered g c.
Proof. intros []. by split. Qed.
Lemma canon_stored c : canon_ok sha256 g c -> forall i node e, lg_types g !! i = Some node -> tn_kind node <> TkBorrow e.
Proof.
  intros Hc i node e Hn Ek. destruct (co_keyed _ _ _ Hc i) as [k Hk]; [by eapply lookup_lt_Some|].
  inversion Hk as [? ? ? Hn' Hl|? ? ? ? ? Hn' Hw]; simplify_eq; by rewrite Ek in *.
Qed.

Lemma records_settle c target :
  graph_ok g -> canon_ok sha256 g c -> bounded_nesting g -> settles (compute_records g c target) (table_ok g c target).
Proof.
  intros Hg Hc (height & Hh & Hb). pose proof (canon_numbered c Hc) as Hn.
  apply (compute_records_settles g Hg c Hn target (canon_stored c Hc) (fun p => height (cm_type_to_raw c).[p])); [|auto].
  intros p i node child q Hp Hi Hin Hq. unfold canonical_index in Hq. destruct (index_order g c Hn _ _ Hq) as [Ho _].
  rewrite (list_lookup_total_correct _ _ _ Hp), (list_lookup_total_correct _ _ _ Ho). apply Hh. exists node.
  by rewrite N2Nat.id.
Qed.

(** The sealed layouts of a graph for a target *)
Record layouts_ok (target : StorageTarget) (l : VerifiedLayouts) : Prop := {
  lo_preflight : preflight_ok g s;
  lo_nesting : bounded_nesting g;
  lo_map : vl_source_map l = sm_id s;
  lo_target : vl_target l = target;
  lo_records : exists c bytes, canon_ok sha256 g c /\ vl_universe l = cm_universe c /\ table_ok g c target (vl_records l) /\
    encoded 0 (vl_records l) bytes /\ vl_fingerprint l = sha256 (document target (vl_records l) bytes) }.

Lemma verify_stages_concludes target : concludes (verify_stages sha256 g s target) (layouts_ok target).
Proof.
  unfold verify_stages. eapply concludes_bind; [apply stage_concludes, verdict_preflight|]. intros u Hpre.
  pose proof (po_graph _ _ Hpre) as Hg.
  eapply concludes_bind; [by apply stage_concludes, canonical_keys_settles|]. intros o (ks & -> & Hks).
  eapply concludes_bind; [by apply (concludes_eq _ ks)|]. intros ks' ->.
  eapply concludes_bind; [by apply stage_concludes, assign_type_ids_settles|]. intros c Hc.
  pose proof (canon_numbered c Hc) as Hn.
  eapply concludes_bind with (F := fun _ => bounded_nesting g).
  { apply stage_concludes. destruct (reject_exact g Hg c Hn) as [[E ?]|(Hd & E & _)]; [right; eauto|left].
    by rewrite E. }
  intros u' Hnest.
  eapply concludes_bind; [by apply stage_concludes, records_settle|]. intros linear Hlinear.
  eapply concludes_bind; [by apply stage_concludes, records_settle|]. intros linux Hlinux.
  destruct (table_seals g Hg Ht c Hn Linear32V1 linear Hlinear sha256) as (b1 & He1 & _ & E1).
  destruct (table_seals g Hg Ht c Hn LinuxX8664V1 linux Hlinux sha256) as (b2 & He2 & _ & E2).
  eapply concludes_bind; [apply (concludes_eq _ _ E1)|]. intros x ->.
  eapply concludes_bind; [apply (concludes_eq _ _ E2)|]. intros x ->.
  destruct target; (eapply concludes_val; [done|]); (split; cbn; [done..|]); exists c; eauto 6.
Qed.

Lemma settled_keys ks : graph_ok g -> canonical_keys g no_errors = (no_errors, Val (Some ks)) -> keys_ok g ks.
Proof.
  intros Hg E. destruct (canonical_keys_settles g Hg) as [[Hd _]|(o & E' & ks' & -> & H)]; rewrite E in *.
  - by destruct Hd.
  - by injection E' as <-.
Qed.
Lemma settled_ids ks c :
  graph_ok g -> keys_ok g ks -> assign_type_ids sha256 g ks no_errors = (no_errors, Val c) -> canon_ok sha256 g c.
Proof.
  intros Hg Hks E. destruct (assign_type_ids_settles sha256 g Hg ks Hks) as [[Hd _]|(c' & E' & H)]; rewrite E in *.
  - by destruct Hd.
  - by injection E' as <-.
Qed.

(** The verifier returns. *)
Lemma layout_verify_cases target :
  exists r, layout_verify sha256 g s target = Some r /\
    match r with Ok l => layouts_ok target l | Err ds => ds <> [] end.
Proof.
  unfold layout_verify. destruct (verify_stages_concludes target) as [H|(l & -> & Hl)]; [|by exists (Ok l)].
  destruct (verify_stages sha256 g s target no_errors) as [e r]. cbn in H. subst r. eexists. split; [done|]. cbn.
  unfold layout_finish. intros E. apply fmap_nil_inv in E. apply (f_equal (@length _)) in E.
  rewrite sort_by_perm in E. cbn in E. destruct (le_diagnostics e), (le_truncated e); cbn in E; try rewrite length_app in E; cbn in E; lia.
Qed.
End verify.

(** * The diagnostic budget of the layout verifier

    Every operation keeps at most [MAX_LAYOUT_DIAGNOSTICS - 1] diagnostics; the
    verdict adds at most one. *)

Definition within_budget (e : LErrors) : Prop := (len (le_diagnostics e) <= MAX_LAYOUT_DIAGNOSTICS - 1)%N.

(** [m] keeps the diagnostics, seen through [err], within the budget. *)
Definition capped {S A} (err : S -> LErrors) (m : PM S A) : Prop :=
  forall s, within_budget (err s) -> within_budget (err (m s).1).

Create HintDb capped discriminated.

Section rules.
Context {S : Type} (err : S -> LErrors).

Lemma capped_ret {A} (a : A) : capped err (mret a).
Proof. by intros s H. Qed.
Lemma capped_return {A} : capped err (@preturn S A).
Proof. by intros s H. Qed.
Lemma capped_panic {A} : capped err (@ppanic S A).
Proof. by intros s H. Qed.
Lemma capped_gets {A} (f : S -> A) : capped err (pgets f).
Proof. by intros s H. Qed.
Lemma capped_modify f : (forall s, err (f s) = err s) -> capped err (pmodify f).
Proof. intros Hf s H. cbn. by rewrite Hf. Qed.
Lemma capped_bind {A B} (m : PM S A) (f : A -> PM S B) :
  capped err m -> (forall a, capped err (f a)) -> capped err (m ≫= f).
Proof.
  intros Hm Hf s H. unfold mbind, PM_bind. specialize (Hm s H). destruct (m s) as [s' [a| |]]; [by apply Hf|done|done].
Qed.
Lemma capped_pbody m : capped err m -> capped err (pbody m).
Proof. intros Hm s H. unfold pbody. specialize (Hm s H). by destruct (m s) as [s' []]. Qed.
Lemma capped_expect {A} (o : option A) : capped err (expect o).
Proof. destruct o; [apply capped_ret|apply capped_panic]. Qed.
Lemma capped_for_each {A} (l : list A) f : (forall x, capped err (f x)) -> capped err (pfor_each l f).
Proof. intros Hf. induction l as [|x l IH]; [apply capped_ret|]. by apply capped_bind. Qed.
End rules.
#[export] Hint Resolve capped_ret capped_return capped_panic capped_gets capped_expect : capped.

Lemma capped_push d : capped id (push_error d).
Proof.
  intros e H. unfold push_error, layout_push, within_budget, id in *. destruct (le_fatal e); [done|].
  destruct (N.ltb_spec (len (le_diagnostics e)) (MAX_LAYOUT_DIAGNOSTICS - 1)) as [Hlt|Hge]; cbn [fst le_diagnostics].
  { rewrite len_snoc. lia. }
  destruct (greatest _) as [[index worst]|]; cbn [fst le_diagnostics]; [|done].
  destruct (compare_retained _ _); try done. unfold len in *. by rewrite length_insert.
Qed.
Lemma capped_fatal : capped id (pmodify set_fatal).
Proof. by intros e H. Qed.
Lemma capped_limit label limit : capped id (layout_limit label limit).
Proof. apply capped_bind; [apply capped_push|intros; apply capped_fatal]. Qed.
Lemma capped_limit_at span label limit : capped id (layout_limit_at span label limit).
Proof. apply capped_bind; [apply capped_push|intros; apply capped_fatal]. Qed.
Lemma capped_overflow span label : capped id (layout_overflow span label).
Proof. apply capped_push. Qed.
Lemma capped_on_errors {A} (m : PM LErrors A) : capped id m -> capped ks_errors (on_errors m).
Proof. intros Hm s H. unfold on_errors. specialize (Hm _ H). by destruct (m (ks_errors s)). Qed.
Lemma capped_record_errors {A} (m : PM LErrors A) : capped id m -> capped rs_errors (record_errors m).
Proof. intros Hm s H. unfold record_errors. specialize (Hm _ H). by destruct (m (rs_errors s)). Qed.
#[export] Hint Resolve capped_push capped_limit capped_limit_at capped_overflow : capped.

Ltac capped_step :=
  match goal with
  | |- forall _, _ => intros
  | |- capped _ _ => solve [trivial with capped]
  | |- capped _ (_ ≫= _) => apply capped_bind
  | |- capped _ (pwhen ?b _) => destruct b; cbn [pwhen]
  | |- capped _ (pbody _) => apply capped_pbody
  | |- capped _ (pfor_each _ _) => apply capped_for_each
  | |- capped _ (or_else ?o _) => destruct o; cbn [or_else]
  | |- capped _ (on_errors _) => apply capped_on_errors
  | |- capped _ (record_errors _) => apply capped_record_errors
  | |- capped _ (pmodify _) => apply capped_modify; done
  | |- capped _ (match ?x with _ => _ end) => destruct x
  end.
Ltac capped := repeat capped_step.

(** ** Preflight *)

Lemma capped_preflight_modules s l : capped id (preflight_modules s l).
Proof. induction l as [|[i m] l IH]; cbn [preflight_modules]; capped; apply IH. Qed.
Lemma capped_node_shape g node : capped id (verify_node_shape g node).
Proof. unfold verify_node_shape, verify_nominal_ref. capped. Qed.
Lemma capped_node_source g node s : capped id (verify_node_source g node s).
Proof. unfold verify_node_source. capped. Qed.
#[export] Hint Resolve capped_preflight_modules capped_node_shape capped_node_source : capped.
Lemma capped_preflight_types g s l members edges : capped id (preflight_types g s l members edges).
Proof.
  revert members edges. induction l as [|[i node] l IH]; intros; cbn [preflight_types]; capped; apply IH.
Qed.
Lemma capped_inventory_loop types seen : capped id (inventory_loop types seen).
Proof. revert seen. induction types; intros; cbn [inventory_loop]; capped; auto. Qed.
#[export] Hint Resolve capped_preflight_types capped_inventory_loop : capped.
Lemma capped_preflight g s : capped id (layout_preflight g s).
Proof. unfold layout_preflight, verify_nominal_inventory, verify_reachability. capped. Qed.

(** ** Keys and identities *)

Lemma capped_build_key fuel g index depth : capped ks_errors (build_key fuel g index depth).
Proof.
  revert index depth. induction fuel as [|fuel IH]; intros index depth; cbn [build_key]; [apply capped_panic|].
  unfold node_key, child_key, set_state, set_key. capped; apply IH.
Qed.
#[export] Hint Resolve capped_build_key : capped.
Lemma capped_canonical_keys g : capped id (canonical_keys g).
Proof.
  intros e H. unfold canonical_keys.
  match goal with |- context [pfor_each ?l ?f ?s] => assert (capped ks_errors (pfor_each l f)) as Hc by capped; specialize (Hc s H) end.
  by destruct (pfor_each _ _ _) as [s []].
Qed.
Lemma capped_number_nodes id' order r : capped id (number_nodes id' order r).
Proof. revert id' r. induction order; intros; cbn [number_nodes]; capped; auto. Qed.
Lemma capped_universe_bytes g ks c order : capped id (universe_bytes g ks c order).
Proof. induction order; cbn [universe_bytes]; capped; auto. Qed.
#[export] Hint Resolve capped_canonical_keys capped_number_nodes capped_universe_bytes : capped.
Lemma capped_assign sha256 g ks : capped id (assign_type_ids sha256 g ks).
Proof. unfold assign_type_ids, seal_universe_identity. capped. Qed.

(** ** Recursion and records *)

Lemma capped_depth_loop adj order depth : capped id (depth_loop adj order depth).
Proof. revert depth. induction order; intros; cbn [depth_loop]; capped; auto. Qed.
#[export] Hint Resolve capped_preflight capped_assign capped_depth_loop : capped.
Lemma capped_reject g c : capped id (reject_by_value_cycles g c).
Proof. unfold reject_by_value_cycles. capped. Qed.

Lemma capped_failing p m : capped id m -> capped rs_errors (failing p m).
Proof. intros Hm. unfold failing, set_visiting. capped. Qed.
Lemma capped_struct_fields c records p node fields cursor alignment verified drops :
  capped rs_errors (struct_fields c records (failing p) node fields cursor alignment verified drops).
Proof.
  revert cursor alignment verified drops. induction fields as [|f fields IH]; intros; cbn [struct_fields]; capped;
    try apply capped_failing; capped; apply IH.
Qed.
#[export] Hint Resolve capped_reject capped_struct_fields : capped.
Lemma capped_node_record c target records p node t : capped rs_errors (node_record c target records (failing p) node t).
Proof.
  unfold node_record, struct_record, enum_record, array_record, vec_record, handle_record.
  capped; try apply capped_failing; capped.
Qed.
#[export] Hint Resolve capped_node_record : capped.
Lemma capped_compute_one fuel g c target p : capped rs_errors (compute_one fuel g c target p).
Proof.
  revert p. induction fuel as [|fuel IH]; intros p; cbn [compute_one]; [apply capped_panic|].
  unfold set_visiting, set_record. capped; apply IH.
Qed.
#[export] Hint Resolve capped_compute_one : capped.
Lemma capped_check_vec all l : capped id (check_vec_elements all l).
Proof. induction l; cbn [check_vec_elements]; capped; auto. Qed.
#[export] Hint Resolve capped_check_vec : capped.
Lemma capped_compute_records g c target : capped id (compute_records g c target).
Proof.
  intros e H. unfold compute_records.
  match goal with |- context [pfor_each ?l ?f ?s] => assert (capped rs_errors (pfor_each l f)) as Hc by capped; specialize (Hc s H) end.
  destruct (pfor_each _ _ _) as [s [[]| |]]; [|done..]. destruct (mapM id (rs_records s)) as [rs|]; [|done].
  assert (capped id (check_vec_elements rs rs;; mret rs)) as Hv by capped. by apply Hv.
Qed.

(** ** The verdict *)

Lemma capped_encode_records rs : capped id (encode_records rs).
Proof. induction rs; cbn [encode_records]; capped; auto. Qed.
#[export] Hint Resolve capped_compute_records capped_encode_records : capped.
Lemma capped_verify sha256 g s target : capped id (verify_stages sha256 g s target).
Proof. unfold verify_stages, stage, seal_target, encode_document. capped. Qed.

Lemma layout_verify_budget sha256 g s target ds :
  layout_verify sha256 g s target = Some (Err ds) -> (1 <= len ds <= MAX_LAYOUT_DIAGNOSTICS)%N.
Proof.
  unfold layout_verify. pose proof (capped_verify sha256 g s target no_errors) as H.
  destruct (verify_stages sha256 g s target no_errors) as [e []]; [done| |done]. intros [= <-].
  assert (within_budget e) as Hb by (apply H; by vm_compute).
  unfold layout_finish, within_budget, MAX_LAYOUT_DIAGNOSTICS, len in *. rewrite length_fmap, sort_by_perm.
  destruct (le_diagnostics e), (le_truncated e); rewrite ?length_app; cbn [length] in *; lia.
Qed.
