(* ===== verification/LayoutUse.v ===== *)
(** * What users of verified layouts rely on

    The stored parts of an object are aligned, in bounds and disjoint, and the
    runtime metadata of verified layouts can be derived. *)
From stdpp Require Import base numbers list list_numbers strings pretty gmap sorting.
From S2P Require Import Prelude Source Diagnostics LayoutData RuntimeAbi RuntimeTheorems Layout LayoutCycles LayoutCompute LayoutDocument LayoutCodec LayoutLogic LayoutKeys LayoutAcyclic LayoutRecords LayoutVerify.

(** ** Alignments *)

Definition small_power (a : N) : Prop := a = 1%N \/ a = 2%N \/ a = 4%N \/ a = 8%N.

Lemma accepted_power r : record_accepted r = true -> small_power (lr_alignment r).
Proof.
  intros (Hz & Hp & H8 & _)%accepted_bounds. unfold small_power.
  assert (lr_alignment r = 1 \/ lr_alignment r = 2 \/ lr_alignment r = 3 \/ lr_alignment r = 4 \/ lr_alignment r = 5 \/
    lr_alignment r = 6 \/ lr_alignment r = 7 \/ lr_alignment r = 8)%N as Hcase by lia.
  destruct Hcase as [E|[E|[E|[E|[E|[E|[E|E]]]]]]]; rewrite E in *; try (by vm_compute in Hp); tauto.
Qed.
Lemma small_power_divides a b : small_power a -> small_power b -> (a <= b)%N -> (a | b)%N.
Proof.
  intros [->|[->|[->| ->]]] [->|[->|[->| ->]]] H; try lia; (by exists 1%N) || (by exists 2%N) || (by exists 4%N) || (by exists 8%N).
Qed.
Lemma small_power_pow a : small_power a -> exists k, a = (2 ^ k)%N.
Proof. intros [->|[->|[->| ->]]]; [exists 0%N|exists 1%N|exists 2%N|exists 3%N]; done. Qed.

Lemma max_alignment_ge children x : x ∈ children -> (lr_alignment x <= max_alignment children)%N.
Proof. unfold max_alignment. induction children as [|y l IH]; [by intros ?%not_elem_of_nil|]. intros [->|H]%elem_of_cons; cbn; [lia|]. apply IH in H. lia. Qed.
Lemma max_size_ge children x : x ∈ children -> (lr_size x <= max_size children)%N.
Proof. unfold max_size. induction children as [|y l IH]; [by intros ?%not_elem_of_nil|]. intros [->|H]%elem_of_cons; cbn; [lia|]. apply IH in H. lia. Qed.
Lemma max_alignment_cases children : max_alignment children = 1%N \/ exists x, x ∈ children /\ max_alignment children = lr_alignment x.
Proof.
  unfold max_alignment. induction children as [|y l IH]; [by left|]. cbn.
  destruct (N.max_spec (lr_alignment y) (foldr N.max 1%N (lr_alignment <$> l))) as [[_ ->]|[_ ->]].
  - destruct IH as [->|(x & Hx & ->)]; [by left|right; exists x; split; [by right|done]].
  - right. exists y. split; [by left|done].
Qed.

(** ** Placement *)

Lemma placed_lookup cursor fields children verified end_ i f :
  placed cursor fields children verified end_ -> verified !! i = Some f ->
  exists child, child ∈ children /\ vf_ty f = lr_id child /\ (lr_alignment child | vf_offset f)%N /\
    (cursor <= vf_offset f)%N /\ (vf_offset f + lr_size child <= end_)%N /\
    forall j f', i < j -> verified !! j = Some f' -> (vf_offset f + lr_size child <= vf_offset f')%N.
Proof.
  intros H. revert i f. induction H as [|cursor fd fs c cs v off e (Hd & Hc & _) Hp IH]; intros i f Hi; [done|].
  destruct i as [|i]; cbn in Hi.
  - injection Hi as <-. exists c. cbn. split_and!; [by left|done|done|done|by apply placed_end in Hp|].
    intros [|j] f' Hj Hf; [lia|]. cbn in Hf. by destruct (IH j f' Hf) as (x & _ & _ & _ & H & _).
  - destruct (IH i f Hi) as (x & Hx & Hty & Hal & Hcur & Hend & Hdis). exists x. split_and!; [by right|done|done|lia|done|].
    intros [|j] f' Hj Hf; [lia|]. apply (Hdis j); [lia|done].
Qed.

(** The stored parts of the object of a record *)
Definition parts_placed (l : VerifiedLayouts) (r : LayoutRecord) : Prop :=
  match lr_kind r with
  | VkStruct _ _ fields => forall i f, fields !! i = Some f ->
      exists child, type_by_id l (vf_ty f) = Some child /\
        (lr_alignment child | vf_offset f)%N /\ (lr_alignment child | lr_alignment r)%N /\
        (vf_offset f + lr_size child <= lr_size r)%N /\
        forall j f', i < j -> fields !! j = Some f' -> (vf_offset f + lr_size child <= vf_offset f')%N
  | VkEnum _ _ variants offset size =>
      (4 <= offset)%N /\ (4 | lr_alignment r)%N /\ (offset + size <= lr_size r)%N /\
      forall v t, v ∈ variants -> vv_payload v = Some t -> exists child, type_by_id l t = Some child /\
        (lr_alignment child | offset)%N /\ (lr_alignment child | lr_alignment r)%N /\ (lr_size child <= size)%N
  | VkFixedArray e length stride => exists child, type_by_id l e = Some child /\
      (lr_alignment child | stride)%N /\ (lr_alignment child | lr_alignment r)%N /\ (lr_size child <= stride)%N /\
      (stride * length = lr_size r)%N
  | VkVec e => exists child, type_by_id l e = Some child /\ (0 < lr_size child)%N
  | VkShared e | VkWeak e => exists child, type_by_id l e = Some child
  | VkBool | VkI32 | VkString => True
  end.
Definition object_ok (l : VerifiedLayouts) (r : LayoutRecord) : Prop :=
  small_power (lr_alignment r) /\ (lr_alignment r | lr_size r)%N /\ (lr_size r <= MAX_OBJECT_SIZE)%N /\ parts_placed l r.

Section layouts.
Context (sha256 : list N -> list N) (g : LGraph) (s : SourceMap) (target : StorageTarget) (l : VerifiedLayouts).
Context (Hl : layouts_ok sha256 g s target l).

Section table.
Context (c : CanonicalMap) (Hc : canon_ok sha256 g c) (Hu : vl_universe l = cm_universe c).
Context (Ht : table_ok g c target (vl_records l)).
Notation rs := (vl_records l).

Lemma table_record r : r ∈ rs -> exists p, rs !! p = Some r /\ record_ok g c target (Some <$> rs) p r.
Proof. intros [p Hp]%list_elem_of_lookup. exists p. split; [done|]. by apply (to_record _ _ _ _ Ht). Qed.

Lemma type_of_record r : r ∈ rs -> type_by_id l (lr_id r) = Some r.
Proof.
  intros (p & Hp & i & node & _ & _ & Hid & _)%table_record. unfold type_by_id. rewrite Hid. cbn.
  rewrite bool_decide_true by done. unfold get. by rewrite Nat2N.id.
Qed.
Lemma record_power r : r ∈ rs -> small_power (lr_alignment r).
Proof. intros (p & _ & i & node & _ & _ & _ & _ & Hacc)%table_record. by apply accepted_power. Qed.
Lemma named_record id t : name_of c id t -> exists r, r ∈ rs /\ type_by_id l t = Some r.
Proof.
  intros (q & Hq & ->). unfold canonical_index in Hq.
  apply (index_order g c (canon_numbered _ _ _ Hc)) in Hq as [_ Hlt].
  destruct (lookup_lt_is_Some_2 rs (N.to_nat q)) as [r Hr]; [by rewrite (to_length _ _ _ _ Ht)|].
  exists r. split; [by eapply list_elem_of_lookup_2|]. unfold type_by_id. cbn. rewrite bool_decide_true by done. done.
Qed.

Lemma max_divides children x : Forall (fun r => r ∈ rs) children -> x ∈ children -> (lr_alignment x | max_alignment children)%N.
Proof.
  intros HF Hx. rewrite Forall_forall in HF. apply small_power_divides; [by apply record_power, HF| |by apply max_alignment_ge].
  destruct (max_alignment_cases children) as [->|(y & Hy & ->)]; [by left|by apply record_power, HF].
Qed.

Lemma struct_placed i node m d fields r :
  lg_types g !! i = Some node -> tn_kind node = TkStruct m d fields ->
  layout_spec target (child_in c (Some <$> rs)) (name_of c) (tn_kind node) r -> parts_placed l r /\ (lr_alignment r | lr_size r)%N.
Proof.
  intros Hn Ek [_ Hs]. rewrite Ek in Hs. destruct Hs as (cs & vs & end_ & HF & Hk & Hp & Hal & (Hdiv & Hend & _) & _).
  split; [|done]. apply (children_records c) in HF. unfold parts_placed. rewrite Hk, Hal. intros k f Hf.
  destruct (placed_lookup _ _ _ _ _ k f Hp Hf) as (x & Hx & -> & Hoff & _ & Hle & Hdis).
  pose proof (max_divides cs x HF Hx). rewrite Forall_forall in HF. exists x. split_and!; [by apply type_of_record, HF|done|done|lia|done].
Qed.

Lemma enum_placed i node m d variants r :
  lg_types g !! i = Some node -> tn_kind node = TkEnum m d variants -> small_power (lr_alignment r) ->
  layout_spec target (child_in c (Some <$> rs)) (name_of c) (tn_kind node) r -> parts_placed l r /\ (lr_alignment r | lr_size r)%N.
Proof.
  intros Hn Ek Hpow [_ Hs]. rewrite Ek in Hs.
  destruct Hs as (cs & vs & off & HF & Hk & Htag & (Hod & Ho & _) & Hal & (Hdiv & Hend & _) & _).
  split; [|done]. apply (children_records c) in HF. unfold parts_placed. rewrite Hk. split_and!; [done| |done|].
  { apply small_power_divides; [right; right; by left|done|lia]. }
  intros v t Hv Ht'. apply tagged_members in Htag as [_ Hall]. rewrite Forall_forall in Hall. destruct (Hall v Hv) as [_ Hpay].
  destruct (proj1 (list_elem_of_fmap _ _ _) (Hpay t Ht')) as (x & -> & Hx). pose proof (max_divides cs x HF Hx) as Hmd.
  rewrite Forall_forall in HF. exists x. split_and!; [by apply type_of_record, HF|by etrans| |by apply max_size_ge].
  apply small_power_divides; [by apply record_power, HF|done|]. apply max_alignment_ge in Hx. lia.
Qed.

Lemma record_object p r : rs !! p = Some r -> object_ok l r.
Proof.
  intros Hp. destruct (to_record _ _ _ _ Ht p r Hp) as (i & node & _ & Hn & _ & Hspec & Hacc).
  pose proof (accepted_power r Hacc) as Hpow. destruct (accepted_bounds r Hacc) as (_ & _ & _ & Hsize).
  enough (parts_placed l r /\ (lr_alignment r | lr_size r)%N) as [H1 H2] by (by split_and!).
  pose proof (struct_placed i node) as Hstruct. pose proof (enum_placed i node) as Henum. pose proof Hspec as [_ Hs].
  destruct (tn_kind node) as [| | |m d fields|m d variants|e n|e|e|e|e] eqn:Ek; rewrite ?Ek in *; cbn in Hs.
  - destruct Hs as (Hk & -> & -> & _). unfold parts_placed. rewrite Hk. split; [done|]. by exists 1%N.
  - destruct Hs as (Hk & -> & -> & _). unfold parts_placed. rewrite Hk. split; [done|]. by exists 1%N.
  - destruct Hs as (Hk & -> & -> & _). unfold parts_placed. rewrite Hk. split; [done|]. exists 3%N. lia.
  - by eapply Hstruct.
  - by eapply Henum.
  - destruct Hs as (x & st & Hx & Hk & (Hd & Hle & _) & Hsz & Hal & _). apply (child_record c) in Hx. unfold parts_placed. rewrite Hk, Hal, Hsz.
    split; [|by apply N.divide_mul_l]. exists x. split_and!; [by apply type_of_record|done|done|done|done].
  - destruct Hs as (t & Hname & Hk & -> & -> & _). unfold parts_placed. rewrite Hk. split; [|exists 3%N; lia].
    destruct (named_record _ _ Hname) as (x & Hx & Ht'). exists x. split; [done|]. pose proof (to_vec _ _ _ _ Ht) as Hv.
    rewrite Forall_forall in Hv. destruct (Hv r (list_elem_of_lookup_2 _ _ _ Hp) t Hk) as (y & Hy & Hz).
    unfold type_by_id in Ht'. case_bool_decide; [|done]. rewrite Hy in Ht'. injection Ht' as ->. lia.
  - destruct Hs as (t & Hname & Hk & -> & -> & _). unfold parts_placed. rewrite Hk. split; [|done].
    destruct (named_record _ _ Hname) as (x & _ & ?). eauto.
  - destruct Hs as (t & Hname & Hk & -> & -> & _). unfold parts_placed. rewrite Hk. split; [|done].
    destruct (named_record _ _ Hname) as (x & _ & ?). eauto.
  - done.
Qed.
End table.

Lemma layouts_object r : r ∈ vl_records l -> object_ok l r.
Proof.
  intros [p Hp]%list_elem_of_lookup. destruct (lo_records _ _ _ _ _ Hl) as (c & bytes & Hc & Hu & Ht & _).
  by apply (record_object c Hc Hu Ht p).
Qed.
Lemma layouts_aligned : aligned l.
Proof. apply Forall_forall. intros r [Hp _]%layouts_object. by apply small_power_pow. Qed.
End layouts.

(** ** Metadata *)

Section metadata.
Context (l : VerifiedLayouts) (Hl : forall r, r ∈ vl_records l -> object_ok l r).

Lemma known_type t r : type_by_id l t = Some r -> r ∈ vl_records l.
Proof. unfold type_by_id, get. case_bool_decide; [|done]. intros Hr. by eapply list_elem_of_lookup_2. Qed.

Lemma align_up_small value a : small_power a -> (value <= 4 * MAX_OBJECT_SIZE)%N -> exists x, align_up value a = Some x /\ (x < value + a)%N.
Proof.
  intros Ha Hv. pose proof (small_power_pow a Ha) as [k ->]. destruct (align_up value (2 ^ k)) as [x|] eqn:E.
  - exists x. split; [done|]. by apply align_up_spec in E as (_ & _ & ? & _).
  - apply align_up_none in E. unfold MAX_OBJECT_SIZE, u32_max, u64_max in *. destruct Ha as [Ha|[Ha|[Ha|Ha]]]; lia.
Qed.
Lemma small_power_le a : small_power a -> (1 <= a <= 8)%N.
Proof. unfold small_power. lia. Qed.
Lemma small_power_max a : small_power a -> small_power (N.max a 4).
Proof. intros [->|[->|[->| ->]]]; unfold small_power; lia. Qed.

Lemma derive_vec_total ty e m : ty ∈ vl_records l -> lr_kind ty = VkVec e -> exists m', derive_vec l ty m = Ok m'.
Proof.
  intros Hty Hk. destruct (Hl ty Hty) as (_ & _ & _ & Hparts). unfold parts_placed in Hparts. rewrite Hk in Hparts.
  destruct Hparts as (child & Ec & Hz). unfold derive_vec, referenced_type. rewrite Hk. cbn [ok_or mbind result_bind].
  destruct (bool_decide _); [eauto|]. rewrite Ec. cbn [ok_or mbind result_bind].
  destruct (N.eqb_spec (lr_size child) 0); [lia|]. destruct (Hl child (known_type _ _ Ec)) as (Hp & _ & Hs & _).
  destruct (align_up_small (lr_size child) _ Hp) as (x & -> & _); [unfold MAX_OBJECT_SIZE in *; lia|]. cbn. eauto.
Qed.

Lemma derive_control_total ty e m :
  ty ∈ vl_records l -> lr_kind ty = VkShared e \/ lr_kind ty = VkWeak e -> exists m', derive_control l ty m = Ok m'.
Proof.
  intros Hty Hk. destruct (Hl ty Hty) as (_ & _ & _ & Hparts). unfold parts_placed in Hparts.
  assert (exists child, type_by_id l e = Some child) as [child Ec] by (by destruct Hk as [E|E]; rewrite E in Hparts).
  unfold derive_control. assert (referenced_type ty = Some e) as -> by (unfold referenced_type; by destruct Hk as [-> | ->]).
  cbn [ok_or mbind result_bind]. destruct (bool_decide _); [eauto|]. rewrite Ec. cbn [ok_or mbind result_bind].
  destruct (Hl child (known_type _ _ Ec)) as (Hp & _ & Hs & _). pose proof (small_power_le _ Hp) as H8. unfold MAX_OBJECT_SIZE, u32_max in *.
  destruct (align_up_small 8 _ Hp) as (off & -> & Hoff); [done|]. cbn [ok_or mbind result_bind].
  unfold checked_add. destruct (N.leb_spec (off + lr_size child) u64_max) as [_|H]; [|unfold u64_max in H; lia]. cbn [ok_or mbind result_bind].
  destruct (align_up_small (off + lr_size child) _ (small_power_max _ Hp)) as (x & -> & _); [unfold MAX_OBJECT_SIZE, u32_max; lia|].
  cbn. eauto.
Qed.

Lemma derive_types_total types m : (forall ty, ty ∈ types -> ty ∈ vl_records l) -> exists m', derive_types l types m = Ok m'.
Proof.
  revert m. induction types as [|ty types IH]; intros m Hin; cbn [derive_types]; [eauto|].
  assert (ty ∈ vl_records l) as Hty by (apply Hin; left).
  assert (exists m1, match category ty with CatVec => derive_vec l ty m | CatShared | CatWeak => derive_control l ty m | _ => Ok m end = Ok m1)
    as [m1 ->].
  { unfold category. destruct (lr_kind ty) eqn:Hk; eauto using derive_vec_total, derive_control_total. }
  apply IH. intros x Hx. apply Hin. by right.
Qed.
End metadata.

Lemma derive_metadata_total l1 l2 :
  (forall r, r ∈ vl_records l1 -> object_ok l1 r) -> (forall r, r ∈ vl_records l2 -> object_ok l2 r) ->
  exists elements controls, derive_metadata l1 l2 = Ok (elements, controls).
Proof.
  intros H1 H2. unfold derive_metadata.
  destruct (derive_types_total l1 H1 (vl_records l1) (mkMetadata [] [] ∅ ∅)) as [m1 ->]; [done|]. cbn [mbind result_bind].
  destruct (derive_types_total l2 H2 (vl_records l2) (mkMetadata (md_elements m1) (md_controls m1) ∅ ∅)) as [m2 ->]; [done|].
  cbn. eauto.
Qed.

(** ** Numbering *)

(** Two strictly increasing lists with the same elements are equal. *)
Lemma increasing_unique (k k' : list (list N)) :
  StronglySorted (fun a b => list_cmp a b = Lt) k -> StronglySorted (fun a b => list_cmp a b = Lt) k' ->
  (forall x, x ∈ k <-> x ∈ k') -> k = k'.
Proof.
  intros H1. revert k'. induction H1 as [|x k Hk IH Hx]; intros k' H2 Heq.
  { destruct k' as [|y k']; [done|]. exfalso. apply (not_elem_of_nil y), Heq. left. }
  destruct H2 as [|y k' Hk' Hy]; [exfalso; apply (not_elem_of_nil x), Heq; left|].
  rewrite Forall_forall in Hx, Hy.
  assert (x = y) as ->.
  { destruct (proj1 (elem_of_cons _ _ _) (proj1 (Heq x) ltac:(left))) as [->|Hin]; [done|].
    destruct (proj1 (elem_of_cons _ _ _) (proj2 (Heq y) ltac:(left))) as [->|Hin']; [done|].
    specialize (Hy _ Hin). specialize (Hx _ Hin'). rewrite list_cmp_flip, Hy in Hx. done. }
  f_equal. apply IH; [done|]. intros z. split; intros Hz.
  - destruct (proj1 (elem_of_cons _ _ _) (proj1 (Heq z) ltac:(by right))) as [->|]; [|done].
    specialize (Hx _ Hz). by rewrite list_cmp_refl in Hx.
  - destruct (proj1 (elem_of_cons _ _ _) (proj2 (Heq z) ltac:(by right))) as [->|]; [|done].
    specialize (Hy _ Hz). by rewrite list_cmp_refl in Hy.
Qed.

Lemma canon_bytes sha256 g c :
  canon_ok sha256 g c -> exists bytes, StronglySorted (fun a b => list_cmp a b = Lt) bytes /\
    (forall x, x ∈ bytes <-> exists i k, has_key g i k /\ x = encode_key k) /\
    forall p i k, cm_type_to_raw c !! p = Some i -> has_key g i k -> bytes !! p = Some (encode_key k).
Proof.
  intros Hc. pose proof (canon_numbered _ _ _ Hc) as Hn.
  assert (forall order, (forall i, i ∈ order -> i < length (lg_types g)) ->
    exists bytes, Forall2 (fun i b => exists k, has_key g i k /\ b = encode_key k) order bytes) as Hex.
  { induction order as [|i order IH]; intros Ho; [by exists []|]. destruct IH as [bs HF]; [intros; apply Ho; by right|].
    destruct (co_keyed _ _ _ Hc i) as [k Hk]; [apply Ho; left|]. exists (encode_key k :: bs). constructor; eauto. }
  destruct (Hex (cm_type_to_raw c)) as [bytes HF].
  { intros i. rewrite (co_order _ _ _ Hc), elem_of_seq. lia. }
  assert (forall p i k, cm_type_to_raw c !! p = Some i -> has_key g i k -> bytes !! p = Some (encode_key k)) as Hat.
  { intros p i k Hp Hk. destruct (Forall2_lookup_l _ _ _ _ _ HF Hp) as (b & Hb & k' & Hk' & ->).
    by rewrite (has_key_fun _ _ _ _ Hk Hk'). }
  exists bytes. split_and!; [| |done].
  - apply sorted_of_lookup. intros p q x y Hpq Hx Hy.
    destruct (Forall2_lookup_r _ _ _ _ _ HF Hx) as (i & Hi & ki & Hki & ->).
    destruct (Forall2_lookup_r _ _ _ _ _ HF Hy) as (j & Hj & kj & Hkj & ->). by eapply (co_sorted _ _ _ Hc p q).
  - intros x. split.
    + intros [p Hp]%list_elem_of_lookup. destruct (Forall2_lookup_r _ _ _ _ _ HF Hp) as (i & Hi & k & Hk & ->). eauto.
    + intros (i & k & Hk & ->). destruct (raw_order g c Hn i) as (p & _ & Hp & _); [inversion Hk; by eapply lookup_lt_Some|].
      by eapply list_elem_of_lookup_2, Hat.
Qed.

(** The index of a type depends on the set of structural types only. *)
Lemma canon_index_unique sha256 g g' c c' i j k :
  canon_ok sha256 g c -> canon_ok sha256 g' c' ->
  (forall k, (exists i, has_key g i k) <-> exists j, has_key g' j k) ->
  has_key g i k -> has_key g' j k -> cm_raw_to_index c !! i = cm_raw_to_index c' !! j.
Proof.
  intros Hc Hc' Heq Hi Hj. destruct (canon_bytes _ _ _ Hc) as (b & Hs & Hin & Hat). destruct (canon_bytes _ _ _ Hc') as (b' & Hs' & Hin' & Hat').
  assert (b = b') as <-.
  { apply increasing_unique; [done..|]. intros x. rewrite Hin, Hin'. split; intros (u & k' & Hk & ->).
    - destruct (proj1 (Heq k')) as [v Hv]; eauto.
    - destruct (proj2 (Heq k')) as [v Hv]; eauto. }
  destruct (raw_order g c (canon_numbered _ _ _ Hc) i) as (p & _ & Hp & ->); [inversion Hi; by eapply lookup_lt_Some|].
  destruct (raw_order g' c' (canon_numbered _ _ _ Hc') j) as (q & _ & Hq & ->); [inversion Hj; by eapply lookup_lt_Some|].
  do 2 f_equal. pose proof (Hat p i k Hp Hi) as H1. pose proof (Hat' q j k Hq Hj) as H2.
  destruct (Nat.lt_trichotomy p q) as [Hlt|[->|Hlt]]; [|done|].
  - pose proof (sorted_lookup _ _ _ _ _ _ Hs Hlt H1 H2) as H. cbn beta in H. by rewrite list_cmp_refl in H.
  - pose proof (sorted_lookup _ _ _ _ _ _ Hs Hlt H2 H1) as H. cbn beta in H. by rewrite list_cmp_refl in H.
Qed.
