(* ===== verification/LayoutTheorems.v ===== *)
(** * Theorems about aggregate layouts

    The guarantees of the layout verifier for its users, with the sample graph
    that shows that their hypotheses can hold. *)
From stdpp Require Import base numbers list list_numbers strings pretty gmap.
From S2P Require Import Prelude Source Diagnostics LayoutData RuntimeAbi RuntimeTheorems Layout LayoutCycles LayoutCompute LayoutDocument LayoutCodec LayoutLogic LayoutKeys LayoutAcyclic LayoutRecords LayoutVerify LayoutUse.

(** ** A sample graph

    [struct Pair { i32, bool, Vec<i32> }], [enum Maybe { None, Some(Pair) }],
    [Shared<Maybe>] and [[i32; 3]]. *)
Module LayoutSample.
Open Scope N_scope.

Definition sources : SourceMap :=
  match (build 1 [mkSourceFileInput "src/main.zry" (repeat 97 20)]).2 with
  | Ok m => m
  | Err _ => mkSourceMap 0 [] ∅
  end.
Definition file : FileId := mkFileId 1 0.
Definition span : Span := mkSpan file 0 3.
Definition pair_fields : list RawField := [mkRawField 0 1; mkRawField 1 0; mkRawField 2 4].
Definition nodes : list TypeNode :=
  [ mkTypeNode 0 None TkBool; mkTypeNode 1 None TkI32; mkTypeNode 2 None TkString;
    mkTypeNode 3 (Some span) (TkStruct 0 0 pair_fields);
    mkTypeNode 4 None (TkVec 1);
    mkTypeNode 5 (Some span) (TkEnum 0 1 [mkRawVariant 0 None; mkRawVariant 1 (Some 3)]);
    mkTypeNode 6 None (TkShared 5); mkTypeNode 7 None (TkFixedArray 1 3) ].
Definition graph : LGraph := mkLGraph [mkLModule 0 file 2] nodes [6; 7].
(** The sample with its nodes in another order *)
Definition shuffled : LGraph :=
  mkLGraph [mkLModule 0 file 2]
    [ mkTypeNode 0 None (TkVec 3); mkTypeNode 1 None TkString; mkTypeNode 2 None (TkFixedArray 3 3);
      mkTypeNode 3 None TkI32; mkTypeNode 4 None (TkShared 6); mkTypeNode 5 None TkBool;
      mkTypeNode 6 (Some span) (TkEnum 0 1 [mkRawVariant 0 None; mkRawVariant 1 (Some 7)]);
      mkTypeNode 7 (Some span) (TkStruct 0 0 [mkRawField 0 3; mkRawField 1 5; mkRawField 2 0]) ] [4; 2].
(** Any hash will do. *)
Definition hash (bytes : list N) : list N := [len bytes].

Lemma typed : graph_typed graph.
Proof. constructor; [vm_compute; discriminate|constructor]. Defined.
Definition layouts (target : StorageTarget) : option VerifiedLayouts :=
  match layout_verify hash graph sources target with Some (Ok l) => Some l | _ => None end.
Lemma accepted target : is_Some (layouts target).
Proof. destruct target; vm_compute; by eexists. Qed.
End LayoutSample.

Lemma sample_verified target : exists l, layout_verify LayoutSample.hash LayoutSample.graph LayoutSample.sources target = Some (Ok l).
Proof.
  destruct (LayoutSample.accepted target) as [l Hl]. unfold LayoutSample.layouts in Hl.
  destruct (layout_verify _ _ _ _) as [[x|]|]; [by eexists|done..].
Qed.

(** ** The verdict *)

(** C22: the layout verifier returns a verdict on every graph: no index, [expect]
    or arithmetic panics, and every traversal ends within its fuel. *)
Theorem layout_verify_total (sha256 : list N -> list N) (g : LGraph) (s : SourceMap) (target : StorageTarget) :
  graph_typed g -> exists verdict, layout_verify sha256 g s target = Some verdict.
Proof. intros Ht. destruct (layout_verify_cases sha256 g s Ht target) as (r & E & _). eauto. Qed.

Lemma layout_verify_total_witness :
  exists verdict, layout_verify LayoutSample.hash LayoutSample.graph LayoutSample.sources Linear32V1 = Some verdict.
Proof. apply layout_verify_total. exact LayoutSample.typed. Defined.



(** C18: in accepted layouts every object is well placed: sizes are multiples of
    power-of-two alignments, fields are aligned, in bounds and disjoint in
    declaration order, an enum payload lies past the tag, array elements fit
    their stride, and vector elements have a size. *)
Theorem layout_objects_safe (sha256 : list N -> list N) (g : LGraph) (s : SourceMap) (target : StorageTarget)
    (l : VerifiedLayouts) (r : LayoutRecord) :
  graph_typed g -> layout_verify sha256 g s target = Some (Ok l) -> r ∈ vl_records l -> object_ok l r.
Proof.
  intros Ht E. destruct (layout_verify_cases sha256 g s Ht target) as (v & E' & H). rewrite E in E'. injection E' as <-.
  by apply (layouts_object sha256 g s target).
Qed.

Lemma layout_objects_safe_witness :
  exists l r, layout_verify LayoutSample.hash LayoutSample.graph LayoutSample.sources Linear32V1 = Some (Ok l) /\
    r ∈ vl_records l /\ object_ok l r.
Proof.
  destruct (LayoutSample.layouts Linear32V1) as [l|] eqn:El; [|exfalso; by destruct (LayoutSample.accepted Linear32V1); congruence].
  unfold LayoutSample.layouts in El.
  destruct (layout_verify LayoutSample.hash LayoutSample.graph LayoutSample.sources Linear32V1) as [[x|]|] eqn:E; try discriminate El.
  injection El as ->. exists l. destruct (vl_records l) as [|r rs] eqn:Er.
  - exfalso. assert ((vl_records <$> LayoutSample.layouts Linear32V1) <> Some []) as H by (vm_compute; discriminate).
    apply H. unfold LayoutSample.layouts. rewrite E. cbn. by rewrite Er.
  - exists r. split; [reflexivity|]. split; [left|].
    apply (layout_objects_safe _ _ _ _ _ r LayoutSample.typed E). rewrite Er. left.
Defined.

(** ** The sealed document *)

(** C23: the auditor of accepted layouts accepts exactly one document, with
    exactly its hash, and the sealed fingerprint is that hash. *)
Theorem layout_document_exact (sha256 : list N -> list N) (g : LGraph) (s : SourceMap) (target : StorageTarget)
    (l : VerifiedLayouts) :
  graph_typed g -> layout_verify sha256 g s target = Some (Ok l) ->
  exists document, vl_fingerprint l = sha256 document /\
    forall bytes fingerprint, Forall is_byte bytes -> (len bytes <= u64_max)%N ->
      audit_document sha256 bytes target (vl_records l) fingerprint = Ok tt <->
      bytes = document /\ fingerprint = sha256 document.
Proof.
  intros Ht E. destruct (layout_verify_cases sha256 g s Ht target) as (v & E' & H). rewrite E in E'. injection E' as <-.
  destruct (lo_records _ _ _ _ _ H) as (c & bs & Hc & Hu & Htab & He & Hf). exists (document target (vl_records l) bs).
  split; [done|]. intros bytes fp Hb Hl. unfold audit_document.
  assert (u32 (len (vl_records l))) as Hlen.
  { unfold len. rewrite (to_length _ _ _ _ Htab). pose proof (go_count _ (po_graph _ _ (lo_preflight _ _ _ _ _ H))).
    unfold len, MAX_TYPE_NODES in *. lia. }
  pose proof (audit_accepts_spec bytes Hb Hl sha256 target (vl_records l) bs fp He Hlen) as Ha.
  destruct (audit_accepts _ _ _ _ _); [|split; [done|]; intros [-> ->]; by pose proof (proj2 Ha (conj eq_refl eq_refl))].
  split; [|done]. intros _. destruct (proj1 Ha eq_refl) as [-> ->]. done.
Qed.

Lemma layout_document_exact_witness :
  exists l, layout_verify LayoutSample.hash LayoutSample.graph LayoutSample.sources Linear32V1 = Some (Ok l) /\
    exists document, vl_fingerprint l = LayoutSample.hash document /\
      (audit_document LayoutSample.hash [] Linear32V1 (vl_records l) [0%N] = Ok tt <-> [] = document /\ [0%N] = LayoutSample.hash document).
Proof.
  destruct (sample_verified Linear32V1) as [l E]. exists l. split; [exact E|].
  destruct (layout_document_exact _ _ _ _ _ LayoutSample.typed E) as (document & Hf & H). exists document. split; [exact Hf|].
  apply H; [constructor|vm_compute; discriminate].
Defined.

(** ** Recursion *)

(** C26: on a well-formed graph the recursion check reports nothing exactly when
    types nest by value without cycles and at most [MAX_TRAVERSAL_DEPTH] deep. *)
Theorem by_value_recursion_exact (g : LGraph) (c : CanonicalMap) :
  graph_ok g -> numbered g c ->
  reject_by_value_cycles g c no_errors = (no_errors, Val tt) <-> bounded_nesting g.
Proof.
  intros Hg Hc. destruct (reject_exact g Hg c Hc) as [[E H]|(Hd & E & H)]; [by rewrite E|].
  split; [|done]. intros E'. rewrite E' in Hd. by destruct Hd.
Qed.

Lemma by_value_recursion_exact_witness :
  exists c, numbered LayoutSample.graph c /\
    (reject_by_value_cycles LayoutSample.graph c no_errors = (no_errors, Val tt) <-> bounded_nesting LayoutSample.graph).
Proof.
  destruct (sample_verified Linear32V1) as [l E].
  destruct (layout_verify_cases LayoutSample.hash _ LayoutSample.sources LayoutSample.typed Linear32V1) as (v & E' & H). rewrite E in E'. injection E' as <-.
  destruct (lo_records _ _ _ _ _ H) as (c & _ & Hc & _). exists c. split; [exact (canon_numbered _ _ _ Hc)|].
  apply by_value_recursion_exact; [exact (po_graph _ _ (lo_preflight _ _ _ _ _ H))|exact (canon_numbered _ _ _ Hc)].
Defined.

(** ** Identities *)

(** C27: a type identity depends on the structural types of the graph only: where
    two graphs have the same structural types, a type has the same index in
    both, whatever the order of their nodes. *)
Theorem type_ids_canonical (sha256 : list N -> list N) (g g' : LGraph) (ks ks' : list CanonicalKey)
    (c c' : CanonicalMap) (i j : nat) (k : skey) :
  graph_ok g -> graph_ok g' ->
  canonical_keys g no_errors = (no_errors, Val (Some ks)) -> canonical_keys g' no_errors = (no_errors, Val (Some ks')) ->
  assign_type_ids sha256 g ks no_errors = (no_errors, Val c) ->
  assign_type_ids sha256 g' ks' no_errors = (no_errors, Val c') ->
  (forall k, (exists i, has_key g i k) <-> exists j, has_key g' j k) ->
  has_key g i k -> has_key g' j k -> ti_index <$> type_id c i = ti_index <$> type_id c' j.
Proof.
  intros Hg Hg' Ek Ek' Ea Ea' Heq Hi Hj. apply settled_keys in Ek; [|done]. apply settled_keys in Ek'; [|done].
  apply (settled_ids sha256) in Ea; [|done..]. apply (settled_ids sha256) in Ea'; [|done..].
  unfold type_id. rewrite (canon_index_unique sha256 g g' c c' i j k) by done. by destruct (cm_raw_to_index c' !! j).
Qed.

Lemma keys_listed g l k :
  length l = length (lg_types g) -> (forall i k, l !! i = Some k -> has_key g i k) -> (exists i, has_key g i k) <-> k ∈ l.
Proof.
  intros Hl H. split.
  - intros [i Hi]. destruct (lookup_lt_is_Some_2 l i) as [k' Hk']; [rewrite Hl; inversion Hi; by eapply lookup_lt_Some|].
    rewrite (has_key_fun _ _ _ _ Hi (H i k' Hk')). by eapply list_elem_of_lookup_2.
  - intros [i Hi]%list_elem_of_lookup. eauto.
Qed.
Definition sample_keys : list skey :=
  [SBool; SI32; SString; SStruct 0 0; SVec SI32; SEnum 0 1; SShared (SEnum 0 1); SArray 3 SI32].
Definition shuffled_keys : list skey :=
  [SVec SI32; SString; SArray 3 SI32; SI32; SShared (SEnum 0 1); SBool; SEnum 0 1; SStruct 0 0].
Ltac key_case := first [by eapply hk_leaf|eapply hk_wrap; [done|done|by eapply hk_leaf]].
Lemma sample_keyed i k : sample_keys !! i = Some k -> has_key LayoutSample.graph i k.
Proof. intros H. do 8 (destruct i as [|i]; [cbn in H; injection H as <-; key_case|]). done. Qed.
Lemma shuffled_keyed i k : shuffled_keys !! i = Some k -> has_key LayoutSample.shuffled i k.
Proof. intros H. do 8 (destruct i as [|i]; [cbn in H; injection H as <-; key_case|]). done. Qed.

(** The keys and identities of a graph the verifier accepts *)
Definition numbering (g : LGraph) : option (list CanonicalKey * CanonicalMap) :=
  match canonical_keys g no_errors with
  | (_, Val (Some ks)) => match assign_type_ids LayoutSample.hash g ks no_errors with (_, Val c) => Some (ks, c) | _ => None end
  | _ => None
  end.
Lemma graph_ok_of g : graph_typed g -> is_Some (match layout_verify LayoutSample.hash g LayoutSample.sources Linear32V1 with Some (Ok l) => Some l | _ => None end) -> graph_ok g.
Proof.
  intros Ht H. destruct (layout_verify_cases LayoutSample.hash g LayoutSample.sources Ht Linear32V1) as (r & E & Hr).
  rewrite E in H. destruct r as [l|]; [exact (po_graph _ _ (lo_preflight _ _ _ _ _ Hr))|by destruct H].
Qed.

Lemma type_ids_canonical_witness :
  exists c c', ti_index <$> type_id c 6 = ti_index <$> type_id c' 4.
Proof.
  destruct (numbering LayoutSample.graph) as [[ks c]|] eqn:E; [|exfalso; by vm_compute in E].
  destruct (numbering LayoutSample.shuffled) as [[ks' c']|] eqn:E'; [|exfalso; by vm_compute in E'].
  exists c, c'. vm_compute in E, E'. injection E as <- <-. injection E' as <- <-.
  eapply (type_ids_canonical LayoutSample.hash LayoutSample.graph LayoutSample.shuffled _ _ _ _ 6 4 (SShared (SEnum 0 1))).
  - apply graph_ok_of; [exact LayoutSample.typed|vm_compute; by eexists].
  - apply graph_ok_of; [constructor; [vm_compute; discriminate|constructor]|vm_compute; by eexists].
  - vm_compute. reflexivity.
  - vm_compute. reflexivity.
  - vm_compute. reflexivity.
  - vm_compute. reflexivity.
  - intros k. rewrite (keys_listed _ sample_keys), (keys_listed _ shuffled_keys);
      [|reflexivity|exact shuffled_keyed|reflexivity|exact sample_keyed].
    unfold sample_keys, shuffled_keys. rewrite !elem_of_cons, !elem_of_nil. tauto.
  - apply (sample_keyed 6). reflexivity.
  - apply (shuffled_keyed 4). reflexivity.
Defined.

(** ** Users *)

(** C39: the runtime metadata of layouts the verifier accepts for both targets can
    always be derived: references resolve, vector elements have a size, strides
    and control blocks do not overflow, and alignments are powers of two. *)
Theorem verified_metadata_derivable (sha256 : list N -> list N) (g : LGraph) (s : SourceMap) (linear32 linux : VerifiedLayouts) :
  graph_typed g ->
  layout_verify sha256 g s Linear32V1 = Some (Ok linear32) -> layout_verify sha256 g s LinuxX8664V1 = Some (Ok linux) ->
  aligned linear32 /\ aligned linux /\ exists elements controls, derive_metadata linear32 linux = Ok (elements, controls).
Proof.
  intros Ht E1 E2. destruct (layout_verify_cases sha256 g s Ht Linear32V1) as (v & E & H1). rewrite E1 in E. injection E as <-.
  destruct (layout_verify_cases sha256 g s Ht LinuxX8664V1) as (v & E & H2). rewrite E2 in E. injection E as <-.
  split_and!; [by eapply layouts_aligned|by eapply layouts_aligned|].
  apply derive_metadata_total; intros r; by eapply layouts_object.
Qed.

Lemma verified_metadata_derivable_witness :
  exists l1 l2 elements controls,
    layout_verify LayoutSample.hash LayoutSample.graph LayoutSample.sources Linear32V1 = Some (Ok l1) /\
    layout_verify LayoutSample.hash LayoutSample.graph LayoutSample.sources LinuxX8664V1 = Some (Ok l2) /\
    derive_metadata l1 l2 = Ok (elements, controls).
Proof.
  destruct (sample_verified Linear32V1) as [l1 E1]. destruct (sample_verified LinuxX8664V1) as [l2 E2].
  destruct (verified_metadata_derivable _ _ _ l1 l2 LayoutSample.typed E1 E2) as (_ & _ & es & cs & H).
  exists l1, l2, es, cs. split; [exact E1|]. split; [exact E2|exact H].
Defined.

(** a rejection carries at least one and at most [MAX_LAYOUT_DIAGNOSTICS]
    diagnostics. *)
Theorem layout_rejection_bounded (sha256 : list N -> list N) (g : LGraph) (s : SourceMap) (target : StorageTarget)
    (diagnostics : list Diagnostic) :
  layout_verify sha256 g s target = Some (Err diagnostics) -> (1 <= len diagnostics <= MAX_LAYOUT_DIAGNOSTICS)%N.
Proof. apply layout_verify_budget. Qed.

Lemma layout_rejection_bounded_witness :
  exists ds, layout_verify LayoutSample.hash (mkLGraph [] [] []) LayoutSample.sources Linear32V1 = Some (Err ds) /\
    (1 <= len ds <= MAX_LAYOUT_DIAGNOSTICS)%N.
Proof.
  destruct (layout_verify LayoutSample.hash (mkLGraph [] [] []) LayoutSample.sources Linear32V1) as [[l|ds]|] eqn:E;
    [exfalso; vm_compute in E; discriminate E| |exfalso; vm_compute in E; discriminate E].
  exists ds. split; [reflexivity|]. apply (layout_rejection_bounded _ _ _ _ _ E).
Defined.

(** ** The depth of canonical keys

    The depth limit on canonical keys bounds the recursion of [build_key], which
    stops at keys already built: 257 nested vectors are accepted when every
    element precedes its vector and rejected when it follows it. *)
Definition vec_node (id element : nat) : TypeNode := mkTypeNode (N.of_nat id) None (TkVec (N.of_nat element)).
Definition chain_up (depth : nat) : LGraph :=
  mkLGraph [] (mkTypeNode 0%N None TkI32 :: ((fun k => vec_node (S k) k) <$> seq 0 depth)) [].
Definition chain_down (depth : nat) : LGraph :=
  mkLGraph [] (((fun k => vec_node k (S k)) <$> seq 0 depth) ++ [mkTypeNode (N.of_nat depth) None TkI32]) [].

Lemma key_depth_depends_on_order :
  match canonical_keys (chain_up 257) no_errors with
  | (e, Val (Some keys)) => le_is_empty e && Nat.eqb (length keys) 258
  | _ => false
  end = true /\
  match canonical_keys (chain_down 257) no_errors with
  | (e, Val keys) => bool_decide ((fun d => d_code (rd_diagnostic d)) <$> le_diagnostics e = ["ZRYNA-L3201"])
  | _ => false
  end = true.
Proof. split; vm_compute; reflexivity. Qed.
