(* ===== verification/Syntax.v ===== *)
(** * Verified syntax snapshots ([crates/zryna-syntax/src/v3.rs])

    The data of a protocol-v3 snapshot: source units with their imports and
    functions, and the block, statement and expression arenas of a function
    body.  Identifiers of arena nodes are [u32] indices. *)
From stdpp Require Import base numbers list strings.
From S2P Require Import Prelude Source Diagnostics.

Record IdentifierSyntax := mkIdentifier { is_text : string; is_span : Span }.

Inductive TypeSyntaxKind := TyMissing | TyNamed (name : string).
Record TypeSyntax := mkTypeSyntax { ts_span : Span; ts_kind : TypeSyntaxKind }.

Record ParameterSyntax := mkParameterSyntax {
  ps_span : Span; ps_name : IdentifierSyntax; ps_type : TypeSyntax }.

(** ** Arenas *)

Definition SBlockId := N.
Definition StatementId := N.
Definition ExpressionId := N.

Inductive ExpressionKind :=
  | EReference (name : IdentifierSyntax)
  | EBoolLiteral (value : bool)
  | EI32Literal (spelling : string)
  | ENegation (operator_span : Span) (operand : ExpressionId)
  | EAddition (operator_span : Span) (lhs rhs : ExpressionId)
  | ESubtraction (operator_span : Span) (lhs rhs : ExpressionId)
  | EMultiplication (operator_span : Span) (lhs rhs : ExpressionId)
  | EEqual (operator_span : Span) (lhs rhs : ExpressionId)
  | ENotEqual (operator_span : Span) (lhs rhs : ExpressionId)
  | ELessThan (operator_span : Span) (lhs rhs : ExpressionId)
  | ELessEqual (operator_span : Span) (lhs rhs : ExpressionId)
  | EGreaterThan (operator_span : Span) (lhs rhs : ExpressionId)
  | EGreaterEqual (operator_span : Span) (lhs rhs : ExpressionId)
  | ECall (callee : IdentifierSyntax) (open_paren_span : Span) (arguments : list ExpressionId)
      (close_paren_span : Span).

Record ExpressionSyntax := mkExpressionSyntax { es_span : Span; es_kind : ExpressionKind }.

Record ElseSyntax := mkElseSyntax { el_keyword_span : Span; el_block : SBlockId }.

Inductive StatementKind :=
  | SLocalDeclaration (keyword_span : Span) (mutable : bool) (name : IdentifierSyntax)
      (type_syntax : TypeSyntax) (equals_span : Span) (initializer : ExpressionId) (semicolon_span : Span)
  | SAssignment (target : IdentifierSyntax) (equals_span : Span) (value : ExpressionId) (semicolon_span : Span)
  | SReturn (keyword_span : Span) (value : ExpressionId) (semicolon_span : Span)
  | SBlock (block : SBlockId)
  | SIf (keyword_span open_paren_span : Span) (condition : ExpressionId) (close_paren_span : Span)
      (then_block : SBlockId) (else_clause : option ElseSyntax)
  | SWhile (keyword_span open_paren_span : Span) (condition : ExpressionId) (close_paren_span : Span)
      (body_block : SBlockId).

Record StatementSyntax := mkStatementSyntax { ss_span : Span; ss_kind : StatementKind }.

Record BlockSyntax := mkBlockSyntax {
  bs_span : Span; bs_open_brace_span : Span; bs_statements : list StatementId; bs_close_brace_span : Span }.

Record FunctionBodySyntax := mkFunctionBodySyntax {
  fb_span : Span;
  fb_root_block : SBlockId;
  fb_blocks : list BlockSyntax;
  fb_statements : list StatementSyntax;
  fb_expressions : list ExpressionSyntax }.

(** ** Declarations *)

Record FunctionSyntax := mkFunctionSyntax {
  fs_span : Span;
  fs_export_span : option Span;
  fs_function_span : Span;
  fs_name : IdentifierSyntax;
  fs_parameters : list ParameterSyntax;
  fs_result_type : TypeSyntax;
  fs_body : FunctionBodySyntax }.

Record ModuleSpecifierSyntax := mkModuleSpecifierSyntax {
  sp_text : string; sp_token_span : Span; sp_value_span : Span }.
Record ImportBindingSyntax := mkImportBindingSyntax {
  ib_span : Span; ib_imported : IdentifierSyntax; ib_local : IdentifierSyntax; ib_as_span : option Span }.
Record ImportSyntax := mkImportSyntax {
  im_span : Span;
  im_import_span : Span;
  im_bindings : list ImportBindingSyntax;
  im_from_span : Span;
  im_specifier : ModuleSpecifierSyntax;
  im_semicolon_span : Span }.

Record SourceUnit := mkSourceUnit {
  su_id : FileId;
  su_path : NormalizedSourcePath;
  su_imports : list ImportSyntax;
  su_functions : list FunctionSyntax }.

Record ProjectSyntaxSnapshot := mkSnapshot {
  sn_source_map : N;
  sn_schema_version : N;
  sn_files : list SourceUnit;
  sn_diagnostics : list Diagnostic }.

(** [ProjectSyntaxSnapshot::is_bound_to] *)
Definition is_bound_to (snapshot : ProjectSyntaxSnapshot) (sources : SourceMap) : bool :=
  (sn_source_map snapshot =? sm_id sources)%N
  && (len (sn_files snapshot) =? sm_len sources)%N
  && forallb (fun file =>
       match sm_source sources (su_id file) with
       | Some source => bool_decide (sf_path source = su_path file)
       | None => false
       end) (sn_files snapshot)
  && forallb (fun span => is_ok (resolve sources span)) (omap diag_primary_span (sn_diagnostics snapshot)).

(** [expression_children] *)
Definition expression_children (kind : ExpressionKind) : list ExpressionId :=
  match kind with
  | EReference _ | EBoolLiteral _ | EI32Literal _ => []
  | ENegation _ operand => [operand]
  | EAddition _ lhs rhs | ESubtraction _ lhs rhs | EMultiplication _ lhs rhs
  | EEqual _ lhs rhs | ENotEqual _ lhs rhs
  | ELessThan _ lhs rhs | ELessEqual _ lhs rhs
  | EGreaterThan _ lhs rhs | EGreaterEqual _ lhs rhs => [lhs; rhs]
  | ECall _ _ arguments _ => arguments
  end.
