(* ===== verification/Snapshot.v ===== *)
(** * Verification of syntax snapshots ([crates/zryna-syntax/src/v3.rs])

    A snapshot arrives as raw claims of the front end.  [verify_snapshot] checks
    the budgets, every span and spelling against the source map, and the
    ownership and the canonical order of the arenas of every function body; it
    yields the verified snapshot of [Syntax] or bounded diagnostics. *)
From Stdlib Require Import Ascii.
From stdpp Require Import base numbers list strings pretty.
From S2P Require Import Prelude Source Diagnostics Syntax.

(** ** Limits *)

Definition PROTOCOL_VERSION : N := 3.
Definition MAX_AGGREGATE_SOURCE_BYTES : N := 8 * 1024 * 1024.
Definition MAX_IMPORTS_PER_MODULE : N := 4096.
Definition MAX_IMPORTS_PER_PROJECT : N := 65536.
Definition MAX_IMPORTED_NAMES_PER_DECLARATION : N := 256.
Definition MAX_IMPORTED_NAMES_PER_PROJECT : N := 65536.
Definition MAX_FUNCTIONS_PER_MODULE : N := 4096.
Definition MAX_FUNCTIONS_PER_PROJECT : N := 16384.
Definition MAX_PARAMETERS_PER_FUNCTION : N := 256.
Definition MAX_PARAMETERS_PER_PROJECT : N := 262144.
Definition MAX_BLOCKS_PER_FUNCTION : N := 4096.
Definition MAX_BLOCKS_PER_PROJECT : N := 65536.
Definition MAX_STATEMENTS_PER_FUNCTION : N := 4096.
Definition MAX_STATEMENTS_PER_PROJECT : N := 65536.
Definition MAX_EXPRESSIONS_PER_FUNCTION : N := 16384.
Definition MAX_EXPRESSIONS_PER_PROJECT : N := 262144.
Definition MAX_LOCALS_PER_FUNCTION : N := 4096.
Definition MAX_LOCALS_PER_PROJECT : N := 65536.
Definition MAX_NESTING_DEPTH : N := 128.
Definition MAX_MODULE_SPECIFIER_BYTES : N := 1024.
Definition MAX_NAME_CHARACTERS : N := 1024.
Definition MAX_LITERAL_BYTES : N := 64.
Definition MAX_PROVIDER_DIAGNOSTICS : N := 256.
Definition MAX_DIAGNOSTIC_TEXT_CHARACTERS : N := 4096.
Definition MAX_VALIDATION_ERRORS : N := 256.

(** ** Raw claims *)

Record RawIdentifierSyntax := mkRawIdentifier { ri_text : string; ri_span : UntrustedSpan }.
Inductive RawTypeSyntaxKind := RawTyMissing | RawTyNamed (name : string).
Record RawTypeSyntax := mkRawType { rt_span : UntrustedSpan; rt_kind : RawTypeSyntaxKind }.
Record RawParameterSyntax := mkRawParameter {
  rp_span : UntrustedSpan; rp_name : RawIdentifierSyntax; rp_type : RawTypeSyntax }.

Inductive RawExpressionKind :=
  | REReference (name : RawIdentifierSyntax)
  | REBoolLiteral (value : bool)
  | REI32Literal (spelling : string)
  | RENegation (operator_span : UntrustedSpan) (operand : N)
  | REAddition (operator_span : UntrustedSpan) (lhs rhs : N)
  | RESubtraction (operator_span : UntrustedSpan) (lhs rhs : N)
  | REMultiplication (operator_span : UntrustedSpan) (lhs rhs : N)
  | REEqual (operator_span : UntrustedSpan) (lhs rhs : N)
  | RENotEqual (operator_span : UntrustedSpan) (lhs rhs : N)
  | RELessThan (operator_span : UntrustedSpan) (lhs rhs : N)
  | RELessEqual (operator_span : UntrustedSpan) (lhs rhs : N)
  | REGreaterThan (operator_span : UntrustedSpan) (lhs rhs : N)
  | REGreaterEqual (operator_span : UntrustedSpan) (lhs rhs : N)
  | RECall (callee : RawIdentifierSyntax) (open_paren_span : UntrustedSpan) (arguments : list N)
      (close_paren_span : UntrustedSpan).
Record RawExpressionSyntax := mkRawExpression { re_span : UntrustedSpan; re_kind : RawExpressionKind }.

Record RawElseSyntax := mkRawElse { rl_keyword_span : UntrustedSpan; rl_block : N }.
Inductive RawStatementKind :=
  | RSLocalDeclaration (keyword_span : UntrustedSpan) (mutable : bool) (name : RawIdentifierSyntax)
      (type_syntax : RawTypeSyntax) (equals_span : UntrustedSpan) (initializer : N) (semicolon_span : UntrustedSpan)
  | RSAssignment (target : RawIdentifierSyntax) (equals_span : UntrustedSpan) (value : N)
      (semicolon_span : UntrustedSpan)
  | RSReturn (keyword_span : UntrustedSpan) (value : N) (semicolon_span : UntrustedSpan)
  | RSBlock (block : N)
  | RSIf (keyword_span open_paren_span : UntrustedSpan) (condition : N) (close_paren_span : UntrustedSpan)
      (then_block : N) (else_clause : option RawElseSyntax)
  | RSWhile (keyword_span open_paren_span : UntrustedSpan) (condition : N) (close_paren_span : UntrustedSpan)
      (body_block : N).
Record RawStatementSyntax := mkRawStatement { rm_span : UntrustedSpan; rm_kind : RawStatementKind }.
Record RawBlockSyntax := mkRawBlock {
  rb_span : UntrustedSpan; rb_open_brace_span : UntrustedSpan; rb_statements : list N;
  rb_close_brace_span : UntrustedSpan }.
Record RawFunctionBodySyntax := mkRawBody {
  ry_span : UntrustedSpan;
  ry_root_block : N;
  ry_blocks : list RawBlockSyntax;
  ry_statements : list RawStatementSyntax;
  ry_expressions : list RawExpressionSyntax }.
Record RawFunctionSyntax := mkRawFunction {
  rf_span : UntrustedSpan;
  rf_export_span : option UntrustedSpan;
  rf_function_span : UntrustedSpan;
  rf_name : RawIdentifierSyntax;
  rf_parameters : list RawParameterSyntax;
  rf_result_type : RawTypeSyntax;
  rf_body : RawFunctionBodySyntax }.

Record RawModuleSpecifierSyntax := mkRawSpecifier {
  rc_text : string; rc_token_span : UntrustedSpan; rc_value_span : UntrustedSpan }.
Record RawImportBindingSyntax := mkRawBinding {
  rg_span : UntrustedSpan; rg_imported : RawIdentifierSyntax; rg_local : RawIdentifierSyntax;
  rg_as_span : option UntrustedSpan }.
Record RawImportSyntax := mkRawImport {
  rj_span : UntrustedSpan;
  rj_import_span : UntrustedSpan;
  rj_bindings : list RawImportBindingSyntax;
  rj_from_span : UntrustedSpan;
  rj_specifier : RawModuleSpecifierSyntax;
  rj_semicolon_span : UntrustedSpan }.
Record RawSourceUnit := mkRawUnit {
  ru_id : N;
  ru_path : string;
  ru_imports : list RawImportSyntax;
  ru_functions : list RawFunctionSyntax }.

Inductive RawDiagnosticLocation := RawGlobal | RawSource (span : UntrustedSpan).
Record RawProviderDiagnostic := mkRawDiagnostic {
  rd_code : string; rd_severity : Severity; rd_location : RawDiagnosticLocation;
  rd_message : string; rd_guidance : string }.
Record RawProjectSyntaxSnapshot := mkRawSnapshot {
  rs_schema_version : N;
  rs_files : list RawSourceUnit;
  rs_diagnostics : list RawProviderDiagnostic }.

(** ** Errors *)

Definition limit_error (message : string) : Diagnostic :=
  diag_error "ZRYNA-F1201" None message "reduce the bounded protocol-v3 input".

Record YErrors := mkYErrors { ye_items : list Diagnostic; ye_truncated : bool }.
Definition no_syntax_errors : YErrors := mkYErrors [] false.
(** [Errors::push] *)
Definition ye_push (d : Diagnostic) (e : YErrors) : YErrors :=
  if (len (ye_items e) <? MAX_VALIDATION_ERRORS - 1)%N then mkYErrors (ye_items e ++ [d]) (ye_truncated e)
  else mkYErrors (ye_items e) true.
(** [sort_by_key(ToString::to_string)] *)
Definition sort_displayed (l : list Diagnostic) : list Diagnostic :=
  sort_by (fun a b => match str_cmp (diag_display a) (diag_display b) with Gt => false | _ => true end) l.
(** [Errors::finish] *)
Definition ye_finish (e : YErrors) : list Diagnostic :=
  sort_displayed (ye_items e) ++
  (if ye_truncated e then [limit_error "validation diagnostics exceeded the deterministic limit"] else []).

(** A state with the errors *)
Class HasYErrors (S : Type) := {
  yerrors_of : S -> YErrors;
  map_yerrors : (YErrors -> YErrors) -> S -> S;
  yerrors_of_map f s : yerrors_of (map_yerrors f s) = f (yerrors_of s) }.
#[export] Instance YErrors_errors : HasYErrors YErrors :=
  {| yerrors_of := id; map_yerrors f s := f s; yerrors_of_map f s := eq_refl |}.

Section reports.
Context {S : Type} `{HasYErrors S} {R : Type}.
(** [Errors::protocol], [Errors::node] and [Errors::limit] *)
Definition protocol_error (path : option string) (message : string) : SM S R unit :=
  smodify (map_yerrors (ye_push (diag_error "ZRYNA-Y2001" path message "return the exact protocol-v3 contract"))).
Definition node_error (path : NormalizedSourcePath) (message : string) : SM S R unit :=
  smodify (map_yerrors (ye_push (diag_error "ZRYNA-Y2002" (Some path) message
    "return source-faithful canonical syntax"))).
Definition nesting_error (message : string) : SM S R unit := smodify (map_yerrors (ye_push (limit_error message))).
End reports.

(** ** Budgets *)

Record Counts := mkCounts {
  c_imports : N; c_imported_names : N; c_functions : N; c_parameters : N;
  c_blocks : N; c_statements : N; c_expressions : N; c_locals : N }.
Definition no_counts : Counts := mkCounts 0 0 0 0 0 0 0 0.
Definition exceeds_project_limits (c : Counts) : bool :=
  ((MAX_IMPORTS_PER_PROJECT <? c_imports c)
   || (MAX_IMPORTED_NAMES_PER_PROJECT <? c_imported_names c)
   || (MAX_FUNCTIONS_PER_PROJECT <? c_functions c)
   || (MAX_PARAMETERS_PER_PROJECT <? c_parameters c)
   || (MAX_BLOCKS_PER_PROJECT <? c_blocks c)
   || (MAX_STATEMENTS_PER_PROJECT <? c_statements c)
   || (MAX_EXPRESSIONS_PER_PROJECT <? c_expressions c)
   || (MAX_LOCALS_PER_PROJECT <? c_locals c))%N.

Definition over {A} (message : string) : result Diagnostic A := Err (limit_error message).
(** [if !checked_add(&mut total, value) { return Some(limit_error(message)) }] *)
Definition counted (message : string) (total value : N) : result Diagnostic N :=
  ok_or (checked_add u64_max total value) (limit_error message).

(** The aggregate size of the sources with the indices [indices] *)
Fixpoint count_source_bytes (sources : SourceMap) (indices : list nat) (total : N) : result Diagnostic N :=
  match indices with
  | [] => Ok total
  | index :: indices =>
      match try_u32 (N.of_nat index) with
      | None => over "source file count cannot be represented by protocol v3"
      | Some raw_id =>
          match verify_file_id sources raw_id with
          | Err _ => over "source map contains a non-canonical file id"
          | Ok id =>
              match sm_source sources id with
              | None => over "source map contains an unavailable file"
              | Some source =>
                  total ← counted "source byte count overflowed" total (text_len (sf_text source));
                  count_source_bytes sources indices total
              end
          end
      end
  end.

Fixpoint count_imported_names (imports : list RawImportSyntax) (total : N) : result Diagnostic N :=
  match imports with
  | [] => Ok total
  | import :: imports =>
      let names := len (rj_bindings import) in
      let message := "imported-name count exceeds its protocol-v3 limit" in
      if (names =? 0)%N || (MAX_IMPORTED_NAMES_PER_DECLARATION <? names)%N then over message
      else total ← counted message total names; count_imported_names imports total
  end.

Definition is_local_declaration (statement : RawStatementSyntax) : bool :=
  match rm_kind statement with RSLocalDeclaration _ _ _ _ _ _ _ => true | _ => false end.
Definition too_many_arguments (expression : RawExpressionSyntax) : bool :=
  match re_kind expression with
  | RECall _ _ arguments _ => (MAX_PARAMETERS_PER_FUNCTION <? len arguments)%N
  | _ => false
  end.
Definition count_function (c : Counts) (function : RawFunctionSyntax) : result Diagnostic Counts :=
  let fbody := rf_body function in
  if (MAX_PARAMETERS_PER_FUNCTION <? len (rf_parameters function))%N
     || (len (ry_blocks fbody) =? 0)%N
     || (MAX_BLOCKS_PER_FUNCTION <? len (ry_blocks fbody))%N
     || (MAX_STATEMENTS_PER_FUNCTION <? len (ry_statements fbody))%N
     || (MAX_EXPRESSIONS_PER_FUNCTION <? len (ry_expressions fbody))%N
  then over "one function exceeds a protocol-v3 collection limit"
  else if existsb (fun block => (MAX_STATEMENTS_PER_FUNCTION <? len (rb_statements block))%N) (ry_blocks fbody)
     || existsb too_many_arguments (ry_expressions fbody)
  then over "one arena edge list exceeds its protocol-v3 limit"
  else
    let overflowed := "syntax node count overflowed" in
    parameters ← counted overflowed (c_parameters c) (len (rf_parameters function));
    blocks ← counted overflowed (c_blocks c) (len (ry_blocks fbody));
    statements ← counted overflowed (c_statements c) (len (ry_statements fbody));
    expressions ← counted overflowed (c_expressions c) (len (ry_expressions fbody));
    let local_count := len (List.filter is_local_declaration (ry_statements fbody)) in
    let message := "local declaration count exceeds its protocol-v3 limit" in
    if (MAX_LOCALS_PER_FUNCTION <? local_count)%N then over message
    else
      locals ← counted message (c_locals c) local_count;
      Ok (mkCounts (c_imports c) (c_imported_names c) (c_functions c) parameters blocks statements expressions locals).
Fixpoint count_functions (c : Counts) (functions : list RawFunctionSyntax) : result Diagnostic Counts :=
  match functions with
  | [] => Ok c
  | function :: functions => c ← count_function c function; count_functions c functions
  end.
Fixpoint count_files (c : Counts) (files : list RawSourceUnit) : result Diagnostic Counts :=
  match files with
  | [] => Ok c
  | file :: files =>
      if (MAX_IMPORTS_PER_MODULE <? len (ru_imports file))%N || (MAX_FUNCTIONS_PER_MODULE <? len (ru_functions file))%N
      then over "one module exceeds a protocol-v3 declaration limit"
      else
        let overflowed := "syntax declaration count overflowed" in
        imports ← counted overflowed (c_imports c) (len (ru_imports file));
        functions ← counted overflowed (c_functions c) (len (ru_functions file));
        names ← count_imported_names (ru_imports file) (c_imported_names c);
        c ← count_functions (mkCounts imports names functions (c_parameters c) (c_blocks c) (c_statements c)
               (c_expressions c) (c_locals c)) (ru_functions file);
        count_files c files
  end.

(** [budget_error]: [Err] is the error it returns. *)
Definition budget_error (raw : RawProjectSyntaxSnapshot) (sources : SourceMap) : result Diagnostic unit :=
  if (MAX_SOURCE_FILES <? len (rs_files raw))%N then over "syntax snapshot exceeds the source-file limit"
  else if (MAX_PROVIDER_DIAGNOSTICS <? len (rs_diagnostics raw))%N then
    over "provider diagnostics exceed the protocol-v3 limit"
  else
    source_bytes ← count_source_bytes sources (seq 0 (N.to_nat (sm_len sources))) 0;
    if (MAX_AGGREGATE_SOURCE_BYTES <? source_bytes)%N then
      over "source map exceeds the protocol-v3 aggregate byte limit"
    else
      c ← count_files no_counts (rs_files raw);
      if exceeds_project_limits c then over "syntax snapshot exceeds an aggregate protocol-v3 limit" else Ok tt.

(** ** Text *)

(** The characters of a UTF-8 string: the bytes that do not continue one *)
Fixpoint char_count (s : string) : N :=
  match s with
  | EmptyString => 0
  | String a rest => (if ((128 <=? byte_of a) && (byte_of a <? 192))%N then 0 else 1) + char_count rest
  end%N.
(** [chars().any(char::is_control)]: below 32, 127, and 128 to 159 *)
Fixpoint has_control (s : string) : bool :=
  match s with
  | EmptyString => false
  | String a rest =>
      is_ascii_control a
      || (match rest with
          | String b _ => (byte_of a =? 194)%N && (128 <=? byte_of b)%N && (byte_of b <=? 159)%N
          | EmptyString => false
          end)
      || has_control rest
  end.
Definition bounded_text (value : string) (limit : N) : bool :=
  negb (String.eqb value "") && negb (has_control value) && (char_count value <=? limit)%N.

Definition valid_integer (value : string) : bool :=
  if String.eqb value "" || (MAX_LITERAL_BYTES <? slen value)%N || negb (is_ascii value) then false
  else
    let digits := default value (strip_prefix "-" value) in
    negb (String.eqb digits "")
    && (String.eqb digits "0" || (negb (starts_with "0" digits) && str_all is_ascii_digit digits))
    && negb (String.eqb value "-0").

(** [trim_start_matches("../")] *)
Fixpoint trim_parents (s : string) : string :=
  match s with
  | String a (String b (String c rest)) =>
      if Ascii.eqb a "."%char && Ascii.eqb b "."%char && Ascii.eqb c "/"%char then trim_parents rest else s
  | _ => s
  end.
Definition valid_specifier (value : string) : bool :=
  if String.eqb value "" || (MAX_MODULE_SPECIFIER_BYTES <? slen value)%N || negb (is_ascii value)
     || negb (starts_with "./" value || starts_with "../" value)
     || negb (ends_with ".zry" value)
     || str_contains_any ["\"%char; "?"%char; "#"%char; Ascii.zero] value
     || str_contains "://" value
  then false
  else
    let tail := default (trim_parents value) (strip_prefix "./" value) in
    negb (String.eqb tail "") && forallb (fun part => negb (String.eqb part "")) (split_on "/"%char value).

Fixpoint string_bytes (s : string) : list N :=
  match s with EmptyString => [] | String a rest => byte_of a :: string_bytes rest end.
(** [span_text] *)
Definition span_text (sources : SourceMap) (span : Span) : option (list scalar) :=
  match resolve sources span with
  | Ok resolved => slice_bytes (sf_text (rs_source resolved)) (span_start span) (span_end span)
  | Err _ => None
  end.
(** [span_text(span, sources) == Some(text)] *)
Definition spells (sources : SourceMap) (span : Span) (text : string) : bool :=
  match span_text sources span with
  | Some t => bool_decide (utf8_encode t = string_bytes text)
  | None => false
  end.

(** ** Nodes

    A [?] leaves the function with [None]. *)

Section nodes.
Context {S : Type} `{HasYErrors S} (file : N) (path : NormalizedSourcePath) (sources : SourceMap).
Notation VM := (SM S unit).

Definition node_span (raw : UntrustedSpan) (label : string) : VM Span :=
  if negb (u_file raw =? file)%N then node_error path (label +:+ " uses the wrong file id");; leave tt
  else
    match verify_span sources raw with
    | Err _ => node_error path (label +:+ " span is invalid");; leave tt
    | Ok span => mret span
    end.
Definition require_text (span : Span) (expected label : string) : VM unit :=
  swhen (negb (spells sources span expected))
    (node_error path (label +:+ " spelling disagrees with authoritative source")).
Definition token (raw : UntrustedSpan) (text label : string) : VM Span :=
  span ← node_span raw label; require_text span text label;; mret span.
Definition contains (parent child : Span) (label : string) : VM unit :=
  swhen (bool_decide (span_file parent <> span_file child)
         || (span_start child <? span_start parent)%N || (span_end parent <? span_end child)%N)
    (node_error path (label +:+ " is outside its owner span")).
Definition require_order (before after : Span) (label : string) : VM unit :=
  swhen (bool_decide (span_file before <> span_file after) || (span_start after <? span_end before)%N)
    (node_error path (label +:+ " are not in source order")).

Definition identifier (raw : RawIdentifierSyntax) (label : string) : VM IdentifierSyntax :=
  if negb (bounded_text (ri_text raw) MAX_NAME_CHARACTERS) then
    nesting_error "identifier exceeds the limit";; leave tt
  else
    span ← node_span (ri_span raw) label;
    require_text span (ri_text raw) label;;
    mret (mkIdentifier (ri_text raw) span).

Definition type_syntax (raw : RawTypeSyntax) (label : string) : VM TypeSyntax :=
  span ← node_span (rt_span raw) label;
  match rt_kind raw with
  | RawTyMissing =>
      swhen (negb (span_start span =? span_end span)%N)
        (node_error path "missing type must use an empty insertion span");;
      mret (mkTypeSyntax span TyMissing)
  | RawTyNamed name =>
      if negb (bounded_text name MAX_NAME_CHARACTERS) then
        nesting_error "type spelling exceeds the limit";; leave tt
      else require_text span name label;; mret (mkTypeSyntax span (TyNamed name))
  end.

(** ** Imports *)

Definition verify_binding (span : Span) (previous_end : N) (raw : RawImportBindingSyntax) : VM ImportBindingSyntax :=
  binding_span ← node_span (rg_span raw) "import binding";
  imported ← identifier (rg_imported raw) "imported name";
  local ← identifier (rg_local raw) "local import name";
  contains binding_span (is_span imported) "imported name";;
  contains binding_span (is_span local) "local name";;
  as_span ← match rg_as_span raw with Some value => catch (token value "as" "as keyword") | None => mret None end;
  contains span binding_span "import binding";;
  match as_span with
  | Some as_span =>
      contains binding_span as_span "as keyword";;
      require_order (is_span imported) as_span "imported name and as keyword";;
      require_order as_span (is_span local) "as keyword and local name"
  | None => mret tt
  end;;
  swhen (bool_decide (as_span = None)
         && (negb (String.eqb (is_text imported) (is_text local)) || bool_decide (is_span imported <> is_span local)))
    (node_error path "unaliased import must repeat the exact imported identifier");;
  swhen (span_start binding_span <? previous_end)%N (node_error path "import bindings are not in source order");;
  mret (mkImportBindingSyntax binding_span imported local as_span).
Fixpoint verify_bindings (span : Span) (previous_end : N) (raws : list RawImportBindingSyntax)
    : VM (list ImportBindingSyntax * N) :=
  match raws with
  | [] => mret ([], previous_end)
  | raw :: raws =>
      binding ← verify_binding span previous_end raw;
      r ← verify_bindings span (span_end (ib_span binding)) raws;
      mret (binding :: r.1, r.2)
  end.

Definition module_specifier (raw : RawModuleSpecifierSyntax) : VM ModuleSpecifierSyntax :=
  if negb (valid_specifier (rc_text raw)) then
    node_error path "module specifier is not canonical explicit relative .zry syntax";; leave tt
  else
    token_span ← node_span (rc_token_span raw) "module specifier token";
    value_span ← node_span (rc_value_span raw) "module specifier value";
    contains token_span value_span "module specifier value";;
    require_text value_span (rc_text raw) "module specifier value";;
    let quote (c : Ascii.ascii) : string := String c (rc_text raw +:+ String c EmptyString) in
    swhen (negb (spells sources token_span (quote (Ascii.ascii_of_N 34)) || spells sources token_span (quote "'"%char)))
      (node_error path "module specifier token must be an unescaped quoted canonical value");;
    mret (mkModuleSpecifierSyntax (rc_text raw) token_span value_span).

Definition verify_import (raw : RawImportSyntax) : VM ImportSyntax :=
  span ← node_span (rj_span raw) "import";
  import_span ← token (rj_import_span raw) "import" "import keyword";
  from_span ← token (rj_from_span raw) "from" "from keyword";
  semicolon_span ← token (rj_semicolon_span raw) ";" "import semicolon";
  contains span import_span "import keyword";;
  contains span from_span "from keyword";;
  contains span semicolon_span "semicolon";;
  r ← verify_bindings span (span_end import_span) (rj_bindings raw);
  let '(bindings, previous_end) := r in
  specifier ← module_specifier (rj_specifier raw);
  contains span (sp_token_span specifier) "module specifier";;
  swhen ((span_start from_span <? previous_end)
         || (span_start (sp_token_span specifier) <? span_end from_span)
         || (span_start semicolon_span <? span_end (sp_token_span specifier)))%N
    (node_error path "import tokens are not in source order");;
  mret (mkImportSyntax span import_span bindings from_span specifier semicolon_span).

(** ** Signatures *)

Definition verify_parameter (span : Span) (previous_end : N) (raw : RawParameterSyntax) : VM ParameterSyntax :=
  parameter_span ← node_span (rp_span raw) "parameter";
  name ← identifier (rp_name raw) "parameter name";
  ty ← type_syntax (rp_type raw) "parameter type";
  contains parameter_span (is_span name) "parameter name";;
  contains parameter_span (ts_span ty) "parameter type";;
  contains span parameter_span "parameter";;
  require_order (is_span name) (ts_span ty) "parameter name and type";;
  swhen (span_start parameter_span <? previous_end)%N (node_error path "parameters are not in source order");;
  mret (mkParameterSyntax parameter_span name ty).
Fixpoint verify_parameters (span : Span) (previous_end : N) (raws : list RawParameterSyntax)
    : VM (list ParameterSyntax) :=
  match raws with
  | [] => mret []
  | raw :: raws =>
      parameter ← verify_parameter span previous_end raw;
      rest ← verify_parameters span (span_end (ps_span parameter)) raws;
      mret (parameter :: rest)
  end.
Fixpoint contains_all (parent : Span) (children : list Span) (label : string) : VM unit :=
  match children with
  | [] => mret tt
  | child :: children => contains parent child label;; contains_all parent children label
  end.
End nodes.

(** ** Arenas of a function body *)

Definition saturating_succ (n : N) : N := N.min u32_max (n + 1).

(** The errors and the local tables of [verify_body] *)
Record BodyState := mkBodyState {
  by_errors : YErrors;
  by_expression_owners : list N;
  by_expression_depths : list N;
  by_block_owners : list N;
  by_statement_owners : list N;
  by_roots : list ExpressionId }.
#[export] Instance BodyState_errors : HasYErrors BodyState := {|
  yerrors_of := by_errors;
  map_yerrors f s := mkBodyState (f (by_errors s)) (by_expression_owners s) (by_expression_depths s)
    (by_block_owners s) (by_statement_owners s) (by_roots s);
  yerrors_of_map f s := eq_refl |}.
Definition set_expression_owners (x : list N) (s : BodyState) : BodyState :=
  mkBodyState (by_errors s) x (by_expression_depths s) (by_block_owners s) (by_statement_owners s) (by_roots s).
Definition set_expression_depths (x : list N) (s : BodyState) : BodyState :=
  mkBodyState (by_errors s) (by_expression_owners s) x (by_block_owners s) (by_statement_owners s) (by_roots s).
Definition set_block_owners (x : list N) (s : BodyState) : BodyState :=
  mkBodyState (by_errors s) (by_expression_owners s) (by_expression_depths s) x (by_statement_owners s) (by_roots s).
Definition set_statement_owners (x : list N) (s : BodyState) : BodyState :=
  mkBodyState (by_errors s) (by_expression_owners s) (by_expression_depths s) (by_block_owners s) x (by_roots s).
Definition set_roots (x : list ExpressionId) (s : BodyState) : BodyState :=
  mkBodyState (by_errors s) (by_expression_owners s) (by_expression_depths s) (by_block_owners s)
    (by_statement_owners s) x.

Section body.
Context (file : N) (path : NormalizedSourcePath) (sources : SourceMap) (body_span : Span).
Notation BM := (SM BodyState unit).
Notation node_span := (node_span file path sources).
Notation token := (token file path sources).
Notation identifier := (identifier file path sources).
Notation type_syntax := (type_syntax file path sources).
Notation require_text := (require_text path sources).
Notation contains := (contains path).
Notation require_order := (require_order path).

Definition expression_edge (index : nat) (raw_id : N) : BM ExpressionId :=
  let child := N.to_nat raw_id in
  if Nat.leb index child then node_error path "expression edge is not canonical postorder";; leave tt
  else
    owners ← sgets by_expression_owners;
    owner ← or_leave (owners !! child) tt;
    smodify (set_expression_owners (<[child := saturating_succ owner]> owners));;
    depths ← sgets by_expression_depths;
    depth ← or_leave (depths !! child) tt;
    own ← sexpect (depths !! index);
    smodify (set_expression_depths (<[index := N.max own (saturating_succ depth)]> depths));;
    mret raw_id.

Definition binary_edges (index : nat) (expressions : list ExpressionSyntax) (span : Span)
    (operator_span : UntrustedSpan) (lhs rhs : N) (expected : string) : BM (Span * ExpressionId * ExpressionId) :=
  operator_span ← token operator_span expected "operator";
  lhs ← expression_edge index lhs;
  rhs ← expression_edge index rhs;
  lhs_span ← or_leave (es_span <$> get expressions lhs) tt;
  rhs_span ← or_leave (es_span <$> get expressions rhs) tt;
  contains span lhs_span "left operand";;
  contains span operator_span "binary operator";;
  contains span rhs_span "right operand";;
  require_order lhs_span operator_span "left operand and operator";;
  require_order operator_span rhs_span "operator and right operand";;
  mret (operator_span, lhs, rhs).

(** [filter_map] of the edges: an invalid one is dropped. *)
Fixpoint call_edges (index : nat) (arguments : list N) : BM (list ExpressionId) :=
  match arguments with
  | [] => mret []
  | argument :: arguments =>
      edge ← catch (expression_edge index argument);
      rest ← call_edges index arguments;
      mret (match edge with Some id => id :: rest | None => rest end)
  end.
Fixpoint verify_arguments (expressions : list ExpressionSyntax) (span previous : Span) (arguments : list ExpressionId)
    : BM Span :=
  match arguments with
  | [] => mret previous
  | argument :: arguments =>
      argument_span ← or_leave (es_span <$> get expressions argument) tt;
      contains span argument_span "call argument";;
      require_order previous argument_span "call arguments";;
      verify_arguments expressions span argument_span arguments
  end.

Definition verify_expression_kind (index : nat) (expressions : list ExpressionSyntax) (span : Span)
    (raw : RawExpressionKind) : BM ExpressionKind :=
  let binary operation operator_span lhs rhs expected : BM ExpressionKind :=
    r ← binary_edges index expressions span operator_span lhs rhs expected;
    mret (operation r.1.1 r.1.2 r.2) in
  match raw with
  | REReference name =>
      name ← identifier name "reference";
      contains span (is_span name) "reference name";;
      mret (EReference name)
  | REBoolLiteral value =>
      require_text span (if value then "true" else "false") "boolean literal";; mret (EBoolLiteral value)
  | REI32Literal spelling =>
      swhen (negb (valid_integer spelling)) (node_error path "integer literal spelling is not canonical");;
      require_text span spelling "integer literal";;
      mret (EI32Literal spelling)
  | RENegation operator_span operand =>
      operator_span ← token operator_span "-" "negation";
      operand ← expression_edge index operand;
      operand_span ← or_leave (es_span <$> get expressions operand) tt;
      contains span operator_span "negation operator";;
      contains span operand_span "negation operand";;
      require_order operator_span operand_span "negation operator and operand";;
      mret (ENegation operator_span operand)
  | REAddition o l r => binary EAddition o l r "+"
  | RESubtraction o l r => binary ESubtraction o l r "-"
  | REMultiplication o l r => binary EMultiplication o l r "*"
  | REEqual o l r => binary EEqual o l r "==="
  | RENotEqual o l r => binary ENotEqual o l r "!=="
  | RELessThan o l r => binary ELessThan o l r "<"
  | RELessEqual o l r => binary ELessEqual o l r "<="
  | REGreaterThan o l r => binary EGreaterThan o l r ">"
  | REGreaterEqual o l r => binary EGreaterEqual o l r ">="
  | RECall callee open_paren_span arguments close_paren_span =>
      callee ← identifier callee "call callee";
      open ← token open_paren_span "(" "call open parenthesis";
      close ← token close_paren_span ")" "call close parenthesis";
      arguments ← call_edges index arguments;
      contains span (is_span callee) "call callee";;
      contains span open "call open parenthesis";;
      contains span close "call close parenthesis";;
      require_order (is_span callee) open "call callee and open parenthesis";;
      previous ← verify_arguments expressions span open arguments;
      require_order previous close "call close parenthesis";;
      mret (ECall callee open arguments close)
  end.

Definition verify_expression (index : nat) (expressions : list ExpressionSyntax) (raw : RawExpressionSyntax)
    : BM ExpressionSyntax :=
  span ← node_span (re_span raw) "expression";
  contains body_span span "expression";;
  depths ← sgets by_expression_depths;
  _ ← sexpect (depths !! index);
  smodify (set_expression_depths (<[index := 1%N]> depths));;
  kind ← verify_expression_kind index expressions span (re_kind raw);
  depths ← sgets by_expression_depths;
  depth ← sexpect (depths !! index);
  swhen (MAX_NESTING_DEPTH <? depth)%N (nesting_error "expression nesting exceeds the protocol-v3 limit");;
  mret (mkExpressionSyntax span kind).
(** The arena after its verified prefix *)
Fixpoint verify_expressions (expressions : list ExpressionSyntax) (raws : list RawExpressionSyntax)
    : BM (list ExpressionSyntax) :=
  match raws with
  | [] => mret expressions
  | raw :: raws =>
      expression ← verify_expression (length expressions) expressions raw;
      verify_expressions (expressions ++ [expression]) raws
  end.

(** ** Statements *)

Definition statement_expression (expression_count : nat) (raw_id : N) : BM ExpressionId :=
  let index := N.to_nat raw_id in
  if Nat.leb expression_count index then node_error path "statement references an unknown expression";; leave tt
  else
    owners ← sgets by_expression_owners;
    owner ← sexpect (owners !! index);
    smodify (set_expression_owners (<[index := saturating_succ owner]> owners));;
    smodify (fun s => set_roots (by_roots s ++ [raw_id]) s);;
    mret raw_id.
Definition statement_block (raw_id : N) : BM SBlockId :=
  let index := N.to_nat raw_id in
  owners ← sgets by_block_owners;
  match owners !! index with
  | None => node_error path "statement references an unknown block";; leave tt
  | Some owner => smodify (set_block_owners (<[index := saturating_succ owner]> owners));; mret raw_id
  end.
Definition verify_else (raw : RawElseSyntax) : BM ElseSyntax :=
  keyword_span ← token (rl_keyword_span raw) "else" "else keyword";
  block ← statement_block (rl_block raw);
  mret (mkElseSyntax keyword_span block).

Definition verify_statement_kind (expression_count : nat) (raw : RawStatementKind) : BM StatementKind :=
  match raw with
  | RSLocalDeclaration keyword_span mutable name ty equals_span initializer semicolon_span =>
      keyword ← token keyword_span (if mutable then "let" else "const") "local keyword";
      name ← identifier name "local name";
      ty ← type_syntax ty "local type";
      equals_span ← token equals_span "=" "initializer equals";
      initializer ← statement_expression expression_count initializer;
      semicolon_span ← token semicolon_span ";" "local semicolon";
      mret (SLocalDeclaration keyword mutable name ty equals_span initializer semicolon_span)
  | RSAssignment target equals_span value semicolon_span =>
      target ← identifier target "assignment target";
      equals_span ← token equals_span "=" "assignment equals";
      value ← statement_expression expression_count value;
      semicolon_span ← token semicolon_span ";" "assignment semicolon";
      mret (SAssignment target equals_span value semicolon_span)
  | RSReturn keyword_span value semicolon_span =>
      keyword_span ← token keyword_span "return" "return keyword";
      value ← statement_expression expression_count value;
      semicolon_span ← token semicolon_span ";" "return semicolon";
      mret (SReturn keyword_span value semicolon_span)
  | RSBlock block => block ← statement_block block; mret (SBlock block)
  | RSIf keyword_span open_paren_span condition close_paren_span then_block else_clause =>
      keyword_span ← token keyword_span "if" "if keyword";
      open_paren_span ← token open_paren_span "(" "if open parenthesis";
      condition ← statement_expression expression_count condition;
      close_paren_span ← token close_paren_span ")" "if close parenthesis";
      then_block ← statement_block then_block;
      else_clause ←
        match else_clause with
        | Some value => value ← verify_else value; mret (Some value)
        | None => mret None
        end;
      mret (SIf keyword_span open_paren_span condition close_paren_span then_block else_clause)
  | RSWhile keyword_span open_paren_span condition close_paren_span body_block =>
      keyword_span ← token keyword_span "while" "while keyword";
      open_paren_span ← token open_paren_span "(" "while open parenthesis";
      condition ← statement_expression expression_count condition;
      close_paren_span ← token close_paren_span ")" "while close parenthesis";
      body_block ← statement_block body_block;
      mret (SWhile keyword_span open_paren_span condition close_paren_span body_block)
  end.
Definition verify_statement (expression_count : nat) (raw : RawStatementSyntax) : BM StatementSyntax :=
  span ← node_span (rm_span raw) "statement";
  contains body_span span "statement";;
  kind ← verify_statement_kind expression_count (rm_kind raw);
  mret (mkStatementSyntax span kind).
Fixpoint verify_statements (expression_count : nat) (raws : list RawStatementSyntax) : BM (list StatementSyntax) :=
  match raws with
  | [] => mret []
  | raw :: raws =>
      statement ← verify_statement expression_count raw;
      rest ← verify_statements expression_count raws;
      mret (statement :: rest)
  end.

(** ** Blocks *)

(** The statements of a block: unknown ones are dropped. *)
Fixpoint verify_block_statements (statements : list StatementSyntax) (span : Span) (previous_end : N) (raws : list N)
    : BM (list StatementId * N) :=
  match raws with
  | [] => mret ([], previous_end)
  | raw_id :: raws =>
      let index := N.to_nat raw_id in
      match statements !! index with
      | None =>
          node_error path "block references an unknown statement";;
          verify_block_statements statements span previous_end raws
      | Some statement =>
          owners ← sgets by_statement_owners;
          owner ← sexpect (owners !! index);
          smodify (set_statement_owners (<[index := saturating_succ owner]> owners));;
          contains span (ss_span statement) "statement";;
          swhen (span_start (ss_span statement) <? previous_end)%N
            (node_error path "block statements are not in source order");;
          r ← verify_block_statements statements span (span_end (ss_span statement)) raws;
          mret (raw_id :: r.1, r.2)
      end
  end.
Definition verify_block (statements : list StatementSyntax) (raw : RawBlockSyntax) : BM BlockSyntax :=
  span ← node_span (rb_span raw) "block";
  contains body_span span "block";;
  open ← token (rb_open_brace_span raw) "{" "open brace";
  close ← token (rb_close_brace_span raw) "}" "close brace";
  contains span open "open brace";;
  contains span close "close brace";;
  r ← verify_block_statements statements span (span_end open) (rb_statements raw);
  let '(ids, previous_end) := r in
  swhen (span_start close <? previous_end)%N (node_error path "block contents are not in source order");;
  mret (mkBlockSyntax span open ids close).
Fixpoint verify_blocks (statements : list StatementSyntax) (raws : list RawBlockSyntax) : BM (list BlockSyntax) :=
  match raws with
  | [] => mret []
  | raw :: raws =>
      block ← verify_block statements raw;
      rest ← verify_blocks statements raws;
      mret (block :: rest)
  end.

(** The parts of a statement in source order *)
Definition statement_children (expressions : list ExpressionSyntax) (blocks : list BlockSyntax) (kind : StatementKind)
    : list (option Span) :=
  let expression_span id := es_span <$> get expressions id in
  let block_span id := bs_span <$> get blocks id in
  match kind with
  | SLocalDeclaration keyword _ name ty equals initializer semicolon =>
      [Some keyword; Some (is_span name); Some (ts_span ty); Some equals; expression_span initializer; Some semicolon]
  | SAssignment target equals value semicolon =>
      [Some (is_span target); Some equals; expression_span value; Some semicolon]
  | SReturn keyword value semicolon => [Some keyword; expression_span value; Some semicolon]
  | SBlock block => [block_span block]
  | SIf keyword open condition close then_block else_clause =>
      [Some keyword; Some open; expression_span condition; Some close; block_span then_block] ++
      match else_clause with Some value => [Some (el_keyword_span value); block_span (el_block value)] | None => [] end
  | SWhile keyword open condition close body_block =>
      [Some keyword; Some open; expression_span condition; Some close; block_span body_block]
  end.
Fixpoint verify_children (span : Span) (previous : option Span) (children : list Span) : BM unit :=
  match children with
  | [] => mret tt
  | child :: children =>
      contains span child "statement child";;
      match previous with Some before => require_order before child "statement children" | None => mret tt end;;
      verify_children span (Some child) children
  end.
Definition verify_statement_layout (expressions : list ExpressionSyntax) (blocks : list BlockSyntax)
    (statement : StatementSyntax) : BM unit :=
  verify_children (ss_span statement) None (omap id (statement_children expressions blocks (ss_kind statement))).
Fixpoint verify_layouts (expressions : list ExpressionSyntax) (blocks : list BlockSyntax)
    (statements : list StatementSyntax) : BM unit :=
  match statements with
  | [] => mret tt
  | statement :: statements =>
      verify_statement_layout expressions blocks statement;; verify_layouts expressions blocks statements
  end.

(** Every node has one owner. *)
Fixpoint verify_owners (what : string) (index : N) (owners : list N) : BM unit :=
  match owners with
  | [] => mret tt
  | count :: owners =>
      swhen (negb (count =? 1)%N)
        (node_error path (what +:+ " " +:+ pretty index +:+ " has " +:+ pretty count +:+ " owners; expected one"));;
      verify_owners what (index + 1) owners
  end.

(** ** Canonical order of the arenas *)

Definition set_visited (index : nat) (visited : list bool) : list bool := <[index := true]> visited.

(** The blocks a statement opens, in source order *)
Definition statement_blocks (kind : StatementKind) : list SBlockId :=
  match kind with
  | SBlock block => [block]
  | SIf _ _ _ _ then_block else_clause =>
      then_block :: match else_clause with Some value => [el_block value] | None => [] end
  | SWhile _ _ _ _ body_block => [body_block]
  | _ => []
  end.

(** The preorder walk; an entry is a block, the next statement, the depth and
    whether the block was entered.  The stack holds its top first. *)
Fixpoint block_walk (fuel : nat) (blocks : list BlockSyntax) (statements : list StatementSyntax)
    (expected_block expected_statement : nat) (visited : list bool) (stack : list (SBlockId * nat * N * bool))
    : BM (list bool) :=
  match fuel with
  | O => crash
  | S fuel =>
      match stack with
      | [] => mret visited
      | (block_id, offset, depth, entered) :: stack =>
          if (MAX_NESTING_DEPTH <? depth)%N then
            nesting_error "block nesting exceeds the protocol-v3 limit";; mret visited
          else
            let index := N.to_nat block_id in
            match blocks !! index with
            | None => block_walk fuel blocks statements expected_block expected_statement visited stack
            | Some block =>
                seen ← sexpect (visited !! index);
                if negb entered && seen then
                  node_error path "block graph contains a cycle or shared reachability";;
                  block_walk fuel blocks statements expected_block expected_statement visited stack
                else
                  swhen (negb entered && negb (Nat.eqb index expected_block))
                    (node_error path "block arena is not canonical preorder");;
                  let visited := if entered then visited else set_visited index visited in
                  let expected_block := if entered then expected_block else S expected_block in
                  match bs_statements block !! offset with
                  | None => block_walk fuel blocks statements expected_block expected_statement visited stack
                  | Some statement_id =>
                      let stack := (block_id, S offset, depth, true) :: stack in
                      let si := N.to_nat statement_id in
                      match statements !! si with
                      | None => block_walk fuel blocks statements expected_block expected_statement visited stack
                      | Some statement =>
                          swhen (negb (Nat.eqb si expected_statement))
                            (node_error path "statement arena is not canonical preorder");;
                          let opened := (fun b => (b, 0, saturating_succ depth, false)) <$> statement_blocks (ss_kind statement) in
                          block_walk fuel blocks statements expected_block (S expected_statement) visited (opened ++ stack)
                      end
                  end
            end
      end
  end.
(** A block is entered once, and then once more for each of its statements,
    each of which opens at most two blocks. *)
Definition block_walk_fuel (blocks : list BlockSyntax) : nat :=
  2 + 3 * sum_list ((fun block => length (bs_statements block)) <$> blocks).

(** The postorder walk below one root *)
Fixpoint expression_walk (fuel : nat) (expressions : list ExpressionSyntax) (expected : nat) (emitted : list bool)
    (stack : list (nat * bool * N)) : BM (nat * list bool) :=
  match fuel with
  | O => crash
  | S fuel =>
      match stack with
      | [] => mret (expected, emitted)
      | (index, exit, depth) :: stack =>
          match expressions !! index with
          | None => expression_walk fuel expressions expected emitted stack
          | Some expression =>
              if (MAX_NESTING_DEPTH <? depth)%N then
                nesting_error "expression nesting exceeds the protocol-v3 limit";; mret (expected, emitted)
              else
                seen ← sexpect (emitted !! index);
                if (exit : bool) then
                  if (seen : bool) then expression_walk fuel expressions expected emitted stack
                  else
                    swhen (negb (Nat.eqb index expected))
                      (node_error path "expression arena is not canonical postorder");;
                    expression_walk fuel expressions (S expected) (set_visited index emitted) stack
                else if (seen : bool) then expression_walk fuel expressions expected emitted stack
                else
                  let children := (fun child => (N.to_nat child, false, saturating_succ depth))
                                  <$> expression_children (es_kind expression) in
                  expression_walk fuel expressions expected emitted (children ++ (index, true, depth) :: stack)
          end
      end
  end.
(** Every node is expanded once, since its operands precede it. *)
Definition expression_walk_fuel (expressions : list ExpressionSyntax) : nat :=
  2 + sum_list ((fun e => S (length (expression_children (es_kind e)))) <$> expressions).
Fixpoint walk_roots (expressions : list ExpressionSyntax) (expected : nat) (emitted : list bool)
    (roots : list ExpressionId) : BM unit :=
  match roots with
  | [] => mret tt
  | root :: roots =>
      r ← expression_walk (expression_walk_fuel expressions) expressions expected emitted [(N.to_nat root, false, 1%N)];
      walk_roots expressions r.1 r.2 roots
  end.

Definition verify_canonical_graph (blocks : list BlockSyntax) (statements : list StatementSyntax)
    (expressions : list ExpressionSyntax) (roots : list ExpressionId) : BM unit :=
  match blocks with
  | [] => node_error path "function body does not contain its root block"
  | _ =>
      visited ← block_walk (block_walk_fuel blocks) blocks statements 0 0 (replicate (length blocks) false)
        [(0%N, 0, 1%N, false)];
      swhen (existsb negb visited) (node_error path "block graph contains an unreachable block");;
      walk_roots expressions 0 (replicate (length expressions) false) roots
  end.

Definition verify_arenas (raw : RawFunctionBodySyntax) : BM FunctionBodySyntax :=
  swhen (negb (ry_root_block raw =? 0)%N) (node_error path "root block id must be zero");;
  expressions ← verify_expressions [] (ry_expressions raw);
  statements ← verify_statements (length expressions) (ry_statements raw);
  smodify (set_statement_owners (replicate (length statements) 0%N));;
  blocks ← verify_blocks statements (ry_blocks raw);
  verify_layouts expressions blocks statements;;
  smodify (fun s => set_block_owners (alter saturating_succ 0 (by_block_owners s)) s);;
  block_owners ← sgets by_block_owners;
  verify_owners "block" 0 block_owners;;
  statement_owners ← sgets by_statement_owners;
  verify_owners "statement" 0 statement_owners;;
  expression_owners ← sgets by_expression_owners;
  verify_owners "expression" 0 expression_owners;;
  roots ← sgets by_roots;
  verify_canonical_graph blocks statements expressions roots;;
  match blocks with root :: _ => contains body_span (bs_span root) "root block" | [] => mret tt end;;
  mret (mkFunctionBodySyntax body_span (ry_root_block raw) blocks statements expressions).
End body.

(** ** Functions, files and projects *)

Notation YM := (SM YErrors unit).

(** [verify_body]: the tables are local. *)
Definition verify_body (file : N) (path : NormalizedSourcePath) (sources : SourceMap) (raw : RawFunctionBodySyntax)
    (body_span : Span) : YM FunctionBodySyntax := fun e =>
  let zeros := replicate (length (ry_expressions raw)) 0%N in
  let '(s, r) := verify_arenas file path sources body_span raw
    (mkBodyState e zeros zeros (replicate (length (ry_blocks raw)) 0%N) [] []) in
  (by_errors s, r).

Section unit.
Context (file : N) (path : NormalizedSourcePath) (sources : SourceMap).
Notation node_span := (node_span file path sources).
Notation token := (token file path sources).
Notation identifier := (identifier file path sources).
Notation contains := (contains path).
Notation require_order := (require_order path).

Definition syn_verify_function (raw : RawFunctionSyntax) : YM FunctionSyntax :=
  span ← node_span (rf_span raw) "function";
  export_span ←
    match rf_export_span raw with Some value => catch (token value "export" "export keyword") | None => mret None end;
  function_span ← token (rf_function_span raw) "function" "function keyword";
  name ← identifier (rf_name raw) "function name";
  result_type ← type_syntax file path sources (rf_result_type raw) "result type";
  parameters ← verify_parameters file path sources span (span_end (is_span name)) (rf_parameters raw);
  body_span ← node_span (ry_span (rf_body raw)) "function body";
  contains_all path span
    (omap id [export_span; Some function_span; Some (is_span name); Some (ts_span result_type); Some body_span])
    "function child";;
  match export_span with
  | Some export_span => require_order export_span function_span "export and function keywords"
  | None => mret tt
  end;;
  require_order function_span (is_span name) "function keyword and name";;
  match head parameters with
  | Some first => require_order (is_span name) (ps_span first) "function name and parameters"
  | None => mret tt
  end;;
  match last parameters with
  | Some final => require_order (ps_span final) (ts_span result_type) "parameters and result type"
  | None => require_order (is_span name) (ts_span result_type) "function name and result type"
  end;;
  require_order (ts_span result_type) body_span "result type and function body";;
  fbody ← verify_body file path sources (rf_body raw) body_span;
  mret (mkFunctionSyntax span export_span function_span name parameters result_type fbody).

Fixpoint verify_imports (previous_end : N) (raws : list RawImportSyntax) : YM (list ImportSyntax * N) :=
  match raws with
  | [] => mret ([], previous_end)
  | raw :: raws =>
      import ← verify_import file path sources raw;
      swhen (span_start (im_span import) <? previous_end)%N (node_error path "imports are not in source order");;
      r ← verify_imports (span_end (im_span import)) raws;
      mret (import :: r.1, r.2)
  end.
Fixpoint verify_functions (previous_end : N) (raws : list RawFunctionSyntax) : YM (list FunctionSyntax) :=
  match raws with
  | [] => mret []
  | raw :: raws =>
      function ← syn_verify_function raw;
      swhen (span_start (fs_span function) <? previous_end)%N
        (node_error path "top-level declarations are not in canonical source order");;
      rest ← verify_functions (span_end (fs_span function)) raws;
      mret (function :: rest)
  end.
End unit.

Definition verify_file (position : nat) (sources : SourceMap) (raw : RawSourceUnit) : YM SourceUnit :=
  match try_u32 (N.of_nat position) with
  | None => protocol_error None "source position cannot be represented by protocol v3";; leave tt
  | Some expected_raw =>
      if negb (ru_id raw =? expected_raw)%N then
        protocol_error None "source units are not in canonical dense file-id order";; leave tt
      else
        match verify_file_id sources (ru_id raw), normalized_new (ru_path raw) with
        | Err _, _ => protocol_error None "source unit references an unknown file id";; leave tt
        | _, Err _ => protocol_error None "source unit path is not portable and normalized";; leave tt
        | Ok file_id, Ok path =>
            if match sm_source sources file_id with
               | Some source => bool_decide (sf_path source <> path)
               | None => true
               end
            then protocol_error (Some path) "source path does not match the authoritative file id";; leave tt
            else
              r ← verify_imports (ru_id raw) path sources 0 (ru_imports raw);
              let '(imports, previous_end) := r in
              functions ← verify_functions (ru_id raw) path sources previous_end (ru_functions raw);
              mret (mkSourceUnit file_id path imports functions)
        end
  end.
(** A file with an error is left out. *)
Fixpoint verify_files (position : nat) (sources : SourceMap) (raws : list RawSourceUnit) : YM (list SourceUnit) :=
  match raws with
  | [] => mret []
  | raw :: raws =>
      file ← catch (verify_file position sources raw);
      rest ← verify_files (S position) sources raws;
      mret (match file with Some file => file :: rest | None => rest end)
  end.

Definition text_rejected (text : string) : bool :=
  String.eqb text "" || (MAX_DIAGNOSTIC_TEXT_CHARACTERS <? char_count text)%N.
Fixpoint collect_diagnostics (sources : SourceMap) (raws : list RawProviderDiagnostic) : YM (list Diagnostic) :=
  match raws with
  | [] => mret []
  | value :: raws =>
      let retained primary := mkDiagnostic (rd_code value) (rd_severity value) primary (rd_message value) (rd_guidance value) in
      diagnostic ←
        (if negb (bounded_text (rd_code value) MAX_NAME_CHARACTERS)
            || text_rejected (rd_message value) || text_rejected (rd_guidance value)
         then nesting_error "provider diagnostic text exceeds its limit";; mret None
         else
           match rd_location value with
           | RawGlobal => mret (Some (retained LocGlobal))
           | RawSource span =>
               match verify_span sources span with
               | Err _ => protocol_error None "provider diagnostic span is invalid";; mret None
               | Ok span => mret (Some (retained (LocSource span)))
               end
           end);
      rest ← collect_diagnostics sources raws;
      mret (match diagnostic with Some d => d :: rest | None => rest end)
  end.
Definition verify_diagnostics (sources : SourceMap) (raws : list RawProviderDiagnostic) : YM (list Diagnostic) :=
  output ← collect_diagnostics sources raws; mret (sort_displayed output).

Definition verify_claims (raw : RawProjectSyntaxSnapshot) (sources : SourceMap) : YM (list SourceUnit * list Diagnostic) :=
  swhen (negb (rs_schema_version raw =? PROTOCOL_VERSION)%N)
    (protocol_error None "snapshot schema version is not exactly 3");;
  swhen (negb (len (rs_files raw) =? sm_len sources)%N) (protocol_error None "snapshot file set is not complete");;
  files ← verify_files 0 sources (rs_files raw);
  diagnostics ← verify_diagnostics sources (rs_diagnostics raw);
  mret (files, diagnostics).

(** [verify_snapshot]; [None] is a panic. *)
Definition verify_snapshot (raw : RawProjectSyntaxSnapshot) (sources : SourceMap)
    : option (result (list Diagnostic) ProjectSyntaxSnapshot) :=
  match budget_error raw sources with
  | Err error => Some (Err [error])
  | Ok _ =>
      match verify_claims raw sources no_syntax_errors with
      | (e, Next (files, diagnostics)) =>
          Some (match ye_items e with
                | [] => Ok (mkSnapshot (sm_id sources) PROTOCOL_VERSION files diagnostics)
                | _ => Err (ye_finish e)
                end)
      | (_, Leave _) => None
      | (_, Crash) => None
      end
  end.
