(* ===== verification/DiagnosticTheorems.v ===== *)
(** * What the renderer of diagnostics guarantees

    Reports have one order, whatever order the diagnostics come in, and the text
    of a diagnostic holds no control character, whatever an untrusted front end
    put into it. *)
From stdpp Require Import base numbers list strings pretty sorting.
From S2P Require Import Prelude Source SourceText Diagnostics Syntax Snapshot.

(** ** Lawful comparisons *)

Class Lawful {A} (cmp : A -> A -> comparison) : Prop := {
  cmp_eq x y : cmp x y = Eq <-> x = y;
  cmp_opp x y : cmp y x = CompOpp (cmp x y);
  cmp_trans x y z : cmp x y = Lt -> cmp y z = Lt -> cmp x z = Lt }.

Definition pair_cmp {A B} (c : A -> A -> comparison) (d : B -> B -> comparison) (x y : A * B) : comparison :=
  then_with (c x.1 y.1) (d x.2 y.2).
#[export] Instance N_lawful : Lawful N.compare.
Proof. split; [apply N.compare_eq_iff|intros; apply N.compare_antisym|intros ???; rewrite !N.compare_lt_iff; lia]. Qed.
#[export] Instance severity_lawful : Lawful severity_cmp.
Proof. split; [by intros [] []|by intros [] []|by intros [] [] []]. Qed.
#[export] Instance pair_lawful {A B} (c : A -> A -> comparison) (d : B -> B -> comparison) :
  Lawful c -> Lawful d -> Lawful (pair_cmp c d).
Proof.
  intros Hc Hd. split.
  - intros [a b] [a' b']. unfold pair_cmp, then_with. cbn. destruct (c a a') eqn:E.
    + apply cmp_eq in E as ->. rewrite cmp_eq. naive_solver.
    + split; [done|]. intros [= -> _]. by rewrite (proj2 (cmp_eq a' a') eq_refl) in E.
    + split; [done|]. intros [= -> _]. by rewrite (proj2 (cmp_eq a' a') eq_refl) in E.
  - intros [a b] [a' b']. unfold pair_cmp, then_with. cbn. rewrite (cmp_opp a a'). destruct (c a a'); [apply cmp_opp|done..].
  - intros [a b] [a' b'] [a'' b'']. unfold pair_cmp, then_with. cbn. intros H1 H2.
    destruct (c a a') eqn:E1; [|destruct (c a' a'') eqn:E2|done].
    + apply cmp_eq in E1 as ->. destruct (c a' a''); [by eapply cmp_trans|done..].
    + apply cmp_eq in E2 as ->. by rewrite E1.
    + by rewrite (cmp_trans _ _ _ E1 E2).
    + done.
Qed.
#[export] Instance option_lawful {A} (c : A -> A -> comparison) : Lawful c -> Lawful (option_cmp c).
Proof.
  intros Hc. split.
  - intros [x|] [y|]; cbn; [rewrite cmp_eq; naive_solver|done..].
  - intros [x|] [y|]; cbn; [apply cmp_opp|done..].
  - intros [x|] [y|] [z|]; cbn; [apply cmp_trans|done..].
Qed.
#[export] Instance str_lawful : Lawful str_cmp.
Proof.
  split.
  - intros s. induction s as [|a s IH]; intros [|b t]; cbn; [done..|]. unfold then_with. destruct (byte_of a ?= byte_of b)%N eqn:E.
    + apply N.compare_eq_iff in E. apply (f_equal Ascii.ascii_of_N) in E. unfold byte_of in E. rewrite !Ascii.ascii_N_embedding in E.
      rewrite IH. naive_solver.
    + split; [done|]. intros [= -> _]. by rewrite N.compare_refl in E.
    + split; [done|]. intros [= -> _]. by rewrite N.compare_refl in E.
  - intros s. induction s as [|a s IH]; intros [|b t]; cbn; [done..|]. rewrite (N.compare_antisym (byte_of a)).
    destruct (byte_of a ?= byte_of b)%N; cbn; [apply IH|done..].
  - intros s. induction s as [|a s IH]; intros [|b t] [|c u]; cbn; [done..|].
    destruct (N.compare_spec (byte_of a) (byte_of b)), (N.compare_spec (byte_of b) (byte_of c)),
      (N.compare_spec (byte_of a) (byte_of c)); cbn; intros; try done; try lia. by eapply IH.
Qed.

(** The order of a lawful comparison *)
Section order.
Context {A : Type} (cmp : A -> A -> comparison) `{!Lawful cmp}.
Definition cmp_leb (x y : A) : bool := match cmp x y with Gt => false | _ => true end.
Lemma cmp_leb_total x y : cmp_leb x y = true \/ cmp_leb y x = true.
Proof. unfold cmp_leb. rewrite (cmp_opp x y). destruct (cmp x y); auto. Qed.
Lemma cmp_leb_trans x y z : cmp_leb x y = true -> cmp_leb y z = true -> cmp_leb x z = true.
Proof.
  unfold cmp_leb. destruct (cmp x y) eqn:E1, (cmp y z) eqn:E2; try done; intros _ _.
  - apply cmp_eq in E1 as ->. by rewrite E2.
  - apply cmp_eq in E1 as ->. by rewrite E2.
  - apply cmp_eq in E2 as ->. by rewrite E1.
  - by rewrite (cmp_trans _ _ _ E1 E2).
Qed.
Lemma cmp_leb_antisym x y : cmp_leb x y = true -> cmp_leb y x = true -> x = y.
Proof. unfold cmp_leb. rewrite (cmp_opp x y). destruct (cmp x y) eqn:E; try done. intros _ _. by apply cmp_eq. Qed.
End order.

(** ** The order of a report *)

Notation key_type := (option string * (option N * (option N * (Severity * (string * (string * string))))))%type.
Definition rendered_key (d : RenderedDiagnostic) : key_type :=
  (rn_path d, (rn_byte_start d, (rn_byte_end d, (rn_severity d, (rn_code d, (rn_message d, rn_guidance d)))))).
Definition key_cmp : key_type -> key_type -> comparison :=
  pair_cmp (option_cmp str_cmp) (pair_cmp (option_cmp N.compare) (pair_cmp (option_cmp N.compare)
    (pair_cmp severity_cmp (pair_cmp str_cmp (pair_cmp str_cmp str_cmp))))).
#[export] Instance key_lawful : Lawful key_cmp := _.
Lemma compare_rendered_key l r : compare_rendered l r = key_cmp (rendered_key l) (rendered_key r).
Proof. done. Qed.

(** In a built map a path names one file. *)
Lemma built_path sources id1 id2 f1 f2 :
  built sources -> sm_source sources id1 = Some f1 -> sm_source sources id2 = Some f2 -> sf_path f1 = sf_path f2 -> f1 = f2.
Proof.
  intros (next & inputs & Hb) H1 H2 Hp. pose proof (build_map _ _ _ Hb) as [_ _ Hnd Hf _].
  unfold sm_source, get in *. destruct (negb _); [done|]. destruct (negb _); [done|].
  rewrite Hf, list_lookup_imap in H1, H2.
  destruct (ordered inputs !! N.to_nat (file_index id1)) as [e1|] eqn:E1; [|done].
  destruct (ordered inputs !! N.to_nat (file_index id2)) as [e2|] eqn:E2; [|done].
  injection H1 as <-. injection H2 as <-. cbn in Hp.
  assert (N.to_nat (file_index id1) = N.to_nat (file_index id2)) as Hi.
  { eapply (NoDup_lookup _ _ _ (identity_of e1) Hnd); rewrite list_lookup_fmap; [by rewrite E1|].
    rewrite E2. cbn. unfold identity_of. by rewrite Hp. }
  rewrite Hi in *. by rewrite E1 in E2; injection E2 as ->.
Qed.
(** The key of a resolved diagnostic determines it. *)
Lemma resolved_key sources d1 d2 r1 r2 :
  built sources -> resolve_diagnostic sources d1 = Ok r1 -> resolve_diagnostic sources d2 = Ok r2 ->
  rendered_key r1 = rendered_key r2 -> r1 = r2.
Proof.
  intros Hb. unfold resolve_diagnostic, resolve.
  destruct (d_primary d1) as [s1|p1|], (d_primary d2) as [s2|p2|];
    try destruct (validated_source sources s1) as [f1|] eqn:E1; try destruct (validated_source sources s2) as [f2|] eqn:E2;
    cbn; try done; intros [= <-] [= <-]; unfold rendered_key; cbn; try congruence.
  intros [= Hp Hs He Hsev Hc Hm Hg].
  assert (f1 = f2) as <-.
  { unfold validated_source in *. destruct (sm_source sources (span_file s1)) as [g1|] eqn:G1; [|done].
    destruct (sm_source sources (span_file s2)) as [g2|] eqn:G2; [|done]. cbn in E1, E2.
    repeat match goal with H : context [if ?b then Err _ else _] |- _ => destruct b; [done|] end.
    destruct (try_u32 (text_len (sf_text g1))), (try_u32 (text_len (sf_text g2))); cbn in E1, E2; try done.
    repeat match goal with H : context [if ?b then _ else _] |- _ => destruct b; try done end.
    injection E1 as ->. injection E2 as ->. by eapply built_path. }
  by rewrite Hs, He, Hsev, Hc, Hm, Hg.
Qed.

Lemma mapM_perm {E A B} (f : A -> result E B) l1 l2 r1 :
  l1 ≡ₚ l2 -> mapM f l1 = Ok r1 -> exists r2, mapM f l2 = Ok r2 /\ r1 ≡ₚ r2.
Proof.
  intros Hp. revert r1. induction Hp as [|x l1 l2 _ IH|x y l|l1 l2 l3 _ IH1 _ IH2]; intros r1; cbn.
  - intros [= <-]. by exists [].
  - destruct (f x) as [b|]; cbn; [|done]. destruct (mapM f l1) as [r|]; cbn; [|done]. intros [= <-].
    destruct (IH r eq_refl) as (r2 & -> & Hr). cbn. exists (b :: r2). by rewrite Hr.
  - destruct (f x) as [b|], (f y) as [c|]; cbn; try done. destruct (mapM f l) as [r|]; cbn; [|done]. intros [= <-].
    exists (b :: c :: r). split; [done|apply Permutation_swap].
  - intros H. destruct (IH1 _ H) as (r2 & H2 & P2). destruct (IH2 _ H2) as (r3 & H3 & P3). exists r3. by rewrite P2.
Qed.
Lemma mapM_ok_in {E A B} (f : A -> result E B) l r y : mapM f l = Ok r -> y ∈ r -> exists x, x ∈ l /\ f x = Ok y.
Proof.
  revert r. induction l as [|x l IH]; intros r; cbn; [intros [= <-] Hy; by apply elem_of_nil in Hy|].
  destruct (f x) as [b|] eqn:Ef; cbn; [|done]. destruct (mapM f l) as [r'|]; cbn; [|done]. intros [= <-] [->|Hy]%elem_of_cons.
  - exists x. split; [left|done].
  - destruct (IH r' eq_refl Hy) as (z & Hz & E'). exists z. split; [by right|done].
Qed.

(** ** Printable text *)

Definition printable (a : Ascii.ascii) : bool := (byte_of a <? 128)%N && negb (is_ascii_control a).
Lemma has_control_char a s : printable a = true -> has_control (String a s) = has_control s.
Proof.
  unfold printable. rewrite andb_true_iff, N.ltb_lt, negb_true_iff. intros [Ha Hc]. cbn [has_control]. rewrite Hc. cbn [orb].
  destruct s as [|b s]; [done|]. destruct (N.eqb_spec (byte_of a) 194); [lia|done].
Qed.
Lemma has_control_prefix p s : str_all printable p = true -> has_control (p +:+ s) = has_control s.
Proof.
  induction p as [|a p IH]; cbn [str_all]; [done|]. intros [Ha Hp]%andb_true_iff.
  change (String a p +:+ s) with (String a (p +:+ s)). by rewrite has_control_char, IH.
Qed.
(** Text before something that starts with a printable character *)
Lemma has_control_then t p s : p <> EmptyString -> str_all printable p = true -> has_control t = false ->
  has_control (t +:+ p +:+ s) = has_control s.
Proof.
  intros Hne Hp. induction t as [|a t IH]; intros Ht;
    [change (has_control (p +:+ s) = has_control s); by apply has_control_prefix|].
  cbn [has_control] in Ht. apply orb_false_iff in Ht as [Ht Hr]. specialize (IH Hr). apply orb_false_iff in Ht as [Ha Hb].
  change (String a t +:+ p +:+ s) with (String a (t +:+ p +:+ s)). cbn [has_control]. rewrite Ha, IH. cbn [orb].
  destruct t as [|b t].
  2:{ change (((byte_of a =? 194)%N && (128 <=? byte_of b)%N && (byte_of b <=? 159)%N) || has_control s = has_control s). by rewrite Hb. } destruct p as [|c p]; [done|].
  change (((byte_of a =? 194)%N && (128 <=? byte_of c)%N && (byte_of c <=? 159)%N) || has_control s = has_control s).
  cbn [str_all] in Hp. apply andb_true_iff in Hp as [Hc _]. unfold printable in Hc. rewrite andb_true_iff, N.ltb_lt in Hc.
  replace (128 <=? byte_of c)%N with false by (symmetry; apply N.leb_gt; lia). by rewrite andb_false_r.
Qed.
Lemma pretty_printable (n : N) : str_all printable (pretty n) = true.
Proof.
  unfold pretty, pretty_N. destruct (decide _); [done|].
  assert (Hg : forall x s, str_all printable s = true -> str_all printable (pretty_N_go x s) = true); [|by apply Hg].
  intros x. induction (N.lt_wf_0 x) as [x _ IH]. intros s Hs. destruct (decide (x = 0)%N) as [->|Hx]; [by rewrite pretty_N_go_0|].
  rewrite pretty_N_go_step by lia. apply IH; [apply N.div_lt; lia|]. cbn [str_all]. rewrite Hs, andb_true_r.
  assert (x `mod` 10 < 10)%N by (apply N.mod_lt; lia). generalize dependent (x `mod` 10)%N. intros r Hr.
  assert (r ∈ [0;1;2;3;4;5;6;7;8;9]%N) as Hin by (rewrite !elem_of_cons, elem_of_nil; lia).
  repeat (apply elem_of_cons in Hin as [->|Hin]; [done|]). by apply elem_of_nil in Hin.
Qed.
Lemma unicode_escape_printable n : (n < 256)%N -> str_all printable (unicode_escape n) = true.
Proof.
  intros Hn. assert (H : forallb (fun n => str_all printable (unicode_escape n)) (N.of_nat <$> seq 0 256) = true) by (vm_compute; reflexivity).
  rewrite forallb_forall in H. apply H, list_elem_of_In, list_elem_of_fmap. exists (N.to_nat n). rewrite elem_of_seq. lia.
Qed.
Lemma byte_lt a : (byte_of a < 256)%N.
Proof. apply Ascii.N_ascii_bounded. Qed.
Definition continues (b : Ascii.ascii) : bool := ((128 <=? byte_of b) && (byte_of b <=? 159))%N.
Lemma escape_head b s : continues b = false ->
  match escape_text (String b s) with String c _ => continues c = false | EmptyString => True end.
Proof.
  intros Hb. cbn [escape_text]. repeat ((destruct (_ =? _)%N; [done|]) || (destruct (is_ascii_control b); [done|])).
  destruct (_ =? _)%N; [|done]. destruct s as [|c s]; [done|]. by destruct (_ && _).
Qed.
Lemma escape_text_clean s : has_control (escape_text s) = false.
Proof.
  remember (String.length s) as n eqn:En. revert s En. induction (lt_wf n) as [n _ IH]. intros s ->.
  destruct s as [|a s]; [done|]. cbn [escape_text].
  assert (Hs : has_control (escape_text s) = false) by (apply (IH (String.length s)); [cbn; lia|done]).
  destruct (N.eqb_spec (byte_of a) 10); [by rewrite has_control_prefix|].
  destruct (N.eqb_spec (byte_of a) 13); [by rewrite has_control_prefix|].
  destruct (N.eqb_spec (byte_of a) 9); [by rewrite has_control_prefix|].
  destruct (N.eqb_spec (byte_of a) 92); [by rewrite has_control_prefix|].
  destruct (is_ascii_control a) eqn:Ec; [by rewrite has_control_prefix by apply unicode_escape_printable, byte_lt|].
  destruct (N.eqb_spec (byte_of a) 194) as [E194|Hne].
  - destruct s as [|b s']; [cbn; by rewrite Ec|]. change ((128 <=? byte_of b) && (byte_of b <=? 159))%N with (continues b).
    destruct (continues b) eqn:Eb.
    + rewrite has_control_prefix by apply unicode_escape_printable, byte_lt. apply (IH (String.length s')); [cbn; lia|done].
    + pose proof (escape_head b s' Eb) as Hh. remember (escape_text (String b s')) as t eqn:Et. cbn [has_control]. rewrite Ec, Hs.
      destruct t as [|c t]; [done|]. unfold continues in Hh. cbn [orb]. by rewrite orb_false_r, <- andb_assoc, Hh, andb_false_r.
  - cbn [has_control]. rewrite Ec, Hs. destruct (escape_text s); [done|]. apply N.eqb_neq in Hne. by rewrite Hne.
Qed.

(** ** Properties *)

(** C40: A report does not depend on the order in which the diagnostics were
    collected: every permutation of resolvable diagnostics yields the same
    report, and the same text. *)
Theorem report_order_independent sources ds1 ds2 report :
  built sources -> ds1 ≡ₚ ds2 -> render_structured ds1 sources = Ok report ->
  render_structured ds2 sources = Ok report /\ render_text ds2 sources = render_text ds1 sources.
Proof.
  intros Hb Hp H. assert (H2 : render_structured ds2 sources = Ok report); [|split; [done|unfold render_text; by rewrite H, H2]].
  unfold render_structured in *. destruct (mapM (resolve_diagnostic sources) ds1) as [r1|] eqn:E1; [|done]. cbn in H. injection H as <-.
  destruct (mapM_perm _ _ _ _ Hp E1) as (r2 & E2 & Hr). rewrite E2. cbn. f_equal.
  set (leb := fun l r => match compare_rendered l r with Gt => false | _ => true end).
  assert (Hleb : forall x y, leb x y = cmp_leb key_cmp (rendered_key x) (rendered_key y)) by done.
  assert (Hsorted : forall l, StronglySorted (fun x y => leb x y = true) (sort_by leb l)).
  { apply sort_by_sorted; [intros x y|intros x y z]; rewrite !Hleb; [apply cmp_leb_total|apply cmp_leb_trans]; apply _. }
  apply (StronglySorted_unique_strong (fun x y => leb x y = true)); [|apply Hsorted..|by rewrite !sort_by_perm, Hr].
  intros x y Hx Hy. rewrite !Hleb. rewrite sort_by_perm in Hx, Hy. intros Hxy Hyx.
  destruct (mapM_ok_in _ _ _ _ E2 Hx) as (d1 & _ & D1). destruct (mapM_ok_in _ _ _ _ E1 Hy) as (d2 & _ & D2).
  apply (resolved_key sources d1 d2); [done..|]. by apply (cmp_leb_antisym key_cmp).
Qed.
Module DiagnosticSample.
Definition inputs : list SourceFileInput := [mkSourceFileInput "src/main.zry" [97; 98; 10; 99]%N].
Definition sources : SourceMap := match (build 1 inputs).2 with Ok m => m | Err _ => mkSourceMap 0 [] ∅ end.
Definition at_ (start end_ : N) (message : string) : Diagnostic :=
  diag_error_at "ZRYNA-T0001" (mkSpan (mkFileId 1 0) start end_) message "guidance".
Definition found : list Diagnostic :=
  [at_ 3 4 "third"; diag_error "ZRYNA-T0002" None "first" "guidance"; at_ 0 1 "second"].
End DiagnosticSample.
Lemma report_order_independent_witness : exists report,
  render_structured (reverse DiagnosticSample.found) DiagnosticSample.sources = Ok report /\
  rn_message <$> report = ["first"; "second"; "third"].
Proof.
  destruct (render_structured DiagnosticSample.found DiagnosticSample.sources) as [report|] eqn:E; [|discriminate E].
  exists report. split; [|vm_compute in E; injection E as <-; reflexivity].
  apply (report_order_independent DiagnosticSample.sources DiagnosticSample.found (reverse DiagnosticSample.found) report).
  - exists 1%N, DiagnosticSample.inputs. vm_compute. reflexivity.
  - symmetry. apply reverse_Permutation.
  - exact E.
Defined.

(** The displayed form of a diagnostic holds no control character, whatever
    its code, path, message and guidance hold. *)
Theorem display_has_no_control d : has_control (diag_display d) = false.
Proof.
  unfold diag_display. pose proof (escape_text_clean (d_code d)) as Hc. pose proof (escape_text_clean (d_message d)) as Hm.
  pose proof (escape_text_clean (d_guidance d)) as Hg.
  destruct (d_primary d) as [span|path|]; repeat (rewrite has_control_then by done).
  - rewrite (has_control_prefix (pretty _)) by apply pretty_printable. repeat (rewrite has_control_prefix by (done || apply pretty_printable)).
    by repeat (rewrite has_control_then by done).
  - pose proof (escape_text_clean path). by repeat (rewrite has_control_then by done).
  - done.
Qed.
