(* ===== verification/SnapshotLimits.v ===== *)
(** * Budgets of a snapshot, and clean runs of the verifier

    [budget_error] adds the sizes of the parts of a snapshot with checked
    machine additions; it accepts exactly the snapshots whose sums, as plain
    numbers, are within the published limits. *)
From stdpp Require Import base numbers list list_numbers strings.
From S2P Require Import Prelude Source SourceText Diagnostics Syntax Snapshot.

#[local] Open Scope N_scope.

(** ** The limits as a specification *)

Fixpoint sum_by {A} (f : A -> N) (l : list A) : N :=
  match l with [] => 0 | x :: l => f x + sum_by f l end.
Definition source_bytes (sources : SourceMap) : N := sum_by (fun f => text_len (sf_text f)) (sm_files sources).
Definition locals_of (function : RawFunctionSyntax) : N :=
  len (List.filter is_local_declaration (ry_statements (rf_body function))).
Definition names_of (file : RawSourceUnit) : N := sum_by (fun i => len (rj_bindings i)) (ru_imports file).

Record function_within (function : RawFunctionSyntax) : Prop := {
  fw_parameters : len (rf_parameters function) <= MAX_PARAMETERS_PER_FUNCTION;
  fw_root : 0 < len (ry_blocks (rf_body function));
  fw_blocks : len (ry_blocks (rf_body function)) <= MAX_BLOCKS_PER_FUNCTION;
  fw_statements : len (ry_statements (rf_body function)) <= MAX_STATEMENTS_PER_FUNCTION;
  fw_expressions : len (ry_expressions (rf_body function)) <= MAX_EXPRESSIONS_PER_FUNCTION;
  fw_edges : Forall (fun block => len (rb_statements block) <= MAX_STATEMENTS_PER_FUNCTION) (ry_blocks (rf_body function));
  fw_arguments : Forall (fun e => too_many_arguments e = false) (ry_expressions (rf_body function));
  fw_locals : locals_of function <= MAX_LOCALS_PER_FUNCTION }.
Record file_within (file : RawSourceUnit) : Prop := {
  iw_imports : len (ru_imports file) <= MAX_IMPORTS_PER_MODULE;
  iw_functions : len (ru_functions file) <= MAX_FUNCTIONS_PER_MODULE;
  iw_names : Forall (fun i => 0 < len (rj_bindings i) <= MAX_IMPORTED_NAMES_PER_DECLARATION) (ru_imports file);
  iw_bodies : Forall function_within (ru_functions file) }.

Definition add_counts (a b : Counts) : Counts :=
  mkCounts (c_imports a + c_imports b) (c_imported_names a + c_imported_names b) (c_functions a + c_functions b)
    (c_parameters a + c_parameters b) (c_blocks a + c_blocks b) (c_statements a + c_statements b)
    (c_expressions a + c_expressions b) (c_locals a + c_locals b).
Definition function_counts (function : RawFunctionSyntax) : Counts :=
  mkCounts 0 0 0 (len (rf_parameters function)) (len (ry_blocks (rf_body function)))
    (len (ry_statements (rf_body function))) (len (ry_expressions (rf_body function))) (locals_of function).
Fixpoint total_counts {A} (f : A -> Counts) (l : list A) : Counts :=
  match l with [] => no_counts | x :: l => add_counts (f x) (total_counts f l) end.
Definition file_counts (file : RawSourceUnit) : Counts :=
  add_counts (mkCounts (len (ru_imports file)) (names_of file) (len (ru_functions file)) 0 0 0 0 0)
    (total_counts function_counts (ru_functions file)).
Definition project_counts (raw : RawProjectSyntaxSnapshot) : Counts := total_counts file_counts (rs_files raw).

Record within_budget (raw : RawProjectSyntaxSnapshot) (sources : SourceMap) : Prop := {
  wi_files : len (rs_files raw) <= MAX_SOURCE_FILES;
  wi_diagnostics : len (rs_diagnostics raw) <= MAX_PROVIDER_DIAGNOSTICS;
  wi_bytes : source_bytes sources <= MAX_AGGREGATE_SOURCE_BYTES;
  wi_each : Forall file_within (rs_files raw);
  wi_project : exceeds_project_limits (project_counts raw) = false }.

(** ** Checked sums *)

(** No count overflows its [u64]. *)
Definition fits (c : Counts) : Prop :=
  (c_imports c <= u64_max /\ c_imported_names c <= u64_max /\ c_functions c <= u64_max /\ c_parameters c <= u64_max)
  /\ c_blocks c <= u64_max /\ c_statements c <= u64_max /\ c_expressions c <= u64_max /\ c_locals c <= u64_max.

Lemma counted_ok message total value t :
  counted message total value = Ok t <-> t = total + value /\ total + value <= u64_max.
Proof.
  unfold counted, checked_add. destruct (N.leb_spec (total + value) u64_max); cbn; [|split; [done|lia]].
  split; [by intros [= <-]|by intros [-> _]].
Qed.
Lemma add_counts_assoc a b c : add_counts a (add_counts b c) = add_counts (add_counts a b) c.
Proof. unfold add_counts. cbn. by rewrite !N.add_assoc. Qed.
Lemma add_counts_nil c : add_counts c no_counts = c.
Proof. destruct c. unfold add_counts. cbn. by rewrite !N.add_0_r. Qed.
Lemma fits_prefix a b : fits (add_counts a b) -> fits a.
Proof. unfold fits. cbn. lia. Qed.

Lemma built_sizes sources :
  built sources -> len (sm_files sources) <= MAX_SOURCE_FILES /\ source_bytes sources <= MAX_SOURCE_BYTES.
Proof.
  intros (next & inputs & Hb). pose proof (build_map _ _ _ Hb) as [_ _ _ Hf _].
  apply build_unfold in Hb as (H1 & _ & _ & H4 & s & Hs & ->). destruct (proj1 (ordered_exact next inputs H1 H4) s Hs) as (_ & Hsum & _).
  cbn [sm_files] in Hf. unfold source_bytes. cbn [sm_files]. rewrite Hf. split.
  - unfold len in *. rewrite length_imap. unfold ordered. by rewrite sort_by_perm, length_fmap, sort_by_perm.
  - assert (Hg : forall l (g : nat -> entry -> SourceFile), (forall i e, sf_text (g i e) = e.2) ->
      sum_by (fun f => text_len (sf_text f)) (imap g l) = bytes_of l); [|by rewrite Hg].
    clear. induction l as [|e l IH]; intros g Hg; [done|]. cbn. rewrite Hg. f_equal. apply IH. intros i e'. apply Hg.
Qed.
(** The sources of a built map are always counted. *)
Lemma count_source_bytes_built sources :
  built sources -> count_source_bytes sources (seq 0 (N.to_nat (sm_len sources))) 0 = Ok (source_bytes sources).
Proof.
  intros Hb. destruct (built_sizes _ Hb) as [Hlen Hsum]. unfold sm_len, len. rewrite Nat2N.id.
  assert (Hg : forall l k total, (forall i f, l !! i = Some f -> sm_files sources !! (k + i)%nat = Some f) ->
    total + sum_by (fun f => text_len (sf_text f)) l <= u64_max ->
    count_source_bytes sources (seq k (length l)) total = Ok (total + sum_by (fun f => text_len (sf_text f)) l)).
  - induction l as [|f l IH]; intros k total Hl Ht; cbn in *; [by rewrite N.add_0_r|].
    pose proof (Hl 0%nat f eq_refl) as Hf. rewrite Nat.add_0_r in Hf.
    assert (Hk : N.of_nat k <= u32_max).
    { apply lookup_lt_Some in Hf. unfold len, MAX_SOURCE_FILES, u32_max in *. lia. }
    unfold try_u32. rewrite (proj2 (N.leb_le _ _) Hk). unfold verify_file_id.
    assert (Hs : sm_source sources (mkFileId (sm_id sources) (N.of_nat k)) = Some f).
    { unfold sm_source, get. cbn. rewrite N.eqb_refl. cbn. by rewrite Nat2N.id. }
    rewrite Hs. cbn. destruct (built_file _ _ _ Hb Hs) as (-> & _). rewrite Hs. cbn [mbind result_bind].
    rewrite (proj2 (counted_ok _ _ _ (total + text_len (sf_text f)))) by (split; [done|lia]). cbn [mbind result_bind].
    rewrite IH; [f_equal; lia| |lia]. intros i g Hi. rewrite Nat.add_succ_comm. by apply Hl.
  - apply (Hg (sm_files sources) 0%nat 0); [done|]. unfold source_bytes, MAX_SOURCE_BYTES, u64_max in *. lia.
Qed.

(** ** Functions, modules and projects *)

Lemma count_imported_names_ok imports total t :
  total <= u64_max ->
  count_imported_names imports total = Ok t <->
  Forall (fun i => 0 < len (rj_bindings i) <= MAX_IMPORTED_NAMES_PER_DECLARATION) imports /\
  t = total + sum_by (fun i => len (rj_bindings i)) imports /\ t <= u64_max.
Proof.
  revert total. induction imports as [|i imports IH]; intros total Ht; cbn.
  { rewrite N.add_0_r. split; [intros [= <-]; by split_and!|by intros (_ & -> & _)]. }
  rewrite Forall_cons. destruct (N.eqb_spec (len (rj_bindings i)) 0), (N.ltb_spec MAX_IMPORTED_NAMES_PER_DECLARATION (len (rj_bindings i)));
    cbn; [split; [done|lia]..|].
  rewrite bind_ok. setoid_rewrite counted_ok. split.
  - intros (x & [-> Hx] & Hr). apply IH in Hr; [|done]. destruct Hr as (H1 & -> & H2). split_and!; [lia|lia|done|lia|done].
  - intros ([_ H1] & -> & H2). eexists. split; [split; [done|lia]|]. apply IH; [lia|]. split_and!; [done|lia|lia].
Qed.

Lemma existsb_false {A} (f : A -> bool) l : existsb f l = false <-> Forall (fun x => f x = false) l.
Proof. induction l as [|x l IH]; cbn; [done|]. by rewrite orb_false_iff, Forall_cons, IH. Qed.
Lemma count_function_ok c function c' :
  fits c -> count_function c function = Ok c' <->
  function_within function /\ c' = add_counts c (function_counts function) /\ fits c'.
Proof.
  intros Hc. unfold count_function.
  match goal with |- context [if ?b then over ?m else _] => destruct b eqn:Eb end.
  { split; [done|]. intros ([H1 H2 H3 H4 H5 _ _ _] & _). rewrite !orb_true_iff, !N.ltb_lt, N.eqb_eq in Eb. lia. }
  match goal with |- context [if ?b then over ?m else _] => destruct b eqn:Ee end.
  { split; [done|]. intros ([_ _ _ _ _ H1 H2 _] & _). rewrite orb_true_iff, !existsb_exists in Ee.
    rewrite !Forall_forall in *. destruct Ee as [(b & Hin%list_elem_of_In & Hb)|(e & Hin%list_elem_of_In & He)].
    - apply N.ltb_lt in Hb. specialize (H1 _ Hin). cbn in H1. lia.
    - specialize (H2 _ Hin). cbn in H2. congruence. }
  rewrite !orb_false_iff, !N.ltb_ge, N.eqb_neq in Eb. rewrite orb_false_iff in Ee. cbn zeta.
  assert (Hedges : Forall (fun block => len (rb_statements block) <= MAX_STATEMENTS_PER_FUNCTION) (ry_blocks (rf_body function)) /\
    Forall (fun e => too_many_arguments e = false) (ry_expressions (rf_body function))).
  { rewrite !existsb_false in Ee. destruct Ee as [H1 H2]. split; [|done]. eapply Forall_impl; [exact H1|]. intros b. apply N.ltb_ge. }
  repeat setoid_rewrite bind_ok. repeat setoid_rewrite counted_ok. fold (locals_of function). unfold fits in *. split.
  - intros (p & [-> Hp] & b & [-> Hb] & s & [-> Hs] & e & [-> He] & Hr). destruct (N.ltb_spec MAX_LOCALS_PER_FUNCTION (locals_of function)); [done|].
    apply bind_ok in Hr as (l & [-> Hl]%counted_ok & [= <-]). destruct Hedges. split; [split; (done || lia)|].
    unfold add_counts. cbn. rewrite !N.add_0_r. split; [done|lia].
  - intros ([H1 H2 H3 H4 H5 _ _ H6] & -> & Hf). unfold add_counts in *. cbn in *.
    do 4 (eexists; split; [split; [done|lia]|]). rewrite (proj2 (N.ltb_ge _ _) H6). apply bind_ok.
    eexists. rewrite counted_ok. split; [split; [done|lia]|]. by rewrite !N.add_0_r.
Qed.
Lemma count_functions_ok c functions c' :
  fits c -> count_functions c functions = Ok c' <->
  Forall function_within functions /\ c' = add_counts c (total_counts function_counts functions) /\ fits c'.
Proof.
  revert c. induction functions as [|f fs IH]; intros c Hc; cbn.
  { rewrite add_counts_nil. split; [intros [= <-]; by split_and!|by intros (_ & -> & _)]. }
  rewrite bind_ok, Forall_cons. split.
  - intros (c1 & (Hf & -> & Hc1)%count_function_ok & Hr); [|done]. apply IH in Hr as (Hfs & -> & Hf'); [|done].
    by rewrite add_counts_assoc in *.
  - intros ([Hf Hfs] & -> & Hf'). rewrite add_counts_assoc in *. pose proof (fits_prefix _ _ Hf') as Hf1.
    exists (add_counts c (function_counts f)). split; [by apply count_function_ok|by apply IH].
Qed.
Lemma file_total c file :
  add_counts (mkCounts (c_imports c + len (ru_imports file)) (c_imported_names c + names_of file)
    (c_functions c + len (ru_functions file)) (c_parameters c) (c_blocks c) (c_statements c) (c_expressions c) (c_locals c))
    (total_counts function_counts (ru_functions file)) = add_counts c (file_counts file).
Proof. unfold file_counts. rewrite add_counts_assoc. f_equal. unfold add_counts. cbn. by rewrite !N.add_0_r. Qed.
Lemma count_files_ok c files c' :
  fits c -> count_files c files = Ok c' <->
  Forall file_within files /\ c' = add_counts c (total_counts file_counts files) /\ fits c'.
Proof.
  revert c. induction files as [|file files IH]; intros c Hc; cbn [count_files total_counts].
  { rewrite add_counts_nil. split; [intros [= <-]; by split_and!|by intros (_ & -> & _)]. }
  rewrite Forall_cons. match goal with |- context [if ?b then over _ else _] => destruct b eqn:Eb end.
  { rewrite orb_true_iff, !N.ltb_lt in Eb. split; [done|]. intros ([[H1 H2 _ _] _] & _). lia. }
  rewrite orb_false_iff, !N.ltb_ge in Eb. cbn zeta. rewrite bind_ok. split.
  - intros (i & [-> Hi]%counted_ok & (f & [-> Hf]%counted_ok & (n & Hn & (c1 & H1 & Hr)%bind_ok)%bind_ok)%bind_ok).
    apply count_imported_names_ok in Hn as (Hns & -> & Hn); [|unfold fits in Hc; lia].
    apply count_functions_ok in H1 as (Hfs & -> & Hc1); [|unfold fits in *; cbn; unfold names_of in *; lia].
    fold (names_of file) in *. rewrite file_total in *. apply IH in Hr as (Hrest & -> & Hf'); [|done].
    rewrite add_counts_assoc in *. destruct Eb. split_and!; [by split|done..].
  - intros ([[Hf1 Hf2 Hns Hfs] Hrest] & -> & Hf'). rewrite add_counts_assoc in *. pose proof (fits_prefix _ _ Hf') as Hf.
    pose proof Hf as Hf0. rewrite <- file_total in Hf0. apply fits_prefix in Hf0. unfold fits in Hf0. cbn in Hf0.
    eexists. rewrite counted_ok. split; [split; [done|lia]|]. apply bind_ok. eexists. rewrite counted_ok. split; [split; [done|lia]|].
    apply bind_ok. exists (c_imported_names c + names_of file). split.
    { apply count_imported_names_ok; [unfold fits in Hc; lia|]. split_and!; [done|done|lia]. }
    apply bind_ok. exists (add_counts c (file_counts file)). split; [|by apply IH].
    apply count_functions_ok; [unfold fits; cbn; lia|]. by rewrite file_total.
Qed.
(** Sums within the limits do not overflow. *)
Lemma project_limits_fit c : exceeds_project_limits c = false -> fits c.
Proof.
  unfold exceeds_project_limits, fits. rewrite !orb_false_iff, !N.ltb_ge. intros H.
  repeat match goal with |- _ /\ _ => split end;
  unfold MAX_IMPORTS_PER_PROJECT, MAX_IMPORTED_NAMES_PER_PROJECT, MAX_FUNCTIONS_PER_PROJECT, MAX_PARAMETERS_PER_PROJECT,
    MAX_BLOCKS_PER_PROJECT, MAX_STATEMENTS_PER_PROJECT, MAX_EXPRESSIONS_PER_PROJECT, MAX_LOCALS_PER_PROJECT, u64_max in *; lia.
Qed.

Lemma budget_exact raw sources :
  built sources -> budget_error raw sources = Ok tt <-> within_budget raw sources.
Proof.
  intros Hb. unfold budget_error. destruct (N.ltb_spec MAX_SOURCE_FILES (len (rs_files raw))).
  { split; [done|]. intros [G _ _ _ _]. lia. }
  destruct (N.ltb_spec MAX_PROVIDER_DIAGNOSTICS (len (rs_diagnostics raw))).
  { split; [done|]. intros [_ G _ _ _]. lia. }
  rewrite (count_source_bytes_built _ Hb). cbn [mbind result_bind].
  destruct (N.ltb_spec MAX_AGGREGATE_SOURCE_BYTES (source_bytes sources)).
  { split; [done|]. intros [_ _ G _ _]. lia. }
  assert (Hz : fits no_counts) by done. rewrite bind_ok. split.
  - intros (c & (He & -> & _)%count_files_ok & Hc); [|done].
    destruct (exceeds_project_limits (add_counts no_counts _)) eqn:Ep; [done|]. split; [done..|].
    by destruct (project_counts raw) eqn:E; unfold project_counts in E; rewrite E in Ep.
  - intros [_ _ _ He Hp]. exists (project_counts raw). split; [|by rewrite Hp].
    apply count_files_ok; [done|]. split_and!; [done|by destruct (project_counts raw) eqn:E; unfold project_counts in E; rewrite E|]. by apply project_limits_fit.
Qed.

#[local] Close Scope N_scope.

(** * Accepted snapshots

    Errors are only ever added, so a run of the verifier that ends without any
    has had none at every point.  On such runs a verified node is the raw one
    with its spans validated, and every token is spelled as claimed. *)

(** ** Clean runs *)

Section clean.
Context {S : Type} `{HasYErrors S}.

Definition yclean (s : S) : Prop := ye_items (yerrors_of s) = [].
(** The computation removes no error. *)
Definition ygrowing {R A} (m : SM S R A) : Prop := forall s, yclean (m s).1 -> yclean s.
(** A clean run goes on with a value as [Q] says; a run that leaves is not clean. *)
Definition yspec {A} (m : SM S unit A) (s : S) (Q : S -> A -> Prop) : Prop :=
  match m s with
  | (s', Next a) => yclean s' -> Q s' a
  | (s', Leave _) => ~ yclean s'
  | (_, Crash) => True
  end.

Lemma ye_push_dirties d e : ye_items (ye_push d e) <> [].
Proof. unfold ye_push. destruct (ye_items e) as [|x l] eqn:E; cbn; rewrite ?E; [done|]. by destruct (_ <? _)%N; cbn; rewrite ?E. Qed.

Lemma ygrowing_ret {R A} (a : A) : ygrowing (mret (M := SM S R) a).
Proof. by intros s. Qed.
Lemma ygrowing_leave {R A} (r : R) : ygrowing (@leave S R A r).
Proof. by intros s. Qed.
Lemma ygrowing_crash {R A} : ygrowing (@crash S R A).
Proof. by intros s. Qed.
Lemma ygrowing_gets {R A} (f : S -> A) : ygrowing (sgets (R := R) f).
Proof. by intros s. Qed.
Lemma ygrowing_expect {R A} (o : option A) : ygrowing (sexpect (S := S) (R := R) o).
Proof. destruct o; intros s; exact (fun H => H). Qed.
Lemma ygrowing_or_leave {R A} (o : option A) (r : R) : ygrowing (or_leave (S := S) o r).
Proof. destruct o; intros s; exact (fun H => H). Qed.
Lemma ygrowing_bind {R A B} (m : SM S R A) (f : A -> SM S R B) :
  ygrowing m -> (forall a, ygrowing (f a)) -> ygrowing (m ≫= f).
Proof.
  intros Hm Hf s. unfold mbind, SM_bind. specialize (Hm s). destruct (m s) as [s' [a|r|]]; cbn in *; [|done..].
  intros Hc. apply Hm. by apply (Hf a s').
Qed.
Lemma ygrowing_when {R} b (m : SM S R unit) : ygrowing m -> ygrowing (swhen b m).
Proof. destruct b; [done|intros _ s; exact (fun H => H)]. Qed.
Lemma ygrowing_modify {R} (f : S -> S) : (forall s, yerrors_of (f s) = yerrors_of s) -> ygrowing (smodify (R := R) f).
Proof. intros Hf s. unfold yclean. cbn. by rewrite Hf. Qed.
Lemma ygrowing_catch {R A} (m : SM S unit A) : ygrowing m -> ygrowing (catch (R := R) m).
Proof. intros Hm s. unfold catch. specialize (Hm s). by destruct (m s) as [s' []]. Qed.
Lemma ygrowing_protocol {R} path message : ygrowing (protocol_error (S := S) (R := R) path message).
Proof. intros s. unfold yclean. cbn. rewrite yerrors_of_map. intros Hp. by apply ye_push_dirties in Hp. Qed.
Lemma ygrowing_node {R} path message : ygrowing (node_error (S := S) (R := R) path message).
Proof. intros s. unfold yclean. cbn. rewrite yerrors_of_map. intros Hp. by apply ye_push_dirties in Hp. Qed.
Lemma ygrowing_nesting {R} message : ygrowing (nesting_error (S := S) (R := R) message).
Proof. intros s. unfold yclean. cbn. rewrite yerrors_of_map. intros Hp. by apply ye_push_dirties in Hp. Qed.

Lemma yspec_ret {A} (a : A) s (Q : S -> A -> Prop) : Q s a -> yspec (mret a) s Q.
Proof. by intros ? _. Qed.
Lemma yspec_crash {A} s (Q : S -> A -> Prop) : yspec crash s Q.
Proof. done. Qed.
Lemma yspec_bind {A B} (m : SM S unit A) (f : A -> SM S unit B) s (Q : S -> B -> Prop) :
  (forall a, ygrowing (f a)) -> yspec m s (fun s' a => yclean s' -> yspec (f a) s' Q) -> yspec (m ≫= f) s Q.
Proof.
  unfold yspec, mbind, SM_bind. intros Hf Hm. destruct (m s) as [s' [a|r|]]; [|done..].
  specialize (Hf a s'). destruct (f a s') as [s'' [b|r|]]; cbn in *; try done; intros Hc.
  - specialize (Hf Hc). by apply Hm.
  - specialize (Hf Hc). by apply (Hm Hf Hf).
Qed.
Lemma yspec_post {A} (m : SM S unit A) s (Q Q' : S -> A -> Prop) :
  yspec m s Q -> (forall s' a, yclean s' -> Q s' a -> Q' s' a) -> yspec m s Q'.
Proof. unfold yspec. destruct (m s) as [s' []]; auto. Qed.
Lemma yspec_gets {A} (f : S -> A) s (Q : S -> A -> Prop) : Q s (f s) -> yspec (sgets f) s Q.
Proof. by intros ? _. Qed.
Lemma yspec_modify (f : S -> S) s (Q : S -> unit -> Prop) : Q (f s) tt -> yspec (smodify f) s Q.
Proof. by intros ? _. Qed.
Lemma yspec_expect {A} (o : option A) s (Q : S -> A -> Prop) : (forall a, o = Some a -> Q s a) -> yspec (sexpect o) s Q.
Proof. destruct o; [intros HQ _; by apply HQ|done]. Qed.
Lemma yspec_when b (m : SM S unit unit) s (Q : S -> unit -> Prop) :
  (b = true -> yspec m s Q) -> (b = false -> Q s tt) -> yspec (swhen b m) s Q.
Proof. destruct b; intros Ht Hf; [by apply Ht|intros _; by apply Hf]. Qed.
Lemma yspec_protocol path message s (Q : S -> unit -> Prop) : yspec (protocol_error path message) s Q.
Proof. unfold yspec. cbn. unfold yclean. rewrite yerrors_of_map. intros Hp. by apply ye_push_dirties in Hp. Qed.
Lemma yspec_node path message s (Q : S -> unit -> Prop) : yspec (node_error path message) s Q.
Proof. unfold yspec. cbn. unfold yclean. rewrite yerrors_of_map. intros Hp. by apply ye_push_dirties in Hp. Qed.
Lemma yspec_nesting message s (Q : S -> unit -> Prop) : yspec (nesting_error message) s Q.
Proof. unfold yspec. cbn. unfold yclean. rewrite yerrors_of_map. intros Hp. by apply ye_push_dirties in Hp. Qed.
(** A clean run of a caught call has a value. *)
Lemma yspec_catch {A} (m : SM S unit A) s (Q : S -> option A -> Prop) :
  yspec m s (fun s' a => Q s' (Some a)) -> yspec (catch m) s Q.
Proof. unfold yspec, catch. destruct (m s) as [s' [a|r|]]; [done| |done]. intros Hd Hc. by destruct Hd. Qed.
End clean.

Create HintDb ygrow discriminated.
#[export] Hint Resolve ygrowing_ret ygrowing_leave ygrowing_crash ygrowing_gets ygrowing_expect ygrowing_or_leave
  ygrowing_bind ygrowing_when ygrowing_catch ygrowing_protocol ygrowing_node ygrowing_nesting : ygrow.
#[export] Hint Extern 1 (ygrowing (smodify _)) => (apply ygrowing_modify; intros; reflexivity) : ygrow.
#[export] Hint Extern 3 (ygrowing (match ?x with _ => _ end)) => (destruct x) : ygrow.
Ltac ygrows := intros; eauto 60 with ygrow.
Ltac ybind := eapply yspec_bind; [solve [ygrows]|].
Ltac yreport := ybind; first [apply yspec_node|apply yspec_nesting|apply yspec_protocol].
(** A check that passes on a clean run *)
Ltac ycheck := ybind; apply yspec_when; [intros _; first [apply yspec_node|apply yspec_nesting|apply yspec_protocol]|].

(** ** Raw claims of verified nodes *)

Definition raw_span (span : Span) : UntrustedSpan :=
  mkUntrustedSpan (file_index (span_file span)) (span_start span) (span_end span).
Definition raw_identifier (i : IdentifierSyntax) : RawIdentifierSyntax := mkRawIdentifier (is_text i) (raw_span (is_span i)).
Definition raw_type (t : TypeSyntax) : RawTypeSyntax :=
  mkRawType (raw_span (ts_span t)) (match ts_kind t with TyMissing => RawTyMissing | TyNamed n => RawTyNamed n end).
Definition raw_parameter (p : ParameterSyntax) : RawParameterSyntax :=
  mkRawParameter (raw_span (ps_span p)) (raw_identifier (ps_name p)) (raw_type (ps_type p)).
Definition raw_expression_kind (kind : ExpressionKind) : RawExpressionKind :=
  match kind with
  | EReference name => REReference (raw_identifier name)
  | EBoolLiteral value => REBoolLiteral value
  | EI32Literal spelling => REI32Literal spelling
  | ENegation o operand => RENegation (raw_span o) operand
  | EAddition o l r => REAddition (raw_span o) l r
  | ESubtraction o l r => RESubtraction (raw_span o) l r
  | EMultiplication o l r => REMultiplication (raw_span o) l r
  | EEqual o l r => REEqual (raw_span o) l r
  | ENotEqual o l r => RENotEqual (raw_span o) l r
  | ELessThan o l r => RELessThan (raw_span o) l r
  | ELessEqual o l r => RELessEqual (raw_span o) l r
  | EGreaterThan o l r => REGreaterThan (raw_span o) l r
  | EGreaterEqual o l r => REGreaterEqual (raw_span o) l r
  | ECall callee open arguments close => RECall (raw_identifier callee) (raw_span open) arguments (raw_span close)
  end.
Definition raw_expression (e : ExpressionSyntax) : RawExpressionSyntax :=
  mkRawExpression (raw_span (es_span e)) (raw_expression_kind (es_kind e)).
Definition raw_else (e : ElseSyntax) : RawElseSyntax := mkRawElse (raw_span (el_keyword_span e)) (el_block e).
Definition raw_statement_kind (kind : StatementKind) : RawStatementKind :=
  match kind with
  | SLocalDeclaration keyword mutable name ty equals initializer semicolon =>
      RSLocalDeclaration (raw_span keyword) mutable (raw_identifier name) (raw_type ty) (raw_span equals) initializer
        (raw_span semicolon)
  | SAssignment target equals value semicolon =>
      RSAssignment (raw_identifier target) (raw_span equals) value (raw_span semicolon)
  | SReturn keyword value semicolon => RSReturn (raw_span keyword) value (raw_span semicolon)
  | SBlock block => RSBlock block
  | SIf keyword open condition close then_block else_clause =>
      RSIf (raw_span keyword) (raw_span open) condition (raw_span close) then_block (raw_else <$> else_clause)
  | SWhile keyword open condition close body_block =>
      RSWhile (raw_span keyword) (raw_span open) condition (raw_span close) body_block
  end.
Definition raw_statement (s : StatementSyntax) : RawStatementSyntax :=
  mkRawStatement (raw_span (ss_span s)) (raw_statement_kind (ss_kind s)).
Definition raw_block (b : BlockSyntax) : RawBlockSyntax :=
  mkRawBlock (raw_span (bs_span b)) (raw_span (bs_open_brace_span b)) (bs_statements b) (raw_span (bs_close_brace_span b)).
Definition raw_body (b : FunctionBodySyntax) : RawFunctionBodySyntax :=
  mkRawBody (raw_span (fb_span b)) (fb_root_block b) (raw_block <$> fb_blocks b) (raw_statement <$> fb_statements b)
    (raw_expression <$> fb_expressions b).
Definition raw_function (f : FunctionSyntax) : RawFunctionSyntax :=
  mkRawFunction (raw_span (fs_span f)) (raw_span <$> fs_export_span f) (raw_span (fs_function_span f))
    (raw_identifier (fs_name f)) (raw_parameter <$> fs_parameters f) (raw_type (fs_result_type f)) (raw_body (fs_body f)).
Definition raw_specifier (m : ModuleSpecifierSyntax) : RawModuleSpecifierSyntax :=
  mkRawSpecifier (sp_text m) (raw_span (sp_token_span m)) (raw_span (sp_value_span m)).
Definition raw_binding (b : ImportBindingSyntax) : RawImportBindingSyntax :=
  mkRawBinding (raw_span (ib_span b)) (raw_identifier (ib_imported b)) (raw_identifier (ib_local b)) (raw_span <$> ib_as_span b).
Definition raw_import (i : ImportSyntax) : RawImportSyntax :=
  mkRawImport (raw_span (im_span i)) (raw_span (im_import_span i)) (raw_binding <$> im_bindings i)
    (raw_span (im_from_span i)) (raw_specifier (im_specifier i)) (raw_span (im_semicolon_span i)).
Definition raw_unit (u : SourceUnit) : RawSourceUnit :=
  mkRawUnit (file_index (su_id u)) (su_path u) (raw_import <$> su_imports u) (raw_function <$> su_functions u).

(** ** Tokens of verified nodes *)

Notation tokens := (list (Span * string)).
Definition identifier_token (i : IdentifierSyntax) : Span * string := (is_span i, is_text i).
Definition type_tokens (t : TypeSyntax) : tokens :=
  match ts_kind t with TyMissing => [] | TyNamed name => [(ts_span t, name)] end.
Definition parameter_tokens (p : ParameterSyntax) : tokens := identifier_token (ps_name p) :: type_tokens (ps_type p).
Definition expression_tokens (e : ExpressionSyntax) : tokens :=
  match es_kind e with
  | EReference name => [identifier_token name]
  | EBoolLiteral value => [(es_span e, if value then "true" else "false")]
  | EI32Literal spelling => [(es_span e, spelling)]
  | ENegation o _ => [(o, "-")]
  | EAddition o _ _ => [(o, "+")]
  | ESubtraction o _ _ => [(o, "-")]
  | EMultiplication o _ _ => [(o, "*")]
  | EEqual o _ _ => [(o, "===")]
  | ENotEqual o _ _ => [(o, "!==")]
  | ELessThan o _ _ => [(o, "<")]
  | ELessEqual o _ _ => [(o, "<=")]
  | EGreaterThan o _ _ => [(o, ">")]
  | EGreaterEqual o _ _ => [(o, ">=")]
  | ECall callee open _ close => [identifier_token callee; (open, "("); (close, ")")]
  end.
Definition statement_tokens (s : StatementSyntax) : tokens :=
  match ss_kind s with
  | SLocalDeclaration keyword mutable name ty equals _ semicolon =>
      (keyword, if mutable then "let" else "const") :: identifier_token name :: type_tokens ty ++ [(equals, "="); (semicolon, ";")]
  | SAssignment target equals _ semicolon => [identifier_token target; (equals, "="); (semicolon, ";")]
  | SReturn keyword _ semicolon => [(keyword, "return"); (semicolon, ";")]
  | SBlock _ => []
  | SIf keyword open _ close _ else_clause =>
      [(keyword, "if"); (open, "("); (close, ")")] ++
      match else_clause with Some value => [(el_keyword_span value, "else")] | None => [] end
  | SWhile keyword open _ close _ => [(keyword, "while"); (open, "("); (close, ")")]
  end.
Definition block_tokens (b : BlockSyntax) : tokens := [(bs_open_brace_span b, "{"); (bs_close_brace_span b, "}")].
Definition body_tokens (b : FunctionBodySyntax) : tokens :=
  (fb_expressions b ≫= expression_tokens) ++ (fb_statements b ≫= statement_tokens) ++ (fb_blocks b ≫= block_tokens).
Definition function_tokens (f : FunctionSyntax) : tokens :=
  match fs_export_span f with Some span => [(span, "export")] | None => [] end ++
  [(fs_function_span f, "function"); identifier_token (fs_name f)] ++ type_tokens (fs_result_type f) ++
  (fs_parameters f ≫= parameter_tokens) ++ body_tokens (fs_body f).
Definition binding_tokens (b : ImportBindingSyntax) : tokens :=
  [identifier_token (ib_imported b); identifier_token (ib_local b)] ++
  match ib_as_span b with Some span => [(span, "as")] | None => [] end.
Definition import_tokens (i : ImportSyntax) : tokens :=
  [(im_import_span i, "import"); (im_from_span i, "from"); (im_semicolon_span i, ";");
   (sp_value_span (im_specifier i), sp_text (im_specifier i))] ++ (im_bindings i ≫= binding_tokens).
Definition unit_tokens (u : SourceUnit) : tokens :=
  (su_imports u ≫= import_tokens) ++ (su_functions u ≫= function_tokens).

Lemma Forall_bind_cons {A B} (P : B -> Prop) (f : A -> list B) x l :
  Forall P (f x) -> Forall P (l ≫= f) -> Forall P ((x :: l) ≫= f).
Proof. intros. by apply Forall_app. Qed.

(** ** Nodes *)

Section nodes.
Context {S : Type} `{HasYErrors S} (file : N) (path : NormalizedSourcePath) (sources : SourceMap).
Definition spelled (t : Span * string) : Prop := spells sources t.1 t.2 = true.
Notation node_span := (node_span file path sources).
Notation token := (token file path sources).
Notation identifier := (identifier file path sources).
Notation type_syntax := (type_syntax file path sources).
Implicit Types (s : S).

Lemma ygrowing_node_span raw label : ygrowing (S := S) (node_span raw label).
Proof. unfold node_span. ygrows. Qed.
Lemma ygrowing_require_text span text label : ygrowing (S := S) (require_text path sources span text label).
Proof. unfold require_text. ygrows. Qed.
Hint Resolve ygrowing_node_span ygrowing_require_text : ygrow.
Lemma ygrowing_token raw text label : ygrowing (S := S) (token raw text label).
Proof. unfold token. ygrows. Qed.
Lemma ygrowing_contains parent child label : ygrowing (S := S) (contains path parent child label).
Proof. unfold contains. ygrows. Qed.
Lemma ygrowing_require_order before after label : ygrowing (S := S) (require_order path before after label).
Proof. unfold require_order. ygrows. Qed.
Lemma ygrowing_identifier raw label : ygrowing (S := S) (identifier raw label).
Proof. unfold identifier. ygrows. Qed.
Lemma ygrowing_type_syntax raw label : ygrowing (S := S) (type_syntax raw label).
Proof. unfold type_syntax. ygrows. Qed.

Lemma verify_span_raw raw span : verify_span sources raw = Ok span -> raw_span span = raw.
Proof.
  unfold verify_span, sm_span. destruct (validated_source _ _); [|done]. cbn. intros [= <-]. by destruct raw.
Qed.
Lemma yspec_node_span raw label s (Q : S -> Span -> Prop) :
  (forall span, raw_span span = raw -> Q s span) -> yspec (node_span raw label) s Q.
Proof.
  intros HQ. unfold node_span. destruct (negb _); [by yreport|].
  destruct (verify_span sources raw) eqn:E; [|by yreport]. apply yspec_ret, HQ. by apply verify_span_raw.
Qed.
Lemma yspec_require_text span text label s (Q : S -> unit -> Prop) :
  (spelled (span, text) -> Q s tt) -> yspec (require_text path sources span text label) s Q.
Proof.
  intros HQ. apply yspec_when; [intros _; apply yspec_node|]. intros E%negb_false_iff. by apply HQ.
Qed.
Lemma yspec_token raw text label s (Q : S -> Span -> Prop) :
  (forall span, raw_span span = raw -> spelled (span, text) -> Q s span) -> yspec (token raw text label) s Q.
Proof.
  intros HQ. unfold token. eapply yspec_bind; [eauto 10 with ygrow|]. apply yspec_node_span. intros span Hs _.
  eapply yspec_bind; [eauto 10 with ygrow|]. apply yspec_require_text. intros Ht _. apply yspec_ret. auto.
Qed.
Lemma yspec_contains parent child label s (Q : S -> unit -> Prop) : Q s tt -> yspec (contains path parent child label) s Q.
Proof. intros HQ. by apply yspec_when; [intros _; apply yspec_node|]. Qed.
Lemma yspec_require_order before after label s (Q : S -> unit -> Prop) :
  Q s tt -> yspec (require_order path before after label) s Q.
Proof. intros HQ. by apply yspec_when; [intros _; apply yspec_node|]. Qed.
Lemma yspec_identifier raw label s (Q : S -> IdentifierSyntax -> Prop) :
  (forall i, raw_identifier i = raw -> spelled (identifier_token i) -> Q s i) -> yspec (identifier raw label) s Q.
Proof.
  intros HQ. unfold identifier. destruct (negb _); [by yreport|]. eapply yspec_bind; [eauto 10 with ygrow|].
  apply yspec_node_span. intros span Hs _. eapply yspec_bind; [eauto 10 with ygrow|]. apply yspec_require_text. intros Ht _.
  apply yspec_ret, HQ; [|done]. destruct raw. unfold raw_identifier. cbn in *. by rewrite Hs.
Qed.
Lemma yspec_type_syntax raw label s (Q : S -> TypeSyntax -> Prop) :
  (forall t, raw_type t = raw -> Forall spelled (type_tokens t) -> Q s t) -> yspec (type_syntax raw label) s Q.
Proof.
  intros HQ. unfold type_syntax. eapply yspec_bind; [ygrows|]. apply yspec_node_span. intros span Hs _.
  destruct raw as [rspan [|name]]; cbn in *; subst rspan.
  - ycheck. intros _ _. apply yspec_ret, HQ; [done|constructor].
  - destruct (negb _); [by yreport|]. eapply yspec_bind; [eauto 10 with ygrow|]. apply yspec_require_text. intros Ht _.
    apply yspec_ret, HQ; [done|]. repeat constructor. done.
Qed.
End nodes.
#[export] Hint Resolve ygrowing_node_span ygrowing_require_text ygrowing_token ygrowing_contains ygrowing_require_order
  ygrowing_identifier ygrowing_type_syntax : ygrow.
(** One step of a verifier on a clean run *)
Ltac ystep :=
  first
    [ ybind; first
        [ apply yspec_node_span; intros ? ? _
        | apply yspec_token; intros ? ? ? _
        | apply yspec_identifier; intros ? ? ? _
        | apply yspec_type_syntax; intros ? ? ? _
        | apply yspec_contains; intros _
        | apply yspec_require_order; intros _
        | apply yspec_require_text; intros ? _
        | apply yspec_gets; intros _
        | apply yspec_when; [intros _; first [apply yspec_node|apply yspec_nesting|apply yspec_protocol]|intros _ _] ] ].
Ltac ysteps := repeat ystep.

Section items.
Context {S : Type} `{HasYErrors S} (file : N) (path : NormalizedSourcePath) (sources : SourceMap).
Notation spelled := (spelled sources).
Implicit Types (s : S).

Lemma ygrowing_binding span e raw : ygrowing (S := S) (verify_binding file path sources span e raw).
Proof. unfold verify_binding. ygrows. Qed.
Hint Resolve ygrowing_binding : ygrow.
Lemma yspec_binding span e raw s (Q : S -> ImportBindingSyntax -> Prop) :
  (forall b, raw_binding b = raw -> Forall spelled (binding_tokens b) -> Q s b) ->
  yspec (verify_binding file path sources span e raw) s Q.
Proof.
  intros HQ. unfold verify_binding. ysteps. destruct raw as [rspan rimp rloc ras]. cbn in *. subst.
  ybind. apply (yspec_post _ _ (fun s' o => s' = s /\ raw_span <$> o = ras /\
    Forall spelled (match o with Some span => [(span, "as")] | None => [] end))).
  { destruct ras as [ras|]; [|by apply yspec_ret]. apply yspec_catch, yspec_token. intros ? <- Ht. by repeat constructor. }
  intros s' o _ (-> & <- & Ho) _. ysteps. ybind. apply (yspec_post _ _ (fun s' _ => s' = s)).
  { destruct o; [|by apply yspec_ret]. ysteps. by apply yspec_require_order. }
  intros s' _ _ -> _. ysteps. apply yspec_ret, HQ; [done|]. unfold binding_tokens. cbn. by repeat constructor.
Qed.
Lemma ygrowing_bindings span e raws : ygrowing (S := S) (verify_bindings file path sources span e raws).
Proof. revert e. induction raws; intros e; cbn; ygrows. Qed.
Hint Resolve ygrowing_bindings : ygrow.
Lemma yspec_bindings span e raws s (Q : S -> list ImportBindingSyntax * N -> Prop) :
  (forall bs e', raw_binding <$> bs = raws -> Forall spelled (bs ≫= binding_tokens) -> Q s (bs, e')) ->
  yspec (verify_bindings file path sources span e raws) s Q.
Proof.
  revert e Q. induction raws as [|raw raws IH]; intros e Q HQ; cbn [verify_bindings]; [by apply yspec_ret, HQ|].
  ybind. apply yspec_binding. intros b <- Hb _. ybind. apply IH. intros bs e' <- Hbs _. apply yspec_ret, HQ; [done|].
  by apply Forall_bind_cons.
Qed.
Lemma ygrowing_specifier raw : ygrowing (S := S) (module_specifier file path sources raw).
Proof. unfold module_specifier. ygrows. Qed.
Hint Resolve ygrowing_specifier : ygrow.
Lemma yspec_specifier raw s (Q : S -> ModuleSpecifierSyntax -> Prop) :
  (forall m, raw_specifier m = raw -> spelled (sp_value_span m, sp_text m) -> Q s m) ->
  yspec (module_specifier file path sources raw) s Q.
Proof.
  intros HQ. unfold module_specifier. destruct (negb _); [by yreport|]. ysteps. destruct raw. cbn in *. subst.
  by apply yspec_ret, HQ.
Qed.
Lemma ygrowing_import raw : ygrowing (S := S) (verify_import file path sources raw).
Proof. unfold verify_import. ygrows. Qed.
Lemma yspec_import raw s (Q : S -> ImportSyntax -> Prop) :
  (forall i, raw_import i = raw -> Forall spelled (import_tokens i) -> Q s i) ->
  yspec (verify_import file path sources raw) s Q.
Proof.
  intros HQ. unfold verify_import. ysteps. ybind. apply yspec_bindings. intros bs e Hbs Ht _.
  ybind. apply yspec_specifier. intros m Hm Hs _. ysteps. destruct raw. cbn in *. subst.
  apply yspec_ret, HQ; [done|]. unfold import_tokens. cbn. by repeat constructor.
Qed.

Lemma ygrowing_parameter span e raw : ygrowing (S := S) (verify_parameter file path sources span e raw).
Proof. unfold verify_parameter. ygrows. Qed.
Hint Resolve ygrowing_parameter : ygrow.
Lemma ygrowing_parameters span e raws : ygrowing (S := S) (verify_parameters file path sources span e raws).
Proof. revert e. induction raws; intros e; cbn; ygrows. Qed.
Hint Resolve ygrowing_parameters : ygrow.
Lemma yspec_parameters span e raws s (Q : S -> list ParameterSyntax -> Prop) :
  (forall ps, raw_parameter <$> ps = raws -> Forall spelled (ps ≫= parameter_tokens) -> Q s ps) ->
  yspec (verify_parameters file path sources span e raws) s Q.
Proof.
  revert e Q. induction raws as [|raw raws IH]; intros e Q HQ; cbn [verify_parameters]; [by apply yspec_ret, HQ|].
  ybind. unfold verify_parameter. ysteps. apply yspec_ret. intros _. ybind. apply IH. intros ps <- Hps _.
  destruct raw. cbn in *. subst. apply yspec_ret, HQ; [done|].
  apply Forall_bind_cons; [by constructor|done].
Qed.
Lemma ygrowing_contains_all parent children label : ygrowing (S := S) (contains_all path parent children label).
Proof. induction children; cbn; ygrows. Qed.
Lemma yspec_contains_all parent children label s (Q : S -> unit -> Prop) :
  Q s tt -> yspec (contains_all path parent children label) s Q.
Proof.
  intros HQ. induction children as [|c children IH]; cbn [contains_all]; [by apply yspec_ret|].
  eapply yspec_bind; [intros; apply ygrowing_contains_all|]. by apply yspec_contains.
Qed.
End items.
#[export] Hint Resolve ygrowing_bindings ygrowing_specifier ygrowing_import ygrowing_parameters ygrowing_contains_all : ygrow.

(** ** Arenas *)

Definition add_owner (owners : list N) (id : N) : list N := alter saturating_succ (N.to_nat id) owners.
Definition add_owners (owners : list N) (ids : list N) : list N := foldl add_owner owners ids.

(** The references that a part of a body adds *)
Record journal (s s' : BodyState) (expressions blocks statements roots : list N) : Prop := {
  jo_expressions : by_expression_owners s' = add_owners (by_expression_owners s) expressions;
  jo_blocks : by_block_owners s' = add_owners (by_block_owners s) blocks;
  jo_statements : by_statement_owners s' = add_owners (by_statement_owners s) statements;
  jo_roots : by_roots s' = by_roots s ++ roots;
  jo_depths : length (by_expression_depths s') = length (by_expression_depths s) }.
Lemma journal_refl s : journal s s [] [] [] [].
Proof. split; [done..| |done]. by rewrite app_nil_r. Qed.
Lemma journal_trans s1 s2 s3 e1 b1 t1 r1 e2 b2 t2 r2 :
  journal s1 s2 e1 b1 t1 r1 -> journal s2 s3 e2 b2 t2 r2 -> journal s1 s3 (e1 ++ e2) (b1 ++ b2) (t1 ++ t2) (r1 ++ r2).
Proof.
  intros [H1 H2 H3 H4 H9] [H5 H6 H7 H8 H10]. split; unfold add_owners in *.
  1-3: rewrite foldl_app; congruence. { rewrite H8, H4. by rewrite (assoc_L (++)). } congruence.
Qed.
Lemma add_owners_length ids owners : length (add_owners owners ids) = length owners.
Proof.
  unfold add_owners. revert owners. induction ids as [|id ids IH]; intros owners; cbn; [done|].
  rewrite IH. apply length_alter.
Qed.
(** The tables have room for [n] expressions. *)
Definition tables_for (n : nat) (s : BodyState) : Prop :=
  length (by_expression_owners s) = n /\ length (by_expression_depths s) = n.
Lemma journal_tables n s s' es bs ts rs : journal s s' es bs ts rs -> tables_for n s -> tables_for n s'.
Proof. intros [H1 _ _ _ H2] [H3 H4]. split; [by rewrite H1, add_owners_length|congruence]. Qed.
Lemma insert_owner (owners : list N) (i : nat) x :
  owners !! i = Some x -> <[i := saturating_succ x]> owners = alter saturating_succ i owners.
Proof.
  intros E. apply list_eq. intros j. destruct (decide (i = j)) as [<-|Hne].
  - rewrite list_lookup_insert_eq, list_lookup_alter_eq, E by (by eapply lookup_lt_Some). done.
  - by rewrite list_lookup_insert_ne, list_lookup_alter_ne.
Qed.

(** The expressions a statement roots *)
Definition statement_roots (kind : StatementKind) : list ExpressionId :=
  match kind with
  | SLocalDeclaration _ _ _ _ _ initializer _ => [initializer]
  | SAssignment _ _ value _ | SReturn _ value _ => [value]
  | SBlock _ => []
  | SIf _ _ condition _ _ _ | SWhile _ _ condition _ _ => [condition]
  end.

Section body.
Context (file : N) (path : NormalizedSourcePath) (sources : SourceMap) (body_span : Span).
Notation spelled := (spelled sources).
Implicit Types (s : BodyState).

Lemma ygrowing_edge index raw_id : ygrowing (expression_edge path index raw_id).
Proof. unfold expression_edge. ygrows. Qed.
Hint Resolve ygrowing_edge : ygrow.
Lemma yspec_or_leave {A} (o : option A) s (Q : BodyState -> A -> Prop) :
  is_Some o -> (forall a, o = Some a -> Q s a) -> yspec (or_leave o tt) s Q.
Proof. intros [a ->] HQ _. by apply HQ. Qed.
Context (n : nat).
Lemma yspec_edge index raw_id s (Q : BodyState -> ExpressionId -> Prop) :
  index < n -> tables_for n s ->
  (forall s', journal s s' [raw_id] [] [] [] -> N.to_nat raw_id < index -> Q s' raw_id) ->
  yspec (expression_edge path index raw_id) s Q.
Proof.
  intros Hi [Ho Hd] HQ. unfold expression_edge. destruct (Nat.leb_spec index (N.to_nat raw_id)); [by yreport|]. ysteps.
  ybind. apply yspec_or_leave; [apply lookup_lt_is_Some; lia|]. intros owner Eo _. ybind. apply yspec_modify. intros _.
  ybind. apply yspec_gets. cbn. intros _. ybind. apply yspec_or_leave; [apply lookup_lt_is_Some; lia|]. intros depth Ed _.
  ybind. apply yspec_expect. intros own Ex _. ybind. apply yspec_modify. intros _. apply yspec_ret, HQ; [|lia].
  split; cbn; [by rewrite (insert_owner _ _ _ Eo)|done..| |by rewrite length_insert]. by rewrite app_nil_r.
Qed.
Lemma ygrowing_binary index es span o l r text : ygrowing (binary_edges file path sources index es span o l r text).
Proof. unfold binary_edges. ygrows. Qed.
Hint Resolve ygrowing_binary : ygrow.
Lemma yspec_binary index es span o l r text s (Q : BodyState -> Span * ExpressionId * ExpressionId -> Prop) :
  index < n -> tables_for n s -> length es = index ->
  (forall s' o', journal s s' [l; r] [] [] [] -> N.to_nat l < index -> N.to_nat r < index -> raw_span o' = o ->
     spelled (o', text) -> Q s' (o', l, r)) ->
  yspec (binary_edges file path sources index es span o l r text) s Q.
Proof.
  intros Hi Ht He HQ. unfold binary_edges. ysteps. ybind. apply yspec_edge; [done..|]. intros s1 J1 Hl _.
  ybind. apply yspec_edge; [done|by eapply journal_tables|]. intros s2 J2 Hr _.
  ybind. apply yspec_or_leave; [apply fmap_is_Some, lookup_lt_is_Some; unfold get; lia|]. intros lspan _ _.
  ybind. apply yspec_or_leave; [apply fmap_is_Some, lookup_lt_is_Some; unfold get; lia|]. intros rspan _ _.
  ysteps. apply yspec_ret, HQ; [|done..]. exact (journal_trans _ _ _ _ _ _ _ _ _ _ _ J1 J2).
Qed.
Lemma ygrowing_call_edges index ids : ygrowing (call_edges path index ids).
Proof. induction ids; cbn; ygrows. Qed.
Hint Resolve ygrowing_call_edges : ygrow.
Lemma yspec_call_edges index ids s (Q : BodyState -> list ExpressionId -> Prop) :
  index < n -> tables_for n s ->
  (forall s', journal s s' ids [] [] [] -> Forall (fun id => N.to_nat id < index) ids -> Q s' ids) ->
  yspec (call_edges path index ids) s Q.
Proof.
  intros Hi. revert s Q. induction ids as [|id ids IH]; intros s Q Ht HQ; cbn [call_edges].
  - apply yspec_ret, HQ; [apply journal_refl|done].
  - ybind. apply yspec_catch, yspec_edge; [done..|]. intros s1 J1 Hlt _. ybind.
    apply IH; [by eapply journal_tables|]. intros s2 J2 Hall _. apply yspec_ret, HQ; [|by constructor].
    exact (journal_trans _ _ _ _ _ _ _ _ _ _ _ J1 J2).
Qed.
Lemma ygrowing_arguments es span p ids : ygrowing (verify_arguments path es span p ids).
Proof. revert p. induction ids; intros p; cbn; ygrows. Qed.
Hint Resolve ygrowing_arguments : ygrow.
Lemma yspec_arguments es span p ids s (Q : BodyState -> Span -> Prop) :
  Forall (fun id => N.to_nat id < length es) ids -> (forall p', Q s p') ->
  yspec (verify_arguments path es span p ids) s Q.
Proof.
  intros Hall HQ. revert p. induction Hall as [|id ids Hid Hall IH]; intros p; cbn [verify_arguments]; [by apply yspec_ret|].
  ybind. apply yspec_or_leave; [apply fmap_is_Some, lookup_lt_is_Some; unfold get; lia|]. intros aspan _ _.
  ysteps. apply IH.
Qed.

Lemma ygrowing_expression_kind index es span raw :
  ygrowing (verify_expression_kind file path sources index es span raw).
Proof. unfold verify_expression_kind. destruct raw; ygrows. Qed.
Hint Resolve ygrowing_expression_kind : ygrow.
Lemma yspec_expression_kind index es span raw s (Q : BodyState -> ExpressionKind -> Prop) :
  index < n -> tables_for n s -> length es = index ->
  (forall s' kind, journal s s' (expression_children kind) [] [] [] ->
     Forall (fun id => N.to_nat id < index) (expression_children kind) -> raw_expression_kind kind = raw ->
     Forall spelled (expression_tokens (mkExpressionSyntax span kind)) -> Q s' kind) ->
  yspec (verify_expression_kind file path sources index es span raw) s Q.
Proof.
  intros Hi Ht He HQ. destruct raw; cbn [verify_expression_kind];
    try (ybind; apply yspec_binary; [done..|]; intros s' o' J Hl Hr <- Hs _; apply yspec_ret, HQ; [exact J|by repeat constructor|done|by repeat constructor]).
  - ysteps. apply yspec_ret, HQ; [apply journal_refl|done|cbn; congruence|by repeat constructor].
  - ysteps. apply yspec_ret, HQ; [apply journal_refl|done..|by repeat constructor].
  - ysteps. apply yspec_ret, HQ; [apply journal_refl|done..|by repeat constructor].
  - ysteps. ybind. apply yspec_edge; [done..|]. intros s' J Hl _.
    ybind. apply yspec_or_leave; [apply fmap_is_Some, lookup_lt_is_Some; unfold get; lia|]. intros ospan _ _. ysteps.
    apply yspec_ret, HQ; [exact J|by repeat constructor|cbn; congruence|by repeat constructor].
  - ysteps. ybind. apply yspec_call_edges; [done..|]. intros s' J Hall _. ysteps.
    ybind. apply yspec_arguments; [by rewrite He|]. intros p _. ysteps.
    apply yspec_ret, HQ; [exact J|done|cbn; congruence|by repeat constructor].
Qed.

Lemma ygrowing_expression index es raw : ygrowing (verify_expression file path sources body_span index es raw).
Proof. unfold verify_expression. ygrows. Qed.
Hint Resolve ygrowing_expression : ygrow.
Definition children_of (e : ExpressionSyntax) : list ExpressionId := expression_children (es_kind e).
Lemma yspec_expression index es raw s (Q : BodyState -> ExpressionSyntax -> Prop) :
  index < n -> tables_for n s -> length es = index ->
  (forall s' e, journal s s' (children_of e) [] [] [] -> Forall (fun id => N.to_nat id < index) (children_of e) ->
     raw_expression e = raw -> Forall spelled (expression_tokens e) -> Q s' e) ->
  yspec (verify_expression file path sources body_span index es raw) s Q.
Proof.
  intros Hi Ht He HQ. unfold verify_expression. ysteps. ybind. apply yspec_expect. intros d Ed _.
  ybind. apply yspec_modify. intros _. ybind. apply yspec_expression_kind; [done| |done|].
  { destruct Ht. split; [done|]. cbn. by rewrite length_insert. }
  intros s' kind J Hall Hk Htok _. ysteps. ybind. apply yspec_expect. intros d' _ _. ysteps. apply yspec_ret, HQ; [|done| |done].
  - destruct J as [H1 H2 H3 H4 H5]. split; [done..|]. cbn in H5. by rewrite H5, length_insert.
  - destruct raw. unfold raw_expression. cbn in *. congruence.
Qed.

Lemma ygrowing_expressions es raws : ygrowing (verify_expressions file path sources body_span es raws).
Proof. revert es. induction raws; intros es; cbn; ygrows. Qed.
Hint Resolve ygrowing_expressions : ygrow.
Lemma yspec_expressions es raws s (Q : BodyState -> list ExpressionSyntax -> Prop) :
  length es + length raws <= n -> tables_for n s ->
  (forall s' new, journal s s' (new ≫= children_of) [] [] [] -> raw_expression <$> new = raws ->
     Forall spelled (new ≫= expression_tokens) ->
     (forall j e, new !! j = Some e -> Forall (fun id => N.to_nat id < length es + j) (children_of e)) -> Q s' (es ++ new)) ->
  yspec (verify_expressions file path sources body_span es raws) s Q.
Proof.
  revert es s Q. induction raws as [|raw raws IH]; intros es s Q Hn Ht HQ; cbn [verify_expressions].
  - apply yspec_ret. rewrite <- (app_nil_r es). by apply HQ; [apply journal_refl|..].
  - cbn in Hn. ybind. apply yspec_expression; [lia|done..|]. intros s1 e J1 Hall <- Htok _.
    apply IH; [rewrite length_app; cbn; lia|by eapply journal_tables|]. intros s2 new J2 <- Htoks Hj.
    rewrite <- (assoc_L (++)). apply (HQ s2 (e :: new)); [|done|by apply Forall_bind_cons|].
    + exact (journal_trans _ _ _ _ _ _ _ _ _ _ _ J1 J2).
    + intros [|j] e' E; cbn in E; [injection E as <-; by rewrite Nat.add_0_r|].
      specialize (Hj _ _ E). rewrite length_app in Hj. cbn in Hj. by replace (length es + S j) with (length es + 1 + j) by lia.
Qed.

(** ** Statements and blocks *)

Lemma ygrowing_statement_expression count raw_id : ygrowing (statement_expression path count raw_id).
Proof. unfold statement_expression. ygrows. Qed.
Lemma ygrowing_statement_block raw_id : ygrowing (statement_block path raw_id).
Proof. unfold statement_block. ygrows. Qed.
Hint Resolve ygrowing_statement_expression ygrowing_statement_block : ygrow.
Lemma yspec_statement_expression count raw_id s (Q : BodyState -> ExpressionId -> Prop) :
  (forall s', journal s s' [raw_id] [] [] [raw_id] -> N.to_nat raw_id < count -> Q s' raw_id) ->
  yspec (statement_expression path count raw_id) s Q.
Proof.
  intros HQ. unfold statement_expression. destruct (Nat.leb_spec count (N.to_nat raw_id)); [by yreport|]. ysteps.
  ybind. apply yspec_expect. intros owner Eo _. ybind. apply yspec_modify. intros _. ybind. apply yspec_modify. intros _.
  apply yspec_ret, HQ; [|lia]. split; cbn; [by rewrite (insert_owner _ _ _ Eo)|done..].
Qed.
Lemma yspec_statement_block raw_id s (Q : BodyState -> SBlockId -> Prop) :
  (forall s', journal s s' [] [raw_id] [] [] -> N.to_nat raw_id < length (by_block_owners s) -> Q s' raw_id) ->
  yspec (statement_block path raw_id) s Q.
Proof.
  intros HQ. unfold statement_block. ysteps. destruct (_ !! _) as [owner|] eqn:Eo; [|by yreport].
  ybind. apply yspec_modify. intros _. apply yspec_ret, HQ; [|by eapply lookup_lt_Some].
  split; cbn; [done|by rewrite (insert_owner _ _ _ Eo)|done| |done]. by rewrite app_nil_r.
Qed.

Lemma ygrowing_else raw : ygrowing (verify_else file path sources raw).
Proof. unfold verify_else. ygrows. Qed.
Hint Resolve ygrowing_else : ygrow.
Lemma ygrowing_statement_kind count raw : ygrowing (verify_statement_kind file path sources count raw).
Proof. unfold verify_statement_kind. destruct raw; ygrows. Qed.
Hint Resolve ygrowing_statement_kind : ygrow.
Lemma yspec_statement_kind count raw span s (Q : BodyState -> StatementKind -> Prop) :
  (forall s' kind, journal s s' (statement_roots kind) (statement_blocks kind) [] (statement_roots kind) ->
     Forall (fun id => N.to_nat id < count) (statement_roots kind) ->
     Forall (fun id => N.to_nat id < length (by_block_owners s)) (statement_blocks kind) -> raw_statement_kind kind = raw ->
     Forall spelled (statement_tokens (mkStatementSyntax span kind)) -> Q s' kind) ->
  yspec (verify_statement_kind file path sources count raw) s Q.
Proof.
  intros HQ. destruct raw; cbn [verify_statement_kind].
  - ysteps. ybind. apply yspec_statement_expression. intros s' J Hlt _. ysteps.
    apply yspec_ret, HQ; [exact J|by repeat constructor|done|cbn; congruence|].
    unfold statement_tokens. cbn. do 2 (constructor; [done|]). apply Forall_app. split; [done|by repeat constructor].
  - ysteps. ybind. apply yspec_statement_expression. intros s' J Hlt _. ysteps.
    apply yspec_ret, HQ; [exact J|by repeat constructor|done|cbn; congruence|by repeat constructor].
  - ysteps. ybind. apply yspec_statement_expression. intros s' J Hlt _. ysteps.
    apply yspec_ret, HQ; [exact J|by repeat constructor|done|cbn; congruence|by repeat constructor].
  - ybind. apply yspec_statement_block. intros s' J Hlt _. apply yspec_ret, HQ; [exact J|done|by repeat constructor|done|done].
  - ysteps. ybind. apply yspec_statement_expression. intros s1 J1 Hlt _. ysteps.
    assert (Hb : length (by_block_owners s1) = length (by_block_owners s)) by by rewrite (jo_blocks _ _ _ _ _ _ J1).
    ybind. apply yspec_statement_block. intros s2 J2 Hthen _. rewrite Hb in Hthen.
    pose proof (journal_trans _ _ _ _ _ _ _ _ _ _ _ J1 J2) as J12. ybind. destruct else_clause as [[kspan eblock]|].
    + ybind. unfold verify_else. ysteps. ybind. apply yspec_statement_block. intros s3 J3 Helse _.
      assert (Hb2 : length (by_block_owners s2) = length (by_block_owners s)).
      { by rewrite (jo_blocks _ _ _ _ _ _ J2), add_owners_length. }
      rewrite Hb2 in Helse. apply yspec_ret. intros _. apply yspec_ret. intros _. apply yspec_ret, HQ.
      * exact (journal_trans _ _ _ _ _ _ _ _ _ _ _ J12 J3).
      * by repeat constructor.
      * by repeat constructor.
      * cbn in *. unfold raw_else. cbn. congruence.
      * by repeat constructor.
    + apply yspec_ret. intros _. apply yspec_ret, HQ; [exact J12|by repeat constructor..|cbn; congruence|by repeat constructor].
  - ysteps. ybind. apply yspec_statement_expression. intros s1 J1 Hlt _. ysteps.
    assert (Hb : length (by_block_owners s1) = length (by_block_owners s)) by by rewrite (jo_blocks _ _ _ _ _ _ J1).
    ybind. apply yspec_statement_block. intros s2 J2 Hbody _. rewrite Hb in Hbody.
    apply yspec_ret, HQ; [exact (journal_trans _ _ _ _ _ _ _ _ _ _ _ J1 J2)|by repeat constructor..|cbn; congruence|by repeat constructor].
Qed.
End body.
#[export] Hint Resolve ygrowing_expressions ygrowing_statement_kind : ygrow.
