(* ===== verification/SnapshotArenas.v ===== *)
(** * Accepted arenas

    On a clean run every node of a body has exactly one owner, operands precede
    their operators, and a statement opens only blocks after its own. *)
From stdpp Require Import base numbers list list_numbers strings.
From S2P Require Import Prelude Source SourceText Diagnostics Syntax Snapshot SnapshotLimits.

(** ** Statements and blocks *)

Section blocks.
Context (file : N) (path : NormalizedSourcePath) (sources : SourceMap) (body_span : Span).
Notation spelled := (spelled sources).
Implicit Types (s : BodyState).

Definition roots_of (t : StatementSyntax) : list ExpressionId := statement_roots (ss_kind t).
Definition opened_by (t : StatementSyntax) : list SBlockId := statement_blocks (ss_kind t).

Lemma ygrowing_statement count raw : ygrowing (verify_statement file path sources body_span count raw).
Proof. unfold verify_statement. ygrows. Qed.
Hint Resolve ygrowing_statement : ygrow.
Lemma ygrowing_statements count raws : ygrowing (verify_statements file path sources body_span count raws).
Proof. induction raws; cbn; ygrows. Qed.
Hint Resolve ygrowing_statements : ygrow.
Lemma yspec_statements count raws s (Q : BodyState -> list StatementSyntax -> Prop) :
  (forall s' ts, journal s s' (ts ≫= roots_of) (ts ≫= opened_by) [] (ts ≫= roots_of) -> raw_statement <$> ts = raws ->
     Forall (fun id => N.to_nat id < count) (ts ≫= roots_of) ->
     Forall (fun id => N.to_nat id < length (by_block_owners s)) (ts ≫= opened_by) ->
     Forall spelled (ts ≫= statement_tokens) -> Q s' ts) ->
  yspec (verify_statements file path sources body_span count raws) s Q.
Proof.
  revert s Q. induction raws as [|raw raws IH]; intros s Q HQ; cbn [verify_statements].
  - apply yspec_ret, HQ; [apply journal_refl|done..].
  - ybind. unfold verify_statement. ysteps. ybind. eapply yspec_statement_kind. intros s1 kind J1 Hr Hb Hk Ht _.
    apply yspec_ret. intros _. ybind. apply IH. intros s2 ts J2 <- Hrs Hbs Hts _.
    assert (El : length (by_block_owners s1) = length (by_block_owners s)).
    { by rewrite (jo_blocks _ _ _ _ _ _ J1), add_owners_length. }
    rewrite El in Hbs. destruct raw. cbn in *. subst. apply yspec_ret, HQ.
    + exact (journal_trans _ _ _ _ _ _ _ _ _ _ _ J1 J2).
    + done.
    + by apply Forall_bind_cons.
    + by apply Forall_bind_cons.
    + by apply Forall_bind_cons.
Qed.

Context (statements : list StatementSyntax).
Lemma ygrowing_block_statements span e raws : ygrowing (verify_block_statements path statements span e raws).
Proof. revert e. induction raws; intros e; cbn; ygrows. Qed.
Hint Resolve ygrowing_block_statements : ygrow.
Lemma yspec_block_statements span e raws s (Q : BodyState -> list StatementId * N -> Prop) :
  (forall s' e', journal s s' [] [] raws [] -> Forall (fun id => N.to_nat id < length statements) raws -> Q s' (raws, e')) ->
  yspec (verify_block_statements path statements span e raws) s Q.
Proof.
  revert e s Q. induction raws as [|raw raws IH]; intros e s Q HQ; cbn [verify_block_statements].
  - apply yspec_ret, HQ; [apply journal_refl|done].
  - destruct (_ !! _) as [statement|] eqn:Es; [|by yreport]. ysteps. ybind. apply yspec_expect. intros owner Eo _.
    ybind. apply yspec_modify. intros _. ysteps. ybind. apply IH. intros s2 e2 J2 Hall _. apply yspec_ret, HQ.
    + eapply (journal_trans _ _ _ [] [] [raw] []); [|exact J2].
      split; cbn; [done|done|by rewrite (insert_owner _ _ _ Eo)| |done]. by rewrite app_nil_r.
    + constructor; [by eapply lookup_lt_Some|done].
Qed.
Lemma ygrowing_block raw : ygrowing (verify_block file path sources body_span statements raw).
Proof. unfold verify_block. ygrows. Qed.
Hint Resolve ygrowing_block : ygrow.
Lemma ygrowing_blocks raws : ygrowing (verify_blocks file path sources body_span statements raws).
Proof. induction raws; cbn; ygrows. Qed.
Hint Resolve ygrowing_blocks : ygrow.
Lemma yspec_blocks raws s (Q : BodyState -> list BlockSyntax -> Prop) :
  (forall s' bs, journal s s' [] [] (bs ≫= bs_statements) [] -> raw_block <$> bs = raws ->
     Forall (fun id => N.to_nat id < length statements) (bs ≫= bs_statements) ->
     Forall spelled (bs ≫= block_tokens) -> Q s' bs) ->
  yspec (verify_blocks file path sources body_span statements raws) s Q.
Proof.
  revert s Q. induction raws as [|raw raws IH]; intros s Q HQ; cbn [verify_blocks].
  - apply yspec_ret, HQ; [apply journal_refl|done..].
  - ybind. unfold verify_block. ysteps. ybind. apply yspec_block_statements. intros s1 e1 J1 Hall _. ysteps.
    apply yspec_ret. intros _. ybind. apply IH. intros s2 bs J2 <- Halls Hts _. destruct raw. cbn in *. subst.
    apply yspec_ret, HQ; [|done|by apply Forall_bind_cons|].
    + exact (journal_trans _ _ _ _ _ _ _ _ _ _ _ J1 J2).
    + apply Forall_bind_cons; [by repeat constructor|done].
Qed.

(** The checks of the layout and of the owners change nothing. *)
Lemma ygrowing_children span p children : ygrowing (verify_children path span p children).
Proof. revert p. induction children; intros p; cbn; ygrows. Qed.
Hint Resolve ygrowing_children : ygrow.
Lemma yspec_children span p children s (Q : BodyState -> unit -> Prop) :
  Q s tt -> yspec (verify_children path span p children) s Q.
Proof.
  intros HQ. revert p. induction children as [|c children IH]; intros p; cbn [verify_children]; [by apply yspec_ret|].
  ysteps. ybind. apply (yspec_post _ _ (fun s' _ => s' = s)).
  { destruct p; [by apply yspec_require_order|by apply yspec_ret]. }
  intros s' _ _ -> _. apply IH.
Qed.
Lemma ygrowing_layouts es bs ts : ygrowing (verify_layouts path es bs ts).
Proof. induction ts; cbn; unfold verify_statement_layout; ygrows. Qed.
Lemma yspec_layouts es bs ts s (Q : BodyState -> unit -> Prop) : Q s tt -> yspec (verify_layouts path es bs ts) s Q.
Proof.
  intros HQ. induction ts as [|t ts IH]; cbn [verify_layouts]; [by apply yspec_ret|].
  eapply yspec_bind; [intros; apply ygrowing_layouts|]. by apply yspec_children.
Qed.
Lemma ygrowing_owners what i owners : ygrowing (verify_owners path what i owners).
Proof. revert i. induction owners; intros i; cbn; ygrows. Qed.
Hint Resolve ygrowing_owners : ygrow.
Lemma yspec_owners what i owners s (Q : BodyState -> unit -> Prop) :
  (Forall (fun count => count = 1%N) owners -> Q s tt) -> yspec (verify_owners path what i owners) s Q.
Proof.
  revert i Q. induction owners as [|c owners IH]; intros i Q HQ; cbn [verify_owners]; [by apply yspec_ret, HQ|].
  ybind. apply yspec_when; [intros _; apply yspec_node|]. intros Hc%negb_false_iff%N.eqb_eq _.
  apply IH. intros Hall. apply HQ. by constructor.
Qed.
End blocks.
#[export] Hint Resolve ygrowing_statements ygrowing_blocks ygrowing_layouts ygrowing_owners : ygrow.

(** ** Owners *)

Lemma add_owners_count owners ids (i : nat) x :
  owners !! i = Some x -> (x <= u32_max)%N ->
  add_owners owners ids !! i = Some (N.min u32_max (x + len (filter (fun id => N.to_nat id = i) ids)))%N.
Proof.
  unfold add_owners. revert owners x. induction ids as [|id ids IH]; intros owners x E Hx; cbn [foldl].
  - rewrite E. f_equal. unfold len. cbn. lia.
  - destruct (decide (N.to_nat id = i)) as [<-|Hne].
    + rewrite (IH _ (saturating_succ x)); [|unfold add_owner; by rewrite list_lookup_alter_eq, E|unfold saturating_succ; lia].
      rewrite filter_cons_True by done. f_equal. unfold saturating_succ, len, u32_max in *. cbn [length]. lia.
    + rewrite (IH _ x); [|unfold add_owner; by rewrite list_lookup_alter_ne|done]. by rewrite filter_cons_False by done.
Qed.
(** Every identity below [n] occurs once. *)
Definition owned_once (n : nat) (ids : list N) : Prop :=
  forall i, i < n -> length (filter (fun id => N.to_nat id = i) ids) = 1.
Lemma owned_once_spec n ids :
  Forall (fun count => count = 1%N) (add_owners (replicate n 0%N) ids) -> owned_once n ids.
Proof.
  intros Hall i Hi. pose proof (add_owners_count (replicate n 0%N) ids i 0) as E.
  specialize (E (lookup_replicate_2 _ _ _ Hi) ltac:(done)).
  rewrite Forall_lookup in Hall. specialize (Hall _ _ E). unfold len, u32_max in Hall. lia.
Qed.

(** ** The walk over the blocks

    Blocks are entered in the order of the arena, so the blocks a statement
    opens come after the block of the statement. *)

Section walk.
Context (path : NormalizedSourcePath) (bs : list BlockSyntax) (ts : list StatementSyntax).

(** The blocks opened from the statement at [off] of block [b] on come after [b]. *)
Definition opens_after (b off : nat) : Prop :=
  forall B k (sid : StatementId) t (c : SBlockId), bs !! b = Some B -> off <= k -> bs_statements B !! k = Some sid -> ts !! N.to_nat sid = Some t ->
    c ∈ opened_by t -> N.to_nat c < length bs -> b < N.to_nat c.

Notation entry := (SBlockId * nat * N * bool)%type.
(** The entries of a stack before block [eb] is entered *)
Definition entry_pending (eb : nat) (x : entry) : Prop :=
  let '(b, off, _, entered) := x in if entered then N.to_nat b < eb else off = 0.
Definition entry_done (eb : nat) (x : entry) : Prop :=
  let '(b, off, _, entered) := x in
  (entered = false -> N.to_nat b < length bs -> eb <= N.to_nat b) /\ opens_after (N.to_nat b) off.

Lemma ygrowing_walk fuel eb es visited stack : ygrowing (block_walk path fuel bs ts eb es visited stack).
Proof.
  revert eb es visited stack. induction fuel as [|fuel IH]; intros eb es visited stack; cbn [block_walk]; [ygrows|].
  destruct stack as [|[[[b off] d] ent] stack]; ygrows.
Qed.
Hint Resolve ygrowing_walk : ygrow.

Lemma opens_after_none b off B : bs !! b = Some B -> bs_statements B !! off = None -> opens_after b off.
Proof.
  intros HB Hn B' k sid t c HB' Hk Hs. replace B' with B in * by congruence. apply lookup_lt_Some in Hs.
  apply lookup_ge_None in Hn. intros; lia.
Qed.
Lemma opens_after_step b off B (sid : StatementId) :
  bs !! b = Some B -> bs_statements B !! off = Some sid -> opens_after b (S off) ->
  (forall t c, ts !! N.to_nat sid = Some t -> c ∈ opened_by t -> N.to_nat c < length bs -> b < N.to_nat c) -> opens_after b off.
Proof.
  intros HB Hs Ha Hc B' k sid' t c HB' Hk Hs' Ht Hin Hl. destruct (decide (k = off)) as [->|Hne].
  - rewrite HB in HB'. injection HB' as <-. rewrite Hs in Hs'. injection Hs' as <-. eauto.
  - eapply (Ha B' k); eauto. lia.
Qed.

Lemma yspec_walk fuel eb es visited stack s :
  Forall (entry_pending eb) stack ->
  yspec (block_walk path fuel bs ts eb es visited stack) s (fun _ v =>
    Forall (entry_done eb) stack /\ (forall b, v !! b = Some true -> visited !! b = Some true \/ opens_after b 0) /\
    length v = length visited).
Proof.
  revert eb es visited stack s. induction fuel as [|fuel IH]; intros eb es visited stack s Hp; cbn [block_walk]; [done|].
  destruct stack as [|[[[b off] d] ent] stack]; [apply yspec_ret; split_and!; [done|by left|done]|].
  destruct (_ <? d)%N; [by yreport|]. apply Forall_cons in Hp as [Hb Hp].
  destruct (bs !! N.to_nat b) as [B|] eqn:HB.
  2:{ eapply yspec_post; [by apply IH|]. intros s' v _ [Hd Hv]. split; [|exact Hv]. constructor; [|done].
      apply lookup_ge_None in HB. split; [intros; lia|]. intros B' k sid t c HB'. apply lookup_lt_Some in HB'. lia. }
  ybind. apply yspec_expect. intros seen Hseen _. destruct (negb ent && seen) eqn:Ens; [by yreport|].
  ybind. apply yspec_when; [intros _; apply yspec_node|]. intros Hidx _.
  set (visited' := if ent then visited else set_visited (N.to_nat b) visited).
  set (eb' := if ent then eb else S eb).
  assert (Heb : N.to_nat b < eb' /\ eb <= eb' /\ (ent = false -> N.to_nat b = eb)).
  { unfold eb'. destruct ent; cbn in *; [by split_and!|]. apply negb_false_iff, Nat.eqb_eq in Hidx. lia. }
  assert (Hv' : forall i, visited' !! i = Some true -> visited !! i = Some true \/ (ent = false /\ i = N.to_nat b)).
  { unfold visited', set_visited. intros i. destruct ent; [by left|]. destruct (decide (i = N.to_nat b)) as [->|Hne]; [by right|].
    rewrite list_lookup_insert_ne by done. by left. }
  assert (Hp' : Forall (entry_pending eb') stack).
  { eapply Forall_impl; [exact Hp|]. intros [[[b' off'] d'] []]; cbn; [lia|done]. }
  (* what follows about the rest of the stack *)
  assert (Hl : length visited' = length visited).
  { unfold visited', set_visited. destruct ent; [done|by rewrite length_insert]. }
  assert (Hrest : forall v : list bool, opens_after (N.to_nat b) off -> Forall (entry_done eb') stack ->
    (forall i, v !! i = Some true -> visited' !! i = Some true \/ opens_after i 0) /\ length v = length visited' ->
    Forall (entry_done eb) ((b, off, d, ent) :: stack) /\
    (forall i, v !! i = Some true -> visited !! i = Some true \/ opens_after i 0) /\ length v = length visited).
  { intros v Ho Hd [Hv Hlv]. split_and!; [| |congruence].
    - constructor; [split; [intros He _; destruct Heb as (_ & _ & Heq); by rewrite (Heq He)|done]|]. eapply Forall_impl; [exact Hd|]. intros [[[b' off'] d'] ent']. intros [H1 H2].
      split; [|done]. intros He Hlb. specialize (H1 He Hlb). lia.
    - intros i [Hi|Hi]%Hv; [|by right]. apply Hv' in Hi as [Hi|[-> ->]]; [by left|right]. cbn in Hb. by subst off. }
  clearbody visited' eb'. destruct (bs_statements B !! off) as [sid|] eqn:Es.
  2:{ eapply yspec_post; [by apply IH|]. intros s' v _ [Hd Hv]. apply Hrest; [by eapply opens_after_none|done|done]. }
  destruct (ts !! N.to_nat sid) as [t|] eqn:Et.
  - ybind. apply yspec_when; [intros _; apply yspec_node|]. intros _ _. eapply yspec_post; [apply IH|].
    + apply Forall_app. split; [|by constructor; [cbn; lia|]]. apply Forall_fmap, Forall_forall. done.
    + intros s' v _ [Hd Hv]. apply Forall_app in Hd as [Hopen Hd]. apply Forall_cons in Hd as [[_ Hb'] Hd].
      apply Hrest; [|done|done]. eapply opens_after_step; [done..|]. intros t' c Ht' Hc Hlc. replace t' with t in * by congruence.
      rewrite Forall_fmap, Forall_forall in Hopen. destruct (Hopen c Hc) as [H1 _]. specialize (H1 eq_refl Hlc). lia.
  - eapply yspec_post; [apply IH; constructor; [cbn; lia|done]|]. intros s' v _ [Hd Hv]. apply Forall_cons in Hd as [[_ Hb'] Hd].
    apply Hrest; [|done|done]. eapply opens_after_step; [done..|]. intros t' c Ht'. congruence.
Qed.

Lemma ygrowing_expression_walk fuel es e emitted stack : ygrowing (expression_walk path fuel es e emitted stack).
Proof.
  revert e emitted stack. induction fuel as [|fuel IH]; intros e emitted stack; cbn [expression_walk]; [ygrows|].
  destruct stack as [|[[i ex] d] stack]; ygrows.
Qed.
Hint Resolve ygrowing_expression_walk : ygrow.
Lemma ygrowing_roots es e emitted roots : ygrowing (walk_roots path es e emitted roots).
Proof. revert e emitted. induction roots; intros e emitted; cbn; ygrows. Qed.
Hint Resolve ygrowing_roots : ygrow.
End walk.
#[export] Hint Resolve ygrowing_walk ygrowing_roots : ygrow.
Lemma ygrowing_canonical path bs ts es roots : ygrowing (verify_canonical_graph path bs ts es roots).
Proof. unfold verify_canonical_graph. destruct bs; ygrows. Qed.
#[export] Hint Resolve ygrowing_canonical ygrowing_expression_walk : ygrow.
Lemma yspec_expression_walk path fuel es e emitted stack s :
  yspec (expression_walk path fuel es e emitted stack) s (fun _ _ => True).
Proof.
  revert e emitted stack s. induction fuel as [|fuel IH]; intros e emitted stack s; cbn [expression_walk]; [done|].
  destruct stack as [|[[i ex] d] stack]; [by apply yspec_ret|]. destruct (es !! i); [|apply IH].
  destruct (_ <? d)%N; [by yreport|]. ybind. apply yspec_expect. intros seen _ _. destruct ex, seen; try apply IH.
  ybind. apply yspec_when; [intros _; apply yspec_node|]. intros _ _. apply IH.
Qed.
Lemma yspec_roots path es e emitted roots s : yspec (walk_roots path es e emitted roots) s (fun _ _ => True).
Proof.
  revert e emitted s. induction roots as [|root roots IH]; intros e emitted s; cbn [walk_roots]; [by apply yspec_ret|].
  ybind. eapply yspec_post; [apply yspec_expression_walk|]. intros s' r _ _ _. apply IH.
Qed.
(** On a clean run every block was entered. *)
Lemma yspec_canonical path bs ts es roots s (Q : BodyState -> unit -> Prop) :
  bs <> [] -> (forall s', (forall i, i < length bs -> opens_after bs ts i 0) -> Q s' tt) ->
  yspec (verify_canonical_graph path bs ts es roots) s Q.
Proof.
  intros Hne HQ. unfold verify_canonical_graph. destruct bs as [|b0 bs0]; [done|]. set (bs := b0 :: bs0) in *.
  ybind. eapply yspec_post; [apply yspec_walk; by repeat constructor|]. intros s1 v _ (_ & Hv & Hl) _.
  rewrite length_replicate in Hl. ybind. apply yspec_when; [intros _; apply yspec_node|]. intros Hall _.
  eapply yspec_post; [apply yspec_roots|]. intros s2 [] _ _. apply HQ. intros i Hi.
  destruct (lookup_lt_is_Some_2 v i) as [x Hx]; [lia|]. destruct x.
  - apply Hv in Hx as [Hx|Hx]; [|done]. by apply lookup_replicate in Hx as [? _].
  - apply not_true_iff_false in Hall. destruct Hall. apply existsb_exists. exists false. split; [|done].
    by eapply list_elem_of_In, list_elem_of_lookup_2.
Qed.

(** ** Bodies *)

(** The arenas of a body are in canonical order and every node has one owner. *)
Record well_formed_body (b : FunctionBodySyntax) : Prop := {
  wb_root : fb_root_block b = 0%N;
  wb_blocks : 0 < length (fb_blocks b);
  wb_operands j e : fb_expressions b !! j = Some e -> Forall (fun id => N.to_nat id < j) (children_of e);
  wb_roots : Forall (fun id => N.to_nat id < length (fb_expressions b)) (fb_statements b ≫= roots_of);
  wb_opened : Forall (fun id => N.to_nat id < length (fb_blocks b)) (fb_statements b ≫= opened_by);
  wb_statements : Forall (fun id => N.to_nat id < length (fb_statements b)) (fb_blocks b ≫= bs_statements);
  wb_order i : i < length (fb_blocks b) -> opens_after (fb_blocks b) (fb_statements b) i 0;
  wb_expression_owners : owned_once (length (fb_expressions b)) ((fb_expressions b ≫= children_of) ++ (fb_statements b ≫= roots_of));
  wb_statement_owners : owned_once (length (fb_statements b)) (fb_blocks b ≫= bs_statements);
  wb_block_owners : owned_once (length (fb_blocks b)) ((fb_statements b ≫= opened_by) ++ [0%N]) }.

Section arenas.
Context (file : N) (path : NormalizedSourcePath) (sources : SourceMap).
Notation spelled := (spelled sources).

Lemma ygrowing_arenas body_span raw : ygrowing (verify_arenas file path sources body_span raw).
Proof. unfold verify_arenas. ygrows. Qed.

Lemma yspec_arenas body_span raw e :
  ry_blocks raw <> [] ->
  let zeros := replicate (length (ry_expressions raw)) 0%N in
  yspec (verify_arenas file path sources body_span raw) (mkBodyState e zeros zeros (replicate (length (ry_blocks raw)) 0%N) [] [])
    (fun _ b => (raw_span body_span = ry_span raw -> raw_body b = raw) /\ well_formed_body b /\ Forall spelled (body_tokens b)).
Proof.
  intros Hne zeros. unfold verify_arenas. ybind. apply yspec_when; [intros _; apply yspec_node|].
  intros Hroot%negb_false_iff%N.eqb_eq _. ybind.
  apply (yspec_expressions _ _ _ _ (length (ry_expressions raw))); [cbn; lia|unfold zeros; split; cbn; by rewrite length_replicate|].
  intros s1 es J1 Hes Htes Hop _. cbn [app] in *. ybind. apply yspec_statements. intros s2 ts J2 Hts Hrs Hbs Htts _.
  ybind. apply yspec_modify. intros _. ybind. apply yspec_blocks. intros s3 bs J3 Hbls Hss Htbs _.
  ybind. apply yspec_layouts. intros _. ybind. apply yspec_modify. intros _.
  ybind. apply yspec_gets. intros _. ybind. apply yspec_owners. intros Hbo _.
  ybind. apply yspec_gets. intros _. ybind. apply yspec_owners. intros Hso _.
  ybind. apply yspec_gets. intros _. ybind. apply yspec_owners. intros Heo _. ybind. apply yspec_gets. intros _.
  assert (Hlb : length bs = length (ry_blocks raw)) by (rewrite <- Hbls; by rewrite length_fmap).
  assert (Hle : length es = length (ry_expressions raw)) by (rewrite <- Hes; by rewrite length_fmap).
  ybind. apply yspec_canonical; [intros ->; by destruct (ry_blocks raw)|]. intros s4 Horder _.
  ybind. apply (yspec_post _ _ (fun _ _ => True)).
  { destruct bs; [by apply yspec_ret|by apply yspec_contains]. }
  intros s5 _ _ _ _. apply yspec_ret. destruct J1 as [E1 B1 T1 R1 _], J2 as [E2 B2 T2 R2 _], J3 as [E3 B3 T3 R3 _].
  cbn in *. split_and!.
  - intros Hspan. destruct raw. unfold raw_body. cbn in *. by subst.
  - split; cbn; [done| |by intros j e' He; apply (Hop _ _ He)|done| |done|done|..].
    + rewrite Hlb. by destruct (ry_blocks raw); cbn; [|lia].
    + rewrite Hlb. by rewrite B1, length_replicate in Hbs.
    + apply owned_once_spec. rewrite Hle. unfold add_owners in *. rewrite foldl_app.
      match goal with |- Forall _ ?l => replace l with (by_expression_owners s3); [exact Heo|] end. by rewrite E3, E2, E1.
    + apply owned_once_spec. match goal with |- Forall _ ?l => replace l with (by_statement_owners s3) end. exact Hso.
    + apply owned_once_spec. rewrite Hlb. unfold add_owners in *. rewrite foldl_app.
      match goal with |- Forall _ ?l => replace l with (alter saturating_succ 0 (by_block_owners s3)); [exact Hbo|] end.
      by rewrite B3, B2, B1.
  - unfold body_tokens. cbn. by repeat (apply Forall_app; split).
Qed.
End arenas.

(** * Accepted functions, files and budgets *)

(** ** Functions and files *)

Section unit.
Context (file : N) (path : NormalizedSourcePath) (sources : SourceMap).
Notation spelled := (spelled sources).
Implicit Types (s : YErrors).

Lemma ygrowing_body raw body_span : ygrowing (verify_body file path sources raw body_span).
Proof.
  intros e. unfold verify_body. pose proof (ygrowing_arenas file path sources body_span raw) as Hg.
  match goal with |- context [verify_arenas _ _ _ _ _ ?s0] => specialize (Hg s0) end.
  by destruct (verify_arenas _ _ _ _ _ _) as [s' r].
Qed.
Hint Resolve ygrowing_body : ygrow.
Lemma yspec_body raw body_span s (Q : YErrors -> FunctionBodySyntax -> Prop) :
  ry_blocks raw <> [] -> raw_span body_span = ry_span raw ->
  (forall s' b, raw_body b = raw -> well_formed_body b -> Forall spelled (body_tokens b) -> Q s' b) ->
  yspec (verify_body file path sources raw body_span) s Q.
Proof.
  intros Hne Hspan HQ. pose proof (yspec_arenas file path sources body_span raw s Hne) as Ha.
  unfold yspec, verify_body in *. cbn zeta in Ha. destruct (verify_arenas _ _ _ _ _ _) as [s' [b|[]|]]; [|exact Ha|done].
  intros Hc. destruct (Ha Hc) as (H1 & H2 & H3). apply HQ; [by apply H1|done..].
Qed.

Lemma ygrowing_function raw : ygrowing (syn_verify_function file path sources raw).
Proof. unfold syn_verify_function. ygrows. Qed.
Hint Resolve ygrowing_function : ygrow.
Lemma yspec_function raw s (Q : YErrors -> FunctionSyntax -> Prop) :
  ry_blocks (rf_body raw) <> [] ->
  (forall s' f, raw_function f = raw -> well_formed_body (fs_body f) -> Forall spelled (function_tokens f) -> Q s' f) ->
  yspec (syn_verify_function file path sources raw) s Q.
Proof.
  intros Hne HQ. unfold syn_verify_function. ysteps. destruct raw as [rspan rexp rfun rname rps rres rbody]. cbn in *. ybind.
  apply (yspec_post _ _ (fun s' o => s' = s /\ raw_span <$> o = rexp /\
    Forall spelled (match o with Some span => [(span, "export")] | None => [] end))).
  { destruct rexp as [rexp|]; [|by apply yspec_ret]. apply yspec_catch, yspec_token. intros ? <- Ht. by repeat constructor. }
  intros s' export _ (-> & <- & Hexp) _. ysteps. ybind. apply yspec_parameters. intros ps <- Hps _. ysteps.
  ybind. apply yspec_contains_all. intros _.
  ybind. apply (yspec_post _ _ (fun s' _ => s' = s)); [destruct export; [by apply yspec_require_order|by apply yspec_ret]|].
  intros s' _ _ -> _. ysteps.
  ybind. apply (yspec_post _ _ (fun s' _ => s' = s)); [destruct (head ps); [by apply yspec_require_order|by apply yspec_ret]|].
  intros s' _ _ -> _.
  ybind. apply (yspec_post _ _ (fun s' _ => s' = s)); [destruct (last ps); by apply yspec_require_order|].
  intros s' _ _ -> _. ysteps. ybind. apply yspec_body; [done..|]. intros s' b <- Hwf Hb _. subst. apply yspec_ret, HQ; [done..|].
  unfold function_tokens. cbn. apply Forall_app. split; [done|]. do 2 (constructor; [done|]). apply Forall_app; split; [done|]. by apply Forall_app.
Qed.

Lemma ygrowing_imports e raws : ygrowing (verify_imports file path sources e raws).
Proof. revert e. induction raws; intros e; cbn; ygrows. Qed.
Hint Resolve ygrowing_imports : ygrow.
Lemma yspec_imports e raws s (Q : YErrors -> list ImportSyntax * N -> Prop) :
  (forall is_ e', raw_import <$> is_ = raws -> Forall spelled (is_ ≫= import_tokens) -> Q s (is_, e')) ->
  yspec (verify_imports file path sources e raws) s Q.
Proof.
  revert e Q. induction raws as [|raw raws IH]; intros e Q HQ; cbn [verify_imports]; [by apply yspec_ret, HQ|].
  ybind. apply yspec_import. intros i <- Hi _. ysteps. ybind. apply IH. intros is_ e' <- His _.
  apply yspec_ret, HQ; [done|by apply Forall_bind_cons].
Qed.
Lemma ygrowing_functions e raws : ygrowing (verify_functions file path sources e raws).
Proof. revert e. induction raws; intros e; cbn; ygrows. Qed.
Hint Resolve ygrowing_functions : ygrow.
Definition bodies_well_formed (fs : list FunctionSyntax) : Prop := Forall (fun f => well_formed_body (fs_body f)) fs.
Lemma yspec_functions e raws s (Q : YErrors -> list FunctionSyntax -> Prop) :
  Forall (fun raw => ry_blocks (rf_body raw) <> []) raws ->
  (forall s' fs, raw_function <$> fs = raws -> bodies_well_formed fs -> Forall spelled (fs ≫= function_tokens) -> Q s' fs) ->
  yspec (verify_functions file path sources e raws) s Q.
Proof.
  intros Hne. revert e s Q. induction Hne as [|raw raws Hraw Hne IH]; intros e s Q HQ; cbn [verify_functions];
    [apply yspec_ret, HQ; by repeat constructor|].
  ybind. apply yspec_function; [done|]. intros s1 f <- Hwf Hf _. ysteps. ybind. apply IH. intros s2 fs <- Hwfs Hfs _.
  apply yspec_ret, HQ; [done|by constructor|apply Forall_bind_cons; [exact Hf|exact Hfs]].
Qed.
End unit.
#[export] Hint Resolve ygrowing_imports ygrowing_functions : ygrow.

(** A verified file of the source map *)
Record verified_unit (sources : SourceMap) (position : nat) (u : SourceUnit) : Prop := {
  vu_id : su_id u = mkFileId (sm_id sources) (N.of_nat position);
  vu_path : exists source, sm_source sources (su_id u) = Some source /\ sf_path source = su_path u;
  vu_bodies : bodies_well_formed (su_functions u);
  vu_tokens : Forall (spelled sources) (unit_tokens u) }.

Definition blocks_present (raw : RawSourceUnit) : Prop :=
  Forall (fun f => ry_blocks (rf_body f) <> []) (ru_functions raw).

Lemma ygrowing_file position sources raw : ygrowing (verify_file position sources raw).
Proof.
  unfold verify_file. destruct (try_u32 _); [|ygrows]. destruct (negb _); [ygrows|].
  destruct (verify_file_id _ _); [|ygrows]. destruct (normalized_new _); [|ygrows]. destruct (sm_source _ _) as [source|]; [destruct (bool_decide _)|]; ygrows.
Qed.
#[export] Hint Resolve ygrowing_file : ygrow.
Lemma yspec_file position sources raw s (Q : YErrors -> SourceUnit -> Prop) :
  built sources -> blocks_present raw ->
  (forall s' u, raw_unit u = raw -> verified_unit sources position u -> Q s' u) ->
  yspec (verify_file position sources raw) s Q.
Proof.
  intros Hb Hp HQ. unfold verify_file. destruct (try_u32 _) as [expected|] eqn:Eu; [|by yreport].
  unfold try_u32 in Eu. destruct (_ <=? _)%N; [|done]. injection Eu as <-.
  destruct (N.eqb_spec (ru_id raw) (N.of_nat position)) as [Eid|]; cbn [negb]; [|by yreport].
  destruct (verify_file_id sources (ru_id raw)) as [id|] eqn:Ei; [|by yreport].
  destruct (normalized_new (ru_path raw)) as [path|] eqn:Ep; [|by yreport].
  apply normalized_new_ok in Ep as [_ ->].
  unfold verify_file_id in Ei. destruct (sm_source sources (mkFileId (sm_id sources) (ru_id raw))) as [source|] eqn:Es; [|done].
  injection Ei as <-. destruct (built_file _ _ _ Hb Es) as (Hid & _). rewrite Hid, Es. destruct (bool_decide _) eqn:Epath; [by yreport|].
  apply bool_decide_eq_false, dec_stable in Epath. ybind. apply yspec_imports. intros is_ e His Htis _.
  ybind. apply yspec_functions; [done|]. intros s2 fs Hfs Hwf Htfs _. apply yspec_ret, HQ.
  - destruct raw. unfold raw_unit. cbn in *. congruence.
  - split; cbn; [by rewrite Eid|exists source; by rewrite Es|done|]. unfold unit_tokens. cbn. by apply Forall_app.
Qed.
Lemma ygrowing_files position sources raws : ygrowing (verify_files position sources raws).
Proof. revert position. induction raws; intros position; cbn; ygrows. Qed.
#[export] Hint Resolve ygrowing_files : ygrow.
Lemma yspec_files position sources raws s (Q : YErrors -> list SourceUnit -> Prop) :
  built sources -> Forall blocks_present raws ->
  (forall s' us, raw_unit <$> us = raws -> (forall i u, us !! i = Some u -> verified_unit sources (position + i) u) -> Q s' us) ->
  yspec (verify_files position sources raws) s Q.
Proof.
  intros Hb Hp. revert position s Q. induction Hp as [|raw raws Hraw Hp IH]; intros position s Q HQ; cbn [verify_files].
  - by apply yspec_ret, HQ.
  - ybind. apply yspec_catch, yspec_file; [done..|]. intros s1 u <- Hu _. ybind. apply IH. intros s2 us <- Hus _.
    apply yspec_ret, HQ; [done|]. intros [|i] u' E; cbn in E; [injection E as <-; by rewrite Nat.add_0_r|].
    rewrite <- Nat.add_succ_comm. by apply Hus.
Qed.

(** ** Provider diagnostics *)

Definition raw_diagnostic (d : Diagnostic) : RawProviderDiagnostic :=
  mkRawDiagnostic (d_code d) (d_severity d) (match d_primary d with LocSource span => RawSource (raw_span span) | _ => RawGlobal end)
    (d_message d) (d_guidance d).
Definition span_verified (sources : SourceMap) (d : Diagnostic) : Prop :=
  forall span, diag_primary_span d = Some span -> verify_span sources (raw_span span) = Ok span.
Lemma ygrowing_diagnostics sources raws : ygrowing (collect_diagnostics sources raws).
Proof. induction raws; cbn; ygrows. Qed.
#[export] Hint Resolve ygrowing_diagnostics : ygrow.
Lemma yspec_diagnostics sources raws s (Q : YErrors -> list Diagnostic -> Prop) :
  (forall ds, raw_diagnostic <$> ds ≡ₚ raws -> Forall (span_verified sources) ds -> Q s ds) ->
  yspec (verify_diagnostics sources raws) s Q.
Proof.
  intros HQ. unfold verify_diagnostics. ybind.
  apply (yspec_post _ _ (fun s' ds => s' = s /\ raw_diagnostic <$> ds = raws /\ Forall (span_verified sources) ds)).
  - clear HQ. induction raws as [|raw raws IH]; cbn [collect_diagnostics]; [by apply yspec_ret|].
    ybind. apply (yspec_post _ _ (fun s' o => s' = s /\ exists d, o = Some d /\ raw_diagnostic d = raw /\ span_verified sources d)).
    + destruct (_ || _); [by yreport|]. destruct raw as [code sev [|span] message guidance]; cbn [rd_location].
      * apply yspec_ret. split; [done|]. eexists. split_and!; [done|done|]. by intros span [=].
      * destruct (verify_span sources span) as [v|] eqn:Ev; [|by yreport]. apply yspec_ret. split; [done|]. eexists.
        pose proof (verify_span_raw _ _ _ Ev) as Er. split_and!; [done|unfold raw_diagnostic; cbn; by rewrite Er|].
        intros span' [= <-]. by rewrite Er.
    + intros s' o _ (-> & d & -> & Hd & Hv) _. ybind. eapply yspec_post; [exact IH|].
      intros s' ds _ (-> & Hds & Hvs) _. apply yspec_ret. cbn. split_and!; [done|by rewrite Hd, Hds|by constructor].
  - intros s' ds _ (-> & Hds & Hvs) _. unfold sort_displayed. apply yspec_ret, HQ; [by rewrite sort_by_perm, Hds|].
    by rewrite sort_by_perm.
Qed.
