(* ===== verification/SnapshotTotal.v ===== *)
(** * The snapshot verifier returns a verdict

    No index of the verifier is out of range and no walk outlives its fuel, on
    every raw snapshot, also after errors have been reported. *)
From stdpp Require Import base numbers list list_numbers strings sorting.
From S2P Require Import Prelude Source Diagnostics Syntax Snapshot SnapshotLimits.

(** ** Runs without a crash *)

Section total.
Context {S : Type} (I : S -> Prop).
(** From a state with [I] the computation ends in one with [I], with a value as [Q] says or an early return. *)
Definition total {R A} (m : SM S R A) (Q : A -> Prop) : Prop := 
  forall s, I s -> wp m s (fun s a => I s /\ Q a) (fun s _ => I s).
Notation anything := (fun _ => True).

Lemma total_ret {R A} (a : A) (Q : A -> Prop) : Q a -> total (mret (M := SM S R) a) Q.
Proof. by intros HQ s HI. Qed.
Lemma total_leave {R A} (r : R) (Q : A -> Prop) : total (leave r) Q.
Proof. by intros s HI. Qed.
Lemma total_gets {R A} (f : S -> A) (Q : A -> Prop) : (forall s, I s -> Q (f s)) -> total (sgets (R := R) f) Q.
Proof. intros HQ s HI. split; [done|by apply HQ]. Qed.
Lemma total_modify {R} (f : S -> S) (Q : unit -> Prop) : (forall s, I s -> I (f s)) -> Q tt -> total (smodify (R := R) f) Q.
Proof. intros Hf HQ s HI. split; [by apply Hf|done]. Qed.
Lemma total_expect {R A} (o : option A) (Q : A -> Prop) :
  is_Some o -> (forall a, o = Some a -> Q a) -> total (sexpect (S := S) (R := R) o) Q.
Proof. intros [a ->] HQ s HI. split; [done|by apply HQ]. Qed.
Lemma total_or_leave {R A} (o : option A) (r : R) : total (or_leave (S := S) o r) anything.
Proof. by destruct o; intros s HI. Qed.
Lemma total_bind {R A B} (m : SM S R A) (f : A -> SM S R B) (Q : A -> Prop) (Q' : B -> Prop) :
  total m Q -> (forall a, Q a -> total (f a) Q') -> total (m ≫= f) Q'.
Proof. intros Hm Hf s HI. eapply wp_bind, wp_post; [by apply Hm|]. intros s' a [HI' HQ]. by apply Hf. Qed.
Lemma total_then {R A B} (m : SM S R A) (f : A -> SM S R B) (Q' : B -> Prop) :
  total m anything -> (forall a, total (f a) Q') -> total (m ≫= f) Q'.
Proof. intros Hm Hf. eapply total_bind; [exact Hm|]. intros a _. apply Hf. Qed.
Lemma total_when {R} b (m : SM S R unit) (Q : unit -> Prop) : total m Q -> Q tt -> total (swhen b m) Q.
Proof. destruct b; [done|]. intros _ HQ. by apply total_ret. Qed.
Lemma total_weaken {R A} (m : SM S R A) (Q Q' : A -> Prop) : total m Q -> (forall a, Q a -> Q' a) -> total m Q'.
Proof. intros Hm HQ s HI. eapply wp_post; [by apply Hm|]. intros s' a []. auto. Qed.
Lemma total_any {R A} (m : SM S R A) (Q : A -> Prop) : total m Q -> total m anything.
Proof. intros Hm. by eapply total_weaken. Qed.
Lemma total_catch {R A} (m : SM S unit A) (Q : A -> Prop) :
  total m Q -> total (catch (R := R) m) (fun o => match o with Some a => Q a | None => True end).
Proof. intros Hm s HI. specialize (Hm s HI). unfold wp, catch in *. destruct (m s) as [s' []]; [done| |done]. by split. Qed.
Lemma total_catch_any {R A} (m : SM S unit A) : total m anything -> total (catch (R := R) m) anything.
Proof. intros Hm. eapply total_any, total_catch, Hm. Qed.
(** The same with a final state as [B] says, whatever the value *)
Definition runs {R A} (B : S -> Prop) (m : SM S R A) : Prop := forall s, I s -> wp m s (fun s' _ => B s') (fun s' _ => B s').
Lemma runs_total {R A} (B : S -> Prop) (m : SM S R A) (Q : A -> Prop) : (forall s, I s -> B s) -> total m Q -> runs B m.
Proof. intros HB Hm s HI. eapply wp_mono; [by apply Hm|..]; [intros s' a []; auto|auto]. Qed.
Lemma runs_bind {R A C} (B : S -> Prop) (m : SM S R A) (f : A -> SM S R C) (Q : A -> Prop) :
  (forall s, I s -> B s) -> total m Q -> (forall a, Q a -> runs B (f a)) -> runs B (m ≫= f).
Proof.
  intros HB Hm Hf s HI. eapply wp_bind, wp_mono; [by apply Hm|..]; [|auto]. intros s' a [HI' HQ]. by apply Hf.
Qed.

Context `{HasYErrors S} (errors_free : forall d s, I s -> I (map_yerrors (ye_push d) s)).
Lemma total_protocol {R} path message : total (protocol_error (R := R) path message) anything.
Proof. apply total_modify; [|done]. intros s. apply errors_free. Qed.
Lemma total_node {R} path message : total (node_error (R := R) path message) anything.
Proof. apply total_modify; [|done]. intros s. apply errors_free. Qed.
Lemma total_nesting {R} message : total (nesting_error (R := R) message) anything.
Proof. apply total_modify; [|done]. intros s. apply errors_free. Qed.
End total.
Notation anything := (fun _ => True).
Lemma runs_modify {S R A} (I I' B : S -> Prop) (f : S -> S) (k : unit -> SM S R A) :
  (forall s, I s -> I' (f s)) -> runs I' B (k tt) -> runs I B (smodify f ≫= k).
Proof. intros Hf Hk s HI. by apply Hk, Hf. Qed.

Create HintDb ytotal discriminated.
#[export] Hint Resolve total_leave total_or_leave total_then total_catch_any total_protocol total_node total_nesting : ytotal.
#[export] Hint Extern 1 (total _ (mret _) _) => (apply total_ret; exact Logic.I) : ytotal.
#[export] Hint Extern 1 (total _ (sgets _) _) => (apply total_gets; intros; exact Logic.I) : ytotal.
#[export] Hint Extern 1 (total _ (swhen _ _) _) => (apply total_when; [|exact Logic.I]) : ytotal.
#[export] Hint Extern 3 (total _ (match ?x with _ => _ end) _) => (destruct x) : ytotal.
Ltac ytotals := intros; eauto 60 with ytotal.

(** ** Nodes *)

Section nodes.
Context {S : Type} `{HasYErrors S} (I : S -> Prop) (errors_free : forall d s, I s -> I (map_yerrors (ye_push d) s)).
Context (file : N) (path : NormalizedSourcePath) (sources : SourceMap).
Hint Resolve errors_free : ytotal.

Lemma total_node_span raw label : total I (node_span file path sources raw label) anything.
Proof. unfold node_span. ytotals. Qed.
Lemma total_require_text span text label : total I (require_text path sources span text label) anything.
Proof. unfold require_text. ytotals. Qed.
Lemma total_contains parent child label : total I (contains path parent child label) anything.
Proof. unfold contains. ytotals. Qed.
Lemma total_require_order before after label : total I (require_order path before after label) anything.
Proof. unfold require_order. ytotals. Qed.
Hint Resolve total_node_span total_require_text total_contains total_require_order : ytotal.
Lemma total_token raw text label : total I (token file path sources raw text label) anything.
Proof. unfold token. ytotals. Qed.
Lemma total_identifier raw label : total I (identifier file path sources raw label) anything.
Proof. unfold identifier. ytotals. Qed.
Lemma total_type_syntax raw label : total I (type_syntax file path sources raw label) anything.
Proof. unfold type_syntax. ytotals. Qed.
Hint Resolve total_token total_identifier total_type_syntax : ytotal.

Lemma total_binding span e raw : total I (verify_binding file path sources span e raw) anything.
Proof. unfold verify_binding. ytotals. Qed.
Hint Resolve total_binding : ytotal.
Lemma total_bindings span e raws : total I (verify_bindings file path sources span e raws) anything.
Proof. revert e. induction raws; cbn; ytotals. Qed.
Lemma total_specifier raw : total I (module_specifier file path sources raw) anything.
Proof. unfold module_specifier. ytotals. Qed.
Hint Resolve total_bindings total_specifier : ytotal.
Lemma total_import raw : total I (verify_import file path sources raw) anything.
Proof. unfold verify_import. ytotals. Qed.
Lemma total_parameter span e raw : total I (verify_parameter file path sources span e raw) anything.
Proof. unfold verify_parameter. ytotals. Qed.
Hint Resolve total_parameter : ytotal.
Lemma total_parameters span e raws : total I (verify_parameters file path sources span e raws) anything.
Proof. revert e. induction raws; cbn; ytotals. Qed.
Lemma total_contains_all parent children label : total I (contains_all path parent children label) anything.
Proof. induction children; cbn; ytotals. Qed.
End nodes.
#[export] Hint Resolve total_node_span total_require_text total_contains total_require_order total_token total_identifier
  total_type_syntax total_import total_parameters total_contains_all : ytotal.

(** ** Arenas *)

(** The error buffer leaves room for the report that it is full. *)
Definition bounded (e : YErrors) : Prop := (len (ye_items e) <= MAX_VALIDATION_ERRORS - 1)%N.
Lemma bounded_ye_push d e : bounded e -> bounded (ye_push d e).
Proof.
  unfold bounded, ye_push. intros Hb. destruct (N.ltb_spec (len (ye_items e)) (MAX_VALIDATION_ERRORS - 1)); cbn; [|done].
  rewrite len_snoc. lia.
Qed.
#[export] Hint Extern 1 (forall d s, bounded s -> bounded (map_yerrors (ye_push d) s)) => (exact bounded_ye_push) : ytotal.
(** The lengths of the tables of a body *)
Record tables (n b t : nat) (s : BodyState) : Prop := {
  tb_owners : length (by_expression_owners s) = n;
  tb_depths : length (by_expression_depths s) = n;
  tb_blocks : length (by_block_owners s) = b;
  tb_statements : length (by_statement_owners s) = t;
  tb_bounded : bounded (by_errors s) }.
Lemma tables_errors n b t d s : tables n b t s -> tables n b t (map_yerrors (ye_push d) s).
Proof. intros []. split; [done..|by apply bounded_ye_push]. Qed.
#[export] Hint Resolve tables_errors : ytotal.

(** The operands of an arena precede their expressions. *)
Definition operands_below (es : list ExpressionSyntax) : Prop :=
  forall j e, es !! j = Some e -> Forall (fun id : ExpressionId => N.to_nat id < j) (children_of e).

Section body.
Context (file : N) (path : NormalizedSourcePath) (sources : SourceMap) (body_span : Span) (n b t : nat).
Notation I := (tables n b t).
Notation below index := (fun id : ExpressionId => N.to_nat id < index).

Lemma total_edge index raw_id : index < n -> total I (expression_edge path index raw_id) (below index).
Proof.
  intros Hi. unfold expression_edge. destruct (Nat.leb_spec index (N.to_nat raw_id)); [eapply total_then; ytotals|].
  apply (total_bind _ _ _ (fun l => length l = n)); [apply total_gets; by intros ? []|]. intros owners Ho.
  apply total_then; [ytotals|]. intros owner.
  apply total_then; [apply total_modify; [|done]; intros s []; split; cbn; rewrite ?length_insert; done|]. intros _.
  apply (total_bind _ _ _ (fun l => length l = n)); [apply total_gets; by intros ? []|]. intros depths Hd.
  apply total_then; [ytotals|]. intros depth.
  apply total_then; [apply total_expect; [apply lookup_lt_is_Some; lia|done]|]. intros own.
  apply total_then; [apply total_modify; [|done]; intros s []; split; cbn; rewrite ?length_insert; done|].
  intros _. by apply total_ret.
Qed.
Lemma total_binary index es span o l r text : index < n ->
  total I (binary_edges file path sources index es span o l r text) (fun x => below index x.1.2 /\ below index x.2).
Proof.
  intros Hi. unfold binary_edges. apply total_then; [ytotals|]. intros o'.
  eapply total_bind; [by apply total_edge|]. intros l' Hl. eapply total_bind; [by apply total_edge|]. intros r' Hr.
  do 7 (apply total_then; [ytotals|]; intros ?). by apply total_ret.
Qed.
Lemma total_call_edges index ids : index < n -> total I (call_edges path index ids) (Forall (below index)).
Proof.
  intros Hi. induction ids as [|id ids IH]; cbn [call_edges]; [by apply total_ret|].
  eapply total_bind; [by apply total_catch, total_edge|]. intros o Ho. eapply total_bind; [exact IH|]. intros rest Hrest.
  apply total_ret. destruct o; [by constructor|done].
Qed.
Lemma total_arguments es span p ids : total I (verify_arguments path es span p ids) anything.
Proof. revert p. induction ids; cbn; ytotals. Qed.
Hint Resolve total_arguments : ytotal.
Lemma total_expression_kind index es span raw : index < n ->
  total I (verify_expression_kind file path sources index es span raw) (fun kind => Forall (below index) (expression_children kind)).
Proof.
  intros Hi. destruct raw; cbn [verify_expression_kind];
    try (eapply total_bind; [by apply total_binary|]; intros r [H1 H2]; apply total_ret; by repeat constructor).
  - do 2 (apply total_then; [ytotals|]; intros ?). by apply total_ret.
  - apply total_then; [ytotals|]; intros ?. by apply total_ret.
  - do 2 (apply total_then; [ytotals|]; intros ?). by apply total_ret.
  - apply total_then; [ytotals|]; intros ?. eapply total_bind; [by apply total_edge|]. intros id Hid.
    do 4 (apply total_then; [ytotals|]; intros ?). apply total_ret. by repeat constructor.
  - do 3 (apply total_then; [ytotals|]; intros ?). eapply total_bind; [by apply total_call_edges|]. intros ids Hids.
    do 6 (apply total_then; [ytotals|]; intros ?). by apply total_ret.
Qed.
Lemma total_expression index es raw : index < n ->
  total I (verify_expression file path sources body_span index es raw) (fun e => Forall (below index) (children_of e)).
Proof.
  intros Hi. unfold verify_expression. do 2 (apply total_then; [ytotals|]; intros ?).
  apply (total_bind _ _ _ (fun l => length l = n)); [apply total_gets; by intros ? []|]. intros depths Hd.
  apply total_then; [apply total_expect; [apply lookup_lt_is_Some; lia|done]|]. intros _.
  apply total_then; [apply total_modify; [|done]; intros s []; split; cbn; rewrite ?length_insert; done|]. intros _.
  eapply total_bind; [by apply total_expression_kind|]. intros kind Hk.
  apply (total_bind _ _ _ (fun l => length l = n)); [apply total_gets; by intros ? []|]. intros depths' Hd'.
  apply total_then; [apply total_expect; [apply lookup_lt_is_Some; lia|done]|]. intros d.
  apply total_then; [ytotals|]. intros _. by apply total_ret.
Qed.
Lemma total_expressions es raws : length es + length raws = n -> operands_below es ->
  total I (verify_expressions file path sources body_span es raws) (fun es' => length es' = n /\ operands_below es').
Proof.
  revert es. induction raws as [|raw raws IH]; intros es Hn Hes; cbn [verify_expressions length] in *.
  - apply total_ret. split; [lia|done].
  - eapply total_bind; [apply total_expression; lia|]. intros e He. apply IH; [rewrite length_app; cbn; lia|].
    intros j e' [[_ Hj]|[-> <-]]%lookup_snoc_Some; [by apply (Hes j)|done].
Qed.

Lemma total_statement_expression raw_id : total I (statement_expression path n raw_id) anything.
Proof.
  unfold statement_expression. destruct (Nat.leb_spec n (N.to_nat raw_id)); [ytotals|].
  apply (total_bind _ _ _ (fun l => length l = n)); [apply total_gets; by intros ? []|]. intros owners Ho.
  apply total_then; [apply total_expect; [apply lookup_lt_is_Some; lia|done]|]. intros owner.
  apply total_then; [apply total_modify; [|done]; intros s []; split; cbn; rewrite ?length_insert; done|]. intros _.
  apply total_then; [apply total_modify; [|done]; by intros s []|]. intros _. by apply total_ret.
Qed.
Lemma total_statement_block raw_id : total I (statement_block path raw_id) anything.
Proof.
  unfold statement_block. apply (total_bind _ _ _ (fun l => length l = b)); [apply total_gets; by intros ? []|]. intros owners Ho.
  destruct (owners !! N.to_nat raw_id); [|ytotals]. apply total_then; [|ytotals].
  apply total_modify; [|done]. intros s []; split; cbn; rewrite ?length_insert; done.
Qed.
Hint Resolve total_statement_expression total_statement_block : ytotal.
Lemma total_else raw : total I (verify_else file path sources raw) anything.
Proof. unfold verify_else. ytotals. Qed.
Hint Resolve total_else : ytotal.
Lemma total_statement_kind raw : total I (verify_statement_kind file path sources n raw) anything.
Proof. destruct raw; cbn [verify_statement_kind]; ytotals. Qed.
Hint Resolve total_statement_kind : ytotal.
Lemma total_statement raw : total I (verify_statement file path sources body_span n raw) anything.
Proof. unfold verify_statement. ytotals. Qed.
Hint Resolve total_statement : ytotal.
Lemma total_statements raws : total I (verify_statements file path sources body_span n raws) anything.
Proof. induction raws; cbn [verify_statements]; ytotals. Qed.

Lemma total_block_statements statements span e ids : length statements = t ->
  total I (verify_block_statements path statements span e ids) anything.
Proof.
  intros Ht. revert e. induction ids as [|id ids IH]; intros e; cbn [verify_block_statements]; [ytotals|].
  destruct (statements !! N.to_nat id) eqn:E; [|ytotals]. apply lookup_lt_Some in E.
  apply (total_bind _ _ _ (fun l => length l = t)); [apply total_gets; by intros ? []|]. intros owners Ho.
  apply total_then; [apply total_expect; [apply lookup_lt_is_Some; lia|done]|]. intros owner.
  apply total_then; [apply total_modify; [|done]; intros s' []; split; cbn; rewrite ?length_insert; done|]. ytotals.
Qed.
Lemma total_block statements raw : length statements = t ->
  total I (verify_block file path sources body_span statements raw) anything.
Proof. intros Ht. unfold verify_block. pose proof (fun span e ids => total_block_statements statements span e ids Ht). ytotals. Qed.
Lemma total_blocks statements raws : length statements = t ->
  total I (verify_blocks file path sources body_span statements raws) anything.
Proof.
  intros Ht. pose proof (fun raw => total_block statements raw Ht). induction raws; cbn [verify_blocks]; ytotals.
Qed.
Lemma total_children span previous children : total I (verify_children path span previous children) anything.
Proof. revert previous. induction children; cbn [verify_children]; ytotals. Qed.
Hint Resolve total_children : ytotal.
Lemma total_layouts es bs ts : total I (verify_layouts path es bs ts) anything.
Proof. induction ts; cbn [verify_layouts]; unfold verify_statement_layout; ytotals. Qed.
Lemma total_owners what i owners : total I (verify_owners path what i owners) anything.
Proof. revert i. induction owners; cbn [verify_owners]; ytotals. Qed.
End body.
#[export] Hint Resolve total_statements total_layouts total_owners : ytotal.

(** ** Walks

    The work left to a walk: the entries of its stack, and what the nodes that
    are not marked yet can still add to it. *)

Section work.
Context (f : nat -> nat).
Definition unmarked (n : nat) (marked : nat -> bool) : nat := sum_list_with (fun i => if marked i then 0 else f i) (seq 0 n).
Lemma sum_list_with_ext {A} (g h : A -> nat) l : (forall x, x ∈ l -> g x = h x) -> sum_list_with g l = sum_list_with h l.
Proof.
  induction l as [|x l IH]; intros Hx; cbn; [done|]. rewrite (Hx x) by left. f_equal. apply IH. intros y Hy. apply Hx. by right.
Qed.
Lemma unmarked_ext n marked marked' : (forall i, i < n -> marked i = marked' i) -> unmarked n marked = unmarked n marked'.
Proof. intros Hm. apply sum_list_with_ext. intros x Hx%elem_of_seq. by rewrite Hm by lia. Qed.
Lemma work_mark n marked marked' k :
  k < n -> marked k = false -> (forall i, marked' i = marked i || (i =? k)) -> unmarked n marked = f k + unmarked n marked'.
Proof.
  intros Hk Hmk Hm. unfold unmarked. replace n with (k + S (n - S k)) by lia. rewrite seq_app, !sum_list_with_app.
  cbn [seq sum_list_with plus]. rewrite Hm, Hmk, Nat.eqb_refl. cbn.
  assert (Hout : forall a l, (forall i, i ∈ seq a l -> i <> k) -> sum_list_with (fun i => if marked i then 0 else f i) (seq a l) =
    sum_list_with (fun i => if marked' i then 0 else f i) (seq a l)).
  { intros a l Hne. apply sum_list_with_ext. intros i Hx%Hne%Nat.eqb_neq. by rewrite Hm, Hx, orb_false_r. }
  rewrite (Hout 0 k), (Hout (S k)); [lia|intros i Hi%elem_of_seq; lia..].
Qed.
End work.
Lemma sum_list_lookup {A} (g : A -> nat) (l : list A) k :
  sum_list_with (fun i => match l !! (i - k) with Some x => g x | None => 0 end) (seq k (length l)) = sum_list_with g l.
Proof.
  revert k. induction l as [|x l IH]; intros k; cbn; [done|]. rewrite Nat.sub_diag. cbn. f_equal. rewrite <- (IH (S k)).
  apply sum_list_with_ext. intros i Hi%elem_of_seq. by replace (i - k) with (S (i - S k)) by lia.
Qed.
Lemma unmarked_all {A} (g : A -> nat) (l : list A) :
  unmarked (fun i => match l !! i with Some x => g x | None => 0 end) (length l) (fun _ => false) = sum_list_with g l.
Proof. rewrite <- (sum_list_lookup g l 0). apply sum_list_with_ext. intros i _. by rewrite Nat.sub_0_r. Qed.

Lemma unmarked_same f g n marked : (forall i, f i = g i) -> unmarked f n marked = unmarked g n marked.
Proof. intros Hf. apply sum_list_with_ext. intros i _. by rewrite Hf. Qed.
Lemma sum_list_fmap {A} (g : A -> nat) l : sum_list (g <$> l) = sum_list_with g l.
Proof. induction l as [|x l IH]; cbn; [done|]. by rewrite <- IH. Qed.
Lemma sum_list_with_mul {A} (g : A -> nat) n l : sum_list_with (fun x => n * g x) l = n * sum_list_with g l.
Proof. induction l as [|x l IH]; cbn; [lia|]. rewrite IH. lia. Qed.

Lemma work_le f n marked : unmarked f n marked <= unmarked f n (fun _ => false).
Proof. unfold unmarked. induction (seq 0 n) as [|x l IH]; cbn; [lia|]. destruct (marked x); lia. Qed.

Section blocks.
Context (path : NormalizedSourcePath) (bs : list BlockSyntax) (ts : list StatementSyntax).
Context (I : BodyState -> Prop) (errors_free : forall d s, I s -> I (map_yerrors (ye_push d) s)).
Hint Resolve errors_free : ytotal.
Notation entry := (SBlockId * nat * N * bool)%type.
Definition statement_count (i : nat) : nat := match bs !! i with Some B => length (bs_statements B) | None => 0 end.
Definition visited_block (visited : list bool) (i : nat) : bool := default false (visited !! i).
Definition entry_work (x : entry) : nat :=
  let '(b, off, _, entered) := x in S (if entered then 3 * (statement_count (N.to_nat b) - off) else 0).
Definition entry_fresh (x : entry) : Prop := let '(_, off, _, entered) := x in entered = false -> off = 0.
Definition block_work (visited : list bool) : nat :=
  unmarked (fun i => 3 * statement_count i) (length bs) (visited_block visited).

Lemma block_work_visit (visited : list bool) i : i < length bs -> visited !! i = Some false ->
  block_work visited = 3 * statement_count i + block_work (set_visited i visited).
Proof.
  intros Hi Hv. apply (work_mark (fun i => 3 * statement_count i)); [done|unfold visited_block; by rewrite Hv|].
  intros j. unfold visited_block, set_visited. destruct (Nat.eqb_spec j i) as [->|Hne].
  - rewrite list_lookup_insert_eq by (by eapply lookup_lt_Some). by rewrite orb_true_r.
  - by rewrite list_lookup_insert_ne, orb_false_r.
Qed.
Lemma total_block_walk fuel eb es visited stack :
  length visited = length bs -> Forall entry_fresh stack -> sum_list_with entry_work stack + block_work visited < fuel ->
  total I (block_walk path fuel bs ts eb es visited stack) anything.
Proof.
  revert eb es visited stack. induction fuel as [|fuel IH]; intros eb es visited stack Hl Hf Hw; cbn [block_walk]; [lia|].
  destruct stack as [|[[[b off] d] ent] stack]; [ytotals|]. apply Forall_cons in Hf as [Hb Hf].
  cbn [sum_list_with entry_work] in Hw.
  destruct (_ <? d)%N; [ytotals|]. destruct (bs !! N.to_nat b) as [B|] eqn:HB; [|apply IH; [done..|lia]].
  assert (Hi : N.to_nat b < length bs) by by eapply lookup_lt_Some.
  apply (total_bind _ _ _ (fun seen => visited !! N.to_nat b = Some seen)).
  { apply total_expect; [apply lookup_lt_is_Some; lia|done]. }
  intros seen Hseen. destruct (negb ent && seen) eqn:Ens; [apply total_then; [ytotals|]; intros _; apply IH; [done..|lia]|].
  apply total_then; [ytotals|]. intros _.
  assert (Hc : statement_count (N.to_nat b) = length (bs_statements B)) by (unfold statement_count; by rewrite HB).
  set (visited' := if ent then visited else set_visited (N.to_nat b) visited).
  assert (Hl' : length visited' = length bs) by (unfold visited', set_visited; destruct ent; rewrite ?length_insert; done).
  assert (Hw' : S (sum_list_with entry_work stack) + 3 * (length (bs_statements B) - off) + block_work visited' < S fuel).
  { rewrite Hc in Hw. destruct ent; cbn in Hb; subst visited'; cbn iota in Hw |- *; [lia|].
    destruct seen; [done|]. rewrite (Hb eq_refl). rewrite (block_work_visit _ _ Hi Hseen), Hc in Hw. lia. }
  clearbody visited'. destruct (bs_statements B !! off) as [sid|] eqn:Es; [|apply IH; [done..|lia]].
  assert (Hoff : off < length (bs_statements B)) by by eapply lookup_lt_Some.
  set (next := (b, S off, d, true) :: stack).
  assert (Hn : Forall entry_fresh next) by by constructor.
  assert (Hnw : sum_list_with entry_work next + 3 + block_work visited' <= fuel).
  { unfold next. cbn [sum_list_with entry_work]. rewrite Hc. lia. }
  clearbody next. destruct (ts !! N.to_nat sid) as [st|]; [|apply IH; [done..|lia]].
  apply total_then; [ytotals|]. intros _. apply IH; [done| |].
  - apply Forall_app; split; [|done]. apply Forall_fmap, Forall_forall. done.
  - rewrite sum_list_with_app. match goal with |- ?a + _ + _ < _ => assert (a <= 2) end; [|lia].
    destruct (ss_kind st) as [| | | |? ? ? ? ? []|]; cbn; lia.
Qed.
Lemma total_block_graph :
  total I (block_walk path (block_walk_fuel bs) bs ts 0 0 (replicate (length bs) false) [(0%N, 0, 1%N, false)]) anything.
Proof.
  apply total_block_walk; [by rewrite length_replicate|by repeat constructor|]. unfold block_walk_fuel, block_work.
  rewrite (unmarked_ext _ _ _ (fun _ => false)).
  2:{ intros i Hi. unfold visited_block. by rewrite lookup_replicate_2. }
  rewrite (unmarked_same _ (fun i => match bs !! i with Some B => 3 * length (bs_statements B) | None => 0 end)).
  2:{ intros i. unfold statement_count. by destruct (bs !! i). }
  rewrite (unmarked_all (fun B => 3 * length (bs_statements B))), sum_list_fmap, sum_list_with_mul. cbn. lia.
Qed.
End blocks.

Section expressions.
Context (path : NormalizedSourcePath) (es : list ExpressionSyntax) (below : operands_below es).
Context (I : BodyState -> Prop) (errors_free : forall d s, I s -> I (map_yerrors (ye_push d) s)).
Hint Resolve errors_free : ytotal.
Notation entry := (nat * bool * N)%type.
Definition expansion (i : nat) : nat := match es !! i with Some e => S (length (children_of e)) | None => 0 end.
(** The expressions that are expanded and not emitted are the exits of the stack. *)
Definition expanded (emitted : list bool) (stack : list entry) (i : nat) : bool :=
  default false (emitted !! i) || existsb (fun x : entry => let '(j, exit, _) := x in exit && (j =? i)) stack.
Definition expansion_work (emitted : list bool) (stack : list entry) : nat :=
  unmarked expansion (length es) (expanded emitted stack).
(** An entry above an exit belongs to its operands. *)
Definition above (x y : entry) : Prop := let '(i, _, _) := x in let '(j, exit, _) := y in exit = true -> i < j.
Lemma above_not_exit i d stack : Forall (above (i, false, d)) stack ->
  existsb (fun x : entry => let '(j, exit, _) := x in exit && (j =? i)) stack = false.
Proof.
  induction 1 as [|[[j exit] d'] stack Hj _ IH]; cbn; [done|]. rewrite IH, orb_false_r. destruct exit; [|done].
  cbn in *. apply Nat.eqb_neq. specialize (Hj eq_refl). lia.
Qed.
Lemma expand_work emitted stack i d e : es !! i = Some e -> emitted !! i = Some false -> Forall (above (i, false, d)) stack ->
  expansion_work emitted stack = S (length (children_of e)) + expansion_work emitted ((i, true, d) :: stack).
Proof.
  intros He Hm Ha. unfold expansion_work. rewrite (work_mark _ _ _ (expanded emitted ((i, true, d) :: stack)) i).
  - unfold expansion at 1. by rewrite He.
  - by eapply lookup_lt_Some.
  - unfold expanded. rewrite Hm. by apply (above_not_exit i d).
  - intros k. unfold expanded. cbn. rewrite <- orb_assoc. f_equal. rewrite orb_comm. f_equal. apply Nat.eqb_sym.
Qed.
Lemma emit_work emitted stack i d : i < length emitted ->
  expansion_work (set_visited i emitted) stack = expansion_work emitted ((i, true, d) :: stack).
Proof.
  intros Hi. apply unmarked_ext. intros k _. unfold expanded, set_visited. cbn. rewrite orb_assoc. f_equal.
  destruct (Nat.eqb_spec i k) as [<-|Hne]; [by rewrite list_lookup_insert_eq, orb_true_r|].
  by rewrite list_lookup_insert_ne, orb_false_r.
Qed.
(** Popping an entry that is no exit, or the exit of nothing left to do *)
Lemma pop_work emitted stack i exit d : (exit = true -> es !! i = None \/ emitted !! i = Some true) ->
  expansion_work emitted ((i, exit, d) :: stack) = expansion_work emitted stack.
Proof.
  intros Hx. apply unmarked_ext. intros k Hk. unfold expanded. cbn. destruct exit; [|done].
  destruct (Nat.eqb_spec i k) as [<-|]; [|done]. destruct (Hx eq_refl) as [Hn|Hem]; [|by rewrite Hem].
  apply lookup_ge_None in Hn. lia.
Qed.
Lemma operands_sorted i e d stack : es !! i = Some e -> Forall (above (i, false, d)) stack ->
  StronglySorted above stack ->
  StronglySorted above (((fun child : ExpressionId => (N.to_nat child, false, saturating_succ d)) <$> children_of e) ++ (i, true, d) :: stack).
Proof.
  intros He Ha Hs. pose proof (below _ _ He) as Hc. induction Hc as [|c cs Hlt _ IH]; cbn; [by constructor|].
  constructor; [done|]. apply Forall_app. split; [by apply Forall_fmap, Forall_forall|]. constructor; [intros _; exact Hlt|].
  eapply Forall_impl; [exact Ha|]. intros [[j exit] d']. cbn. intros Hj Hexit. specialize (Hj Hexit). lia.
Qed.
Lemma total_expression_walk fuel e emitted stack :
  length emitted = length es -> StronglySorted above stack -> length stack + expansion_work emitted stack < fuel ->
  total I (expression_walk path fuel es e emitted stack) (fun r => length r.2 = length es).
Proof.
  revert e emitted stack. induction fuel as [|fuel IH]; intros e emitted stack Hl Hs Hw; cbn [expression_walk]; [lia|].
  destruct stack as [|[[i exit] d] stack]; [by apply total_ret|]. cbn [length] in Hw.
  apply StronglySorted_cons in Hs as [Ha Hs].
  destruct (es !! i) as [ex|] eqn:He; [|apply IH; [done..|]; rewrite pop_work in Hw by (by left); lia].
  assert (Hi : i < length es) by by eapply lookup_lt_Some.
  destruct (_ <? d)%N; [apply total_then; [ytotals|]; intros _; by apply total_ret|].
  apply (total_bind _ _ _ (fun seen => emitted !! i = Some seen)).
  { apply total_expect; [apply lookup_lt_is_Some; lia|done]. }
  intros [] Hseen.
  { rewrite pop_work in Hw by (by right). destruct exit; (apply IH; [done..|lia]). }
  destruct exit.
  - apply total_then; [ytotals|]. intros _. apply IH; [unfold set_visited; by rewrite length_insert|done|].
    rewrite (emit_work _ _ _ d) by lia. lia.
  - apply IH; [done|by apply operands_sorted|]. rewrite pop_work, (expand_work _ _ _ d _ He Hseen Ha) in Hw by done.
    rewrite length_app, length_fmap. cbn [length]. unfold children_of, ExpressionId in *.
    assert (Hpop : forall l : list entry, Forall (fun x => x.1.2 = false) l -> expansion_work emitted (l ++ (i, true, d) :: stack) =
      expansion_work emitted ((i, true, d) :: stack)).
    { induction 1 as [|[[j exit] d'] l Hx _ IHl]; [done|]. cbn in Hx. subst exit. cbn [app]. by rewrite pop_work. }
    rewrite Hpop; [lia|]. by apply Forall_fmap, Forall_forall.
Qed.
Lemma total_roots e emitted roots : length emitted = length es -> total I (walk_roots path es e emitted roots) anything.
Proof.
  revert e emitted. induction roots as [|root roots IH]; intros e emitted Hl; cbn [walk_roots]; [ytotals|].
  eapply total_bind; [apply total_expression_walk; [done|by repeat constructor|]|intros r Hr; by apply IH].
  unfold expression_walk_fuel. cbn [length].
  assert (expansion_work emitted [(N.to_nat root, false, 1%N)] <= sum_list_with (fun e => S (length (children_of e))) es).
  { rewrite <- unmarked_all. apply work_le. }
  rewrite sum_list_fmap. unfold children_of, ExpressionId in *. lia.
Qed.
End expressions.

(** ** Bodies and projects *)

Section project.
Context (file : N) (path : NormalizedSourcePath) (sources : SourceMap).

Lemma runs_canonical I bs ts es roots : (forall d s, I s -> I (map_yerrors (ye_push d) s)) -> operands_below es ->
  total I (verify_canonical_graph path bs ts es roots) anything.
Proof.
  intros HI Hes. unfold verify_canonical_graph. destruct bs as [|b0 bs0]; [by apply total_node|].
  apply (total_bind _ _ _ anything); [by apply total_block_graph|]. intros v _.
  apply total_then; [apply total_when; [by apply total_node|done]|]. intros _.
  apply total_roots; [done..|by rewrite length_replicate].
Qed.
Lemma runs_arenas body_span raw n b : n = length (ry_expressions raw) ->
  runs (tables n b 0) (fun s => bounded (by_errors s)) (verify_arenas file path sources body_span raw).
Proof.
  intros Hn. unfold verify_arenas. eapply runs_bind; [by intros ? []|apply total_when; [by ytotals|done]|]. intros _ _.
  eapply runs_bind; [by intros ? []|by apply total_expressions|]. intros es [Hl Hes]. rewrite Hl.
  eapply runs_bind; [by intros ? []|ytotals|]. intros ts _.
  eapply (runs_modify _ (tables n b (length ts))).
  { intros s []. split; cbn; [done..|by rewrite length_replicate|done]. }
  eapply runs_bind; [by intros ? []|by apply total_blocks|]. intros bs _. apply (runs_total _ _ _ anything); [by intros ? []|].
  apply total_then; [ytotals|]. intros _.
  apply total_then; [apply total_modify; [|done]; intros s []; split; cbn; rewrite ?length_alter; done|]. intros _.
  do 6 (apply total_then; [ytotals|]; intros ?). apply total_then; [ytotals|]. intros roots.
  apply total_then; [apply runs_canonical; [|done]; intros ?; apply tables_errors|]. intros _. ytotals.
Qed.
Lemma total_body raw body_span : total bounded (verify_body file path sources raw body_span) anything.
Proof.
  intros e He. unfold wp, verify_body.
  match goal with |- context [verify_arenas _ _ _ _ _ ?s0] => pose proof (runs_arenas body_span raw _ (length (ry_blocks raw)) eq_refl s0) as Hr end.
  unfold wp in Hr. destruct (verify_arenas _ _ _ _ _ _) as [s r]. destruct r; [split; [|done]| |]; apply Hr; split; cbn; rewrite ?length_replicate; done.
Qed.
Hint Resolve total_body : ytotal.
Lemma total_function raw : total bounded (syn_verify_function file path sources raw) anything.
Proof. unfold syn_verify_function. ytotals. Qed.
Hint Resolve total_function : ytotal.
Lemma total_imports e raws : total bounded (verify_imports file path sources e raws) anything.
Proof. revert e. induction raws; cbn; ytotals. Qed.
Lemma total_functions e raws : total bounded (verify_functions file path sources e raws) anything.
Proof. revert e. induction raws; cbn; ytotals. Qed.
End project.
#[export] Hint Resolve total_imports total_functions : ytotal.

Lemma total_file position sources raw : total bounded (verify_file position sources raw) anything.
Proof.
  unfold verify_file. destruct (try_u32 _); [|ytotals]. destruct (negb _); [ytotals|].
  destruct (verify_file_id _ _); [|ytotals]. destruct (normalized_new _); [|ytotals].
  destruct (match sm_source sources a with Some _ => _ | None => _ end); ytotals.
Qed.
(** A computation that always has a value *)
Definition settles {A} (m : SM YErrors unit A) : Prop :=
  forall s, bounded s -> exists s' a, m s = (s', Next a) /\ bounded s'.
Lemma settles_ret {A} (a : A) : settles (mret a).
Proof. intros s Hs. by eexists _, _. Qed.
Lemma settles_bind {A B} (m : SM YErrors unit A) (f : A -> SM YErrors unit B) :
  settles m -> (forall a, settles (f a)) -> settles (m ≫= f).
Proof. intros Hm Hf s Hs. unfold mbind, SM_bind. destruct (Hm s Hs) as (s' & a & -> & Hs'). by apply Hf. Qed.
Lemma settles_push d : settles (smodify (ye_push d)).
Proof. intros s Hs. eexists _, _. split; [done|by apply bounded_ye_push]. Qed.
Lemma settles_when b (m : SM YErrors unit unit) : settles m -> settles (swhen b m).
Proof. destruct b; [done|]. intros _. apply settles_ret. Qed.
Lemma settles_catch {A} (m : SM YErrors unit A) : total bounded m anything -> settles (catch m).
Proof.
  intros Hm s Hs. specialize (Hm s Hs). unfold wp in Hm. unfold catch. destruct (m s) as [s' []]; [|by eexists _, _|done].
  destruct Hm. by eexists _, _.
Qed.
Lemma settles_files position sources raws : settles (verify_files position sources raws).
Proof.
  revert position. induction raws as [|raw raws IH]; intros position; cbn [verify_files]; [apply settles_ret|].
  apply settles_bind; [apply settles_catch, total_file|]. intros file. apply settles_bind; [done|]. intros rest. apply settles_ret.
Qed.
Lemma settles_diagnostics sources raws : settles (collect_diagnostics sources raws).
Proof.
  induction raws as [|raw raws IH]; cbn [collect_diagnostics]; [apply settles_ret|].
  apply settles_bind; [|intros d; apply settles_bind; [done|]; intros rest; apply settles_ret].
  destruct (_ || _); [apply settles_bind; [apply settles_push|]; intros _; apply settles_ret|].
  destruct (rd_location raw) as [|span]; [apply settles_ret|].
  destruct (verify_span sources span); [apply settles_ret|]. apply settles_bind; [apply settles_push|]. intros _. apply settles_ret.
Qed.
Lemma settles_claims raw sources : settles (verify_claims raw sources).
Proof.
  unfold verify_claims. do 2 (apply settles_bind; [apply settles_when, settles_push|]; intros _).
  apply settles_bind; [apply settles_files|]. intros files. apply settles_bind.
  - apply settles_bind; [apply settles_diagnostics|]. intros out. apply settles_ret.
  - intros ds. apply settles_ret.
Qed.
Lemma snapshot_verdict raw sources :
  exists r, verify_snapshot raw sources = Some r /\ forall ds, r = Err ds -> ds <> [] /\ (len ds <= MAX_VALIDATION_ERRORS)%N.
Proof.
  unfold verify_snapshot. destruct (budget_error raw sources); [|eexists; split; [done|]; by intros ds [= <-]].
  destruct (settles_claims raw sources no_syntax_errors) as (e & [files diagnostics] & -> & Hb); [done|].
  eexists. split; [done|]. intros ds. destruct (ye_items e) as [|d l] eqn:E; [done|]. intros [= <-]. unfold ye_finish. split.
  - intros Hn%(f_equal length). rewrite length_app in Hn. unfold sort_displayed in Hn. rewrite sort_by_perm, E in Hn. done.
  - unfold bounded, len in *. rewrite length_app. unfold sort_displayed. rewrite sort_by_perm.
    unfold MAX_VALIDATION_ERRORS in *. destruct (ye_truncated e); cbn; lia.
Qed.
