(* ===== verification/Semantics.v ===== *)
(** * Symbols and imports of the semantic analysis
    ([crates/zryna-semantics/src/control_flow_v1.rs])

    The error buffer of the analysis, then the signatures of the modules and the
    resolution of imports.  Every state the analysis threads holds the error buffer. *)
From stdpp Require Import base numbers list strings pretty gmap.
From S2P Require Import Prelude Source Diagnostics Abi CfgAlgorithms ControlFlow Syntax.

(** ** The error buffer *)

Definition MAX_SEMANTIC_DIAGNOSTICS : N := 256.

Record SErrors := mkSErrors { se_diagnostics : list Diagnostic; se_exhausted : bool }.
Definition no_semantic_errors : SErrors := mkSErrors [] false.
Definition se_is_empty (e : SErrors) : bool := match se_diagnostics e with [] => true | _ => false end.
(** [Errors::contains] *)
Definition se_contains (code : string) (e : SErrors) : bool :=
  existsb (fun d => bool_decide (d_code d = code)) (se_diagnostics e).

(** [Errors::push] *)
Definition se_push (d : Diagnostic) (e : SErrors) : SErrors :=
  if se_exhausted e then e
  else if (len (se_diagnostics e) <? MAX_SEMANTIC_DIAGNOSTICS - 1)%N then
    mkSErrors (se_diagnostics e ++ [d]) false
  else
    mkSErrors (se_diagnostics e ++
      [diag_error "ZRYNA-M2201" None
         ("M2 semantic analysis reached its diagnostic limit of " +:+ pretty MAX_SEMANTIC_DIAGNOSTICS)
         "fix the retained diagnostics before compiling again"]) true.
(** [Errors::limit] and [Errors::limit_at] *)
Definition se_limit (d : Diagnostic) (e : SErrors) : SErrors :=
  if se_exhausted e then e else mkSErrors (se_diagnostics e ++ [d]) true.

(** A state with an error buffer *)
Class HasErrors (S : Type) := {
  errors_of : S -> SErrors;
  map_errors : (SErrors -> SErrors) -> S -> S;
  errors_of_map f s : errors_of (map_errors f s) = f (errors_of s) }.
#[export] Instance SErrors_errors : HasErrors SErrors :=
  {| errors_of := id; map_errors f s := f s; errors_of_map f s := eq_refl |}.

Section reports.
Context {S : Type} `{HasErrors S} {R : Type}.

(** [Errors::at], [Errors::path] and [Errors::global] *)
Definition report_at (code : string) (span : Span) (message guidance : string) : SM S R unit :=
  smodify (map_errors (se_push (diag_error_at code span message guidance))).
Definition report_path (code path message guidance : string) : SM S R unit :=
  smodify (map_errors (se_push (diag_error code (Some path) message guidance))).
Definition report_global (code message guidance : string) : SM S R unit :=
  smodify (map_errors (se_push (diag_error code None message guidance))).
Definition report_limit (code message guidance : string) : SM S R unit :=
  smodify (map_errors (se_limit (diag_error code None message guidance))).
Definition report_limit_at (code : string) (span : Span) (message guidance : string) : SM S R unit :=
  smodify (map_errors (se_limit (diag_error_at code span message guidance))).
(** [Errors::is_exhausted] *)
Definition exhausted : SM S R bool := sgets (fun s => se_exhausted (errors_of s)).
(** [if errors.is_exhausted() { return r }] *)
Definition check (r : R) : SM S R unit := fun s =>
  if se_exhausted (errors_of s) then (s, Leave r) else (s, Next tt).
End reports.

(** ** Deterministic order of the diagnostics *)

(** [compare_diagnostics]: the location, then the code and the texts *)
Definition location_key (sources : SourceMap) (d : Diagnostic) : option (string * N * N) :=
  match diag_primary_span d with
  | Some span =>
      source ← sm_source sources (span_file span); Some (sf_path source, span_start span, span_end span)
  | None => path ← diag_path d; Some (path, 0%N, 0%N)
  end.
Definition compare_locations (left right : string * N * N) (left_code right_code : string) : comparison :=
  let '(path, start, end_) := left in
  let '(path', start', end_') := right in
  then_with (str_cmp path path')
    (then_with (start ?= start')%N (then_with (str_cmp left_code right_code) (end_ ?= end_')%N)).
Definition compare_texts (left right : Diagnostic) : comparison :=
  then_with (str_cmp (d_message left) (d_message right)) (str_cmp (d_guidance left) (d_guidance right)).
Definition compare_diagnostics (sources : SourceMap) (left right : Diagnostic) : comparison :=
  match location_key sources left, location_key sources right with
  | Some l, Some r => then_with (compare_locations l r (d_code left) (d_code right)) (compare_texts left right)
  | Some _, None => Lt
  | None, Some _ => Gt
  | None, None => then_with (str_cmp (d_code left) (d_code right)) (compare_texts left right)
  end.
(** [Errors::finish] *)
Definition se_finish (sources : SourceMap) (e : SErrors) : list Diagnostic :=
  sort_by (fun left right => match compare_diagnostics sources left right with Gt => false | _ => true end)
    (se_diagnostics e).

(** * Names and types of a project
    ([crates/zryna-semantics/src/control_flow_v1.rs])

    The symbol tables of the modules, the resolution of imports, and the checks
    of the module graph, of the entry exports and of the call graph. *)

(** ** Symbols *)

Record Signature := mkSignature { sg_parameters : list (option Ty); sg_result : option Ty }.
Record FunctionSymbol := mkFunctionSymbol {
  fy_id : FunctionId;
  fy_name : string;
  fy_name_span : Span;
  fy_declaration_span : Span;
  fy_exported : bool;
  fy_signature : Signature }.
Record ImportEdge := mkImportEdge { ie_target : nat; ie_span : Span }.
Record ModuleSymbols := mkModuleSymbols {
  ms_functions : list FunctionSymbol;
  ms_local_functions : gmap string nat;
  ms_callables : gmap string FunctionId;
  ms_imports : list ImportEdge }.
Definition no_symbols : ModuleSymbols := mkModuleSymbols [] ∅ ∅ [].
Record CallEdge := mkCallEdge { ce_caller : nat; ce_callee : nat; ce_span : Span }.

(** [u32::try_from(index).unwrap_or(u32::MAX)] *)
Definition index_u32 (index : nat) : N := default u32_max (try_u32 (N.of_nat index)).

(** ** Types *)

Definition lower_type {S R} `{HasErrors S} (syntax : TypeSyntax) (position : string) : SM S R (option Ty) :=
  match ts_kind syntax with
  | TyMissing =>
      report_at "ZRYNA-M2002" (ts_span syntax) (position +:+ " type annotation is required")
        "write an explicit i32 or bool annotation";;
      mret None
  | TyNamed name =>
      if bool_decide (name = "i32") then mret (Some I32)
      else if bool_decide (name = "bool") then mret (Some Bool)
      else
        report_at "ZRYNA-M2002" (ts_span syntax)
          (position +:+ " type '" +:+ name +:+ "' is not supported by ControlFlowV1")
          "use only the exact i32 or bool scalar type";;
        mret None
  end.

(** ** [collect_signatures] *)

Section collect.
(** The modules collected before the current one: the value of the function
    when the error buffer is exhausted *)
Variable stop : list ModuleSymbols.
Notation SC := (SM SErrors (list ModuleSymbols)).

Fixpoint collect_parameters (parameters : list ParameterSyntax) (names : gset string)
    (types : list (option Ty)) : SC (list (option Ty)) :=
  match parameters with
  | [] => mret types
  | parameter :: parameters =>
      check stop;;
      ty ← lower_type (ps_type parameter) "parameter";
      check stop;;
      let name := is_text (ps_name parameter) in
      swhen (bool_decide (name ∈ names))
        (report_at "ZRYNA-M2003" (is_span (ps_name parameter))
           ("parameter '" +:+ name +:+ "' is declared more than once")
           "give every parameter one exact unique name within its function");;
      collect_parameters parameters ({[name]} ∪ names) (types ++ [ty])
  end.

Definition collect_function (module_index declaration : nat) (function : FunctionSyntax)
    (module : ModuleSymbols) : SC ModuleSymbols :=
  check stop;;
  parameters ← collect_parameters (fs_parameters function) ∅ [];
  check stop;;
  result ← lower_type (fs_result_type function) "result";
  check stop;;
  let name := is_text (fs_name function) in
  let symbol := mkFunctionSymbol (mkFunctionId (index_u32 module_index) (index_u32 declaration)) name
    (is_span (fs_name function)) (fs_span function) (bool_decide (is_Some (fs_export_span function)))
    (mkSignature parameters result) in
  let local_functions := <[name := declaration]> (ms_local_functions module) in
  callables ←
    match ms_local_functions module !! name with
    | Some _ =>
        report_at "ZRYNA-M2001" (fy_name_span symbol)
          ("function '" +:+ name +:+ "' is declared more than once in this module")
          "give every top-level function one exact unique module name";;
        mret (ms_callables module)
    | None => mret (<[name := fy_id symbol]> (ms_callables module))
    end;
  check stop;;
  mret (mkModuleSymbols (ms_functions module ++ [symbol]) local_functions callables (ms_imports module)).

Fixpoint collect_functions (module_index declaration : nat) (functions : list FunctionSyntax)
    (module : ModuleSymbols) : SC ModuleSymbols :=
  match functions with
  | [] => mret module
  | function :: functions =>
      module ← collect_function module_index declaration function module;
      collect_functions module_index (S declaration) functions module
  end.
End collect.

Fixpoint collect_modules (module_index : nat) (files : list SourceUnit) (modules : list ModuleSymbols)
    : SM SErrors (list ModuleSymbols) (list ModuleSymbols) :=
  match files with
  | [] => mret modules
  | file :: files =>
      module ← collect_functions modules module_index 0 (su_functions file) no_symbols;
      collect_modules (S module_index) files (modules ++ [module])
  end.

Definition sem_collect_signatures (snapshot : ProjectSyntaxSnapshot) {R} : SM SErrors R (list ModuleSymbols) :=
  invoke (collect_modules 0 (sn_files snapshot) []).

(** ** [resolve_imports] *)

Record RState := mkRState { rs_errors : SErrors; rs_modules : list ModuleSymbols }.
#[export] Instance RState_errors : HasErrors RState :=
  {| errors_of := rs_errors; map_errors f s := mkRState (f (rs_errors s)) (rs_modules s);
     errors_of_map f s := eq_refl |}.
Definition update_module (index : nat) (f : ModuleSymbols -> ModuleSymbols) {R} : SM RState R unit := fun s =>
  match rs_modules s !! index with
  | Some _ => (mkRState (rs_errors s) (alter f index (rs_modules s)), Next tt)
  | None => (s, Crash)
  end.
Definition add_import (edge : ImportEdge) (m : ModuleSymbols) : ModuleSymbols :=
  mkModuleSymbols (ms_functions m) (ms_local_functions m) (ms_callables m) (ms_imports m ++ [edge]).
Definition add_callable (name : string) (id : FunctionId) (m : ModuleSymbols) : ModuleSymbols :=
  mkModuleSymbols (ms_functions m) (ms_local_functions m) (<[name := id]> (ms_callables m)) (ms_imports m).

(** The exported function [name] of a module *)
Definition exported_function (module : ModuleSymbols) (name : string) : option FunctionSymbol :=
  index ← ms_local_functions module !! name;
  target ← ms_functions module !! index;
  if fy_exported target then Some target else None.

Fixpoint resolve_bindings (module_index target_module : nat) (target_path : string)
    (bindings : list ImportBindingSyntax) : SM RState unit unit :=
  match bindings with
  | [] => mret tt
  | binding :: bindings =>
      check tt;;
      modules ← sgets rs_modules;
      module ← sexpect (modules !! target_module);
      match exported_function module (is_text (ib_imported binding)) with
      | None =>
          report_at "ZRYNA-M2010" (is_span (ib_imported binding))
            ("module '" +:+ target_path +:+ "' does not export function '" +:+ is_text (ib_imported binding) +:+ "'")
            "import one explicitly exported function from the resolved module"
      | Some target =>
          let local := is_text (ib_local binding) in
          importer ← sexpect (modules !! module_index);
          update_module module_index (add_callable local (fy_id target));;
          swhen (bool_decide (is_Some (ms_callables importer !! local)))
            (report_at "ZRYNA-M2011" (is_span (ib_local binding))
               ("callable name '" +:+ local +:+ "' collides in this module")
               "use an exact unique import alias that does not match another import or function")
      end;;
      resolve_bindings module_index target_module target_path bindings
  end.

Definition resolve_import (paths : gmap string nat) (module_index : nat) (file : SourceUnit)
    (import : ImportSyntax) : SM RState unit unit :=
  check tt;;
  match resolve_explicit_zry_import (su_path file) (sp_text (im_specifier import)) with
  | Err _ =>
      report_at "ZRYNA-M2010" (sp_token_span (im_specifier import))
        "module import does not resolve under the explicit portable .zry grammar"
        "use one explicit relative lowercase .zry path inside the workspace"
  | Ok target_path =>
      match paths !! target_path with
      | None =>
          report_at "ZRYNA-M2010" (sp_token_span (im_specifier import))
            ("module '" +:+ target_path +:+ "' is absent from the authenticated source closure")
            "compile the complete driver-authenticated module closure"
      | Some target_module =>
          update_module module_index
            (add_import (mkImportEdge target_module (sp_token_span (im_specifier import))));;
          resolve_bindings module_index target_module target_path (im_bindings import)
      end
  end.

Fixpoint resolve_file (paths : gmap string nat) (module_index : nat) (file : SourceUnit)
    (imports : list ImportSyntax) : SM RState unit unit :=
  match imports with
  | [] => mret tt
  | import :: imports =>
      resolve_import paths module_index file import;; resolve_file paths module_index file imports
  end.

Fixpoint resolve_files (paths : gmap string nat) (module_index : nat) (files : list SourceUnit)
    : SM RState unit unit :=
  match files with
  | [] => mret tt
  | file :: files =>
      resolve_file paths module_index file (su_imports file);; resolve_files paths (S module_index) files
  end.

Definition resolve_imports (snapshot : ProjectSyntaxSnapshot) (paths : gmap string nat) : SM RState unit unit :=
  invoke (resolve_files paths 0 (sn_files snapshot)).

(** The index of every path; a later file wins *)
Definition path_table (files : list SourceUnit) : gmap string nat :=
  foldl (fun m '(index, file) => <[su_path file := index]> m) ∅ (enumerate files).
