(* ===== verification/SemGraphs.v ===== *)
(** * Module graph, entry exports and call graph
    ([crates/zryna-semantics/src/control_flow_v1.rs])

    The depth-first searches keep their stack with its top first; [fuel] is one
    step per edge and per node, and one to stop. *)
From stdpp Require Import base numbers list strings pretty gmap.
From S2P Require Import Prelude Source Diagnostics Abi CfgAlgorithms ControlFlow Syntax Semantics.

(** ** [verify_module_graph] *)

Fixpoint module_graph_loop (fuel : nat) (modules : list ModuleSymbols) (state : list nat) (reachable : list bool)
    (stack : list (nat * nat)) : SM SErrors unit (list bool) :=
  match fuel with
  | O => crash
  | S fuel =>
      match stack with
      | [] => mret reachable
      | (module, edge_index) :: rest =>
          check tt;;
          symbols ← sexpect (modules !! module);
          if Nat.eqb edge_index (length (ms_imports symbols)) then
            module_graph_loop fuel modules (<[module := 2]> state) reachable rest
          else
            edge ← sexpect (ms_imports symbols !! edge_index);
            let stack := (module, S edge_index) :: rest in
            color ← sexpect (state !! ie_target edge);
            let reachable := <[ie_target edge := true]> reachable in
            match color with
            | 0 => module_graph_loop fuel modules (<[ie_target edge := 1]> state) reachable ((ie_target edge, 0) :: stack)
            | 1 =>
                report_at "ZRYNA-M2010" (ie_span edge) "the resolved module import graph contains a cycle"
                  "remove the cyclic relative import chain";;
                module_graph_loop fuel modules state reachable stack
            | _ => module_graph_loop fuel modules state reachable stack
            end
      end
  end.
Definition module_graph_fuel (modules : list ModuleSymbols) : nat :=
  S (length modules + sum_list ((fun m => length (ms_imports m)) <$> modules)).

Fixpoint report_unreachable (files : list SourceUnit) (index : nat) (reachable : list bool) : SM SErrors unit unit :=
  match reachable with
  | [] => mret tt
  | is_reachable :: reachable =>
      check tt;;
      (if (is_reachable : bool) then mret tt
       else
         file ← sexpect (files !! index);
         report_path "ZRYNA-M2010" (su_path file)
           "authenticated source closure contains a module unreachable from the selected entry"
           "pass one complete source-map-bound verified snapshot");;
      report_unreachable files (S index) reachable
  end.

Definition verify_module_graph (snapshot : ProjectSyntaxSnapshot) (entry : FileId) (modules : list ModuleSymbols)
    : SM SErrors unit unit :=
  let entry_index := N.to_nat (file_index entry) in
  if negb (Nat.ltb entry_index (length modules)) then
    report_global "ZRYNA-M2010" "the selected entry module is outside the authenticated module table"
      "select one exact file from the final authenticated source map"
  else
    let state := <[entry_index := 1]> (replicate (length modules) 0) in
    let reachable := <[entry_index := true]> (replicate (length modules) false) in
    reachable ← module_graph_loop (module_graph_fuel modules) modules state reachable [(entry_index, 0)];
    report_unreachable (sn_files snapshot) 0 reachable.

(** ** [verify_entry_exports] *)

(** The exported functions with a complete signature, and their ABI claims *)
Definition entry_export (function : FunctionSymbol) : option (FunctionSymbol * AbiExport) :=
  if fy_exported function then
    parameters ← mapM (fun ty => raw_abi_type <$> ty) (sg_parameters (fy_signature function));
    result ← sg_result (fy_signature function);
    Some (function, mkAbiExport (fy_name function) (mkAbiSignature parameters (raw_abi_type result)))
  else None.

Fixpoint report_violations (exported : list FunctionSymbol) (violations : list AbiViolation) : SM SErrors unit unit :=
  match violations with
  | [] => mret tt
  | violation :: violations =>
      check tt;;
      let function := index ← av_export_index violation; exported !! index in
      let report message guidance : SM SErrors unit unit :=
        match function with
        | Some function => report_at "ZRYNA-M2022" (fy_name_span function) message guidance
        | None => report_global "ZRYNA-M2022" message guidance
        end in
      match av_kind violation with
      | InvalidLogicalName =>
          report "entry export is not a valid scalar ABI logical name"
            "use 1 to 128 ASCII bytes matching [A-Za-z_][A-Za-z0-9_]* and avoid reserved bindings"
      | DuplicateLogicalName _ =>
          report "entry export duplicates another exact logical name" "give every entry export one exact unique name"
      | PortableNameCollision _ =>
          report "entry exports collide under the portable target identity"
            "choose names that remain unique when ASCII case is ignored"
      | TooManyExports | TooManyParameters | TooManyParametersInModule | ViolationBudgetExceeded =>
          report_limit "ZRYNA-M2201" "entry exports exceed the deterministic scalar ABI budget"
            "reduce exported declarations before semantic analysis";;
          leave tt
      | UnsupportedScalarType => mret tt
      end;;
      report_violations exported violations
  end.

Definition verify_entry_exports (entry : FileId) (modules : list ModuleSymbols) : SM SErrors unit unit :=
  match get modules (file_index entry) with
  | None => mret tt
  | Some module =>
      let exports := omap entry_export (ms_functions module) in
      match abi_verify_v1 exports.*2 with
      | Ok _ => mret tt
      | Err violations => report_violations exports.*1 violations
      end
  end.

(** ** [verify_call_graph] *)

(** The adjacency in edge order, and the indegrees *)
Definition call_adjacency (count : nat) (edges : list CallEdge) : option (list (list (nat * Span))) :=
  foldl (fun adjacency edge =>
           adjacency ← adjacency;
           row ← adjacency !! ce_caller edge;
           Some (<[ce_caller edge := row ++ [(ce_callee edge, ce_span edge)]]> adjacency))
    (Some (replicate count [])) edges.
Definition call_indegrees (count : nat) (edges : list CallEdge) : option (list nat) :=
  foldl (fun indegree edge =>
           indegree ← indegree;
           degree ← indegree !! ce_callee edge;
           Some (<[ce_callee edge := S degree]> indegree))
    (Some (replicate count 0)) edges.

(** The search below one start node; [Leave tt] ends the whole search. *)
Fixpoint call_cycle_loop (fuel : nat) (adjacency : list (list (nat * Span))) (colors : list nat)
    (stack : list (nat * nat)) : SM SErrors unit (list nat) :=
  match fuel with
  | O => crash
  | S fuel =>
      match stack with
      | [] => mret colors
      | (node, next) :: rest =>
          row ← sexpect (adjacency !! node);
          if Nat.eqb next (length row) then call_cycle_loop fuel adjacency (<[node := 2]> colors) rest
          else
            edge ← sexpect (row !! next);
            let '(target, span) := edge in
            let stack := (node, S next) :: rest in
            color ← sexpect (colors !! target);
            match color with
            | 0 => call_cycle_loop fuel adjacency (<[target := 1]> colors) ((target, 0) :: stack)
            | 1 =>
                report_at "ZRYNA-M2013" span "the resolved direct-call graph contains a cycle"
                  "remove direct, mutual, or cross-module recursion";;
                leave tt
            | _ => call_cycle_loop fuel adjacency colors stack
            end
      end
  end.
Definition call_fuel (adjacency : list (list (nat * Span))) : nat :=
  S (length adjacency + sum_list (length <$> adjacency)).

Fixpoint call_search (adjacency : list (list (nat * Span))) (starts : list nat) (colors : list nat)
    : SM SErrors unit unit :=
  match starts with
  | [] => mret tt
  | start :: starts =>
      color ← sexpect (colors !! start);
      colors ←
        (if Nat.eqb color 0 then
           call_cycle_loop (call_fuel adjacency) adjacency (<[start := 1]> colors) [(start, 0)]
         else mret colors);
      call_search adjacency starts colors
  end.

(** The targets of one node: depths, indegrees and the nodes to queue *)
Fixpoint release_targets (own : nat) (row : list (nat * Span)) (depth indegree queue : list nat)
    : SM SErrors unit (list nat * list nat * list nat) :=
  match row with
  | [] => mret (depth, indegree, queue)
  | (target, span) :: row =>
      before ← sexpect (depth !! target);
      let after := Nat.max before (S own) in
      swhen (MAX_STATIC_CALL_DEPTH <? N.of_nat after)%N
        (report_limit_at "ZRYNA-M2201" span "static direct-call depth exceeds the deterministic limit of 128"
           "reduce the acyclic direct-call chain";; leave tt);;
      degree ← sexpect (indegree !! target);
      match degree with
      | O => crash
      | S degree =>
          release_targets own row (<[target := after]> depth) (<[target := degree]> indegree)
            (if Nat.eqb degree 0 then queue ++ [target] else queue)
      end
  end.

Fixpoint call_depth_loop (fuel : nat) (adjacency : list (list (nat * Span))) (depth indegree queue : list nat)
    : SM SErrors unit unit :=
  match fuel with
  | O => crash
  | S fuel =>
      match queue with
      | [] => mret tt
      | node :: queue =>
          row ← sexpect (adjacency !! node);
          own ← sexpect (depth !! node);
          r ← release_targets own row depth indegree queue;
          let '(depth, indegree, queue) := r in
          call_depth_loop fuel adjacency depth indegree queue
      end
  end.

Definition sem_verify_call_graph (modules : list ModuleSymbols) (edges : list CallEdge) : SM SErrors unit unit :=
  let count := sum_list ((fun m => length (ms_functions m)) <$> modules) in
  adjacency ← sexpect (call_adjacency count edges);
  indegree ← sexpect (call_indegrees count edges);
  invoke (call_search adjacency (seq 0 count) (replicate count 0));;
  check tt;;
  cyclic ← sgets (se_contains "ZRYNA-M2013");
  if (cyclic : bool) then mret tt
  else
    call_depth_loop (S count) adjacency (replicate count 1) indegree
      (filter (fun node => indegree !! node = Some 0) (seq 0 count)).
