(* ===== verification/SemLower.v ===== *)
(** * Lowering of function bodies
    ([crates/zryna-semantics/src/control_flow_v1.rs], [FunctionLowerer])

    Statements become blocks in SSA form: a mutable binding is carried through
    the join of a conditional and the header of a loop by a block parameter.
    The mutable fields of the lowerer are the record [LS]. *)
From stdpp Require Import base numbers list strings pretty gmap.
From S2P Require Import Prelude Source Diagnostics Abi CfgAlgorithms ControlFlow Syntax Semantics.

(** ** State *)

Record TypedValue := mkTypedValue { tv_ty : Ty; tv_value : ValueId }.
Record Binding := mkBinding {
  bd_name : string; bd_ty : Ty; bd_mutable : bool; bd_value : ValueId;
  bd_span : Span; bd_depth : N; bd_parameter : bool }.
Definition set_value (v : ValueId) (b : Binding) : Binding :=
  mkBinding (bd_name b) (bd_ty b) (bd_mutable b) v (bd_span b) (bd_depth b) (bd_parameter b).

Record LS := mkLS {
  ls_errors : SErrors;
  ls_call_edges : list CallEdge;
  ls_bindings : list Binding;
  ls_expression_values : list (option TypedValue);
  ls_blocks : list Block;
  ls_current : nat;
  ls_cfg_edges : N;
  ls_next_value : N }.
#[export] Instance LS_errors : HasErrors LS := {|
  errors_of := ls_errors;
  map_errors f s := mkLS (f (ls_errors s)) (ls_call_edges s) (ls_bindings s) (ls_expression_values s)
    (ls_blocks s) (ls_current s) (ls_cfg_edges s) (ls_next_value s);
  errors_of_map f s := eq_refl |}.
Definition set_call_edges (x : list CallEdge) (s : LS) : LS :=
  mkLS (ls_errors s) x (ls_bindings s) (ls_expression_values s) (ls_blocks s) (ls_current s)
    (ls_cfg_edges s) (ls_next_value s).
Definition set_bindings (x : list Binding) (s : LS) : LS :=
  mkLS (ls_errors s) (ls_call_edges s) x (ls_expression_values s) (ls_blocks s) (ls_current s)
    (ls_cfg_edges s) (ls_next_value s).
Definition set_expression_values (x : list (option TypedValue)) (s : LS) : LS :=
  mkLS (ls_errors s) (ls_call_edges s) (ls_bindings s) x (ls_blocks s) (ls_current s)
    (ls_cfg_edges s) (ls_next_value s).
Definition set_draft_blocks (x : list Block) (s : LS) : LS :=
  mkLS (ls_errors s) (ls_call_edges s) (ls_bindings s) (ls_expression_values s) x (ls_current s)
    (ls_cfg_edges s) (ls_next_value s).
Definition set_current (x : nat) (s : LS) : LS :=
  mkLS (ls_errors s) (ls_call_edges s) (ls_bindings s) (ls_expression_values s) (ls_blocks s) x
    (ls_cfg_edges s) (ls_next_value s).
Definition set_cfg_edges (x : N) (s : LS) : LS :=
  mkLS (ls_errors s) (ls_call_edges s) (ls_bindings s) (ls_expression_values s) (ls_blocks s) (ls_current s)
    x (ls_next_value s).
Definition set_next_value (x : N) (s : LS) : LS :=
  mkLS (ls_errors s) (ls_call_edges s) (ls_bindings s) (ls_expression_values s) (ls_blocks s) (ls_current s)
    (ls_cfg_edges s) x.

Definition empty_block (index : nat) : Block := mkBlock (index_u32 index) [] [] [].
Definition push_instruction (i : Instruction) (b : Block) : Block :=
  mkBlock (b_id b) (b_parameters b) (b_instructions b ++ [i]) (b_terminators b).
Definition push_parameter (d : ValueDefinition) (b : Block) : Block :=
  mkBlock (b_id b) (b_parameters b ++ [d]) (b_instructions b) (b_terminators b).
Definition push_terminator (t : SpannedTerminator) (b : Block) : Block :=
  mkBlock (b_id b) (b_parameters b) (b_instructions b) (b_terminators b ++ [t]).

(** [self.blocks[index]], and its mutation *)
Definition block_at {R} (index : nat) : SM LS R Block := fun s =>
  match ls_blocks s !! index with Some b => (s, Next b) | None => (s, Crash) end.
Definition update_block {R} (index : nat) (f : Block -> Block) : SM LS R unit :=
  block ← block_at index;
  smodify (fun s => set_draft_blocks (<[index := f block]> (ls_blocks s)) s).

(** ** Drafting *)

Definition draft_merge_within_limit {R} (count : nat) (span : Span) : SM LS R bool :=
  stop ← exhausted;
  if (stop : bool) then mret false
  else if (MAX_BLOCK_PARAMETERS <? N.of_nat count)%N then
    report_limit_at "ZRYNA-M2201" span "live mutable bindings exceed the deterministic merge/header limit"
      "reduce simultaneously live mutable bindings across control-flow edges";;
    mret false
  else mret true.

Definition draft_value_within_limit {R} (next : N) (span : Span) : SM LS R bool :=
  stop ← exhausted;
  if (stop : bool) then mret false
  else if (MAX_VALUES_PER_FUNCTION <=? next)%N then
    report_limit_at "ZRYNA-M2201" span "control-flow draft exceeds the deterministic IR value limit"
      "reduce expressions and live mutable state before semantic analysis";;
    mret false
  else mret true.

Section lowerer.
Context (fbody : FunctionBodySyntax) (callables : gmap string FunctionId) (modules : list ModuleSymbols)
        (offsets : list nat) (caller : nat).

Definition new_block_body : SM LS (option nat) (option nat) :=
  check None;;
  blocks ← sgets ls_blocks;
  if (MAX_BLOCKS_PER_FUNCTION <=? len blocks)%N then
    report_limit_at "ZRYNA-M2201" (fb_span fbody)
      "control-flow lowering exceeds the deterministic IR block limit"
      "reduce nested branches and loops before semantic analysis";;
    mret None
  else
    smodify (fun s => set_draft_blocks (ls_blocks s ++ [empty_block (length (ls_blocks s))]) s);;
    mret (Some (length blocks)).
Definition new_block {R} : SM LS R (option nat) := invoke new_block_body.

Definition new_value_body (ty : Ty) (span : Span) : SM LS (option TypedValue) (option TypedValue) :=
  check None;;
  next ← sgets ls_next_value;
  within ← draft_value_within_limit next span;
  if negb within then mret None
  else
    match checked_add u32_max next 1 with
    | None =>
        report_limit_at "ZRYNA-M2201" span "function value identity space is exhausted"
          "reduce expressions and live mutable state before semantic analysis";;
        mret None
    | Some after =>
        smodify (set_next_value after);;
        mret (Some (mkTypedValue ty next))
    end.
Definition new_value {R} (ty : Ty) (span : Span) : SM LS R (option TypedValue) := invoke (new_value_body ty span).

Definition terminator_edges (t : Terminator) : N :=
  match t with Return _ => 0 | Jump _ _ => 1 | Branch _ _ _ _ _ => 2 end.
Definition terminate_body (terminator : SpannedTerminator) : SM LS bool bool :=
  check false;;
  edges ← sgets ls_cfg_edges;
  match checked_add u64_max edges (terminator_edges (tm_kind terminator)) with
  | None =>
      report_limit_at "ZRYNA-M2201" (tm_span terminator) "control-flow edge count cannot be represented"
        "reduce nested branches and loops before semantic analysis";;
      mret false
  | Some total =>
      if (MAX_CFG_EDGES_PER_FUNCTION <? total)%N then
        report_limit_at "ZRYNA-M2201" (tm_span terminator)
          "control-flow lowering exceeds the deterministic CFG edge limit"
          "reduce nested branches and loops before semantic analysis";;
        mret false
      else
        current ← sgets ls_current;
        block ← block_at current;
        match b_terminators block with
        | [] =>
            smodify (set_cfg_edges total);;
            update_block current (push_terminator terminator);;
            mret true
        | _ => mret false
        end
  end.
Definition terminate {R} (terminator : SpannedTerminator) : SM LS R bool := invoke (terminate_body terminator).

Definition emit_body (ty : Ty) (span : Span) (kind : InstructionKind)
    : SM LS (option TypedValue) (option TypedValue) :=
  check None;;
  current ← sgets ls_current;
  block ← block_at current;
  if (MAX_VALUES_PER_FUNCTION <=? len (b_instructions block))%N then
    report_limit_at "ZRYNA-M2201" span "function lowering exceeds the deterministic IR value limit"
      "reduce expressions before semantic analysis";;
    mret None
  else
    value ← new_value ty span;
    value ← or_leave value None;
    update_block current (push_instruction (mkInstruction (mkValueDefinition (tv_value value) ty span) kind));;
    mret (Some value).
Definition emit {R} (ty : Ty) (span : Span) (kind : InstructionKind) : SM LS R (option TypedValue) :=
  invoke (emit_body ty span kind).

Definition record_call_edge {R} (edge : CallEdge) : SM LS R bool :=
  stop ← exhausted;
  if (stop : bool) then mret false
  else
    edges ← sgets ls_call_edges;
    if (MAX_CALL_EDGES <=? len edges)%N then
      report_limit "ZRYNA-M2201" "semantic direct-call sites exceed the deterministic limit"
        "reduce direct calls before semantic analysis";;
      mret false
    else smodify (set_call_edges (edges ++ [edge]));; mret true.

(** ** Expressions *)

(** [i32::from_str]: an optional sign and decimal digits, in range *)
Fixpoint parse_digits (s : string) (acc : Z) : option Z :=
  match s with
  | EmptyString => Some acc
  | String a r => if is_ascii_digit a then parse_digits r (acc * 10 + (Z.of_N (byte_of a) - 48)) else None
  end.
Definition parse_i32 (s : string) : option Z :=
  let '(sign, digits) :=
    match s with
    | String a r =>
        if (byte_of a =? 45)%N then ((-1)%Z, r)
        else if (byte_of a =? 43)%N then (1%Z, r) else (1%Z, s)
    | EmptyString => (1%Z, s)
    end in
  match digits with
  | EmptyString => None
  | _ =>
      magnitude ← parse_digits digits 0;
      let value := (sign * magnitude)%Z in
      if ((i32_min <=? value) && (value <=? i32_max))%Z then Some value else None
  end.

Notation XM := (SM LS (option TypedValue)).

(** [self.value(id)] *)
Definition value_of (id : ExpressionId) : XM TypedValue :=
  values ← sgets ls_expression_values;
  or_leave (mjoin (get values id)) None.

Definition operator_error (span : Span) (message : string) : XM (option TypedValue) :=
  report_at "ZRYNA-M2007" span message "use only the exact operand types frozen by ControlFlowV1";;
  mret None.

Definition is_i32 (v : TypedValue) : bool := bool_decide (tv_ty v = I32).

Definition binary_i32 (operator span : Span) (lhs rhs : ExpressionId)
    (operation : ValueId -> ValueId -> InstructionKind) : XM (option TypedValue) :=
  lhs ← value_of lhs; rhs ← value_of rhs;
  if negb (is_i32 lhs) || negb (is_i32 rhs) then
    operator_error operator "arithmetic requires two exact i32 operands"
  else emit I32 span (operation (tv_value lhs) (tv_value rhs)).

Definition comparison_i32 (operator span : Span) (lhs rhs : ExpressionId)
    (operation : ValueId -> ValueId -> InstructionKind) : XM (option TypedValue) :=
  lhs ← value_of lhs; rhs ← value_of rhs;
  if negb (is_i32 lhs) || negb (is_i32 rhs) then
    operator_error operator "ordered comparison requires two exact i32 operands"
  else emit Bool span (operation (tv_value lhs) (tv_value rhs)).

Definition equality (operator span : Span) (lhs rhs : ExpressionId)
    (operation : ValueId -> ValueId -> InstructionKind) : XM (option TypedValue) :=
  lhs ← value_of lhs; rhs ← value_of rhs;
  if bool_decide (tv_ty lhs <> tv_ty rhs) || bool_decide (tv_ty lhs = Unit) then
    operator_error operator "equality requires two operands with the same exact i32 or bool type"
  else emit Bool span (operation (tv_value lhs) (tv_value rhs)).

(** [iter().map(|argument| self.value(argument)).collect::<Option<Vec<_>>>()?] *)
Fixpoint values_of (ids : list ExpressionId) : XM (list TypedValue) :=
  match ids with
  | [] => mret []
  | id :: ids => value ← value_of id; values ← values_of ids; mret (value :: values)
  end.

Definition lower_call (span : Span) (callee : IdentifierSyntax) (arguments : list ExpressionId)
    : XM (option TypedValue) :=
  values ← values_of arguments;
  match callables !! is_text callee with
  | None =>
      report_at "ZRYNA-M2012" (is_span callee)
        ("callable '" +:+ is_text callee +:+ "' is not declared in this module")
        "call one same-module function or named imported function";;
      mret None
  | Some function_id =>
      module ← sexpect (get modules (fid_module function_id));
      symbol ← sexpect (get (ms_functions module) (fid_declaration function_id));
      let signature := fy_signature symbol in
      expected ← or_leave (mapM id (sg_parameters signature)) None;
      result ← or_leave (sg_result signature) None;
      if negb (Nat.eqb (length values) (length expected)) then
        report_at "ZRYNA-M2012" (is_span callee)
          ("call to '" +:+ is_text callee +:+ "' has " +:+ pretty (len values) +:+
           " arguments but requires " +:+ pretty (len expected))
          "pass exactly the declared arguments in source order";;
        mret None
      else if existsb (fun '(actual, expected) => bool_decide (tv_ty actual <> expected)) (zip values expected) then
        report_at "ZRYNA-M2012" span
          ("call to '" +:+ is_text callee +:+ "' has an argument with the wrong exact type")
          "match every declared i32 or bool parameter exactly";;
        mret None
      else
        offset ← sexpect (get offsets (fid_module function_id));
        recorded ← record_call_edge
          (mkCallEdge caller (offset + N.to_nat (fid_declaration function_id)) (is_span callee));
        if negb recorded then mret None
        else emit result span (DirectCall function_id (tv_value <$> values))
  end.

(** The last binding of a name *)
Fixpoint rfind_binding (name : string) (index : nat) (bindings : list Binding) : option (nat * Binding) :=
  match bindings with
  | [] => None
  | b :: bindings =>
      match rfind_binding name (S index) bindings with
      | Some r => Some r
      | None => if bool_decide (bd_name b = name) then Some (index, b) else None
      end
  end.

Definition lower_expression_body (kind : ExpressionKind) (span : Span) : XM (option TypedValue) :=
  match kind with
  | EReference name =>
      bindings ← sgets ls_bindings;
      match rfind_binding (is_text name) 0 bindings with
      | Some (_, binding) => mret (Some (mkTypedValue (bd_ty binding) (bd_value binding)))
      | None =>
          report_at "ZRYNA-M2004" (is_span name)
            ("value name '" +:+ is_text name +:+ "' is not in lexical scope")
            "reference a parameter or an already initialized local binding";;
          mret None
      end
  | EBoolLiteral value => emit Bool span (BoolLiteral value)
  | EI32Literal spelling =>
      match parse_i32 spelling with
      | Some value => emit I32 span (I32Literal value)
      | None =>
          report_at "ZRYNA-M2008" span ("integer literal '" +:+ spelling +:+ "' is outside the i32 range")
            "use a decimal integer from -2147483648 through 2147483647";;
          mret None
      end
  | ENegation operator operand =>
      operand ← value_of operand;
      if negb (is_i32 operand) then operator_error operator "negation requires one i32 operand"
      else emit I32 span (I32Neg (tv_value operand))
  | EAddition operator lhs rhs => binary_i32 operator span lhs rhs I32Add
  | ESubtraction operator lhs rhs => binary_i32 operator span lhs rhs I32Sub
  | EMultiplication operator lhs rhs => binary_i32 operator span lhs rhs I32Mul
  | EEqual operator lhs rhs => equality operator span lhs rhs Eq
  | ENotEqual operator lhs rhs => equality operator span lhs rhs Ne
  | ELessThan operator lhs rhs => comparison_i32 operator span lhs rhs I32LtS
  | ELessEqual operator lhs rhs => comparison_i32 operator span lhs rhs I32LeS
  | EGreaterThan operator lhs rhs => comparison_i32 operator span lhs rhs I32GtS
  | EGreaterEqual operator lhs rhs => comparison_i32 operator span lhs rhs I32GeS
  | ECall callee _ arguments _ => lower_call span callee arguments
  end.
Definition lower_expression {R} (kind : ExpressionKind) (span : Span) : SM LS R (option TypedValue) :=
  invoke (lower_expression_body kind span).

(** ** [lower_root] *)

(** The postorder of the tree below the root; the stack holds its top first. *)
Fixpoint postorder_walk (fuel : nat) (stack : list (ExpressionId * bool)) (order : list nat) : option (list nat) :=
  match fuel with
  | O => None
  | S fuel =>
      match stack with
      | [] => Some order
      | (id, true) :: stack => postorder_walk fuel stack (order ++ [N.to_nat id])
      | (id, false) :: stack =>
          expression ← get (fb_expressions fbody) id;
          postorder_walk fuel
            (((fun child => (child, false)) <$> expression_children (es_kind expression)) ++ (id, true) :: stack)
            order
      end
  end.
(** Two steps for every expression of the arena, and one to stop *)
Definition postorder_fuel : nat := S (2 * length (fb_expressions fbody)).

Definition store_expression_result {R} (index : nat) (value : option TypedValue) : SM LS R bool :=
  stop ← exhausted;
  if (stop : bool) then mret false
  else
    values ← sgets ls_expression_values;
    if Nat.ltb index (length values) then
      smodify (set_expression_values (<[index := value]> values));; mret true
    else crash.

Fixpoint lower_order (order : list nat) : XM unit :=
  match order with
  | [] => mret tt
  | index :: order =>
      check None;;
      expression ← sexpect (fb_expressions fbody !! index);
      value ← lower_expression (es_kind expression) (es_span expression);
      stored ← store_expression_result index value;
      if negb stored then leave None else lower_order order
  end.

Definition lower_root_body (root : ExpressionId) : XM (option TypedValue) :=
  check None;;
  if (len (fb_expressions fbody) <=? root)%N then
    report_limit_at "ZRYNA-M2201" (fb_span fbody) "verified expression root is outside its sealed arena"
      "report this compiler invariant failure with the smallest source";;
    mret None
  else
    order ← sexpect (postorder_walk postorder_fuel [(root, false)] []);
    lower_order order;;
    values ← sgets ls_expression_values;
    result ← sexpect (get values root);
    smodify (set_expression_values ((fun _ => None) <$> values));;
    mret result.
Definition lower_root {R} (root : ExpressionId) : SM LS R (option TypedValue) := invoke (lower_root_body root).

(** ** Statements *)

Notation BM := (SM LS bool).

(** [if !self.terminate(t) { return false; }] *)
Definition terminate_or_leave (span : Span) (kind : Terminator) : BM unit :=
  done ← terminate (mkSpannedTerminator span kind);
  if negb done then leave false else mret tt.
(** [let Some(x) = self.new_block() else { return false };] *)
Definition fresh_block : BM nat := block ← new_block; or_leave block false.

Section statements.
(** [lower_syntax_block] of the blocks inside this one *)
Context (lower_block : SBlockId -> N -> BM bool) (depth : N) (result : Ty).

(** [depth.saturating_add(1)] *)
Definition deeper : N := N.min u64_max (depth + 1).

(** The bindings after the join, and the arguments of its two edges *)
Fixpoint merge_bindings (join index : nat) (incoming true_bindings false_bindings : list Binding)
    : BM (list Binding * list ValueId * list ValueId) :=
  match incoming with
  | [] => mret ([], [], [])
  | binding :: incoming =>
      on_true ← sexpect (true_bindings !! index);
      on_false ← (if bd_mutable binding then sexpect (false_bindings !! index) else mret on_true);
      if (bd_value on_true =? bd_value on_false)%N then
        r ← merge_bindings join (S index) incoming true_bindings false_bindings;
        let '(merged, true_arguments, false_arguments) := r in
        mret (set_value (bd_value on_true) binding :: merged, true_arguments, false_arguments)
      else
        parameter ← new_value (bd_ty binding) (bd_span binding);
        parameter ← or_leave parameter false;
        update_block join (push_parameter (mkValueDefinition (tv_value parameter) (tv_ty parameter) (bd_span binding)));;
        r ← merge_bindings join (S index) incoming true_bindings false_bindings;
        let '(merged, true_arguments, false_arguments) := r in
        mret (set_value (tv_value parameter) binding :: merged,
              bd_value on_true :: true_arguments, bd_value on_false :: false_arguments)
  end.

(** How many bindings the join carries *)
Fixpoint carried_count (index : nat) (incoming true_bindings false_bindings : list Binding) : BM nat :=
  match incoming with
  | [] => mret 0
  | binding :: incoming =>
      carried ←
        (if bd_mutable binding then
           on_true ← sexpect (true_bindings !! index);
           on_false ← sexpect (false_bindings !! index);
           mret (negb (bd_value on_true =? bd_value on_false)%N)
         else mret false);
      count ← carried_count (S index) incoming true_bindings false_bindings;
      mret (if (carried : bool) then S count else count)
  end.

Definition condition_span (condition : ExpressionId) : BM Span :=
  expression ← sexpect (get (fb_expressions fbody) condition); mret (es_span expression).

Definition lower_branch (target : nat) (incoming : list Binding) (block : option SBlockId)
    : BM (option (nat * list Binding)) :=
  smodify (set_current target);;
  smodify (set_bindings incoming);;
  open ← match block with Some block => invoke (lower_block block deeper) | None => mret true end;
  current ← sgets ls_current;
  bindings ← sgets ls_bindings;
  mret (if (open : bool) then Some (current, bindings) else None).

Definition lower_join (span : Span) (incoming : list Binding) (true_block : nat) (true_bindings : list Binding)
    (false_block : nat) (false_bindings : list Binding) : BM bool :=
  carried ← carried_count 0 incoming true_bindings false_bindings;
  within ← draft_merge_within_limit carried span;
  if negb within then leave false
  else
    join ← fresh_block;
    r ← merge_bindings join 0 incoming true_bindings false_bindings;
    let '(merged, true_arguments, false_arguments) := r in
    smodify (set_current true_block);;
    terminate_or_leave span (Jump (index_u32 join) true_arguments);;
    smodify (set_current false_block);;
    terminate_or_leave span (Jump (index_u32 join) false_arguments);;
    smodify (set_current join);;
    smodify (set_bindings merged);;
    mret true.

(** The two arms and the join of their open ends *)
Definition lower_arms (incoming : list Binding) (true_target : nat) (then_block : SBlockId)
    (false_target : nat) (else_block : option SBlockId) (span : Span) : BM bool :=
  true_state ← lower_branch true_target incoming (Some then_block);
  false_state ← lower_branch false_target incoming else_block;
  match true_state, false_state with
  | None, None => mret false
  | Some (block, bindings), None | None, Some (block, bindings) =>
      smodify (set_current block);;
      smodify (set_bindings bindings);;
      mret true
  | Some (true_block, true_bindings), Some (false_block, false_bindings) =>
      lower_join span incoming true_block true_bindings false_block false_bindings
  end.

Definition lower_if (condition : ExpressionId) (then_block : SBlockId) (else_block : option SBlockId) (span : Span)
    : BM bool :=
  where_ ← condition_span condition;
  condition ← lower_root condition;
  condition ← or_leave condition false;
  swhen (negb (bool_decide (tv_ty condition = Bool)))
    (report_at "ZRYNA-M2014" where_ "if condition does not have exact bool type"
       "use one bool expression without truthiness or numeric coercion");;
  check false;;
  incoming ← sgets ls_bindings;
  true_target ← fresh_block;
  false_target ← fresh_block;
  terminate_or_leave span
    (Branch (tv_value condition) (index_u32 true_target) [] (index_u32 false_target) []);;
  lower_arms incoming true_target then_block false_target else_block span.

(** The header parameters: the bindings in the loop and the entry arguments *)
Fixpoint header_bindings (header : nat) (incoming : list Binding) : BM (list Binding * list ValueId) :=
  match incoming with
  | [] => mret ([], [])
  | binding :: incoming =>
      if negb (bd_mutable binding) then
        r ← header_bindings header incoming;
        mret (binding :: r.1, r.2)
      else
        parameter ← new_value (bd_ty binding) (bd_span binding);
        parameter ← or_leave parameter false;
        update_block header (push_parameter (mkValueDefinition (tv_value parameter) (tv_ty parameter) (bd_span binding)));;
        r ← header_bindings header incoming;
        mret (set_value (tv_value parameter) binding :: r.1, bd_value binding :: r.2)
  end.
(** The indices of the mutable bindings *)
Definition carried_indices (incoming : list Binding) : list nat :=
  omap (fun '(index, binding) => if bd_mutable binding then Some index else None) (enumerate incoming).

(** The branch of the header, the body with its back edge, and the exit *)
Definition lower_iteration (header : nat) (incoming in_header : list Binding) (condition : TypedValue)
    (body_block : SBlockId) (span : Span) : BM bool :=
  loop_body ← fresh_block;
  exit ← fresh_block;
  smodify (set_current header);;
  terminate_or_leave span (Branch (tv_value condition) (index_u32 loop_body) [] (index_u32 exit) []);;
  smodify (set_current loop_body);;
  smodify (set_bindings in_header);;
  open ← invoke (lower_block body_block deeper);
  (if (open : bool) then
     bindings ← sgets ls_bindings;
     backedge ← sexpect (mapM (fun index => bd_value <$> bindings !! index) (carried_indices incoming));
     terminate_or_leave span (Jump (index_u32 header) backedge)
   else mret tt);;
  smodify (set_current exit);;
  smodify (set_bindings in_header);;
  mret true.

Definition lower_while (condition : ExpressionId) (body_block : SBlockId) (span : Span) : BM bool :=
  where_ ← condition_span condition;
  incoming ← sgets ls_bindings;
  preheader ← sgets ls_current;
  within ← draft_merge_within_limit (length (carried_indices incoming)) span;
  if negb within then leave false
  else
    header ← fresh_block;
    r ← header_bindings header incoming;
    let '(in_header, entry_arguments) := r in
    smodify (set_current preheader);;
    terminate_or_leave span (Jump (index_u32 header) entry_arguments);;
    smodify (set_current header);;
    smodify (set_bindings in_header);;
    condition ← lower_root condition;
    condition ← or_leave condition false;
    swhen (negb (bool_decide (tv_ty condition = Bool)))
      (report_at "ZRYNA-M2014" where_ "while condition does not have exact bool type"
         "use one bool expression without truthiness or numeric coercion");;
    check false;;
    lower_iteration header incoming in_header condition body_block span.

Definition lower_local (mutable : bool) (name : IdentifierSyntax) (type_syntax : TypeSyntax)
    (initializer : ExpressionId) : BM bool :=
  value ← lower_root initializer;
  check false;;
  ty ← lower_type type_syntax "local";
  check false;;
  bindings ← sgets ls_bindings;
  let duplicate := existsb (fun binding =>
    bool_decide (bd_name binding = is_text name)
    && ((bd_depth binding =? depth)%N || ((depth =? 0)%N && bd_parameter binding))) bindings in
  swhen duplicate
    (report_at "ZRYNA-M2003" (is_span name)
       ("binding '" +:+ is_text name +:+ "' cannot be redeclared in this block")
       "use a unique name in this block; nested blocks may shadow outer bindings");;
  check false;;
  match value, ty with
  | Some value, Some ty =>
      if bool_decide (tv_ty value <> ty) then
        report_at "ZRYNA-M2006" (is_span name) "local initializer does not match its declared exact type"
          "initialize the local with the declared i32 or bool type"
      else
        swhen (negb duplicate)
          (smodify (set_bindings
             (bindings ++ [mkBinding (is_text name) ty mutable (tv_value value) (is_span name) depth false])))
  | _, _ => mret tt
  end;;
  mret true.

Definition lower_assignment (target : IdentifierSyntax) (value : ExpressionId) : BM bool :=
  value ← lower_root value;
  check false;;
  bindings ← sgets ls_bindings;
  match rfind_binding (is_text target) 0 bindings with
  | None =>
      report_at "ZRYNA-M2005" (is_span target)
        ("assignment target '" +:+ is_text target +:+ "' is not declared")
        "assign only a previously declared mutable let binding"
  | Some (index, binding) =>
      if negb (bd_mutable binding) then
        report_at "ZRYNA-M2005" (is_span target) ("binding '" +:+ is_text target +:+ "' is not mutable")
          "assign only a let binding; const values and parameters are immutable"
      else
        match value with
        | Some value =>
            if bool_decide (tv_ty value = bd_ty binding) then
              smodify (set_bindings (<[index := set_value (tv_value value) binding]> bindings))
            else
              report_at "ZRYNA-M2006" (is_span target) "assignment value does not match the binding's exact type"
                "assign a value with exactly the declared i32 or bool type"
        | None => mret tt
        end
  end;;
  mret true.

Definition lower_return (span : Span) (value : ExpressionId) : BM bool :=
  value ← lower_root value;
  check false;;
  match value with
  | Some value =>
      if bool_decide (tv_ty value = result) then
        terminate_or_leave span (Return (tv_value value));; mret false
      else
        report_at "ZRYNA-M2009" span "returned value does not match the declared exact result type"
          "return a value with exactly the function's declared type";;
        mret true
  | None => mret true
  end.

(** One statement that can be reached; whether its end can be *)
Definition lower_statement (statement : StatementSyntax) : BM bool :=
  match ss_kind statement with
  | SLocalDeclaration _ mutable name type_syntax _ initializer _ =>
      lower_local mutable name type_syntax initializer
  | SAssignment target _ value _ => lower_assignment target value
  | SReturn _ value _ => lower_return (ss_span statement) value
  | SBlock block => invoke (lower_block block deeper)
  | SIf keyword_span _ condition _ then_block else_clause =>
      invoke (lower_if condition then_block (el_block <$> else_clause) keyword_span)
  | SWhile keyword_span _ condition _ body_block => invoke (lower_while condition body_block keyword_span)
  end.

Fixpoint lower_statements (statements : list StatementId) (open : bool) : BM bool :=
  match statements with
  | [] => mret open
  | statement_id :: statements =>
      check false;;
      statement ← sexpect (get (fb_statements fbody) statement_id);
      open ←
        (if open then lower_statement statement
         else
           report_at "ZRYNA-M2009" (ss_span statement)
             "statement is unreachable after control flow returns on every path"
             "remove the unreachable statement";;
           mret false);
      lower_statements statements open
  end.
End statements.

(** [lower_syntax_block]; the fuel bounds the nesting of blocks. *)
Fixpoint lower_syntax_block (fuel : nat) (result : Ty) (block_id : SBlockId) (depth : N) : BM bool :=
  match fuel with
  | O => crash
  | S fuel =>
      marker ← sgets (fun s => length (ls_bindings s));
      block ← sexpect (get (fb_blocks fbody) block_id);
      open ← lower_statements (lower_syntax_block fuel result) depth result (bs_statements block) true;
      swhen open (smodify (fun s => set_bindings (take marker (ls_bindings s)) s));;
      mret open
  end.
(** Nested blocks are distinct blocks of the arena. *)
Definition block_fuel : nat := S (length (fb_blocks fbody)).
End lowerer.
