(* ===== verification/SemValues.v ===== *)
(** * Pruning and numbering of drafted values
    ([crates/zryna-semantics/src/control_flow_v1.rs])

    [prune_dead_block_parameters] removes the block parameters no use depends
    on; [canonicalize_values] renumbers the values in definition order. *)
From stdpp Require Import base numbers list strings pretty gmap.
From S2P Require Import Prelude Source Diagnostics Abi CfgAlgorithms ControlFlow Syntax Semantics SemLower.

(** ** Operands *)

Definition sem_instruction_operands (kind : InstructionKind) : list ValueId :=
  match kind with
  | BoolLiteral _ | I32Literal _ => []
  | I32Neg operand => [operand]
  | I32Add lhs rhs | I32Sub lhs rhs | I32Mul lhs rhs | Eq lhs rhs | Ne lhs rhs
  | I32LtS lhs rhs | I32LeS lhs rhs | I32GtS lhs rhs | I32GeS lhs rhs => [lhs; rhs]
  | DirectCall _ arguments => arguments
  end.

(** The values a block defines *)
Definition block_ids (block : Block) : list ValueId :=
  (vd_id <$> b_parameters block) ++ ((fun i => vd_id (in_result i)) <$> b_instructions block).
(** [max().map_or(0, |value| value as usize + 1)] *)
Definition id_bound (ids : list ValueId) : nat := foldr (fun id n => Nat.max (S (N.to_nat id)) n) 0 ids.

(** ** [prune_dead_block_parameters] *)

(** [mark_live]; identities outside the table are ignored. *)
Definition mark_live (live : list bool) (value : ValueId) : list bool * bool :=
  match get live value with
  | Some slot => (<[N.to_nat value := true]> live, negb slot)
  | None => (live, false)
  end.
Definition mark_all (live : list bool) (values : list ValueId) : list bool :=
  foldl (fun live value => (mark_live live value).1) live values.

(** The operands that are used whatever the parameters are *)
Definition block_uses (block : Block) : list ValueId :=
  (b_instructions block ≫= fun i => sem_instruction_operands (in_kind i)) ++
  match head (b_terminators block) with
  | Some terminator =>
      match tm_kind terminator with
      | Return value => [value]
      | Jump _ _ => []
      | Branch condition _ _ _ _ => [condition]
      end
  | None => []
  end.

(** The edges of a terminator with their arguments *)
Definition terminator_edges_of (kind : Terminator) : list (BlockId * list ValueId) :=
  match kind with
  | Return _ => []
  | Jump target arguments => [(target, arguments)]
  | Branch _ t1 a1 t2 a2 => [(t1, a1); (t2, a2)]
  end.
Definition block_edges (block : Block) : list (BlockId * list ValueId) :=
  match head (b_terminators block) with Some t => terminator_edges_of (tm_kind t) | None => [] end.

Fixpoint propagate_arguments (pairs : list (ValueDefinition * ValueId)) (live : list bool) (changed : bool)
    : list bool * bool :=
  match pairs with
  | [] => (live, changed)
  | (parameter, argument) :: pairs =>
      if default false (get live (vd_id parameter)) then
        let '(live, marked) := mark_live live argument in
        propagate_arguments pairs live (changed || marked)
      else propagate_arguments pairs live changed
  end.
Definition propagate_edge (blocks : list Block) (acc : list bool * bool) (edge : BlockId * list ValueId)
    : list bool * bool :=
  match get blocks edge.1 with
  | None => acc
  | Some target => propagate_arguments (zip (b_parameters target) edge.2) acc.1 acc.2
  end.
(** One pass over all edges *)
Definition propagate_pass (blocks : list Block) (live : list bool) : list bool * bool :=
  foldl (propagate_edge blocks) (live, false) (blocks ≫= block_edges).

(** Passes until nothing changes: every pass but the last marks a value. *)
Fixpoint propagate_loop (fuel : nat) (blocks : list Block) (live : list bool) : option (list bool) :=
  match fuel with
  | O => None
  | S fuel =>
      let '(live, changed) := propagate_pass blocks live in
      if changed then propagate_loop fuel blocks live else Some live
  end.

(** [retain] with a mask that is indexed in step *)
Fixpoint retain_mask {A} (mask : list bool) (l : list A) : option (list A) :=
  match l, mask with
  | [], _ => Some []
  | _ :: _, [] => None
  | x :: l, keep :: mask => r ← retain_mask mask l; Some (if (keep : bool) then x :: r else r)
  end.
Definition filter_edge (keep : list (list bool)) (target : BlockId) (arguments : list ValueId) : option (list ValueId) :=
  mask ← get keep target; retain_mask mask arguments.
Definition filter_terminator (keep : list (list bool)) (kind : Terminator) : option Terminator :=
  match kind with
  | Return value => Some (Return value)
  | Jump target arguments => arguments ← filter_edge keep target arguments; Some (Jump target arguments)
  | Branch condition t1 a1 t2 a2 =>
      a1 ← filter_edge keep t1 a1; a2 ← filter_edge keep t2 a2; Some (Branch condition t1 a1 t2 a2)
  end.
Definition prune_block (keep : list (list bool)) (block : Block) (mask : list bool) : option Block :=
  parameters ← retain_mask mask (b_parameters block);
  terminators ←
    match b_terminators block with
    | [] => Some []
    | t :: rest => kind ← filter_terminator keep (tm_kind t); Some (mkSpannedTerminator (tm_span t) kind :: rest)
    end;
  Some (mkBlock (b_id block) parameters (b_instructions block) terminators).

Definition live_values (blocks : list Block) : option (list bool) :=
  let count := id_bound (blocks ≫= block_ids) in
  let live := mark_all (replicate count false) (blocks ≫= block_uses) in
  propagate_loop (S count) blocks live.
Definition keep_masks (blocks : list Block) (live : list bool) : list (list bool) :=
  (fun block => (fun parameter => default false (get live (vd_id parameter))) <$> b_parameters block) <$> blocks.

(** [None] is a panic of the code. *)
Definition prune_dead_block_parameters (blocks : list Block) : option (list Block) :=
  live ← live_values blocks;
  let keep := keep_masks blocks live in
  mapM (fun '(block, mask) => prune_block keep block mask) (zip blocks keep).

(** ** [canonicalize_values] *)

(** The numbering: the definitions in order get 0, 1, ... *)
Definition number_definition (next : N) (d : ValueDefinition) : ValueDefinition :=
  mkValueDefinition next (vd_ty d) (vd_span d).
(** [next.saturating_add(1)] *)
Definition bump (next : N) : N := N.min u32_max (next + 1).

Definition Numbering : Type := list (option ValueId) * N.
(** [define]; [None] is a panic. *)
Definition define_id (n : Numbering) (d : ValueDefinition) : option (ValueDefinition * Numbering) :=
  _ ← get n.1 (vd_id d);
  Some (number_definition n.2 d, (<[N.to_nat (vd_id d) := Some n.2]> n.1, bump n.2)).
Fixpoint define_ids (n : Numbering) (ds : list ValueDefinition) : option (list ValueDefinition * Numbering) :=
  match ds with
  | [] => Some ([], n)
  | d :: ds =>
      '(d, n) ← define_id n d;
      '(ds, n) ← define_ids n ds;
      Some (d :: ds, n)
  end.
Fixpoint define_results (n : Numbering) (instructions : list Instruction) : option (list Instruction * Numbering) :=
  match instructions with
  | [] => Some ([], n)
  | i :: instructions =>
      '(d, n) ← define_id n (in_result i);
      '(instructions, n) ← define_results n instructions;
      Some (mkInstruction d (in_kind i) :: instructions, n)
  end.
Fixpoint define_blocks (n : Numbering) (blocks : list Block) : option (list Block * Numbering) :=
  match blocks with
  | [] => Some ([], n)
  | block :: blocks =>
      '(parameters, n) ← define_ids n (b_parameters block);
      '(instructions, n) ← define_results n (b_instructions block);
      '(blocks, n) ← define_blocks n blocks;
      Some (mkBlock (b_id block) parameters instructions (b_terminators block) :: blocks, n)
  end.

(** [map]: the number of a value, if it has one *)
Definition renumber (mapping : list (option ValueId)) (value : ValueId) : option ValueId :=
  mjoin (get mapping value).

Definition rewrite_instruction_operands (map : ValueId -> option ValueId) (kind : InstructionKind)
    : option InstructionKind :=
  let binary operation lhs rhs : option InstructionKind := l ← map lhs; r ← map rhs; Some (operation l r) in
  match kind with
  | BoolLiteral _ | I32Literal _ => Some kind
  | I32Neg operand => operand ← map operand; Some (I32Neg operand)
  | I32Add lhs rhs => binary I32Add lhs rhs
  | I32Sub lhs rhs => binary I32Sub lhs rhs
  | I32Mul lhs rhs => binary I32Mul lhs rhs
  | Eq lhs rhs => binary Eq lhs rhs
  | Ne lhs rhs => binary Ne lhs rhs
  | I32LtS lhs rhs => binary I32LtS lhs rhs
  | I32LeS lhs rhs => binary I32LeS lhs rhs
  | I32GtS lhs rhs => binary I32GtS lhs rhs
  | I32GeS lhs rhs => binary I32GeS lhs rhs
  | DirectCall callee arguments => arguments ← mapM map arguments; Some (DirectCall callee arguments)
  end.
Definition rewrite_terminator_operands (map : ValueId -> option ValueId) (kind : Terminator) : option Terminator :=
  match kind with
  | Return value => value ← map value; Some (Return value)
  | Jump target arguments => arguments ← mapM map arguments; Some (Jump target arguments)
  | Branch condition t1 a1 t2 a2 =>
      condition ← map condition; a1 ← mapM map a1; a2 ← mapM map a2; Some (Branch condition t1 a1 t2 a2)
  end.

Section rewrite.
Context {S : Type} `{HasErrors S} (map : ValueId -> option ValueId).
Notation CM := (SM S bool).

Fixpoint rewrite_instructions (instructions : list Instruction) : CM (list Instruction) :=
  match instructions with
  | [] => mret []
  | i :: instructions =>
      match rewrite_instruction_operands map (in_kind i) with
      | Some kind => instructions ← rewrite_instructions instructions; mret (mkInstruction (in_result i) kind :: instructions)
      | None =>
          report_limit_at "ZRYNA-M2201" (vd_span (in_result i))
            "control-flow lowering retained a value without one canonical definition"
            "report this compiler invariant failure with the smallest source";;
          leave false
      end
  end.
Definition rewrite_terminators (ts : list SpannedTerminator) : CM (list SpannedTerminator) :=
  match ts with
  | [] => mret []
  | t :: ts =>
      match rewrite_terminator_operands map (tm_kind t) with
      | Some kind => mret (mkSpannedTerminator (tm_span t) kind :: ts)
      | None =>
          report_limit_at "ZRYNA-M2201" (tm_span t)
            "control-flow lowering retained a terminator value without one canonical definition"
            "report this compiler invariant failure with the smallest source";;
          leave false
      end
  end.
Fixpoint rewrite_blocks (blocks : list Block) : CM (list Block) :=
  match blocks with
  | [] => mret []
  | block :: blocks =>
      instructions ← rewrite_instructions (b_instructions block);
      terminators ← rewrite_terminators (b_terminators block);
      blocks ← rewrite_blocks blocks;
      mret (mkBlock (b_id block) (b_parameters block) instructions terminators :: blocks)
  end.
End rewrite.

(** The renumbered parameters and blocks; [Leave false] when an error is
    reported. *)
Definition canonicalize_values {S} `{HasErrors S} (parameters : list ValueDefinition) (blocks : list Block)
    : SM S bool (list ValueDefinition * list Block) :=
  let ids := (vd_id <$> parameters) ++ (blocks ≫= block_ids) in
  if (MAX_VALUES_PER_FUNCTION <? len ids)%N then
    report_limit "ZRYNA-M2201" "control-flow lowering exceeds the deterministic IR value limit"
      "reduce expressions and live mutable state before semantic analysis";;
    leave false
  else
    '(parameters, n) ← sexpect (define_ids (replicate (id_bound ids) None, 0%N) parameters);
    '(blocks, n) ← sexpect (define_blocks n blocks);
    blocks ← rewrite_blocks (renumber n.1) blocks;
    mret (parameters, blocks).
