(* ===== verification/SemProgram.v ===== *)
(** * Lowering of a project
    ([crates/zryna-semantics/src/control_flow_v1.rs], [lower])

    The phases of the analysis, each of which is skipped once the error buffer
    is exhausted, and the verification of the lowered program. *)
From stdpp Require Import base numbers list strings pretty gmap.
From S2P Require Import Prelude Source Diagnostics Abi CfgAlgorithms ControlFlow Syntax Semantics SemGraphs.
From S2P Require Import SemLower SemValues.

(** ** [SemanticInput] *)

Record SemanticInput := mkSemanticInput {
  si_syntax : ProjectSyntaxSnapshot; si_sources : SourceMap; si_entry : FileId }.

(** [SemanticInput::try_new] *)
Definition semantic_input (syntax : ProjectSyntaxSnapshot) (sources : SourceMap) (entry : FileId)
    : option SemanticInput :=
  if is_bound_to syntax sources
     && bool_decide (is_Some (sm_source sources entry))
     && Nat.eqb (length (filter (fun file => su_id file = entry) (sn_files syntax))) 1
     && forallb (fun d => negb (bool_decide (d_severity d = SevError))) (sn_diagnostics syntax)
  then Some (mkSemanticInput syntax sources entry) else None.

(** ** [lower_function] *)

Record PState := mkPState { pg_errors : SErrors; pg_call_edges : list CallEdge }.
#[export] Instance PState_errors : HasErrors PState := {|
  errors_of := pg_errors;
  map_errors f s := mkPState (f (pg_errors s)) (pg_call_edges s);
  errors_of_map f s := eq_refl |}.

(** The parameter definitions, unless a type is unknown *)
Fixpoint parameter_definitions (index : nat) (parameters : list (ParameterSyntax * option Ty))
    : option (list ValueDefinition) :=
  match parameters with
  | [] => Some []
  | (parameter, ty) :: parameters =>
      id ← try_u32 (N.of_nat index);
      ty ← ty;
      rest ← parameter_definitions (S index) parameters;
      Some (mkValueDefinition id ty (is_span (ps_name parameter)) :: rest)
  end.
Definition parameter_binding (parameter : ParameterSyntax) (d : ValueDefinition) : Binding :=
  mkBinding (is_text (ps_name parameter)) (vd_ty d) false (vd_id d) (is_span (ps_name parameter)) 0 true.

(** [function_offsets] *)
Fixpoint offsets_from (total : nat) (modules : list ModuleSymbols) : list nat :=
  match modules with
  | [] => []
  | module :: modules => total :: offsets_from (total + length (ms_functions module)) modules
  end.
Definition function_offsets (modules : list ModuleSymbols) : list nat := offsets_from 0 modules.

Section lower_function.
Context (syntax : FunctionSyntax) (symbol : FunctionSymbol) (callables : gmap string FunctionId)
        (modules : list ModuleSymbols) (offsets : list nat) (entry_module : bool).

(** The body after its parameters and result type are known *)
Definition lower_function_body (caller : nat) (parameters : list ValueDefinition) (result : Ty)
    : SM LS (option Function_) (option Function_) :=
  let fbody := fs_body syntax in
  open ← invoke (lower_syntax_block fbody callables modules offsets caller (block_fuel fbody) result
                   (fb_root_block fbody) 0);
  check None;;
  swhen open
    (report_at "ZRYNA-M2009" (fb_span fbody) "function can fall through without returning its declared result"
       "end every reachable function path with one typed return");;
  clean ← sgets (fun s => se_is_empty (ls_errors s));
  if negb clean then mret None
  else
    blocks ← sgets ls_blocks;
    blocks ← sexpect (prune_dead_block_parameters blocks);
    if existsb (fun block => (MAX_BLOCK_PARAMETERS <? len (b_parameters block))%N) blocks then
      report_limit_at "ZRYNA-M2201" (fb_span fbody)
        "live mutable bindings exceed the deterministic merge/header limit"
        "reduce simultaneously live mutable bindings across control-flow edges";;
      mret None
    else
      canonical ← invoke (fun s =>
        match canonicalize_values parameters blocks s with
        | (s, Next r) => (s, Next (Some r))
        | (s, Leave _) => (s, Next None)
        | (s, Crash) => (s, Crash)
        end);
      match canonical with
      | None => mret None
      | Some (parameters, blocks) =>
          mret (Some (mkFunction (fy_id symbol)
            (if entry_module && fy_exported symbol then Some (fy_name symbol) else None)
            (fy_declaration_span symbol) parameters result blocks))
      end.

Definition initial_lowerer (s : PState) (parameters : list ValueDefinition) : LS :=
  mkLS (pg_errors s) (pg_call_edges s)
    (zip_with parameter_binding (fs_parameters syntax) parameters)
    (replicate (length (fb_expressions (fs_body syntax))) None)
    [empty_block 0] 0 0 (index_u32 (length parameters)).

Definition lower_function {R} : SM PState R (option Function_) := fun s =>
  match parameter_definitions 0 (zip (fs_parameters syntax) (sg_parameters (fy_signature symbol))),
        sg_result (fy_signature symbol) with
  | Some parameters, Some result =>
      match get offsets (fid_module (fy_id symbol)) with
      | None => (s, Crash)
      | Some offset =>
          let caller := offset + N.to_nat (fid_declaration (fy_id symbol)) in
          let '(l, r) := lower_function_body caller parameters result (initial_lowerer s parameters) in
          (mkPState (ls_errors l) (ls_call_edges l),
           match r with Next f => Next f | Leave f => Next f | Crash => Crash end)
      end
  | _, _ => (s, Next None)
  end.
End lower_function.

(** ** [lower] *)

Section lower.
Context (input : SemanticInput).

(** The functions of one module; [Leave tt] is [break 'modules]. *)
Fixpoint lower_functions (modules : list ModuleSymbols) (module : ModuleSymbols) (entry_module : bool)
    (index : nat) (functions : list FunctionSyntax) : SM PState unit (list Function_) :=
  match functions with
  | [] => mret []
  | function :: functions =>
      symbol ← sexpect (ms_functions module !! index);
      lowered ← lower_function function symbol (ms_callables module) modules (function_offsets modules) entry_module;
      check tt;;
      rest ← lower_functions modules module entry_module (S index) functions;
      mret (match lowered with Some f => f :: rest | None => rest end)
  end.
Fixpoint lower_modules (modules : list ModuleSymbols) (index : nat) (files : list SourceUnit)
    : SM PState unit (list Module_) :=
  match files with
  | [] => mret []
  | file :: files =>
      (* a module without functions never indexes its symbols *)
      let module := default no_symbols (modules !! index) in
      functions ← lower_functions modules module (bool_decide (su_id file = si_entry input)) 0 (su_functions file);
      rest ← lower_modules modules (S index) files;
      mret (mkModule (index_u32 index) (su_id file) functions :: rest)
  end.

(** [run_phase]: the phase runs unless the errors are exhausted, before or
    after. *)
Definition run_phase {S A} `{HasErrors S} (phase : SM S unit A) : SM S unit A :=
  check tt;; result ← phase; check tt;; mret result.

(** A phase whose state is the error buffer alone, or also the modules *)
Definition on_errors_only {A} (m : SM SErrors unit A) : SM PState unit A := fun s =>
  let '(e, r) := m (pg_errors s) in (mkPState e (pg_call_edges s), r).
Definition on_modules (modules : list ModuleSymbols) (m : SM RState unit unit) : SM PState unit (list ModuleSymbols) :=
  fun s =>
  let '(r, f) := m (mkRState (pg_errors s) modules) in
  (mkPState (rs_errors r) (pg_call_edges s),
   match f with Next _ => Next (rs_modules r) | Leave _ => Leave tt | Crash => Crash end).

(** The phases up to the modules of the lowered program; [Leave tt] ends in the
    diagnostics. *)
Definition lower_phases : SM PState unit (list Module_) :=
  let snapshot := si_syntax input in
  modules ← run_phase (on_errors_only (sem_collect_signatures snapshot));
  modules ← run_phase (on_modules modules (resolve_imports snapshot (path_table (sn_files snapshot))));
  run_phase (on_errors_only (invoke (verify_module_graph snapshot (si_entry input) modules)));;
  run_phase (on_errors_only (invoke (verify_entry_exports (si_entry input) modules)));;
  raw ← lower_modules modules 0 (sn_files snapshot);
  edges ← sgets pg_call_edges;
  on_errors_only (invoke (sem_verify_call_graph modules edges));;
  mret raw.

(** [lower]: the verified program or the diagnostics; [None] is a panic. *)
Definition lower : option (result (list Diagnostic) VerifiedProgram) :=
  match lower_phases (mkPState no_semantic_errors []) with
  | (_, Crash) => None
  | (s, Leave _) => Some (Err (se_finish (si_sources input) (pg_errors s)))
  | (s, Next raw) =>
      if se_is_empty (pg_errors s) then
        Some (verify (mkProgram (file_index (si_entry input)) raw) (si_sources input) (si_entry input))
      else Some (Err (se_finish (si_sources input) (pg_errors s)))
  end.
End lower.
