(* ===== verification/SourceSemantics.v ===== *)
(** * Meaning of a project

    A reference interpreter of the syntax trees of [crates/zryna-syntax/src/v3.rs]
    with the documented meaning of the operators (wrapping 32-bit arithmetic,
    exact comparisons, strict evaluation from left to right) and lexical scope:
    a store is the list of the visible variables, the innermost last.  The
    fuel bounds the nesting of syntax, the iterations of a loop and the depth of
    calls; the result is [Stuck] where the meaning is undefined. *)
From stdpp Require Import base numbers list strings gmap.
From S2P Require Import Prelude Source Abi ControlFlow ControlFlowSpec ControlFlowExec Syntax Semantics SemLower.

(** ** Variables *)

Notation Store := (list (string * Value)).

(** The place of the innermost variable of a name *)
Fixpoint var_index (name : string) (store : Store) : option nat :=
  match store with
  | [] => None
  | (x, _) :: store =>
      match var_index name store with
      | Some i => Some (S i)
      | None => if bool_decide (x = name) then Some 0 else None
      end
  end.
Definition read_var (name : string) (store : Store) : option Value :=
  i ← var_index name store; snd <$> store !! i.
Definition write_var (name : string) (v : Value) (store : Store) : option Store :=
  i ← var_index name store; Some (<[i := (name, v)]> store).

(** ** Types of annotations *)

Definition declared_type (syntax : TypeSyntax) : option Ty :=
  match ts_kind syntax with
  | TyMissing => None
  | TyNamed name =>
      if bool_decide (name = "i32") then Some I32 else if bool_decide (name = "bool") then Some Bool else None
  end.
(** The store of a call: as many arguments as parameters, of their types *)
Fixpoint bind_arguments (parameters : list ParameterSyntax) (values : list Value) : option Store :=
  match parameters, values with
  | [], [] => Some []
  | p :: parameters, v :: values =>
      ty ← declared_type (ps_type p);
      if decide (value_ty v = ty) then rest ← bind_arguments parameters values; Some ((is_text (ps_name p), v) :: rest)
      else None
  | _, _ => None
  end.

(** ** Operators *)

(** The operators but calls and references, on the values of their operands *)
Definition apply_operator (kind : ExpressionKind) (values : list Value) : option Value :=
  match kind, values with
  | EBoolLiteral b, [] => Some (VBool b)
  | EI32Literal spelling, [] => VI32 <$> parse_i32 spelling
  | ENegation _ _, [VI32 a] => Some (VI32 (wrap32 (- a)))
  | EAddition _ _ _, [VI32 a; VI32 b] => Some (VI32 (wrap32 (a + b)))
  | ESubtraction _ _ _, [VI32 a; VI32 b] => Some (VI32 (wrap32 (a - b)))
  | EMultiplication _ _ _, [VI32 a; VI32 b] => Some (VI32 (wrap32 (a * b)))
  | EEqual _ _ _, [VI32 a; VI32 b] => Some (VBool (a =? b)%Z)
  | EEqual _ _ _, [VBool a; VBool b] => Some (VBool (Bool.eqb a b))
  | ENotEqual _ _ _, [VI32 a; VI32 b] => Some (VBool (negb (a =? b)%Z))
  | ENotEqual _ _ _, [VBool a; VBool b] => Some (VBool (negb (Bool.eqb a b)))
  | ELessThan _ _ _, [VI32 a; VI32 b] => Some (VBool (a <? b)%Z)
  | ELessEqual _ _ _, [VI32 a; VI32 b] => Some (VBool (a <=? b)%Z)
  | EGreaterThan _ _ _, [VI32 a; VI32 b] => Some (VBool (b <? a)%Z)
  | EGreaterEqual _ _ _, [VI32 a; VI32 b] => Some (VBool (b <=? a)%Z)
  | _, _ => None
  end.

(** The operands, from left to right *)
Fixpoint eval_operands (eval : ExpressionId -> Outcome Value) (ids : list ExpressionId) : Outcome (list Value) :=
  match ids with
  | [] => mret []
  | id :: ids => v ← eval id; vs ← eval_operands eval ids; mret (v :: vs)
  end.

(** What a statement or block ends in *)
Inductive Completion := Falls (store : Store) | Returns (v : Value).

(** ** The interpreter of a function body *)

Section body.
Context (fbody : FunctionBodySyntax) (resolve : string -> option FunctionKey).

Section interpreter.
Context (call : FunctionKey -> list Value -> Outcome Value).

Fixpoint eval_expression (fuel : nat) (store : Store) (id : ExpressionId) : Outcome Value :=
  match fuel with
  | O => Timeout
  | S fuel =>
      expression ← or_stuck (get (fb_expressions fbody) id);
      values ← eval_operands (eval_expression fuel store) (expression_children (es_kind expression));
      match es_kind expression with
      | EReference name => or_stuck (read_var (is_text name) store)
      | ECall callee _ _ _ => key ← or_stuck (resolve (is_text callee)); call key values
      | kind => or_stuck (apply_operator kind values)
      end
  end.

Definition eval_condition (fuel : nat) (store : Store) (id : ExpressionId) : Outcome bool :=
  v ← eval_expression fuel store id; match v with VBool b => mret b | VI32 _ => Stuck end.

(** The iterations of a loop *)
Fixpoint exec_loop (fuel : nat) (condition : Store -> Outcome bool) (loop_body : Store -> Outcome Completion)
    (store : Store) : Outcome Completion :=
  match fuel with
  | O => Timeout
  | S fuel =>
      c ← condition store;
      if (c : bool) then
        r ← loop_body store;
        match r with Falls store => exec_loop fuel condition loop_body store | Returns v => mret (Returns v) end
      else mret (Falls store)
  end.

Definition exec_statement (fuel : nat) (exec_block : Store -> SBlockId -> Outcome Completion) (store : Store)
    (statement : StatementSyntax) : Outcome Completion :=
  match ss_kind statement with
  | SLocalDeclaration _ _ name _ _ initializer _ =>
      v ← eval_expression fuel store initializer; mret (Falls (store ++ [(is_text name, v)]))
  | SAssignment target _ value _ =>
      v ← eval_expression fuel store value;
      store ← or_stuck (write_var (is_text target) v store); mret (Falls store)
  | SReturn _ value _ => v ← eval_expression fuel store value; mret (Returns v)
  | SBlock block => exec_block store block
  | SIf _ _ condition _ then_block else_clause =>
      c ← eval_condition fuel store condition;
      match (c : bool), else_clause with
      | true, _ => exec_block store then_block
      | false, Some clause => exec_block store (el_block clause)
      | false, None => mret (Falls store)
      end
  | SWhile _ _ condition _ body_block =>
      exec_loop fuel (fun store => eval_condition fuel store condition)
        (fun store => exec_block store body_block) store
  end.

Fixpoint exec_statements (exec : Store -> StatementSyntax -> Outcome Completion) (store : Store)
    (statements : list StatementId) : Outcome Completion :=
  match statements with
  | [] => mret (Falls store)
  | id :: statements =>
      statement ← or_stuck (get (fb_statements fbody) id);
      r ← exec store statement;
      match r with Falls store => exec_statements exec store statements | Returns v => mret (Returns v) end
  end.

(** The variables of a block end with it. *)
Fixpoint exec_block (fuel : nat) (store : Store) (id : SBlockId) : Outcome Completion :=
  match fuel with
  | O => Timeout
  | S fuel =>
      block ← or_stuck (get (fb_blocks fbody) id);
      r ← exec_statements (exec_statement fuel (exec_block fuel)) store (bs_statements block);
      mret (match r with Falls store' => Falls (take (length store) store') | Returns v => Returns v end)
  end.
End interpreter.
End body.

(** ** Projects *)

Section project.
Context (files : list SourceUnit).

Definition source_function (key : FunctionKey) : option FunctionSyntax :=
  file ← files !! fk_module key; su_functions file !! fk_function key.

(** The function a module declares under a name *)
Definition declared_function (file : SourceUnit) (name : string) : option nat :=
  fst <$> list_find (fun f => is_text (fs_name f) = name) (su_functions file).
(** The file an import denotes *)
Definition import_target (file : SourceUnit) (import : ImportSyntax) : option nat :=
  match resolve_explicit_zry_import (su_path file) (sp_text (im_specifier import)) with
  | Ok path => path_table files !! path
  | Err _ => None
  end.
(** The functions an import makes callable, with their local names *)
Definition imported_functions (file : SourceUnit) : list (string * option FunctionKey) :=
  su_imports file ≫= fun import =>
    (fun binding =>
       (is_text (ib_local binding),
        target ← import_target file import;
        exporter ← files !! target;
        declaration ← declared_function exporter (is_text (ib_imported binding));
        Some (mkFunctionKey target declaration))) <$> im_bindings import.
(** The function a name denotes in a module: a declared or an imported one *)
Definition resolve_callee (module : nat) (name : string) : option FunctionKey :=
  file ← files !! module;
  match declared_function file name with
  | Some declaration => Some (mkFunctionKey module declaration)
  | None => '(_, entry) ← list_find (fun entry => entry.1 = name) (imported_functions file); entry.2
  end.

Fixpoint source_call (fuel : nat) (key : FunctionKey) (values : list Value) : Outcome Value :=
  match fuel with
  | O => Timeout
  | S fuel =>
      function ← or_stuck (source_function key);
      store ← or_stuck (bind_arguments (fs_parameters function) values);
      let fbody := fs_body function in
      r ← exec_block fbody (resolve_callee (fk_module key)) (source_call fuel) fuel store (fb_root_block fbody);
      match r with Returns v => mret v | Falls _ => Stuck end
  end.
End project.
