(* ===== verification/SourceRelation.v ===== *)
(** * Big-step relations of the reference meaning

    The interpreter of [SourceSemantics] as inductive relations over an abstract
    relation of calls, and the agreement of the two: a call returns a value for
    some fuel exactly when it is derivable at some call depth. *)
From stdpp Require Import base numbers list strings gmap.
From S2P Require Import Prelude Source Abi ControlFlow ControlFlowSpec ControlFlowExec Syntax Semantics SemLower.
From S2P Require Import SourceSemantics.

(** ** Outcomes *)

Lemma bind_done {A B} (m : Outcome A) (f : A -> Outcome B) b :
  m ≫= f = Done b <-> exists a, m = Done a /\ f a = Done b.
Proof. destruct m; cbn; split; try done; [eauto|by intros (? & [= ->] & ?)|by intros (? & ? & ?)..]. Qed.
Lemma or_stuck_done {A} (o : option A) a : or_stuck o = Done a <-> o = Some a.
Proof. destruct o; cbn; split; congruence. Qed.
Ltac done_inv := repeat match goal with
  | H : _ ≫= _ = Done _ |- _ => apply bind_done in H as (? & ? & H)
  | H : or_stuck _ = Done _ |- _ => apply or_stuck_done in H
  | H : mret _ = Done _ |- _ => injection H as <-
  end.

(** Eventually, for all larger fuels *)
Definition eventually (P : nat -> Prop) : Prop := exists n, forall m, n <= m -> P m.
Lemma eventually_and (P Q : nat -> Prop) : eventually P -> eventually Q -> eventually (fun n => P n /\ Q n).
Proof. intros [n Hn] [m Hm]. exists (Nat.max n m). intros k Hk. split; [apply Hn|apply Hm]; lia. Qed.
Lemma eventually_mono (P Q : nat -> Prop) : (forall n, P n -> Q n) -> eventually P -> eventually Q.
Proof. intros H [n Hn]. exists n. auto. Qed.
Lemma eventually_S (P : nat -> Prop) : eventually (fun n => P (S n)) -> eventually P.
Proof. intros [n Hn]. exists (S n). intros [|m] Hm; [lia|]. apply Hn. lia. Qed.
Lemma eventually_always (P : nat -> Prop) : (forall n, P n) -> eventually P.
Proof. intros H. exists 0. auto. Qed.

Definition Calls : Type := FunctionKey -> list Value -> Value -> Prop.

(** A block leaves its variables. *)
Definition leave_scope (store : Store) (r : Completion) : Completion :=
  match r with Falls store' => Falls (take (length store) store') | Returns v => Returns v end.

Section relations.
Context (fbody : FunctionBodySyntax) (resolve : string -> option FunctionKey) (C : Calls).

(** The value of an operator on the values of its operands *)
Definition applies (store : Store) (kind : ExpressionKind) (values : list Value) (v : Value) : Prop :=
  match kind with
  | EReference name => read_var (is_text name) store = Some v
  | ECall callee _ _ _ => exists key, resolve (is_text callee) = Some key /\ C key values v
  | kind => apply_operator kind values = Some v
  end.

Inductive evals (store : Store) : ExpressionId -> Value -> Prop :=
  | evals_intro id e vs v :
      get (fb_expressions fbody) id = Some e ->
      evals_list store (expression_children (es_kind e)) vs ->
      applies store (es_kind e) vs v -> evals store id v
with evals_list (store : Store) : list ExpressionId -> list Value -> Prop :=
  | evals_nil : evals_list store [] []
  | evals_cons id ids v vs : evals store id v -> evals_list store ids vs -> evals_list store (id :: ids) (v :: vs).
Scheme evals_ind2 := Induction for evals Sort Prop
  with evals_list_ind2 := Induction for evals_list Sort Prop.

Inductive xblock : Store -> SBlockId -> Completion -> Prop :=
  | xblock_intro store id b r :
      get (fb_blocks fbody) id = Some b -> xstatements store (bs_statements b) r ->
      xblock store id (leave_scope store r)
with xstatements : Store -> list StatementId -> Completion -> Prop :=
  | x_nil store : xstatements store [] (Falls store)
  | x_falls store id st ids store' r :
      get (fb_statements fbody) id = Some st -> xstatement store (ss_kind st) (Falls store') ->
      xstatements store' ids r -> xstatements store (id :: ids) r
  | x_returns store id st ids v :
      get (fb_statements fbody) id = Some st -> xstatement store (ss_kind st) (Returns v) ->
      xstatements store (id :: ids) (Returns v)
with xstatement : Store -> StatementKind -> Completion -> Prop :=
  | x_local store s1 m name t s2 e s3 v :
      evals store e v ->
      xstatement store (SLocalDeclaration s1 m name t s2 e s3) (Falls (store ++ [(is_text name, v)]))
  | x_assign store target s1 e s2 v store' :
      evals store e v -> write_var (is_text target) v store = Some store' ->
      xstatement store (SAssignment target s1 e s2) (Falls store')
  | x_return store s1 e s2 v : evals store e v -> xstatement store (SReturn s1 e s2) (Returns v)
  | x_block store b r : xblock store b r -> xstatement store (SBlock b) r
  | x_then store s1 s2 c s3 t f r :
      evals store c (VBool true) -> xblock store t r -> xstatement store (SIf s1 s2 c s3 t f) r
  | x_else store s1 s2 c s3 t clause r :
      evals store c (VBool false) -> xblock store (el_block clause) r ->
      xstatement store (SIf s1 s2 c s3 t (Some clause)) r
  | x_no_else store s1 s2 c s3 t :
      evals store c (VBool false) -> xstatement store (SIf s1 s2 c s3 t None) (Falls store)
  | x_exit store s1 s2 c s3 b :
      evals store c (VBool false) -> xstatement store (SWhile s1 s2 c s3 b) (Falls store)
  | x_again store s1 s2 c s3 b store' r :
      evals store c (VBool true) -> xblock store b (Falls store') -> xstatement store' (SWhile s1 s2 c s3 b) r ->
      xstatement store (SWhile s1 s2 c s3 b) r
  | x_break store s1 s2 c s3 b v :
      evals store c (VBool true) -> xblock store b (Returns v) ->
      xstatement store (SWhile s1 s2 c s3 b) (Returns v).
Scheme xblock_ind2 := Induction for xblock Sort Prop
  with xstatements_ind2 := Induction for xstatements Sort Prop
  with xstatement_ind2 := Induction for xstatement Sort Prop.
End relations.

(** ** Functions *)

Definition src_body (files : list SourceUnit) (C : Calls) : Calls := fun key values v =>
  exists function store,
    source_function files key = Some function /\
    bind_arguments (fs_parameters function) values = Some store /\
    xblock (fs_body function) (resolve_callee files (fk_module key)) C store (fb_root_block (fs_body function)) (Returns v).
(** Calls of a bounded depth *)
Fixpoint src_calls (files : list SourceUnit) (depth : nat) : Calls :=
  match depth with O => fun _ _ _ => False | S depth => src_body files (src_calls files depth) end.

(** ** The interpreter computes the relations *)

Section sound.
Context (fbody : FunctionBodySyntax) (resolve : string -> option FunctionKey).
Context (call : FunctionKey -> list Value -> Outcome Value) (C : Calls).
Context (call_sound : forall key vs v, call key vs = Done v -> C key vs v).
Notation eval := (eval_expression fbody resolve call).
Notation evals := (evals fbody resolve C).

Lemma eval_sound fuel store id v : eval fuel store id = Done v -> evals store id v.
Proof.
  revert id v. induction fuel as [|fuel IH]; intros id v H; [done|]. cbn [eval_expression] in H.
  done_inv. rename x into e. rename x0 into vs. apply (evals_intro _ _ _ _ _ e vs); [done| |].
  - clear H. revert vs H1. induction (expression_children (es_kind e)) as [|c cs IHc]; intros vs H; cbn in H; done_inv.
    + constructor.
    + constructor; auto.
  - unfold applies. destruct (es_kind e); done_inv; eauto.
Qed.
Lemma condition_sound fuel store id b :
  eval_condition fbody resolve call fuel store id = Done b -> evals store id (VBool b).
Proof.
  unfold eval_condition. intros H. done_inv. destruct x; [|done]. done_inv. by eapply eval_sound.
Qed.

Lemma loop_sound fuel n store s1 s2 c s3 b r (run_body : Store -> Outcome Completion) :
  (forall store r, run_body store = Done r -> xblock fbody resolve C store b r) ->
  exec_loop n (fun store => eval_condition fbody resolve call fuel store c) run_body store = Done r ->
  xstatement fbody resolve C store (SWhile s1 s2 c s3 b) r.
Proof.
  intros Hb. revert store r. induction n as [|n IH]; intros store r H; [done|]. cbn in H. done_inv.
  apply condition_sound in H0. destruct x; [|done_inv; by apply x_exit].
  done_inv. destruct x; [eapply x_again; eauto|]. done_inv. eapply x_break; eauto.
Qed.

Lemma statement_sound fuel store st r (run_block : Store -> SBlockId -> Outcome Completion) :
  (forall store b r, run_block store b = Done r -> xblock fbody resolve C store b r) ->
  exec_statement fbody resolve call fuel run_block store st = Done r ->
  xstatement fbody resolve C store (ss_kind st) r.
Proof.
  intros Hb. unfold exec_statement. destruct (ss_kind st); intros H; done_inv.
  - apply x_local. by eapply eval_sound.
  - eapply x_assign; [by eapply eval_sound|done].
  - apply x_return. by eapply eval_sound.
  - apply x_block. auto.
  - apply condition_sound in H0. destruct x; [apply x_then; auto|].
    destruct else_clause; [apply x_else; auto|]. done_inv. by apply x_no_else.
  - eapply loop_sound; [|exact H]. auto.
Qed.

Lemma statements_sound fuel store sts r (run_block : Store -> SBlockId -> Outcome Completion) :
  (forall store b r, run_block store b = Done r -> xblock fbody resolve C store b r) ->
  exec_statements fbody (exec_statement fbody resolve call fuel run_block) store sts = Done r ->
  xstatements fbody resolve C store sts r.
Proof.
  intros Hb. revert store. induction sts as [|id sts IH]; intros store H; cbn in H; done_inv; [constructor|].
  apply statement_sound in H1; [|done]. destruct x0; [eapply x_falls; eauto|]. done_inv. eapply x_returns; eauto.
Qed.

Lemma xblock_sound fuel store id r :
  exec_block fbody resolve call fuel store id = Done r -> xblock fbody resolve C store id r.
Proof.
  revert store id r. induction fuel as [|fuel IH]; intros store id r H; [done|]. cbn in H. done_inv.
  apply statements_sound in H1; [|exact IH].
  replace (match x0 with Falls store' => Falls (take (length store) store') | Returns v => Returns v end)
    with (leave_scope store x0) by (by destruct x0).
  eapply xblock_intro; eauto.
Qed.
End sound.

Lemma source_call_sound files fuel key vs v : source_call files fuel key vs = Done v -> src_calls files fuel key vs v.
Proof.
  revert key vs v. induction fuel as [|fuel IH]; intros key vs v H; [done|]. cbn in H. done_inv.
  destruct x1; [done|]. done_inv. eapply xblock_sound in H2; [|exact IH]. eexists _, _. eauto.
Qed.

(** ** The relations are computed by the interpreter *)

Section complete.
Context (fbody : FunctionBodySyntax) (resolve : string -> option FunctionKey).
Context (call : nat -> FunctionKey -> list Value -> Outcome Value) (C : Calls).
Context (call_complete : forall key vs v, C key vs v -> eventually (fun n => call n key vs = Done v)).
Notation evals := (evals fbody resolve C).

Lemma eval_expression_S n fuel store id :
  eval_expression fbody resolve (call n) (S fuel) store id =
    (expression ← or_stuck (get (fb_expressions fbody) id);
     values ← eval_operands (eval_expression fbody resolve (call n) fuel store) (expression_children (es_kind expression));
     match es_kind expression with
     | EReference name => or_stuck (read_var (is_text name) store)
     | ECall callee _ _ _ => key ← or_stuck (resolve (is_text callee)); call n key values
     | kind => or_stuck (apply_operator kind values)
     end).
Proof. reflexivity. Qed.

(** From some fuel on, whatever the fuels of calls, of nesting and of loops *)
Definition eventually3 (P : nat -> nat -> nat -> Prop) : Prop :=
  exists n, forall m k l, n <= m -> n <= k -> n <= l -> P m k l.
Lemma eventually3_and (P Q : nat -> nat -> nat -> Prop) :
  eventually3 P -> eventually3 Q -> eventually3 (fun m k l => P m k l /\ Q m k l).
Proof. intros [n Hn] [o Ho]. exists (Nat.max n o). intros m k l ???. split; [apply Hn|apply Ho]; lia. Qed.
Lemma eventually3_mono (P Q : nat -> nat -> nat -> Prop) :
  (forall m k l, P m k l -> Q m k l) -> eventually3 P -> eventually3 Q.
Proof. intros H [n Hn]. exists n. auto. Qed.
Lemma eventually3_S (P : nat -> nat -> nat -> Prop) :
  eventually3 (fun m k l => P m (S k) l) -> eventually3 P.
Proof. intros [n Hn]. exists (S n). intros m [|k] l ???; [lia|]. apply Hn; lia. Qed.
Lemma eventually3_S' (P : nat -> nat -> nat -> Prop) :
  eventually3 (fun m k l => P m k (S l)) -> eventually3 P.
Proof. intros [n Hn]. exists (S n). intros m k [|l] ???; [lia|]. apply Hn; lia. Qed.
Lemma eventually3_always (P : nat -> nat -> nat -> Prop) : (forall m k l, P m k l) -> eventually3 P.
Proof. intros H. exists 0. auto. Qed.

Lemma eval_complete store id v :
  evals store id v -> eventually3 (fun m k _ => eval_expression fbody resolve (call m) k store id = Done v).
Proof.
  revert id v.
  apply (evals_ind2 _ _ _ store
    (fun id v _ => eventually3 (fun m k _ => eval_expression fbody resolve (call m) k store id = Done v))
    (fun ids vs _ => eventually3 (fun m k _ => eval_operands (eval_expression fbody resolve (call m) k store) ids = Done vs))).
  - intros id e vs v Hget _ Hvs Happ. apply eventually3_S.
    assert (Hop : eventually3 (fun m _ _ =>
      (match es_kind e with
       | EReference name => or_stuck (read_var (is_text name) store)
       | ECall callee _ _ _ => key ← or_stuck (resolve (is_text callee)); call m key vs
       | kind => or_stuck (apply_operator kind vs)
       end) = Done v)).
    { destruct (es_kind e); cbn [applies] in Happ;
        try (apply eventually3_always; intros; rewrite Happ; reflexivity).
      destruct Happ as (key & Hkey & HC). apply call_complete in HC as [n Hn]. exists n. intros m _ _ Hm _ _.
      rewrite Hkey. cbn. auto. }
    eapply eventually3_mono; [|exact (eventually3_and _ _ Hvs Hop)]. intros m k l [H1 H2].
    rewrite eval_expression_S, Hget. cbn [or_stuck mbind Outcome_bind]. rewrite H1. exact H2.
  - by apply eventually3_always.
  - intros id ids v vs _ Hv _ Hvs. eapply eventually3_mono; [|exact (eventually3_and _ _ Hv Hvs)].
    intros m k l [H1 H2]. cbn. by rewrite H1, H2.
Qed.
Lemma condition_complete store id b :
  evals store id (VBool b) ->
  eventually3 (fun m k _ => eval_condition fbody resolve (call m) k store id = Done b).
Proof.
  intros H%eval_complete. eapply eventually3_mono; [|exact H]. intros m k l E. unfold eval_condition. by rewrite E.
Qed.

(** What the interpreter runs for a statement *)
Definition runs_kind (m k l : nat) (store : Store) (kind : StatementKind) (r : Completion) : Prop :=
  match kind with
  | SWhile _ _ c _ b =>
      exec_loop l (fun store => eval_condition fbody resolve (call m) k store c)
        (fun store => exec_block fbody resolve (call m) k store b) store = Done r
  | kind => forall span,
      exec_statement fbody resolve (call m) k (exec_block fbody resolve (call m) k) store (mkStatementSyntax span kind) = Done r
  end.
Lemma runs_statement m k store st r :
  runs_kind m k k store (ss_kind st) r ->
  exec_statement fbody resolve (call m) k (exec_block fbody resolve (call m) k) store st = Done r.
Proof. destruct st as [span kind]. unfold runs_kind. cbn. destruct kind; try (intros H; apply (H span)). done. Qed.

Ltac merge :=
  repeat match goal with
  | H : eventually3 ?P, H' : eventually3 ?Q |- _ => pose proof (eventually3_and _ _ H H'); clear H H'
  end.
Ltac use_all := repeat match goal with H : ?a = Done _ |- context [?a] => rewrite H; clear H; cbn end.
Ltac settle :=
  match goal with
  | H : eventually3 _ |- eventually3 _ => eapply eventually3_mono; [|exact H]; intros m k l; cbn; intros;
      repeat match goal with H : _ /\ _ |- _ => destruct H end
  end.

Lemma block_complete store id r :
  xblock fbody resolve C store id r ->
  eventually3 (fun m k _ => exec_block fbody resolve (call m) k store id = Done r).
Proof.
  apply (xblock_ind2 _ _ _
    (fun store id r _ => eventually3 (fun m k _ => exec_block fbody resolve (call m) k store id = Done r))
    (fun store ids r _ => eventually3 (fun m k _ =>
       exec_statements fbody (exec_statement fbody resolve (call m) k (exec_block fbody resolve (call m) k)) store ids = Done r))
    (fun store kind r _ => eventually3 (fun m k l => runs_kind m k l store kind r))).
  - intros st i b res Hget _ H. apply eventually3_S. settle. rewrite Hget. cbn. rewrite H0. cbn. by destruct res.
  - intros st. by apply eventually3_always.
  - intros st i s ids st' res Hget _ H1 _ H2. merge. destruct H as [n Hn]. exists n. intros m k l Hm Hk Hl.
    destruct (Hn m k k Hm Hk Hk) as [E1 E2]. cbn. rewrite Hget. cbn.
    rewrite (runs_statement _ _ _ _ _ E1). cbn. exact E2.
  - intros st i s ids v Hget _ [n Hn]. exists n. intros m k l Hm Hk Hl. cbn. rewrite Hget. cbn.
    by rewrite (runs_statement _ _ _ _ _ (Hn m k k Hm Hk Hk)).
  - intros st s1 mu name t s2 e s3 v H%eval_complete. settle. by rewrite H0.
  - intros st target s1 e s2 v st' H%eval_complete Hw. settle. rewrite H0. cbn. by rewrite Hw.
  - intros st s1 e s2 v H%eval_complete. settle. by rewrite H0.
  - intros st b res _ H. by settle.
  - intros st s1 s2 c s3 t f res Hc%condition_complete _ H. merge. settle. by rewrite H.
  - intros st s1 s2 c s3 t cl res Hc%condition_complete _ H. merge. settle. by rewrite H.
  - intros st s1 s2 c s3 t Hc%condition_complete. settle. by use_all.
  - intros st s1 s2 c s3 b Hc%condition_complete. apply eventually3_S'. settle. by use_all.
  - intros st s1 s2 c s3 b st' res Hc%condition_complete _ Hb _ Hl. apply eventually3_S'. merge. settle. by use_all.
  - intros st s1 s2 c s3 b v Hc%condition_complete _ Hb. apply eventually3_S'. merge. settle. by use_all.
Qed.
End complete.

Lemma src_calls_complete files depth key vs v :
  src_calls files depth key vs v -> eventually (fun n => source_call files n key vs = Done v).
Proof.
  revert key vs v. induction depth as [|depth IH]; intros key vs v H; [done|].
  destruct H as (function & store & Hf & Hs & Hx). apply eventually_S.
  destruct (block_complete _ _ (source_call files) _ IH _ _ _ Hx) as [n Hn]. exists n. intros m Hm. cbn.
  rewrite Hf. cbn. rewrite Hs. cbn. by rewrite (Hn m m m).
Qed.

(** The interpreter returns a value for some fuel exactly when the call is
    derivable at some depth. *)
Lemma source_call_iff files key vs v :
  (exists fuel, source_call files fuel key vs = Done v) <-> exists depth, src_calls files depth key vs v.
Proof.
  split; [intros [n H]; exists n; by apply source_call_sound|].
  intros [d H]. destruct (src_calls_complete _ _ _ _ _ H) as [n Hn]. exists n. by apply Hn.
Qed.
