(* ===== verification/CfgSteps.v ===== *)
(** * Big-step relation of drafted control-flow graphs

    The meaning of a block list as a relation over an abstract relation of
    calls.  Block arguments are assigned without checks, so that the relation
    is defined on drafts that no verifier has seen; on verified programs it
    agrees with the interpreter of [ControlFlowExec]. *)
From stdpp Require Import base numbers list strings gmap.
From S2P Require Import Prelude Source CfgAlgorithms ControlFlow ControlFlowSpec VerifySound ControlFlowExec.
From S2P Require Import SemValues SourceRelation.

(** ** Steps *)

Definition instruction_value (C : Calls) (env : Env) (kind : InstructionKind) (v : Value) : Prop :=
  match kind with
  | DirectCall callee arguments =>
      exists vs, mapM (fun a => env !! a) arguments = Some vs /\ C (callee_key callee) vs v
  | kind => eval_kind (fun _ _ => Stuck) env kind = Done v
  end.

(** Parallel assignment of arguments, read in [old], to parameters *)
Fixpoint assign (old env : Env) (ds : list ValueDefinition) (arguments : list ValueId) : Env :=
  match ds, arguments with
  | d :: ds, a :: arguments =>
      assign old (match old !! a with Some v => <[vd_id d := v]> env | None => env end) ds arguments
  | _, _ => env
  end.

(** The environment in which a jump enters its target *)
Definition enter (blocks : list Block) (env : Env) (target : BlockId) (arguments : list ValueId) : Env :=
  match get blocks target with Some B => assign env env (b_parameters B) arguments | None => env end.

(** From position [p] of block [b] the graph returns [w] after [k] jumps. *)
Inductive steps (C : Calls) (blocks : list Block) : nat -> nat -> nat -> Env -> Value -> Prop :=
  | st_instruction k b p env B i v w :
      blocks !! b = Some B -> b_instructions B !! p = Some i ->
      instruction_value C env (in_kind i) v ->
      steps C blocks k b (S p) (<[vd_id (in_result i) := v]> env) w -> steps C blocks k b p env w
  | st_return k b env B t x w :
      blocks !! b = Some B -> head (b_terminators B) = Some t -> tm_kind t = Return x -> env !! x = Some w ->
      steps C blocks k b (length (b_instructions B)) env w
  | st_jump k b env B t target arguments w :
      blocks !! b = Some B -> head (b_terminators B) = Some t -> tm_kind t = Jump target arguments ->
      steps C blocks k (N.to_nat target) 0 (enter blocks env target arguments) w ->
      steps C blocks (S k) b (length (b_instructions B)) env w
  | st_branch k b env B t x c t1 a1 t2 a2 w :
      blocks !! b = Some B -> head (b_terminators B) = Some t -> tm_kind t = Branch x t1 a1 t2 a2 ->
      env !! x = Some (VBool c) ->
      steps C blocks k (N.to_nat (if c then t1 else t2)) 0 (enter blocks env (if c then t1 else t2) (if c then a1 else a2)) w ->
      steps C blocks (S k) b (length (b_instructions B)) env w.

Definition ir_body (functions : FunctionKey -> option Function_) (C : Calls) : Calls := fun key vs w =>
  exists function env k, functions key = Some function /\ bind_parameters ∅ (f_parameters function) vs = Done env /\
    steps C (f_blocks function) k 0 0 env w.
Fixpoint ir_calls (functions : FunctionKey -> option Function_) (depth : nat) : Calls :=
  match depth with O => fun _ _ _ => False | S depth => ir_body functions (ir_calls functions depth) end.

(** ** Inversion *)

Section inversion.
Context (C : Calls) (blocks : list Block).

Lemma steps_instruction k b p env B i w :
  blocks !! b = Some B -> b_instructions B !! p = Some i ->
  steps C blocks k b p env w <->
  exists v, instruction_value C env (in_kind i) v /\ steps C blocks k b (S p) (<[vd_id (in_result i) := v]> env) w.
Proof.
  intros HB Hi. split; [|intros (v & Hv & H); by eapply st_instruction].
  intros H. inversion H; simplify_eq; eauto; apply lookup_lt_Some in Hi; lia.
Qed.

Ltac same_kind :=
  match goal with H : tm_kind ?t = _, E : tm_kind ?t = _ |- _ => rewrite H in E; simplify_eq; eauto 6 end.
Section terminator.
Context (b : nat) (B : Block) (t : SpannedTerminator) (HB : blocks !! b = Some B).
Context (Ht : head (b_terminators B) = Some t).
Notation at_end k env w := (steps C blocks k b (length (b_instructions B)) env w).

Lemma end_instruction i : b_instructions B !! length (b_instructions B) = Some i -> False.
Proof. intros H%lookup_lt_Some. lia. Qed.
Lemma steps_return k env x w : tm_kind t = Return x -> at_end k env w <-> env !! x = Some w.
Proof.
  intros E. split; [|intros; by eapply st_return].
  intros H. inversion H; simplify_eq; [exfalso; eapply end_instruction; eassumption|same_kind..].
Qed.
Lemma steps_jump k env target arguments w :
  tm_kind t = Jump target arguments ->
  at_end k env w <-> exists k', k = S k' /\ steps C blocks k' (N.to_nat target) 0 (enter blocks env target arguments) w.
Proof.
  intros E. split; [|intros (k' & -> & H); by eapply st_jump].
  intros H. inversion H; simplify_eq; [exfalso; eapply end_instruction; eassumption|same_kind..].
Qed.
Lemma steps_branch k env x t1 a1 t2 a2 w :
  tm_kind t = Branch x t1 a1 t2 a2 ->
  at_end k env w <-> exists k' (c : bool), k = S k' /\ env !! x = Some (VBool c) /\
    steps C blocks k' (N.to_nat (if c then t1 else t2)) 0
      (enter blocks env (if c then t1 else t2) (if c then a1 else a2)) w.
Proof.
  intros E. split; [|intros (k' & c & -> & Hc & H); by eapply st_branch].
  intros H. inversion H; simplify_eq; [exfalso; eapply end_instruction; eassumption|same_kind..].
Qed.
End terminator.

Context (C_fun : forall key vs v v', C key vs v -> C key vs v' -> v = v').
Lemma instruction_value_fun env kind v v' :
  instruction_value C env kind v -> instruction_value C env kind v' -> v = v'.
Proof.
  destruct kind; unfold instruction_value; try congruence. intros (vs & E & H) (vs' & E' & H').
  simplify_eq. by eapply C_fun.
Qed.
Lemma steps_fun k b p env w k' w' : steps C blocks k b p env w -> steps C blocks k' b p env w' -> w = w'.
Proof.
  intros H. revert k' w'. induction H as [k b p env B i v w HB Hi Hv H IH|k b env B t x w HB Ht Hk Hx
    |k b env B t target args w HB Ht Hk H IH|k b env B t x c t1 a1 t2 a2 w HB Ht Hk Hx H IH]; intros k' w' H'.
  - rewrite steps_instruction in H' by done. destruct H' as (v' & Hv' & H').
    rewrite <- (instruction_value_fun _ _ _ _ Hv Hv') in H'. eauto.
  - rewrite steps_return in H' by done. congruence.
  - rewrite steps_jump in H' by done. destruct H' as (? & _ & H'). eauto.
  - rewrite steps_branch in H' by done. destruct H' as (? & c' & _ & Hc & H'). replace c' with c in H' by congruence. eauto.
Qed.
End inversion.

Lemma ir_calls_fun functions depth key vs v v' :
  ir_calls functions depth key vs v -> ir_calls functions depth key vs v' -> v = v'.
Proof.
  revert key vs v v'. induction depth as [|depth IH]; intros key vs v v'; [done|].
  intros (f & env & k & Hf & He & H) (f' & env' & k' & Hf' & He' & H'). simplify_eq. rewrite He in He'.
  injection He' as <-. eapply steps_fun; [exact IH|exact H|exact H'].
Qed.

(** ** Monotonicity in the calls *)

Lemma steps_mono (C C' : Calls) blocks k b p env w :
  (forall key vs v, C key vs v -> C' key vs v) -> steps C blocks k b p env w -> steps C' blocks k b p env w.
Proof.
  intros HC. induction 1; [|by eapply st_return|by eapply st_jump|by eapply st_branch].
  eapply st_instruction; [done..| |done]. destruct (in_kind i); cbn in *; try done. destruct H1 as (? & ? & ?). eauto.
Qed.
Lemma ir_calls_S functions depth key vs v : ir_calls functions depth key vs v -> ir_calls functions (S depth) key vs v.
Proof.
  revert key vs v. induction depth as [|depth IH]; intros key vs v; [done|].
  intros (f & env & k & Hf & He & H). exists f, env, k. split_and!; [done..|]. eapply steps_mono; [exact IH|done].
Qed.

(** ** Agreement with the interpreter *)

Lemma assign_bind old ds arguments env vs env' :
  mapM (fun v => old !! v) arguments = Some vs -> bind_parameters env ds vs = Done env' ->
  env' = assign old env ds arguments.
Proof.
  revert env arguments vs. induction ds as [|d ds IH]; intros env [|a arguments] vs Ha Hb; cbn in Ha.
  - injection Ha as <-. cbn in *. by injection Hb as <-.
  - destruct (old !! a); [|done]. cbn in Ha. destruct (mapM _ _); [|done]. by injection Ha as <-.
  - by injection Ha as <-.
  - cbn. destruct (old !! a) as [v|]; [|done]. cbn in Ha. destruct (mapM _ _) eqn:E; [|done]. injection Ha as <-.
    cbn in Hb. destruct (decide _); [|done]. eauto.
Qed.

Section agreement.
Context (program : Program_).
Notation functions := (program_function program).

(** The interpreter from a position of a block on *)
Definition strict_call (n : nat) (key : FunctionKey) (vs : list Value) : Outcome Value :=
  callee ← or_stuck (functions key); env ← bind_parameters ∅ (f_parameters callee) vs; run n program callee 0 env.
Definition strict_goto (n : nat) (f : Function_) (env : Env) (target : BlockId) (arguments : list ValueId)
    : Outcome Value :=
  values ← or_stuck (mapM (fun v => env !! v) arguments);
  block ← or_stuck (get (f_blocks f) target);
  env ← bind_parameters env (b_parameters block) values;
  run n program f (N.to_nat target) env.
Definition strict_end (n : nat) (f : Function_) (env : Env) (block : Block) : Outcome Value :=
  match b_terminators block with
  | [t] =>
      match tm_kind t with
      | Return v =>
          value ← or_stuck (env !! v);
          if decide (value_ty value = f_result f) then mret value else Stuck
      | Jump target arguments => strict_goto n f env target arguments
      | Branch condition t1 a1 t2 a2 =>
          c ← read_bool env condition;
          if (c : bool) then strict_goto n f env t1 a1 else strict_goto n f env t2 a2
      end
  | _ => Stuck
  end.
Definition strict (n : nat) (f : Function_) (b p : nat) (env : Env) : Outcome Value :=
  block ← or_stuck (f_blocks f !! b);
  env ← run_instructions (strict_call n) env (drop p (b_instructions block));
  strict_end n f env block.
Lemma run_strict n f b env : run (S n) program f b env = strict n f b 0 env.
Proof. reflexivity. Qed.

Lemma eval_value (call : FunctionKey -> list Value -> Outcome Value) (C : Calls) env kind v :
  (forall key vs v, call key vs = Done v -> C key vs v) ->
  eval_kind call env kind = Done v -> instruction_value C env kind v.
Proof. intros HC. destruct kind; cbn [instruction_value]; try done. cbn. intros H. done_inv. eauto. Qed.

Lemma goto_enter n f env target arguments v :
  strict_goto n f env target arguments = Done v ->
  run n program f (N.to_nat target) (enter (f_blocks f) env target arguments) = Done v.
Proof.
  unfold strict_goto, enter. intros H. done_inv. rewrite H1.
  by rewrite (assign_bind _ _ _ _ _ _ H0 H2) in H.
Qed.

Lemma strict_steps (C : Calls) n f b p env v :
  (forall key vs v, strict_call n key vs = Done v -> C key vs v) ->
  (forall b env v, run n program f b env = Done v -> exists k, steps C (f_blocks f) k b 0 env v) ->
  strict n f b p env = Done v -> (forall B, f_blocks f !! b = Some B -> p <= length (b_instructions B)) ->
  exists k, steps C (f_blocks f) k b p env v.
Proof.
  intros Hcall Hrun H Hp. unfold strict in H. done_inv. rename x into B, x0 into env', H0 into HB.
  specialize (Hp _ HB). remember (drop p (b_instructions B)) as rest eqn:Hrest.
  revert p env Hp Hrest H1. induction rest as [|i rest IH]; intros p env Hp Hrest H1; cbn in H1; done_inv.
  - assert (p = length (b_instructions B)) as ->.
    { apply (f_equal length) in Hrest. rewrite length_drop in Hrest. cbn in Hrest. lia. }
    unfold strict_end in H. destruct (b_terminators B) as [|t [|]] eqn:Et; [done| |done].
    assert (Hh : head (b_terminators B) = Some t) by by rewrite Et.
    destruct (tm_kind t) as [x|target args|x t1 a1 t2 a2] eqn:Ek.
    + done_inv. destruct (decide _); [|done]. done_inv. exists 0. by eapply st_return.
    + apply goto_enter, Hrun in H as [k Hk]. exists (S k). by eapply st_jump.
    + done_inv. unfold read_bool in H0. destruct (env !! x) as [[c|]|] eqn:Ex; simplify_eq.
      assert (exists k, steps C (f_blocks f) k (N.to_nat (if x0 then t1 else t2)) 0
        (enter (f_blocks f) env (if x0 then t1 else t2) (if x0 then a1 else a2)) v) as [k Hk].
      { destruct x0; by apply Hrun, goto_enter. }
      exists (S k). by eapply st_branch.
  - assert (Hi : b_instructions B !! p = Some i).
    { rewrite <- (Nat.add_0_r p), <- lookup_drop, <- Hrest. done. }
    destruct (IH (S p) (<[vd_id (in_result i) := x]> env)) as [k Hk]; [by apply lookup_lt_Some in Hi| |done|].
    { rewrite (drop_S _ i p Hi) in Hrest. by injection Hrest. }
    exists k. eapply st_instruction; [done..|by eapply eval_value|done].
Qed.

Lemma ir_calls_le d d' key vs v : d <= d' -> ir_calls functions d key vs v -> ir_calls functions d' key vs v.
Proof. induction 1; [done|]. intros. apply ir_calls_S. auto. Qed.

Lemma run_steps n f b env v :
  run n program f b env = Done v -> exists k, steps (ir_calls functions n) (f_blocks f) k b 0 env v.
Proof.
  revert f b env v. induction n as [|n IH]; intros f b env v H; [done|]. rewrite run_strict in H.
  apply (strict_steps (ir_calls functions (S n))) in H; [done| | |lia].
  - intros key vs w Hc. unfold strict_call in Hc. done_inv. destruct (IH _ _ _ _ Hc) as [k Hk].
    eexists _, _, k. eauto.
  - intros b' env' w Hr. destruct (IH _ _ _ _ Hr) as [k Hk]. exists k. eapply steps_mono; [|exact Hk].
    intros. by apply ir_calls_S.
Qed.
Lemma call_function_steps n key vs v : call_function n program key vs = Done v -> ir_calls functions (S n) key vs v.
Proof. unfold call_function. intros H. done_inv. destruct (run_steps _ _ _ _ _ H) as [k Hk]. eexists _, _, k. eauto. Qed.

(** Steps are strict runs, unless those get stuck. *)
Definition fits (v : Value) (o : Outcome Value) : Prop := o = Done v \/ o = Stuck.
Lemma fits_bind {A} (m : Outcome A) (f : A -> Outcome Value) a v :
  m = Done a \/ m = Stuck -> fits v (f a) -> fits v (m ≫= f).
Proof. by intros [-> | ->] H; [|right]. Qed.
Lemma or_stuck_fits {A} (o : option A) : or_stuck o = Stuck \/ exists a, o = Some a /\ or_stuck o = Done a.
Proof. destruct o; [right|left]; eauto. Qed.

Lemma bind_or_stuck env ds vs : bind_parameters env ds vs = Stuck \/ exists env', bind_parameters env ds vs = Done env'.
Proof.
  revert env vs. induction ds as [|d ds IH]; intros env [|v vs]; cbn; eauto. destruct (decide _); eauto.
Qed.
Lemma enter_fits n f env target arguments v :
  fits v (run n program f (N.to_nat target) (enter (f_blocks f) env target arguments)) ->
  fits v (strict_goto n f env target arguments).
Proof.
  intros H. unfold strict_goto, enter in *.
  destruct (or_stuck_fits (mapM (fun v => env !! v) arguments)) as [->|(vs & Hvs & ->)]; [by right|]. cbn.
  destruct (get (f_blocks f) target) as [B|]; [|by right]. cbn.
  destruct (bind_or_stuck env (b_parameters B) vs) as [->|[env' E]]; [by right|]. rewrite E. cbn.
  by rewrite (assign_bind _ _ _ _ _ _ Hvs E).
Qed.

Section converse.
Context (C : Calls) (C_fits : forall key vs v, C key vs v -> eventually (fun n => fits v (strict_call n key vs))).

Lemma value_fits env kind v :
  instruction_value C env kind v -> eventually (fun n => fits v (eval_kind (strict_call n) env kind)).
Proof.
  destruct kind; cbn [instruction_value]; try (intros H; apply eventually_always; intros n; left; exact H).
  intros (vs & Hvs & H). eapply eventually_mono; [|exact (C_fits _ _ _ H)]. intros n Hn. cbn. by rewrite Hvs.
Qed.

Lemma steps_fits f k b p env v :
  steps C (f_blocks f) k b p env v -> eventually (fun n => fits v (strict n f b p env)).
Proof.
  assert (Hrun : forall b env v, eventually (fun n => fits v (strict n f b 0 env)) ->
    eventually (fun n => fits v (run n program f b env))).
  { intros b' env' w H. apply eventually_S. eapply eventually_mono; [|exact H]. intros n. by rewrite run_strict. }
  induction 1 as [k b p env B i x w HB Hi Hx _ IH|k b env B t x w HB Ht Hk Hx
    |k b env B t target args w HB Ht Hk _ IH|k b env B t x c t1 a1 t2 a2 w HB Ht Hk Hx _ IH].
  - eapply eventually_mono; [|exact (eventually_and _ _ (value_fits _ _ _ Hx) IH)]. intros n [H1 H2].
    unfold strict in *. rewrite HB in *. cbn [or_stuck mbind Outcome_bind] in *. rewrite (drop_S _ i p Hi).
    cbn [run_instructions]. by destruct H1 as [-> | ->]; [|right].
  - apply eventually_always. intros n. unfold strict. rewrite HB. cbn. rewrite drop_all. cbn. unfold strict_end.
    destruct (b_terminators B) as [|t' [|]]; [done| |by right]. cbn in Ht. injection Ht as ->. rewrite Hk, Hx. cbn.
    by destruct (decide _); [left|right].
  - eapply eventually_mono; [|exact (Hrun _ _ _ IH)]. intros n Hn. unfold strict. rewrite HB. cbn. rewrite drop_all. cbn.
    unfold strict_end. destruct (b_terminators B) as [|t' [|]]; [done| |by right]. cbn in Ht. injection Ht as ->.
    rewrite Hk. by apply enter_fits.
  - eapply eventually_mono; [|exact (Hrun _ _ _ IH)]. intros n Hn. unfold strict. rewrite HB. cbn. rewrite drop_all. cbn.
    unfold strict_end. destruct (b_terminators B) as [|t' [|]]; [done| |by right]. cbn in Ht. injection Ht as ->.
    rewrite Hk. unfold read_bool. rewrite Hx. cbn. destruct c; by apply enter_fits.
Qed.
End converse.

Lemma ir_calls_fits depth key vs v :
  ir_calls functions depth key vs v -> eventually (fun n => fits v (strict_call n key vs)).
Proof.
  revert key vs v. induction depth as [|depth IH]; intros key vs v H; [done|].
  destruct H as (f & env & k & Hf & He & H). apply (steps_fits _ IH) in H as [n Hn]. exists (S n). intros [|m] Hm; [lia|].
  unfold strict_call. rewrite Hf. cbn [or_stuck mbind Outcome_bind]. rewrite He. cbn [mbind Outcome_bind].
  rewrite run_strict. apply Hn. lia.
Qed.

Lemma call_iff_steps key vs v :
  (forall fuel, call_function fuel program key vs <> Stuck) ->
  (exists fuel, call_function fuel program key vs = Done v) <-> exists depth, ir_calls functions depth key vs v.
Proof.
  intros Hsafe. split; [intros [n H]; exists (S n); by apply call_function_steps|].
  intros [d H]. destruct (ir_calls_fits _ _ _ _ H) as [n Hn]. exists n. destruct (Hn n (le_n _)) as [E|E]; [exact E|].
  by destruct (Hsafe n).
Qed.
End agreement.

(** * Renaming the values of a control-flow graph

    Two block lists that differ by a partial renaming of their values return the
    same values: an operand is renamed, a definition clashes with no renamed
    value but its own, and the arguments of corresponding jumps give related
    environments. *)

Section rename.
Context (ren : ValueId -> option ValueId).

Definition env_rel (e e' : Env) : Prop := forall x x', ren x = Some x' -> e !! x = e' !! x'.
(** A definition and its renaming *)
Definition def_rel (id id' : ValueId) : Prop := forall x x', ren x = Some x' -> x = id <-> x' = id'.

Lemma env_rel_insert id id' v e e' : def_rel id id' -> env_rel e e' -> env_rel (<[id := v]> e) (<[id' := v]> e').
Proof.
  intros Hd He x x' Hx. specialize (Hd x x' Hx). destruct (decide (x = id)) as [->|Hne].
  - assert (x' = id') as -> by by apply Hd. by rewrite !lookup_insert_eq.
  - assert (x' <> id') by (intros E; by apply Hne, Hd). rewrite !lookup_insert_ne by congruence. by apply He.
Qed.
Lemma env_rel_all e e' args args' :
  env_rel e e' -> mapM ren args = Some args' -> mapM (fun a => e !! a) args = mapM (fun a => e' !! a) args'.
Proof.
  intros He. revert args'. induction args as [|a args IH]; intros args' H; cbn in H; [by injection H as <-|].
  destruct (ren a) as [a'|] eqn:Ea; [|done]. cbn in H. destruct (mapM ren args) as [r|]; [|done]. injection H as <-. specialize (IH _ eq_refl).
  cbn. rewrite (He _ _ Ea). destruct (e' !! a'); [|done]. cbn. by rewrite IH.
Qed.

Lemma instruction_value_rel C e e' kind kind' v :
  env_rel e e' -> rewrite_instruction_operands ren kind = Some kind' ->
  instruction_value C e kind v <-> instruction_value C e' kind' v.
Proof.
  intros He H. destruct kind; cbn in H; try (injection H as <-; reflexivity);
    try (destruct (ren operand) eqn:E; [|discriminate H]; cbn in H; injection H as <-;
         cbn [instruction_value eval_kind]; unfold read_i32; rewrite (He _ _ E); reflexivity);
    try (destruct (ren lhs) eqn:E; [|discriminate H]; cbn in H; destruct (ren rhs) eqn:E2; [|discriminate H]; cbn in H;
         injection H as <-; cbn [instruction_value eval_kind]; unfold binary, read_i32;
         rewrite (He _ _ E), (He _ _ E2); reflexivity).
  destruct (mapM ren arguments) eqn:Em; [|discriminate H]. cbn in H. injection H as <-. cbn [instruction_value].
  by rewrite (env_rel_all _ _ _ _ He Em).
Qed.

(** ** Related blocks *)

Definition instruction_rel (i i' : Instruction) : Prop :=
  rewrite_instruction_operands ren (in_kind i) = Some (in_kind i') /\ def_rel (vd_id (in_result i)) (vd_id (in_result i')).

Section blocks.
Context (blocks blocks' : list Block).

Definition edge_rel (target : BlockId) (args args' : list ValueId) : Prop :=
  forall e e', env_rel e e' -> env_rel (enter blocks e target args) (enter blocks' e' target args').
Definition terminator_rel (t t' : Terminator) : Prop :=
  match t, t' with
  | Return x, Return x' => ren x = Some x'
  | Jump target args, Jump target' args' => target' = target /\ edge_rel target args args'
  | Branch x t1 a1 t2 a2, Branch x' t1' a1' t2' a2' =>
      ren x = Some x' /\ (t1' = t1 /\ edge_rel t1 a1 a1') /\ (t2' = t2 /\ edge_rel t2 a2 a2')
  | _, _ => False
  end.
Definition block_rel (B B' : Block) : Prop :=
  Forall2 instruction_rel (b_instructions B) (b_instructions B') /\
  option_Forall2 (fun t t' => terminator_rel (tm_kind t) (tm_kind t')) (head (b_terminators B)) (head (b_terminators B')).

Context (blocks_rel : Forall2 block_rel blocks blocks').

Lemma steps_rename C k b p e e' w : env_rel e e' -> steps C blocks k b p e w -> steps C blocks' k b p e' w.
Proof.
  intros He H. revert e' He. induction H as [k b p e B i v w HB Hi Hv _ IH|k b e B t x w HB Ht Hk Hx
    |k b e B t target args w HB Ht Hk _ IH|k b e B t x c t1 a1 t2 a2 w HB Ht Hk Hx _ IH]; intros e' He;
    destruct (Forall2_lookup_l _ _ _ _ _ blocks_rel HB) as (B' & HB' & Hins & Hterm).
  - destruct (Forall2_lookup_l _ _ _ _ _ Hins Hi) as (i' & Hi' & Hr & Hd).
    eapply st_instruction; [done..| |]; [by apply (instruction_value_rel C e e' _ _ v He Hr)|]. apply IH. by apply env_rel_insert.
  - rewrite (Forall2_length _ _ _ Hins). rewrite Ht in Hterm. inversion Hterm as [? t' Hr Et1 Et2|]; subst.
    rewrite Hk in Hr. destruct (tm_kind t') as [x'| |] eqn:Hk'; [|done..]. eapply st_return; [done..|].
    by rewrite <- (He _ _ Hr).
  - rewrite (Forall2_length _ _ _ Hins). rewrite Ht in Hterm. inversion Hterm as [? t' Hr Et1 Et2|]; subst.
    rewrite Hk in Hr. destruct (tm_kind t') as [|target' args'|] eqn:Hk'; [done| |done].
    destruct Hr as [-> Hr]. eapply st_jump; [done..|]. by apply IH, Hr.
  - rewrite (Forall2_length _ _ _ Hins). rewrite Ht in Hterm. inversion Hterm as [? t' Hr Et1 Et2|]; subst.
    rewrite Hk in Hr. destruct (tm_kind t') as [| |x' t1' a1' t2' a2'] eqn:Hk'; [done..|].
    destruct Hr as (Hr & [-> H1] & -> & H2). eapply (st_branch _ _ _ _ _ _ _ _ c); [done..| |].
    + by rewrite <- (He _ _ Hr).
    + apply IH. destruct c; [by apply H1|by apply H2].
Qed.
Lemma steps_rename_back C k b p e e' w : env_rel e e' -> steps C blocks' k b p e' w -> steps C blocks k b p e w.
Proof.
  intros He H. revert e He. induction H as [k b p e' B' i' v w HB Hi Hv _ IH|k b e' B' t' x' w HB Ht Hk Hx
    |k b e' B' t' target args' w HB Ht Hk _ IH|k b e' B' t' x' c t1 a1 t2 a2 w HB Ht Hk Hx _ IH]; intros e He;
    destruct (Forall2_lookup_r _ _ _ _ _ blocks_rel HB) as (B & HB' & Hins & Hterm).
  - destruct (Forall2_lookup_r _ _ _ _ _ Hins Hi) as (i & Hi' & Hr & Hd).
    eapply st_instruction; [done..| |]; [by apply (instruction_value_rel C e e' _ _ v He Hr)|]. apply IH. by apply env_rel_insert.
  - rewrite <- (Forall2_length _ _ _ Hins). rewrite Ht in Hterm. inversion Hterm as [t ? Hr Et1 Et2|]; subst.
    rewrite Hk in Hr. destruct (tm_kind t) as [x| |] eqn:Hk'; [|done..]. eapply st_return; [done..|].
    by rewrite (He _ _ Hr).
  - rewrite <- (Forall2_length _ _ _ Hins). rewrite Ht in Hterm. inversion Hterm as [t ? Hr Et1 Et2|]; subst.
    rewrite Hk in Hr. destruct (tm_kind t) as [|target' args|] eqn:Hk'; [done| |done].
    destruct Hr as [-> Hr]. eapply st_jump; [done..|]. by apply IH, Hr.
  - rewrite <- (Forall2_length _ _ _ Hins). rewrite Ht in Hterm. inversion Hterm as [t ? Hr Et1 Et2|]; subst.
    rewrite Hk in Hr. destruct (tm_kind t) as [| |x t1' a1' t2' a2'] eqn:Hk'; [done..|].
    destruct Hr as (Hr & [-> H1] & -> & H2). eapply (st_branch _ _ _ _ _ _ _ _ c); [done..| |].
    + by rewrite (He _ _ Hr).
    + apply IH. destruct c; [by apply H1|by apply H2].
Qed.
Lemma steps_rename_iff C k b p e e' w : env_rel e e' -> steps C blocks k b p e w <-> steps C blocks' k b p e' w.
Proof. intros He. split; [by apply steps_rename|by apply steps_rename_back]. Qed.
End blocks.
End rename.
