(* ===== verification/SemPrune.v ===== *)
(** * Dead block parameters can be removed

    The marking of [prune_dead_block_parameters] ends in a set of live values
    that contains every use and, with a parameter, its arguments; removing the
    other parameters and their arguments does not change what a graph returns. *)
From stdpp Require Import base numbers list list_numbers strings gmap.
From S2P Require Import Prelude Source ControlFlow ControlFlowSpec ControlFlowExec Semantics SemValues.
From S2P Require Import SourceRelation CfgSteps.

(** ** Marking *)

(** [live] marks at least what [live0] marks. *)
Definition marks (live0 live : list bool) : Prop :=
  length live = length live0 /\ forall x, get live0 x = Some true -> get live x = Some true.
#[export] Instance marks_preorder : PreOrder marks.
Proof. split; [by intros l|]. intros a b c [L1 H1] [L2 H2]. split; [congruence|auto]. Qed.
Definition dead (live : list bool) (x : ValueId) : Prop := get live x = Some false.
#[export] Instance dead_dec live x : Decision (dead live x).
Proof. unfold dead. apply _. Defined.

Lemma mark_live_spec live x :
  marks live (mark_live live x).1 /\ ~ dead (mark_live live x).1 x /\
  ((mark_live live x).2 = false -> (mark_live live x).1 = live).
Proof.
  unfold mark_live, dead, marks, get. destruct (live !! N.to_nat x) as [slot|] eqn:E; cbn.
  - split_and!; [by rewrite length_insert|..].
    + intros y Hy. destruct (decide (N.to_nat y = N.to_nat x)) as [->|Hne].
      * apply list_lookup_insert_eq. by apply lookup_lt_Some in E.
      * by rewrite list_lookup_insert_ne.
    + rewrite list_lookup_insert_eq by by apply lookup_lt_Some in E. done.
    + intros Hs. apply list_insert_id. destruct slot; [done|done].
  - split_and!; [done|done|by rewrite E|done].
Qed.
Lemma marks_not_dead live live' x : marks live live' -> ~ dead live x -> ~ dead live' x.
Proof.
  unfold dead, get. intros [Hl H] Hx Hd. destruct (live !! N.to_nat x) as [[]|] eqn:E.
  - specialize (H x E). unfold get in H. congruence.
  - by apply Hx.
  - apply lookup_ge_None in E. apply lookup_lt_Some in Hd. lia.
Qed.

Lemma mark_all_spec live xs :
  marks live (mark_all live xs) /\ forall x, x ∈ xs -> ~ dead (mark_all live xs) x.
Proof.
  revert live. induction xs as [|y xs IH]; intros live; cbn; [split; [done|by intros x ?%elem_of_nil]|].
  destruct (mark_live_spec live y) as (H1 & H2 & _). destruct (IH (mark_live live y).1) as [H3 H4].
  split; [by etrans|]. intros x [->|Hx]%elem_of_cons; [by eapply marks_not_dead|auto].
Qed.

(** ** Propagation *)

(** Live parameters have live arguments. *)
Definition settled_pair (live : list bool) (p : ValueDefinition * ValueId) : Prop :=
  get live (vd_id p.1) = Some true -> ~ dead live p.2.
Definition edge_pairs (blocks : list Block) (edge : BlockId * list ValueId) : list (ValueDefinition * ValueId) :=
  match get blocks edge.1 with Some T => zip (b_parameters T) edge.2 | None => [] end.

Lemma propagate_arguments_spec pairs live changed :
  marks live (propagate_arguments pairs live changed).1 /\
  ((propagate_arguments pairs live changed).2 = false ->
   changed = false /\ (propagate_arguments pairs live changed).1 = live /\ Forall (settled_pair live) pairs).
Proof.
  revert live changed. induction pairs as [|[d a] pairs IH]; intros live changed; cbn; [done|].
  destruct (get live (vd_id d)) as [[]|] eqn:E; cbn.
  - destruct (mark_live_spec live a) as (H1 & H2 & H3). destruct (mark_live live a) as [live1 marked]. cbn in *.
    destruct (IH live1 (changed || marked)) as [H4 H5]. split; [by etrans|]. intros Hc.
    destruct (H5 Hc) as ([-> ->]%orb_false_iff & H6 & H7). rewrite (H3 eq_refl) in *. split_and!; [done..|].
    constructor; [|done]. by intros _.
  - destruct (IH live changed) as [H4 H5]. split; [done|]. intros Hc. destruct (H5 Hc) as (-> & H6 & H7).
    split_and!; [done..|]. constructor; [|done]. unfold settled_pair. cbn. congruence.
  - destruct (IH live changed) as [H4 H5]. split; [done|]. intros Hc. destruct (H5 Hc) as (-> & H6 & H7).
    split_and!; [done..|]. constructor; [|done]. unfold settled_pair. cbn. congruence.
Qed.

Lemma propagate_edges_spec blocks edges acc :
  marks acc.1 (foldl (propagate_edge blocks) acc edges).1 /\
  ((foldl (propagate_edge blocks) acc edges).2 = false ->
   acc.2 = false /\ (foldl (propagate_edge blocks) acc edges).1 = acc.1 /\
   Forall (fun edge => Forall (settled_pair acc.1) (edge_pairs blocks edge)) edges).
Proof.
  revert acc. induction edges as [|edge edges IH]; intros acc; cbn; [done|].
  destruct (IH (propagate_edge blocks acc edge)) as [H1 H2].
  assert (Hstep : marks acc.1 (propagate_edge blocks acc edge).1 /\
    ((propagate_edge blocks acc edge).2 = false ->
     acc.2 = false /\ (propagate_edge blocks acc edge).1 = acc.1 /\ Forall (settled_pair acc.1) (edge_pairs blocks edge))).
  { unfold propagate_edge, edge_pairs. destruct (get blocks edge.1); [apply propagate_arguments_spec|].
    split; [done|]. intros. split_and!; done. }
  destruct Hstep as [H3 H4]. split; [by etrans|]. intros Hc. destruct (H2 Hc) as (H5 & H6 & H7).
  destruct (H4 H5) as (H8 & H9 & H10). rewrite H9 in *. split_and!; [done..|]. by constructor.
Qed.

Lemma propagate_loop_spec fuel blocks live0 live :
  propagate_loop fuel blocks live0 = Some live ->
  marks live0 live /\ Forall (fun edge => Forall (settled_pair live) (edge_pairs blocks edge)) (blocks ≫= block_edges).
Proof.
  revert live0. induction fuel as [|fuel IH]; intros live0 H; cbn in H; [done|].
  pose proof (propagate_edges_spec blocks (blocks ≫= block_edges) (live0, false)) as [H1 H2].
  unfold propagate_pass in H. destruct (foldl _ _ _) as [live1 changed]. cbn in *. destruct changed.
  - destruct (IH _ H) as [H3 H4]. split; [by etrans|done].
  - injection H as <-. destruct (H2 eq_refl) as (_ & -> & H3). done.
Qed.

Lemma id_bound_spec ids id : id ∈ ids -> N.to_nat id < id_bound ids.
Proof.
  unfold id_bound. induction ids as [|x ids IH]; cbn [foldr]; [by intros ?%elem_of_nil|].
  intros [->|H]%elem_of_cons; [lia|]. specialize (IH H). lia.
Qed.

(** What is known of the final marks *)
Record live_ok (blocks : list Block) (live : list bool) : Prop := {
  lv_uses : forall B x, B ∈ blocks -> x ∈ block_uses B -> ~ dead live x;
  lv_edges : forall B edge pair, B ∈ blocks -> edge ∈ block_edges B -> pair ∈ edge_pairs blocks edge -> settled_pair live pair;
  lv_defined : forall B d, B ∈ blocks -> d ∈ b_parameters B -> is_Some (get live (vd_id d)) }.

Lemma live_values_ok blocks live : live_values blocks = Some live -> live_ok blocks live.
Proof.
  unfold live_values. intros [H1 H2]%propagate_loop_spec.
  destruct (mark_all_spec (replicate (id_bound (blocks ≫= block_ids)) false) (blocks ≫= block_uses)) as [H3 H4].
  split.
  - intros B x HB Hx. eapply marks_not_dead; [exact H1|]. apply H4. apply list_elem_of_bind. eauto.
  - intros B edge pair HB He Hp. rewrite Forall_forall in H2. specialize (H2 edge).
    rewrite Forall_forall in H2. apply H2; [|done]. apply list_elem_of_bind. eauto.
  - intros B d HB Hd. unfold get. apply lookup_lt_is_Some. destruct H1 as [-> _], H3 as [-> _].
    rewrite length_replicate. apply id_bound_spec. apply list_elem_of_bind. exists B. split; [|done].
    apply elem_of_app. left. by apply list_elem_of_fmap_2.
Qed.

(** ** Pruning *)

Lemma retain_mask_length {A} mask (l : list A) r : retain_mask mask l = Some r -> length l <= length mask.
Proof.
  revert mask r. induction l as [|x l IH]; intros [|b mask] r H; cbn in *; [lia..|done|].
  destruct (retain_mask mask l) eqn:E; [|done]. apply IH in E. lia.
Qed.

Section prune.
Context (blocks : list Block) (live : list bool) (live_good : live_ok blocks live).

Definition keep_live (x : ValueId) : option ValueId := if decide (dead live x) then None else Some x.
Lemma keep_live_Some x x' : keep_live x = Some x' <-> ~ dead live x /\ x' = x.
Proof. unfold keep_live. destruct (decide _); naive_solver. Qed.
Lemma keep_live_def id : def_rel keep_live id id.
Proof. intros x x' [_ ->]%keep_live_Some. done. Qed.
Lemma keep_live_all xs : (forall x, x ∈ xs -> ~ dead live x) -> mapM keep_live xs = Some xs.
Proof.
  intros H. apply mapM_Some_2. induction xs as [|x xs IH]; [constructor|]. constructor.
  - apply keep_live_Some. split; [|done]. apply H. left.
  - apply IH. intros y Hy. apply H. by right.
Qed.

Lemma keep_instruction kind :
  (forall x, x ∈ sem_instruction_operands kind -> ~ dead live x) -> rewrite_instruction_operands keep_live kind = Some kind.
Proof.
  intros H. assert (Hk : forall x, x ∈ sem_instruction_operands kind -> keep_live x = Some x).
  { intros x Hx. apply keep_live_Some. auto. }
  destruct kind; cbn in *; rewrite ?Hk by set_solver; cbn; rewrite ?Hk by set_solver; try done.
  by rewrite keep_live_all.
Qed.

Definition mask_of (ds : list ValueDefinition) : list bool := (fun d => default false (get live (vd_id d))) <$> ds.

(** The pruned assignment agrees on the values that are not dead. *)
Lemma assign_pruned old old' e e' ds args ds' args' :
  env_rel keep_live old old' -> env_rel keep_live e e' ->
  retain_mask (mask_of ds) ds = Some ds' -> retain_mask (mask_of ds) args = Some args' ->
  (forall d, d ∈ ds -> is_Some (get live (vd_id d))) -> Forall (settled_pair live) (zip ds args) ->
  env_rel keep_live (assign old e ds args) (assign old' e' ds' args').
Proof.
  intros Ho. revert e e' args ds' args'.
  induction ds as [|d ds IH]; intros e e' args ds' args' He Hds Hargs Hdef Hset; cbn in Hds.
  { injection Hds as <-. destruct args; [|done]. cbn in Hargs. by injection Hargs as <-. }
  fold (mask_of ds) in Hds. destruct (retain_mask (mask_of ds) ds) as [r|] eqn:Er; [|done]. cbn in Hds.
  destruct args as [|a args].
  { cbn in Hargs. injection Hargs as <-. destruct (default _ _); injection Hds as <-; cbn; by try destruct r. }
  cbn in Hargs. fold (mask_of ds) in Hargs. destruct (retain_mask (mask_of ds) args) as [ra|] eqn:Ea; [|done]. cbn in Hargs.
  assert (Hdef' : forall d', d' ∈ ds -> is_Some (get live (vd_id d'))) by (intros; apply Hdef; by right).
  cbn in Hset. apply Forall_cons in Hset as [Hd Hset].
  destruct (Hdef d) as [flag Hflag]; [left|]. rewrite Hflag in Hds, Hargs. cbn in Hds, Hargs. destruct flag.
  - injection Hds as <-. injection Hargs as <-. cbn. apply IH; try done.
    assert (Ha : keep_live a = Some a) by by (apply keep_live_Some; split; [apply Hd|]).
    rewrite (Ho _ _ Ha). destruct (old' !! a); [|done]. apply env_rel_insert; [apply keep_live_def|done].
  - injection Hds as <-. injection Hargs as <-. cbn [assign]. apply IH; try done.
    destruct (old !! a) as [v|]; [|done]. intros x x' Hx. rewrite lookup_insert_ne; [by apply He|].
    intros <-. apply keep_live_Some in Hx as [Hx _]. by apply Hx.
Qed.

Context (blocks' : list Block).
Notation keep := (keep_masks blocks live).
Context (pruned : mapM (fun '(block, mask) => prune_block keep block mask) (zip blocks keep) = Some blocks').

Lemma keep_lookup b : keep !! b = (fun B => mask_of (b_parameters B)) <$> blocks !! b.
Proof. unfold keep_masks. by rewrite list_lookup_fmap. Qed.
Lemma pruned_lookup b B :
  blocks !! b = Some B -> exists B', blocks' !! b = Some B' /\ prune_block keep B (mask_of (b_parameters B)) = Some B'.
Proof.
  intros HB. apply mapM_Some in pruned.
  assert (Hz : zip blocks keep !! b = Some (B, mask_of (b_parameters B))).
  { apply lookup_zip_Some. by rewrite keep_lookup, HB. }
  destruct (Forall2_lookup_l _ _ _ _ _ pruned Hz) as (B' & HB' & E). eauto.
Qed.
Lemma pruned_length : length blocks' = length blocks.
Proof.
  pose proof (Forall2_length _ _ _ (proj1 (mapM_Some _ _ _) pruned)) as <-. rewrite length_zip_with. unfold keep_masks. rewrite length_fmap. lia.
Qed.

Lemma filter_edge_rel B target args args' :
  B ∈ blocks -> (target, args) ∈ block_edges B -> filter_edge keep target args = Some args' ->
  edge_rel keep_live blocks blocks' target args args'.
Proof.
  intros HB He H e e' Hee. unfold filter_edge, get in H. rewrite keep_lookup in H. unfold enter, get.
  destruct (blocks !! N.to_nat target) as [T|] eqn:ET; [|done]. cbn in H.
  destruct (pruned_lookup _ _ ET) as (T' & -> & HT'). unfold prune_block in HT'.
  destruct (retain_mask _ (b_parameters T)) as [ds'|] eqn:Ed; [|done]. cbn in HT'.
  destruct (match b_terminators T with [] => _ | _ => _ end); [|done]. cbn in HT'. injection HT' as <-. cbn.
  apply assign_pruned; try done.
  - intros d Hd. eapply (lv_defined _ _ live_good); [|exact Hd]. by eapply list_elem_of_lookup_2.
  - apply Forall_forall. intros pair Hp. eapply (lv_edges _ _ live_good); [exact HB|exact He|].
    unfold edge_pairs, get. cbn. by rewrite ET.
Qed.

Lemma prune_terminator_rel B t kind' :
  B ∈ blocks -> head (b_terminators B) = Some t -> filter_terminator keep (tm_kind t) = Some kind' ->
  terminator_rel keep_live blocks blocks' (tm_kind t) kind'.
Proof.
  intros HB Ht H.
  assert (Huse : forall x, x ∈ match tm_kind t with Return v => [v] | Jump _ _ => [] | Branch c _ _ _ _ => [c] end -> keep_live x = Some x).
  { intros x Hx. apply keep_live_Some. split; [|done]. eapply (lv_uses _ _ live_good); [exact HB|].
    unfold block_uses. apply elem_of_app. right. by rewrite Ht. }
  assert (Hedge : forall target args args', (target, args) ∈ terminator_edges_of (tm_kind t) ->
    filter_edge keep target args = Some args' -> edge_rel keep_live blocks blocks' target args args').
  { intros target args args' Hin. eapply filter_edge_rel; [exact HB|]. unfold block_edges. by rewrite Ht. }
  destruct (tm_kind t) as [x|target args|x t1 a1 t2 a2]; cbn in *.
  - injection H as <-. apply Huse. left.
  - destruct (filter_edge keep target args) eqn:E; [|done]. injection H as <-. split; [done|].
    eapply Hedge; [left|done].
  - destruct (filter_edge keep t1 a1) eqn:E1; [|done]. cbn in H.
    destruct (filter_edge keep t2 a2) eqn:E2; [|done]. injection H as <-.
    split; [apply Huse; left|]. split; (split; [done|]); (eapply Hedge; [|done]); [left|right; left].
Qed.

Lemma prune_blocks_rel : Forall2 (block_rel keep_live blocks blocks') blocks blocks'.
Proof.
  apply Forall2_same_length_lookup_2; [by rewrite pruned_length|]. intros b B B' HB HB'.
  destruct (pruned_lookup _ _ HB) as (B1 & HB1 & H). replace B1 with B' in H by congruence. clear B1 HB1.
  pose proof (list_elem_of_lookup_2 _ _ _ HB) as Hin. unfold prune_block in H.
  destruct (retain_mask _ (b_parameters B)) as [ds'|] eqn:Ed; [|done]. cbn in H.
  assert (Hins : Forall2 (instruction_rel keep_live) (b_instructions B) (b_instructions B)).
  { apply Forall_Forall2_diag, Forall_forall. intros i Hi. split; [|apply keep_live_def]. apply keep_instruction.
    intros x Hx. eapply (lv_uses _ _ live_good); [exact Hin|]. apply elem_of_app. left. apply list_elem_of_bind. eauto. }
  destruct (b_terminators B) as [|t ts] eqn:Et; cbn in H.
  - injection H as <-. split; cbn; [done|]. rewrite Et. constructor.
  - destruct (filter_terminator keep (tm_kind t)) as [kind'|] eqn:Ek; [|done]. cbn in H. injection H as <-.
    split; cbn; [done|]. rewrite Et. constructor. cbn. eapply prune_terminator_rel; [exact Hin|by rewrite Et|done].
Qed.
End prune.

(** Pruning keeps what a graph returns. *)
Lemma prune_preserves blocks blocks' C k b p env w :
  prune_dead_block_parameters blocks = Some blocks' ->
  steps C blocks k b p env w <-> steps C blocks' k b p env w.
Proof.
  unfold prune_dead_block_parameters. destruct (live_values blocks) as [live|] eqn:E; [|done]. cbn. intros H.
  eapply steps_rename_iff; [eapply prune_blocks_rel; [by apply live_values_ok|exact H]|].
  by intros x x' [_ ->]%keep_live_Some.
Qed.

(** ** Pruning ends *)

Definition unmarked (live : list bool) : nat := length (filter (fun b => b = false) live).
#[local] Arguments unmarked : simpl never.
Lemma unmarked_mark live x : (mark_live live x).2 = true -> unmarked (mark_live live x).1 < unmarked live.
Proof.
  unfold mark_live, get, unmarked. destruct (live !! N.to_nat x) as [[]|] eqn:E; cbn; [done| |done]. intros _.
  pose proof (lookup_lt_Some _ _ _ E). rewrite <- (take_drop_middle _ _ _ E) at 2. rewrite insert_take_drop by done.
  rewrite !filter_app, !length_app, !filter_cons. rewrite decide_False by done. rewrite decide_True by done. cbn. lia.
Qed.
(** A step keeps the number of unmarked values, or changes and lowers it. *)
Definition progress (before after : list bool * bool) : Prop :=
  unmarked after.1 <= unmarked before.1 /\ (after.2 = true -> before.2 = true \/ unmarked after.1 < unmarked before.1).
#[export] Instance progress_preorder : PreOrder progress.
Proof.
  split; [intros a; split; [lia|by left]|]. intros a b c [H1 H2] [H3 H4]. split; [lia|]. intros Hc.
  destruct (H4 Hc) as [Hb|?]; [destruct (H2 Hb); [by left|right; lia]|right; lia].
Qed.
Lemma propagate_arguments_progress pairs live changed : progress (live, changed) (propagate_arguments pairs live changed).
Proof.
  revert live changed. induction pairs as [|[d a] pairs IH]; intros live changed; cbn; [done|].
  destruct (default false _); [|apply IH]. pose proof (unmarked_mark live a) as Hm. pose proof (mark_live_spec live a) as (_ & _ & Hs).
  destruct (mark_live live a) as [live' marked]. cbn in *. etrans; [|apply IH]. split; cbn.
  - destruct marked; [specialize (Hm eq_refl); lia|by rewrite Hs].
  - intros [->|Hx]%orb_true_iff; [by left|right; auto].
Qed.
Lemma propagate_edges_progress blocks edges acc : progress acc (foldl (propagate_edge blocks) acc edges).
Proof.
  revert acc. induction edges as [|e edges IH]; intros acc; cbn; [done|]. etrans; [|apply IH].
  unfold propagate_edge. destruct (get blocks e.1); [|done]. destruct acc. apply propagate_arguments_progress.
Qed.
Lemma propagate_loop_total fuel blocks live : unmarked live < fuel -> is_Some (propagate_loop fuel blocks live).
Proof.
  revert live. induction fuel as [|fuel IH]; intros live Hf; [lia|]. cbn. unfold propagate_pass.
  pose proof (propagate_edges_progress blocks (blocks ≫= block_edges) (live, false)) as [H1 H2].
  destruct (foldl _ _ _) as [live' []]; [|by eexists]. cbn in *. destruct (H2 eq_refl) as [|H]; [done|]. apply IH. lia.
Qed.
Lemma live_values_total blocks : is_Some (live_values blocks).
Proof.
  unfold live_values. apply propagate_loop_total. apply Nat.lt_succ_r.
  destruct (mark_all_spec (replicate (id_bound (blocks ≫= block_ids)) false) (blocks ≫= block_uses)) as [[Hl _] _].
  rewrite length_replicate in Hl. rewrite <- Hl at 2. apply length_filter.
Qed.

(** The edges end in blocks that have a parameter for every argument. *)
Definition edges_fit (blocks : list Block) : Prop :=
  forall B edge, B ∈ blocks -> edge ∈ block_edges B ->
    exists T, get blocks edge.1 = Some T /\ length edge.2 <= length (b_parameters T).
Lemma retain_mask_total {A} mask (l : list A) : length l <= length mask -> is_Some (retain_mask mask l).
Proof.
  revert mask. induction l as [|x l IH]; intros [|b mask] H; cbn in *; [by eexists..|lia|].
  destruct (IH mask) as [r ->]; [lia|]. by eexists.
Qed.
Lemma prune_total blocks : edges_fit blocks -> is_Some (prune_dead_block_parameters blocks).
Proof.
  intros Hfit. unfold prune_dead_block_parameters. destruct (live_values_total blocks) as [live ->]. cbn.
  apply mapM_is_Some_2, Forall_forall. intros [B mask] Hin. cbn. set (keep := keep_masks blocks live) in *.
  assert (Hf : forall edge, edge ∈ block_edges B -> is_Some (filter_edge keep edge.1 edge.2)).
  { intros edge He. apply elem_of_zip_l in Hin. destruct (Hfit _ _ Hin He) as (T & HT & Hl). unfold filter_edge, keep, keep_masks.
    unfold get at 1.
    unfold get in HT. setoid_rewrite list_lookup_fmap. setoid_rewrite HT. cbn. apply retain_mask_total. by rewrite length_fmap. }
  unfold prune_block. assert (Hm : length mask = length (b_parameters B)).
  { apply elem_of_lookup_zip_with in Hin as (i & B' & mask' & [= <- <-] & HB & Hk). unfold keep, keep_masks in Hk.
    rewrite list_lookup_fmap, HB in Hk. injection Hk as <-. by rewrite length_fmap. }
  destruct (retain_mask_total mask (b_parameters B)) as [ds ->]; [lia|]. cbn. unfold block_edges in Hf.
  destruct (b_terminators B) as [|t ts]; cbn; [by eexists|]. cbn in Hf.
  destruct (tm_kind t) as [x|target args|x t1 a1 t2 a2]; cbn in *; [by eexists|..].
  - destruct (Hf (target, args)) as [r Hr]; [by left|]. cbn in Hr. rewrite Hr. by eexists.
  - destruct (Hf (t1, a1)) as [r1 H1]; [by left|]. destruct (Hf (t2, a2)) as [r2 H2]; [by right; left|]. cbn in H1, H2.
    rewrite H1. cbn. rewrite H2. by eexists.
Qed.

(** * Values can be renumbered

    [canonicalize_values] numbers the definitions 0, 1, ... in order and renames
    the operands; when the drafted definitions are distinct, the numbering is
    injective and the renamed graph returns the same values. *)

(** ** The numbering *)

Definition define_step (n : Numbering) (id : ValueId) : Numbering := (<[N.to_nat id := Some n.2]> n.1, bump n.2).

(** The numbers of a list of definitions *)
Definition numbers_from (next : N) (ids : list ValueId) : list ValueId := imap (fun i _ => (next + N.of_nat i)%N) ids.
Lemma numbers_from_cons next id ids : numbers_from next (id :: ids) = next :: numbers_from (next + 1) ids.
Proof.
  unfold numbers_from. cbn. f_equal; [lia|]. apply imap_ext. intros i x _. cbn. lia.
Qed.
Lemma numbers_from_app next l k :
  numbers_from next (l ++ k) = numbers_from next l ++ numbers_from (next + len l) k.
Proof.
  unfold numbers_from. rewrite imap_app. f_equal. apply imap_ext. intros i x _. cbn. unfold len. lia.
Qed.
#[local] Arguments numbers_from : simpl never.
Lemma numbers_from_length next l : length (numbers_from next l) = length l.
Proof. apply length_imap. Qed.

(** Numbers are given out without saturation. *)
Definition room (n : Numbering) (ids : list ValueId) : Prop := (n.2 + len ids <= u32_max)%N.

Lemma room_step n id ids : room n (id :: ids) -> room (define_step n id) ids /\ (define_step n id).2 = (n.2 + 1)%N.
Proof. unfold room, define_step, bump, len. cbn. intros H. split; lia. Qed.
Lemma room_foldl n l k :
  room n (l ++ k) -> room (foldl define_step n l) k /\ (foldl define_step n l).2 = (n.2 + len l)%N.
Proof.
  revert n. induction l as [|x l IH]; intros n H; cbn [foldl app] in *; [split; [done|unfold len; cbn; lia]|].
  apply room_step in H as [H E]. apply IH in H as [H E']. split; [done|]. rewrite E', E. unfold len. cbn. lia.
Qed.

Lemma define_ids_spec n ds ds' n' :
  define_ids n ds = Some (ds', n') -> room n (vd_id <$> ds) ->
  n' = foldl define_step n (vd_id <$> ds) /\ (vd_id <$> ds') = numbers_from n.2 (vd_id <$> ds) /\
  Forall2 (fun d d' => vd_ty d' = vd_ty d) ds ds' /\ Forall (fun id => is_Some (get n.1 id)) (vd_id <$> ds).
Proof.
  revert n ds' n'. induction ds as [|d ds IH]; intros n ds' n' H Hr; cbn in H; [by simplify_eq/=|].
  unfold define_id in H. destruct (get n.1 (vd_id d)) eqn:E; [|done]. cbn in H.
  destruct (define_ids _ ds) as [[r n1]|] eqn:E1; [|done]. simplify_eq/=. apply room_step in Hr as [Hr Hn].
  destruct (IH _ _ _ E1 Hr) as (-> & H2 & H3 & H4). split; [done|]. cbn in *. rewrite numbers_from_cons, H2, Hn.
  split; [done|]. split; [by constructor|]. constructor; [by rewrite E|]. eapply Forall_impl; [exact H4|].
  intros x. cbn. unfold get. rewrite !lookup_lt_is_Some, length_insert. done.
Qed.
Lemma define_results_spec n instrs instrs' n' :
  define_results n instrs = Some (instrs', n') -> room n ((fun i => vd_id (in_result i)) <$> instrs) ->
  n' = foldl define_step n ((fun i => vd_id (in_result i)) <$> instrs) /\
  ((fun i => vd_id (in_result i)) <$> instrs') = numbers_from n.2 ((fun i => vd_id (in_result i)) <$> instrs) /\
  Forall2 (fun i i' => in_kind i' = in_kind i) instrs instrs' /\
  Forall (fun id => is_Some (get n.1 id)) ((fun i => vd_id (in_result i)) <$> instrs).
Proof.
  revert n instrs' n'. induction instrs as [|d ds IH]; intros n ds' n' H Hr; cbn in H; [by simplify_eq/=|].
  unfold define_id in H. destruct (get n.1 (vd_id (in_result d))) eqn:E; [|done]. cbn in H.
  destruct (define_results _ ds) as [[r n1]|] eqn:E1; [|done]. simplify_eq/=. apply room_step in Hr as [Hr Hn].
  destruct (IH _ _ _ E1 Hr) as (-> & H2 & H3 & H4). split; [done|]. cbn in *. rewrite numbers_from_cons, H2, Hn.
  split; [done|]. split; [by constructor|]. constructor; [by rewrite E|]. eapply Forall_impl; [exact H4|].
  intros x. cbn. unfold get. rewrite !lookup_lt_is_Some, length_insert. done.
Qed.

Record same_shape (B B' : Block) : Prop := {
  sh_parameters : Forall2 (fun d d' => vd_ty d' = vd_ty d) (b_parameters B) (b_parameters B');
  sh_instructions : Forall2 (fun i i' => in_kind i' = in_kind i) (b_instructions B) (b_instructions B');
  sh_terminators : b_terminators B' = b_terminators B }.
Lemma same_shape_ids B B' : same_shape B B' -> length (block_ids B') = length (block_ids B).
Proof.
  intros [H1 H2 _]. unfold block_ids. rewrite !length_app, !length_fmap.
  by rewrite (Forall2_length _ _ _ H1), (Forall2_length _ _ _ H2).
Qed.

Lemma foldl_range n l id : is_Some (get (foldl define_step n l).1 id) <-> is_Some (get n.1 id).
Proof.
  revert n. induction l as [|x l IH]; intros n; cbn; [done|]. rewrite IH. cbn. unfold get.
  by rewrite !lookup_lt_is_Some, length_insert.
Qed.

Lemma define_blocks_spec n blocks blocks' n' :
  define_blocks n blocks = Some (blocks', n') -> room n (blocks ≫= block_ids) ->
  n' = foldl define_step n (blocks ≫= block_ids) /\
  (blocks' ≫= block_ids) = numbers_from n.2 (blocks ≫= block_ids) /\
  Forall2 same_shape blocks blocks' /\ Forall (fun id => is_Some (get n.1 id)) (blocks ≫= block_ids).
Proof.
  revert n blocks' n'. induction blocks as [|B blocks IH]; intros n blocks' n' H Hr; cbn in H; [by simplify_eq/=|].
  destruct (define_ids n (b_parameters B)) as [[ds' n1]|] eqn:E1; [|done]. cbn in H.
  destruct (define_results n1 (b_instructions B)) as [[instrs' n2]|] eqn:E2; [|done]. cbn in H.
  destruct (define_blocks n2 blocks) as [[r n3]|] eqn:E3; [|done]. cbn in H. injection H as <- <-.
  change ((B :: blocks) ≫= block_ids) with (block_ids B ++ (blocks ≫= block_ids)) in *. unfold block_ids in Hr at 1.
  rewrite <- app_assoc in Hr.
  assert (Hr1 : room n (vd_id <$> b_parameters B)).
  { unfold room, len in *. rewrite !length_app in Hr. lia. }
  destruct (define_ids_spec _ _ _ _ E1 Hr1) as (-> & I2 & I3 & I4).
  destruct (room_foldl _ _ _ Hr) as [Hr2 N1].
  assert (Hr3 : room (foldl define_step n (vd_id <$> b_parameters B)) ((fun i => vd_id (in_result i)) <$> b_instructions B)).
  { unfold room, len in *. rewrite !length_app in Hr2. lia. }
  destruct (define_results_spec _ _ _ _ E2 Hr3) as (-> & J2 & J3 & J4).
  destruct (room_foldl _ _ _ Hr2) as [Hr4 N2].
  destruct (IH _ _ _ E3 Hr4) as (-> & K2 & K3 & K4).
  assert (Hids : block_ids (mkBlock (b_id B) ds' instrs' (b_terminators B)) = numbers_from n.2 (block_ids B)).
  { unfold block_ids at 1. cbn. rewrite I2, J2, N1. unfold block_ids. by rewrite numbers_from_app. }
  split; [rewrite foldl_app; f_equal; unfold block_ids; by rewrite foldl_app|]. split.
  - cbn. fold block_ids. rewrite numbers_from_app. f_equal; [exact Hids|]. rewrite K2, N2, N1. f_equal.
    unfold block_ids, len. rewrite length_app, !length_fmap. lia.
  - split; [constructor; [by split|done]|]. rewrite Forall_app. split; [unfold block_ids; rewrite Forall_app; split; [done|]|].
    + eapply Forall_impl; [exact J4|]. intros x. cbn. by rewrite foldl_range.
    + eapply Forall_impl; [exact K4|]. intros x. cbn. by rewrite !foldl_range.
Qed.

(** The numbering of distinct definitions *)
Lemma foldl_lookup n l :
  NoDup l -> Forall (fun id => is_Some (get n.1 id)) l -> room n l ->
  (forall i x, l !! i = Some x -> get (foldl define_step n l).1 x = Some (Some (n.2 + N.of_nat i)%N)) /\
  (forall x, x ∉ l -> get (foldl define_step n l).1 x = get n.1 x).
Proof.
  revert n. induction l as [|y l IH]; intros n Hnd Hin Hr; [done|].
  apply NoDup_cons in Hnd as [Hy Hnd]. apply Forall_cons in Hin as [Hiny Hin]. apply room_step in Hr as [Hr Hn].
  destruct (IH (define_step n y) Hnd) as [H1 H2]; [|done|].
  { eapply Forall_impl; [exact Hin|]. intros x. cbn. unfold get. by rewrite !lookup_lt_is_Some, length_insert. }
  cbn [foldl]. split.
  - intros [|i] x Hx; cbn in Hx.
    + injection Hx as <-. rewrite (H2 y Hy). unfold get, define_step. cbn.
      rewrite list_lookup_insert_eq by by apply lookup_lt_is_Some. by rewrite N.add_0_r.
    + rewrite (H1 _ _ Hx), Hn. do 2 f_equal. lia.
  - intros x Hx. apply not_elem_of_cons in Hx as [Hne Hx]. rewrite (H2 x Hx). unfold get, define_step. cbn.
    apply list_lookup_insert_ne. lia.
Qed.

Section canonical.
Context (ids : list ValueId) (n0 n1 : Numbering).
Context (distinct : NoDup ids) (known : Forall (fun id => is_Some (get n0.1 id)) ids) (enough : room n0 ids).
Context (start : n0.2 = 0%N) (unnumbered : forall x, mjoin (get n0.1 x) = None).
Context (numbered : n1 = foldl define_step n0 ids).
Notation ren := (renumber n1.1).

Lemma renumber_spec x y : ren x = Some y <-> exists i, ids !! i = Some x /\ y = N.of_nat i.
Proof.
  destruct (foldl_lookup n0 ids distinct known enough) as [H1 H2]. unfold renumber. rewrite numbered. split.
  - intros H. destruct (decide (x ∈ ids)) as [Hx|Hx]; [|by rewrite (H2 x Hx), unnumbered in H].
    apply list_elem_of_lookup in Hx as [i Hi]. rewrite (H1 _ _ Hi), start in H. injection H as <-. exists i. split; [done|lia].
  - intros (i & Hi & ->). rewrite (H1 _ _ Hi), start. cbn. f_equal.
Qed.

Lemma renumber_definitions : Forall2 (def_rel ren) ids (numbers_from 0 ids).
Proof.
  apply Forall2_same_length_lookup_2; [by rewrite numbers_from_length|]. intros i x y Hx Hy x1 y1 E.
  unfold numbers_from in Hy. rewrite list_lookup_imap, Hx in Hy. cbn in Hy. injection Hy as <-.
  apply renumber_spec in E as (j & Hj & ->). split.
  - intros ->. assert (i = j) as -> by (eapply NoDup_lookup; eauto). lia.
  - intros E. assert (i = j) as -> by lia. congruence.
Qed.
End canonical.

(** ** Rewriting *)

Section rewrite.
Context {S : Type} `{HasErrors S} (map : ValueId -> option ValueId).

Record rewritten (B B' : Block) : Prop := {
  rw_parameters : b_parameters B' = b_parameters B;
  rw_instructions : Forall2 (fun i i' => in_result i' = in_result i /\
    rewrite_instruction_operands map (in_kind i) = Some (in_kind i')) (b_instructions B) (b_instructions B');
  rw_terminators : option_Forall2 (fun t t' => rewrite_terminator_operands map (tm_kind t) = Some (tm_kind t'))
    (head (b_terminators B)) (head (b_terminators B')) }.

Lemma rewrite_instructions_spec instrs instrs' (s s' : S) :
  rewrite_instructions map instrs s = (s', Next instrs') ->
  Forall2 (fun i i' => in_result i' = in_result i /\ rewrite_instruction_operands map (in_kind i) = Some (in_kind i')) instrs instrs'.
Proof.
  revert instrs' s. induction instrs as [|i instrs IH]; intros instrs' s E; cbn in E; [injection E as _ <-; constructor|].
  destruct (rewrite_instruction_operands map (in_kind i)) as [kind|] eqn:Ek; [|done].
  unfold mbind, SM_bind in E. destruct (rewrite_instructions map instrs s) as [s1 [r| |]] eqn:E1; [|done..].
  injection E as <- <-. constructor; [done|eauto].
Qed.
Lemma rewrite_terminators_spec ts ts' (s s' : S) :
  rewrite_terminators map ts s = (s', Next ts') ->
  option_Forall2 (fun t t' => rewrite_terminator_operands map (tm_kind t) = Some (tm_kind t')) (head ts) (head ts').
Proof.
  destruct ts as [|t ts]; cbn; [intros [= _ <-]; constructor|].
  destruct (rewrite_terminator_operands map (tm_kind t)) as [kind|] eqn:Ek; [|done]. intros [= _ <-]. by constructor.
Qed.
Lemma rewrite_blocks_spec blocks blocks' (s s' : S) :
  rewrite_blocks map blocks s = (s', Next blocks') -> Forall2 rewritten blocks blocks'.
Proof.
  revert blocks' s. induction blocks as [|B blocks IH]; intros blocks' s E; cbn in E; [injection E as _ <-; constructor|].
  unfold mbind, SM_bind in E.
  destruct (rewrite_instructions map (b_instructions B) s) as [s1 [instrs'| |]] eqn:E1; [|done..].
  destruct (rewrite_terminators map (b_terminators B) s1) as [s2 [ts'| |]] eqn:E2; [|done..].
  destruct (rewrite_blocks map blocks s2) as [s3 [r| |]] eqn:E3; [|done..]. injection E as <- <-. constructor; [|eauto].
  split; cbn; [done|by eapply rewrite_instructions_spec|by eapply rewrite_terminators_spec].
Qed.
End rewrite.

(** ** Preservation *)

Section preserve.
Context (ren : ValueId -> option ValueId).

Lemma bind_renamed ds ds' vs e e' :
  Forall2 (def_rel ren) (vd_id <$> ds) (vd_id <$> ds') -> Forall2 (fun d d' => vd_ty d' = vd_ty d) ds ds' ->
  env_rel ren e e' ->
  (exists e1 e1', bind_parameters e ds vs = Done e1 /\ bind_parameters e' ds' vs = Done e1' /\ env_rel ren e1 e1') \/
  (bind_parameters e ds vs = Stuck /\ bind_parameters e' ds' vs = Stuck).
Proof.
  intros Hids Hty. revert vs e e' Hids.
  induction Hty as [|d d' ds ds' Hd Hty IH]; intros [|v vs] e e' Hids He; cbn; eauto 6.
  cbn in Hids. apply Forall2_cons in Hids as [Hid Hids]. rewrite Hd.
  destruct (decide (value_ty v = vd_ty d)); [|eauto]. apply IH; [done|]. by apply env_rel_insert.
Qed.

Lemma assign_renamed ds ds' args args' old old' e e' :
  Forall2 (def_rel ren) (vd_id <$> ds) (vd_id <$> ds') -> mapM ren args = Some args' ->
  env_rel ren old old' -> env_rel ren e e' -> env_rel ren (assign old e ds args) (assign old' e' ds' args').
Proof.
  intros Hids Hargs Ho. revert args args' ds' e e' Hids Hargs.
  induction ds as [|d ds IH]; intros args args' [|d' ds'] e e' Hids Hargs He; cbn in Hids; try by inversion Hids.
  apply Forall2_cons in Hids as [Hid Hids]. destruct args as [|a args]; cbn in Hargs; [by injection Hargs as <-|].
  destruct (ren a) as [a'|] eqn:Ea; [|done]. cbn in Hargs. destruct (mapM ren args) as [r|] eqn:Er; [|done].
  injection Hargs as <-. cbn. apply IH; [done..|]. rewrite (Ho _ _ Ea). destruct (old' !! a'); [|done].
  by apply env_rel_insert.
Qed.

Section graph.
Context (blocks blocks1 blocks' : list Block).
Context (shaped : Forall2 same_shape blocks blocks1).
Context (defined : Forall2 (fun B B' => Forall2 (def_rel ren) (block_ids B) (block_ids B')) blocks blocks1).
Context (rewrote : Forall2 (rewritten ren) blocks1 blocks').

Lemma related_lookup b B : blocks !! b = Some B ->
  exists B1 B', blocks' !! b = Some B' /\ same_shape B B1 /\ Forall2 (def_rel ren) (block_ids B) (block_ids B1) /\ rewritten ren B1 B'.
Proof.
  intros HB. destruct (Forall2_lookup_l _ _ _ _ _ shaped HB) as (B1 & HB1 & Hs).
  destruct (Forall2_lookup_l _ _ _ _ _ defined HB) as (B1' & HB1' & Hd). replace B1' with B1 in Hd by congruence.
  destruct (Forall2_lookup_l _ _ _ _ _ rewrote HB1) as (B' & HB' & Hr). eauto 8.
Qed.

Lemma split_ids B B1 : same_shape B B1 -> Forall2 (def_rel ren) (block_ids B) (block_ids B1) ->
  Forall2 (def_rel ren) (vd_id <$> b_parameters B) (vd_id <$> b_parameters B1) /\
  Forall2 (def_rel ren) ((fun i => vd_id (in_result i)) <$> b_instructions B) ((fun i => vd_id (in_result i)) <$> b_instructions B1).
Proof.
  intros [H1 _ _] H. unfold block_ids in H. apply Forall2_app_inv in H; [done|].
  rewrite !length_fmap. by apply Forall2_length in H1.
Qed.

Lemma edge_renamed target args args' : mapM ren args = Some args' -> edge_rel ren blocks blocks' target args args'.
Proof.
  intros Ha e e' He. unfold enter, get. destruct (blocks !! N.to_nat target) as [B|] eqn:HB.
  - destruct (related_lookup _ _ HB) as (B1 & B' & -> & Hs & Hd & Hr). rewrite (rw_parameters _ _ _ Hr).
    destruct (split_ids _ _ Hs Hd) as [Hp _]. by apply assign_renamed.
  - apply lookup_ge_None in HB. rewrite (Forall2_length _ _ _ shaped), (Forall2_length _ _ _ rewrote) in HB.
    by rewrite (lookup_ge_None_2 _ _ HB).
Qed.

Lemma instructions_renamed iss js ks1 :
  Forall2 (fun i i' => in_kind i' = in_kind i) iss js ->
  Forall2 (def_rel ren) ((fun i => vd_id (in_result i)) <$> iss) ((fun i => vd_id (in_result i)) <$> js) ->
  Forall2 (fun i i' => in_result i' = in_result i /\ rewrite_instruction_operands ren (in_kind i) = Some (in_kind i')) js ks1 ->
  Forall2 (instruction_rel ren) iss ks1.
Proof.
  intros H. revert ks1. induction H as [|i i1 iss js Hk H IH]; intros ks1 Hd Hr; inversion Hr as [|? i' ? ks2 [Hres Hrw] Hr']; subst.
  - constructor.
  - cbn in Hd. apply Forall2_cons in Hd as [Hd1 Hd]. constructor; [|eauto]. split; [by rewrite <- Hk|by rewrite Hres].
Qed.

Lemma canonical_blocks_rel : Forall2 (block_rel ren blocks blocks') blocks blocks'.
Proof.
  apply Forall2_same_length_lookup_2.
  { by rewrite (Forall2_length _ _ _ shaped), (Forall2_length _ _ _ rewrote). }
  intros b B B' HB HB'. destruct (related_lookup _ _ HB) as (B1 & B2 & HB2 & Hs & Hd & Hr).
  replace B2 with B' in Hr by congruence. clear B2 HB2. destruct (split_ids _ _ Hs Hd) as [_ Hi].
  destruct Hs as [_ Hk Ht]. destruct Hr as [_ Hrw Hrt]. split; [by eapply instructions_renamed|].
  rewrite Ht in Hrt. destruct Hrt as [t t' E|]; constructor.
  destruct (tm_kind t) as [x|target args|x t1 a1 t2 a2]; cbn in E.
  - destruct (ren x) eqn:Ex; [|done]. by injection E as <-.
  - destruct (mapM ren args) eqn:Ea; [|done]. injection E as <-. split; [done|]. by apply edge_renamed.
  - destruct (ren x) eqn:Ex; [|done]. cbn in E. destruct (mapM ren a1) eqn:E1; [|done]. cbn in E.
    destruct (mapM ren a2) eqn:E2; [|done]. injection E as <-. cbn. split_and!; try done; by apply edge_renamed.
Qed.
End graph.
End preserve.

Lemma Forall2_blocks (R : ValueId -> ValueId -> Prop) blocks blocks' :
  Forall2 same_shape blocks blocks' -> Forall2 R (blocks ≫= block_ids) (blocks' ≫= block_ids) ->
  Forall2 (fun B B' => Forall2 R (block_ids B) (block_ids B')) blocks blocks'.
Proof.
  induction 1 as [|B B' blocks blocks' Hs H IH]; intros Hr; [constructor|]. cbn in Hr. fold block_ids in Hr.
  apply Forall2_app_inv in Hr as [H1 H2]; [constructor; auto|]. symmetry. by apply same_shape_ids.
Qed.

(** A successful numbering, taken apart *)
Record canonicalized (ps : list ValueDefinition) (blocks : list Block) (ps' : list ValueDefinition)
    (blocks' : list Block) (map : list (option ValueId)) : Prop := {
  cz_map : exists next, (map, next) = foldl define_step (replicate (id_bound ((vd_id <$> ps) ++ (blocks ≫= block_ids))) None, 0%N)
    ((vd_id <$> ps) ++ (blocks ≫= block_ids));
  cz_known : Forall (fun id => is_Some (get (replicate (id_bound ((vd_id <$> ps) ++ (blocks ≫= block_ids))) (@None ValueId)) id))
    ((vd_id <$> ps) ++ (blocks ≫= block_ids));
  cz_room : (len ((vd_id <$> ps) ++ (blocks ≫= block_ids)) <= MAX_VALUES_PER_FUNCTION)%N;
  cz_parameters : vd_id <$> ps' = numbers_from 0 (vd_id <$> ps);
  cz_types : Forall2 (fun d d' => vd_ty d' = vd_ty d) ps ps';
  cz_blocks : exists blocks1, (blocks1 ≫= block_ids) = numbers_from (len (vd_id <$> ps)) (blocks ≫= block_ids) /\
    Forall2 same_shape blocks blocks1 /\ Forall2 (rewritten (renumber map)) blocks1 blocks' }.
Lemma canonicalize_inv {S} `{HasErrors S} ps blocks ps' blocks' (s s' : S) :
  canonicalize_values ps blocks s = (s', Next (ps', blocks')) -> exists map, canonicalized ps blocks ps' blocks' map.
Proof.
  intros E. unfold canonicalize_values in E. destruct (_ <? _)%N eqn:Hmax; [done|]. apply N.ltb_ge in Hmax.
  set (ids := (vd_id <$> ps) ++ (blocks ≫= block_ids)) in *. unfold mbind, SM_bind in E.
  destruct (define_ids _ ps) as [[ps1 n1]|] eqn:E1; [|done]. cbn in E.
  destruct (define_blocks n1 blocks) as [[blocks1 n2]|] eqn:E2; [|done]. cbn in E.
  destruct (rewrite_blocks (renumber n2.1) blocks1 s) as [s1 [r| |]] eqn:E3; [|done..]. injection E as <- <- <-.
  set (n0 := (replicate (id_bound ids) None, 0%N) : Numbering) in *.
  assert (Hroom : room n0 ids) by (unfold room, u32_max, MAX_VALUES_PER_FUNCTION in *; cbn; lia).
  assert (Hroom1 : room n0 (vd_id <$> ps)).
  { unfold room, ids, len in *. rewrite length_app in Hroom. lia. }
  destruct (define_ids_spec _ _ _ _ E1 Hroom1) as (En1 & I2 & I3 & I4).
  destruct (room_foldl _ _ _ Hroom) as [Hroom2 N1]. rewrite <- En1 in Hroom2, N1.
  destruct (define_blocks_spec _ _ _ _ E2 Hroom2) as (En2 & J2 & J3 & J4).
  exists n2.1. split; [|..|by rewrite I2|done|].
  - exists n2.2. fold ids n0. unfold ids at 1. rewrite foldl_app, <- En1, <- En2. by destruct n2.
  - fold ids. apply Forall_app. split; [done|]. eapply Forall_impl; [exact J4|]. intros x. cbn. rewrite En1. by rewrite foldl_range.
  - exact Hmax.
  - exists blocks1. rewrite J2, N1. split_and!; [done..|]. by eapply rewrite_blocks_spec.
Qed.

(** The new definitions are 0, 1, ... in order. *)
Lemma canonicalize_numbers ps blocks ps' blocks' map :
  canonicalized ps blocks ps' blocks' map ->
  (vd_id <$> ps') ++ (blocks' ≫= block_ids) = N.of_nat <$> seq 0 (length ((vd_id <$> ps) ++ (blocks ≫= block_ids))).
Proof.
  intros [_ _ _ -> _ (blocks1 & Hids & _ & Hrw)].
  assert (E : blocks' ≫= block_ids = blocks1 ≫= block_ids).
  { clear Hids. induction Hrw as [|B B' l l' [E1 E2 _] _ IH]; [done|]. cbn. fold block_ids. rewrite IH. f_equal.
    unfold block_ids. rewrite E1. f_equal. induction E2 as [|i i' is_ is' [E _] _ IH']; [done|]. cbn. by rewrite E, IH'. }
  rewrite E, Hids, <- (N.add_0_l (len (vd_id <$> ps))), <- numbers_from_app. unfold numbers_from.
  generalize ((vd_id <$> ps) ++ (blocks ≫= block_ids)). intros l. apply list_eq. intros i.
  rewrite list_lookup_imap, list_lookup_fmap. destruct (decide (i < length l)) as [Hi|Hi].
  - rewrite lookup_seq_lt by done. destruct (lookup_lt_is_Some_2 l i Hi) as [x ->]. done.
  - rewrite lookup_seq_ge by lia. by rewrite (lookup_ge_None_2 l) by lia.
Qed.

(** Numbering distinct definitions keeps what a graph returns. *)
Lemma canonicalize_preserves {S} `{HasErrors S} ps blocks ps' blocks' (s s' : S) :
  NoDup ((vd_id <$> ps) ++ (blocks ≫= block_ids)) ->
  canonicalize_values ps blocks s = (s', Next (ps', blocks')) ->
  forall C vs w,
    (exists env k, bind_parameters ∅ ps vs = Done env /\ steps C blocks k 0 0 env w) <->
    (exists env k, bind_parameters ∅ ps' vs = Done env /\ steps C blocks' k 0 0 env w).
Proof.
  intros Hnd [map [[next Hmap] Hknown Hmax I2 I3 (blocks1 & J2 & J3 & J4)]]%canonicalize_inv C vs w.
  set (ids := (vd_id <$> ps) ++ (blocks ≫= block_ids)) in *.
  set (n0 := (replicate (id_bound ids) None, 0%N) : Numbering) in *.
  assert (Hroom : room n0 ids) by (unfold room, u32_max, MAX_VALUES_PER_FUNCTION in *; cbn; lia).
  assert (Hnone : forall x, mjoin (get n0.1 x) = None).
  { intros x. unfold get, n0. cbn. destruct (replicate _ _ !! _) as [o|] eqn:Eo; [|done].
    apply lookup_replicate in Eo as [-> _]. done. }
  pose proof (renumber_definitions ids n0 (map, next) Hnd Hknown Hroom eq_refl Hnone Hmap) as Hdef. cbn in Hdef.
  unfold ids in Hdef. rewrite numbers_from_app, N.add_0_l, <- I2, <- J2 in Hdef.
  apply Forall2_app_inv in Hdef as [Hps Hblocks]; [|by rewrite I2, numbers_from_length].
  assert (Hrel : Forall2 (block_rel (renumber map) blocks blocks') blocks blocks').
  { eapply canonical_blocks_rel; [exact J3|by apply Forall2_blocks|exact J4]. }
  assert (He : env_rel (renumber map) ∅ ∅) by by intros x x' _.
  destruct (bind_renamed _ ps ps' vs _ _ Hps I3 He) as [(e1 & e1' & -> & -> & He1)|[-> ->]].
  - pose proof (fun k => steps_rename_iff _ _ _ Hrel C k 0 0 e1 e1' w He1) as Hiff.
    split; intros (env & k & [= <-] & Hs); eexists _, k; (split; [done|]); by apply Hiff.
  - split; by intros (? & ? & ? & ?).
Qed.
