(* ===== verification/SemLogic.v ===== *)
(** * Reasoning about clean runs of the semantic analysis

    Diagnostics are only ever added, so a run that ends without any has had none
    at every point.  [spec m s Q L] describes such runs: [Q] holds of the value
    a run goes on with, [L] of the value it returns early. *)
From stdpp Require Import base numbers list list_numbers strings gmap.
From S2P Require Import Prelude Source Diagnostics ControlFlow ControlFlowExec Syntax Semantics SemLower SemValues.
From S2P Require Import SourceSemantics SourceRelation CfgSteps.

(** ** Buffers *)

Definition clean {S} `{HasErrors S} (s : S) : Prop := errors_of s = no_semantic_errors.

(** At most the published number of diagnostics, and at least one when the
    buffer is exhausted *)
Record healthy (e : SErrors) : Prop := {
  he_some : se_exhausted e = true -> se_diagnostics e <> [];
  he_most : (len (se_diagnostics e) <= MAX_SEMANTIC_DIAGNOSTICS)%N;
  he_room : se_exhausted e = false -> (len (se_diagnostics e) < MAX_SEMANTIC_DIAGNOSTICS)%N }.
Lemma healthy_none : healthy no_semantic_errors.
Proof. by split. Qed.

(** A change that adds diagnostics within the budget *)
Record adds (e e' : SErrors) : Prop := {
  ad_healthy : healthy e -> healthy e';
  ad_clean : e' = no_semantic_errors -> e = no_semantic_errors;
  ad_exhausted : se_exhausted e = true -> e' = e }.
#[export] Instance adds_preorder : PreOrder adds.
Proof.
  split; [by intros e|]. intros a b c [H1 H2 H3] [H4 H5 H6]. split; [by auto..|].
  intros E. specialize (H3 E). subst b. auto.
Qed.

Lemma snoc_not_nil {A} (l : list A) x : l ++ [x] <> [].
Proof. by destruct l. Qed.
Lemma adds_snoc e d exhausted :
  se_exhausted e = false -> (exhausted = false -> (len (se_diagnostics e) < MAX_SEMANTIC_DIAGNOSTICS - 1)%N) ->
  adds e (mkSErrors (se_diagnostics e ++ [d]) exhausted).
Proof.
  intros E Hr. split; cbn.
  - intros [_ _ Hroom]. specialize (Hroom E). split; cbn; rewrite ?len_snoc; [intros _; apply snoc_not_nil|lia|].
    intros Hx. specialize (Hr Hx). unfold MAX_SEMANTIC_DIAGNOSTICS in *. lia.
  - intros H%(f_equal se_diagnostics). by apply snoc_not_nil in H.
  - congruence.
Qed.
Lemma adds_push d e : adds e (se_push d e).
Proof.
  unfold se_push. destruct (se_exhausted e) eqn:E; [done|]. destruct (_ <? _)%N eqn:El; [|by apply adds_snoc].
  apply N.ltb_lt in El. by apply adds_snoc.
Qed.
Lemma adds_limit d e : adds e (se_limit d e).
Proof. unfold se_limit. destruct (se_exhausted e) eqn:E; [done|]. by apply adds_snoc. Qed.
Lemma push_dirties d e : se_push d e <> no_semantic_errors.
Proof.
  unfold se_push. destruct (se_exhausted e) eqn:E; [by intros ->|]. destruct (_ <? _)%N; [|done].
  intros H. apply (f_equal se_diagnostics) in H. cbn in H. by destruct (se_diagnostics e).
Qed.
Lemma limit_dirties d e : se_limit d e <> no_semantic_errors.
Proof. unfold se_limit. destruct (se_exhausted e) eqn:E; [by intros ->|done]. Qed.

(** ** Computations that only add diagnostics *)

Section growing.
Context {S R : Type} `{HasErrors S}.

Definition growing {A} (m : SM S R A) : Prop := forall s, adds (errors_of s) (errors_of (m s).1).

Lemma growing_ret {A} (a : A) : growing (mret a).
Proof. by intros s. Qed.
Lemma growing_leave {A} (r : R) : growing (@leave S R A r).
Proof. by intros s. Qed.
Lemma growing_crash {A} : growing (@crash S R A).
Proof. by intros s. Qed.
Lemma growing_gets {A} (f : S -> A) : growing (sgets (R := R) f).
Proof. by intros s. Qed.
Lemma growing_bind {A B} (m : SM S R A) (f : A -> SM S R B) :
  growing m -> (forall a, growing (f a)) -> growing (m ≫= f).
Proof.
  intros Hm Hf s. unfold mbind, SM_bind. specialize (Hm s). destruct (m s) as [s' [a|r|]]; cbn in *; [|done..].
  etrans; [exact Hm|apply Hf].
Qed.
Lemma growing_when b (m : SM S R unit) : growing m -> growing (swhen b m).
Proof. intros Hm. destruct b; [done|apply growing_ret]. Qed.
Lemma growing_expect {A} (o : option A) : growing (sexpect (S := S) (R := R) o).
Proof. destruct o; [apply growing_ret|apply growing_crash]. Qed.
Lemma growing_or_leave {A} (o : option A) (r : R) : growing (or_leave (S := S) o r).
Proof. destruct o; [apply growing_ret|apply growing_leave]. Qed.
Lemma growing_modify (f : S -> S) : (forall s, errors_of (f s) = errors_of s) -> growing (smodify (R := R) f).
Proof. intros Hf s. cbn. by rewrite Hf. Qed.
Lemma growing_report_at code span message guidance : growing (report_at (R := R) code span message guidance).
Proof. intros s. cbn. rewrite errors_of_map. apply adds_push. Qed.
Lemma growing_report_path code path message guidance : growing (report_path (R := R) code path message guidance).
Proof. intros s. cbn. rewrite errors_of_map. apply adds_push. Qed.
Lemma growing_report_global code message guidance : growing (report_global (R := R) code message guidance).
Proof. intros s. cbn. rewrite errors_of_map. apply adds_push. Qed.
Lemma growing_report_limit code message guidance : growing (report_limit (R := R) code message guidance).
Proof. intros s. cbn. rewrite errors_of_map. apply adds_limit. Qed.
Lemma growing_report_limit_at code span message guidance : growing (report_limit_at (R := R) code span message guidance).
Proof. intros s. cbn. rewrite errors_of_map. apply adds_limit. Qed.
Lemma growing_exhausted : growing (exhausted (R := R)).
Proof. apply growing_gets. Qed.
Lemma growing_check (r : R) : growing (check r).
Proof. intros s. unfold check. by destruct (se_exhausted _). Qed.
End growing.
Lemma growing_invoke {S R A} `{HasErrors S} (m : SM S A A) : growing m -> growing (invoke (R := R) m).
Proof. intros Hm s. unfold invoke. specialize (Hm s). by destruct (m s) as [s' []]. Qed.

Create HintDb growing discriminated.
#[export] Hint Resolve growing_ret growing_leave growing_crash growing_gets growing_bind growing_when growing_expect
  growing_or_leave growing_report_at growing_report_path growing_report_global growing_report_limit
  growing_report_limit_at growing_exhausted growing_check growing_invoke : growing.
#[export] Hint Extern 1 (growing (smodify _)) => (apply growing_modify; intros; reflexivity) : growing.
#[export] Hint Extern 3 (growing (match ?x with _ => _ end)) => (destruct x) : growing.
#[export] Hint Extern 3 (growing (if ?x then _ else _)) => (destruct x) : growing.
#[export] Hint Extern 4 (growing (let '_ := ?x in _)) => (destruct x) : growing.
Ltac grows := intros; eauto 40 with growing.

(** ** Clean runs *)

Section spec.
Context {S R : Type} `{HasErrors S}.

Definition spec {A} (m : SM S R A) (s : S) (Q : S -> A -> Prop) (L : S -> R -> Prop) : Prop :=
  match m s with
  | (s', Next a) => clean s' -> Q s' a
  | (s', Leave r) => clean s' -> L s' r
  | (s', Crash) => True
  end.

Lemma spec_ret {A} (a : A) s (Q : S -> A -> Prop) L : Q s a -> spec (mret a) s Q L.
Proof. by intros HQ _. Qed.
Lemma spec_leave {A} (r : R) s (Q : S -> A -> Prop) (L : S -> R -> Prop) : L s r -> spec (leave r) s Q L.
Proof. by intros HL _. Qed.
Lemma spec_crash {A} s (Q : S -> A -> Prop) L : spec (@crash S R A) s Q L.
Proof. done. Qed.
Lemma spec_mono {A} (m : SM S R A) s (Q Q' : S -> A -> Prop) (L L' : S -> R -> Prop) :
  spec m s Q L -> (forall s' a, clean s' -> Q s' a -> Q' s' a) -> (forall s' r, clean s' -> L s' r -> L' s' r) -> spec m s Q' L'.
Proof. unfold spec. intros Hm HQ HL. destruct (m s) as [s' [a|r|]]; auto. Qed.
Lemma spec_post {A} (m : SM S R A) s (Q Q' : S -> A -> Prop) (L : S -> R -> Prop) :
  spec m s Q L -> (forall s' a, clean s' -> Q s' a -> Q' s' a) -> spec m s Q' L.
Proof. intros Hm HQ. by eapply spec_mono. Qed.
Lemma spec_true {A} (m : SM S R A) s : spec m s (fun _ _ => True) (fun _ _ => True).
Proof. unfold spec. by destruct (m s) as [s' []]. Qed.
Lemma spec_bind {A B} (m : SM S R A) (f : A -> SM S R B) s (Q : S -> B -> Prop) L :
  (forall a, growing (f a)) ->
  spec m s (fun s' a => clean s' -> spec (f a) s' Q L) L -> spec (m ≫= f) s Q L.
Proof.
  intros Hf Hm. unfold spec in *. unfold mbind, SM_bind. destruct (m s) as [s' [a|r|]]; [|exact Hm|done].
  pose proof (ad_clean _ _ (Hf a s')) as Hc. unfold clean in *.
  destruct (f a s') as [s'' [b|r|]]; cbn in *; [intros E; apply Hm; auto..|done].
Qed.
Lemma spec_gets {A} (f : S -> A) s (Q : S -> A -> Prop) L : Q s (f s) -> spec (sgets (R := R) f) s Q L.
Proof. by intros HQ _. Qed.
Lemma spec_modify (f : S -> S) s (Q : S -> unit -> Prop) L : (clean (f s) -> Q (f s) tt) -> spec (smodify (R := R) f) s Q L.
Proof. by intros HQ. Qed.
Lemma spec_expect {A} (o : option A) s (Q : S -> A -> Prop) L : (forall a, o = Some a -> Q s a) -> spec (sexpect (R := R) o) s Q L.
Proof. destruct o; [intros HQ _; by apply HQ|done]. Qed.
Lemma spec_or_leave {A} (o : option A) (r : R) s (Q : S -> A -> Prop) (L : S -> R -> Prop) :
  (forall a, o = Some a -> Q s a) -> (o = None -> L s r) -> spec (or_leave o r) s Q L.
Proof. destruct o; [intros HQ _ _; by apply HQ|intros _ HL _; by apply HL]. Qed.
Lemma spec_report_at code span message guidance s (Q : S -> unit -> Prop) L :
  spec (report_at (R := R) code span message guidance) s Q L.
Proof. unfold spec, clean. cbn. rewrite errors_of_map. by intros ?%push_dirties. Qed.
Lemma spec_report_path code path message guidance s (Q : S -> unit -> Prop) L :
  spec (report_path (R := R) code path message guidance) s Q L.
Proof. unfold spec, clean. cbn. rewrite errors_of_map. by intros ?%push_dirties. Qed.
Lemma spec_report_global code message guidance s (Q : S -> unit -> Prop) L :
  spec (report_global (R := R) code message guidance) s Q L.
Proof. unfold spec, clean. cbn. rewrite errors_of_map. by intros ?%push_dirties. Qed.
Lemma spec_report_limit code message guidance s (Q : S -> unit -> Prop) L :
  spec (report_limit (R := R) code message guidance) s Q L.
Proof. unfold spec, clean. cbn. rewrite errors_of_map. by intros ?%limit_dirties. Qed.
Lemma spec_report_limit_at code span message guidance s (Q : S -> unit -> Prop) L :
  spec (report_limit_at (R := R) code span message guidance) s Q L.
Proof. unfold spec, clean. cbn. rewrite errors_of_map. by intros ?%limit_dirties. Qed.
Lemma spec_exhausted s (Q : S -> bool -> Prop) L : (clean s -> Q s false) -> spec (exhausted (R := R)) s Q L.
Proof. intros HQ Hs. specialize (HQ Hs). by rewrite Hs. Qed.
Lemma spec_check (r : R) s (Q : S -> unit -> Prop) L : (clean s -> Q s tt) -> spec (check r) s Q L.
Proof. intros HQ. unfold spec, check, clean in *. destruct (se_exhausted (errors_of s)) eqn:E; [|done]. intros E'. by rewrite E' in E. Qed.
Lemma spec_when b (m : SM S R unit) s (Q : S -> unit -> Prop) L :
  (b = true -> spec m s Q L) -> (b = false -> Q s tt) -> spec (swhen b m) s Q L.
Proof. destruct b; [auto|]. intros _ HQ _. by apply HQ. Qed.
End spec.
#[global] Arguments spec {S R _ A} m s Q L : simpl never.
Lemma spec_invoke {S R A} `{HasErrors S} (m : SM S A A) s (Q : S -> A -> Prop) (L : S -> R -> Prop) :
  spec m s Q Q -> spec (invoke m) s Q L.
Proof. unfold spec, invoke. by destruct (m s) as [s' []]. Qed.
(** A callee that has no early return *)
Lemma spec_invoke_never {S R A} `{HasErrors S} (m : SM S A A) s (Q : S -> A -> Prop) (L : S -> R -> Prop) :
  spec m s Q (fun _ _ => False) -> spec (invoke m) s Q L.
Proof. intros Hm. apply spec_invoke. by eapply spec_mono. Qed.

(** * The state of the lowering

    The rules of the operations of the lowerer on clean runs, what they may
    change of the drafted blocks, and the invariant of the state. *)

(** ** Rules of the operations *)

Lemma growing_block_at {R} i : growing (@block_at R i).
Proof. intros s. unfold block_at. by destruct (_ !! i). Qed.
Lemma growing_update_block {R} i f : growing (@update_block R i f).
Proof. apply growing_bind; [apply growing_block_at|grows]. Qed.
#[export] Hint Resolve growing_block_at growing_update_block : growing.
Lemma growing_draft_merge {R} n span : growing (@draft_merge_within_limit R n span).
Proof. unfold draft_merge_within_limit. grows. Qed.
Lemma growing_draft_value {R} n span : growing (@draft_value_within_limit R n span).
Proof. unfold draft_value_within_limit. grows. Qed.
#[export] Hint Resolve growing_draft_merge growing_draft_value : growing.
Lemma growing_new_block {R} fbody : growing (@new_block fbody R).
Proof. apply growing_invoke. unfold new_block_body. grows. Qed.
Lemma growing_new_value {R} ty span : growing (@new_value R ty span).
Proof. apply growing_invoke. unfold new_value_body. grows. Qed.
Lemma growing_terminate {R} t : growing (@terminate R t).
Proof. apply growing_invoke. unfold terminate_body. grows. Qed.
#[export] Hint Resolve growing_new_block growing_new_value growing_terminate : growing.
Lemma growing_emit {R} ty span kind : growing (@emit R ty span kind).
Proof. apply growing_invoke. unfold emit_body. grows. Qed.
Lemma growing_record_call_edge {R} edge : growing (@record_call_edge R edge).
Proof. unfold record_call_edge. grows. Qed.
#[export] Hint Resolve growing_emit growing_record_call_edge : growing.

(** Goes through a sequence on a clean run *)
Ltac sbind := eapply spec_bind; [solve [grows]|].
Ltac sreport := sbind; first [apply spec_report_at|apply spec_report_limit_at|apply spec_report_limit|apply spec_report_path|apply spec_report_global].

Lemma spec_block_at {R} i (s : LS) (Q : LS -> Block -> Prop) (L : LS -> R -> Prop) :
  (forall B, ls_blocks s !! i = Some B -> Q s B) -> spec (block_at i) s Q L.
Proof. intros HQ. unfold spec, block_at. destruct (_ !! i) eqn:E; [intros _; by apply HQ|done]. Qed.
Lemma spec_update_block {R} i f (s : LS) (Q : LS -> unit -> Prop) (L : LS -> R -> Prop) :
  (forall B, ls_blocks s !! i = Some B -> Q (set_draft_blocks (<[i := f B]> (ls_blocks s)) s) tt) ->
  spec (update_block i f) s Q L.
Proof. intros HQ. unfold update_block. sbind. apply spec_block_at. intros B HB _. apply spec_modify. auto. Qed.

Lemma spec_new_value {R} ty span (s : LS) (Q : LS -> option TypedValue -> Prop) (L : LS -> R -> Prop) :
  Q (set_next_value (ls_next_value s + 1) s) (Some (mkTypedValue ty (ls_next_value s))) ->
  spec (new_value ty span) s Q L.
Proof.
  intros HQ. apply spec_invoke. unfold new_value_body. sbind. apply spec_check. intros _ _.
  sbind. apply spec_gets. intros _. sbind. unfold draft_value_within_limit. sbind. apply spec_exhausted. intros _ _.
  destruct (_ <=? _)%N; [by sreport|]. apply spec_ret. intros _. cbn. unfold checked_add.
  destruct (_ <=? _)%N; [|by sreport]. sbind. apply spec_modify. intros _ _. by apply spec_ret.
Qed.

Lemma spec_new_block {R} fbody (s : LS) (Q : LS -> option nat -> Prop) (L : LS -> R -> Prop) :
  (index_u32 (length (ls_blocks s)) = N.of_nat (length (ls_blocks s)) ->
   Q (set_draft_blocks (ls_blocks s ++ [empty_block (length (ls_blocks s))]) s) (Some (length (ls_blocks s)))) ->
  spec (new_block fbody) s Q L.
Proof.
  intros HQ. apply spec_invoke. unfold new_block_body. sbind. apply spec_check. intros _ _.
  sbind. apply spec_gets. intros _. destruct (_ <=? _)%N eqn:E; [by sreport|]. sbind. apply spec_modify. intros _ _.
  apply spec_ret. apply HQ. apply N.leb_gt in E. unfold index_u32, try_u32. unfold len, MAX_BLOCKS_PER_FUNCTION in E.
  unfold u32_max. by rewrite (proj2 (N.leb_le _ _)) by lia.
Qed.

Lemma spec_emit {R} ty span kind (s : LS) (Q : LS -> option TypedValue -> Prop) (L : LS -> R -> Prop) :
  (forall B, ls_blocks s !! ls_current s = Some B ->
   Q (set_draft_blocks (<[ls_current s :=
        push_instruction (mkInstruction (mkValueDefinition (ls_next_value s) ty span) kind) B]> (ls_blocks s))
      (set_next_value (ls_next_value s + 1) s)) (Some (mkTypedValue ty (ls_next_value s)))) ->
  spec (emit ty span kind) s Q L.
Proof.
  intros HQ. apply spec_invoke. unfold emit_body. sbind. apply spec_check. intros _ _.
  sbind. apply spec_gets. intros _. sbind. apply spec_block_at. intros B HB _.
  destruct (_ <=? _)%N; [by sreport|]. sbind. apply spec_new_value. intros _. sbind. apply spec_or_leave; [|done].
  intros ? [= <-] _. sbind. apply spec_update_block. intros B' HB' _. apply spec_ret. by apply HQ.
Qed.

Lemma spec_record_call_edge {R} edge (s : LS) (Q : LS -> bool -> Prop) (L : LS -> R -> Prop) :
  Q (set_call_edges (ls_call_edges s ++ [edge]) s) true -> spec (record_call_edge edge) s Q L.
Proof.
  intros HQ. unfold record_call_edge. sbind. apply spec_exhausted. intros _ _. sbind. apply spec_gets. intros _.
  destruct (_ <=? _)%N; [by sreport|]. sbind. apply spec_modify. intros _ _. by apply spec_ret.
Qed.

(** The current block has not ended. *)
Definition open_at (s : LS) (i : nat) (B : Block) : Prop := ls_blocks s !! i = Some B /\ b_terminators B = [].

Lemma spec_terminate {R} t (s : LS) (Q : LS -> bool -> Prop) (L : LS -> R -> Prop) :
  (exists B, open_at s (ls_current s) B) ->
  (forall B edges, open_at s (ls_current s) B ->
     Q (set_draft_blocks (<[ls_current s := push_terminator t B]> (ls_blocks s)) (set_cfg_edges edges s)) true) ->
  spec (terminate t) s Q L.
Proof.
  intros (B0 & HB0 & Ht0) HQ. apply spec_invoke. unfold terminate_body. sbind. apply spec_check. intros _ _.
  sbind. apply spec_gets. intros _. unfold checked_add. destruct (_ <=? _)%N; [|by sreport].
  destruct (_ <? _)%N; [by sreport|]. sbind. apply spec_gets. intros _. sbind. apply spec_block_at. intros B HB _.
  replace B with B0 in * by congruence. rewrite Ht0. sbind. apply spec_modify. intros _ _.
  sbind. apply spec_update_block. intros B' HB' _. apply spec_ret.
  cbn in HB'. replace B' with B0 by congruence. by apply HQ.
Qed.

Lemma growing_terminate_or_leave span kind : growing (terminate_or_leave span kind).
Proof. unfold terminate_or_leave. grows. Qed.
Lemma growing_fresh_block fbody : growing (fresh_block fbody).
Proof. unfold fresh_block. grows. Qed.
#[export] Hint Resolve growing_terminate_or_leave growing_fresh_block : growing.
Lemma spec_terminate_or_leave span kind s (Q : LS -> unit -> Prop) (L : LS -> bool -> Prop) :
  (exists B, open_at s (ls_current s) B) ->
  (forall B edges, open_at s (ls_current s) B ->
     Q (set_draft_blocks (<[ls_current s := push_terminator (mkSpannedTerminator span kind) B]> (ls_blocks s))
          (set_cfg_edges edges s)) tt) ->
  spec (terminate_or_leave span kind) s Q L.
Proof.
  intros Hs HQ. unfold terminate_or_leave. sbind. apply spec_terminate; [done|]. intros B edges HB _. apply spec_ret. auto.
Qed.
Lemma spec_fresh_block fbody s (Q : LS -> nat -> Prop) (L : LS -> bool -> Prop) :
  (index_u32 (length (ls_blocks s)) = N.of_nat (length (ls_blocks s)) ->
   Q (set_draft_blocks (ls_blocks s ++ [empty_block (length (ls_blocks s))]) s) (length (ls_blocks s))) ->
  spec (fresh_block fbody) s Q L.
Proof.
  intros HQ. unfold fresh_block. sbind. apply spec_new_block. intros Hi _. apply spec_or_leave; [|done].
  intros ? [= <-]. auto.
Qed.
Lemma spec_draft_merge {R} n span s (Q : LS -> bool -> Prop) (L : LS -> R -> Prop) :
  Q s true -> spec (draft_merge_within_limit n span) s Q L.
Proof.
  intros HQ. unfold draft_merge_within_limit. sbind. apply spec_exhausted. intros _ _.
  destruct (_ <? _)%N; [by sreport|by apply spec_ret].
Qed.

(** ** What changes of the blocks *)

(** Instructions are added until the block ends; its parameters stay. *)
Record bext (B B' : Block) : Prop := {
  bx_parameters : b_parameters B' = b_parameters B;
  bx_instructions : exists is_, b_instructions B' = b_instructions B ++ is_;
  bx_ended : b_terminators B <> [] -> B' = B }.
#[export] Instance bext_preorder : PreOrder bext.
Proof.
  split.
  - intros B. split; [done|exists []; by rewrite app_nil_r|done].
  - intros B1 B2 B3 [P1 [i1 I1] E1] [P2 [i2 I2] E2]. split; [congruence| |].
    + exists (i1 ++ i2). by rewrite I2, I1, (assoc_L (++)).
    + intros Ht. specialize (E1 Ht). subst B2. auto.
Qed.
Lemma bext_instruction i B : b_terminators B = [] -> bext B (push_instruction i B).
Proof. intros Ht. split; [done|by exists [i]|congruence]. Qed.
Lemma bext_terminator t B : b_terminators B = [] -> bext B (push_terminator t B).
Proof. intros Ht. split; [done|exists []; by rewrite app_nil_r|congruence]. Qed.

Definition ext (l l' : list Block) : Prop := forall i B, l !! i = Some B -> exists B', l' !! i = Some B' /\ bext B B'.
#[export] Instance ext_preorder : PreOrder ext.
Proof.
  split; [intros l i B HB; by exists B|]. intros l1 l2 l3 H1 H2 i B HB.
  destruct (H1 _ _ HB) as (B' & HB' & E1). destruct (H2 _ _ HB') as (B'' & HB'' & E2). exists B''. split; [done|by etrans].
Qed.

(** Of the blocks there are only [c] changes. *)
Record touch (c : nat) (l l' : list Block) : Prop := {
  to_length : length l <= length l';
  to_others i : i < length l -> i <> c -> l' !! i = l !! i;
  to_own B : l !! c = Some B -> exists B', l' !! c = Some B' /\ bext B B' }.
Lemma touch_refl c l : touch c l l.
Proof. split; [done|done|]. intros B HB. by exists B. Qed.
Lemma touch_ext c l l' : touch c l l' -> ext l l'.
Proof.
  intros [_ H1 H2] i B HB. destruct (decide (i = c)) as [->|Hne]; [auto|]. exists B. split; [|done].
  rewrite H1; [done| |done]. by apply lookup_lt_Some in HB.
Qed.
Lemma touch_trans c c' l1 l2 l3 : touch c l1 l2 -> touch c' l2 l3 -> c' = c \/ length l1 <= c' -> touch c l1 l3.
Proof.
  intros [L1 O1 W1] [L2 O2 W2] Hc. split; [lia| |].
  - intros i Hi Hne. rewrite O2; [by apply O1|lia|]. lia.
  - intros B HB. destruct (W1 _ HB) as (B' & HB' & E). pose proof (lookup_lt_Some _ _ _ HB).
    pose proof (lookup_lt_Some _ _ _ HB'). destruct Hc as [->|Hc].
    + destruct (W2 _ HB') as (B'' & HB'' & E'). exists B''. split; [done|by etrans].
    + exists B'. split; [|done]. rewrite O2; [done|done|lia].
Qed.
Lemma touch_insert c l B B' : l !! c = Some B -> bext B B' -> touch c l (<[c := B']> l).
Proof.
  intros HB He. pose proof (lookup_lt_Some _ _ _ HB). split; [by rewrite length_insert| |].
  - intros i _ Hne. by rewrite list_lookup_insert_ne.
  - intros B0 HB0. exists B'. rewrite list_lookup_insert_eq by done. split; [done|]. by replace B0 with B by congruence.
Qed.
Lemma touch_app c l k : touch c l (l ++ k).
Proof.
  split; [rewrite length_app; lia|intros i Hi _; by rewrite lookup_app_l|].
  intros B HB. exists B. split; [|done]. rewrite lookup_app_l; [done|]. by apply lookup_lt_Some in HB.
Qed.

(** Between two points of the lowering of a sequence of statements *)
Record moves (s s' : LS) : Prop := {
  mv_next : (ls_next_value s <= ls_next_value s')%N;
  mv_blocks : touch (ls_current s) (ls_blocks s) (ls_blocks s');
  mv_current : ls_current s' = ls_current s \/ length (ls_blocks s) <= ls_current s' }.
#[export] Instance moves_preorder : PreOrder moves.
Proof.
  split; [intros s; split; [done|apply touch_refl|by left]|].
  intros s1 s2 s3 [N1 B1 C1] [N2 B2 C2]. split; [lia|by eapply touch_trans|].
  pose proof (to_length _ _ _ B1). lia.
Qed.
Lemma moves_ext s s' : moves s s' -> ext (ls_blocks s) (ls_blocks s').
Proof. intros H. eapply touch_ext, mv_blocks, H. Qed.

(** ** The values of the blocks *)

Lemma bind_insert_perm {A B} (f : A -> list B) l i x y new :
  l !! i = Some x -> f y ≡ₚ new ++ f x -> (<[i := y]> l) ≫= f ≡ₚ new ++ (l ≫= f).
Proof.
  intros Hx Hf. pose proof (lookup_lt_Some _ _ _ Hx) as Hi.
  rewrite <- (take_drop_middle l i x Hx) at 2. rewrite insert_take_drop by done.
  rewrite !bind_app. cbn. rewrite Hf. solve_Permutation.
Qed.

(** The definitions are distinct and counted. *)
Record wf_values (ps : list ValueId) (n : N) (blocks : list Block) : Prop := {
  wv_nodup : NoDup (ps ++ (blocks ≫= block_ids));
  wv_bound : Forall (fun x => (x < n)%N) (ps ++ (blocks ≫= block_ids)) }.
Lemma wf_values_insert ps n blocks i B B' :
  wf_values ps n blocks -> blocks !! i = Some B -> block_ids B' ≡ₚ n :: block_ids B ->
  wf_values ps (n + 1) (<[i := B']> blocks).
Proof.
  intros [Hnd Hb] HB Hp. assert (E : ps ++ (<[i := B']> blocks ≫= block_ids) ≡ₚ n :: (ps ++ (blocks ≫= block_ids))).
  { rewrite (bind_insert_perm block_ids _ _ _ _ [n] HB Hp). solve_Permutation. }
  split; rewrite E.
  - apply NoDup_cons. split; [|done]. intros Hin. rewrite Forall_forall in Hb. specialize (Hb _ Hin). cbn in Hb. lia.
  - constructor; [lia|]. eapply Forall_impl; [exact Hb|]. cbn. lia.
Qed.
Lemma wf_values_same ps n blocks i B B' :
  wf_values ps n blocks -> blocks !! i = Some B -> block_ids B' = block_ids B -> wf_values ps n (<[i := B']> blocks).
Proof.
  intros [Hnd Hb] HB E. assert (E' : <[i := B']> blocks ≫= block_ids ≡ₚ blocks ≫= block_ids).
  { apply (bind_insert_perm block_ids _ _ _ _ [] HB). by rewrite E. }
  split; by rewrite E'.
Qed.
Lemma wf_values_app ps n blocks i : wf_values ps n blocks -> wf_values ps n (blocks ++ [empty_block i]).
Proof. intros [Hnd Hb]. split; rewrite bind_app; cbn; by rewrite app_nil_r. Qed.

Lemma push_instruction_ids i B : block_ids (push_instruction i B) ≡ₚ vd_id (in_result i) :: block_ids B.
Proof. unfold block_ids. cbn. rewrite fmap_app. cbn. solve_Permutation. Qed.
Lemma push_parameter_ids d B : block_ids (push_parameter d B) ≡ₚ vd_id d :: block_ids B.
Proof. unfold block_ids. cbn. rewrite fmap_app. cbn. solve_Permutation. Qed.

(** The invariant of the lowering *)
Record wf (ps : list ValueId) (s : LS) : Prop := {
  wf_ids : wf_values ps (ls_next_value s) (ls_blocks s);
  wf_bindings : Forall (fun b => (bd_value b < ls_next_value s)%N) (ls_bindings s) }.

(** * Stores and environments, points of the draft

    The bindings of the lowerer relate a store to an environment of the drafted
    blocks; a point is the end of a block that is being drafted, seen in the
    final blocks [F]. *)

(** ** Environments *)

(** The values that were defined before [n] keep their meaning. *)
Definition agree (n : N) (env env' : Env) : Prop := forall x, (x < n)%N -> env' !! x = env !! x.
#[export] Instance agree_preorder n : PreOrder (agree n).
Proof. split; [by intros e x|]. intros e1 e2 e3 H1 H2 x Hx. by rewrite H2, H1. Qed.
Lemma agree_le n m env env' : (n <= m)%N -> agree m env env' -> agree n env env'.
Proof. intros Hle H x Hx. apply H. lia. Qed.
Lemma agree_insert n x v env : (n <= x)%N -> agree n env (<[x := v]> env).
Proof. intros Hle y Hy. rewrite lookup_insert_ne; [done|lia]. Qed.

(** ** Bindings *)

Definition holds (env : Env) (b : Binding) (p : string * Value) : Prop :=
  bd_name b = p.1 /\ env !! bd_value b = Some p.2 /\ value_ty p.2 = bd_ty b.
Definition rel (bs : list Binding) (store : Store) (env : Env) : Prop := Forall2 (holds env) bs store.
(** The values of the bindings are defined before [n]. *)
Definition bounded (n : N) (bs : list Binding) : Prop := Forall (fun b => (bd_value b < n)%N) bs.

Lemma bounded_le n m bs : (n <= m)%N -> bounded n bs -> bounded m bs.
Proof. intros Hle H. eapply Forall_impl; [exact H|]. intros b. cbn. lia. Qed.
Lemma rel_agree n bs store env env' : bounded n bs -> agree n env env' -> rel bs store env -> rel bs store env'.
Proof.
  intros Hb Ha H. unfold rel in *. induction H as [|b p bs store (H1 & H2 & H3) H IH]; [constructor|].
  apply Forall_cons in Hb as [Hb1 Hb2]. constructor; [|auto]. split_and!; [done| |done]. by rewrite Ha.
Qed.
Lemma rel_length bs store env : rel bs store env -> length bs = length store.
Proof. apply Forall2_length. Qed.

Lemma rel_rfind name k bs j b :
  rfind_binding name k bs = Some (j, b) ->
  exists i, j = k + i /\ bs !! i = Some b /\ bd_name b = name /\
    forall store env, rel bs store env -> var_index name store = Some i.
Proof.
  revert k. induction bs as [|b0 bs IH]; intros k H; [done|]. cbn in H.
  destruct (rfind_binding name (S k) bs) as [[j' b']|] eqn:E.
  - injection H as -> ->. destruct (IH _ E) as (i & -> & Hi & Hn & Hs). exists (S i). split_and!; [lia|done|done|].
    intros store env Hr. inversion Hr as [|? [x v] ? store' ? Hr']; subst. cbn. by rewrite (Hs _ _ Hr').
  - destruct (bool_decide _) eqn:En; [|done]. apply bool_decide_eq_true in En. injection H as <- <-.
    exists 0. split_and!; [lia|done|done|]. intros store env Hr. inversion Hr as [|? [x v] ? store' [Hx _] Hr']; subst.
    cbn in *. subst x. rewrite bool_decide_true by done.
    assert (Hnone : var_index (bd_name b0) store' = None).
    { clear -E Hr'. remember (S k) as k0 eqn:Hk0. clear Hk0. revert k0 E. induction Hr' as [|b [x v] bs store (Hx & _) Hr IH]; intros k0 E; [done|].
      cbn in E. destruct (rfind_binding _ (S k0) bs) eqn:E'; [done|]. destruct (bool_decide _) eqn:En; [done|].
      cbn. rewrite (IH _ E'). cbn in Hx. subst x. by rewrite En. }
    by rewrite Hnone.
Qed.
Lemma rel_read name bs j b store env :
  rfind_binding name 0 bs = Some (j, b) -> rel bs store env ->
  exists v, read_var name store = Some v /\ env !! bd_value b = Some v /\ value_ty v = bd_ty b.
Proof.
  intros (i & _ & Hi & _ & Hs)%rel_rfind Hr. destruct (Forall2_lookup_l _ _ _ _ _ Hr Hi) as ([x v] & Hv & _ & H1 & H2).
  exists v. split_and!; [|done|done]. unfold read_var. rewrite (Hs _ _ Hr). cbn. by rewrite Hv.
Qed.
(** An assignment rebinds the name to the value. *)
Lemma rel_write name bs j b store env x v :
  rfind_binding name 0 bs = Some (j, b) -> rel bs store env -> env !! x = Some v -> value_ty v = bd_ty b ->
  exists store', write_var name v store = Some store' /\ rel (<[j := set_value x b]> bs) store' env.
Proof.
  intros (i & -> & Hi & Hn & Hs)%rel_rfind Hr Hx Hty. exists (<[i := (name, v)]> store). split.
  - unfold write_var. by rewrite (Hs _ _ Hr).
  - cbn. apply Forall2_insert; [done|]. by split_and!.
Qed.
Lemma rel_app bs store env b p : rel bs store env -> holds env b p -> rel (bs ++ [b]) (store ++ [p]) env.
Proof. intros Hr Hh. apply Forall2_app; [done|]. by constructor. Qed.

(** ** Points *)

Section points.
Context (C : Calls) (F : list Block).

(** From the end of block [i] of the draft [l] on *)
Definition at_end (l : list Block) (i k : nat) (env : Env) (w : Value) : Prop :=
  exists B, l !! i = Some B /\ steps C F k i (length (b_instructions B)) env w.

Lemma at_end_same l l' i k env w : l' !! i = l !! i -> at_end l i k env w <-> at_end l' i k env w.
Proof. intros E. unfold at_end. by rewrite E. Qed.
Lemma at_end_start l i B k env w :
  l !! i = Some B -> b_instructions B = [] -> at_end l i k env w <-> steps C F k i 0 env w.
Proof.
  intros HB Hi. unfold at_end. split.
  - intros (B' & HB' & H). replace B' with B in H by congruence. by rewrite Hi in H.
  - intros H. exists B. by rewrite Hi.
Qed.

Lemma at_emit l c B i k env w :
  l !! c = Some B -> b_terminators B = [] -> ext (<[c := push_instruction i B]> l) F ->
  at_end l c k env w <->
  exists v, instruction_value C env (in_kind i) v /\
    at_end (<[c := push_instruction i B]> l) c k (<[vd_id (in_result i) := v]> env) w.
Proof.
  intros HB Ht He. pose proof (lookup_lt_Some _ _ _ HB) as Hlt.
  destruct (He c (push_instruction i B)) as (B' & HB' & [_ [is_ Hi] _]); [by apply list_lookup_insert_eq|]. cbn in Hi.
  assert (Hat : b_instructions B' !! length (b_instructions B) = Some i).
  { rewrite Hi, lookup_app_l by (rewrite length_app; cbn; lia). by apply list_lookup_middle. }
  assert (Hend : forall env', at_end (<[c := push_instruction i B]> l) c k env' w <-> steps C F k c (S (length (b_instructions B))) env' w).
  { intros env'. unfold at_end. rewrite list_lookup_insert_eq by done. split.
    - intros (? & [= <-] & H). cbn in H. by rewrite length_app, Nat.add_comm in H.
    - intros H. eexists. split; [done|]. cbn. by rewrite length_app, Nat.add_comm. }
  transitivity (steps C F k c (length (b_instructions B)) env w).
  - unfold at_end. split; [intros (B0 & HB0 & H); by replace B0 with B in H by congruence|by exists B].
  - rewrite (steps_instruction _ _ _ _ _ _ _ _ _ HB' Hat). by setoid_rewrite Hend.
Qed.

Section ended.
Context (l : list Block) (c : nat) (B : Block) (t : SpannedTerminator).
Context (HB : l !! c = Some B) (Ht : b_terminators B = []) (He : ext (<[c := push_terminator t B]> l) F).

Lemma ended_block : F !! c = Some (push_terminator t B).
Proof.
  destruct (He c (push_terminator t B)) as (B' & HB' & Hx); [apply list_lookup_insert_eq; by apply lookup_lt_Some in HB|].
  rewrite HB'. f_equal. apply Hx. cbn. by destruct (b_terminators B).
Qed.
Lemma ended_head : head (b_terminators (push_terminator t B)) = Some t.
Proof. cbn. by rewrite Ht. Qed.
Lemma ended_at k env w : at_end l c k env w <-> steps C F k c (length (b_instructions (push_terminator t B))) env w.
Proof. unfold at_end. cbn. split; [intros (B0 & HB0 & H); by replace B0 with B in H by congruence|by exists B]. Qed.

Lemma at_return x k env w : tm_kind t = Return x -> at_end l c k env w <-> env !! x = Some w.
Proof. intros E. rewrite ended_at. apply (steps_return _ _ _ _ _ ended_block ended_head); done. Qed.

Lemma get_index {A} (xs : list A) j : index_u32 j = N.of_nat j -> get xs (index_u32 j) = xs !! j.
Proof. intros ->. unfold get. by rewrite Nat2N.id. Qed.
Lemma at_jump j T args k env w :
  tm_kind t = Jump (index_u32 j) args -> index_u32 j = N.of_nat j -> F !! j = Some T ->
  at_end l c k env w <-> exists k', k = S k' /\ steps C F k' j 0 (assign env env (b_parameters T) args) w.
Proof.
  intros E Hj HT. rewrite ended_at, (steps_jump _ _ _ _ _ ended_block ended_head _ _ _ _ _ E).
  unfold enter. rewrite (get_index _ _ Hj), HT, Hj, Nat2N.id. done.
Qed.
Lemma assign_nil old env ds : assign old env ds [] = env.
Proof. by destruct ds. Qed.
Lemma at_branch x j1 j2 k env w :
  tm_kind t = Branch x (index_u32 j1) [] (index_u32 j2) [] ->
  index_u32 j1 = N.of_nat j1 -> index_u32 j2 = N.of_nat j2 ->
  at_end l c k env w <-> exists k' (b : bool), k = S k' /\ env !! x = Some (VBool b) /\
    steps C F k' (if b then j1 else j2) 0 env w.
Proof.
  intros E H1 H2. rewrite ended_at, (steps_branch _ _ _ _ _ ended_block ended_head _ _ _ _ _ _ _ _ E).
  assert (Hent : forall j, enter F env (index_u32 j) [] = env).
  { intros j. unfold enter. destruct (get F _); [apply assign_nil|done]. }
  split; intros (k' & b & -> & Hx & H); exists k', b; (split_and!; [done..|]); destruct b;
    rewrite Hent, ?H1, ?H2, Nat2N.id in *; done.
Qed.
End ended.
End points.
