(* ===== verification/SemExpr.v ===== *)
(** * The lowering of expressions

    A tree of an expression arena becomes straight-line code of the current
    block: the code returns what the rest returns from an environment that
    holds the value of the tree, and only if the tree has a value. *)
From stdpp Require Import base numbers list list_numbers strings gmap.
From S2P Require Import Prelude Source Diagnostics Abi CfgAlgorithms ControlFlow ControlFlowSpec ControlFlowExec Syntax.
From S2P Require Import Semantics SemLower SemValues SourceSemantics SourceRelation CfgSteps SemLogic.

(** ** Diagnostics are only added *)

Lemma growing_value_of id : growing (value_of id).
Proof. unfold value_of. grows. Qed.
Lemma growing_operator_error span message : growing (operator_error span message).
Proof. unfold operator_error. grows. Qed.
#[export] Hint Resolve growing_value_of growing_operator_error : growing.
Lemma growing_values_of ids : growing (values_of ids).
Proof. induction ids; cbn; grows. Qed.
#[export] Hint Resolve growing_values_of : growing.
Lemma growing_lower_call callables modules offsets caller span callee arguments :
  growing (lower_call callables modules offsets caller span callee arguments).
Proof. unfold lower_call. grows. Qed.
#[export] Hint Resolve growing_lower_call : growing.
Lemma growing_lower_expression_body callables modules offsets caller kind span :
  growing (lower_expression_body callables modules offsets caller kind span).
Proof. destruct kind; cbn; unfold binary_i32, comparison_i32, equality; grows. Qed.
Lemma growing_lower_expression {R} callables modules offsets caller kind span :
  growing (@lower_expression callables modules offsets caller R kind span).
Proof. apply growing_invoke, growing_lower_expression_body. Qed.
Lemma growing_store_result {R} i v : growing (@store_expression_result R i v).
Proof. unfold store_expression_result. grows. Qed.
#[export] Hint Resolve growing_lower_expression growing_store_result : growing.
Lemma growing_lower_order fbody callables modules offsets caller order :
  growing (lower_order fbody callables modules offsets caller order).
Proof. induction order; cbn; grows. Qed.
#[export] Hint Resolve growing_lower_order : growing.
Lemma growing_lower_root {R} fbody callables modules offsets caller root :
  growing (@lower_root fbody callables modules offsets caller R root).
Proof. apply growing_invoke. unfold lower_root_body. grows. Qed.
#[export] Hint Resolve growing_lower_root : growing.

(** ** Straight-line code *)

Definition is_open (s : LS) : Prop := exists B, open_at s (ls_current s) B.

Record line (ps : list ValueId) (s s' : LS) : Prop := {
  ln_current : ls_current s' = ls_current s;
  ln_bindings : ls_bindings s' = ls_bindings s;
  ln_moves : moves s s';
  ln_open : is_open s -> is_open s';
  ln_wf : wf ps s -> wf ps s' }.
#[export] Instance line_preorder ps : PreOrder (line ps).
Proof.
  split; [by intros s; split|]. intros s1 s2 s3 [A1 B1 C1 D1 E1] [A2 B2 C2 D2 E2].
  split; [congruence|congruence|by etrans|auto..].
Qed.

(** The state after [emit] *)
Definition emitted (ty : Ty) (span : Span) (kind : InstructionKind) (B : Block) (s : LS) : LS :=
  set_draft_blocks (<[ls_current s :=
      push_instruction (mkInstruction (mkValueDefinition (ls_next_value s) ty span) kind) B]> (ls_blocks s))
    (set_next_value (ls_next_value s + 1) s).
Lemma emitted_line ps ty span kind B s : open_at s (ls_current s) B -> line ps s (emitted ty span kind B s).
Proof.
  intros [HB Ht]. pose proof (lookup_lt_Some _ _ _ HB). split; [done|done|split|..]; cbn.
  - lia.
  - by eapply touch_insert, bext_instruction.
  - by left.
  - intros _. eexists. split; cbn; [by apply list_lookup_insert_eq|done].
  - intros [Hi Hb]. split; cbn; [|by eapply bounded_le; [|exact Hb]; lia].
    eapply wf_values_insert; [done..|]. apply push_instruction_ids.
Qed.

Section expressions.
Context (fbody : FunctionBodySyntax) (callables : gmap string FunctionId) (modules : list ModuleSymbols)
        (offsets : list nat) (caller : nat) (ps : list ValueId).
Context (resolve : string -> option FunctionKey) (C : Calls).

(** What the symbol tables say of the calls *)
Record calls_ok : Prop := {
  co_resolve name fid : callables !! name = Some fid -> resolve name = Some (callee_key fid);
  co_complete fid module symbol : get modules (fid_module fid) = Some module ->
    get (ms_functions module) (fid_declaration fid) = Some symbol ->
    is_Some (mapM id (sg_parameters (fy_signature symbol))) /\ is_Some (sg_result (fy_signature symbol));
  co_typed fid module symbol ty vs v : get modules (fid_module fid) = Some module ->
    get (ms_functions module) (fid_declaration fid) = Some symbol ->
    sg_result (fy_signature symbol) = Some ty -> C (callee_key fid) vs v -> value_ty v = ty;
  co_fun key vs v v' : C key vs v -> C key vs v' -> v = v' }.
Context (calls_good : calls_ok).
Notation evals := (evals fbody resolve C).
Notation evals_list := (evals_list fbody resolve C).
Notation applies := (applies resolve C).

Lemma applies_fun store kind vs v v' : applies store kind vs v -> applies store kind vs v' -> v = v'.
Proof.
  destruct kind; cbn [SourceRelation.applies]; try congruence.
  intros (key & E & H) (key' & E' & H'). replace key' with key in H' by congruence. by eapply (co_fun calls_good).
Qed.
Lemma evals_fun store id v v' : evals store id v -> evals store id v' -> v = v'.
Proof.
  intros H. revert v'. revert id v H. apply (evals_ind2 _ _ _ _
    (fun id v _ => forall v', evals store id v' -> v = v')
    (fun ids vs _ => forall vs', evals_list store ids vs' -> vs = vs')).
  - intros id e vs v He _ IH Ha v' H'. inversion H' as [? e' vs' ? He' Hvs' Ha']; subst.
    replace e' with e in * by congruence. rewrite <- (IH _ Hvs') in Ha'. by eapply applies_fun.
  - intros vs' H'. by inversion H'.
  - intros id ids v vs _ IH _ IH2 vs' H'. inversion H'; subst. f_equal; auto.
Qed.

(** ** One node *)

(** The value of an expression of the table *)
Definition entry (values : list (option TypedValue)) (i : nat) : option TypedValue := mjoin (values !! i).
Definition child_value (values : list (option TypedValue)) (env : Env) (id : ExpressionId) (v : Value) : Prop :=
  exists tv, entry values (N.to_nat id) = Some tv /\ env !! tv_value tv = Some v /\ value_ty v = tv_ty tv.

(** From [env] the code goes on with [v] as the value [tv]. *)
Definition computed (s : LS) (env env' : Env) (tv : TypedValue) (v : Value) : Prop :=
  agree (ls_next_value s) env env' /\ env' !! tv_value tv = Some v /\ value_ty v = tv_ty tv.
(** Both directions, for the values that [P] admits *)
Definition computes (F : list Block) (s s' : LS) (env : Env) (tv : TypedValue) (P : Value -> Prop) : Prop :=
  (forall v, P v -> exists env', computed s env env' tv v /\
     forall k w, at_end C F (ls_blocks s') (ls_current s') k env' w -> at_end C F (ls_blocks s) (ls_current s) k env w) /\
  (forall k w, at_end C F (ls_blocks s) (ls_current s) k env w -> exists v env', P v /\ computed s env env' tv v /\
     at_end C F (ls_blocks s') (ls_current s') k env' w).

(** What lowering a node leads to *)
Record node (s s' : LS) (kind : ExpressionKind) (tv : TypedValue) : Prop := {
  nd_line : line ps s s';
  nd_values : ls_expression_values s' = ls_expression_values s;
  nd_bound : (tv_value tv < ls_next_value s')%N;
  nd_computes F store env vs : ext (ls_blocks s') F -> rel (ls_bindings s) store env ->
    Forall2 (child_value (ls_expression_values s) env) (expression_children kind) vs ->
    computes F s s' env tv (applies store kind vs) }.

(** The instruction means what the operator does. *)
Definition means (s : LS) (kind : ExpressionKind) (ty : Ty) (ik : InstructionKind) : Prop :=
  forall store env vs, rel (ls_bindings s) store env ->
    Forall2 (child_value (ls_expression_values s) env) (expression_children kind) vs ->
    forall v, (instruction_value C env ik v <-> applies store kind vs v) /\ (applies store kind vs v -> value_ty v = ty).

Lemma emit_node s s0 B kind ty span ik :
  open_at s (ls_current s) B -> means s kind ty ik ->
  s0 = emitted ty span ik B s -> node s s0 kind (mkTypedValue ty (ls_next_value s)).
Proof.
  intros HB Hm ->. split; [by apply emitted_line|done|cbn; lia|]. intros F store env vs He Hr Hvs.
  destruct HB as [HB Ht]. pose proof (fun k w => at_emit C F _ _ _ _ k env w HB Ht He) as Hat. cbn in Hat.
  assert (Hc : forall v, applies store kind vs v ->
    computed s env (<[ls_next_value s := v]> env) (mkTypedValue ty (ls_next_value s)) v).
  { intros v Hv. split_and!; [apply agree_insert; lia|by rewrite lookup_insert_eq|by apply (Hm _ _ _ Hr Hvs)]. }
  split.
  - intros v Hv. exists (<[ls_next_value s := v]> env). split; [by apply Hc|]. intros k w H. apply Hat.
    exists v. split; [by apply (Hm _ _ _ Hr Hvs)|done].
  - intros k w (v & Hv & H)%Hat. exists v, (<[ls_next_value s := v]> env).
    apply (Hm _ _ _ Hr Hvs) in Hv. split_and!; [done|by apply Hc..|done].
Qed.

(** ** Each kind of node *)

Lemma child_i32 values env id v tv :
  child_value values env id v -> entry values (N.to_nat id) = Some tv -> is_i32 tv = true ->
  exists a, v = VI32 a /\ env !! tv_value tv = Some (VI32 a).
Proof.
  intros (tv' & E' & Hv & Hty) E Hi. replace tv' with tv in * by congruence. apply bool_decide_eq_true in Hi.
  rewrite Hi in Hty. destruct v; [done|eauto].
Qed.

(** An operation on two numbers *)
Lemma binary_means s kind ty ik lhs rhs tl tr (f : Z -> Z -> Value) :
  expression_children kind = [lhs; rhs] ->
  entry (ls_expression_values s) (N.to_nat lhs) = Some tl -> entry (ls_expression_values s) (N.to_nat rhs) = Some tr ->
  is_i32 tl = true -> is_i32 tr = true ->
  (forall env v, instruction_value C env ik v <-> binary env (tv_value tl) (tv_value tr) f = Done v) ->
  (forall store a b v, applies store kind [VI32 a; VI32 b] v <-> Some (f a b) = Some v) ->
  (forall a b, value_ty (f a b) = ty) -> means s kind ty ik.
Proof.
  intros Hc El Er Il Ir Hik Hap Hty store env vs Hr Hvs v. rewrite Hc in Hvs.
  inversion Hvs as [|? vl ? ? Hl Hvs']; subst. inversion Hvs' as [|? vr ? ? Hrr Hvs'']; subst. inversion Hvs''; subst.
  destruct (child_i32 _ _ _ _ _ Hl El Il) as (a & -> & Ha). destruct (child_i32 _ _ _ _ _ Hrr Er Ir) as (b & -> & Hb).
  rewrite Hik, Hap. unfold binary, read_i32. rewrite Ha, Hb. cbn. split; [|intros [= <-]; apply Hty].
  split; intros [= <-]; done.
Qed.

(** Equality of two values of one type *)
Lemma equality_means s kind ik lhs rhs tl tr (flip : bool -> bool) :
  expression_children kind = [lhs; rhs] ->
  entry (ls_expression_values s) (N.to_nat lhs) = Some tl -> entry (ls_expression_values s) (N.to_nat rhs) = Some tr ->
  tv_ty tl = tv_ty tr ->
  (forall env v, instruction_value C env ik v <->
     (a ← or_stuck (env !! tv_value tl); b ← or_stuck (env !! tv_value tr); r ← same_scalar a b; mret (VBool (flip r))) = Done v) ->
  (forall store a b v, value_ty a = value_ty b -> applies store kind [a; b] v <-> (VBool ∘ flip) <$> (match same_scalar a b with Done r => Some r | _ => None end) = Some v) ->
  means s kind Bool ik.
Proof.
  intros Hc El Er Ht Hik Hap store env vs Hr Hvs v. rewrite Hc in Hvs.
  inversion Hvs as [|? a ? ? (tl' & El' & Ha & Tl) Hvs']; subst.
  inversion Hvs' as [|? b ? ? (tr' & Er' & Hb & Tr) Hvs'']; subst. inversion Hvs''; subst.
  replace tl' with tl in * by congruence. replace tr' with tr in * by congruence.
  rewrite Hik, Hap by congruence. rewrite Ha, Hb. cbn. destruct (same_scalar a b) eqn:E; cbn.
  - split; [split; intros [= <-]; done|by intros [= <-]].
  - split; [split; intros; discriminate|by intros].
  - split; [split; intros; discriminate|by intros].
Qed.

Notation never := (fun (_ : LS) (_ : option TypedValue) => False).
Notation entry_of s id := (entry (ls_expression_values s) (N.to_nat id)).

Lemma spec_value_of id s tv (Q : LS -> TypedValue -> Prop) L :
  entry_of s id = Some tv -> Q s tv -> spec (value_of id) s Q L.
Proof.
  intros E HQ. unfold value_of. sbind. apply spec_gets. intros _. apply spec_or_leave.
  - unfold get. fold (entry_of s id). rewrite E. by intros ? [= <-].
  - unfold get. fold (entry_of s id). by rewrite E.
Qed.
Lemma spec_values_of ids s tvs (Q : LS -> list TypedValue -> Prop) L :
  Forall2 (fun id tv => entry_of s id = Some tv) ids tvs -> Q s tvs -> spec (values_of ids) s Q L.
Proof.
  intros H. revert Q. induction H as [|id tv ids tvs Hv Hvs IH]; intros Q HQ; cbn; [by apply spec_ret|].
  sbind. eapply spec_value_of; [done|]. intros _. sbind. apply IH. intros _. by apply spec_ret.
Qed.

(** The node is lowered, or a diagnostic is reported. *)
Definition lowers (s : LS) (kind : ExpressionKind) (s' : LS) (r : option TypedValue) : Prop :=
  exists tv, r = Some tv /\ node s s' kind tv.

Lemma spec_emit_node s kind ty span ik :
  is_open s -> means s kind ty ik -> spec (emit ty span ik) s (lowers s kind) never.
Proof.
  intros (B & HB) Hm. apply spec_emit. intros B' HB'. eexists. split; [done|]. eapply emit_node; [exact HB|done|].
  unfold emitted. destruct HB as [HB _]. by replace B' with B by congruence.
Qed.

Lemma spec_operation s kind operator span lhs rhs message ty op (f : Z -> Z -> Value) :
  is_open s -> expression_children kind = [lhs; rhs] ->
  Forall (fun id => is_Some (entry_of s id)) (expression_children kind) ->
  (forall env x y v, instruction_value C env (op x y) v <-> binary env x y f = Done v) ->
  (forall store a b v, applies store kind [VI32 a; VI32 b] v <-> Some (f a b) = Some v) ->
  (forall a b, value_ty (f a b) = ty) ->
  spec (lhs ← value_of lhs; rhs ← value_of rhs;
        if negb (is_i32 lhs) || negb (is_i32 rhs) then operator_error operator message
        else emit ty span (op (tv_value lhs) (tv_value rhs))) s (lowers s kind) never.
Proof.
  intros Ho Hc Hk Hop Hap Hty. rewrite Hc in Hk.
  apply Forall_cons in Hk as [[tl El] Hk]. apply Forall_cons in Hk as [[tr Er] _].
  sbind. eapply spec_value_of; [done|]. intros _. sbind. eapply spec_value_of; [done|]. intros _.
  destruct (is_i32 tl) eqn:Il; cbn; [|by sreport]. destruct (is_i32 tr) eqn:Ir; cbn; [|by sreport].
  apply spec_emit_node; [done|]. by eapply binary_means.
Qed.
Lemma spec_equality s kind operator span lhs rhs op (flip : bool -> bool) :
  is_open s -> expression_children kind = [lhs; rhs] ->
  Forall (fun id => is_Some (entry_of s id)) (expression_children kind) ->
  (forall env x y v, instruction_value C env (op x y) v <->
     (a ← or_stuck (env !! x); b ← or_stuck (env !! y); r ← same_scalar a b; mret (VBool (flip r))) = Done v) ->
  (forall store a b v, value_ty a = value_ty b -> applies store kind [a; b] v <->
     (VBool ∘ flip) <$> (match same_scalar a b with Done r => Some r | _ => None end) = Some v) ->
  spec (equality operator span lhs rhs op) s (lowers s kind) never.
Proof.
  intros Ho Hc Hk Hop Hap. rewrite Hc in Hk.
  apply Forall_cons in Hk as [[tl El] Hk]. apply Forall_cons in Hk as [[tr Er] _]. unfold equality.
  sbind. eapply spec_value_of; [done|]. intros _. sbind. eapply spec_value_of; [done|]. intros _.
  destruct (bool_decide (tv_ty tl <> tv_ty tr)) eqn:Et; cbn; [by sreport|]. apply bool_decide_eq_false, dec_stable in Et.
  destruct (bool_decide _); [by sreport|]. apply spec_emit_node; [done|]. by eapply equality_means.
Qed.

Lemma child_values_mapM values env ids tvs vs :
  Forall2 (fun id tv => entry values (N.to_nat id) = Some tv) ids tvs -> Forall2 (child_value values env) ids vs ->
  mapM (fun x => env !! x) (tv_value <$> tvs) = Some vs.
Proof.
  intros H. revert vs. induction H as [|id tv ids tvs E H IH]; intros vs Hvs; inversion Hvs as [|? v ? vs' (tv' & E' & Hv & _) Hvs']; subst; [done|].
  cbn. replace tv with tv' by congruence. rewrite Hv. cbn. by rewrite (IH _ Hvs').
Qed.
Lemma entries_known s ids :
  Forall (fun id => is_Some (entry_of s id)) ids -> exists tvs, Forall2 (fun id tv => entry_of s id = Some tv) ids tvs.
Proof.
  induction 1 as [|id ids [tv Hv] _ (tvs & IH)]; [by exists []|]. exists (tv :: tvs). by constructor.
Qed.

Lemma node_call_edges edges s s' kind tv : node (set_call_edges edges s) s' kind tv -> node s s' kind tv.
Proof. intros [[A B [N T M] O W] V Bd Cm]. 
  split; [split; [exact A|exact B|split; [exact N|exact T|exact M]|exact O|]|exact V|exact Bd|exact Cm].
  intros [I Hb]. apply W. by split.
Qed.

Lemma spec_lower_call s span callee p1 arguments p2 :
  is_open s -> Forall (fun id => is_Some (entry_of s id)) arguments ->
  spec (lower_call callables modules offsets caller span callee arguments) s
    (lowers s (ECall callee p1 arguments p2)) never.
Proof.
  intros Ho (tvs & Htvs)%entries_known. unfold lower_call. sbind. eapply spec_values_of; [done|]. intros _.
  destruct (callables !! is_text callee) as [fid|] eqn:Ec; [|by sreport].
  sbind. apply spec_expect. intros module Em _. sbind. apply spec_expect. intros symbol Es _.
  destruct (co_complete calls_good _ _ _ Em Es) as [[tys Etys] [ty Ety]]. rewrite Etys, Ety.
  sbind. apply spec_or_leave; [|done]. intros ? [= <-] _. sbind. apply spec_or_leave; [|done]. intros ? [= <-] _.
  destruct (negb _); [by sreport|]. destruct (existsb _ _); [by sreport|].
  sbind. apply spec_expect. intros offset _ _. sbind. apply spec_record_call_edge. intros _. cbn [negb].
  eapply spec_post; [apply (spec_emit_node _ (ECall callee p1 arguments p2))|].
  - done.
  - intros store env vs Hr Hvs v. cbn [expression_children ls_expression_values set_call_edges] in Hvs.
    cbn [instruction_value SourceRelation.applies].
    rewrite (child_values_mapM _ _ _ _ _ Htvs Hvs). split.
    + split; [intros (? & [= <-] & H); eexists; split; [by apply (co_resolve calls_good)|done]|].
      intros (key & Hk & H). rewrite (co_resolve calls_good _ _ Ec) in Hk. injection Hk as <-. eauto.
    + intros (key & Hk & H). rewrite (co_resolve calls_good _ _ Ec) in Hk. injection Hk as <-.
      by eapply (co_typed calls_good).
  - intros s' r _ (tv & -> & Hn). exists tv. split; [done|]. by eapply node_call_edges.
Qed.
(** A reference is the value of its binding. *)
Lemma reference_node s name j b :
  wf ps s -> rfind_binding (is_text name) 0 (ls_bindings s) = Some (j, b) ->
  node s s (EReference name) (mkTypedValue (bd_ty b) (bd_value b)).
Proof.
  intros [_ Hb] Hf. split; [done|done| |].
  - destruct (rel_rfind _ _ _ _ _ Hf) as (i & _ & Hi & _). cbn. by eapply (Forall_lookup_1 _ _ _ _ Hb).
  - intros F store env vs _ Hr _. destruct (rel_read _ _ _ _ _ _ Hf Hr) as (v & Hv & Hx & Hty).
    assert (Hc : computed s env env (mkTypedValue (bd_ty b) (bd_value b)) v) by by split_and!.
    split.
    + intros v' Hv'. cbn in Hv'. replace v' with v by congruence. exists env. by split.
    + intros k w H. exists v, env. by split_and!.
Qed.

Lemma literal_means s kind ty ik v0 :
  expression_children kind = [] -> (forall env v, instruction_value C env ik v <-> Some v0 = Some v) ->
  (forall store v, applies store kind [] v <-> Some v0 = Some v) -> value_ty v0 = ty -> means s kind ty ik.
Proof.
  intros Hc Hik Hap Hty store env vs _ Hvs v. rewrite Hc in Hvs. inversion Hvs; subst. rewrite Hik, Hap.
  split; [done|by intros [= <-]].
Qed.
Lemma negation_means s span operand tv :
  entry_of s operand = Some tv -> is_i32 tv = true -> means s (ENegation span operand) I32 (I32Neg (tv_value tv)).
Proof.
  intros E Hi store env vs _ Hvs v. inversion Hvs as [|? a ? ? Ha Hvs']; subst. inversion Hvs'; subst.
  destruct (child_i32 _ _ _ _ _ Ha E Hi) as (z & -> & Hz).
  cbn [instruction_value eval_kind SourceRelation.applies apply_operator]. unfold read_i32. rewrite Hz. cbn.
  split; [split; intros [= <-]; done|by intros [= <-]].
Qed.

(** Lowering a node whose children are lowered *)
Lemma spec_lower_expression_body kind span s :
  is_open s -> wf ps s -> Forall (fun id => is_Some (entry_of s id)) (expression_children kind) ->
  spec (lower_expression_body callables modules offsets caller kind span) s (lowers s kind) never.
Proof.
  intros Ho Hw Hk. destruct kind; cbn [lower_expression_body]; unfold binary_i32, comparison_i32;
    lazymatch goal with
    | |- spec (equality _ _ _ _ _) _ _ _ => idtac
    | |- context [I32Neg] => idtac
    | |- context [operator_error] => eapply spec_operation; [done|reflexivity|done|intros; cbn [instruction_value eval_kind]; reflexivity|reflexivity|reflexivity]
    | _ => idtac
    end.
  - sbind. apply spec_gets. intros _. destruct (rfind_binding _ _ _) as [[j b]|] eqn:E; [|by sreport].
    apply spec_ret. eexists. split; [done|]. by eapply reference_node.
  - apply spec_emit_node; [done|]. eapply (literal_means _ _ _ _ (VBool value)); try done.
    intros env v. cbn. split; intros [= <-]; done.
  - destruct (parse_i32 spelling) as [z|] eqn:E; [|by sreport]. apply spec_emit_node; [done|].
    eapply (literal_means _ _ _ _ (VI32 z)); try done.
    + intros env v. cbn. split; intros [= <-]; done.
    + intros store v. cbn. by rewrite E.
  - inversion Hk as [|? ? [tv E] _]; subst. sbind. eapply spec_value_of; [done|]. intros _.
    destruct (is_i32 tv) eqn:Hi; cbn; [|by sreport]. apply spec_emit_node; [done|]. by apply negation_means.
  - eapply (spec_equality _ _ _ _ _ _ Eq (fun b => b)); [done..|reflexivity|].
    intros store [a|a] [b|b] v Hty; try done; reflexivity.
  - eapply (spec_equality _ _ _ _ _ _ Ne negb); [done..|reflexivity|].
    intros store [a|a] [b|b] v Hty; try done; reflexivity.
  - by apply spec_lower_call.
Qed.
Lemma spec_lower_expression {R} kind span s (L : LS -> R -> Prop) :
  is_open s -> wf ps s -> Forall (fun id => is_Some (entry_of s id)) (expression_children kind) ->
  spec (lower_expression callables modules offsets caller kind span) s (lowers s kind) L.
Proof.
  intros. by apply spec_invoke_never, spec_lower_expression_body.
Qed.

(** ** The order of the nodes *)

(** Every node comes after its children. *)
Fixpoint ready (seen order : list nat) : Prop :=
  match order with
  | [] => True
  | i :: order =>
      (forall e, fb_expressions fbody !! i = Some e ->
         Forall (fun c => N.to_nat c ∈ seen) (expression_children (es_kind e))) /\ ready (i :: seen) order
  end.
Lemma ready_snoc seen order i :
  ready seen order ->
  (forall e, fb_expressions fbody !! i = Some e ->
     Forall (fun c => N.to_nat c ∈ order \/ N.to_nat c ∈ seen) (expression_children (es_kind e))) ->
  ready seen (order ++ [i]).
Proof.
  revert seen. induction order as [|j order IH]; intros seen H Hi; cbn in *.
  - split; [|done]. intros e He. eapply Forall_impl; [exact (Hi e He)|]. intros c [[]%elem_of_nil|?]; done.
  - destruct H as [Hj H]. split; [done|]. apply IH; [done|]. intros e He. eapply Forall_impl; [exact (Hi e He)|].
    intros c [[->|Hc]%elem_of_cons|Hc]; [right; left|by left|by right; right].
Qed.

(** The children of an opened node are done or above it on the stack. *)
Definition waiting (order : list nat) (stack : list (ExpressionId * bool)) : Prop :=
  forall above id below e, stack = above ++ (id, true) :: below -> get (fb_expressions fbody) id = Some e ->
    Forall (fun c => N.to_nat c ∈ order \/ c ∈ above.*1) (expression_children (es_kind e)).
Lemma waiting_close order id stack : waiting order ((id, true) :: stack) -> waiting (order ++ [N.to_nat id]) stack.
Proof.
  intros H above id' below e -> He. eapply Forall_impl; [apply (H ((id, true) :: above) id' below e); done|].
  intros c [Hc|[->|Hc]%elem_of_cons]; [left; apply elem_of_app; by left|left; apply elem_of_app; right; by left|by right].
Qed.
Lemma waiting_open order id e stack :
  get (fb_expressions fbody) id = Some e -> waiting order ((id, false) :: stack) ->
  waiting order (((fun child => (child, false)) <$> expression_children (es_kind e)) ++ (id, true) :: stack).
Proof.
  intros He H above id' below e' E He'. set (cs := (fun child => (child, false)) <$> _) in *.
  assert (Hcs : cs.*1 = expression_children (es_kind e)).
  { unfold cs. rewrite <- list_fmap_compose. apply list_fmap_id. }
  apply app_eq_inv in E as [(k & E1 & E2)|(k & E1 & E2)].
  - destruct k as [|[? ?] k]; cbn in E2.
    + injection E2 as <- <-. rewrite app_nil_r in E1. subst above. rewrite Hcs.
      replace e' with e by congruence. apply Forall_forall. by right.
    + injection E2 as <- <- ->. assert (Hin : (id', true) ∈ cs) by (rewrite E1; apply elem_of_app; right; left).
      unfold cs in Hin. by apply list_elem_of_fmap in Hin as (? & [=] & _).
  - subst above. destruct k as [|[x b] k]; cbn in E2.
    + injection E2 as <- <-. rewrite app_nil_r, Hcs. replace e' with e by congruence. apply Forall_forall. by right.
    + injection E2 as <- <- ->. eapply Forall_impl; [apply (H ((id, false) :: k) id' below e'); done|].
      intros c [Hc|Hc]; [by left|right]. rewrite fmap_app. apply elem_of_app. by right.
Qed.

Lemma postorder_spec fuel stack order order' :
  postorder_walk fbody fuel stack order = Some order' -> ready [] order -> waiting order stack ->
  ready [] order' /\ (forall i, i ∈ order -> i ∈ order') /\ Forall (fun p => N.to_nat p.1 ∈ order') stack /\
  forall P : ExpressionId -> Prop, Forall (fun i => P (N.of_nat i)) order -> Forall (fun p => P p.1) stack ->
    (forall id e, P id -> get (fb_expressions fbody) id = Some e -> Forall P (expression_children (es_kind e))) ->
    Forall (fun i => P (N.of_nat i)) order'.
Proof.
  revert stack order. induction fuel as [|fuel IH]; intros stack order H Hr Hw; [done|]. cbn in H.
  destruct stack as [|[id []] stack].
  - injection H as <-. split_and!; [done|done|constructor|done].
  - apply IH in H as (H1 & H2 & H3 & H4).
    + split_and!; [done| | |].
      * intros i Hi. apply H2, elem_of_app. by left.
      * constructor; [|done]. apply H2, elem_of_app. right. left.
      * intros P Ho Hs Hc. apply Forall_cons in Hs as [Hid Hs]. apply H4; [|done|done]. apply Forall_app. split; [done|].
        constructor; [|constructor]. by rewrite N2Nat.id.
    + apply ready_snoc; [done|]. intros e He. eapply Forall_impl; [by apply (Hw [] id stack e)|].
      intros c [Hc|[]%elem_of_nil]. by left.
    + by apply waiting_close.
  - destruct (get (fb_expressions fbody) id) as [e|] eqn:He; [|done]. cbn in H.
    apply IH in H as (H1 & H2 & H3 & H4); [|done|by apply waiting_open]. apply Forall_app in H3 as [_ H3].
    apply Forall_cons in H3 as [Hid H3]. split_and!; [done|done|by constructor|].
    intros P Ho Hs Hc. apply Forall_cons in Hs as [HP Hs]. apply H4; [done| |done].
    apply Forall_app. split; [|by constructor]. apply Forall_fmap. eapply Forall_impl; [by apply (Hc id e)|done].
Qed.

(** ** A sequence of nodes *)

Definition known (s : LS) (seen : list nat) : Prop :=
  Forall (fun i => exists tv, entry (ls_expression_values s) i = Some tv /\ (tv_value tv < ls_next_value s)%N) seen.
Definition valued (store : Store) (env : Env) (s : LS) (seen : list nat) : Prop :=
  Forall (fun i => exists tv v, entry (ls_expression_values s) i = Some tv /\ evals store (N.of_nat i) v /\
    env !! tv_value tv = Some v /\ value_ty v = tv_ty tv) seen.

(** From [s] to [s'] the code adds the values of [order]. *)
Record flows (F : list Block) (s s' : LS) (store : Store) (env : Env) (seen' : list nat) (P : Prop) : Prop := {
  fl_forward : P -> exists env', agree (ls_next_value s) env env' /\ valued store env' s' seen' /\
    forall k w, at_end C F (ls_blocks s') (ls_current s') k env' w -> at_end C F (ls_blocks s) (ls_current s) k env w;
  fl_backward k w : at_end C F (ls_blocks s) (ls_current s) k env w ->
    exists env', agree (ls_next_value s) env env' /\ valued store env' s' seen' /\
      at_end C F (ls_blocks s') (ls_current s') k env' w }.

Lemma sem_entry_insert values i j r :
  i < length values -> entry (<[i := r]> values) j = if decide (i = j) then r else entry values j.
Proof.
  intros Hi. unfold entry. destruct (decide (i = j)) as [<-|Hne]; [by rewrite list_lookup_insert_eq|by rewrite list_lookup_insert_ne].
Qed.
Lemma spec_store_result {R} i r s (Q : LS -> bool -> Prop) (L : LS -> R -> Prop) :
  (i < length (ls_expression_values s) -> Q (set_expression_values (<[i := r]> (ls_expression_values s)) s) true) ->
  spec (store_expression_result i r) s Q L.
Proof.
  intros HQ. unfold store_expression_result. sbind. apply spec_exhausted. intros _ _. sbind. apply spec_gets. intros _.
  destruct (Nat.ltb_spec i (length (ls_expression_values s))); [|apply spec_crash]. sbind. apply spec_modify. intros _ _.
  apply spec_ret. auto.
Qed.
Lemma line_values ps' s s' values : line ps' s s' -> line ps' s (set_expression_values values s').
Proof.
  intros [A B [N T M] O W]. split; [exact A|exact B|split; [exact N|exact T|exact M]|exact O|].
  intros H. destruct (W H) as [I Hb]. by split.
Qed.

(** One node and its entry *)
Lemma node_flows F s s' store env i e seen tv :
  fb_expressions fbody !! i = Some e -> Forall (fun c => N.to_nat c ∈ seen) (expression_children (es_kind e)) ->
  node s s' (es_kind e) tv -> i < length (ls_expression_values s') ->
  ext (ls_blocks s') F -> wf ps s -> known s seen -> rel (ls_bindings s) store env -> valued store env s seen ->
  flows F s (set_expression_values (<[i := Some tv]> (ls_expression_values s')) s') store env (i :: seen)
    (exists v, evals store (N.of_nat i) v).
Proof.
  intros He Hch [Hl Hvals Hb Hcomp] Hlen HF Hw Hk Hr Hv.
  assert (Hvs : exists vs, Forall2 (child_value (ls_expression_values s) env) (expression_children (es_kind e)) vs /\
    evals_list store (expression_children (es_kind e)) vs).
  { clear Hcomp. induction Hch as [|c cs Hc Hch (vs & IH1 & IH2)]; [exists []; repeat constructor|].
    unfold valued in Hv. rewrite Forall_forall in Hv. destruct (Hv _ Hc) as (tvc & v & E1 & E2 & E3 & E4). rewrite N2Nat.id in E2.
    exists (v :: vs). split; constructor; try done. by exists tvc. }
  destruct Hvs as (vs & Hvs & Hlist). destruct (Hcomp F store env vs HF Hr Hvs) as [Hfw Hbw].
  assert (Hnew : forall env' v, applies store (es_kind e) vs v -> computed s env env' tv v ->
    valued store env' (set_expression_values (<[i := Some tv]> (ls_expression_values s')) s') (i :: seen)).
  { intros env' v Ha (Hagree & Hx & Hty). unfold valued. cbn. rewrite Hvals in *.
    assert (Hi : evals store (N.of_nat i) v) by (eapply evals_intro; [unfold get; by rewrite Nat2N.id|done|done]).
    constructor; [exists tv, v; by rewrite sem_entry_insert, decide_True by done|].
    unfold valued, known in Hv, Hk. rewrite Forall_forall in Hk, Hv. apply Forall_forall. intros j Hj.
    rewrite sem_entry_insert by done. destruct (decide (i = j)) as [<-|Hne]; [by exists tv, v|].
    destruct (Hv _ Hj) as (tvj & vj & E1 & E2 & E3 & E4). exists tvj, vj. split_and!; [done|done| |done].
    rewrite Hagree; [done|]. destruct (Hk _ Hj) as (tvj' & E1' & Hlt). by replace tvj with tvj' by congruence. }
  split.
  - intros (v & H). inversion H as [? e' vs' ? He' Hvs' Ha]; subst. unfold get in He'. rewrite Nat2N.id in He'.
    replace e' with e in * by congruence.
    assert (vs' = vs) as ->.
    { clear -Hvs' Hlist calls_good. revert vs Hlist. induction Hvs'; intros ? Hlist; inversion Hlist; subst; [done|].
      f_equal; [by eapply evals_fun|auto]. }
    destruct (Hfw v Ha) as (env' & Hc & Hat). exists env'. split_and!; [apply Hc|by eapply Hnew|exact Hat].
  - intros k w Hat. destruct (Hbw k w Hat) as (v & env' & Ha & Hc & Hat'). exists env'. split_and!; [apply Hc|by eapply Hnew|exact Hat'].
Qed.
Lemma node_known s s' kind tv i seen :
  node s s' kind tv -> i < length (ls_expression_values s') -> known s seen ->
  known (set_expression_values (<[i := Some tv]> (ls_expression_values s')) s') (i :: seen).
Proof.
  intros [Hl Hvals Hb _] Hlen Hk. unfold known. cbn. constructor; [rewrite sem_entry_insert, decide_True by done; eauto|].
  eapply Forall_impl; [exact Hk|]. intros j (tvj & E & Hlt). rewrite sem_entry_insert by done. rewrite Hvals.
  destruct (decide (i = j)); [eauto|]. exists tvj. split; [done|]. pose proof (mv_next _ _ (ln_moves _ _ _ Hl)). lia.
Qed.

Definition lowered_order (s : LS) (seen order : list nat) (s' : LS) : Prop :=
  line ps s s' /\ known s' (reverse order ++ seen) /\
  forall F store env, ext (ls_blocks s') F -> rel (ls_bindings s) store env -> valued store env s seen ->
    flows F s s' store env (reverse order ++ seen) (Forall (fun i => exists v, evals store (N.of_nat i) v) order).

Lemma spec_lower_order order seen s :
  is_open s -> wf ps s -> ready seen order -> known s seen ->
  spec (lower_order fbody callables modules offsets caller order) s (fun s' _ => lowered_order s seen order s') never.
Proof.
  revert seen s. induction order as [|i order IH]; intros seen s Ho Hw Hr Hk; cbn [lower_order].
  { apply spec_ret. split_and!; [done|done|]. intros F store env _ _ Hv.
    split; [intros _; exists env; by split_and!|intros k w H; exists env; by split_and!]. }
  destruct Hr as [Hch Hr]. sbind. apply spec_check. intros _ _. sbind. apply spec_expect. intros e He _.
  specialize (Hch e He). sbind. eapply spec_post; [apply spec_lower_expression; [done|done|]|].
  { eapply Forall_impl; [exact Hch|]. intros c Hc. unfold known in Hk. rewrite Forall_forall in Hk.
    destruct (Hk _ Hc) as (tv & E & _). by exists tv. }
  intros s1 r _ (tv & -> & Hn) _. sbind. apply spec_store_result. intros Hlen _. cbn [negb].
  set (s2 := set_expression_values _ s1).
  assert (Hl : line ps s s2) by (apply line_values, Hn).
  assert (Hk2 : known s2 (i :: seen)) by by eapply node_known.
  eapply spec_post; [apply (IH (i :: seen) s2); [by apply Hl|by apply Hl|done|done]|].
  intros s3 _ _ (Hl3 & Hk3 & Hf3). unfold lowered_order. rewrite reverse_cons, <- (assoc_L (++)). split_and!; [by etrans|done|].
  intros F store env HF Hrel Hv.
  assert (HF2 : ext (ls_blocks s1) F). { etrans; [|exact HF]. apply (moves_ext s2 s3), Hl3. }
  destruct (node_flows F s s1 store env i e seen tv He Hch Hn Hlen HF2 Hw Hk Hrel Hv) as [Hfw Hbw].
  fold s2 in Hfw, Hbw.
  assert (Hgo : forall env2, agree (ls_next_value s) env env2 -> valued store env2 s2 (i :: seen) ->
    flows F s2 s3 store env2 (reverse order ++ i :: seen) (Forall (fun i => exists v, evals store (N.of_nat i) v) order)).
  { intros env2 Ha Hv2. apply Hf3; [done| |done]. rewrite (ln_bindings _ _ _ Hl). eapply rel_agree; [apply Hw|done|done]. }
  pose proof (mv_next _ _ (ln_moves _ _ _ Hl)) as Hn2. split.
  - intros [Hi Hos]%Forall_cons. destruct (Hfw Hi) as (env2 & Ha & Hv2 & Hat). destruct (Hgo env2 Ha Hv2) as [Hfw2 _].
    destruct (Hfw2 Hos) as (env3 & Ha3 & Hv3 & Hat3). exists env3. split_and!; [etrans; [exact Ha|by eapply agree_le]|done|auto].
  - intros k w Hat. destruct (Hbw k w Hat) as (env2 & Ha & Hv2 & Hat2). destruct (Hgo env2 Ha Hv2) as [_ Hbw2].
    destruct (Hbw2 k w Hat2) as (env3 & Ha3 & Hv3 & Hat3). exists env3. split_and!; [etrans; [exact Ha|by eapply agree_le]|done|done].
Qed.

(** ** A tree *)

Record root_lowered (root : ExpressionId) (s s' : LS) (tv : TypedValue) : Prop := {
  rt_line : line ps s s';
  rt_bound : (tv_value tv < ls_next_value s')%N;
  rt_computes F store env : ext (ls_blocks s') F -> rel (ls_bindings s) store env ->
    computes F s s' env tv (evals store root) }.

Lemma spec_lower_root {R} root s (L : LS -> R -> Prop) :
  is_open s -> wf ps s ->
  spec (lower_root fbody callables modules offsets caller root) s
    (fun s' r => exists tv, r = Some tv /\ root_lowered root s s' tv) L.
Proof.
  intros Ho Hw. apply spec_invoke_never.
  unfold lower_root_body. sbind. apply spec_check. intros _ _. destruct (_ <=? _)%N; [by sreport|].
  sbind. apply spec_expect. intros order Horder _. apply postorder_spec in Horder as (Hr & _ & Hroot & Hall); [|done|].
  2: { intros above id below e E. destruct above as [|? [|]]; discriminate E. }
  apply Forall_cons in Hroot as [Hroot _]. cbn in Hroot.
  sbind. eapply spec_post; [apply (spec_lower_order order [] s); [done..|constructor]|]. intros s1 _ _ (Hl & Hk & Hf) _.
  rewrite app_nil_r in *. sbind. apply spec_gets. intros _. sbind. apply spec_expect. intros r Er _.
  sbind. apply spec_modify. intros _ _. apply spec_ret.
  unfold known in Hk. rewrite Forall_forall in Hk. destruct (Hk (N.to_nat root)) as (tv & E & Hlt); [by apply elem_of_reverse|].
  unfold entry in E. unfold get in Er. rewrite Er in E. cbn in E. subst r. exists tv. split; [done|].
  split; [by apply line_values|done|]. intros F store env HF Hrel. cbn.
  destruct (Hf F store env HF Hrel ltac:(constructor)) as [Hfw Hbw].
  assert (Hval : forall env', valued store env' s1 (reverse order) -> exists v, evals store root v /\
    env' !! tv_value tv = Some v /\ value_ty v = tv_ty tv).
  { intros env' Hv. unfold valued in Hv. rewrite Forall_forall in Hv.
    destruct (Hv (N.to_nat root)) as (tv' & v & E1 & E2 & E3 & E4); [by apply elem_of_reverse|]. rewrite N2Nat.id in E2.
    unfold entry in E1. rewrite Er in E1. cbn in E1. injection E1 as <-. eauto. }
  split.
  - intros v Hv. destruct Hfw as (env' & Ha & Hv' & Hat).
    + apply (Hall (fun id => exists v, evals store id v)); [constructor|constructor; [by exists v|constructor]|].
      intros id e (v' & Hev) He. inversion Hev as [? e' vs ? He' Hvs _]; subst. replace e' with e in * by congruence.
      clear -Hvs. induction Hvs; constructor; eauto.
    + exists env'. destruct (Hval _ Hv') as (v' & Hev & Hx & Hty). replace v' with v in * by by eapply evals_fun.
      by split_and!.
  - intros k w Hat. destruct (Hbw k w Hat) as (env' & Ha & Hv' & Hat'). destruct (Hval _ Hv') as (v & Hev & Hx & Hty).
    exists v, env'. by split_and!.
Qed.
End expressions.
