(* ===== verification/SemMerge.v ===== *)
(** * Simple statements, and block parameters for the bindings

    Declarations, assignments and returns keep the relation between the
    bindings and the environment.  The join of a conditional and the header of a loop carry bindings in block
    parameters: a jump with the arguments of the code gives an environment that
    holds the bindings of the target. *)
From stdpp Require Import base numbers list list_numbers strings gmap.
From S2P Require Import Prelude Source Diagnostics Abi CfgAlgorithms ControlFlow ControlFlowSpec ControlFlowExec.
From S2P Require Import Syntax Semantics SemLower SemValues SourceSemantics SourceRelation CfgSteps SemLogic SemExpr.

(** ** Shapes *)

(** A binding after some statements: only the value of a mutable one changes. *)
Definition shape (b b' : Binding) : Prop :=
  b' = set_value (bd_value b') b /\ (bd_mutable b = false -> bd_value b' = bd_value b).
#[export] Instance shape_preorder : PreOrder shape.
Proof.
  split; [by intros []|]. intros b1 b2 b3 [E1 M1] [E2 M2]. rewrite E1 in E2, M2. cbn in M2. split; [by rewrite E2|].
  intros Hm. by rewrite M2, M1.
Qed.
Lemma shape_name b b' : shape b b' -> bd_name b' = bd_name b.
Proof. by intros [-> _]. Qed.
Lemma shape_ty b b' : shape b b' -> bd_ty b' = bd_ty b.
Proof. by intros [-> _]. Qed.
Lemma shape_set_value x b : bd_mutable b = true -> shape b (set_value x b).
Proof. intros Hm. split; [done|congruence]. Qed.
Notation shapes := (Forall2 shape).
Lemma shapes_refl bs : shapes bs bs.
Proof. by apply Forall_Forall2_diag, Forall_forall. Qed.

(** ** Parameters *)

(** The bindings [ts] of the target, from the bindings [bs] of the source: the
    same value from before [n0], or a new parameter with an argument *)
Inductive carries (n0 : N) : N -> list Binding -> list Binding -> list ValueId -> list ValueDefinition -> N -> Prop :=
  | ca_nil n : carries n0 n [] [] [] [] n
  | ca_same n b t bs ts args ds n' :
      bd_name t = bd_name b -> bd_ty t = bd_ty b -> bd_value t = bd_value b -> (bd_value b < n0)%N ->
      carries n0 n bs ts args ds n' -> carries n0 n (b :: bs) (t :: ts) args ds n'
  | ca_param n b t d bs ts args ds n' :
      bd_name t = bd_name b -> bd_ty t = bd_ty b -> bd_value t = n -> vd_id d = n ->
      carries n0 (n + 1) bs ts args ds n' -> carries n0 n (b :: bs) (t :: ts) (bd_value b :: args) (d :: ds) n'.

(** What jumping with the arguments does *)
Lemma carries_assign n0 n bs ts args ds n' :
  carries n0 n bs ts args ds n' -> (n0 <= n)%N -> forall store old acc,
  rel bs store old -> agree n0 old acc ->
  rel ts store (assign old acc ds args) /\ agree n acc (assign old acc ds args).
Proof.
  induction 1 as [n|n b t bs ts args ds n' Hn Ht Hv Hlt H IH|n b t d bs ts args ds n' Hn Ht Hv Hd H IH];
    intros Hle store old acc Hr Ha.
  - inversion Hr; subst. split; [constructor|done].
  - apply Forall2_cons_inv_l in Hr as (p & store' & (H1 & H2 & H3) & Hr' & ->). destruct (IH Hle _ _ _ Hr' Ha) as [I1 I2]. split; [|done].
    constructor; [|done]. split_and!; [congruence| |congruence]. rewrite Hv, I2 by lia. by rewrite Ha.
  - apply Forall2_cons_inv_l in Hr as (p & store' & (H1 & H2 & H3) & Hr' & ->). cbn. rewrite H2.
    destruct (IH ltac:(lia) store' old (<[vd_id d := p.2]> acc) Hr') as [I1 I2].
    { etrans; [exact Ha|apply agree_insert; lia]. }
    rewrite Hd in *. split.
    + constructor; [|done]. split_and!; [congruence| |congruence].
      rewrite Hv, I2 by lia. apply lookup_insert_eq.
    + etrans; [|eapply agree_le; [|exact I2]; lia]. apply agree_insert. lia.
Qed.

(** The new parameters are numbered from [n]. *)
Fixpoint fresh_params (n : N) (ds : list ValueDefinition) (n' : N) : Prop :=
  match ds with [] => n' = n | d :: ds => vd_id d = n /\ fresh_params (n + 1) ds n' end.
Lemma carries_fresh n0 n bs ts args ds n' : carries n0 n bs ts args ds n' -> fresh_params n ds n'.
Proof. by induction 1. Qed.
Lemma fresh_params_le n ds n' : fresh_params n ds n' -> (n <= n')%N.
Proof.
  revert n. induction ds as [|d ds IH]; intros n; cbn; [by intros ->|]. intros [_ H]. specialize (IH _ H). lia.
Qed.
Lemma carries_bounded n0 n bs ts args ds n' :
  carries n0 n bs ts args ds n' -> (n0 <= n)%N -> bounded n' ts.
Proof.
  induction 1 as [n|n b t bs ts args ds n' Hn Ht Hv Hlt H IH|n b t d bs ts args ds n' Hn Ht Hv Hd H IH]; intros Hle;
    [constructor|..]; pose proof (fresh_params_le _ _ _ (carries_fresh _ _ _ _ _ _ _ H)); constructor.
  - rewrite Hv. lia.
  - by apply IH.
  - lia.
  - apply IH. lia.
Qed.

Definition push_parameters (ds : list ValueDefinition) (B : Block) : Block :=
  mkBlock (b_id B) (b_parameters B ++ ds) (b_instructions B) (b_terminators B).
Lemma push_parameters_nil B : push_parameters [] B = B.
Proof. destruct B. unfold push_parameters. cbn. by rewrite app_nil_r. Qed.
Lemma push_parameters_cons d ds B : push_parameters ds (push_parameter d B) = push_parameters (d :: ds) B.
Proof. destruct B. unfold push_parameters, push_parameter. cbn. by rewrite <- (assoc_L (++)). Qed.
Lemma wf_push_parameters ps n ds n' blocks i B :
  wf_values ps n blocks -> blocks !! i = Some B -> fresh_params n ds n' ->
  wf_values ps n' (<[i := push_parameters ds B]> blocks).
Proof.
  revert n blocks B. induction ds as [|d ds IH]; intros n blocks B Hw HB Hf; cbn in Hf.
  - subst. by rewrite push_parameters_nil, list_insert_id.
  - destruct Hf as [Hd Hf]. rewrite <- push_parameters_cons, <- (list_insert_insert_eq blocks i _ (push_parameter d B)).
    eapply IH; [|apply list_lookup_insert_eq; by apply lookup_lt_Some in HB|exact Hf].
    eapply wf_values_insert; [done..|]. rewrite <- Hd. apply push_parameter_ids.
Qed.

(** The state with the parameters *)
Definition with_parameters (i : nat) (ds : list ValueDefinition) (n' : N) (B : Block) (s : LS) : LS :=
  set_next_value n' (set_draft_blocks (<[i := push_parameters ds B]> (ls_blocks s)) s).
Lemma with_parameters_nil i B s : ls_blocks s !! i = Some B -> with_parameters i [] (ls_next_value s) B s = s.
Proof.
  intros HB. unfold with_parameters. rewrite push_parameters_nil, list_insert_id by done. by destruct s.
Qed.
Lemma with_parameters_cons i d ds n n' B s :
  with_parameters i ds n' (push_parameter d B)
    (set_draft_blocks (<[i := push_parameter d B]> (ls_blocks s)) (set_next_value n s)) =
  with_parameters i (d :: ds) n' B s.
Proof. unfold with_parameters. cbn. by rewrite push_parameters_cons, list_insert_insert_eq. Qed.

(** ** [merge_bindings] *)

Lemma growing_merge_bindings join index incoming true_bindings false_bindings :
  growing (merge_bindings join index incoming true_bindings false_bindings).
Proof. revert index. induction incoming; intros index; cbn; grows. Qed.
#[export] Hint Resolve growing_merge_bindings : growing.
Lemma growing_carried_count index incoming true_bindings false_bindings :
  growing (carried_count index incoming true_bindings false_bindings).
Proof. revert index. induction incoming; intros index; cbn; grows. Qed.
#[export] Hint Resolve growing_carried_count : growing.

Lemma spec_carried_count index incoming tb fb s (Q : LS -> nat -> Prop) (L : LS -> bool -> Prop) :
  (forall n, Q s n) -> spec (carried_count index incoming tb fb) s Q L.
Proof.
  revert index Q. induction incoming as [|b incoming IH]; intros index Q HQ; cbn; [by apply spec_ret|].
  sbind. eapply (spec_post _ _ (fun s' _ => s' = s)).
  { destruct (bd_mutable b); [|by apply spec_ret]. sbind. apply spec_expect. intros ? _ _. sbind. apply spec_expect.
    intros ? _ _. by apply spec_ret. }
  intros s' carried _ -> _. sbind. apply IH. intros n _. by apply spec_ret.
Qed.

Definition merged_to (n0 : N) (join : nat) (B : Block) (tb fb : list Binding) (s s' : LS)
    (r : list Binding * list ValueId * list ValueId) : Prop :=
  exists ds n', carries n0 (ls_next_value s) tb r.1.1 r.1.2 ds n' /\ carries n0 (ls_next_value s) fb r.1.1 r.2 ds n' /\
    s' = with_parameters join ds n' B s.

Lemma spec_merge_bindings n0 join incoming index tb fb s B :
  ls_blocks s !! join = Some B -> shapes incoming (drop index tb) -> shapes incoming (drop index fb) ->
  bounded n0 tb -> bounded n0 fb ->
  spec (merge_bindings join index incoming tb fb) s
    (fun s' r => shapes incoming r.1.1 /\ merged_to n0 join B (drop index tb) (drop index fb) s s' r) (fun _ _ => False).
Proof.
  revert index s B. induction incoming as [|b incoming IH]; intros index s B HB Ht Hf Bt Bf; cbn [merge_bindings].
  { apply spec_ret. split; [constructor|]. apply Forall2_nil_inv_l in Ht as ->, Hf as ->.
    exists [], (ls_next_value s). cbn. split_and!; [constructor..|]. by rewrite with_parameters_nil. }
  apply Forall2_cons_inv_l in Ht as (bt & tb' & Hbt & Ht' & E1).
  apply Forall2_cons_inv_l in Hf as (bf & fb' & Hbf & Hf' & E2).
  assert (Lt : tb !! index = Some bt) by (rewrite <- (Nat.add_0_r index), <- lookup_drop, E1; done).
  assert (Lf : fb !! index = Some bf) by (rewrite <- (Nat.add_0_r index), <- lookup_drop, E2; done).
  rewrite (drop_S _ _ _ Lt) in E1. rewrite (drop_S _ _ _ Lf) in E2. injection E1 as <-. injection E2 as <-.
  pose proof (Forall_lookup_1 _ _ _ _ Bt Lt) as Vt. pose proof (Forall_lookup_1 _ _ _ _ Bf Lf) as Vf. cbn in Vt, Vf.
  sbind. apply spec_expect. rewrite Lt. intros ? [= <-] _. sbind.
  apply (spec_post _ _ (fun s' on_false => s' = s /\ (bd_value on_false = bd_value bf))).
  { destruct (bd_mutable b) eqn:Em; [apply spec_expect; rewrite Lf; by intros ? [= <-]|].
    apply spec_ret. split; [done|]. destruct Hbt as [_ Mt], Hbf as [_ Mf]. by rewrite Mt, Mf. }
  intros s' on_false _ [-> ->] _. rewrite (drop_S _ _ _ Lt), (drop_S _ _ _ Lf).
  destruct (bd_value bt =? bd_value bf)%N eqn:Ev.
  - apply N.eqb_eq in Ev. sbind. eapply spec_post; [by apply (IH (S index) s B)|].
    intros s' [[m ta] fa] _ (Hm & ds & n' & C1 & C2 & ->) _. apply spec_ret. cbn in *. split.
    + constructor; [|done]. split; [done|]. destruct Hbt as [_ Mt]. exact Mt.
    + exists ds, n'. split_and!; [|..|done]; (apply ca_same; [..|done]); cbn;
        rewrite ?(shape_name _ _ Hbt), ?(shape_name _ _ Hbf), ?(shape_ty _ _ Hbt), ?(shape_ty _ _ Hbf); done.
  - sbind. apply spec_new_value. intros _. sbind. apply spec_or_leave; [|done]. intros ? [= <-] _.
    sbind. apply spec_update_block. cbn. rewrite HB. intros ? [= <-] _.
    set (d := mkValueDefinition (ls_next_value s) (bd_ty b) (bd_span b)).
    sbind. eapply spec_post; [apply (IH (S index) _ (push_parameter d B)); try done|].
    { cbn. apply list_lookup_insert_eq. by apply lookup_lt_Some in HB. }
    intros s' [[m ta] fa] _ (Hm & ds & n' & C1 & C2 & ->) _. apply spec_ret. cbn in *. split.
    + constructor; [|done]. apply shape_set_value. destruct (bd_mutable b) eqn:Em; [done|].
      destruct Hbt as [_ Mt], Hbf as [_ Mf]. rewrite Mt, Mf, N.eqb_refl in Ev by done. done.
    + exists (d :: ds), n'. split_and!; [..|by rewrite with_parameters_cons]; (apply ca_param; [..|done]); cbn;
        rewrite ?(shape_name _ _ Hbt), ?(shape_name _ _ Hbf), ?(shape_ty _ _ Hbt), ?(shape_ty _ _ Hbf); done.
Qed.

(** ** [header_bindings] *)

Lemma growing_header_bindings header incoming : growing (header_bindings header incoming).
Proof. induction incoming; cbn; grows. Qed.
#[export] Hint Resolve growing_header_bindings : growing.

(** The values of the mutable bindings *)
Fixpoint carried_values (incoming bs : list Binding) : list ValueId :=
  match incoming, bs with
  | b :: incoming, b' :: bs =>
      if bd_mutable b then bd_value b' :: carried_values incoming bs else carried_values incoming bs
  | _, _ => []
  end.

Lemma spec_header_bindings n0 header incoming s B :
  ls_blocks s !! header = Some B -> bounded n0 incoming ->
  spec (header_bindings header incoming) s
    (fun s' r => shapes incoming r.1 /\ r.2 = carried_values incoming incoming /\
       exists ds n', s' = with_parameters header ds n' B s /\
         forall bs, shapes incoming bs -> carries n0 (ls_next_value s) bs r.1 (carried_values incoming bs) ds n')
    (fun _ _ => False).
Proof.
  revert s B. induction incoming as [|b incoming IH]; intros s B HB Hb; cbn [header_bindings].
  { apply spec_ret. split_and!; [constructor|done|]. exists [], (ls_next_value s). split; [by rewrite with_parameters_nil|].
    intros bs Hs. inversion Hs. constructor. }
  apply Forall_cons in Hb as [Hb Hbs]. destruct (bd_mutable b) eqn:Em; cbn [negb].
  - sbind. apply spec_new_value. intros _. sbind. apply spec_or_leave; [|done]. intros ? [= <-] _.
    sbind. apply spec_update_block. cbn. rewrite HB. intros ? [= <-] _.
    set (d := mkValueDefinition (ls_next_value s) (bd_ty b) (bd_span b)).
    sbind. eapply spec_post; [apply (IH _ (push_parameter d B)); [|done]|].
    { cbn. apply list_lookup_insert_eq. by apply lookup_lt_Some in HB. }
    intros s' [h args] _ (Hs & Ha & ds & n' & -> & Hc) _. apply spec_ret. cbn in *. subst args. rewrite Em.
    split_and!; [constructor; [by apply shape_set_value|done]|done|]. exists (d :: ds), n'. rewrite with_parameters_cons.
    split; [done|]. intros bs (b' & bs' & Hb' & Hbs'' & ->)%Forall2_cons_inv_l. cbn [carried_values].
    apply ca_param; cbn; [by rewrite (shape_name _ _ Hb')|by rewrite (shape_ty _ _ Hb')|done|done|auto].
  - sbind. eapply spec_post; [by apply (IH s B)|]. intros s' [h args] _ (Hs & Ha & ds & n' & -> & Hc) _. apply spec_ret.
    cbn in *. subst args. rewrite Em. split_and!; [by constructor|done|]. exists ds, n'. split; [done|].
    intros bs (b' & bs' & Hb' & Hbs'' & ->)%Forall2_cons_inv_l. cbn [carried_values].
    apply ca_same; cbn; [by rewrite (shape_name _ _ Hb')|by rewrite (shape_ty _ _ Hb')| | |auto];
      destruct Hb' as [_ Hv]; by rewrite Hv.
Qed.

(** The arguments of the back edge *)
Lemma carried_indices_values incoming bs :
  shapes incoming bs ->
  mapM (fun index => bd_value <$> bs !! index) (carried_indices incoming) = Some (carried_values incoming bs).
Proof.
  unfold carried_indices, enumerate. intros H.
  assert (Hgo : forall k (bs0 : list Binding), (forall i, bs0 !! (k + i) = bs !! i) ->
    mapM (fun index => bd_value <$> bs0 !! index)
      (omap (fun '(index, binding) => if bd_mutable binding then Some index else None) (imap (fun i => pair (k + i)) incoming)) =
    Some (carried_values incoming bs)); [|by apply (Hgo 0)].
  induction H as [|b b' incoming bs Hb H IH]; intros k bs0 Hk; [done|]. cbn.
  assert (Htail : forall i, bs0 !! (S k + i) = bs !! i).
  { intros i. specialize (Hk (S i)). rewrite Nat.add_succ_r in Hk. exact Hk. }
  specialize (IH (S k) bs0 Htail).
  assert (E : imap (λ i, pair (k + S i)) incoming = imap (λ i, pair (S k + i)) incoming).
  { apply imap_ext. intros. f_equal. lia. }
  unfold compose. rewrite E. specialize (Hk 0). rewrite Nat.add_0_r in *. destruct (bd_mutable b); [|exact IH].
  cbn. rewrite Hk. cbn. change (imap (fun i => pair (S (k + i))) incoming) with (imap (fun i => pair (S k + i)) incoming).
  by rewrite IH.
Qed.

(** * The lowering of statements

    What a lowered statement promises: its blocks return what its meaning
    returns, and reach their end with the store its meaning falls through with. *)

(** ** Diagnostics are only added *)

Lemma growing_lower_type {S R} `{HasErrors S} syntax position : growing (@lower_type S R _ syntax position).
Proof. unfold lower_type. grows. Qed.
#[export] Hint Resolve growing_lower_type : growing.
Lemma spec_lower_type {S R} `{HasErrors S} syntax position (s : S) (Q : S -> option Ty -> Prop) (L : S -> R -> Prop) :
  (forall ty, declared_type syntax = Some ty -> Q s (Some ty)) -> spec (lower_type syntax position) s Q L.
Proof.
  intros HQ. unfold lower_type, declared_type in *. destruct (ts_kind syntax) as [|name].
  - eapply spec_bind; [grows|]. apply spec_report_at.
  - destruct (bool_decide (name = "i32")); [by apply spec_ret, HQ|].
    destruct (bool_decide (name = "bool")); [by apply spec_ret, HQ|]. eapply spec_bind; [grows|]. apply spec_report_at.
Qed.

Section growing.
Context (fbody : FunctionBodySyntax) (callables : gmap string FunctionId) (modules : list ModuleSymbols)
        (offsets : list nat) (caller : nat) (result : Ty) (depth : N).
Context (lower_block : SBlockId -> N -> SM LS bool bool) (block_growing : forall b d, growing (lower_block b d)).
#[local] Hint Resolve block_growing : growing.

Lemma growing_lower_local mutable name ty e :
  growing (lower_local fbody callables modules offsets caller depth mutable name ty e).
Proof. unfold lower_local. grows. Qed.
Lemma growing_lower_assignment target e : growing (lower_assignment fbody callables modules offsets caller target e).
Proof. unfold lower_assignment. grows. Qed.
Lemma growing_lower_return span e : growing (lower_return fbody callables modules offsets caller result span e).
Proof. unfold lower_return. grows. Qed.
Lemma growing_condition_span e : growing (condition_span fbody e).
Proof. unfold condition_span. grows. Qed.
Lemma growing_lower_branch target incoming block : growing (lower_branch lower_block depth target incoming block).
Proof. unfold lower_branch. grows. Qed.
Lemma growing_lower_join span incoming tb tbs fb fbs : growing (lower_join fbody span incoming tb tbs fb fbs).
Proof. unfold lower_join. grows. Qed.
#[local] Hint Resolve growing_condition_span growing_lower_branch growing_lower_join : growing.
Lemma growing_lower_arms incoming t then_block f else_block span :
  growing (lower_arms fbody lower_block depth incoming t then_block f else_block span).
Proof. unfold lower_arms. grows. Qed.
Lemma growing_lower_iteration header incoming in_header condition b span :
  growing (lower_iteration fbody lower_block depth header incoming in_header condition b span).
Proof. unfold lower_iteration. grows. Qed.
#[local] Hint Resolve growing_lower_arms growing_lower_iteration : growing.
Lemma growing_lower_if condition t f span :
  growing (lower_if fbody callables modules offsets caller lower_block depth condition t f span).
Proof. unfold lower_if. grows. Qed.
Lemma growing_lower_while condition b span :
  growing (lower_while fbody callables modules offsets caller lower_block depth condition b span).
Proof. unfold lower_while. grows. Qed.
#[local] Hint Resolve growing_lower_local growing_lower_assignment growing_lower_return growing_lower_if
  growing_lower_while : growing.
Lemma growing_lower_statement statement :
  growing (lower_statement fbody callables modules offsets caller lower_block depth result statement).
Proof. unfold lower_statement. grows. Qed.
#[local] Hint Resolve growing_lower_statement : growing.
Lemma growing_lower_statements statements open :
  growing (lower_statements fbody callables modules offsets caller lower_block depth result statements open).
Proof. revert open. induction statements; intros open; cbn; grows. Qed.
End growing.
#[export] Hint Resolve growing_condition_span growing_lower_branch growing_lower_join growing_lower_statement
  growing_lower_arms growing_lower_iteration
  growing_lower_statements growing_lower_if growing_lower_while growing_lower_local growing_lower_assignment
  growing_lower_return : growing.
Lemma growing_lower_syntax_block fbody callables modules offsets caller fuel result id depth :
  growing (lower_syntax_block fbody callables modules offsets caller fuel result id depth).
Proof. revert id depth. induction fuel; intros id depth; cbn [lower_syntax_block]; grows. Qed.
#[export] Hint Resolve growing_lower_syntax_block : growing.

(** ** What lowering promises *)

(** The bindings of before, and those added since *)
Definition shaped (bs bs' : list Binding) : Prop := exists bs1 rest, bs' = bs1 ++ rest /\ shapes bs bs1.
Lemma shaped_refl bs : shaped bs bs.
Proof. exists bs, []. split; [by rewrite app_nil_r|apply shapes_refl]. Qed.
Lemma shaped_trans bs1 bs2 bs3 : shaped bs1 bs2 -> shaped bs2 bs3 -> shaped bs1 bs3.
Proof.
  intros (b1 & r1 & -> & H1) (b2 & r2 & -> & H2). apply Forall2_app_inv_l in H2 as (b3 & b4 & H3 & H4 & ->).
  exists b3, (b4 ++ r2). split; [by rewrite (assoc_L (++))|]. by etrans.
Qed.
Lemma shaped_length bs bs' : shaped bs bs' -> length bs' = length bs -> shapes bs bs'.
Proof.
  intros (b1 & rest & -> & H) Hl. rewrite (Forall2_length _ _ _ H), length_app in Hl.
  destruct rest; cbn in Hl; [|lia]. by rewrite app_nil_r.
Qed.

Section promises.
Context (C : Calls) (ps : list ValueId) (result : Ty).

(** From the end of the current block on *)
Notation at_ F s k env w := (at_end C F (ls_blocks s) (ls_current s) k env w).
(** A way from one state to the next that holds what its bindings say *)
Definition reached (F : list Block) (n : N) (s s' : LS) (env : Env) (store' : Store) (env' : Env) : Prop :=
  agree n env env' /\ rel (ls_bindings s') store' env' /\
  forall w, (exists k, at_ F s' k env' w) -> exists k, at_ F s k env w.

(** The code between [s] and [s'] does what [run] does; [open]: its end can be
    reached. *)
Record does (run : Store -> Completion -> Prop) (n : N) (F : list Block) (s s' : LS) (open : bool) : Prop := {
  ds_forward store env r : rel (ls_bindings s) store env -> run store r ->
    match r with
    | Returns v => value_ty v = result /\ exists k, at_ F s k env v
    | Falls store' => open = true /\ exists env', reached F n s s' env store' env'
    end;
  ds_backward store env k w : rel (ls_bindings s) store env -> at_ F s k env w ->
    run store (Returns w) \/
    open = true /\ exists store' env' k', k' <= k /\ run store (Falls store') /\ agree n env env' /\
      rel (ls_bindings s') store' env' /\ at_ F s' k' env' w }.

Record lowered (run : Store -> Completion -> Prop) (s s' : LS) (open : bool) : Prop := {
  lw_moves : moves s s';
  lw_wf : wf ps s';
  lw_open : open = true -> is_open s';
  lw_shaped : open = true -> shaped (ls_bindings s) (ls_bindings s');
  lw_does F : ext (ls_blocks s') F -> does run (ls_next_value s) F s s' open }.

Lemma does_le run n m F s s' open : (n <= m)%N -> does run m F s s' open -> does run n F s s' open.
Proof.
  intros Hle [Hf Hb]. split.
  - intros store env [store'|v] Hr Hx; specialize (Hf _ _ _ Hr Hx); [|done]. destruct Hf as (Ho & env' & Ha & H).
    split; [done|]. exists env'. split; [by eapply agree_le|done].
  - intros store env k w Hr Hat. destruct (Hb _ _ _ _ Hr Hat) as [|(Ho & store' & env' & k' & H1 & H2 & H3 & H4)]; [by left|right].
    split; [done|]. exists store', env', k'. split_and!; [done|done|by eapply agree_le|apply H4..].
Qed.

(** One after the other *)
Definition seq_run (run1 run2 : Store -> Completion -> Prop) (store : Store) (r : Completion) : Prop :=
  (exists v, r = Returns v /\ run1 store r) \/ exists store', run1 store (Falls store') /\ run2 store' r.
Lemma does_seq run1 run2 n F s s1 s2 open :
  does run1 n F s s1 true -> does run2 n F s1 s2 open -> does (seq_run run1 run2) n F s s2 open.
Proof.
  intros [F1 B1] [F2 B2]. split.
  - intros store env r Hr [(v & -> & H)|(store1 & H1 & H2)]; [by apply (F1 _ _ _ Hr H)|].
    destruct (F1 _ _ _ Hr H1) as (_ & env1 & Ha1 & Hr1 & Hat1). specialize (F2 _ _ _ Hr1 H2).
    destruct r as [store2|v]; [|split; [apply F2|apply Hat1, F2]].
    destruct F2 as (Ho & env2 & Ha2 & Hr2 & Hat2). split; [done|]. exists env2. split_and!; [by etrans|done|auto].
  - intros store env k w Hr Hat.
    destruct (B1 _ _ _ _ Hr Hat) as [H|(_ & store1 & env1 & k1 & Hk1 & H1 & Ha1 & Hr1 & Hat1)]; [left; left; by exists w|].
    destruct (B2 _ _ _ _ Hr1 Hat1) as [H|(Ho & store2 & env2 & k2 & Hk2 & H2 & Ha2 & Hr2 & Hat2)].
    + left. right. by exists store1.
    + right. split; [done|]. exists store2, env2, k2. split_and!; [lia|right; by exists store1|by etrans|done|done].
Qed.
Lemma lowered_seq run1 run2 s s1 s2 open :
  lowered run1 s s1 true -> lowered run2 s1 s2 open -> lowered (seq_run run1 run2) s s2 open.
Proof.
  intros H1 H2. split; [etrans; [apply H1|apply H2]|apply H2|apply H2| |].
  - intros Ho. eapply shaped_trans; [by apply H1|by apply H2].
  - intros F HF. eapply does_seq; [apply H1; etrans; [apply moves_ext, H2|done]|].
    eapply does_le; [apply mv_next, H1|by apply H2].
Qed.
Lemma does_run (run run' : Store -> Completion -> Prop) n F s s' open :
  (forall store r, run store r <-> run' store r) -> does run n F s s' open -> does run' n F s s' open.
Proof.
  intros E [Hf Hb]. split.
  - intros store env r Hr Hx. apply (Hf _ _ _ Hr). by apply E.
  - intros store env k w Hr Hat. destruct (Hb _ _ _ _ Hr Hat) as [H|(Ho & store' & env' & k' & H1 & H2 & H3)].
    + left. by apply E.
    + right. split; [done|]. exists store', env', k'. split_and!; [done|by apply E|apply H3..].
Qed.
Lemma lowered_run (run run' : Store -> Completion -> Prop) s s' open :
  (forall store r, run store r <-> run' store r) -> lowered run s s' open -> lowered run' s s' open.
Proof. intros E H. split; [apply H..|]. intros F HF. eapply does_run; [exact E|by apply H]. Qed.

Definition skip (store : Store) (r : Completion) : Prop := r = Falls store.
Lemma does_skip n F s s' :
  ls_bindings s' = ls_bindings s -> (forall k env w, at_ F s k env w <-> at_ F s' k env w) -> does skip n F s s' true.
Proof.
  intros Hb Hat. split.
  - intros store env r Hr ->. split; [done|]. exists env. split_and!; [done|by rewrite Hb|].
    intros w [k H]. exists k. by apply Hat.
  - intros store env k w Hr H. right. split; [done|]. exists store, env, k. split_and!; [done|done|done|by rewrite Hb|by apply Hat].
Qed.
Lemma lowered_skip s : wf ps s -> is_open s -> lowered skip s s true.
Proof. intros. split; [done|done|done|intros _; apply shaped_refl|]. intros F _. by apply does_skip. Qed.
End promises.

(** * Declarations, assignments and returns *)

Section simple.
Context (fbody : FunctionBodySyntax) (callables : gmap string FunctionId) (modules : list ModuleSymbols)
        (offsets : list nat) (caller : nat) (ps : list ValueId) (result : Ty).
Context (resolve : string -> option FunctionKey) (C : Calls) (calls_good : calls_ok callables modules resolve C).
Notation evals := (evals fbody resolve C).
Notation xstatement := (xstatement fbody resolve C).
Notation root_lowered := (root_lowered fbody ps resolve C).
Notation lowered := (lowered C ps result).
Notation does := (does C result).

(** ** A tree, then new bindings *)

Definition root_run (root : ExpressionId) (upd : Value -> Store -> option Store) (store : Store) (r : Completion) : Prop :=
  exists v store', evals store root v /\ upd v store = Some store' /\ r = Falls store'.

Lemma lowered_root root upd s s1 tv bs :
  wf ps s -> is_open s -> root_lowered root s s1 tv -> bounded (ls_next_value s1) bs -> shaped (ls_bindings s) bs ->
  (forall store env v, rel (ls_bindings s) store env -> env !! tv_value tv = Some v -> value_ty v = tv_ty tv ->
     exists store', upd v store = Some store' /\ rel bs store' env) ->
  lowered (root_run root upd) s (set_bindings bs s1) true.
Proof.
  intros Hw Ho [Hl Hb Hc] Hbs Hsh Hupd. destruct Hl as [Lc Lb Lm Lo Lw]. split.
  - destruct Lm as [N T M]. by split.
  - destruct (Lw Hw) as [I _]. by split.
  - intros _. exact (Lo Ho).
  - done.
  - intros F HF. split.
    + intros store env r Hr (v & store' & Hv & Hu & ->). destruct (Hc F store env HF Hr) as [Hfw _].
      destruct (Hfw v Hv) as (env' & (Ha & Hx & Hty) & Hat). split; [done|]. exists env'.
      assert (Hr' : rel (ls_bindings s) store env') by (eapply rel_agree; [apply Hw|done|done]).
      destruct (Hupd _ _ _ Hr' Hx Hty) as (store2 & E & Hr2). replace store2 with store' in * by congruence.
      split_and!; [done|done|]. intros w [k H]. exists k. by apply Hat.
    + intros store env k w Hr Hat. right. split; [done|]. destruct (Hc F store env HF Hr) as [_ Hbw].
      destruct (Hbw k w Hat) as (v & env' & Hv & (Ha & Hx & Hty) & Hat').
      assert (Hr' : rel (ls_bindings s) store env') by (eapply rel_agree; [apply Hw|done|done]).
      destruct (Hupd _ _ _ Hr' Hx Hty) as (store2 & E & Hr2). exists store2, env', k. split_and!; [done| |done..].
      by exists v, store2.
Qed.

Notation never := (fun (_ : LS) (_ : bool) => False).
Notation spec_root := (spec_lower_root fbody callables modules offsets caller ps resolve C calls_good).

Lemma spec_lower_local depth mutable name ty e s k1 k2 k3 :
  is_open s -> wf ps s ->
  spec (lower_local fbody callables modules offsets caller depth mutable name ty e) s
    (lowered (fun store => xstatement store (SLocalDeclaration k1 mutable name ty k2 e k3)) s) never.
Proof.
  intros Ho Hw. unfold lower_local. sbind. eapply spec_post; [by apply spec_root|].
  intros s1 r _ (tv & -> & Hr) _. sbind. apply spec_check. intros _ _. sbind. apply spec_lower_type. intros t Ht _.
  sbind. apply spec_check. intros _ _. sbind. apply spec_gets. intros _.
  sbind. apply spec_when; [intros _; apply spec_report_at|]. intros -> _. sbind. apply spec_check. intros _ _. cbn [negb swhen].
  destruct (bool_decide _) eqn:Et; [by sreport|]. apply bool_decide_eq_false, dec_stable in Et.
  sbind. apply spec_modify. intros _ _. apply spec_ret.
  eapply lowered_run; [|eapply (lowered_root e (fun v store => Some (store ++ [(is_text name, v)]))); [done|done|exact Hr|..]].
  - intros store r. split; [intros (v & ? & Hv & [= <-] & ->); by constructor|]. intros H. inversion H; subst. eexists _, _. eauto.
  - apply Forall_app. split; [|constructor; [apply Hr|constructor]]. apply Hr. done.
  - eexists _, _. split; [done|]. rewrite (ln_bindings _ _ _ (rt_line _ _ _ _ _ _ _ _ Hr)). apply shapes_refl.
  - intros store env v Hrel Hx Hty. eexists. split; [done|].
    rewrite (ln_bindings _ _ _ (rt_line _ _ _ _ _ _ _ _ Hr)). apply rel_app; [done|]. split_and!; [done..|]. cbn. congruence.
Qed.

Lemma spec_lower_assignment target e s k1 k2 :
  is_open s -> wf ps s ->
  spec (lower_assignment fbody callables modules offsets caller target e) s
    (lowered (fun store => xstatement store (SAssignment target k1 e k2)) s) never.
Proof.
  intros Ho Hw. unfold lower_assignment. sbind. eapply spec_post; [by apply spec_root|].
  intros s1 r _ (tv & -> & Hr) _. sbind. apply spec_check. intros _ _. sbind. apply spec_gets. intros _.
  destruct (rfind_binding _ _ _) as [[j b]|] eqn:Ef; [|by sreport].
  destruct (bd_mutable b) eqn:Em; cbn [negb]; [|by sreport].
  destruct (bool_decide _) eqn:Et; [|by sreport]. apply bool_decide_eq_true in Et.
  sbind. apply spec_modify. intros _ _. apply spec_ret.
  rewrite (ln_bindings _ _ _ (rt_line _ _ _ _ _ _ _ _ Hr)) in *.
  destruct (rel_rfind _ _ _ _ _ Ef) as (i & Ej & Hi & Hn & _). cbn in Ej. subst j.
  eapply lowered_run; [|eapply (lowered_root e (write_var (is_text target))); [done|done|exact Hr|..]].
  - intros store r. split; [intros (v & ? & Hv & Hs & ->); by econstructor|]. intros H. inversion H; subst. eexists _, _. eauto.
  - apply Forall_insert; [|apply Hr]. eapply bounded_le; [apply mv_next, Hr|apply Hw].
  - exists (<[i := set_value (tv_value tv) b]> (ls_bindings s)), []. split; [by rewrite app_nil_r|].
    rewrite <- (list_insert_id (ls_bindings s) i b Hi) at 1. apply Forall2_insert; [apply shapes_refl|by apply shape_set_value].
  - intros store env v Hrel Hx Hty. eapply rel_write; [done|done|done|congruence].
Qed.

(** ** Returns *)

Lemma spec_lower_return span e s k1 k2 :
  is_open s -> wf ps s ->
  spec (lower_return fbody callables modules offsets caller result span e) s
    (lowered (fun store => xstatement store (SReturn k1 e k2)) s) never.
Proof.
  intros Ho Hw. unfold lower_return. sbind. eapply spec_post; [by apply spec_root|].
  intros s1 r _ (tv & -> & Hr) _. sbind. apply spec_check. intros _ _.
  destruct (bool_decide _) eqn:Et; [|by sreport]. apply bool_decide_eq_true in Et.
  destruct Hr as [[Lc Lb Lm Lo Lw] Hb Hc]. sbind. apply spec_terminate_or_leave; [by apply Lo|].
  intros B edges [HB HBt] _. apply spec_ret. destruct Lm as [N T M]. rewrite Lc in HB. split; cbn.
  - split; cbn; [done| |done]. eapply touch_trans; [exact T|eapply touch_insert; [|by apply bext_terminator]|].
    + by rewrite Lc.
    + by left.
  - destruct (Lw Hw) as [I Hbs]. split; [|done]. eapply wf_values_same; [exact I|by rewrite Lc|done].
  - done.
  - done.
  - intros F HF.
    assert (HF1 : ext (ls_blocks s1) F). { etrans; [eapply touch_ext, touch_insert; [|by apply (bext_terminator (mkSpannedTerminator span (Return (tv_value tv))))]|exact HF]. by rewrite Lc. }
    rewrite <- Lc in HB.
    assert (Hret : forall k env w, at_end C F (ls_blocks s1) (ls_current s1) k env w <-> env !! tv_value tv = Some w).
    { intros k env w. by apply (at_return C F _ _ _ _ HB HBt HF). }
    split; intros store env.
    + intros r Hr H. inversion H as [| |? ? ? ? v Hv| | | | | | |]; subst. destruct (Hc F store env HF1 Hr) as [Hfw _].
      destruct (Hfw v Hv) as (env' & (Ha & Hx & Hty) & Hat). split; [congruence|]. exists 0. apply Hat. by apply Hret.
    + intros k w Hr Hat. left. destruct (Hc F store env HF1 Hr) as [_ Hbw].
      destruct (Hbw k w Hat) as (v & env' & Hv & (Ha & Hx & Hty) & Hat'). apply Hret in Hat'.
      replace w with v by congruence. by constructor.
Qed.
End simple.
