(* ===== verification/SemBranch.v ===== *)
(** * Conditionals *)
From stdpp Require Import base numbers list list_numbers strings gmap.
From S2P Require Import Prelude Source Diagnostics Abi CfgAlgorithms ControlFlow ControlFlowSpec ControlFlowExec Syntax.
From S2P Require Import Semantics SemLower SemValues SourceSemantics SourceRelation CfgSteps SemLogic.
From S2P Require Import SemExpr SemMerge.

(** The state in which an arm begins *)
Definition start (target : nat) (bs : list Binding) (s : LS) : LS := set_bindings bs (set_current target s).

Section links.
Context (C : Calls) (result : Ty).
Notation at_ F s k env w := (at_end C F (ls_blocks s) (ls_current s) k env w).
Notation does := (does C result).

(** The code goes from [s1] to [s2] and keeps the store. *)
Definition link (n : N) (F : list Block) (s1 s2 : LS) : Prop :=
  forall store env, rel (ls_bindings s1) store env -> exists env', agree n env env' /\ rel (ls_bindings s2) store env' /\
    (forall w, (exists k, at_ F s2 k env' w) -> exists k, at_ F s1 k env w) /\
    (forall k w, at_ F s1 k env w -> exists k', k' <= k /\ at_ F s2 k' env' w).
Lemma link_same n F s1 s2 :
  ls_bindings s2 = ls_bindings s1 -> (forall k env w, at_ F s1 k env w <-> at_ F s2 k env w) -> link n F s1 s2.
Proof.
  intros Hb Hat store env Hr. exists env. split_and!; [done|by rewrite Hb| |].
  - intros w [k H]. exists k. by apply Hat.
  - intros k w H. exists k. split; [done|by apply Hat].
Qed.
Lemma link_trans n F s1 s2 s3 : link n F s1 s2 -> link n F s2 s3 -> link n F s1 s3.
Proof.
  intros H1 H2 store env Hr. destruct (H1 _ _ Hr) as (env1 & A1 & R1 & F1 & B1).
  destruct (H2 _ _ R1) as (env2 & A2 & R2 & F2 & B2). exists env2. split_and!; [by etrans|done|auto|].
  intros k w H. destruct (B1 _ _ H) as (k1 & ? & H'). destruct (B2 _ _ H') as (k2 & ? & H''). exists k2. split; [lia|done].
Qed.
Lemma link_le n m F s1 s2 : (n <= m)%N -> link m F s1 s2 -> link n F s1 s2.
Proof. intros Hle H store env Hr. destruct (H _ _ Hr) as (env' & Ha & Hx). exists env'. split; [by eapply agree_le|done]. Qed.

Lemma does_link run n F s s1 s2 open :
  does run n F s s1 open -> (open = true -> link n F s1 s2) -> does run n F s s2 open.
Proof.
  intros [Hf Hb] Hl. split.
  - intros store env [store'|v] Hr Hx; specialize (Hf _ _ _ Hr Hx); [|done]. destruct Hf as (-> & env' & Ha & Hr' & Hat).
    split; [done|]. destruct (Hl eq_refl _ _ Hr') as (env2 & A2 & R2 & F2 & _). exists env2. split_and!; [by etrans|done|auto].
  - intros store env k w Hr Hat. destruct (Hb _ _ _ _ Hr Hat) as [|(-> & store' & env' & k' & H1 & H2 & H3 & H4 & H5)]; [by left|right].
    split; [done|]. destruct (Hl eq_refl _ _ H4) as (env2 & A2 & R2 & _ & B2). destruct (B2 _ _ H5) as (k2 & ? & H').
    exists store', env2, k2. split_and!; [lia|done|by etrans|done|done].
Qed.
Lemma does_from run n F s0 s s' open :
  ls_bindings s0 = ls_bindings s -> (forall k env w, at_ F s0 k env w <-> at_ F s k env w) ->
  does run n F s s' open -> does run n F s0 s' open.
Proof.
  intros Hb Hat [Hf Hbw]. split.
  - intros store env [store'|v] Hr Hx; rewrite Hb in Hr; specialize (Hf _ _ _ Hr Hx).
    + destruct Hf as (-> & env' & Ha & Hr' & Hat'). split; [done|]. exists env'. split_and!; [done..|].
      intros w [k H]%Hat'. exists k. by apply Hat.
    + destruct Hf as (Hty & k & H). split; [done|]. exists k. by apply Hat.
  - intros store env k w Hr H. rewrite Hb in Hr. apply (Hbw _ _ _ _ Hr). by apply Hat.
Qed.

(** A condition decides between two ways to the same end. *)
Definition choice (condition : Store -> Value -> Prop) (run_true run_false : Store -> Completion -> Prop)
    (store : Store) (r : Completion) : Prop :=
  exists b : bool, condition store (VBool b) /\ (if b then run_true else run_false) store r.
Lemma does_choice condition run_true run_false F s s1 tv st sf s' open_true open_false :
  bounded (ls_next_value s) (ls_bindings s) ->
  (forall store env, rel (ls_bindings s) store env -> computes C F s s1 env tv (condition store)) -> tv_ty tv = Bool ->
  (forall k env w, at_ F s1 k env w <-> exists k' (b : bool), k = S k' /\ env !! tv_value tv = Some (VBool b) /\
     at_ F (if b then st else sf) k' env w) ->
  ls_bindings st = ls_bindings s -> ls_bindings sf = ls_bindings s ->
  does run_true (ls_next_value s) F st s' open_true -> does run_false (ls_next_value s) F sf s' open_false ->
  does (choice condition run_true run_false) (ls_next_value s) F s s' (open_true || open_false).
Proof.
  intros Hbs Hc Hty Hat Et Ef Ht Hf.
  assert (Harm : forall b : bool, exists open_b, does (if b then run_true else run_false) (ls_next_value s) F (if b then st else sf) s' open_b /\
    (open_b = true -> open_true || open_false = true) /\ ls_bindings (if b then st else sf) = ls_bindings s).
  { intros []; eexists; (split_and!; [eassumption|..]); [by intros ->|done|intros ->; apply orb_true_r|done]. }
  split.
  - intros store env r Hr (b & Hb & Hrun). destruct (Hc _ _ Hr) as [Hfw _]. destruct (Hfw _ Hb) as (env1 & (Ha & Hx & _) & Hat1).
    destruct (Harm b) as (open_b & [Hd _] & Ho & Eb). specialize (Hd store env1 r).
    assert (Hr1 : rel (ls_bindings (if b then st else sf)) store env1) by (rewrite Eb; by eapply rel_agree).
    specialize (Hd Hr1 Hrun). destruct r as [store'|v].
    + destruct Hd as (Hob & env2 & A2 & R2 & F2). split; [auto|]. exists env2. split_and!; [by etrans|done|].
      intros w [k H]%F2. exists (S k). apply Hat1. apply Hat. exists k, b. done.
    + destruct Hd as (Hv & k & H). split; [done|]. exists (S k). apply Hat1. apply Hat. exists k, b. done.
  - intros store env k w Hr H. destruct (Hc _ _ Hr) as [_ Hbw]. destruct (Hbw _ _ H) as (v & env1 & Hv & (Ha & Hx & Hvt) & H1).
    apply Hat in H1 as (k1 & b & -> & Hxb & H1). replace v with (VBool b) in * by congruence.
    destruct (Harm b) as (open_b & [_ Hd] & Ho & Eb). specialize (Hd store env1 k1 w).
    assert (Hr1 : rel (ls_bindings (if b then st else sf)) store env1) by (rewrite Eb; by eapply rel_agree).
    destruct (Hd Hr1 H1) as [Hrun|(Hob & store' & env2 & k2 & K2 & Hrun & A2 & R2 & H2)]; [left; by exists b|right].
    split; [auto|]. exists store', env2, k2. split_and!; [lia|by exists b|by etrans|done|done].
Qed.
End links.

(** ** The join *)

Lemma snoc_insert {A} (l : list A) x y : <[length l := y]> (l ++ [x]) = l ++ [y].
Proof. induction l as [|z l IH]; [done|]. cbn. f_equal. apply IH. Qed.

Section join.
Context (fbody : FunctionBodySyntax) (ps : list ValueId) (C : Calls).
Notation never := (fun (_ : LS) (_ : bool) => False).

(** The parts of a state that has been joined *)
Record joined (incoming : list Binding) (s : LS) (tb : nat) (tbs : list Binding) (fb : nat) (fbs : list Binding) (s' : LS)
    : Prop := {
  jn_next : (ls_next_value s <= ls_next_value s')%N;
  jn_current : ls_current s' = length (ls_blocks s);
  jn_ext : ext (ls_blocks s) (ls_blocks s');
  jn_others i : i < length (ls_blocks s) -> i <> tb -> i <> fb -> ls_blocks s' !! i = ls_blocks s !! i;
  jn_wf : wf ps s';
  jn_open : is_open s';
  jn_shapes : shapes incoming (ls_bindings s');
  jn_true F : ext (ls_blocks s') F -> link C (ls_next_value s) F (start tb tbs s) s';
  jn_false F : ext (ls_blocks s') F -> link C (ls_next_value s) F (start fb fbs s) s' }.

(** A jump with the arguments of [carries] *)
Lemma link_jump F l n0 n' s s' B T T' bs args ds j span :
  l !! ls_current s = Some B -> b_terminators B = [] -> ls_blocks s !! ls_current s = Some B ->
  ext (<[ls_current s := push_terminator (mkSpannedTerminator span (Jump (index_u32 j) args)) B]> l) F ->
  index_u32 j = N.of_nat j -> F !! j = Some T -> b_parameters T = ds ->
  ls_blocks s' !! j = Some T' -> b_instructions T' = [] -> ls_current s' = j -> ls_bindings s = bs ->
  carries n0 n0 bs (ls_bindings s') args ds n' -> link C n0 F s s'.
Proof.
  intros HB Ht HBs He Hj HT Hds Hl' Hi <- <- Hc store env Hr.
  destruct (carries_assign _ _ _ _ _ _ _ Hc ltac:(lia) _ _ env Hr ltac:(done)) as [R A].
  pose proof (fun k env w => at_jump C F _ _ _ _ HB Ht He (ls_current s') T args k env w eq_refl Hj HT) as Hat.
  assert (Hsame : forall k env w, at_end C F (ls_blocks s) (ls_current s) k env w <-> at_end C F l (ls_current s) k env w).
  { intros. apply at_end_same. congruence. }
  setoid_rewrite <- Hsame in Hat.
  rewrite Hds in Hat. eexists. split_and!; [exact A|exact R| |].
  - intros w [k H]. exists (S k). apply Hat. exists k. split; [done|].
    by apply (at_end_start C F _ _ _ k _ w Hl' Hi).
  - intros k w (k' & -> & H)%Hat. exists k'. split; [lia|]. by apply (at_end_start C F _ _ _ k' _ w Hl' Hi).
Qed.

Lemma spec_lower_join span incoming s tb B1 tbs fb B2 fbs :
  open_at s tb B1 -> open_at s fb B2 -> tb <> fb -> shapes incoming tbs -> shapes incoming fbs ->
  bounded (ls_next_value s) tbs -> bounded (ls_next_value s) fbs -> wf_values ps (ls_next_value s) (ls_blocks s) ->
  spec (lower_join fbody span incoming tb tbs fb fbs) s
    (fun s' open => open = true /\ joined incoming s tb tbs fb fbs s') never.
Proof.
  intros [HB1 Ht1] [HB2 Ht2] Hne Hs1 Hs2 Hb1 Hb2 Hw. unfold lower_join. sbind. apply spec_carried_count. intros count _.
  sbind. apply spec_draft_merge. intros _. cbn [negb]. sbind. apply spec_fresh_block. intros HJ _.
  set (J := length (ls_blocks s)) in *.
  pose proof (lookup_lt_Some _ _ _ HB1) as L1. pose proof (lookup_lt_Some _ _ _ HB2) as L2. fold J in L1, L2.
  sbind. eapply spec_post; [apply (spec_merge_bindings (ls_next_value s) J incoming 0 tbs fbs _ (empty_block J)); try done|].
  { cbn. unfold J. by apply list_lookup_middle. }
  intros s2 [[merged ta] fa] _ (Hm & ds & n' & C1 & C2 & ->) _. unfold with_parameters. cbn in *.
  rewrite drop_0 in C1, C2. set (BJ := push_parameters ds (empty_block J)) in *.
  assert (EJ : <[J := BJ]> (ls_blocks s ++ [empty_block J]) = ls_blocks s ++ [BJ]) by apply snoc_insert. rewrite EJ.
  sbind. apply spec_modify. intros _ _. sbind. apply spec_terminate_or_leave.
  { exists B1. split; cbn; [|done]. by rewrite lookup_app_l. }
  intros B1' e1 [HB1' _] _. cbn in *. rewrite lookup_app_l in HB1' by done. replace B1' with B1 by congruence. clear B1' HB1'.
  set (t1 := mkSpannedTerminator span _). set (l2 := ls_blocks s ++ [BJ]). set (l3 := <[tb := _]> l2).
  assert (H2 : l3 !! fb = Some B2). { unfold l3, l2. rewrite list_lookup_insert_ne by done. by rewrite lookup_app_l. }
  sbind. apply spec_modify. intros _ _. sbind. apply spec_terminate_or_leave; [by exists B2|].
  intros B2' e2 [HB2' _] _. cbn in *. replace B2' with B2 by congruence. clear B2' HB2'.
  set (t2 := mkSpannedTerminator span _). set (l4 := <[fb := _]> l3).
  sbind. apply spec_modify. intros _ _. sbind. apply spec_modify. intros _ _. apply spec_ret. split; [done|].
  assert (H1 : l2 !! tb = Some B1) by (unfold l2; by rewrite lookup_app_l).
  assert (HJ4 : l4 !! J = Some BJ).
  { unfold l4, l3, l2, J. rewrite !list_lookup_insert_ne by (unfold J in *; lia). by apply list_lookup_middle. }
  assert (X3 : ext l3 l4) by (eapply touch_ext, touch_insert; [done|by apply bext_terminator]).
  assert (X2 : ext l2 l3) by (eapply touch_ext, touch_insert; [done|by apply bext_terminator]).
  pose proof (carries_fresh _ _ _ _ _ _ _ C1) as Hfresh.
  assert (HF : forall F, ext l4 F -> exists T, F !! J = Some T /\ b_parameters T = ds).
  { intros F HF. destruct (HF _ _ HJ4) as (T & HT & Hx). exists T. split; [done|]. apply Hx. }
  split; cbn.
  - by apply fresh_params_le in Hfresh.
  - done.
  - etrans; [apply (touch_ext tb), touch_app|]. by etrans.
  - intros i Hi N1 N2. unfold l4, l3, l2. rewrite !list_lookup_insert_ne by done. by rewrite lookup_app_l.
  - split; cbn; [|eapply carries_bounded; [exact C1|done]]. unfold l4, l3.
    eapply wf_values_same; [eapply wf_values_same|..]; [|exact H1|done|exact H2|done].
    unfold l2, BJ, J. rewrite <- (snoc_insert _ (empty_block (length (ls_blocks s)))).
    eapply wf_push_parameters; [by apply wf_values_app|by apply list_lookup_middle|done].
  - exists BJ. split; [exact HJ4|done].
  - done.
  - intros F HX. destruct (HF F HX) as (T & HT & Hds).
    eapply (link_jump F l2 _ n' (start tb tbs s) _ B1 T BJ tbs ta ds J span); try done. by etrans.
  - intros F HX. destruct (HF F HX) as (T & HT & Hds).
    by eapply (link_jump F l3 _ n' (start fb fbs s) _ B2 T BJ fbs fa ds J span).
Qed.
End join.

(** ** The arms *)

Section arms.
Context (fbody : FunctionBodySyntax) (callables : gmap string FunctionId) (modules : list ModuleSymbols)
        (offsets : list nat) (caller : nat) (ps : list ValueId) (result : Ty).
Context (resolve : string -> option FunctionKey) (C : Calls) (calls_good : calls_ok callables modules resolve C).
Notation xblock := (xblock fbody resolve C).
Notation xstatement := (xstatement fbody resolve C).
Notation lowered := (lowered C ps result).
Notation never := (fun (_ : LS) (_ : bool) => False).
Notation root_lowered := (root_lowered fbody ps resolve C).

(** What is known of the blocks inside *)
Definition block_spec (lower_block : SBlockId -> N -> SM LS bool bool) : Prop :=
  forall id depth s, is_open s -> wf ps s ->
    spec (lower_block id depth) s
      (fun s' open => lowered (fun store => xblock store id) s s' open /\
         (open = true -> shapes (ls_bindings s) (ls_bindings s'))) never.
Context (lower_block : SBlockId -> N -> SM LS bool bool) (block_growing : forall b d, growing (lower_block b d)).
Context (block_good : block_spec lower_block).
#[local] Hint Resolve block_growing : growing.

Definition arm_run (block : option SBlockId) (store : Store) : Completion -> Prop :=
  match block with Some id => xblock store id | None => skip store end.

(** An arm that begins in [s0] and ends in [s'] *)
Record arm (run : Store -> Completion -> Prop) (s0 s' : LS) (open : bool) : Prop := {
  ar_lowered : lowered run s0 s' open;
  ar_shapes : open = true -> shapes (ls_bindings s0) (ls_bindings s') }.

Lemma spec_lower_branch depth target incoming block s B (L : LS -> bool -> Prop) :
  open_at s target B -> wf ps (start target incoming s) ->
  spec (lower_branch lower_block depth target incoming block) s
    (fun s' r => exists open, r = (if open : bool then Some (ls_current s', ls_bindings s') else None) /\
       arm (arm_run block) (start target incoming s) s' open) L.
Proof.
  intros HB Hw. unfold lower_branch. sbind. apply spec_modify. intros _ _. sbind. apply spec_modify. intros _ _.
  change (set_bindings incoming (set_current target s)) with (start target incoming s).
  assert (Ho : is_open (start target incoming s)) by by exists B.
  sbind. apply (spec_post _ _ (fun s' open => arm (arm_run block) (start target incoming s) s' open)).
  - destruct block as [id|].
    + apply spec_invoke_never. eapply spec_post; [by apply block_good|]. intros s' open _ [H1 H2]. by split.
    + apply spec_ret. split; [by apply lowered_skip|intros _; apply shapes_refl].
  - intros s' open _ H _. sbind. apply spec_gets. intros _. sbind. apply spec_gets. intros _. apply spec_ret. by exists open.
Qed.

(** Both arms: [s3] is the state after the branch *)
Record forked (run_true run_false : Store -> Completion -> Prop) (incoming : list Binding) (s3 s4 s5 : LS) (t f : nat)
    (open_true open_false : bool) : Prop := {
  fk_true : arm run_true (start t incoming s3) s4 open_true;
  fk_false : arm run_false (start f incoming s4) s5 open_false;
  fk_ne : t < f;
  fk_in : f < length (ls_blocks s3) }.

Section forked.
Context (run_true run_false : Store -> Completion -> Prop) (incoming : list Binding) (s3 s4 s5 : LS) (t f : nat)
        (open_true open_false : bool).
Context (fork : forked run_true run_false incoming s3 s4 s5 t f open_true open_false).

Lemma forked_true_touch : touch t (ls_blocks s3) (ls_blocks s4).
Proof. apply (mv_blocks _ _ (lw_moves _ _ _ _ _ _ _ (ar_lowered _ _ _ _ (fk_true _ _ _ _ _ _ _ _ _ _ fork)))). Qed.
Lemma forked_false_touch : touch f (ls_blocks s4) (ls_blocks s5).
Proof. apply (mv_blocks _ _ (lw_moves _ _ _ _ _ _ _ (ar_lowered _ _ _ _ (fk_false _ _ _ _ _ _ _ _ _ _ fork)))). Qed.
Lemma forked_false_start : ls_blocks s4 !! f = ls_blocks s3 !! f.
Proof. apply (to_others _ _ _ forked_true_touch); [apply fork|]. pose proof (fk_ne _ _ _ _ _ _ _ _ _ _ fork). lia. Qed.
Lemma forked_true_current : ls_current s4 <> f /\ t <= ls_current s4.
Proof.
  destruct (mv_current _ _ (lw_moves _ _ _ _ _ _ _ (ar_lowered _ _ _ _ (fk_true _ _ _ _ _ _ _ _ _ _ fork)))) as [H|H]; cbn in H;
    pose proof (fk_ne _ _ _ _ _ _ _ _ _ _ fork); pose proof (fk_in _ _ _ _ _ _ _ _ _ _ fork); lia.
Qed.
Lemma forked_false_current : t < ls_current s5.
Proof.
  destruct (mv_current _ _ (lw_moves _ _ _ _ _ _ _ (ar_lowered _ _ _ _ (fk_false _ _ _ _ _ _ _ _ _ _ fork)))) as [H|H]; cbn in H;
    pose proof (fk_ne _ _ _ _ _ _ _ _ _ _ fork); pose proof (fk_in _ _ _ _ _ _ _ _ _ _ fork);
    pose proof (to_length _ _ _ forked_true_touch); lia.
Qed.
Lemma forked_distinct : ls_current s4 < length (ls_blocks s4) -> ls_current s4 <> ls_current s5.
Proof.
  intros Hlt. destruct (mv_current _ _ (lw_moves _ _ _ _ _ _ _ (ar_lowered _ _ _ _ (fk_false _ _ _ _ _ _ _ _ _ _ fork)))) as [H|H]; cbn in H;
    [rewrite H; apply forked_true_current|lia].
Qed.
(** The end of the true arm is still there after the other. *)
Lemma forked_true_end i : i < length (ls_blocks s4) -> i <> f -> ls_blocks s5 !! i = ls_blocks s4 !! i.
Proof. apply (to_others _ _ _ forked_false_touch). Qed.
Lemma forked_touch c l : touch c l (ls_blocks s3) -> length l <= t -> touch c l (ls_blocks s5).
Proof.
  intros H Hl. pose proof (fk_ne _ _ _ _ _ _ _ _ _ _ fork).
  eapply touch_trans; [eapply touch_trans; [exact H|exact forked_true_touch|by right]|exact forked_false_touch|right; lia].
Qed.
Lemma forked_next : (ls_next_value s3 <= ls_next_value s4 /\ ls_next_value s4 <= ls_next_value s5)%N.
Proof.
  split; [apply (mv_next _ _ (lw_moves _ _ _ _ _ _ _ (ar_lowered _ _ _ _ (fk_true _ _ _ _ _ _ _ _ _ _ fork))))|].
  apply (mv_next _ _ (lw_moves _ _ _ _ _ _ _ (ar_lowered _ _ _ _ (fk_false _ _ _ _ _ _ _ _ _ _ fork)))).
Qed.
End forked.

(** The state after the branch on [tv] *)
Definition branched (span : Span) (tv : TypedValue) (B : Block) (edges : N) (s : LS) : LS :=
  let t := length (ls_blocks s) in
  let l := ls_blocks s ++ [empty_block t] in
  let f := length l in
  set_draft_blocks (<[ls_current s := push_terminator
      (mkSpannedTerminator span (Branch (tv_value tv) (index_u32 t) [] (index_u32 f) [])) B]> (l ++ [empty_block f]))
    (set_cfg_edges edges s).
Section branched.
Context (span : Span) (tv : TypedValue) (B : Block) (edges : N) (s : LS) (HB : open_at s (ls_current s) B).
Notation t := (length (ls_blocks s)).
Notation s' := (branched span tv B edges s).

Lemma branched_current_lt : ls_current s < t.
Proof. destruct HB as [H _]. by apply lookup_lt_Some in H. Qed.
Lemma branched_length : length (ls_blocks s') = S (S t).
Proof. cbn. rewrite length_insert, !length_app. cbn. lia. Qed.
Lemma branched_true : ls_blocks s' !! t = Some (empty_block t).
Proof.
  pose proof branched_current_lt. cbn. rewrite list_lookup_insert_ne by lia.
  rewrite lookup_app_l by (rewrite length_app; cbn; lia). by apply list_lookup_middle.
Qed.
Lemma branched_false : ls_blocks s' !! S t = Some (empty_block (S t)).
Proof.
  pose proof branched_current_lt. cbn. rewrite list_lookup_insert_ne by lia.
  rewrite length_app, Nat.add_1_r. apply list_lookup_middle. rewrite length_app. cbn. lia.
Qed.
Lemma branched_touch : touch (ls_current s) (ls_blocks s) (ls_blocks s').
Proof.
  destruct HB as [H Ht]. pose proof branched_current_lt. cbn.
  eapply touch_trans; [apply touch_app|eapply touch_trans; [apply touch_app| |by left]|by left].
  eapply touch_insert; [|by apply bext_terminator]. by rewrite !lookup_app_l by (rewrite ?length_app; cbn; lia).
Qed.
Lemma branched_wf ps' : wf ps' s -> wf ps' s'.
Proof.
  destruct HB as [H Ht]. pose proof branched_current_lt. intros [I Hb]. split; [|done]. cbn.
  eapply (wf_values_same _ _ _ _ B); [by do 2 apply wf_values_app| |done].
  by rewrite !lookup_app_l by (rewrite ?length_app; cbn; lia).
Qed.

(** What the branch does *)
Lemma at_branched F k env w :
  ext (ls_blocks s') F -> index_u32 t = N.of_nat t -> index_u32 (S t) = N.of_nat (S t) ->
  at_end C F (ls_blocks s) (ls_current s) k env w <->
  exists k' (b : bool), k = S k' /\ env !! tv_value tv = Some (VBool b) /\
    at_end C F (ls_blocks s') (if b then t else S t) k' env w.
Proof.
  destruct HB as [H Ht]. pose proof branched_current_lt. intros HF H1 H2. unfold branched in HF. cbn in HF.
  set (l2 := (ls_blocks s ++ _) ++ _) in HF.
  assert (HB2 : l2 !! ls_current s = Some B) by (unfold l2; by rewrite !lookup_app_l by (rewrite ?length_app; cbn; lia)).
  rewrite (at_end_same C F _ l2) by congruence. rewrite length_app, Nat.add_1_r in HF.
  rewrite (at_branch C F _ _ _ _ HB2 Ht HF (tv_value tv) t (S t)) by done.
  pose proof (fun k => at_end_start C F _ _ _ k env w branched_true eq_refl) as E1.
  pose proof (fun k => at_end_start C F _ _ _ k env w branched_false eq_refl) as E2.
  split; intros (k' & b & -> & Hx & Hs); exists k', b; (split_and!; [done..|]); destruct b;
    first [by apply E1|by apply E2].
Qed.
End branched.

(** ** The conditional *)

(** The state after the arms and, if both are open, the join *)
Record closed (s s4 s5 s' : LS) (open_true open_false : bool) : Prop := {
  cl_next : (ls_next_value s5 <= ls_next_value s')%N;
  cl_ext : ext (ls_blocks s5) (ls_blocks s');
  cl_before i : i < length (ls_blocks s) -> ls_blocks s' !! i = ls_blocks s5 !! i;
  cl_current : length (ls_blocks s) <= ls_current s';
  cl_wf : wf ps s';
  cl_open : open_true || open_false = true -> is_open s' /\ shapes (ls_bindings s) (ls_bindings s');
  cl_true F : open_true = true -> ext (ls_blocks s') F ->
    link C (ls_next_value s) F (start (ls_current s4) (ls_bindings s4) s5) s';
  cl_false F : open_false = true -> ext (ls_blocks s') F ->
    link C (ls_next_value s) F (start (ls_current s5) (ls_bindings s5) s5) s' }.

Lemma ext_length l l' : ext l l' -> length l <= length l'.
Proof.
  intros H. destruct (decide (length l <= length l')) as [|Hn]; [done|]. exfalso.
  destruct (lookup_lt_is_Some_2 l (length l')) as [B HB]; [lia|]. destruct (H _ _ HB) as (B' & HB' & _).
  apply lookup_lt_Some in HB'. lia.
Qed.

Lemma lowered_fork condition run_true run_false s s1 tv span B edges s4 s5 s' open_true open_false :
  let t := length (ls_blocks s1) in
  wf ps s -> root_lowered condition s s1 tv -> tv_ty tv = Bool -> open_at s1 (ls_current s1) B ->
  index_u32 t = N.of_nat t -> index_u32 (S t) = N.of_nat (S t) ->
  forked run_true run_false (ls_bindings s1) (branched span tv B edges s1) s4 s5 t (S t) open_true open_false ->
  closed s s4 s5 s' open_true open_false ->
  lowered (choice (fun store => evals fbody resolve C store condition) run_true run_false) s s' (open_true || open_false).
Proof.
  intros t Hw [Hl Hb Hc] Hty HB It If Hf Hcl.
  pose proof (ln_current _ _ _ Hl) as Ec. pose proof (ln_bindings _ _ _ Hl) as Eb. pose proof (ln_moves _ _ _ Hl) as Hm.
  assert (Hlen : length (ls_blocks s) <= t) by apply (to_length _ _ _ (mv_blocks _ _ Hm)).
  assert (T5 : touch (ls_current s) (ls_blocks s) (ls_blocks s5)).
  { eapply forked_touch; [exact Hf| |exact Hlen]. eapply touch_trans; [exact (mv_blocks _ _ Hm)| |left; exact Ec].
    by apply branched_touch. }
  pose proof (forked_next _ _ _ _ _ _ _ _ _ _ Hf) as [N4 N5]. pose proof (mv_next _ _ Hm) as N1. cbn in N4.
  assert (Hn4 : (ls_next_value s <= ls_next_value s1)%N) by lia.
  split.
  - split; [pose proof (cl_next _ _ _ _ _ _ Hcl); lia| |right; apply Hcl]. destruct T5 as [L5 O5 W5]. split.
    + pose proof (ext_length _ _ (cl_ext _ _ _ _ _ _ Hcl)). lia.
    + intros i Hi Hne. rewrite (cl_before _ _ _ _ _ _ Hcl i Hi). auto.
    + intros B0 HB0. rewrite (cl_before _ _ _ _ _ _ Hcl); [auto|]. by apply lookup_lt_Some in HB0.
  - apply Hcl.
  - intros Ho. by apply Hcl.
  - intros Ho. eexists _, []. split; [by rewrite app_nil_r|by apply Hcl].
  - intros F HF.
    assert (F5 : ext (ls_blocks s5) F) by (etrans; [apply Hcl|exact HF]).
    assert (F4 : ext (ls_blocks s4) F) by (etrans; [eapply touch_ext, forked_false_touch, Hf|exact F5]).
    assert (F3 : ext (ls_blocks (branched span tv B edges s1)) F) by (etrans; [eapply touch_ext, forked_true_touch, Hf|exact F4]).
    assert (F1 : ext (ls_blocks s1) F) by (etrans; [eapply touch_ext, branched_touch, HB|exact F3]).
    eapply (does_choice C result _ _ _ F s s1 tv (start t (ls_bindings s1) (branched span tv B edges s1))
              (start (S t) (ls_bindings s1) s4)); [apply Hw|by auto|done| |exact Eb|exact Eb| |].
    + intros k env w. rewrite (at_branched span tv B edges s1 HB F k env w F3 It If).
      assert (Ef : forall k env w, at_end C F (ls_blocks (branched span tv B edges s1)) (S t) k env w <-> at_end C F (ls_blocks s4) (S t) k env w).
      { intros. apply at_end_same. by apply (forked_false_start _ _ _ _ _ _ _ _ _ _ Hf). }
      split; intros (k' & [] & -> & Hx & H); [exists k', true|exists k', false|exists k', true|exists k', false];
        (split_and!; [done|done|]); first [exact H|by apply Ef].
    + eapply does_link; [eapply does_le; [exact Hn4|]; apply (lw_does _ _ _ _ _ _ _ (ar_lowered _ _ _ _ (fk_true _ _ _ _ _ _ _ _ _ _ Hf)) F F4)|].
      intros ->. eapply link_trans; [|by apply (cl_true _ _ _ _ _ _ Hcl F eq_refl HF)].
      apply link_same; [done|]. intros k env w. apply at_end_same. cbn.
      destruct (lw_open _ _ _ _ _ _ _ (ar_lowered _ _ _ _ (fk_true _ _ _ _ _ _ _ _ _ _ Hf)) eq_refl) as (B4 & HB4 & _).
      apply (forked_true_end _ _ _ _ _ _ _ _ _ _ Hf); [by apply lookup_lt_Some in HB4|].
      apply (forked_true_current _ _ _ _ _ _ _ _ _ _ Hf).
    + eapply does_link; [eapply does_le; [|apply (lw_does _ _ _ _ _ _ _ (ar_lowered _ _ _ _ (fk_false _ _ _ _ _ _ _ _ _ _ Hf)) F F5)]; cbn; lia|].
      intros ->. by apply (cl_false _ _ _ _ _ _ Hcl F eq_refl HF).
Qed.

Lemma spec_condition_span e s (Q : LS -> Span -> Prop) L :
  (forall span, Q s span) -> spec (condition_span fbody e) s Q L.
Proof. intros HQ. unfold condition_span. sbind. apply spec_expect. intros ? _ _. by apply spec_ret. Qed.

Section ends.
Context (s s1 : LS) (span : Span) (tv : TypedValue) (B : Block) (edges : N) (s4 s5 : LS) (run_true run_false : Store -> Completion -> Prop).
Context (Hw : wf ps s) (Hl : line ps s s1) (HB : open_at s1 (ls_current s1) B).
Notation t := (length (ls_blocks s1)).
Notation forked open_true open_false :=
  (forked run_true run_false (ls_bindings s1) (branched span tv B edges s1) s4 s5 t (S t) open_true open_false).

Lemma before_arms : length (ls_blocks s) <= t.
Proof. apply (to_length _ _ _ (mv_blocks _ _ (ln_moves _ _ _ Hl))). Qed.
Lemma arms_next open_true open_false : forked open_true open_false -> (ls_next_value s <= ls_next_value s4 /\ ls_next_value s4 <= ls_next_value s5)%N.
Proof.
  intros Hf. pose proof (forked_next _ _ _ _ _ _ _ _ _ _ Hf) as [H4 H5]. pose proof (mv_next _ _ (ln_moves _ _ _ Hl)). cbn in H4. lia.
Qed.

Lemma closed_none : forked false false -> closed s s4 s5 s5 false false.
Proof.
  intros Hf. pose proof (forked_false_current _ _ _ _ _ _ _ _ _ _ Hf). pose proof before_arms.
  split; try done; [lia|]. apply (ar_lowered _ _ _ _ (fk_false _ _ _ _ _ _ _ _ _ _ Hf)).
Qed.
Lemma closed_true : forked true false -> closed s s4 s5 (start (ls_current s4) (ls_bindings s4) s5) true false.
Proof.
  intros Hf. pose proof before_arms. pose proof (arms_next _ _ Hf) as [N4 N5].
  destruct (ar_lowered _ _ _ _ (fk_true _ _ _ _ _ _ _ _ _ _ Hf)) as [_ W4 O4 _ _].
  destruct (ar_lowered _ _ _ _ (fk_false _ _ _ _ _ _ _ _ _ _ Hf)) as [_ W5 _ _ _].
  pose proof (forked_true_current _ _ _ _ _ _ _ _ _ _ Hf) as [Hne Hge].
  split; try done; cbn.
  - lia.
  - split; [apply W5|]. cbn. eapply bounded_le; [exact N5|apply W4].
  - intros _. split.
    + destruct (O4 eq_refl) as (B4 & HB4 & Ht4). exists B4. split; [|done]. cbn.
      rewrite (forked_true_end _ _ _ _ _ _ _ _ _ _ Hf); [done| |done]. by apply lookup_lt_Some in HB4.
    + rewrite <- (ln_bindings _ _ _ Hl). by apply (ar_shapes _ _ _ _ (fk_true _ _ _ _ _ _ _ _ _ _ Hf)).
  - intros F _ _. by apply link_same.
Qed.
Lemma closed_false : forked false true -> closed s s4 s5 (start (ls_current s5) (ls_bindings s5) s5) false true.
Proof.
  intros Hf. pose proof before_arms. pose proof (forked_false_current _ _ _ _ _ _ _ _ _ _ Hf).
  destruct (ar_lowered _ _ _ _ (fk_false _ _ _ _ _ _ _ _ _ _ Hf)) as [_ W5 O5 _ _].
  split; try done; cbn.
  - lia.
  - split; apply W5.
  - intros _. split; [by apply O5|]. rewrite <- (ln_bindings _ _ _ Hl).
    by apply (ar_shapes _ _ _ _ (fk_false _ _ _ _ _ _ _ _ _ _ Hf)).
  - intros F _ _. by apply link_same.
Qed.
Lemma closed_both s' :
  forked true true -> joined ps C (ls_bindings s1) s5 (ls_current s4) (ls_bindings s4) (ls_current s5) (ls_bindings s5) s' ->
  closed s s4 s5 s' true true.
Proof.
  intros Hf Hj. pose proof before_arms. pose proof (forked_false_current _ _ _ _ _ _ _ _ _ _ Hf).
  pose proof (forked_true_current _ _ _ _ _ _ _ _ _ _ Hf) as [Hne Hge]. pose proof (arms_next _ _ Hf) as [N4 N5].
  pose proof (to_length _ _ _ (forked_true_touch _ _ _ _ _ _ _ _ _ _ Hf)) as L4.
  pose proof (to_length _ _ _ (forked_false_touch _ _ _ _ _ _ _ _ _ _ Hf)) as L5. rewrite branched_length in L4.
  split; [apply Hj|apply Hj| | |apply Hj| | |].
  - intros i Hi. apply Hj; lia.
  - rewrite (jn_current _ _ _ _ _ _ _ _ _ Hj). lia.
  - intros _. split; [apply Hj|]. rewrite <- (ln_bindings _ _ _ Hl). apply Hj.
  - intros F _ HF. eapply link_le; [|by apply (jn_true _ _ _ _ _ _ _ _ _ Hj)]. lia.
  - intros F _ HF. eapply link_le; [|by apply (jn_false _ _ _ _ _ _ _ _ _ Hj)]. lia.
Qed.
End ends.

Lemma if_choice store k1 k2 c k3 t els r :
  choice (fun store => evals fbody resolve C store c) (arm_run (Some t)) (arm_run (el_block <$> els)) store r <->
  xstatement store (SIf k1 k2 c k3 t els) r.
Proof.
  split.
  - intros ([] & Hc & Hr); [by apply x_then|]. destruct els; [by apply x_else|]. cbn in Hr. rewrite Hr. by apply x_no_else.
  - intros H. inversion H; subst; [exists true|exists false|exists false]; by split.
Qed.

(** The arms from the state after the branch *)
Lemma spec_lower_arms depth c t els span s s1 tv B edges k1 k2 k3 :
  wf ps s -> root_lowered c s s1 tv -> tv_ty tv = Bool -> open_at s1 (ls_current s1) B ->
  index_u32 (length (ls_blocks s1)) = N.of_nat (length (ls_blocks s1)) ->
  index_u32 (S (length (ls_blocks s1))) = N.of_nat (S (length (ls_blocks s1))) ->
  spec (lower_arms fbody lower_block depth (ls_bindings s1) (length (ls_blocks s1)) t (S (length (ls_blocks s1)))
          (el_block <$> els) span) (branched span tv B edges s1)
    (fun s' open => lowered (fun store => xstatement store (SIf k1 k2 c k3 t els)) s s' open /\
       (open = true -> shapes (ls_bindings s) (ls_bindings s'))) never.
Proof.
  intros Hw Hr Hty HBo It If. pose proof (rt_line _ _ _ _ _ _ _ _ Hr) as Hl. unfold lower_arms.
  pose proof (branched_wf span tv B edges s1 HBo ps (ln_wf _ _ _ Hl Hw)) as W3.
  sbind. eapply spec_post; [eapply (spec_lower_branch _ _ _ _ _ (empty_block (length (ls_blocks s1))))|].
  { split; [by apply branched_true|done]. }
  { destruct W3. by split. }
  intros s4 r4 _ (ot & -> & A4) _.
  assert (T4 : touch (length (ls_blocks s1)) (ls_blocks (branched span tv B edges s1)) (ls_blocks s4)) by apply (mv_blocks _ _ (lw_moves _ _ _ _ _ _ _ (ar_lowered _ _ _ _ A4))).
  sbind. eapply spec_post; [eapply (spec_lower_branch _ _ _ _ _ (empty_block (S (length (ls_blocks s1)))))|].
  { split; [|done]. rewrite (to_others _ _ _ T4); [by apply branched_false|rewrite branched_length; lia|lia]. }
  { destruct (lw_wf _ _ _ _ _ _ _ (ar_lowered _ _ _ _ A4)) as [I4 _]. split; [done|]. cbn.
    eapply bounded_le; [|apply W3]. apply (mv_next _ _ (lw_moves _ _ _ _ _ _ _ (ar_lowered _ _ _ _ A4))). }
  intros s5 r5 _ (o_f & -> & A5) _.
  assert (Hf : forked (arm_run (Some t)) (arm_run (el_block <$> els)) (ls_bindings s1) (branched span tv B edges s1) s4 s5
    (length (ls_blocks s1)) (S (length (ls_blocks s1))) ot o_f).
  { split; [done|done|lia|rewrite branched_length; lia]. }
  assert (Hend : forall s', closed s s4 s5 s' ot o_f ->
    lowered (fun store => xstatement store (SIf k1 k2 c k3 t els)) s s' (ot || o_f) /\
      (ot || o_f = true -> shapes (ls_bindings s) (ls_bindings s'))).
  { intros s' Hcl. split; [|intros; by apply Hcl].
    eapply lowered_run; [intros; apply if_choice|]. by eapply (lowered_fork c _ _ s s1 tv span B edges s4 s5 s' ot o_f). }
  destruct ot, o_f.
  - destruct (lw_open _ _ _ _ _ _ _ (ar_lowered _ _ _ _ A4) eq_refl) as (B4 & HB4 & Ht4).
    destruct (lw_open _ _ _ _ _ _ _ (ar_lowered _ _ _ _ A5) eq_refl) as (B5 & HB5).
    pose proof (lookup_lt_Some _ _ _ HB4). pose proof (arms_next _ _ _ _ _ _ _ _ _ _ Hl _ _ Hf) as [N4 N5].
    eapply spec_post; [eapply (spec_lower_join _ ps C _ _ _ _ B4 _ _ B5)|].
    + split; [|done]. rewrite (forked_true_end _ _ _ _ _ _ _ _ _ _ Hf); [done|done|apply (forked_true_current _ _ _ _ _ _ _ _ _ _ Hf)].
    + done.
    + by apply (forked_distinct _ _ _ _ _ _ _ _ _ _ Hf).
    + by apply (ar_shapes _ _ _ _ A4).
    + by apply (ar_shapes _ _ _ _ A5).
    + eapply bounded_le; [exact N5|]. apply (lw_wf _ _ _ _ _ _ _ (ar_lowered _ _ _ _ A4)).
    + apply (lw_wf _ _ _ _ _ _ _ (ar_lowered _ _ _ _ A5)).
    + apply (lw_wf _ _ _ _ _ _ _ (ar_lowered _ _ _ _ A5)).
    + intros s' open _ [-> Hj]. apply Hend. by eapply closed_both.
  - sbind. apply spec_modify. intros _ _. sbind. apply spec_modify. intros _ _. apply spec_ret. apply Hend. by eapply closed_true.
  - sbind. apply spec_modify. intros _ _. sbind. apply spec_modify. intros _ _. apply spec_ret. apply Hend. by eapply closed_false.
  - apply spec_ret. apply Hend. by eapply closed_none.
Qed.

Lemma spec_lower_if depth c t els span s k1 k2 k3 :
  is_open s -> wf ps s ->
  spec (lower_if fbody callables modules offsets caller lower_block depth c t (el_block <$> els) span) s
    (fun s' open => lowered (fun store => xstatement store (SIf k1 k2 c k3 t els)) s s' open /\
       (open = true -> shapes (ls_bindings s) (ls_bindings s'))) never.
Proof.
  intros Ho Hw. unfold lower_if. sbind. apply spec_condition_span. intros where_ _.
  sbind. eapply spec_post; [by apply (spec_lower_root fbody callables modules offsets caller ps resolve C calls_good)|].
  intros s1 r _ (tv & -> & Hr) _. sbind. apply spec_or_leave; [|done]. intros ? [= <-] _.
  sbind. apply spec_when; [intros _; apply spec_report_at|]. intros Hty%negb_false_iff%bool_decide_eq_true _.
  sbind. apply spec_check. intros _ _. sbind. apply spec_gets. intros _.
  sbind. apply spec_fresh_block. intros It _. sbind. apply spec_fresh_block. cbn. intros If _.
  pose proof (rt_line _ _ _ _ _ _ _ _ Hr) as Hl. destruct (ln_open _ _ _ Hl Ho) as (B & HB).
  pose proof (branched_current_lt B s1 HB) as Hlt.
  sbind. apply spec_terminate_or_leave.
  { exists B. destruct HB as [HB Ht]. split; [|done]. cbn. by rewrite !lookup_app_l by (rewrite ?length_app; cbn; lia). }
  intros B' edges [HB' _] _. cbn in *. rewrite !lookup_app_l in HB' by (rewrite ?length_app; cbn; lia).
  destruct HB as [HB Ht]. replace B' with B by congruence. clear B' HB'.
  pose proof (conj HB Ht) as HBo. fold (open_at s1 (ls_current s1) B) in HBo.
  change (set_draft_blocks _ _) with (branched span tv B edges s1).
  rewrite length_app, Nat.add_1_r in If |- *.
  by apply spec_lower_arms.
Qed.
End arms.
