(* ===== verification/SemLoop.v ===== *)
(** * Loops *)
From stdpp Require Import base numbers list list_numbers strings gmap.
From S2P Require Import Prelude Source Diagnostics Abi CfgAlgorithms ControlFlow ControlFlowSpec ControlFlowExec.
From S2P Require Import Syntax Semantics SemLower SemValues SourceSemantics SourceRelation CfgSteps.
From S2P Require Import SemLogic SemExpr SemMerge SemBranch.

Section loop.
Context (fbody : FunctionBodySyntax) (callables : gmap string FunctionId) (modules : list ModuleSymbols)
        (offsets : list nat) (caller : nat) (ps : list ValueId) (result : Ty).
Context (resolve : string -> option FunctionKey) (C : Calls) (calls_good : calls_ok callables modules resolve C).
Notation evals := (evals fbody resolve C).
Notation xblock := (xblock fbody resolve C).
Notation xstatement := (xstatement fbody resolve C).
Notation lowered := (lowered C ps result).
Notation does := (does C result).
Notation never := (fun (_ : LS) (_ : bool) => False).
Notation at_ F s k env w := (at_end C F (ls_blocks s) (ls_current s) k env w).

(** ** Iterations *)

Section iterations.
Context (c : ExpressionId) (b : SBlockId) (k1 k2 k3 : Span) (F : list Block) (n : N).
Notation loop := (SWhile k1 k2 c k3 b).
(** The header, the body, its end and the exit *)
Context (head_ body_ body_end exit_ : LS) (h : list Binding) (tv : TypedValue) (open : bool).
Context (Eh : ls_bindings head_ = h) (Eb : ls_bindings body_ = h) (Ee : ls_bindings exit_ = h).
Context (Hn : (n <= ls_next_value head_)%N) (Hb : bounded (ls_next_value head_) h).
Context (condition : forall store env, rel h store env -> exists s5 : LS,
  computes C F head_ s5 env tv (evals store c) /\
  forall k env w, at_ F s5 k env w <-> exists k' (b : bool), k = S k' /\ env !! tv_value tv = Some (VBool b) /\
     at_ F (if b then body_ else exit_) k' env w).
Context (body_does : does (fun store => xblock store b) n F body_ body_end open).
Context (back : open = true -> link C n F body_end head_).

Lemma loop_forward store kind r :
  xstatement store kind r -> kind = loop -> forall env, rel h store env ->
  match r with
  | Returns v => value_ty v = result /\ exists k, at_ F head_ k env v
  | Falls store' => exists env', agree n env env' /\ rel h store' env' /\
      forall w, (exists k, at_ F exit_ k env' w) -> exists k, at_ F head_ k env w
  end.
Proof.
  assert (Hcond : forall store env (v : bool), rel h store env -> evals store c (VBool v) -> exists env1,
    agree n env env1 /\ rel h store env1 /\ forall w, (exists k, at_ F (if v then body_ else exit_) k env1 w) -> exists k, at_ F head_ k env w).
  { intros store0 env v Hr Hv. destruct (condition _ _ Hr) as (s5 & [Hfw _] & Hat).
    destruct (Hfw _ Hv) as (env1 & (Ha & Hx & _) & H1). exists env1. split_and!; [by eapply agree_le|by eapply rel_agree|].
    intros w [k H]. exists (S k). apply H1, Hat. by exists k, v. }
  assert (Hbody : forall store env store', rel h store env -> xblock store b (Falls store') -> exists env1,
    agree n env env1 /\ rel h store' env1 /\ forall w, (exists k, at_ F head_ k env1 w) -> exists k, at_ F body_ k env w).
  { intros store0 env store' Hr Hx. destruct (does_link C result _ _ _ _ _ _ _ body_does back) as [Hf _]. rewrite Eb in Hf.
    destruct (Hf _ _ _ Hr Hx) as (_ & env1 & Ha & Hr1 & Hat). rewrite Eh in Hr1. eauto. }
  induction 1 as [| | | | | | |store s1 s2 c' s3 b' Hc|store s1 s2 c' s3 b' store' r Hc Hx H IH|store s1 s2 c' s3 b' v Hc Hx];
    try discriminate; intros E env Hr; injection E as -> -> -> -> ->.
  - destruct (Hcond _ _ _ Hr Hc) as (env1 & Ha & Hr1 & H1). exists env1. by split_and!.
  - destruct (Hcond _ _ _ Hr Hc) as (env1 & Ha & Hr1 & H1). destruct (Hbody _ _ _ Hr1 Hx) as (env2 & Ha2 & Hr2 & H2).
    specialize (IH eq_refl env2 Hr2). destruct r as [store2|v]; [|split; [apply IH|apply H1, H2, IH]].
    destruct IH as (env3 & Ha3 & Hr3 & H3). exists env3. split_and!; [etrans; [exact Ha|by etrans]|done|auto].
  - destruct (Hcond _ _ _ Hr Hc) as (env1 & Ha & Hr1 & H1). destruct body_does as [Hf _]. rewrite Eb in Hf.
    destruct (Hf _ _ _ Hr1 Hx) as [Hv Hat]. split; [done|]. by apply H1.
Qed.

Lemma loop_backward k store env w :
  rel h store env -> at_ F head_ k env w ->
  xstatement store loop (Returns w) \/
  exists store' env' k', k' <= k /\ xstatement store loop (Falls store') /\ agree n env env' /\ rel h store' env' /\
    at_ F exit_ k' env' w.
Proof.
  revert store env. induction (lt_wf k) as [k _ IH]. intros store env Hr Hat.
  destruct (condition _ _ Hr) as (s5 & [_ Hbw] & Hbr). destruct (Hbw _ _ Hat) as (v & env1 & Hv & (Ha & Hx & _) & H1).
  apply Hbr in H1 as (k0 & v' & -> & Hx' & H1). replace v with (VBool v') in * by congruence.
  assert (Hr1 : rel h store env1) by by eapply rel_agree.
  assert (Ha1 : agree n env env1) by by eapply agree_le. destruct v'.
  - destruct (does_link C result _ _ _ _ _ _ _ body_does back) as [_ Hb2]. rewrite Eb, Eh in Hb2.
    destruct (Hb2 _ _ _ _ Hr1 H1) as [Hret|(_ & store2 & env2 & j & Hj & Hf & Ha2 & Hr2 & H2)]; [left; by eapply x_break|].
    destruct (IH j ltac:(lia) _ _ Hr2 H2) as [Hret|(store3 & env3 & j3 & Hj3 & Hf3 & Ha3 & Hr3 & H3)].
    + left. by eapply x_again.
    + right. exists store3, env3, j3. split_and!; [lia|by eapply x_again|etrans; [exact Ha1|by etrans]|done|done].
  - right. exists store, env1, k0. split_and!; [lia|by apply x_exit|done|done|done].
Qed.

Lemma does_loop s : link C n F s head_ -> does (fun store => xstatement store loop) n F s exit_ true.
Proof.
  intros Hl. split.
  - intros store env r Hr Hx. destruct (Hl _ _ Hr) as (env1 & A1 & R1 & F1 & _). rewrite Eh in R1.
    pose proof (loop_forward _ _ _ Hx eq_refl _ R1) as H. destruct r as [store'|v].
    + destruct H as (env2 & A2 & R2 & F2). split; [done|]. exists env2. split_and!; [by etrans|by rewrite Ee|auto].
    + split; [apply H|]. apply F1, H.
  - intros store env k w Hr Hat. destruct (Hl _ _ Hr) as (env1 & A1 & R1 & _ & B1). rewrite Eh in R1.
    destruct (B1 _ _ Hat) as (k' & ? & H1). destruct (loop_backward _ _ _ _ R1 H1) as [Hret|(store' & env2 & j & ? & Hx & A2 & R2 & H2)].
    + by left.
    + right. split; [done|]. exists store', env2, j. split_and!; [lia|done|by etrans|by rewrite Ee|done].
Qed.
End iterations.

(** ** The header *)

Definition jump_to (span : Span) (j : nat) (args : list ValueId) : SpannedTerminator :=
  mkSpannedTerminator span (Jump (index_u32 j) args).
(** The header with its parameters, entered from the current block *)
Definition header_state (span : Span) (B0 : Block) (ds : list ValueDefinition) (n' edges : N) (h : list Binding) (s : LS) : LS :=
  let H := length (ls_blocks s) in
  start H h (set_draft_blocks (<[ls_current s := push_terminator
      (jump_to span H (carried_values (ls_bindings s) (ls_bindings s))) B0]>
      (ls_blocks s ++ [push_parameters ds (empty_block H)]))
    (set_cfg_edges edges (set_next_value n' s))).

Record entered (ds : list ValueDefinition) (n' : N) (s head_ : LS) : Prop := {
  en_index : index_u32 (length (ls_blocks s)) = N.of_nat (length (ls_blocks s));
  en_next : (ls_next_value s <= ls_next_value head_)%N;
  en_touch : touch (ls_current s) (ls_blocks s) (ls_blocks head_);
  en_length : length (ls_blocks head_) = S (length (ls_blocks s));
  en_current : ls_current head_ = length (ls_blocks s);
  en_block : ls_blocks head_ !! length (ls_blocks s) = Some (push_parameters ds (empty_block (length (ls_blocks s))));
  en_wf : wf ps head_;
  en_shapes : shapes (ls_bindings s) (ls_bindings head_);
  en_carries bs : shapes (ls_bindings s) bs ->
    carries (ls_next_value s) (ls_next_value s) bs (ls_bindings head_) (carried_values (ls_bindings s) bs) ds n';
  en_link F : ext (ls_blocks head_) F -> link C (ls_next_value s) F s head_ }.

Lemma header_target ds n' s head_ F :
  entered ds n' s head_ -> ext (ls_blocks head_) F -> exists T, F !! length (ls_blocks s) = Some T /\ b_parameters T = ds.
Proof.
  intros He HF. destruct (HF _ _ (en_block _ _ _ _ He)) as (T & HT & Hx). exists T. split; [done|].
  rewrite (bx_parameters _ _ Hx). done.
Qed.

Lemma header_entered span B0 ds n' edges h s :
  open_at s (ls_current s) B0 -> wf ps s -> index_u32 (length (ls_blocks s)) = N.of_nat (length (ls_blocks s)) ->
  shapes (ls_bindings s) h ->
  (forall bs, shapes (ls_bindings s) bs ->
     carries (ls_next_value s) (ls_next_value s) bs h (carried_values (ls_bindings s) bs) ds n') ->
  entered ds n' s (header_state span B0 ds n' edges h s).
Proof.
  intros [HB Ht] [I Hb] Hi Hs Hc. pose proof (lookup_lt_Some _ _ _ HB) as Hlt.
  pose proof (Hc _ (shapes_refl _)) as Hc0. pose proof (carries_fresh _ _ _ _ _ _ _ Hc0) as Hfr.
  set (H := length (ls_blocks s)) in *. set (BH := push_parameters ds (empty_block H)).
  set (l := ls_blocks s ++ [BH]).
  assert (HBl : l !! ls_current s = Some B0) by (unfold l; by rewrite lookup_app_l).
  assert (HH : ls_blocks (header_state span B0 ds n' edges h s) !! H = Some BH).
  { cbn. rewrite list_lookup_insert_ne by lia. by apply list_lookup_middle. }
  split; try done; cbn.
  - by eapply fresh_params_le.
  - eapply touch_trans; [apply touch_app|eapply touch_insert; [exact HBl|by apply bext_terminator]|by left].
  - rewrite length_insert, length_app. cbn. lia.
  - split; cbn; [|eapply carries_bounded; [exact Hc0|done]].
    eapply (wf_values_same _ _ _ _ B0); [|exact HBl|done]. unfold l, BH, H.
    rewrite <- (snoc_insert _ (empty_block (length (ls_blocks s)))).
    eapply wf_push_parameters; [by apply wf_values_app|by apply list_lookup_middle|done].
  - intros F HF. destruct (HF _ _ HH) as (T & HT & Hx).
    eapply (link_jump C F l _ n' s _ B0 T BH (ls_bindings s) _ ds H span); try done.
    by rewrite (bx_parameters _ _ Hx).
Qed.

(** ** The whole loop *)

(** The state after the body and, if its end is open, the back edge *)
Definition backed (span : Span) (H : nat) (args : list ValueId) (s9 s10 : LS) (open : bool) : Prop :=
  if open then exists B9 edges, open_at s9 (ls_current s9) B9 /\
    s10 = set_draft_blocks (<[ls_current s9 := push_terminator (jump_to span H args) B9]> (ls_blocks s9)) (set_cfg_edges edges s9)
  else s10 = s9.

Lemma backed_touch span H args s9 s10 open :
  backed span H args s9 s10 open -> touch (ls_current s9) (ls_blocks s9) (ls_blocks s10).
Proof.
  destruct open; [|intros ->; apply touch_refl]. intros (B9 & edges & [HB Ht] & ->). cbn.
  by eapply touch_insert, bext_terminator.
Qed.
Lemma backed_wf span H args s9 s10 open : backed span H args s9 s10 open -> wf ps s9 -> wf ps s10.
Proof.
  destruct open; [|by intros ->]. intros (B9 & edges & [HB Ht] & ->) [I Hb]. split; [|done]. cbn.
  by eapply (wf_values_same _ _ _ _ B9).
Qed.
Lemma backed_next span H args s9 s10 open : backed span H args s9 s10 open -> ls_next_value s10 = ls_next_value s9.
Proof. destruct open; [|by intros ->]. by intros (B9 & edges & _ & ->). Qed.

Section whole.
Context (c : ExpressionId) (b : SBlockId) (k1 k2 k3 span : Span) (ds : list ValueDefinition) (n' : N).
Context (s head_ s5 s9 s10 : LS) (tv : TypedValue) (B5 : Block) (edges : N) (open : bool).
Notation H := (length (ls_blocks s)).
Notation lb := (length (ls_blocks s5)).
Notation h := (ls_bindings head_).
Context (Hw : wf ps s) (He : entered ds n' s head_) (Hr : root_lowered fbody ps resolve C c head_ s5 tv) (Hty : tv_ty tv = Bool).
Context (HB5 : open_at s5 (ls_current s5) B5).
Context (Ilb : index_u32 lb = N.of_nat lb) (Iex : index_u32 (S lb) = N.of_nat (S lb)).
Context (Hbody : lowered (fun store => xblock store b) (start lb h (branched span tv B5 edges s5)) s9 open).
Context (Hsh : open = true -> shapes h (ls_bindings s9)).
Context (Hback : backed span H (carried_values (ls_bindings s) (ls_bindings s9)) s9 s10 open).
Notation exit_ := (start (S lb) h s10).

Lemma whole_lengths : S H <= lb /\ S (S lb) <= length (ls_blocks s9).
Proof.
  pose proof (to_length _ _ _ (mv_blocks _ _ (ln_moves _ _ _ (rt_line _ _ _ _ _ _ _ _ Hr)))) as L1.
  rewrite (en_length _ _ _ _ He) in L1. pose proof (to_length _ _ _ (mv_blocks _ _ (lw_moves _ _ _ _ _ _ _ Hbody))) as L2.
  change (ls_blocks (start lb h (branched span tv B5 edges s5))) with (ls_blocks (branched span tv B5 edges s5)) in L2.
  rewrite branched_length in L2. lia.
Qed.
Lemma whole_end : ls_current s9 <> S lb /\ lb <= ls_current s9.
Proof.
  destruct (mv_current _ _ (lw_moves _ _ _ _ _ _ _ Hbody)) as [E|E]; cbn [ls_current start set_bindings set_current] in E; [lia|].
  change (ls_blocks (start lb h (branched span tv B5 edges s5))) with (ls_blocks (branched span tv B5 edges s5)) in E.
  rewrite branched_length in E. lia.
Qed.
Lemma whole_body_touch : touch lb (ls_blocks (branched span tv B5 edges s5)) (ls_blocks s9).
Proof. apply (mv_blocks _ _ (lw_moves _ _ _ _ _ _ _ Hbody)). Qed.
Lemma whole_exit : ls_blocks s10 !! S lb = Some (empty_block (S lb)).
Proof.
  pose proof whole_lengths. pose proof whole_end. pose proof (branched_length span tv B5 edges s5).
  rewrite (to_others _ _ _ (backed_touch _ _ _ _ _ _ Hback)) by lia.
  rewrite (to_others _ _ _ whole_body_touch) by lia. by apply branched_false.
Qed.
Lemma whole_moves : moves s exit_.
Proof.
  pose proof whole_lengths. pose proof whole_end. pose proof (en_next _ _ _ _ He). pose proof (rt_line _ _ _ _ _ _ _ _ Hr) as Hl.
  pose proof (mv_next _ _ (ln_moves _ _ _ Hl)). pose proof (mv_next _ _ (lw_moves _ _ _ _ _ _ _ Hbody)) as N9. cbn in N9.
  pose proof (ln_current _ _ _ Hl) as Ec5. pose proof (en_current _ _ _ _ He) as Ec.
  split; cbn; [rewrite (backed_next _ _ _ _ _ _ Hback); lia| |lia].
  eapply touch_trans; [eapply touch_trans; [eapply touch_trans; [eapply touch_trans|..]|..]|..].
  - apply He.
  - apply (mv_blocks _ _ (ln_moves _ _ _ Hl)).
  - right. lia.
  - apply (branched_touch span tv B5 edges s5 HB5).
  - right. lia.
  - exact whole_body_touch.
  - right. lia.
  - eapply backed_touch, Hback.
  - right. lia.
Qed.

Lemma lowered_loop : lowered (fun store => xstatement store (SWhile k1 k2 c k3 b)) s exit_ true.
Proof.
  pose proof whole_lengths as Hlens. pose proof (rt_line _ _ _ _ _ _ _ _ Hr) as Hl.
  assert (N9 : (ls_next_value head_ <= ls_next_value s10)%N).
  { rewrite (backed_next _ _ _ _ _ _ Hback). pose proof (mv_next _ _ (ln_moves _ _ _ Hl)).
    pose proof (mv_next _ _ (lw_moves _ _ _ _ _ _ _ Hbody)) as N9. cbn in N9. lia. }
  split.
  - exact whole_moves.
  - destruct (backed_wf _ _ _ _ _ _ Hback (lw_wf _ _ _ _ _ _ _ Hbody)) as [I _]. split; [exact I|].
    eapply bounded_le; [exact N9|]. apply (en_wf _ _ _ _ He).
  - intros _. eexists. split; [exact whole_exit|done].
  - intros _. exists h, []. split; [by rewrite app_nil_r|apply He].
  - intros F HF.
    assert (F9 : ext (ls_blocks s9) F) by (etrans; [eapply touch_ext, backed_touch, Hback|exact HF]).
    assert (F6 : ext (ls_blocks (branched span tv B5 edges s5)) F) by (etrans; [eapply touch_ext, whole_body_touch|exact F9]).
    assert (F5 : ext (ls_blocks s5) F) by (etrans; [eapply touch_ext, branched_touch, HB5|exact F6]).
    assert (FH : ext (ls_blocks head_) F) by (etrans; [apply moves_ext, Hl|exact F5]).
    eapply (does_loop c b k1 k2 k3 F (ls_next_value s) head_ (start lb h (branched span tv B5 edges s5)) s9 exit_ h tv open);
      try done; [by apply He|by apply (en_wf _ _ _ _ He)| | | |by apply (en_link _ _ _ _ He)].
    + intros store env Hrel. exists s5. split; [by apply (rt_computes _ _ _ _ _ _ _ _ Hr)|].
      intros k env' w. rewrite (at_branched C span tv B5 edges s5 HB5 F k env' w F6 Ilb Iex).
      assert (Ee : forall k env w, at_end C F (ls_blocks (branched span tv B5 edges s5)) (S lb) k env w <-> at_end C F (ls_blocks s10) (S lb) k env w).
      { intros. apply at_end_same. rewrite whole_exit. symmetry. by apply branched_false. }
      split; intros (k' & [] & -> & Hx & Hat); [exists k', true|exists k', false|exists k', true|exists k', false];
        (split_and!; [done|done|]); first [exact Hat|by apply Ee].
    + eapply does_le; [|apply (lw_does _ _ _ _ _ _ _ Hbody F F9)]. cbn.
      pose proof (en_next _ _ _ _ He). pose proof (mv_next _ _ (ln_moves _ _ _ Hl)). lia.
    + intros ->. destruct Hback as (B9 & e9 & [HB9 Ht9] & ->). destruct (header_target _ _ _ _ F He FH) as (T & HT & Hds).
      eapply (link_jump C F (ls_blocks s9) _ n' s9 head_ B9 T _ (ls_bindings s9) _ ds H span); try done;
        [exact HF|apply He|apply (en_block _ _ _ _ He)|done|apply He|].
      apply He. etrans; [apply He|]. by apply Hsh.
Qed.
End whole.

(** ** [lower_while] *)

Context (lower_block : SBlockId -> N -> SM LS bool bool) (block_growing : forall b d, growing (lower_block b d)).
Context (block_good : block_spec fbody ps result resolve C lower_block).
#[local] Hint Resolve block_growing : growing.

Lemma set_current_same i s : ls_current s = i -> set_current i s = s.
Proof. intros <-. by destruct s. Qed.

(** The loop from its header on *)
Lemma spec_lower_iteration depth c b span s ds n' head_ s5 tv k1 k2 k3 :
  wf ps s -> entered ds n' s head_ -> root_lowered fbody ps resolve C c head_ s5 tv -> tv_ty tv = Bool ->
  spec (lower_iteration fbody lower_block depth (length (ls_blocks s)) (ls_bindings s) (ls_bindings head_) tv b span) s5
    (fun s' open => lowered (fun store => xstatement store (SWhile k1 k2 c k3 b)) s s' open /\
       (open = true -> shapes (ls_bindings s) (ls_bindings s'))) never.
Proof.
  intros Hw He Hr Hty. pose proof (rt_line _ _ _ _ _ _ _ _ Hr) as Hl. unfold lower_iteration.
  assert (Ho : is_open head_).
  { eexists. split; [rewrite (en_current _ _ _ _ He); apply He|done]. }
  destruct (ln_open _ _ _ Hl Ho) as (B & HB). pose proof (branched_current_lt B s5 HB) as Hlt.
  assert (Ec : ls_current s5 = length (ls_blocks s)) by (rewrite (ln_current _ _ _ Hl); apply He).
  sbind. apply spec_fresh_block. intros Ilb _. sbind. apply spec_fresh_block. cbn. intros Iex _.
  sbind. apply spec_modify. intros _ _. rewrite set_current_same by done. sbind. apply spec_terminate_or_leave.
  { exists B. destruct HB as [HB Ht]. split; [|done]. cbn. by rewrite !lookup_app_l by (rewrite ?length_app; cbn; lia). }
  intros B' edges [HB' _] _. cbn in *. rewrite !lookup_app_l in HB' by (rewrite ?length_app; cbn; lia).
  replace B' with B by (destruct HB; congruence). clear B' HB'.
  change (set_draft_blocks _ _) with (branched span tv B edges s5). rewrite length_app, Nat.add_1_r in Iex |- *.
  sbind. apply spec_modify. intros _ _. sbind. apply spec_modify. intros _ _.
  change (set_bindings _ (set_current _ _)) with (start (length (ls_blocks s5)) (ls_bindings head_) (branched span tv B edges s5)).
  destruct (branched_wf span tv B edges s5 HB ps (ln_wf _ _ _ Hl (en_wf _ _ _ _ He))) as [I6 Hb6].
  sbind. apply spec_invoke_never. eapply spec_post; [apply block_good|].
  { exists (empty_block (length (ls_blocks s5))). split; [by apply branched_true|done]. }
  { split; [exact I6|]. cbn. rewrite <- (ln_bindings _ _ _ Hl). exact Hb6. }
  intros s9 open _ [Hbody Hsh] _. cbn in Hsh.
  sbind. apply (spec_post _ _ (fun s10 _ => backed span (length (ls_blocks s)) (carried_values (ls_bindings s) (ls_bindings s9)) s9 s10 open)).
  { destruct open; [|by apply spec_ret]. sbind. apply spec_gets. intros _.
    rewrite carried_indices_values by (etrans; [apply He|by apply Hsh]). sbind. apply spec_ret. intros _.
    apply spec_terminate_or_leave; [by apply (lw_open _ _ _ _ _ _ _ Hbody)|]. intros B9 e9 HB9. by exists B9, e9. }
  intros s10 _ _ Hback _. sbind. apply spec_modify. intros _ _. sbind. apply spec_modify. intros _ _. apply spec_ret.
  change (set_bindings _ (set_current _ s10)) with (start (S (length (ls_blocks s5))) (ls_bindings head_) s10).
  split; [|intros _; apply He].
  by eapply (lowered_loop c b k1 k2 k3 span ds n' s head_ s5 s9 s10 tv B edges open).
Qed.

Lemma spec_lower_while depth c b span s k1 k2 k3 :
  is_open s -> wf ps s ->
  spec (lower_while fbody callables modules offsets caller lower_block depth c b span) s
    (fun s' open => lowered (fun store => xstatement store (SWhile k1 k2 c k3 b)) s s' open /\
       (open = true -> shapes (ls_bindings s) (ls_bindings s'))) never.
Proof.
  intros (B0 & HB0) Hw. unfold lower_while. sbind. apply spec_condition_span. intros where_ _.
  sbind. apply spec_gets. intros _. sbind. apply spec_gets. intros _. sbind. apply spec_draft_merge. intros _. cbn [negb].
  sbind. apply spec_fresh_block. intros IH _.
  sbind. eapply spec_post; [apply (spec_header_bindings (ls_next_value s) _ _ _ (empty_block (length (ls_blocks s)))); [|apply Hw]|].
  { cbn. by apply list_lookup_middle. }
  intros s2 [h args] _ (Hs & Ea & ds & n' & -> & Hc) _. cbn in Hs, Ea, Hc |- *. subst args.
  unfold with_parameters. cbn. rewrite snoc_insert.
  pose proof (lookup_lt_Some _ _ _ (proj1 HB0)) as Hlt.
  sbind. apply spec_modify. intros _ _. sbind. apply spec_terminate_or_leave.
  { exists B0. destruct HB0 as [HB0 Ht0]. split; [|done]. cbn. by rewrite lookup_app_l. }
  intros B0' e0 [HB0' _] _. cbn in *. rewrite lookup_app_l in HB0' by done. destruct HB0 as [HB0 Ht0].
  replace B0' with B0 by congruence. clear B0' HB0'.
  pose proof (header_entered span B0 ds n' e0 h s (conj HB0 Ht0) Hw IH Hs Hc) as He.
  sbind. apply spec_modify. intros _ _. sbind. apply spec_modify. intros _ _.
  change (spec ?m (set_bindings h _) ?Q ?L) with (spec m (header_state span B0 ds n' e0 h s) Q L).
  set (head_ := header_state span B0 ds n' e0 h s) in *.
  assert (Eh : ls_bindings head_ = h) by done.
  sbind. eapply spec_post; [apply (spec_lower_root fbody callables modules offsets caller ps resolve C calls_good)|].
  { exists (push_parameters ds (empty_block (length (ls_blocks s)))). split; [|done].
    rewrite (en_current _ _ _ _ He). apply He. }
  { apply He. }
  intros s5 r _ (tv & -> & Hr) _. sbind. apply spec_or_leave; [|done]. intros ? [= <-] _.
  sbind. apply spec_when; [intros _; apply spec_report_at|]. intros Hty%negb_false_iff%bool_decide_eq_true _.
  sbind. apply spec_check. intros _ _.
  apply (spec_lower_iteration depth c b span s ds n' head_ s5 tv k1 k2 k3 Hw He Hr Hty).
Qed.
End loop.

(** * Blocks of statements *)

Section block.
Context (fbody : FunctionBodySyntax) (callables : gmap string FunctionId) (modules : list ModuleSymbols)
        (offsets : list nat) (caller : nat) (ps : list ValueId) (result : Ty).
Context (resolve : string -> option FunctionKey) (C : Calls) (calls_good : calls_ok callables modules resolve C).
Notation xblock := (xblock fbody resolve C).
Notation xstatement := (xstatement fbody resolve C).
Notation xstatements := (xstatements fbody resolve C).
Notation lowered := (lowered C ps result).
Notation never := (fun (_ : LS) (_ : bool) => False).

(** Nothing follows an end that cannot be reached. *)
Lemma lowered_last run1 run2 s s1 : lowered run1 s s1 false -> lowered (seq_run run1 run2) s s1 false.
Proof.
  intros [M W O S D]. split; [done..|]. intros F HF. destruct (D F HF) as [Hf Hb]. split.
  - intros store env r Hr [(v & -> & H)|(store' & H & _)]; [exact (Hf _ _ _ Hr H)|].
    by destruct (Hf _ _ _ Hr H) as [? _].
  - intros store env k w Hr Hat. destruct (Hb _ _ _ _ Hr Hat) as [H|[? _]]; [|done]. left. left. by exists w.
Qed.
Lemma xstatements_cons id st ids store r :
  get (fb_statements fbody) id = Some st ->
  xstatements store (id :: ids) r <->
  seq_run (fun store => xstatement store (ss_kind st)) (fun store => xstatements store ids) store r.
Proof.
  intros E. split.
  - intros H. inversion H as [|? ? st' ? store' ? E' H1 H2|? ? st' ? v E' H1]; subst; replace st' with st in * by congruence.
    + right. eauto.
    + left. eauto.
  - intros [(v & -> & H)|(store' & H1 & H2)]; [by eapply x_returns|by eapply x_falls].
Qed.

Section statements.
Context (lower_block : SBlockId -> N -> SM LS bool bool) (block_growing : forall b d, growing (lower_block b d)).
Context (block_good : block_spec fbody ps result resolve C lower_block) (depth : N).
#[local] Hint Resolve block_growing : growing.
Notation lower_statement := (lower_statement fbody callables modules offsets caller lower_block depth result).
Notation lower_statements := (lower_statements fbody callables modules offsets caller lower_block depth result).

Lemma spec_lower_statement statement s :
  is_open s -> wf ps s ->
  spec (lower_statement statement) s (lowered (fun store => xstatement store (ss_kind statement)) s) never.
Proof.
  intros Ho Hw. unfold SemLower.lower_statement. destruct (ss_kind statement) eqn:E.
  - by apply (spec_lower_local fbody callables modules offsets caller ps result resolve C calls_good).
  - by apply (spec_lower_assignment fbody callables modules offsets caller ps result resolve C calls_good).
  - by apply (spec_lower_return fbody callables modules offsets caller ps result resolve C calls_good).
  - apply spec_invoke_never. eapply spec_post; [by apply block_good|]. intros s' open _ [H _].
    eapply lowered_run; [|exact H]. intros store r. split; [by apply x_block|]. intros Hx. by inversion Hx.
  - apply spec_invoke_never. eapply spec_post.
    + by eapply (spec_lower_if fbody callables modules offsets caller ps result resolve C calls_good lower_block block_growing block_good).
    + by intros s' open _ [H _].
  - apply spec_invoke_never. eapply spec_post.
    + by eapply (spec_lower_while fbody callables modules offsets caller ps result resolve C calls_good lower_block block_growing block_good).
    + by intros s' open _ [H _].
Qed.

Lemma spec_lower_unreachable ids s :
  spec (lower_statements ids false) s (fun s' open => ids = [] /\ open = false /\ s' = s) never.
Proof.
  destruct ids as [|id ids]; cbn [SemLower.lower_statements]; [by apply spec_ret|].
  sbind. apply spec_check. intros _ _. sbind. apply spec_expect. intros st _ _. sbind. by sreport.
Qed.
Lemma spec_lower_statements ids s :
  is_open s -> wf ps s ->
  spec (lower_statements ids true) s (lowered (fun store => xstatements store ids) s) never.
Proof.
  revert s. induction ids as [|id ids IH]; intros s Ho Hw; cbn [SemLower.lower_statements].
  - apply spec_ret. eapply lowered_run; [|by apply lowered_skip]. intros store r. split; [intros ->; constructor|].
    intros H. by inversion H.
  - sbind. apply spec_check. intros _ _. sbind. apply spec_expect. intros st Est _.
    sbind. eapply spec_post; [by apply spec_lower_statement|]. intros s1 open _ H1 _. destruct open.
    + eapply spec_post; [by apply IH; apply H1|]. intros s2 open _ H2.
      eapply lowered_run; [intros; symmetry; by apply xstatements_cons|]. by eapply lowered_seq.
    + eapply spec_post; [apply spec_lower_unreachable|]. intros s2 open _ (-> & -> & ->).
      eapply lowered_run; [intros; symmetry; by apply xstatements_cons|]. by apply lowered_last.
Qed.
End statements.

(** A block leaves its bindings. *)
Lemma xblock_iff id b store r :
  get (fb_blocks fbody) id = Some b ->
  xblock store id r <-> exists r0, xstatements store (bs_statements b) r0 /\ r = leave_scope store r0.
Proof.
  intros E. split; [|intros (r0 & H & ->); by eapply xblock_intro].
  intros H. inversion H as [? ? b' r0 E' H']; subst. replace b with b' by congruence. eauto.
Qed.
Lemma lowered_scope id b s s1 open :
  get (fb_blocks fbody) id = Some b -> lowered (fun store => xstatements store (bs_statements b)) s s1 open ->
  let s' := if open then set_bindings (take (length (ls_bindings s)) (ls_bindings s1)) s1 else s1 in
  lowered (fun store => xblock store id) s s' open /\ (open = true -> shapes (ls_bindings s) (ls_bindings s')).
Proof.
  intros Eb [M W O S D]. destruct open; cbn [negb].
  - destruct (S eq_refl) as (bs1 & rest & Ebs & Hs). pose proof (Forall2_length _ _ _ Hs) as Hl.
    assert (Et : take (length (ls_bindings s)) (ls_bindings s1) = bs1) by by rewrite Ebs, Hl, take_app_length.
    rewrite Et. split; [|done]. split.
    + destruct M as [N T M]. by split.
    + destruct W as [I B]. rewrite Ebs in B. apply Forall_app in B as [B _]. by split.
    + done.
    + intros _. exists bs1, []. by rewrite app_nil_r.
    + intros F HF. destruct (D F HF) as [Hf Hb].
      assert (Hscope : forall store env store' env', rel (ls_bindings s) store env -> rel (ls_bindings s1) store' env' ->
        rel bs1 (take (length store) store') env').
      { intros store env store' env' Hr Hr'. rewrite <- (rel_length _ _ _ Hr), Hl. rewrite Ebs in Hr'.
        apply Forall2_app_inv_l in Hr' as (p1 & p2 & H1 & _ & ->). rewrite (Forall2_length _ _ _ H1). by rewrite take_app_length. }
      split.
      * intros store env r Hr (r0 & Hx & ->)%(xblock_iff _ _ _ _ Eb). specialize (Hf _ _ _ Hr Hx).
        destruct r0 as [store'|v]; [|exact Hf]. destruct Hf as (_ & env' & Ha & Hr' & Hat). split; [done|].
        exists env'. split_and!; [done|by eapply Hscope|exact Hat].
      * intros store env k w Hr Hat. destruct (Hb _ _ _ _ Hr Hat) as [Hx|(_ & store' & env' & k' & Hk & Hx & Ha & Hr' & Hat')].
        -- left. apply (xblock_iff _ _ _ _ Eb). by eexists.
        -- right. split; [done|]. exists (take (length store) store'), env', k'.
           split_and!; [done|apply (xblock_iff _ _ _ _ Eb); by exists (Falls store')|done|by eapply Hscope|exact Hat'].
  - split; [|done]. split; [done..|]. intros F HF. destruct (D F HF) as [Hf Hb]. split.
    + intros store env r Hr (r0 & Hx & ->)%(xblock_iff _ _ _ _ Eb). specialize (Hf _ _ _ Hr Hx).
      destruct r0; [by destruct Hf|exact Hf].
    + intros store env k w Hr Hat. destruct (Hb _ _ _ _ Hr Hat) as [Hx|[? _]]; [|done].
      left. apply (xblock_iff _ _ _ _ Eb). by eexists.
Qed.

Lemma spec_lower_syntax_block fuel :
  block_spec fbody ps result resolve C (lower_syntax_block fbody callables modules offsets caller fuel result).
Proof.
  induction fuel as [|fuel IH]; intros id depth s Ho Hw; cbn [lower_syntax_block]; [apply spec_crash|].
  sbind. apply spec_gets. intros _. sbind. apply spec_expect. intros b Eb _.
  sbind. eapply spec_post; [apply (spec_lower_statements _ (growing_lower_syntax_block _ _ _ _ _ _ _) IH); done|].
  intros s1 open _ H _. apply (lowered_scope _ _ _ _ _ Eb) in H. destruct open.
  - sbind. apply spec_modify. intros _ _. by apply spec_ret.
  - sbind. apply spec_ret. intros _. by apply spec_ret.
Qed.
End block.
