(* ===== verification/SemFunction.v ===== *)
(** * The lowering of a function, and the tables of the modules

    The arguments of a call, the drafted body, and the passes over the draft: a
    lowered function returns what its body means.  The symbol tables say what
    the names denote after a clean resolution. *)
From stdpp Require Import base numbers list list_numbers strings gmap.
From S2P Require Import Prelude Source Diagnostics Abi CfgAlgorithms ControlFlow ControlFlowSpec ControlFlowExec.
From S2P Require Import Syntax Semantics SemLower SemValues SemProgram SourceSemantics SourceRelation CfgSteps.
From S2P Require Import SemPrune SemLogic SemExpr SemMerge SemBranch SemLoop.

(** ** Parameters *)

Lemma parameter_definitions_ids k parameters ds :
  parameter_definitions k parameters = Some ds -> vd_id <$> ds = (N.of_nat <$> seq k (length ds)).
Proof.
  revert k ds. induction parameters as [|[p ty] parameters IH]; intros k ds H; cbn in H; [by injection H as <-|].
  destruct (try_u32 (N.of_nat k)) as [i|] eqn:Ei; [|done]. cbn in H. destruct ty as [ty|]; [|done]. cbn in H.
  destruct (parameter_definitions (S k) parameters) as [r|] eqn:Er; [|done]. injection H as <-. cbn.
  unfold try_u32 in Ei. destruct (_ <=? _)%N; [|done]. injection Ei as <-. f_equal. by apply IH.
Qed.

Definition declared_types (parameters : list ParameterSyntax) : list (option Ty) :=
  (fun p => declared_type (ps_type p)) <$> parameters.

(** The store of a call and the environment of the draft *)
Lemma arguments_bound k parameters ds vs env0 :
  parameter_definitions k (zip parameters (declared_types parameters)) = Some ds ->
  (bind_arguments parameters vs = None /\ bind_parameters env0 ds vs = Stuck) \/
  exists store env, bind_arguments parameters vs = Some store /\ bind_parameters env0 ds vs = Done env /\
    rel (zip_with parameter_binding parameters ds) store env /\ agree (N.of_nat k) env0 env.
Proof.
  revert k ds vs env0. induction parameters as [|p parameters IH]; intros k ds vs env0 H; cbn in H.
  { injection H as <-. destruct vs as [|v vs]; cbn; [right|by left]. exists [], env0. by repeat split; try constructor. }
  destruct (try_u32 (N.of_nat k)) as [i|] eqn:Ei; [|done]. cbn in H. destruct (declared_type (ps_type p)) as [ty|] eqn:Et; [|done].
  cbn in H. destruct (parameter_definitions _ _) as [r|] eqn:Er; [|done]. injection H as <-.
  unfold try_u32 in Ei. destruct (_ <=? _)%N; [|done]. injection Ei as <-.
  destruct vs as [|v vs]; cbn [bind_arguments bind_parameters vd_ty vd_id]; [by left|]. rewrite Et. cbn [mbind option_bind].
  destruct (decide (value_ty v = ty)) as [Hv|Hv]; [|by left].
  destruct (IH (S k) r vs (<[(N.of_nat k : ValueId) := v]> env0) Er) as [[-> ->]|(store & env & -> & -> & Hr & Ha)]; [by left|right].
  cbn. eexists _, _. split_and!; [done|done| |].
  - constructor; [|done]. split_and!; cbn; [done| |done]. rewrite Ha by lia. apply lookup_insert_eq.
  - etrans; [by apply (agree_insert _ (N.of_nat k) v)|]. eapply agree_le; [|exact Ha]. lia.
Qed.

(** ** Definitions after pruning *)

Lemma retain_mask_sublist {A} mask (l r : list A) : retain_mask mask l = Some r -> r `sublist_of` l.
Proof.
  revert mask r. induction l as [|x l IH]; intros [|b mask] r H; cbn in H; try done; try by injection H as <-.
  destruct (retain_mask mask l) as [r0|] eqn:E; [|done]. cbn in H. injection H as <-. specialize (IH _ _ E).
  destruct b; [by apply sublist_skip|by apply sublist_cons].
Qed.
Lemma prune_block_ids keep B mask B' : prune_block keep B mask = Some B' -> block_ids B' `sublist_of` block_ids B.
Proof.
  unfold prune_block. destruct (retain_mask mask _) as [ds|] eqn:E; [|done]. cbn. intros H.
  assert (b_parameters B' = ds /\ b_instructions B' = b_instructions B) as [E1 E2].
  { destruct (b_terminators B) as [|t ts]; cbn in H; [by injection H as <-|].
    destruct (filter_terminator _ _); [|done]. by injection H as <-. }
  unfold block_ids. rewrite E1, E2. apply sublist_app; [|done]. by eapply fmap_sublist, retain_mask_sublist.
Qed.
Lemma prune_ids blocks blocks' :
  prune_dead_block_parameters blocks = Some blocks' -> blocks' ≫= block_ids `sublist_of` blocks ≫= block_ids.
Proof.
  unfold prune_dead_block_parameters. destruct (live_values blocks) as [live|]; [|done]. cbn.
  generalize (keep_masks blocks live) at 1. intros keep. unfold keep_masks. intros H.
  apply mapM_Some in H. revert H. generalize dependent blocks'. induction blocks as [|B blocks IH]; intros blocks' H; cbn in H.
  - inversion H. done.
  - inversion H as [|? B' ? bs' HB Hbs]; subst. cbn. fold block_ids. apply sublist_app; [by eapply prune_block_ids|by apply IH].
Qed.

(** ** The passes *)

Section passes.
Context {S : Type} `{HasErrors S}.
Lemma growing_rewrite_instructions map is_ : growing (rewrite_instructions (S := S) map is_).
Proof. induction is_; cbn; grows. Qed.
Lemma growing_rewrite_terminators map ts : growing (rewrite_terminators (S := S) map ts).
Proof. destruct ts; cbn; grows. Qed.
#[local] Hint Resolve growing_rewrite_instructions growing_rewrite_terminators : growing.
Lemma growing_rewrite_blocks map blocks : growing (rewrite_blocks (S := S) map blocks).
Proof. induction blocks; cbn; grows. Qed.
#[local] Hint Resolve growing_rewrite_blocks : growing.
Lemma growing_canonicalize ps blocks : growing (canonicalize_values (S := S) ps blocks).
Proof. unfold canonicalize_values. grows. Qed.
End passes.
#[export] Hint Resolve growing_rewrite_instructions growing_rewrite_terminators growing_rewrite_blocks growing_canonicalize : growing.

(** An early return of the numbering ends in [None]. *)
Definition canonicalize_or_none {S R} `{HasErrors S} (parameters : list ValueDefinition) (blocks : list Block)
    : SM S R (option (list ValueDefinition * list Block)) :=
  invoke (fun s =>
    match canonicalize_values parameters blocks s with
    | (s, Next r) => (s, Next (Some r))
    | (s, Leave _) => (s, Next None)
    | (s, Crash) => (s, Crash)
    end).
Lemma growing_canonicalize_or_none {S R} `{HasErrors S} ps blocks : growing (@canonicalize_or_none S R _ ps blocks).
Proof. apply growing_invoke. intros s. pose proof (growing_canonicalize ps blocks s) as Hg. by destruct (canonicalize_values ps blocks s) as [s' []]. Qed.
#[export] Hint Resolve growing_canonicalize_or_none : growing.

Lemma spec_rewrite_instructions {S} `{HasErrors S} map is_ (s : S) (Q : S -> list Instruction -> Prop) :
  (forall r, Q s r) -> spec (rewrite_instructions map is_) s Q (fun _ _ => False).
Proof.
  revert Q. induction is_ as [|i is_ IH]; intros Q HQ; cbn; [by apply spec_ret|].
  destruct (rewrite_instruction_operands _ _); [|eapply spec_bind; [grows|apply spec_report_limit_at]].
  eapply spec_bind; [grows|]. apply IH. intros r _. by apply spec_ret.
Qed.
Lemma spec_rewrite_blocks {S} `{HasErrors S} map blocks (s : S) (Q : S -> list Block -> Prop) :
  (forall r, Q s r) -> spec (rewrite_blocks map blocks) s Q (fun _ _ => False).
Proof.
  revert Q. induction blocks as [|B blocks IH]; intros Q HQ; cbn; [by apply spec_ret|].
  eapply spec_bind; [grows|].
  apply spec_rewrite_instructions. intros is_ _.
  eapply spec_bind; [grows|].
  apply (spec_post _ _ (fun s' _ => s' = s)).
  { destruct (b_terminators B) as [|t ts]; cbn; [by apply spec_ret|].
    destruct (rewrite_terminator_operands _ _); [by apply spec_ret|]. eapply spec_bind; [grows|apply spec_report_limit_at]. }
  intros s' ts _ -> _. eapply spec_bind; [grows|]. apply IH. intros r _. by apply spec_ret.
Qed.
(** On a clean run the numbering succeeds, and the values are within the limit. *)
Lemma spec_canonicalize {S R} `{HasErrors S} ps blocks (s : S) (Q : S -> option (list ValueDefinition * list Block) -> Prop) (L : S -> R -> Prop) :
  (forall ps' blocks', (len ((vd_id <$> ps) ++ (blocks ≫= block_ids)) <= MAX_VALUES_PER_FUNCTION)%N ->
     canonicalize_values ps blocks s = (s, Next (ps', blocks')) -> Q s (Some (ps', blocks'))) ->
  spec (canonicalize_or_none ps blocks) s Q L.
Proof.
  intros HQ. apply spec_invoke_never. unfold spec.
  assert (Hc : spec (canonicalize_values ps blocks) s (fun s' r => s' = s /\ (len ((vd_id <$> ps) ++ (blocks ≫= block_ids)) <= MAX_VALUES_PER_FUNCTION)%N) (fun _ _ => False)).
  { unfold canonicalize_values. destruct (_ <? _)%N eqn:Hmax; [eapply spec_bind; [grows|apply spec_report_limit]|].
    apply N.ltb_ge in Hmax. eapply spec_bind; [grows|]. apply spec_expect. intros [ps1 n1] _ _.
    eapply spec_bind; [grows|]. apply spec_expect. intros [blocks1 n2] _ _.
    eapply spec_bind; [grows|]. apply spec_rewrite_blocks. intros r _. by apply spec_ret. }
  unfold spec in Hc. destruct (canonicalize_values ps blocks s) as [s' [[ps' blocks']|r|]] eqn:E; [|intros Hs; destruct (Hc Hs)|done].
  intros Hs. destruct (Hc Hs) as [-> Hm]. by apply HQ.
Qed.

(** ** A function *)

Section function.
Context (syntax : FunctionSyntax) (symbol : FunctionSymbol) (callables : gmap string FunctionId)
        (modules : list ModuleSymbols) (offsets : list nat) (entry_module : bool).
Context (resolve : string -> option FunctionKey).
Notation fbody := (fs_body syntax).

(** The lowered function [f] computes what the body means. *)
Definition computes_body (C : Calls) (f : Function_) : Prop :=
  forall vs w,
    (exists store, bind_arguments (fs_parameters syntax) vs = Some store /\
       xblock fbody resolve C store (fb_root_block fbody) (Returns w)) <->
    (exists env k, bind_parameters ∅ (f_parameters f) vs = Done env /\ steps C (f_blocks f) k 0 0 env w).
Definition returns_result (C : Calls) (f : Function_) : Prop :=
  forall vs store w, bind_arguments (fs_parameters syntax) vs = Some store ->
    xblock fbody resolve C store (fb_root_block fbody) (Returns w) -> value_ty w = f_result f.

Section body.
Context (caller : nat) (parameters : list ValueDefinition) (result : Ty) (s0 : PState).
Context (Hps : parameter_definitions 0 (zip (fs_parameters syntax) (declared_types (fs_parameters syntax))) = Some parameters).
Notation initial := (initial_lowerer syntax s0 parameters).

Lemma initial_wf : (len parameters <= MAX_VALUES_PER_FUNCTION)%N -> wf (vd_id <$> parameters) initial /\ is_open initial.
Proof.
  intros Hmax. pose proof (parameter_definitions_ids _ _ _ Hps) as Hids.
  assert (Hn : ls_next_value initial = len parameters).
  { cbn. unfold index_u32, try_u32. unfold len in *. unfold MAX_VALUES_PER_FUNCTION, u32_max in *.
    by rewrite (proj2 (N.leb_le _ _)) by lia. }
  assert (Hlt : Forall (fun d => (vd_id d < len parameters)%N) parameters).
  { apply Forall_forall. intros d Hd. assert (Hin : vd_id d ∈ vd_id <$> parameters) by by apply list_elem_of_fmap_2.
    rewrite Hids in Hin. apply list_elem_of_fmap in Hin as (i & -> & Hi%elem_of_seq). unfold len. lia. }
  split; [|by exists (empty_block 0)]. split; [split|]; rewrite ?Hn; cbn.
  - rewrite app_nil_r, Hids. apply NoDup_fmap_2_strong; [|apply NoDup_seq]. intros x y _ _. lia.
  - rewrite app_nil_r. apply Forall_fmap. exact Hlt.
  - apply Forall_forall. intros b (i & p & d & -> & _ & Hd%list_elem_of_lookup_2)%elem_of_lookup_zip_with_1. cbn.
    rewrite Forall_forall in Hlt. by apply Hlt.
Qed.

(** The draft of the body *)
Definition drafted (C : Calls) (s1 : LS) (open : bool) : Prop :=
  (len parameters <= MAX_VALUES_PER_FUNCTION)%N ->
  lowered C (vd_id <$> parameters) result (fun store => xblock fbody resolve C store (fb_root_block fbody)) initial s1 open.

Lemma drafted_computes C s1 vs w :
  (len parameters <= MAX_VALUES_PER_FUNCTION)%N -> drafted C s1 false ->
  (exists store, bind_arguments (fs_parameters syntax) vs = Some store /\
     xblock fbody resolve C store (fb_root_block fbody) (Returns w)) <->
  (exists env k, bind_parameters ∅ parameters vs = Done env /\ steps C (ls_blocks s1) k 0 0 env w).
Proof.
  intros Hmax Hd. destruct (lw_does _ _ _ _ _ _ _ (Hd Hmax) (ls_blocks s1) ltac:(done)) as [Hf Hb].
  pose proof (fun k env => at_end_start C (ls_blocks s1) (ls_blocks initial) 0 _ k env w eq_refl eq_refl) as Hat. cbn in Hat.
  destruct (arguments_bound 0 _ _ vs ∅ Hps) as [[-> ->]|(store & env & -> & -> & Hr & _)].
  - split; [intros (? & ? & _)|intros (? & ? & ? & _)]; done.
  - split.
    + intros (? & [= <-] & Hx). destruct (Hf _ _ _ Hr Hx) as [_ (k & H)]. exists env, k. split; [done|]. by apply Hat.
    + intros (? & k & [= <-] & H). exists store. split; [done|]. apply Hat in H.
      destruct (Hb _ _ _ _ Hr H) as [Hx|[? _]]; done.
Qed.
Lemma drafted_typed C s1 vs store w :
  (len parameters <= MAX_VALUES_PER_FUNCTION)%N -> drafted C s1 false ->
  bind_arguments (fs_parameters syntax) vs = Some store ->
  xblock fbody resolve C store (fb_root_block fbody) (Returns w) -> value_ty w = result.
Proof.
  intros Hmax Hd Hs Hx. destruct (lw_does _ _ _ _ _ _ _ (Hd Hmax) (ls_blocks s1) ltac:(done)) as [Hf _].
  destruct (arguments_bound 0 _ _ vs ∅ Hps) as [[E _]|(store' & env & E & _ & Hr & _)]; [congruence|].
  replace store' with store in * by congruence. by destruct (Hf _ _ _ Hr Hx) as [? _].
Qed.

(** The passes keep what the draft computes. *)
Lemma passes_compute C s1 blocks ps' blocks' (s2 s3 : LS) vs w :
  NoDup ((vd_id <$> parameters) ++ (ls_blocks s1 ≫= block_ids)) ->
  prune_dead_block_parameters (ls_blocks s1) = Some blocks ->
  canonicalize_values parameters blocks s2 = (s3, Next (ps', blocks')) ->
  (exists env k, bind_parameters ∅ parameters vs = Done env /\ steps C (ls_blocks s1) k 0 0 env w) <->
  (exists env k, bind_parameters ∅ ps' vs = Done env /\ steps C blocks' k 0 0 env w).
Proof.
  intros Hnd Hprune Hcanon. etrans; [|eapply (canonicalize_preserves (S := LS)); [|exact Hcanon]].
  - split; intros (env & k & He & H); exists env, k; (split; [done|]); by apply (prune_preserves _ _ C k 0 0 env w Hprune).
  - eapply sublist_NoDup; [exact Hnd|]. apply sublist_app; [done|]. by apply prune_ids.
Qed.

Lemma spec_lower_function_body C :
  calls_ok callables modules resolve C ->
  spec (lower_function_body syntax symbol callables modules offsets entry_module caller parameters result) initial
    (fun _ r => exists f, r = Some f /\ f_result f = result /\ computes_body C f /\ returns_result C f) (fun _ _ => False).
Proof.
  intros Hc. unfold lower_function_body. sbind. apply (spec_post _ _ (fun s1 open => drafted C s1 open)).
  { apply spec_invoke. destruct (decide (len parameters <= MAX_VALUES_PER_FUNCTION)%N) as [Hmax|Hmax].
    - destruct (initial_wf Hmax) as [Hw Ho].
      eapply spec_mono; [by apply (spec_lower_syntax_block fbody callables modules offsets caller (vd_id <$> parameters) result resolve C Hc)|..].
      + by intros s' open _ [H _] _.
      + done.
    - eapply spec_mono; [apply spec_true|..]; by intros s' open _ _ Hmax'. }
  intros s1 open _ Hd Hs1. sbind. apply spec_check. intros _ _. sbind. apply spec_when; [intros _; apply spec_report_at|].
  intros -> _. sbind. apply spec_gets. intros _. unfold clean in Hs1. cbn in Hs1. rewrite Hs1. cbn [se_is_empty negb].
  sbind. apply spec_gets. intros _. sbind. apply spec_expect. intros blocks Hprune _. destruct (existsb _ _); [by sreport|].
  sbind. apply spec_canonicalize. intros ps' blocks' Hlen Hcanon _. apply spec_ret. eexists. split; [done|]. split; [done|].
  assert (Hmax : (len parameters <= MAX_VALUES_PER_FUNCTION)%N).
  { unfold len in *. rewrite length_app, length_fmap in Hlen. lia. }
  split.
  - intros vs w. cbn. rewrite (drafted_computes C s1 vs w Hmax Hd). eapply passes_compute; [|done|done].
    apply (wf_ids _ _ (lw_wf _ _ _ _ _ _ _ (Hd Hmax))).
  - intros vs store w Hs Hx. cbn. by eapply drafted_typed.
Qed.
End body.
End function.

(** * The symbol tables of a project

    On a clean run the collected symbols are those of the declarations, with
    complete signatures, and a callable name denotes the function the meaning
    of the project gives it. *)

(** ** Lookups by name *)

Notation named name := (fun f => is_text (fs_name f) = name).

Lemma find_snoc_other {A} (P : A -> Prop) `{forall x, Decision (P x)} l x r :
  list_find P l = Some r -> list_find P (l ++ [x]) = Some r.
Proof. destruct r as [i y]. intros E. apply list_find_app_Some. by left. Qed.
Lemma find_snoc_new {A} (P : A -> Prop) `{forall x, Decision (P x)} l x :
  list_find P l = None -> P x -> list_find P (l ++ [x]) = Some (length l, x).
Proof.
  intros E HP. apply list_find_app_Some. right. rewrite Nat.sub_diag. split_and!; [lia|done|].
  cbn. by rewrite decide_True.
Qed.
Lemma find_snoc_none {A} (P : A -> Prop) `{forall x, Decision (P x)} l x :
  list_find P l = None -> ~ P x -> list_find P (l ++ [x]) = None.
Proof. intros E HP. apply list_find_app_None. split; [done|]. cbn. by rewrite decide_False. Qed.

(** ** Collected symbols *)

Definition symbol_of (m j : nat) (f : FunctionSyntax) : FunctionSymbol :=
  mkFunctionSymbol (mkFunctionId (index_u32 m) (index_u32 j)) (is_text (fs_name f)) (is_span (fs_name f)) (fs_span f)
    (bool_decide (is_Some (fs_export_span f)))
    (mkSignature (declared_types (fs_parameters f)) (declared_type (fs_result_type f))).
Definition complete (f : FunctionSyntax) : Prop :=
  Forall is_Some (declared_types (fs_parameters f)) /\ is_Some (declared_type (fs_result_type f)).

(** The table of a module after its functions [fns] *)
Record collected (m : nat) (fns : list FunctionSyntax) (module : ModuleSymbols) : Prop := {
  cd_functions : ms_functions module = imap (symbol_of m) fns;
  cd_complete : Forall complete fns;
  cd_local name : ms_local_functions module !! name = fst <$> list_find (named name) fns;
  cd_callables name : ms_callables module !! name =
    (fun j => mkFunctionId (index_u32 m) (index_u32 j)) <$> ms_local_functions module !! name }.
Lemma collected_nil m : collected m [] no_symbols.
Proof. by split. Qed.
Lemma collected_snoc m fns f module :
  collected m fns module -> complete f -> ms_local_functions module !! is_text (fs_name f) = None ->
  collected m (fns ++ [f]) (mkModuleSymbols (ms_functions module ++ [symbol_of m (length fns) f])
    (<[is_text (fs_name f) := length fns]> (ms_local_functions module))
    (<[is_text (fs_name f) := mkFunctionId (index_u32 m) (index_u32 (length fns))]> (ms_callables module)) (ms_imports module)).
Proof.
  intros [Hf Hc Hl Ha] Hfc Hnew. split; cbn.
  - rewrite imap_app, Hf. cbn. by rewrite Nat.add_0_r.
  - apply Forall_app. split; [done|by constructor].
  - intros name. rewrite Hl in Hnew. destruct (decide (name = is_text (fs_name f))) as [->|Hne].
    + rewrite lookup_insert_eq. destruct (list_find _ fns) as [[]|] eqn:E; [done|]. by rewrite (find_snoc_new _ _ _ E).
    + rewrite lookup_insert_ne, Hl by done. destruct (list_find (named name) fns) eqn:E; [by rewrite (find_snoc_other _ _ _ _ E)|].
      by rewrite (find_snoc_none _ _ _ E).
  - intros name. destruct (decide (name = is_text (fs_name f))) as [->|Hne]; [by rewrite !lookup_insert_eq|].
    by rewrite !lookup_insert_ne, Ha.
Qed.

Section collect.
Context (stop : list ModuleSymbols).
Notation never := (fun (_ : SErrors) (_ : list ModuleSymbols) => False).

Lemma growing_collect_parameters parameters names types : growing (collect_parameters stop parameters names types).
Proof. revert names types. induction parameters; intros names types; cbn; grows. Qed.
#[local] Hint Resolve growing_collect_parameters : growing.
Lemma spec_collect_parameters parameters names types s (Q : SErrors -> list (option Ty) -> Prop) :
  (Forall is_Some (declared_types parameters) -> Q s (types ++ declared_types parameters)) ->
  spec (collect_parameters stop parameters names types) s Q never.
Proof.
  revert names types Q. induction parameters as [|p parameters IH]; intros names types Q HQ; cbn [collect_parameters].
  - apply spec_ret. rewrite <- (app_nil_r types). apply HQ. constructor.
  - sbind. apply spec_check. intros _ _. sbind. apply spec_lower_type. intros ty Ety _. sbind. apply spec_check. intros _ _.
    sbind. apply spec_when; [intros _; apply spec_report_at|]. intros _ _. apply IH. intros Hall.
    rewrite <- (assoc_L (++)). cbn. rewrite <- Ety. apply HQ. cbn. constructor; [by rewrite Ety|done].
Qed.

Lemma growing_collect_function m j f module : growing (collect_function stop m j f module).
Proof. unfold collect_function. grows. Qed.
#[local] Hint Resolve growing_collect_function : growing.
Lemma spec_collect_function m fns f module s :
  collected m fns module ->
  spec (collect_function stop m (length fns) f module) s (fun s' module' => collected m (fns ++ [f]) module') never.
Proof.
  intros Hc. unfold collect_function. sbind. apply spec_check. intros _ _. sbind. apply spec_collect_parameters. intros Hp _.
  sbind. apply spec_check. intros _ _. sbind. apply spec_lower_type. intros ty Ety _. sbind. apply spec_check. intros _ _.
  sbind. destruct (ms_local_functions module !! _) eqn:El; [by sreport|]. apply spec_ret. intros _.
  sbind. apply spec_check. intros _ _. apply spec_ret. cbn. rewrite <- Ety. apply collected_snoc; [done| |done].
  split; [done|by rewrite Ety].
Qed.
Lemma growing_collect_functions m j fns module : growing (collect_functions stop m j fns module).
Proof. revert j module. induction fns; intros j module; cbn; grows. Qed.
#[local] Hint Resolve growing_collect_functions : growing.
Lemma spec_collect_functions m done_ fns module s :
  collected m done_ module ->
  spec (collect_functions stop m (length done_) fns module) s (fun s' module' => collected m (done_ ++ fns) module') never.
Proof.
  revert done_ module s. induction fns as [|f fns IH]; intros done_ module s Hc; cbn.
  - apply spec_ret. by rewrite app_nil_r.
  - sbind. eapply spec_post; [by apply spec_collect_function|]. intros s' module' _ Hc' _.
    replace (S (length done_)) with (length (done_ ++ [f])) by (rewrite length_app; cbn; lia).
    eapply spec_post; [by apply IH|]. intros s'' module'' _ H. by rewrite <- (assoc_L (++)) in H.
Qed.
End collect.
#[export] Hint Resolve growing_collect_functions : growing.
Lemma growing_collect_modules m files modules : growing (collect_modules m files modules).
Proof. revert m modules. induction files; intros m modules; cbn; grows. Qed.
#[export] Hint Resolve growing_collect_modules : growing.

Definition all_collected (files : list SourceUnit) (modules : list ModuleSymbols) : Prop :=
  length modules = length files /\ forall i file, files !! i = Some file ->
    exists module, modules !! i = Some module /\ collected i (su_functions file) module.
Lemma spec_collect_modules done_ files modules s :
  all_collected done_ modules ->
  spec (collect_modules (length done_) files modules) s (fun s' modules' => all_collected (done_ ++ files) modules')
    (fun _ _ => False).
Proof.
  revert done_ modules s. induction files as [|file files IH]; intros done_ modules s Ha; cbn.
  - apply spec_ret. by rewrite app_nil_r.
  - sbind. eapply spec_post; [apply (spec_collect_functions modules (length done_) []), collected_nil|].
    intros s' module _ Hc _. replace (S (length done_)) with (length (done_ ++ [file])) by (rewrite length_app; cbn; lia).
    eapply spec_post; [apply IH|intros s'' modules' _ H; by rewrite <- (assoc_L (++)) in H].
    destruct Ha as [Hl Ha]. split; [rewrite !length_app; cbn; lia|]. intros i file' [Hi|[Hge Hi]]%lookup_app_Some.
    + destruct (Ha _ _ Hi) as (module' & Hm & Hc'). exists module'. split; [|done]. rewrite lookup_app_l; [done|].
      by apply lookup_lt_Some in Hm.
    + apply list_lookup_singleton_Some in Hi as [Hi <-]. replace i with (length done_) by lia. exists module.
      split; [rewrite <- Hl; by apply list_lookup_middle|done].
Qed.
Lemma spec_collect_signatures {R} snapshot s (L : SErrors -> R -> Prop) :
  spec (sem_collect_signatures snapshot) s (fun s' modules => all_collected (sn_files snapshot) modules) L.
Proof. apply spec_invoke_never. by apply (spec_collect_modules []). Qed.

(** ** Imports *)

(** The parts of a snapshot are counted by [u32] indices. *)
Record snapshot_sized (files : list SourceUnit) : Prop := {
  sz_files : (len files <= u32_max)%N;
  sz_functions i file : files !! i = Some file -> (len (su_functions file) <= u32_max)%N;
  sz_parameters i file f : files !! i = Some file -> f ∈ su_functions file -> (len (fs_parameters f) <= u32_max)%N }.
Lemma index_u32_lt {A} (l : list A) i : (len l <= u32_max)%N -> i < length l -> index_u32 i = N.of_nat i.
Proof. unfold index_u32, try_u32, len. intros. by rewrite (proj2 (N.leb_le _ _)) by lia. Qed.

Section imports.
Context (files : list SourceUnit) (sized : snapshot_sized files).
Notation entries := (list (string * option FunctionKey)).

(** What a name denotes once the imports [es] are known *)
Definition denoted (m : nat) (file : SourceUnit) (es : entries) (name : string) : option FunctionKey :=
  match declared_function file name with
  | Some declaration => Some (mkFunctionKey m declaration)
  | None => '(_, entry) ← list_find (fun entry => entry.1 = name) es; entry.2
  end.
Lemma denoted_all m file name :
  files !! m = Some file -> denoted m file (imported_functions files file) name = resolve_callee files m name.
Proof. intros E. unfold denoted, resolve_callee. by rewrite E. Qed.

(** The table of a module once its imports [es] are resolved *)
Record resolved (m : nat) (file : SourceUnit) (es : entries) (module : ModuleSymbols) : Prop := {
  rv_functions : ms_functions module = imap (symbol_of m) (su_functions file);
  rv_complete : Forall complete (su_functions file);
  rv_local name : ms_local_functions module !! name = declared_function file name;
  rv_callables name fid : ms_callables module !! name = Some fid -> denoted m file es name = Some (callee_key fid);
  rv_fresh name : ms_callables module !! name = None ->
    declared_function file name = None /\ list_find (fun entry => entry.1 = name) es = None }.

Lemma function_id_key m file j f :
  files !! m = Some file -> su_functions file !! j = Some f ->
  callee_key (mkFunctionId (index_u32 m) (index_u32 j)) = mkFunctionKey m j.
Proof.
  intros Hm Hj. unfold callee_key. cbn. pose proof (lookup_lt_Some _ _ _ Hm). pose proof (lookup_lt_Some _ _ _ Hj).
  rewrite (index_u32_lt files m) by (apply sized || done).
  rewrite (index_u32_lt (su_functions file) j) by (by eapply sz_functions || done). by rewrite !Nat2N.id.
Qed.
Lemma declared_lookup file name j : declared_function file name = Some j -> exists f, su_functions file !! j = Some f.
Proof.
  unfold declared_function. destruct (list_find _ _) as [[i f]|] eqn:E; [|done]. cbn. intros [= <-].
  apply list_find_Some in E as (E & _). eauto.
Qed.

Lemma collected_resolved m file module :
  files !! m = Some file -> collected m (su_functions file) module -> resolved m file [] module.
Proof.
  intros Hm [Hf Hc Hl Ha]. split; try done.
  - intros name fid E. rewrite Ha, Hl in E. unfold denoted, declared_function.
    destruct (list_find _ _) as [[j f]|] eqn:Ef; [|done]. cbn in *. injection E as <-. f_equal.
    apply list_find_Some in Ef as (Ef & _). symmetry. by eapply function_id_key.
  - intros name E. rewrite Ha, Hl in E. unfold declared_function. by destruct (list_find _ _) as [[]|].
Qed.
Lemma resolved_import m file es module edge : resolved m file es module -> resolved m file es (add_import edge module).
Proof. intros [Hf Hc Hl Ha Hn]. by split. Qed.
Lemma resolved_callable m file es module name fid :
  resolved m file es module -> ms_callables module !! name = None ->
  resolved m file (es ++ [(name, Some (callee_key fid))]) (add_callable name fid module).
Proof.
  intros [Hf Hc Hl Ha Hn] Hnew. split; try done; cbn.
  - intros name' fid' E. destruct (decide (name' = name)) as [->|Hne].
    + rewrite lookup_insert_eq in E. injection E as <-. destruct (Hn _ Hnew) as [E1 E2]. unfold denoted. rewrite E1.
      rewrite (find_snoc_new _ _ (name, Some (callee_key fid)) E2) by done. done.
    + rewrite lookup_insert_ne in E by done. specialize (Ha _ _ E). unfold denoted in *.
      destruct (declared_function file name'); [done|]. destruct (list_find _ es) as [[]|] eqn:Ef; [|done].
      by rewrite (find_snoc_other _ _ _ _ Ef).
  - intros name' E. destruct (decide (name' = name)) as [->|Hne]; [by rewrite lookup_insert_eq in E|].
    rewrite lookup_insert_ne in E by done. destruct (Hn _ E) as [E1 E2]. split; [done|]. apply find_snoc_none; [done|cbn; congruence].
Qed.

(** Modules before [m] are resolved, those after it are not. *)
Definition imports_of (m : nat) (es : entries) (i : nat) (file : SourceUnit) : entries :=
  if Nat.ltb i m then imported_functions files file else if Nat.eqb i m then es else [].
Definition tables (m : nat) (es : entries) (modules : list ModuleSymbols) : Prop :=
  length modules = length files /\ forall i file, files !! i = Some file ->
    exists module, modules !! i = Some module /\ resolved i file (imports_of m es i file) module.

Lemma tables_alter m es es' file g modules :
  files !! m = Some file -> tables m es modules ->
  (forall module, modules !! m = Some module -> resolved m file es module -> resolved m file es' (g module)) ->
  tables m es' (alter g m modules).
Proof.
  intros Hm [Hl Ht] Hg. split; [by rewrite length_alter|]. intros i file' Hi. destruct (Ht _ _ Hi) as (module & E & H).
  destruct (decide (i = m)) as [->|Hne].
  - replace file' with file in * by congruence. exists (g module). split; [by rewrite list_lookup_alter_eq, E|].
    unfold imports_of in *. rewrite Nat.ltb_irrefl, Nat.eqb_refl in *. auto.
  - exists module. split; [by rewrite list_lookup_alter_ne|]. unfold imports_of in *.
    by rewrite (proj2 (Nat.eqb_neq i m)) in * by done.
Qed.
Lemma tables_next m file modules :
  files !! m = Some file -> tables m (imported_functions files file) modules -> tables (S m) [] modules.
Proof.
  intros Hm [Hl Ht]. split; [done|]. intros i file' Hi. destruct (Ht _ _ Hi) as (module & E & H). exists module. split; [done|].
  unfold imports_of in *. destruct (Nat.eqb_spec i m) as [->|Hne].
  - rewrite Nat.ltb_irrefl in H. replace file' with file in * by congruence. rewrite (proj2 (Nat.ltb_lt m (S m))) by lia. exact H.
  - destruct (Nat.ltb_spec i m); [by rewrite (proj2 (Nat.ltb_lt i (S m))) by lia|].
    rewrite (proj2 (Nat.ltb_ge i (S m))) by lia. by destruct (Nat.eqb i (S m)).
Qed.

(** ** [resolve_imports] *)

Notation never := (fun (_ : RState) (_ : unit) => False).
Lemma growing_update_module {R} i f : growing (@update_module i f R).
Proof. intros s. unfold update_module. by destruct (_ !! i). Qed.
#[local] Hint Resolve growing_update_module : growing.
Lemma spec_update_module {R} i f s (Q : RState -> unit -> Prop) (L : RState -> R -> Prop) :
  Q (mkRState (rs_errors s) (alter f i (rs_modules s))) tt -> spec (update_module i f) s Q L.
Proof. intros HQ. unfold spec, update_module. by destruct (rs_modules s !! i). Qed.
Lemma growing_resolve_bindings m target path bindings : growing (resolve_bindings m target path bindings).
Proof. induction bindings; cbn; grows. Qed.
#[local] Hint Resolve growing_resolve_bindings : growing.

Definition binding_entry (target : nat) (binding : ImportBindingSyntax) : string * option FunctionKey :=
  (is_text (ib_local binding),
   exporter ← files !! target;
   declaration ← declared_function exporter (is_text (ib_imported binding));
   Some (mkFunctionKey target declaration)).

Lemma exported_entry m es modules target module binding symbol :
  tables m es modules -> modules !! target = Some module ->
  exported_function module (is_text (ib_imported binding)) = Some symbol ->
  binding_entry target binding = (is_text (ib_local binding), Some (callee_key (fy_id symbol))).
Proof.
  intros [Hl Ht] Hm He. destruct (lookup_lt_is_Some_2 files target) as [exporter Hx].
  { rewrite <- Hl. by apply lookup_lt_Some in Hm. }
  destruct (Ht _ _ Hx) as (module' & Hm' & Hr). replace module' with module in * by congruence.
  unfold exported_function in He. rewrite (rv_local _ _ _ _ Hr) in He. unfold binding_entry. rewrite Hx. cbn.
  destruct (declared_function exporter _) as [j|] eqn:Ed; [|done]. cbn in *.
  rewrite (rv_functions _ _ _ _ Hr), list_lookup_imap in He. destruct (declared_lookup _ _ _ Ed) as (f & Hf).
  rewrite Hf in He. cbn in He. destruct (bool_decide _); [|done]. injection He as <-. cbn.
  by rewrite (function_id_key _ _ _ _ Hx Hf).
Qed.

Lemma spec_resolve_bindings m file target path bindings es s :
  files !! m = Some file -> tables m es (rs_modules s) ->
  spec (resolve_bindings m target path bindings) s
    (fun s' _ => tables m (es ++ (binding_entry target <$> bindings)) (rs_modules s')) never.
Proof.
  intros Hm. revert es s. induction bindings as [|b bindings IH]; intros es s Ht; cbn [resolve_bindings].
  - apply spec_ret. cbn. by rewrite app_nil_r.
  - sbind. apply spec_check. intros _ _. sbind. apply spec_gets. intros _. sbind. apply spec_expect. intros module Em _.
    sbind. apply (spec_post _ _ (fun s' _ => tables m (es ++ [binding_entry target b]) (rs_modules s'))).
    { destruct (exported_function _ _) as [symbol|] eqn:Ex; [|apply spec_report_at].
      sbind. apply spec_expect. intros importer Ei _. sbind. apply spec_update_module. intros _.
      apply spec_when; [intros _; apply spec_report_at|]. intros Hnew%bool_decide_eq_false%eq_None_not_Some. cbn.
      rewrite (exported_entry _ _ _ _ _ _ _ Ht Em Ex). eapply tables_alter; [exact Hm|exact Ht|].
      intros module' Em' Hr. replace module' with importer in * by congruence. by apply resolved_callable. }
    intros s' ? _ Ht' _. cbn beta in Ht'. eapply spec_post; [by apply IH|]. intros s'' ? _ H. cbn. by rewrite <- (assoc_L (++)) in H.
Qed.

Lemma growing_resolve_import paths m file import : growing (resolve_import paths m file import).
Proof. unfold resolve_import. grows. Qed.
#[local] Hint Resolve growing_resolve_import : growing.
Lemma growing_resolve_file paths m file imports : growing (resolve_file paths m file imports).
Proof. induction imports; cbn; grows. Qed.
#[local] Hint Resolve growing_resolve_file : growing.

Definition import_entries (file : SourceUnit) (import : ImportSyntax) : entries :=
  (fun binding =>
     (is_text (ib_local binding),
      target ← import_target files file import;
      exporter ← files !! target;
      declaration ← declared_function exporter (is_text (ib_imported binding));
      Some (mkFunctionKey target declaration))) <$> im_bindings import.
Lemma spec_resolve_import m file import es s :
  files !! m = Some file -> tables m es (rs_modules s) ->
  spec (resolve_import (path_table files) m file import) s
    (fun s' _ => tables m (es ++ import_entries file import) (rs_modules s')) never.
Proof.
  intros Hm Ht. unfold resolve_import. sbind. apply spec_check. intros _ _.
  destruct (resolve_explicit_zry_import _ _) as [path|e] eqn:Ep; [|apply spec_report_at].
  destruct (path_table files !! path) as [target|] eqn:Et; [|apply spec_report_at].
  sbind. apply spec_update_module. intros _. eapply spec_post; [eapply (spec_resolve_bindings m file); [done|]|].
  - eapply tables_alter; [exact Hm|exact Ht|]. intros module _. apply resolved_import.
  - intros s' ? _ H. replace (import_entries file import) with (binding_entry target <$> im_bindings import); [exact H|].
    apply list_fmap_ext. intros _ b _. unfold binding_entry, import_target. by rewrite Ep, Et.
Qed.
Lemma spec_resolve_file m file imports es s :
  files !! m = Some file -> tables m es (rs_modules s) ->
  spec (resolve_file (path_table files) m file imports) s
    (fun s' _ => tables m (es ++ (imports ≫= import_entries file)) (rs_modules s')) never.
Proof.
  intros Hm. revert es s. induction imports as [|i imports IH]; intros es s Ht; cbn.
  - apply spec_ret. by rewrite app_nil_r.
  - sbind. eapply spec_post; [by apply (spec_resolve_import m file)|]. intros s' ? _ Ht' _. cbn beta in Ht'.
    eapply spec_post; [by apply IH|]. intros s'' ? _ H. by rewrite <- (assoc_L (++)) in H.
Qed.

Lemma growing_resolve_files paths m fs : growing (resolve_files paths m fs).
Proof. revert m. induction fs; intros m; cbn; grows. Qed.
Lemma spec_resolve_files done_ todo s :
  files = done_ ++ todo -> tables (length done_) [] (rs_modules s) ->
  spec (resolve_files (path_table files) (length done_) todo) s (fun s' _ => tables (length files) [] (rs_modules s')) never.
Proof.
  revert done_ s. induction todo as [|file todo IH]; intros done_ s E Ht; cbn [resolve_files].
  - apply spec_ret. rewrite app_nil_r in E. by rewrite E at 1.
  - assert (Hm : files !! length done_ = Some file) by (rewrite E; by apply list_lookup_middle).
    eapply spec_bind; [intros; apply growing_resolve_files|]. eapply spec_post; [by apply (spec_resolve_file _ file)|].
    intros s' ? _ Ht' _. cbn beta in Ht'. replace (S (length done_)) with (length (done_ ++ [file])) by (rewrite length_app; cbn; lia).
    apply IH; [by rewrite <- (assoc_L (++))|]. rewrite length_app, Nat.add_1_r. eapply tables_next; [exact Hm|exact Ht'].
Qed.

(** The tables after both phases *)
Lemma collected_tables modules : all_collected files modules -> tables 0 [] modules.
Proof.
  intros [Hl Ha]. split; [done|]. intros i file Hi. destruct (Ha _ _ Hi) as (module & Hm & Hc). exists module. split; [done|].
  unfold imports_of. replace (if Nat.ltb i 0 then _ else _) with ([] : entries) by (by destruct i). by apply collected_resolved.
Qed.
Lemma spec_resolve_imports snapshot modules errors :
  sn_files snapshot = files -> all_collected files modules ->
  spec (resolve_imports snapshot (path_table files)) (mkRState errors modules)
    (fun s' _ => tables (length files) [] (rs_modules s')) never.
Proof.
  intros E Ha. apply spec_invoke_never. rewrite E. apply (spec_resolve_files []); [done|]. by apply collected_tables.
Qed.
End imports.
Lemma growing_collect_signatures {R} snapshot : growing (@sem_collect_signatures snapshot R).
Proof. apply growing_invoke. grows. Qed.
Lemma growing_resolve_imports snapshot paths : growing (resolve_imports snapshot paths).
Proof. apply growing_invoke, growing_resolve_files. Qed.
#[export] Hint Resolve growing_collect_signatures growing_resolve_imports : growing.
