(* ===== verification/SemTotal.v ===== *)
(** * The lowering of a function ends without a panic

    On a body with canonical arenas no index of the lowerer is out of range and
    no walk outlives its fuel, whatever has been reported before. *)
From stdpp Require Import base numbers list list_numbers strings gmap.
From S2P Require Import Prelude Source Diagnostics Abi CfgAlgorithms ControlFlow Syntax Snapshot SnapshotLimits SnapshotArenas.
From S2P Require Import Semantics SemLower SemValues SemProgram SourceRelation SemPrune.

(** ** Total runs of a state with errors *)

Section reports.
Context {S R : Type} `{HasErrors S}.
Implicit Types (L : S -> R -> Prop) (Q : S -> unit -> Prop).

Lemma wp_report_at code span message guidance (s : S) Q L :
  (forall f, Q (map_errors f s) tt) -> wp (report_at code span message guidance) s Q L.
Proof. intros HQ. apply wp_modify, HQ. Qed.
Lemma wp_report_limit_at code span message guidance (s : S) Q L :
  (forall f, Q (map_errors f s) tt) -> wp (report_limit_at code span message guidance) s Q L.
Proof. intros HQ. apply wp_modify, HQ. Qed.
Lemma wp_report_limit code message guidance (s : S) Q L :
  (forall f, Q (map_errors f s) tt) -> wp (report_limit code message guidance) s Q L.
Proof. intros HQ. apply wp_modify, HQ. Qed.
Lemma wp_check (r : R) (s : S) Q L :
  (se_exhausted (errors_of s) = false -> Q s tt) -> (se_exhausted (errors_of s) = true -> L s r) -> wp (check r) s Q L.
Proof. unfold wp, check. destruct (se_exhausted _); auto. Qed.
End reports.

(** A computation that never panics and keeps [I], however it ends *)
Definition keeps {S R A} (I : S -> Prop) (m : SM S R A) : Prop := forall s, I s -> wp m s (fun s' _ => I s') (fun s' _ => I s').

Section keeps.
Context {S R : Type} (I : S -> Prop).
Lemma keeps_ret {A} (a : A) : keeps (R := R) I (mret a).
Proof. by intros s HI. Qed.
Lemma keeps_leave {A} (r : R) : keeps (A := A) I (leave r).
Proof. by intros s HI. Qed.
Lemma keeps_gets {A} (f : S -> A) : keeps (R := R) I (sgets f).
Proof. by intros s HI. Qed.
Lemma keeps_modify (f : S -> S) : (forall s, I s -> I (f s)) -> keeps (R := R) I (smodify f).
Proof. intros Hf s HI. by apply wp_modify, Hf. Qed.
Lemma keeps_expect {A} (o : option A) : is_Some o -> keeps (R := R) I (sexpect o).
Proof. by intros [a ->] s HI. Qed.
Lemma keeps_or_leave {A} (o : option A) (r : R) : keeps I (or_leave o r).
Proof. by destruct o; intros s HI. Qed.
Lemma keeps_bind {A B} (m : SM S R A) (f : A -> SM S R B) : keeps I m -> (forall a, keeps I (f a)) -> keeps I (m ≫= f).
Proof. intros Hm Hf s HI. eapply wp_bind, wp_post; [by apply Hm|]. intros s' a HI'. by apply Hf. Qed.
Lemma keeps_some {A B} (o : option A) (a : A) (f : A -> SM S R B) : o = Some a -> keeps I (f a) -> keeps I (sexpect o ≫= f).
Proof. by intros ->. Qed.
Lemma keeps_when b (m : SM S R unit) : keeps I m -> keeps I (swhen b m).
Proof. destruct b; [done|]. intros _. apply keeps_ret. Qed.
End keeps.
Lemma keeps_invoke {S R A} (I : S -> Prop) (m : SM S A A) : keeps I m -> keeps (R := R) I (invoke m).
Proof. intros Hm s HI. apply wp_invoke. by apply Hm. Qed.
(** A call never returns early from its caller. *)
Lemma wp_keeps_invoke {S R A} (I : S -> Prop) (m : SM S A A) s (Q : S -> A -> Prop) (L : S -> R -> Prop) :
  keeps I m -> I s -> (forall s' a, I s' -> Q s' a) -> wp (invoke m) s Q L.
Proof. intros Hm HI HQ. apply wp_invoke. eapply wp_mono; [by apply Hm|auto..]. Qed.
Lemma keeps_check {S R} `{HasErrors S} (I : S -> Prop) (r : R) : keeps I (check r).
Proof. intros s HI. by apply wp_check. Qed.

Create HintDb keeps discriminated.
#[export] Hint Resolve keeps_ret keeps_leave keeps_gets keeps_or_leave keeps_bind keeps_when keeps_invoke keeps_check : keeps.
#[export] Hint Extern 3 (keeps _ (match ?x with _ => _ end)) => (destruct x) : keeps.
#[export] Hint Extern 3 (keeps _ (if ?x then _ else _)) => (destruct x) : keeps.
#[export] Hint Extern 4 (keeps _ (let '_ := ?x in _)) => (destruct x) : keeps.
#[export] Hint Extern 2 (keeps _ (report_at _ _ _ _)) => (apply keeps_modify) : keeps.
#[export] Hint Extern 2 (keeps _ (report_limit_at _ _ _ _)) => (apply keeps_modify) : keeps.
#[export] Hint Extern 2 (keeps _ (report_limit _ _ _)) => (apply keeps_modify) : keeps.
#[export] Hint Extern 2 (keeps _ (smodify _)) => (apply keeps_modify) : keeps.
#[export] Hint Extern 2 (keeps _ exhausted) => (apply keeps_gets) : keeps.
Ltac keep := intros; eauto 60 with keeps.

(** ** The walk over an expression tree *)

Section postorder.
Context (b : FunctionBodySyntax) (wf : well_formed_body b).
Notation es := (fb_expressions b).
Definition operands_at (id : ExpressionId) : list ExpressionId :=
  match get es id with Some e => children_of e | None => [] end.
Notation ids := (N.of_nat <$> seq 0 (length es)).

Lemma owned_once_nodup n (l : list N) : owned_once n l -> Forall (fun id => N.to_nat id < n) l -> NoDup l.
Proof.
  intros Ho Hb. rewrite Forall_forall in Hb. apply NoDup_alt. intros i j x Hi Hj.
  pose proof (list_elem_of_lookup_2 _ _ _ Hi) as Hin. specialize (Ho _ (Hb _ Hin)).
  destruct (decide (i = j)) as [|Hne]; [done|]. exfalso.
  assert (Hlt : forall i j, i < j -> l !! i = Some x -> l !! j = Some x -> False).
  { clear i j Hi Hj Hin Hne. intros i j Hij Hi Hj. rewrite <- (take_drop_middle l i x Hi) in Ho.
    rewrite filter_app, length_app, filter_cons_True, length_cons in Ho by done.
    assert (Hx : x ∈ filter (fun id => N.to_nat id = N.to_nat x) (drop (S i) l)).
    { apply list_elem_of_filter. split; [done|]. apply list_elem_of_lookup. exists (j - S i). rewrite lookup_drop.
      by replace (S i + (j - S i)) with j by lia. }
    apply list_elem_of_lookup in Hx as [k Hk]. apply lookup_lt_Some in Hk. lia. }
  destruct (decide (i < j)); [by eapply (Hlt i j)|eapply (Hlt j i); [lia|done..]].
Qed.
Lemma operand_range id x : x ∈ operands_at id -> N.to_nat x < N.to_nat id /\ N.to_nat id < length es.
Proof.
  unfold operands_at. destruct (get es id) as [e|] eqn:E; [|by intros ?%elem_of_nil]. intros Hx.
  pose proof (wb_operands _ wf _ _ E) as Ho. rewrite Forall_forall in Ho. split; [by apply Ho|].
  by apply lookup_lt_Some in E.
Qed.
Lemma all_operands : ids ≫= operands_at = es ≫= children_of.
Proof.
  rewrite (bind_seq _ es). induction (seq 0 (length es)) as [|i l IH]; [done|]. cbn. fold operands_at. rewrite IH. f_equal.
  unfold operands_at, get. by rewrite Nat2N.id.
Qed.

Lemma distinct_submseteq (X : list ExpressionId) : NoDup X -> Forall (fun id => N.to_nat id < length es) X -> X ⊆+ ids.
Proof.
  intros HX Hb. apply NoDup_submseteq; [done|]. intros x Hx. rewrite Forall_forall in Hb. apply list_elem_of_fmap.
  exists (N.to_nat x). split; [by rewrite N2Nat.id|]. apply elem_of_seq. specialize (Hb _ Hx). cbn in Hb. lia.
Qed.
Lemma distinct_length (X : list ExpressionId) : NoDup X -> Forall (fun id => N.to_nat id < length es) X -> length X <= length es.
Proof.
  intros HX Hb. pose proof (submseteq_length _ _ (distinct_submseteq X HX Hb)) as Hl. by rewrite length_fmap, length_seq in Hl.
Qed.

(** The roots and operands of distinct expressions are distinct. *)
Lemma tree_nodup root (X : list ExpressionId) :
  root ∈ (fb_statements b ≫= roots_of) -> NoDup X -> Forall (fun id => N.to_nat id < length es) X -> NoDup (root :: (X ≫= operands_at)).
Proof.
  intros Hr HX Hb.
  assert (Hall : NoDup ((es ≫= children_of) ++ (fb_statements b ≫= roots_of))).
  { eapply owned_once_nodup; [apply wf|]. apply Forall_app. split; [|apply wf]. rewrite <- all_operands.
    apply Forall_forall. intros x (id & Hx & _)%list_elem_of_bind. apply operand_range in Hx. lia. }
  apply NoDup_app in Hall as (Hc & Hd & _).
  pose proof (distinct_submseteq X HX Hb) as Hsub.
  apply submseteq_Permutation in Hsub as [k Hk].
  assert (Hp : es ≫= children_of ≡ₚ (X ≫= operands_at) ++ (k ≫= operands_at)) by by rewrite <- all_operands, Hk, bind_app.
  apply NoDup_cons. split.
  - intros Hin. apply (Hd root); [|done]. rewrite Hp. apply elem_of_app. by left.
  - rewrite Hp in Hc. by apply NoDup_app in Hc as (? & _ & _).
Qed.

(** What a stack still has to enter, and how many entries it has to leave *)
Fixpoint pending (stack : list (ExpressionId * bool)) : list ExpressionId :=
  match stack with [] => [] | (id, false) :: stack => id :: pending stack | _ :: stack => pending stack end.
Fixpoint exits (stack : list (ExpressionId * bool)) : nat :=
  match stack with [] => 0 | (_, true) :: stack => S (exits stack) | _ :: stack => exits stack end.
Lemma pending_children l stack : pending (((fun c => (c, false)) <$> l) ++ stack) = l ++ pending stack.
Proof. induction l as [|c l IH]; [done|]. cbn. by f_equal. Qed.
Lemma exits_children l stack : exits (((fun c => (c, false)) <$> l) ++ stack) = exits stack.
Proof. by induction l as [|c l IH]. Qed.

(** The walk visits every node of the tree once: what has been entered, [X], and
    what is pending are the nodes of the tree so far. *)
Lemma postorder_total_from root fuel (X : list ExpressionId) stack order :
  root ∈ (fb_statements b ≫= roots_of) -> NoDup X -> Forall (fun id => N.to_nat id < length es) X ->
  pending stack ++ X ≡ₚ root :: (X ≫= operands_at) ->
  Forall (fun x => N.to_nat x.1 < length es) stack -> Forall (fun i => i < length es) order ->
  2 * (length es - length X) + exits stack < fuel ->
  exists order', postorder_walk b fuel stack order = Some order' /\ Forall (fun i => i < length es) order'.
Proof.
  intros Hr. revert X stack order. induction fuel as [|fuel IH]; intros X stack order HX Hb Hp Hs Ho Hf; [lia|].
  destruct stack as [|[id []] stack]; cbn [postorder_walk pending exits] in *; [by exists order|..].
  - apply Forall_cons in Hs as [Hid Hs]. apply (IH X); try done; [|lia]. apply Forall_app. split; [done|]. by constructor.
  - apply Forall_cons in Hs as [Hid Hs]. cbn in Hid.
    destruct (lookup_lt_is_Some_2 es (N.to_nat id) Hid) as [e He].
    assert (Hops : operands_at id = expression_children (es_kind e)) by (unfold operands_at, get; by rewrite He).
    assert (Hget : get es id = Some e) by done. rewrite Hget. cbn [mbind option_bind].
    pose proof (tree_nodup root X Hr HX Hb) as Hnd. rewrite <- Hp in Hnd. cbn in Hnd. apply NoDup_cons in Hnd as [Hnew _].
    assert (HX' : NoDup (id :: X)).
    { apply NoDup_cons. split; [|done]. intros Hin. apply Hnew. apply elem_of_app. by right. }
    assert (Hb' : Forall (fun id => N.to_nat id < length es) (id :: X)) by by constructor.
    pose proof (distinct_length _ HX' Hb') as Hlen. cbn [length] in Hlen. apply (IH (id :: X)); try done.
    + rewrite pending_children. cbn. fold operands_at. rewrite Hops.
      transitivity (expression_children (es_kind e) ++ (id :: pending stack ++ X)); [solve_Permutation|]. cbn in Hp. rewrite Hp. solve_Permutation.
    + apply Forall_app. split; [|by constructor]. apply Forall_fmap, Forall_forall. intros c Hc. cbn.
      rewrite <- Hops in Hc. apply operand_range in Hc. lia.
    + rewrite exits_children. cbn [exits length]. lia.
Qed.
Lemma postorder_total root :
  root ∈ (fb_statements b ≫= roots_of) ->
  exists order, postorder_walk b (postorder_fuel b) [(root, false)] [] = Some order /\ Forall (fun i => i < length es) order.
Proof.
  intros Hr. pose proof (wb_roots _ wf) as Hroots. rewrite Forall_forall in Hroots. specialize (Hroots _ Hr).
  apply (postorder_total_from root _ [] _ _ Hr); [constructor|constructor| |by repeat constructor|constructor|].
  - done.
  - unfold postorder_fuel. cbn. lia.
Qed.
End postorder.

(** ** The invariant of the lowerer *)

(** An edge ends in a block that has a parameter for every argument. *)
Definition fits (blocks : list Block) (edge : BlockId * list ValueId) : Prop :=
  exists T, get blocks edge.1 = Some T /\ length edge.2 <= length (b_parameters T).
Lemma fits_all blocks : edges_fit blocks <-> forall B, B ∈ blocks -> Forall (fits blocks) (block_edges B).
Proof. unfold edges_fit. setoid_rewrite Forall_forall. naive_solver. Qed.

Definition call_edge_in (count : nat) (edge : CallEdge) : Prop := ce_caller edge < count /\ ce_callee edge < count.

(** The lowerer has [values] expression slots, at least [bound] bindings, and
    the blocks of [room] exist, each with a number of parameters. *)
Record lowering (values count : nat) (room : list (nat * nat)) (bound : nat) (s : LS) : Prop := {
  lg_values : length (ls_expression_values s) = values;
  lg_current : ls_current s < length (ls_blocks s);
  lg_room : forall j p, (j, p) ∈ room -> exists B, ls_blocks s !! j = Some B /\ p <= length (b_parameters B);
  lg_bindings : bound <= length (ls_bindings s);
  lg_calls : Forall (call_edge_in count) (ls_call_edges s);
  lg_fit : edges_fit (ls_blocks s);
  lg_blocks : (len (ls_blocks s) <= ControlFlow.MAX_BLOCKS_PER_FUNCTION)%N }.

(** A block keeps its parameters. *)
Definition widens (B B' : Block) : Prop := length (b_parameters B) <= length (b_parameters B').
Lemma fits_insert blocks i B B' edge : blocks !! i = Some B -> widens B B' -> fits blocks edge -> fits (<[i := B']> blocks) edge.
Proof.
  intros HB Hw (T & HT & Hl). unfold fits, get in *. destruct (decide (N.to_nat edge.1 = i)) as [<-|Hne].
  - exists B'. rewrite list_lookup_insert_eq by by eapply lookup_lt_Some. split; [done|]. unfold widens in Hw.
    replace T with B in Hl by congruence. lia.
  - exists T. by rewrite list_lookup_insert_ne.
Qed.
Lemma edges_fit_insert blocks i B B' :
  edges_fit blocks -> blocks !! i = Some B -> widens B B' ->
  Forall (fun e => e ∈ block_edges B \/ fits blocks e) (block_edges B') -> edges_fit (<[i := B']> blocks).
Proof.
  rewrite !fits_all. intros Hf HB Hw He C HC. apply list_elem_of_lookup in HC as [j Hj].
  assert (Hold : forall C, C ∈ blocks -> Forall (fits (<[i := B']> blocks)) (block_edges C)).
  { intros D HD. eapply Forall_impl; [by apply Hf|]. intros e. by apply (fits_insert _ _ _ _ _ HB Hw). }
  destruct (decide (j = i)) as [->|Hne].
  - rewrite list_lookup_insert_eq in Hj by by eapply lookup_lt_Some. injection Hj as <-.
    eapply Forall_impl; [exact He|]. intros e [H|H]; [|by apply (fits_insert _ _ _ _ _ HB Hw)].
    specialize (Hold B (list_elem_of_lookup_2 _ _ _ HB)). rewrite Forall_forall in Hold. by apply Hold.
  - rewrite list_lookup_insert_ne in Hj by done. by apply Hold, (list_elem_of_lookup_2 _ j).
Qed.

Section invariant.
Context (values count : nat).
Notation LI := (lowering values count).

Lemma lowering_errors room bound f s : LI room bound s -> LI room bound (map_errors f s).
Proof. by intros []. Qed.
Lemma lowering_weaken room room' bound bound' s : LI room bound s -> room' ⊆ room -> bound' <= bound -> LI room' bound' s.
Proof. intros [Hv Hc Hr Hb Ha Hf Hn] Hs Hle. split; [done|done| |lia|done..]. intros j p Hin. apply Hr, Hs, Hin. Qed.
Lemma lowering_bindings room bound l s : LI room bound s -> LI room (length l) (set_bindings l s).
Proof. by intros []. Qed.
Lemma lowering_current room bound j p s : (j, p) ∈ room -> LI room bound s -> LI room bound (set_current j s).
Proof.
  intros Hin [Hv Hc Hr Hb Ha Hf Hn]. split; try done. cbn. destruct (Hr _ _ Hin) as (B & HB & _). by eapply lookup_lt_Some.
Qed.
Lemma lowering_here room bound s : LI room bound s -> LI ((ls_current s, 0) :: room) bound s.
Proof.
  intros [Hv Hc Hr Hb Ha Hf Hn]. split; try done. intros j p [[= -> ->]|Hin]%elem_of_cons; [|by apply Hr].
  destruct (lookup_lt_is_Some_2 _ _ Hc) as [B HB]. exists B. split; [done|lia].
Qed.
Lemma lowering_cfg_edges room bound e s : LI room bound s -> LI room bound (set_cfg_edges e s).
Proof. by intros []. Qed.
Lemma lowering_next room bound n s : LI room bound s -> LI room bound (set_next_value n s).
Proof. by intros []. Qed.
Lemma lowering_values room bound l s : length l = values -> LI room bound s -> LI room bound (set_expression_values l s).
Proof. by intros Hl []. Qed.
Lemma lowering_call room bound e s :
  call_edge_in count e -> LI room bound s -> LI room bound (set_call_edges (ls_call_edges s ++ [e]) s).
Proof. intros He []. split; try done. cbn. apply Forall_app. split; [done|]. by constructor. Qed.
(** A block of the room changes, with edges that fit. *)
Lemma lowering_update room bound i B B' s :
  LI room bound s -> ls_blocks s !! i = Some B -> widens B B' ->
  Forall (fun e => e ∈ block_edges B \/ fits (ls_blocks s) e) (block_edges B') ->
  LI room bound (set_draft_blocks (<[i := B']> (ls_blocks s)) s).
Proof.
  intros [Hv Hc Hr Hb Ha Hf Hn] HB Hw He. split; cbn; [done|by rewrite length_insert| |done|done|by eapply edges_fit_insert|].
  - intros j p Hin. destruct (Hr _ _ Hin) as (C & HC & Hp). destruct (decide (j = i)) as [->|Hne].
    + exists B'. rewrite list_lookup_insert_eq by by eapply lookup_lt_Some. split; [done|]. unfold widens in Hw.
      replace C with B in Hp by congruence. lia.
    + exists C. by rewrite list_lookup_insert_ne.
  - unfold len in *. by rewrite length_insert.
Qed.
Lemma lowering_fits room bound j p args s :
  LI room bound s -> (j, p) ∈ room -> length args <= p -> fits (ls_blocks s) (index_u32 j, args).
Proof.
  intros [Hv Hc Hr Hb Ha Hf Hn] Hin Hl. destruct (Hr _ _ Hin) as (B & HB & Hp). exists B. cbn. split; [|lia].
  pose proof (lookup_lt_Some _ _ _ HB) as Hlt. unfold get, index_u32, try_u32.
  assert (Hj : (N.of_nat j <= u32_max)%N) by (unfold len, ControlFlow.MAX_BLOCKS_PER_FUNCTION, u32_max in *; lia).
  rewrite (proj2 (N.leb_le _ _)) by done. cbn. by rewrite Nat2N.id.
Qed.
Lemma lowering_new room bound s :
  LI room bound s -> (len (ls_blocks s) < ControlFlow.MAX_BLOCKS_PER_FUNCTION)%N ->
  LI ((length (ls_blocks s), 0) :: room) bound (set_draft_blocks (ls_blocks s ++ [empty_block (length (ls_blocks s))]) s).
Proof.
  intros [Hv Hc Hr Hb Ha Hf Hn] Hl. split; cbn; [done|rewrite length_app; lia| |done|done| |rewrite len_snoc; lia].
  - intros j p [[= -> ->]|Hin]%elem_of_cons.
    + eexists. rewrite list_lookup_middle by done. split; [done|cbn; lia].
    + destruct (Hr _ _ Hin) as (B & HB & Hp). exists B. split; [|done]. rewrite lookup_app_l; [done|by eapply lookup_lt_Some].
  - intros B e [HB|HB%list_elem_of_singleton]%elem_of_app He; [|subst B; by apply elem_of_nil in He].
    destruct (Hf B e HB He) as (T & HT & Hle). exists T. split; [|done]. unfold get in *.
    rewrite lookup_app_l; [done|by eapply lookup_lt_Some].
Qed.

(** ** Operations *)

Hint Resolve lowering_errors lowering_next lowering_cfg_edges : keeps.
Lemma wp_merge_limit {R} room bound n span s (Q : LS -> bool -> Prop) (L : LS -> R -> Prop) :
  LI room bound s -> (forall s' b, LI room bound s' -> Q s' b) -> wp (draft_merge_within_limit n span) s Q L.
Proof.
  intros HI HQ. unfold draft_merge_within_limit. apply wp_bind, wp_gets. destruct (se_exhausted _); [by apply wp_ret, HQ|].
  destruct (_ <? _)%N; [|by apply wp_ret, HQ]. apply wp_bind, wp_report_limit_at. intros f. by apply wp_ret, HQ, lowering_errors.
Qed.
Lemma keeps_value_limit {R} room bound n span : keeps (LI room bound) (@draft_value_within_limit R n span).
Proof. unfold draft_value_within_limit. keep. Qed.
Hint Resolve keeps_value_limit : keeps.
Lemma keeps_new_value_body room bound ty span : keeps (LI room bound) (new_value_body ty span).
Proof. unfold new_value_body. keep. Qed.
Lemma keeps_new_value {R} room bound ty span : keeps (LI room bound) (@new_value R ty span).
Proof. apply keeps_invoke, keeps_new_value_body. Qed.
Hint Resolve keeps_new_value : keeps.

Lemma wp_block_at {R} room bound i p s (Q : LS -> Block -> Prop) (L : LS -> R -> Prop) :
  LI room bound s -> (i, p) ∈ room -> (forall B, ls_blocks s !! i = Some B -> p <= length (b_parameters B) -> Q s B) -> wp (block_at i) s Q L.
Proof. intros HI Hin HQ. destruct (lg_room _ _ _ _ _ HI _ _ Hin) as (B & HB & Hp). unfold wp, block_at. rewrite HB. by apply HQ. Qed.
(** A block of the room gets an instruction, a parameter or its terminator. *)
Lemma wp_update_block {R} room bound i p f s (Q : LS -> unit -> Prop) (L : LS -> R -> Prop) :
  LI room bound s -> (i, p) ∈ room ->
  (forall B, widens B (f B) /\ Forall (fun e => e ∈ block_edges B \/ fits (ls_blocks s) e) (block_edges (f B))) ->
  (forall B, ls_blocks s !! i = Some B -> p <= length (b_parameters B) ->
     LI room bound (set_draft_blocks (<[i := f B]> (ls_blocks s)) s) -> Q (set_draft_blocks (<[i := f B]> (ls_blocks s)) s) tt) ->
  wp (update_block i f) s Q L.
Proof.
  intros HI Hin Hf HQ. unfold update_block. eapply wp_bind, wp_block_at; [done..|]. intros B HB Hp.
  apply wp_modify, HQ; [done..|]. destruct (Hf B). by eapply lowering_update.
Qed.
Lemma push_instruction_edges blocks i B : Forall (fun e => e ∈ block_edges B \/ fits blocks e) (block_edges (push_instruction i B)).
Proof. apply Forall_forall. intros e He. by left. Qed.
Lemma push_parameter_edges blocks d B : Forall (fun e => e ∈ block_edges B \/ fits blocks e) (block_edges (push_parameter d B)).
Proof. apply Forall_forall. intros e He. by left. Qed.
Lemma push_terminator_edges blocks t B :
  Forall (fits blocks) (terminator_edges_of (tm_kind t)) -> Forall (fun e => e ∈ block_edges B \/ fits blocks e) (block_edges (push_terminator t B)).
Proof.
  intros Ht. unfold block_edges. cbn. destruct (b_terminators B) as [|t' ts]; cbn; [|apply Forall_forall; intros e He; by left].
  eapply Forall_impl; [exact Ht|]. by right.
Qed.

Lemma keeps_emit {R} room bound ty span kind : keeps (LI room bound) (@emit R ty span kind).
Proof.
  apply keeps_invoke. unfold emit_body. apply keeps_bind; [keep|]. intros _ s HI.
  apply wp_bind, wp_gets. pose proof (lowering_here _ _ _ HI) as Hh. assert (Hin : (ls_current s, 0) ∈ (ls_current s, 0) :: room) by left.
  eapply wp_bind, wp_block_at; [exact Hh|exact Hin|]. intros B HB _.
  destruct (_ <=? _)%N; [by refine ((_ : keeps (LI room bound) _) s HI); keep|].
  eapply wp_bind, wp_mono; [apply (keeps_new_value ((ls_current s, 0) :: room) bound ty span s Hh)|..].
  2:{ intros s' r HI'. eapply lowering_weaken; [exact HI'|set_solver|done]. }
  intros s' v HI'. apply wp_bind, wp_or_leave; [intros v' _|intros _; eapply lowering_weaken; [exact HI'|set_solver|done]].
  eapply wp_bind, wp_update_block; [exact HI'|exact Hin|intros C; split; [unfold widens; done|apply push_instruction_edges]|].
  intros C HC _ HI''. apply wp_ret. eapply lowering_weaken; [exact HI''|set_solver|done].
Qed.
Lemma keeps_record_call_edge {R} room bound edge : call_edge_in count edge -> keeps (LI room bound) (@record_call_edge R edge).
Proof.
  intros He. unfold record_call_edge. apply keeps_bind; [keep|]. intros []; [keep|]. intros s HI. apply wp_bind, wp_gets.
  destruct (_ <=? _)%N.
  - refine ((_ : keeps (LI room bound) _) s HI). keep.
  - apply wp_bind, wp_modify, wp_ret. by apply lowering_call.
Qed.
Hint Resolve keeps_emit : keeps.

(** ** Expressions *)

Section function.
Context (fbody : FunctionBodySyntax) (wf : well_formed_body fbody) (sized : values = length (fb_expressions fbody)).
Context (callables : gmap string FunctionId) (modules : list ModuleSymbols) (offsets : list nat) (caller : nat).
(** A callable name denotes a function of the tables, which has a number. *)
Definition callee_known (fid : FunctionId) : Prop := exists module symbol offset,
  get modules (fid_module fid) = Some module /\ get (ms_functions module) (fid_declaration fid) = Some symbol /\
  get offsets (fid_module fid) = Some offset /\ offset + N.to_nat (fid_declaration fid) < count.
Context (callees : forall name fid, callables !! name = Some fid -> callee_known fid) (numbered : caller < count).

Section expressions.
Context (room : list (nat * nat)) (bound : nat).
Notation K := (keeps (LI room bound)).

Lemma keeps_value_of id : K (value_of id).
Proof. unfold value_of. keep. Qed.
Hint Resolve keeps_value_of : keeps.
Lemma keeps_values_of ids : K (values_of ids).
Proof. induction ids; cbn; keep. Qed.
Hint Resolve keeps_values_of : keeps.
Lemma keeps_operator_error span message : K (operator_error span message).
Proof. unfold operator_error. keep. Qed.
Hint Resolve keeps_operator_error : keeps.
Lemma keeps_call span callee arguments : K (lower_call callables modules offsets caller span callee arguments).
Proof.
  unfold lower_call. apply keeps_bind; [keep|]. intros vs. destruct (callables !! is_text callee) as [fid|] eqn:E; [|keep].
  destruct (callees _ _ E) as (module & symbol & offset & E1 & E2 & E3 & Hlt).
  apply (keeps_some _ _ module _ E1). apply (keeps_some _ _ symbol _ E2). apply keeps_bind; [keep|]. intros expected.
  apply keeps_bind; [keep|]. intros result. destruct (negb _); [keep|]. destruct (existsb _ _); [keep|].
  apply (keeps_some _ _ offset _ E3). apply keeps_bind; [by apply keeps_record_call_edge|]. intros recorded. keep.
Qed.
Hint Resolve keeps_call : keeps.
Lemma keeps_binary operator span lhs rhs operation : K (binary_i32 operator span lhs rhs operation).
Proof. unfold binary_i32. keep. Qed.
Lemma keeps_comparison operator span lhs rhs operation : K (comparison_i32 operator span lhs rhs operation).
Proof. unfold comparison_i32. keep. Qed.
Lemma keeps_equality operator span lhs rhs operation : K (equality operator span lhs rhs operation).
Proof. unfold equality. keep. Qed.
Hint Resolve keeps_binary keeps_comparison keeps_equality : keeps.
Lemma keeps_expression {R} kind span : keeps (LI room bound) (lower_expression (R := R) callables modules offsets caller kind span).
Proof. apply keeps_invoke. destruct kind; cbn [lower_expression_body]; keep. Qed.
Hint Resolve keeps_expression : keeps.

Lemma keeps_store {R} index value : index < values -> keeps (LI room bound) (store_expression_result (R := R) index value).
Proof.
  intros Hi. unfold store_expression_result. apply keeps_bind; [keep|]. intros []; [keep|]. intros s HI. apply wp_bind, wp_gets.
  rewrite (lg_values _ _ _ _ _ HI), (proj2 (Nat.ltb_lt _ _) Hi). apply wp_bind, wp_modify, wp_ret.
  apply lowering_values; [|done]. rewrite length_insert. apply (lg_values _ _ _ _ _ HI).
Qed.
Lemma keeps_order order : Forall (fun i => i < values) order -> K (lower_order fbody callables modules offsets caller order).
Proof.
  induction 1 as [|i order Hi Ho IH]; cbn [lower_order]; [keep|]. apply keeps_bind; [keep|]. intros _.
  apply keeps_bind; [apply keeps_expect, lookup_lt_is_Some; by rewrite <- sized|]. intros e. apply keeps_bind; [keep|]. intros v.
  apply keeps_bind; [by apply keeps_store|]. keep.
Qed.
Lemma keeps_root root : root ∈ (fb_statements fbody ≫= roots_of) -> K (lower_root_body fbody callables modules offsets caller root).
Proof.
  intros Hr. unfold lower_root_body. apply keeps_bind; [keep|]. intros _.
  destruct (postorder_total fbody wf root Hr) as (order & E & Ho). rewrite <- sized in Ho.
  destruct (_ <=? _)%N; [keep|]. apply (keeps_some _ _ order _ E). apply keeps_bind; [by apply keeps_order|]. intros _ s HI.
  apply wp_bind, wp_gets, wp_bind, wp_expect.
  - apply lookup_lt_is_Some. rewrite (lg_values _ _ _ _ _ HI), sized. pose proof (wb_roots _ wf) as Hb.
    rewrite Forall_forall in Hb. by apply Hb.
  - intros r _. apply wp_bind, wp_modify, wp_ret. apply lowering_values; [|done]. rewrite length_fmap. apply (lg_values _ _ _ _ _ HI).
Qed.
End expressions.

(** ** Rules of the statements *)

Lemma lowering_grow room bound i p q B s :
  LI ((i, p) :: room) bound s -> ls_blocks s !! i = Some B -> q <= length (b_parameters B) -> LI ((i, q) :: room) bound s.
Proof.
  intros [Hv Hc Hr Hb Ha Hf Hn] HB Hq. split; try done. intros j p' [[= -> ->]|Hin]%elem_of_cons; [by exists B|].
  apply Hr. by right.
Qed.
Lemma wp_terminate_or_leave room bound span kind s (Q : LS -> unit -> Prop) (L : LS -> bool -> Prop) :
  LI room bound s -> Forall (fits (ls_blocks s)) (terminator_edges_of kind) ->
  (forall s', LI room bound s' -> Q s' tt) -> (forall s', LI room bound s' -> L s' false) -> wp (terminate_or_leave span kind) s Q L.
Proof.
  intros HI He HQ HL. unfold terminate_or_leave. apply wp_bind.
  eapply (wp_post _ _ (fun s' _ => LI room bound s') _ L); [|intros s' [] HI'; [by apply HQ|by apply HL]].
  apply wp_invoke. unfold terminate_body. apply wp_bind, wp_check; [intros _|done]. apply wp_bind, wp_gets.
  destruct (checked_add _ _ _); [|refine ((_ : keeps (LI room bound) _) s HI); keep].
  destruct (_ <? _)%N; [refine ((_ : keeps (LI room bound) _) s HI); keep|]. apply wp_bind, wp_gets.
  pose proof (lowering_here _ _ _ HI) as Hh. eapply wp_bind, wp_block_at; [exact Hh|left|]. intros B HB _.
  destruct (b_terminators B); [|by apply wp_ret]. apply wp_bind, wp_modify, wp_bind.
  eapply wp_update_block; [apply lowering_cfg_edges, Hh|left|intros C; split; [unfold widens; done|by apply push_terminator_edges]|].
  intros C HC _ HI'. apply wp_ret. eapply lowering_weaken; [exact HI'|set_solver|done].
Qed.
Lemma wp_fresh_block room bound s (Q : LS -> nat -> Prop) (L : LS -> bool -> Prop) :
  LI room bound s -> (forall s' j, LI ((j, 0) :: room) bound s' -> Q s' j) -> (forall s', LI room bound s' -> L s' false) ->
  wp (fresh_block fbody) s Q L.
Proof.
  intros HI HQ HL. unfold fresh_block. apply wp_bind.
  apply (wp_post _ _ (fun s' o => match o with Some j => LI ((j, 0) :: room) bound s' | None => LI room bound s' end) _ L).
  - apply wp_invoke. unfold new_block_body. apply wp_bind, wp_check; [intros _|done]. apply wp_bind, wp_gets.
    destruct (_ <=? _)%N eqn:E; [apply wp_bind, wp_report_limit_at; intros f; by apply wp_ret, lowering_errors|].
    apply wp_bind, wp_modify, wp_ret. apply lowering_new; [done|]. by apply N.leb_gt.
  - intros s' [j|] HI'; [by apply wp_ret, HQ|by apply wp_leave, HL].
Qed.
(** A new parameter of a block of the room *)
Lemma wp_parameter {A} room bound i p binding (f : TypedValue -> SM LS bool A) s (Q : LS -> A -> Prop) (L : LS -> bool -> Prop) :
  LI ((i, p) :: room) bound s ->
  (forall s' v, LI ((i, S p) :: room) bound s' -> wp (f v) s' Q L) -> (forall s', LI ((i, p) :: room) bound s' -> L s' false) ->
  wp (parameter ← new_value (bd_ty binding) (bd_span binding);
      parameter ← or_leave parameter false;
      update_block i (push_parameter (mkValueDefinition (tv_value parameter) (tv_ty parameter) (bd_span binding)));;
      f parameter) s Q L.
Proof.
  intros HI HQ HL. apply wp_bind. eapply wp_keeps_invoke; [apply (keeps_new_value_body ((i, p) :: room) bound)|done|]. intros s' v HI'. apply wp_bind, wp_or_leave; [intros v' _|intros _; by apply HL].
  eapply wp_bind, wp_update_block; [exact HI'|left|intros C; split; [|apply push_parameter_edges]|].
  - unfold widens. cbn. rewrite length_app. lia.
  - intros B HB Hp HI''. apply HQ. eapply lowering_grow; [exact HI''| |].
    + cbn. by apply list_lookup_insert_eq, (lookup_lt_Some _ _ _ HB).
    + cbn. rewrite length_app. cbn. lia.
Qed.

Lemma wp_merge join index incoming tb fb room bound p s (Q : LS -> list Binding * list ValueId * list ValueId -> Prop) L :
  LI ((join, p) :: room) bound s -> index + length incoming <= length tb -> index + length incoming <= length fb ->
  (forall s' m ta fa, LI ((join, p + length ta) :: room) bound s' -> length m = length incoming -> length ta = length fa -> Q s' (m, ta, fa)) ->
  (forall s', LI room bound s' -> L s' false) -> wp (merge_bindings join index incoming tb fb) s Q L.
Proof.
  intros HI Ht Hf HQ HL. revert index p s Q HI Ht Hf HQ.
  induction incoming as [|bd incoming IH]; intros index p s Q HI Ht Hf HQ; cbn [merge_bindings length] in *.
  { apply wp_ret, HQ; [|done..]. by rewrite Nat.add_0_r. }
  apply wp_bind, wp_expect; [apply lookup_lt_is_Some; lia|]. intros on_true _. apply wp_bind.
  apply (wp_post _ _ (fun s' _ => s' = s)).
  { destruct (bd_mutable bd); [|by apply wp_ret]. apply wp_expect; [apply lookup_lt_is_Some; lia|done]. }
  intros s' on_false ->. destruct (_ =? _)%N.
  - apply wp_bind, (IH _ p); [done|lia..|]. intros s' m ta fa HI' Hm Hl. apply wp_ret, HQ; [done|cbn; by f_equal|done].
  - apply (wp_parameter room bound join p); [done| |intros s' HI'; apply HL; eapply lowering_weaken; [exact HI'|set_solver|done]].
    intros s' v HI'. apply wp_bind, (IH _ (S p)); [done|lia..|]. intros s'' m ta fa HI'' Hm Hl.
    apply wp_ret, HQ; [|cbn; by f_equal..]. cbn. by rewrite Nat.add_succ_r.
Qed.
Lemma wp_carried index incoming tb fb s (Q : LS -> nat -> Prop) (L : LS -> bool -> Prop) :
  index + length incoming <= length tb -> index + length incoming <= length fb ->
  (forall n, Q s n) -> wp (carried_count index incoming tb fb) s Q L.
Proof.
  intros Ht Hf HQ. revert index Q Ht Hf HQ.
  induction incoming as [|bd incoming IH]; intros index Q Ht Hf HQ; cbn [carried_count length] in *; [by apply wp_ret|].
  apply wp_bind, (wp_post _ _ (fun s' _ => s' = s)).
  { destruct (bd_mutable bd); [|by apply wp_ret]. apply wp_bind, wp_expect; [apply lookup_lt_is_Some; lia|]. intros t _.
    apply wp_bind, wp_expect; [apply lookup_lt_is_Some; lia|]. intros f _. by apply wp_ret. }
  intros s' c ->. apply wp_bind, IH; [lia..|]. intros n. by apply wp_ret.
Qed.
Definition mutables (l : list Binding) : nat := length (filter (fun b => bd_mutable b = true) l).
Lemma wp_header header incoming room bound p s (Q : LS -> list Binding * list ValueId -> Prop) L :
  LI ((header, p) :: room) bound s ->
  (forall s' r, LI ((header, p + mutables incoming) :: room) bound s' -> length r.1 = length incoming ->
     length r.2 = mutables incoming -> Q s' r) ->
  (forall s', LI room bound s' -> L s' false) -> wp (header_bindings header incoming) s Q L.
Proof.
  intros HI HQ HL. revert p s Q HI HQ. induction incoming as [|bd incoming IH]; intros p s Q HI HQ; cbn [header_bindings length] in *.
  { apply wp_ret, HQ; [|done..]. cbn. by rewrite Nat.add_0_r. }
  unfold mutables in *. rewrite filter_cons in HQ. destruct (bd_mutable bd) eqn:Em; cbn [negb decide] in *.
  - rewrite decide_True in HQ by done. cbn [length] in HQ.
    apply (wp_parameter room bound header p); [done| |intros s' HI'; apply HL; eapply lowering_weaken; [exact HI'|set_solver|done]].
    intros s' v HI'. apply wp_bind, (IH (S p)); [done|]. intros s'' r HI'' H1 H2. apply wp_ret, HQ; [|cbn; by f_equal..].
    by rewrite Nat.add_succ_r.
  - rewrite decide_False in HQ by done. apply wp_bind, (IH p); [done|]. intros s'' r HI'' H1 H2.
    apply wp_ret, HQ; [done|cbn; by f_equal|done].
Qed.
Lemma carried_indices_length l : length (carried_indices l) = mutables l.
Proof.
  unfold carried_indices, enumerate, mutables.
  assert (H : forall k, length (omap (fun '(i, b) => if bd_mutable b then Some i else None) (imap (fun i b => (k + i, b)) l))
    = length (filter (fun b => bd_mutable b = true) l)).
  { induction l as [|b l IH]; intros k; [done|]. rewrite filter_cons, imap_cons. cbn [omap list_omap].
    assert (E : imap ((fun i b => (k + i, b)) ∘ S) l = imap (fun i b => (S k + i, b)) l).
    { apply imap_ext. intros. cbn. f_equal. lia. }
    fold (omap (M := list) (A := nat * Binding) (B := nat)). rewrite E.
    destruct (bd_mutable b); [rewrite decide_True by done; cbn [length]; f_equal|rewrite decide_False by done]; apply IH. }
  apply (H 0).
Qed.
Lemma carried_indices_lt l i : i ∈ carried_indices l -> i < length l.
Proof.
  unfold carried_indices, enumerate. intros ([j b] & Hin & E)%list_elem_of_omap. destruct (bd_mutable b); [|done].
  injection E as <-. apply list_elem_of_lookup in Hin as [k Hk]. rewrite list_lookup_imap in Hk.
  destruct (l !! k) eqn:El; [|done]. injection Hk as <- _. by eapply lookup_lt_Some.
Qed.

(** ** Statements *)

(** Control goes on with at least [bound] bindings, or does not go on. *)
Definition arrives (room : list (nat * nat)) (bound : nat) (s : LS) (open : bool) : Prop := LI room (if open then bound else 0) s.
Definition opens (m : SM LS bool bool) : Prop := forall room bound s, LI room bound s -> wp m s (arrives room bound) (arrives room bound).

Lemma stopped room room' bound bound' s : LI room bound s -> room' ⊆ room -> arrives room' bound' s false.
Proof. intros HI Hs. eapply lowering_weaken; [exact HI|done|lia]. Qed.
Lemma arrives_weaken room room' bound bound' s open : arrives room bound s open -> room' ⊆ room -> bound' <= bound -> arrives room' bound' s open.
Proof. intros HI Hs Hle. eapply lowering_weaken; [exact HI|done|by destruct open]. Qed.
Lemma opens_keeps m : (forall room bound, keeps (LI room bound) m) -> opens m.
Proof.
  intros Hm room bound s HI. assert (H : forall s' open, LI room bound s' -> arrives room bound s' open).
  { intros s' [] HI'; [done|by eapply stopped]. }
  eapply wp_mono; [by apply Hm|auto..].
Qed.
Lemma opens_invoke m : opens m -> opens (invoke m).
Proof. intros Hm room bound s HI. apply wp_invoke. by apply Hm. Qed.
(** A condition, an initializer or a returned value *)
Lemma wp_root {A} root (f : option TypedValue -> SM LS bool A) room bound s Q L :
  root ∈ (fb_statements fbody ≫= roots_of) -> LI room bound s -> (forall s' v, LI room bound s' -> wp (f v) s' Q L) ->
  wp (v ← lower_root fbody callables modules offsets caller root; f v) s Q L.
Proof. intros Hr HI HQ. apply wp_bind. eapply wp_keeps_invoke; [by apply (keeps_root room bound)|done|done]. Qed.
Lemma wp_condition_span {A} root (f : Span -> SM LS bool A) s Q L :
  root ∈ (fb_statements fbody ≫= roots_of) -> (forall span, wp (f span) s Q L) -> wp (span ← condition_span fbody root; f span) s Q L.
Proof.
  intros Hr HQ. unfold condition_span. apply wp_bind, wp_bind, wp_expect; [|intros e _; by apply wp_ret].
  pose proof (wb_roots _ wf) as Hb. rewrite Forall_forall in Hb. by apply lookup_lt_is_Some, Hb.
Qed.

Section statements.
Context (lower_block : SBlockId -> N -> SM LS bool bool) (depth : N) (result : Ty).

Lemma wp_branch target incoming block room bound s (Q : LS -> option (nat * list Binding) -> Prop) L :
  (forall id, block = Some id -> opens (lower_block id (deeper depth))) -> LI room bound s -> (target, 0) ∈ room ->
  (forall s' i bs, LI ((i, 0) :: room) 0 s' -> length incoming <= length bs -> Q s' (Some (i, bs))) ->
  (forall s', LI room 0 s' -> Q s' None) -> wp (lower_branch lower_block depth target incoming block) s Q L.
Proof.
  intros Hb HI Ht HQ HN. unfold lower_branch. apply wp_bind, wp_modify, wp_bind, wp_modify, wp_bind.
  assert (HI' : LI room (length incoming) (set_bindings incoming (set_current target s))).
  { eapply lowering_bindings. by eapply lowering_current. }
  apply (wp_post _ _ (arrives room (length incoming))).
  - destruct block as [id|]; [|by apply wp_ret]. apply wp_invoke. by apply Hb.
  - intros s' open Ha. apply wp_bind, wp_gets, wp_bind, wp_gets. destruct open; apply wp_ret; [|by apply HN].
    apply HQ; [|apply Ha]. apply lowering_here. eapply lowering_weaken; [exact Ha|done|lia].
Qed.
Lemma wp_join span incoming tblock tb fblock fb room bound s :
  LI room bound s -> (tblock, 0) ∈ room -> (fblock, 0) ∈ room -> length incoming <= length tb -> length incoming <= length fb ->
  wp (lower_join fbody span incoming tblock tb fblock fb) s (arrives room (length incoming)) (arrives room (length incoming)).
Proof.
  intros HI Ht Hf Hlt Hlf. unfold lower_join. apply wp_bind, wp_carried; [done..|]. intros n.
  apply wp_bind, (wp_merge_limit room bound); [done|]. intros s1 [] HI1; cbn [negb]; [|apply wp_leave; by eapply stopped].
  apply wp_bind, (wp_fresh_block room bound); [done| |intros s' HI'; by eapply stopped]. intros s2 join HI2.
  apply wp_bind, (wp_merge _ _ _ _ _ room bound 0); [done..| |intros s' HI'; by eapply stopped].
  intros s3 m ta fa HI3 Hm Hl. cbn [Nat.add] in HI3. set (room' := (join, length ta) :: room) in *.
  assert (Hsub : room ⊆ room') by set_solver.
  assert (Hfit : forall s args, LI room' bound s -> length args = length ta -> Forall (fits (ls_blocks s)) [(index_u32 join, args)]).
  { intros s' args HI' E. constructor; [|done]. apply (lowering_fits room' bound join (length ta)); [done|left|lia]. }
  apply wp_bind, wp_modify, wp_bind. eapply (wp_terminate_or_leave room' bound).
  { eapply lowering_current; [|exact HI3]. apply Hsub, Ht. } { by apply (Hfit s3). } 2:{ intros s' HI'. by eapply stopped. }
  intros s4 HI4. apply wp_bind, wp_modify, wp_bind. eapply (wp_terminate_or_leave room' bound).
  { eapply lowering_current; [|exact HI4]. apply Hsub, Hf. }
  { by apply (Hfit s4). } 2:{ intros s' HI'. by eapply stopped. }
  intros s5 HI5. apply wp_bind, wp_modify, wp_bind, wp_modify, wp_ret. unfold arrives.
  eapply lowering_weaken; [|exact Hsub|by rewrite <- Hm]. eapply lowering_bindings, lowering_current; [left|exact HI5].
Qed.
Lemma wp_arms incoming tt_ then_block ft else_block span room bound s :
  opens (lower_block then_block (deeper depth)) -> (forall id, else_block = Some id -> opens (lower_block id (deeper depth))) ->
  LI room bound s -> (tt_, 0) ∈ room -> (ft, 0) ∈ room -> bound <= length incoming ->
  wp (lower_arms fbody lower_block depth incoming tt_ then_block ft else_block span) s (arrives room bound) (arrives room bound).
Proof.
  intros Hthen Helse HI Ht Hf Hle. unfold lower_arms.
  assert (Hone : forall room' i bs s', LI ((i, 0) :: room') 0 s' -> room ⊆ room' -> length incoming <= length bs ->
    arrives room bound (set_bindings bs (set_current i s')) true).
  { intros room' i bs s' HI' Hs Hl. eapply lowering_weaken; [eapply lowering_bindings, lowering_current; [left|exact HI']|set_solver|lia]. }
  apply wp_bind, (wp_branch _ _ _ room bound); [by intros id [= <-]|done|done|..].
  - intros s1 i1 b1 HI1 Hl1. apply wp_bind, (wp_branch _ _ _ ((i1, 0) :: room) 0); [done|done|by right|..].
    + intros s2 i2 b2 HI2 Hl2. eapply wp_mono; [apply (wp_join span incoming i1 b1 i2 b2 ((i2, 0) :: (i1, 0) :: room) 0); [exact HI2|right; left|left|done|done]|..].
      * intros s' o HI'. eapply arrives_weaken; [exact HI'|set_solver|done].
      * intros s' o HI'. eapply arrives_weaken; [exact HI'|set_solver|done].
    + intros s2 HI2. apply wp_bind, wp_modify, wp_bind, wp_modify, wp_ret. by eapply Hone.
  - intros s1 HI1. apply wp_bind, (wp_branch _ _ _ room 0); [done..| |].
    + intros s2 i2 b2 HI2 Hl2. apply wp_bind, wp_modify, wp_bind, wp_modify, wp_ret. by eapply Hone.
    + intros s2 HI2. by apply wp_ret.
Qed.
(** The condition, its type and the state after it *)
Lemma wp_condition {A} (v : option TypedValue) where_ message guidance (f : TypedValue -> SM LS bool A) room bound s Q :
  LI room bound s -> (forall s' c, LI room bound s' -> wp (f c) s' Q (arrives room bound)) ->
  wp (condition ← or_leave v false;
      swhen (negb (bool_decide (tv_ty condition = Bool))) (report_at "ZRYNA-M2014" where_ message guidance);;
      check false;; f condition) s Q (arrives room bound).
Proof.
  intros HI HQ. apply wp_bind, wp_or_leave; [intros c _|intros _; by eapply stopped].
  apply wp_bind, (wp_post _ _ (fun s' _ => LI room bound s')).
  { apply wp_when; [intros _; apply wp_report_at; intros f'; by apply lowering_errors|done]. }
  intros s1 _ HI1. apply wp_bind, wp_check; [intros _; by apply HQ|intros _; by eapply stopped].
Qed.
Lemma opens_if condition then_block else_block span :
  condition ∈ (fb_statements fbody ≫= roots_of) -> opens (lower_block then_block (deeper depth)) ->
  (forall id, else_block = Some id -> opens (lower_block id (deeper depth))) ->
  opens (lower_if fbody callables modules offsets caller lower_block depth condition then_block else_block span).
Proof.
  intros Hc Hthen Helse room bound s HI. unfold lower_if. apply wp_condition_span; [done|]. intros where_.
  apply (wp_root _ _ room bound); [done..|]. intros s1 v HI1. apply (wp_condition _ _ _ _ _ room bound); [done|]. intros s2 c HI2.
  apply wp_bind, wp_gets, wp_bind, (wp_fresh_block room bound); [done| |intros s' HI'; by eapply stopped]. intros s3 j1 HI3.
  apply wp_bind, (wp_fresh_block ((j1, 0) :: room) bound); [done| |intros s' HI'; eapply stopped; [exact HI'|set_solver]].
  intros s4 j2 HI4. apply wp_bind, (wp_terminate_or_leave ((j2, 0) :: (j1, 0) :: room) bound); [done|..].
  - constructor; [|constructor; [|done]]; (eapply lowering_fits; [exact HI4| |done]); [right; left|left].
  - intros s5 HI5. eapply wp_mono; [apply (wp_arms _ _ _ _ _ _ ((j2, 0) :: (j1, 0) :: room) bound); [done..|exact HI5|right; left|left|]|..].
    + apply (lg_bindings _ _ _ _ _ HI2).
    + intros s' o HI'. eapply arrives_weaken; [exact HI'|set_solver|done].
    + intros s' o HI'. eapply arrives_weaken; [exact HI'|set_solver|done].
  - intros s' HI'. eapply stopped; [exact HI'|set_solver].
Qed.

Lemma wp_iteration header incoming in_header condition body_block span room bound s :
  opens (lower_block body_block (deeper depth)) -> LI room bound s -> (header, mutables incoming) ∈ room ->
  length in_header = length incoming -> bound <= length incoming ->
  wp (lower_iteration fbody lower_block depth header incoming in_header condition body_block span) s (arrives room bound) (arrives room bound).
Proof.
  intros Hb HI Hh Hl Hle. unfold lower_iteration.
  apply wp_bind, (wp_fresh_block room bound); [done| |intros s' HI'; by eapply stopped]. intros s1 body_ HI1.
  apply wp_bind, (wp_fresh_block ((body_, 0) :: room) bound); [done| |intros s' HI'; eapply stopped; [exact HI'|set_solver]].
  intros s2 exit HI2. set (room' := (exit, 0) :: (body_, 0) :: room) in *. assert (Hsub : room ⊆ room') by set_solver.
  assert (Hleft : forall b s', LI room' b s' -> arrives room bound s' false) by (intros b s' HI'; by eapply stopped).
  assert (Hbody : (body_, 0) ∈ room') by (right; left). assert (Hexit : (exit, 0) ∈ room') by left.
  assert (Hhead : (header, mutables incoming) ∈ room') by (apply Hsub, Hh). clearbody room'.
  assert (HI3 : LI room' bound (set_current header s2)) by by eapply lowering_current.
  apply wp_bind, wp_modify, wp_bind, (wp_terminate_or_leave room' bound); [done| | |by intros s' ?; eapply Hleft].
  { constructor; [|constructor; [|done]]; by eapply lowering_fits. }
  intros s3 HI3'. apply wp_bind, wp_modify, wp_bind, wp_modify, wp_bind.
  apply (wp_post _ _ (arrives room' (length in_header))).
  { apply wp_invoke. apply (Hb room' (length in_header)).
    eapply lowering_bindings. by eapply lowering_current. }
  intros s4 open HI4. apply wp_bind, (wp_post _ _ (fun s' _ => LI room' 0 s')).
  - destruct open; [|by apply wp_ret]. apply wp_bind, wp_gets, wp_bind, wp_expect.
    + apply mapM_is_Some_2, Forall_forall. intros i Hi%carried_indices_lt. pose proof (lg_bindings _ _ _ _ _ HI4) as Hbs.
      destruct (lookup_lt_is_Some_2 (ls_bindings s4) i) as [bd E]; [lia|]. cbn. rewrite E. by eexists.
    + intros backedge E. apply mapM_Some in E. apply Forall2_length in E. rewrite carried_indices_length in E.
      eapply (wp_terminate_or_leave room' (length in_header)); [exact HI4| | |by intros s' ?; eapply Hleft].
      * constructor; [|done]. eapply lowering_fits; [exact HI4|exact Hhead|lia].
      * intros s' HI'. eapply lowering_weaken; [exact HI'|done|lia].
  - intros s5 _ HI5. apply wp_bind, wp_modify, wp_bind, wp_modify, wp_ret. unfold arrives.
    eapply lowering_weaken; [|exact Hsub|rewrite <- Hl in Hle; exact Hle]. eapply lowering_bindings. by eapply lowering_current.
Qed.
Lemma opens_while condition body_block span :
  condition ∈ (fb_statements fbody ≫= roots_of) -> opens (lower_block body_block (deeper depth)) ->
  opens (lower_while fbody callables modules offsets caller lower_block depth condition body_block span).
Proof.
  intros Hc Hb room bound s HI. unfold lower_while. apply wp_condition_span; [done|]. intros where_.
  apply wp_bind, wp_gets, wp_bind, wp_gets. set (pre := ls_current s). pose proof (lg_bindings _ _ _ _ _ HI) as Hle.
  assert (HI0 : LI ((pre, 0) :: room) bound s) by by apply lowering_here.
  assert (Hleft : forall room' b s', LI (room' ++ (pre, 0) :: room) b s' -> arrives room bound s' false).
  { intros room' b s' HI'. eapply stopped; [exact HI'|set_solver]. }
  generalize (ls_bindings s) Hle. intros incoming Hle'. clearbody pre.
  apply wp_bind, (wp_merge_limit ((pre, 0) :: room) bound); [done|]. intros s1 [] HI1; cbn [negb]; [|by apply wp_leave, (Hleft [] bound)].
  apply wp_bind, (wp_fresh_block ((pre, 0) :: room) bound); [done| |by intros s' ?; apply (Hleft [] bound)]. intros s2 header HI2.
  apply wp_bind, (wp_header _ _ ((pre, 0) :: room) bound 0); [done| |by intros s' ?; apply (Hleft [] bound)].
  intros s3 [in_header entry] HI3 H1 H2. cbn in H1, H2. cbn [Nat.add] in HI3. set (room' := (header, mutables incoming) :: (pre, 0) :: room) in *.
  assert (Hl' : forall b s', LI room' b s' -> arrives room bound s' false) by (intros b s'; apply (Hleft [_])).
  assert (Hpre : (pre, 0) ∈ room') by (right; left). assert (Hhead : (header, mutables incoming) ∈ room') by left.
  assert (Hsub : room ⊆ room') by set_solver. clearbody room'.
  apply wp_bind, wp_modify, wp_bind, (wp_terminate_or_leave room' bound); [by eapply lowering_current| | |by intros s' ?; eapply Hl'].
  { constructor; [|done]. apply (lowering_fits room' bound header (mutables incoming) entry s3); [done|done|lia]. }
  intros s4 HI4. apply wp_bind, wp_modify, wp_bind, wp_modify. apply (wp_root _ _ room' (length in_header)); [done|..].
  { eapply lowering_bindings. by eapply lowering_current. }
  intros s5 v HI5. eapply wp_mono; [apply (wp_condition _ _ _ _ _ room' (length in_header)); [done|]|..].
  - intros s6 c HI6. apply (wp_iteration _ _ _ _ _ _ room' (length in_header)); [done|exact HI6|done|done|lia].
  - intros s' o HI'. eapply arrives_weaken; [exact HI'|done|lia].
  - intros s' o HI'. eapply arrives_weaken; [exact HI'|done|lia].
Qed.

Lemma keeps_bindings {R A} room bound (f : list Binding -> SM LS R A) :
  (forall l, bound <= length l -> keeps (LI room bound) (f l)) -> keeps (LI room bound) (l ← sgets ls_bindings; f l).
Proof. intros Hf s HI. apply wp_bind, wp_gets. apply Hf; [|done]. apply (lg_bindings _ _ _ _ _ HI). Qed.
Lemma keeps_set_bindings {R} room bound l : bound <= length l -> keeps (R := R) (LI room bound) (smodify (set_bindings l)).
Proof. intros Hl. apply keeps_modify. intros s HI. eapply lowering_weaken; [eapply lowering_bindings, HI|done|done]. Qed.
Lemma opens_local mutable name type_syntax initializer :
  initializer ∈ (fb_statements fbody ≫= roots_of) ->
  opens (lower_local fbody callables modules offsets caller depth mutable name type_syntax initializer).
Proof.
  intros Hi. apply opens_keeps. intros room bound s HI. unfold lower_local. apply (wp_root _ _ room bound); [done..|].
  intros s1 v HI1. revert s1 HI1. apply keeps_bind; [keep|]. intros _. apply keeps_bind; [unfold lower_type; keep|]. intros ty.
  apply keeps_bind; [keep|]. intros _. apply keeps_bindings. intros bindings Hle. do 2 (apply keeps_bind; [keep|]; intros _).
  apply keeps_bind; [|keep]. destruct v as [v|], ty as [ty|]; [|keep..]. destruct (bool_decide _); [keep|].
  apply keeps_when, keeps_set_bindings. rewrite length_app. lia.
Qed.
Lemma opens_assignment target value :
  value ∈ (fb_statements fbody ≫= roots_of) -> opens (lower_assignment fbody callables modules offsets caller target value).
Proof.
  intros Hi. apply opens_keeps. intros room bound s HI. unfold lower_assignment. apply (wp_root _ _ room bound); [done..|].
  intros s1 v HI1. revert s1 HI1. apply keeps_bind; [keep|]. intros _. apply keeps_bindings. intros bindings Hle.
  apply keeps_bind; [|keep]. destruct (rfind_binding _ _ _) as [[i b]|]; [|keep]. destruct (negb _); [keep|].
  destruct v as [v|]; [|keep]. destruct (bool_decide _); [|keep]. apply keeps_set_bindings. by rewrite length_insert.
Qed.
Lemma opens_return span value :
  value ∈ (fb_statements fbody ≫= roots_of) -> opens (lower_return fbody callables modules offsets caller result span value).
Proof.
  intros Hi room bound s HI. unfold lower_return. apply (wp_root _ _ room bound); [done..|]. intros s1 v HI1.
  apply wp_bind, wp_check; [intros _|intros _; by eapply stopped]. destruct v as [v|]; [|by apply wp_ret].
  destruct (bool_decide _); [|apply wp_bind, wp_report_at; intros f; by apply wp_ret, lowering_errors].
  apply wp_bind, (wp_terminate_or_leave room bound); [done|constructor|..]; intros s2 HI2; by eapply stopped.
Qed.

(** A statement of the body, and the blocks it opens *)
Lemma opens_statement t :
  t ∈ fb_statements fbody -> (forall id, id ∈ opened_by t -> opens (lower_block id (deeper depth))) ->
  opens (lower_statement fbody callables modules offsets caller lower_block depth result t).
Proof.
  intros Ht Hb. assert (Hr : forall root, root ∈ roots_of t -> root ∈ (fb_statements fbody ≫= roots_of)).
  { intros root Hin. apply list_elem_of_bind. by exists t. }
  unfold lower_statement, roots_of, opened_by in *. destruct (ss_kind t); cbn in *.
  - apply opens_local, Hr. left.
  - apply opens_assignment, Hr. left.
  - apply opens_return, Hr. left.
  - apply opens_invoke, Hb. left.
  - apply opens_invoke, opens_if; [apply Hr; left|apply Hb; left|]. intros id E. apply Hb. destruct else_clause; [|done].
    injection E as <-. right. left.
  - apply opens_invoke, opens_while; [apply Hr; left|apply Hb; left].
Qed.
Lemma opens_statements statements open :
  Forall (fun id => N.to_nat id < length (fb_statements fbody)) statements ->
  (forall sid t id, sid ∈ statements -> get (fb_statements fbody) sid = Some t -> id ∈ opened_by t -> opens (lower_block id (deeper depth))) ->
  forall room bound s, arrives room bound s open ->
  wp (lower_statements fbody callables modules offsets caller lower_block depth result statements open) s (arrives room bound) (arrives room bound).
Proof.
  intros Hs Hb room bound. revert open. induction Hs as [|sid statements Hsid Hs IH]; intros open s HI; cbn [lower_statements]; [by apply wp_ret|].
  apply wp_bind, wp_check; [intros _|intros _; by eapply stopped]. apply wp_bind, wp_expect; [by apply lookup_lt_is_Some|]. intros t Ht.
  apply wp_bind, (wp_post _ _ (arrives room bound)).
  - destruct open.
    + apply opens_statement; [by eapply list_elem_of_lookup_2| |done]. intros id Hid. eapply Hb; [left|done|done].
    + apply wp_bind, wp_report_at. intros f. apply wp_ret. by apply lowering_errors.
  - intros s' open' HI'. apply IH; [|done]. intros sid' t' id Hin. apply Hb. by right.
Qed.
End statements.

(** ** Blocks *)

(** A block opens only later blocks, so the rest of the arena is fuel enough. *)
Lemma opens_block fuel result id depth :
  N.to_nat id < length (fb_blocks fbody) -> length (fb_blocks fbody) - N.to_nat id < fuel ->
  opens (lower_syntax_block fbody callables modules offsets caller fuel result id depth).
Proof.
  revert id depth. induction fuel as [|fuel IH]; intros id depth Hid Hf; [lia|]. intros room bound s HI. cbn [lower_syntax_block].
  apply wp_bind, wp_gets. pose proof (lg_bindings _ _ _ _ _ HI) as Hle. apply wp_bind, wp_expect; [by apply lookup_lt_is_Some|]. intros B HB.
  assert (Hin : B ∈ fb_blocks fbody) by by eapply list_elem_of_lookup_2. set (marker := length (ls_bindings s)) in *.
  apply wp_bind. eapply wp_mono; [refine (opens_statements _ _ _ _ true _ _ room marker _ _)|..].
  - pose proof (wb_statements _ wf) as Hs. rewrite Forall_forall in Hs. apply Forall_forall. intros sid Hsid. apply Hs.
    apply list_elem_of_bind. by exists B.
  - intros sid t c [k Hk]%list_elem_of_lookup Ht Hc.
    assert (Hlt : N.to_nat c < length (fb_blocks fbody)).
    { pose proof (wb_opened _ wf) as Ho. rewrite Forall_forall in Ho. apply Ho, list_elem_of_bind. exists t. split; [done|].
      by eapply list_elem_of_lookup_2. }
    assert (N.to_nat id < N.to_nat c) by (apply (wb_order _ wf (N.to_nat id) Hid B k sid t c); [done|lia|done..]). apply IH; [done|lia].
  - destruct HI as []. by split.
  - intros s1 [] HI1; apply wp_bind; cbn [swhen]; [apply wp_modify, wp_ret|by apply wp_ret, wp_ret].
    eapply lowering_weaken; [eapply lowering_bindings, HI1|done|]. rewrite length_take. pose proof (lg_bindings _ _ _ _ _ HI1). lia.
  - intros s1 o HI1. by eapply arrives_weaken.
Qed.
End function.
End invariant.

(** ** Numbering *)

Lemma define_ids_total n ds : Forall (fun id => N.to_nat id < length n.1) (vd_id <$> ds) ->
  exists ds' n', define_ids n ds = Some (ds', n') /\ length n'.1 = length n.1.
Proof.
  revert n. induction ds as [|d ds IH]; intros n H; cbn in *; [by eexists _, _|]. apply Forall_cons in H as [Hd H].
  unfold define_id. destruct (lookup_lt_is_Some_2 n.1 (N.to_nat (vd_id d)) Hd) as [o E]. unfold get. rewrite E. cbn.
  edestruct (IH (<[N.to_nat (vd_id d) := Some n.2]> n.1, bump n.2)) as (ds' & n' & -> & Hl).
  { eapply Forall_impl; [exact H|]. intros x. cbn. by rewrite length_insert. }
  cbn in *. eexists _, _. split; [done|]. by rewrite Hl, length_insert.
Qed.
Lemma define_results_total n is_ : Forall (fun id => N.to_nat id < length n.1) ((fun i => vd_id (in_result i)) <$> is_) ->
  exists is' n', define_results n is_ = Some (is', n') /\ length n'.1 = length n.1.
Proof.
  revert n. induction is_ as [|i is_ IH]; intros n H; cbn in *; [by eexists _, _|]. apply Forall_cons in H as [Hd H].
  unfold define_id. destruct (lookup_lt_is_Some_2 n.1 (N.to_nat (vd_id (in_result i))) Hd) as [o E]. unfold get. rewrite E. cbn.
  edestruct (IH (<[N.to_nat (vd_id (in_result i)) := Some n.2]> n.1, bump n.2)) as (is' & n' & -> & Hl).
  { eapply Forall_impl; [exact H|]. intros x. cbn. by rewrite length_insert. }
  cbn in *. eexists _, _. split; [done|]. by rewrite Hl, length_insert.
Qed.
Lemma define_blocks_total n blocks : Forall (fun id => N.to_nat id < length n.1) (blocks ≫= block_ids) ->
  exists blocks' n', define_blocks n blocks = Some (blocks', n') /\ length n'.1 = length n.1.
Proof.
  revert n. induction blocks as [|B blocks IH]; intros n H; cbn [define_blocks]; [by eexists _, _|].
  cbn in H. fold block_ids in H. unfold block_ids in H at 1. apply Forall_app in H as [[H1 H2]%Forall_app H].
  destruct (define_ids_total n _ H1) as (ds & n1 & -> & Hl1). cbn. rewrite <- Hl1 in H2, H.
  destruct (define_results_total n1 _ H2) as (is_ & n2 & -> & Hl2). cbn. rewrite <- Hl2 in H.
  destruct (IH n2 H) as (bs & n3 & -> & Hl3). cbn. eexists _, _. split; [done|]. lia.
Qed.

Section numbering.
Context {S : Type} `{HasErrors S} (I : S -> Prop) (errors_free : forall f s, I s -> I (map_errors f s)).
Hint Resolve errors_free : keeps.
Lemma keeps_rewrite_instructions map is_ : keeps I (rewrite_instructions map is_).
Proof. induction is_; cbn; keep. Qed.
Lemma keeps_rewrite_terminators map ts : keeps I (rewrite_terminators map ts).
Proof. destruct ts; cbn; keep. Qed.
Hint Resolve keeps_rewrite_instructions keeps_rewrite_terminators : keeps.
Lemma keeps_rewrite_blocks map blocks : keeps I (rewrite_blocks map blocks).
Proof. induction blocks; cbn; keep. Qed.
Hint Resolve keeps_rewrite_blocks : keeps.
Lemma keeps_canonicalize ps blocks : keeps I (canonicalize_values ps blocks).
Proof.
  unfold canonicalize_values. set (ids := (vd_id <$> ps) ++ (blocks ≫= block_ids)). destruct (_ <? _)%N; [keep|].
  assert (Hb : Forall (fun id => N.to_nat id < id_bound ids) ids) by (apply Forall_forall; intros id; apply id_bound_spec).
  set (n0 := (replicate (id_bound ids) None, 0%N) : Numbering).
  assert (Hn : length n0.1 = id_bound ids) by (cbn; by rewrite length_replicate).
  rewrite <- Hn in Hb. apply Forall_app in Hb as [Hps Hbs]. destruct (define_ids_total n0 _ Hps) as (ds & n1 & E1 & Hl1).
  apply (keeps_some _ _ (ds, n1) _ E1). rewrite <- Hl1 in Hbs. destruct (define_blocks_total n1 _ Hbs) as (bs & n2 & E2 & Hl2).
  apply (keeps_some _ _ (bs, n2) _ E2). keep.
Qed.
End numbering.

(** ** Functions *)

Section functions.
Context (count : nat) (modules : list ModuleSymbols) (offsets : list nat).
Notation known := (callee_known count modules offsets).
Context (syntax : FunctionSyntax) (symbol : FunctionSymbol) (callables : gmap string FunctionId) (entry_module : bool).
Context (wf : well_formed_body (fs_body syntax)) (own : known (fy_id symbol)).
Context (callees : forall name fid, callables !! name = Some fid -> known fid).

Definition edges_known (s : PState) : Prop := Forall (call_edge_in count) (pg_call_edges s).

Lemma keeps_function_body caller ps result : caller < count ->
  keeps (lowering (length (fb_expressions (fs_body syntax))) count [] 0)
    (lower_function_body syntax symbol callables modules offsets entry_module caller ps result).
Proof.
  intros Hc. unfold lower_function_body. set (LI := lowering _ _ _ _).
  assert (errors_free : forall f s, LI s -> LI (map_errors f s)) by (intros f s; apply lowering_errors).
  apply keeps_bind.
  { intros s HI. apply wp_invoke. eapply wp_mono; [eapply (opens_block _ count _ wf eq_refl); [exact callees|exact Hc|..|exact HI]|..].
    - rewrite (wb_root _ wf). apply wf.
    - rewrite (wb_root _ wf). unfold block_fuel. lia.
    - by intros s' [].
    - by intros s' []. }
  intros open. apply keeps_bind; [keep|]. intros _. apply keeps_bind; [keep|]. intros _. apply keeps_bind; [keep|].
  intros clean. destruct (negb clean); [keep|]. intros s HI. apply wp_bind, wp_gets, wp_bind, wp_expect; [apply prune_total, HI|].
  intros blocks _. revert s HI. destruct (existsb _ _); [apply keeps_bind; keep|]. apply keeps_bind.
  - intros s HI. apply wp_invoke. pose proof (keeps_canonicalize LI errors_free ps blocks s HI) as Hk. unfold wp in *.
    by destruct (canonicalize_values ps blocks s) as [s' []].
  - keep.
Qed.
Lemma initial_lowering s ps : edges_known s ->
  lowering (length (fb_expressions (fs_body syntax))) count [] 0 (initial_lowerer syntax s ps).
Proof.
  intros He. split; cbn; [by rewrite length_replicate|lia|by intros j p ?%elem_of_nil|lia|exact He| |done].
  intros B e HB Hin. apply list_elem_of_singleton in HB. subst B. by apply elem_of_nil in Hin.
Qed.
Lemma keeps_lower_function {R} : keeps edges_known (lower_function (R := R) syntax symbol callables modules offsets entry_module).
Proof.
  intros s HI. unfold wp, lower_function.
  destruct (parameter_definitions _ _) as [ps|]; [|done]. destruct (sg_result _) as [result|]; [|done].
  destruct own as (module & symbol' & offset & _ & _ & -> & Hlt).
  pose proof (keeps_function_body (offset + N.to_nat (fid_declaration (fy_id symbol))) ps result Hlt _ (initial_lowering s ps HI)) as Hk.
  unfold wp in Hk. destruct (lower_function_body _ _ _ _ _ _ _ _ _ _) as [l [f|f|]]; [apply Hk..|done].
Qed.
End functions.
