(* ===== verification/SemVerdict.v ===== *)
(** * The analysis of a project ends in a verdict

    The searches of the module and call graphs end within their fuel, the symbol
    tables describe the files they come from, and so [lower] never panics on an
    accepted snapshot. *)
From stdpp Require Import base numbers list list_numbers strings gmap.
From S2P Require Import Prelude Source Diagnostics Abi CfgAlgorithms ControlFlow Syntax Snapshot SnapshotArenas.
From S2P Require Import Semantics SemGraphs SemLower SemValues SemProgram SemLogic SemFunction SemTotal.

(** ** Depth-first searches

    The work left: the unvisited nodes with their edges, and the edges the
    entries of the stack have not followed. *)

Section search.
Context (degrees : list nat).
Definition unvisited_work (colors : list nat) : nat :=
  sum_list (zip_with (fun c d => match c with 0 => S d | _ => 0 end) colors degrees).
Definition entry_work (x : nat * nat) : nat := S (default 0 (degrees !! x.1) - x.2).
Definition search_work (colors : list nat) (stack : list (nat * nat)) : nat :=
  unvisited_work colors + sum_list (entry_work <$> stack).

Lemma visit_work colors n d c : colors !! n = Some 0 -> degrees !! n = Some d -> c <> 0 ->
  unvisited_work (<[n := c]> colors) + S d = unvisited_work colors.
Proof.
  unfold unvisited_work. intros Hn Hd Hc. revert n colors Hn Hd. induction degrees as [|d0 ds IH]; intros [|n] [|c0 colors] Hn Hd; try done; cbn in *.
  - injection Hn as ->. injection Hd as ->. destruct c; [done|]. cbn. lia.
  - rewrite <- (IH n colors Hn Hd). symmetry. apply Nat.add_assoc.
Qed.
Lemma leave_work colors n c : c <> 0 -> unvisited_work (<[n := c]> colors) <= unvisited_work colors.
Proof.
  unfold unvisited_work. intros Hc. revert n colors. induction degrees as [|d0 ds IH]; intros [|n] [|c0 colors]; cbn in *; try done.
  - destruct c; [done|]. apply Nat.add_le_mono_r, Nat.le_0_l.
  - apply Nat.add_le_mono_l, IH.
Qed.
Lemma all_work colors : unvisited_work colors <= length degrees + sum_list degrees.
Proof.
  unfold unvisited_work. revert colors. induction degrees as [|d ds IH]; intros [|c colors]; cbn in *; [lia..|].
  specialize (IH colors). destruct c; lia.
Qed.

Lemma search_pop colors n i rest : search_work (<[n := 2]> colors) rest < search_work colors ((n, i) :: rest).
Proof. unfold search_work, entry_work. cbn. pose proof (leave_work colors n 2). lia. Qed.
Lemma search_skip colors n i d rest : degrees !! n = Some d -> i < d ->
  search_work colors ((n, S i) :: rest) < search_work colors ((n, i) :: rest).
Proof. intros Hd Hi. unfold search_work, entry_work. cbn. rewrite Hd. cbn. lia. Qed.
Lemma search_push colors n i d t dt rest : degrees !! n = Some d -> i < d -> colors !! t = Some 0 -> degrees !! t = Some dt ->
  search_work (<[t := 1]> colors) ((t, 0) :: (n, S i) :: rest) < search_work colors ((n, i) :: rest).
Proof.
  intros Hd Hi Ht Hdt. unfold search_work, entry_work. cbn. rewrite Hd, Hdt. cbn. pose proof (visit_work colors t dt 1 Ht Hdt). lia.
Qed.
Lemma search_start colors n d : colors !! n = Some 0 -> degrees !! n = Some d ->
  search_work (<[n := 1]> colors) [(n, 0)] <= length degrees + sum_list degrees.
Proof.
  intros Hn Hd. unfold search_work, entry_work. cbn. rewrite Hd. cbn. pose proof (visit_work colors n d 1 Hn Hd).
  pose proof (all_work colors). lia.
Qed.
(** The entries of a stack are nodes that have been visited up to an edge. *)
Definition entry_ok (x : nat * nat) : Prop := exists d, degrees !! x.1 = Some d /\ x.2 <= d.
End search.

(** ** The module graph *)

Section modules.
Context (modules : list ModuleSymbols).
Notation degrees := ((fun m => length (ms_imports m)) <$> modules).
Context (targets : Forall (fun m => Forall (fun e => ie_target e < length modules) (ms_imports m)) modules).

Lemma module_graph_total fuel state reachable stack (s : SErrors) :
  length state = length modules -> length reachable = length modules -> Forall (entry_ok degrees) stack ->
  search_work degrees state stack < fuel ->
  wp (module_graph_loop fuel modules state reachable stack) s (fun _ r => length r = length modules) (fun _ _ => True).
Proof.
  revert state reachable stack s. induction fuel as [|fuel IH]; intros state reachable stack s Hl Hr Hs Hf; [lia|].
  cbn [module_graph_loop]. destruct stack as [|[m i] rest]; [by apply wp_ret|].
  apply Forall_cons in Hs as [(d & Hd & Hi) Hs]. cbn in Hd, Hi. rewrite list_lookup_fmap in Hd.
  destruct (modules !! m) as [symbols|] eqn:Em; [|done]. cbn in Hd. injection Hd as <-.
  assert (Hdeg : degrees !! m = Some (length (ms_imports symbols))) by by rewrite list_lookup_fmap, Em.
  apply wp_bind, wp_check; [intros _|done]. apply wp_bind, wp_ret. destruct (Nat.eqb_spec i (length (ms_imports symbols))) as [->|Hne].
  - apply IH; [by rewrite length_insert|done|done|]. pose proof (search_pop degrees state m (length (ms_imports symbols)) rest). lia.
  - destruct (lookup_lt_is_Some_2 (ms_imports symbols) i) as [edge He]; [lia|]. rewrite He. apply wp_bind, wp_ret.
    assert (Ht : ie_target edge < length modules).
    { rewrite Forall_lookup in targets. specialize (targets _ _ Em). rewrite Forall_lookup in targets. by eapply targets. }
    destruct (lookup_lt_is_Some_2 state (ie_target edge)) as [c Hc]; [lia|]. rewrite Hc. apply wp_bind, wp_ret.
    destruct (lookup_lt_is_Some_2 modules (ie_target edge) Ht) as [symbols' Et].
    assert (Hdt : degrees !! ie_target edge = Some (length (ms_imports symbols'))) by by rewrite list_lookup_fmap, Et.
    assert (Hstack : Forall (entry_ok degrees) ((m, S i) :: rest)) by (constructor; [eexists; split; [exact Hdeg|cbn; lia]|done]).
    pose proof (search_skip degrees state m i _ rest Hdeg ltac:(lia)).
    destruct c as [|[|c]].
    + apply IH; [by rewrite length_insert..| |].
      * constructor; [|done]. eexists. split; [exact Hdt|cbn; lia].
      * pose proof (search_push degrees state m i _ _ _ rest Hdeg ltac:(lia) Hc Hdt). lia.
    + apply wp_bind, wp_report_at. intros f. apply IH; [done|by rewrite length_insert|done|lia].
    + apply IH; [done|by rewrite length_insert|done|lia].
Qed.
Lemma unreachable_total files index reachable (s : SErrors) :
  index + length reachable <= length files -> wp (report_unreachable files index reachable) s (fun _ _ => True) (fun _ _ => True).
Proof.
  revert index s. induction reachable as [|r reachable IH]; intros index s Hl; cbn [report_unreachable length] in *; [by apply wp_ret|].
  apply wp_bind, wp_check; [intros _|done]. apply wp_bind, (wp_post _ _ (fun _ _ => True)).
  - destruct r; [by apply wp_ret|]. apply wp_bind, wp_expect; [apply lookup_lt_is_Some; lia|]. intros file _. by apply wp_modify.
  - intros s' _ _. apply IH. lia.
Qed.
Lemma verify_module_graph_total snapshot entry (s : SErrors) : length modules = length (sn_files snapshot) ->
  wp (verify_module_graph snapshot entry modules) s (fun _ _ => True) (fun _ _ => True).
Proof.
  intros Hl. unfold verify_module_graph. destruct (Nat.ltb_spec (N.to_nat (file_index entry)) (length modules)) as [He|]; [|by apply wp_modify].
  cbn [negb]. destruct (lookup_lt_is_Some_2 modules _ He) as [symbols Em].
  assert (Hdeg : degrees !! N.to_nat (file_index entry) = Some (length (ms_imports symbols))) by by rewrite list_lookup_fmap, Em.
  apply wp_bind. eapply wp_post; [apply module_graph_total|].
  - by rewrite length_insert, length_replicate.
  - by rewrite length_insert, length_replicate.
  - constructor; [|done]. eexists. split; [exact Hdeg|cbn; lia].
  - unfold module_graph_fuel. apply Nat.lt_succ_r. etrans; [eapply search_start; [by apply lookup_replicate_2|exact Hdeg]|].
    by rewrite length_fmap.
  - intros s' r Hr. cbn beta in Hr. apply unreachable_total. lia.
Qed.
End modules.

(** ** The call graph *)

Section calls.
Context (count : nat).

Definition row_targets (row : list (nat * Span)) : list nat := row.*1.
(** Rows with targets inside the graph *)
Definition closed (adjacency : list (list (nat * Span))) : Prop :=
  length adjacency = count /\ Forall (Forall (fun t => t < count)) (row_targets <$> adjacency).
Definition occurrences (t : nat) (l : list nat) : nat := length (filter (fun x => x = t) l).
#[local] Instance occurrences_perm t : Proper ((≡ₚ) ==> eq) (occurrences t).
Proof. intros l k H. unfold occurrences. by rewrite H. Qed.
Lemma occurrences_cons t x l : occurrences t (x :: l) = (if decide (x = t) then 1 else 0) + occurrences t l.
Proof. unfold occurrences. rewrite filter_cons. by destruct (decide _). Qed.

(** The tables describe the edges. *)
Lemma call_tables_total edges : Forall (call_edge_in count) edges ->
  exists adjacency indegree, call_adjacency count edges = Some adjacency /\ call_indegrees count edges = Some indegree /\
    closed adjacency /\ length indegree = count /\
    forall t, t < count -> indegree !! t = Some (occurrences t (adjacency ≫= row_targets)).
Proof.
  unfold call_adjacency, call_indegrees. induction edges as [|e edges IH] using rev_ind; intros He.
  - exists (replicate count []), (replicate count 0). split_and!; [done|done| |by rewrite length_replicate|].
    + split; [by rewrite length_replicate|]. apply Forall_fmap, Forall_forall. intros row Hrow.
      apply elem_of_replicate in Hrow as [-> _]. constructor.
    + intros t Ht. rewrite lookup_replicate_2 by done. f_equal. symmetry. clear. induction count; [done|]. exact IHn.
  - apply Forall_app in He as [He [[Hcaller Hcallee] _]%Forall_cons].
    destruct (IH He) as (adjacency & indegree & E1 & E2 & [Hl Hc] & Hi & Ho). rewrite !foldl_app. cbn. rewrite E1, E2. cbn.
    destruct (lookup_lt_is_Some_2 adjacency (ce_caller e)) as [row Hrow]; [lia|]. rewrite Hrow, (Ho _ Hcallee). cbn.
    eexists _, _. split_and!; [done|done| |by rewrite length_insert|].
    + split; [by rewrite length_insert|]. rewrite list_fmap_insert. apply Forall_insert; [done|]. unfold row_targets. rewrite fmap_app.
      apply Forall_app. split; [|by repeat constructor]. rewrite Forall_fmap, Forall_lookup in Hc. by apply (Hc (ce_caller e)).
    + intros t Ht.
      rewrite (bind_insert_perm row_targets adjacency _ row _ [ce_callee e] Hrow);
        [|unfold row_targets; rewrite fmap_app; cbn; solve_Permutation].
      cbn [app]. rewrite occurrences_cons. destruct (decide (ce_callee e = t)) as [<-|Hne].
      * by rewrite list_lookup_insert_eq by lia.
      * rewrite list_lookup_insert_ne by done. by apply Ho.
Qed.

Section graph.
Context (adjacency : list (list (nat * Span))) (good : closed adjacency).
Notation degrees := (length <$> adjacency).

Lemma row_lookup n row : adjacency !! n = Some row -> Forall (fun t => t < count) (row_targets row).
Proof. intros E. destruct good as [_ Hc]. rewrite Forall_fmap, Forall_lookup in Hc. by apply (Hc n). Qed.
Lemma call_cycle_total fuel colors stack (s : SErrors) :
  length colors = count -> Forall (entry_ok degrees) stack -> search_work degrees colors stack < fuel ->
  wp (call_cycle_loop fuel adjacency colors stack) s (fun _ c => length c = count) (fun _ _ => True).
Proof.
  destruct good as [Hlen _]. revert colors stack s. induction fuel as [|fuel IH]; intros colors stack s Hl Hs Hf; [lia|].
  cbn [call_cycle_loop]. destruct stack as [|[n i] rest]; [by apply wp_ret|].
  apply Forall_cons in Hs as [(d & Hd & Hi) Hs]. cbn in Hd, Hi. rewrite list_lookup_fmap in Hd.
  destruct (adjacency !! n) as [row|] eqn:En; [|done]. cbn in Hd. injection Hd as <-.
  assert (Hdeg : degrees !! n = Some (length row)) by by rewrite list_lookup_fmap, En.
  apply wp_bind, wp_ret. destruct (Nat.eqb_spec i (length row)) as [->|Hne].
  - apply IH; [by rewrite length_insert|done|]. pose proof (search_pop degrees colors n (length row) rest). lia.
  - destruct (lookup_lt_is_Some_2 row i) as [[t span] He]; [lia|]. rewrite He. apply wp_bind, wp_ret.
    assert (Ht : t < count).
    { pose proof (row_lookup _ _ En) as Hr. unfold row_targets in Hr. rewrite Forall_fmap, Forall_lookup in Hr. by apply (Hr _ _ He). }
    destruct (lookup_lt_is_Some_2 colors t) as [c Hc]; [lia|]. rewrite Hc. apply wp_bind, wp_ret.
    destruct (lookup_lt_is_Some_2 adjacency t) as [row' Et]; [lia|].
    assert (Hdt : degrees !! t = Some (length row')) by by rewrite list_lookup_fmap, Et.
    assert (Hstack : Forall (entry_ok degrees) ((n, S i) :: rest)) by (constructor; [eexists; split; [exact Hdeg|cbn; lia]|done]).
    pose proof (search_skip degrees colors n i _ rest Hdeg ltac:(lia)).
    destruct c as [|[|c]].
    + apply IH; [by rewrite length_insert| |].
      * constructor; [|done]. eexists. split; [exact Hdt|cbn; lia].
      * pose proof (search_push degrees colors n i _ _ _ rest Hdeg ltac:(lia) Hc Hdt). lia.
    + apply wp_bind, wp_report_at. intros f. by apply wp_leave.
    + apply IH; [done..|lia].
Qed.
Lemma call_search_total starts colors (s : SErrors) :
  length colors = count -> Forall (fun n => n < count) starts ->
  wp (call_search adjacency starts colors) s (fun _ _ => True) (fun _ _ => True).
Proof.
  intros Hl Hs. revert colors s Hl. induction Hs as [|n starts Hn Hs IH]; intros colors s Hl; cbn [call_search]; [by apply wp_ret|].
  destruct (lookup_lt_is_Some_2 colors n) as [c Hc]; [lia|]. rewrite Hc. apply wp_bind, wp_ret, wp_bind.
  apply (wp_post _ _ (fun _ c => length c = count)); [|intros s' c' Hc'; by apply IH].
  destruct (Nat.eqb_spec c 0) as [->|]; [|by apply wp_ret]. destruct good as [Hlen _].
  destruct (lookup_lt_is_Some_2 adjacency n) as [row En]; [lia|].
  assert (Hdeg : degrees !! n = Some (length row)) by by rewrite list_lookup_fmap, En.
  apply call_cycle_total; [by rewrite length_insert| |].
  - constructor; [|done]. eexists. split; [exact Hdeg|cbn; lia].
  - unfold call_fuel. apply Nat.lt_succ_r. etrans; [by eapply search_start|]. by rewrite length_fmap.
Qed.

(** The calls of the nodes that are not released *)
Definition open_calls (released : list nat) : list nat :=
  seq 0 count ≫= fun n => if decide (n ∈ released) then [] else default [] (row_targets <$> adjacency !! n).
Lemma open_calls_none : open_calls [] = adjacency ≫= row_targets.
Proof.
  unfold open_calls. rewrite (bind_seq _ adjacency). destruct good as [-> _]. induction (seq 0 count) as [|n l IH]; [done|].
  cbn. rewrite IH. f_equal. by destruct (adjacency !! n).
Qed.
Lemma open_calls_release n row released : adjacency !! n = Some row -> n ∉ released ->
  open_calls released ≡ₚ row_targets row ++ open_calls (n :: released).
Proof.
  intros En Hn. unfold open_calls.
  assert (Hlt : n < count) by (destruct good as [<- _]; by eapply lookup_lt_Some).
  replace (seq 0 count) with (seq 0 n ++ n :: seq (S n) (count - S n)).
  2:{ replace count with (n + S (count - S n)) at 2 by lia. rewrite seq_app. done. }
  assert (Hsame : forall l, n ∉ l -> l ≫= (fun k => if decide (k ∈ n :: released) then [] else default [] (row_targets <$> adjacency !! k))
    = l ≫= (fun k => if decide (k ∈ released) then [] else default [] (row_targets <$> adjacency !! k))).
  { induction l as [|k l IH]; intros Hk; [done|]. apply not_elem_of_cons in Hk as [Hk Hl]. cbn. rewrite (IH Hl). f_equal.
    destruct (decide (k ∈ released)) as [Hr|Hr]; [by rewrite decide_True by by right|].
    rewrite decide_False; [done|]. intros [?|?]%elem_of_cons; [by subst|done]. }
  rewrite !bind_app, !bind_cons. rewrite (decide_False (P := n ∈ released)) by done. rewrite (decide_True (P := n ∈ n :: released)) by left.
  rewrite En. cbn [fmap option_fmap option_map default app].
  rewrite !Hsame by (rewrite elem_of_seq; lia). solve_Permutation.
Qed.

(** What is known of the tables when the calls [open] are still counted *)
Record tallied (open : list nat) (seen depth indegree : list nat) : Prop := {
  cn_depth : length depth = count;
  cn_indegree : length indegree = count;
  cn_counts t : t < count -> indegree !! t = Some (occurrences t open);
  cn_nodup : NoDup seen;
  cn_seen : Forall (fun n => n < count /\ occurrences n open = 0) seen }.

Lemma release_total own row open depth indegree queue released (s : SErrors) :
  Forall (fun t => t < count) (row_targets row) -> tallied (row_targets row ++ open) (queue ++ released) depth indegree ->
  wp (release_targets own row depth indegree queue) s
    (fun _ r => let '(depth, indegree, queue) := r in tallied open (queue ++ released) depth indegree) (fun _ _ => True).
Proof.
  revert depth indegree queue s. induction row as [|[t span] row IH]; intros depth indegree queue s Hr [Hd Hi Hc Hn Hs]; cbn [release_targets];
    [by apply wp_ret|].
  cbn in Hr. apply Forall_cons in Hr as [Ht Hr]. destruct (lookup_lt_is_Some_2 depth t) as [before Hb]; [lia|]. rewrite Hb.
  apply wp_bind, wp_ret, wp_bind, wp_when; [intros _; apply wp_bind, wp_report_limit_at; intros f; by apply wp_leave|]. intros _.
  change (row_targets ((t, span) :: row)) with (t :: row_targets row) in *. cbn [app] in *.
  rewrite (Hc t Ht), occurrences_cons, decide_True by done. apply wp_bind, wp_ret. cbn [Nat.add].
  set (d := occurrences t (row_targets row ++ open)).
  assert (Hnew : t ∉ queue ++ released).
  { intros Hin. rewrite Forall_forall in Hs. destruct (Hs _ Hin) as [_ H0]. rewrite occurrences_cons, decide_True in H0 by done. lia. }
  apply IH; [done|].
  assert (Hold : Forall (fun n => n < count /\ occurrences n (row_targets row ++ open) = 0) (queue ++ released)).
  { eapply Forall_impl; [exact Hs|]. intros n [Hlt H0]. rewrite occurrences_cons in H0. split; [done|lia]. }
  split; [by rewrite length_insert|by rewrite length_insert|..].
  - intros t' Ht'. destruct (decide (t' = t)) as [->|Hne]; [by rewrite list_lookup_insert_eq by lia|].
    rewrite list_lookup_insert_ne, (Hc t' Ht'), occurrences_cons, decide_False by done. done.
  - destruct (Nat.eqb_spec d 0); [|done]. rewrite <- (assoc_L (++)). cbn.
    rewrite <- Permutation_middle. by apply NoDup_cons.
  - destruct (Nat.eqb_spec d 0); [|done]. rewrite <- (assoc_L (++)). cbn. rewrite <- Permutation_middle. by constructor.
Qed.
Lemma call_depth_total fuel released depth indegree queue (s : SErrors) :
  tallied (open_calls released) (queue ++ released) depth indegree -> count - length released < fuel ->
  wp (call_depth_loop fuel adjacency depth indegree queue) s (fun _ _ => True) (fun _ _ => True).
Proof.
  revert released depth indegree queue s. induction fuel as [|fuel IH]; intros released depth indegree queue s Hc Hf; [lia|].
  cbn [call_depth_loop]. destruct queue as [|n queue]; [by apply wp_ret|]. pose proof Hc as [Hd Hi Ho Hn Hs].
  cbn in Hn, Hs. pose proof Hs as [[Hlt _] _]%Forall_cons. destruct good as [Hlen _].
  destruct (lookup_lt_is_Some_2 adjacency n) as [row En]; [lia|]. rewrite En. apply wp_bind, wp_ret.
  destruct (lookup_lt_is_Some_2 depth n) as [own Eo]; [lia|]. rewrite Eo. apply wp_bind, wp_ret, wp_bind.
  apply NoDup_cons in Hn as [Hnew Hnd]. assert (Hnr : n ∉ released) by (intros Hin; apply Hnew, elem_of_app; by right).
  assert (Hperm : queue ++ n :: released ≡ₚ n :: queue ++ released) by solve_Permutation.
  eapply wp_post; [apply (release_total _ _ (open_calls (n :: released)) _ _ _ (n :: released)); [by eapply row_lookup|]|].
  - split; [done|done|..].
    + intros t Ht. rewrite (Ho t Ht). f_equal. by rewrite (open_calls_release n row).
    + rewrite Hperm. by apply NoDup_cons.
    + rewrite Hperm. eapply Forall_impl; [exact Hs|]. intros k [Hk H0]. split; [done|]. by rewrite <- (open_calls_release n row released En Hnr).
  - intros s' [[depth' indegree'] queue'] Hc'. apply (IH (n :: released)); [done|].
    assert (Hsub : length (n :: released) <= length (seq 0 count)).
    { apply submseteq_length, NoDup_submseteq.
      - apply NoDup_cons. split; [done|]. by apply NoDup_app in Hnd as (_ & _ & ?).
      - intros k Hk. rewrite Forall_forall in Hs. apply elem_of_seq. split; [lia|]. apply (Hs k).
        apply elem_of_cons in Hk as [->|Hk]; [by left|right; apply elem_of_app; by right]. }
    rewrite length_seq in Hsub. cbn [length] in *. lia.
Qed.
End graph.

Lemma verify_call_graph_total modules edges (s : SErrors) :
  count = sum_list ((fun m => length (ms_functions m)) <$> modules) -> Forall (call_edge_in count) edges ->
  wp (sem_verify_call_graph modules edges) s (fun _ _ => True) (fun _ _ => True).
Proof.
  intros Hcount He. unfold sem_verify_call_graph. rewrite <- Hcount.
  destruct (call_tables_total edges He) as (adjacency & indegree & -> & -> & Hg & Hi & Ho). apply wp_bind, wp_ret, wp_bind, wp_ret.
  assert (depths : forall s1 : SErrors, wp (check tt;; cyclic ← sgets (se_contains "ZRYNA-M2013");
    if (cyclic : bool) then mret tt
    else call_depth_loop (S count) adjacency (replicate count 1) indegree (filter (fun node => indegree !! node = Some 0) (seq 0 count)))
    s1 (fun _ _ => True) (fun _ _ => True)).
  { intros s1. apply wp_bind, wp_check; [intros _|done]. apply wp_bind, wp_gets. destruct (se_contains _ _); [by apply wp_ret|].
    apply (call_depth_total adjacency Hg _ []); [|cbn; lia]. rewrite app_nil_r, open_calls_none by done.
    split; [by rewrite length_replicate|done|done|apply NoDup_filter, NoDup_seq|].
    apply Forall_forall. intros n [Hn Hin%elem_of_seq]%list_elem_of_filter. split; [lia|].
    rewrite (Ho n) in Hn by lia. congruence. }
  apply wp_bind, wp_invoke. eapply wp_mono; [apply (call_search_total adjacency Hg)|..].
  - by rewrite length_replicate.
  - apply Forall_forall. intros n Hn%elem_of_seq. lia.
  - intros s1 _ _. apply (depths s1).
  - intros s1 [] _. apply (depths s1).
Qed.
End calls.

(** ** The symbol tables *)

Section tables.
Context (files : list SourceUnit) (sized : snapshot_sized files).

(** The identity of a declaration of the project *)
Definition declared (fid : FunctionId) : Prop :=
  exists file, get files (fid_module fid) = Some file /\ N.to_nat (fid_declaration fid) < length (su_functions file).
(** The table of the module [m] with its first [n] functions *)
Record tabled (m n : nat) (module : ModuleSymbols) : Prop := {
  ta_functions : length (ms_functions module) = n;
  ta_ids j symbol : ms_functions module !! j = Some symbol -> fy_id symbol = mkFunctionId (index_u32 m) (index_u32 j);
  ta_callables name fid : ms_callables module !! name = Some fid -> declared fid;
  ta_imports : Forall (fun e => ie_target e < length files) (ms_imports module) }.

Lemma declared_id m j file : files !! m = Some file -> j < length (su_functions file) ->
  declared (mkFunctionId (index_u32 m) (index_u32 j)).
Proof.
  intros Hm Hj. exists file. cbn. rewrite (index_u32_lt files m) by (apply sized || by eapply lookup_lt_Some).
  rewrite (index_u32_lt (su_functions file) j) by (done || by eapply sz_functions). unfold get. by rewrite !Nat2N.id.
Qed.

Notation exhausted_at s := (se_exhausted (errors_of s) = true).

Lemma collect_parameters_total stop ps names types (s : SErrors) :
  wp (collect_parameters stop ps names types) s (fun _ _ => True) (fun s _ => exhausted_at s).
Proof.
  revert names types s. induction ps as [|p ps IH]; intros names types s; cbn [collect_parameters]; [by apply wp_ret|].
  apply wp_bind, wp_check; [intros _|done]. apply wp_bind. apply (wp_post _ _ (fun _ _ => True)).
  { unfold lower_type. destruct (ts_kind _); [by apply wp_bind, wp_modify, wp_ret|].
    repeat (destruct (bool_decide _); [by apply wp_ret|]). by apply wp_bind, wp_modify, wp_ret. }
  intros s1 ty _. apply wp_bind, wp_check; [intros _|done]. apply wp_bind, wp_when; [intros _; apply wp_modify, IH|]. intros _. apply IH.
Qed.
Lemma lower_type_total {R} syntax position (s : SErrors) (L : SErrors -> R -> Prop) :
  wp (lower_type syntax position) s (fun _ _ => True) L.
Proof.
  unfold lower_type. destruct (ts_kind _); [by apply wp_bind, wp_modify, wp_ret|].
  repeat (destruct (bool_decide _); [by apply wp_ret|]). by apply wp_bind, wp_modify, wp_ret.
Qed.
Lemma collect_function_total stop m j file f module (s : SErrors) :
  files !! m = Some file -> j < length (su_functions file) -> tabled m j module ->
  wp (collect_function stop m j f module) s (fun _ => tabled m (S j)) (fun s _ => exhausted_at s).
Proof.
  intros Hm Hj [Hl Hi Hc Hp]. unfold collect_function. apply wp_bind, wp_check; [intros _|done].
  apply wp_bind. eapply wp_post; [apply collect_parameters_total|]. intros s1 ps _. apply wp_bind, wp_check; [intros _|done].
  apply wp_bind. eapply wp_post; [apply lower_type_total|]. intros s2 ty _. apply wp_bind, wp_check; [intros _|done].
  apply wp_bind, (wp_post _ _ (fun _ callables => forall name fid, callables !! name = Some fid -> declared fid)).
  { destruct (ms_local_functions module !! _); [by apply wp_bind, wp_modify, wp_ret|]. apply wp_ret. intros name fid.
    rewrite lookup_insert_Some. intros [[_ <-]|[_ E]]; [by eapply declared_id|by eapply Hc]. }
  intros s3 callables Hcall. apply wp_bind, wp_check; [intros _|done]. apply wp_ret.
  split; cbn; [rewrite length_app; cbn; lia| |exact Hcall|exact Hp].
  intros k symbol [Hk|[Hk Hs]]%lookup_app_Some; [by apply Hi|]. apply list_lookup_singleton_Some in Hs as [Hk' <-].
  cbn. do 2 f_equal. lia.
Qed.
Lemma collect_functions_total stop m file done_ todo module (s : SErrors) :
  files !! m = Some file -> su_functions file = done_ ++ todo -> tabled m (length done_) module ->
  wp (collect_functions stop m (length done_) todo module) s (fun _ => tabled m (length (su_functions file))) (fun s _ => exhausted_at s).
Proof.
  intros Hm. revert done_ module s. induction todo as [|f todo IH]; intros done_ module s E Ht; cbn [collect_functions].
  - apply wp_ret. by rewrite E, app_nil_r.
  - apply wp_bind. eapply wp_post; [eapply (collect_function_total _ _ _ file); [done|rewrite E, length_app; cbn; lia|done]|].
    intros s' module' Ht'. replace (S (length done_)) with (length (done_ ++ [f])) in * by (rewrite length_app; cbn; lia).
    apply IH; [by rewrite <- (assoc_L (++))|done].
Qed.
(** The tables of all files, or of the first of them *)
Definition tables_of (n : nat) (modules : list ModuleSymbols) : Prop :=
  length modules = n /\ forall m file module, files !! m = Some file -> modules !! m = Some module ->
    tabled m (length (su_functions file)) module.
Lemma collect_modules_total done_ todo modules (s : SErrors) :
  files = done_ ++ todo -> tables_of (length done_) modules ->
  wp (collect_modules (length done_) todo modules) s (fun _ => tables_of (length files)) (fun s _ => exhausted_at s).
Proof.
  revert done_ modules s. induction todo as [|file todo IH]; intros done_ modules s E [Hl Ht]; cbn [collect_modules].
  - apply wp_ret. rewrite E, app_nil_r. by split.
  - assert (Hm : files !! length done_ = Some file) by (rewrite E; by apply list_lookup_middle).
    apply wp_bind. eapply wp_post; [apply (collect_functions_total _ _ file []); [done|done|]|].
    { split; [done|done| |constructor]. intros name fid. cbn. by rewrite lookup_empty. }
    intros s' module Hmod. replace (S (length done_)) with (length (done_ ++ [file])) by (rewrite length_app; cbn; lia).
    apply IH; [by rewrite <- (assoc_L (++))|]. split; [rewrite !length_app; cbn; lia|].
    intros m file' module' Hf [Hm'|[Hge Hm']]%lookup_app_Some; [by eapply Ht|]. apply list_lookup_singleton_Some in Hm' as [Hk <-].
    replace m with (length done_) in * by lia. by replace file' with file by congruence.
Qed.

(** ** Imports *)

Definition resolving (s : RState) : Prop := tables_of (length files) (rs_modules s).
Lemma resolving_errors f s : resolving s -> resolving (map_errors f s).
Proof. done. Qed.
Hint Resolve resolving_errors : keeps.
Lemma keeps_update_module {R} m f : m < length files ->
  (forall n module, tabled m n module -> tabled m n (f module)) -> keeps resolving (@update_module m f R).
Proof.
  intros Hm Hf s [Hl Ht]. unfold wp, update_module. destruct (lookup_lt_is_Some_2 (rs_modules s) m) as [module0 Em]; [lia|].
  rewrite Em. split; cbn; [by rewrite length_alter|]. intros k file module Hk Hmod. destruct (decide (k = m)) as [->|Hne].
  - rewrite list_lookup_alter_eq, Em in Hmod. injection Hmod as <-. apply Hf. by eapply Ht.
  - rewrite list_lookup_alter_ne in Hmod by done. by eapply Ht.
Qed.
Lemma keeps_resolve_bindings m target path bindings : m < length files -> target < length files ->
  keeps resolving (resolve_bindings m target path bindings).
Proof.
  intros Hm Ht. induction bindings as [|b bindings IH]; cbn [resolve_bindings]; [keep|]. apply keeps_bind; [keep|]. intros _ s HI.
  apply wp_bind, wp_gets. pose proof HI as [Hl Htab]. destruct (lookup_lt_is_Some_2 (rs_modules s) target) as [module Em]; [lia|].
  rewrite Em. apply wp_bind, wp_ret. revert s HI Hl Htab Em. intros s HI Hl Htab Em.
  destruct (exported_function module _) as [symbol|] eqn:Ex.
  - destruct (lookup_lt_is_Some_2 (rs_modules s) m) as [importer Ei]; [lia|]. rewrite Ei.
    destruct (lookup_lt_is_Some_2 files target Ht) as [file Hfile].
    assert (Hdecl : declared (fy_id symbol)).
    { unfold exported_function in Ex. destruct (ms_local_functions module !! _) as [j|]; [|done]. cbn in Ex.
      destruct (ms_functions module !! j) as [sym|] eqn:Ej; [|done]. cbn in Ex. destruct (fy_exported sym); [|done]. injection Ex as ->.
      destruct (Htab _ _ _ Hfile Em) as [Hlen Hi _ _]. rewrite (Hi _ _ Ej). eapply declared_id; [done|].
      rewrite <- Hlen. by eapply lookup_lt_Some. }
    revert s HI Hl Htab Em Ei. intros s HI _ _ _ _. revert s HI. apply keeps_bind; [|keep].
    apply (keeps_some _ _ importer _ eq_refl). apply keeps_bind; [|keep]. apply keeps_update_module; [done|].
    intros n module0 [H1 H2 H3 H4]. split; [done|done| |done]. intros name fid. cbn. rewrite lookup_insert_Some.
    intros [[_ <-]|[_ E]]; [done|by eapply H3].
  - refine ((_ : keeps resolving _) s HI). keep.
Qed.
Lemma path_table_lt path target : path_table files !! path = Some target -> target < length files.
Proof.
  unfold path_table, enumerate.
  assert (H : forall (l : list (nat * SourceUnit)) (m : gmap string nat), map_Forall (fun _ t => t < length files) m -> Forall (fun x => x.1 < length files) l ->
    map_Forall (fun _ t => t < length files) (foldl (fun m '(index, file) => <[su_path file := index]> m) m l)).
  { induction l as [|[i u] l IH]; intros m Hm Hl; cbn; [done|]. apply Forall_cons in Hl as [Hi Hl]. apply IH; [|done].
    by apply map_Forall_insert_2. }
  intros E. eapply (H (imap pair files) ∅); [apply map_Forall_empty| |exact E].
  apply Forall_lookup. intros k [i u] Hk. rewrite list_lookup_imap in Hk. destruct (files !! k) eqn:Ek; [|done].
  injection Hk as <- _. by eapply lookup_lt_Some.
Qed.
Lemma keeps_resolve_import m file import : m < length files -> keeps resolving (resolve_import (path_table files) m file import).
Proof.
  intros Hm. unfold resolve_import. apply keeps_bind; [keep|]. intros _.
  destruct (resolve_explicit_zry_import _ _); [|keep]. destruct (path_table files !! _) as [target|] eqn:Et; [|keep].
  apply path_table_lt in Et. apply keeps_bind; [|intros _; by apply keeps_resolve_bindings].
  apply keeps_update_module; [done|]. intros n module0 [H1 H2 H3 H4]. split; [done..|]. cbn. apply Forall_app. split; [done|].
  by constructor.
Qed.
Lemma keeps_resolve_files m todo : m + length todo <= length files -> keeps resolving (resolve_files (path_table files) m todo).
Proof.
  revert m. induction todo as [|file todo IH]; intros m Hl; cbn [resolve_files length] in *; [keep|].
  apply keeps_bind; [|intros _; apply IH; lia]. induction (su_imports file) as [|i is_ IHi]; cbn [resolve_file]; [keep|].
  apply keeps_bind; [apply keeps_resolve_import; lia|keep].
Qed.

(** ** Function bodies *)

Lemma offsets_from_spec total modules m offset module :
  offsets_from total modules !! m = Some offset -> modules !! m = Some module ->
  offset + length (ms_functions module) <= total + sum_list ((fun m => length (ms_functions m)) <$> modules).
Proof.
  revert total m. induction modules as [|md modules IH]; intros total [|m] Ho Hm; cbn in *; try done.
  - injection Ho as <-. injection Hm as <-. lia.
  - specialize (IH _ _ Ho Hm). lia.
Qed.
Lemma offsets_from_length total modules : length (offsets_from total modules) = length modules.
Proof. revert total. induction modules as [|m modules IH]; intros total; cbn; [done|]. by rewrite IH. Qed.

Section bodies.
Context (modules : list ModuleSymbols) (tabs : tables_of (length files) modules).
Context (canonical : Forall (fun file => bodies_well_formed (su_functions file)) files).
Notation count := (sum_list ((fun m => length (ms_functions m)) <$> modules)).
Notation offsets := (function_offsets modules).

Lemma declared_known fid : declared fid -> callee_known count modules offsets fid.
Proof.
  intros (file & Hfile & Hj). unfold get in Hfile. destruct tabs as [Hl Ht].
  pose proof (lookup_lt_Some _ _ _ Hfile) as Hlt.
  destruct (lookup_lt_is_Some_2 modules (N.to_nat (fid_module fid))) as [module Em]; [lia|].
  pose proof (ta_functions _ _ _ (Ht _ _ _ Hfile Em)) as Hf.
  destruct (lookup_lt_is_Some_2 (ms_functions module) (N.to_nat (fid_declaration fid))) as [symbol Es]; [lia|].
  destruct (lookup_lt_is_Some_2 offsets (N.to_nat (fid_module fid))) as [offset Eo].
  { unfold function_offsets. rewrite offsets_from_length. lia. }
  exists module, symbol, offset. split_and!; [done..|]. pose proof (offsets_from_spec _ _ _ _ _ Eo Em). lia.
Qed.
Notation known := (edges_known count).
Lemma keeps_lower_functions m module file todo index entry_module :
  files !! m = Some file -> modules !! m = Some module -> drop index (su_functions file) = todo ->
  keeps known (lower_functions modules module entry_module index todo).
Proof.
  intros Hm Em. destruct tabs as [Hl Ht]. destruct (Ht _ _ _ Hm Em) as [Hlen Hids Hcall _].
  revert index. induction todo as [|f todo IH]; intros index Hdrop; cbn [lower_functions]; [keep|].
  assert (Hf : su_functions file !! index = Some f).
  { rewrite <- (Nat.add_0_r index), <- lookup_drop. by rewrite Hdrop. }
  assert (Hlt : index < length (su_functions file)) by by eapply lookup_lt_Some.
  destruct (lookup_lt_is_Some_2 (ms_functions module) index) as [symbol Es]; [lia|].
  apply (keeps_some _ _ symbol _ Es). apply keeps_bind.
  - apply (keeps_lower_function count modules offsets).
    + rewrite Forall_lookup in canonical. specialize (canonical _ _ Hm). unfold bodies_well_formed in canonical.
      rewrite Forall_lookup in canonical. by eapply canonical.
    + rewrite (Hids _ _ Es). apply declared_known. by eapply declared_id.
    + intros name fid E. by eapply declared_known, Hcall.
  - intros lowered. apply keeps_bind; [keep|]. intros _. apply keeps_bind; [|keep]. apply IH.
    rewrite <- (Nat.add_1_r index), <- drop_drop, Hdrop. done.
Qed.
Lemma keeps_lower_modules input done_ todo : files = done_ ++ todo -> keeps known (lower_modules input modules (length done_) todo).
Proof.
  revert done_. induction todo as [|file todo IH]; intros done_ E; cbn [lower_modules]; [keep|].
  assert (Hm : files !! length done_ = Some file) by (rewrite E; by apply list_lookup_middle).
  destruct (lookup_lt_is_Some_2 modules (length done_)) as [module Em].
  { destruct tabs as [-> _]. by eapply lookup_lt_Some. }
  rewrite Em. cbn [default]. apply keeps_bind; [by eapply keeps_lower_functions|]. intros fs. apply keeps_bind; [|keep].
  replace (S (length done_)) with (length (done_ ++ [file])) by (rewrite length_app; cbn; lia).
  apply IH. by rewrite <- (assoc_L (++)).
Qed.
End bodies.
End tables.

(** ** The phases *)

Lemma wp_run_phase {S A} `{HasErrors S} (phase : SM S unit A) s (Q : S -> A -> Prop) :
  wp phase s (fun s' a => se_exhausted (errors_of s') = false -> Q s' a) (fun _ _ => True) -> wp (run_phase phase) s Q (fun _ _ => True).
Proof.
  intros Hp. unfold run_phase. apply wp_bind, wp_check; [intros _|done]. apply wp_bind. eapply wp_post; [exact Hp|].
  intros s' a HQ. apply wp_bind, wp_check; [|done]. intros E. by apply wp_ret, HQ.
Qed.
Lemma wp_errors_only {A} (m : SM SErrors unit A) s (Q : PState -> A -> Prop) :
  wp m (pg_errors s) (fun e a => Q (mkPState e (pg_call_edges s)) a) (fun _ _ => True) -> wp (on_errors_only m) s Q (fun _ _ => True).
Proof. unfold wp, on_errors_only. by destruct (m (pg_errors s)) as [e []]. Qed.
Lemma wp_on_modules modules (m : SM RState unit unit) s (Q : PState -> list ModuleSymbols -> Prop) :
  wp m (mkRState (pg_errors s) modules) (fun r _ => Q (mkPState (rs_errors r) (pg_call_edges s)) (rs_modules r)) (fun _ _ => True) ->
  wp (on_modules modules m) s Q (fun _ _ => True).
Proof. unfold wp, on_modules. by destruct (m (mkRState (pg_errors s) modules)) as [r []]. Qed.
Notation "'quiet' m" := (forall s, wp m s (fun _ _ => True) (fun _ _ => True)) (at level 10, m at level 9, only parsing).
Lemma violations_total exported violations : quiet (report_violations exported violations).
Proof.
  induction violations as [|v violations IH]; intros s; cbn [report_violations]; [by apply wp_ret|].
  apply wp_bind, wp_check; [intros _|done]. apply wp_bind, (wp_post _ _ (fun _ _ => True)); [|auto].
  destruct (index ← av_export_index v; exported !! index), (av_kind v); by first [apply wp_modify|apply wp_bind, wp_modify, wp_leave|apply wp_ret].
Qed.
Lemma entry_exports_total entry modules : quiet (verify_entry_exports entry modules).
Proof.
  intros s. unfold verify_entry_exports. destruct (get modules _); [|by apply wp_ret]. destruct (abi_verify_v1 _); [by apply wp_ret|].
  apply violations_total.
Qed.

Section verdict.
Context (input : SemanticInput).
Notation files := (sn_files (si_syntax input)).
Context (sized : snapshot_sized files).
Context (canonical : Forall (fun file => bodies_well_formed (su_functions file)) files).

Lemma collect_total (s : SErrors) :
  wp (sem_collect_signatures (si_syntax input)) s
    (fun s' modules => se_exhausted (errors_of s') = false -> tables_of files (length files) modules) (fun _ (_ : unit) => True).
Proof.
  apply wp_invoke. eapply wp_mono; [apply (collect_modules_total files sized [] files []); [done|]|..].
  - by split.
  - by intros s' modules Ht _.
  - by intros s' modules ->.
Qed.
Lemma phases_total s : pg_call_edges s = [] -> wp (lower_phases input) s (fun _ _ => True) (fun _ _ => True).
Proof.
  intros He. unfold lower_phases. apply wp_bind, wp_run_phase, wp_errors_only. eapply wp_post; [apply collect_total|].
  intros e1 modules1 H1 X1. specialize (H1 X1). apply wp_bind, wp_run_phase, wp_on_modules.
  eapply wp_keeps_invoke; [by apply (keeps_resolve_files files sized 0)|exact H1|]. intros r1 u Htab _.
  unfold resolving in Htab. revert Htab. generalize (rs_modules r1). intros modules [Hl Ht].
  assert (Htargets : Forall (fun m => Forall (fun e => ie_target e < length modules) (ms_imports m)) modules).
  { apply Forall_lookup. intros m module Em. destruct (lookup_lt_is_Some_2 files m) as [file Hm].
    { rewrite <- Hl. by eapply lookup_lt_Some. }
    rewrite Hl. apply (ta_imports _ _ _ _ (Ht _ _ _ Hm Em)). }
  apply wp_bind, wp_run_phase, wp_errors_only. eapply (wp_keeps_invoke (fun _ => True)); [by intros ? _; apply verify_module_graph_total|done|].
  intros e2 _ _ _. apply wp_bind, wp_run_phase, wp_errors_only. eapply (wp_keeps_invoke (fun _ => True)); [by intros ? _; apply entry_exports_total|done|].
  intros e3 _ _ _. cbn [pg_call_edges]. rewrite He. apply wp_bind.
  eapply wp_post; [eapply wp_mono; [apply (keeps_lower_modules files sized modules (conj Hl Ht) canonical input [] files); [done|constructor]|intros s' a H; exact H|done]|].
  intros s4 raw Hk. apply wp_bind, wp_gets, wp_bind, wp_errors_only.
  eapply (wp_keeps_invoke (fun _ => True)); [by intros ? _; eapply verify_call_graph_total|done|]. intros e5 _ _. by apply wp_ret.
Qed.
(** The analysis of small files with canonical bodies ends in a verdict. *)
Lemma lower_total : is_Some (lower input).
Proof.
  unfold lower. pose proof (phases_total (mkPState no_semantic_errors []) eq_refl) as Hp. unfold wp in Hp.
  destruct (lower_phases input _) as [s [raw|[]|]]; [destruct (se_is_empty _)| |done]; by eexists.
Qed.
End verdict.
