(* ===== verification/SemCorrect.v ===== *)
(** * The lowering of a project

    On a clean run every function of the project is lowered, in its place, to a
    function that computes what its body means; by induction on the depth of
    calls the lowered program computes what the project means. *)
From stdpp Require Import base numbers list list_numbers strings gmap.
From S2P Require Import Prelude Source Diagnostics Abi CfgAlgorithms ControlFlow ControlFlowSpec VerifySound.
From S2P Require Import VerifySound ControlFlowExec Syntax Semantics SemGraphs SemLower SemValues.
From S2P Require Import SemProgram SourceSemantics SourceRelation CfgSteps SemLogic SemExpr SemMerge.
From S2P Require Import SemFunction.

Lemma growing_module_graph_loop fuel modules state reachable stack :
  growing (module_graph_loop fuel modules state reachable stack).
Proof. revert state reachable stack. induction fuel; intros; cbn; grows. Qed.
#[export] Hint Resolve growing_module_graph_loop : growing.
Lemma growing_report_unreachable files index reachable : growing (report_unreachable files index reachable).
Proof. revert index. induction reachable; intros; cbn; grows. Qed.
#[export] Hint Resolve growing_report_unreachable : growing.
Lemma growing_verify_module_graph snapshot entry modules : growing (verify_module_graph snapshot entry modules).
Proof. unfold verify_module_graph. grows. Qed.
Lemma growing_report_violations exported violations : growing (report_violations exported violations).
Proof. induction violations as [|v violations IH]; cbn; [grows|]. destruct (av_kind v); grows. Qed.
#[export] Hint Resolve growing_report_violations : growing.
Lemma growing_verify_entry_exports entry modules : growing (verify_entry_exports entry modules).
Proof. unfold verify_entry_exports. grows. Qed.
Lemma growing_call_cycle_loop fuel adjacency colors stack : growing (call_cycle_loop fuel adjacency colors stack).
Proof. revert colors stack. induction fuel; intros; cbn; grows. Qed.
#[export] Hint Resolve growing_call_cycle_loop : growing.
Lemma growing_call_search adjacency starts colors : growing (call_search adjacency starts colors).
Proof. revert colors. induction starts; intros; cbn; grows. Qed.
Lemma growing_release_targets own row depth indegree queue : growing (release_targets own row depth indegree queue).
Proof. revert depth indegree queue. induction row as [|[] row IH]; intros; cbn; grows. Qed.
#[export] Hint Resolve growing_call_search growing_release_targets : growing.
Lemma growing_call_depth_loop fuel adjacency depth indegree queue :
  growing (call_depth_loop fuel adjacency depth indegree queue).
Proof. revert depth indegree queue. induction fuel; intros; cbn; grows. Qed.
#[export] Hint Resolve growing_call_depth_loop : growing.
Lemma growing_sem_call_graph modules edges : growing (sem_verify_call_graph modules edges).
Proof. unfold sem_verify_call_graph. grows. Qed.
#[export] Hint Resolve growing_verify_module_graph growing_verify_entry_exports growing_sem_call_graph : growing.

(** ** One function *)

Lemma growing_lower_function_body syntax symbol callables modules offsets entry caller parameters result :
  growing (lower_function_body syntax symbol callables modules offsets entry caller parameters result).
Proof. unfold lower_function_body. grows. Qed.
Lemma growing_lower_function {R} syntax symbol callables modules offsets entry :
  growing (@lower_function syntax symbol callables modules offsets entry R).
Proof.
  intros s. unfold lower_function. destruct (parameter_definitions _ _) as [ps|]; [|done].
  destruct (sg_result _) as [ty|]; [|done]. destruct (get offsets _) as [o|]; [|done].
  pose proof (growing_lower_function_body syntax symbol callables modules offsets entry
    (o + N.to_nat (fid_declaration (fy_id symbol))) ps ty (initial_lowerer syntax s ps)) as Hg.
  destruct (lower_function_body _ _ _ _ _ _ _ _ _) as [l r]. exact Hg.
Qed.
#[export] Hint Resolve growing_lower_function : growing.
Lemma growing_lower_functions modules module entry index functions :
  growing (lower_functions modules module entry index functions).
Proof. revert index. induction functions; intros; cbn; grows. Qed.
#[export] Hint Resolve growing_lower_functions : growing.
Lemma growing_lower_modules input modules index files : growing (lower_modules input modules index files).
Proof. revert index. induction files; intros; cbn; grows. Qed.
#[export] Hint Resolve growing_lower_modules : growing.

Lemma parameter_definitions_total k parameters :
  Forall is_Some (declared_types parameters) -> (N.of_nat (k + length parameters) <= u32_max)%N ->
  exists ds, parameter_definitions k (zip parameters (declared_types parameters)) = Some ds.
Proof.
  revert k. induction parameters as [|p parameters IH]; intros k Hc Hk; cbn; [by exists []|].
  apply Forall_cons in Hc as [[ty Hty] Hc]. unfold try_u32. rewrite (proj2 (N.leb_le _ _)) by (cbn in Hk; lia). cbn.
  rewrite Hty. cbn. fold (declared_types parameters). destruct (IH (S k) Hc) as (ds & E); [cbn in Hk; lia|]. rewrite E. cbn. eauto.
Qed.
Lemma complete_mapM (tys : list (option Ty)) : Forall is_Some tys -> is_Some (mapM id tys).
Proof. induction 1 as [|o tys [ty ->] _ [r IH]]; [by exists []|]. cbn. rewrite IH. by eexists. Qed.

Section project.
Context (files : list SourceUnit) (sized : snapshot_sized files) (modules : list ModuleSymbols).
Context (tabled : tables files (length files) [] modules).

Lemma module_resolved m file :
  files !! m = Some file -> exists module, modules !! m = Some module /\
    resolved m file (imported_functions files file) module.
Proof.
  intros Hm. destruct tabled as [_ Ht]. destruct (Ht _ _ Hm) as (module & E & H). exists module. split; [done|].
  unfold imports_of in H. rewrite (proj2 (Nat.ltb_lt m (length files))) in H; [done|]. by apply lookup_lt_Some in Hm.
Qed.
Lemma symbol_declared m module j symbol :
  modules !! m = Some module -> ms_functions module !! j = Some symbol ->
  exists file f, files !! m = Some file /\ su_functions file !! j = Some f /\ symbol = symbol_of m j f /\ complete f.
Proof.
  intros Hm Hs. destruct (lookup_lt_is_Some_2 files m) as [file Hf].
  { destruct tabled as [<- _]. by apply lookup_lt_Some in Hm. }
  destruct (module_resolved _ _ Hf) as (module' & Hm' & Hr). replace module' with module in * by congruence.
  rewrite (rv_functions _ _ _ _ Hr), list_lookup_imap in Hs. destruct (su_functions file !! j) as [f|] eqn:Ef; [|done].
  injection Hs as <-. exists file, f. split_and!; [done..|]. by apply (Forall_lookup_1 _ _ _ _ (rv_complete _ _ _ _ Hr) Ef).
Qed.

(** The calls of the project agree with the declared results. *)
Record typed_calls (C : Calls) : Prop := {
  tc_typed m j file f ty vs v : files !! m = Some file -> su_functions file !! j = Some f ->
    declared_type (fs_result_type f) = Some ty -> C (mkFunctionKey m j) vs v -> value_ty v = ty;
  tc_fun key vs v v' : C key vs v -> C key vs v' -> v = v' }.
Lemma typed_calls_ok C m file module :
  files !! m = Some file -> modules !! m = Some module -> typed_calls C ->
  calls_ok (ms_callables module) modules (resolve_callee files m) C.
Proof.
  intros Hf Hm [Ht Hfun]. destruct (module_resolved _ _ Hf) as (module' & Hm' & Hr). replace module' with module in * by congruence.
  split.
  - intros name fid E. rewrite <- (denoted_all _ _ _ _ Hf). by apply (rv_callables _ _ _ _ Hr).
  - intros fid module2 symbol E Es. unfold get in E, Es. destruct (symbol_declared _ _ _ _ E Es) as (? & f & _ & _ & -> & Hc). cbn.
    split; [apply complete_mapM|]; apply Hc.
  - intros fid module2 symbol ty vs v E Es Ety HC. unfold get in E, Es.
    destruct (symbol_declared _ _ _ _ E Es) as (file2 & f & Hf2 & Hj & -> & _). by eapply Ht.
  - exact Hfun.
Qed.
Lemma no_calls_typed : typed_calls (fun _ _ _ => False).
Proof. by split. Qed.

(** The lowered function in its place *)
Definition function_good (m : nat) (syntax : FunctionSyntax) (f : Function_) : Prop :=
  declared_type (fs_result_type syntax) = Some (f_result f) /\
  forall C, typed_calls C -> computes_body syntax (resolve_callee files m) C f /\ returns_result syntax (resolve_callee files m) C f.

Section module.
Context (m : nat) (file : SourceUnit) (module : ModuleSymbols).
Context (Hfile : files !! m = Some file) (Hmodule : modules !! m = Some module).

Lemma spec_lower_function_calls {R} j syntax offsets entry C s (L : PState -> R -> Prop) :
  su_functions file !! j = Some syntax -> typed_calls C ->
  spec (lower_function syntax (symbol_of m j syntax) (ms_callables module) modules offsets entry) s
    (fun _ r => exists f, r = Some f /\ declared_type (fs_result_type syntax) = Some (f_result f) /\
       computes_body syntax (resolve_callee files m) C f /\ returns_result syntax (resolve_callee files m) C f) L.
Proof.
  intros Hj HC. destruct (module_resolved _ _ Hfile) as (module' & Hm' & Hr). replace module' with module in * by congruence.
  destruct (Forall_lookup_1 _ _ _ _ (rv_complete _ _ _ _ Hr) Hj) as [Hps [result Hres]].
  destruct (parameter_definitions_total 0 (fs_parameters syntax) Hps) as (ps & Eps).
  { eapply sz_parameters; [exact sized|exact Hfile|]. by apply list_elem_of_lookup_2 in Hj. }
  unfold spec, lower_function. cbn [fy_signature symbol_of sg_parameters sg_result]. rewrite Eps, Hres.
  destruct (get offsets _) as [offset|]; [|done].
  pose proof (spec_lower_function_body syntax (symbol_of m j syntax) (ms_callables module) modules offsets entry
    (resolve_callee files m) (offset + N.to_nat (fid_declaration (fy_id (symbol_of m j syntax)))) ps result s Eps C
    (typed_calls_ok _ _ _ _ Hfile Hmodule HC)) as Hb.
  unfold spec in Hb. destruct (lower_function_body _ _ _ _ _ _ _ _ _) as [l [r|r|]]; [|by intros Hc; destruct (Hb Hc)|done].
  intros Hc. destruct (Hb Hc) as (f & -> & Hres' & H1 & H2). exists f. split_and!; [done|congruence|done|done].
Qed.
Lemma spec_lower_function {R} j syntax offsets entry s (L : PState -> R -> Prop) :
  su_functions file !! j = Some syntax ->
  spec (lower_function syntax (symbol_of m j syntax) (ms_callables module) modules offsets entry) s
    (fun _ r => exists f, r = Some f /\ function_good m syntax f) L.
Proof.
  intros Hj. pose proof (fun C => spec_lower_function_calls (R := R) j syntax offsets entry C s L Hj) as H.
  pose proof (H _ no_calls_typed) as H0. unfold spec in *.
  destruct (lower_function _ _ _ _ _ _ s) as [s' [r|r|]]; [|done..]. intros Hc.
  destruct (H0 Hc) as (f & -> & Hty & _). exists f. split; [done|]. split; [done|]. intros C HC.
  destruct (H C HC Hc) as (f' & [= <-] & _ & H1 & H2). done.
Qed.

Lemma spec_lower_functions entry done_ todo s :
  su_functions file = done_ ++ todo ->
  spec (lower_functions modules module entry (length done_) todo) s
    (fun _ fs => Forall2 (function_good m) todo fs) (fun _ _ => False).
Proof.
  revert done_ s. induction todo as [|syntax todo IH]; intros done_ s E; cbn [lower_functions]; [by apply spec_ret|].
  assert (Hj : su_functions file !! length done_ = Some syntax) by (rewrite E; by apply list_lookup_middle).
  destruct (module_resolved _ _ Hfile) as (module' & Hm' & Hr). replace module' with module in * by congruence.
  sbind. apply spec_expect. intros symbol Es _. rewrite (rv_functions _ _ _ _ Hr), list_lookup_imap, Hj in Es. injection Es as <-.
  sbind. eapply spec_post; [by apply spec_lower_function|]. intros s1 r _ (f & -> & Hgood) _.
  sbind. apply spec_check. intros _ _. replace (S (length done_)) with (length (done_ ++ [syntax])) by (rewrite length_app; cbn; lia).
  sbind. eapply spec_post; [apply IH; by rewrite <- (assoc_L (++))|]. intros s2 fs _ Hfs _. apply spec_ret. by constructor.
Qed.
End module.

(** ** The modules *)

Definition module_good (m : nat) (file : SourceUnit) (md : Module_) : Prop :=
  Forall2 (function_good m) (su_functions file) (m_functions md).
(** The lowered modules, file by file *)
Definition modules_good (raw : list Module_) : Prop :=
  length raw = length files /\ forall m file, files !! m = Some file -> exists md, raw !! m = Some md /\ module_good m file md.

Lemma spec_lower_modules_from input done_ todo s :
  files = done_ ++ todo ->
  spec (lower_modules input modules (length done_) todo) s
    (fun _ raw => length raw = length todo /\ forall i file, todo !! i = Some file ->
       exists md, raw !! i = Some md /\ module_good (length done_ + i) file md) (fun _ _ => False).
Proof.
  revert done_ s. induction todo as [|file todo IH]; intros done_ s E; cbn [lower_modules]; [apply spec_ret; by split|].
  assert (Hfile : files !! length done_ = Some file) by (rewrite E; by apply list_lookup_middle).
  destruct (module_resolved _ _ Hfile) as (module & Hmodule & _). rewrite Hmodule. cbn [default].
  sbind. eapply spec_post; [by apply (spec_lower_functions _ _ _ Hfile Hmodule _ [] (su_functions file))|].
  intros s1 fs _ Hfs _. replace (S (length done_)) with (length (done_ ++ [file])) by (rewrite length_app; cbn; lia).
  sbind. eapply spec_post; [apply IH; by rewrite <- (assoc_L (++))|]. intros s2 raw _ [Hl Hraw] _. apply spec_ret.
  split; [cbn; by rewrite Hl|]. intros [|i] file' Hi; cbn in Hi.
  - injection Hi as <-. eexists. split; [done|]. rewrite Nat.add_0_r. exact Hfs.
  - destruct (Hraw _ _ Hi) as (md & Hmd & Hg). exists md. split; [done|]. rewrite length_app in Hg. cbn in Hg.
    by rewrite <- Nat.add_assoc in Hg.
Qed.
Lemma spec_lower_modules input s :
  spec (lower_modules input modules 0 files) s (fun _ raw => modules_good raw) (fun _ _ => False).
Proof. eapply spec_post; [by apply (spec_lower_modules_from input [] files)|]. by intros s' raw _ H. Qed.
End project.

(** ** The phases *)

Lemma growing_run_phase {S A} `{HasErrors S} (phase : SM S unit A) : growing phase -> growing (run_phase phase).
Proof. intros. unfold run_phase. grows. Qed.
Lemma growing_on_errors_only {A} (m : SM SErrors unit A) : growing m -> growing (on_errors_only m).
Proof. intros Hm s. unfold on_errors_only. specialize (Hm (pg_errors s)). by destruct (m (pg_errors s)). Qed.
Lemma growing_on_modules modules (m : SM RState unit unit) : growing m -> growing (on_modules modules m).
Proof. intros Hm s. unfold on_modules. specialize (Hm (mkRState (pg_errors s) modules)). by destruct (m _). Qed.
#[export] Hint Resolve growing_run_phase growing_on_errors_only growing_on_modules : growing.
Lemma growing_lower_phases input : growing (lower_phases input).
Proof. unfold lower_phases. grows. Qed.

Lemma spec_run_phase {S A} `{HasErrors S} (phase : SM S unit A) s (Q : S -> A -> Prop) :
  growing phase -> spec phase s Q (fun _ _ => False) -> spec (run_phase phase) s Q (fun _ _ => False).
Proof.
  intros Hg Hp. unfold run_phase. eapply spec_bind; [grows|]. apply spec_check. intros _ _.
  eapply spec_bind; [grows|]. eapply spec_post; [exact Hp|]. intros s' a _ HQ _.
  eapply spec_bind; [grows|]. apply spec_check. intros _ _. by apply spec_ret.
Qed.
Lemma spec_on_errors_only {A} (m : SM SErrors unit A) s (Q : A -> Prop) :
  spec m (pg_errors s) (fun _ a => Q a) (fun _ _ => False) -> spec (on_errors_only m) s (fun _ a => Q a) (fun _ _ => False).
Proof. unfold spec, on_errors_only. by destruct (m (pg_errors s)) as [e []]. Qed.
Lemma spec_on_modules modules (m : SM RState unit unit) s (Q : list ModuleSymbols -> Prop) :
  spec m (mkRState (pg_errors s) modules) (fun s' _ => Q (rs_modules s')) (fun _ _ => False) ->
  spec (on_modules modules m) s (fun _ a => Q a) (fun _ _ => False).
Proof. unfold spec, on_modules. by destruct (m _) as [e []]. Qed.
(** A phase that only checks *)
Lemma spec_checks {S A} `{HasErrors S} (m : SM S A A) s (L : S -> unit -> Prop) : spec (invoke m) s (fun _ _ => True) L.
Proof. apply spec_invoke. apply spec_true. Qed.

Lemma spec_lower_phases input s :
  snapshot_sized (sn_files (si_syntax input)) ->
  spec (lower_phases input) s (fun _ raw => exists modules,
    tables (sn_files (si_syntax input)) (length (sn_files (si_syntax input))) [] modules /\
    modules_good (sn_files (si_syntax input)) raw) (fun _ _ => False).
Proof.
  intros Hsized. unfold lower_phases. sbind. apply spec_run_phase; [grows|].
  eapply spec_post; [apply spec_on_errors_only, spec_collect_signatures|]. intros s1 modules0 _ H0 _. cbn beta in H0.
  sbind. apply spec_run_phase; [grows|]. eapply spec_post; [apply spec_on_modules, (spec_resolve_imports _ Hsized); done|].
  intros s2 modules _ Ht _. cbn beta in Ht. sbind. apply spec_run_phase; [grows|].
  eapply spec_post; [apply (spec_on_errors_only _ _ (fun _ => True)), spec_checks|]. intros s3 [] _ _ _.
  sbind. apply spec_run_phase; [grows|].
  eapply spec_post; [apply (spec_on_errors_only _ _ (fun _ => True)), spec_checks|]. intros s4 [] _ _ _.
  sbind. eapply spec_post; [by apply (spec_lower_modules _ Hsized modules Ht)|]. intros s5 raw _ Hraw _. cbn beta in Hraw.
  sbind. apply spec_gets. intros _. sbind.
  eapply spec_post; [apply (spec_on_errors_only _ _ (fun _ => True)), spec_checks|]. intros s6 [] _ _ _.
  apply spec_ret. by exists modules.
Qed.

(** A verified program is the lowered one, function by function. *)
Record lowered_project (input : SemanticInput) (vp : VerifiedProgram) : Prop := {
  lp_verify : verify (vp_program vp) (si_sources input) (si_entry input) = Ok vp;
  lp_tables : exists modules, tables (sn_files (si_syntax input)) (length (sn_files (si_syntax input))) [] modules;
  lp_modules : modules_good (sn_files (si_syntax input)) (p_modules (vp_program vp)) }.

Lemma verify_program program sources entry vp : verify program sources entry = Ok vp -> vp_program vp = program.
Proof.
  unfold verify. repeat (case_match; try discriminate). by intros [= <-].
Qed.
Lemma lower_project input vp :
  snapshot_sized (sn_files (si_syntax input)) -> lower input = Some (Ok vp) -> lowered_project input vp.
Proof.
  intros Hsized H. unfold lower in H. pose proof (spec_lower_phases input (mkPState no_semantic_errors []) Hsized) as Hs.
  pose proof (growing_lower_phases input (mkPState no_semantic_errors [])) as Hg. unfold spec in Hs.
  destruct (lower_phases input _) as [s [raw|r|]]; [|done..]. cbn in Hg.
  destruct (se_is_empty (pg_errors s)) eqn:Ee; [|done].
  assert (Hc : clean s).
  { destruct (ad_healthy _ _ Hg healthy_none) as [Hex _ _]. unfold clean. cbn. destruct (pg_errors s) as [ds x]. unfold se_is_empty in Ee.
    cbn in *. destruct ds; [|done]. destruct x; [by destruct Hex|done]. }
  destruct (Hs Hc) as (modules & Ht & Hraw). injection H as H. pose proof (verify_program _ _ _ _ H) as E.
  split; rewrite ?E; [done|by exists modules|done].
Qed.

(** ** Calls *)

Lemma bind_types env ds vs env' : bind_parameters env ds vs = Done env' -> value_ty <$> vs = vd_ty <$> ds.
Proof.
  revert env vs. induction ds as [|d ds IH]; intros env [|v vs] H; try done. cbn in H.
  destruct (decide _) as [E|]; [|done]. cbn. rewrite E. f_equal. by eapply IH.
Qed.

(** On verified programs the interpreter and the relation agree. *)
Lemma verified_call_iff program sources entry vp key vs v :
  verify program sources entry = Ok vp ->
  (exists fuel, call_function fuel program key vs = Done v) <-> exists depth, ir_calls (program_function program) depth key vs v.
Proof.
  intros Hv. destruct (program_function program key) as [f|] eqn:Hf.
  - destruct (bind_or_stuck ∅ (f_parameters f) vs) as [Hb|[env Hb]].
    + split.
      * intros [n H]. unfold call_function in H. rewrite Hf in H. cbn in H. by rewrite Hb in H.
      * intros [[|d] H]; [done|]. destruct H as (f' & env & k & Hf' & He & _). congruence.
    + apply call_iff_steps. intros fuel E. pose proof (verify_sound _ _ _ _ Hv) as [[Hok _] _ _ _].
      pose proof (call_function_safe program Hok fuel key f vs Hf (bind_types _ _ _ _ Hb)) as Hs. by rewrite E in Hs.
  - split.
    + intros [n H]. unfold call_function in H. by rewrite Hf in H.
    + intros [[|d] H]; [done|]. destruct H as (f' & env & k & Hf' & _). congruence.
Qed.

Section agree.
Context (files : list SourceUnit) (program : Program_) (good : modules_good files (p_modules program)).

Lemma function_of_source key fn :
  source_function files key = Some fn -> exists f, program_function program key = Some f /\ function_good files (fk_module key) fn f.
Proof.
  unfold source_function, program_function. destruct (files !! fk_module key) as [file|] eqn:Ef; [|done]. cbn. intros Hfn.
  destruct good as [_ Hg]. destruct (Hg _ _ Ef) as (md & -> & Hmd). cbn. exact (Forall2_lookup_l _ _ _ _ _ Hmd Hfn).
Qed.
Lemma source_of_function key f :
  program_function program key = Some f -> exists fn, source_function files key = Some fn /\ function_good files (fk_module key) fn f.
Proof.
  unfold source_function, program_function. destruct (p_modules program !! fk_module key) as [md|] eqn:Em; [|done]. cbn. intros Hf.
  destruct good as [Hl Hg]. destruct (lookup_lt_is_Some_2 files (fk_module key)) as [file Hfile].
  { rewrite <- Hl. by apply lookup_lt_Some in Em. }
  destruct (Hg _ _ Hfile) as (md' & E & Hmd). replace md' with md in * by congruence. rewrite Hfile. cbn.
  exact (Forall2_lookup_r _ _ _ _ _ Hmd Hf).
Qed.

(** Both programs have the same calls of every depth. *)
Lemma calls_agree depth :
  (forall key vs w, src_calls files depth key vs w <-> ir_calls (program_function program) depth key vs w) /\
  typed_calls files (src_calls files depth).
Proof.
  induction depth as [|depth [IH Htc]]; [split; [done|apply no_calls_typed]|].
  assert (Hstep : forall key vs w, src_calls files (S depth) key vs w <-> ir_calls (program_function program) (S depth) key vs w).
  { intros key vs w. cbn. split.
    - intros (fn & store & Hfn & Hs & Hx). destruct (function_of_source _ _ Hfn) as (f & Hf & _ & Hg).
      destruct (Hg _ Htc) as [Hc _]. destruct (proj1 (Hc vs w)) as (env & k & He & H); [by exists store|].
      exists f, env, k. split_and!; [done..|]. eapply steps_mono; [|exact H]. intros. by apply IH.
    - intros (f & env & k & Hf & He & H). destruct (source_of_function _ _ Hf) as (fn & Hfn & _ & Hg).
      destruct (Hg _ Htc) as [Hc _]. destruct (proj2 (Hc vs w)) as (store & Hs & Hx).
      + exists env, k. split; [done|]. eapply steps_mono; [|exact H]. intros. by apply IH.
      + by exists fn, store. }
  split; [exact Hstep|]. split.
  - intros m j file fn ty vs v Hfile Hj Hty (fn' & store & Hfn' & Hs & Hx).
    assert (Hfn : source_function files (mkFunctionKey m j) = Some fn) by (unfold source_function; cbn; by rewrite Hfile).
    replace fn' with fn in * by congruence. destruct (function_of_source _ _ Hfn) as (f & _ & Hres & Hg).
    destruct (Hg _ Htc) as [_ Hr]. rewrite (Hr _ _ _ Hs Hx). congruence.
  - intros key vs v v' H1%Hstep H2%Hstep. by eapply ir_calls_fun.
Qed.
End agree.

Lemma lowered_calls input vp key vs v :
  lowered_project input vp ->
  (exists fuel, source_call (sn_files (si_syntax input)) fuel key vs = Done v) <->
  (exists fuel, call_function fuel (vp_program vp) key vs = Done v).
Proof.
  intros [Hv _ Hg]. rewrite source_call_iff, (verified_call_iff _ _ _ _ _ _ _ Hv).
  split; intros [d H]; exists d; by apply (calls_agree _ _ Hg).
Qed.

(** * Rejected projects

    A rejection carries diagnostics, and no more than the published number. *)

(** ** Early returns *)

(** The computation returns early only when the diagnostics are exhausted. *)
Definition exhausting {S R A} `{HasErrors S} (m : SM S R A) : Prop :=
  forall s s' r, m s = (s', Leave r) -> se_exhausted (errors_of s') = true.

Create HintDb exhausting discriminated.
Lemma exhausting_bind {S R A B} `{HasErrors S} (m : SM S R A) (f : A -> SM S R B) :
  exhausting m -> (forall a, exhausting (f a)) -> exhausting (m ≫= f).
Proof.
  intros Hm Hf s s' r E. unfold mbind, SM_bind in E. destruct (m s) as [s1 [a|r1|]] eqn:Em; [by eapply Hf| |done].
  injection E as <- <-. by eapply Hm.
Qed.
Lemma exhausting_check {S R} `{HasErrors S} (r : R) : exhausting (check (S := S) r).
Proof. intros s s' r' E. unfold check in E. destruct (se_exhausted _) eqn:Ee; [by injection E as <- <-|done]. Qed.
Lemma exhausting_ret {S R A} `{HasErrors S} (a : A) : exhausting (mret (M := SM S R) a).
Proof. by intros s s' r E. Qed.
Lemma exhausting_gets {S R A} `{HasErrors S} (f : S -> A) : exhausting (sgets (R := R) f).
Proof. by intros s s' r E. Qed.
Lemma exhausting_expect {S R A} `{HasErrors S} (o : option A) : exhausting (sexpect (S := S) (R := R) o).
Proof. by destruct o; intros s s' r E. Qed.
Lemma exhausting_invoke {S R A} `{HasErrors S} (m : SM S A A) : exhausting (invoke (R := R) m).
Proof. intros s s' r E. unfold invoke in E. by destruct (m s) as [? []]. Qed.
#[export] Hint Resolve exhausting_bind exhausting_check exhausting_ret exhausting_gets exhausting_expect exhausting_invoke : exhausting.
Ltac exhausts := intros; eauto 30 with exhausting.

Lemma exhausting_lower_function {R} syntax symbol callables modules offsets entry :
  exhausting (@lower_function syntax symbol callables modules offsets entry R).
Proof.
  intros s s' r E. unfold lower_function in E. destruct (parameter_definitions _ _); [|done]. destruct (sg_result _); [|done].
  destruct (get offsets _); [|done]. by destruct (lower_function_body _ _ _ _ _ _ _ _ _ _) as [? []].
Qed.
#[export] Hint Resolve exhausting_lower_function : exhausting.
Lemma exhausting_lower_functions modules module entry index functions :
  exhausting (lower_functions modules module entry index functions).
Proof. revert index. induction functions; intros; cbn; exhausts. Qed.
#[export] Hint Resolve exhausting_lower_functions : exhausting.
Lemma exhausting_lower_modules input modules index files : exhausting (lower_modules input modules index files).
Proof. revert index. induction files; intros; cbn; exhausts. Qed.
Lemma exhausting_on_errors {A} (m : SM SErrors unit A) : exhausting m -> exhausting (on_errors_only m).
Proof.
  intros Hm s s' r E. unfold on_errors_only in E. destruct (m (pg_errors s)) as [e f] eqn:Em. injection E as <- ->.
  by eapply Hm.
Qed.
Lemma exhausting_on_imports modules snapshot paths : exhausting (on_modules modules (resolve_imports snapshot paths)).
Proof.
  intros s s' r E. unfold on_modules, resolve_imports, invoke in E.
  destruct (resolve_files _ _ _ _) as [e []]; discriminate E.
Qed.
Lemma exhausting_run_phase {S A} `{HasErrors S} (phase : SM S unit A) : exhausting phase -> exhausting (run_phase phase).
Proof. intros. unfold run_phase. exhausts. Qed.
#[export] Hint Resolve exhausting_lower_modules exhausting_on_errors exhausting_on_imports exhausting_run_phase : exhausting.
Lemma exhausting_collect {R} snapshot : exhausting (@sem_collect_signatures snapshot R).
Proof. apply exhausting_invoke. Qed.
#[export] Hint Resolve exhausting_collect : exhausting.
Lemma exhausting_lower_phases input : exhausting (lower_phases input).
Proof. unfold lower_phases. exhausts. Qed.

(** ** The verdict *)

Lemma finish_length sources e : len (se_finish sources e) = len (se_diagnostics e).
Proof. unfold se_finish. by rewrite sort_by_perm. Qed.
Lemma finish_not_nil sources e : se_diagnostics e <> [] -> se_finish sources e <> [].
Proof.
  intros H E. apply (f_equal len) in E. rewrite finish_length in E. unfold len in E. by destruct (se_diagnostics e).
Qed.
Lemma lower_rejection input ds :
  lower input = Some (Err ds) -> ds <> [] /\ (len ds <= N.max MAX_SEMANTIC_DIAGNOSTICS MAX_DIAGNOSTICS)%N.
Proof.
  unfold lower. pose proof (growing_lower_phases input (mkPState no_semantic_errors [])) as Hg.
  pose proof (exhausting_lower_phases input (mkPState no_semantic_errors [])) as Hx.
  destruct (lower_phases input _) as [s [raw|r|]]; [| |done]; cbn in Hg; pose proof (ad_healthy _ _ Hg healthy_none) as [H1 H2 _].
  - destruct (se_is_empty (pg_errors s)) eqn:Ee.
    + intros [= H]. apply verify_rejection in H as [? ?]. split; [done|]. lia.
    + intros [= <-]. rewrite finish_length. split; [|lia]. apply finish_not_nil. unfold se_is_empty in Ee.
      by destruct (se_diagnostics (pg_errors s)).
  - intros [= <-]. rewrite finish_length. split; [|lia]. apply finish_not_nil, H1. by apply (Hx s r).
Qed.
