(* ===== verification/SemTheorems.v ===== *)
(** * What the semantic analysis guarantees

    The theorems about names, lowering and the passes over drafts, each with a
    witness on a sample project of two modules: [sum] adds the numbers up to its
    argument in a loop, [twice] calls it from a conditional, under a local name. *)
From stdpp Require Import base numbers list strings pretty gmap.
From S2P Require Import Prelude Source Diagnostics Abi CfgAlgorithms ControlFlow ControlFlowSpec ControlFlowExec Syntax.
From S2P Require Import Semantics SemGraphs SemLower SemValues SemProgram SourceSemantics SourceRelation CfgSteps.
From S2P Require Import SemPrune SemLogic SemFunction SemCorrect.

Module SemSample.
Open Scope N_scope.

Definition sources : SourceMap :=
  match (build 1 [mkSourceFileInput "src/lib.zry" (repeat 97 40); mkSourceFileInput "src/main.zry" (repeat 97 40)]).2 with
  | Ok m => m
  | Err _ => mkSourceMap 0 [] ∅
  end.
Definition lib : FileId := mkFileId 1 0.
Definition main : FileId := mkFileId 1 1.

Section syntax.
Context (file : FileId).
Definition sp : Span := mkSpan file 0 3.
Definition ident (name : string) : IdentifierSyntax := mkIdentifier name sp.
Definition named (name : string) : TypeSyntax := mkTypeSyntax sp (TyNamed name).
Definition expr (kind : ExpressionKind) : ExpressionSyntax := mkExpressionSyntax sp kind.
Definition stmt (kind : StatementKind) : StatementSyntax := mkStatementSyntax sp kind.
Definition param (name ty : string) : ParameterSyntax := mkParameterSyntax sp (ident name) (named ty).
Definition local (name : string) (e : ExpressionId) : StatementSyntax :=
  stmt (SLocalDeclaration sp true (ident name) (named "i32") sp e sp).
Definition assign (name : string) (e : ExpressionId) : StatementSyntax := stmt (SAssignment (ident name) sp e sp).
Definition ret (e : ExpressionId) : StatementSyntax := stmt (SReturn sp e sp).
Definition block (statements : list StatementId) : BlockSyntax := mkBlockSyntax sp sp statements sp.
Definition ref (name : string) : ExpressionSyntax := expr (EReference (ident name)).
Definition int (spelling : string) : ExpressionSyntax := expr (EI32Literal spelling).

Definition sum_body : FunctionBodySyntax := mkFunctionBodySyntax sp 0
  [block [0; 1; 2; 5]; block [3; 4]]
  [ local "i" 0; local "total" 1; stmt (SWhile sp sp 4 sp 1);
    assign "i" 7; assign "total" 10; ret 11 ]
  [ int "0"; int "0"; ref "i"; ref "n"; expr (ELessThan sp 2 3);
    ref "i"; int "1"; expr (EAddition sp 5 6);
    ref "total"; ref "i"; expr (EAddition sp 8 9); ref "total" ].
Definition sum_function : FunctionSyntax :=
  mkFunctionSyntax sp (Some sp) sp (ident "sum") [param "n" "i32"] (named "i32") sum_body.

Definition twice_body : FunctionBodySyntax := mkFunctionBodySyntax sp 0
  [block [0; 1; 3]; block [2]]
  [ local "result" 0; stmt (SIf sp sp 3 sp 1 None); assign "result" 8; ret 9 ]
  [ int "-1"; int "0"; ref "x"; expr (ELessEqual sp 1 2);
    ref "x"; expr (ECall (ident "total") sp [4] sp); ref "x"; expr (ECall (ident "total") sp [6] sp);
    expr (EAddition sp 5 7); ref "result" ].
Definition twice_function : FunctionSyntax :=
  mkFunctionSyntax sp (Some sp) sp (ident "twice") [param "x" "i32"] (named "i32") twice_body.
Definition import_sum : ImportSyntax :=
  mkImportSyntax sp sp [mkImportBindingSyntax sp (ident "sum") (ident "total") (Some sp)] sp
    (mkModuleSpecifierSyntax "./lib.zry" sp sp) sp.
End syntax.

Definition snapshot : ProjectSyntaxSnapshot := mkSnapshot 1 3
  [ mkSourceUnit lib "src/lib.zry" [] [sum_function lib];
    mkSourceUnit main "src/main.zry" [import_sum main] [twice_function main] ] [].
Definition input : SemanticInput := mkSemanticInput snapshot sources main.

(** The keys of [sum] and [twice] *)
Definition sum_key : FunctionKey := mkFunctionKey 0 0.
Definition twice_key : FunctionKey := mkFunctionKey 1 0.
(** A draft whose join has a parameter that is never used *)
Definition draft : list Block :=
  let d id ty := mkValueDefinition id ty (sp main) in
  let t kind := [mkSpannedTerminator (sp main) kind] in
  [ mkBlock 0 [] [mkInstruction (d 1 I32) (I32Literal 5); mkInstruction (d 2 I32) (I32Add 0 1)] (t (Jump 1 [1; 2]));
    mkBlock 1 [d 7 I32; d 9 I32] [] (t (Return 9)) ].
End SemSample.

(** ** Names *)


Lemma sample_sized : snapshot_sized (sn_files SemSample.snapshot).
Proof.
  split; [done|intros [|[|i]] file [= <-]; done|].
  intros [|[|i]] file f [= <-] Hf%list_elem_of_singleton; by subst f.
Qed.
Lemma ok_some {A} (r : option (result (list Diagnostic) A)) :
  match r with Some (Ok _) => true | _ => false end = true -> exists a, r = Some (Ok a).
Proof. destruct r as [[]|]; by eauto. Qed.
Lemma err_some {A} (r : option (result (list Diagnostic) A)) :
  match r with Some (Err _) => true | _ => false end = true -> exists ds, r = Some (Err ds).
Proof. destruct r as [[]|]; by eauto. Qed.
Lemma sample_lowered : exists vp, lower SemSample.input = Some (Ok vp).
Proof. apply ok_some. vm_compute. reflexivity. Qed.
Lemma sample_rejected : exists ds, lower (mkSemanticInput SemSample.snapshot SemSample.sources SemSample.lib) = Some (Err ds).
Proof. apply err_some. vm_compute. reflexivity. Qed.

(** ** Lowering *)

(** A project that is lowered and verified computes what its source means:
    with the interpreter of the syntax trees a call of a function returns a
    value exactly when the lowered function returns that value. *)
Theorem lowering_preserves_meaning input vp key vs v :
  snapshot_sized (sn_files (si_syntax input)) -> lower input = Some (Ok vp) ->
  (exists fuel, source_call (sn_files (si_syntax input)) fuel key vs = Done v) <->
  (exists fuel, call_function fuel (vp_program vp) key vs = Done v).
Proof. intros Hsized H. by apply lowered_calls, lower_project. Qed.

Lemma lowering_preserves_meaning_witness : exists vp, lower SemSample.input = Some (Ok vp) /\
  exists fuel, call_function fuel (vp_program vp) SemSample.twice_key [VI32 4] = Done (VI32 20).
Proof.
  destruct sample_lowered as [vp E]. exists vp. split; [exact E|].
  apply (lowering_preserves_meaning SemSample.input vp SemSample.twice_key [VI32 4] (VI32 20) sample_sized E).
  exists 20. vm_compute. reflexivity.
Defined.

(** C8: Every declared function of a lowered project has one lowered function,
    in its place and with its declared result type, and every value it returns
    in the meaning of the source has that type. *)
Theorem lowered_functions_typed input vp key fn :
  snapshot_sized (sn_files (si_syntax input)) -> lower input = Some (Ok vp) ->
  source_function (sn_files (si_syntax input)) key = Some fn ->
  exists f, program_function (vp_program vp) key = Some f /\ declared_type (fs_result_type fn) = Some (f_result f) /\
    forall fuel vs v, source_call (sn_files (si_syntax input)) fuel key vs = Done v -> value_ty v = f_result f.
Proof.
  intros Hsized H Hfn. destruct (lower_project _ _ Hsized H) as [_ _ Hg].
  destruct (function_of_source _ _ Hg _ _ Hfn) as (f & Hf & Hty & _). exists f. split_and!; [done..|].
  intros fuel vs v Hv. destruct (proj1 (source_call_iff _ _ _ _) (ex_intro _ fuel Hv)) as [depth Hc].
  destruct (calls_agree _ _ Hg depth) as [_ Ht]. unfold source_function in Hfn.
  destruct (sn_files (si_syntax input) !! fk_module key) as [file|] eqn:Ef; [|done]. destruct key as [m j].
  exact (tc_typed _ _ Ht m j file fn (f_result f) vs v Ef Hfn Hty Hc).
Qed.
Lemma lowered_functions_typed_witness : exists vp f, lower SemSample.input = Some (Ok vp) /\
  program_function (vp_program vp) SemSample.sum_key = Some f /\ f_result f = I32.
Proof.
  destruct sample_lowered as [vp E].
  destruct (lowered_functions_typed SemSample.input vp SemSample.sum_key (SemSample.sum_function SemSample.lib) sample_sized E eq_refl)
    as (f & Hf & Hty & _). exists vp, f. split_and!; [exact E|exact Hf|]. injection Hty as Hty. by rewrite <- Hty.
Defined.

(** ** Passes over drafts *)

(** C28: Removing the parameters that are never used ends on every draft whose
    edges have a parameter for each argument, and from every point the draft
    returns the same values as before. *)
Theorem pruning_exact blocks :
  edges_fit blocks -> exists blocks', prune_dead_block_parameters blocks = Some blocks' /\
    forall C k b p env w, steps C blocks k b p env w <-> steps C blocks' k b p env w.
Proof.
  intros Hfit. destruct (prune_total _ Hfit) as [blocks' E]. exists blocks'. split; [done|]. intros. by apply prune_preserves.
Qed.
Lemma pruning_exact_witness : exists blocks', prune_dead_block_parameters SemSample.draft = Some blocks' /\
  length <$> (b_parameters <$> blocks') = [0; 1].
Proof.
  destruct (pruning_exact SemSample.draft) as (blocks' & E & _).
  - intros B edge HB He. apply list_elem_of_In in HB as [<-|[<-|[]]]; [|by apply list_elem_of_In in He].
    apply list_elem_of_In in He as [<-|[]]. eexists. split; [reflexivity|]. cbn. lia.
  - exists blocks'. split; [exact E|]. vm_compute in E. injection E as <-. reflexivity.
Defined.


(** ** Rejection *)

(** A rejected project has at least one diagnostic, and at most the published
    number of them. *)
Theorem lower_rejection_bounded input ds :
  lower input = Some (Err ds) -> ds <> [] /\ (len ds <= 256)%N.
Proof. apply lower_rejection. Qed.
Lemma lower_rejection_bounded_witness : exists ds,
  lower (mkSemanticInput SemSample.snapshot SemSample.sources SemSample.lib) = Some (Err ds) /\ ds <> [].
Proof.
  destruct sample_rejected as [ds E].
  exists ds. split; [exact E|]. by apply (lower_rejection_bounded (mkSemanticInput SemSample.snapshot SemSample.sources SemSample.lib)).
Defined.
