(* ===== verification/SnapshotTheorems.v ===== *)
(** * What the snapshot verifier guarantees

    The theorems about accepted and rejected snapshots, and about a snapshot on
    its way to the semantic analysis, with witnesses on a project of two modules
    whose raw claims are written out with their spans. *)
From stdpp Require Import base numbers list list_numbers strings pretty gmap.
From S2P Require Import Prelude Source SourceText Diagnostics Abi CfgAlgorithms ControlFlow ControlFlowExec Syntax.
From S2P Require Import Snapshot SnapshotLimits SnapshotArenas SnapshotTotal.
From S2P Require Import Semantics SemGraphs SemLower SemValues SemProgram SourceSemantics SourceRelation SemFunction SemTotal SemVerdict SemCorrect SemTheorems.

Module SnapshotSample.
Open Scope N_scope.
Definition us (file start end_ : N) : UntrustedSpan := mkUntrustedSpan file start end_.
Definition rid (text : string) (span : UntrustedSpan) : RawIdentifierSyntax := mkRawIdentifier text span.
Definition rty (name : string) (span : UntrustedSpan) : RawTypeSyntax := mkRawType span (RawTyNamed name).

Definition raw_lib : RawSourceUnit := mkRawUnit 0 "src/lib.zry" []
  [(mkRawFunction (us 0 0 91) (Some (us 0 0 6)) (us 0 7 15) (rid "sum" (us 0 16 19))
    [mkRawParameter (us 0 20 26) (rid "n" (us 0 20 21)) (rty "i32" (us 0 23 26))] (rty "i32" (us 0 29 32))
    (mkRawBody (us 0 33 91) 0
      [ (mkRawBlock (us 0 33 91) (us 0 33 34) [0; 1; 3] (us 0 90 91));
        (mkRawBlock (us 0 65 79) (us 0 65 66) [2] (us 0 78 79)) ]
      [ mkRawStatement (us 0 35 50) (RSLocalDeclaration (us 0 35 38) true (rid "i" (us 0 39 40)) (rty "i32" (us 0 42 45)) (us 0 46 47) 0 (us 0 49 50));
        mkRawStatement (us 0 51 79) (RSWhile (us 0 51 56) (us 0 57 58) 3 (us 0 63 64) 1);
        mkRawStatement (us 0 67 77) (RSAssignment (rid "i" (us 0 67 68)) (us 0 69 70) 6 (us 0 76 77));
        mkRawStatement (us 0 80 89) (RSReturn (us 0 80 86) 7 (us 0 88 89)) ]
      [ mkRawExpression (us 0 48 49) (REI32Literal "0");
        mkRawExpression (us 0 58 59) (REReference (rid "i" (us 0 58 59)));
        mkRawExpression (us 0 62 63) (REReference (rid "n" (us 0 62 63)));
        mkRawExpression (us 0 58 63) (RELessThan (us 0 60 61) 1 2);
        mkRawExpression (us 0 71 72) (REReference (rid "i" (us 0 71 72)));
        mkRawExpression (us 0 75 76) (REI32Literal "1");
        mkRawExpression (us 0 71 76) (REAddition (us 0 73 74) 4 5);
        mkRawExpression (us 0 87 88) (REReference (rid "i" (us 0 87 88))) ]))].

Definition raw_main : RawSourceUnit := mkRawUnit 1 "src/main.zry"
  [(mkRawImport (us 1 0 41) (us 1 0 6) [mkRawBinding (us 1 9 21) (rid "sum" (us 1 9 12)) (rid "total" (us 1 16 21)) (Some (us 1 13 15))] (us 1 24 28) (mkRawSpecifier "./lib.zry" (us 1 29 40) (us 1 30 39)) (us 1 40 41))]
  [(mkRawFunction (us 1 42 108) (Some (us 1 42 48)) (us 1 49 57) (rid "twice" (us 1 58 63))
    [mkRawParameter (us 1 64 70) (rid "x" (us 1 64 65)) (rty "i32" (us 1 67 70))] (rty "i32" (us 1 73 76))
    (mkRawBody (us 1 77 108) 0
      [ (mkRawBlock (us 1 77 108) (us 1 77 78) [0] (us 1 107 108)) ]
      [ mkRawStatement (us 1 79 106) (RSReturn (us 1 79 85) 4 (us 1 105 106)) ]
      [ mkRawExpression (us 1 92 93) (REReference (rid "x" (us 1 92 93)));
        mkRawExpression (us 1 86 94) (RECall (rid "total" (us 1 86 91)) (us 1 91 92) [0] (us 1 93 94));
        mkRawExpression (us 1 103 104) (REReference (rid "x" (us 1 103 104)));
        mkRawExpression (us 1 97 105) (RECall (rid "total" (us 1 97 102)) (us 1 102 103) [2] (us 1 104 105));
        mkRawExpression (us 1 86 105) (REAddition (us 1 95 96) 1 3) ]))].

Definition lib_text : list scalar :=
  string_bytes "export function sum(n: i32): i32 { let i: i32 = 0; while (i < n) { i = i + 1; } return i; }".
Definition main_text : list scalar :=
  string_bytes "import { sum as total } from './lib.zry'; export function twice(x: i32): i32 { return total(x) + total(x); }".
Definition inputs : list SourceFileInput :=
  [mkSourceFileInput "src/lib.zry" lib_text; mkSourceFileInput "src/main.zry" main_text].
Definition sources : SourceMap := match (build 1 inputs).2 with Ok m => m | Err _ => mkSourceMap 0 [] ∅ end.
Definition raw : RawProjectSyntaxSnapshot := mkRawSnapshot 3 [raw_lib; raw_main] [].
Definition main : FileId := mkFileId 1 1.
(** The same claims with another order of operands *)
Definition raw_wrong : RawProjectSyntaxSnapshot := mkRawSnapshot 3 [raw_main; raw_lib] [].
End SnapshotSample.

(** ** Accepted snapshots *)

Record accepted (raw : RawProjectSyntaxSnapshot) (sources : SourceMap) (sn : ProjectSyntaxSnapshot) : Prop := {
  ad_version : rs_schema_version raw = PROTOCOL_VERSION /\ sn_schema_version sn = PROTOCOL_VERSION;
  ad_map : sn_source_map sn = sm_id sources;
  ad_complete : len (sn_files sn) = sm_len sources;
  ad_files : raw_unit <$> sn_files sn = rs_files raw;
  ad_units i u : sn_files sn !! i = Some u -> verified_unit sources i u;
  ad_diagnostics : raw_diagnostic <$> sn_diagnostics sn ≡ₚ rs_diagnostics raw;
  ad_spans : Forall (span_verified sources) (sn_diagnostics sn);
  ad_budget : within_budget raw sources }.

Lemma blocks_within raw sources : within_budget raw sources -> Forall blocks_present (rs_files raw).
Proof.
  intros [_ _ _ He _]. eapply Forall_impl; [exact He|]. intros file [_ _ _ Hf]. eapply Forall_impl; [exact Hf|].
  intros f [_ Hr _ _ _ _ _ _] E. rewrite E in Hr. unfold len in Hr. cbn in Hr. lia.
Qed.
Lemma yspec_claims raw sources s (Q : YErrors -> list SourceUnit * list Diagnostic -> Prop) :
  built sources -> Forall blocks_present (rs_files raw) ->
  (forall s' us ds, rs_schema_version raw = PROTOCOL_VERSION -> len (rs_files raw) = sm_len sources -> raw_unit <$> us = rs_files raw ->
     (forall i u, us !! i = Some u -> verified_unit sources i u) -> raw_diagnostic <$> ds ≡ₚ rs_diagnostics raw ->
     Forall (span_verified sources) ds -> Q s' (us, ds)) ->
  yspec (verify_claims raw sources) s Q.
Proof.
  intros Hb Hp HQ. unfold verify_claims. ybind. apply yspec_when; [intros _; apply yspec_protocol|].
  intros Hv%negb_false_iff%N.eqb_eq _. ybind. apply yspec_when; [intros _; apply yspec_protocol|].
  intros Hl%negb_false_iff%N.eqb_eq _. ybind. apply yspec_files; [done..|]. intros s1 us Hus Hunits _.
  ybind. apply yspec_diagnostics. intros ds Hds Hspans _. by apply yspec_ret, HQ.
Qed.
Lemma verify_snapshot_accepted raw sources sn :
  built sources -> verify_snapshot raw sources = Some (Ok sn) -> accepted raw sources sn.
Proof.
  intros Hb. unfold verify_snapshot. destruct (budget_error raw sources) as [[]|] eqn:Eb; [|done].
  apply (budget_exact _ _ Hb) in Eb.
  pose proof (yspec_claims raw sources no_syntax_errors (fun _ r => accepted raw sources
    (mkSnapshot (sm_id sources) PROTOCOL_VERSION r.1 r.2)) Hb (blocks_within _ _ Eb)) as Hc.
  unfold yspec in Hc. destruct (verify_claims raw sources no_syntax_errors) as [e [[us ds]| |]]; [|done..].
  destruct (ye_items e) eqn:Ee; [|done]. intros [= <-]. apply Hc; [|done].
  intros _ us' ds' Hv Hl Hus Hunits Hds Hspans. split; cbn; [done..| |done|done|done|done|done].
  rewrite <- Hl, <- Hus. unfold len. by rewrite length_fmap.
Qed.

(** The files of an accepted snapshot are small. *)
Lemma accepted_sized raw sources sn : accepted raw sources sn -> snapshot_sized (sn_files sn).
Proof.
  intros [_ _ _ Hf _ _ _ [Hn _ _ He _]].
  assert (Hfile : forall i file, sn_files sn !! i = Some file -> file_within (raw_unit file)).
  { intros i file Hi. rewrite Forall_lookup in He. apply (He i). by rewrite <- Hf, list_lookup_fmap, Hi. }
  split.
  - rewrite <- Hf in Hn. unfold len, MAX_SOURCE_FILES, u32_max in *. rewrite length_fmap in Hn. lia.
  - intros i file [_ Hw _ _]%Hfile. cbn in Hw. unfold len, MAX_FUNCTIONS_PER_MODULE, u32_max in *. rewrite length_fmap in Hw. lia.
  - intros i file f [_ _ _ Hw]%Hfile Hin. cbn in Hw. rewrite Forall_fmap, Forall_forall in Hw. destruct (Hw f Hin) as [Hp _ _ _ _ _ _ _].
    cbn in Hp. unfold len, MAX_PARAMETERS_PER_FUNCTION, u32_max in *. rewrite length_fmap in Hp. lia.
Qed.

(** ** Binding to the source map *)

Lemma dense_ids (m : N) (us : list SourceUnit) (o k : nat) :
  (forall i u, us !! i = Some u -> su_id u = mkFileId m (N.of_nat (o + i))) ->
  length (filter (fun file => su_id file = mkFileId m (N.of_nat k)) us) = if decide (o <= k < o + length us) then 1 else 0.
Proof.
  revert o. induction us as [|u us IH]; intros o Hids; cbn [length].
  { destruct (decide _); [lia|done]. }
  pose proof (Hids 0 u eq_refl) as Hu. rewrite Nat.add_0_r in Hu.
  assert (Hrest : forall i u', us !! i = Some u' -> su_id u' = mkFileId m (N.of_nat (S o + i))).
  { intros i u' Hi. rewrite (Hids (S i) u' Hi). f_equal. lia. }
  destruct (decide (o = k)) as [->|Hne].
  - rewrite filter_cons_True by done. cbn [length]. rewrite (IH _ Hrest). repeat destruct (decide _); lia.
  - rewrite filter_cons_False; [|rewrite Hu; intros [= ?]; lia]. rewrite (IH _ Hrest). repeat destruct (decide _); lia.
Qed.
Lemma accepted_bound raw sources sn : accepted raw sources sn -> is_bound_to sn sources = true.
Proof.
  intros [_ Hm Hl _ Hu _ Hs _]. unfold is_bound_to. rewrite Hm, Hl, !N.eqb_refl. cbn [andb]. apply andb_true_iff. split.
  - apply forallb_forall. intros u Hin. apply list_elem_of_In, list_elem_of_lookup in Hin as [i Hi].
    destruct (Hu _ _ Hi) as [_ (source & -> & Hp) _ _]. by apply bool_decide_eq_true.
  - apply forallb_forall. intros span Hin. apply list_elem_of_In, list_elem_of_omap in Hin as (d & Hd & E).
    rewrite Forall_forall in Hs. specialize (Hs _ Hd _ E). unfold verify_span, sm_span in Hs. unfold resolve.
    destruct (validated_source sources _) eqn:Ev; [|done]. cbn in Hs. injection Hs as Hs. cbn in Ev. rewrite Hs in Ev. by rewrite Ev.
Qed.
(** The snapshot becomes an input of the analysis exactly for an entry of the map and without errors. *)
Lemma accepted_ready raw sources sn entry :
  accepted raw sources sn ->
  is_Some (semantic_input sn sources entry) <->
  is_Some (sm_source sources entry) /\ Forall (fun d => d_severity d <> SevError) (sn_diagnostics sn).
Proof.
  intros Ha. unfold semantic_input. rewrite (accepted_bound _ _ _ Ha). destruct Ha as [_ Hm Hl _ Hu _ _ _]. cbn [andb].
  assert (Hd : forallb (fun d => negb (bool_decide (d_severity d = SevError))) (sn_diagnostics sn) = true <->
    Forall (fun d => d_severity d <> SevError) (sn_diagnostics sn)).
  { rewrite forallb_forall, Forall_forall. setoid_rewrite negb_true_iff. setoid_rewrite bool_decide_eq_false.
    by setoid_rewrite list_elem_of_In. }
  assert (He : is_Some (sm_source sources entry) -> length (filter (fun file => su_id file = entry) (sn_files sn)) = 1).
  { intros [source Hsource]. unfold sm_source in Hsource. destruct entry as [m k]. cbn in Hsource.
    destruct (N.eqb_spec m (sm_id sources)) as [->|]; [|done]. cbn in Hsource. unfold get in Hsource. apply lookup_lt_Some in Hsource.
    rewrite <- (N2Nat.id k), (dense_ids _ _ 0); [|intros i u Hi; by destruct (Hu _ _ Hi)].
    unfold sm_len, len in Hl. rewrite decide_True by lia. done. }
  destruct (bool_decide_reflect (is_Some (sm_source sources entry))) as [Hs|Hs]; cbn [andb].
  - rewrite (He Hs). cbn [Nat.eqb andb]. destruct (forallb _ _); [|split; [by intros []|intros [_ H]; by apply Hd in H]].
    split; [intros _; split; [done|by apply Hd]|by eexists].
  - split; [by intros []|by intros []].
Qed.

(** ** The sample *)

Lemma sample_built : built SnapshotSample.sources.
Proof. exists 1%N, SnapshotSample.inputs. vm_compute. reflexivity. Qed.
Lemma sample_accepted : exists sn, verify_snapshot SnapshotSample.raw SnapshotSample.sources = Some (Ok sn).
Proof. apply ok_some. vm_compute. reflexivity. Qed.
Lemma wrong_rejected : exists ds, verify_snapshot SnapshotSample.raw_wrong SnapshotSample.sources = Some (Err ds).
Proof. apply err_some. vm_compute. reflexivity. Qed.

(** ** Properties *)

(** C24: Nothing of an accepted snapshot is invented or lost: its files are the
    raw ones with every span validated, its diagnostics are the raw ones in
    another order with their spans validated, it has the version of the protocol
    and belongs to the source map. *)
Theorem snapshot_roundtrip raw sources sn :
  built sources -> verify_snapshot raw sources = Some (Ok sn) ->
  raw_unit <$> sn_files sn = rs_files raw /\ raw_diagnostic <$> sn_diagnostics sn ≡ₚ rs_diagnostics raw /\
  Forall (span_verified sources) (sn_diagnostics sn) /\ rs_schema_version raw = sn_schema_version sn /\
  is_bound_to sn sources = true.
Proof.
  intros Hb H. pose proof (verify_snapshot_accepted _ _ _ Hb H) as Ha. pose proof (accepted_bound _ _ _ Ha).
  destruct Ha as [[-> ->] _ _ Hf _ Hd Hs _]. by split_and!.
Qed.
Lemma snapshot_roundtrip_witness : exists sn, verify_snapshot SnapshotSample.raw SnapshotSample.sources = Some (Ok sn) /\
  raw_unit <$> sn_files sn = [SnapshotSample.raw_lib; SnapshotSample.raw_main].
Proof.
  destruct sample_accepted as [sn E]. exists sn. split; [exact E|]. apply (snapshot_roundtrip _ _ _ sample_built E).
Defined.


(** C16: The arenas of every body of an accepted snapshot are canonical: operands
    precede their expressions, blocks are opened after the block they are in,
    every reference is in range and every node has exactly one owner. *)
Theorem snapshot_bodies_well_formed raw sources sn u f :
  built sources -> verify_snapshot raw sources = Some (Ok sn) -> u ∈ sn_files sn -> f ∈ su_functions u ->
  well_formed_body (fs_body f).
Proof.
  intros Hb H [i Hi]%list_elem_of_lookup Hf. destruct (verify_snapshot_accepted _ _ _ Hb H) as [_ _ _ _ Hu _ _ _].
  destruct (Hu _ _ Hi) as [_ _ Hw _]. unfold bodies_well_formed in Hw. rewrite Forall_forall in Hw. by apply Hw.
Qed.

(** The files of the accepted sample *)
Lemma sample_files : exists sn u f, verify_snapshot SnapshotSample.raw SnapshotSample.sources = Some (Ok sn) /\
  u ∈ sn_files sn /\ f ∈ su_functions u /\ length (fb_blocks (fs_body f)) = 2.
Proof.
  destruct sample_accepted as [sn E]. destruct (verify_snapshot_accepted _ _ _ sample_built E) as [_ _ _ Hf _ _ _ _].
  assert (Hu : SnapshotSample.raw_lib ∈ raw_unit <$> sn_files sn) by (rewrite Hf; by left).
  apply list_elem_of_fmap in Hu as (u & Eu & Hu).
  destruct (su_functions u) as [|f fs] eqn:Efs; [apply (f_equal ru_functions) in Eu; cbn in Eu; by rewrite Efs in Eu|].
  exists sn, u, f. split_and!; [done|done|rewrite Efs; by left|]. apply (f_equal (fun u => length <$> (ry_blocks ∘ rf_body <$> ru_functions u))) in Eu.
  cbn in Eu. rewrite Efs in Eu. cbn in Eu. injection Eu as Eu _. by rewrite length_fmap in Eu.
Qed.
Lemma snapshot_bodies_well_formed_witness : exists f, length (fb_blocks (fs_body f)) = 2 /\ well_formed_body (fs_body f).
Proof.
  destruct sample_files as (sn & u & f & E & Hu & Hf & Hl). exists f. split; [exact Hl|].
  exact (snapshot_bodies_well_formed SnapshotSample.raw SnapshotSample.sources sn u f sample_built E Hu Hf).
Defined.



(** C15: The snapshot verifier returns a verdict on every raw snapshot: no index
    is out of range and both canonical walks end within their fuel. *)
Theorem snapshot_verdict_total raw sources : is_Some (verify_snapshot raw sources).
Proof. destruct (snapshot_verdict raw sources) as (r & E & _). by exists r. Qed.

(** An accepted snapshot is accepted by the semantic analysis as its input
    exactly for an entry that is a file of the source map, when the front end
    reported no error. *)
Theorem snapshot_ready_exact raw sources sn entry :
  built sources -> verify_snapshot raw sources = Some (Ok sn) ->
  is_Some (semantic_input sn sources entry) <->
  is_Some (sm_source sources entry) /\ Forall (fun d => rd_severity d <> SevError) (rs_diagnostics raw).
Proof.
  intros Hb H. pose proof (verify_snapshot_accepted _ _ _ Hb H) as Ha. rewrite (accepted_ready _ _ _ _ Ha).
  destruct Ha as [_ _ _ _ _ Hd _ _]. by rewrite <- Hd, Forall_fmap.
Qed.

Lemma snapshot_ready_exact_witness : exists sn,
  verify_snapshot SnapshotSample.raw SnapshotSample.sources = Some (Ok sn) /\
  is_Some (semantic_input sn SnapshotSample.sources SnapshotSample.main).
Proof.
  destruct sample_accepted as [sn E]. exists sn. split; [exact E|].
  apply (snapshot_ready_exact SnapshotSample.raw SnapshotSample.sources sn SnapshotSample.main sample_built E).
  split; [by eexists|constructor].
Defined.

(** C1: From raw claims to running code: when a snapshot is accepted, and its
    project is lowered and verified, a call of a function returns a value in the
    meaning of the accepted syntax trees, which are those of the raw claims,
    exactly when the lowered function returns it. *)
Theorem compiled_snapshot_meaning raw sources sn entry input vp key vs v :
  built sources -> verify_snapshot raw sources = Some (Ok sn) -> semantic_input sn sources entry = Some input ->
  lower input = Some (Ok vp) ->
  raw_unit <$> sn_files sn = rs_files raw /\
  ((exists fuel, source_call (sn_files sn) fuel key vs = Done v) <->
   (exists fuel, call_function fuel (vp_program vp) key vs = Done v)).
Proof.
  intros Hb H Hi Hl. pose proof (verify_snapshot_accepted _ _ _ Hb H) as Ha. split; [apply Ha|].
  unfold semantic_input in Hi. destruct (_ && _); [|done]. injection Hi as <-.
  apply (lowered_calls (mkSemanticInput sn sources entry)), lower_project; [by eapply accepted_sized|done].
Qed.
(** The accepted sample is lowered. *)
Definition sample_pipeline : option (ProjectSyntaxSnapshot * SemanticInput * VerifiedProgram) :=
  match verify_snapshot SnapshotSample.raw SnapshotSample.sources with
  | Some (Ok sn) =>
      match semantic_input sn SnapshotSample.sources SnapshotSample.main with
      | Some input => match lower input with Some (Ok vp) => Some (sn, input, vp) | _ => None end
      | None => None
      end
  | _ => None
  end.
Lemma sample_pipeline_some : is_Some sample_pipeline.
Proof. apply (bool_decide_unpack _). vm_compute. exact I. Qed.
Lemma sample_pipeline_spec sn input vp : sample_pipeline = Some (sn, input, vp) ->
  verify_snapshot SnapshotSample.raw SnapshotSample.sources = Some (Ok sn) /\
  semantic_input sn SnapshotSample.sources SnapshotSample.main = Some input /\ lower input = Some (Ok vp).
Proof.
  unfold sample_pipeline. destruct (verify_snapshot _ _) as [[sn'|]|]; [|done..].
  destruct (semantic_input _ _ _) as [input'|] eqn:Ei; [|done]. destruct (lower input') as [[vp'|]|] eqn:El; [|done..].
  by intros [= -> -> ->].
Qed.
Lemma sample_meaning sn input vp : sample_pipeline = Some (sn, input, vp) ->
  source_call (sn_files sn) 20 (mkFunctionKey 1 0) [VI32 4] = Done (VI32 8).
Proof.
  assert (H : (fun x => source_call (sn_files x.1.1) 20 (mkFunctionKey 1 0) [VI32 4]) <$> sample_pipeline = Some (Done (VI32 8))).
  { vm_compute. reflexivity. }
  intros E. rewrite E, fmap_Some in H. destruct H as (x & [= <-] & H). symmetry. exact H.
Qed.
Lemma compiled_snapshot_meaning_witness : exists sn, verify_snapshot SnapshotSample.raw SnapshotSample.sources = Some (Ok sn) /\
  exists input vp, lower input = Some (Ok vp) /\
  exists fuel, call_function fuel (vp_program vp) (mkFunctionKey 1 0) [VI32 4] = Done (VI32 8).
Proof.
  destruct sample_pipeline_some as [[[sn input] vp] E]. destruct (sample_pipeline_spec _ _ _ E) as (E1 & E2 & E3).
  exists sn. split; [exact E1|]. exists input, vp. split; [exact E3|].
  destruct (compiled_snapshot_meaning SnapshotSample.raw SnapshotSample.sources sn SnapshotSample.main input vp
    (mkFunctionKey 1 0) [VI32 4] (VI32 8) sample_built E1 E2 E3) as [_ H]. apply H. exists 20.
  exact (sample_meaning sn input vp E).
Defined.

(** C11: The analysis always ends: for an accepted snapshot and an entry of its
    source map, the lowering returns a verdict, which is a verified program or
    a rejection that holds at least one diagnostic and at most 256. No lookup is
    out of range, no expectation of the code fails, and no search runs out of fuel. *)
Theorem lowering_verdict raw sources sn entry input :
  built sources -> verify_snapshot raw sources = Some (Ok sn) -> semantic_input sn sources entry = Some input ->
  exists verdict, lower input = Some verdict /\
    (forall ds, verdict = Err ds -> ds <> [] /\ (len ds <= 256)%N).
Proof.
  intros Hb H Hi. pose proof (verify_snapshot_accepted _ _ _ Hb H) as Ha.
  unfold semantic_input in Hi. destruct (_ && _); [|done]. injection Hi as <-.
  destruct (lower_total (mkSemanticInput sn sources entry) (accepted_sized _ _ _ Ha)) as [verdict E].
  { apply Forall_lookup. intros i u Hu. destruct Ha as [_ _ _ _ Hus _ _ _]. apply (Hus _ _ Hu). }
  exists verdict. split; [exact E|]. intros ds ->. by apply (lower_rejection _ _ E).
Qed.
Lemma lowering_verdict_witness : exists sn input,
  verify_snapshot SnapshotSample.raw SnapshotSample.sources = Some (Ok sn) /\
  semantic_input sn SnapshotSample.sources SnapshotSample.main = Some input /\ is_Some (lower input).
Proof.
  destruct sample_pipeline_some as [[[sn input] vp] E]. destruct (sample_pipeline_spec _ _ _ E) as (E1 & E2 & E3).
  exists sn, input. split; [exact E1|]. split; [exact E2|].
  destruct (lowering_verdict SnapshotSample.raw SnapshotSample.sources sn SnapshotSample.main input sample_built E1 E2) as (r & H & _).
  exists r. exact H.
Defined.
