(* ===== verification/NativeMir.v ===== *)
(** * The native MIR of the control-flow profile
    ([crates/zryna-native-mir/src/control_flow_v1.rs])

    Raw MIR claims, the independent verifier [mir_verify] with its preflight,
    inventory, value, edge, dominance, loop, call-graph and ABI checks, and
    [mir_lower], which lowers a sealed ControlFlowV1 program one-for-one and
    verifies the result.  The graph algorithms ([reachable_from_entry],
    [immediate_dominators], [intersect], [dominator_intervals], the two
    topological loops) are the same text in both crates and are those of
    [CfgAlgorithms]; types, identities and the private tables of the two
    verifiers ([FunctionKey], [DefinitionLocation], [ValueInfo], the error
    buffer) have the same fields and are those of [ControlFlow]. *)
From stdpp Require Import base numbers list strings pretty gmap.
From S2P Require Import Prelude Source Diagnostics Abi CfgAlgorithms ControlFlow.

(** ** Limits of this crate; the others are the limits of the IR *)

Definition MAX_TERMINATORS_PER_FUNCTION : N := MAX_BLOCKS_PER_FUNCTION.
Definition MAX_TERMINATORS_PER_PROGRAM : N := MAX_BLOCKS_PER_PROGRAM.
Definition MAX_CALL_ARGUMENTS_PER_PROGRAM : N := MAX_CALL_EDGES * MAX_PARAMETERS_PER_FUNCTION.
Definition MAX_EDGE_ARGUMENTS_PER_PROGRAM : N := MAX_CFG_EDGES_PER_PROGRAM * MAX_BLOCK_PARAMETERS.
Definition MAX_INTERNAL_SYMBOL_BYTES : N := 128.
Definition MAX_INTERNAL_SYMBOL_BYTES_PER_PROGRAM : N := MAX_FUNCTIONS_PER_PROGRAM * MAX_INTERNAL_SYMBOL_BYTES.
Definition MAX_ENTRY_EXPORT_BYTES : N := MAX_LOGICAL_EXPORT_NAME_BYTES.
Definition MAX_ENTRY_EXPORT_BYTES_PER_PROGRAM : N := MAX_ABI_EXPORTS * MAX_ENTRY_EXPORT_BYTES.

(** ** Raw claims *)

(** [CallingConvention]: any code; the verifier admits one *)
Definition CallingConvention := N.
Definition ZRYNA_INTERNAL_CONTROL_FLOW_V1 : CallingConvention := 2%N.

Record MirValueDefinition := mkMirDefinition { md_id : ValueId; md_ty : Ty }.

Inductive MirInstructionKind :=
  | MBoolLiteral (b : bool)
  | MI32Literal (z : Z)
  | MI32Add (lhs rhs : ValueId)
  | MI32Sub (lhs rhs : ValueId)
  | MI32Mul (lhs rhs : ValueId)
  | MI32Neg (operand : ValueId)
  | MEq (lhs rhs : ValueId)
  | MNe (lhs rhs : ValueId)
  | MI32LtS (lhs rhs : ValueId)
  | MI32LeS (lhs rhs : ValueId)
  | MI32GtS (lhs rhs : ValueId)
  | MI32GeS (lhs rhs : ValueId)
  | MDirectCall (callee : FunctionId) (arguments : list ValueId).

Record MirInstruction := mkMirInstruction { mi_result : MirValueDefinition; mi_kind : MirInstructionKind }.

Inductive MirTerminator :=
  | MReturn (value : ValueId)
  | MJump (target : BlockId) (arguments : list ValueId)
  | MBranch (condition : ValueId) (true_target : BlockId) (true_arguments : list ValueId)
            (false_target : BlockId) (false_arguments : list ValueId).

Record MirBlock := mkMirBlock {
  mb_id : BlockId;
  mb_parameters : list MirValueDefinition;
  mb_instructions : list MirInstruction;
  mb_terminators : list MirTerminator }.

Record MirFunction := mkMirFunction {
  mf_id : FunctionId;
  mf_internal_symbol : string;
  mf_entry_export : option string;
  mf_convention : CallingConvention;
  mf_parameters : list MirValueDefinition;
  mf_result : Ty;
  mf_blocks : list MirBlock }.

Record MirModule := mkMirModule { mm_id : ModuleId; mm_functions : list MirFunction }.

Record MirProgram := mkMirProgram { mp_entry_module : ModuleId; mp_modules : list MirModule }.

#[export] Instance MirBlock_inhabited : Inhabited MirBlock := populate (mkMirBlock 0%N [] [] []).
#[export] Instance FunctionId_eq_dec : EqDecision FunctionId.
Proof. solve_decision. Defined.

(** ** Diagnostics *)

(** [Errors::push] *)
Definition mir_errors_push (d : Diagnostic) (e : Errors) : Errors :=
  if er_exhausted e then e
  else if (len (er_diagnostics e) <? MAX_DIAGNOSTICS - 1)%N then mkErrors (er_diagnostics e ++ [d]) false
  else
    mkErrors (er_diagnostics e ++
      [error "ZRYNA-N2202" "native MIR diagnostic budget exceeded"
         "fix the first reported native MIR violation"]) true.

(** [Errors::limit] *)
Definition mir_errors_limit (label : string) (maximum : N) (e : Errors) : Errors :=
  if er_exhausted e then e
  else
    mkErrors (er_diagnostics e ++
      [error "ZRYNA-N2201" ("native MIR " +:+ label +:+ " exceeds limit " +:+ pretty maximum)
         "reduce the bounded M2 native MIR input"]) true.

(** [canonical_internal_symbol] *)
Definition canonical_internal_symbol (id : FunctionId) : string :=
  "zryna_m2_i_m" +:+ pretty (fid_module id) +:+ "_f" +:+ pretty (fid_declaration id).

(** ** [preflight] *)

(** The mutable totals of [preflight]; the last three are those of the function
    being scanned *)
Inductive MirCounter :=
  | CFunctions | CParameters | CBlocks | CValues | CEdges | CCalls | CCallArguments | CEdgeArguments
  | CSymbolBytes | CExportBytes | CTerminators
  | CFunctionValues | CFunctionEdges | CFunctionTerminators.
#[export] Instance MirCounter_eq_dec : EqDecision MirCounter.
Proof. solve_decision. Defined.
Definition MirCounts := MirCounter -> N.
Definition set_count (k : MirCounter) (n : N) (c : MirCounts) : MirCounts :=
  fun k' => if decide (k' = k) then n else c k'.

(** [errors.limit(label, maximum); return;] *)
Definition MirLimit := (string * N)%type.
Definition Limited := result MirLimit.
Definition require (within : bool) (label : string) (maximum : N) : Limited unit :=
  if within then Ok tt else Err (label, maximum).

(** A new total: absent when the addition overflows, then compared *)
Definition mir_bump (k : MirCounter) (total : option N) (overflow exceeded : MirLimit) (c : MirCounts)
    : Limited MirCounts :=
  match total with
  | None => Err overflow
  | Some total => if (exceeded.2 <? total)%N then Err exceeded else Ok (set_count k total c)
  end.

Definition mir_add_total (k : MirCounter) (extra maximum : N) (label : string) (c : MirCounts)
    : Limited MirCounts :=
  mir_bump k (checked_add u64_max (c k) extra) (label, maximum) (label, maximum) c.

(** A loop over the totals *)
Fixpoint scan {A} (f : A -> MirCounts -> Limited MirCounts) (l : list A) (c : MirCounts) : Limited MirCounts :=
  match l with
  | [] => Ok c
  | x :: l => c ← f x c; scan f l c
  end.

Definition preflight_call (instruction : MirInstruction) (c : MirCounts) : Limited MirCounts :=
  match mi_kind instruction with
  | MDirectCall _ arguments =>
      c ← mir_bump CCalls (checked_add u64_max (c CCalls) 1) ("call count", MAX_CALL_EDGES) ("call count", MAX_CALL_EDGES) c;
      _ ← require (len arguments <=? MAX_PARAMETERS_PER_FUNCTION)%N "call argument count" MAX_PARAMETERS_PER_FUNCTION;
      mir_add_total CCallArguments (len arguments) MAX_CALL_ARGUMENTS_PER_PROGRAM "aggregate call argument count" c
  | _ => Ok c
  end.

(** The argument lists of a terminator *)
Definition preflight_edges (t : MirTerminator) (c : MirCounts) : Limited MirCounts :=
  let add := fun arguments =>
    mir_add_total CEdgeArguments (len (arguments : list ValueId)) MAX_EDGE_ARGUMENTS_PER_PROGRAM
      "aggregate edge argument count" in
  match t with
  | MReturn _ => Ok c
  | MJump _ arguments =>
      _ ← require (len arguments <=? MAX_BLOCK_PARAMETERS)%N "edge argument count" MAX_BLOCK_PARAMETERS;
      add arguments c
  | MBranch _ _ true_arguments _ false_arguments =>
      _ ← require ((len true_arguments <=? MAX_BLOCK_PARAMETERS) && (len false_arguments <=? MAX_BLOCK_PARAMETERS))%N
            "edge argument count" MAX_BLOCK_PARAMETERS;
      c ← add true_arguments c; add false_arguments c
  end.

Definition mir_edge_count (t : MirTerminator) : N :=
  match t with MReturn _ => 0 | MJump _ _ => 1 | MBranch _ _ _ _ _ => 2 end.

Definition mir_preflight_terminator (t : MirTerminator) (c : MirCounts) : Limited MirCounts :=
  c ← preflight_edges t c;
  mir_bump CFunctionEdges (checked_add u64_max (c CFunctionEdges) (mir_edge_count t))
    ("CFG edge count", MAX_CFG_EDGES_PER_FUNCTION) ("CFG edges per function", MAX_CFG_EDGES_PER_FUNCTION) c.

Definition mir_preflight_block (block : MirBlock) (c : MirCounts) : Limited MirCounts :=
  _ ← require (len (mb_parameters block) <=? MAX_BLOCK_PARAMETERS)%N "block parameter count" MAX_BLOCK_PARAMETERS;
  c ← mir_bump CFunctionValues
        (checked_add u64_max (c CFunctionValues) (len (mb_parameters block)) ≫= fun v =>
         checked_add u64_max v (len (mb_instructions block)))
        ("value count", MAX_VALUES_PER_PROGRAM) ("values per function", MAX_VALUES_PER_FUNCTION) c;
  c ← scan preflight_call (mb_instructions block) c;
  c ← mir_add_total CFunctionTerminators (len (mb_terminators block)) MAX_TERMINATORS_PER_FUNCTION
        "terminators per function" c;
  c ← mir_add_total CTerminators (len (mb_terminators block)) MAX_TERMINATORS_PER_PROGRAM "terminator count" c;
  scan mir_preflight_terminator (mb_terminators block) c.

(** The symbol and the export of a function *)
Definition preflight_names (function : MirFunction) (c : MirCounts) : Limited MirCounts :=
  let symbol := slen (mf_internal_symbol function) in
  _ ← require (symbol <=? MAX_INTERNAL_SYMBOL_BYTES)%N "internal symbol bytes" MAX_INTERNAL_SYMBOL_BYTES;
  c ← mir_add_total CSymbolBytes symbol MAX_INTERNAL_SYMBOL_BYTES_PER_PROGRAM "aggregate internal symbol bytes" c;
  match mf_entry_export function with
  | None => Ok c
  | Some export =>
      _ ← require (slen export <=? MAX_ENTRY_EXPORT_BYTES)%N "entry export bytes" MAX_ENTRY_EXPORT_BYTES;
      mir_add_total CExportBytes (slen export) MAX_ENTRY_EXPORT_BYTES_PER_PROGRAM "aggregate entry export bytes" c
  end.

Definition mir_preflight_function (function : MirFunction) (c : MirCounts) : Limited MirCounts :=
  c ← preflight_names function c;
  _ ← require (len (mf_parameters function) <=? MAX_PARAMETERS_PER_FUNCTION)%N
        "parameters per function" MAX_PARAMETERS_PER_FUNCTION;
  c ← mir_add_total CParameters (len (mf_parameters function)) MAX_PARAMETERS_PER_PROGRAM "parameter count" c;
  _ ← require (len (mf_blocks function) <=? MAX_BLOCKS_PER_FUNCTION)%N "blocks per function" MAX_BLOCKS_PER_FUNCTION;
  c ← mir_add_total CBlocks (len (mf_blocks function)) MAX_BLOCKS_PER_PROGRAM "block count" c;
  let c := set_count CFunctionValues (len (mf_parameters function)) c in
  let c := set_count CFunctionTerminators 0 (set_count CFunctionEdges 0 c) in
  c ← scan mir_preflight_block (mf_blocks function) c;
  c ← mir_add_total CValues (c CFunctionValues) MAX_VALUES_PER_PROGRAM "value count" c;
  mir_add_total CEdges (c CFunctionEdges) MAX_CFG_EDGES_PER_PROGRAM "CFG edge count" c.

Definition mir_preflight_module (module : MirModule) (c : MirCounts) : Limited MirCounts :=
  _ ← require (len (mm_functions module) <=? MAX_FUNCTIONS_PER_MODULE)%N "functions per module" MAX_FUNCTIONS_PER_MODULE;
  c ← mir_add_total CFunctions (len (mm_functions module)) MAX_FUNCTIONS_PER_PROGRAM "function count" c;
  scan mir_preflight_function (mm_functions module) c.

Definition mir_preflight (program : MirProgram) (e : Errors) : Errors :=
  match mp_modules program with
  | [] => mir_errors_push (error "ZRYNA-N2101" "native MIR program has no entry module"
                             "provide one complete nonempty module closure") e
  | modules =>
      match (_ ← require (len modules <=? MAX_MODULES)%N "module count" MAX_MODULES;
             scan mir_preflight_module modules (fun _ => 0%N)) with
      | Ok _ => e
      | Err (label, maximum) => mir_errors_limit label maximum e
      end
  end.

(** ** State of the verifier *)

Record MSt := mkMSt {
  ms_errors : Errors;
  ms_calls : list (FunctionKey * FunctionKey);
  ms_values : list ValueInfo;
  ms_edges : list (nat * nat) }.

Definition set_mir_errors (f : Errors -> Errors) (s : MSt) : MSt :=
  mkMSt (f (ms_errors s)) (ms_calls s) (ms_values s) (ms_edges s).
Definition push_mir_call (c : FunctionKey * FunctionKey) (s : MSt) : MSt :=
  mkMSt (ms_errors s) (ms_calls s ++ [c]) (ms_values s) (ms_edges s).
Definition push_mir_value (v : ValueInfo) (s : MSt) : MSt :=
  mkMSt (ms_errors s) (ms_calls s) (ms_values s ++ [v]) (ms_edges s).
Definition push_mir_edge (source target : nat) (s : MSt) : MSt :=
  mkMSt (ms_errors s) (ms_calls s) (ms_values s) (ms_edges s ++ [(source, target)]).
Definition reset_mir_locals (s : MSt) : MSt := mkMSt (ms_errors s) (ms_calls s) [] [].

Definition mpush (d : Diagnostic) : M MSt unit := modify (set_mir_errors (mir_errors_push d)).
Definition mlimit (label : string) (maximum : N) : M MSt unit := modify (set_mir_errors (mir_errors_limit label maximum)).
(** [if errors.exhausted() { return; }] *)
Definition mcheck_exhausted : M MSt unit := fun s =>
  if er_exhausted (ms_errors s) then (s, None) else (s, Some tt).

(** ** [verify_inventory] *)

(** The error buffer and the symbols seen *)
Record Inventory := mkInventory {
  iv_errors : Errors;
  iv_exact : gmap string (nat * nat);
  iv_portable : gmap string (nat * nat) }.

Definition ipush (d : Diagnostic) : M Inventory unit := modify (fun i =>
  mkInventory (mir_errors_push d (iv_errors i)) (iv_exact i) (iv_portable i)).
Definition icheck_exhausted : M Inventory unit := fun i =>
  if er_exhausted (iv_errors i) then (i, None) else (i, Some tt).

(** [exact.insert(..).is_some() || portable.insert(..).is_some()] *)
Definition insert_symbol (symbol : string) (key : nat * nat) : M Inventory bool :=
  seen ← gets (fun i => bool_decide (is_Some (iv_exact i !! symbol)));
  modify (fun i => mkInventory (iv_errors i) (<[symbol := key]> (iv_exact i)) (iv_portable i));;
  if (seen : bool) then mret true
  else
    let portable := to_ascii_lowercase symbol in
    seen ← gets (fun i => bool_decide (is_Some (iv_portable i !! portable)));
    modify (fun i => mkInventory (iv_errors i) (iv_exact i) (<[portable := key]> (iv_portable i)));;
    mret seen.

Definition inventory_function (entry_module : ModuleId) (module_index : nat) (module : MirModule)
    (function_index : nat) (function : MirFunction) : M Inventory unit :=
  let expected := mkFunctionId (mm_id module) (N.of_nat function_index) in
  when (negb (bool_decide (mf_id function = expected)))
    (ipush (error "ZRYNA-N2102" (function_label module_index function_index " has a noncanonical identity")
              "use its module and dense declaration index"));;
  when (negb (String.eqb (mf_internal_symbol function) (canonical_internal_symbol expected)))
    (ipush (error "ZRYNA-N2103" (function_label module_index function_index " has a noncanonical internal symbol")
              "derive the symbol exactly from the sealed function identity"));;
  collides ← insert_symbol (mf_internal_symbol function) (module_index, function_index);
  when collides
    (ipush (error "ZRYNA-N2103" "internal body symbols collide" "use unique canonical internal body symbols"));;
  when (negb (mf_convention function =? ZRYNA_INTERNAL_CONTROL_FLOW_V1)%N)
    (ipush (error "ZRYNA-N2104" "function uses an unsupported internal convention"
              "use only the versioned control-flow-v1 convention"));;
  when (negb (mm_id module =? entry_module)%N && bool_decide (is_Some (mf_entry_export function)))
    (ipush (error "ZRYNA-N2105" "dependency function claims a public entry export"
              "only entry-module functions may be exported"));;
  icheck_exhausted.

Definition inventory_module (entry_module : ModuleId) (module_index : nat) (module : MirModule) : M Inventory unit :=
  when (negb (mm_id module =? N.of_nat module_index)%N)
    (ipush (error "ZRYNA-N2102" ("module #" +:+ pretty module_index +:+ " has a noncanonical identity")
              "use dense modules in canonical order"));;
  for_each (enumerate (mm_functions module)) (fun '(function_index, function) =>
    inventory_function entry_module module_index module function_index function).

Definition verify_inventory (program : MirProgram) : M Inventory unit :=
  body (
    when (negb (mp_entry_module program <? len (mp_modules program))%N)
      (ipush (error "ZRYNA-N2101" "entry module identity is unknown" "select one dense module identity"));;
    for_each (enumerate (mp_modules program)) (fun '(module_index, module) =>
      inventory_module (mp_entry_module program) module_index module)).

Definition mir_collect_signatures (program : MirProgram) : Signatures :=
  (fun module => (fun function => (md_ty <$> mf_parameters function, mf_result function))
                   <$> mm_functions module) <$> mp_modules program.

(** ** Values and operands *)

Definition mir_validate_type (ty : Ty) (label : string) : M MSt unit :=
  when (bool_decide (ty = Unit))
    (mpush (error "ZRYNA-N2104" (label +:+ " uses unsupported unit type")
              "native MIR control-flow v1 admits only bool and i32")).

Definition mir_define_value (definition : MirValueDefinition) (location : DefinitionLocation) : M MSt unit :=
  values ← gets ms_values;
  let expected := len values in
  when (negb (md_id definition =? expected)%N)
    (mpush (error "ZRYNA-N2102" ("value #" +:+ pretty (md_id definition) +:+ " is noncanonical; expected #" +:+ pretty expected)
              "allocate function parameters, block parameters, and instruction results in order"));;
  mir_validate_type (md_ty definition) "value";;
  exhausted ← gets (fun s => er_exhausted (ms_errors s));
  when (negb exhausted) (modify (push_mir_value (mkValueInfo (md_ty definition) location))).

(** [value_info] *)
Definition mir_value_info (id : ValueId) (values : list ValueInfo) : option ValueInfo := get values id.

Definition mir_checked_use (id : ValueId) (block position : nat) : M MSt (option ValueInfo) :=
  values ← gets ms_values;
  match mir_value_info id values with
  | None =>
      mpush (error "ZRYNA-N2108" ("operand references unknown value #" +:+ pretty id)
               "reference a value in the same function");;
      mret None
  | Some value =>
      when (match vi_location value with
            | LocInstruction definition_block definition_position =>
                Nat.eqb definition_block block && Nat.leb position definition_position
            | _ => false
            end)
        (mpush (error "ZRYNA-N2109" ("value #" +:+ pretty id +:+ " is used before definition")
                  "use only earlier results in the same block"));;
      mret (Some value)
  end.

Definition mir_expect_result (actual expected : Ty) (label : string) : M MSt unit :=
  when (negb (bool_decide (actual = expected)))
    (mpush (error "ZRYNA-N2107" (label +:+ " has the wrong result type") "use the exact native MIR operation type")).

(** [operands.iter().zip(expected).all(..)] *)
Fixpoint mir_operands_valid (operands : list ValueId) (expected : list Ty) (block position : nat) : M MSt bool :=
  match operands, expected with
  | operand :: operands, ty :: expected =>
      value ← mir_checked_use operand block position;
      if bool_decide (vi_ty <$> value = Some ty) then mir_operands_valid operands expected block position
      else mret false
  | _, _ => mret true
  end.

Definition mir_expect_operands (operands : list ValueId) (expected : list Ty) (result expected_result : Ty)
    (block position : nat) : M MSt unit :=
  valid ← mir_operands_valid operands expected block position;
  when (negb valid || negb (bool_decide (result = expected_result)))
    (mpush (error "ZRYNA-N2107" "instruction operand or result type is invalid" "use exact native MIR operation types")).

(** ** Instructions *)

Definition mir_verify_equality (lhs rhs : ValueId) (result : Ty) (block position : nat) : M MSt unit :=
  left ← mir_checked_use lhs block position;
  right ← mir_checked_use rhs block position;
  when (negb (bool_decide (result = Bool)) || bool_decide (left = None)
        || negb (bool_decide (vi_ty <$> left = vi_ty <$> right)))
    (mpush (error "ZRYNA-N2107" "equality requires matching scalar operands and bool result"
              "use exact matching bool or i32 operands")).

Definition mir_verify_call (key : FunctionKey) (callee : FunctionId) (arguments : list ValueId) (result : Ty)
    (block position : nat) (signatures : Signatures) : M MSt unit :=
  match lookup_signature signatures callee with
  | None =>
      mpush (error "ZRYNA-N2111" "direct call targets an unknown function identity"
               "call one function in the sealed module closure");;
      return_now
  | Some (target, (parameters, target_result)) =>
      modify (push_mir_call (key, target));;
      when (negb (len arguments =? len parameters)%N || negb (bool_decide (result = target_result)))
        (mpush (error "ZRYNA-N2111" "direct call signature does not match target" "use exact argument and result types"));;
      for_each (enumerate arguments) (fun '(index, argument) =>
        value ← mir_checked_use argument block position;
        when (negb (bool_decide (vi_ty <$> value = parameters !! index)))
          (mpush (error "ZRYNA-N2111" ("direct call argument #" +:+ pretty index +:+ " has the wrong type")
                    "preserve exact argument order and types"));;
        mcheck_exhausted)
  end.

Definition mir_verify_instruction (key : FunctionKey) (block position : nat) (instruction : MirInstruction)
    (signatures : Signatures) : M MSt unit :=
  let result := md_ty (mi_result instruction) in
  body match mi_kind instruction with
  | MBoolLiteral _ => mir_expect_result result Bool "bool literal"
  | MI32Literal _ => mir_expect_result result I32 "i32 literal"
  | MI32Neg operand => mir_expect_operands [operand] [I32] result I32 block position
  | MI32Add lhs rhs | MI32Sub lhs rhs | MI32Mul lhs rhs =>
      mir_expect_operands [lhs; rhs] [I32; I32] result I32 block position
  | MI32LtS lhs rhs | MI32LeS lhs rhs | MI32GtS lhs rhs | MI32GeS lhs rhs =>
      mir_expect_operands [lhs; rhs] [I32; I32] result Bool block position
  | MEq lhs rhs | MNe lhs rhs => mir_verify_equality lhs rhs result block position
  | MDirectCall callee arguments => mir_verify_call key callee arguments result block position signatures
  end.

(** ** Terminators and edges *)

Definition mir_verify_edge (key : FunctionKey) (source : nat) (target : BlockId) (arguments : list ValueId)
    (function : MirFunction) : M MSt unit :=
  body (
    if negb (target <? len (mf_blocks function))%N then
      mpush (error "ZRYNA-N2106" (block_label key (" targets unknown block #" +:+ pretty target))
               "target one block in the same function");;
      return_now
    else
      let target_index := N.to_nat target in
      when (Nat.eqb target_index 0)
        (mpush (error "ZRYNA-N2106" "control-flow edge targets the entry block" "entry block zero must have no predecessor"));;
      let parameters := mb_parameters (mf_blocks function).[target_index] in
      when (negb (len arguments =? len parameters)%N)
        (mpush (error "ZRYNA-N2106" "edge argument arity does not match block parameters"
                  "pass one exact argument per block parameter"));;
      let position := length (mb_instructions (mf_blocks function).[source]) in
      for_each (enumerate arguments) (fun '(index, argument) =>
        value ← mir_checked_use argument source position;
        when (negb (bool_decide (vi_ty <$> value = md_ty <$> parameters !! index)))
          (mpush (error "ZRYNA-N2106" ("edge argument #" +:+ pretty index +:+ " has the wrong type")
                    "match block parameter types exactly")));;
      exhausted ← gets (fun s => er_exhausted (ms_errors s));
      when (negb exhausted) (modify (push_mir_edge source target_index))).

Definition mir_verify_terminator (key : FunctionKey) (block : nat) (function : MirFunction) (terminator : MirTerminator)
    : M MSt unit :=
  let position := length (mb_instructions (mf_blocks function).[block]) in
  match terminator with
  | MReturn value =>
      value ← mir_checked_use value block position;
      when (negb (bool_decide (vi_ty <$> value = Some (mf_result function))))
        (mpush (error "ZRYNA-N2106" "return value has the wrong type" "return the exact function result type"))
  | MJump target arguments => mir_verify_edge key block target arguments function
  | MBranch condition true_target true_arguments false_target false_arguments =>
      value ← mir_checked_use condition block position;
      when (negb (bool_decide (vi_ty <$> value = Some Bool)))
        (mpush (error "ZRYNA-N2106" "branch condition is not bool" "branch only on exact bool"));;
      mir_verify_edge key block true_target true_arguments function;;
      mir_verify_edge key block false_target false_arguments function
  end.

(** ** Control-flow graph *)

Definition mir_instruction_operands (kind : MirInstructionKind) : list ValueId :=
  match kind with
  | MBoolLiteral _ | MI32Literal _ => []
  | MI32Neg operand => [operand]
  | MI32Add lhs rhs | MI32Sub lhs rhs | MI32Mul lhs rhs | MEq lhs rhs | MNe lhs rhs
  | MI32LtS lhs rhs | MI32LeS lhs rhs | MI32GtS lhs rhs | MI32GeS lhs rhs => [lhs; rhs]
  | MDirectCall _ arguments => arguments
  end.

Definition mir_terminator_operands (kind : MirTerminator) : list ValueId :=
  match kind with
  | MReturn value => [value]
  | MJump _ arguments => arguments
  | MBranch condition _ true_arguments _ false_arguments => condition :: true_arguments ++ false_arguments
  end.

Definition mir_verify_dominance (operand : ValueId) (use_block use_position : nat) (dom : nat -> nat -> bool)
    : M MSt unit :=
  values ← gets ms_values;
  match mir_value_info operand values with
  | None => mret tt
  | Some value =>
      when (negb (match vi_location value with
                  | LocParameter => true
                  | LocBlockParameter block => dom block use_block
                  | LocInstruction block position =>
                      if Nat.eqb block use_block then Nat.ltb position use_position else dom block use_block
                  end))
        (mpush (error "ZRYNA-N2109" ("value #" +:+ pretty operand +:+ " does not dominate its use")
                  "use only values available on every path"))
  end.

Definition mir_verify_all_dominance (function : MirFunction) (dom : nat -> nat -> bool) : M MSt unit :=
  for_each (enumerate (mf_blocks function)) (fun '(use_block, block) =>
    for_each (enumerate (mb_instructions block)) (fun '(position, instruction) =>
      for_each (mir_instruction_operands (mi_kind instruction)) (fun operand =>
        mir_verify_dominance operand use_block position dom));;
    match mb_terminators block with
    | [t] =>
        for_each (mir_terminator_operands t) (fun operand =>
          mir_verify_dominance operand use_block (length (mb_instructions block)) dom)
    | _ => mret tt
    end).

(** The sorted adjacency lists of the edges *)
Definition mir_successors (count : nat) (edges : list (nat * nat)) : graph :=
  sort_by Nat.leb <$> foldl (fun g e => push_at e.1 e.2 g) (replicate count []) edges.
Definition mir_predecessors (count : nat) (edges : list (nat * nat)) : graph :=
  sort_by Nat.leb <$> foldl (fun g e => push_at e.2 e.1 g) (replicate count []) edges.

Definition mir_verify_loops (key : FunctionKey) (count : nat) (predecessors : graph) (dom : nat -> nat -> bool)
    (edges : list (nat * nat)) : M MSt unit :=
  let flow := default (mkCfgFlow [] [] ∅)
    (classify_edges count predecessors dom (mkCfgFlow (replicate count []) (replicate count 0) ∅) edges) in
  let seen := default 0 (topo_loop (count + 1) (cf_forward flow) (cf_indegree flow)
                           (zero_degree (cf_indegree flow)) 0) in
  when (negb (Nat.eqb seen count))
    (mpush (error "ZRYNA-N2110" (block_label key " contains irreducible control flow")
              "every cycle must have one dominating nonentry header"));;
  when (MAX_LOOP_NESTING <? N.of_nat (maximum_nesting count (cf_loops flow)))%N
    (mlimit "loop nesting" MAX_LOOP_NESTING).

Definition mir_verify_cfg (key : FunctionKey) (function : MirFunction) : M MSt unit :=
  body (
    edges ← gets ms_edges;
    if Nat.eqb (length (mf_blocks function)) 0 then return_now
    else
      let count := length (mf_blocks function) in
      let successors := mir_successors count edges in
      let predecessors := mir_predecessors count edges in
      let reachable := reachable_from_entry successors in
      for_each (seq 1 (count - 1)) (fun block =>
        when (Nat.eqb (length predecessors.[block]) 0 || negb reachable.[block])
          (mpush (error "ZRYNA-N2110" (block_label key (" block #" +:+ pretty block +:+ " is unreachable"))
                    "emit only blocks reachable from entry")));;
      when (existsb negb reachable) return_now;;
      match immediate_dominators successors predecessors with
      | None =>
          mpush (error "ZRYNA-N2110" "failed to construct deterministic dominators" "provide one reachable reducible CFG");;
          return_now
      | Some idom =>
          let dom := dominates (dominator_intervals idom) in
          mir_verify_all_dominance function dom;;
          mir_verify_loops key count predecessors dom edges
      end).

(** ** Functions *)

(** The definition pass of [verify_function] *)
Definition mir_define_values (function : MirFunction) : M MSt unit :=
  for_each (mf_parameters function) (fun parameter => mir_define_value parameter LocParameter);;
  for_each (enumerate (mf_blocks function)) (fun '(block_index, block) =>
    when (negb (mb_id block =? N.of_nat block_index)%N)
      (mpush (error "ZRYNA-N2102" "block has a noncanonical dense identity" "number blocks densely in arena order"));;
    when (Nat.eqb block_index 0 && negb (Nat.eqb (length (mb_parameters block)) 0))
      (mpush (error "ZRYNA-N2105" "entry block declares block parameters" "use function parameters for entry values"));;
    for_each (mb_parameters block) (fun parameter => mir_define_value parameter (LocBlockParameter block_index));;
    for_each (enumerate (mb_instructions block)) (fun '(position, instruction) =>
      mir_define_value (mi_result instruction) (LocInstruction block_index position));;
    mcheck_exhausted).

(** The checking pass of [verify_function] *)
Definition mir_check_blocks (key : FunctionKey) (function : MirFunction) (signatures : Signatures) : M MSt unit :=
  for_each (enumerate (mf_blocks function)) (fun '(block_index, block) =>
    for_each (enumerate (mb_instructions block)) (fun '(position, instruction) =>
      mir_verify_instruction key block_index position instruction signatures;;
      mcheck_exhausted);;
    match mb_terminators block with
    | [terminator] => mir_verify_terminator key block_index function terminator;; mcheck_exhausted
    | terminators =>
        mpush (error "ZRYNA-N2106" ("block #" +:+ pretty block_index +:+ " has " +:+ pretty (length terminators)
                                    +:+ " terminators; expected exactly one")
                 "emit exactly one return, jump, or branch")
    end).

Definition mir_verify_function (key : FunctionKey) (function : MirFunction) (signatures : Signatures) : M MSt unit :=
  body (
    mir_validate_type (mf_result function) "function result";;
    match mf_blocks function with
    | [] =>
        mpush (error "ZRYNA-N2107" (block_label key " has no entry block or terminator")
                 "emit a nonempty block arena whose entry block has exactly one terminator");;
        return_now
    | _ => mret tt
    end;;
    modify reset_mir_locals;;
    mir_define_values function;;
    mir_check_blocks key function signatures;;
    mir_verify_cfg key function).

Definition mir_verify_functions (program : MirProgram) : M MSt unit :=
  let signatures := mir_collect_signatures program in
  body (for_each (enumerate (mp_modules program)) (fun '(module_index, module) =>
    for_each (enumerate (mm_functions module)) (fun '(function_index, function) =>
      mir_verify_function (mkFunctionKey module_index function_index) function signatures;;
      mcheck_exhausted))).

(** ** Call graph *)

Fixpoint mir_offsets_from (total : nat) (modules : list MirModule) : list nat :=
  match modules with
  | [] => [total]
  | module :: modules => total :: mir_offsets_from (total + length (mm_functions module)) modules
  end.
Definition mir_function_offsets (program : MirProgram) : list nat := mir_offsets_from 0 (mp_modules program).

Definition mir_verify_call_graph (program : MirProgram) : M MSt unit :=
  calls ← gets ms_calls;
  let offsets := mir_function_offsets program in
  let count := default 0 (last offsets) in
  let edges := (fun c : FunctionKey * FunctionKey =>
    (offsets.[fk_module c.1] + fk_function c.1, offsets.[fk_module c.2] + fk_function c.2)) <$> calls in
  let successors := foldl (fun g e => push_at e.1 e.2 g) (replicate count []) edges in
  let indegree := foldl (fun d e => alter S e.2 d) (replicate count 0) edges in
  let '(depth, seen) :=
    default ([], 0)
      (call_loop (count + 1) successors (mkCallState (replicate count 1) indegree (zero_degree indegree)) 0) in
  if negb (Nat.eqb seen count) then
    mpush (error "ZRYNA-N2112" "direct-call graph contains a cycle"
             "native MIR control-flow v1 requires acyclic direct calls")
  else when (MAX_STATIC_CALL_DEPTH <? N.of_nat (max_list depth))%N (mlimit "static call depth" MAX_STATIC_CALL_DEPTH).

(** ** Public ABI *)

Definition mir_abi_type (ty : Ty) : AbiType :=
  match ty with Unit => AT_Unit | Bool => AT_Bool | I32 => AT_I32 end.

Fixpoint mir_entry_exports (next : nat) (functions : list MirFunction) : list AbiExport * list (option nat) :=
  match functions with
  | [] => ([], [])
  | function :: functions =>
      match mf_entry_export function with
      | None =>
          let '(exports, indices) := mir_entry_exports next functions in (exports, None :: indices)
      | Some name =>
          let '(exports, indices) := mir_entry_exports (S next) functions in
          (mkAbiExport name (mkAbiSignature ((fun p => mir_abi_type (md_ty p)) <$> mf_parameters function)
                               (mir_abi_type (mf_result function))) :: exports, Some next :: indices)
      end
  end.

Fixpoint mir_push_violations (violations : list AbiViolation) (e : Errors) : Errors :=
  match violations with
  | [] => e
  | violation :: violations =>
      let claim := fun message => mir_errors_push (error "ZRYNA-N2113" message "use exact scalar ABI v1 export claims") e in
      mir_push_violations violations
        match av_kind violation with
        | InvalidLogicalName => claim "entry export has an invalid logical name"
        | DuplicateLogicalName _ => claim "entry exports duplicate a logical name"
        | PortableNameCollision _ => claim "entry exports collide under portable identity"
        | UnsupportedScalarType => claim "entry export uses an unsupported scalar type"
        | TooManyExports | TooManyParameters | TooManyParametersInModule =>
            mir_errors_limit "public ABI" MAX_ABI_EXPORTS e
        | ViolationBudgetExceeded =>
            mir_errors_push (error "ZRYNA-N2202" "scalar ABI diagnostic budget exceeded"
                               "fix the first public ABI violation") e
        end
  end.

Definition mir_verify_public_abi (program : MirProgram) (e : Errors) : AbiTables * Errors :=
  let indices := (fun module => replicate (length (mm_functions module)) None) <$> mp_modules program in
  let '(exports, indices) :=
    match get (mp_modules program) (mp_entry_module program) with
    | Some module =>
        let '(exports, entry) := mir_entry_exports 0 (mm_functions module) in
        (exports, <[N.to_nat (mp_entry_module program) := entry]> indices)
    | None => ([], indices)
    end in
  match abi_verify_v1 exports with
  | Ok abi => ((Some abi, indices), e)
  | Err violations => ((None, indices), mir_push_violations violations e)
  end.

(** ** [verify] *)

Record MirVerifiedProgram := mkMirVerified {
  mv_program : MirProgram;
  mv_abi : VerifiedScalarAbiModule;
  mv_abi_indices : list (list (option nat)) }.

Definition mir_verify (program : MirProgram) : result (list Diagnostic) MirVerifiedProgram :=
  let e := mir_preflight program no_errors in
  if negb (errors_is_empty e) then Err (er_diagnostics e)
  else
    let e := iv_errors (verify_inventory program (mkInventory e ∅ ∅)).1 in
    if er_exhausted e then Err (er_diagnostics e)
    else
      let s := (mir_verify_functions program (mkMSt e [] [] [])).1 in
      if er_exhausted (ms_errors s) then Err (er_diagnostics (ms_errors s))
      else
        let s := (mir_verify_call_graph program s).1 in
        if er_exhausted (ms_errors s) then Err (er_diagnostics (ms_errors s))
        else
          let '((abi, abi_indices), e) := mir_verify_public_abi program (ms_errors s) in
          if negb (errors_is_empty e) then Err (er_diagnostics e)
          else match abi with
          | None =>
              Err [error "ZRYNA-N2202" "native MIR could not construct its bounded ABI table"
                     "report this compiler invariant failure"]
          | Some abi => Ok (mkMirVerified program abi abi_indices)
          end.

(** ** [lower] *)

(** [VerifiedFunction::public_export] of the IR *)
Definition public_export (vp : VerifiedProgram) (module_index function_index : nat) : option VerifiedExport :=
  index ← (vp_abi_indices vp).[module_index].[function_index];
  vm_exports (vp_abi vp) !! index.

Definition lower_definition (d : ValueDefinition) : MirValueDefinition := mkMirDefinition (vd_id d) (vd_ty d).

Definition lower_operation (kind : InstructionKind) : MirInstructionKind :=
  match kind with
  | BoolLiteral value => MBoolLiteral value
  | I32Literal value => MI32Literal value
  | I32Add lhs rhs => MI32Add lhs rhs
  | I32Sub lhs rhs => MI32Sub lhs rhs
  | I32Mul lhs rhs => MI32Mul lhs rhs
  | I32Neg operand => MI32Neg operand
  | Eq lhs rhs => MEq lhs rhs
  | Ne lhs rhs => MNe lhs rhs
  | I32LtS lhs rhs => MI32LtS lhs rhs
  | I32LeS lhs rhs => MI32LeS lhs rhs
  | I32GtS lhs rhs => MI32GtS lhs rhs
  | I32GeS lhs rhs => MI32GeS lhs rhs
  | DirectCall callee arguments => MDirectCall callee arguments
  end.

Definition mir_lower_terminator (kind : Terminator) : MirTerminator :=
  match kind with
  | Return result => MReturn result
  | Jump target arguments => MJump target arguments
  | Branch condition true_target true_arguments false_target false_arguments =>
      MBranch condition true_target true_arguments false_target false_arguments
  end.

(** [lower_block]; the view of a sealed block has the first of its terminators *)
Definition mir_lower_block (block : Block) : MirBlock :=
  mkMirBlock (b_id block) (lower_definition <$> b_parameters block)
    ((fun i => mkMirInstruction (lower_definition (in_result i)) (lower_operation (in_kind i))) <$> b_instructions block)
    ((fun t => mir_lower_terminator (tm_kind t)) <$> take 1 (b_terminators block)).

Definition mir_lower_function (vp : VerifiedProgram) (module_index function_index : nat) (function : Function_)
    : MirFunction :=
  mkMirFunction (f_id function) (canonical_internal_symbol (f_id function))
    (ve_logical_name <$> public_export vp module_index function_index) ZRYNA_INTERNAL_CONTROL_FLOW_V1
    (lower_definition <$> f_parameters function) (f_result function) (mir_lower_block <$> f_blocks function).

Definition lowered_mir (vp : VerifiedProgram) : MirProgram :=
  mkMirProgram (p_entry_module (vp_program vp))
    (imap (fun module_index module =>
       mkMirModule (m_id module) (imap (mir_lower_function vp module_index) (m_functions module)))
       (p_modules (vp_program vp))).

Definition mir_lower (source : VerifiedProgram) : result (list Diagnostic) MirVerifiedProgram :=
  mir_verify (lowered_mir source).
