(* ===== verification/MirLimits.v ===== *)
(** * The limits of native MIR

    What [mir_preflight] counts, and that it accepts exactly the programs
    within every limit. *)
From stdpp Require Import base numbers list strings.
From S2P Require Import Prelude Source Diagnostics Abi ControlFlow PreflightSound NativeMir.
#[local] Open Scope N_scope.

(** ** What is counted *)

Definition counter_limit (k : MirCounter) : N :=
  match k with
  | CFunctions => MAX_FUNCTIONS_PER_PROGRAM
  | CParameters => MAX_PARAMETERS_PER_PROGRAM
  | CBlocks => MAX_BLOCKS_PER_PROGRAM
  | CValues => MAX_VALUES_PER_PROGRAM
  | CEdges => MAX_CFG_EDGES_PER_PROGRAM
  | CCalls => MAX_CALL_EDGES
  | CCallArguments => MAX_CALL_ARGUMENTS_PER_PROGRAM
  | CEdgeArguments => MAX_EDGE_ARGUMENTS_PER_PROGRAM
  | CSymbolBytes => MAX_INTERNAL_SYMBOL_BYTES_PER_PROGRAM
  | CExportBytes => MAX_ENTRY_EXPORT_BYTES_PER_PROGRAM
  | CTerminators => MAX_TERMINATORS_PER_PROGRAM
  | CFunctionValues => MAX_VALUES_PER_FUNCTION
  | CFunctionEdges => MAX_CFG_EDGES_PER_FUNCTION
  | CFunctionTerminators => MAX_TERMINATORS_PER_FUNCTION
  end.

(** The totals of one function are not totals of the program. *)
Definition program_counter (k : MirCounter) : bool :=
  match k with CFunctionValues | CFunctionEdges | CFunctionTerminators => false | _ => true end.

Definition Amount := MirCounter -> N.
Definition total_of {A} (amount : A -> Amount) (l : list A) : Amount := fun k => sumN ((fun x => amount x k) <$> l).

Definition call_amount (i : MirInstruction) : Amount := fun k =>
  match mi_kind i, k with
  | MDirectCall _ _, CCalls => 1
  | MDirectCall _ arguments, CCallArguments => len arguments
  | _, _ => 0
  end.
Definition call_local (i : MirInstruction) : Prop :=
  match mi_kind i with MDirectCall _ arguments => (len arguments <= MAX_PARAMETERS_PER_FUNCTION)%N | _ => True end.

Definition terminator_argument_count (t : MirTerminator) : N :=
  match t with
  | MReturn _ => 0
  | MJump _ arguments => len arguments
  | MBranch _ _ arguments1 _ arguments2 => len arguments1 + len arguments2
  end.
Definition terminator_amount (t : MirTerminator) : Amount := fun k =>
  match k with CEdgeArguments => terminator_argument_count t | CFunctionEdges => mir_edge_count t | _ => 0 end.
Definition terminator_local (t : MirTerminator) : Prop :=
  match t with
  | MReturn _ => True
  | MJump _ arguments => (len arguments <= MAX_BLOCK_PARAMETERS)%N
  | MBranch _ _ arguments1 _ arguments2 =>
      (len arguments1 <= MAX_BLOCK_PARAMETERS)%N /\ (len arguments2 <= MAX_BLOCK_PARAMETERS)%N
  end.

Definition mir_block_values (b : MirBlock) : N := len (mb_parameters b) + len (mb_instructions b).
Definition block_own (b : MirBlock) : Amount := fun k =>
  match k with
  | CFunctionValues => mir_block_values b
  | CFunctionTerminators | CTerminators => len (mb_terminators b)
  | _ => 0
  end.
Definition block_amount (b : MirBlock) : Amount := fun k =>
  (block_own b k + total_of call_amount (mb_instructions b) k + total_of terminator_amount (mb_terminators b) k)%N.
Definition block_local (b : MirBlock) : Prop :=
  (len (mb_parameters b) <= MAX_BLOCK_PARAMETERS)%N /\ Forall call_local (mb_instructions b) /\
  Forall terminator_local (mb_terminators b).

Definition export_bytes (f : MirFunction) : N := from_option slen 0%N (mf_entry_export f).
Definition mir_function_values (f : MirFunction) : N :=
  len (mf_parameters f) + sumN (mir_block_values <$> mf_blocks f).
Definition mir_function_edges (f : MirFunction) : N :=
  sumN ((fun b => sumN (mir_edge_count <$> mb_terminators b)) <$> mf_blocks f).
Definition mir_function_terminators (f : MirFunction) : N := sumN ((fun b => len (mb_terminators b)) <$> mf_blocks f).

(** What a function adds to the totals of the program *)
Definition function_amount (f : MirFunction) : Amount := fun k =>
  match k with
  | CParameters => len (mf_parameters f)
  | CBlocks => len (mf_blocks f)
  | CValues => mir_function_values f
  | CEdges => mir_function_edges f
  | CSymbolBytes => slen (mf_internal_symbol f)
  | CExportBytes => export_bytes f
  | _ => total_of block_amount (mf_blocks f) k
  end.
Record function_local (f : MirFunction) : Prop := {
  ml_symbol : (slen (mf_internal_symbol f) <= MAX_INTERNAL_SYMBOL_BYTES)%N;
  ml_export : (export_bytes f <= MAX_ENTRY_EXPORT_BYTES)%N;
  ml_parameters : (len (mf_parameters f) <= MAX_PARAMETERS_PER_FUNCTION)%N;
  ml_blocks : (len (mf_blocks f) <= MAX_BLOCKS_PER_FUNCTION)%N;
  ml_block : Forall block_local (mf_blocks f);
  ml_values : (mir_function_values f <= MAX_VALUES_PER_FUNCTION)%N;
  ml_edges : (mir_function_edges f <= MAX_CFG_EDGES_PER_FUNCTION)%N;
  ml_terminators : (mir_function_terminators f <= MAX_TERMINATORS_PER_FUNCTION)%N }.

Definition module_amount (m : MirModule) : Amount := fun k =>
  ((match k with CFunctions => len (mm_functions m) | _ => 0 end) + total_of function_amount (mm_functions m) k)%N.
Definition module_local (m : MirModule) : Prop :=
  (len (mm_functions m) <= MAX_FUNCTIONS_PER_MODULE)%N /\ Forall function_local (mm_functions m).

Record mir_within (p : MirProgram) : Prop := {
  mw_nonempty : mp_modules p <> [];
  mw_modules : (len (mp_modules p) <= MAX_MODULES)%N;
  mw_module : Forall module_local (mp_modules p);
  mw_totals : forall k, program_counter k = true -> (total_of module_amount (mp_modules p) k <= counter_limit k)%N }.

(** ** Counting steps *)

Section steps.
(** The counters a step is followed on *)
Context (D : MirCounter -> bool).

Definition bounded_counts (c : MirCounter -> N) : Prop := forall k, D k = true -> (c k <= counter_limit k)%N.

(** [m] adds [amount] and checks [own]; it fails exactly when that is not
    possible within the limits. *)
Definition adds_to (m : MirCounts -> Limited MirCounts) (amount : Amount) (own : Prop) : Prop := forall c,
  bounded_counts c ->
  (forall c', m c = Ok c' -> (forall k, D k = true -> c' k = (c k + amount k)%N) /\ own /\ bounded_counts c') /\
  (own -> bounded_counts (fun k => c k + amount k)%N -> exists c', m c = Ok c').

Lemma adds_to_ret : adds_to (fun c => Ok c) (fun _ => 0%N) True.
Proof.
  intros c Hc. split; [|by eauto]. intros c' [= <-]. split; [|done]. intros k _. lia.
Qed.

Lemma adds_to_proper m amount amount' (own own' : Prop) :
  adds_to m amount own -> (forall k, D k = true -> amount k = amount' k) -> (own <-> own') -> adds_to m amount' own'.
Proof.
  intros Hm Ha Ho c Hc. destruct (Hm c Hc) as [H1 H2]. split.
  - intros c' E. destruct (H1 c' E) as (H & Hown & Hb). split_and!; [|by apply Ho|done].
    intros k Hk. by rewrite <- Ha, H.
  - intros Hown Hb. apply H2; [by apply Ho|]. intros k Hk. specialize (Hb k Hk). cbn in *. by rewrite Ha.
Qed.

Lemma adds_to_seq m1 m2 a1 a2 o1 o2 :
  adds_to m1 a1 o1 -> adds_to m2 a2 o2 -> adds_to (fun c => c ← m1 c; m2 c) (fun k => a1 k + a2 k)%N (o1 /\ o2).
Proof.
  intros H1 H2 c Hc. destruct (H1 c Hc) as [F1 B1]. split.
  - intros c' E. destruct (m1 c) as [c1|] eqn:E1; [|done]. destruct (F1 c1 eq_refl) as (A1 & O1 & W1).
    destruct (H2 c1 W1) as [F2 _]. destruct (F2 c' E) as (A2 & O2 & W2). split_and!; [|done..].
    intros k Hk. rewrite A2, A1 by done. lia.
  - intros [O1 O2] Hb. destruct B1 as [c1 E1]; [done|intros k Hk; specialize (Hb k Hk); cbn in *; lia|].
    rewrite E1. destruct (F1 c1 E1) as (A1 & _ & W1). destruct (H2 c1 W1) as [_ B2]. apply B2; [done|].
    intros k Hk. specialize (Hb k Hk). cbn in *. rewrite A1 by done. lia.
Qed.

Lemma adds_to_require (b : bool) label maximum m amount own :
  adds_to m amount own -> adds_to (fun c => _ ← require b label maximum; m c) amount (b = true /\ own).
Proof.
  intros Hm c Hc. destruct (Hm c Hc) as [H1 H2]. unfold require. destruct b; cbn.
  - split; [|intros [_ ?]; auto]. intros c' E. destruct (H1 c' E) as (? & ? & ?). by split_and!.
  - split; [done|by intros []].
Qed.

Lemma adds_to_scan {A} (f : A -> MirCounts -> Limited MirCounts) (amount : A -> Amount) (own : A -> Prop) l :
  (forall x, adds_to (f x) (amount x) (own x)) -> adds_to (scan f l) (total_of amount l) (Forall own l).
Proof.
  intros Hf. induction l as [|x l IH].
  - eapply adds_to_proper; [apply adds_to_ret|done|]. by rewrite Forall_nil.
  - eapply adds_to_proper; [exact (adds_to_seq _ _ _ _ _ _ (Hf x) IH)|done|]. by rewrite Forall_cons.
Qed.

Definition only (k : MirCounter) (n : N) : Amount := fun k' => if decide (k' = k) then n else 0%N.

Lemma counter_limit_u64 k : (counter_limit k <= u64_max)%N.
Proof. destruct k; vm_compute; discriminate. Qed.

Lemma adds_to_bump k (total : MirCounts -> option N) extra overflow exceeded :
  D k = true -> exceeded.2 = counter_limit k ->
  (forall c n, total c = Some n <-> (c k + extra <= u64_max)%N /\ n = (c k + extra)%N) ->
  adds_to (fun c => mir_bump k (total c) overflow exceeded c) (only k extra) True.
Proof.
  intros Dk Hk Ht c Hc. unfold mir_bump, only. rewrite Hk.
  assert (E : total c = Some (c k + extra)%N \/ (counter_limit k < c k + extra)%N).
  { destruct (N.le_gt_cases (c k + extra) u64_max); [left; by apply Ht|].
    pose proof (counter_limit_u64 k). right. lia. }
  split.
  - intros c' H. destruct (total c) as [n|] eqn:En; [|done]. apply Ht in En as [_ ->].
    destruct (N.ltb_spec (counter_limit k) (c k + extra)) as [|Hle]; [done|]. injection H as <-. unfold set_count.
    split_and!; [|done|]; intros k' Dk'; cbn; case_decide; subst; [done|lia|done|by apply Hc].
  - intros _ Hb. specialize (Hb k Dk). cbn in Hb. rewrite decide_True in Hb by done.
    destruct E as [->|?]; [|lia]. destruct (N.ltb_spec (counter_limit k) (c k + extra)); [lia|]. by eexists.
Qed.

Lemma checked_add_exact a b n : checked_add u64_max a b = Some n <-> (a + b <= u64_max)%N /\ n = (a + b)%N.
Proof. unfold checked_add. destruct (N.leb_spec (a + b) u64_max); split; intros H'; [by simplify_eq|by destruct H' as [_ ->]|done|]. lia. Qed.

Lemma adds_to_total k extra maximum label :
  D k = true -> maximum = counter_limit k -> adds_to (mir_add_total k extra maximum label) (only k extra) True.
Proof.
  intros Dk ->. unfold mir_add_total.
  apply (adds_to_bump k (fun c => checked_add u64_max (c k) extra)); [done|done|]. intros c n. apply checked_add_exact.
Qed.
End steps.

(** Followed on every counter *)
Notation all_counters := (fun _ : MirCounter => true).

(** Amounts are compared counter by counter. *)
Ltac amounts :=
  intros [] ?; cbn; unfold only; repeat (case_decide; try discriminate); try congruence; cbn; lia.

(** ** The levels of the scan *)

Lemma adds_to_call D i : D CCalls = true -> D CCallArguments = true ->
  adds_to D (preflight_call i) (call_amount i) (call_local i).
Proof.
  intros H1 H2. unfold preflight_call, call_amount, call_local. destruct (mi_kind i) as [| | | | | | | | | | | |callee arguments];
    try (eapply adds_to_proper; [apply adds_to_ret|done|done]).
  eapply adds_to_proper.
  - eapply adds_to_seq; [|apply adds_to_require, adds_to_total; [exact H2|done]].
    apply (adds_to_bump D CCalls (fun c => checked_add u64_max (c CCalls) 1) 1); [done|done|]. intros c n. apply checked_add_exact.
  - amounts.
  - rewrite N.leb_le. tauto.
Qed.

Lemma adds_to_edges D t : D CEdgeArguments = true ->
  adds_to D (preflight_edges t) (only CEdgeArguments (terminator_argument_count t)) (terminator_local t).
Proof.
  intros HD. destruct t as [v|target args|c t1 a1 t2 a2]; cbn [preflight_edges].
  - eapply adds_to_proper; [apply adds_to_ret| |done]. amounts.
  - eapply adds_to_proper; [apply adds_to_require, adds_to_total; [exact HD|done]|done|].
    rewrite N.leb_le. cbn. tauto.
  - eapply adds_to_proper.
    + apply adds_to_require, adds_to_seq; apply adds_to_total; try exact HD; done.
    + amounts.
    + rewrite andb_true_iff, !N.leb_le. cbn. tauto.
Qed.

Lemma adds_to_terminator t :
  adds_to all_counters (mir_preflight_terminator t) (terminator_amount t) (terminator_local t).
Proof.
  eapply adds_to_proper.
  - eapply adds_to_seq; [by apply adds_to_edges|].
    apply (adds_to_bump all_counters CFunctionEdges (fun c => checked_add u64_max (c CFunctionEdges) (mir_edge_count t)));
      [done|done|]. intros c n. apply checked_add_exact.
  - amounts.
  - tauto.
Qed.

Lemma adds_to_block b : adds_to all_counters (mir_preflight_block b) (block_amount b) (block_local b).
Proof.
  unfold mir_preflight_block. eapply adds_to_proper.
  - eapply adds_to_require, adds_to_seq; [|eapply adds_to_seq; [|eapply adds_to_seq; [|eapply adds_to_seq]]].
    + apply (adds_to_bump all_counters CFunctionValues (fun c => checked_add u64_max (c CFunctionValues) (len (mb_parameters b)) ≫= fun v =>
        checked_add u64_max v (len (mb_instructions b))) (mir_block_values b)); [done|done|].
      intros c n. unfold mir_block_values. split.
      * intros (v & [Hv ->]%checked_add_exact & [Hn ->]%checked_add_exact)%bind_Some. lia.
      * intros [Hn ->]. apply bind_Some. exists (c CFunctionValues + len (mb_parameters b))%N.
        rewrite !checked_add_exact. lia.
    + apply (adds_to_scan _ preflight_call call_amount call_local). intros i. by apply adds_to_call.
    + by apply adds_to_total.
    + by apply adds_to_total.
    + apply (adds_to_scan _ _ terminator_amount terminator_local), adds_to_terminator.
  - unfold block_amount. amounts.
  - unfold block_local. rewrite N.leb_le. tauto.
Qed.

(** ** Functions, modules, programs *)

(** The loop over the blocks of a function, from reset counters *)
Definition scan_blocks (f : MirFunction) (c : MirCounts) : Limited MirCounts :=
  let c := set_count CFunctionValues (len (mf_parameters f)) c in
  let c := set_count CFunctionTerminators 0 (set_count CFunctionEdges 0 c) in
  c ← scan mir_preflight_block (mf_blocks f) c;
  c ← mir_add_total CValues (c CFunctionValues) MAX_VALUES_PER_PROGRAM "value count" c;
  mir_add_total CEdges (c CFunctionEdges) MAX_CFG_EDGES_PER_PROGRAM "CFG edge count" c.

Lemma total_of_cons {A} (amount : A -> Amount) x l k :
  total_of amount (x :: l) k = amount x k + total_of amount l k.
Proof. done. Qed.
Lemma total_of_ext {A} (amount : A -> Amount) (g : A -> N) l k :
  (forall x, amount x k = g x) -> total_of amount l k = sumN (g <$> l).
Proof. intros H. unfold total_of. f_equal. by apply list_fmap_ext. Qed.
Lemma sumN_zero {A} (l : list A) : sumN ((fun _ => 0) <$> l) = 0.
Proof. induction l as [|x l IH]; [done|]. rewrite fmap_cons. cbn [sumN foldr]. unfold sumN in IH. by rewrite IH. Qed.
Lemma total_of_zero {A} (amount : A -> Amount) l k : (forall x, amount x k = 0) -> total_of amount l k = 0.
Proof. intros H. by rewrite (total_of_ext _ (fun _ => 0)), sumN_zero. Qed.
Lemma call_amount_zero i k : k <> CCalls -> k <> CCallArguments -> call_amount i k = 0.
Proof. intros H1 H2. unfold call_amount. by destruct (mi_kind i), k. Qed.

(** What the blocks add to the counters of their function *)
Lemma blocks_values f : total_of block_amount (mf_blocks f) CFunctionValues = sumN (mir_block_values <$> mf_blocks f).
Proof.
  apply total_of_ext. intros b. unfold block_amount. rewrite !total_of_zero; [cbn; lia|done|].
  intros i. by apply call_amount_zero.
Qed.
Lemma blocks_edges f : total_of block_amount (mf_blocks f) CFunctionEdges = mir_function_edges f.
Proof.
  apply total_of_ext. intros b. unfold block_amount. rewrite total_of_zero by (intros i; by apply call_amount_zero).
  rewrite (total_of_ext _ mir_edge_count) by done. cbn. lia.
Qed.
Lemma blocks_terminators f : total_of block_amount (mf_blocks f) CFunctionTerminators = mir_function_terminators f.
Proof.
  apply total_of_ext. intros b. unfold block_amount. rewrite !total_of_zero; [cbn; lia|done|].
  intros i. by apply call_amount_zero.
Qed.

Definition blocks_part (f : MirFunction) : Amount := fun k =>
  match k with
  | CValues => mir_function_values f
  | CEdges => mir_function_edges f
  | _ => total_of block_amount (mf_blocks f) k
  end.
Lemma blocks_quiet f k : k = CParameters \/ k = CBlocks \/ k = CSymbolBytes \/ k = CExportBytes \/ k = CFunctions \/ k = CValues \/ k = CEdges ->
  total_of block_amount (mf_blocks f) k = 0.
Proof.
  intros Hk. apply total_of_zero. intros b. unfold block_amount. rewrite !total_of_zero; [naive_solver..|].
  intros i. apply call_amount_zero; naive_solver.
Qed.

(** The totals of the program after the blocks *)
Definition add_values_edges (values edges : N) (c : MirCounts) : Limited MirCounts :=
  c ← mir_add_total CValues values MAX_VALUES_PER_PROGRAM "value count" c;
  mir_add_total CEdges edges MAX_CFG_EDGES_PER_PROGRAM "CFG edge count" c.
Lemma add_values_edges_exact c :
  (c2 ← mir_add_total CValues (c CFunctionValues) MAX_VALUES_PER_PROGRAM "value count" c;
   mir_add_total CEdges (c2 CFunctionEdges) MAX_CFG_EDGES_PER_PROGRAM "CFG edge count" c2)
  = add_values_edges (c CFunctionValues) (c CFunctionEdges) c.
Proof.
  unfold add_values_edges, mir_add_total, mir_bump. destruct (checked_add _ (c CValues) _) as [n|]; [|done]. cbn.
  by destruct (_ <? n).
Qed.
Lemma adds_to_values_edges values edges :
  adds_to program_counter (add_values_edges values edges) (fun k => only CValues values k + only CEdges edges k) True.
Proof.
  eapply adds_to_proper; [apply adds_to_seq; by apply adds_to_total|done|tauto].
Qed.

Lemma adds_to_scan_blocks f : len (mf_parameters f) <= MAX_PARAMETERS_PER_FUNCTION ->
  adds_to program_counter (scan_blocks f) (blocks_part f)
    (Forall block_local (mf_blocks f) /\ mir_function_values f <= MAX_VALUES_PER_FUNCTION /\
     mir_function_edges f <= MAX_CFG_EDGES_PER_FUNCTION /\ mir_function_terminators f <= MAX_TERMINATORS_PER_FUNCTION).
Proof.
  intros Hp c Hc. unfold scan_blocks.
  set (c0 := set_count CFunctionTerminators 0 _).
  assert (Hc0 : bounded_counts all_counters c0).
  { intros k _. unfold c0, set_count. repeat case_decide; subst; try (by apply Hc; destruct k); cbn; [lia|lia|].
    unfold MAX_PARAMETERS_PER_FUNCTION, MAX_VALUES_PER_FUNCTION in *. lia. }
  assert (Ek : forall k, program_counter k = true -> c0 k = c k).
  { intros k Hk. unfold c0, set_count. repeat case_decide; subst; done. }
  assert (Ev : c0 CFunctionValues = len (mf_parameters f)) by done.
  assert (Ee : c0 CFunctionEdges = 0) by done. assert (Et : c0 CFunctionTerminators = 0) by done.
  destruct (adds_to_scan all_counters _ _ _ (mf_blocks f) adds_to_block c0 Hc0) as [F B]. cbv beta in F, B. clearbody c0.
  pose proof (blocks_values f) as Bv. pose proof (blocks_edges f) as Be. pose proof (blocks_terminators f) as Bt.
  assert (Hparts : forall c1, (forall k, true = true -> c1 k = c0 k + total_of block_amount (mf_blocks f) k) ->
    c1 CFunctionValues = mir_function_values f /\ c1 CFunctionEdges = mir_function_edges f /\
    c1 CFunctionTerminators = mir_function_terminators f /\
    forall k, program_counter k = true -> c1 k + (only CValues (mir_function_values f) k + only CEdges (mir_function_edges f) k) = c k + blocks_part f k).
  { intros c1 H1. unfold mir_function_values. rewrite !H1, Ev, Ee, Et, Bv, Be, Bt by done. split_and!; [done..|].
    intros k Hk. rewrite H1, Ek by done. unfold only. destruct k; try done; repeat (case_decide; try discriminate); try congruence; cbn; try lia.
    - rewrite blocks_quiet by naive_solver. unfold mir_function_values. lia.
    - rewrite blocks_quiet by naive_solver. lia. }
  split.
  - intros c' E. destruct (scan _ _ _) as [c1|] eqn:E1; [|done]. destruct (F c1 eq_refl) as (A1 & O1 & W1).
    destruct (Hparts c1 A1) as (Hv & He & Ht & Hk). cbn in E. rewrite add_values_edges_exact, Hv, He in E.
    destruct (adds_to_values_edges (mir_function_values f) (mir_function_edges f) c1) as [F2 _]; [by intros k _; apply W1|].
    destruct (F2 c' E) as (A2 & _ & W2). split_and!; [|done|..|done].
    + intros k Dk. rewrite A2 by done. by apply Hk.
    + rewrite <- Hv. by apply (W1 CFunctionValues).
    + rewrite <- He. by apply (W1 CFunctionEdges).
    + rewrite <- Ht. by apply (W1 CFunctionTerminators).
  - intros (O1 & Lv & Le & Lt) Hb. unfold mir_function_values in Lv. destruct (B O1) as [c1 E1].
    { intros k _. destruct (program_counter k) eqn:Dk.
      - specialize (Hb k Dk). cbn in Hb. rewrite Ek by done. enough (total_of block_amount (mf_blocks f) k <= blocks_part f k) by lia.
        destruct k; try done; cbn; rewrite blocks_quiet by naive_solver; lia.
      - destruct k; try done; cbn; lia. }
    rewrite E1. cbn. rewrite add_values_edges_exact. destruct (F c1 E1) as (A1 & _ & W1).
    destruct (Hparts c1 A1) as (Hv & He & Ht & Hk). rewrite Hv, He.
    destruct (adds_to_values_edges (mir_function_values f) (mir_function_edges f) c1) as [_ B2]; [by intros k _; apply W1|].
    apply B2; [done|]. intros k Dk. rewrite Hk by done. by apply Hb.
Qed.

Lemma adds_to_names f : adds_to program_counter (preflight_names f)
  (fun k => only CSymbolBytes (slen (mf_internal_symbol f)) k + only CExportBytes (export_bytes f) k)
  (slen (mf_internal_symbol f) <= MAX_INTERNAL_SYMBOL_BYTES /\ export_bytes f <= MAX_ENTRY_EXPORT_BYTES).
Proof.
  unfold preflight_names, export_bytes. eapply adds_to_proper.
  - apply adds_to_require, adds_to_seq; [by apply adds_to_total|].
    instantiate (1 := (export_bytes f <= MAX_ENTRY_EXPORT_BYTES)). instantiate (1 := only CExportBytes (export_bytes f)).
    unfold export_bytes. destruct (mf_entry_export f) as [export|]; cbn.
    + eapply adds_to_proper; [by apply adds_to_require, adds_to_total|done|]. rewrite N.leb_le. tauto.
    + eapply adds_to_proper; [apply adds_to_ret|amounts|]. split; [|done]. intros _. by apply N.le_0_l.
  - done.
  - rewrite N.leb_le. unfold export_bytes. tauto.
Qed.

Lemma adds_to_function f : adds_to program_counter (mir_preflight_function f) (function_amount f) (function_local f).
Proof.
  assert (H : adds_to program_counter (fun c =>
      _ ← require (len (mf_parameters f) <=? MAX_PARAMETERS_PER_FUNCTION) "parameters per function" MAX_PARAMETERS_PER_FUNCTION;
      c ← mir_add_total CParameters (len (mf_parameters f)) MAX_PARAMETERS_PER_PROGRAM "parameter count" c;
      _ ← require (len (mf_blocks f) <=? MAX_BLOCKS_PER_FUNCTION) "blocks per function" MAX_BLOCKS_PER_FUNCTION;
      c ← mir_add_total CBlocks (len (mf_blocks f)) MAX_BLOCKS_PER_PROGRAM "block count" c;
      scan_blocks f c)
    (fun k => only CParameters (len (mf_parameters f)) k + (only CBlocks (len (mf_blocks f)) k + blocks_part f k))
    ((len (mf_parameters f) <=? MAX_PARAMETERS_PER_FUNCTION) = true /\ True /\
     (len (mf_blocks f) <=? MAX_BLOCKS_PER_FUNCTION) = true /\ True /\
     (Forall block_local (mf_blocks f) /\ mir_function_values f <= MAX_VALUES_PER_FUNCTION /\
      mir_function_edges f <= MAX_CFG_EDGES_PER_FUNCTION /\ mir_function_terminators f <= MAX_TERMINATORS_PER_FUNCTION))).
  { destruct (N.leb_spec (len (mf_parameters f)) MAX_PARAMETERS_PER_FUNCTION) as [Hp|Hp].
    - apply adds_to_require, adds_to_seq; [by apply adds_to_total|]. apply adds_to_require, adds_to_seq; [by apply adds_to_total|].
      by apply adds_to_scan_blocks.
    - intros c Hc. split; [done|]. by intros []. }
  eapply adds_to_proper; [exact (adds_to_seq _ _ _ _ _ _ _ (adds_to_names f) H)|..].
  - assert (Q := blocks_quiet f). unfold function_amount, blocks_part. intros [] Dk; try done; unfold only;
      repeat (case_decide; try discriminate); try congruence; cbn; rewrite ?Q by naive_solver; lia.
  - rewrite !N.leb_le. split.
    + intros ([] & ? & _ & ? & _ & ? & ? & ? & ?). by split.
    + intros []. by split_and!.
Qed.

Lemma adds_to_module m : adds_to program_counter (mir_preflight_module m) (module_amount m) (module_local m).
Proof.
  unfold mir_preflight_module. eapply adds_to_proper.
  - apply adds_to_require, adds_to_seq; [by apply adds_to_total|].
    apply (adds_to_scan _ _ function_amount function_local), adds_to_function.
  - unfold module_amount. amounts.
  - rewrite N.leb_le. unfold module_local. tauto.
Qed.

(** [mir_preflight] accepts exactly the programs within every limit. *)
Lemma mir_preflight_within p : mir_preflight p no_errors = no_errors <-> mir_within p.
Proof.
  unfold mir_preflight. destruct (mp_modules p) as [|m ms] eqn:Em.
  { split; [done|]. intros [H _ _ _]. done. }
  rewrite <- Em.
  assert (H0 : bounded_counts program_counter (fun _ => 0)) by (intros k _; apply N.le_0_l).
  destruct (adds_to_require _ (len (mp_modules p) <=? MAX_MODULES) "module count" MAX_MODULES _ _ _
    (adds_to_scan program_counter _ _ _ (mp_modules p) adds_to_module) _ H0) as [F B].
  destruct (_ ← _; scan _ _ _) as [c|[label maximum]] eqn:E.
  - split; [|done]. intros _. destruct (F c eq_refl) as (A & [Hm Ho] & W). apply N.leb_le in Hm. split; [by rewrite Em|done..|].
    intros k Dk. specialize (W k Dk). by rewrite A in W.
  - split; [done|]. intros [_ Hm Ho Ht]. destruct B as [c' [=]]; [by rewrite N.leb_le|]. by intros k Dk; apply Ht.
Qed.
