(* ===== verification/MirEquiv.v ===== *)
(** * The two verifiers agree

    The checks of native MIR and those of the IR, run on functions that differ
    in their spans only, are both clean or both not, and leave the same tables:
    what is known of clean runs of the IR verifier carries over. *)
From stdpp Require Import base numbers list strings gmap option.
From S2P Require Import Prelude Source Diagnostics Abi CfgAlgorithms ControlFlow CheckLogic ControlFlowSound CfgSound VerifySound NativeMir.

#[export] Instance mst_has_errors : HasErrors MSt := ms_errors.

(** ** The same code without spans *)

Definition erase_block (block : Block) : MirBlock :=
  mkMirBlock (b_id block) (lower_definition <$> b_parameters block)
    ((fun i => mkMirInstruction (lower_definition (in_result i)) (lower_operation (in_kind i))) <$> b_instructions block)
    ((fun t => mir_lower_terminator (tm_kind t)) <$> b_terminators block).

Record mirrors (mf : MirFunction) (f : Function_) : Prop := {
  mr_parameters : mf_parameters mf = lower_definition <$> f_parameters f;
  mr_result : mf_result mf = f_result f;
  mr_blocks : mf_blocks mf = erase_block <$> f_blocks f }.

Definition mirrors_module (mm : MirModule) (m : Module_) : Prop := Forall2 mirrors (mm_functions mm) (m_functions m).
Definition mirrors_program (mp : MirProgram) (p : Program_) : Prop := Forall2 mirrors_module (mp_modules mp) (p_modules p).

(** ** Agreement of two runs *)

Record corr (s' : MSt) (s : St) : Prop := {
  co_calls : ms_calls s' = st_calls s;
  co_values : ms_values s' = st_values s;
  co_edges : ms_edges s' = (fun e => (e_source e, e_target e)) <$> st_edges s }.

Definition rejecting {S A} `{HE : HasErrors S} (m : M S A) : Prop := forall s, ~ clean (m s).1.

(** Both runs end clean, in corresponding states, or neither does. *)
Definition agrees {A B} (R : A -> B -> Prop) (m' : M MSt A) (m : M St B) : Prop :=
  mono m' /\ mono m /\ forall s' s, clean s' -> clean s -> corr s' s ->
    (clean (m' s').1 /\ clean (m s).1 /\ corr (m' s').1 (m s).1 /\ option_Forall2 R (m' s').2 (m s).2) \/
    (~ clean (m' s').1 /\ ~ clean (m s).1).

Lemma agrees_bind {A B A' B'} (R : A -> B -> Prop) (Q : A' -> B' -> Prop) m' m f' f :
  agrees R m' m -> (forall a, mono (f' a)) -> (forall b, mono (f b)) ->
  (forall a b, R a b -> agrees Q (f' a) (f b)) -> agrees Q (m' ≫= f') (m ≫= f).
Proof.
  intros (M1 & M2 & H) Hf' Hf Hfs. split; [by apply mono_bind|]. split; [by apply mono_bind|].
  intros s' s Hc' Hc Hcorr. unfold mbind, M_bind. destruct (H s' s Hc' Hc Hcorr) as [(C1 & C2 & K & O)|[C1 C2]].
  - destruct (m' s') as [t' o'], (m s) as [t o]. cbn in *. destruct O as [a b Hab|]; [|left; split_and!; [done..|constructor]].
    destruct (Hfs a b Hab) as (_ & _ & Hnext). by apply Hnext.
  - right. split; intros Hx.
    + destruct (m' s') as [t' [a|]] eqn:E; cbn in *; [|done]. destruct (Hf' a t' Hx) as [? _]. done.
    + destruct (m s) as [t [b|]] eqn:E; cbn in *; [|done]. destruct (Hf b t Hx) as [? _]. done.
Qed.

Lemma agrees_seq {A B A' B'} (R : A -> B -> Prop) (Q : A' -> B' -> Prop) m' m k' k :
  agrees R m' m -> agrees Q k' k -> agrees Q (m';; k') (m;; k).
Proof. intros H1 H2. destruct H2 as (K1 & K2 & K3). by eapply agrees_bind. Qed.

Lemma agrees_ret {A B} (R : A -> B -> Prop) a b : R a b -> agrees R (mret a) (mret b).
Proof. intros HR. split; [apply mono_ret|]. split; [apply mono_ret|]. intros s' s ? ? ?. left. split_and!; try done; by constructor. Qed.

Lemma agrees_return {A B} (R : A -> B -> Prop) : agrees R return_now return_now.
Proof. split; [apply mono_return|]. split; [apply mono_return|]. intros s' s ? ? ?. left. split_and!; try done; constructor. Qed.

Lemma dirty_mono {S A} `{HE : HasErrors S} (m : M S A) : rejecting m -> mono m.
Proof. intros H s Hc. by destruct (H s). Qed.

Lemma agrees_dirty {A B} (R : A -> B -> Prop) m' m : rejecting m' -> rejecting m -> agrees R m' m.
Proof. intros H' H. split; [by apply dirty_mono|]. split; [by apply dirty_mono|]. intros s' s _ _ _. right. auto. Qed.

Lemma agrees_when (b' b : bool) m' m : b' = b -> (b = true -> agrees eq m' m) -> agrees eq (when b' m') (when b m).
Proof. intros -> H. destruct b; [by apply H|]. by apply agrees_ret. Qed.

Lemma agrees_body m' m : agrees eq m' m -> agrees eq (body m') (body m).
Proof.
  intros (M1 & M2 & H). split; [by apply mono_body|]. split; [by apply mono_body|].
  intros s' s C' C K. destruct (H s' s C' C K) as [(? & ? & ? & ?)|?]; [left|by right]. split_and!; try done; by constructor.
Qed.

Lemma agrees_for_each {A B} (R : A -> B -> Prop) (l' : list A) (l : list B) f' f :
  Forall2 R l' l -> (forall a b, R a b -> agrees eq (f' a) (f b)) -> agrees eq (for_each l' f') (for_each l f).
Proof.
  intros Hl Hf. induction Hl as [|a b l' l Hab Hl IH]; [by apply agrees_ret|]. cbn.
  eapply agrees_seq; [by apply Hf|done].
Qed.

(** The test of exhaustion does nothing in a clean run. *)
Lemma exhausted_clean s : clean s -> check_exhausted s = (s, Some tt).
Proof. intros Hc. unfold check_exhausted. by rewrite Hc. Qed.
Lemma mexhausted_clean (s : MSt) : clean s -> mcheck_exhausted s = (s, Some tt).
Proof. intros Hc. unfold mcheck_exhausted. by rewrite Hc. Qed.
Lemma mono_mexhausted : mono mcheck_exhausted.
Proof. intros s Hc. split; [|done]. unfold mcheck_exhausted in Hc. by destruct (er_exhausted _). Qed.

Lemma agrees_skip {A B} (R : A -> B -> Prop) m' m : agrees R m' m -> agrees R m' (check_exhausted;; m).
Proof.
  intros (M1 & M2 & H). split; [done|]. split; [apply mono_bind; [apply mono_exhausted|done]|].
  intros s' s C' C K. unfold mbind, M_bind. rewrite exhausted_clean by done. by apply H.
Qed.
Lemma agrees_mskip {A B} (R : A -> B -> Prop) m' m : agrees R m' m -> agrees R (mcheck_exhausted;; m') m.
Proof.
  intros (M1 & M2 & H). split; [apply mono_bind; [apply mono_mexhausted|done]|]. split; [done|].
  intros s' s C' C K. unfold mbind, M_bind. rewrite mexhausted_clean by done. by apply H.
Qed.
Lemma agrees_exhausted : agrees eq mcheck_exhausted check_exhausted.
Proof.
  split; [apply mono_mexhausted|]. split; [apply mono_exhausted|]. intros s' s C' C K. left.
  rewrite mexhausted_clean, exhausted_clean by done. split_and!; try done; by constructor.
Qed.
(** ... also after a run that ends in [tt] *)
Lemma agrees_then_exhausted m' m : agrees eq m' m -> agrees eq m' (m;; check_exhausted).
Proof.
  intros (M1 & M2 & H). split; [done|]. split; [apply mono_bind; [done|intros; apply mono_exhausted]|].
  intros s' s C' C K. unfold mbind, M_bind. destruct (H s' s C' C K) as [(C1 & C2 & K1 & O)|[C1 C2]].
  - destruct (m s) as [t o]; cbn in *. left. destruct O as [a b ->|]; [|split_and!; try done; by constructor].
    rewrite exhausted_clean by done. destruct b. split_and!; try done; by constructor.
  - right. split; [done|]. destruct (m s) as [t [b|]]; cbn in *; [|done]. intros Hx.
    destruct (mono_exhausted t Hx) as [? _]. done.
Qed.

Lemma agrees_gets {A B} (R : A -> B -> Prop) (f' : MSt -> A) (f : St -> B) :
  (forall s' s, clean s' -> clean s -> corr s' s -> R (f' s') (f s)) -> agrees R (gets f') (gets f).
Proof.
  intros Hf. split; [apply mono_gets|]. split; [apply mono_gets|]. intros s' s C' C K. left. split_and!; try done.
  constructor. by apply Hf.
Qed.
Lemma agrees_modify f' f :
  (forall s, errors_of (f' s) = errors_of s) -> (forall s, errors_of (f s) = errors_of s) ->
  (forall s' s, corr s' s -> corr (f' s') (f s)) -> agrees eq (modify f') (modify f).
Proof.
  intros H' H Hf. split; [by apply mono_modify|]. split; [by apply mono_modify|]. intros s' s C' C K. left. cbn.
  unfold clean in *. rewrite H', H. split_and!; try done; by apply Hf.
Qed.

(** ** Reports *)

Lemma mir_push_dirty d e : mir_errors_push d e <> no_errors.
Proof.
  unfold mir_errors_push, no_errors. destruct e as [ds []]; cbn; [done|]. destruct (_ <? _)%N; [|done]. intros [= E]. by destruct ds.
Qed.
Lemma mir_limit_dirty label maximum e : mir_errors_limit label maximum e <> no_errors.
Proof. unfold mir_errors_limit, no_errors. by destruct e as [ds []]. Qed.
Lemma dirty_mpush d : rejecting (mpush d).
Proof. intros s Hc. by apply mir_push_dirty in Hc. Qed.
Lemma dirty_mlimit label maximum : rejecting (mlimit label maximum).
Proof. intros s Hc. by apply mir_limit_dirty in Hc. Qed.
Lemma dirty_push d : rejecting (push d).
Proof. intros s Hc. by apply push_dirty in Hc. Qed.
Lemma dirty_push_checked d : rejecting (push_checked d).
Proof. intros s Hc. by apply push_checked_dirty in Hc. Qed.
Lemma dirty_limit label maximum : rejecting (limit label maximum).
Proof. intros s Hc. by apply errors_limit_dirty in Hc. Qed.
Lemma dirty_bind {S A B} `{HE : HasErrors S} (m : M S A) (f : A -> M S B) : rejecting m -> (forall a, mono (f a)) -> rejecting (m ≫= f).
Proof.
  intros Hm Hf s Hc. unfold mbind, M_bind in Hc. specialize (Hm s). destruct (m s) as [t [a|]]; cbn in *; [|done].
  destruct (Hf a t Hc) as [? _]. done.
Qed.

(** A report under a condition, however the two put it *)
Lemma agrees_report (b' b : bool) m' m : b' = b -> rejecting m' -> rejecting m -> agrees eq (when b' m') (when b m).
Proof. intros E H' H. apply agrees_when; [done|]. intros _. by apply agrees_dirty. Qed.

Create HintDb reports.
#[export] Hint Resolve dirty_mpush dirty_mlimit dirty_push dirty_push_checked dirty_limit : reports.
#[export] Hint Resolve mono_mexhausted : mono.

(** A clean use knows its value: an absent value is a report. *)
Definition same_use (value : option ValueInfo) (u : option (nat * ValueInfo)) : Prop :=
  exists index vi, value = Some vi /\ u = Some (index, vi).
Lemma same_use_ty value u : same_use value u -> vi_ty <$> value = use_ty u.
Proof. by intros (index & vi & -> & ->). Qed.

(** A body that ends in [tt] may be called as such. *)
Definition ends {S A} (m : M S A) : Prop := forall s, is_Some (m s).2.

Lemma agrees_body_r m' m : ends m' -> agrees eq m' m -> agrees eq m' (body m).
Proof.
  intros He (M1 & M2 & H). split; [done|]. split; [by apply mono_body|].
  intros s' s C' C K. destruct (H s' s C' C K) as [(? & ? & ? & O)|?]; [left|by right]. split_and!; try done. cbn.
  destruct (He s') as [[] E]. rewrite E. by constructor.
Qed.

Lemma ends_bind {S A B} (m : M S A) (f : A -> M S B) : ends m -> (forall a, ends (f a)) -> ends (m ≫= f).
Proof. intros Hm Hf s. unfold mbind, M_bind. specialize (Hm s). destruct (m s) as [t [a|]]; cbn in *; [apply Hf|by destruct Hm]. Qed.
Lemma ends_ret {S A} (a : A) : ends (S := S) (mret a).
Proof. intros s. by eexists. Qed.
Lemma ends_gets {S A} (f : S -> A) : ends (gets f).
Proof. intros s. by eexists. Qed.
Lemma ends_modify {S} (f : S -> S) : ends (modify f).
Proof. intros s. by eexists. Qed.
Lemma ends_when {S} b (m : M S unit) : ends m -> ends (when b m).
Proof. intros Hm. destruct b; [done|]. intros s. by eexists. Qed.
Lemma ends_body {S} (m : M S unit) : ends (body m).
Proof. intros s. by eexists. Qed.
Lemma ends_mpush d : ends (mpush d).
Proof. intros s. by eexists. Qed.
Lemma ends_for_each {S A} (l : list A) (f : A -> M S unit) : (forall x, ends (f x)) -> ends (for_each l f).
Proof. intros Hf. induction l as [|x l IH]; [apply ends_ret|]. cbn. apply ends_bind; auto. Qed.
Create HintDb ends.
#[export] Hint Resolve ends_ret ends_gets ends_modify ends_when ends_body ends_mpush : ends.

(** Descends through the structure of a checker without early returns. *)
Ltac solve_ends :=
  repeat match goal with
    | |- forall _, _ => intro
    | |- ends (_ ≫= _) => apply ends_bind
    | |- ends (for_each _ _) => apply ends_for_each
    | |- ends (if ?b then _ else _) => destruct b
    | |- ends (match ?x with _ => _ end) => destruct x
    | |- ends _ => solve [auto with ends]
    end.

(** Reads of the tables and of the exhaustion flag *)
Lemma agrees_get {A B C C'} (R : A -> B -> Prop) (g' : MSt -> C') (g : St -> C) (rel : C' -> C -> Prop) k' k :
  (forall s' s, corr s' s -> rel (g' s') (g s)) -> (forall x, mono (k' x)) -> (forall x, mono (k x)) ->
  (forall x y, rel x y -> agrees R (k' x) (k y)) -> agrees R (gets g' ≫= k') (gets g ≫= k).
Proof. intros Hg M1 M2 Hk. eapply agrees_bind; [apply (agrees_gets rel); auto|done..]. Qed.

Lemma agrees_flag {A B} (R : A -> B -> Prop) m' k :
  (forall b, mono (k b)) -> agrees R m' (k false) -> agrees R m' (gets (fun s => er_exhausted (st_errors s)) ≫= k).
Proof.
  intros Mk (M1 & M2 & H). split; [done|]. split; [by apply mono_bind; [apply mono_gets|]|].
  intros s' s C' C K. unfold mbind, M_bind, gets. replace (er_exhausted (st_errors s)) with false; [by apply H|].
  unfold clean, errors_of, st_has_errors in C. by rewrite C.
Qed.
Lemma agrees_mflag {A B} (R : A -> B -> Prop) k m :
  (forall b, mono (k b)) -> agrees R (k false) m -> agrees R (gets (fun s => er_exhausted (ms_errors s)) ≫= k) m.
Proof.
  intros Mk (M1 & M2 & H). split; [by apply mono_bind; [apply mono_gets|]|]. split; [done|].
  intros s' s C' C K. unfold mbind, M_bind, gets. replace (er_exhausted (ms_errors s')) with false; [by apply H|].
  unfold clean, errors_of, mst_has_errors in C'. by rewrite C'.
Qed.

Lemma mono_mpush d : mono (mpush d).
Proof. apply dirty_mono, dirty_mpush. Qed.
Lemma mono_mlimit label maximum : mono (mlimit label maximum).
Proof. apply dirty_mono, dirty_mlimit. Qed.
#[export] Hint Resolve mono_mpush mono_mlimit : mono.

(** ** Values and operands *)

Lemma agrees_checked_use v b p span : agrees same_use (mir_checked_use v b p) (checked_use v b p span).
Proof.
  unfold mir_checked_use, checked_use, value_info, mir_value_info.
  apply agrees_flag; [intros []; solve_mono|]. cbn beta iota.
  apply (agrees_get _ _ _ eq); [by intros s' s []|solve_mono|solve_mono|]. intros values ? <-.
  destruct (get values v) as [vi|]; cbn.
  - eapply agrees_seq; [apply agrees_report; auto with reports|]. apply agrees_ret. by exists (N.to_nat v), vi.
  - apply agrees_dirty; (apply dirty_bind; [auto with reports|intros; apply mono_ret]).
Qed.

Lemma mono_mir_checked_use v b p : mono (mir_checked_use v b p).
Proof. apply (agrees_checked_use v b p (mkSpan (mkFileId 0 0) 0 0)). Qed.
#[export] Hint Resolve mono_mir_checked_use : mono.

(** A use followed by what reads its type *)
Lemma agrees_use {A B} (R : A -> B -> Prop) v b p span k' k :
  (forall x, mono (k' x)) -> (forall x, mono (k x)) ->
  (forall x y, same_use x y -> agrees R (k' x) (k y)) ->
  agrees R (mir_checked_use v b p ≫= k') (checked_use v b p span ≫= k).
Proof. intros M1 M2 Hk. eapply agrees_bind; [apply agrees_checked_use|done..]. Qed.

Lemma mono_mir_operands_valid operands expected b p : mono (mir_operands_valid operands expected b p).
Proof. revert expected. induction operands; intros [|ty expected]; cbn; solve_mono. Qed.
#[export] Hint Resolve mono_mir_operands_valid : mono.

Lemma agrees_operands_valid operands expected b p span :
  agrees eq (mir_operands_valid operands expected b p) (operands_valid operands expected b p span).
Proof.
  revert expected. induction operands as [|v operands IH]; intros [|ty expected]; cbn; try by apply agrees_ret.
  apply agrees_use; [solve_mono|solve_mono|]. intros x y H. rewrite <- (same_use_ty _ _ H).
  case_bool_decide; [apply IH|by apply agrees_ret].
Qed.


Lemma ends_mir_checked_use v b p : ends (mir_checked_use v b p).
Proof. unfold mir_checked_use. solve_ends. Qed.
Lemma ends_mir_operands_valid operands expected b p : ends (mir_operands_valid operands expected b p).
Proof.
  revert expected. induction operands as [|v operands IH]; intros [|ty expected]; cbn; [solve_ends..|].
  apply ends_bind; [apply ends_mir_checked_use|]. intros x. case_bool_decide; [apply IH|solve_ends].
Qed.
#[export] Hint Resolve ends_mir_checked_use ends_mir_operands_valid : ends.

Lemma agrees_validate_type ty span label' label : agrees eq (mir_validate_type ty label') (validate_type ty span label).
Proof.
  apply agrees_body_r; [unfold mir_validate_type; solve_ends|]. apply agrees_skip, agrees_report; auto with reports.
Qed.
Lemma agrees_expect_result actual expected span label' label :
  agrees eq (mir_expect_result actual expected label') (expect_result actual expected span label).
Proof.
  apply agrees_body_r; [unfold mir_expect_result; solve_ends|]. apply agrees_skip, agrees_report; auto with reports.
Qed.
Lemma agrees_expect_operands operands expected result expected_result b p span :
  agrees eq (mir_expect_operands operands expected result expected_result b p)
    (expect_values operands expected result expected_result b p span).
Proof.
  apply agrees_body_r; [unfold mir_expect_operands; solve_ends|]. apply agrees_skip.
  eapply agrees_bind; [apply agrees_operands_valid|solve_mono|solve_mono|]. intros valid ? <-.
  apply agrees_skip, agrees_report; auto with reports.
Qed.

(** ** Instructions *)

Lemma agrees_verify_equality lhs rhs result b p span :
  agrees eq (mir_verify_equality lhs rhs result b p) (verify_equality lhs rhs result b p span).
Proof.
  unfold mir_verify_equality, verify_equality. apply agrees_use; [solve_mono|solve_mono|]. intros x u Hx. apply agrees_skip.
  apply agrees_use; [solve_mono|solve_mono|]. intros y w Hy. apply agrees_skip, agrees_report; [|auto with reports..].
  rewrite (same_use_ty _ _ Hx), (same_use_ty _ _ Hy). destruct Hx as (i & vi & -> & ->). 
  rewrite (bool_decide_eq_false_2 (Some vi = None)) by done. by rewrite orb_false_r.
Qed.

Lemma enumerate_Forall2 {A B} (R : A -> B -> Prop) l' l : Forall2 R l' l ->
  Forall2 (fun x y => x.1 = y.1 /\ R x.2 y.2) (enumerate l') (enumerate l).
Proof.
  intros H. apply Forall2_same_length_lookup_2; unfold enumerate; [by rewrite !length_imap, (Forall2_length H)|].
  intros i x y (a & Ha & ->)%list_lookup_imap_Some (b & Hb & ->)%list_lookup_imap_Some. split; [done|].
  by apply (Forall2_lookup_lr _ _ _ _ _ _ H Ha Hb).
Qed.
Lemma Forall2_eq {A} (l : list A) : Forall2 eq l l.
Proof. by induction l; constructor. Qed.

(** Loops over indexed lists *)
Lemma agrees_enumerate {A B} (R : A -> B -> Prop) l' l f' f : Forall2 R l' l ->
  (forall i a b, l !! i = Some b -> R a b -> agrees eq (f' (i, a)) (f (i, b))) ->
  agrees eq (for_each (enumerate l') f') (for_each (enumerate l) f).
Proof.
  intros H Hf. apply (agrees_for_each (fun x y => (x.1 = y.1 /\ R x.2 y.2) /\ l !! y.1 = Some y.2)).
  - pose proof (enumerate_Forall2 _ _ _ H) as H'. apply Forall2_same_length_lookup_2; [by apply Forall2_length in H'|].
    intros i x y Hx Hy. split; [exact (Forall2_lookup_lr _ _ _ _ _ _ H' Hx Hy)|]. destruct y.
    by apply enumerate_elem, list_elem_of_lookup_2 with i.
  - intros [i a] [j b] [[E HR] Hj]. cbn in *. subst j. by apply Hf.
Qed.

Lemma agrees_mthen_exhausted m' m : agrees eq m' m -> agrees eq (m';; mcheck_exhausted) m.
Proof.
  intros (M1 & M2 & H). split; [apply mono_bind; [done|intros; apply mono_mexhausted]|]. split; [done|].
  intros s' s C' C K. unfold mbind, M_bind. destruct (H s' s C' C K) as [(C1 & C2 & K1 & O)|[C1 C2]].
  - destruct (m' s') as [t o]; cbn in *. left. destruct O as [a b ->|]; [|split_and!; try done; by constructor].
    rewrite mexhausted_clean by done. destruct b. split_and!; try done; by constructor.
  - right. split; [|done]. destruct (m' s') as [t [b|]]; cbn in *; [|done]. intros Hx.
    destruct (mono_mexhausted t Hx) as [? _]. done.
Qed.

Lemma agrees_verify_call key callee arguments result b p span signatures :
  agrees eq (mir_verify_call key callee arguments result b p signatures)
    (verify_call key callee arguments result b p span signatures).
Proof.
  unfold mir_verify_call, verify_call. destruct (lookup_signature signatures callee) as [(target & parameters & res)|].
  2: { apply agrees_dirty; (apply dirty_bind; [auto with reports|intros; apply mono_return]). }
  apply agrees_skip. eapply agrees_seq.
  { apply agrees_modify; [done..|]. intros s' s [E1 E2 E3]. split; cbn; by rewrite ?E1, ?E2, ?E3. }
  eapply agrees_seq; [apply agrees_report; auto with reports|]. unfold verify_call_arguments.
  apply (agrees_for_each eq); [apply Forall2_eq|]. intros [i v] ? <-. apply agrees_use; [solve_mono|solve_mono|].
  intros x y H. apply agrees_skip, agrees_mthen_exhausted, agrees_report; [|auto with reports..].
  by rewrite (same_use_ty _ _ H).
Qed.

Definition mirrors_instruction (i' : MirInstruction) (i : Instruction) : Prop :=
  i' = mkMirInstruction (lower_definition (in_result i)) (lower_operation (in_kind i)).

Lemma agrees_verify_instruction key b p i' i signatures : mirrors_instruction i' i ->
  agrees eq (mir_verify_instruction key b p i' signatures) (verify_instruction key b p i signatures).
Proof.
  intros ->. unfold mir_verify_instruction, verify_instruction. cbn [mi_result mi_kind lower_definition md_ty].
  apply agrees_body, agrees_skip.
  destruct (in_kind i); cbn [lower_operation]; first [apply agrees_expect_result|apply agrees_expect_operands|apply agrees_verify_equality|apply agrees_verify_call].
Qed.

(** ** Edges and terminators *)

Lemma lookup_erased mf f b : mirrors mf f -> b < length (f_blocks f) ->
  (mf_blocks mf).[b] = erase_block (f_blocks f).[b].
Proof.
  intros H Hb. rewrite (mr_blocks _ _ H). apply list_lookup_total_correct. rewrite list_lookup_fmap.
  destruct (lookup_lt_is_Some_2 (f_blocks f) b Hb) as [block E]. by rewrite E, (list_lookup_total_correct _ _ _ E).
Qed.
Lemma erased_blocks mf f : mirrors mf f -> length (mf_blocks mf) = length (f_blocks f).
Proof. intros H. by rewrite (mr_blocks _ _ H), length_fmap. Qed.

Section function.
Context (mf : MirFunction) (f : Function_) (same : mirrors mf f).

Lemma agrees_verify_edge key source target arguments span : source < length (f_blocks f) ->
  agrees eq (mir_verify_edge key source target arguments mf) (verify_edge key source target arguments f span).
Proof.
  intros Hs. unfold mir_verify_edge, verify_edge. apply agrees_body, agrees_skip.
  assert (El : len (mf_blocks mf) = len (f_blocks f)) by (unfold len; by rewrite (erased_blocks _ _ same)). rewrite El.
  destruct (N.ltb_spec target (len (f_blocks f))) as [Ht|Ht]; cbn [negb].
  2: { apply agrees_dirty; (apply dirty_bind; [auto with reports|intros; apply mono_return]). }
  unfold len in Ht. rewrite !(lookup_erased mf f) by (done || lia). cbn [erase_block mb_parameters mb_instructions].
  eapply agrees_seq; [apply agrees_report; auto with reports|].
  eapply agrees_seq; [apply agrees_report; [unfold len; by rewrite length_fmap|auto with reports..]|].
  eapply (agrees_seq eq).
  { rewrite length_fmap. apply (agrees_for_each eq); [apply Forall2_eq|]. intros [i v] ? <-.
    apply agrees_use; [solve_mono|solve_mono|]. intros x y H. apply agrees_skip, agrees_report; [|auto with reports..].
    rewrite (same_use_ty _ _ H), list_lookup_fmap. by destruct (_ !! i). }
  apply agrees_skip, agrees_mflag; [intros []; solve_mono|]. cbn [negb when]. apply agrees_modify; [done..|].
  intros s' s [E1 E2 E3]. split; cbn; [done..|]. by rewrite fmap_app, E3.
Qed.

Lemma mono_mir_verify_edge key source target arguments : source < length (f_blocks f) ->
  mono (mir_verify_edge key source target arguments mf).
Proof. intros Hs. apply (agrees_verify_edge key source target arguments (mkSpan (mkFileId 0 0) 0 0) Hs). Qed.

Lemma agrees_verify_terminator key b t : b < length (f_blocks f) ->
  agrees eq (mir_verify_terminator key b mf (mir_lower_terminator (tm_kind t))) (verify_terminator key b f t).
Proof.
  intros Hb. apply agrees_body_r.
  { unfold mir_verify_terminator, mir_verify_edge. destruct (tm_kind t); cbn; solve_ends. }
  apply agrees_skip. unfold mir_verify_terminator. rewrite (lookup_erased mf f) by done. cbn [erase_block mb_instructions].
  rewrite length_fmap. pose proof (mono_mir_verify_edge key b) as Me.
  destruct (tm_kind t) as [v|target args|c t1 a1 t2 a2]; cbn [mir_lower_terminator].
  - apply agrees_use; [solve_mono|solve_mono|]. intros x y H. apply agrees_skip, agrees_report; [|auto with reports..].
    by rewrite (same_use_ty _ _ H), (mr_result _ _ same).
  - by apply agrees_verify_edge.
  - assert (forall x, mono (when (negb (bool_decide (vi_ty <$> x = Some Bool)))
      (mpush (error "ZRYNA-N2106" "branch condition is not bool" "branch only on exact bool"));;
      mir_verify_edge key b t1 a1 mf;; mir_verify_edge key b t2 a2 mf)) as M1.
    { intros x. repeat (apply mono_bind; [auto with mono|intros _]). auto. }
    assert (forall e a, mono (verify_edge key b e a f (tm_span t))) as M2.
    { intros e a. apply (agrees_verify_edge key b e a (tm_span t) Hb). }
    apply agrees_use; [exact M1| |].
    { intros x. apply mono_bind; [solve_mono|intros _]. apply mono_bind; [apply mono_exhausted|intros _].
      apply mono_bind; [apply M2|intros _]. apply mono_bind; [apply mono_exhausted|intros _]. apply M2. }
    intros x y H. eapply agrees_seq; [apply agrees_report; [by rewrite (same_use_ty _ _ H)|auto with reports..]|].
    apply agrees_skip. eapply agrees_seq; [by apply agrees_verify_edge|]. apply agrees_skip. by apply agrees_verify_edge.
Qed.

(** ** Control-flow graph *)

Lemma same_operands kind : mir_instruction_operands (lower_operation kind) = instruction_operands kind.
Proof. by destruct kind. Qed.
Lemma same_terminator_operands t : mir_terminator_operands (mir_lower_terminator t) = terminator_operands t.
Proof. by destruct t. Qed.

Lemma agrees_verify_dominance operand b p dom span :
  agrees eq (mir_verify_dominance operand b p dom) (verify_dominance operand b p dom span).
Proof.
  split; [unfold mir_verify_dominance; solve_mono|]. split; [unfold verify_dominance; solve_mono|]. intros s' s C' C K.
  unfold mir_verify_dominance, verify_dominance, body, mbind, M_bind. rewrite exhausted_clean by done. cbn [gets].
  rewrite <- (co_values _ _ K). unfold mir_value_info, value_info. destruct (get (ms_values s') operand) as [vi|]; cbn [fmap option_fmap option_map].
  - fold (value_available dom (vi_location vi) b p). destruct (negb (value_available _ _ _ _)); cbn [when].
    + right. split; [apply dirty_mpush|apply dirty_push].
    + left. split_and!; try done; by constructor.
  - left. split_and!; try done; by constructor.
Qed.

Lemma mirrors_blocks : Forall2 (fun block' block => block' = erase_block block) (mf_blocks mf) (f_blocks f).
Proof.
  rewrite (mr_blocks _ _ same). apply Forall2_fmap_l. by induction (f_blocks f); constructor.
Qed.
Lemma erased_instructions block : Forall2 mirrors_instruction (mb_instructions (erase_block block)) (b_instructions block).
Proof. cbn. apply Forall2_fmap_l. by induction (b_instructions block); constructor. Qed.

Lemma agrees_all_dominance dom : agrees eq (mir_verify_all_dominance mf dom) (verify_all_dominance f dom).
Proof.
  unfold mir_verify_all_dominance, verify_all_dominance.
  eapply agrees_enumerate; [apply mirrors_blocks|]. intros b ? block _ ->.
  eapply (agrees_seq eq).
  - eapply agrees_enumerate; [apply erased_instructions|]. intros i ? ins _ ->. cbn [mi_kind].
    rewrite same_operands. apply (agrees_for_each eq); [apply Forall2_eq|]. intros operand ? <-.
    apply agrees_then_exhausted, agrees_verify_dominance.
  - cbn [erase_block mb_terminators mb_instructions]. rewrite length_fmap.
    destruct (b_terminators block) as [|t [|t' ts]]; cbn [fmap list_fmap]; try by apply agrees_ret.
    rewrite same_terminator_operands. apply (agrees_for_each eq); [apply Forall2_eq|]. intros operand ? <-.
    apply agrees_then_exhausted, agrees_verify_dominance.
Qed.

(** The adjacency lists do not depend on the arguments of the edges. *)
Lemma same_successors count edges :
  mir_successors count ((fun e => (e_source e, e_target e)) <$> edges) = edge_successors count edges.
Proof.
  unfold mir_successors, edge_successors. f_equal. generalize (replicate count ([] : list nat)).
  induction edges as [|e edges IH]; intros g; [done|]. apply IH.
Qed.
Lemma same_predecessors count edges :
  mir_predecessors count ((fun e => (e_source e, e_target e)) <$> edges) = edge_predecessors count edges.
Proof.
  unfold mir_predecessors, edge_predecessors. f_equal. generalize (replicate count ([] : list nat)).
  induction edges as [|e edges IH]; intros g; [done|]. apply IH.
Qed.

Lemma agrees_verify_loops key count predecessors dom edges :
  agrees eq (mir_verify_loops key count predecessors dom ((fun e => (e_source e, e_target e)) <$> edges))
    (verify_loops key count predecessors dom edges).
Proof.
  unfold mir_verify_loops, verify_loops. eapply agrees_seq; [apply agrees_report; auto with reports|].
  apply agrees_report; auto with reports.
Qed.

Lemma agrees_verify_cfg key : agrees eq (mir_verify_cfg key mf) (verify_cfg key f).
Proof.
  unfold mir_verify_cfg, verify_cfg. rewrite (erased_blocks _ _ same).
  pose proof agrees_all_dominance as Hd. pose proof agrees_verify_loops as Hl.
  assert (Md : forall dom, mono (mir_verify_all_dominance mf dom)) by (intros dom; apply Hd).
  assert (Ml : forall k n preds dom (edges : list (nat * nat)), mono (mir_verify_loops k n preds dom edges)).
  { intros. unfold mir_verify_loops. solve_mono. }
  apply agrees_body, agrees_skip.
  apply (agrees_get _ _ _ (fun es' es => es' = (fun e => (e_source e, e_target e)) <$> es)); [by intros s' s []| | |].
  { intros x. cbv zeta. destruct (Nat.eqb _ 0); [apply mono_return|]. apply mono_bind; [solve_mono|intros _].
    apply mono_bind; [solve_mono|intros _]. destruct (immediate_dominators _ _); [|solve_mono].
    apply mono_bind; [apply Md|intros _; apply Ml]. }
  { intros x. cbv zeta. destruct (Nat.eqb _ 0); [apply mono_return|]. solve_mono. }
  intros es' es ->. destruct (Nat.eqb _ 0); [apply agrees_return|]. cbv zeta. rewrite same_successors, same_predecessors.
  eapply (agrees_seq eq).
  { apply (agrees_for_each eq); [apply Forall2_eq|]. intros block ? <-. apply agrees_report; auto with reports. }
  eapply (agrees_seq eq). { apply agrees_when; [done|]. intros _. apply agrees_return. }
  destruct (immediate_dominators _ _) as [idom|].
  - eapply agrees_seq; [apply Hd|apply Hl].
  - apply agrees_dirty; (apply dirty_bind; [auto with reports|intros; apply mono_return]).
Qed.

(** ** Functions *)

Lemma agrees_define_value d l :
  agrees eq (mir_define_value (lower_definition d) l) (define_value d l;; check_exhausted).
Proof.
  apply agrees_then_exhausted, agrees_body_r.
  { unfold mir_define_value, mir_validate_type. solve_ends. }
  unfold mir_define_value. apply agrees_skip. cbn [lower_definition md_id md_ty].
  assert (forall x, mono (mir_validate_type x "value")) as Mt by (intros x; unfold mir_validate_type; solve_mono).
  apply (agrees_get _ _ _ eq); [by intros s' s []|..].
  { intros x. apply mono_bind; [solve_mono|intros _]. apply mono_bind; [apply Mt|intros _]. solve_mono. }
  { solve_mono. }
  intros values ? <-. cbv zeta. eapply agrees_seq; [apply agrees_report; auto with reports|].
  eapply agrees_seq; [apply agrees_validate_type|]. apply agrees_skip, agrees_mflag; [intros []; solve_mono|]. cbn [negb when].
  apply agrees_modify; [done..|]. intros s' s [E1 E2 E3]. split; cbn; [done| |done]. by rewrite E2.
Qed.

Lemma agrees_define_parameters (ds : list ValueDefinition) l :
  agrees eq (for_each (lower_definition <$> ds) (fun parameter => mir_define_value parameter l))
    (for_each ds (fun parameter => define_value parameter l;; check_exhausted)).
Proof.
  apply (agrees_for_each (fun d' d => d' = lower_definition d)); [|intros d' d ->; apply agrees_define_value].
  apply Forall2_fmap_l. by induction ds; constructor.
Qed.

Lemma agrees_define_values key : agrees eq (mir_define_values mf) (define_values key f).
Proof.
  unfold mir_define_values, define_values. eapply agrees_seq.
  { rewrite (mr_parameters _ _ same). apply agrees_define_parameters. }
  eapply agrees_enumerate; [apply mirrors_blocks|]. intros b ? block _ ->.
  cbn [erase_block mb_id mb_parameters]. rewrite length_fmap.
  eapply agrees_seq; [apply agrees_report; auto with reports|].
  eapply agrees_seq; [apply agrees_report; auto with reports|].
  eapply agrees_seq; [apply agrees_define_parameters|].
  apply agrees_mthen_exhausted. eapply agrees_enumerate; [apply erased_instructions|].
  intros i ? ins _ ->. cbn [mi_result]. apply agrees_define_value.
Qed.

Lemma agrees_check_blocks key signatures :
  agrees eq (mir_check_blocks key mf signatures) (check_blocks key f signatures).
Proof.
  unfold mir_check_blocks, check_blocks.
  eapply agrees_enumerate; [apply mirrors_blocks|]. intros b ? block Hb%lookup_lt_Some ->.
  eapply (agrees_seq eq).
  - eapply agrees_enumerate; [apply erased_instructions|]. intros i ins' ins _ Hi.
    eapply agrees_seq; [by apply agrees_verify_instruction|apply agrees_exhausted].
  - cbn [erase_block mb_terminators].
    destruct (b_terminators block) as [|t [|t' ts]]; cbn [fmap list_fmap]; [apply agrees_dirty; auto with reports| |apply agrees_dirty; auto with reports].
    eapply agrees_seq; [by apply agrees_verify_terminator|apply agrees_exhausted].
Qed.

(** The passes of the IR over a function, without those over spans *)
Definition check_function (key : FunctionKey) (signatures : Signatures) : M St unit :=
  body (
    validate_type (f_result f) None "function result";;
    when (Nat.eqb (length (f_blocks f)) 0) (push (error "" "" "");; return_now);;
    modify reset_locals;;
    define_values key f;;
    check_blocks key f signatures;;
    verify_cfg key f).

Lemma agrees_verify_function key signatures :
  agrees eq (mir_verify_function key mf signatures) (check_function key signatures).
Proof.
  unfold mir_verify_function, check_function. apply agrees_body. rewrite (mr_result _ _ same).
  eapply agrees_seq; [apply agrees_validate_type|]. eapply (agrees_seq eq).
  { rewrite (mr_blocks _ _ same). destruct (f_blocks f); cbn [fmap list_fmap length Nat.eqb when]; [|by apply agrees_ret].
    apply agrees_dirty; (apply dirty_bind; [auto with reports|intros; apply mono_return]). }
  eapply agrees_seq. { apply agrees_modify; [done..|]. intros s' s [E1 E2 E3]. by split. }
  eapply agrees_seq; [apply agrees_define_values|]. eapply agrees_seq; [apply agrees_check_blocks|apply agrees_verify_cfg].
Qed.
End function.
