(* ===== verification/MirVerify.v ===== *)
(** * What the native MIR verifier accepts

    [mir_verify] accepts exactly the programs within every limit, with a
    canonical inventory and a valid public ABI, whose functions and calls the
    IR verifier finds clean; so accepted MIR is well formed in the sense of
    [ControlFlowSpec], and the MIR of every sealed program is accepted. *)
From stdpp Require Import base numbers list strings pretty gmap option.
From S2P Require Import Prelude Source Diagnostics Abi AbiSound CfgAlgorithms ControlFlow ControlFlowSpec CheckLogic ControlFlowSound CfgSound.
From S2P Require Import PreflightSound VerifySound NativeMir MirLimits MirEquiv.

(** ** Programs *)

Section program.
Context (mp : MirProgram) (p : Program_) (same : mirrors_program mp p).

Lemma same_signatures : mir_collect_signatures mp = collect_signatures p.
Proof.
  unfold mir_collect_signatures, collect_signatures. pose proof same as H. unfold mirrors_program in H.
  induction H as [|mm m ms' ms Hm _ IH]; [done|].
  rewrite !fmap_cons, IH. f_equal. unfold mirrors_module in Hm. induction Hm as [|mf f fs' fs H _ IHf]; [done|].
  rewrite !fmap_cons, IHf. f_equal. by rewrite (mr_parameters _ _ H), (mr_result _ _ H), <- list_fmap_compose.
Qed.

Lemma same_offsets : mir_function_offsets mp = function_offsets p.
Proof.
  unfold mir_function_offsets, function_offsets. generalize 0. pose proof same as H. unfold mirrors_program in H.
  induction H as [|mm m ms' ms Hm _ IH]; intros total; [done|]. cbn [mir_offsets_from]. f_equal.
  unfold mirrors_module in Hm. rewrite (Forall2_length Hm). apply IH.
Qed.

Lemma agrees_verify_call_graph : agrees eq (mir_verify_call_graph mp) (verify_call_graph p).
Proof.
  apply agrees_body_r.
  { unfold mir_verify_call_graph. apply ends_bind; [apply ends_gets|]. intros calls. cbv zeta.
    destruct (default ([], 0) _). destruct (negb _); [apply ends_mpush|]. apply ends_when. intros s. by eexists. }
  unfold mir_verify_call_graph. apply agrees_skip. rewrite same_offsets.
  apply (agrees_get _ _ _ eq); [by intros s' s []|..].
  { intros x. cbv zeta. destruct (default ([], 0) _). destruct (negb _); solve_mono. }
  { intros x. cbv zeta. destruct (default ([], 0) _). destruct (negb _); solve_mono. }
  intros calls ? <-. cbv zeta. unfold call_edges, call_successors, call_indegree.
  replace ((fun c : FunctionKey * FunctionKey => ((function_offsets p).[fk_module c.1] + fk_function c.1,
      (function_offsets p).[fk_module c.2] + fk_function c.2)) <$> calls)
    with ((fun '(caller, callee) => ((function_offsets p).[fk_module caller] + fk_function caller,
      (function_offsets p).[fk_module callee] + fk_function callee)) <$> calls).
  2: { apply list_fmap_ext. by intros i [a b] _. }
  set (edges := _ <$> calls). set (count := default 0 (list.last _)).
  replace (foldl (fun g '(source, target) => push_at source target g) (replicate count []) edges)
    with (foldl (fun g e => push_at e.1 e.2 g) (replicate count ([] : list nat)) edges).
  2: { clearbody edges. generalize (replicate count ([] : list nat)). induction edges as [|[a b] es IH]; intros g; [done|]. apply IH. }
  replace (foldl (fun d '(_, target) => alter S target d) (replicate count 0) edges)
    with (foldl (fun d e => alter S e.2 d) (replicate count 0) edges).
  2: { clearbody edges. generalize (replicate count 0). induction edges as [|[a b] es IH]; intros g; [done|]. apply IH. }
  destruct (default ([], 0) _) as [depth seen]. destruct (Nat.eqb seen count); cbn [negb].
  - apply agrees_report; auto with reports.
  - apply agrees_dirty; auto with reports.
Qed.

(** The functions, against any reference for a single function *)
Lemma agrees_functions (check : nat -> Module_ -> nat -> Function_ -> M St unit) :
  (forall m module f function mf, p_modules p !! m = Some module -> m_functions module !! f = Some function ->
     mirrors mf function -> agrees eq (mir_verify_function (mkFunctionKey m f) mf (collect_signatures p)) (check m module f function)) ->
  agrees eq (mir_verify_functions mp) (body (for_each (enumerate (p_modules p)) (fun '(m, module) =>
    for_each (enumerate (m_functions module)) (fun '(f, function) => check m module f function)))).
Proof.
  intros Hcheck. unfold mir_verify_functions. rewrite same_signatures. apply agrees_body.
  apply (agrees_enumerate mirrors_module); [exact same|]. intros m mm module Em Hm.
  apply (agrees_enumerate mirrors); [exact Hm|]. intros f mf function Ef Hf.
  by apply agrees_mthen_exhausted, Hcheck.
Qed.
End program.

(** ** Internal symbols *)

Lemma pretty_go_digits x : forall s, str_all is_ascii_digit s = true -> str_all is_ascii_digit (pretty_N_go x s) = true.
Proof.
  induction (N.lt_wf_0 x) as [x _ IH]. intros s Hs. destruct (decide (x = 0)%N) as [->|Hx]; [by rewrite pretty_N_go_0|].
  rewrite pretty_N_go_step by lia. apply IH; [apply N.div_lt; lia|]. cbn [str_all]. rewrite Hs, andb_true_r.
  unfold pretty_N_char. by repeat case_match.
Qed.
Lemma pretty_digits (n : N) : str_all is_ascii_digit (pretty n) = true.
Proof. unfold pretty, pretty_N. case_decide; [done|]. by apply pretty_go_digits. Qed.

Lemma pretty_go_length k : forall x s, (x < 10 ^ N.of_nat k)%N -> String.length (pretty_N_go x s) <= k + String.length s.
Proof.
  induction k as [|k IH]; intros x s Hx.
  - replace x with 0%N by (cbn in Hx; lia). by rewrite pretty_N_go_0.
  - destruct (decide (x = 0)%N) as [->|Hn]; [rewrite pretty_N_go_0; lia|]. rewrite pretty_N_go_step by lia.
    etrans; [apply IH|cbn; lia]. apply N.Div0.div_lt_upper_bound. by rewrite Nat2N.inj_succ, N.pow_succ_r' in Hx.
Qed.
Lemma pretty_length (n : N) : (n <= u32_max)%N -> String.length (pretty n) <= 10.
Proof.
  intros Hn. unfold pretty, pretty_N. case_decide; [cbn; lia|]. apply (pretty_go_length 10 n "").
  eapply N.le_lt_trans; [exact Hn|]. by vm_compute.
Qed.

(** Digits end at the first character that is none. *)
Lemma digits_split c a b s t : is_ascii_digit c = false ->
  str_all is_ascii_digit a = true -> str_all is_ascii_digit b = true ->
  a +:+ String c s = b +:+ String c t -> a = b /\ s = t.
Proof.
  intros Hc. revert b. induction a as [|x a IH]; intros [|y b]; cbn [str_all]; rewrite ?andb_true_iff; unfold String.append; fold String.append.
  - by intros _ _ [= ->].
  - intros _ [Hy _] [= <-]. by rewrite Hc in Hy.
  - intros [Hx _] _ [= ->]. by rewrite Hc in Hx.
  - intros [_ Ha] [_ Hb] [= -> E]. destruct (IH b Ha Hb E) as [-> ->]. done.
Qed.

Lemma canonical_symbol_inj a b : canonical_internal_symbol a = canonical_internal_symbol b -> a = b.
Proof.
  unfold canonical_internal_symbol. intros E%(inj (String.append _)). 
  apply digits_split in E as [E1 [= E2]]; [|done|apply pretty_digits..].
  apply (inj pretty) in E1, E2. destruct a, b; cbn in *; by subst.
Qed.

Lemma lowercase_app a b : to_ascii_lowercase (a +:+ b) = to_ascii_lowercase a +:+ to_ascii_lowercase b.
Proof.
  induction a as [|x a IH]; [done|]. change (String x a +:+ b) with (String x (a +:+ b)). cbn [to_ascii_lowercase].
  by rewrite IH.
Qed.
Lemma lowercase_digits s : str_all is_ascii_digit s = true -> to_ascii_lowercase s = s.
Proof.
  induction s as [|x s IH]; [done|]. cbn. rewrite andb_true_iff. intros [Hx Hs]. rewrite IH by done. f_equal.
  unfold lower_char, is_ascii_upper, is_ascii_digit in *. apply andb_true_iff in Hx as [H1%N.leb_le H2%N.leb_le].
  destruct (N.leb_spec 65 (byte_of x)); [lia|done].
Qed.
Lemma canonical_symbol_lowercase id : to_ascii_lowercase (canonical_internal_symbol id) = canonical_internal_symbol id.
Proof.
  unfold canonical_internal_symbol. rewrite !lowercase_app. rewrite (lowercase_digits (pretty (fid_module id))) by apply pretty_digits.
  by rewrite (lowercase_digits (pretty (fid_declaration id))) by apply pretty_digits.
Qed.

Lemma string_app_length (a b : string) : String.length (a +:+ b) = String.length a + String.length b.
Proof.
  induction a as [|x a IH]; [done|]. change (String x a +:+ b) with (String x (a +:+ b)). cbn [String.length].
  by rewrite IH.
Qed.
Lemma canonical_symbol_length id : (fid_module id <= u32_max)%N -> (fid_declaration id <= u32_max)%N ->
  (slen (canonical_internal_symbol id) <= MAX_INTERNAL_SYMBOL_BYTES)%N.
Proof.
  intros H1%pretty_length H2%pretty_length. unfold slen, canonical_internal_symbol, MAX_INTERNAL_SYMBOL_BYTES.
  rewrite !string_app_length. cbn [String.length]. unfold ModuleId in *. lia.
Qed.

(** ** The inventory *)

#[export] Instance inventory_has_errors : HasErrors Inventory := iv_errors.

Record inventory_function_ok (entry_module : ModuleId) (module : MirModule) (f : nat) (function : MirFunction) : Prop := {
  io_id : mf_id function = mkFunctionId (mm_id module) (N.of_nat f);
  io_symbol : mf_internal_symbol function = canonical_internal_symbol (mf_id function);
  io_convention : mf_convention function = ZRYNA_INTERNAL_CONTROL_FLOW_V1;
  io_export : is_Some (mf_entry_export function) -> mm_id module = entry_module }.

Record inventory_ok (mp : MirProgram) : Prop := {
  iv_entry : (mp_entry_module mp < len (mp_modules mp))%N;
  iv_modules : forall m module, mp_modules mp !! m = Some module -> mm_id module = N.of_nat m;
  iv_functions : forall m module f function, mp_modules mp !! m = Some module -> mm_functions module !! f = Some function ->
    inventory_function_ok (mp_entry_module mp) module f function }.

Lemma dirty_ipush d : rejecting (ipush d).
Proof. intros s Hc. by apply mir_push_dirty in Hc. Qed.
Lemma mono_ipush d : mono (ipush d).
Proof. apply dirty_mono, dirty_ipush. Qed.
Lemma checks_when_ipush b d : checks (when b (ipush d)) (fun _ _ => b = false).
Proof. apply checks_when. intros P s Hc. by apply dirty_ipush in Hc. Qed.
Lemma mono_icheck : mono icheck_exhausted.
Proof. intros s Hc. split; [|done]. unfold icheck_exhausted in Hc. by destruct (er_exhausted _). Qed.
Lemma sound_insert_symbol symbol key : sound (insert_symbol symbol key) (fun _ o _ => is_Some o).
Proof.
  intros s Hc. unfold insert_symbol, mbind, M_bind, gets, modify in *. cbn in *.
  destruct (bool_decide (is_Some (iv_exact s !! symbol))); (split; [exact Hc|by eexists]).
Qed.
#[export] Hint Resolve mono_ipush mono_icheck : mono.
#[export] Hint Resolve checks_when_ipush : checks.

Lemma mono_insert_symbol symbol key : mono (insert_symbol symbol key).
Proof. eapply mono_sound, sound_insert_symbol. Qed.
#[export] Hint Resolve mono_insert_symbol : mono.

(** Runs step by step through a clean function, whatever it does to the symbols. *)
Lemma sound_inventory_function entry m module f function :
  sound (inventory_function entry m module f function) (fun _ o _ =>
    o = Some tt /\ inventory_function_ok entry module f function).
Proof.
  assert (Hm : mono (inventory_function entry m module f function)) by (unfold inventory_function; solve_mono).
  intros s Hc. split; [by apply (Hm s Hc)|]. unfold inventory_function in *.
  run_step Hc u1 H1. run_step Hc u2 H2.
  match type of Hc with clean ((?m0 ≫= ?g) ?s0).1 =>
    destruct (run_sound m0 g (fun _ _ _ => True) s0) as (b & s1 & _ & E); [|intros; solve_mono|exact Hc|] end.
  { eapply sound_weaken; [apply sound_insert_symbol|]. intros ? o ? [a ->]. by exists a. }
  rewrite E in Hc |- *. run_step Hc u3 H3. run_step Hc u4 H4. run_step Hc u5 H5.
  split.
  - unfold icheck_exhausted in *. destruct (er_exhausted (iv_errors s1)) eqn:Ex; [|done].
    unfold clean, errors_of, inventory_has_errors in Hc. cbn in Hc. by rewrite Hc in Ex.
  - apply negb_false_iff in H1, H2, H4. apply bool_decide_eq_true in H1. apply String.eqb_eq in H2. apply N.eqb_eq in H4.
    split; [done|by rewrite H1|done|]. intros Hx. apply andb_false_iff in H5 as [E5%negb_false_iff%N.eqb_eq|E5%bool_decide_eq_false]; done.
Qed.

Lemma mono_inventory_function entry m module f function : mono (inventory_function entry m module f function).
Proof. eapply mono_sound, sound_inventory_function. Qed.
#[export] Hint Resolve mono_inventory_function : mono.

Lemma sound_for_each_all {S A} `{HE : HasErrors S} (l : list A) (f : A -> M S unit) (R : A -> Prop) :
  (forall x, x ∈ l -> sound (f x) (fun _ o _ => o = Some tt /\ R x)) ->
  sound (for_each l f) (fun _ o _ => o = Some tt /\ forall x, x ∈ l -> R x).
Proof.
  intros Hf. eapply sound_weaken; [exact (sound_for_each l f (fun x _ _ => R x) Hf)|].
  intros s o s' [-> Hch]. split; [done|]. clear Hf. revert s Hch. induction l as [|x l IH]; intros s; [by intros _ x ?%elem_of_nil|].
  intros (s1 & Hx & Hl) y [->|Hy]%elem_of_cons; [done|by eapply IH].
Qed.

Lemma sound_inventory_module entry m module :
  sound (inventory_module entry m module) (fun _ o _ => o = Some tt /\ mm_id module = N.of_nat m /\
    forall f function, mm_functions module !! f = Some function -> inventory_function_ok entry module f function).
Proof.
  assert (H : sound (for_each (enumerate (mm_functions module)) (fun '(f, function) => inventory_function entry m module f function))
    (fun _ o _ => o = Some tt /\ forall x, x ∈ enumerate (mm_functions module) -> inventory_function_ok entry module x.1 x.2)).
  { apply sound_for_each_all. intros [f function] _. apply sound_inventory_function. }
  intros s Hc. unfold inventory_module in *.
  run_step Hc u Hid. apply negb_false_iff, N.eqb_eq in Hid. destruct (H s Hc) as (Hcl & Ho & Hf).
  split; [done|]. split_and!; [done..|]. intros f function Hin%enumerate_elem. by apply (Hf (f, function)).
Qed.

Lemma mono_inventory_module entry m module : mono (inventory_module entry m module).
Proof. eapply mono_sound, sound_inventory_module. Qed.
#[export] Hint Resolve mono_inventory_module : mono.

Lemma verify_inventory_sound mp i : clean (verify_inventory mp i).1 -> inventory_ok mp.
Proof.
  assert (H : sound (for_each (enumerate (mp_modules mp)) (fun '(m, module) => inventory_module (mp_entry_module mp) m module))
    (fun _ o _ => o = Some tt /\ forall x, x ∈ enumerate (mp_modules mp) -> mm_id x.2 = N.of_nat x.1 /\
       forall f function, mm_functions x.2 !! f = Some function -> inventory_function_ok (mp_entry_module mp) x.2 f function)).
  { apply sound_for_each_all. intros [m module] _. apply sound_inventory_module. }
  intros Hc. unfold verify_inventory, body in Hc. cbn [fst] in Hc.
  run_step Hc u He. apply negb_false_iff, N.ltb_lt in He. destruct (H i Hc) as (_ & _ & Hall). split; [done|..].
  - intros m module Hin%enumerate_elem. by apply (Hall (m, module)).
  - intros m module f function Hin%enumerate_elem Hf. by apply (Hall (m, module)).
Qed.

(** Conversely, canonical symbols never collide. *)
Definition dense_symbol (m f : nat) : string := canonical_internal_symbol (mkFunctionId (N.of_nat m) (N.of_nat f)).
Lemma symbol_of_inj m f m' f' : dense_symbol m f = dense_symbol m' f' -> m = m' /\ f = f'.
Proof. intros [= H1%(inj N.of_nat) H2%(inj N.of_nat)]%canonical_symbol_inj. done. Qed.

(** Only the symbols of earlier functions have been seen. *)
Definition seen_before (m f : nat) (i : Inventory) : Prop := clean i /\ forall s,
  is_Some (iv_exact i !! s) \/ is_Some (iv_portable i !! s) ->
  exists m' f', s = dense_symbol m' f' /\ (m' < m \/ m' = m /\ f' < f).

Lemma insert_symbol_new symbol key i : to_ascii_lowercase symbol = symbol ->
  iv_exact i !! symbol = None -> iv_portable i !! symbol = None ->
  insert_symbol symbol key i =
    (mkInventory (iv_errors i) (<[symbol := key]> (iv_exact i)) (<[symbol := key]> (iv_portable i)), Some false).
Proof.
  intros El N1 N2. unfold insert_symbol, gets, modify, mbind, M_bind, mret, M_ret. rewrite El.
  rewrite (bool_decide_eq_false_2 (is_Some (iv_exact i !! symbol))) by (rewrite N1; by intros [? ?]).
  cbn. rewrite (bool_decide_eq_false_2 (is_Some (iv_portable i !! symbol))) by (rewrite N2; by intros [? ?]). done.
Qed.

Lemma inventory_function_clean entry m module f function i :
  mm_id module = N.of_nat m -> inventory_function_ok entry module f function -> seen_before m f i ->
  exists i', inventory_function entry m module f function i = (i', Some tt) /\ seen_before m (S f) i'.
Proof.
  intros Hid [H1 H2 H3 H4] [Hc Hseen].
  assert (Es : mf_internal_symbol function = dense_symbol m f) by (by rewrite H2, H1, Hid).
  assert (Hnew : iv_exact i !! dense_symbol m f = None /\ iv_portable i !! dense_symbol m f = None).
  { split; apply eq_None_not_Some; intros Hx; (destruct (Hseen (dense_symbol m f)) as (m' & f' & E & Hlt); [auto|]);
      apply symbol_of_inj in E as [<- <-]; lia. }
  destruct Hnew as [N1 N2].
  exists (mkInventory (iv_errors i) (<[dense_symbol m f := (m, f)]> (iv_exact i)) (<[dense_symbol m f := (m, f)]> (iv_portable i))).
  split.
  - unfold inventory_function. rewrite (bool_decide_eq_true_2 _ H1), Es, Hid. fold (dense_symbol m f). rewrite String.eqb_refl.
    rewrite H3, N.eqb_refl. replace (negb (N.of_nat m =? entry)%N && bool_decide (is_Some (mf_entry_export function))) with false.
    2: { symmetry. apply andb_false_iff. case_bool_decide as Hx; [left|by right]. by rewrite <- Hid, (H4 Hx), N.eqb_refl. }
    cbn [negb when]. unfold mbind, M_bind, mret, M_ret.
    rewrite insert_symbol_new; [|apply canonical_symbol_lowercase|done|done]. cbn. unfold icheck_exhausted. cbn.
    pose proof (Hc : iv_errors i = no_errors) as Hc'. by rewrite Hc'.
  - split; [exact Hc|]. intros s Hs. cbn in Hs.
    destruct (decide (s = dense_symbol m f)) as [->|Hne]; [exists m, f; split; [done|lia]|].
    rewrite !lookup_insert_ne in Hs by done. destruct (Hseen s Hs) as (m' & f' & E & Hlt). exists m', f'. split; [done|lia].
Qed.

(** A loop over an indexed list with an invariant *)
Lemma for_each_indexed {S A} (f : nat * A -> M S unit) (I : nat -> S -> Prop) (l : list A) s :
  (forall i x s, l !! i = Some x -> I i s -> exists s', f (i, x) s = (s', Some tt) /\ I (Datatypes.S i) s') ->
  I 0 s -> exists s', for_each (enumerate l) f s = (s', Some tt) /\ I (length l) s'.
Proof.
  unfold enumerate. intros Hf. 
  enough (H : forall l2 l1 g s, l = l1 ++ l2 -> (forall i, g i = length l1 + i) -> I (length l1) s ->
    exists s', for_each (imap (fun i x => (g i, x)) l2) f s = (s', Some tt) /\ I (length l) s').
  { intros H0. by apply (H l [] (fun i => i)). }
  intros l2. induction l2 as [|x l2 IH]; intros l1 g t El Hg Ht.
  - exists t. split; [done|]. by rewrite El, app_nil_r.
  - cbn [imap for_each]. destruct (Hf (length l1) x t) as (t1 & E1 & I1); [by rewrite El, list_lookup_middle|done|].
    rewrite Hg, Nat.add_0_r. unfold mbind, M_bind. rewrite E1.
    destruct (IH (l1 ++ [x]) (g ∘ Datatypes.S) t1) as (t2 & E2 & I2).
    + by rewrite El, <- app_assoc.
    + intros i. cbn. rewrite Hg, length_app. cbn. lia.
    + rewrite length_app. cbn. by rewrite Nat.add_1_r.
    + exists t2. by split.
Qed.

Lemma seen_next m f i : seen_before m f i -> seen_before (S m) 0 i.
Proof. intros [Hc H]. split; [done|]. intros s Hs. destruct (H s Hs) as (m' & f' & E & Hlt). exists m', f'. split; [done|lia]. Qed.

Lemma verify_inventory_clean mp : inventory_ok mp -> clean (verify_inventory mp (mkInventory no_errors ∅ ∅)).1.
Proof.
  intros [He Hids Hfs]. unfold verify_inventory, body. cbn [fst].
  rewrite (proj2 (N.ltb_lt _ _) He). cbn [negb when]. unfold mbind at 1, M_bind at 1. cbn [mret M_ret].
  destruct (for_each_indexed (fun '(m, module) => inventory_module (mp_entry_module mp) m module) (fun m => seen_before m 0)
    (mp_modules mp) (mkInventory no_errors ∅ ∅)) as (i & E & Hi).
  - intros m module i Hm Hi. unfold inventory_module. rewrite (Hids m module Hm), N.eqb_refl. cbn [negb when].
    unfold mbind at 1, M_bind at 1. cbn [mret M_ret].
    destruct (for_each_indexed (fun '(f, function) => inventory_function (mp_entry_module mp) m module f function) (seen_before m)
      (mm_functions module) i) as (i' & E & Hi'); [|done|exists i'; split; [exact E|by eapply seen_next]].
    intros f function j Hf Hj. apply inventory_function_clean; eauto.
  - split; [done|]. intros s [[? Hx]|[? Hx]]; cbn in Hx; by rewrite lookup_empty in Hx.
  - cbn. rewrite E. apply Hi.
Qed.

(** ** The IR program a MIR program stands for *)

Definition no_span : Span := mkSpan (mkFileId 0 0) 0 0.
Definition raise_definition (d : MirValueDefinition) : ValueDefinition := mkValueDefinition (md_id d) (md_ty d) no_span.
Definition raise_operation (kind : MirInstructionKind) : InstructionKind :=
  match kind with
  | MBoolLiteral b => BoolLiteral b
  | MI32Literal z => I32Literal z
  | MI32Add x y => I32Add x y
  | MI32Sub x y => I32Sub x y
  | MI32Mul x y => I32Mul x y
  | MI32Neg x => I32Neg x
  | MEq x y => Eq x y
  | MNe x y => Ne x y
  | MI32LtS x y => I32LtS x y
  | MI32LeS x y => I32LeS x y
  | MI32GtS x y => I32GtS x y
  | MI32GeS x y => I32GeS x y
  | MDirectCall callee arguments => DirectCall callee arguments
  end.
Definition raise_terminator (t : MirTerminator) : Terminator :=
  match t with
  | MReturn v => Return v
  | MJump target arguments => Jump target arguments
  | MBranch c t1 a1 t2 a2 => Branch c t1 a1 t2 a2
  end.
Definition raise_block (b : MirBlock) : Block :=
  mkBlock (mb_id b) (raise_definition <$> mb_parameters b)
    ((fun i => mkInstruction (raise_definition (mi_result i)) (raise_operation (mi_kind i))) <$> mb_instructions b)
    ((fun t => mkSpannedTerminator no_span (raise_terminator t)) <$> mb_terminators b).
Definition raise_function (f : MirFunction) : Function_ :=
  mkFunction (mf_id f) (mf_entry_export f) no_span (raise_definition <$> mf_parameters f) (mf_result f) (raise_block <$> mf_blocks f).
Definition raise_program (p : MirProgram) : Program_ :=
  mkProgram (mp_entry_module p)
    ((fun m => mkModule (mm_id m) (mkFileId 0 0) (raise_function <$> mm_functions m)) <$> mp_modules p).

Lemma fmap_inverse {A B} (f : A -> B) (g : B -> A) (l : list A) : (forall x, g (f x) = x) -> g <$> (f <$> l) = l.
Proof. intros H. rewrite <- list_fmap_compose. rewrite <- (list_fmap_id l) at 2. apply list_fmap_ext. intros i x _. apply H. Qed.
Lemma lower_raise_definition d : lower_definition (raise_definition d) = d.
Proof. by destruct d. Qed.
Lemma lower_raise_operation k : lower_operation (raise_operation k) = k.
Proof. by destruct k. Qed.
Lemma raise_lower_operation k : raise_operation (lower_operation k) = k.
Proof. by destruct k. Qed.
Lemma lower_raise_terminator t : mir_lower_terminator (raise_terminator t) = t.
Proof. by destruct t. Qed.
Lemma raise_lower_terminator t : raise_terminator (mir_lower_terminator t) = t.
Proof. by destruct t. Qed.
Lemma erase_raise_block b : erase_block (raise_block b) = b.
Proof.
  destruct b as [id ps instructions ts]. unfold erase_block, raise_block. cbn. f_equal; apply fmap_inverse.
  - apply lower_raise_definition.
  - intros [d k]. cbn. by rewrite lower_raise_definition, lower_raise_operation.
  - apply lower_raise_terminator.
Qed.
Lemma mirrors_raise f : mirrors f (raise_function f).
Proof.
  split; cbn; [symmetry; apply fmap_inverse, lower_raise_definition|done|symmetry; apply fmap_inverse, erase_raise_block].
Qed.
Lemma mirrors_raise_program p : mirrors_program p (raise_program p).
Proof.
  unfold mirrors_program. cbn. apply Forall2_fmap_r. induction (mp_modules p) as [|m ms IH]; constructor; [|done].
  unfold mirrors_module. cbn. apply Forall2_fmap_r. induction (mm_functions m); constructor; [apply mirrors_raise|done].
Qed.

(** ** Clean functions are well formed *)

Lemma sound_check_function f key signatures :
  sound (check_function f key signatures) (fun s o s' => o = Some tt /\
    st_calls s' = st_calls s ++ function_calls key f /\ (f_blocks f <> [] /\ function_ok signatures f)).
Proof.
  unfold check_function. eapply sound_weaken; [apply sound_body|].
  - instantiate (1 := fun s _ s' => st_calls s' = st_calls s ++ function_calls key f /\ (f_blocks f <> [] /\ function_ok signatures f)).
    intros s Hc.
    assert (He : checks (when (Nat.eqb (length (f_blocks f)) 0) (push (error "" "" "");; return_now))
      (fun _ _ => Nat.eqb (length (f_blocks f)) 0 = false)).
    { apply checks_when. intros P s' Hc'. by apply push_bind_dirty in Hc'; [|solve_mono]. }
    run_step Hc u1 Hres. run_step Hc u2 Hne. apply Nat.eqb_neq in Hne. rewrite run_modify in *.
    destruct (grows_passes key f signatures (reset_locals s) Hc) as (Hcl & E2 & E1 & HP).
    assert (Hb : f_blocks f <> []) by (by destruct (f_blocks f)).
    split; [exact Hcl|]. split; [|split; [done|by apply HP]].
    change (st_calls ((define_values key f;; check_blocks key f signatures;; verify_cfg key f) (reset_locals s)).1
      = st_calls s ++ function_calls key f). by rewrite E1.
  - cbn. by intros s o s' [-> [_ H]].
Qed.

Definition check_functions (p : Program_) : M St unit :=
  body (for_each (enumerate (p_modules p)) (fun '(m, module) =>
    for_each (enumerate (m_functions module)) (fun '(f, function) =>
      check_function function (mkFunctionKey m f) (collect_signatures p)))).

Lemma sound_check_functions p :
  sound (check_functions p) (fun s o s' => o = Some tt /\ st_calls s' = st_calls s ++ program_calls p /\
    forall key function, program_function p key = Some function -> f_blocks function <> [] /\ function_ok (collect_signatures p) function).
Proof.
  unfold check_functions, program_calls. eapply sound_weaken.
  - apply sound_body. apply (sound_for_each_calls _ _ (fun '(m, module) =>
      enumerate (m_functions module) ≫= fun '(f, function) => function_calls (mkFunctionKey m f) function)
      (fun '(m, module) => forall x, x ∈ enumerate (m_functions module) ->
         f_blocks x.2 <> [] /\ function_ok (collect_signatures p) x.2)).
    intros (m, module) _.
    apply (sound_for_each_calls _ _ (fun '(f, function) => function_calls (mkFunctionKey m f) function)
             (fun x => f_blocks x.2 <> [] /\ function_ok (collect_signatures p) x.2)).
    intros (f, function) _. apply sound_check_function.
  - intros s o s' (-> & o' & _ & E & H). split_and!; [done|exact E|]. intros key function Hf. unfold program_function in Hf.
    destruct (p_modules p !! fk_module key) as [module|] eqn:Em; [|done]. cbn in Hf.
    by apply (H (fk_module key, module) (proj2 (enumerate_elem _ _ _) Em) (fk_function key, function)), enumerate_elem.
Qed.

(** ** [mir_verify], taken apart *)

Record mir_run (mp : MirProgram) (mv : MirVerifiedProgram) : Prop := {
  mr_preflight : mir_preflight mp no_errors = no_errors;
  mr_inventory : clean (verify_inventory mp (mkInventory no_errors ∅ ∅)).1;
  mr_functions : clean (mir_verify_functions mp (mkMSt no_errors [] [] [])).1;
  mr_calls : clean (mir_verify_call_graph mp (mir_verify_functions mp (mkMSt no_errors [] [] [])).1).1;
  mr_abi : mir_verify_public_abi mp no_errors = ((Some (mv_abi mv), mv_abi_indices mv), no_errors);
  mr_program : mv_program mv = mp }.

Lemma mono_mir_verify_functions mp : mono (mir_verify_functions mp).
Proof.
  apply (agrees_functions mp (raise_program mp) (mirrors_raise_program mp) (fun m module f function =>
    check_function function (mkFunctionKey m f) (collect_signatures (raise_program mp)))).
  intros. by apply agrees_verify_function.
Qed.
Lemma mono_mir_verify_call_graph mp : mono (mir_verify_call_graph mp).
Proof. apply (agrees_verify_call_graph mp (raise_program mp) (mirrors_raise_program mp)). Qed.
Lemma mono_verify_inventory mp : mono (verify_inventory mp).
Proof. unfold verify_inventory. solve_mono. Qed.

Lemma mir_preflight_empty mp : errors_is_empty (mir_preflight mp no_errors) = true -> mir_preflight mp no_errors = no_errors.
Proof.
  unfold mir_preflight. destruct (mp_modules mp); [done|]. destruct (_ ← _; _) as [c|[label maximum]]; done.
Qed.

Lemma mir_verify_runs mp mv : mir_verify mp = Ok mv -> mir_run mp mv.
Proof.
  unfold mir_verify. destruct (errors_is_empty (mir_preflight mp no_errors)) eqn:E0; cbn [negb]; [|done].
  apply mir_preflight_empty in E0. rewrite E0. set (i := (verify_inventory mp _).1).
  destruct (er_exhausted (iv_errors i)); [done|]. set (s1 := (mir_verify_functions mp _).1).
  destruct (er_exhausted (ms_errors s1)); [done|]. set (s2 := (mir_verify_call_graph mp s1).1).
  destruct (er_exhausted (ms_errors s2)) eqn:Ex; [done|].
  destruct (mir_verify_public_abi mp (ms_errors s2)) as [[abi indices] e] eqn:Ea.
  destruct (errors_is_empty e) eqn:Ee; cbn [negb]; [|done]. destruct abi as [abi|]; [|done]. intros [= <-].
  assert (Es : e = ms_errors s2).
  { unfold mir_verify_public_abi in Ea. destruct (match get _ _ with Some _ => _ | None => _ end). destruct (abi_verify_v1 _); by injection Ea. }
  assert (C3 : clean s2).
  { unfold clean, errors_of, mst_has_errors. rewrite <- Es in *. unfold errors_is_empty in Ee. destruct e as [[] ex]; cbn in *; [by subst|done]. }
  pose proof (C3 : ms_errors s2 = no_errors) as C3'. rewrite Es, C3' in Ea.
  destruct (mono_mir_verify_call_graph mp s1 C3) as [C2 _].
  destruct (mono_mir_verify_functions mp _ C2) as [C1 _]. change (iv_errors i = no_errors) in C1.
  unfold s2, s1 in *. rewrite C1 in *. by split.
Qed.

Lemma mir_run_verifies mp mv : mir_run mp mv -> mir_verify mp = Ok mv.
Proof.
  intros [H0 H1 H2 H3 H4 H5]. unfold mir_verify. rewrite H0. cbn [errors_is_empty no_errors er_diagnostics negb].
  unfold clean, errors_of, inventory_has_errors, mst_has_errors in H1, H2, H3. fold no_errors. rewrite H1, H2, H3. cbn.
  fold no_errors. rewrite H4. cbn. rewrite <- H5. by destruct mv.
Qed.

(** ** Accepted MIR *)

Record mir_accepted (mp : MirProgram) : Prop := {
  ma_program : program_ok (raise_program mp);
  ma_within : mir_within mp;
  ma_inventory : inventory_ok mp }.

Lemma start_corr : corr (mkMSt no_errors [] [] []) (mkSt no_errors [] [] []).
Proof. by split. Qed.

(** Clean runs on both sides correspond. *)
Lemma agrees_clean {A B} (R : A -> B -> Prop) m' m s' s : agrees R m' m -> clean s' -> clean s -> corr s' s ->
  clean (m' s').1 <-> clean (m s).1.
Proof. intros (_ & _ & H) C' C K. destruct (H s' s C' C K) as [(? & ? & _)|[? ?]]; done. Qed.
Lemma agrees_corr {A B} (R : A -> B -> Prop) m' m s' s : agrees R m' m -> clean s' -> clean s -> corr s' s ->
  clean (m s).1 -> corr (m' s').1 (m s).1.
Proof. intros (_ & _ & H) C' C K Hc. by destruct (H s' s C' C K) as [(? & ? & ? & _)|[? ?]]. Qed.

Lemma mir_verify_accepted mp mv : mir_verify mp = Ok mv -> mir_accepted mp /\ mv_program mv = mp.
Proof.
  intros [H0 H1 H2 H3 H4 H5]%mir_verify_runs. split; [|done].
  set (p := raise_program mp). pose proof (mirrors_raise_program mp) as Hp. fold p in Hp.
  assert (Hf : agrees eq (mir_verify_functions mp) (check_functions p)).
  { apply (agrees_functions mp p Hp). intros. by apply agrees_verify_function. }
  pose proof (agrees_verify_call_graph mp p Hp) as Hg.
  assert (C : clean (mkSt no_errors [] [] [])) by done. assert (C' : clean (mkMSt no_errors [] [] [])) by done.
  pose proof (proj1 (agrees_clean _ _ _ _ _ Hf C' C start_corr) H2) as C2.
  pose proof (agrees_corr _ _ _ _ _ Hf C' C start_corr C2) as K2.
  pose proof (proj1 (agrees_clean _ _ _ _ _ Hg H2 C2 K2) H3) as C3.
  destruct (sound_check_functions p _ C2) as (_ & _ & Ecalls & Hok).
  split; [|by apply mir_preflight_within|by eapply verify_inventory_sound].
  assert (Hfun : forall key function, program_function p key = Some function -> function_ok (collect_signatures p) function).
  { intros key function Hk. by apply (Hok key function). }
  split; [exact Hfun|]. destruct (checks_verify_call_graph p _ C3) as (_ & _ & u & _ & Hdepth).
  rewrite Ecalls in Hdepth. cbn [st_calls app] in Hdepth. destruct Hdepth as [depth Hd].
  - intros a b Hab%program_calls_elem. by eapply calls_valid.
  - exists depth. intros a b Hab%program_calls_elem. by apply Hd.
Qed.


(** ** Diagnostics

    The buffer of MIR has the bound of the IR's, and every check keeps it. *)

Lemma errors_ok_mir_push d e : errors_ok e -> errors_ok (mir_errors_push d e).
Proof.
  intros H. unfold mir_errors_push. destruct (er_exhausted e) eqn:E; [done|].
  destruct (N.ltb_spec (len (er_diagnostics e)) (ControlFlow.MAX_DIAGNOSTICS - 1)); [|by apply errors_ok_snoc].
  assert (len (er_diagnostics e ++ [d]) < ControlFlow.MAX_DIAGNOSTICS)%N by (rewrite len_snoc; unfold ControlFlow.MAX_DIAGNOSTICS in *; lia).
  split; cbn; [lia|done|done].
Qed.
Lemma errors_ok_mir_limit label maximum e : errors_ok e -> errors_ok (mir_errors_limit label maximum e).
Proof. intros H. unfold mir_errors_limit. destruct (er_exhausted e) eqn:E; [done|]. by apply errors_ok_snoc. Qed.

Lemma bounded_mpush d : bounded_run (mpush d).
Proof. intros s Hs. by apply errors_ok_mir_push. Qed.
Lemma bounded_mlimit label maximum : bounded_run (mlimit label maximum).
Proof. intros s Hs. by apply errors_ok_mir_limit. Qed.
Lemma bounded_ipush d : bounded_run (ipush d).
Proof. intros s Hs. by apply errors_ok_mir_push. Qed.
Lemma bounded_mcheck : bounded_run mcheck_exhausted.
Proof. intros s Hs. unfold mcheck_exhausted. by destruct (er_exhausted _). Qed.
Lemma bounded_icheck : bounded_run icheck_exhausted.
Proof. intros s Hs. unfold icheck_exhausted. by destruct (er_exhausted _). Qed.
#[export] Hint Resolve bounded_mpush bounded_mlimit bounded_ipush bounded_mcheck bounded_icheck : bounded.

Lemma bounded_inventory mp : bounded_run (verify_inventory mp).
Proof. unfold verify_inventory, inventory_module, inventory_function, insert_symbol. solve_bounded. Qed.

Lemma bounded_mir_use v b p : bounded_run (mir_checked_use v b p).
Proof. unfold mir_checked_use. solve_bounded. Qed.
#[export] Hint Resolve bounded_mir_use : bounded.
Lemma bounded_mir_operands operands expected b p : bounded_run (mir_operands_valid operands expected b p).
Proof. revert expected. induction operands as [|v operands IH]; intros [|ty expected]; cbn; solve_bounded. Qed.
#[export] Hint Resolve bounded_mir_operands : bounded.
Lemma bounded_mir_instruction key b p i signatures : bounded_run (mir_verify_instruction key b p i signatures).
Proof.
  unfold mir_verify_instruction, mir_expect_result, mir_expect_operands, mir_verify_equality, mir_verify_call. solve_bounded.
Qed.
Lemma bounded_mir_terminator key b function t : bounded_run (mir_verify_terminator key b function t).
Proof. unfold mir_verify_terminator, mir_verify_edge. solve_bounded. Qed.
Lemma bounded_mir_dominance function dom : bounded_run (mir_verify_all_dominance function dom).
Proof. unfold mir_verify_all_dominance, mir_verify_dominance. solve_bounded. Qed.
Lemma bounded_mir_loops key count predecessors dom edges : bounded_run (mir_verify_loops key count predecessors dom edges).
Proof. unfold mir_verify_loops. solve_bounded. Qed.
#[export] Hint Resolve bounded_mir_instruction bounded_mir_terminator bounded_mir_dominance bounded_mir_loops : bounded.
Lemma bounded_mir_cfg key function : bounded_run (mir_verify_cfg key function).
Proof. unfold mir_verify_cfg. solve_bounded. Qed.
Lemma bounded_mir_definitions function : bounded_run (mir_define_values function).
Proof. unfold mir_define_values, mir_define_value, mir_validate_type. solve_bounded. Qed.
Lemma bounded_mir_blocks key function signatures : bounded_run (mir_check_blocks key function signatures).
Proof. unfold mir_check_blocks. solve_bounded. Qed.
#[export] Hint Resolve bounded_mir_cfg bounded_mir_definitions bounded_mir_blocks : bounded.
Lemma bounded_mir_function key function signatures : bounded_run (mir_verify_function key function signatures).
Proof. unfold mir_verify_function, mir_validate_type. solve_bounded. Qed.
#[export] Hint Resolve bounded_mir_function : bounded.
Lemma bounded_mir_functions mp : bounded_run (mir_verify_functions mp).
Proof. unfold mir_verify_functions. solve_bounded. Qed.
Lemma bounded_mir_call_graph mp : bounded_run (mir_verify_call_graph mp).
Proof. unfold mir_verify_call_graph. solve_bounded. Qed.

Lemma mir_violations_ok vs e : errors_ok e -> errors_ok (mir_push_violations vs e).
Proof.
  revert e. induction vs as [|v vs IH]; intros e He; cbn; [done|].
  apply IH. destruct (av_kind v); by first [apply errors_ok_mir_push | apply errors_ok_mir_limit].
Qed.

Lemma mir_preflight_ok mp e : errors_ok e -> errors_ok (mir_preflight mp e).
Proof.
  intros He. unfold mir_preflight. destruct (mp_modules mp); [by apply errors_ok_mir_push|].
  destruct (_ ← _; _) as [c|[label maximum]]; [done|by apply errors_ok_mir_limit].
Qed.

Lemma mir_verify_rejection mp ds : mir_verify mp = Err ds -> few ds.
Proof.
  unfold mir_verify. pose proof (mir_preflight_ok mp _ no_errors_ok) as H0.
  destruct (errors_is_empty (mir_preflight mp no_errors)) eqn:E0; cbn [negb].
  2: { intros [= <-]. by apply nonempty_few. }
  pose proof (bounded_inventory mp (mkInventory (mir_preflight mp no_errors) ∅ ∅) H0) as H1. set (i := (verify_inventory mp _).1) in *.
  change (errors_ok (iv_errors i)) in H1.
  destruct (er_exhausted (iv_errors i)) eqn:E1; [intros [= <-]; by apply exhausted_few|].
  pose proof (bounded_mir_functions mp (mkMSt (iv_errors i) [] [] []) H1) as H2. set (s2 := (mir_verify_functions mp _).1) in *.
  destruct (er_exhausted (ms_errors s2)) eqn:E2; [intros [= <-]; by apply exhausted_few|].
  pose proof (bounded_mir_call_graph mp s2 H2) as H3. set (s3 := (mir_verify_call_graph mp s2).1) in *.
  destruct (er_exhausted (ms_errors s3)) eqn:E3; [intros [= <-]; by apply exhausted_few|].
  assert (H4 : errors_ok (mir_verify_public_abi mp (ms_errors s3)).2).
  { unfold mir_verify_public_abi. destruct (match get _ _ with Some _ => _ | None => _ end).
    destruct (abi_verify_v1 _); [exact H3|by apply mir_violations_ok]. }
  destruct (mir_verify_public_abi mp (ms_errors s3)) as [[abi indices] e]. cbn in H4.
  destruct (errors_is_empty e) eqn:E4; cbn [negb]; [|intros [= <-]; by apply nonempty_few].
  destruct abi; [done|]. by intros [= <-].
Qed.
