(* ===== verification/MirLower.v ===== *)
(** * Lowering a sealed program to native MIR, and what native MIR computes

    The MIR of a program the IR verifier accepted is accepted by the MIR
    verifier: the names, the limits, the functions, the calls and the public
    ABI all carry over. A fuelled interpreter of MIR, with the meaning of each
    operation written out again, agrees with the interpreter of the IR on
    programs that mirror each other. *)
From stdpp Require Import base numbers list strings pretty gmap option.
From S2P Require Import Prelude Source Diagnostics Abi AbiSound CfgAlgorithms ControlFlow ControlFlowSpec CheckLogic ControlFlowSound CfgSound.
From S2P Require Import ControlFlowExec PreflightSound VerifySound NativeMir MirLimits MirEquiv MirVerify.

(** ** Counting on both sides *)

Lemma sumN_cons x l : sumN (x :: l) = (x + sumN l)%N.
Proof. done. Qed.
Lemma sumN_le {A B} (R : A -> B -> Prop) (f : A -> N) (g : B -> N) l k :
  Forall2 R l k -> (forall x y, R x y -> (f x <= g y)%N) -> (sumN (f <$> l) <= sumN (g <$> k))%N.
Proof.
  intros H Hfg. induction H as [|x y l k Hxy _ IH]; [done|]. rewrite !fmap_cons, !sumN_cons. specialize (Hfg x y Hxy). lia.
Qed.
Lemma sumN_eq {A B} (R : A -> B -> Prop) (f : A -> N) (g : B -> N) l k :
  Forall2 R l k -> (forall x y, R x y -> f x = g y) -> sumN (f <$> l) = sumN (g <$> k).
Proof.
  intros H Hfg. induction H as [|x y l k Hxy _ IH]; [done|]. by rewrite !fmap_cons, !sumN_cons, IH, (Hfg x y Hxy).
Qed.
Lemma sumN_const {A} (n : N) (l : list A) : sumN ((fun _ => n) <$> l) = (n * len l)%N.
Proof.
  induction l as [|x l IH]; [by rewrite N.mul_0_r|]. rewrite fmap_cons, sumN_cons, IH. unfold len. cbn [length]. lia.
Qed.
Lemma sumN_scale {A} (n : N) (g : A -> N) (l : list A) : sumN ((fun x => n * g x)%N <$> l) = (n * sumN (g <$> l))%N.
Proof. induction l as [|x l IH]; [cbn; lia|]. rewrite !fmap_cons, !sumN_cons, IH. lia. Qed.

(** What a lowered function contributes, in terms of the IR function *)
Definition contribution (f : Function_) (k : MirCounter) : N :=
  match k with
  | CParameters => len (f_parameters f)
  | CBlocks | CTerminators => len (f_blocks f)
  | CValues => function_value_count f
  | CEdges => function_edge_count f
  | CCalls => function_call_count f
  | CCallArguments => MAX_PARAMETERS_PER_FUNCTION * function_call_count f
  | CEdgeArguments => MAX_BLOCK_PARAMETERS * function_edge_count f
  | CSymbolBytes => MAX_INTERNAL_SYMBOL_BYTES
  | CExportBytes => MAX_ENTRY_EXPORT_BYTES
  | _ => 0
  end.

Definition single_terminator (b : Block) : Prop := exists t, b_terminators b = [t].

Lemma erased_calls b : block_limits b ->
  total_of call_amount (mb_instructions (erase_block b)) CCalls = block_call_count b /\
  (total_of call_amount (mb_instructions (erase_block b)) CCallArguments <= MAX_PARAMETERS_PER_FUNCTION * block_call_count b)%N /\
  Forall call_local (mb_instructions (erase_block b)).
Proof.
  intros [_ Hc _]. unfold block_call_count. cbn [erase_block mb_instructions]. revert Hc. generalize (b_instructions b). intros l.
  induction l as [|i l IH]; intros Hc; [split_and!; [done|done|constructor]|].
  destruct IH as (E & Hle & Hl); [intros j ins; apply (Hc (S j))|]. specialize (Hc 0 i eq_refl).
  rewrite fmap_cons, !total_of_cons, E, filter_cons.
  assert (Hi : call_local (mkMirInstruction (lower_definition (in_result i)) (lower_operation (in_kind i)))).
  { unfold call_local. cbn. by destruct (in_kind i). }
  split_and!; [| |by constructor].
  - unfold call_amount. cbn [mi_kind]. destruct (decide _) as [Hd|Hd]; unfold len;
      (destruct (in_kind i); cbn [lower_operation is_direct_call length] in *; try done; lia).
  - unfold call_amount, call_argument_count in *. cbn [mi_kind]. destruct (decide _) as [Hd|Hd];
      destruct (in_kind i); cbn [lower_operation is_direct_call] in *; try done; unfold len in *; cbn [length] in *; lia.
Qed.

Lemma erased_terminators b : block_limits b -> single_terminator b ->
  total_of terminator_amount (mb_terminators (erase_block b)) CFunctionEdges = block_edge_count b /\
  (total_of terminator_amount (mb_terminators (erase_block b)) CEdgeArguments <= MAX_BLOCK_PARAMETERS * block_edge_count b)%N /\
  Forall terminator_local (mb_terminators (erase_block b)) /\ len (mb_terminators (erase_block b)) = 1%N.
Proof.
  intros [_ _ Ht] [t Et]. specialize (Ht t Et). unfold block_edge_count, total_of. cbn [erase_block mb_terminators]. rewrite Et.
  cbn [fmap list_fmap sumN foldr]. split_and!; [| |constructor; [|constructor]|done];
    destruct (tm_kind t); cbn in *; lia || done.
Qed.

Lemma erased_block_local b : block_limits b -> single_terminator b -> block_local (erase_block b).
Proof.
  intros Hb Ht. destruct (erased_calls b Hb) as (_ & _ & Hc). destruct (erased_terminators b Hb Ht) as (_ & _ & Htl & _).
  split_and!; [|done|done]. cbn. unfold len. rewrite length_fmap. apply Hb.
Qed.

Section contribution.
Context (mf : MirFunction) (f : Function_) (same : mirrors mf f) (limits : function_limits f).
Context (single : forall b, b ∈ f_blocks f -> single_terminator b).
Context (symbol : (slen (mf_internal_symbol mf) <= MAX_INTERNAL_SYMBOL_BYTES)%N) (export : (export_bytes mf <= MAX_ENTRY_EXPORT_BYTES)%N).

Lemma erased_list : Forall2 (fun b' b => b' = erase_block b /\ block_limits b /\ single_terminator b) (mf_blocks mf) (f_blocks f).
Proof.
  rewrite (mr_blocks _ _ same). apply Forall2_fmap_l. pose proof (fl_each_block _ limits) as Hl.
  assert (H : forall b, b ∈ f_blocks f -> block_limits b /\ single_terminator b) by auto. clear Hl. revert H.
  generalize (f_blocks f). intros l. induction l as [|b l IH]; intros H; constructor; [|apply IH; intros; apply H; by right].
  split; [done|]. apply H. by left.
Qed.

Lemma mirrored_values : mir_function_values mf = function_value_count f.
Proof.
  unfold mir_function_values, function_value_count. rewrite (mr_parameters _ _ same). unfold len at 1. rewrite length_fmap. f_equal.
  eapply sumN_eq; [apply erased_list|]. intros b' b [-> _]. unfold mir_block_values, block_value_count. cbn. unfold len. by rewrite !length_fmap.
Qed.
Lemma mirrored_edges : mir_function_edges mf = function_edge_count f.
Proof.
  unfold mir_function_edges, function_edge_count. eapply sumN_eq; [apply erased_list|]. intros b' b (-> & Hb & Ht).
  destruct (erased_terminators b Hb Ht) as [E _]. rewrite <- E. symmetry. by apply total_of_ext.
Qed.
Lemma mirrored_terminators : mir_function_terminators mf = len (f_blocks f).
Proof.
  unfold mir_function_terminators. rewrite <- (N.mul_1_l (len (f_blocks f))), <- (sumN_const 1 (f_blocks f)).
  eapply sumN_eq; [apply erased_list|]. intros b' b (-> & Hb & Ht). by destruct (erased_terminators b Hb Ht) as (_ & _ & _ & ?).
Qed.
Lemma mirrored_blocks k g : (forall b, block_limits b -> single_terminator b -> (block_amount (erase_block b) k <= g b)%N) ->
  (total_of block_amount (mf_blocks mf) k <= sumN (g <$> f_blocks f))%N.
Proof. intros H. eapply sumN_le; [apply erased_list|]. intros b' b (-> & Hb & Ht). by apply H. Qed.

Lemma terminator_amount_calls l : total_of terminator_amount l CCalls = 0%N /\ total_of terminator_amount l CCallArguments = 0%N.
Proof. split; by apply total_of_zero. Qed.

Lemma mirrored_contribution k : program_counter k = true -> (function_amount mf k <= contribution f k)%N.
Proof.
  intros Dk. assert (Hlen : len (mf_blocks mf) = len (f_blocks f)).
  { unfold len. by rewrite (mr_blocks _ _ same), length_fmap. }
  destruct k; try done; cbn [function_amount contribution]; try (rewrite blocks_quiet by naive_solver; lia).
  - rewrite (mr_parameters _ _ same). unfold len. by rewrite length_fmap.
  - by rewrite Hlen.
  - by rewrite mirrored_values.
  - by rewrite mirrored_edges.
  - unfold function_call_count. apply mirrored_blocks. intros b Hb Ht. destruct (erased_calls b Hb) as (E & _).
    unfold block_amount. rewrite E. destruct (terminator_amount_calls (mb_terminators (erase_block b))) as [-> _]. cbn. lia.
  - unfold function_call_count. rewrite <- sumN_scale. apply mirrored_blocks. intros b Hb Ht. destruct (erased_calls b Hb) as (_ & E & _).
    unfold block_amount. destruct (terminator_amount_calls (mb_terminators (erase_block b))) as [_ ->]. cbn [block_own]. lia.
  - unfold function_edge_count. rewrite <- sumN_scale. apply mirrored_blocks. intros b Hb Ht.
    destruct (erased_terminators b Hb Ht) as (_ & E & _). unfold block_amount.
    rewrite (total_of_zero call_amount) by (intros i; by apply call_amount_zero). cbn [block_own]. lia.
  - rewrite <- (N.mul_1_l (len (f_blocks f))), <- (sumN_const 1 (f_blocks f)). apply mirrored_blocks. intros b Hb Ht.
    destruct (erased_terminators b Hb Ht) as (_ & _ & _ & E). unfold block_amount.
    rewrite !total_of_zero; [cbn [block_own]; rewrite E; lia|done|]. intros i. by apply call_amount_zero.
Qed.

Lemma mirrored_local : function_local mf.
Proof.
  split; try done.
  - rewrite (mr_parameters _ _ same). unfold len. rewrite length_fmap. apply limits.
  - unfold len. rewrite (mr_blocks _ _ same), length_fmap. apply limits.
  - apply Forall_lookup. intros i b' Hi. destruct (Forall2_lookup_l _ _ _ _ _ erased_list Hi) as (b & _ & -> & Hb & Ht).
    by apply erased_block_local.
  - rewrite mirrored_values. apply limits.
  - rewrite mirrored_edges. apply limits.
  - rewrite mirrored_terminators. apply limits.
Qed.
End contribution.

(** ** Exports *)

(** The index of an exported function is that of its export. *)
Lemma entry_exports_index fs : forall next i f, fs !! i = Some f ->
  match f_entry_export f with
  | None => (entry_exports next fs).2 !! i = Some None
  | Some name => exists k, (entry_exports next fs).2 !! i = Some (Some (next + k)) /\
      (entry_exports next fs).1 !! k = Some (abi_export_of f name)
  end.
Proof.
  induction fs as [|f0 fs IH]; intros next i f Hi; [done|]. cbn [entry_exports].
  destruct (f_entry_export f0) as [name0|] eqn:E0; [specialize (IH (S next))|specialize (IH next)];
    (destruct (entry_exports _ fs) as [es is_] eqn:Ees; cbn [fst snd] in * ); destruct i as [|i]; cbn in Hi.
  - injection Hi as ->. rewrite E0. exists 0. by rewrite Nat.add_0_r.
  - specialize (IH i f Hi). destruct (f_entry_export f) as [name|]; [|done]. destruct IH as (k & H1 & H2). exists (S k).
    cbn. by rewrite Nat.add_succ_r.
  - injection Hi as ->. by rewrite E0.
  - specialize (IH i f Hi). done.
Qed.

Section lowering.
Context (vp : VerifiedProgram) (sources : SourceMap) (entry : FileId).
Notation p := (vp_program vp).
Context (program : Program_) (verified : verify program sources entry = Ok vp).

Lemma verified_program : p = program.
Proof. by destruct (verify_ok_run _ _ _ _ verified) as (? & ? & _ & _ & _ & _ & _ & _ & ? & _ & -> & _). Qed.
Lemma verified_accepted : accepted p sources entry.
Proof. rewrite verified_program. by eapply verify_sound. Qed.
Lemma verified_abi : verify_public_abi p no_errors = ((Some (vp_abi vp), vp_abi_indices vp), no_errors).
Proof.
  rewrite verified_program.
  by destruct (verify_ok_run _ _ _ _ verified) as (? & ? & _ & _ & _ & _ & _ & _ & ? & E & _ & ->).
Qed.

(** The module of the entry, and its exports *)
Lemma entry_module : exists module, p_modules p !! N.to_nat (p_entry_module p) = Some module /\
  abi_verify_v1 (entry_exports 0 (m_functions module)).1 = Ok (vp_abi vp) /\
  vp_abi_indices vp = <[N.to_nat (p_entry_module p) := (entry_exports 0 (m_functions module)).2]>
    ((fun module => replicate (length (m_functions module)) None) <$> p_modules p).
Proof.
  pose proof verified_abi as H. pose proof (ms_entry _ _ _ (ac_modules _ _ _ verified_accepted)) as He.
  destruct (get (p_modules p) (p_entry_module p)) as [module|] eqn:Em; [|done]. exists module. split; [exact Em|].
  unfold verify_public_abi in H. cbn [er_exhausted no_errors] in H. rewrite Em in H.
  destruct (entry_exports 0 (m_functions module)) as [es is_]. cbn [fst snd].
  destruct (abi_verify_v1 es) as [abi|vs]; [|by injection H]. by injection H as -> <-.
Qed.

(** The view of a sealed function shows the name it claimed. *)
Lemma public_export_name m module f function :
  p_modules p !! m = Some module -> m_functions module !! f = Some function ->
  ve_logical_name <$> public_export vp m f = f_entry_export function.
Proof.
  intros Em Ef. destruct entry_module as (em & Eem & Habi & Hidx). unfold public_export. rewrite Hidx.
  apply abi_verify_exact in Habi as [Hok _].
  assert (Hnames := verified_names _ _ (eo_verified _ _ Hok)).
  destruct (decide (m = N.to_nat (p_entry_module p))) as [->|Hne].
  - rewrite Em in Eem. injection Eem as <-.
    rewrite (list_lookup_total_correct _ _ (entry_exports 0 (m_functions module)).2).
    2: { apply list_lookup_insert_eq. rewrite length_fmap. by eapply lookup_lt_Some. }
    pose proof (entry_exports_index (m_functions module) 0 f function Ef) as H. destruct (f_entry_export function) as [name|].
    + destruct H as (k & H1 & H2). rewrite (list_lookup_total_correct _ _ _ H1). cbn [Nat.add].
      change (ve_logical_name <$> vm_exports (vp_abi vp) !! k = Some name).
      rewrite <- list_lookup_fmap, Hnames, list_lookup_fmap, H2. done.
    + by rewrite (list_lookup_total_correct _ _ _ H).
  - pose proof (mo_functions _ _ _ _ (ms_modules _ _ _ (ac_modules _ _ _ verified_accepted) m module Em) f function Ef) as [_ Hx].
    pose proof (mo_id _ _ _ _ (ms_modules _ _ _ (ac_modules _ _ _ verified_accepted) m module Em)) as Hid.
    rewrite (list_lookup_total_correct _ _ (replicate (length (m_functions module)) None)).
    2: { rewrite list_lookup_insert_ne by congruence. by rewrite list_lookup_fmap, Em. }
    rewrite (list_lookup_total_correct _ _ None).
    2: { apply lookup_replicate. split; [done|]. by eapply lookup_lt_Some. }
    destruct (f_entry_export function) as [name|] eqn:En; [|done]. destruct Hne. rewrite <- Hx, Hid by (by eexists). lia.
Qed.

(** ** The lowered functions mirror those of the IR *)

Lemma verified_function m module f function :
  p_modules p !! m = Some module -> m_functions module !! f = Some function ->
  function_ok (collect_signatures p) function /\ function_limits function /\
  f_id function = mkFunctionId (N.of_nat m) (N.of_nat f) /\
  (is_Some (f_entry_export function) -> m_id module = p_entry_module p) /\ m_id module = N.of_nat m.
Proof.
  intros Em Ef. destruct verified_accepted as [Hp Hm Hl _].
  assert (Hf : program_function p (mkFunctionKey m f) = Some function) by (unfold program_function; cbn; by rewrite Em).
  destruct (mo_functions _ _ _ _ (ms_modules _ _ _ Hm m module Em) f function Ef) as [Hid Hx].
  pose proof (mo_id _ _ _ _ (ms_modules _ _ _ Hm m module Em)) as Hmid. rewrite Hmid in Hid. split_and!; try done.
  - by eapply po_functions.
  - eapply pl_function; [done|]. by eapply all_functions_elem.
Qed.

Lemma lower_block_erases f b block : function_ok (collect_signatures p) f -> f_blocks f !! b = Some block ->
  mir_lower_block block = erase_block block.
Proof.
  intros Hf Hb. destruct (bo_terminator _ _ _ _ (fo_blocks _ _ Hf b block Hb)) as (t & Et & _).
  unfold mir_lower_block, erase_block. by rewrite Et.
Qed.

Lemma lowered_mirrors m module f function :
  p_modules p !! m = Some module -> m_functions module !! f = Some function ->
  mirrors (mir_lower_function vp m f function) function.
Proof.
  intros Em Ef. destruct (verified_function m module f function Em Ef) as [Hok _]. split; [done..|]. cbn.
  apply list_fmap_ext. intros b block Hb. by eapply lower_block_erases.
Qed.

Lemma Forall2_imap {A B} (R : B -> A -> Prop) (g : nat -> A -> B) (l : list A) :
  (forall i x, l !! i = Some x -> R (g i x) x) -> Forall2 R (imap g l) l.
Proof.
  intros H. apply Forall2_same_length_lookup_2; [by rewrite length_imap|].
  intros i y x (x' & Hx' & ->)%list_lookup_imap_Some Hx. rewrite Hx in Hx'. injection Hx' as <-. by apply H.
Qed.

Lemma lowered_mirrors_program : mirrors_program (lowered_mir vp) p.
Proof.
  unfold mirrors_program, lowered_mir. cbn. apply Forall2_imap. intros m module Em. unfold mirrors_module. cbn.
  apply Forall2_imap. intros f function Ef. by eapply lowered_mirrors.
Qed.

(** ** Functions and calls *)

Lemma validate_spans_clean spans file s : clean s -> Forall (span_ok sources file) spans ->
  validate_spans spans file sources true s = (s, Some true).
Proof.
  intros Hc. induction 1 as [|span spans (r & Er & Hr) _ IH]; [done|]. cbn [validate_spans].
  unfold validate_span, mbind, M_bind, gets. pose proof (Hc : st_errors s = no_errors) as Hc'. rewrite Hc'. cbn [er_exhausted no_errors].
  rewrite Er, bool_decide_eq_true_2 by done. cbn. by rewrite exhausted_clean.
Qed.

Lemma agrees_spans {A B} (R : A -> B -> Prop) spans file m' (k : bool -> M St B) :
  Forall (span_ok sources file) spans -> (forall b, mono (k b)) -> agrees R m' (k true) ->
  agrees R m' (validate_spans spans file sources true ≫= k).
Proof.
  intros Hs Hk (M1 & M2 & H). split; [done|]. split; [apply mono_bind; [apply mono_validate_spans|done]|].
  intros s' s C' C K. unfold mbind, M_bind. rewrite validate_spans_clean by done. by apply H.
Qed.

Lemma agrees_ir_function mf f key file signatures : mirrors mf f -> f_blocks f <> [] ->
  Forall (span_ok sources file) (function_spans f) ->
  agrees eq (mir_verify_function key mf signatures) (check_exhausted;; verify_function key f file signatures sources).
Proof.
  intros Hm Hne Hs. apply agrees_skip. unfold mir_verify_function, verify_function. apply agrees_body, agrees_skip.
  apply agrees_spans; [done|intros []; cbn [negb]; solve_mono; apply mono_modify; done|]. cbn [negb].
  rewrite (mr_result _ _ Hm). eapply agrees_seq; [apply agrees_validate_type|].
  apply agrees_skip. rewrite (mr_blocks _ _ Hm). destruct (f_blocks f) as [|b bs] eqn:Eb; [done|]. cbn [fmap list_fmap].
  match goal with |- agrees eq (mret tt;; ?m') _ => change (agrees eq m'
    (modify reset_locals;; define_values key f;; check_blocks key f signatures;; verify_cfg key f)) end.
  eapply agrees_seq. { apply agrees_modify; [done..|]. intros s' s [E1 E2 E3]. by split. }
  eapply agrees_seq; [by apply agrees_define_values|]. eapply agrees_seq; [by apply agrees_check_blocks|by apply agrees_verify_cfg].
Qed.

Lemma lowered_checks : let s1 := (mir_verify_functions (lowered_mir vp) (mkMSt no_errors [] [] [])).1 in
  clean s1 /\ clean (mir_verify_call_graph (lowered_mir vp) s1).1.
Proof.
  destruct (verify_ok_run _ _ _ _ verified) as (s1 & s2 & _ & C1 & -> & C2 & -> & C3 & _). rewrite <- verified_program in *.
  destruct verified_accepted as [Hp Hm Hl Hs].
  assert (Hf : agrees eq (mir_verify_functions (lowered_mir vp)) (body (verify_functions p sources))).
  { apply (agrees_functions _ p lowered_mirrors_program (fun m module f function => check_exhausted;;
      verify_function (mkFunctionKey m f) function (m_source_file module) (collect_signatures p) sources)).
    intros m module f function mf Em Ef Hmf. destruct (verified_function m module f function Em Ef) as (Hok & _).
    apply agrees_ir_function; [done|apply Hok|by eapply Hs]. }
  pose proof (agrees_verify_call_graph _ p lowered_mirrors_program) as Hg.
  set (t := (body (verify_modules p sources entry) _).1) in *.
  destruct (sound_body _ _ (checks_verify_modules p sources entry) _ C1) as (_ & _ & o & Et & _). fold t in Et.
  assert (C0 : clean (mkSt no_errors [] [] [])) by done. assert (C0' : clean (mkMSt no_errors [] [] [])) by done.
  rewrite Et in C2, C3.
  pose proof (proj2 (agrees_clean _ _ _ _ _ Hf C0' C0 start_corr) C2) as C2'.
  pose proof (agrees_corr _ _ _ _ _ Hf C0' C0 start_corr C2) as K2. split; [exact C2'|].
  exact (proj2 (agrees_clean _ _ _ _ _ Hg C2' C2 K2) C3).
Qed.

(** ** Names and exports *)

Lemma lowered_inventory : inventory_ok (lowered_mir vp).
Proof.
  destruct verified_accepted as [Hp Hm Hl Hs]. destruct entry_module as (em & Eem & _). split; cbn.
  - unfold len. rewrite length_imap. apply lookup_lt_Some in Eem. lia.
  - intros m mm (module & Em & ->)%list_lookup_imap_Some. cbn. by apply (mo_id _ _ _ _ (ms_modules _ _ _ Hm m module Em)).
  - intros m mm f mf (module & Em & ->)%list_lookup_imap_Some (function & Ef & ->)%list_lookup_imap_Some. cbn in *.
    destruct (verified_function m module f function Em Ef) as (_ & _ & Hid & Hx & Hmid).
    split; cbn; [by rewrite Hmid|done|done|]. by rewrite (public_export_name m module f function Em Ef).
Qed.

Lemma lowered_exports m module : p_modules p !! m = Some module ->
  forall fs k next, fs = drop k (m_functions module) ->
  mir_entry_exports next (imap (fun i => mir_lower_function vp m (k + i)) fs) = entry_exports next fs.
Proof.
  intros Em fs. induction fs as [|f fs IH]; intros k next Efs; [done|]. cbn [imap mir_entry_exports entry_exports].
  assert (Ef : m_functions module !! k = Some f) by (by rewrite <- (Nat.add_0_r k), <- lookup_drop, <- Efs).
  assert (Ek : fs = drop (S k) (m_functions module)) by (erewrite drop_S in Efs by exact Ef; by injection Efs).
  assert (Hrest : forall n, mir_entry_exports n (imap (fun i => mir_lower_function vp m (k + S i)) fs) = entry_exports n fs).
  { intros n. rewrite <- (IH (S k) n Ek). f_equal. apply imap_ext. intros i x _. by rewrite Nat.add_succ_r. }
  cbn [mf_entry_export mir_lower_function]. rewrite Nat.add_0_r, (public_export_name m module k f Em Ef). unfold compose. cbn.
  destruct (f_entry_export f) as [name|]; rewrite Hrest; [|done]. destruct (entry_exports (S next) fs). do 3 f_equal.
  unfold abi_export_of. do 2 f_equal. by rewrite <- list_fmap_compose.
Qed.

Lemma lowered_abi : mir_verify_public_abi (lowered_mir vp) no_errors = ((Some (vp_abi vp), vp_abi_indices vp), no_errors).
Proof.
  destruct entry_module as (em & Eem & Habi & Hidx). unfold mir_verify_public_abi, lowered_mir, get. cbn [mp_modules mp_entry_module].
  rewrite list_lookup_imap, Eem. cbn [fmap option_fmap option_map mm_functions].
  pose proof (lowered_exports _ em Eem (m_functions em) 0 0 eq_refl) as E. cbn [Nat.add] in E.
  change (fun i : nat => mir_lower_function vp (N.to_nat (p_entry_module p)) i) with (mir_lower_function vp (N.to_nat (p_entry_module p))) in E.
  rewrite E. destruct (entry_exports 0 (m_functions em)) as [es is_] eqn:Ees. cbn [fst snd] in *. rewrite Habi, Hidx. do 3 f_equal.
  apply list_eq. intros i. rewrite !list_lookup_fmap, list_lookup_imap. destruct (p_modules p !! i); [|done]. cbn. by rewrite length_imap.
Qed.

(** ** Limits *)

Lemma entry_export_valid module : p_modules p !! N.to_nat (p_entry_module p) = Some module ->
  forall f function name, m_functions module !! f = Some function -> f_entry_export function = Some name ->
  (slen name <= MAX_ENTRY_EXPORT_BYTES)%N.
Proof.
  intros Em f function name Ef En. destruct entry_module as (em & Eem & Habi & _). rewrite Em in Eem. injection Eem as <-.
  apply abi_verify_exact in Habi as [Hok _]. pose proof (eo_names _ _ Hok) as Hn.
  pose proof (entry_exports_index (m_functions module) 0 f function Ef) as H. rewrite En in H. destruct H as (k & _ & Hk).
  rewrite Forall_lookup in Hn. specialize (Hn k _ Hk). cbn in Hn. unfold valid_logical_name in Hn.
  destruct (String.eqb name "" || (MAX_LOGICAL_EXPORT_NAME_BYTES <? slen name)%N) eqn:E; [done|].
  apply orb_false_iff in E as [_ E]. by apply N.ltb_ge in E.
Qed.

Lemma lowered_function_limits m module f function :
  p_modules p !! m = Some module -> m_functions module !! f = Some function ->
  let mf := mir_lower_function vp m f function in
  function_local mf /\ forall k, program_counter k = true -> (function_amount mf k <= contribution function k)%N.
Proof.
  intros Em Ef mf. destruct (verified_function m module f function Em Ef) as (Hok & Hlim & Hid & Hx & Hmid).
  pose proof (lowered_mirrors m module f function Em Ef) as Hm. fold mf in Hm.
  destruct verified_accepted as [_ _ Hl _].
  assert (Hsingle : forall b, b ∈ f_blocks function -> single_terminator b).
  { intros b [i Hi]%list_elem_of_lookup. destruct (bo_terminator _ _ _ _ (fo_blocks _ _ Hok i b Hi)) as (t & Et & _). by exists t. }
  assert (Hsym : (slen (mf_internal_symbol mf) <= MAX_INTERNAL_SYMBOL_BYTES)%N).
  { cbn. rewrite Hid. pose proof (lookup_lt_Some _ _ _ Em) as H1. pose proof (lookup_lt_Some _ _ _ Ef) as H2.
    pose proof (pl_modules _ Hl) as H3. pose proof (pl_module _ Hl module ltac:(by eapply list_elem_of_lookup_2)) as H4.
    unfold len, MAX_MODULES, MAX_FUNCTIONS_PER_MODULE in *.
    apply canonical_symbol_length; cbn; unfold u32_max; lia. }
  assert (Hexp : (export_bytes mf <= MAX_ENTRY_EXPORT_BYTES)%N).
  { unfold export_bytes, mf. cbn. rewrite (public_export_name m module f function Em Ef).
    destruct (f_entry_export function) as [name|] eqn:En; cbn; [|apply N.le_0_l].
    apply (entry_export_valid module) with f function; [|done|done]. rewrite <- Hx, Hmid, Nat2N.id by (by eexists). done. }
  split; [by apply (mirrored_local mf function)|]. intros k Dk. by apply (mirrored_contribution mf function).
Qed.

(** The sum over the modules is the sum over all functions. *)
Lemma lowered_total k : program_counter k = true -> k <> CFunctions ->
  (total_of module_amount (mp_modules (lowered_mir vp)) k <= sumN ((fun f => contribution f k) <$> all_functions p))%N.
Proof.
  intros Dk Hk. unfold all_functions.
  assert (H : Forall2 (fun mm m => total_of function_amount (mm_functions mm) k <= sumN ((fun f => contribution f k) <$> m_functions m))%N
    (mp_modules (lowered_mir vp)) (p_modules p)).
  { cbn. apply Forall2_imap. intros m module Em. cbn. eapply (sumN_le (fun mf f => (function_amount mf k <= contribution f k)%N)); [|done].
    apply Forall2_imap. intros f function Ef. by apply (lowered_function_limits m module f function Em Ef). }
  induction H as [|mm m mms ms Hm _ IH]; [done|]. rewrite total_of_cons. change ((m :: ms) ≫= m_functions) with (m_functions m ++ (ms ≫= m_functions)).
  rewrite fmap_app, sumN_app. unfold module_amount at 1. destruct k; try done; lia.
Qed.
Lemma lowered_functions_total : total_of module_amount (mp_modules (lowered_mir vp)) CFunctions = len (all_functions p).
Proof.
  unfold all_functions. pose proof lowered_mirrors_program as H. unfold mirrors_program in H.
  induction H as [|mm m mms ms Hm _ IH]; [done|]. rewrite total_of_cons, IH. change ((m :: ms) ≫= m_functions) with (m_functions m ++ (ms ≫= m_functions)).
  unfold module_amount at 1, len. rewrite length_app. unfold mirrors_module in Hm. rewrite (Forall2_length Hm).
  rewrite (total_of_zero function_amount); [lia|]. intros f. apply blocks_quiet. naive_solver.
Qed.

Lemma lowered_within : mir_within (lowered_mir vp).
Proof.
  destruct verified_accepted as [_ _ Hl _]. split.
  - cbn. pose proof (pl_nonempty _ Hl). destruct (p_modules p); done.
  - cbn. unfold len. rewrite length_imap. apply Hl.
  - apply Forall_lookup. intros m mm (module & Em & ->)%list_lookup_imap_Some. split; cbn.
    + unfold len. rewrite length_imap. apply Hl. by eapply list_elem_of_lookup_2.
    + apply Forall_lookup. intros f mf (function & Ef & ->)%list_lookup_imap_Some. by apply (lowered_function_limits m module f function Em Ef).
  - intros k Dk. destruct (decide (k = CFunctions)) as [->|Hk]; [rewrite lowered_functions_total; apply Hl|].
    etrans; [by apply lowered_total|].
    assert (Hn : (len (all_functions p) <= MAX_FUNCTIONS_PER_PROGRAM)%N) by apply Hl.
    assert (Hb : forall n, sumN ((fun _ => n) <$> all_functions p) = (n * len (all_functions p))%N) by (intros n; apply sumN_const).
    destruct k; try done; cbn [contribution counter_limit]; try apply Hl.
    + rewrite (sumN_scale _ function_call_count). unfold MAX_CALL_ARGUMENTS_PER_PROGRAM. pose proof (pl_calls _ Hl). nia.
    + rewrite (sumN_scale _ function_edge_count). unfold MAX_EDGE_ARGUMENTS_PER_PROGRAM. pose proof (pl_edges _ Hl). nia.
    + rewrite Hb. unfold MAX_INTERNAL_SYMBOL_BYTES_PER_PROGRAM. nia.
    + rewrite Hb. unfold MAX_ENTRY_EXPORT_BYTES_PER_PROGRAM. change MAX_ABI_EXPORTS with MAX_FUNCTIONS_PER_PROGRAM. nia.
Qed.

(** The MIR of a sealed program is accepted, with the public ABI of the program. *)
Lemma mir_lower_verifies : mir_lower vp = Ok (mkMirVerified (lowered_mir vp) (vp_abi vp) (vp_abi_indices vp)).
Proof.
  destruct lowered_checks as [C1 C2]. apply mir_run_verifies. split; try done.
  - apply mir_preflight_within, lowered_within.
  - apply verify_inventory_clean, lowered_inventory.
  - apply lowered_abi.
Qed.
End lowering.

(** ** The interpreter *)

Definition mir_function (program : MirProgram) (key : FunctionKey) : option MirFunction :=
  module ← mp_modules program !! fk_module key; mm_functions module !! fk_function key.

Definition mir_eval (call : FunctionKey -> list Value -> Outcome Value) (env : Env) (kind : MirInstructionKind) : Outcome Value :=
  match kind with
  | MBoolLiteral b => mret (VBool b)
  | MI32Literal z => mret (VI32 z)
  | MI32Add x y => binary env x y (fun a b => VI32 (wrap32 (a + b)))
  | MI32Sub x y => binary env x y (fun a b => VI32 (wrap32 (a - b)))
  | MI32Mul x y => binary env x y (fun a b => VI32 (wrap32 (a * b)))
  | MI32Neg x => a ← read_i32 env x; mret (VI32 (wrap32 (- a)))
  | MEq x y => a ← or_stuck (env !! x); b ← or_stuck (env !! y); r ← same_scalar a b; mret (VBool r)
  | MNe x y => a ← or_stuck (env !! x); b ← or_stuck (env !! y); r ← same_scalar a b; mret (VBool (negb r))
  | MI32LtS x y => binary env x y (fun a b => VBool (Z.ltb a b))
  | MI32LeS x y => binary env x y (fun a b => VBool (Z.leb a b))
  | MI32GtS x y => binary env x y (fun a b => VBool (Z.ltb b a))
  | MI32GeS x y => binary env x y (fun a b => VBool (Z.leb b a))
  | MDirectCall callee arguments =>
      values ← or_stuck (mapM (fun v => env !! v) arguments); call (callee_key callee) values
  end.

Fixpoint mir_run_instructions (call : FunctionKey -> list Value -> Outcome Value) (env : Env)
    (instructions : list MirInstruction) : Outcome Env :=
  match instructions with
  | [] => mret env
  | i :: instructions =>
      v ← mir_eval call env (mi_kind i);
      mir_run_instructions call (<[md_id (mi_result i) := v]> env) instructions
  end.

Fixpoint mir_bind (env : Env) (parameters : list MirValueDefinition) (values : list Value) : Outcome Env :=
  match parameters, values with
  | [], [] => mret env
  | d :: parameters, v :: values =>
      if decide (value_ty v = md_ty d) then mir_bind (<[md_id d := v]> env) parameters values else Stuck
  | _, _ => Stuck
  end.

Fixpoint mir_exec (fuel : nat) (program : MirProgram) (function : MirFunction) (b : nat) (env : Env) : Outcome Value :=
  match fuel with
  | O => Timeout
  | S fuel =>
      let call key values :=
        callee ← or_stuck (mir_function program key);
        env ← mir_bind ∅ (mf_parameters callee) values;
        mir_exec fuel program callee 0 env in
      let goto env target arguments :=
        values ← or_stuck (mapM (fun v => env !! v) arguments);
        block ← or_stuck (get (mf_blocks function) target);
        env ← mir_bind env (mb_parameters block) values;
        mir_exec fuel program function (N.to_nat target) env in
      block ← or_stuck (mf_blocks function !! b);
      env ← mir_run_instructions call env (mb_instructions block);
      match mb_terminators block with
      | [MReturn v] =>
          value ← or_stuck (env !! v);
          if decide (value_ty value = mf_result function) then mret value else Stuck
      | [MJump target arguments] => goto env target arguments
      | [MBranch condition t1 a1 t2 a2] =>
          c ← read_bool env condition;
          if (c : bool) then goto env t1 a1 else goto env t2 a2
      | _ => Stuck
      end
  end.

Definition mir_call (fuel : nat) (program : MirProgram) (key : FunctionKey) (values : list Value) : Outcome Value :=
  callee ← or_stuck (mir_function program key);
  env ← mir_bind ∅ (mf_parameters callee) values;
  mir_exec fuel program callee 0 env.

(** ** Agreement with the IR *)

Lemma mir_bind_same env ds values : mir_bind env (lower_definition <$> ds) values = bind_parameters env ds values.
Proof.
  revert env values. induction ds as [|d ds IH]; intros env [|v values]; [done..|]. cbn.
  destruct (decide _); [apply IH|done].
Qed.

Lemma mir_eval_same call call' env kind : (forall key vs, call' key vs = call key vs) ->
  mir_eval call' env (lower_operation kind) = eval_kind call env kind.
Proof. intros Hc. destruct kind; cbn; try done. destruct (or_stuck _); cbn; [apply Hc|done..]. Qed.

Lemma mir_run_same call call' env is_ : (forall key vs, call' key vs = call key vs) ->
  mir_run_instructions call' env ((fun i => mkMirInstruction (lower_definition (in_result i)) (lower_operation (in_kind i))) <$> is_)
  = run_instructions call env is_.
Proof.
  intros Hc. revert env. induction is_ as [|i is_ IH]; intros env; [done|]. cbn. rewrite (mir_eval_same call call') by done.
  destruct (eval_kind _ _ _); cbn; [apply IH|done..].
Qed.

Section same.
Context (mp : MirProgram) (p : Program_) (same : mirrors_program mp p).

Lemma mirrored_function key : option_Forall2 mirrors (mir_function mp key) (program_function p key).
Proof.
  unfold mir_function, program_function. pose proof same as H. unfold mirrors_program in H.
  apply (Forall2_lookup _ _ _) with (i := fk_module key) in H. destruct H as [mm m Hm|]; [|constructor].
  unfold mirrors_module in Hm. by apply (Forall2_lookup _ _ _) with (i := fk_function key) in Hm.
Qed.

Lemma mir_exec_same fuel : forall mf f b env, mirrors mf f -> mir_exec fuel mp mf b env = run fuel p f b env.
Proof.
  induction fuel as [|fuel IH]; intros mf f b env Hm; [done|]. cbn [mir_exec run].
  rewrite (mr_blocks _ _ Hm), list_lookup_fmap, (mr_result _ _ Hm). destruct (f_blocks f !! b) as [block|]; [|done].
  cbn [or_stuck fmap option_fmap option_map mbind Outcome_bind erase_block mb_instructions mb_terminators].
  rewrite (mir_run_same (fun key values => callee ← or_stuck (program_function p key);
    env ← bind_parameters ∅ (f_parameters callee) values; run fuel p callee 0 env)).
  2: { intros key vs. cbv beta. destruct (mirrored_function key) as [mf' f' Hm'|]; [|done]. cbn [or_stuck mbind Outcome_bind].
       rewrite (mr_parameters _ _ Hm'), mir_bind_same. destruct (bind_parameters _ _ _); [|done..]. by apply IH. }
  destruct (run_instructions _ _ _) as [env1| |]; [|done..]. cbn [mbind Outcome_bind].
  assert (Hgoto : forall env target arguments,
    (values ← or_stuck (mapM (fun v => env !! v) arguments);
     block ← or_stuck (get (erase_block <$> f_blocks f) target);
     env ← mir_bind env (mb_parameters block) values;
     mir_exec fuel mp mf (N.to_nat target) env) =
    (values ← or_stuck (mapM (fun v => env !! v) arguments);
     block ← or_stuck (get (f_blocks f) target);
     env ← bind_parameters env (b_parameters block) values;
     run fuel p f (N.to_nat target) env)).
  { intros env' target arguments. destruct (or_stuck (mapM _ _)); [|done..]. unfold get. rewrite list_lookup_fmap.
    destruct (f_blocks f !! N.to_nat target); [|done]. cbn. rewrite mir_bind_same.
    destruct (bind_parameters _ _ _); [|done..]. by apply IH. }
  destruct (b_terminators block) as [|t [|t' ts]]; cbn [fmap list_fmap].
  - done.
  - destruct (tm_kind t); cbn [mir_lower_terminator]; [done|apply Hgoto|].
    destruct (read_bool env1 condition) as [[]| |]; [apply Hgoto|apply Hgoto|done..].
  - by destruct (tm_kind t).
Qed.

Lemma mir_call_same fuel key vs : mir_call fuel mp key vs = call_function fuel p key vs.
Proof.
  unfold mir_call, call_function. destruct (mirrored_function key) as [mf f Hm|]; [|done]. cbn.
  rewrite (mr_parameters _ _ Hm), mir_bind_same. destruct (bind_parameters _ _ _); [|done..]. by apply mir_exec_same.
Qed.
End same.
