(* ===== verification/MirTheorems.v ===== *)
(** * Theorems about native MIR

    What the MIR verifier guarantees, and that lowering a sealed program to
    native MIR always succeeds and keeps its meaning, with witnesses on the
    running example of [ControlFlowTheorems] and on a MIR program written out. *)
From stdpp Require Import base numbers list strings pretty gmap option.
From S2P Require Import Prelude Source SourceText Diagnostics Abi AbiSound CfgAlgorithms ControlFlow ControlFlowSpec CheckLogic ControlFlowExec.
From S2P Require Import VerifySound ControlFlowTheorems Syntax Snapshot SnapshotLimits Semantics SemProgram SourceSemantics SemCorrect.
From S2P Require Import NativeMir MirLimits MirEquiv MirVerify MirLower SnapshotTheorems.

(** ** A program of two functions *)

Module MirSample.
Open Scope N_scope.
Definition d (i : N) (ty : Ty) : MirValueDefinition := mkMirDefinition i ty.
Definition op (i : N) (ty : Ty) (k : MirInstructionKind) : MirInstruction := mkMirInstruction (d i ty) k.
Definition fn (f : N) (export : option string) (ps : list MirValueDefinition) (bs : list MirBlock) : MirFunction :=
  mkMirFunction (mkFunctionId 0 f) (canonical_internal_symbol (mkFunctionId 0 f)) export ZRYNA_INTERNAL_CONTROL_FLOW_V1 ps I32 bs.
Definition program : MirProgram := mkMirProgram 0 [mkMirModule 0
  [ fn 0 (Some "count") [d 0 I32]
      [ mkMirBlock 0 [] [op 1 I32 (MI32Literal 0)] [MJump 1 [1]];
        mkMirBlock 1 [d 2 I32] [op 3 Bool (MI32LtS 2 0)] [MBranch 3 2 [] 3 []];
        mkMirBlock 2 [] [op 4 I32 (MI32Literal 1); op 5 I32 (MI32Add 2 4)] [MJump 1 [5]];
        mkMirBlock 3 [] [] [MReturn 2] ];
    fn 1 None [] [ mkMirBlock 0 [] [op 0 I32 (MI32Literal 7); op 1 I32 (MDirectCall (mkFunctionId 0 0) [0])] [MReturn 1] ] ]].

Lemma sample_accepted_run : is_ok (mir_verify program) = true.
Proof. vm_compute. reflexivity. Qed.
Lemma sample_accepted_result : exists mv, mir_verify program = Ok mv.
Proof. pose proof sample_accepted_run as H. destruct (mir_verify program) as [mv|]; [by exists mv|done]. Qed.
End MirSample.

(** ** Lowering *)

(** C6: Lowering a program the IR verifier sealed never fails: the MIR verifier
    accepts the lowered program, whose public ABI is that of the program, and
    every call of it computes what the call of the IR program computes. *)
Theorem mir_lowering_preserves program sources entry vp :
  verify program sources entry = Ok vp ->
  exists mv, mir_lower vp = Ok mv /\ mv_abi mv = vp_abi vp /\
    forall fuel key vs, mir_call fuel (mv_program mv) key vs = call_function fuel program key vs.
Proof.
  intros H. exists (mkMirVerified (lowered_mir vp) (vp_abi vp) (vp_abi_indices vp)).
  split; [by eapply mir_lower_verifies|]. split; [done|]. intros fuel key vs.
  rewrite <- (verified_program _ _ _ _ H). apply mir_call_same. by eapply lowered_mirrors_program.
Qed.
Lemma mir_lowering_preserves_witness : exists vp mv,
  verify Example.program Example.sources Example.file = Ok vp /\ mir_lower vp = Ok mv /\
  mir_call 20 (mv_program mv) Example.key [] = Done (VI32 7).
Proof.
  destruct (verify Example.program Example.sources Example.file) as [vp|e] eqn:E.
  - destruct (mir_lowering_preserves Example.program Example.sources Example.file vp E) as (mv & H1 & _ & H2).
    exists vp, mv. split; [reflexivity|]. split; [exact H1|]. rewrite H2. exact Example.seven_runs.
  - exfalso. pose proof Example.accepted_run as H. rewrite E in H. discriminate H.
Defined.

(** C2: From raw claims to native MIR: when a snapshot is accepted and its project
    is lowered, native MIR exists, and a call returns a value in the meaning of
    the accepted syntax trees exactly when the MIR function returns it. *)
Theorem native_snapshot_meaning raw sources sn entry input vp :
  built sources -> verify_snapshot raw sources = Some (Ok sn) -> semantic_input sn sources entry = Some input ->
  lower input = Some (Ok vp) ->
  exists mv, mir_lower vp = Ok mv /\ forall key vs v,
    (exists fuel, source_call (sn_files sn) fuel key vs = Done v) <->
    (exists fuel, mir_call fuel (mv_program mv) key vs = Done v).
Proof.
  intros Hb H Hi Hl. pose proof (verify_snapshot_accepted _ _ _ Hb H) as Ha.
  unfold semantic_input in Hi. destruct (_ && _); [|done]. injection Hi as <-.
  pose proof (lower_project (mkSemanticInput sn sources entry) vp (accepted_sized _ _ _ Ha) Hl) as Hp. pose proof (lp_verify _ _ Hp) as Hv.
  exists (mkMirVerified (lowered_mir vp) (vp_abi vp) (vp_abi_indices vp)). split; [by eapply mir_lower_verifies|].
  intros key vs v. rewrite (lowered_calls (mkSemanticInput sn sources entry) _ _ _ _ Hp). cbn.
  split; intros [fuel E]; exists fuel; rewrite <- E; [|symmetry]; apply mir_call_same; by eapply lowered_mirrors_program.
Qed.
Lemma native_snapshot_meaning_witness : exists sn, verify_snapshot SnapshotSample.raw SnapshotSample.sources = Some (Ok sn) /\
  exists vp mv, mir_lower vp = Ok mv /\ exists fuel, mir_call fuel (mv_program mv) (mkFunctionKey 1 0) [VI32 4] = Done (VI32 8).
Proof.
  destruct sample_pipeline_some as [[[sn input] vp] E]. destruct (sample_pipeline_spec _ _ _ E) as (E1 & E2 & E3).
  exists sn. split; [exact E1|]. exists vp.
  destruct (native_snapshot_meaning SnapshotSample.raw SnapshotSample.sources sn SnapshotSample.main input vp
    sample_built E1 E2 E3) as (mv & H1 & H2). exists mv. split; [exact H1|]. apply H2. exists 20.
  exact (sample_meaning sn input vp E).
Defined.

(** ** Acceptance *)

(** What the MIR verifier accepts is well formed: as a block program it
    satisfies the declarative specification of the IR, it is within every limit,
    identities are dense, symbols are the canonical ones, conventions the
    internal one, and only entry functions are exported. *)
Theorem mir_verify_sound mp mv :
  mir_verify mp = Ok mv -> mv_program mv = mp /\ program_ok (raise_program mp) /\ mir_within mp /\ inventory_ok mp.
Proof. intros H. destruct (mir_verify_accepted _ _ H) as [[? ? ?] ?]. by split_and!. Qed.
Lemma mir_verify_sound_witness : is_ok (mir_verify MirSample.program) = true /\ program_ok (raise_program MirSample.program).
Proof.
  split; [vm_compute; reflexivity|]. destruct MirSample.sample_accepted_result as [mv E].
  apply (mir_verify_sound MirSample.program mv E).
Defined.

(** C10: Accepted MIR never goes wrong: calling any function with arguments of its
    parameter types never gets stuck and a result has the result type. *)
Theorem mir_type_safe mp mv fuel key function values :
  mir_verify mp = Ok mv -> mir_function mp key = Some function ->
  value_ty <$> values = md_ty <$> mf_parameters function ->
  mir_call fuel mp key values <> Stuck /\
  forall v, mir_call fuel mp key values = Done v -> value_ty v = mf_result function.
Proof.
  intros H Hf Hty. destruct (mir_verify_accepted _ _ H) as [[[Hok _] _ _] _].
  pose proof (mirrored_function mp (raise_program mp) (mirrors_raise_program mp) key) as Hm. rewrite Hf in Hm.
  inversion Hm as [? f Hmf E Ef|]. subst. symmetry in Ef.
  rewrite (mir_call_same mp (raise_program mp) (mirrors_raise_program mp)), (mr_result _ _ Hmf).
  assert (Htys : value_ty <$> values = vd_ty <$> f_parameters f).
  { rewrite Hty, (mr_parameters _ _ Hmf), <- list_fmap_compose. done. }
  pose proof (call_function_safe (raise_program mp) Hok fuel key f values Ef Htys) as Hs.
  destruct (call_function fuel (raise_program mp) key values); cbn in Hs; split; [done|by intros ? [= <-]|done..].
Qed.
Lemma mir_type_safe_witness : mir_call 20 MirSample.program (mkFunctionKey 0 1) [] <> Stuck.
Proof.
  destruct MirSample.sample_accepted_result as [mv E].
  eapply (mir_type_safe MirSample.program mv 20 (mkFunctionKey 0 1) _ [] E); [reflexivity|reflexivity].
Defined.


