(* ===== verification/Package.v ===== *)
(** * Package resolution ([crates/zryna-package/src/])

    The records of the package contract, the validation of manifests and locks
    ([validation.rs]), the canonical wire form ([canonical.rs]), the resolver
    with its closed dependency graph ([resolver.rs]), the semantic domains of
    packages ([identity.rs]) and the source policy ([source_trust.rs]).  JSON
    and SHA-256 are libraries and the source provider belongs to the caller:
    they are the type classes [Libraries] and [PackageSourceProvider]. *)
From stdpp Require Import base numbers list strings pretty gmap option.
From Stdlib Require Import Ascii.
From S2P Require Import Prelude Source.

(** ** Records ([model.rs]) *)

Inductive PackageSourceKind := KGit | KLocal.
Record PackageSource := mkPackageSource {
  ps_kind : PackageSourceKind;
  ps_locator : string;
  ps_revision : string }.

Record Compatibility := mkCompatibility {
  cp_compiler : string;
  cp_profile : string;
  cp_targets : list string }.
Record Checksum := mkChecksum { ck_path : string; ck_size : N; ck_sha256 : string }.
Record Dependency := mkDependency {
  dp_alias : string;
  dp_name : string;
  dp_version : string;
  dp_source : PackageSource }.
Record Manifest := mkManifest {
  mn_format : string;
  mn_name : string;
  mn_version : string;
  mn_source : PackageSource;
  mn_compatibility : Compatibility;
  mn_files : list Checksum;
  mn_dependencies : list Dependency }.

Record LockEdge := mkLockEdge { lk_alias : string; lk_package : string }.
Record LockPackage := mkLockPackage {
  lp_id : string;
  lp_source_sha256 : string;
  lp_dependencies : list LockEdge }.
Record Lock := mkLock {
  lo_format : string;
  lo_root : string;
  lo_compatibility : Compatibility;
  lo_packages : list LockPackage }.

#[export] Instance PackageSourceKind_eq_dec : EqDecision PackageSourceKind.
Proof. solve_decision. Defined.
#[export] Instance PackageSource_eq_dec : EqDecision PackageSource.
Proof. solve_decision. Defined.
#[export] Instance Compatibility_eq_dec : EqDecision Compatibility.
Proof. solve_decision. Defined.
#[export] Instance LockEdge_eq_dec : EqDecision LockEdge.
Proof. solve_decision. Defined.
#[export] Instance LockPackage_eq_dec : EqDecision LockPackage.
Proof. solve_decision. Defined.
#[export] Instance Lock_eq_dec : EqDecision Lock.
Proof. solve_decision. Defined.
#[export] Instance PackageSource_countable : Countable PackageSource.
Proof.
  apply (inj_countable'
    (fun s => (if ps_kind s then true else false, ps_locator s, ps_revision s))
    (fun t => mkPackageSource (if t.1.1 then KGit else KLocal) t.1.2 t.2)).
  by intros [[] ? ?].
Defined.

(** The derived order: by kind, then locator, then revision *)
Definition string_eqb (s t : string) : bool := bool_decide (s = t).
Definition source_leb (a b : PackageSource) : bool :=
  match ps_kind a, ps_kind b with
  | KGit, KLocal => true
  | KLocal, KGit => false
  | _, _ =>
      if string_eqb (ps_locator a) (ps_locator b) then str_leb (ps_revision a) (ps_revision b)
      else str_leb (ps_locator a) (ps_locator b)
  end.

(** ** Rejections *)

Record ResolveError := mkResolveError { re_code : string; re_detail : string }.
Definition source_error (detail : string) : ResolveError := mkResolveError "ZRYNA-P4004" detail.
Definition package_budget_error (detail : string) : ResolveError := mkResolveError "ZRYNA-P4001" detail.
Definition wire_error (detail : string) : ResolveError := mkResolveError "ZRYNA-P4002" detail.
Definition schema_error (detail : string) : ResolveError := mkResolveError "ZRYNA-P4003" detail.
Definition path_error (detail : string) : ResolveError := mkResolveError "ZRYNA-P4005" detail.
Definition selection_error (detail : string) : ResolveError := mkResolveError "ZRYNA-P4006" detail.
Definition identity_error (detail : string) : ResolveError := mkResolveError "ZRYNA-P4007" detail.
Definition graph_error (detail : string) : ResolveError := mkResolveError "ZRYNA-P4008" detail.
Definition compatibility_error (detail : string) : ResolveError := mkResolveError "ZRYNA-P4009" detail.
Definition frozen_error (detail : string) : ResolveError := mkResolveError "ZRYNA-P4010" detail.
Definition order_error (label : string) : ResolveError :=
  mkResolveError "ZRYNA-P4003" (label +:+ " must be sorted and unique").

Notation Resolve := (result ResolveError).
(** [if condition { return Err(e); }] *)
Definition reject_if (condition : bool) (e : ResolveError) : Resolve unit :=
  if condition then Err e else Ok tt.
(** [for x in l { f(x)?; }] *)
Fixpoint try_each {A} (f : A -> Resolve unit) (l : list A) : Resolve unit :=
  match l with
  | [] => Ok tt
  | x :: l => _ ← f x; try_each f l
  end.

(** ** Strings of the contract ([validation.rs]) *)

Definition char_in (cs : list Ascii.ascii) (a : Ascii.ascii) : bool := existsb (Ascii.eqb a) cs.
Definition lower_or_digit (a : Ascii.ascii) : bool := is_ascii_lower a || is_ascii_digit a.
Definition lower_hex_digit (a : Ascii.ascii) : bool :=
  is_ascii_digit a || ((97 <=? byte_of a) && (byte_of a <=? 102))%N.

(** [str::strip_suffix], [str::split_once], [str::ends_with] of characters *)
Definition strip_suffix (suffix s : string) : option string :=
  if ends_with suffix s then Some (String.substring 0 (String.length s - String.length suffix) s) else None.
Fixpoint split_once (c : Ascii.ascii) (s : string) : option (string * string) :=
  match s with
  | EmptyString => None
  | String a r =>
      if Ascii.eqb a c then Some (EmptyString, r)
      else '(before, after) ← split_once c r; Some (String a before, after)
  end.
Definition starts_with_any (cs : list Ascii.ascii) (s : string) : bool :=
  match s with EmptyString => false | String a _ => char_in cs a end.
Fixpoint ends_with_any (cs : list Ascii.ascii) (s : string) : bool :=
  match s with
  | EmptyString => false
  | String a EmptyString => char_in cs a
  | String _ r => ends_with_any cs r
  end.

Definition device (prefix stem : string) : bool :=
  match strip_prefix prefix stem with
  | Some (String a EmptyString) => is_ascii_digit a
  | _ => false
  end.
Definition portable_segment (segment : string) : bool :=
  let stem := default EmptyString (head (split_on "."%char segment)) in
  let reserved := existsb (string_eqb stem) ["con"; "prn"; "aux"; "nul"] || device "com" stem || device "lpt" stem in
  negb (string_eqb segment "" || existsb (string_eqb segment) ["."; ".."] || ends_with "." segment || reserved).
Definition portable_bytes (value : string) : bool :=
  match value with
  | EmptyString => true
  | String a r =>
      lower_or_digit a && str_all (fun a => lower_or_digit a || char_in ["/"; "."; "_"; "-"]%char a) r
  end.
Definition portable_path (value : string) : Resolve unit :=
  _ ← reject_if (string_eqb value "" || (96 <? slen value)%N || negb (portable_bytes value))
        (path_error "invalid portable path");
  try_each (fun segment => reject_if (negb (portable_segment segment)) (path_error "invalid portable path segment"))
    (split_on "/"%char value).

Definition validate_name (value : string) : Resolve unit :=
  reject_if (match value with
             | EmptyString => true
             | String a _ =>
                 (64 <? slen value)%N || negb (is_ascii_lower a)
                 || negb (str_all (fun a => lower_or_digit a || char_in ["-"%char] a) value)
             end) (schema_error "invalid package name or alias").

(** [str::parse::<u16>] of a text of digits *)
Fixpoint decimal (value : N) (s : string) : N :=
  match s with
  | EmptyString => value
  | String a r => decimal (10 * value + (byte_of a - 48)) r
  end.
Definition version_part (part : string) : bool :=
  negb (string_eqb part "") && negb ((1 <? slen part)%N && starts_with "0" part)
  && str_all is_ascii_digit part && (decimal 0 part <=? 9999)%N.
Definition validate_version (value : string) : Resolve unit :=
  let parts := split_on "."%char value in
  reject_if (negb (Nat.eqb (length parts) 3) || (14 <? slen value)%N || existsb (fun part => negb (version_part part)) parts)
    (schema_error "invalid exact package version").

Definition valid_git_segment (segment : string) : bool :=
  negb (string_eqb segment "")
  && str_all (fun a => lower_or_digit a || char_in ["_"; "-"]%char a) segment.
Definition canonical_git_locator (value : string) : bool :=
  match (rest ← strip_prefix "https://" value; strip_suffix ".git" rest) with
  | None => false
  | Some rest =>
      if (96 <? slen value)%N || str_any is_ascii_upper value
         || str_contains_any ["?"; "#"; "@"; "%"; "\"]%char value
      then false
      else match split_once "/"%char rest with
      | None => false
      | Some (host, path) =>
          negb (string_eqb host "") && negb (starts_with_any ["."; "-"]%char host)
          && negb (ends_with_any ["."; "-"]%char host)
          && negb (windows2_any (fun a b => char_in ["."; "-"]%char a && char_in ["."; "-"]%char b)
                     (String.list_ascii_of_string host))
          && str_all (fun a => lower_or_digit a || char_in ["."; "-"]%char a) host
          && negb (string_eqb path "") && forallb valid_git_segment (split_on "/"%char path)
      end
  end.
Definition is_commit (value : string) : bool := (slen value =? 40)%N && str_all lower_hex_digit value.
Definition is_digest (value : string) : bool := (slen value =? 64)%N && str_all lower_hex_digit value.

Definition validate_source (value : PackageSource) : Resolve unit :=
  match ps_kind value with
  | KLocal =>
      _ ← reject_if (negb (string_eqb (ps_revision value) "")) (source_error "local source revision must be empty");
      portable_path (ps_locator value)
  | KGit =>
      reject_if (negb (canonical_git_locator (ps_locator value)) || negb (is_commit (ps_revision value)))
        (source_error "Git source requires a canonical HTTPS .git locator and exact commit")
  end.

(** ** Records of the contract *)

(** [ordered]: strictly increasing keys *)
Definition strictly_ordered {A} (key : A -> string) (label : string) (items : list A) : Resolve unit :=
  reject_if (windows2_any (fun a b => str_leb (key b) (key a)) items) (order_error label).

Definition validate_compatibility (value : Compatibility) : Resolve unit :=
  _ ← validate_version (cp_compiler value);
  _ ← reject_if (negb (existsb (string_eqb (cp_profile value)) ["i32-v1"; "control-flow-v1"; "data-ownership-v1"]))
        (schema_error "unsupported language profile");
  _ ← reject_if (match cp_targets value with [] => true | targets => (3 <? len targets)%N end)
        (package_budget_error "target count is outside 1..=3");
  _ ← strictly_ordered id "targets" (cp_targets value);
  reject_if (existsb (fun target => negb (existsb (string_eqb target) ["javascript"; "native-linux-x86_64"; "webassembly"]))
               (cp_targets value))
    (schema_error "unsupported package target").

(** The prefixes of a path that end before a slash *)
Fixpoint path_directories (before path : string) : list string :=
  match path with
  | EmptyString => []
  | String a r =>
      (if Ascii.eqb a "/"%char then [before] else []) ++ path_directories (before +:+ String a EmptyString) r
  end.
Definition reject_prefix_collisions (files : list Checksum) : Resolve unit :=
  let paths := ck_path <$> files in
  try_each (fun path =>
      reject_if (existsb (fun directory => existsb (string_eqb directory) paths) (path_directories "" path))
        (path_error "file and directory paths collide")) paths.

Definition validate_checksum (file : Checksum) : Resolve unit :=
  _ ← portable_path (ck_path file);
  reject_if ((1024 <? ck_size file)%N || negb (is_digest (ck_sha256 file))) (schema_error "invalid source checksum record").
Definition validate_dependency (dependency : Dependency) : Resolve unit :=
  _ ← validate_name (dp_alias dependency);
  _ ← validate_name (dp_name dependency);
  _ ← validate_version (dp_version dependency);
  validate_source (dp_source dependency).

Definition validate_manifest (manifest : Manifest) : Resolve unit :=
  _ ← reject_if (negb (string_eqb (mn_format manifest) "zryna.package.v1"))
        (schema_error "unsupported package manifest format");
  _ ← validate_name (mn_name manifest);
  _ ← validate_version (mn_version manifest);
  _ ← validate_source (mn_source manifest);
  _ ← validate_compatibility (mn_compatibility manifest);
  _ ← reject_if (match mn_files manifest with [] => true | files => (16 <? len files)%N end)
        (package_budget_error "source file count is outside 1..=16");
  _ ← reject_if (8 <? len (mn_dependencies manifest))%N (package_budget_error "dependency count exceeds 8");
  _ ← strictly_ordered ck_path "source files" (mn_files manifest);
  _ ← strictly_ordered dp_alias "dependencies" (mn_dependencies manifest);
  _ ← try_each validate_checksum (mn_files manifest);
  _ ← reject_prefix_collisions (mn_files manifest);
  try_each validate_dependency (mn_dependencies manifest).

Definition validate_lock_package (package : LockPackage) : Resolve unit :=
  _ ← reject_if (negb (is_digest (lp_id package)) || negb (is_digest (lp_source_sha256 package)))
        (schema_error "invalid lock package identity");
  _ ← reject_if (8 <? len (lp_dependencies package))%N (package_budget_error "lock dependency count exceeds 8");
  _ ← reject_if (windows2_any (fun a b => str_leb (lk_alias b) (lk_alias a)) (lp_dependencies package))
        (schema_error "lock edges must be sorted and unique");
  try_each (fun edge =>
      _ ← validate_name (lk_alias edge);
      reject_if (negb (is_digest (lk_package edge))) (schema_error "invalid lock edge identity"))
    (lp_dependencies package).
Definition validate_lock_shape (lock : Lock) : Resolve unit :=
  _ ← reject_if (negb (string_eqb (lo_format lock) "zryna.lock.v1") || negb (is_digest (lo_root lock)))
        (schema_error "invalid lock format or root identity");
  _ ← validate_compatibility (lo_compatibility lock);
  _ ← reject_if (match lo_packages lock with [] => true | packages => (16 <? len packages)%N end)
        (package_budget_error "lock package count is outside 1..=16");
  _ ← reject_if (windows2_any (fun a b => str_leb (lp_id b) (lp_id a)) (lo_packages lock))
        (schema_error "lock packages must be sorted and unique");
  try_each validate_lock_package (lo_packages lock).

(** ** Canonical wire form ([canonical.rs]) *)

(** [serde::Serialize] and [Deserialize] of one type, through [serde_json::Value] *)
Class Serde (V T : Type) := {
  to_value : T -> option V;
  from_value : V -> option T }.
(** What the crate uses of [serde_json] and [sha2]: printing and reading values,
    the derived implementations of its records, and the lowercase hexadecimal
    form of a SHA-256 digest *)
Class Libraries := {
  Value : Type;
  to_vec : Value -> option (list N);
  from_slice : list N -> option Value;
  value_serde :: Serde Value Value;
  manifest_serde :: Serde Value Manifest;
  lock_serde :: Serde Value Lock;
  files_serde :: Serde Value (list Checksum);
  coordinate_serde :: Serde Value (string * string * PackageSource);
  sha256_hex : list N -> string }.

Definition MAX_WIRE_BYTES : N := 65536.

(** The loop of [check_depth] *)
Fixpoint check_depth_from (depth : N) (quoted escaped : bool) (input : list N) : Resolve unit :=
  match input with
  | [] => Ok tt
  | byte :: input =>
      if quoted then
        if escaped then check_depth_from depth true false input
        else if (byte =? 92)%N then check_depth_from depth true true input
        else check_depth_from depth (negb (byte =? 34)%N) false input
      else if (byte =? 34)%N then check_depth_from depth true escaped input
      else if ((byte =? 123) || (byte =? 91))%N then
        depth ← ok_or (checked_add u8_max depth 1) (package_budget_error "nesting exceeds 6");
        _ ← reject_if (6 <? depth)%N (package_budget_error "nesting exceeds 6");
        check_depth_from depth false escaped input
      else if ((byte =? 125) || (byte =? 93))%N then check_depth_from (depth - 1) false escaped input
      else check_depth_from depth false escaped input
  end.
Definition check_depth (input : list N) : Resolve unit := check_depth_from 0 false false input.

Section wire.
Context `{Libraries}.

Definition wire_encode {T} `{Serde Value T} (value : T) : Resolve (list N) :=
  value ← ok_or (to_value value) (wire_error "record cannot be serialized");
  bytes ← ok_or (to_vec value) (wire_error "record cannot be serialized");
  mret (bytes ++ [10%N]).

Definition wire_parse {T} `{Serde Value T} (input : list N) : Resolve T :=
  _ ← reject_if (MAX_WIRE_BYTES <? len input)%N (package_budget_error "wire bytes exceed 65536");
  _ ← check_depth input;
  value ← ok_or (from_slice input) (wire_error "invalid UTF-8 or JSON");
  bytes ← wire_encode value;
  _ ← reject_if (negb (bool_decide (bytes = input))) (wire_error "JSON bytes are not canonical");
  ok_or (from_value value) (schema_error "closed record schema rejected input").

Definition wire_digest {T} `{Serde Value T} (kind : string) (value : T) : Resolve string :=
  bytes ← wire_encode value;
  mret (sha256_hex (bytes_of_string "ZRYNA-PACKAGE-RELEASE-V1" ++ [0%N] ++ bytes_of_string kind ++ [0%N] ++ bytes)).
End wire.

(** ** Loading packages ([resolver.rs]) *)

Record PackageFile := mkPackageFile { pf_path : string; pf_bytes : list N }.
Record PackageMaterial := mkPackageMaterial { pm_manifest : list N; pm_files : list PackageFile }.

(** The caller's provider, with the state its [&mut self] threads *)
Class PackageSourceProvider (P : Type) := load : PackageSource -> P -> P * Resolve PackageMaterial.

Inductive LockMode := Update | Frozen (input : list N).

Record PackageInstance := mkPackageInstance { pi_id : string; pi_source_sha256 : string }.
Record ResolvedPackage := mkResolvedPackage {
  rp_instance : PackageInstance;
  rp_name : string;
  rp_version : string;
  rp_source : PackageSource;
  rp_dependencies : list (string * string) }.
Record ResolvedGraph := mkResolvedGraph {
  rg_root : string;
  rg_compatibility : Compatibility;
  rg_packages : list ResolvedPackage;
  rg_lock_bytes : list N;
  rg_lock_sha256 : string }.
Record Loaded := mkLoaded { ld_manifest : Manifest; ld_instance : PackageInstance }.
Notation LoadedMap := (gmap PackageSource Loaded).

(** [values()]: in the order of the keys *)
Definition map_values (loaded : LoadedMap) : list Loaded :=
  (sort_by (fun a b => source_leb a.1 b.1) (map_to_list loaded)).*2.

Section resolver.
Context `{Libraries}.

Definition file_differs (expected : Checksum) (actual : PackageFile) : bool :=
  negb (string_eqb (ck_path expected) (pf_path actual)) || negb (ck_size expected =? len (pf_bytes actual))%N
  || negb (string_eqb (ck_sha256 expected) (sha256_hex (pf_bytes actual))).
Definition authenticate_files (manifest : Manifest) (files : list PackageFile) : Resolve string :=
  let files := sort_by (fun a b => str_leb (pf_path a) (pf_path b)) files in
  _ ← reject_if (negb (Nat.eqb (length files) (length (mn_files manifest))))
        (source_error "source inventory is missing or contains extra files");
  _ ← try_each (fun pair => reject_if (file_differs pair.1 pair.2)
                              (source_error "source inventory bytes differ from the manifest"))
        (zip (mn_files manifest) files);
  wire_digest "source-files" (mn_files manifest).

Definition authenticate (source : PackageSource) (material : PackageMaterial) : Resolve Loaded :=
  manifest ← wire_parse (pm_manifest material);
  _ ← validate_manifest manifest;
  _ ← reject_if (negb (bool_decide (mn_source manifest = source)))
        (source_error "loaded manifest substitutes the requested source");
  id ← wire_digest "manifest" manifest;
  source_sha256 ← authenticate_files manifest (pm_files material);
  mret (mkLoaded manifest (mkPackageInstance id source_sha256)).

Context {P : Type} `{PackageSourceProvider P}.

(** The loop of [load_packages]; the head of [pending] is the top of the stack *)
Fixpoint load_loop (fuel : nat) (pending : list PackageSource) (loaded : LoadedMap) (provider : P)
    : option (P * Resolve LoadedMap) :=
  match fuel with
  | 0 => None
  | S fuel =>
      match pending with
      | [] => Some (provider, Ok loaded)
      | source :: pending =>
          if bool_decide (is_Some (loaded !! source)) then load_loop fuel pending loaded provider
          else if Nat.eqb (size loaded) 16 then Some (provider, Err (package_budget_error "package count exceeds 16"))
          else
            let '(provider, material) := load source provider in
            match (material ← material; authenticate source material) with
            | Err e => Some (provider, Err e)
            | Ok package =>
                load_loop fuel ((dp_source <$> mn_dependencies (ld_manifest package)) ++ pending)
                  (<[source := package]> loaded) provider
            end
      end
  end.
(** One step for each of the 16 packages and 8 dependencies of each, and two more *)
Definition LOAD_FUEL : nat := 130.
Definition load_packages (root_source : PackageSource) (provider : P) : option (P * Resolve LoadedMap) :=
  load_loop LOAD_FUEL [root_source] ∅ provider.

(** ** Selecting dependencies *)

Notation CoordinateIndex := (gmap (list N) (list Loaded)).
Definition incompatible (compatibility : Compatibility) (loaded : Loaded) : bool :=
  let own := mn_compatibility (ld_manifest loaded) in
  negb (string_eqb (cp_compiler own) (cp_compiler compatibility))
  || negb (string_eqb (cp_profile own) (cp_profile compatibility))
  || negb (forallb (fun target => existsb (string_eqb target) (cp_targets own)) (cp_targets compatibility)).
Fixpoint index_coordinates (compatibility : Compatibility) (index : CoordinateIndex) (l : list Loaded)
    : Resolve CoordinateIndex :=
  match l with
  | [] => Ok index
  | loaded :: l =>
      let manifest := ld_manifest loaded in
      key ← wire_encode (mn_name manifest, mn_version manifest, mn_source manifest);
      let index := partial_alter (fun entry => Some (default [] entry ++ [loaded])) key index in
      _ ← reject_if (incompatible compatibility loaded)
            (compatibility_error "dependency compiler/profile or target coverage differs from the root");
      index_coordinates compatibility index l
  end.

Definition select_dependency (index : CoordinateIndex) (dependency : Dependency) : Resolve (string * string) :=
  key ← wire_encode (dp_name dependency, dp_version dependency, dp_source dependency);
  match default [] (index !! key) with
  | [selected] => mret (dp_alias dependency, pi_id (ld_instance selected))
  | _ => Err (selection_error "exact dependency is absent or has incompatible duplicate instances")
  end.
Definition resolve_package (index : CoordinateIndex) (loaded : Loaded) : Resolve ResolvedPackage :=
  let manifest := ld_manifest loaded in
  dependencies ← mapM (select_dependency index) (mn_dependencies manifest);
  mret (mkResolvedPackage (ld_instance loaded) (mn_name manifest) (mn_version manifest) (mn_source manifest) dependencies).

(** ** The closed graph *)

Definition rp_id (package : ResolvedPackage) : string := pi_id (rp_instance package).
Definition reject_duplicate_instances (packages : list ResolvedPackage) : Resolve unit :=
  reject_if (windows2_any (fun a b => string_eqb (rp_id a) (rp_id b)
      && negb (string_eqb (pi_source_sha256 (rp_instance a)) (pi_source_sha256 (rp_instance b)))) packages)
    (identity_error "one manifest identity has incompatible source instances").

Definition by_id (packages : list ResolvedPackage) : gmap string ResolvedPackage :=
  foldl (fun m package => <[rp_id package := package]> m) ∅ packages.
(** The [while let] of [reject_cycles_and_orphans]: 1 is open, 2 is closed *)
Fixpoint graph_loop (packages : gmap string ResolvedPackage) (fuel : nat) (stack : list (string * bool))
    (state : gmap string N) : option (Resolve (gmap string N)) :=
  match fuel with
  | 0 => None
  | S fuel =>
      match stack with
      | [] => Some (Ok state)
      | (id, true) :: stack => graph_loop packages fuel stack (<[id := 2%N]> state)
      | (id, false) :: stack =>
          match default 0%N (state !! id) with
          | 1%N => Some (Err (graph_error "package dependency cycle"))
          | 2%N => graph_loop packages fuel stack state
          | _ =>
              match packages !! id with
              | None => Some (Err (graph_error "dependency edge selects an absent package"))
              | Some package =>
                  graph_loop packages fuel
                    (((fun d => (d.2, false)) <$> rp_dependencies package) ++ (id, true) :: stack)
                    (<[id := 1%N]> state)
              end
          end
      end
  end.
(** Every package is opened and closed once, and every edge is followed once *)
Definition graph_fuel (packages : list ResolvedPackage) : nat :=
  2 + sum_list ((fun package => 1 + length (rp_dependencies package)) <$> packages).
Definition closed_count (state : gmap string N) : nat := size (filter (fun e => e.2 = 2%N) state).
Definition reject_cycles_and_orphans (root : string) (packages : list ResolvedPackage) : option (Resolve unit) :=
  state ← graph_loop (by_id packages) (graph_fuel packages) [(root, false)] ∅;
  Some (state ← state;
        reject_if (negb (Nat.eqb (closed_count state) (length packages))) (graph_error "unreachable package")).

(** ** [resolve] *)

Definition lock_of (root : string) (compatibility : Compatibility) (packages : list ResolvedPackage) : Lock :=
  mkLock "zryna.lock.v1" root compatibility
    ((fun package => mkLockPackage (rp_id package) (pi_source_sha256 (rp_instance package))
        ((fun d => mkLockEdge d.1 d.2) <$> rp_dependencies package)) <$> packages).

(** The packages of the loaded sources, before the checks of the graph *)
Definition select_packages (root_source : PackageSource) (loaded : LoadedMap)
    : Resolve (string * Compatibility * list ResolvedPackage) :=
  root_loaded ← ok_or (loaded !! root_source) (selection_error "root package was not loaded");
  let compatibility := mn_compatibility (ld_manifest root_loaded) in
  index ← index_coordinates compatibility ∅ (map_values loaded);
  packages ← mapM (resolve_package index) (map_values loaded);
  let packages := sort_by (fun a b => str_leb (rp_id a) (rp_id b)) packages in
  _ ← reject_duplicate_instances packages;
  mret (pi_id (ld_instance root_loaded), compatibility, packages).

(** The lock of a checked graph, compared with a frozen one *)
Definition seal_graph (frozen : option Lock) (root : string) (compatibility : Compatibility)
    (packages : list ResolvedPackage) : Resolve ResolvedGraph :=
  let lock := lock_of root compatibility packages in
  lock_bytes ← wire_encode lock;
  _ ← reject_if (match frozen with Some frozen => negb (bool_decide (frozen = lock)) | None => false end)
        (frozen_error "frozen lock differs from the resolved graph");
  lock_sha256 ← wire_digest "lock" lock;
  mret (mkResolvedGraph root compatibility packages lock_bytes lock_sha256).

Definition link_packages (root_source : PackageSource) (loaded : LoadedMap) (frozen : option Lock)
    : option (Resolve ResolvedGraph) :=
  match select_packages root_source loaded with
  | Err e => Some (Err e)
  | Ok (root, compatibility, packages) =>
      checked ← reject_cycles_and_orphans root packages;
      Some (_ ← checked; seal_graph frozen root compatibility packages)
  end.

Definition frozen_lock (mode : LockMode) : Resolve (option Lock) :=
  match mode with
  | Update => Ok None
  | Frozen input =>
      lock ← wire_parse input;
      _ ← validate_lock_shape lock;
      mret (Some lock)
  end.

Definition package_resolve (root_source : PackageSource) (mode : LockMode) (provider : P)
    : option (P * Resolve ResolvedGraph) :=
  match (_ ← validate_source root_source; frozen_lock mode) with
  | Err e => Some (provider, Err e)
  | Ok frozen =>
      '(provider, loaded) ← load_packages root_source provider;
      match loaded with
      | Err e => Some (provider, Err e)
      | Ok loaded => r ← link_packages root_source loaded frozen; Some (provider, r)
      end
  end.
End resolver.

(** ** Semantic domains ([identity.rs]) and the source policy ([source_trust.rs]) *)

Inductive GraphRole := TargetRuntime.
Record PackageSemanticDomain := mkSemanticDomain {
  sd_role : GraphRole;
  sd_profile : string;
  sd_package : PackageInstance }.
Definition package_semantic_domain (graph : ResolvedGraph) (package_id : string) : Resolve PackageSemanticDomain :=
  package ← ok_or (find (fun package => string_eqb (rp_id package) package_id) (rg_packages graph))
              (identity_error "semantic-domain package is absent from the graph");
  mret (mkSemanticDomain TargetRuntime (cp_profile (rg_compatibility graph)) (rp_instance package)).

Inductive SourceTrustMode := PureSource | TrustedNative | UntrustedPlayground.
Definition trust_mode_as_str (mode : SourceTrustMode) : string :=
  match mode with
  | PureSource => "pure-source"
  | TrustedNative => "trusted-native"
  | UntrustedPlayground => "untrusted-playground"
  end.
Definition trust_mode_from_str (value : string) : option SourceTrustMode :=
  if string_eqb value "pure-source" then Some PureSource
  else if string_eqb value "trusted-native" then Some TrustedNative
  else if string_eqb value "untrusted-playground" then Some UntrustedPlayground
  else None.
Inductive NativeRecipeDisposition := Forbidden | RequiresApprovalAndIsolation.
Definition native_recipe_disposition (mode : SourceTrustMode) : NativeRecipeDisposition :=
  match mode with
  | PureSource | UntrustedPlayground => Forbidden
  | TrustedNative => RequiresApprovalAndIsolation
  end.
