(* ===== verification/PackageSound.v ===== *)
(** * What package resolution guarantees

    First the dependency graph: the depth-first search of
    [reject_cycles_and_orphans] ends, and accepts exactly the graphs with
    distinct identities whose packages all depend on packages of the graph, are
    reachable from the root and lie on no cycle.  Then the stages of
    [package_resolve], and resolution as a whole. *)
From stdpp Require Import base numbers strings gmap fin_maps fin_sets relations option list sorting.
From S2P Require Import Prelude Source SourceText Package.

(** ** Specification *)

Definition dependency_ids (package : ResolvedPackage) : list string := (rp_dependencies package).*2.
Definition depends (packages : list ResolvedPackage) (a b : string) : Prop :=
  exists package, package ∈ packages /\ rp_id package = a /\ b ∈ dependency_ids package.
Record closed_graph (root : string) (packages : list ResolvedPackage) : Prop := {
  cg_root : root ∈ rp_id <$> packages;
  cg_distinct : NoDup (rp_id <$> packages);
  cg_present : forall package id, package ∈ packages -> id ∈ dependency_ids package -> id ∈ rp_id <$> packages;
  cg_reachable : forall package, package ∈ packages -> rtc (depends packages) root (rp_id package);
  cg_acyclic : forall id, ~ tc (depends packages) id id }.

Lemma tc_mono {A} (R R' : A -> A -> Prop) a b : (forall a b, R a b -> R' a b) -> tc R a b -> tc R' a b.
Proof. intros HR. induction 1; [by apply tc_once, HR|]. eapply tc_l; [by apply HR|done]. Qed.
Lemma rtc_mono {A} (R R' : A -> A -> Prop) a b : (forall a b, R a b -> R' a b) -> rtc R a b -> rtc R' a b.
Proof. intros HR. induction 1; [done|]. eapply rtc_l; [by apply HR|done]. Qed.

(** ** Packages by identity *)

Lemma by_id_snoc packages package : by_id (packages ++ [package]) = <[rp_id package := package]> (by_id packages).
Proof. unfold by_id. by rewrite foldl_app. Qed.
Lemma by_id_elem packages id package : by_id packages !! id = Some package -> package ∈ packages /\ rp_id package = id.
Proof.
  induction packages as [|p packages IH] using rev_ind; [done|]. rewrite by_id_snoc, lookup_insert_Some.
  intros [[<- <-]|[_ H]]; [split; [set_solver|done]|]. apply IH in H as [? ?]. split; [set_solver|done].
Qed.
Lemma by_id_dom packages : dom (by_id packages) = list_to_set (C := gset string) (rp_id <$> packages).
Proof.
  induction packages as [|p packages IH] using rev_ind; [done|]. rewrite by_id_snoc, dom_insert_L, IH, fmap_app, list_to_set_app_L.
  set_solver.
Qed.
Lemma by_id_lookup packages package : NoDup (rp_id <$> packages) -> package ∈ packages ->
  by_id packages !! rp_id package = Some package.
Proof.
  intros Hd. induction packages as [|p packages IH] using rev_ind; [set_solver|].
  rewrite fmap_app in Hd. apply NoDup_app in Hd as (Hd & Hfresh & _). rewrite by_id_snoc.
  intros [Hin|H%list_elem_of_singleton]%elem_of_app; [|subst package; by rewrite lookup_insert_eq].
  rewrite lookup_insert_ne; [by apply IH|]. intros E. apply (Hfresh (rp_id package)); [set_solver|]. rewrite <- E. set_solver.
Qed.

Lemma list_to_set_size (l : list string) : size (list_to_set (C := gset string) l) <= length l.
Proof.
  induction l as [|x l IH]; [done|]. cbn. rewrite size_union_alt, size_singleton.
  pose proof (subseteq_size (list_to_set (C := gset string) l ∖ {[x]}) (list_to_set l) ltac:(set_solver)). lia.
Qed.
Lemma list_to_set_NoDup (l : list string) : length l <= size (list_to_set (C := gset string) l) -> NoDup l.
Proof.
  induction l as [|x l IH]; [constructor|]. cbn. intros H. pose proof (list_to_set_size l).
  destruct (decide (x ∈ l)) as [Hx|Hx].
  - exfalso. assert (E : {[x]} ∪ list_to_set (C := gset string) l = list_to_set l) by set_solver. rewrite E in H. lia.
  - constructor; [done|]. apply IH. rewrite size_union, size_singleton in H by set_solver. lia.
Qed.

(** ** The search *)

Section search.
Context (packages : list ResolvedPackage) (root : string).
Local Notation g := (by_id packages).
Definition child (a b : string) : Prop := exists package, g !! a = Some package /\ b ∈ dependency_ids package.

Lemma child_depends a b : child a b -> depends packages a b.
Proof. intros (p & [Hp <-]%by_id_elem & Hb). by exists p. Qed.

(** [closed] lists the closed packages in the order they were closed. *)
Record search_inv (stack : list (string * bool)) (state : gmap string N) (closed : list string) : Prop := {
  si_closed : forall v, state !! v = Some 2%N <-> v ∈ closed;
  si_distinct : NoDup closed;
  si_states : forall v n, state !! v = Some n -> n = 1%N \/ n = 2%N;
  si_known : forall v n, state !! v = Some n -> is_Some (g !! v);
  si_open : forall v, state !! v = Some 1%N <-> (v, true) ∈ stack;
  si_once : forall i j v, stack !! i = Some (v, true) -> stack !! j = Some (v, true) -> i = j;
  si_order : forall i v w, closed !! i = Some v -> child v w -> exists j, j < i /\ closed !! j = Some w;
  si_above : forall i v w, stack !! i = Some (v, true) -> child v w ->
    w ∈ closed \/ exists j b, j < i /\ stack !! j = Some (w, b);
  si_path : forall i j v w b, stack !! i = Some (v, true) -> stack !! j = Some (w, b) -> j < i -> tc child v w;
  si_reach : forall v, v ∈ closed \/ (exists b, (v, b) ∈ stack) -> rtc child root v;
  si_root : root ∈ closed \/ exists b, (root, b) ∈ stack }.

Lemma graph_start : search_inv [(root, false)] ∅ [].
Proof.
  assert (Hone : forall i v, [(root, false)] !! i = Some (v, true) -> False) by (intros [|[]] v; naive_solver).
  split.
  - intros v. rewrite lookup_empty. set_solver.
  - constructor.
  - intros v n. by rewrite lookup_empty.
  - intros v n. by rewrite lookup_empty.
  - intros v. rewrite lookup_empty. set_solver.
  - intros i j v H. by apply Hone in H.
  - done.
  - intros i v w H. by apply Hone in H.
  - intros i j v w b H. by apply Hone in H.
  - intros v [H|[b [= -> _]%list_elem_of_singleton]]; [set_solver|done].
  - right. exists false. set_solver.
Qed.

(** Leaving a package *)
Lemma graph_leave v stack state closed :
  search_inv ((v, true) :: stack) state closed -> search_inv stack (<[v := 2%N]> state) (closed ++ [v]).
Proof.
  intros [Hc Hd Hs Hk Ho H1 Hord Ha Hp Hr Hroot].
  assert (Hv : state !! v = Some 1%N) by (apply Ho; set_solver).
  assert (Hnv : v ∉ closed) by (rewrite <- Hc, Hv; done).
  assert (Hns : (v, true) ∉ stack).
  { intros [i Hi]%list_elem_of_lookup. by pose proof (H1 0 (S i) v eq_refl Hi). }
  split.
  - intros u. rewrite lookup_insert_Some, elem_of_app, list_elem_of_singleton, <- Hc.
    split; [naive_solver|]. intros [H| ->]; [right|by left]. split; [|done]. intros ->. congruence.
  - apply NoDup_app. split_and!; [done|set_solver|apply NoDup_singleton].
  - intros u n [[_ <-]|[_ H]]%lookup_insert_Some; [by right|eauto].
  - intros u n [[<- _]|[_ H]]%lookup_insert_Some; eauto.
  - intros u. rewrite lookup_insert_Some, Ho, elem_of_cons. split; [naive_solver|]. intros H. right.
    split; [by intros ->|by right].
  - intros i j u Hi Hj. by pose proof (H1 (S i) (S j) u Hi Hj) as [= ->].
  - intros i u w. rewrite lookup_snoc_Some. intros [[Hi Hu]|[-> <-]] Hw.
    + destruct (Hord _ _ _ Hu Hw) as (j & ? & Hj). exists j. split; [done|]. by apply lookup_app_l_Some.
    + destruct (Ha 0 v w eq_refl Hw) as [[j Hj]%list_elem_of_lookup|(j & b & ? & _)]; [|lia].
      exists j. split; [by apply lookup_lt_Some in Hj|by apply lookup_app_l_Some].
  - intros i u w Hi Hw. destruct (Ha (S i) u w Hi Hw) as [?|(j & b & ? & Hj)]; [left; set_solver|].
    destruct j as [|j]; [injection Hj as <- <-; left; set_solver|]. right. exists j, b. split; [lia|done].
  - intros i j u w b Hi Hj ?. apply (Hp (S i) (S j) u w b Hi Hj). lia.
  - intros u [[?|E%list_elem_of_singleton]%elem_of_app|[b ?]]; apply Hr; [by left|right; exists true; set_solver|right; exists b; set_solver].
  - destruct Hroot as [?|[b [[= -> ->]|?]%elem_of_cons]]; [left; set_solver|left; set_solver|right; by exists b].
Qed.

(** An entry whose package is closed *)
Lemma graph_skip v stack state closed :
  search_inv ((v, false) :: stack) state closed -> state !! v = Some 2%N -> search_inv stack state closed.
Proof.
  intros [Hc Hd Hs Hk Ho H1 Hord Ha Hp Hr Hroot] Hv. split; [done..| | | | | | |].
  - intros u. rewrite Ho, elem_of_cons. naive_solver.
  - intros i j u Hi Hj. by pose proof (H1 (S i) (S j) u Hi Hj) as [= ->].
  - done.
  - intros i u w Hi Hw. destruct (Ha (S i) u w Hi Hw) as [?|(j & b & ? & Hj)]; [by left|].
    destruct j as [|j]; [injection Hj as <- <-; left; by apply Hc|]. right. exists j, b. split; [lia|done].
  - intros i j u w b Hi Hj ?. apply (Hp (S i) (S j) u w b Hi Hj). lia.
  - intros u [?|[b ?]]; apply Hr; [by left|right; exists b; set_solver].
  - destruct Hroot as [?|[b [[= -> ->]|?]%elem_of_cons]]; [by left|left; by apply Hc|right; by exists b].
Qed.

(** An entry whose package is open closes a cycle *)
Lemma graph_cycle v stack state closed :
  search_inv ((v, false) :: stack) state closed -> state !! v = Some 1%N -> rtc child root v /\ tc child v v.
Proof.
  intros [Hc Hd Hs Hk Ho H1 Hord Ha Hp Hr Hroot] Hv. split.
  - apply Hr. right. exists false. set_solver.
  - apply Ho in Hv. apply elem_of_cons in Hv as [?|[i Hi]%list_elem_of_lookup]; [done|].
    apply (Hp (S i) 0 v v false Hi eq_refl). lia.
Qed.

(** Opening a package pushes its dependencies above its leave marker. *)
Lemma lookup_enter (ids : list string) v below i u b :
  (((fun d => (d, false)) <$> ids) ++ (v, true) :: below) !! i = Some (u, b) ->
  (i < length ids /\ b = false /\ u ∈ ids) \/ (i = length ids /\ u = v /\ b = true) \/
  (exists k, i = S (length ids + k) /\ below !! k = Some (u, b)).
Proof.
  rewrite lookup_app_Some, length_fmap, list_lookup_fmap, fmap_Some. intros [(d & Hd & [= -> ->])|[Hi H]].
  - left. split_and!; [by apply lookup_lt_Some in Hd|done|by apply list_elem_of_lookup_2 in Hd].
  - right. destruct (i - length ids) as [|k] eqn:E; cbn in H; [left; injection H as <- <-; split_and!; [lia|done..]|].
    right. exists k. split; [lia|done].
Qed.
Lemma enter_child (ids : list string) v below d : d ∈ ids ->
  exists i, i < length ids /\ (((fun d => (d, false)) <$> ids) ++ (v, true) :: below) !! i = Some (d, false).
Proof.
  intros [i Hi]%list_elem_of_lookup. exists i. pose proof (lookup_lt_Some _ _ _ Hi). split; [done|].
  apply lookup_app_l_Some. by rewrite list_lookup_fmap, Hi.
Qed.
Lemma enter_marker (ids : list string) v below :
  (((fun d => (d, false)) <$> ids) ++ (v, true) :: below) !! length ids = Some (v, true).
Proof. rewrite lookup_app_r by (by rewrite length_fmap). by rewrite length_fmap, Nat.sub_diag. Qed.
Lemma enter_below (ids : list string) v below k :
  (((fun d => (d, false)) <$> ids) ++ (v, true) :: below) !! S (length ids + k) = below !! k.
Proof.
  rewrite lookup_app_r by (rewrite length_fmap; lia). rewrite length_fmap.
  by replace (S (length ids + k) - length ids) with (S k) by lia.
Qed.

Lemma graph_enter v package stack state closed :
  search_inv ((v, false) :: stack) state closed -> state !! v = None -> g !! v = Some package ->
  search_inv (((fun d => (d, false)) <$> dependency_ids package) ++ (v, true) :: stack) (<[v := 1%N]> state) closed.
Proof.
  intros [Hc Hd Hs Hk Ho H1 Hord Ha Hp Hr Hroot] Hv Hg. set (ids := dependency_ids package).
  assert (Hchild : forall w, w ∈ ids -> child v w) by (intros w Hw; by exists package).
  assert (Hns : forall k, stack !! k <> Some (v, true)).
  { intros k Hk'. assert (Hin : (v, true) ∈ (v, false) :: stack) by (right; by eapply list_elem_of_lookup_2).
    apply Ho in Hin. congruence. }
  assert (Hrv : rtc child root v) by (apply Hr; right; exists false; set_solver).
  split; [|done| | | | |done| | | |].
  - intros u. rewrite lookup_insert_Some, <- Hc. naive_solver.
  - intros u n [[_ <-]|[_ H]]%lookup_insert_Some; [by left|eauto].
  - intros u n [[<- _]|[_ H]]%lookup_insert_Some; eauto.
  - intros u. rewrite lookup_insert_Some, Ho, elem_of_app, !elem_of_cons, list_elem_of_fmap. split.
    + intros [[<- _]|[? [[= ? ?]|?]]]; auto.
    + intros [(d & [=] & _)|[[= ->]|H]]; [by left|]. right. split; [|by right].
      intros ->. apply list_elem_of_lookup in H as [k Hk']. by eapply Hns.
  - intros i j u Hi Hj. apply lookup_enter in Hi as [(_ & [=] & _)|[(-> & -> & _)|(k & -> & Hi)]];
      apply lookup_enter in Hj as [(_ & [=] & _)|[(-> & E & _)|(l & -> & Hj)]]; [done| |subst u; by apply Hns in Hi|].
    + by apply Hns in Hj.
    + by pose proof (H1 (S k) (S l) u Hi Hj) as [= ->].
  - intros i u w Hi Hw. apply lookup_enter in Hi as [(_ & [=] & _)|[(-> & -> & _)|(k & -> & Hi)]].
    + destruct Hw as (p & Hgp & Hwp). rewrite Hg in Hgp. injection Hgp as <-.
      destruct (enter_child ids v stack w Hwp) as (j & ? & Hj). right. by exists j, false.
    + destruct (Ha (S k) u w Hi Hw) as [?|(j & b & ? & Hj)]; [by left|]. right.
      destruct j as [|j]; [injection Hj as <- <-; exists (length ids), true; split; [lia|apply enter_marker]|].
      exists (S (length ids + j)), b. split; [lia|by rewrite enter_below].
  - intros i j u w b Hi Hj Hlt.
    apply lookup_enter in Hi as [(_ & [=] & _)|[(-> & -> & _)|(k & -> & Hi)]];
      apply lookup_enter in Hj as [(_ & _ & Hw)|[(-> & -> & _)|(l & -> & Hj)]]; try lia.
    + by apply tc_once, Hchild.
    + assert (tc child u v) by (apply (Hp (S k) 0 u v false Hi eq_refl); lia). eapply tc_r; [done|by apply Hchild].
    + apply (Hp (S k) 0 u v false Hi eq_refl). lia.
    + apply (Hp (S k) (S l) u w b Hi Hj). lia.
  - intros u [H|[b H]]; [apply Hr; by left|]. apply elem_of_app in H as [H|[[= -> ->]|H]%elem_of_cons]; [|done|].
    + apply list_elem_of_fmap in H as (d & [= -> ->] & Hdd). eapply rtc_r; [done|by apply Hchild].
    + apply Hr. right. exists b. set_solver.
  - destruct Hroot as [?|[b [[= -> ->]|?]%elem_of_cons]]; [by left|right; exists true; set_solver|right; exists b; set_solver].
Qed.

(** ** Termination *)

(** What remains: the stack, and the packages not yet opened *)
Definition weight (state : gmap string N) (p : ResolvedPackage) : nat :=
  if bool_decide (state !! rp_id p = None) then 1 + length (rp_dependencies p) else 0.
Definition unopened (l : list ResolvedPackage) (state : gmap string N) : nat := sum_list (weight state <$> l).
Lemma unopened_cons p l state : unopened (p :: l) state = weight state p + unopened l state.
Proof. done. Qed.
Lemma weight_insert p state v n : weight (<[v := n]> state) p <= weight state p.
Proof.
  unfold weight. destruct (decide (rp_id p = v)) as [<-|Hne].
  - rewrite bool_decide_false by (by rewrite lookup_insert_eq). lia.
  - by rewrite lookup_insert_ne by done.
Qed.
Lemma unopened_insert l state v n : unopened l (<[v := n]> state) <= unopened l state.
Proof.
  induction l as [|p l IH]; [done|]. rewrite !unopened_cons. pose proof (weight_insert p state v n). lia.
Qed.
Lemma unopened_enter l state p n : p ∈ l -> state !! rp_id p = None ->
  1 + length (rp_dependencies p) + unopened l (<[rp_id p := n]> state) <= unopened l state.
Proof.
  intros Hp Hs. induction l as [|q l IH]; [set_solver|]. rewrite !unopened_cons. apply elem_of_cons in Hp as [<-|Hp].
  - pose proof (unopened_insert l state (rp_id p) n). unfold weight.
    rewrite (bool_decide_true _ Hs), bool_decide_false by (by rewrite lookup_insert_eq). lia.
  - specialize (IH Hp). pose proof (weight_insert q state (rp_id p) n). lia.
Qed.
Lemma unopened_start : 1 + unopened packages ∅ < graph_fuel packages.
Proof.
  unfold unopened, graph_fuel. assert (E : forall p, weight ∅ p = 1 + length (rp_dependencies p)).
  { intros p. unfold weight. by rewrite bool_decide_true. }
  rewrite (list_fmap_ext (weight ∅) (fun p => 1 + length (rp_dependencies p))) by (intros; apply E). lia.
Qed.

(** ** The run of the search *)

Lemma graph_loop_run fuel : forall stack state closed,
  search_inv stack state closed -> length stack + unopened packages state < fuel ->
  exists r, graph_loop g fuel stack state = Some r /\
    match r with
    | Ok state => exists closed, search_inv [] state closed
    | Err e => exists v, rtc child root v /\
        (e = graph_error "package dependency cycle" /\ tc child v v \/
         e = graph_error "dependency edge selects an absent package" /\ g !! v = None)
    end.
Proof.
  induction fuel as [|fuel IH]; intros stack state closed Hi Hf; [lia|]. cbn [graph_loop].
  destruct stack as [|[v [|]] stack]; [by exists (Ok state); eauto| |].
  - apply (IH _ _ (closed ++ [v])); [by apply graph_leave|]. cbn [length] in Hf. pose proof (unopened_insert packages state v 2). lia.
  - destruct (state !! v) as [n|] eqn:E; cbn [default].
    + destruct (si_states _ _ _ Hi v n E) as [-> | ->].
      * eexists. split; [done|]. exists v. destruct (graph_cycle _ _ _ _ Hi E). auto.
      * apply (IH _ _ closed); [by eapply graph_skip|cbn [length] in Hf; lia].
    + destruct (g !! v) as [p|] eqn:Eg.
      * destruct (by_id_elem _ _ _ Eg) as [Hp <-]. replace ((fun d => (d.2, false)) <$> rp_dependencies p)
          with ((fun d : string => (d, false)) <$> dependency_ids p) by (unfold dependency_ids; by rewrite <- list_fmap_compose).
        apply (IH _ _ closed); [by apply graph_enter|]. pose proof (unopened_enter packages state p 1 Hp E).
        cbn [length] in Hf. rewrite length_app, length_fmap. unfold dependency_ids. rewrite length_fmap. cbn [length]. lia.
      * eexists. split; [done|]. exists v. split; [|by right].
        apply (si_reach _ _ _ Hi). right. exists false. set_solver.
Qed.
End search.

(** ** Exactness *)

(** A finished search: the closed packages, in an order that has every package
    after its dependencies *)
Lemma finished_closed packages root state closed v w :
  search_inv packages root [] state closed -> v ∈ closed -> rtc (child packages) v w -> w ∈ closed.
Proof.
  intros Hi Hv Hr. induction Hr as [|v u w Hvu _ IH]; [done|]. apply IH.
  apply list_elem_of_lookup in Hv as [i Hv]. destruct (si_order _ _ _ _ _ Hi i v u Hv Hvu) as (j & _ & Hj).
  by eapply list_elem_of_lookup_2.
Qed.
Lemma finished_order packages root state closed i v w :
  search_inv packages root [] state closed -> closed !! i = Some v -> tc (child packages) v w ->
  exists j, j < i /\ closed !! j = Some w.
Proof.
  intros Hi Hv Ht. revert i Hv. induction Ht as [v w Hvw|v u w Hvu _ IH]; intros i Hv; [by eapply si_order|].
  destruct (si_order _ _ _ _ _ Hi i v u Hv Hvu) as (j & ? & Hj). destruct (IH j Hj) as (k & ? & Hk).
  exists k. split; [lia|done].
Qed.
Lemma finished_acyclic packages root state closed v :
  search_inv packages root [] state closed -> v ∈ closed -> ~ tc (child packages) v v.
Proof.
  intros Hi [i Hv]%list_elem_of_lookup Ht. destruct (finished_order _ _ _ _ _ _ _ Hi Hv Ht) as (j & ? & Hj).
  pose proof (NoDup_lookup _ _ _ _ (si_distinct _ _ _ _ _ Hi) Hv Hj). lia.
Qed.
Lemma finished_root packages root state closed : search_inv packages root [] state closed -> root ∈ closed.
Proof. intros Hi. destruct (si_root _ _ _ _ _ Hi) as [?|[b H]]; [done|]. set_solver. Qed.
Lemma finished_count packages root state closed :
  search_inv packages root [] state closed -> closed_count state = length closed.
Proof.
  intros Hi. unfold closed_count. rewrite <- (size_dom (D := gset string)).
  rewrite <- (size_list_to_set (C := gset string) closed) by apply Hi. f_equal. apply set_eq. intros v.
  rewrite elem_of_list_to_set, <- (si_closed _ _ _ _ _ Hi), elem_of_dom. unfold is_Some. setoid_rewrite map_lookup_filter_Some.
  naive_solver.
Qed.
Lemma finished_known packages root state closed v : search_inv packages root [] state closed -> v ∈ closed -> is_Some (by_id packages !! v).
Proof. intros Hi Hv. eapply si_known; [done|]. by apply (si_closed _ _ _ _ _ Hi). Qed.

(** As many closed packages as packages: identities are distinct and all closed. *)
Lemma finished_all packages root state closed : search_inv packages root [] state closed ->
  length closed = length packages -> NoDup (rp_id <$> packages) /\ forall v, v ∈ closed <-> v ∈ rp_id <$> packages.
Proof.
  intros Hi Hl. set (ids := rp_id <$> packages).
  assert (Hsub : list_to_set (C := gset string) closed ⊆ list_to_set ids).
  { intros v. rewrite elem_of_list_to_set. intros Hv. destruct (finished_known _ _ _ _ _ Hi Hv) as [p Hp].
    apply by_id_elem in Hp as [Hp <-]. rewrite elem_of_list_to_set. by apply list_elem_of_fmap_2. }
  assert (Hsize : length ids <= size (list_to_set (C := gset string) closed)).
  { rewrite size_list_to_set by apply Hi. unfold ids. rewrite length_fmap. lia. }
  split; [apply list_to_set_NoDup; pose proof (subseteq_size _ _ Hsub); lia|]. intros v.
  pose proof (list_to_set_size ids). rewrite <- !(elem_of_list_to_set (C := gset string)).
  assert (E : list_to_set (C := gset string) closed ≡ list_to_set ids); [|by rewrite E].
  apply set_subseteq_size_equiv; [done|lia].
Qed.

Lemma child_iff packages a b : NoDup (rp_id <$> packages) -> child packages a b <-> depends packages a b.
Proof.
  intros Hd. split; [apply child_depends|]. intros (p & Hp & <- & Hb). exists p. split; [by apply by_id_lookup|done].
Qed.

Lemma graph_accepts packages root state closed : search_inv packages root [] state closed ->
  length closed = length packages -> closed_graph root packages.
Proof.
  intros Hi Hl. destruct (finished_all _ _ _ _ Hi Hl) as [Hd Hall].
  assert (Hch : forall a b, depends packages a b -> child packages a b) by (intros; by apply child_iff).
  split.
  - apply Hall. by eapply finished_root.
  - done.
  - intros p id Hp Hid. apply Hall. eapply (finished_closed _ _ _ _ (rp_id p)); [done| |].
    + apply Hall. by apply list_elem_of_fmap_2.
    + apply rtc_once, Hch. by exists p.
  - intros p Hp. eapply (rtc_mono (child packages)); [apply child_depends|].
    apply (si_reach _ _ _ _ _ Hi). left. apply Hall. by apply list_elem_of_fmap_2.
  - intros id Ht. assert (Hc : tc (child packages) id id) by (eapply tc_mono; [|done]; exact Hch).
    assert (Hid : id ∈ closed).
    { apply tc_rtc in Hc as Hr. inversion Ht as [? ? (p & Hp & <- & _)|? ? ? (p & Hp & <- & _)];
        apply Hall; by apply list_elem_of_fmap_2. }
    by eapply finished_acyclic.
Qed.

Lemma graph_complete packages root state closed : search_inv packages root [] state closed ->
  closed_graph root packages -> length closed = length packages.
Proof.
  intros Hi [_ Hd _ Hr _]. rewrite <- (length_fmap rp_id packages). apply Permutation_length, NoDup_Permutation; [apply Hi|done|].
  intros v. split.
  - intros Hv. destruct (finished_known _ _ _ _ _ Hi Hv) as [p [Hp <-]%by_id_elem]. by apply list_elem_of_fmap_2.
  - intros (p & -> & Hp)%list_elem_of_fmap. eapply finished_closed; [done|by eapply finished_root|].
    eapply rtc_mono; [|by apply Hr]. intros ? ? ?. by apply child_iff.
Qed.

(** The check ends; it accepts closed graphs, and a cycle it reports exists. *)
Lemma graph_check_run root packages :
  exists r, reject_cycles_and_orphans root packages = Some r /\ (r = Ok tt <-> closed_graph root packages) /\
    (r = Err (graph_error "package dependency cycle") -> exists id, rtc (depends packages) root id /\ tc (depends packages) id id).
Proof.
  destruct (graph_loop_run packages root (graph_fuel packages) [(root, false)] ∅ []) as (r & E & Hr);
    [apply graph_start|apply unopened_start|].
  unfold reject_cycles_and_orphans. rewrite E. eexists. split; [done|]. destruct r as [state|e].
  - destruct Hr as [closed Hi]. cbn. rewrite (finished_count _ _ _ _ Hi). unfold reject_if.
    destruct (Nat.eqb_spec (length closed) (length packages)) as [Hl|Hl]; cbn.
    + split; [|done]. split; [|done]. intros _. by eapply graph_accepts.
    + split; [|done]. split; [done|]. intros Hg. by pose proof (graph_complete _ _ _ _ Hi Hg).
  - cbn. destruct Hr as (v & Hv & He). assert (Hsub : forall a b, child packages a b -> depends packages a b) by apply child_depends.
    assert (Hv' : rtc (depends packages) root v) by (eapply rtc_mono; [|done]; exact Hsub). split.
    + split; [done|]. intros [Hroot Hd Hp Hr Ha]. exfalso. destruct He as [[_ Ht]|[_ Hn]].
      * apply (Ha v). eapply tc_mono; [|done]. exact Hsub.
      * assert (Hin : v ∈ rp_id <$> packages).
        { apply rtc_inv_r in Hv' as [<-|(u & _ & (p & Hp' & _ & Hc))]; [done|by eapply Hp]. }
        apply list_elem_of_fmap in Hin as (p & -> & Hin). by rewrite (by_id_lookup _ _ Hd Hin) in Hn.
    + intros [= ->]. exists v. split; [done|]. destruct He as [[_ Ht]|[Heq _]]; [eapply tc_mono; [|done]; exact Hsub|discriminate].
Qed.

(** * What package resolution guarantees

    Through the stages of [package_resolve]: the checks of records, the wire
    form under the laws of the libraries, the loop that loads packages, and the
    selection of dependencies; then resolution as a whole, with and without a
    frozen lock. *)

(** ** Checks *)

Lemma reject_if_ok b e : reject_if b e = Ok tt <-> b = false.
Proof. by destruct b. Qed.
Lemma bind_unit_ok {A} (m : Resolve unit) (f : unit -> Resolve A) a : m ≫= f = Ok a <-> m = Ok tt /\ f tt = Ok a.
Proof. rewrite bind_ok. split; [by intros [[] ?]|]. intros [? ?]. by exists tt. Qed.
Lemma try_each_ok {A} (f : A -> Resolve unit) l : try_each f l = Ok tt <-> Forall (fun x => f x = Ok tt) l.
Proof.
  induction l as [|x l IH]; [by split|]. cbn [try_each]. rewrite Forall_cons, bind_unit_ok. by rewrite IH.
Qed.
Lemma ok_or_ok {E A} (o : option A) (e : E) a : ok_or o e = Ok a <-> o = Some a.
Proof. destruct o; cbn; naive_solver. Qed.
Lemma string_eqb_eq s t : string_eqb s t = true <-> s = t.
Proof. apply bool_decide_eq_true. Qed.
Lemma string_eqb_neq s t : negb (string_eqb s t) = false <-> s = t.
Proof. rewrite negb_false_iff. apply string_eqb_eq. Qed.

(** Strictly increasing texts *)
Definition str_lt (s t : string) : Prop := str_leb t s = false.
#[export] Instance str_lt_trans : Transitive str_lt.
Proof.
  intros s t u. unfold str_lt. intros H1 H2. apply not_true_iff_false. intros H.
  destruct (str_leb_total s t) as [Hst|]; [|congruence]. pose proof (str_leb_trans _ _ _ H Hst). congruence.
Qed.
Lemma str_lt_irrefl s : ~ str_lt s s.
Proof. unfold str_lt. destruct (str_leb_total s s); congruence. Qed.
Lemma windows2_any_sorted {A} (f : A -> A -> bool) l :
  windows2_any f l = false <-> Sorted (fun a b => f a b = false) l.
Proof.
  induction l as [|x [|y l] IH]; [by split; [constructor|]|split; [by repeat constructor|done]|].
  change (windows2_any f (x :: y :: l)) with (f x y || windows2_any f (y :: l)). rewrite orb_false_iff, IH. split.
  - intros [? ?]. constructor; [done|by constructor].
  - intros H. inversion H as [|? ? Hs Hh]. inversion Hh. done.
Qed.
Lemma windows2_keys {A} (key : A -> string) l :
  windows2_any (fun a b => str_leb (key b) (key a)) l = false <-> StronglySorted str_lt (key <$> l).
Proof.
  rewrite windows2_any_sorted. split.
  - intros H. apply Sorted_StronglySorted; [apply _|]. induction H as [|x l _ IH Hx]; [constructor|]. cbn.
    constructor; [done|]. destruct Hx; by constructor.
  - intros H%StronglySorted_Sorted. induction l as [|x l IH]; [constructor|]. cbn in H. inversion H as [|? ? Hs Hh].
    constructor; [by apply IH|]. destruct l; [constructor|]. inversion Hh. by constructor.
Qed.
Lemma sorted_distinct l : StronglySorted str_lt l -> NoDup l.
Proof.
  induction 1 as [|x l _ IH Hx]; [constructor|]. constructor; [|done]. intros Hin.
  rewrite Forall_forall in Hx. by apply (str_lt_irrefl x), Hx.
Qed.
Lemma distinct_sorted l : StronglySorted (fun s t => str_leb s t = true) l -> NoDup l -> StronglySorted str_lt l.
Proof.
  induction 1 as [|x l _ IH Hx]; [constructor|]. intros [Hn Hd]%NoDup_cons. constructor; [by apply IH|].
  rewrite Forall_forall in Hx |- *. intros y Hy. unfold str_lt. apply not_true_iff_false. intros H.
  apply Hn. by rewrite (str_leb_antisym _ _ (Hx y Hy) H).
Qed.

(** What the rest needs of an accepted manifest *)
Record manifest_facts (manifest : Manifest) : Prop := {
  mfa_compatible : validate_compatibility (mn_compatibility manifest) = Ok tt;
  mfa_count : length (mn_dependencies manifest) <= 8;
  mfa_aliases : StronglySorted str_lt (dp_alias <$> mn_dependencies manifest);
  mfa_names : Forall (fun d => validate_name (dp_alias d) = Ok tt) (mn_dependencies manifest) }.
Lemma validate_manifest_facts manifest : validate_manifest manifest = Ok tt -> manifest_facts manifest.
Proof.
  unfold validate_manifest, strictly_ordered. rewrite !bind_unit_ok, !reject_if_ok, !try_each_ok.
  intros (_ & _ & _ & _ & Hc & _ & Hn & _ & Ha & _ & _ & Hd). split.
  - done.
  - apply N.ltb_ge in Hn. unfold len in Hn. lia.
  - by apply windows2_keys.
  - eapply Forall_impl; [exact Hd|]. intros d. unfold validate_dependency. rewrite bind_unit_ok. tauto.
Qed.

(** ** The wire form *)

(** What the documentation of the libraries says: reading a printed value, or the
    value of a record, gives it back, and a digest is hexadecimal *)
Class LibraryLaws `{Libraries} : Prop := {
  from_slice_to_vec : forall v bytes, to_vec v = Some bytes -> from_slice (bytes ++ [10%N]) = Some v;
  to_value_value : forall v : Value, to_value v = Some v;
  from_value_lock : forall (x : Lock) v, to_value x = Some v -> from_value v = Some x;
  from_value_coordinate : forall (x : string * string * PackageSource) v, to_value x = Some v -> from_value v = Some x;
  sha256_hex_digest : forall bytes, is_digest (sha256_hex bytes) = true }.

Section wire.
Context `{LB : Libraries} {Laws : LibraryLaws}.

Lemma wire_encode_ok {T} `{Serde Value T} (x : T) bytes : wire_encode x = Ok bytes <->
  exists v b, to_value x = Some v /\ to_vec v = Some b /\ bytes = b ++ [10%N].
Proof.
  unfold wire_encode. rewrite bind_ok. setoid_rewrite bind_ok. setoid_rewrite ok_or_ok. split.
  - intros (v & ? & b & ? & [= <-]). eauto.
  - intros (v & b & ? & ? & ->). eauto 6.
Qed.
Lemma wire_encode_coordinate (x y : string * string * PackageSource) bytes :
  wire_encode x = Ok bytes -> wire_encode y = Ok bytes -> x = y.
Proof.
  rewrite !wire_encode_ok. intros (v & b & Hv & Hb & ->) (w & c & Hw & Hc & E).
  apply app_inj_tail in E as [<- _].
  pose proof (from_slice_to_vec _ _ Hb) as E1. rewrite (from_slice_to_vec _ _ Hc) in E1. injection E1 as <-.
  pose proof (from_value_coordinate _ _ Hv) as E2. rewrite (from_value_coordinate _ _ Hw) in E2. by injection E2.
Qed.
Lemma wire_digest_ok {T} `{Serde Value T} kind (x : T) d : wire_digest kind x = Ok d -> is_digest d = true.
Proof. unfold wire_digest. rewrite bind_ok. intros (? & _ & [= <-]). apply sha256_hex_digest. Qed.

(** A lock within the limits of the wire reads back from its bytes. *)
Definition within_wire (bytes : list N) : Prop := (len bytes <= MAX_WIRE_BYTES)%N /\ check_depth bytes = Ok tt.
Lemma wire_parse_lock (lock : Lock) bytes : wire_encode lock = Ok bytes -> within_wire bytes -> wire_parse bytes = Ok lock.
Proof.
  intros (v & b & Hv & Hb & ->)%wire_encode_ok [Hlen Hdepth]. unfold wire_parse.
  rewrite bind_unit_ok, reject_if_ok, N.ltb_ge. split; [done|]. rewrite bind_unit_ok. split; [done|].
  rewrite bind_ok. exists v. rewrite ok_or_ok, bind_ok. split; [by apply from_slice_to_vec|]. exists (b ++ [10%N]).
  rewrite wire_encode_ok, bind_unit_ok, reject_if_ok, negb_false_iff, bool_decide_eq_true, ok_or_ok.
  split; [|split; [done|by apply from_value_lock]]. exists v, b. by rewrite to_value_value.
Qed.
End wire.

(** ** Loading *)

Section loading.
Context `{Libraries} {P : Type} `{PackageSourceProvider P}.

(** Some call of the provider for the source returned what was authenticated. *)
Definition authentic (source : PackageSource) (loaded : Loaded) : Prop :=
  exists provider material, (load source provider).2 = Ok material /\ authenticate source material = Ok loaded.

Lemma authenticate_ok source material loaded : authenticate source material = Ok loaded ->
  wire_parse (pm_manifest material) = Ok (ld_manifest loaded) /\ validate_manifest (ld_manifest loaded) = Ok tt /\
  mn_source (ld_manifest loaded) = source /\ wire_digest "manifest" (ld_manifest loaded) = Ok (pi_id (ld_instance loaded)) /\
  authenticate_files (ld_manifest loaded) (pm_files material) = Ok (pi_source_sha256 (ld_instance loaded)).
Proof.
  unfold authenticate. intros (manifest & Hp & (Hv & (Hs & E)%bind_unit_ok)%bind_unit_ok)%bind_ok.
  apply reject_if_ok, negb_false_iff, bool_decide_eq_true in Hs.
  apply bind_ok in E as (id & Hid & (sha & Hf & [= <-])%bind_ok). done.
Qed.
Lemma authentic_facts source loaded : authentic source loaded ->
  manifest_facts (ld_manifest loaded) /\ mn_source (ld_manifest loaded) = source.
Proof. intros (p & m & _ & (_ & Hv & Hs & _)%authenticate_ok). split; [by apply validate_manifest_facts|done]. Qed.

Definition dependency_sources (loaded : Loaded) : list PackageSource := dp_source <$> mn_dependencies (ld_manifest loaded).
Record loading (root : PackageSource) (pending : list PackageSource) (loaded : LoadedMap) : Prop := {
  lg_authentic : forall source l, loaded !! source = Some l -> authentic source l;
  lg_size : size loaded <= 16;
  lg_root : is_Some (loaded !! root) \/ root ∈ pending;
  lg_dependencies : forall source l d, loaded !! source = Some l -> d ∈ dependency_sources l ->
    is_Some (loaded !! d) \/ d ∈ pending }.

Lemma loading_start root : loading root [root] ∅.
Proof. split; [done|rewrite map_size_empty; lia|right; set_solver|done]. Qed.
Lemma loading_skip root source pending loaded :
  loading root (source :: pending) loaded -> is_Some (loaded !! source) -> loading root pending loaded.
Proof.
  intros [Ha Hs Hr Hd] Hin. split; [done|done| |].
  - destruct Hr as [?|[->|?]%elem_of_cons]; auto.
  - intros s l d Hl Hdl. destruct (Hd s l d Hl Hdl) as [?|[->|?]%elem_of_cons]; auto.
Qed.
Lemma loading_step root source pending loaded l :
  loading root (source :: pending) loaded -> loaded !! source = None -> size loaded <> 16 -> authentic source l ->
  loading root (dependency_sources l ++ pending) (<[source := l]> loaded).
Proof.
  intros [Ha Hs Hr Hd] Hn Hsize Hl. split.
  - intros s k [[<- <-]|[_ Hk]]%lookup_insert_Some; eauto.
  - rewrite map_size_insert_None by done. lia.
  - destruct Hr as [?|[->|?]%elem_of_cons]; [left; by apply lookup_insert_is_Some'; right|left; by rewrite lookup_insert_eq|right; set_solver].
  - intros s k d [[<- <-]|[_ Hk]]%lookup_insert_Some Hdk; [right; set_solver|].
    destruct (Hd s k d Hk Hdk) as [?|[->|?]%elem_of_cons];
      [left; by apply lookup_insert_is_Some'; right|left; by rewrite lookup_insert_eq|right; set_solver].
Qed.

Lemma load_loop_run root fuel : forall pending loaded provider,
  loading root pending loaded -> length pending + 8 * (16 - size loaded) < fuel ->
  exists provider' r, load_loop fuel pending loaded provider = Some (provider', r) /\
    forall loaded', r = Ok loaded' -> loading root [] loaded'.
Proof.
  induction fuel as [|fuel IH]; intros pending loaded provider Hl Hf; [lia|]. cbn [load_loop].
  destruct pending as [|source pending].
  { eexists _, _. split; [done|]. by intros ? [= <-]. }
  cbn [length] in Hf. case_bool_decide as Hin.
  { apply IH; [by eapply loading_skip|lia]. }
  destruct (Nat.eqb_spec (size loaded) 16) as [?|Hsize].
  { eexists _, _. split; [done|]. by intros ? [=]. }
  destruct (load source provider) as [provider' r] eqn:E.
  destruct (r ≫= (fun material => authenticate source material)) as [l|e] eqn:El; [|eexists _, _; split; [done|]; by intros ? [=]].
  apply bind_ok in El as (material & -> & El).
  assert (Ha : authentic source l) by (exists provider, material; by rewrite E).
  assert (Hn : loaded !! source = None) by (by apply eq_None_not_Some).
  apply IH; [by apply loading_step|]. rewrite map_size_insert_None by done.
  pose proof (mfa_count _ (proj1 (authentic_facts _ _ Ha))). pose proof (lg_size _ _ _ Hl).
  rewrite length_app, length_fmap. lia.
Qed.
Lemma load_packages_run root provider :
  exists provider' r, load_packages root provider = Some (provider', r) /\ forall loaded, r = Ok loaded -> loading root [] loaded.
Proof. apply load_loop_run; [apply loading_start|]. rewrite map_size_empty. unfold LOAD_FUEL. cbn. lia. Qed.
End loading.

(** ** Selection *)

Lemma mapM_ok {A B} (f : A -> Resolve B) l k : mapM f l = Ok k <-> Forall2 (fun x y => f x = Ok y) l k.
Proof.
  revert k. induction l as [|x l IH]; intros k; cbn.
  { split; [intros [= <-]; constructor|by intros ->%Forall2_nil_inv_l]. }
  rewrite bind_ok. split.
  - intros (y & Hy & (k' & Hk & [= <-])%bind_ok). constructor; [done|by apply IH].
  - intros H. inversion H as [|? y ? k' Hy Hk]. subst. exists y. split; [done|]. apply bind_ok. exists k'.
    split; [by apply IH|done].
Qed.

Lemma map_values_elem (loaded : LoadedMap) l : l ∈ map_values loaded <-> exists source, loaded !! source = Some l.
Proof.
  unfold map_values. rewrite list_elem_of_fmap. setoid_rewrite sort_by_perm. split.
  - intros ([s k] & -> & H%elem_of_map_to_list). by exists s.
  - intros [s H]. exists (s, l). split; [done|by apply elem_of_map_to_list].
Qed.
Lemma map_values_length (loaded : LoadedMap) : length (map_values loaded) = size loaded.
Proof. unfold map_values. rewrite length_fmap, sort_by_perm. apply length_map_to_list. Qed.

Section selection.
Context `{LB : Libraries} {Laws : LibraryLaws}.

Definition coordinate (l : Loaded) : string * string * PackageSource :=
  (mn_name (ld_manifest l), mn_version (ld_manifest l), mn_source (ld_manifest l)).

Lemma index_coordinates_ok compatibility l : forall index index',
  index_coordinates compatibility index l = Ok index' ->
  Forall (fun x => incompatible compatibility x = false) l /\
  forall key x, x ∈ default [] (index' !! key) ->
    x ∈ default [] (index !! key) \/ x ∈ l /\ wire_encode (coordinate x) = Ok key.
Proof.
  induction l as [|y l IH]; intros index index'; cbn [index_coordinates].
  { intros [= <-]. split; [constructor|]. auto. }
  intros (key & Hkey & [Hy%reject_if_ok Hrest]%bind_unit_ok)%bind_ok. destruct (IH _ _ Hrest) as [Hall Hin].
  split; [by constructor|]. intros k x Hx. destruct (Hin k x Hx) as [Hx'|[Hx' ?]]; [|right; split; [by right|done]].
  destruct (decide (k = key)) as [Hk|Hne]; [subst k|].
  - rewrite lookup_partial_alter_eq in Hx'. cbn in Hx'.
    apply elem_of_app in Hx' as [?|E%list_elem_of_singleton]; [by left|right]. subst x. split; [by left|done].
  - rewrite lookup_partial_alter_ne in Hx' by done. by left.
Qed.

(** The package a dependency selects, and the edge that records it *)
Definition selects (loaded : LoadedMap) (d : Dependency) (edge : string * string) : Prop :=
  edge.1 = dp_alias d /\ exists l, loaded !! dp_source d = Some l /\
    mn_name (ld_manifest l) = dp_name d /\ mn_version (ld_manifest l) = dp_version d /\ edge.2 = pi_id (ld_instance l).
Record describes (loaded : LoadedMap) (l : Loaded) (package : ResolvedPackage) : Prop := {
  ds_instance : rp_instance package = ld_instance l;
  ds_name : rp_name package = mn_name (ld_manifest l);
  ds_version : rp_version package = mn_version (ld_manifest l);
  ds_source : rp_source package = mn_source (ld_manifest l);
  ds_dependencies : Forall2 (selects loaded) (mn_dependencies (ld_manifest l)) (rp_dependencies package) }.

Lemma select_dependency_ok compatibility loaded index d edge :
  (forall source l, loaded !! source = Some l -> mn_source (ld_manifest l) = source) ->
  index_coordinates compatibility ∅ (map_values loaded) = Ok index ->
  select_dependency index d = Ok edge -> selects loaded d edge.
Proof.
  intros Hs Hi (key & Hkey & Hsel)%bind_ok. destruct (default [] (index !! key)) as [|l [|]] eqn:E; [done| |done].
  injection Hsel as <-. destruct (index_coordinates_ok _ _ _ _ Hi) as [_ Hin].
  destruct (Hin key l) as [Hl|[[source Hl]%map_values_elem Hl']]; [rewrite E; set_solver|by rewrite lookup_empty in Hl; set_solver|].
  pose proof (wire_encode_coordinate _ _ _ Hl' Hkey) as Hc. injection Hc as Hn Hv Hsrc.
  split; [done|]. exists l. rewrite <- Hsrc, (Hs _ _ Hl). done.
Qed.
Lemma resolve_package_ok compatibility loaded index l package :
  (forall source l, loaded !! source = Some l -> mn_source (ld_manifest l) = source) ->
  index_coordinates compatibility ∅ (map_values loaded) = Ok index ->
  resolve_package index l = Ok package -> describes loaded l package.
Proof.
  intros Hs Hi (deps & Hd%mapM_ok & [= <-])%bind_ok. split; [done..|]. cbn.
  eapply Forall2_impl; [exact Hd|]. intros. by eapply select_dependency_ok.
Qed.

Record selected (root_source : PackageSource) (loaded : LoadedMap) (root : string) (compatibility : Compatibility)
    (packages : list ResolvedPackage) : Prop := {
  se_root : exists l, loaded !! root_source = Some l /\ root = pi_id (ld_instance l) /\
    compatibility = mn_compatibility (ld_manifest l);
  se_compatible : forall source l, loaded !! source = Some l -> incompatible compatibility l = false;
  se_packages : exists unsorted, packages ≡ₚ unsorted /\ Forall2 (describes loaded) (map_values loaded) unsorted;
  se_sorted : StronglySorted (fun s t => str_leb s t = true) (rp_id <$> packages) }.

Lemma sorted_ids packages :
  StronglySorted (fun s t => str_leb s t = true) (rp_id <$> sort_by (fun a b => str_leb (rp_id a) (rp_id b)) packages).
Proof.
  assert (H : StronglySorted (fun a b => str_leb (rp_id a) (rp_id b) = true)
                (sort_by (fun a b => str_leb (rp_id a) (rp_id b)) packages)).
  { apply (sort_by_sorted (fun a b => str_leb (rp_id a) (rp_id b))); [intros; apply str_leb_total|intros ?????; by eapply str_leb_trans]. }
  induction H as [|x l _ IH Hx]; [constructor|]. cbn. constructor; [done|]. by apply Forall_fmap.
Qed.

Lemma select_packages_ok root_source loaded root compatibility packages :
  (forall source l, loaded !! source = Some l -> mn_source (ld_manifest l) = source) ->
  select_packages root_source loaded = Ok (root, compatibility, packages) ->
  selected root_source loaded root compatibility packages.
Proof.
  intros Hs (l & Hl%ok_or_ok & (index & Hi & (unsorted & Hu%mapM_ok & [_ E]%bind_unit_ok)%bind_ok)%bind_ok)%bind_ok.
  injection E as <- <- <-. split.
  - by exists l.
  - intros source k Hk. destruct (index_coordinates_ok _ _ _ _ Hi) as [Hall _]. rewrite Forall_forall in Hall.
    apply Hall, map_values_elem. by exists source.
  - exists unsorted. split; [apply sort_by_perm|]. eapply Forall2_impl; [exact Hu|]. intros. by eapply resolve_package_ok.
  - apply sorted_ids.
Qed.
Lemma selected_elem root_source loaded root compatibility packages package :
  selected root_source loaded root compatibility packages -> package ∈ packages ->
  exists source l, loaded !! source = Some l /\ describes loaded l package.
Proof.
  intros [_ _ (unsorted & Hp & Hf) _]. rewrite Hp. intros [i Hi]%list_elem_of_lookup.
  destruct (Forall2_lookup_r _ _ _ _ _ Hf Hi) as (l & Hl & Hd). apply list_elem_of_lookup_2, map_values_elem in Hl as [source ?].
  by exists source, l.
Qed.
Lemma selected_find root_source loaded root compatibility packages source l :
  selected root_source loaded root compatibility packages -> loaded !! source = Some l ->
  exists package, package ∈ packages /\ describes loaded l package.
Proof.
  intros [_ _ (unsorted & Hp & Hf) _] Hl. assert (Hin : l ∈ map_values loaded) by (apply map_values_elem; by exists source).
  apply list_elem_of_lookup in Hin as [i Hi]. destruct (Forall2_lookup_l _ _ _ _ _ Hf Hi) as (p & Hp' & Hd).
  exists p. rewrite Hp. split; [by eapply list_elem_of_lookup_2|done].
Qed.
Lemma selected_length root_source loaded root compatibility packages :
  selected root_source loaded root compatibility packages -> length packages = size loaded.
Proof.
  intros [_ _ (unsorted & Hp & Hf) _]. by rewrite Hp, <- (Forall2_length _ _ _ Hf), map_values_length.
Qed.
End selection.

(** ** Resolution *)

(** The edge that records a dependency leads to the package it names. *)
Definition edge_selects (packages : list ResolvedPackage) (d : Dependency) (edge : string * string) : Prop :=
  edge.1 = dp_alias d /\ exists q, q ∈ packages /\ rp_id q = edge.2 /\ rp_source q = dp_source d /\
    rp_name q = dp_name d /\ rp_version q = dp_version d.
Definition graph_lock (graph : ResolvedGraph) : Lock :=
  lock_of (rg_root graph) (rg_compatibility graph) (rg_packages graph).

Section resolution.
Context `{LB : Libraries} {Laws : LibraryLaws} {P : Type} `{PR : PackageSourceProvider P}.

(** A package and the material it was authenticated from *)
Definition package_ok (graph : ResolvedGraph) (package : ResolvedPackage) : Prop :=
  exists l, authentic (rp_source package) l /\ rp_instance package = ld_instance l /\
    rp_name package = mn_name (ld_manifest l) /\ rp_version package = mn_version (ld_manifest l) /\
    incompatible (rg_compatibility graph) l = false /\
    Forall2 (edge_selects (rg_packages graph)) (mn_dependencies (ld_manifest l)) (rp_dependencies package).
Record resolved (root_source : PackageSource) (graph : ResolvedGraph) : Prop := {
  rs_closed : closed_graph (rg_root graph) (rg_packages graph);
  rs_sorted : StronglySorted str_lt (rp_id <$> rg_packages graph);
  rs_bound : length (rg_packages graph) <= 16;
  rs_root : exists p, p ∈ rg_packages graph /\ rp_id p = rg_root graph /\ rp_source p = root_source;
  rs_compatibility : validate_compatibility (rg_compatibility graph) = Ok tt;
  rs_sources : NoDup (rp_source <$> rg_packages graph);
  rs_packages : Forall (package_ok graph) (rg_packages graph);
  rs_lock : wire_encode (graph_lock graph) = Ok (rg_lock_bytes graph);
  rs_digest : wire_digest "lock" (graph_lock graph) = Ok (rg_lock_sha256 graph) }.

Lemma seal_graph_ok frozen root compatibility packages graph :
  seal_graph frozen root compatibility packages = Ok graph <->
  (forall lock, frozen = Some lock -> lock = graph_lock graph) /\
  rg_root graph = root /\ rg_compatibility graph = compatibility /\ rg_packages graph = packages /\
  wire_encode (graph_lock graph) = Ok (rg_lock_bytes graph) /\ wire_digest "lock" (graph_lock graph) = Ok (rg_lock_sha256 graph).
Proof.
  unfold seal_graph. split.
  - intros (bytes & Hb & (Hf%reject_if_ok & (digest & Hd & [= <-])%bind_ok)%bind_unit_ok)%bind_ok.
    split_and!; [|done..]. intros lock ->. by apply negb_false_iff, bool_decide_eq_true in Hf.
  - destruct graph as [root' compatibility' packages' bytes digest]. cbn. intros (Hf & -> & -> & -> & Hb & Hd).
    apply bind_ok. exists bytes. split; [done|]. apply bind_unit_ok. split; [|apply bind_ok; by exists digest].
    apply reject_if_ok. destruct frozen as [lock|]; [|done]. apply negb_false_iff, bool_decide_eq_true. by apply Hf.
Qed.

Lemma link_packages_ok root_source loaded frozen graph :
  link_packages root_source loaded frozen = Some (Ok graph) <->
  select_packages root_source loaded = Ok (rg_root graph, rg_compatibility graph, rg_packages graph) /\
  closed_graph (rg_root graph) (rg_packages graph) /\
  seal_graph frozen (rg_root graph) (rg_compatibility graph) (rg_packages graph) = Ok graph.
Proof.
  unfold link_packages. destruct (select_packages root_source loaded) as [[[root compatibility] packages]|e]; [|split; [done|by intros [? _]]].
  destruct (graph_check_run root packages) as (r & -> & Hr & _). cbn [mbind option_bind]. split.
  - intros [= (-> & Hg)%bind_unit_ok]. pose proof Hg as (_ & E1 & E2 & E3 & _)%seal_graph_ok. rewrite E1, E2, E3.
    split; [done|]. split; [by apply Hr|done].
  - intros ([= -> -> ->] & Hc & Hg). f_equal. apply bind_unit_ok. split; [by apply Hr|done].
Qed.

Lemma package_resolve_ok root_source mode provider provider' graph :
  package_resolve root_source mode provider = Some (provider', Ok graph) <->
  exists frozen loaded, validate_source root_source = Ok tt /\ frozen_lock mode = Ok frozen /\
    load_packages root_source provider = Some (provider', Ok loaded) /\
    link_packages root_source loaded frozen = Some (Ok graph).
Proof.
  unfold package_resolve. split.
  - destruct (validate_source root_source ≫= _) as [frozen|e] eqn:E; [|done]. apply bind_unit_ok in E as [Hv Hf].
    destruct (load_packages root_source provider) as [[p r]|]; [|done]. cbn. destruct r as [loaded|e]; [|done].
    destruct (link_packages root_source loaded frozen) as [r|] eqn:El; [|done]. intros [= <- ->]. by exists frozen, loaded.
  - intros (frozen & loaded & -> & -> & -> & El). cbn. by rewrite El.
Qed.

(** Resolution always returns. *)
Lemma package_resolve_total root_source mode provider : is_Some (package_resolve root_source mode provider).
Proof.
  unfold package_resolve. destruct (validate_source root_source ≫= _) as [frozen|e]; [|done].
  destruct (load_packages_run root_source provider) as (p & r & -> & _). cbn. destruct r as [loaded|e]; [|done].
  unfold link_packages. destruct (select_packages root_source loaded) as [[[root compatibility] packages]|e]; [|done].
  destruct (graph_check_run root packages) as (r & -> & _). done.
Qed.

Lemma loaded_sources root_source loaded : loading root_source [] loaded ->
  forall source l, loaded !! source = Some l -> mn_source (ld_manifest l) = source.
Proof. intros Hl source l H. by apply authentic_facts, (lg_authentic _ _ _ Hl). Qed.

Lemma selected_sources root_source loaded root compatibility packages : loading root_source [] loaded ->
  selected root_source loaded root compatibility packages -> NoDup (rp_source <$> packages).
Proof.
  intros Hl [_ _ (unsorted & Hu & Hf) _]. rewrite Hu.
  assert (E : rp_source <$> unsorted = (fun l => mn_source (ld_manifest l)) <$> map_values loaded).
  { clear -Hf. induction Hf as [|l p ls ps [] _ IH]; [done|]. cbn. by f_equal. }
  rewrite E. unfold map_values. rewrite <- list_fmap_compose, sort_by_perm.
  rewrite (list_fmap_ext _ fst); [apply NoDup_fst_map_to_list|]. intros i [s l] Hi%list_elem_of_lookup_2%elem_of_map_to_list.
  cbn. by apply (loaded_sources _ _ Hl).
Qed.

Lemma selected_edges root_source loaded root compatibility packages d edge : loading root_source [] loaded ->
  selected root_source loaded root compatibility packages -> selects loaded d edge -> edge_selects packages d edge.
Proof.
  intros Hl Hs (Ha & l & Hd & Hn & Hv & Hid). split; [done|].
  destruct (selected_find _ _ _ _ _ _ _ Hs Hd) as (q & Hq & [Hi Hqn Hqv Hqs _]). exists q. split; [done|].
  unfold rp_id. rewrite Hi, Hqs, Hqn, Hqv, (loaded_sources _ _ Hl _ _ Hd). done.
Qed.

Lemma package_resolve_resolved root_source mode provider provider' graph :
  package_resolve root_source mode provider = Some (provider', Ok graph) -> resolved root_source graph.
Proof.
  intros (frozen & loaded & _ & _ & Hload & (Hsel & Hclosed & Hseal)%link_packages_ok)%package_resolve_ok.
  destruct (load_packages_run root_source provider) as (p & r & E & Hr). rewrite E in Hload. injection Hload as -> ->.
  pose proof (Hr _ eq_refl) as Hl. clear E Hr. apply (select_packages_ok _ _ _ _ _ (loaded_sources _ _ Hl)) in Hsel.
  apply seal_graph_ok in Hseal as (_ & _ & _ & _ & Hlock & Hdigest).
  destruct (se_root _ _ _ _ _ Hsel) as (l & Hroot & Eroot & Ecompat).
  split; [done| | | | | | |done..].
  - apply distinct_sorted; [apply Hsel|apply Hclosed].
  - rewrite (selected_length _ _ _ _ _ Hsel). apply Hl.
  - destruct (selected_find _ _ _ _ _ _ _ Hsel Hroot) as (q & Hq & [Hi _ _ Hqs _]). exists q. split; [done|].
    unfold rp_id. by rewrite Hi, Hqs, Eroot, (loaded_sources _ _ Hl _ _ Hroot).
  - rewrite Ecompat. apply mfa_compatible. by apply (authentic_facts root_source), (lg_authentic _ _ _ Hl).
  - by eapply selected_sources.
  - apply Forall_forall. intros q Hq. destruct (selected_elem _ _ _ _ _ _ Hsel Hq) as (source & k & Hk & [Hi Hn Hv Hs Hd]).
    exists k. rewrite Hs, (loaded_sources _ _ Hl _ _ Hk). split; [by apply (lg_authentic _ _ _ Hl)|]. split_and!; [done..| |].
    + by eapply se_compatible.
    + eapply Forall2_impl; [exact Hd|]. intros. by eapply selected_edges.
Qed.

(** ** Frozen locks *)

Lemma frozen_resolution root_source input provider provider' graph :
  package_resolve root_source (Frozen input) provider = Some (provider', Ok graph) <->
  package_resolve root_source Update provider = Some (provider', Ok graph) /\
  frozen_lock (Frozen input) = Ok (Some (graph_lock graph)).
Proof.
  rewrite !package_resolve_ok. split.
  - intros (frozen & loaded & Hv & Hf & Hload & (Hsel & Hc & Hseal)%link_packages_ok).
    pose proof Hf as (lock & Hp & [Hshape [= <-]]%bind_unit_ok)%bind_ok.
    apply seal_graph_ok in Hseal as (Hlock & Hrest). split.
    + exists None, loaded. split_and!; [done..|]. apply link_packages_ok. split_and!; [done..|]. by apply seal_graph_ok.
    + rewrite Hf. by rewrite (Hlock lock eq_refl).
  - intros [(frozen & loaded & Hv & [= <-] & Hload & (Hsel & Hc & Hseal)%link_packages_ok) Hf].
    exists (Some (graph_lock graph)), loaded. split_and!; [done..|]. apply link_packages_ok. split_and!; [done..|].
    apply seal_graph_ok in Hseal as (_ & Hrest). apply seal_graph_ok. split; [by intros lock [= <-]|done].
Qed.

Lemma lock_package_ok graph package : package_ok graph package ->
  Forall (package_ok graph) (rg_packages graph) ->
  validate_lock_package (mkLockPackage (rp_id package) (pi_source_sha256 (rp_instance package))
    ((fun d => mkLockEdge d.1 d.2) <$> rp_dependencies package)) = Ok tt.
Proof.
  assert (Hdig : forall q, package_ok graph q -> is_digest (rp_id q) = true /\ is_digest (pi_source_sha256 (rp_instance q)) = true).
  { intros q (l & (p & m & _ & (_ & _ & _ & Hid & Hfiles)%authenticate_ok) & Hi & _). unfold rp_id. rewrite Hi.
    split; [exact (wire_digest_ok _ _ _ Hid)|]. revert Hfiles. unfold authenticate_files.
    intros (_ & (_ & Hd)%bind_unit_ok)%bind_unit_ok. exact (wire_digest_ok _ _ _ Hd). }
  intros Hp Hall. destruct (Hdig _ Hp) as [H1 H2]. destruct Hp as (l & Ha & _ & _ & _ & _ & Hd).
  destruct (authentic_facts _ _ Ha) as [[_ Hcount Haliases Hnames] _].
  unfold validate_lock_package. cbn. rewrite H1, H2. rewrite !bind_unit_ok, !reject_if_ok, try_each_ok. split_and!; [done| | |].
  - apply N.ltb_ge. unfold len. rewrite length_fmap, <- (Forall2_length _ _ _ Hd). lia.
  - apply windows2_keys. rewrite <- list_fmap_compose. cbn.
    assert (E : (fun x : string * string => x.1) <$> rp_dependencies package = dp_alias <$> mn_dependencies (ld_manifest l)).
    { clear -Hd. induction Hd as [|d e ds es [E _] _ IH]; [done|]. cbn. by f_equal. }
    unfold compose. cbn. by rewrite E.
  - apply Forall_fmap, Forall_forall. intros e [i He]%list_elem_of_lookup.
    destruct (Forall2_lookup_r _ _ _ _ _ Hd He) as (d & Hdi & Ealias & q & Hq & Eid & _). cbn. apply bind_unit_ok.
    rewrite reject_if_ok, negb_false_iff, Ealias, <- Eid. rewrite Forall_forall in Hall. rewrite Forall_forall in Hnames. split.
    + apply Hnames. by eapply list_elem_of_lookup_2.
    + by apply Hdig, Hall.
Qed.

Lemma lock_shape root_source graph : resolved root_source graph -> validate_lock_shape (graph_lock graph) = Ok tt.
Proof.
  intros [Hc Hs Hb (p & Hp & Eroot & _) Hcompat _ Hall _ _]. unfold validate_lock_shape, graph_lock, lock_of. cbn.
  rewrite !bind_unit_ok, !reject_if_ok, try_each_ok. split_and!.
  - rewrite <- Eroot. rewrite Forall_forall in Hall. destruct (Hall p Hp) as (l & (? & m & _ & (_ & _ & _ & Hid & _)%authenticate_ok) & Hi & _).
    unfold rp_id. rewrite Hi, (wire_digest_ok _ _ _ Hid). done.
  - done.
  - destruct (rg_packages graph) as [|q l]; [set_solver|]. cbn. apply N.ltb_ge. cbn in Hb. unfold len. cbn. rewrite length_fmap. lia.
  - apply windows2_keys. rewrite <- list_fmap_compose. done.
  - apply Forall_fmap. rewrite Forall_forall in Hall |- *. intros q Hq. cbn. apply (lock_package_ok graph); [by apply Hall|by apply Forall_forall].
Qed.

(** The lock a resolution returns replays it. *)
Lemma frozen_replay root_source provider provider' graph :
  package_resolve root_source Update provider = Some (provider', Ok graph) -> within_wire (rg_lock_bytes graph) ->
  package_resolve root_source (Frozen (rg_lock_bytes graph)) provider = Some (provider', Ok graph).
Proof.
  intros H Hw. apply frozen_resolution. split; [done|]. pose proof (package_resolve_resolved _ _ _ _ _ H) as Hr.
  cbn. apply bind_ok. exists (graph_lock graph). split; [by apply wire_parse_lock; [apply Hr|]|].
  apply bind_unit_ok. split; [by eapply lock_shape|done].
Qed.
End resolution.
