(* ===== verification/PackageTheorems.v ===== *)
(** * Theorems about package resolution

    What a resolved graph guarantees, how frozen locks replay, that resolution
    always returns, and that the files of a manifest form a tree; with witnesses
    on a project of two packages and a concrete wire format. *)
From Stdlib Require Import Ascii.
From stdpp Require Import base numbers strings gmap fin_maps relations option sorting list.
From S2P Require Import Prelude Source SourceText Package PackageSound.

(** ** A concrete wire format

    A value is written as a string of small numbers that reads back. *)

Module Wire.
Record Codec (A : Type) := mkCodec {
  write : A -> list N -> list N;
  read : list N -> option (A * list N);
  read_write : forall a rest, read (write a rest) = Some (a, rest) }.
Arguments write {A} c a rest.
Arguments read {A} c bytes.
Arguments read_write {A} c a rest.

Definition byte_codec : Codec Ascii.ascii.
Proof.
  refine (mkCodec _ (fun a rest => byte_of a :: rest)
    (fun bytes => match bytes with b :: rest => Some (Ascii.ascii_of_N b, rest) | [] => None end) _).
  intros a rest. unfold byte_of. by rewrite Ascii.ascii_N_embedding.
Defined.

Fixpoint write_positive (p : positive) (rest : list N) : list N :=
  match p with xH => 2%N :: rest | xO p => 0%N :: write_positive p rest | xI p => 1%N :: write_positive p rest end.
Fixpoint read_positive (bytes : list N) : option (positive * list N) :=
  match bytes with
  | 0%N :: bytes => '(p, rest) ← read_positive bytes; Some (xO p, rest)
  | 1%N :: bytes => '(p, rest) ← read_positive bytes; Some (xI p, rest)
  | 2%N :: rest => Some (xH, rest)
  | _ => None
  end.
Definition nat_codec : Codec N.
Proof.
  refine (mkCodec _ (fun n rest => write_positive (N.succ_pos n) rest)
    (fun bytes => '(p, rest) ← read_positive bytes; Some (Pos.pred_N p, rest)) _).
  intros n rest. assert (E : forall p, read_positive (write_positive p rest) = Some (p, rest)).
  { induction p as [p IH|p IH|]; cbn; [by rewrite IH|by rewrite IH|done]. }
  rewrite E. cbn. by rewrite N.pos_pred_succ.
Defined.

Definition pair_codec {A B} (ca : Codec A) (cb : Codec B) : Codec (A * B).
Proof.
  refine (mkCodec _ (fun x rest => write ca x.1 (write cb x.2 rest))
    (fun bytes => '(a, bytes) ← read ca bytes; '(b, rest) ← read cb bytes; Some ((a, b), rest)) _).
  intros [a b] rest. cbn. rewrite read_write. cbn. by rewrite read_write.
Defined.
Definition map_codec {A B} (f : A -> B) (g : B -> A) (Hg : forall b, f (g b) = b) (c : Codec A) : Codec B.
Proof.
  refine (mkCodec _ (fun b rest => write c (g b) rest) (fun bytes => '(a, rest) ← read c bytes; Some (f a, rest)) _).
  intros b rest. rewrite read_write. cbn. by rewrite Hg.
Defined.

(** Each element after a 1, and a 0 at the end *)
Fixpoint write_list {A} (c : Codec A) (l : list A) (rest : list N) : list N :=
  match l with [] => 0%N :: rest | x :: l => 1%N :: write c x (write_list c l rest) end.
Fixpoint read_list {A} (c : Codec A) (fuel : nat) (bytes : list N) : option (list A * list N) :=
  match fuel, bytes with
  | _, 0%N :: rest => Some ([], rest)
  | S fuel, 1%N :: bytes =>
      '(x, bytes) ← read c bytes; '(l, rest) ← read_list c fuel bytes; Some (x :: l, rest)
  | _, _ => None
  end.
Definition list_codec {A} (c : Codec A) : Codec (list A).
Proof.
  refine (mkCodec _ (fun l rest => write nat_codec (N.of_nat (length l)) (write_list c l rest))
    (fun bytes => '(n, bytes) ← read nat_codec bytes; read_list c (N.to_nat n) bytes) _).
  intros l rest. rewrite read_write. cbn [mbind option_bind]. rewrite Nat2N.id.
  induction l as [|x l IH]; [done|]. cbn. rewrite read_write. cbn [mbind option_bind]. by rewrite IH.
Defined.
Definition string_codec : Codec string :=
  map_codec String.string_of_list_ascii String.list_ascii_of_string String.string_of_list_ascii_of_string (list_codec byte_codec).

Definition source_codec : Codec PackageSource.
Proof.
  refine (map_codec (fun t : N * (string * string) => mkPackageSource (if N.eqb t.1 0 then KGit else KLocal) t.2.1 t.2.2)
    (fun s => (match ps_kind s with KGit => 0 | KLocal => 1 end, (ps_locator s, ps_revision s))%N) _
    (pair_codec nat_codec (pair_codec string_codec string_codec))).
  by intros [[] ? ?].
Defined.
Definition compatibility_codec : Codec Compatibility.
Proof.
  refine (map_codec (fun t : string * (string * list string) => mkCompatibility t.1 t.2.1 t.2.2)
    (fun c => (cp_compiler c, (cp_profile c, cp_targets c))) _
    (pair_codec string_codec (pair_codec string_codec (list_codec string_codec)))).
  by intros [].
Defined.
Definition checksum_codec : Codec Checksum.
Proof.
  refine (map_codec (fun t : string * (N * string) => mkChecksum t.1 t.2.1 t.2.2)
    (fun c => (ck_path c, (ck_size c, ck_sha256 c))) _ (pair_codec string_codec (pair_codec nat_codec string_codec))).
  by intros [].
Defined.
Definition dependency_codec : Codec Dependency.
Proof.
  refine (map_codec (fun t : string * (string * (string * PackageSource)) => mkDependency t.1 t.2.1 t.2.2.1 t.2.2.2)
    (fun d => (dp_alias d, (dp_name d, (dp_version d, dp_source d)))) _
    (pair_codec string_codec (pair_codec string_codec (pair_codec string_codec source_codec)))).
  by intros [].
Defined.
Definition manifest_codec : Codec Manifest.
Proof.
  refine (map_codec
    (fun t : (string * (string * string)) * (PackageSource * (Compatibility * (list Checksum * list Dependency))) =>
       mkManifest t.1.1 t.1.2.1 t.1.2.2 t.2.1 t.2.2.1 t.2.2.2.1 t.2.2.2.2)
    (fun m => ((mn_format m, (mn_name m, mn_version m)),
               (mn_source m, (mn_compatibility m, (mn_files m, mn_dependencies m))))) _
    (pair_codec (pair_codec string_codec (pair_codec string_codec string_codec))
       (pair_codec source_codec (pair_codec compatibility_codec
          (pair_codec (list_codec checksum_codec) (list_codec dependency_codec)))))).
  by intros [].
Defined.
Definition edge_codec : Codec LockEdge.
Proof.
  refine (map_codec (fun t : string * string => mkLockEdge t.1 t.2) (fun e => (lk_alias e, lk_package e)) _
    (pair_codec string_codec string_codec)).
  by intros [].
Defined.
Definition lock_package_codec : Codec LockPackage.
Proof.
  refine (map_codec (fun t : string * (string * list LockEdge) => mkLockPackage t.1 t.2.1 t.2.2)
    (fun p => (lp_id p, (lp_source_sha256 p, lp_dependencies p))) _
    (pair_codec string_codec (pair_codec string_codec (list_codec edge_codec)))).
  by intros [].
Defined.
Definition lock_codec : Codec Lock.
Proof.
  refine (map_codec (fun t : (string * string) * (Compatibility * list LockPackage) => mkLock t.1.1 t.1.2 t.2.1 t.2.2)
    (fun l => ((lo_format l, lo_root l), (lo_compatibility l, lo_packages l))) _
    (pair_codec (pair_codec string_codec string_codec) (pair_codec compatibility_codec (list_codec lock_package_codec)))).
  by intros [].
Defined.
Definition coordinate_codec : Codec (string * string * PackageSource) :=
  pair_codec (pair_codec string_codec string_codec) source_codec.

(** The documents of the contract *)
Inductive Document :=
  | DManifest (m : Manifest)
  | DLock (l : Lock)
  | DFiles (l : list Checksum)
  | DCoordinate (c : string * string * PackageSource).
Definition write_document (d : Document) : list N :=
  match d with
  | DManifest m => 0%N :: write manifest_codec m []
  | DLock l => 1%N :: write lock_codec l []
  | DFiles l => 2%N :: write (list_codec checksum_codec) l []
  | DCoordinate c => 3%N :: write coordinate_codec c []
  end.
Definition read_document (bytes : list N) : option Document :=
  match bytes with
  | 0%N :: bytes => '(m, _) ← read manifest_codec bytes; Some (DManifest m)
  | 1%N :: bytes => '(l, _) ← read lock_codec bytes; Some (DLock l)
  | 2%N :: bytes => '(l, _) ← read (list_codec checksum_codec) bytes; Some (DFiles l)
  | 3%N :: bytes => '(c, _) ← read coordinate_codec bytes; Some (DCoordinate c)
  | _ => None
  end.
Lemma read_write_document d : read_document (write_document d) = Some d.
Proof. destruct d; cbn [read_document write_document]; by rewrite read_write. Qed.

(** A digest: 64 hexadecimal digits of a polynomial in the bytes *)
Definition hex_of (n : N) : Ascii.ascii := Ascii.ascii_of_N (if (n <? 10)%N then 48 + n else 87 + n).
Fixpoint hex_digits (count : nat) (n : N) : string :=
  match count with 0 => EmptyString | S count => String (hex_of (n mod 16)) (hex_digits count (n / 16)) end.
Definition digest (bytes : list N) : string :=
  hex_digits 64 (foldl (fun h b => (h * 65599 + b + 1) mod 4294967291)%N 7%N bytes).
Lemma hex_of_digit n : (n < 16)%N -> lower_hex_digit (hex_of n) = true.
Proof.
  intros H. assert (Hn : n ∈ N.of_nat <$> seq 0 16).
  { apply list_elem_of_fmap. exists (N.to_nat n). split; [by rewrite N2Nat.id|]. apply elem_of_seq. lia. }
  clear H. revert n Hn. apply Forall_forall. by repeat constructor.
Qed.
Lemma hex_digits_hex count n : str_all lower_hex_digit (hex_digits count n) = true.
Proof.
  revert n. induction count as [|count IH]; intros n; [done|]. cbn [hex_digits str_all].
  rewrite IH, hex_of_digit; [done|]. by apply N.mod_lt.
Qed.
Lemma hex_digits_length count n : String.length (hex_digits count n) = count.
Proof. revert n. induction count as [|count IH]; intros n; cbn; [done|]. by rewrite IH. Qed.

#[global] Instance libraries : Libraries := {
  Value := Document;
  to_vec d := Some (write_document d);
  from_slice bytes := read_document (take (length bytes - 1) bytes);
  value_serde := {| to_value d := Some d; from_value d := Some d |};
  manifest_serde := {| to_value m := Some (DManifest m); from_value d := match d with DManifest m => Some m | _ => None end |};
  lock_serde := {| to_value l := Some (DLock l); from_value d := match d with DLock l => Some l | _ => None end |};
  files_serde := {| to_value l := Some (DFiles l); from_value d := match d with DFiles l => Some l | _ => None end |};
  coordinate_serde := {| to_value c := Some (DCoordinate c); from_value d := match d with DCoordinate c => Some c | _ => None end |};
  sha256_hex := digest }.
#[global] Instance laws : LibraryLaws.
Proof.
  split.
  - intros v bytes [= <-]. cbn [from_slice libraries]. rewrite length_app, Nat.add_sub. rewrite take_app_length. apply read_write_document.
  - done.
  - by intros x v [= <-].
  - by intros x v [= <-].
  - intros bytes. cbn [sha256_hex libraries]. unfold digest, is_digest, slen. by rewrite hex_digits_length, hex_digits_hex.
Qed.
End Wire.

(** ** An application and its library *)

Module PackageSample.
Definition content : list N := bytes_of_string "export function value(): i32 { return 1; }".
Definition app : PackageSource := mkPackageSource KLocal "packages/app" "".
Definition library : PackageSource := mkPackageSource KGit "https://example.org/zryna/library.git"
  "0123456789abcdef0123456789abcdef01234567".
Definition compatibility : Compatibility := mkCompatibility "0.1.0" "control-flow-v1" ["javascript"; "webassembly"].
Definition manifest (source : PackageSource) (name : string) (dependencies : list Dependency) : Manifest :=
  mkManifest "zryna.package.v1" name "1.0.0" source compatibility
    [mkChecksum "src/main.zry" (len content) (sha256_hex content)] dependencies.
Definition app_manifest : Manifest := manifest app "app" [mkDependency "math" "library" "1.0.0" library].
Definition material (m : Manifest) : PackageMaterial :=
  mkPackageMaterial (Wire.write_document (Wire.DManifest m) ++ [10%N]) [mkPackageFile "src/main.zry" content].

(** A provider that counts its calls *)
#[global] Instance provider : PackageSourceProvider nat := fun source calls =>
  (S calls,
   if bool_decide (source = app) then Ok (material app_manifest)
   else if bool_decide (source = library) then Ok (material (manifest library "library" []))
   else Err (source_error "fixture source is absent")).

Notation run := (package_resolve app Update 0).
End PackageSample.

(** ** Resolution *)



(** C14: The check of the dependency graph always ends, accepts exactly the closed
    graphs (distinct identities, no absent dependency, every package reachable from
    the root, no cycle), and reports a cycle only when the root reaches one. *)
Theorem graph_check_exact root packages :
  exists r, reject_cycles_and_orphans root packages = Some r /\ (r = Ok tt <-> closed_graph root packages) /\
    (r = Err (graph_error "package dependency cycle") ->
     exists id, rtc (depends packages) root id /\ tc (depends packages) id id).
Proof. apply graph_check_run. Qed.

(** C33: Resolution returns for every provider and every input: the loading loop ends
    within the steps of 16 packages of 8 dependencies, and so does the check of the
    graph. *)
Theorem package_resolution_total `{LB : Libraries} {P : Type} `{PR : PackageSourceProvider P} root_source mode provider :
  is_Some (package_resolve root_source mode provider).
Proof. apply package_resolve_total. Qed.

(** ** The files of a manifest *)


(** ** The files of a manifest *)

Lemma append_cons (a : ascii) s t : String a s +:+ t = String a (s +:+ t).
Proof. done. Qed.
Lemma append_char (s : string) a t : s +:+ String a t = (s +:+ String a EmptyString) +:+ t.
Proof. induction s as [|b s IH]; [done|]. by rewrite !append_cons, IH. Qed.
Lemma append_empty (s : string) : s +:+ EmptyString = s.
Proof. induction s as [|b s IH]; [done|]. by rewrite append_cons, IH. Qed.
Lemma directories_elem d rest : forall before, before +:+ d ∈ path_directories before (d +:+ String "/"%char rest).
Proof.
  induction d as [|a d IH]; intros before.
  - rewrite append_empty. change (EmptyString +:+ String "/"%char rest) with (String "/"%char rest). cbn. by left.
  - rewrite append_cons. cbn [path_directories]. apply elem_of_app. right. rewrite append_char. apply IH.
Qed.

(** What the checks of a manifest say about its paths *)
Lemma validate_manifest_files manifest : validate_manifest manifest = Ok tt ->
  StronglySorted str_lt (ck_path <$> mn_files manifest) /\ Forall (fun f => portable_path (ck_path f) = Ok tt) (mn_files manifest) /\
  reject_prefix_collisions (mn_files manifest) = Ok tt.
Proof.
  unfold validate_manifest, strictly_ordered. rewrite !bind_unit_ok, !reject_if_ok, !try_each_ok.
  intros (_ & _ & _ & _ & _ & _ & _ & Hs & _ & Hf & Hc & _). split_and!; [by apply windows2_keys| |done].
  eapply Forall_impl; [exact Hf|]. intros f. unfold validate_checksum. rewrite bind_unit_ok. tauto.
Qed.
Lemma portable_path_segments path segment : portable_path path = Ok tt -> segment ∈ split_on "/"%char path ->
  segment <> "" /\ segment <> "." /\ segment <> "..".
Proof.
  unfold portable_path. rewrite bind_unit_ok, try_each_ok. intros [_ H] Hs. rewrite Forall_forall in H. specialize (H _ Hs).
  apply reject_if_ok, negb_false_iff in H. split_and!; intros ->; discriminate H.
Qed.
Lemma no_prefix_collision files p q rest : reject_prefix_collisions files = Ok tt ->
  p ∈ ck_path <$> files -> q ∈ ck_path <$> files -> q <> p +:+ String "/"%char rest.
Proof.
  unfold reject_prefix_collisions. rewrite try_each_ok, Forall_forall. intros H Hp Hq ->. specialize (H _ Hq).
  apply reject_if_ok, not_true_iff_false in H. apply H, existsb_exists. exists p. split.
  - apply list_elem_of_In. exact (directories_elem p rest "").
  - apply existsb_exists. exists p. split; [by apply list_elem_of_In|]. by apply string_eqb_eq.
Qed.

(** C34: The files of an accepted manifest form a tree below the package root: paths
    are distinct, no file is a directory of another, and no segment of a path is
    empty, the current or the parent directory. *)
Theorem manifest_files_tree manifest : validate_manifest manifest = Ok tt ->
  NoDup (ck_path <$> mn_files manifest) /\
  (forall p q rest, p ∈ ck_path <$> mn_files manifest -> q ∈ ck_path <$> mn_files manifest -> q <> p +:+ String "/"%char rest) /\
  (forall p segment, p ∈ ck_path <$> mn_files manifest -> segment ∈ split_on "/"%char p ->
     segment <> "" /\ segment <> "." /\ segment <> "..").
Proof.
  intros (Hs & Hf & Hc)%validate_manifest_files. split_and!.
  - by apply sorted_distinct.
  - intros p q rest. by apply no_prefix_collision.
  - intros p segment (f & -> & Hin)%list_elem_of_fmap. rewrite Forall_forall in Hf. by apply portable_path_segments, Hf.
Qed.
Lemma manifest_files_tree_witness : validate_manifest PackageSample.app_manifest = Ok tt /\
  NoDup (ck_path <$> mn_files PackageSample.app_manifest).
Proof.
  assert (H : validate_manifest PackageSample.app_manifest = Ok tt) by (vm_compute; reflexivity).
  split; [exact H|]. apply (manifest_files_tree PackageSample.app_manifest H).
Defined.

(** ** Semantic domains and the source policy *)

(** A semantic domain is that of a package of the graph. *)
Lemma semantic_domain_member graph id domain : package_semantic_domain graph id = Ok domain ->
  exists package, package ∈ rg_packages graph /\ rp_id package = id /\ sd_package domain = rp_instance package /\
    sd_profile domain = cp_profile (rg_compatibility graph).
Proof.
  unfold package_semantic_domain. intros (package & Hf%ok_or_ok & [= <-])%bind_ok.
  apply find_some in Hf as [Hin%list_elem_of_In Heq%string_eqb_eq]. by exists package.
Qed.
(** The spelling of a source policy reads back, and nothing else is one. *)
Lemma trust_mode_spelling value mode : trust_mode_from_str value = Some mode <-> value = trust_mode_as_str mode.
Proof.
  unfold trust_mode_from_str. split.
  - repeat (destruct (string_eqb _ _) eqn:E; [apply string_eqb_eq in E; by intros [= <-]|clear E]). done.
  - intros ->. by destruct mode.
Qed.
